(* ===== verification/_CoqProject ===== *)
-Q . S2P
Prelude.v
BTree.v
Json.v
Canonical.v
Membership.v
FleetView.v
Checkpoint.v
Principal.v
Keyring.v
Text.v
JoinCode.v
Rules.v
WriterQueue.v
DigestSum.v
ClaimRanges.v
RangeCompare.v
Windows.v
Touched.v
Digests.v
PreparedCut.v
Slices.v
Inventory.v
Snapshot.v
Difference.v
Retired.v
WriterHeads.v
Trim.v
Signatures.v
Judging.v
Verdicts.v
FleetStore.v
Admission.v
Backlog.v
Settle.v
Operations.v
Idempotency.v
Seal.v
Receive.v
Delivery.v
PeerAuth.v
Handshake.v
JoinExample.v
Threads.v
Invites.v
JoinRoute.v
InviteExample.v
