(* ===== verification/Prelude.v ===== *)
(** * A verification development for smallclaims, the replicated claims graph

    Fractal's state is a graph of signed claims that every node of a fleet
    holds a copy of.  The crate [crates/smallclaims] keeps it: claims are
    admitted into a SQLite store, carried between members in envelopes, compared
    by digests, ordered canonically, checked against the fleet's membership and
    the principals' keys, gated by rules, and trimmed by agreed checkpoints.  This
    library models that core as executable functions and step relations and proves
    what makes it correct.  All paths below are under crates/smallclaims/src unless
    they start with crates/.

    ** The files, in dependency order

    - [Prelude]: machine integers, bytes and big-endian encodings, strings,
      [Result] and the [let?] notation, labelled runs of a step relation, shared
      tactics ([bool_prop], [crush_match]) and list lemmas.
    - [BTree]: the class [Ord] (Rust's total orders, derived ones by [ord_inj]),
      [BTreeSet] and [BTreeMap] as sorted lists with extensionality, stable
      sorting and [min_by].
    - [Json]: [serde_json::Value] and [canonical_json_value] of hash.rs.
    - [Canonical]: store/canonical.rs.  Claim keys, their sortable bytes, and the
      triggers that keep every claim's canonical position when rows disappear.
    - [Membership]: fleet/membership.rs.  The fold from fleet claims to member
      keys, windows and states, anchored at one pinned key.
    - [FleetView]: fleet/view.rs.  The member list and [accept], the decision about
      a sender.
    - [Checkpoint]: store/checkpoint_agreement.rs.  Participants, excusals,
      verifications, certificates and the certificate that is applied.
    - [Principal]: principal.rs.  Key grants, signing bytes and [judge], the verdict
      on a signed claim; the class [Crypto] stands for ed25519 and base64, the class
      [Facts] for what the store knows.
    - [Keyring]: the seqlock of principal.rs as a step relation of readers and
      writers.
    - [Text]: UTF-8, ASCII case and whitespace as [str] has them.
    - [JoinCode]: fleet/code.rs.  The join code's record and text; base32 and
      SHA-256 are parameters.
    - [Rules]: rules.rs, the gate of store/principals.rs and the shipped rules of
      crates/fractal-kernel/src/rules.rs.
    - [WriterQueue]: sqlite/writer_queue.rs with the senders and the writer loop of
      sqlite.rs, as a step relation.
    - [DigestSum]: the modular sum of store/projection_digest.rs.
    - [ClaimRanges]: store/claim_ranges.rs.  The range digests over retained claims,
      their triggers and background folding, as a step relation.
    - [RangeCompare]: answering and comparing range queries, and the walk of
      sync/worker.rs.
    - [Windows]: windows.rs.  Histograms, percentiles, rings and windows.
    - [Touched]: touched.rs.  Nested recordings of reads and writes.
    - [Digests]: the digests of store/checkpoint.rs and hash.rs.
    - [PreparedCut]: prepared_cut.rs.
    - [Slices]: what [slice] and [Vec] do in the files below: [partition_point],
      [binary_search_by], [insert], [chunk_by], [rotate_left].
    - [Inventory]: the [CompactReplicationInventory] of store.rs, the sorted table of
      batches, claims and tombstones one member announces to another; the classes
      [Hex] and [HexLaws] stand for the hex crate.
    - [Snapshot]: [build_replication_snapshot], [resume_digest] and the triggers of
      store/inventory_generation.rs, with the system of table writes, builds and
      restarts as a step relation.
    - [Difference]: what a member answers to an announced inventory
      ([compact_replication_difference_turn], [export_replication_difference]) and
      the turns in which a listing is taken.
    - [Retired]: store/retired.rs.  The ledger of claims that are no longer kept, its
      paced import and its cursor.
    - [WriterHeads]: store/writer_heads.rs and the local batch numbering of store.rs.
      The highest sequence and hash each writer has used, which outlive the batches.
    - [Trim]: store/checkpoint_trim.rs and store/checkpoint/tombstones.rs.  Recording,
      importing and finishing a trim, interrupted anywhere; the class [OtherTables]
      stands for the tables that only hold copies of what is trimmed.
    - [Signatures]: the tables of store/principals.rs and the operations on them:
      candidates with their counts, nonce uses, links and the queue, the control row
      of store/principals/migration.rs and the tables of legacy.rs; the class
      [SigCodec] stands for serde_json and CBOR and for the order in which SQLite
      reads a table, [SigCodecLaws] for what is relied on.
    - [Judging]: the judgment over stored facts of store/principals.rs, its pages
      (store/principals/judging.rs), the cached verdict, the pass over the queue and
      the recheck.
    - [Verdicts]: the reference judgment, a recursion on who vouches for whom, and
      that judging, paging and rechecking compute it.
    - [FleetStore]: the tables of store.rs that membership is folded from, every
      statement on them with the triggers of [fleet_generation], the fold itself
      ([fleet_membership_tx]) and the caches of [fleet_membership] and
      [sealed_fleet_view_tx].
    - [Admission]: store/prepared_envelope.rs, and of store.rs the receipt of an
      exchange, the hold membership puts on an envelope and the pass over the backlog
      ([admit_replication_backlog]); the class [AdmissionCodec] stands for SHA-256, hex,
      base64, CBOR and JSON, [AdmissionHooks] for the signature tables and what triggers
      keep elsewhere, and the runtime's classification of a claim is an argument.
    - [Backlog]: the single steps the pass refines, and where an admitted claim comes from.
    - [Settle]: that the pass ends and decides every envelope.
    - [Operations]: store/operation_metadata.rs, the operations of store.rs and
      [append_claim] of ivm/runtime.rs.  Idempotency keys and request digests, the
      reduction of claims to operations, registering, repairing and rebuilding their rows,
      and, as a step relation ([op_step]), what every other writer does to them: admission
      stores claims and leaves the rows alone, the projection registers or rebuilds later,
      checkpoints record tombstones and delete claims with the rows that name them,
      adoption withdraws tombstones, and repairs.
    - [Idempotency]: store/idempotency.rs.  Receipts, saved responses and their cleanup.
    - [Seal]: store/prepared_seal.rs, the choice of a claim's signer in
      store/principals.rs and the passes of store.rs.  A chunk of local batches is sealed
      into envelopes without the writer and written when nothing it was made from changed;
      the class [SealSignatures] is what sealing asks of the signature tables, which
      [Signatures] implements, [SealSignaturesReadable] says in which of their states reading
      and storing succeed, and [SealCodec] stands for CBOR and the private keys.
    - [Receive]: that exchanges may be repeated and keep the store well formed, beside passes
      and the node's other transactions, sealing included ([local_step]).
    - [Delivery]: the composition of [Seal] with [Admission]: what one store seals,
      another admits; the class [SignaturesStorable] says in which states of the receiver's
      tables a signature can be stored.
    - [PeerAuth]: sync/mod.rs.  The MAC and the member's signature on every request and
      answer between members, and [verify_sender]; the classes [AuthCrypto] and
      [HttpHeaders] stand for HMAC, SHA-256, private keys and the http package.
    - [Handshake]: fleet/handshake.rs.  The joiner's request and proof, what the sponsor
      checks, seals and signs, and opening it; the class [JoinCrypto] stands for X25519,
      HKDF, ChaCha20-Poly1305 and JSON, [JoinLaws] for what is relied on.
    - [JoinExample]: packages that keep those laws, and a handshake worked out with them.
    - [Threads]: methods of many store accesses as programs, run alone or in a pool of
      threads, and the condition under which a pool may be trusted.
    - [Invites]: the invites, joins and removals of store.rs as such programs; the class
      [ClaimsGraph] is what they ask of the claims graph.
    - [JoinRoute]: the join route of sync/worker.rs and sync/backend.rs, which puts
      [Invites] and [Handshake] together.
    - [InviteExample]: a small claims graph that keeps its laws, and invites of it.

    ** How the model follows the code

    Each struct is a [Record] and each enum an [Inductive]; each function is a
    [Definition] or [Fixpoint] of the same name where the name is free, and a loop's
    body has a definition of its own.  Errors are values of [result]; [Option] is
    [option].  Integers are [Z] with the wrap-around, saturating and checked
    operations the code uses written out where they can matter ([wadd64], [sadd64],
    [checked_add64], the [u16] and [u128] steps of [Windows.bucket] and [upper]).
    [BTreeMap] and [BTreeSet] are sorted lists, so that iteration order, [==] and
    [Ord] are the code's.  SQL tables are records of rows and each trigger or
    transaction is a function on them.  Threads and interleaving transactions are
    step relations, and the theorems about them are about every run.  A method that is
    not one transaction is a program of accesses ([Threads]), so that the same definition
    is evaluated alone and interleaved.

    Code of other packages is a parameter: SHA-256, SHA-512, hex, base32, base64,
    ed25519, CBOR and the calendar's day name.  What is used of it is a named hypothesis
    (an output length, injectivity of an encoding, or that a hash does not collide
    on the inputs at hand), and each theorem with such a hypothesis has a witness
    with a concrete function.

    ** What the theorems show

    - Authority ([Membership], [FleetView], [Principal], [Keyring]): every member key
      and every claim that counts descends from the pinned anchor; the fold does not
      depend on arrival order; a sender is accepted only as the theorems say; a
      verified claim was signed by a key rooted in a node through unrevoked grants;
      signing bytes determine what was signed; a settled read of the keyring is
      atomic.
    - Convergence ([Canonical], [Json], [ClaimRanges], [RangeCompare], [DigestSum],
      [Digests], [PreparedCut], [Inventory], [Snapshot], [Difference]): canonical order
      and positions are stable; a complete range index is exact and folding always
      completes it; a missing claim is found by the comparison at the level asked about; equal
      digests are about equal contents; a snapshot that is served is the one of the
      tables as they are; the answer to an inventory names exactly what the two sides
      lack, and an exchange over a range that differs sends a page of envelopes the other
      lacks, all of the range unless the page is full.
    - Agreement ([Checkpoint], [Digests]): exactly who takes part, exactly which
      certificates exist, that two certificates share no participant and that the
      choice among them is the same everywhere.
    - Trimming ([Trim], [Retired], [WriterHeads]): a trim, however often it is cut off and
      resumed, drops exactly the tombstoned envelopes and claims, never breaks the links
      between what stays, and leaves the ledger exact; a writer's sequence numbers are
      never reused, and its chain continues from the highest batch it ever had.
    - Verdicts ([Signatures], [Judging], [Verdicts]): the memoized, depth-bounded
      judgment is the reference judgment, and rechecking an emptied cache ends, in
      whatever order and pages the rows are read, with the reference verdict of every
      claim; both on stores whose authority is [Verdicts.tame]: no claim relies on itself,
      reliance is no deeper than the code follows, and no grant or revocation has more
      signatures than a page.  There is a store, not tame, on which the pass never ends
      ([Judging.self_revocation_never_settles]).  Forgetting a claim leaves nothing of
      it and sends back the judgments it could change.
    - Admission ([FleetStore], [Admission], [Backlog], [Settle], [Receive]): a membership
      served from a cache is the one of the tables; a pass over the backlog, interleaved
      with anything, judges each envelope by the membership of the moment; a claim it
      brings in was carried by an envelope that a key of its writer signed, in a verified
      batch, with its content hash as id; the pass ends and leaves no envelope undecided
      that its own membership would let in; an exchange received again changes nothing; rows of
      envelopes and signatures stay well formed whatever else the node does.
    - Requests ([Operations], [Idempotency]): a request with an idempotency key is written
      at most once, and once answered it is answered and not run again, through
      retries, deliveries, checkpoints, repairs of other claims and cleanups, as long as its
      own claims are not repaired and adoption does not withdraw the tombstone of a claim of
      it that is gone (and, for answers, as long as its receipt is not declared safe to
      replay or replaced); rebuilding the operations
      gives exactly what reducing all claims gives; a cleanup touches exactly the due rows.
    - Sealing ([Seal], [Delivery]): a chunk prepared ahead is written as sealing under the
      writer would write it, or not at all; a pass of a quiet store ends with every
      batch sealed; the envelope of a sealed batch is admitted by a receiver that knows its
      claims, which it then stores, except those that name a blob neither side has.
    - Joining ([PeerAuth], [Handshake], [Invites], [JoinRoute]): a message accepted from a
      member was signed by its one current key for this very exchange; a joiner that opens
      an answer holds what the sponsor of its code sealed for its request; an invite admits
      one key under one name whatever runs beside it, and five bad proofs burn it; a name
      joined again starts above all that is known of it; a joiner with the code of an open
      invite is answered, and again when the answer is lost.
    - Policy and transport ([Rules], [JoinCode]): exactly which writes the gate
      refuses, that globs mean what they denote, and that join codes round-trip.
    - Execution ([WriterQueue], [Touched], [Windows]): order, fences, bounded
      overtaking and progress of the single writer; recordings see exactly the notes
      of their work; windows hold exactly their samples, and percentiles are right to
      within a sixteenth.

    ** Bounds and fuel

    [Membership.iterate] runs at most [2n + 4] rounds as the code does.
    [ClaimRanges.fold_paced] has fuel for pages; [fold_paced_terminates] shows that one
    more than the backlog is enough.  [WriterQueue.next_loop] has fuel for the jobs in
    the channel; [next_never_sleeps_on_work] includes that it never runs out.
    [Trim.finish_trim] and [record_loop] have fuel for passes: more than the number of
    tombstones is enough when each pass may do one row, and [Retired.import_paced] needs
    two more than the rows; the theorems prove that a result is returned.
    [Judging.judge_loop] has fuel for turns; [Verdicts.recheck_exact] gives a bound that
    is enough, from a measure in which a claim weighs more than all that rely on it.
    [Admission.round] and [rounds] have fuel for iterations and rounds;
    [Settle.backlog_pass_ends] shows that L(L+1) iterations for L envelopes, and one more
    for each change others make to membership meanwhile, are enough.
    [Seal.seal_chunks] has fuel for chunks; [quiet_store_seals_all] shows that more than
    the rowids between the frontier and the last batch is enough.
    [Invites.trim_start_matches] has the length of its text as fuel, and takes at least a
    character with each prefix.
    The depth of a judgment is the code's own bound, MAX_CHAIN_DEPTH.  The
    glob matcher and the JSON functions recurse on their data.  Theorems about counts
    assume totals below 2^64, and [Keyring.settled_atomic] fewer than 2^64 steps between
    the two loads.

    ** Not modelled

    I/O and scheduling (HTTP, TLS, timers, async tasks, SQLite itself), telemetry and
    profiling, and the crates above the claims graph are left out.  So are, of smallclaims:
    founding, joining and activating on the joiner's machine (fleet/join.rs, fleet/file.rs),
    which is files and tools around the handshake; repairing records
    (store/replica_record.rs, store/repair_ledger.rs); the legacy judge and the bootstrap
    inventory; the choice of the checkpoint to adopt and its manifests
    (store/checkpoint_trim.rs); the projections over claims and the incremental views
    (store/events.rs, ivm.rs), each an SQL fold of its own; and the budgets of readers and
    the writer (read_budget.rs, sqlite/writer_budget.rs), which measure time.  In [Invites]
    a sealing pass is one access, although [Seal] shows that it takes several: other
    threads may change the fleet's tables at any time in any case.  The fault points of
    tests are left out. *)

From stdpp Require Export base list sets strings pretty sorting.
From Stdlib Require Export ZArith Ascii Lia.

#[export] Set Default Goal Selector "!".

Declare Scope claims_scope.
Delimit Scope claims_scope with claims.
#[export] Unset Universe Polymorphism.

(** ** Proof automation *)

Create HintDb claims discriminated.

(** Case on the [if]s and [match]es of the goal, closing the trivial cases. *)
Ltac crush_match :=
  repeat (case_match; simplify_eq/=; try done).

(** Turn boolean tests in the context into propositions. *)
Ltac bool_prop :=
  repeat match goal with
  | H : _ && _ = true |- _ => apply andb_true_iff in H; destruct H
  | H : _ || _ = false |- _ => apply orb_false_iff in H; destruct H
  | H : negb _ = true |- _ => apply negb_true_iff in H
  | H : negb _ = false |- _ => apply negb_false_iff in H
  | H : bool_decide _ = true |- _ => apply bool_decide_eq_true in H
  | H : bool_decide _ = false |- _ => apply bool_decide_eq_false in H
  | H : (_ <? _)%Z = true |- _ => apply Z.ltb_lt in H
  | H : (_ <? _)%Z = false |- _ => apply Z.ltb_ge in H
  | H : (_ <=? _)%Z = true |- _ => apply Z.leb_le in H
  | H : (_ <=? _)%Z = false |- _ => apply Z.leb_gt in H
  | H : (_ =? _)%Z = true |- _ => apply Z.eqb_eq in H
  | H : (_ =? _)%Z = false |- _ => apply Z.eqb_neq in H
  end.

(** ** Machine integers: a [w]-bit unsigned integer is a [Z] in range *)

Definition width_max (w : Z) : Z := 2 ^ w - 1.
Definition u16_max : Z := Eval cbv in width_max 16.
Definition u32_max : Z := Eval cbv in width_max 32.
Definition u64_max : Z := Eval cbv in width_max 64.
Definition u128_max : Z := Eval cbv in width_max 128.
Definition i64_max : Z := Eval cbv in width_max 63.

Definition u64 (n : Z) : Prop := (0 <= n <= u64_max)%Z.
Definition u128 (n : Z) : Prop := (0 <= n <= u128_max)%Z.

(** Wrap-around and saturating arithmetic on [u64]. *)
Definition wadd64 (a b : Z) : Z := ((a + b) mod (u64_max + 1))%Z.
Definition sadd64 (a b : Z) : Z := Z.min (a + b) u64_max.
Definition ssub (a b : Z) : Z := Z.max 0 (a - b).
Definition checked_add64 (a b : Z) : option Z :=
  if (a + b <=? u64_max)%Z then Some (a + b)%Z else None.

Lemma wadd64_exact a b : (0 <= a + b <= u64_max)%Z → wadd64 a b = (a + b)%Z.
Proof. intros H. unfold wadd64. rewrite Z.mod_small; unfold u64_max in *; lia. Qed.

Lemma sadd64_range a b : u64 a → u64 b → u64 (sadd64 a b).
Proof. unfold u64, sadd64; lia. Qed.

Lemma sadd64_exact a b : (a + b <= u64_max)%Z → sadd64 a b = (a + b)%Z.
Proof. unfold sadd64; lia. Qed.

(** ** Bytes *)

(** A byte is an [ascii]; a Rust [String] or [&[u8]] is a [string] or a
    [list ascii]. *)
Definition byte_val (b : ascii) : Z := Z.of_N (N_of_ascii b).
Definition byte_of (z : Z) : ascii := ascii_of_N (Z.to_N (z mod 256)).

Definition bytes_of : string → list ascii := String.list_ascii_of_string.
Definition string_of : list ascii → string := String.string_of_list_ascii.

Lemma byte_val_range b : (0 <= byte_val b < 256)%Z.
Proof. unfold byte_val. pose proof (N_ascii_bounded b). lia. Qed.

Lemma byte_of_val b : byte_of (byte_val b) = b.
Proof.
  unfold byte_of. rewrite Z.mod_small by apply byte_val_range.
  unfold byte_val. rewrite N2Z.id. apply ascii_N_embedding.
Qed.

Lemma byte_val_of z : byte_val (byte_of z) = (z mod 256)%Z.
Proof.
  unfold byte_of, byte_val.
  pose proof (Z.mod_pos_bound z 256 ltac:(lia)).
  rewrite N_ascii_embedding by lia. lia.
Qed.

Lemma byte_val_inj b c : byte_val b = byte_val c → b = c.
Proof. intros H. rewrite <-(byte_of_val b), <-(byte_of_val c). by rewrite H. Qed.

Lemma bytes_of_inj s t : bytes_of s = bytes_of t → s = t.
Proof.
  intros H. rewrite <-(String.string_of_list_ascii_of_string s),
    <-(String.string_of_list_ascii_of_string t).
  by f_equal.
Qed.

Lemma bytes_of_string_of l : bytes_of (string_of l) = l.
Proof. apply String.list_ascii_of_string_of_list_ascii. Qed.

Lemma string_of_bytes_of s : string_of (bytes_of s) = s.
Proof. apply String.string_of_list_ascii_of_string. Qed.

Lemma string_app_cons a s t : String a s +:+ t = String a (s +:+ t).
Proof. done. Qed.

Lemma bytes_of_app s t : bytes_of (s +:+ t) = bytes_of s ++ bytes_of t.
Proof.
  unfold bytes_of. induction s as [|a s IH]; [done|].
  rewrite string_app_cons. cbn. by rewrite IH.
Qed.

Definition len (s : string) : Z := Z.of_nat (length (bytes_of s)).

(** [to_be_bytes] of an integer of [n] bytes, and its inverse. *)
Fixpoint be_bytes (n : nat) (z : Z) : list ascii :=
  match n with
  | O => []
  | S n' => byte_of (z / 256 ^ Z.of_nat n') :: be_bytes n' z
  end.

Definition be_val (l : list ascii) : Z :=
  foldl (λ acc b, acc * 256 + byte_val b)%Z 0%Z l.

Lemma length_be_bytes n z : length (be_bytes n z) = n.
Proof. induction n as [|n IH]; cbn; [done|]. by rewrite IH. Qed.

Lemma be_val_acc l a :
  foldl (λ acc b, acc * 256 + byte_val b)%Z a l
  = (a * 256 ^ Z.of_nat (length l) + be_val l)%Z.
Proof.
  unfold be_val. revert a. induction l as [|b l IH]; intros a; [cbn; lia|].
  cbn [foldl length]. rewrite (IH (a * 256 + byte_val b)%Z), (IH (0 * 256 + byte_val b)%Z).
  rewrite Nat2Z.inj_succ, Z.pow_succ_r by lia. nia.
Qed.

Lemma be_val_cons b l :
  be_val (b :: l) = (byte_val b * 256 ^ Z.of_nat (length l) + be_val l)%Z.
Proof. unfold be_val at 1. cbn [foldl]. rewrite be_val_acc. lia. Qed.

Lemma be_val_range l : (0 <= be_val l < 256 ^ Z.of_nat (length l))%Z.
Proof.
  induction l as [|b l IH]; [cbn; lia|].
  rewrite be_val_cons. cbn [length]. rewrite Nat2Z.inj_succ, Z.pow_succ_r by lia.
  pose proof (byte_val_range b). nia.
Qed.

Lemma be_val_be_bytes n z : be_val (be_bytes n z) = (z mod 256 ^ Z.of_nat n)%Z.
Proof.
  induction n as [|n IH]; [by rewrite Z.mod_1_r|].
  cbn [be_bytes]. rewrite be_val_cons, length_be_bytes, IH, byte_val_of.
  rewrite Nat2Z.inj_succ, Z.pow_succ_r by lia.
  rewrite (Z.mul_comm 256), Z.rem_mul_r by lia. lia.
Qed.

Lemma be_bytes_mod n z : be_bytes n (z mod 256 ^ Z.of_nat n) = be_bytes n z.
Proof.
  assert (∀ k, (k <= n)%nat → be_bytes k (z mod 256 ^ Z.of_nat n) = be_bytes k z) as H; [|by apply H].
  induction k as [|k IH]; intros Hk; [done|]. cbn. rewrite IH by lia. f_equal.
  unfold byte_of. do 2 f_equal.
  replace (256 ^ Z.of_nat n)%Z with (256 ^ Z.of_nat k * 256 * 256 ^ Z.of_nat (n - k - 1))%Z.
  2: { change 256%Z with (256 ^ 1)%Z at 2. rewrite <-!Z.pow_add_r by lia. f_equal. lia. }
  rewrite <-Z.mul_assoc, Z.rem_mul_r by lia.
  rewrite (Z.mul_comm (256 ^ Z.of_nat k)), Z.div_add by lia.
  rewrite Z.div_small by (apply Z.mod_pos_bound; lia). cbn [Z.add].
  rewrite Z.add_0_l, Z.rem_mul_r by lia.
  rewrite (Z.mul_comm 256), Z_mod_plus_full. apply Z.mod_mod. lia.
Qed.

Lemma be_val_be_bytes_small n z :
  (0 <= z < 256 ^ Z.of_nat n)%Z → be_val (be_bytes n z) = z.
Proof. intros H. by rewrite be_val_be_bytes, Z.mod_small. Qed.

Lemma be_bytes_inj n z z' :
  (0 <= z < 256 ^ Z.of_nat n)%Z → (0 <= z' < 256 ^ Z.of_nat n)%Z →
  be_bytes n z = be_bytes n z' → z = z'.
Proof.
  intros Hz Hz' H. rewrite <-(be_val_be_bytes_small n z), <-(be_val_be_bytes_small n z') by done.
  by rewrite H.
Qed.

(** ** Strings *)

(** [str::strip_prefix] and [str::starts_with] *)
Fixpoint strip_prefix (p s : string) : option string :=
  match p, s with
  | EmptyString, _ => Some s
  | String a p', String b s' => if Ascii.eqb a b then strip_prefix p' s' else None
  | _, _ => None
  end.

Definition starts_with (p s : string) : bool := bool_decide (is_Some (strip_prefix p s)).

(** [str::split_once] at a one-byte separator. *)
Fixpoint split_once (c : ascii) (s : string) : option (string * string) :=
  match s with
  | EmptyString => None
  | String a s' =>
      if Ascii.eqb a c then Some (EmptyString, s')
      else match split_once c s' with
           | Some (l, r) => Some (String a l, r)
           | None => None
           end
  end.

(** [[&str]::join] *)
Definition join (sep : string) (l : list string) : string := String.concat sep l.

Lemma strip_prefix_Some p s r : strip_prefix p s = Some r ↔ s = p +:+ r.
Proof.
  revert s. induction p as [|a p IH]; intros s; cbn.
  - change (EmptyString +:+ r) with r. split; congruence.
  - rewrite string_app_cons. destruct s as [|b s]; [by split|].
    destruct (Ascii.eqb_spec a b) as [<-|Hne]; [rewrite IH|]; split; congruence.
Qed.

Lemma starts_with_spec p s : starts_with p s = true ↔ ∃ r, s = p +:+ r.
Proof.
  unfold starts_with. rewrite bool_decide_eq_true.
  split; intros [r H]; exists r; by apply strip_prefix_Some.
Qed.

Lemma split_once_Some c s l r :
  split_once c s = Some (l, r) → s = l +:+ String c r ∧ c ∉ bytes_of l.
Proof.
  revert l. induction s as [|a s IH]; intros l; cbn; [done|].
  destruct (Ascii.eqb_spec a c) as [->|Hne].
  - intros [= <- <-]. split; [done|]. cbn. apply not_elem_of_nil.
  - destruct (split_once c s) as [[l' r']|]; [|done].
    intros [= <- <-]. destruct (IH l' eq_refl) as [-> Hn]. split; [done|].
    cbn. rewrite not_elem_of_cons. done.
Qed.

Lemma app_sep_inj {A} (c : A) (l l' r r' : list A) :
  c ∉ l → c ∉ l' → l ++ c :: r = l' ++ c :: r' → l = l' ∧ r = r'.
Proof.
  revert l'. induction l as [|x l IH]; intros [|y l'] Hl Hl'; cbn.
  - by intros [= ->].
  - intros [= -> _]. set_solver.
  - intros [= -> _]. set_solver.
  - intros [= -> E]. rewrite not_elem_of_cons in Hl, Hl'.
    destruct (IH l') as [-> ->]; naive_solver.
Qed.

Lemma string_sep_inj c s s' r r' :
  c ∉ bytes_of s → c ∉ bytes_of s' → s +:+ String c r = s' +:+ String c r' → s = s' ∧ r = r'.
Proof.
  intros Hs Hs' E%(f_equal bytes_of). rewrite !bytes_of_app in E. cbn in E.
  apply app_sep_inj in E as [E1 E2]; [|done..].
  split; by apply bytes_of_inj.
Qed.

Lemma join_cons sep x l : l ≠ [] → join sep (x :: l) = x +:+ sep +:+ join sep l.
Proof. by destruct l. Qed.

(** Joining with a separator loses nothing when no piece but the last holds
    the separator and the number of pieces is known. *)
Lemma join_inj_last c l l' x x' :
  length l = length l' → (∀ s, s ∈ l → c ∉ bytes_of s) → (∀ s, s ∈ l' → c ∉ bytes_of s) →
  join (String c EmptyString) (l ++ [x]) = join (String c EmptyString) (l' ++ [x']) → l = l' ∧ x = x'.
Proof.
  revert l'. induction l as [|s l IH]; intros [|s' l'] Hlen Hl Hl'; try done.
  rewrite <-!app_comm_cons, !join_cons by (by intros [_ ?]%app_nil).
  rewrite !(string_app_cons c EmptyString).
  intros [-> E]%string_sep_inj; [|apply Hl; left|apply Hl'; left].
  destruct (IH l') as [-> ->]; [by injection Hlen|set_solver..|done|done].
Qed.

(** Lists of pieces that are nonempty and free of the separator. *)
Lemma join_inj c l l' :
  (∀ s, s ∈ l → s ≠ EmptyString ∧ c ∉ bytes_of s) → (∀ s, s ∈ l' → s ≠ EmptyString ∧ c ∉ bytes_of s) →
  join (String c EmptyString) l = join (String c EmptyString) l' → l = l'.
Proof.
  revert l'. induction l as [|s l IH]; intros [|s' l'] Hl Hl'.
  - done.
  - intros E. destruct (Hl' s') as [Hs _]; [left|]. destruct l'; cbn in E; [by subst|]. by destruct s'.
  - intros E. destruct (Hl s) as [Hs _]; [left|]. destruct l; cbn in E; [by subst|]. by destruct s.
  - destruct (Hl s) as [_ Hs], (Hl' s') as [_ Hs']; [left..|].
    destruct l as [|t l], l' as [|t' l'].
    + cbn. by intros ->.
    + rewrite (join_cons _ s') by done. rewrite (string_app_cons c EmptyString). cbn. intros ->.
      exfalso. apply Hs. rewrite bytes_of_app. cbn. set_solver.
    + rewrite (join_cons _ s) by done. rewrite (string_app_cons c EmptyString). cbn. intros <-.
      exfalso. apply Hs'. rewrite bytes_of_app. cbn. set_solver.
    + rewrite !join_cons by done. rewrite !(string_app_cons c EmptyString).
      intros [-> E]%string_sep_inj; [|done..]. f_equal. apply IH; [set_solver..|done].
Qed.

(** A decimal rendering, as [u64::to_string] and [u128::to_string] give it. *)
Definition decimal (z : Z) : string := pretty (Z.to_N z).

Lemma decimal_inj a b : (0 <= a)%Z → (0 <= b)%Z → decimal a = decimal b → a = b.
Proof. unfold decimal. intros Ha Hb H%(inj pretty). lia. Qed.

(** ** Options *)

(** [Option::is_none_or], [Option::is_some_and] *)
Definition is_none_or {A} (f : A → bool) (o : option A) : bool :=
  match o with Some a => f a | None => true end.
Definition is_some_and {A} (f : A → bool) (o : option A) : bool :=
  match o with Some a => f a | None => false end.

(** ** Errors: [Result<T, E>] *)

Inductive result (T E : Type) : Type :=
| Ok (value : T)
| Err (error : E).
Arguments Ok {T E} value.
Arguments Err {T E} error.

Definition result_bind {T U E} (r : result T E) (f : T → result U E) : result U E :=
  match r with Ok v => f v | Err e => Err e end.

(** The [?] operator: continue with the value or return the error. *)
Notation "'let?' x := r 'in' k" := (result_bind r (λ x, k))
  (at level 10, x pattern, r at level 100, k at level 200) : claims_scope.

#[export] Instance result_eq_dec `{EqDecision T, EqDecision E} : EqDecision (result T E).
Proof. solve_decision. Defined.

Lemma result_bind_Ok {T U E} (r : result T E) (f : T → result U E) u :
  result_bind r f = Ok u ↔ ∃ v, r = Ok v ∧ f v = Ok u.
Proof. destruct r; cbn; naive_solver. Qed.

(** ** Steps *)

(** Reflexive-transitive closure of a labelled step relation, with its trace. *)
Inductive run {S L : Type} (step : S → L → S → Prop) : S → list L → S → Prop :=
| run_nil s : run step s [] s
| run_cons s l s' tr s'' : step s l s' → run step s' tr s'' → run step s (l :: tr) s''.

Lemma run_invariant {S L} (step : S → L → S → Prop) (I : S → Prop) :
  (∀ s l s', I s → step s l s' → I s') →
  ∀ s tr s', run step s tr s' → I s → I s'.
Proof. intros Hstep s tr s'. induction 1; eauto. Qed.

Lemma run_app {S L} (step : S → L → S → Prop) s tr s' tr' s'' :
  run step s tr s' → run step s' tr' s'' → run step s (tr ++ tr') s''.
Proof. induction 1; cbn; [done|]. intros. eapply run_cons; eauto. Qed.

(** ** Lists *)

(** [Iterator::position] and [Iterator::find] *)
Definition position {A} (p : A → bool) (l : list A) : option nat :=
  fst <$> list_find (λ x, p x = true) l.

Lemma find_some_filter {A} (p : A → bool) l a :
  List.find p l = Some a → a ∈ l ∧ p a = true.
Proof. intros H%List.find_some. by rewrite list_elem_of_In. Qed.

Lemma existsb_elem_of {A} (p : A → bool) l :
  existsb p l = true ↔ ∃ a, a ∈ l ∧ p a = true.
Proof. rewrite existsb_exists. by setoid_rewrite <-list_elem_of_In. Qed.

Lemma forallb_elem_of {A} (p : A → bool) l :
  forallb p l = true ↔ ∀ a, a ∈ l → p a = true.
Proof. rewrite forallb_forall. by setoid_rewrite <-list_elem_of_In. Qed.

Lemma filter_elem_of {A} (p : A → bool) l a :
  a ∈ List.filter p l ↔ a ∈ l ∧ p a = true.
Proof. by rewrite !list_elem_of_In, filter_In. Qed.

Lemma NoDup_fmap_filter {A B} (f : A → B) (p : A → bool) (l : list A) :
  NoDup (f <$> l) → NoDup (f <$> List.filter p l).
Proof.
  induction l as [|a l IH]; cbn; intros Hd; [constructor|].
  apply NoDup_cons in Hd as [Hn Hd]. destruct (p a); cbn; [|by apply IH].
  constructor; [|by apply IH]. rewrite list_elem_of_fmap. intros (b & E & [Hb _]%filter_elem_of).
  apply Hn. rewrite E. apply list_elem_of_fmap. by exists b.
Qed.

Lemma filter_ext_elem {A} (p q : A → bool) l :
  (∀ a, a ∈ l → p a = q a) → List.filter p l = List.filter q l.
Proof.
  induction l as [|a l IH]; intros H; [done|]. cbn.
  rewrite (H a) by left. rewrite IH by (intros; apply H; by right). done.
Qed.

(** The running minimum, and [Iterator::min] over integers. *)
Definition min_option (o : option Z) (z : Z) : option Z :=
  Some (match o with Some m => Z.min m z | None => z end).
Definition list_min (l : list Z) : option Z := foldl min_option None l.

Lemma list_min_acc l o m :
  foldl min_option o l = Some m →
  (m ∈ l ∨ o = Some m) ∧ (∀ z, z ∈ l → m <= z)%Z ∧ (∀ z, o = Some z → m <= z)%Z.
Proof.
  revert o. induction l as [|x l IH]; intros o; cbn.
  - intros ->. split_and!; [by right|set_solver|]. intros z [= ->]. lia.
  - intros H. destruct (IH _ H) as ([Hin|[= E]] & Hl & Ho).
    + specialize (Ho _ eq_refl). split_and!; [set_solver| |].
      * intros z [->|?]%elem_of_cons; [destruct o; lia|auto].
      * intros z ->. lia.
    + specialize (Ho _ eq_refl). split_and!.
      * destruct o as [y|]; [|subst; set_solver].
        destruct (Z.min_spec y x) as [[_ E']|[_ E']]; rewrite E' in E; subst; [by right|set_solver].
      * intros z [->|?]%elem_of_cons; [destruct o; lia|auto].
      * intros z ->. lia.
Qed.

Lemma list_min_Some l m : list_min l = Some m → m ∈ l ∧ (∀ z, z ∈ l → m <= z)%Z.
Proof. intros H. destruct (list_min_acc _ _ _ H) as ([?|?] & ? & _); done. Qed.

Lemma list_min_None l : list_min l = None ↔ l = [].
Proof.
  split; [|by intros ->]. destruct l as [|x l]; [done|]. unfold list_min. cbn [foldl].
  assert (∀ l o, is_Some o → is_Some (foldl min_option o l)) as H.
  { clear. induction l as [|y l IH]; intros o Ho; cbn; [done|]. apply IH. done. }
  intros E. destruct (H l (min_option None x)) as [? E']; [done|]. congruence.
Qed.
