(* ===== verification/BTree.v ===== *)
(** * Ordered collections: Rust's [Ord], [BTreeSet] and [BTreeMap]

    The code keeps its sets and maps in [BTreeSet]/[BTreeMap], iterates them
    in key order, compares them with [==] and orders them with [Ord].  Here a
    total order is a type class [Ord]; a [BTreeSet] is the list of its
    elements in increasing order and a [BTreeMap] the list of its entries in
    increasing key order, so that iteration, [==] and [Ord] are those of the
    lists.  [bset_ext] is the extensionality the [==] of the code relies on. *)

From S2P Require Import Prelude.

(** ** Total orders *)

Class Ord (A : Type) := {
  cmp : A → A → comparison;
  cmp_eq : ∀ x y, cmp x y = Eq ↔ x = y;
  cmp_opp : ∀ x y, cmp y x = CompOpp (cmp x y);
  cmp_lt_trans : ∀ x y z, cmp x y = Lt → cmp y z = Lt → cmp x z = Lt
}.

Definition lt_ord `{Ord A} (x y : A) : Prop := cmp x y = Lt.
Definition eqb_ord `{Ord A} (x y : A) : bool :=
  match cmp x y with Eq => true | _ => false end.

(** [Ordering::then_with] *)
Definition then_with (c d : comparison) : comparison :=
  match c with Eq => d | _ => c end.

Section ord_facts.
Context `{Ord A}.
Implicit Types x y z : A.

Lemma cmp_refl x : cmp x x = Eq.
Proof. by apply cmp_eq. Qed.

Lemma cmp_gt x y : cmp x y = Gt ↔ cmp y x = Lt.
Proof. rewrite (cmp_opp x y). by destruct (cmp x y). Qed.

Lemma eqb_ord_spec x y : reflect (x = y) (eqb_ord x y).
Proof.
  unfold eqb_ord. destruct (cmp x y) eqn:E; constructor.
  - by apply cmp_eq.
  - intros ->. by rewrite cmp_refl in E.
  - intros ->. by rewrite cmp_refl in E.
Qed.

Lemma eqb_ord_refl x : eqb_ord x x = true.
Proof. by destruct (eqb_ord_spec x x). Qed.

Lemma eqb_ord_true x y : eqb_ord x y = true ↔ x = y.
Proof. destruct (eqb_ord_spec x y); naive_solver. Qed.

Lemma eqb_ord_ne x y : x ≠ y → eqb_ord x y = false.
Proof. by destruct (eqb_ord_spec x y). Qed.

Lemma lt_ord_irrefl x : ¬ lt_ord x x.
Proof. unfold lt_ord. by rewrite cmp_refl. Qed.

#[export] Instance lt_ord_trans : Transitive (lt_ord (A:=A)).
Proof. intros x y z. apply cmp_lt_trans. Qed.

#[export] Instance lt_ord_strict : StrictOrder (lt_ord (A:=A)).
Proof. split; [exact lt_ord_irrefl | exact lt_ord_trans]. Qed.

Lemma lt_ord_asym x y : lt_ord x y → ¬ lt_ord y x.
Proof. intros H1 H2. apply (lt_ord_irrefl x). by transitivity y. Qed.

Lemma ord_eq_dec : EqDecision A.
Proof. intros x y. destruct (eqb_ord_spec x y); [by left|by right]. Defined.
End ord_facts.

Lemma then_with_lt c d : then_with c d = Lt ↔ c = Lt ∨ (c = Eq ∧ d = Lt).
Proof. destruct c, d; naive_solver. Qed.

Lemma then_with_eq c d : then_with c d = Eq ↔ c = Eq ∧ d = Eq.
Proof. destruct c, d; naive_solver. Qed.

Lemma then_with_opp c d : CompOpp (then_with c d) = then_with (CompOpp c) (CompOpp d).
Proof. by destruct c. Qed.

(** *** Instances *)

#[export] Program Instance ord_Z : Ord Z := {| cmp := Z.compare |}.
Next Obligation. apply Z.compare_eq_iff. Qed.
Next Obligation. apply Z.compare_antisym. Qed.
Next Obligation. intros x y z. rewrite !Z.compare_lt_iff. lia. Qed.

(** An order pulled back along an injection; how a record with [derive(Ord)]
    is ordered by the tuple of its fields. *)
Program Definition ord_inj {A B} (f : A → B) (Hf : Inj (=) (=) f) `{Ord B} : Ord A :=
  {| cmp x y := cmp (f x) (f y) |}.
Next Obligation. intros A B f Hf HB x y. rewrite cmp_eq. split; [apply Hf|by intros ->]. Qed.
Next Obligation. intros A B f Hf HB x y. apply cmp_opp. Qed.
Next Obligation. intros A B f Hf HB x y z. apply cmp_lt_trans. Qed.

(** Bytes are ordered as unsigned integers. *)
#[export] Instance ord_byte : Ord ascii := ord_inj byte_val byte_val_inj.

(** Pairs lexicographically. *)
#[export] Program Instance ord_prod `{Ord A, Ord B} : Ord (A * B) :=
  {| cmp x y := then_with (cmp x.1 y.1) (cmp x.2 y.2) |}.
Next Obligation.
  intros A HA B HB [a b] [a' b']; cbn. rewrite then_with_eq, !cmp_eq.
  naive_solver.
Qed.
Next Obligation.
  intros A HA B HB [a b] [a' b']; cbn. by rewrite then_with_opp, <-!cmp_opp.
Qed.
Next Obligation.
  intros A HA B HB [a b] [a' b'] [a'' b'']; cbn. rewrite !then_with_lt, !cmp_eq.
  intros [?|[-> ?]] [?|[-> ?]]; eauto using cmp_lt_trans.
Qed.

(** Sequences lexicographically, a proper prefix first. *)
Fixpoint list_cmp `{Ord A} (l l' : list A) : comparison :=
  match l, l' with
  | [], [] => Eq
  | [], _ :: _ => Lt
  | _ :: _, [] => Gt
  | x :: k, y :: k' => then_with (cmp x y) (list_cmp k k')
  end.

#[export] Program Instance ord_list `{Ord A} : Ord (list A) := {| cmp := list_cmp |}.
Next Obligation.
  intros A HA l. induction l as [|x l IH]; intros [|y l']; cbn; try naive_solver.
  rewrite then_with_eq, cmp_eq, IH. naive_solver.
Qed.
Next Obligation.
  intros A HA l. induction l as [|x l IH]; intros [|y l']; cbn; try done.
  by rewrite then_with_opp, <-IH, <-cmp_opp.
Qed.
Next Obligation.
  intros A HA l. induction l as [|x l IH]; intros [|y l'] [|z l'']; cbn; try done.
  rewrite !then_with_lt, !cmp_eq. intros [?|[-> ?]] [?|[-> ?]]; eauto using cmp_lt_trans.
Qed.

(** Options: [None] first. *)
#[export] Program Instance ord_option `{Ord A} : Ord (option A) :=
  {| cmp x y := match x, y with
                | None, None => Eq | None, Some _ => Lt
                | Some _, None => Gt | Some a, Some b => cmp a b
                end |}.
Next Obligation. intros A HA [a|] [b|]; rewrite ?cmp_eq; naive_solver. Qed.
Next Obligation. intros A HA [a|] [b|]; try done. apply cmp_opp. Qed.
Next Obligation. intros A HA [a|] [b|] [c|]; try done. apply cmp_lt_trans. Qed.

(** Strings as their bytes. *)
#[export] Instance ord_string : Ord string := ord_inj bytes_of bytes_of_inj.

Lemma cmp_string_bytes (s t : string) : cmp s t = cmp (bytes_of s) (bytes_of t).
Proof. done. Qed.

#[global] Arguments cmp : simpl never.

(** ** [BTreeSet] *)

Definition BTreeSet (A : Type) : Type := list A.

Section bset.
Context `{Ord A}.
Implicit Types (x y : A) (s : BTreeSet A).

Definition bset_empty : BTreeSet A := [].

Fixpoint bset_insert x s : BTreeSet A :=
  match s with
  | [] => [x]
  | y :: s' => match cmp x y with
               | Lt => x :: s
               | Eq => s
               | Gt => y :: bset_insert x s'
               end
  end.

Definition bset_mem x s : bool := existsb (eqb_ord x) s.
Definition bset_remove x s : BTreeSet A := List.filter (λ y, negb (eqb_ord x y)) s.
Definition bset_extend s (l : list A) : BTreeSet A := foldl (λ s x, bset_insert x s) s l.
Definition bset_of_list (l : list A) : BTreeSet A := bset_extend bset_empty l.
Definition bset_inter s t : BTreeSet A := List.filter (λ x, bset_mem x t) s.
Definition bset_eqb s t : bool := eqb_ord (A := list A) s t.

Definition bset_wf s : Prop := StronglySorted lt_ord s.

Lemma bset_mem_spec x s : bset_mem x s = true ↔ x ∈ s.
Proof.
  unfold bset_mem. rewrite existsb_elem_of. setoid_rewrite eqb_ord_true. naive_solver.
Qed.

Lemma bset_mem_false x s : bset_mem x s = false ↔ x ∉ s.
Proof. rewrite <-bset_mem_spec. by destruct (bset_mem x s). Qed.

Lemma elem_of_bset_insert x y s : y ∈ bset_insert x s ↔ y = x ∨ y ∈ s.
Proof.
  induction s as [|z s IH]; cbn; [set_solver|].
  destruct (cmp x z) eqn:E.
  - apply cmp_eq in E as ->. set_solver.
  - set_solver.
  - rewrite elem_of_cons, IH, elem_of_cons. naive_solver.
Qed.

Lemma elem_of_bset_remove x y s : y ∈ bset_remove x s ↔ y ∈ s ∧ y ≠ x.
Proof.
  unfold bset_remove. rewrite filter_elem_of, negb_true_iff.
  destruct (eqb_ord_spec x y); naive_solver.
Qed.

Lemma elem_of_bset_extend y s l : y ∈ bset_extend s l ↔ y ∈ s ∨ y ∈ l.
Proof.
  unfold bset_extend. revert s. induction l as [|x l IH]; intros s; cbn; [set_solver|].
  rewrite IH, elem_of_bset_insert. set_solver.
Qed.

Lemma elem_of_bset_of_list y l : y ∈ bset_of_list l ↔ y ∈ l.
Proof. unfold bset_of_list. rewrite elem_of_bset_extend. set_solver. Qed.

Lemma elem_of_bset_inter y s t : y ∈ bset_inter s t ↔ y ∈ s ∧ y ∈ t.
Proof. unfold bset_inter. by rewrite filter_elem_of, bset_mem_spec. Qed.

Lemma bset_insert_wf x s : bset_wf s → bset_wf (bset_insert x s).
Proof.
  unfold bset_wf. induction s as [|y s IH]; cbn; intros Hs.
  - repeat constructor.
  - apply StronglySorted_cons in Hs as [Hy Hs].
    destruct (cmp x y) eqn:E; [by constructor| |].
    + constructor; [by constructor|]. constructor; [done|].
      eapply Forall_impl; [done|]. cbn. intros z ?. by transitivity y.
    + constructor; [by apply IH|]. rewrite Forall_forall in Hy |- *.
      intros z [->|Hz]%elem_of_bset_insert; [by apply cmp_gt|by apply Hy].
Qed.

Lemma bset_extend_wf s l : bset_wf s → bset_wf (bset_extend s l).
Proof.
  unfold bset_extend. revert s. induction l as [|x l IH]; intros s Hs; cbn; [done|].
  by apply IH, bset_insert_wf.
Qed.

Lemma bset_of_list_wf l : bset_wf (bset_of_list l).
Proof. apply bset_extend_wf. constructor. Qed.

Lemma StronglySorted_filter {B} (R : B → B → Prop) (p : B → bool) (l : list B) :
  StronglySorted R l → StronglySorted R (List.filter p l).
Proof.
  induction 1 as [|x l Hl IH Hx]; cbn; [constructor|].
  destruct (p x); [|done]. constructor; [done|].
  rewrite Forall_forall in Hx |- *. intros y [??]%filter_elem_of. eauto.
Qed.

Lemma bset_remove_wf x s : bset_wf s → bset_wf (bset_remove x s).
Proof. apply StronglySorted_filter. Qed.

Lemma bset_inter_wf s t : bset_wf s → bset_wf (bset_inter s t).
Proof. apply StronglySorted_filter. Qed.

(** Two sets with the same elements are the same list: [==] on sets is
    extensional equality. *)
Lemma bset_ext s t : bset_wf s → bset_wf t → (∀ x, x ∈ s ↔ x ∈ t) → s = t.
Proof.
  unfold bset_wf. intros Hs. revert t.
  induction Hs as [|x s Hs IH Hx]; intros t Ht Heq.
  - destruct t as [|y t]; [done|]. destruct (not_elem_of_nil y). apply Heq. left.
  - destruct Ht as [|y t Ht Hy]; [destruct (not_elem_of_nil x); apply Heq; left|].
    rewrite Forall_forall in Hx, Hy.
    assert (x = y) as ->.
    { pose proof (proj1 (Heq x) ltac:(left)) as Hin.
      pose proof (proj2 (Heq y) ltac:(left)) as Hin'.
      apply elem_of_cons in Hin as [?|Hin]; [done|].
      apply elem_of_cons in Hin' as [?|Hin']; [done|].
      exfalso. by apply (lt_ord_asym x y); [apply Hx|apply Hy]. }
    f_equal. apply IH; [done|]. intros z. specialize (Heq z).
    rewrite !elem_of_cons in Heq. split; intros Hz.
    + destruct (proj1 Heq (or_intror Hz)) as [->|?]; [|done].
      by apply Hx, lt_ord_irrefl in Hz.
    + destruct (proj2 Heq (or_intror Hz)) as [->|?]; [|done].
      by apply Hy, lt_ord_irrefl in Hz.
Qed.

Lemma bset_wf_NoDup s : bset_wf s → NoDup s.
Proof.
  induction 1 as [|x s Hs IH Hx]; constructor; [|done].
  rewrite Forall_forall in Hx. intros Hin. by apply Hx, lt_ord_irrefl in Hin.
Qed.

Lemma bset_eqb_spec s t : reflect (s = t) (bset_eqb s t).
Proof. apply eqb_ord_spec. Qed.
End bset.

(** ** [BTreeMap] *)

Definition BTreeMap (K V : Type) : Type := list (K * V).

Section bmap.
Context `{Ord K} {V : Type}.
Implicit Types (k : K) (v : V) (m : BTreeMap K V).

Definition bmap_empty : BTreeMap K V := [].

Fixpoint bmap_get k m : option V :=
  match m with
  | [] => None
  | (k', v) :: m' => if eqb_ord k k' then Some v else bmap_get k m'
  end.

Fixpoint bmap_insert k v m : BTreeMap K V :=
  match m with
  | [] => [(k, v)]
  | (k', v') :: m' => match cmp k k' with
                      | Lt => (k, v) :: m
                      | Eq => (k, v) :: m'
                      | Gt => (k', v') :: bmap_insert k v m'
                      end
  end.

(** [get_mut] followed by an update in place; absent keys are left absent. *)
Definition bmap_update (f : V → V) k m : BTreeMap K V :=
  map (λ '(k', v), (k', if eqb_ord k k' then f v else v)) m.

(** [entry(k).or_insert(d)] followed by an update in place. *)
Definition bmap_entry k (d : V) (f : V → V) m : BTreeMap K V :=
  match bmap_get k m with
  | Some v => bmap_insert k (f v) m
  | None => bmap_insert k (f d) m
  end.

Definition bmap_remove k m : BTreeMap K V :=
  List.filter (λ '(k', _), negb (eqb_ord k k')) m.

Definition bmap_keys m : list K := fst <$> m.
Definition bmap_values m : list V := snd <$> m.
Definition bmap_contains k m : bool := bool_decide (is_Some (bmap_get k m)).

Definition bmap_wf m : Prop := bset_wf (bmap_keys m).

Lemma bmap_get_insert k v m : bmap_get k (bmap_insert k v m) = Some v.
Proof.
  induction m as [|[k' v'] m IH]; cbn; [by rewrite eqb_ord_refl|].
  destruct (cmp k k') eqn:E; cbn; rewrite ?eqb_ord_refl; [done|done|].
  rewrite eqb_ord_ne; [done|]. intros ->. by rewrite cmp_refl in E.
Qed.

Lemma bmap_get_insert_ne k k' v m : k ≠ k' → bmap_get k (bmap_insert k' v m) = bmap_get k m.
Proof.
  intros Hne. induction m as [|[k0 v0] m IH]; cbn; [by rewrite eqb_ord_ne|].
  destruct (cmp k' k0) eqn:E; cbn.
  - apply cmp_eq in E as ->. by rewrite !eqb_ord_ne.
  - by rewrite (eqb_ord_ne k k').
  - by rewrite IH.
Qed.

Lemma bmap_get_entry k d f m :
  bmap_get k (bmap_entry k d f m) = Some (f (default d (bmap_get k m))).
Proof. unfold bmap_entry. destruct (bmap_get k m); by rewrite bmap_get_insert. Qed.

Lemma bmap_get_entry_ne k k' d f m :
  k ≠ k' → bmap_get k (bmap_entry k' d f m) = bmap_get k m.
Proof. intros. unfold bmap_entry. destruct (bmap_get k' m); by rewrite bmap_get_insert_ne. Qed.

Lemma bmap_get_update k k' f m :
  bmap_get k (bmap_update f k' m)
  = if eqb_ord k k' then f <$> bmap_get k m else bmap_get k m.
Proof.
  unfold bmap_update.
  induction m as [|[k0 v0] m IH]; cbn; [by destruct (eqb_ord k k')|].
  rewrite IH. destruct (eqb_ord_spec k k0) as [<-|]; [|done].
  destruct (eqb_ord_spec k k') as [<-|]; [by rewrite eqb_ord_refl|].
  by rewrite eqb_ord_ne by congruence.
Qed.

Lemma bmap_keys_insert k v m : bmap_keys (bmap_insert k v m) = bset_insert k (bmap_keys m).
Proof.
  induction m as [|[k' v'] m IH]; [done|]. cbn.
  destruct (cmp k k') eqn:E; cbn; [|done|].
  - by apply cmp_eq in E as ->.
  - f_equal. apply IH.
Qed.

Lemma bmap_keys_update f k m : bmap_keys (bmap_update f k m) = bmap_keys m.
Proof. induction m as [|[k' v'] m IH]; [done|]. cbn. f_equal. apply IH. Qed.

Lemma bmap_insert_wf k v m : bmap_wf m → bmap_wf (bmap_insert k v m).
Proof. unfold bmap_wf. rewrite bmap_keys_insert. apply bset_insert_wf. Qed.

Lemma bmap_entry_wf k d f m : bmap_wf m → bmap_wf (bmap_entry k d f m).
Proof. unfold bmap_entry. destruct (bmap_get k m); apply bmap_insert_wf. Qed.

Lemma bmap_update_wf f k m : bmap_wf m → bmap_wf (bmap_update f k m).
Proof. unfold bmap_wf. by rewrite bmap_keys_update. Qed.

Lemma bmap_get_elem_of k v m : bmap_get k m = Some v → (k, v) ∈ m.
Proof.
  induction m as [|[k' v'] m IH]; cbn; [done|].
  destruct (eqb_ord_spec k k') as [->|]; [intros [= ->]; left|right; auto].
Qed.

Lemma elem_of_bmap_get k v m : bmap_wf m → (k, v) ∈ m ↔ bmap_get k m = Some v.
Proof.
  intros Hwf. split; [|apply bmap_get_elem_of].
  apply bset_wf_NoDup in Hwf. induction m as [|[k' v'] m IH]; cbn.
  - by intros ?%not_elem_of_nil.
  - cbn in Hwf. apply NoDup_cons in Hwf as [Hn Hwf].
    intros [[= <- <-]|Hin]%elem_of_cons; [by rewrite eqb_ord_refl|].
    rewrite eqb_ord_ne; [by apply IH|]. intros ->. apply Hn.
    apply list_elem_of_fmap. by exists (k', v).
Qed.

Lemma elem_of_bmap_keys k m : k ∈ bmap_keys m ↔ is_Some (bmap_get k m).
Proof.
  induction m as [|[k' v'] m IH]; cbn.
  - split; [by intros ?%not_elem_of_nil|by intros []].
  - rewrite elem_of_cons. unfold bmap_keys in IH. rewrite IH.
    destruct (eqb_ord_spec k k'); naive_solver.
Qed.

Lemma bmap_contains_spec k m : bmap_contains k m = true ↔ k ∈ bmap_keys m.
Proof. unfold bmap_contains. by rewrite bool_decide_eq_true, elem_of_bmap_keys. Qed.

Lemma elem_of_bmap_values v m : v ∈ bmap_values m ↔ ∃ k, (k, v) ∈ m.
Proof.
  unfold bmap_values. rewrite list_elem_of_fmap. split.
  - intros [[k v'] [-> ?]]. by exists k.
  - intros [k ?]. by exists (k, v).
Qed.

Lemma bmap_get_remove k k' m :
  bmap_get k (bmap_remove k' m) = if eqb_ord k k' then None else bmap_get k m.
Proof.
  unfold bmap_remove. induction m as [|[k0 v0] m IH]; cbn; [by destruct (eqb_ord k k')|].
  destruct (eqb_ord_spec k' k0) as [<-|Hne]; cbn; rewrite IH.
  - by destruct (eqb_ord_spec k k').
  - destruct (eqb_ord_spec k k0) as [->|]; [|done]. by rewrite eqb_ord_ne by congruence.
Qed.

Lemma bmap_filter_wf (p : K → bool) m :
  bmap_wf m → bmap_wf (List.filter (λ '(k, _), p k) m).
Proof.
  intros Hwf. unfold bmap_wf, bmap_keys in *.
  induction m as [|[k v'] m IH]; [done|]. cbn in *.
  apply StronglySorted_cons in Hwf as [Hall Hwf]. destruct (p k); [|by apply IH].
  constructor; [by apply IH|]. rewrite Forall_forall in Hall |- *.
  intros x (y & -> & Hy%filter_elem_of)%list_elem_of_fmap. apply Hall, list_elem_of_fmap.
  exists y. by destruct Hy.
Qed.

Lemma bmap_remove_wf k m : bmap_wf m → bmap_wf (bmap_remove k m).
Proof. apply (bmap_filter_wf (λ k', negb (eqb_ord k k'))). Qed.

Lemma bmap_get_filter (p : K → bool) m k v :
  bmap_wf m →
  bmap_get k (List.filter (λ '(k, _), p k) m) = Some v ↔ bmap_get k m = Some v ∧ p k = true.
Proof.
  intros Hwf. rewrite <-!elem_of_bmap_get, filter_elem_of; [done..|]. by apply bmap_filter_wf.
Qed.

(** Two maps with the same lookups are the same list. *)
Lemma bmap_ext (m m' : BTreeMap K V) :
  bmap_wf m → bmap_wf m' → (∀ k, bmap_get k m = bmap_get k m') → m = m'.
Proof.
  intros Hm Hm' Heq.
  assert (bmap_keys m = bmap_keys m') as Hk.
  { apply bset_ext; [done..|]. intros k. by rewrite !elem_of_bmap_keys, Heq. }
  revert m' Hm' Heq Hk. induction m as [|[k v] m IH]; intros [|[k' v'] m'] Hm' Heq Hk; cbn in Hk; try done.
  injection Hk as <- Hk.
  pose proof (bset_wf_NoDup _ Hm) as Hd. cbn in Hd. apply NoDup_cons in Hd as [Hn _].
  apply StronglySorted_cons in Hm as [_ Hm]. apply StronglySorted_cons in Hm' as [_ Hm'].
  f_equal.
  - specialize (Heq k). cbn in Heq. rewrite !eqb_ord_refl in Heq. congruence.
  - apply IH; [done..| |done]. intros k0. destruct (eqb_ord_spec k0 k) as [->|Hne].
    + rewrite elem_of_bmap_keys in Hn.
      assert (¬ is_Some (bmap_get k m')) as Hn'.
      { rewrite <-elem_of_bmap_keys. unfold bmap_keys. by rewrite <-Hk, elem_of_bmap_keys. }
      destruct (bmap_get k m), (bmap_get k m'); naive_solver.
    + specialize (Heq k0). cbn in Heq. by rewrite !eqb_ord_ne in Heq.
Qed.
End bmap.

(** ** Stable sorting by a key: [slice::sort_by], [sort_by_key] *)

Section sort_on.
Context {A : Type} `{Ord K} (key : A → K).
Implicit Types (a b : A) (l : list A).

Fixpoint insert_on a l : list A :=
  match l with
  | [] => [a]
  | b :: l' => match cmp (key a) (key b) with
               | Gt => b :: insert_on a l'
               | _ => a :: l
               end
  end.

Definition sort_on l : list A := foldr insert_on [] l.

Definition key_lt a b : Prop := lt_ord (key a) (key b).

Lemma insert_on_perm a l : insert_on a l ≡ₚ a :: l.
Proof.
  induction l as [|b l IH]; cbn; [done|]. case_match; [done|done|].
  rewrite IH. apply Permutation_swap.
Qed.

Lemma sort_on_cons a l : sort_on (a :: l) = insert_on a (sort_on l).
Proof. done. Qed.

Lemma sort_on_perm l : sort_on l ≡ₚ l.
Proof. induction l as [|a l IH]; [done|]. by rewrite sort_on_cons, insert_on_perm, IH. Qed.

Lemma insert_on_sorted a l :
  key a ∉ (key <$> l) → StronglySorted key_lt l → StronglySorted key_lt (insert_on a l).
Proof.
  induction l as [|b l IH]; cbn; intros Hn Hl; [repeat constructor|].
  apply StronglySorted_cons in Hl as [Hb Hl]. apply not_elem_of_cons in Hn as [Hne Hn].
  destruct (cmp (key a) (key b)) eqn:E.
  - by apply cmp_eq in E.
  - constructor; [by constructor|]. constructor; [done|].
    eapply Forall_impl; [done|]. intros c. by apply cmp_lt_trans.
  - constructor; [by apply IH|]. rewrite insert_on_perm. constructor; [|done].
    by apply cmp_gt.
Qed.

Lemma sort_on_sorted l : NoDup (key <$> l) → StronglySorted key_lt (sort_on l).
Proof.
  induction l as [|a l IH]; intros Hd; [constructor|]. rewrite sort_on_cons.
  apply NoDup_cons in Hd as [Hn Hd]. apply insert_on_sorted; [|by apply IH].
  by rewrite sort_on_perm.
Qed.

(** Two lists in strictly increasing key order with the same elements. *)
Lemma key_sorted_ext l l' :
  StronglySorted key_lt l → StronglySorted key_lt l' → l ≡ₚ l' → l = l'.
Proof.
  intros Hl. revert l'. induction Hl as [|a l Hl IH Ha]; intros l' Hl' Hp.
  - by apply Permutation_nil_l in Hp.
  - destruct Hl' as [|b l' Hl' Hb]; [by apply Permutation_nil_r in Hp|].
    assert (a = b) as ->; [|f_equal; apply IH; [done|by apply Permutation_cons_inv in Hp]].
    rewrite Forall_forall in Ha, Hb.
    assert (a ∈ b :: l') as Hin by (rewrite <-Hp; by left).
    assert (b ∈ a :: l) as Hin' by (rewrite Hp; by left).
    apply elem_of_cons in Hin as [?|Hin]; [done|]. apply elem_of_cons in Hin' as [?|Hin']; [done|].
    exfalso. by apply (lt_ord_asym (key a) (key b)); [apply Ha|apply Hb].
Qed.

(** Sorting by distinct keys forgets the order of the input. *)
Lemma sort_on_unique l l' : NoDup (key <$> l) → l ≡ₚ l' → sort_on l = sort_on l'.
Proof.
  intros Hd Hp. apply key_sorted_ext.
  - by apply sort_on_sorted.
  - apply sort_on_sorted. by rewrite <-Hp.
  - by rewrite !sort_on_perm.
Qed.
End sort_on.

#[export] Hint Resolve bset_insert_wf bset_of_list_wf bset_remove_wf bset_inter_wf
  bset_extend_wf bmap_insert_wf bmap_entry_wf bmap_update_wf : claims.
#[export] Hint Rewrite @elem_of_bset_insert @elem_of_bset_remove @elem_of_bset_of_list
  @elem_of_bset_inter @bset_mem_spec : bset.

(** ** [Iterator::min_by]: the first least element *)

Definition min_by {A} (c : A → A → comparison) (l : list A) : option A :=
  match l with
  | [] => None
  | x :: l' => Some (foldl (λ best y, match c best y with Gt => y | _ => best end) x l')
  end.

Lemma min_by_None {A} (c : A → A → comparison) l : min_by c l = None ↔ l = [].
Proof. by destruct l. Qed.

Section min_by.
Context {A : Type} `{Ord K} (c : A → A → comparison) (key : A → K).
Context (c_key : ∀ x y, c x y = cmp (key x) (key y)).

Lemma cmp_le_trans (x y z : K) : cmp x y ≠ Gt → cmp y z ≠ Gt → cmp x z ≠ Gt.
Proof.
  intros Hxy Hyz. destruct (cmp x y) eqn:E1; [apply cmp_eq in E1 as ->; done| |done].
  destruct (cmp y z) eqn:E2; [apply cmp_eq in E2 as <-; by rewrite E1| |done].
  by rewrite (cmp_lt_trans _ _ _ E1 E2).
Qed.

Lemma foldl_least l best x :
  foldl (λ best y, match c best y with Gt => y | _ => best end) best l = x →
  x ∈ best :: l ∧ ∀ y, y ∈ best :: l → cmp (key x) (key y) ≠ Gt.
Proof.
  revert best. induction l as [|z l IH]; intros best; cbn.
  { intros <-. split; [left|]. intros y ->%list_elem_of_singleton. by rewrite cmp_refl. }
  intros [Hin Hle]%IH. split; [destruct (c best z); set_solver|].
  set (best' := match c best z with Gt => z | _ => best end) in *.
  assert (cmp (key best') (key best) ≠ Gt ∧ cmp (key best') (key z) ≠ Gt) as [Hb Hz].
  { unfold best'. destruct (c best z) eqn:E; rewrite c_key in E; rewrite ?cmp_refl, ?E; try done.
    apply cmp_gt in E. by rewrite E. }
  pose proof (Hle best' (list_elem_of_here _ _)) as Hx.
  intros y [-> |[-> |Hy]%elem_of_cons]%elem_of_cons; [by eapply cmp_le_trans..|].
  apply Hle. by right.
Qed.

Lemma min_by_least l x :
  min_by c l = Some x → x ∈ l ∧ ∀ y, y ∈ l → cmp (key x) (key y) ≠ Gt.
Proof. destruct l as [|y l]; [done|]. intros [= E]. by apply foldl_least. Qed.

Lemma min_by_same l l' :
  (∀ x, x ∈ l ↔ x ∈ l') → (∀ x y, x ∈ l → y ∈ l → key x = key y → x = y) →
  min_by c l = min_by c l'.
Proof.
  intros Hl Hinj. destruct (min_by c l) as [x|] eqn:E, (min_by c l') as [y|] eqn:E'.
  - apply min_by_least in E as [Hx Hlx], E' as [Hy Hly]. f_equal.
    apply Hinj; [done|by apply Hl|]. apply Hl in Hy. pose proof (Hlx y Hy) as H1.
    apply Hl in Hx. pose proof (Hly x Hx) as H2. rewrite cmp_opp in H2.
    destruct (cmp (key x) (key y)) eqn:Ec; [by apply cmp_eq|done..].
  - apply min_by_None in E' as ->. apply min_by_least in E as [Hx _]. set_solver.
  - apply min_by_None in E as ->. apply min_by_least in E' as [Hx _]. set_solver.
  - done.
Qed.
End min_by.
