(* ===== verification/Json.v ===== *)
(** * JSON values: [serde_json::Value] and its canonical form

    Claim bodies, fields and endpoints are [serde_json] values, decoded with
    [preserve_order]: an object keeps the insertion order of its keys.
    [canonical_json_value] (crates/smallclaims/src/hash.rs) sorts the keys of
    every object; claim hashes and signatures are taken over that form. *)

From S2P Require Import Prelude BTree.

(** ** Values *)

(** [serde_json::Number]: an unsigned, a negative or a binary64 number (its
    bits). *)
Inductive Number :=
| PosInt (n : Z)
| NegInt (n : Z)
| Float (bits : Z).

Unset Elimination Schemes.
Inductive Value :=
| Null
| VBool (b : bool)
| VNumber (n : Number)
| VString (s : string)
| Array (values : list Value)
| Object (fields : list (string * Value)).
Set Elimination Schemes.

Section value_ind.
Context (P : Value → Prop).
Hypothesis HNull : P Null.
Hypothesis HBool : ∀ b, P (VBool b).
Hypothesis HNumber : ∀ n, P (VNumber n).
Hypothesis HString : ∀ s, P (VString s).
Hypothesis HArray : ∀ l, Forall P l → P (Array l).
Hypothesis HObject : ∀ l, Forall (λ f, P (f.2)) l → P (Object l).

Fixpoint Value_ind (v : Value) : P v :=
  match v with
  | Null => HNull
  | VBool b => HBool b
  | VNumber n => HNumber n
  | VString s => HString s
  | Array l =>
      HArray l ((fix go l : Forall P l :=
        match l with
        | [] => List.Forall_nil _
        | v :: l' => List.Forall_cons _ _ _ (Value_ind v) (go l')
        end) l)
  | Object l =>
      HObject l ((fix go l : Forall (λ f, P (f.2)) l :=
        match l with
        | [] => List.Forall_nil _
        | f :: l' => List.Forall_cons _ _ _ (Value_ind (f.2)) (go l')
        end) l)
  end.
End value_ind.

(** ** Accessors *)

Definition as_str (v : Value) : option string :=
  match v with VString s => Some s | _ => None end.
Definition as_u64 (v : Value) : option Z :=
  match v with VNumber (PosInt n) => Some n | _ => None end.
Definition as_array (v : Value) : option (list Value) :=
  match v with Array l => Some l | _ => None end.

(** Lookup of a key of an object; [None] for any other value. *)
Fixpoint assoc {V} (k : string) (l : list (string * V)) : option V :=
  match l with
  | [] => None
  | (k', v) :: l' => if String.eqb k k' then Some v else assoc k l'
  end.
Definition value_get (k : string) (v : Value) : option Value :=
  match v with Object l => assoc k l | _ => None end.

(** ** Insertion-ordered maps ([IndexMap]) *)

Fixpoint index_insert {V} (k : string) (v : V) (l : list (string * V)) : list (string * V) :=
  match l with
  | [] => [(k, v)]
  | (k', v') :: l' => if String.eqb k k' then (k', v) :: l' else (k', v') :: index_insert k v l'
  end.

Definition index_collect {V} (l : list (string * V)) : list (string * V) :=
  foldl (λ m '(k, v), index_insert k v m) [] l.

(** ** Canonical form *)

(** [fields.sort_unstable_by_key(|(left, _)| *left)]: the keys are distinct,
    so the unstable sort is the stable one. *)
Definition sort_by_key {V} (l : list (string * V)) : list (string * V) := sort_on fst l.

(** [canonical_json_value] *)
Fixpoint canonical_json_value (v : Value) : Value :=
  match v with
  | Array values => Array (map canonical_json_value values)
  | Object fields =>
      Object (index_collect (sort_by_key
        (map (λ f, (f.1, canonical_json_value (f.2))) fields)))
  | _ => v
  end.

(** A value as [serde_json] holds it: the keys of every object are distinct. *)
Fixpoint value_wf (v : Value) : Prop :=
  match v with
  | Array l => foldr (λ v P, value_wf v ∧ P) True l
  | Object l => NoDup (fst <$> l) ∧ foldr (λ f P, value_wf (f.2) ∧ P) True l
  | _ => True
  end.

(** Two values that differ only in the order of the keys of their objects. *)
Inductive json_equiv : Value → Value → Prop :=
| equiv_atom v : (∀ l, v ≠ Array l) → (∀ l, v ≠ Object l) → json_equiv v v
| equiv_array l l' : Forall2 json_equiv l l' → json_equiv (Array l) (Array l')
| equiv_object l l' k k' :
    l ≡ₚ k → l' ≡ₚ k' →
    Forall2 (λ f g, f.1 = g.1 ∧ json_equiv (f.2) (g.2)) k k' →
    json_equiv (Object l) (Object l').

(** ** Facts *)

Lemma foldr_and {A} (P : A → Prop) l : foldr (λ a Q, P a ∧ Q) True l ↔ Forall P l.
Proof. induction l as [|a l IH]; cbn; rewrite ?Forall_nil, ?Forall_cons, ?IH; naive_solver. Qed.

Section sorting.
Context {V : Type}.
Implicit Types l : list (string * V).

Lemma sort_by_key_perm l : sort_by_key l ≡ₚ l.
Proof. apply sort_on_perm. Qed.

Lemma sort_by_key_unique l l' :
  NoDup (fst <$> l) → l ≡ₚ l' → sort_by_key l = sort_by_key l'.
Proof. apply sort_on_unique. Qed.

Lemma index_insert_fresh k v l : k ∉ (fst <$> l) → index_insert k v l = l ++ [(k, v)].
Proof.
  induction l as [|[k' v'] l IH]; cbn; [done|]. intros [Hne Hn]%not_elem_of_cons.
  destruct (String.eqb_spec k k'); [done|]. by rewrite IH.
Qed.

(** Collecting distinct keys keeps the list as it is. *)
Lemma index_collect_id l : NoDup (fst <$> l) → index_collect l = l.
Proof.
  unfold index_collect. intros Hd. change l with ([] ++ l) in Hd at 1. rewrite <-(app_nil_l l) at 2.
  generalize (@nil (string * V)) as acc, Hd. clear Hd.
  induction l as [|[k v] l IH]; intros acc; cbn; [by rewrite app_nil_r|].
  rewrite fmap_app. cbn. intros Hd.
  pose proof Hd as [_ [Hn _]]%NoDup_app.
  assert (k ∉ (fst <$> acc)) as Hk.
  { intros Hin. apply (Hn k Hin). left. }
  rewrite index_insert_fresh by done. rewrite IH.
  - by rewrite <-app_assoc.
  - rewrite !fmap_app. cbn. by rewrite <-app_assoc.
Qed.
End sorting.

Lemma map_keys_snd {V W} (g : V → W) (l : list (string * V)) :
  fst <$> map (λ f, (f.1, g (f.2))) l = fst <$> l.
Proof. induction l as [|f l IH]; cbn; [done|]. by f_equal. Qed.

(** The canonical form of an object's fields, without the bookkeeping. *)
Lemma canonical_object l :
  NoDup (fst <$> l) →
  canonical_json_value (Object l)
  = Object (sort_by_key (map (λ f, (f.1, canonical_json_value (f.2))) l)).
Proof.
  intros Hd. cbn. rewrite index_collect_id; [done|].
  rewrite sort_by_key_perm. by rewrite map_keys_snd.
Qed.

Lemma value_wf_array l : value_wf (Array l) ↔ Forall value_wf l.
Proof. cbn. apply foldr_and. Qed.

Lemma value_wf_object l :
  value_wf (Object l) ↔ NoDup (fst <$> l) ∧ Forall (λ f, value_wf (f.2)) l.
Proof. cbn. by rewrite (foldr_and (λ f : string * Value, value_wf (f.2))). Qed.

Lemma json_equiv_canonical v w :
  value_wf v → json_equiv v w → canonical_json_value v = canonical_json_value w.
Proof.
  revert w. induction v as [| | | |l IH|l IH] using Value_ind; intros w Hv He;
    inversion He as [? Ha Ho|? l' Hl|? l' k k' Hk Hk' Hf]; subst; try done;
    try (by destruct (Ha l)); try (by destruct (Ho l)).
  - cbn. f_equal. apply value_wf_array in Hv. clear He.
    induction Hl as [|a b l l' Hab Hl IHl]; [done|].
    apply Forall_cons in IH as [IHa IH]. apply Forall_cons in Hv as [Ha Hv].
    cbn. f_equal; auto.
  - apply value_wf_object in Hv as [Hd Hv].
    rewrite canonical_object by done.
    assert (NoDup (fst <$> l')) as Hd'.
    { rewrite Hk'. rewrite Hk in Hd.
      replace (fst <$> k') with (fst <$> k); [done|].
      clear -Hf. induction Hf as [|f g k k' [E _] Hf IH]; cbn; [done|]. by rewrite E, IH. }
    rewrite canonical_object by done. f_equal.
    rewrite (sort_by_key_unique _ (map (λ f, (f.1, canonical_json_value (f.2))) k));
      [|by rewrite map_keys_snd|by apply Permutation_map].
    rewrite (sort_by_key_unique (map _ l') (map (λ f, (f.1, canonical_json_value (f.2))) k'));
      [|by rewrite map_keys_snd|by apply Permutation_map].
    f_equal. rewrite Hk in Hv, IH. clear -Hf Hv IH.
    induction Hf as [|f g k k' [E Hfg] Hf IHf]; [done|].
    apply Forall_cons in IH as [IHf' IH]. apply Forall_cons in Hv as [Hv1 Hv].
    cbn. rewrite (IHf' (g.2)), E by done. f_equal. auto.
Qed.

Lemma canonical_json_equiv v w :
  value_wf v → value_wf w → canonical_json_value v = canonical_json_value w → json_equiv v w.
Proof.
  revert w. induction v as [| | | |l IH|l IH] using Value_ind; intros w Hv Hw He.
  5: { destruct w as [| | | |l'|l']; try done. constructor.
       apply value_wf_array in Hv, Hw. injection He as He. revert l' Hw He.
       induction l as [|a l IHl]; intros [|b l'] Hw He; try done; constructor.
       - apply Forall_cons in IH as [IHa _]. apply Forall_cons in Hv as [Hva _].
         apply Forall_cons in Hw as [Hwb _]. injection He as Hab _. auto.
       - apply Forall_cons in IH as [_ IH]. apply Forall_cons in Hv as [_ Hv].
         apply Forall_cons in Hw as [_ Hw]. injection He as _ He. auto. }
  5: { destruct w as [| | | |l'|l']; try done.
       apply value_wf_object in Hv as [Hd Hv]. apply value_wf_object in Hw as [Hd' Hw].
       rewrite !canonical_object in He by done. injection He as He.
       assert (∃ k', l' ≡ₚ k' ∧ map (λ f, (f.1, canonical_json_value (f.2))) l
                     = map (λ f, (f.1, canonical_json_value (f.2))) k') as (k' & Hk' & Hm).
       { assert (map (λ f, (f.1, canonical_json_value (f.2))) l
                 ≡ₚ map (λ f, (f.1, canonical_json_value (f.2))) l') as Hp.
         { etrans; [symmetry; apply sort_by_key_perm|]. rewrite He. apply sort_by_key_perm. }
         apply Permutation_map_inv in Hp as (k' & Hm & Hp). eauto. }
       apply (equiv_object l l' l k'); [done..|]. rewrite Hk' in Hw. clear -IH Hv Hw Hm.
       revert k' Hw Hm. induction l as [|f l IHl]; intros [|g k'] Hw Hm; try done.
       apply Forall_cons in IH as [IHf IH]. apply Forall_cons in Hv as [Hvf Hv].
       apply Forall_cons in Hw as [Hwg Hw]. injection Hm as Hfg Hc Hm.
       constructor; [split; auto|]. auto. }
  all: destruct w; try done; cbn in He; try (injection He as <-); by constructor.
Qed.

Lemma canonical_wf v : value_wf v → value_wf (canonical_json_value v).
Proof.
  induction v as [| | | |l IH|l IH] using Value_ind; intros Hv; try done.
  - rewrite value_wf_array in Hv. cbn [canonical_json_value]. apply value_wf_array.
    apply Forall_map. by eapply Forall_impl; [apply Forall_and; split; [exact Hv|exact IH]|]; naive_solver.
  - apply value_wf_object in Hv as [Hd Hv]. rewrite canonical_object by done.
    apply value_wf_object. rewrite !sort_by_key_perm, map_keys_snd. split; [done|].
    apply Forall_map. cbn.
    by eapply Forall_impl; [apply Forall_and; split; [exact Hv|exact IH]|]; naive_solver.
Qed.

Lemma json_equiv_of_canonical v : value_wf v → json_equiv (canonical_json_value v) v.
Proof.
  intros Hv. induction v as [| | | |l IH|l IH] using Value_ind; try by constructor.
  - rewrite value_wf_array in Hv. cbn. constructor.
    induction l as [|a l IHl]; cbn; [done|]. apply Forall_cons in Hv as [??], IH as [??].
    constructor; auto.
  - apply value_wf_object in Hv as [Hd Hv]. rewrite canonical_object by done.
    eapply equiv_object; [apply sort_by_key_perm|done|].
    clear Hd. induction l as [|a l IHl]; cbn; [done|]. apply Forall_cons in Hv as [??], IH as [??].
    constructor; auto.
Qed.

(** Claim hashes and signatures are taken over [canonical_json_value], so
    two bodies must have the same canonical form exactly when they differ only
    in the order of their object keys (at any depth): no two different bodies
    are identified, and no reordering changes the form. *)
Theorem canonical_json_value_complete v w :
  value_wf v → value_wf w →
  canonical_json_value v = canonical_json_value w ↔ json_equiv v w.
Proof.
  intros Hv Hw. split; [by apply canonical_json_equiv|by apply json_equiv_canonical].
Qed.

Definition sample_left : Value :=
  Object [("status", VString "running"); ("fields", Object [("pid", VNumber (PosInt 42)); ("a", Null)])]%string.
Definition sample_right : Value :=
  Object [("fields", Object [("a", Null); ("pid", VNumber (PosInt 42))]); ("status", VString "running")]%string.

Lemma canonical_json_value_complete_witness :
  canonical_json_value sample_left = canonical_json_value sample_right ∧
  json_equiv sample_left sample_right.
Proof.
  assert (value_wf sample_left) as Hl.
  { repeat split; cbn; repeat (apply NoDup_cons; split; [set_solver|]); apply NoDup_nil_2. }
  assert (value_wf sample_right) as Hr.
  { repeat split; cbn; repeat (apply NoDup_cons; split; [set_solver|]); apply NoDup_nil_2. }
  split; [reflexivity|].
  apply (canonical_json_value_complete sample_left sample_right Hl Hr). reflexivity.
Defined.
