(* ===== verification/Canonical.v ===== *)
(** * The canonical order of claims (crates/smallclaims/src/store/canonical.rs)

    Every shared projection folds claims in one total order: accepted time,
    writer, writer sequence, batch, position in the batch, claim ID.
    [sortable_key] encodes that key so that SQLite's comparison of the encoded
    bytes is the order of the keys.  The position of a claim in its batch is
    stored in [claim_positions]; triggers store it before a removal could
    change the value that older rows only imply. *)

From S2P Require Import Prelude BTree.

(** ** Keys *)

(** [ClaimKey]: time, writer, sequence, batch, position, claim ID. *)
Definition ClaimKey : Type := Z * string * Z * string * Z * string.

(** The fields of a [ClaimRecord] the key is made from. *)
Record ClaimRecord := {
  claim_id : string;
  claim_batch_id : string;
  claim_accepted_at : Z
}.

Definition key_from_record (claim : ClaimRecord) (writer : string) (sequence position : Z)
    : ClaimKey :=
  (claim_accepted_at claim, writer, sequence, claim_batch_id claim, position, claim_id claim).

(** The inner function [string] of [sortable_key]. *)
Fixpoint sortable_string (value : list ascii) : list ascii :=
  match value with
  | [] => [byte_of 0; byte_of 0]
  | byte :: rest =>
      if Z.eqb (byte_val byte) 0 then byte :: byte_of 255 :: sortable_string rest
      else byte :: sortable_string rest
  end.

Definition sortable_key (key : ClaimKey) : list ascii :=
  let '(time, writer, sequence, batch, position, id) := key in
  be_bytes 16 time ++ sortable_string (bytes_of writer) ++
  be_bytes 8 sequence ++ sortable_string (bytes_of batch) ++
  be_bytes 8 position ++ sortable_string (bytes_of id).

(** The integers of a key are in range. *)
Definition key_wf (key : ClaimKey) : Prop :=
  let '(time, _, sequence, _, position, _) := key in
  u128 time ∧ u64 sequence ∧ u64 position.

(** ** Positions *)

(** A row of [claims] and of [replica_records], as far as positions read it. *)
Record ClaimRow := { row_id : string; row_batch : string; row_index : Z }.
Record RecordRow := { record_ref : string; record_claim : option string; record_position : Z }.

Record PositionDb := {
  db_claims : list ClaimRow;
  db_records : list RecordRow;
  db_positions : BTreeMap string Z
}.

(** [SELECT MIN(position) FROM replica_records WHERE claim_id=id] *)
Definition record_min (records : list RecordRow) (id : string) : option Z :=
  foldl (λ o r, if bool_decide (record_claim r = Some id)
                then min_option o (record_position r) else o) None records.

(** [SELECT COUNT( * ) FROM claims WHERE batch_id=batch AND store_index<index] *)
Definition earlier_siblings (claims : list ClaimRow) (batch : string) (index : Z) : Z :=
  Z.of_nat (length (List.filter
    (λ c, bool_decide (row_batch c = batch) && (row_index c <? index)%Z) claims)).

(** The position component of [components]: the stored value, else the least
    wire position, else the arrival count. *)
Definition position_of (db : PositionDb) (c : ClaimRow) : Z :=
  match bmap_get (row_id c) (db_positions db) with
  | Some p => p
  | None => match record_min (db_records db) (row_id c) with
            | Some p => p
            | None => earlier_siblings (db_claims db) (row_batch c) (row_index c)
            end
  end.

(** [INSERT ... ON CONFLICT DO UPDATE SET position=MIN(position, excluded)] *)
Definition upsert_min (id : string) (p : Z) (m : BTreeMap string Z) : BTreeMap string Z :=
  bmap_insert id (match bmap_get id m with Some q => Z.min q p | None => p end) m.

(** [INSERT OR IGNORE] *)
Definition insert_ignore (id : string) (p : Z) (m : BTreeMap string Z) : BTreeMap string Z :=
  match bmap_get id m with Some _ => m | None => bmap_insert id p m end.

Definition record_position_tx (db : PositionDb) (id : string) (position : Z) : PositionDb :=
  {| db_claims := db_claims db; db_records := db_records db;
     db_positions := upsert_min id position (db_positions db) |}.

Definition record_local_position_tx (db : PositionDb) (id batch : string) : PositionDb :=
  let count := Z.of_nat (length (List.filter (λ c, bool_decide (row_batch c = batch)) (db_claims db))) in
  {| db_claims := db_claims db; db_records := db_records db;
     db_positions := upsert_min id count (db_positions db) |}.

(** Inserting a wire record, with [claim_positions_record_insert_v1]. *)
Definition record_insert (db : PositionDb) (r : RecordRow) : PositionDb :=
  let records := db_records db ++ [r] in
  {| db_claims := db_claims db; db_records := records;
     db_positions :=
       match record_claim r with
       | Some id => match record_min records id with
                    | Some p => upsert_min id p (db_positions db)
                    | None => db_positions db
                    end
       | None => db_positions db
       end |}.

(** [claim_positions_record_delete_v1]: before a record goes, keep the least
    position of its claim. *)
Definition keep_record_min (db : PositionDb) (r : RecordRow) : BTreeMap string Z :=
  match record_claim r with
  | Some id =>
      match bmap_get id (db_positions db), record_min (db_records db) id with
      | None, Some p => insert_ignore id p (db_positions db)
      | _, _ => db_positions db
      end
  | None => db_positions db
  end.

Definition delete_record (db : PositionDb) (r : RecordRow) : PositionDb :=
  {| db_claims := db_claims db;
     db_records := List.filter (λ r', negb (String.eqb (record_ref r') (record_ref r))) (db_records db);
     db_positions := keep_record_min db r |}.

(** [claim_positions_sibling_delete_v1]: before a claim goes, store the
    position of every later claim of its batch. *)
Definition keep_sibling_positions (db : PositionDb) (old : ClaimRow) : BTreeMap string Z :=
  let later := List.filter (λ c, bool_decide (row_batch c = row_batch old) &&
                                 (row_index old <? row_index c)%Z) (db_claims db) in
  if existsb (λ c, bool_decide (bmap_get (row_id c) (db_positions db) = None)) later then
    foldl (λ m c, insert_ignore (row_id c)
             (match record_min (db_records db) (row_id c) with
              | Some p => p
              | None => earlier_siblings (db_claims db) (row_batch c) (row_index c)
              end) m) (db_positions db) later
  else db_positions db.

Definition sibling_delete (db : PositionDb) (old : ClaimRow) : PositionDb :=
  {| db_claims := List.filter (λ c, negb (String.eqb (row_id c) (row_id old))) (db_claims db);
     db_records := db_records db;
     db_positions := keep_sibling_positions db old |}.

(** Changing a record's claim or position, with the triggers
    [claim_positions_record_change_v1] and [claim_positions_record_changed_v1]. *)
Definition update_record (db : PositionDb) (r : RecordRow) (claim : option string) (position : Z)
    : PositionDb :=
  let changed := negb (bool_decide (record_claim r = claim) && (record_position r =? position)%Z) in
  let kept := if changed then keep_record_min db r else db_positions db in
  let records := map (λ r', if String.eqb (record_ref r') (record_ref r)
                            then {| record_ref := record_ref r'; record_claim := claim;
                                    record_position := position |}
                            else r') (db_records db) in
  {| db_claims := db_claims db; db_records := records;
     db_positions :=
       match claim with
       | Some id =>
           if changed then
             match record_min records id with
             | Some p => upsert_min id p kept
             | None => kept
             end
           else kept
       | None => kept
       end |}.

(** Every way the tables change. *)
Inductive position_op :=
| RecordPosition (id : string) (position : Z)
| RecordLocalPosition (id batch : string)
| InsertClaim (c : ClaimRow)
| DeleteClaim (c : ClaimRow)
| InsertRecord (r : RecordRow)
| UpdateRecord (r : RecordRow) (claim : option string) (position : Z)
| DeleteRecord (r : RecordRow).

Definition claim_insert (db : PositionDb) (c : ClaimRow) : PositionDb :=
  {| db_claims := db_claims db ++ [c]; db_records := db_records db; db_positions := db_positions db |}.

Inductive position_step : PositionDb → position_op → PositionDb → Prop :=
| step_record_position db id p :
    position_step db (RecordPosition id p) (record_position_tx db id p)
| step_local_position db id batch :
    position_step db (RecordLocalPosition id batch) (record_local_position_tx db id batch)
| step_insert_claim db c : position_step db (InsertClaim c) (claim_insert db c)
| step_delete_claim db c : position_step db (DeleteClaim c) (sibling_delete db c)
| step_insert_record db r : position_step db (InsertRecord r) (record_insert db r)
| step_update_record db r claim p :
    position_step db (UpdateRecord r claim p) (update_record db r claim p)
| step_delete_record db r : position_step db (DeleteRecord r) (delete_record db r).

(** Claim IDs and store indexes are unique, as the table's keys are. *)
Definition claims_wf (claims : list ClaimRow) : Prop :=
  ∀ c d, c ∈ claims → d ∈ claims → row_id c = row_id d ∨ row_index c = row_index d → c = d.
Definition records_wf (records : list RecordRow) : Prop :=
  ∀ r s, r ∈ records → s ∈ records → record_ref r = record_ref s → r = s.

(** ** The encoded key is ordered as the key *)

Lemma list_cmp_cons `{Ord A} (x y : A) l l' :
  cmp (x :: l) (y :: l') = then_with (cmp x y) (cmp l l').
Proof. done. Qed.

Lemma cmp_byte (a b : ascii) : cmp a b = Z.compare (byte_val a) (byte_val b).
Proof. done. Qed.

Lemma cmp_be_bytes_app n a b l l' :
  (0 <= a < 256 ^ Z.of_nat n)%Z → (0 <= b < 256 ^ Z.of_nat n)%Z →
  cmp (be_bytes n a ++ l) (be_bytes n b ++ l') = then_with (Z.compare a b) (cmp l l').
Proof.
  revert a b. induction n as [|n IH]; intros a b Ha Hb.
  - cbn in Ha, Hb. assert (a = 0 ∧ b = 0)%Z as [-> ->] by lia. done.
  - cbn [be_bytes]. rewrite <-(be_bytes_mod n a), <-(be_bytes_mod n b).
    cbn [app]. rewrite list_cmp_cons, IH by (apply Z.mod_pos_bound; lia).
    rewrite cmp_byte, !byte_val_of.
    rewrite Nat2Z.inj_succ, Z.pow_succ_r in Ha, Hb by lia.
    set (p := (256 ^ Z.of_nat n)%Z) in *.
    assert (0 < p)%Z by (unfold p; lia).
    rewrite !(Z.mod_small (_ / p) 256)
      by (split; [apply Z.div_pos; lia|apply Z.div_lt_upper_bound; lia]).
    pose proof (Z.div_mod a p ltac:(lia)). pose proof (Z.div_mod b p ltac:(lia)).
    pose proof (Z.mod_pos_bound a p ltac:(lia)). pose proof (Z.mod_pos_bound b p ltac:(lia)).
    destruct (Z.compare_spec (a / p) (b / p)) as [E|E|E]; cbn [then_with].
    + destruct (Z.compare_spec (a mod p) (b mod p)); destruct (Z.compare_spec a b);
        cbn; try done; exfalso; nia.
    + destruct (Z.compare_spec a b); [exfalso; nia|done|exfalso; nia].
    + destruct (Z.compare_spec a b); [exfalso; nia|exfalso; nia|done].
Qed.

Lemma cmp_sortable_string s t l l' :
  cmp (sortable_string s ++ l) (sortable_string t ++ l') = then_with (cmp s t) (cmp l l').
Proof.
  revert t. induction s as [|a s IH]; intros [|b t]; cbn [sortable_string app].
  - done.
  - pose proof (byte_val_range b). destruct (Z.eqb_spec (byte_val b) 0) as [E|E]; cbn [app].
    + rewrite !list_cmp_cons, !cmp_byte, E, !byte_val_of. done.
    + rewrite list_cmp_cons, cmp_byte, byte_val_of, (proj2 (Z.compare_lt_iff _ _)); [done|].
      change (0 mod 256)%Z with 0%Z. lia.
  - pose proof (byte_val_range a). destruct (Z.eqb_spec (byte_val a) 0) as [E|E]; cbn [app].
    + rewrite !list_cmp_cons, !cmp_byte, E, !byte_val_of. done.
    + rewrite list_cmp_cons, cmp_byte, byte_val_of, (proj2 (Z.compare_gt_iff _ _)); [done|].
      change (0 mod 256)%Z with 0%Z. lia.
  - rewrite (list_cmp_cons a b), cmp_byte.
    destruct (Z.compare_spec (byte_val a) (byte_val b)) as [E|E|E].
    + apply byte_val_inj in E as ->. cbn [then_with].
      destruct (Z.eqb (byte_val b) 0); cbn [app]; rewrite !list_cmp_cons, !cmp_refl; apply IH.
    + destruct (Z.eqb (byte_val a) 0), (Z.eqb (byte_val b) 0); cbn [app];
        by rewrite list_cmp_cons, cmp_byte, (proj2 (Z.compare_lt_iff _ _) E).
    + destruct (Z.eqb (byte_val a) 0), (Z.eqb (byte_val b) 0); cbn [app];
        by rewrite list_cmp_cons, cmp_byte, (proj2 (Z.compare_gt_iff _ _) E).
Qed.

Lemma cmp_pair `{Ord A, Ord B} (x y : A) (z w : B) :
  cmp (x, z) (y, w) = then_with (cmp x y) (cmp z w).
Proof. done. Qed.

Lemma then_with_assoc c d e : then_with (then_with c d) e = then_with c (then_with d e).
Proof. by destruct c. Qed.

(** SQLite orders the encoded keys as the code orders the keys
    themselves, for every writer, batch and claim name (zero bytes and
    prefixes included) and every in-range integer. *)
Theorem sortable_key_order k k' :
  key_wf k → key_wf k' → cmp (sortable_key k) (sortable_key k') = cmp k k'.
Proof.
  revert k k'. unfold ClaimKey. intros [[[[[t w] s] b] p] i]
    [[[[[t' w'] s'] b'] p'] i'].
  unfold key_wf, u128, u64, u128_max, u64_max. intros (Ht & Hs & Hp) (Ht' & Hs' & Hp').
  unfold sortable_key.
  rewrite !cmp_pair, !then_with_assoc, !cmp_string_bytes.
  rewrite cmp_be_bytes_app by (cbn; lia). rewrite cmp_sortable_string.
  rewrite cmp_be_bytes_app by (cbn; lia). rewrite cmp_sortable_string.
  rewrite cmp_be_bytes_app by (cbn; lia).
  rewrite <-(app_nil_r (sortable_string (bytes_of i))), <-(app_nil_r (sortable_string (bytes_of i'))).
  rewrite cmp_sortable_string, cmp_refl.
  by destruct (cmp (bytes_of i) (bytes_of i')).
Qed.

Lemma sortable_key_order_witness :
  cmp (sortable_key (7, "a", 1, "b", 0, "c")%Z) (sortable_key (7, "a0", 1, "b", 0, "c")%Z) = Lt.
Proof.
  rewrite sortable_key_order; [reflexivity|..]; repeat split; vm_compute; congruence.
Defined.

(** ** Positions survive removals *)

Section positions.
Implicit Types (db : PositionDb) (c : ClaimRow).

Lemma insert_ignore_get id p m k :
  bmap_get k (insert_ignore id p m)
  = match bmap_get k m with Some q => Some q | None => if String.eqb k id then Some p else None end.
Proof.
  unfold insert_ignore. destruct (bmap_get id m) as [q|] eqn:E.
  - destruct (bmap_get k m) eqn:Ek; [done|]. destruct (String.eqb_spec k id); [congruence|done].
  - destruct (String.eqb_spec k id) as [->|].
    + by rewrite E, bmap_get_insert.
    + rewrite bmap_get_insert_ne by done. by destruct (bmap_get k m).
Qed.

(** What a fold of [INSERT OR IGNORE] stores for a key. *)
Lemma insert_ignore_fold (g : ClaimRow → Z) l m k :
  bmap_get k (foldl (λ m c, insert_ignore (row_id c) (g c) m) m l)
  = match bmap_get k m with
    | Some q => Some q
    | None => g <$> List.find (λ c, String.eqb k (row_id c)) l
    end.
Proof.
  revert m. induction l as [|c l IH]; intros m; cbn.
  - by destruct (bmap_get k m).
  - rewrite IH, insert_ignore_get. destruct (bmap_get k m); [done|].
    by destruct (String.eqb k (row_id c)).
Qed.

Lemma filter_filter_comm {A} (p q : A → bool) (l : list A) :
  List.filter p (List.filter q l) = List.filter (λ x, p x && q x) l.
Proof.
  induction l as [|x l IH]; [done|]. cbn. destruct (q x); cbn.
  - rewrite andb_true_r, IH. done.
  - by rewrite andb_false_r.
Qed.

(** Deleting a claim that is not an earlier sibling keeps the arrival count. *)
Lemma earlier_siblings_delete claims old c :
  claims_wf claims → old ∈ claims →
  ¬ (row_batch old = row_batch c ∧ (row_index old < row_index c)%Z) →
  earlier_siblings (List.filter (λ d, negb (String.eqb (row_id d) (row_id old))) claims)
    (row_batch c) (row_index c)
  = earlier_siblings claims (row_batch c) (row_index c).
Proof.
  intros Hwf Hold Hn. unfold earlier_siblings. rewrite filter_filter_comm.
  do 2 f_equal. apply filter_ext_elem. intros d Hd.
  destruct (String.eqb_spec (row_id d) (row_id old)) as [E|]; [|by rewrite andb_true_r].
  rewrite (Hwf d old) by auto. rewrite andb_false_r. symmetry. apply not_true_is_false.
  intros H. bool_prop. naive_solver.
Qed.

Lemma keep_sibling_positions_get db old c :
  claims_wf (db_claims db) → c ∈ db_claims db → old ∈ db_claims db → row_id c ≠ row_id old →
  bmap_get (row_id c) (keep_sibling_positions db old) = bmap_get (row_id c) (db_positions db)
    ∧ ¬ (bmap_get (row_id c) (db_positions db) = None ∧ row_batch old = row_batch c
         ∧ (row_index old < row_index c)%Z)
  ∨ bmap_get (row_id c) (keep_sibling_positions db old) = Some (position_of db c).
Proof.
  intros Hwf Hc Hold Hne. unfold keep_sibling_positions.
  set (later := List.filter _ _).
  assert (c ∈ later ↔ row_batch old = row_batch c ∧ (row_index old < row_index c)%Z) as Hlater.
  { unfold later. rewrite filter_elem_of, andb_true_iff, bool_decide_eq_true, Z.ltb_lt. naive_solver. }
  destruct (existsb _ later) eqn:Hex.
  - rewrite insert_ignore_fold. unfold position_of.
    destruct (bmap_get (row_id c) (db_positions db)) as [p|] eqn:E; [by right|].
    destruct (List.find _ later) as [d|] eqn:Hf.
    + apply find_some_filter in Hf as [Hd Heq]. apply String.eqb_eq in Heq.
      unfold later in Hd. apply filter_elem_of in Hd as [Hd _].
      rewrite (Hwf d c) by auto. by right.
    + left. split; [done|]. intros (_ & Hb). apply Hlater in Hb.
      apply (find_none _ _ Hf) in Hb || (rewrite list_elem_of_In in Hb; apply (find_none _ _ Hf) in Hb).
      by rewrite String.eqb_refl in Hb.
  - left. split; [done|]. intros (Hnone & Hb). apply Hlater in Hb.
    apply not_true_iff_false in Hex. apply Hex, existsb_elem_of. exists c.
    split; [done|]. by apply bool_decide_eq_true.
Qed.

(** Removing a claim never changes the position of another claim, whether
    its position was stored, came from its wire records or was the arrival
    count of its batch: the canonical order of the claims that remain is
    unchanged. *)
Theorem delete_claim_keeps_positions db old c :
  claims_wf (db_claims db) → old ∈ db_claims db → c ∈ db_claims db → row_id c ≠ row_id old →
  position_of (sibling_delete db old) c = position_of db c.
Proof.
  intros Hwf Hold Hc Hne.
  destruct (keep_sibling_positions_get db old c) as [[Hg Hn]|Hg]; [done..| |].
  - unfold position_of. cbn [sibling_delete db_positions db_records db_claims]. rewrite Hg.
    destruct (bmap_get (row_id c) (db_positions db)) eqn:E; [done|].
    destruct (record_min _ _); [done|]. apply earlier_siblings_delete; naive_solver.
  - unfold position_of at 1. cbn [sibling_delete db_positions]. by rewrite Hg.
Qed.

Lemma record_min_filter_ne records p id :
  (∀ r, r ∈ records → p r = false → record_claim r ≠ Some id) →
  record_min (List.filter p records) id = record_min records id.
Proof.
  unfold record_min. generalize (@None Z). induction records as [|r l IH]; intros o H; [done|].
  cbn. destruct (p r) eqn:E; cbn; [apply IH; intros; apply H; [by right|done]|].
  rewrite bool_decide_eq_false_2 by (apply H; [by left|done]).
  apply IH. intros; apply H; [by right|done].
Qed.

Lemma record_min_elem records r id :
  r ∈ records → record_claim r = Some id → is_Some (record_min records id).
Proof.
  intros Hr E. unfold record_min.
  assert (∀ o l, r ∈ l ∨ is_Some o →
    is_Some (foldl (λ o r, if bool_decide (record_claim r = Some id)
                           then min_option o (record_position r) else o) o l)) as H;
    [|apply H; by left].
  intros o l. revert o. induction l as [|s l IH]; intros o Ho; cbn.
  - by destruct Ho as [?%not_elem_of_nil|?].
  - apply IH. destruct Ho as [[->|?]%elem_of_cons|?]; [|by left|].
    + right. by rewrite bool_decide_eq_true_2.
    + right. by case_bool_decide.
Qed.

(** Removing a wire record never changes the position of a claim, the
    claim it carried included. *)
Theorem delete_record_keeps_positions db r c :
  records_wf (db_records db) → r ∈ db_records db →
  position_of (delete_record db r) c = position_of db c.
Proof.
  intros Hwf Hr. unfold position_of. cbn [delete_record db_positions db_records db_claims].
  destruct (decide (record_claim r = Some (row_id c))) as [E|Hne].
  - unfold keep_record_min. rewrite E.
    destruct (bmap_get (row_id c) (db_positions db)) eqn:Eg; [by rewrite Eg|].
    destruct (record_min (db_records db) (row_id c)) as [p|] eqn:Em.
    + by rewrite insert_ignore_get, Eg, String.eqb_refl.
    + destruct (record_min_elem _ _ _ Hr E). congruence.
  - assert (bmap_get (row_id c) (keep_record_min db r) = bmap_get (row_id c) (db_positions db)) as ->.
    { unfold keep_record_min. destruct (record_claim r) as [id|]; [|done].
      destruct (bmap_get id (db_positions db)), (record_min (db_records db) id); try done.
      rewrite insert_ignore_get. destruct (bmap_get (row_id c) _); [done|].
      destruct (String.eqb_spec (row_id c) id); [congruence|done]. }
    rewrite record_min_filter_ne; [done|]. intros s Hs. rewrite negb_false_iff, String.eqb_eq.
    intros Href. by rewrite (Hwf s r).
Qed.

(** Stored positions only fall and are never dropped. *)
Definition positions_below (m m' : BTreeMap string Z) : Prop :=
  ∀ id p, bmap_get id m = Some p → ∃ q, bmap_get id m' = Some q ∧ (q <= p)%Z.

#[local] Instance positions_below_preorder : PreOrder positions_below.
Proof.
  split.
  - intros m id p H. exists p. split; [done|lia].
  - intros m1 m2 m3 H1 H2 id p Hp. destruct (H1 _ _ Hp) as (q & Hq & ?).
    destruct (H2 _ _ Hq) as (q' & ? & ?). exists q'. split; [done|lia].
Qed.

Lemma upsert_min_below id p m : positions_below m (upsert_min id p m).
Proof.
  intros k q Hk. unfold upsert_min. destruct (String.eqb_spec k id) as [->|].
  - rewrite Hk, bmap_get_insert. eexists. split; [done|lia].
  - rewrite bmap_get_insert_ne by done. exists q. split; [done|lia].
Qed.

Lemma insert_ignore_below id p m : positions_below m (insert_ignore id p m).
Proof. intros k q Hk. exists q. rewrite insert_ignore_get, Hk. split; [done|lia]. Qed.

Lemma keep_record_min_below db r : positions_below (db_positions db) (keep_record_min db r).
Proof.
  unfold keep_record_min. destruct (record_claim r); [|done].
  destruct (bmap_get _ _); [done|]. destruct (record_min _ _); [|done].
  apply insert_ignore_below.
Qed.

Lemma keep_sibling_positions_below db old :
  positions_below (db_positions db) (keep_sibling_positions db old).
Proof.
  unfold keep_sibling_positions. destruct (existsb _ _); [|done].
  intros k q Hk. exists q. rewrite insert_ignore_fold, Hk. split; [done|lia].
Qed.

Lemma position_step_below db op db' :
  position_step db op db' → positions_below (db_positions db) (db_positions db').
Proof.
  destruct 1; cbn; try done; auto using upsert_min_below, keep_sibling_positions_below,
    keep_record_min_below.
  - destruct (record_claim r); [|done]. destruct (record_min _ _); [apply upsert_min_below|done].
  - destruct claim as [id|]; [|by case_match; [apply keep_record_min_below|]].
    case_match; [|done]. case_match; [|apply keep_record_min_below].
    etransitivity; [apply keep_record_min_below|apply upsert_min_below].
Qed.

(** Once a claim's position is stored it stays stored and only falls,
    through any sequence of admissions, record changes, trims and claim
    removals; it outlives the claim itself. *)
Theorem stored_positions_join db tr db' id p :
  run position_step db tr db' → bmap_get id (db_positions db) = Some p →
  ∃ q, bmap_get id (db_positions db') = Some q ∧ (q <= p)%Z.
Proof.
  intros Hrun. revert id p. change (positions_below (db_positions db) (db_positions db')).
  induction Hrun as [|? ? ? ? ? Hs _ IH]; [done|].
  etransitivity; [by eapply position_step_below|done].
Qed.
End positions.

(** ** Witnesses *)

Definition demo_row (id : string) (index : Z) : ClaimRow :=
  {| row_id := id; row_batch := "b"; row_index := index |}.
Definition demo_record : RecordRow := {| record_ref := "r"; record_claim := Some "c2"; record_position := 9 |}%string.
Definition demo_db : PositionDb :=
  {| db_claims := [demo_row "c0" 4; demo_row "c1" 6; demo_row "c2" 7]; db_records := [demo_record]; db_positions := [] |}.

Lemma delete_claim_keeps_positions_witness :
  position_of (sibling_delete demo_db (demo_row "c0" 4)) (demo_row "c1" 6) = 1%Z.
Proof.
  rewrite delete_claim_keeps_positions; [reflexivity|..].
  - intros c d. cbn. rewrite !elem_of_cons, !elem_of_nil.
    intros Hc Hd. unfold demo_db, demo_row. naive_solver.
  - set_solver.
  - set_solver.
  - done.
Defined.

Lemma delete_record_keeps_positions_witness :
  position_of (delete_record demo_db demo_record) (demo_row "c2" 7) = 9%Z.
Proof.
  rewrite delete_record_keeps_positions; [reflexivity|..].
  - intros r s. cbn. rewrite !elem_of_cons, !elem_of_nil. naive_solver.
  - set_solver.
Defined.

Lemma stored_positions_join_witness :
  ∃ q, bmap_get "c1"%string
         (db_positions (sibling_delete (record_position_tx (sibling_delete demo_db (demo_row "c0" 4)) "c1" 0)
                          (demo_row "c1" 6))) = Some q ∧ (q <= 1)%Z.
Proof.
  eapply (stored_positions_join (sibling_delete demo_db (demo_row "c0" 4))); [|reflexivity].
  eapply run_cons; [apply step_record_position|].
  eapply run_cons; [apply step_delete_claim|apply run_nil].
Defined.

