(* ===== verification/Membership.v ===== *)
(** * Fleet membership (crates/smallclaims/src/fleet/membership.rs)

    The membership fold turns admitted [fleet.*] claims into incarnations (one
    member key under one node name) and the window of the writer's sequences
    each key signs.  Which claims count depends on the members, so the fold
    iterates from the pinned anchor key to a fixed point, or to the claims two
    alternating answers agree on. *)

From S2P Require Import Prelude BTree Json.

Local Open Scope string_scope.

(** ** Claims *)

Definition MEMBER_ADMITTED : string := "fleet.member-admitted".
Definition MEMBER_ENDPOINTS : string := "fleet.member-endpoints".
Definition MEMBER_LEFT : string := "fleet.member-left".
Definition MEMBER_REMOVED : string := "fleet.member-removed".

Record FleetClaim := {
  fc_id : string;
  fc_kind : string;
  fc_subject : string;
  fc_fields : BTreeMap string Value;
  fc_writer : string;
  fc_sequence : Z;
  fc_signers : BTreeSet string
}.

(** [FleetClaim::name], [text] and [number] *)
Definition fc_name (claim : FleetClaim) : option string :=
  strip_prefix "host/" (fc_subject claim).
Definition fc_text (claim : FleetClaim) (field : string) : option string :=
  bmap_get field (fc_fields claim) ≫= as_str.
Definition fc_number (claim : FleetClaim) (field : string) : option Z :=
  bmap_get field (fc_fields claim) ≫= as_u64.

(** ** Incarnations *)

Record Incarnation := {
  inc_name : string;
  inc_member_key : string;
  inc_via : string;
  inc_mode : string;
  inc_sponsor : option string;
  inc_admitted_claim : string;
  inc_start : Z;
  inc_end : option Z;
  inc_ended : option string;
  inc_removed_by : option string;
  inc_removal_reason : option string;
  inc_endpoints : list Value;
  inc_endpoints_sequence : option Z
}.

(** [Incarnation::holds] *)
Definition holds (i : Incarnation) (sequence : Z) : bool :=
  (inc_start i <=? sequence)%Z && is_none_or (λ e, (sequence <=? e)%Z) (inc_end i).

Inductive Window :=
| WLegacy
| WKeyed (keys : BTreeSet string)
| WFenced.

Inductive MemberState :=
| Current (i : Incarnation)
| Conflicted (current : list Incarnation)
| Ended (latest : Incarnation)
| LegacyRemoved (high_water : Z)
| NotMember.

Record Membership := {
  mb_anchor : option string;
  mb_incarnations : BTreeMap string (list Incarnation);
  mb_legacy_ends : BTreeMap string Z;
  mb_valid : BTreeSet string
}.

(** [Membership::default] *)
Definition membership_default : Membership :=
  {| mb_anchor := None; mb_incarnations := []; mb_legacy_ends := []; mb_valid := [] |}.

(** ** [Membership::build] *)

(** The incarnation an admission starts. *)
Definition admitted_incarnation (claim : FleetClaim) (name key : string) : Incarnation :=
  {| inc_name := name;
     inc_member_key := key;
     inc_via := default "" (fc_text claim "via");
     inc_mode := default "listening" (fc_text claim "mode");
     inc_sponsor := fc_text claim "sponsor";
     inc_admitted_claim := fc_id claim;
     inc_start := sadd64 (default 0%Z (fc_number claim "writer_floor")) 1;
     inc_end := None;
     inc_ended := None;
     inc_removed_by := None;
     inc_removal_reason := None;
     inc_endpoints := [];
     inc_endpoints_sequence := None |}.

Definition has_key (key : string) (all : list Incarnation) : bool :=
  existsb (λ i, String.eqb (inc_member_key i) key) all.

(** The first loop: admissions. *)
Definition admit_member (m : BTreeMap string (list Incarnation)) (claim : FleetClaim)
    : BTreeMap string (list Incarnation) :=
  match fc_name claim, fc_text claim "member_key" with
  | Some name, Some key =>
      bmap_entry name [] (λ all, if has_key key all then all
                                 else (all ++ [admitted_incarnation claim name key])%list) m
  | _, _ => m
  end.

(** What a removal or a leave does to the incarnation of its key. *)
Definition end_incarnation (claim : FleetClaim) (high_water : Z) (ended : string)
    (i : Incarnation) : Incarnation :=
  let removed := bool_decide (inc_ended i = Some "removed") in
  let now := negb removed && String.eqb ended "removed" in
  {| inc_name := inc_name i;
     inc_member_key := inc_member_key i;
     inc_via := inc_via i;
     inc_mode := inc_mode i;
     inc_sponsor := inc_sponsor i;
     inc_admitted_claim := inc_admitted_claim i;
     inc_start := inc_start i;
     inc_end := Some (match inc_end i with Some e => Z.max e high_water | None => high_water end);
     inc_ended := if removed then inc_ended i else Some ended;
     inc_removed_by := if now then fc_text claim "removed_by" else inc_removed_by i;
     inc_removal_reason := if now then fc_text claim "reason" else inc_removal_reason i;
     inc_endpoints := inc_endpoints i;
     inc_endpoints_sequence := inc_endpoints_sequence i |}.

(** What an endpoints claim does to the incarnation of its key. *)
Definition set_endpoints (claim : FleetClaim) (i : Incarnation) : Incarnation :=
  if is_none_or (λ s, (s <? fc_sequence claim)%Z) (inc_endpoints_sequence i) then
    {| inc_name := inc_name i;
       inc_member_key := inc_member_key i;
       inc_via := inc_via i;
       inc_mode := default (inc_mode i) (fc_text claim "mode");
       inc_sponsor := inc_sponsor i;
       inc_admitted_claim := inc_admitted_claim i;
       inc_start := inc_start i;
       inc_end := inc_end i;
       inc_ended := inc_ended i;
       inc_removed_by := inc_removed_by i;
       inc_removal_reason := inc_removal_reason i;
       inc_endpoints := default [] (bmap_get "endpoints" (fc_fields claim) ≫= as_array);
       inc_endpoints_sequence := Some (fc_sequence claim) |}
  else i.

(** [all.iter_mut().find(|i| i.member_key == key)] and an update in place. *)
Fixpoint update_key (key : string) (f : Incarnation → Incarnation) (all : list Incarnation)
    : list Incarnation :=
  match all with
  | [] => []
  | i :: rest => if String.eqb (inc_member_key i) key then f i :: rest
                 else i :: update_key key f rest
  end.

(** The second loop: removals, leaves and endpoints. *)
Definition apply_claim (m : Membership) (claim : FleetClaim) : Membership :=
  match fc_name claim with
  | None => m
  | Some name =>
      if String.eqb (fc_kind claim) MEMBER_REMOVED || String.eqb (fc_kind claim) MEMBER_LEFT then
        match fc_number claim "high_water" with
        | None => m
        | Some high_water =>
            let ended := if String.eqb (fc_kind claim) MEMBER_LEFT then "left" else "removed" in
            match fc_text claim "member_key" with
            | Some key =>
                {| mb_anchor := mb_anchor m;
                   mb_incarnations :=
                     bmap_update (update_key key (end_incarnation claim high_water ended)) name
                       (mb_incarnations m);
                   mb_legacy_ends := mb_legacy_ends m;
                   mb_valid := mb_valid m |}
            | None =>
                {| mb_anchor := mb_anchor m;
                   mb_incarnations := mb_incarnations m;
                   mb_legacy_ends := bmap_entry name 0%Z (Z.max high_water) (mb_legacy_ends m);
                   mb_valid := mb_valid m |}
            end
        end
      else if String.eqb (fc_kind claim) MEMBER_ENDPOINTS then
        match fc_text claim "member_key" with
        | None => m
        | Some key =>
            {| mb_anchor := mb_anchor m;
               mb_incarnations :=
                 bmap_update (update_key key (set_endpoints claim)) name (mb_incarnations m);
               mb_legacy_ends := mb_legacy_ends m;
               mb_valid := mb_valid m |}
        end
      else m
  end.

Definition build (anchor : string) (claims : list FleetClaim) (valid : BTreeSet string)
    : Membership :=
  let counted := List.filter (λ c, bset_mem (fc_id c) valid) claims in
  let admissions := List.filter (λ c, String.eqb (fc_kind c) MEMBER_ADMITTED) counted in
  foldl apply_claim
    {| mb_anchor := Some anchor;
       mb_incarnations := foldl admit_member [] admissions;
       mb_legacy_ends := [];
       mb_valid := valid |}
    counted.

(** ** Reading a membership *)

Definition counts (m : Membership) (id : string) : bool := bset_mem id (mb_valid m).

Definition incarnations (m : Membership) : list Incarnation :=
  concat (bmap_values (mb_incarnations m)).

Definition incarnations_of (m : Membership) (writer : string) : list Incarnation :=
  default [] (bmap_get writer (mb_incarnations m)).

Definition keys_for (m : Membership) (writer : string) (sequence : Z) : BTreeSet string :=
  bset_of_list (inc_member_key <$>
    List.filter (λ i, holds i sequence) (incarnations_of m writer)).

Definition legacy_removed_names (m : Membership) : list string := bmap_keys (mb_legacy_ends m).

Definition is_keyed_writer (m : Membership) (writer : string) : bool :=
  match bmap_get writer (mb_incarnations m) with
  | Some all => match all with [] => false | _ => true end
  | None => false
  end.

(** [Membership::window] *)
Definition window (m : Membership) (writer : string) (sequence : Z) : Window :=
  match keys_for m writer sequence with
  | _ :: _ => WKeyed (keys_for m writer sequence)
  | [] =>
      let all := incarnations_of m writer in
      if existsb (λ i, (inc_start i <=? 1)%Z) all then WFenced
      else
        let floor := (λ start, ssub start 1) <$> list_min (inc_start <$> all) in
        match list_min (omap id [bmap_get writer (mb_legacy_ends m); floor]) with
        | Some last => if (last <? sequence)%Z then WFenced else WLegacy
        | None => WLegacy
        end
  end.

(** [max_by_key(|incarnation| incarnation.start)]: the last of the greatest. *)
Fixpoint latest (all : list Incarnation) : option Incarnation :=
  match all with
  | [] => None
  | i :: rest => match latest rest with
                 | Some j => if (inc_start j <? inc_start i)%Z then Some i else Some j
                 | None => Some i
                 end
  end.

(** [Membership::state] *)
Definition state (m : Membership) (name : string) : MemberState :=
  let all := incarnations_of m name in
  match List.filter (λ i, bool_decide (inc_end i = None)) all with
  | [i] => Current i
  | [] => match latest all with
          | Some i => Ended i
          | None => match bmap_get name (mb_legacy_ends m) with
                    | Some high_water => LegacyRemoved high_water
                    | None => NotMember
                    end
          end
  | current => Conflicted current
  end.

(** ** The fold *)

Definition find_key (key : string) (all : list Incarnation) : option Incarnation :=
  List.find (λ i, String.eqb (inc_member_key i) key) all.

Definition anchor_admission (claim : FleetClaim) : bool :=
  String.eqb (fc_kind claim) MEMBER_ADMITTED && bool_decide (fc_text claim "via" = Some "anchor").

(** [claim_counts] *)
Definition claim_counts (anchor : string) (claim : FleetClaim) (m : Membership) : bool :=
  let name := fc_name claim in
  if anchor_admission claim then
    let start := sadd64 (default 0%Z (fc_number claim "writer_floor")) 1 in
    let last := find_key anchor (incarnations_of m (fc_writer claim)) ≫= inc_end in
    bool_decide (fc_text claim "member_key" = Some anchor)
    && bool_decide (name = Some (fc_writer claim))
    && bset_mem anchor (fc_signers claim)
    && (start <=? fc_sequence claim)%Z
    && is_none_or (λ e, (fc_sequence claim <=? e)%Z) last
  else
    let keys := keys_for m (fc_writer claim) (fc_sequence claim) in
    if negb (existsb (λ signer, bset_mem signer keys) (fc_signers claim)) then false
    else if String.eqb (fc_kind claim) MEMBER_ENDPOINTS || String.eqb (fc_kind claim) MEMBER_LEFT then
      is_some_and (λ key, bool_decide (name = Some (fc_writer claim)) && bset_mem key keys
                          && bset_mem key (fc_signers claim))
        (fc_text claim "member_key")
    else if String.eqb (fc_kind claim) MEMBER_ADMITTED then
      is_some_and (λ name, negb (String.eqb name (fc_writer claim))) name
    else true.

(** [valid_claims] *)
Definition valid_claims (anchor : string) (claims : list FleetClaim) (m : Membership)
    : BTreeSet string :=
  bset_of_list (fc_id <$> List.filter (λ c, claim_counts anchor c m) claims).

(** The [for _ in 0..limit] loop of [fold], with its two ways out: a fixed
    point ([inl]) or the last two sets ([inr]). *)
Fixpoint iterate (anchor : string) (claims : list FleetClaim) (limit : nat)
    (previous : option (BTreeSet string)) (current : BTreeSet string)
    : BTreeSet string + option (BTreeSet string) * BTreeSet string :=
  match limit with
  | O => inr (previous, current)
  | S limit' =>
      let next := valid_claims anchor claims (build anchor claims current) in
      if bset_eqb next current then inl current
      else if bool_decide (previous = Some next) then inr (previous, current)
      else iterate anchor claims limit' (Some current) next
  end.

(** The claims the fold reads, with
    [claims.sort_by(|left, right| left.id.cmp(&right.id))]. *)
Definition fleet_claims (claims : list FleetClaim) : list FleetClaim :=
  sort_on fc_id (List.filter (λ c, starts_with "fleet." (fc_kind c)) claims).

(** [usize::saturating_mul(2).saturating_add(4)]: the length of a list in
    memory is below the saturation point. *)
Definition fold_limit (claims : list FleetClaim) : nat := length claims * 2 + 4.

(** [Membership::fold] *)
Definition fold (anchor : option string) (claims : list FleetClaim) : Membership :=
  let claims := fleet_claims claims in
  match anchor with
  | None => membership_default
  | Some anchor =>
      match iterate anchor claims (fold_limit claims) None [] with
      | inl current => build anchor claims current
      | inr (Some previous, current) => build anchor claims (bset_inter current previous)
      | inr (None, current) => build anchor claims current
      end
  end.

(** ** The shape of a membership *)

(** A predicate of every incarnation under the name it is stored at. *)
Definition all_inc (P : string → Incarnation → Prop)
    (m : BTreeMap string (list Incarnation)) : Prop :=
  ∀ name all i, bmap_get name m = Some all → i ∈ all → P name i.

(** Predicates of an incarnation's name and key, which no later claim changes. *)
Definition key_pred (P : string → Incarnation → Prop) : Prop :=
  ∀ name i j, inc_name i = inc_name j → inc_member_key i = inc_member_key j →
    inc_start i = inc_start j → P name i → P name j.

Lemma end_incarnation_same claim hw e i :
  inc_name (end_incarnation claim hw e i) = inc_name i ∧
  inc_member_key (end_incarnation claim hw e i) = inc_member_key i ∧
  inc_start (end_incarnation claim hw e i) = inc_start i.
Proof. done. Qed.

Lemma set_endpoints_same claim i :
  inc_name (set_endpoints claim i) = inc_name i ∧
  inc_member_key (set_endpoints claim i) = inc_member_key i ∧
  inc_start (set_endpoints claim i) = inc_start i.
Proof. unfold set_endpoints. by case_match. Qed.

Definition same_identity (f : Incarnation → Incarnation) : Prop :=
  ∀ i, inc_name (f i) = inc_name i ∧ inc_member_key (f i) = inc_member_key i
       ∧ inc_start (f i) = inc_start i.

Lemma update_key_elem key f all j :
  j ∈ update_key key f all → ∃ i, i ∈ all ∧ (j = i ∨ j = f i).
Proof.
  induction all as [|i all IH]; cbn; [set_solver|].
  destruct (String.eqb _ _); intros [->|Hj]%elem_of_cons; [set_solver..|].
  destruct (IH Hj) as (k & ? & ?). exists k. set_solver.
Qed.

Lemma update_key_keys key f all :
  same_identity f → inc_member_key <$> update_key key f all = inc_member_key <$> all.
Proof.
  intros Hf. induction all as [|i all IH]; cbn; [done|].
  destruct (String.eqb _ _); cbn; [by destruct (Hf i) as (_ & -> & _)|by f_equal].
Qed.

Lemma all_inc_update P m name key f :
  key_pred P → same_identity f → all_inc P m → all_inc P (bmap_update (update_key key f) name m).
Proof.
  intros HP Hf Hm n all j. rewrite bmap_get_update.
  destruct (eqb_ord n name); [|by apply Hm].
  destruct (bmap_get n m) as [all'|] eqn:E; [|done]. cbn. intros [= <-] Hj.
  apply update_key_elem in Hj as (i & Hi & [-> | ->]); [by eapply Hm|].
  destruct (Hf i) as (? & ? & ?). eapply (HP n i); [done..|]. by eapply Hm.
Qed.

(** Induction over [build]: a property of the incarnation map that admissions
    establish and in-place updates keep. *)
Lemma apply_claim_incarnations (Q : BTreeMap string (list Incarnation) → Prop) m claim :
  (∀ inc name key f, same_identity f → Q inc → Q (bmap_update (update_key key f) name inc)) →
  Q (mb_incarnations m) → Q (mb_incarnations (apply_claim m claim)).
Proof.
  intros HQ Hm. unfold apply_claim. repeat (case_match; cbn; try done).
  all: apply HQ; [|done]; intros i;
    first [apply end_incarnation_same|apply set_endpoints_same].
Qed.

Lemma foldl_keeps {A B} (I : A → Prop) (f : A → B → A) l a :
  (∀ a b, b ∈ l → I a → I (f a b)) → I a → I (foldl f a l).
Proof.
  revert a. induction l as [|b l IH]; intros a Hf Ha; cbn; [done|].
  apply IH; [|apply Hf; [left|done]]. intros a' b' Hb'. apply Hf. by right.
Qed.

Lemma build_incarnations (Q : BTreeMap string (list Incarnation) → Prop) anchor claims valid :
  Q [] →
  (∀ inc c, c ∈ claims → fc_id c ∈ valid → fc_kind c = MEMBER_ADMITTED → Q inc → Q (admit_member inc c)) →
  (∀ inc name key f, same_identity f → Q inc → Q (bmap_update (update_key key f) name inc)) →
  Q (mb_incarnations (build anchor claims valid)).
Proof.
  intros H0 Hadm Hupd. unfold build.
  apply (foldl_keeps (λ m, Q (mb_incarnations m))).
  - intros m c _ Hm. by apply apply_claim_incarnations.
  - cbn. apply foldl_keeps; [|done]. intros inc c Hc Hinc.
    rewrite !filter_elem_of, bset_mem_spec, String.eqb_eq in Hc.
    apply Hadm; naive_solver.
Qed.

Lemma build_anchor anchor claims valid : mb_anchor (build anchor claims valid) = Some anchor.
Proof.
  unfold build. apply (foldl_keeps (λ m, mb_anchor m = Some anchor)); [|done].
  intros m c _ Hm. unfold apply_claim. by repeat (case_match; cbn; try done).
Qed.

Lemma build_valid anchor claims valid : mb_valid (build anchor claims valid) = valid.
Proof.
  unfold build. apply (foldl_keeps (λ m, mb_valid m = valid)); [|done].
  intros m c _ Hm. unfold apply_claim. by repeat (case_match; cbn; try done).
Qed.

Lemma has_key_spec key all : has_key key all = true ↔ key ∈ (inc_member_key <$> all).
Proof.
  unfold has_key. rewrite existsb_elem_of, list_elem_of_fmap.
  setoid_rewrite String.eqb_eq. naive_solver.
Qed.

Lemma admit_all_inc P inc c :
  (∀ name key, fc_name c = Some name → fc_text c "member_key" = Some key →
     P name (admitted_incarnation c name key)) →
  all_inc P inc → all_inc P (admit_member inc c).
Proof.
  intros HP Hinc. unfold admit_member. destruct (fc_name c) as [name|] eqn:En; [|done].
  destruct (fc_text c "member_key") as [key|] eqn:Ek; [|done].
  intros n all i. destruct (eqb_ord_spec n name) as [->|Hne].
  - rewrite bmap_get_entry. intros [= <-].
    destruct (bmap_get name inc) as [all'|] eqn:Eg; simpl.
    + destruct (has_key key all'); [intros; by eapply Hinc|].
      intros [?|Hi]%elem_of_app; [by eapply Hinc|]. apply list_elem_of_singleton in Hi as ->. auto.
    + cbn. intros Hi%list_elem_of_singleton. subst. auto.
  - rewrite bmap_get_entry_ne by done. by apply Hinc.
Qed.

(** Every membership the fold builds: incarnations are stored under their own
    name, each name's keys are distinct, and no window starts before 1. *)
Definition membership_wf (m : Membership) : Prop :=
  all_inc (λ name i, inc_name i = name ∧ (1 <= inc_start i)%Z) (mb_incarnations m) ∧
  (∀ name all, bmap_get name (mb_incarnations m) = Some all →
     NoDup (inc_member_key <$> all)) ∧
  bmap_wf (mb_incarnations m).

(** Field values in claims are [u64]s. *)
Definition claim_numbers_wf (c : FleetClaim) : Prop :=
  ∀ field n, fc_number c field = Some n → u64 n.

Lemma build_wf anchor claims valid :
  Forall claim_numbers_wf claims → membership_wf (build anchor claims valid).
Proof.
  intros Hn. rewrite Forall_forall in Hn. split_and!.
  - apply build_incarnations; [done| |].
    + intros inc c Hc _ _. apply admit_all_inc. intros name key _ _. cbn. split; [done|].
      unfold sadd64, u64_max.
      destruct (fc_number c "writer_floor") as [n|] eqn:E; simpl; [|lia].
      apply (Hn c Hc) in E. unfold u64, u64_max in E. lia.
    + intros inc name key f Hf. apply all_inc_update; [|done].
      intros n i j -> _ ->. done.
  - apply build_incarnations; [done| |].
    + intros inc c _ _ _ Hinc n all. unfold admit_member.
      destruct (fc_name c) as [name|]; [|by apply Hinc].
      destruct (fc_text c "member_key") as [key|]; [|by apply Hinc].
      destruct (eqb_ord_spec n name) as [->|Hne]; [|rewrite bmap_get_entry_ne by done; by apply Hinc].
      rewrite bmap_get_entry. intros [= <-].
      destruct (has_key key _) eqn:Eh.
      * destruct (bmap_get name inc) eqn:Eg; [by eapply Hinc|done].
      * rewrite fmap_app. cbn. apply NoDup_app. split_and!.
        -- destruct (bmap_get name inc) eqn:Eg; [by eapply Hinc|constructor].
        -- intros k Hk ->%list_elem_of_singleton. apply has_key_spec in Hk. congruence.
        -- apply NoDup_singleton.
    + intros inc name key f Hf Hinc n all. rewrite bmap_get_update.
      destruct (eqb_ord n name); [|by apply Hinc].
      destruct (bmap_get n inc) eqn:E; [|done]. intros [= <-].
      rewrite update_key_keys by done. by eapply Hinc.
  - apply build_incarnations.
    + constructor.
    + intros inc c _ _ _ Hw. unfold admit_member. repeat case_match; auto with claims.
    + intros. by apply bmap_update_wf.
Qed.

Lemma elem_of_keys_for m writer sequence key :
  key ∈ keys_for m writer sequence ↔
  ∃ i, i ∈ incarnations_of m writer ∧ holds i sequence = true ∧ inc_member_key i = key.
Proof.
  unfold keys_for. rewrite elem_of_bset_of_list, list_elem_of_fmap.
  setoid_rewrite filter_elem_of. naive_solver.
Qed.

Lemma elem_of_incarnations_of m writer i :
  i ∈ incarnations_of m writer ↔
  ∃ all, bmap_get writer (mb_incarnations m) = Some all ∧ i ∈ all.
Proof.
  unfold incarnations_of. destruct (bmap_get writer _); simpl; [naive_solver|].
  split; [by intros ?%not_elem_of_nil|naive_solver].
Qed.

Lemma elem_of_incarnations m i :
  bmap_wf (mb_incarnations m) →
  i ∈ incarnations m ↔ ∃ name all, bmap_get name (mb_incarnations m) = Some all ∧ i ∈ all.
Proof.
  intros Hwf. unfold incarnations. rewrite list_elem_of_In, in_concat.
  setoid_rewrite <-list_elem_of_In. setoid_rewrite elem_of_bmap_values.
  setoid_rewrite (elem_of_bmap_get _ _ _ Hwf). naive_solver.
Qed.

(** ** Windows *)

Lemma bset_of_list_nil {A} `{Ord A} (l : list A) : bset_of_list l = [] → l = [].
Proof.
  intros Hl. destruct l as [|x l]; [done|].
  assert (x ∈ bset_of_list (x :: l)) as Hx by (apply elem_of_bset_of_list; left).
  rewrite Hl in Hx. by apply not_elem_of_nil in Hx.
Qed.

Lemma keys_for_nil m writer sequence :
  keys_for m writer sequence = [] ↔
  ∀ i, i ∈ incarnations_of m writer → holds i sequence = false.
Proof.
  split.
  - intros Hk i Hi. apply not_true_is_false. intros Hh.
    assert (inc_member_key i ∈ keys_for m writer sequence) as Hin
      by (apply elem_of_keys_for; eauto).
    rewrite Hk in Hin. by apply not_elem_of_nil in Hin.
  - intros H. destruct (keys_for m writer sequence) as [|k l] eqn:E; [done|].
    assert (k ∈ keys_for m writer sequence) as Hk by (rewrite E; left).
    apply elem_of_keys_for in Hk as (i & Hi & Hh & _). rewrite H in Hh by done. done.
Qed.

(** When an envelope may be admitted unsigned.  A writer's sequence is in
    the legacy window exactly when every key the writer ever had starts past 1
    and past that sequence, and no removal without a key ended the writer
    before it: no sequence at or after a member's first keyed one is ever
    admitted unsigned. *)
Theorem window_legacy_iff m writer sequence :
  window m writer sequence = WLegacy ↔
  (∀ i, i ∈ incarnations_of m writer → 1 < inc_start i ∧ sequence < inc_start i)%Z ∧
  (∀ e, bmap_get writer (mb_legacy_ends m) = Some e → sequence <= e)%Z.
Proof.
  unfold window. destruct (keys_for m writer sequence) as [|k l] eqn:Ek.
  2: { split; [done|]. intros [Hs _]. exfalso.
       assert (k ∈ keys_for m writer sequence) as Hk by (rewrite Ek; left).
       apply elem_of_keys_for in Hk as (i & Hi & Hh & _). apply Hs in Hi.
       unfold holds in Hh. bool_prop. lia. }
  destruct (existsb _ _) eqn:Ex.
  { split; [done|]. intros [Hs _]. apply existsb_elem_of in Ex as (i & Hi & Hle).
    apply Hs in Hi. bool_prop. lia. }
  assert (∀ i, i ∈ incarnations_of m writer → 1 < inc_start i)%Z as Hone.
  { intros i Hi. apply Z.nle_gt. intros Hle. apply not_true_iff_false in Ex. apply Ex.
    apply existsb_elem_of. exists i. split; [done|]. by apply Z.leb_le. }
  destruct (list_min (inc_start <$> incarnations_of m writer)) as [s|] eqn:Es.
  - apply list_min_Some in Es as [Hin Hmin]. apply list_elem_of_fmap in Hin as (i & -> & Hi).
    assert (∀ j, j ∈ incarnations_of m writer → inc_start i <= inc_start j)%Z as Hle.
    { intros j Hj. apply Hmin. apply list_elem_of_fmap. by exists j. }
    pose proof (Hone i Hi).
    destruct (bmap_get writer (mb_legacy_ends m)) as [e|]; cbn; unfold list_min, ssub;
      cbn; case_match; bool_prop; (split; [|done] || split); try done; try lia.
    + intros [Hs He]. specialize (Hs i Hi). specialize (He e eq_refl). lia.
    + intros _. split; [|intros ? [= <-]; lia]. intros j Hj.
      specialize (Hone j Hj). specialize (Hle j Hj). lia.
    + intros [Hs _]. specialize (Hs i Hi). lia.
    + intros _. split; [|done]. intros j Hj. specialize (Hone j Hj). specialize (Hle j Hj). lia.
  - apply list_min_None in Es. apply fmap_nil_inv in Es. rewrite Es.
    destruct (bmap_get writer (mb_legacy_ends m)) as [e|]; cbn; unfold list_min; cbn.
    + case_match; bool_prop; split; try done.
      * intros [_ He]. specialize (He e eq_refl). lia.
      * intros _. split; [set_solver|]. intros ? [= <-]. lia.
    + split; [|done]. intros _. split; [set_solver|done].
Qed.

(** ** Trust: every member descends from the anchor *)

(** [rooted anchor claims name key]: a chain of admissions, each signed by a
    key the chain already gives its writer, leads from the anchor's own
    admission of itself to [key] as a key of node [name]. *)
Inductive rooted (anchor : string) (claims : list FleetClaim) : string → string → Prop :=
| rooted_anchor c :
    c ∈ claims → anchor_admission c = true → fc_text c "member_key" = Some anchor →
    fc_name c = Some (fc_writer c) → anchor ∈ fc_signers c →
    rooted anchor claims (fc_writer c) anchor
| rooted_admitted c name key signer :
    c ∈ claims → fc_kind c = MEMBER_ADMITTED → fc_name c = Some name →
    fc_text c "member_key" = Some key → name ≠ fc_writer c →
    signer ∈ fc_signers c → rooted anchor claims (fc_writer c) signer →
    rooted anchor claims name key.

Section fold_facts.
Context (anchor : string) (claims : list FleetClaim).
Hypothesis Hids : NoDup (fc_id <$> claims).

Notation next valid := (valid_claims anchor claims (build anchor claims valid)).

(** What it takes for a claim to count. *)
Definition counted_ok (c : FleetClaim) : Prop :=
  (∃ signer, signer ∈ fc_signers c ∧ rooted anchor claims (fc_writer c) signer) ∧
  (fc_kind c = MEMBER_ADMITTED → ∀ name key, fc_name c = Some name →
     fc_text c "member_key" = Some key → rooted anchor claims name key).

Definition rooted_set (valid : BTreeSet string) : Prop :=
  ∀ c, c ∈ claims → fc_id c ∈ valid → counted_ok c.

Lemma same_id c d : c ∈ claims → d ∈ claims → fc_id c = fc_id d → c = d.
Proof.
  clear anchor. revert c d. induction claims as [|e l IH]; intros c d; [set_solver|].
  cbn in Hids. apply NoDup_cons in Hids as [Hn Hd].
  intros [->|Hc]%elem_of_cons [->|Hd']%elem_of_cons E; [done| | |by apply IH].
  - destruct Hn. rewrite E. apply list_elem_of_fmap. by exists d.
  - destruct Hn. rewrite <-E. apply list_elem_of_fmap. by exists c.
Qed.

Lemma elem_of_valid_claims m c :
  c ∈ claims → fc_id c ∈ valid_claims anchor claims m ↔ claim_counts anchor c m = true.
Proof.
  intros Hc. unfold valid_claims. rewrite elem_of_bset_of_list, list_elem_of_fmap.
  setoid_rewrite filter_elem_of. split; [|by eauto].
  intros (d & Hid & Hd & Hcount). by rewrite (same_id c d).
Qed.

Lemma build_rooted valid :
  rooted_set valid →
  all_inc (λ name i, rooted anchor claims name (inc_member_key i))
    (mb_incarnations (build anchor claims valid)).
Proof.
  intros Hv. apply build_incarnations; [done| |].
  - intros inc c Hc Hin Hk. apply admit_all_inc. intros name key Hn Ht. cbn.
    by apply (Hv c Hc Hin).
  - intros inc name key f Hf. apply all_inc_update; [|done]. by intros n i j _ ->.
Qed.

Lemma keys_for_rooted valid writer sequence key :
  rooted_set valid → key ∈ keys_for (build anchor claims valid) writer sequence →
  rooted anchor claims writer key.
Proof.
  intros Hv (i & (all & Hg & Hi)%elem_of_incarnations_of & _ & <-)%elem_of_keys_for.
  by eapply build_rooted.
Qed.

Lemma claim_counts_ok valid c :
  rooted_set valid → c ∈ claims → claim_counts anchor c (build anchor claims valid) = true →
  counted_ok c.
Proof.
  intros Hv Hc. unfold claim_counts. destruct (anchor_admission c) eqn:Ea.
  - intros H. bool_prop. apply bset_mem_spec in H2.
    assert (rooted anchor claims (fc_writer c) anchor) by (by eapply rooted_anchor).
    split; [by exists anchor|]. intros _ name key Hn Hk. congruence.
  - destruct (negb _) eqn:Es; [done|]. bool_prop. apply existsb_elem_of in Es as (signer & Hs & Hm).
    apply bset_mem_spec in Hm. pose proof (keys_for_rooted _ _ _ _ Hv Hm) as Hr.
    intros Hrest. split; [by exists signer|]. intros Hkind name key Hn Hk.
    rewrite Hkind, Hn in Hrest. cbn in Hrest. bool_prop.
    apply String.eqb_neq in Hrest. by eapply rooted_admitted.
Qed.

Lemma rooted_next valid : rooted_set valid → rooted_set (next valid).
Proof.
  intros Hv c Hc Hin. apply elem_of_valid_claims in Hin; [|done]. by eapply claim_counts_ok.
Qed.

(** What the loop ends with. *)
Definition outcome_ok
    (r : BTreeSet string + option (BTreeSet string) * BTreeSet string) : Prop :=
  match r with
  | inl v => rooted_set v ∧ next v = v
  | inr (None, v) => rooted_set v
  | inr (Some p, v) => rooted_set v ∧ rooted_set p ∧ v = next p
  end.

Lemma iterate_outcome limit previous current :
  rooted_set current →
  (∀ p, previous = Some p → rooted_set p ∧ current = next p) →
  outcome_ok (iterate anchor claims limit previous current).
Proof.
  revert previous current. induction limit as [|limit IH]; intros previous current Hc Hp; cbn.
  - destruct previous as [p|]; [|done]. destruct (Hp p eq_refl). done.
  - destruct (bset_eqb_spec (next current) current) as [E|_]; [done|].
    case_bool_decide as E.
    + subst previous. destruct (Hp _ eq_refl). done.
    + apply IH; [by apply rooted_next|]. by intros p [= <-].
Qed.

Lemma outcome_fold : outcome_ok (iterate anchor claims (fold_limit claims) None []).
Proof. apply iterate_outcome; [|done]. intros c _ Hin. by apply not_elem_of_nil in Hin. Qed.
End fold_facts.

Lemma fleet_claims_elem claims c : c ∈ fleet_claims claims → c ∈ claims.
Proof. unfold fleet_claims. rewrite sort_on_perm, filter_elem_of. naive_solver. Qed.

Lemma fleet_claims_ids claims :
  NoDup (fc_id <$> claims) → NoDup (fc_id <$> fleet_claims claims).
Proof. intros Hd. unfold fleet_claims. rewrite sort_on_perm. by apply NoDup_fmap_filter. Qed.

Lemma rooted_mono anchor claims claims' name key :
  (∀ c, c ∈ claims → c ∈ claims') → rooted anchor claims name key → rooted anchor claims' name key.
Proof.
  intros Hsub. induction 1; [eapply rooted_anchor|eapply rooted_admitted]; eauto.
Qed.

Lemma fold_build anchor claims :
  NoDup (fc_id <$> claims) →
  ∃ valid, fold (Some anchor) claims = build anchor (fleet_claims claims) valid ∧
           rooted_set anchor (fleet_claims claims) valid.
Proof.
  intros Hd%fleet_claims_ids. unfold fold.
  pose proof (outcome_fold anchor _ Hd) as Ho. unfold outcome_ok in Ho.
  destruct (iterate _ _ _ _ _) as [v|[[p|] v]]; [by exists v; destruct Ho| |by exists v].
  exists (bset_inter v p). split; [done|]. intros c Hc [Hin _]%elem_of_bset_inter.
  destruct Ho as [Hv _]. by apply Hv.
Qed.

(** C1: No key becomes a member key, and no claim counts, unless a chain of
    signed admissions leads to it from the pinned anchor: every incarnation of
    the fold is rooted, and every claim that counts carries the signature of a
    rooted key of its writer.  Holds whatever claims arrive, contradictory ones
    included. *)
Theorem fold_members_rooted anchor claims :
  NoDup (fc_id <$> claims) →
  (∀ name i, i ∈ incarnations_of (fold (Some anchor) claims) name →
     rooted anchor claims name (inc_member_key i)) ∧
  (∀ c, c ∈ fleet_claims claims → counts (fold (Some anchor) claims) (fc_id c) = true →
     ∃ signer, signer ∈ fc_signers c ∧ rooted anchor claims (fc_writer c) signer).
Proof.
  intros Hd. destruct (fold_build anchor claims Hd) as (valid & -> & Hv). split.
  - intros name i (all & Hg & Hi)%elem_of_incarnations_of.
    eapply rooted_mono; [apply fleet_claims_elem|]. by eapply build_rooted.
  - unfold counts. rewrite build_valid. intros c Hc Hin%bset_mem_spec.
    destruct (Hv c Hc Hin) as [(signer & ? & ?) _]. exists signer. split; [done|].
    eapply rooted_mono; [apply fleet_claims_elem|done].
Qed.

(** The answer depends only on the set of claims and the anchor, never on
    the order in which the claims arrived. *)
Theorem fold_order_independent anchor claims claims' :
  NoDup (fc_id <$> claims) → claims ≡ₚ claims' → fold anchor claims = fold anchor claims'.
Proof.
  intros Hd Hp. assert (fleet_claims claims = fleet_claims claims') as E.
  { unfold fleet_claims. apply sort_on_unique; [by apply NoDup_fmap_filter|].
    clear Hd. induction Hp; cbn; repeat case_match; try done; auto using perm_skip.
    - apply perm_swap.
    - by etrans. }
  unfold fold. by rewrite E.
Qed.

(** When the iteration settles, a claim counts exactly when [claim_counts]
    says so under the membership the fold returns; when it alternates between
    two sets, a claim counts exactly when it counts under both. *)
Theorem fold_answer_consistent anchor claims :
  NoDup (fc_id <$> claims) →
  let cs := fleet_claims claims in
  let m := fold (Some anchor) claims in
  match iterate anchor cs (fold_limit cs) None [] with
  | inl _ => ∀ c, c ∈ cs → counts m (fc_id c) = claim_counts anchor c m
  | inr (Some p, v) =>
      valid_claims anchor cs (build anchor cs v) = p →
      ∀ c, c ∈ cs → counts m (fc_id c)
             = claim_counts anchor c (build anchor cs v) && claim_counts anchor c (build anchor cs p)
  | inr (None, _) => True
  end.
Proof.
  intros Hd%fleet_claims_ids cs m. unfold m, fold. fold cs.
  pose proof (outcome_fold anchor _ Hd) as Ho. fold cs in Ho. unfold outcome_ok in Ho.
  destruct (iterate _ _ _ _ _) as [v|[[p|] v]]; [| |done].
  - intros c Hc. unfold counts. rewrite build_valid. apply Bool.eq_iff_eq_true.
    rewrite bset_mem_spec. destruct Ho as [_ E]. rewrite <-E at 1. by apply elem_of_valid_claims.
  - intros E c Hc. unfold counts. rewrite build_valid. apply Bool.eq_iff_eq_true.
    rewrite bset_mem_spec, elem_of_bset_inter, andb_true_iff.
    rewrite <-!(elem_of_valid_claims anchor cs Hd) by done. fold cs. rewrite E.
    destruct Ho as (_ & _ & Ev). rewrite <-Ev. naive_solver.
Qed.

(** ** A small fleet *)

Definition demo_claim (id kind subject writer : string) (sequence : Z) (signers : list string)
    (fields : list (string * Value)) : FleetClaim :=
  {| fc_id := id; fc_kind := kind; fc_subject := subject;
     fc_fields := foldl (λ m '(k, v), bmap_insert k v m) [] fields;
     fc_writer := writer; fc_sequence := sequence; fc_signers := bset_of_list signers |}.

(** Node [a] is the anchor, admits [b], and removes it at sequence 7. *)
Definition demo_fleet : list FleetClaim :=
  [ demo_claim "3" MEMBER_REMOVED "host/b" "a" 5 ["KA"]
      [("member_key", VString "KB"); ("high_water", VNumber (PosInt 7));
       ("removed_by", VString "person/ada"); ("reason", VString "lost")];
    demo_claim "1" MEMBER_ADMITTED "host/a" "a" 1 ["KA"]
      [("member_key", VString "KA"); ("via", VString "anchor")];
    demo_claim "2" MEMBER_ADMITTED "host/b" "a" 2 ["KA"]
      [("member_key", VString "KB"); ("via", VString "invite"); ("writer_floor", VNumber (PosInt 3))] ].

Definition demo_b : Incarnation :=
  {| inc_name := "b"; inc_member_key := "KB"; inc_via := "invite"; inc_mode := "listening";
     inc_sponsor := None; inc_admitted_claim := "2"; inc_start := 4; inc_end := Some 7%Z;
     inc_ended := Some "removed"; inc_removed_by := Some "person/ada";
     inc_removal_reason := Some "lost"; inc_endpoints := []; inc_endpoints_sequence := None |}.

Example demo_fleet_members : incarnations_of (fold (Some "KA") demo_fleet) "b" = [demo_b].
Proof. vm_compute. reflexivity. Qed.

Example demo_fleet_windows :
  (window (fold (Some "KA") demo_fleet) "b" <$> [3; 4; 7; 8]%Z)
  = [WLegacy; WKeyed ["KB"]; WKeyed ["KB"]; WFenced].
Proof. vm_compute. reflexivity. Qed.

Lemma demo_fleet_ids : NoDup (fc_id <$> demo_fleet).
Proof. cbn. repeat (apply NoDup_cons; split; [set_solver|]). apply NoDup_nil_2. Qed.

Lemma fold_members_rooted_witness : rooted "KA" demo_fleet "b" "KB".
Proof.
  apply (proj1 (fold_members_rooted "KA" demo_fleet demo_fleet_ids) "b" demo_b).
  rewrite demo_fleet_members. left.
Defined.

Lemma fold_order_independent_witness :
  fold (Some "KA") demo_fleet = fold (Some "KA") (reverse demo_fleet).
Proof. apply fold_order_independent; [exact demo_fleet_ids|]. symmetry. apply reverse_Permutation. Defined.

Lemma fold_answer_consistent_witness :
  counts (fold (Some "KA") demo_fleet) "3"
  = claim_counts "KA" (demo_claim "3" MEMBER_REMOVED "host/b" "a" 5 ["KA"]
      [("member_key", VString "KB"); ("high_water", VNumber (PosInt 7));
       ("removed_by", VString "person/ada"); ("reason", VString "lost")])
      (fold (Some "KA") demo_fleet).
Proof.
  pose proof (fold_answer_consistent "KA" demo_fleet demo_fleet_ids) as H.
  cbv zeta in H.
  assert (iterate "KA" (fleet_claims demo_fleet) (fold_limit (fleet_claims demo_fleet)) None []
          = inl ["1"; "2"; "3"]) as E by (vm_compute; reflexivity).
  rewrite E in H. apply (H (demo_claim "3" MEMBER_REMOVED "host/b" "a" 5 ["KA"] _)).
  unfold fleet_claims. rewrite sort_on_perm, filter_elem_of. split; [left|reflexivity].
Defined.
