(* ===== verification/FleetView.v ===== *)
(** * Who may exchange with this node (crates/smallclaims/src/fleet/view.rs)

    The replication worker reads a flat view of the membership and decides
    from it whether to accept the sender of a signed message. *)

From S2P Require Import Prelude BTree Json Membership.

Local Open Scope string_scope.

(** ** The view *)

Record MemberView := {
  mv_name : string;
  mv_member_key : string;
  mv_state : string;
  mv_mode : string;
  mv_endpoints : list Value;
  mv_start : Z;
  mv_end : option Z;
  mv_ended : option string;
  mv_removed_by : option string;
  mv_removal_reason : option string
}.

Record FleetView := {
  fv_anchor : option string;
  fv_members : list MemberView;
  fv_legacy_removed : list string
}.

(** The [label] of one incarnation, given its node's state. *)
Definition member_label (st : MemberState) (i : Incarnation) : string :=
  match st with
  | Conflicted current =>
      if existsb (λ j, String.eqb (inc_member_key j) (inc_member_key i)) current then "conflicted"
      else match inc_end i with None => "current" | Some _ => "ended" end
  | _ => match inc_end i with None => "current" | Some _ => "ended" end
  end.

Definition member_view (m : Membership) (name : string) (i : Incarnation) : MemberView :=
  {| mv_name := name;
     mv_member_key := inc_member_key i;
     mv_state := member_label (state m name) i;
     mv_mode := inc_mode i;
     mv_endpoints := inc_endpoints i;
     mv_start := inc_start i;
     mv_end := inc_end i;
     mv_ended := inc_ended i;
     mv_removed_by := inc_removed_by i;
     mv_removal_reason := inc_removal_reason i |}.

(** [FleetView::from_membership] *)
Definition from_membership (m : Membership) : FleetView :=
  let names := bset_of_list (inc_name <$> incarnations m) in
  {| fv_anchor := mb_anchor m;
     fv_members :=
       concat (map (λ name, map (member_view m name)
                 (List.filter (λ i, String.eqb (inc_name i) name) (incarnations m))) names);
     fv_legacy_removed := List.filter (λ name, negb (bset_mem name names)) (legacy_removed_names m) |}.

(** [FleetView::current] and [ended_keys] *)
Definition view_current (v : FleetView) (name : string) : list MemberView :=
  List.filter (λ mv, String.eqb (mv_name mv) name && negb (String.eqb (mv_state mv) "ended"))
    (fv_members v).
Definition ended_keys (v : FleetView) (name : string) : list MemberView :=
  List.filter (λ mv, String.eqb (mv_name mv) name && String.eqb (mv_state mv) "ended")
    (fv_members v).

(** ** Acceptance *)

Record Sender := {
  sd_name : string;
  sd_member_key : option string;
  sd_member_signature_valid : bool
}.

Inductive Acceptance := AcceptMember | AcceptLegacy.

Record Refusal := {
  rf_status : Z;
  rf_code : string;
  rf_message : string;
  rf_member_key : option string
}.

Definition refuse (status : Z) (code message : string) (key : option string)
    : result Acceptance Refusal :=
  Err {| rf_status := status; rf_code := code; rf_message := message; rf_member_key := key |}.

(** [accept] *)
Definition accept (v : FleetView) (sender : Sender) (config_peer legacy : bool)
    : result Acceptance Refusal :=
  let name := sd_name sender in
  match view_current v name with
  | _ :: _ :: _ =>
      refuse 409 "member-conflicted" ("`" +:+ name +:+ "` has more than one current member key") None
  | [member] =>
      if sd_member_signature_valid sender
         && bool_decide (sd_member_key sender = Some (mv_member_key member))
      then Ok AcceptMember
      else if legacy && config_peer then Ok AcceptLegacy
      else refuse 401 "member-signature-required"
             ("`" +:+ name +:+ "` must sign with its member key") None
  | [] =>
      let ended := ended_keys v name in
      let removed_legacy := existsb (String.eqb name) (fv_legacy_removed v) in
      let ended_match :=
        match sd_member_key sender with
        | Some key => List.find (λ mv, String.eqb (mv_member_key mv) key) ended
        | None => last ended
        end in
      match ended_match with
      | Some member =>
          let left := bool_decide (mv_ended member = Some "left") in
          refuse 403 (if left then "member-left" else "member-removed")
            (match mv_removed_by member, mv_removal_reason member with
             | Some by_, Some reason =>
                 if left then "`" +:+ name +:+ "` is no longer a member of this fleet"
                 else "`" +:+ name +:+ "` was removed from this fleet by " +:+ by_ +:+ ": " +:+ reason
             | _, _ => "`" +:+ name +:+ "` is no longer a member of this fleet"
             end)
            (Some (mv_member_key member))
      | None =>
          if removed_legacy && bool_decide (sd_member_key sender = None) then
            refuse 403 "member-removed" ("`" +:+ name +:+ "` was removed from this fleet") None
          else if config_peer && legacy && bool_decide (length ended = 0%nat) && negb removed_legacy
          then Ok AcceptLegacy
          else refuse 403 "not-a-member" ("`" +:+ name +:+ "` is not a member of this fleet") None
      end
  end.

(** ** Facts *)

Lemma elem_of_from_membership m mv :
  mv ∈ fv_members (from_membership m) ↔
  ∃ i, i ∈ incarnations m ∧ mv = member_view m (inc_name i) i.
Proof.
  unfold from_membership. cbn. rewrite list_elem_of_In, in_concat. split.
  - intros (l & Hl & Hmv). apply in_map_iff in Hl as (name & <- & Hname).
    apply in_map_iff in Hmv as (i & <- & Hi). rewrite <-list_elem_of_In, filter_elem_of in Hi.
    destruct Hi as [Hi <-%String.eqb_eq]. eauto.
  - intros (i & Hi & ->). eexists. split.
    + apply in_map_iff. exists (inc_name i). split; [done|].
      apply list_elem_of_In, elem_of_bset_of_list, list_elem_of_fmap. eauto.
    + apply in_map_iff. exists i. split; [done|]. apply list_elem_of_In, filter_elem_of.
      by rewrite String.eqb_refl.
Qed.

Lemma member_label_ended m name i : member_label (state m name) i = "ended" → inc_end i ≠ None.
Proof. unfold member_label. repeat case_match; done. Qed.

(** The label says whether the incarnation has ended. *)
Lemma member_label_open m i :
  member_label (state m (inc_name i)) i ≠ "ended" → inc_end i = None ∨
  ∃ current, state m (inc_name i) = Conflicted current ∧
    ∃ j, j ∈ current ∧ inc_member_key j = inc_member_key i.
Proof.
  unfold member_label. destruct (state m (inc_name i)) as [|current| | |] eqn:E;
    try (case_match; [done|by left]).
  destruct (existsb _ current) eqn:Ex.
  - intros _. right. exists current. split; [done|].
    apply existsb_elem_of in Ex as (j & Hj & Hk). apply String.eqb_eq in Hk. eauto.
  - case_match; [done|by left].
Qed.

Lemma state_conflicted m name current :
  state m name = Conflicted current →
  current = List.filter (λ i, bool_decide (inc_end i = None)) (incarnations_of m name).
Proof. unfold state. repeat case_match; naive_solver. Qed.

(** Keys under one name are distinct, so a name's incarnation is its key. *)
Lemma incarnation_key_inj m name i j :
  membership_wf m → i ∈ incarnations_of m name → j ∈ incarnations_of m name →
  inc_member_key i = inc_member_key j → i = j.
Proof.
  intros (_ & Hd & _) (all & Hg & Hi)%elem_of_incarnations_of (all' & Hg' & Hj)%elem_of_incarnations_of.
  rewrite Hg in Hg'. injection Hg' as <-. specialize (Hd _ _ Hg).
  clear Hg. induction all as [|a all IH]; [set_solver|]. cbn in Hd.
  apply NoDup_cons in Hd as [Hn Hd]. rewrite list_elem_of_fmap in Hn.
  apply elem_of_cons in Hi as [->|Hi], Hj as [->|Hj]; naive_solver.
Qed.

Lemma incarnations_of_elem m i :
  membership_wf m → i ∈ incarnations m ↔ i ∈ incarnations_of m (inc_name i).
Proof.
  intros (Ha & _ & Hw). rewrite elem_of_incarnations by done.
  rewrite elem_of_incarnations_of. split; [|naive_solver].
  intros (name & all & Hg & Hi). destruct (Ha _ _ _ Hg Hi) as [-> _]. eauto.
Qed.

(** Exactly the open incarnations are current in the view. *)
Lemma view_current_open m name mv :
  membership_wf m → mv ∈ view_current (from_membership m) name ↔
  ∃ i, i ∈ incarnations_of m name ∧ inc_end i = None ∧ mv = member_view m name i.
Proof.
  intros Hwf. unfold view_current. rewrite filter_elem_of, elem_of_from_membership.
  rewrite andb_true_iff, negb_true_iff, String.eqb_eq, String.eqb_neq. split.
  - intros [(i & Hi & ->) [Hn Hs]]. cbn in Hn, Hs. rewrite <-Hn. exists i.
    apply incarnations_of_elem in Hi; [|done]. split; [done|]. split; [|done].
    destruct (member_label_open m i Hs) as [?|(current & Hst & j & Hj & Hk)]; [done|].
    apply state_conflicted in Hst. subst current. apply filter_elem_of in Hj as [Hj He].
    apply bool_decide_eq_true in He. by rewrite (incarnation_key_inj m (inc_name i) i j).
  - intros (i & Hi & He & ->).
    assert (inc_name i = name) as Hn.
    { apply elem_of_incarnations_of in Hi as (all & Hg & Hi). by destruct Hwf as [Ha _], (Ha _ _ _ Hg Hi). }
    subst name. split; [exists i; split; [by apply incarnations_of_elem|done]|].
    split; [done|]. cbn. intros Hl%member_label_ended. done.
Qed.

Lemma fold_wf anchor claims :
  NoDup (fc_id <$> claims) → Forall claim_numbers_wf claims →
  membership_wf (fold (Some anchor) claims).
Proof.
  intros Hd Hn. destruct (fold_build anchor claims Hd) as (valid & -> & _).
  apply build_wf. rewrite Forall_forall in Hn |- *. intros c Hc. by apply Hn, fleet_claims_elem.
Qed.

Lemma accept_member_inv v sender config_peer legacy :
  accept v sender config_peer legacy = Ok AcceptMember →
  ∃ member, view_current v (sd_name sender) = [member] ∧
    sd_member_signature_valid sender = true ∧ sd_member_key sender = Some (mv_member_key member).
Proof.
  unfold accept. destruct (view_current _ _) as [|member [|? ?]]; [|intros H|done].
  - by repeat case_match.
  - exists member. split; [done|]. destruct (_ && _) eqn:E; [by bool_prop|by case_match].
Qed.

(** C2: A sender is accepted as a member only if its message is signed with
    the one key its node currently holds, and that key descends from the
    pinned anchor through signed admissions and has not ended. *)
Theorem accept_member_rooted anchor claims sender config_peer legacy :
  NoDup (fc_id <$> claims) → Forall claim_numbers_wf claims →
  accept (from_membership (fold (Some anchor) claims)) sender config_peer legacy = Ok AcceptMember →
  sd_member_signature_valid sender = true ∧
  ∃ key, sd_member_key sender = Some key ∧ rooted anchor claims (sd_name sender) key ∧
    ∀ i, i ∈ incarnations_of (fold (Some anchor) claims) (sd_name sender) →
      inc_end i = None ↔ inc_member_key i = key.
Proof.
  intros Hd Hn Ha. apply accept_member_inv in Ha as (member & Hc & Hs & Hk).
  destruct (fold_build anchor claims Hd) as (valid & Hm & Hv).
  pose proof (fold_wf anchor claims Hd Hn) as Hwf.
  assert (member ∈ view_current (from_membership (fold (Some anchor) claims)) (sd_name sender))
    as Hin by (rewrite Hc; left).
  apply view_current_open in Hin as (i & Hi & He & ->); [|done].
  split; [done|]. exists (inc_member_key i). split; [done|]. split.
  { rewrite Hm in Hi. apply elem_of_incarnations_of in Hi as (all & Hg & Hi).
    eapply rooted_mono; [apply fleet_claims_elem|]. by eapply (build_rooted _ _ _ Hv). }
  intros j Hj. split.
  - intros Hje.
    assert (member_view (fold (Some anchor) claims) (sd_name sender) j
            ∈ view_current (from_membership (fold (Some anchor) claims)) (sd_name sender)) as Hin
      by (apply view_current_open; eauto).
    rewrite Hc in Hin. apply list_elem_of_singleton in Hin. injection Hin. congruence.
  - intros Hkey. by rewrite (incarnation_key_inj _ (sd_name sender) j i Hwf).
Qed.

Lemma find_unique {A} (p : A → bool) l a :
  a ∈ l → p a = true → (∀ b, b ∈ l → p b = true → b = a) → List.find p l = Some a.
Proof.
  intros Ha Hp Hu. destruct (List.find p l) as [b|] eqn:E.
  - apply find_some_filter in E as [Hb Hpb]. by rewrite (Hu b).
  - rewrite list_elem_of_In in Ha. by rewrite (find_none _ _ E a Ha) in Hp.
Qed.

Lemma view_current_nil m name :
  membership_wf m → (∀ i, i ∈ incarnations_of m name → inc_end i ≠ None) →
  view_current (from_membership m) name = [].
Proof.
  intros Hwf Hend. destruct (view_current _ _) as [|mv l] eqn:E; [done|].
  assert (mv ∈ view_current (from_membership m) name) as Hmv by (rewrite E; left).
  apply view_current_open in Hmv as (i & Hi & He & _); [|done]. by destruct (Hend i Hi).
Qed.

Lemma elem_of_ended_keys m name mv :
  membership_wf m → (∀ i, i ∈ incarnations_of m name → inc_end i ≠ None) →
  mv ∈ ended_keys (from_membership m) name ↔
  ∃ i, i ∈ incarnations_of m name ∧ mv = member_view m name i.
Proof.
  intros Hwf Hend. unfold ended_keys. rewrite filter_elem_of, elem_of_from_membership.
  rewrite andb_true_iff, !String.eqb_eq. split.
  - intros [(i & Hi & ->) [Hn _]]. cbn in Hn. subst name. exists i. split; [|done].
    by apply incarnations_of_elem.
  - intros (i & Hi & ->).
    assert (inc_name i = name) as <-.
    { apply elem_of_incarnations_of in Hi as (all & Hg & Hi). by destruct Hwf as [Ha _], (Ha _ _ _ Hg Hi). }
    split; [exists i; split; [by apply incarnations_of_elem|done]|]. split; [done|]. cbn.
    destruct (String.eqb_spec (member_label (state m (inc_name i)) i) "ended") as [?|Hne]; [done|].
    exfalso. apply member_label_open in Hne as [He|(current & Hst & j & Hj & _)]; [by apply (Hend i)|].
    apply state_conflicted in Hst. subst current. apply filter_elem_of in Hj as [Hj He].
    apply bool_decide_eq_true in He. by apply (Hend j).
Qed.

(** A member whose every key has ended is refused with 403, told whether
    it left or was removed, and told which key ended: whatever the
    configuration says about it and however its message is signed. *)
Theorem accept_ended_refused m sender i config_peer legacy :
  membership_wf m →
  (∀ j, j ∈ incarnations_of m (sd_name sender) → inc_end j ≠ None) →
  i ∈ incarnations_of m (sd_name sender) → sd_member_key sender = Some (inc_member_key i) →
  ∃ r, accept (from_membership m) sender config_peer legacy = Err r ∧ rf_status r = 403%Z ∧
    rf_code r = (if decide (inc_ended i = Some "left") then "member-left" else "member-removed") ∧
    rf_member_key r = Some (inc_member_key i).
Proof.
  intros Hwf Hend Hi Hk. unfold accept. rewrite view_current_nil by done. rewrite Hk.
  rewrite (find_unique _ _ (member_view m (sd_name sender) i)).
  - eexists. split; [done|]. cbn. split; [done|]. split; [|done].
    by case_bool_decide; case_decide.
  - apply elem_of_ended_keys; eauto.
  - cbn. apply String.eqb_refl.
  - intros mv Hmv Hkey. apply elem_of_ended_keys in Hmv as (j & Hj & ->); [|done..].
    cbn in Hkey. apply String.eqb_eq in Hkey. f_equal. by apply (incarnation_key_inj m (sd_name sender)).
Qed.

(** Only a configured peer of a node that still accepts legacy peers gets
    in without a member signature, and never one whose membership ended or that
    was removed. *)
Theorem accept_legacy_inv v sender config_peer legacy :
  accept v sender config_peer legacy = Ok AcceptLegacy →
  legacy = true ∧ config_peer = true ∧
  ((∃ member, view_current v (sd_name sender) = [member]) ∨
   (view_current v (sd_name sender) = [] ∧ ended_keys v (sd_name sender) = [] ∧
    sd_name sender ∉ fv_legacy_removed v)).
Proof.
  unfold accept. destruct (view_current _ _) as [|member [|? ?]]; [| |done].
  - case_match; [done|]. destruct (_ && bool_decide (sd_member_key sender = None)) eqn:E; [done|].
    destruct (_ && negb _) eqn:E'; [|done]. intros _. bool_prop.
    split_and!; [done..|]. right. split; [done|]. split; [by apply nil_length_inv|].
    intros Hin. apply not_true_iff_false in H1. apply H1, existsb_elem_of.
    exists (sd_name sender). by rewrite String.eqb_refl.
  - destruct (_ && _); [done|]. destruct (legacy && config_peer) eqn:E; [|done].
    bool_prop. intros _. split_and!; [done..|]. left. by exists member.
Qed.

Lemma claims_numbers_demo : Forall claim_numbers_wf demo_fleet.
Proof.
  apply Forall_forall. intros c Hc. unfold demo_fleet in Hc.
  apply elem_of_cons in Hc as [->|Hc]; [|apply elem_of_cons in Hc as [->|Hc];
    [|apply list_elem_of_singleton in Hc as ->]];
  intros field n Hn; unfold fc_number in Hn; cbn in Hn;
  repeat (case_match; simplify_eq/=; try done); unfold u64, u64_max; lia.
Qed.

Lemma accept_member_rooted_witness : rooted "KA" demo_fleet "a" "KA".
Proof.
  destruct (accept_member_rooted "KA" demo_fleet
    {| sd_name := "a"; sd_member_key := Some "KA"; sd_member_signature_valid := true |} false false
    demo_fleet_ids claims_numbers_demo) as [_ (key & [= <-] & Hr & _)]; [vm_compute; reflexivity|done].
Defined.

Definition demo_ended_sender : Sender :=
  {| sd_name := "b"; sd_member_key := Some "KB"; sd_member_signature_valid := true |}.

Lemma accept_ended_refused_witness :
  ∃ r, accept (from_membership (fold (Some "KA") demo_fleet)) demo_ended_sender true true = Err r ∧
       rf_status r = 403%Z ∧
       rf_code r = (if decide (inc_ended demo_b = Some "left") then "member-left" else "member-removed") ∧
       rf_member_key r = Some (inc_member_key demo_b).
Proof.
  apply accept_ended_refused.
  - exact (fold_wf "KA" demo_fleet demo_fleet_ids claims_numbers_demo).
  - intros j. unfold demo_ended_sender, sd_name. rewrite demo_fleet_members.
    by intros ->%list_elem_of_singleton.
  - unfold demo_ended_sender, sd_name. rewrite demo_fleet_members. left.
  - reflexivity.
Defined.

Definition demo_legacy_sender : Sender :=
  {| sd_name := "c"; sd_member_key := None; sd_member_signature_valid := false |}.

Lemma accept_legacy_inv_witness :
  (∃ member, view_current (from_membership (fold (Some "KA") demo_fleet)) "c" = [member]) ∨
  (view_current (from_membership (fold (Some "KA") demo_fleet)) "c" = [] ∧
   ended_keys (from_membership (fold (Some "KA") demo_fleet)) "c" = [] ∧
   "c" ∉ fv_legacy_removed (from_membership (fold (Some "KA") demo_fleet))).
Proof.
  refine (proj2 (proj2 (accept_legacy_inv (from_membership (fold (Some "KA") demo_fleet))
    demo_legacy_sender true true _))).
  vm_compute. reflexivity.
Defined.
