(* ===== verification/Checkpoint.v ===== *)
(** * Checkpoint agreement (crates/smallclaims/src/store/checkpoint_agreement.rs)

    Members agree on a checkpoint by publishing [checkpoint.sealed] and
    [checkpoint.verified] claims.  A certificate is one verification from each
    participant, all naming exactly those participants and carrying identical
    digests.  Everything here is a pure function of the claims in canonical
    order.  The name of a checkpoint's UTC day comes from the [chrono] package:
    [utc_day] is a parameter, and no theorem assumes anything of it. *)

From S2P Require Import Prelude BTree Json.

Local Open Scope string_scope.

(** ** Claims and terms *)

Definition CHECKPOINT_SEALED : string := "checkpoint.sealed".
Definition CHECKPOINT_VERIFIED : string := "checkpoint.verified".
Definition CHECKPOINT_EXCUSED : string := "checkpoint.excused".
Definition CHECKPOINT_PROOF_BACKOFF_MS : Z := (10 * 60 * 1000)%Z.
Definition DAY_MS : Z := 86400000%Z.

Record CheckpointClaim := {
  cc_id : string;
  cc_kind : string;
  cc_subject : string;
  cc_writer : string;
  cc_actor : option string;
  cc_fields : list (string * Value)
}.

Record SealTerms := {
  st_cut : Z;
  st_participants : BTreeSet string;
  st_sealed_digest : string;
  st_rules_digest : string
}.

Record VerifiedTerms := {
  vt_cut : Z;
  vt_participants : BTreeSet string;
  vt_sealed_digest : string;
  vt_rules_digest : string;
  vt_drop_digest : string;
  vt_retained_digest : string;
  vt_graph_digest : string;
  vt_reader_digest : string
}.

Record Certificate := {
  ce_checkpoint : string;
  ce_terms : VerifiedTerms;
  ce_verifications : BTreeMap string string
}.

(** [derive(Ord)]: field by field, in the order of declaration. *)
Definition vt_tuple (t : VerifiedTerms) :
    Z * list string * string * string * string * string * string * string :=
  (vt_cut t, vt_participants t, vt_sealed_digest t, vt_rules_digest t, vt_drop_digest t,
   vt_retained_digest t, vt_graph_digest t, vt_reader_digest t).

Lemma vt_tuple_inj : Inj (=) (=) vt_tuple.
Proof. intros [] [] H. injection H. intros. by subst. Qed.

#[export] Instance ord_VerifiedTerms : Ord VerifiedTerms := ord_inj vt_tuple vt_tuple_inj.

(** [newest_due_cut] *)
Definition newest_due_cut (now : Z) : Z := (ssub (now / DAY_MS) 2 * DAY_MS)%Z.

(** [CheckpointClaim::text], [number], [names] and [is_checkpoint_work] *)
Definition cc_text (c : CheckpointClaim) (name : string) : option string :=
  assoc name (cc_fields c) ≫= as_str.
Definition cc_number (c : CheckpointClaim) (name : string) : option Z :=
  assoc name (cc_fields c) ≫= as_u64.
Definition cc_names (c : CheckpointClaim) (name : string) : option (BTreeSet string) :=
  match assoc name (cc_fields c) with
  | Some v =>
      items ← as_array v;
      names ← mapM (M := option) as_str items;
      Some (bset_of_list (A := string) names)
  | None => None
  end.
Definition is_checkpoint_work (c : CheckpointClaim) : bool :=
  String.eqb (cc_kind c) CHECKPOINT_SEALED || String.eqb (cc_kind c) CHECKPOINT_VERIFIED.

Section agreement.
Variable utc_day : Z → option string.

(** [checkpoint_name] *)
Definition checkpoint_name (cut : Z) : string :=
  "checkpoint/" +:+ default (decimal cut) (utc_day (Z.min cut i64_max)).

(** [CheckpointClaim::cut], [seal_terms] and [verified_terms] *)
Definition cc_cut (c : CheckpointClaim) : option Z :=
  cut ← cc_number c "cut_unix_ms";
  if String.eqb (checkpoint_name cut) (cc_subject c) then Some cut else None.

Definition seal_terms (c : CheckpointClaim) : option SealTerms :=
  if negb (String.eqb (cc_kind c) CHECKPOINT_SEALED) then None
  else
    cut ← cc_cut c;
    participants ← cc_names c "participants";
    sealed ← cc_text c "sealed_digest";
    rules ← cc_text c "rules_digest";
    Some {| st_cut := cut; st_participants := participants; st_sealed_digest := sealed;
            st_rules_digest := rules |}.

Definition verified_terms (c : CheckpointClaim) : option VerifiedTerms :=
  if negb (String.eqb (cc_kind c) CHECKPOINT_VERIFIED) then None
  else
    cut ← cc_cut c;
    participants ← cc_names c "participants";
    sealed ← cc_text c "sealed_digest";
    rules ← cc_text c "rules_digest";
    drop ← cc_text c "drop_digest";
    retained ← cc_text c "retained_digest";
    graph ← cc_text c "graph_digest";
    reader ← cc_text c "reader_digest";
    Some {| vt_cut := cut; vt_participants := participants; vt_sealed_digest := sealed;
            vt_rules_digest := rules; vt_drop_digest := drop; vt_retained_digest := retained;
            vt_graph_digest := graph; vt_reader_digest := reader |}.

(** ** Participants *)

Definition by_person (c : CheckpointClaim) : bool :=
  is_some_and (starts_with "person/") (cc_actor c).

(** Whether a claim ends its writer's excusal: checkpoint work, with matching
    rules when the runtime's rules are given. *)
Definition ends_excusal (rules : option string) (c : CheckpointClaim) : bool :=
  is_checkpoint_work c &&
  is_none_or (λ rules,
    is_some_and (λ t, String.eqb (st_rules_digest t) rules && bset_mem (cc_writer c) (st_participants t))
      (seal_terms c) ||
    is_some_and (λ t, String.eqb (vt_rules_digest t) rules && bset_mem (cc_writer c) (vt_participants t))
      (verified_terms c)) rules.

(** One step of the loop of [excused_writers_with_rules]. *)
Definition excuse_step (rules : option string) (excused : BTreeSet string) (c : CheckpointClaim)
    : BTreeSet string :=
  if String.eqb (cc_kind c) CHECKPOINT_EXCUSED then
    if by_person c then
      match cc_text c "writer" with
      | Some writer => bset_insert writer excused
      | None => excused
      end
    else excused
  else if bset_mem (cc_writer c) excused && ends_excusal rules c then
    bset_remove (cc_writer c) excused
  else excused.

Definition excused_writers_with_rules (claims : list CheckpointClaim) (rules : option string)
    : BTreeSet string := foldl (excuse_step rules) [] claims.
Definition excused_writers (claims : list CheckpointClaim) : BTreeSet string :=
  excused_writers_with_rules claims None.
Definition excused_writers_for_rules (claims : list CheckpointClaim) (rules : string)
    : BTreeSet string := excused_writers_with_rules claims (Some rules).

Definition participants_with_excusals (known left : BTreeSet string)
    (claims : list CheckpointClaim) (excused : BTreeSet string) : BTreeSet string :=
  let named := concat (omap (λ c, cc_names c "participants") (List.filter is_checkpoint_work claims)) in
  bset_of_list (List.filter (λ w, negb (bset_mem w left) && negb (bset_mem w excused))
                  (known ++ named)%list).

Definition participants (known left : BTreeSet string) (claims : list CheckpointClaim)
    : BTreeSet string :=
  participants_with_excusals known left claims (excused_writers claims).
Definition participants_for_rules (known left : BTreeSet string) (claims : list CheckpointClaim)
    (rules : string) : BTreeSet string :=
  participants_with_excusals known left claims (excused_writers_for_rules claims rules).

(** ** Certificates *)

Definition of_checkpoint (checkpoint : string) (claims : list CheckpointClaim) : list CheckpointClaim :=
  List.filter (λ c, String.eqb (cc_subject c) checkpoint) claims.

Definition newest_seals (claims : list CheckpointClaim) (checkpoint : string)
    : BTreeMap string SealTerms :=
  foldl (λ seals c, match seal_terms c with
                    | Some t => bmap_insert (cc_writer c) t seals
                    | None => seals
                    end) [] (of_checkpoint checkpoint claims).

(** [entry(writer).or_insert((id, terms))] *)
Definition first_step (m : BTreeMap string (string * VerifiedTerms)) (c : CheckpointClaim)
    : BTreeMap string (string * VerifiedTerms) :=
  match verified_terms c with
  | Some t => bmap_entry (cc_writer c) (cc_id c, t) id m
  | None => m
  end.

Definition first_verifications (claims : list CheckpointClaim) (checkpoint : string)
    : BTreeMap string (string * VerifiedTerms) :=
  foldl first_step [] (of_checkpoint checkpoint claims).

(** The verifications grouped by their terms: [groups.entry(terms).or_default().insert(writer, id)] *)
Definition group_step (groups : BTreeMap VerifiedTerms (BTreeMap string string))
    (x : string * (string * VerifiedTerms)) : BTreeMap VerifiedTerms (BTreeMap string string) :=
  let '(writer, (i, terms)) := x in bmap_entry terms [] (bmap_insert writer i) groups.
Definition verification_groups (claims : list CheckpointClaim) (checkpoint : string)
    : BTreeMap VerifiedTerms (BTreeMap string string) :=
  foldl group_step [] (first_verifications claims checkpoint).

(** The closure of [filter_map] in [certificates]. *)
Definition certificate_of (checkpoint : string) (terms : VerifiedTerms)
    (verifications : BTreeMap string string) : option Certificate :=
  let kept := List.filter (λ '(writer, _), bset_mem writer (vt_participants terms)) verifications in
  if negb (bool_decide (length (vt_participants terms) = 0%nat)) &&
     forallb (λ writer, bmap_contains writer kept) (vt_participants terms)
  then Some {| ce_checkpoint := checkpoint; ce_terms := terms; ce_verifications := kept |}
  else None.

Definition certificates (claims : list CheckpointClaim) (checkpoint : string) : list Certificate :=
  omap (λ '(terms, verifications), certificate_of checkpoint terms verifications)
    (verification_groups claims checkpoint).

Definition stable_checkpoints (claims : list CheckpointClaim) : BTreeMap Z (list Certificate) :=
  let checkpoints := bset_of_list (cc_subject <$>
    List.filter (λ c, String.eqb (cc_kind c) CHECKPOINT_VERIFIED) claims) in
  foldl (λ m checkpoint,
           match certificates claims checkpoint with
           | c :: _ => bmap_insert (vt_cut (ce_terms c)) (certificates claims checkpoint) m
           | [] => m
           end) [] checkpoints.
End agreement.

(** The comparison of [chosen_certificate]: most participants, then the
    smallest drop digest, then the smallest terms. *)
Definition certificate_cmp (l r : Certificate) : comparison :=
  then_with (Nat.compare (length (vt_participants (ce_terms r))) (length (vt_participants (ce_terms l))))
    (then_with (cmp (vt_drop_digest (ce_terms l)) (vt_drop_digest (ce_terms r)))
       (cmp (ce_terms l) (ce_terms r))).

Definition chosen_certificate (certificates : list Certificate) : option Certificate :=
  min_by certificate_cmp certificates.

(** ** Differences *)

Definition seal_difference (ours theirs : SealTerms) : string :=
  join ", "
    ((if String.eqb (st_sealed_digest ours) (st_sealed_digest theirs) then [] else ["sealed envelopes"])
     ++ (if bset_eqb (st_participants ours) (st_participants theirs) then [] else ["participants"])
     ++ (if String.eqb (st_rules_digest ours) (st_rules_digest theirs) then [] else ["rules"]))%list.

Definition verification_difference (ours theirs : VerifiedTerms) : string :=
  join ", " (omap (λ '(differs, name), if differs : bool then Some name else None)
    [ (negb (bset_eqb (vt_participants ours) (vt_participants theirs)), "participants");
      (negb (String.eqb (vt_sealed_digest ours) (vt_sealed_digest theirs)), "sealed envelopes");
      (negb (String.eqb (vt_rules_digest ours) (vt_rules_digest theirs)), "rules");
      (negb (String.eqb (vt_drop_digest ours) (vt_drop_digest theirs)), "drops");
      (negb (String.eqb (vt_retained_digest ours) (vt_retained_digest theirs)), "retained claims");
      (negb (String.eqb (vt_graph_digest ours) (vt_graph_digest theirs)), "graph");
      (negb (String.eqb (vt_reader_digest ours) (vt_reader_digest theirs)), "reader answers") ]).

(** [FailedProofInputs] *)
Record FailedProofInputs := {
  fp_inputs : BTreeSet string;
  fp_last_failed_at : Z
}.
Definition in_backoff (f : FailedProofInputs) (now : Z) : bool :=
  negb (bool_decide (length (fp_inputs f) = 0%nat)) &&
  (now <? Z.min (fp_last_failed_at f + CHECKPOINT_PROOF_BACKOFF_MS) u128_max)%Z.

(** ** Excusals and participants *)

Section participants_facts.
Context (utc_day : Z → option string).
Implicit Types (claims : list CheckpointClaim) (w : string).

(** A person's excusal of [w] stands: it is followed by no work of [w] that
    ends it. *)
Definition excusal_stands rules claims w : Prop :=
  ∃ pre c post, claims = (pre ++ c :: post)%list ∧
    cc_kind c = CHECKPOINT_EXCUSED ∧ by_person c = true ∧ cc_text c "writer" = Some w ∧
    ∀ d, d ∈ post → cc_writer d = w → ends_excusal utc_day rules d = false.

Lemma ends_excusal_kind rules c :
  cc_kind c = CHECKPOINT_EXCUSED → ends_excusal utc_day rules c = false.
Proof. intros H. unfold ends_excusal, is_checkpoint_work. by rewrite H. Qed.

Lemma elem_of_excuse_step rules e c w :
  w ∈ excuse_step utc_day rules e c ↔
  (cc_kind c = CHECKPOINT_EXCUSED ∧ by_person c = true ∧ cc_text c "writer" = Some w) ∨
  (w ∈ e ∧ (cc_writer c = w → ends_excusal utc_day rules c = false)).
Proof.
  unfold excuse_step. destruct (String.eqb_spec (cc_kind c) CHECKPOINT_EXCUSED) as [Hk|Hk].
  - pose proof (ends_excusal_kind rules c Hk).
    destruct (by_person c); [|naive_solver].
    destruct (cc_text c "writer") as [v|]; [|naive_solver].
    rewrite elem_of_bset_insert. naive_solver.
  - destruct (bset_mem (cc_writer c) e) eqn:Hm, (ends_excusal utc_day rules c) eqn:He; cbn;
      rewrite ?elem_of_bset_remove; try naive_solver.
    apply bset_mem_false in Hm. split; [|naive_solver].
    intros Hw. right. split; [done|]. intros <-. done.
Qed.

Lemma excused_with_rules_iff rules claims w :
  w ∈ excused_writers_with_rules utc_day claims rules ↔ excusal_stands rules claims w.
Proof.
  unfold excused_writers_with_rules, excusal_stands.
  induction claims as [|c claims IH] using rev_ind.
  - cbn. split; [by intros ?%not_elem_of_nil|]. by intros ([|??]&?&?&?&_).
  - rewrite foldl_snoc, elem_of_excuse_step, IH. split.
    + intros [Hc|[(pre & d & post & -> & Hk & Hp & Ht & Hpost) Hc]].
      * exists claims, c, []. split_and!; try apply Hc; [done|]. by intros d ?%not_elem_of_nil.
      * exists pre, d, (post ++ [c])%list. split_and!; [by rewrite <-app_assoc|done..|].
        intros x [Hx| ->%list_elem_of_singleton]%elem_of_app; [by apply Hpost|done].
    + intros (pre & d & post & Heq & Hk & Hp & Ht & Hpost).
      destruct post as [|x post _] using rev_ind.
      * apply app_inj_tail in Heq as [-> ->]. by left.
      * rewrite app_comm_cons, app_assoc in Heq. apply app_inj_tail in Heq as [-> ->].
        right. split; [|apply Hpost; set_solver].
        exists pre, d, post. split_and!; [done..|]. intros y Hy. apply Hpost. set_solver.
Qed.

(** The participants of a checkpoint are exactly the known writers and the
    writers that some seal or verification names, less those that left the
    fleet and those under a standing excusal: one that a person signed and that
    no later seal or verification of the writer itself (under the runtime's own
    rules, when rules are given) has ended.  In particular an excusal that is
    not a person's has no effect, and a stale build's work does not end one. *)
Theorem participants_iff known left claims rules w :
  w ∈ match rules with
      | None => participants utc_day known left claims
      | Some r => participants_for_rules utc_day known left claims r
      end ↔
  (w ∈ known ∨ ∃ c names, c ∈ claims ∧ is_checkpoint_work c = true ∧
                 cc_names c "participants" = Some names ∧ w ∈ names) ∧
  w ∉ left ∧ ¬ excusal_stands rules claims w.
Proof.
  replace (match rules with None => _ | Some _ => _ end) with
    (participants_with_excusals known left claims (excused_writers_with_rules utc_day claims rules))
    by (by destruct rules).
  unfold participants_with_excusals.
  rewrite elem_of_bset_of_list, filter_elem_of, andb_true_iff, !negb_true_iff, !bset_mem_false,
    excused_with_rules_iff, elem_of_app.
  assert (w ∈ concat (omap (λ c, cc_names c "participants") (List.filter is_checkpoint_work claims)) ↔
    ∃ c names, c ∈ claims ∧ is_checkpoint_work c = true ∧
      cc_names c "participants" = Some names ∧ w ∈ names) as ->; [|naive_solver].
  rewrite list_elem_of_In, in_concat. setoid_rewrite <-list_elem_of_In.
  setoid_rewrite list_elem_of_omap. setoid_rewrite filter_elem_of. naive_solver.
Qed.
End participants_facts.

(** ** First verifications and their groups *)

Section certificate_facts.
Context (utc_day : Z → option string).
Implicit Types (claims : list CheckpointClaim) (w ck : string) (t : VerifiedTerms).
Notation certificates := (certificates utc_day).
Notation first_verifications := (first_verifications utc_day).
Notation verified_terms := (verified_terms utc_day).

(** [w]'s verifications among [claims] of the checkpoint [ck], oldest first. *)
Definition verification_by w ck (c : CheckpointClaim) : option (string * VerifiedTerms) :=
  if String.eqb (cc_subject c) ck && String.eqb (cc_writer c) w
  then (λ t, (cc_id c, t)) <$> verified_terms c else None.
Definition verifications_by claims ck w : list (string * VerifiedTerms) :=
  omap (verification_by w ck) claims.

Lemma foldl_first_step l ck m w :
  bmap_get w (foldl (first_step utc_day) m (of_checkpoint ck l)) =
  match bmap_get w m with Some x => Some x | None => head (verifications_by l ck w) end.
Proof.
  revert m. induction l as [|c l IH]; intros m; [cbn; by destruct (bmap_get w m)|].
  change (verifications_by (c :: l) ck w) with
    (match verification_by w ck c with
     | Some x => x :: verifications_by l ck w | None => verifications_by l ck w end).
  change (of_checkpoint ck (c :: l)) with
    (if String.eqb (cc_subject c) ck then c :: of_checkpoint ck l else of_checkpoint ck l).
  unfold verification_by at 1.
  destruct (String.eqb_spec (cc_subject c) ck) as [Hs|Hs]; cbn [andb foldl]; [|apply IH].
  rewrite (IH (first_step utc_day m c)). unfold first_step.
  destruct (verified_terms c) as [t|]; cbn; [|by destruct (String.eqb (cc_writer c) w)].
  destruct (String.eqb_spec (cc_writer c) w) as [<-|Hw]; cbn.
  - rewrite bmap_get_entry. by destruct (bmap_get (cc_writer c) m).
  - by rewrite bmap_get_entry_ne.
Qed.

Lemma get_first_verifications claims ck w :
  bmap_get w (first_verifications claims ck) = head (verifications_by claims ck w).
Proof. apply (foldl_first_step claims ck []). Qed.

Lemma first_verifications_wf claims ck : bmap_wf (first_verifications claims ck).
Proof.
  unfold Checkpoint.first_verifications. generalize (of_checkpoint ck claims).
  intros l. assert (bmap_wf ([] : BTreeMap string (string * VerifiedTerms))) as Hwf by constructor.
  revert Hwf. generalize ([] : BTreeMap string (string * VerifiedTerms)).
  induction l as [|c l IH]; intros m Hwf; [done|]. cbn. apply IH. unfold first_step.
  destruct (verified_terms c); [by apply bmap_entry_wf|done].
Qed.

Lemma group_step_get l t :
  NoDup l.*1 →
  (∀ w i, bmap_get w (default [] (bmap_get t (foldl group_step [] l))) = Some i ↔ (w, (i, t)) ∈ l) ∧
  (is_Some (bmap_get t (foldl group_step [] l)) ↔ ∃ w i, (w, (i, t)) ∈ l) ∧
  bmap_wf (default [] (bmap_get t (foldl group_step [] l))).
Proof.
  induction l as [|[w0 [i0 t0]] l IH] using rev_ind; intros Hnd.
  { split_and!; [|split; [by intros []|set_solver]|constructor]. intros w i. split; [done|set_solver]. }
  rewrite fmap_app in Hnd. apply NoDup_app in Hnd as (Hnd & Hnw & _).
  destruct (IH Hnd) as (Hget & Hsome & Hwf). rewrite foldl_snoc. unfold group_step at 1 3 5. cbn.
  destruct (eqb_ord_spec t t0) as [<-|Hne].
  - rewrite bmap_get_entry. cbn. split_and!.
    + intros w i. destruct (decide (w = w0)) as [->|Hw].
      * rewrite bmap_get_insert, elem_of_app, list_elem_of_singleton.
        split; [intros [= ->]; by right|]. intros [Hin|[= ->]]; [|done].
        exfalso. apply (Hnw w0); [apply list_elem_of_fmap; by exists (w0, (i, t))|set_solver].
      * rewrite bmap_get_insert_ne, Hget by done. set_solver.
    + split; [intros _; exists w0, i0; set_solver|by eexists].
    + by apply bmap_insert_wf.
  - rewrite bmap_get_entry_ne by done. split_and!; [|rewrite Hsome|done]; [intros w i; rewrite Hget|];
      set_solver.
Qed.

Lemma foldl_group_step_wf l g : bmap_wf g → bmap_wf (foldl group_step g l).
Proof.
  revert g. induction l as [|x l IH]; intros g Hg; [done|]. cbn. apply IH. destruct x as [? []]. by apply bmap_entry_wf.
Qed.

Lemma elem_of_first_verifications claims ck w i t :
  (w, (i, t)) ∈ first_verifications claims ck ↔ head (verifications_by claims ck w) = Some (i, t).
Proof. rewrite elem_of_bmap_get by apply first_verifications_wf. by rewrite get_first_verifications. Qed.

Lemma verification_group_exists claims ck w i t :
  head (verifications_by claims ck w) = Some (i, t) →
  ∃ vs, (t, vs) ∈ verification_groups utc_day claims ck.
Proof.
  intros H%elem_of_first_verifications. unfold verification_groups.
  destruct (group_step_get (first_verifications claims ck) t) as (_ & Hsome & _).
  { apply bset_wf_NoDup, first_verifications_wf. }
  destruct (proj2 Hsome) as [vs E]; [by eauto|]. exists vs. by apply bmap_get_elem_of.
Qed.

(** The group of [t] holds exactly the writers whose first verification has
    the terms [t]. *)
Lemma elem_of_verification_groups claims ck t vs :
  (t, vs) ∈ verification_groups utc_day claims ck ↔
  bmap_wf vs ∧ vs ≠ [] ∧
  ∀ w i, bmap_get w vs = Some i ↔ head (verifications_by claims ck w) = Some (i, t).
Proof.
  unfold verification_groups. rewrite elem_of_bmap_get by (apply foldl_group_step_wf; constructor).
  pose proof (first_verifications_wf claims ck) as Hwf.
  destruct (group_step_get (first_verifications claims ck) t) as (Hget & Hsome & Hvs).
  { by apply bset_wf_NoDup. }
  pose proof (λ w i, elem_of_first_verifications claims ck w i t) as Hfv.
  split.
  - intros E. rewrite E in Hget, Hsome, Hvs. cbn in *. split_and!; [done| |].
    + destruct (proj1 Hsome (mk_is_Some _ _ eq_refl)) as (w & i & Hin%Hget). by intros ->.
    + intros w i. by rewrite Hget.
  - intros (Hwf' & Hne & Heq). destruct vs as [|[w i] vs]; [done|].
    destruct (proj2 Hsome) as [vs' E].
    { exists w, i. apply Hfv, Heq. cbn. by rewrite eqb_ord_refl. }
    rewrite E in Hget, Hvs |- *. cbn [default from_option id] in *. f_equal.
    apply bmap_ext; [done..|]. intros w'.
    apply option_eq. intros i'. by rewrite Hget, Heq, Hfv.
Qed.

Lemma head_verifications_by claims ck w i t :
  head (verifications_by claims ck w) = Some (i, t) →
  ∃ c, c ∈ claims ∧ cc_subject c = ck ∧ cc_writer c = w ∧ cc_id c = i ∧ verified_terms c = Some t.
Proof.
  intros H%head_Some_elem_of. apply list_elem_of_omap in H as (c & Hc & H). exists c.
  unfold verification_by in H.
  destruct (String.eqb_spec (cc_subject c) ck) as [Hs|]; [|done].
  destruct (String.eqb_spec (cc_writer c) w) as [Hw|]; [|done]. cbn in H.
  destruct (verified_terms c); [|done]. naive_solver.
Qed.

Lemma verified_terms_participants_wf c t :
  verified_terms c = Some t → bset_wf (vt_participants t).
Proof.
  unfold Checkpoint.verified_terms. destruct (negb _); [done|]. intros H.
  apply bind_Some in H as (cut & _ & H). apply bind_Some in H as (ps & Hps & H).
  do 6 apply bind_Some in H as (? & _ & H). injection H as <-. cbn.
  unfold cc_names in Hps. destruct (assoc _ _); [|done].
  apply bind_Some in Hps as (? & _ & Hps). apply bind_Some in Hps as (? & _ & [= <-]).
  apply bset_of_list_wf.
Qed.

(** What a certificate of the checkpoint [ck] is: a nonempty set of
    participants, each of whose first verification of [ck] carries the
    certificate's terms, with the ids of exactly those verifications. *)
Definition valid_certificate claims ck (c : Certificate) : Prop :=
  ce_checkpoint c = ck ∧ vt_participants (ce_terms c) ≠ [] ∧
  bmap_keys (ce_verifications c) = vt_participants (ce_terms c) ∧
  ∀ w i, bmap_get w (ce_verifications c) = Some i →
         head (verifications_by claims ck w) = Some (i, ce_terms c).

Lemma certificate_of_iff ck t vs c :
  certificate_of ck t vs = Some c ↔
  c = {| ce_checkpoint := ck; ce_terms := t;
         ce_verifications := List.filter (λ '(w, _), bset_mem w (vt_participants t)) vs |} ∧
  vt_participants t ≠ [] ∧
  ∀ w, w ∈ vt_participants t →
       w ∈ bmap_keys (List.filter (λ '(w, _), bset_mem w (vt_participants t)) vs).
Proof.
  unfold certificate_of. setoid_rewrite <-bmap_contains_spec.
  destruct (forallb _ _) eqn:Hall; rewrite ?andb_true_r, ?andb_false_r.
  - rewrite forallb_elem_of in Hall. destruct (vt_participants t); cbn; naive_solver.
  - split; [done|]. intros (_ & _ & H). exfalso.
    apply not_true_iff_false in Hall. apply Hall. by apply forallb_elem_of.
Qed.

Lemma certificate_valid claims ck c :
  c ∈ certificates claims ck → valid_certificate claims ck c.
Proof.
  unfold Checkpoint.certificates, valid_certificate. rewrite list_elem_of_omap.
  intros ([t vs] & (Hwf & _ & Hget)%elem_of_verification_groups & (-> & Hne & Hall)%certificate_of_iff).
  cbn. split_and!; [done..| |].
  + apply bset_ext.
    * by apply bmap_filter_wf.
    * destruct (vt_participants t) as [|w l] eqn:Ep; [done|]. rewrite <-Ep in *.
      assert (w ∈ vt_participants t) as [i Hi]%Hall%elem_of_bmap_keys by (rewrite Ep; left).
      apply bmap_get_filter in Hi as [Hi _]; [|done].
      apply Hget, head_verifications_by in Hi as (d & _ & _ & _ & _ & Ht).
      by eapply verified_terms_participants_wf.
    * intros w. split; [|apply Hall]. intros [i Hi]%elem_of_bmap_keys.
      apply bmap_get_filter in Hi as [_ Hi]; [|done]. by apply bset_mem_spec.
  + intros w i [Hi _]%bmap_get_filter; [|done]. by apply Hget.
Qed.

Lemma valid_certificate_elem_of claims ck c :
  valid_certificate claims ck c → c ∈ certificates claims ck.
Proof.
  unfold Checkpoint.certificates, valid_certificate. rewrite list_elem_of_omap.
  intros (<- & Hne & Hk & Hget). destruct c as [ck t cvs]. cbn [ce_checkpoint ce_terms ce_verifications] in *.
  destruct (vt_participants t) as [|w0 l] eqn:Ep; [done|]. rewrite <-Ep in *.
  destruct (proj1 (elem_of_bmap_keys w0 cvs)) as [i0 Hi0%Hget]; [rewrite Hk, Ep; left|].
  destruct (verification_group_exists _ _ _ _ _ Hi0) as [vs Hvs]. exists (t, vs). split; [done|].
  apply elem_of_verification_groups in Hvs as (Hwf & _ & Hvs).
  apply head_verifications_by in Hi0 as (d & _ & _ & _ & _ & Ht%verified_terms_participants_wf).
  assert (cvs = List.filter (λ '(w, _), bset_mem w (vt_participants t)) vs) as ->.
  { apply bmap_ext; [unfold bmap_wf; by rewrite Hk|by apply bmap_filter_wf|].
    intros w. apply option_eq. intros i.
    rewrite bmap_get_filter, Hvs, bset_mem_spec, <-Hk, elem_of_bmap_keys by done. split.
    - intros Hi. split; [by apply Hget|by eexists].
    - intros [Hi [i' Hi']]. pose proof (Hget _ _ Hi'). congruence. }
  apply certificate_of_iff. split_and!; [done|by rewrite Ep|]. intros w. by rewrite Hk.
Qed.

(** C25: The certificates of a checkpoint are exactly the valid ones: those
    whose participants are nonempty and each published, as its first
    verification of that checkpoint in canonical order, one that names exactly
    these participants and carries exactly these digests; a certificate lists
    the id of that verification for every participant and nothing else. *)
Theorem certificates_iff claims ck c :
  c ∈ certificates claims ck ↔ valid_certificate claims ck c.
Proof. split; [apply certificate_valid|apply valid_certificate_elem_of]. Qed.

Lemma valid_certificate_participant claims ck c w :
  valid_certificate claims ck c → w ∈ vt_participants (ce_terms c) →
  ∃ i, bmap_get w (ce_verifications c) = Some i ∧
       head (verifications_by claims ck w) = Some (i, ce_terms c).
Proof.
  intros (_ & _ & Hk & Hget) Hw. rewrite <-Hk in Hw. apply elem_of_bmap_keys in Hw as [i Hi].
  exists i. split; [done|by apply Hget].
Qed.

Lemma valid_certificate_participants_wf claims ck c :
  valid_certificate claims ck c → bset_wf (vt_participants (ce_terms c)).
Proof.
  intros Hv. pose proof Hv as (_ & Hne & _). destruct (vt_participants (ce_terms c)) as [|w l] eqn:Ep; [done|].
  destruct (valid_certificate_participant _ _ _ w Hv) as (i & _ & Hi); [rewrite Ep; left|].
  apply head_verifications_by in Hi as (d & _ & _ & _ & _ & Ht%verified_terms_participants_wf).
  by rewrite <-Ep.
Qed.

Lemma valid_certificate_terms_inj claims ck c d :
  valid_certificate claims ck c → valid_certificate claims ck d →
  ce_terms c = ce_terms d → c = d.
Proof.
  intros Hc Hd Ht. pose proof (valid_certificate_participants_wf _ _ _ Hc) as Hwf.
  pose proof Hc as (Hck & _ & Hkc & _). pose proof Hd as (Hdk & _ & Hkd & _).
  assert (ce_verifications c = ce_verifications d) as Hv.
  { apply bmap_ext; [unfold bmap_wf; rewrite ?Hkc, ?Hkd, <-?Ht; done..|].
    intros w. destruct (bset_mem w (vt_participants (ce_terms c))) eqn:Hw.
    - apply bset_mem_spec in Hw.
      destruct (valid_certificate_participant _ _ _ w Hc Hw) as (i & -> & Hi).
      rewrite Ht in Hw. destruct (valid_certificate_participant _ _ _ w Hd Hw) as (j & -> & Hj).
      congruence.
    - apply bset_mem_false in Hw. transitivity (None : option string).
      + rewrite <-Hkc in Hw. rewrite elem_of_bmap_keys in Hw. by apply eq_None_not_Some.
      + rewrite Ht, <-Hkd in Hw. rewrite elem_of_bmap_keys in Hw. symmetry. by apply eq_None_not_Some. }
  destruct c, d. cbn in *. congruence.
Qed.

(** C29: Two different certificates of one checkpoint have no participant in
    common: a member's one counted verification supports at most one
    certificate, so a second certificate needs every member of the first to
    be missing from it. *)
Theorem certificates_disjoint claims ck c d w :
  c ∈ certificates claims ck → d ∈ certificates claims ck → c ≠ d →
  w ∈ vt_participants (ce_terms c) → w ∉ vt_participants (ce_terms d).
Proof.
  intros Hc%certificate_valid Hd%certificate_valid Hne Hwc Hwd. apply Hne.
  apply (valid_certificate_terms_inj _ _ _ _ Hc Hd).
  destruct (valid_certificate_participant _ _ _ _ Hc Hwc) as (i & _ & Hi).
  destruct (valid_certificate_participant _ _ _ _ Hd Hwd) as (j & _ & Hj). congruence.
Qed.

Lemma verifications_by_sublist claims claims' ck w :
  claims `sublist_of` claims' → verifications_by claims ck w `sublist_of` verifications_by claims' ck w.
Proof.
  unfold verifications_by. induction 1 as [|c l l' _ IH|c l l' _ IH]; cbn; [done| |].
  - destruct (verification_by w ck c); [by constructor|done].
  - destruct (verification_by w ck c); [by constructor|done].
Qed.

(** A certificate, once reached, stays a certificate when further claims
    arrive at any place of the canonical order, provided each of its
    participants verifies the checkpoint at most once. *)
Theorem certificates_persist claims claims' ck c :
  claims `sublist_of` claims' →
  (∀ w, w ∈ vt_participants (ce_terms c) → (length (verifications_by claims' ck w) <= 1)%nat) →
  c ∈ certificates claims ck → c ∈ certificates claims' ck.
Proof.
  intros Hsub Hone (Hck & Hne & Hk & Hget)%certificate_valid. apply valid_certificate_elem_of.
  split_and!; [done..|]. intros w i Hi.
  assert (w ∈ vt_participants (ce_terms c)) as Hw by (rewrite <-Hk; apply elem_of_bmap_keys; by eexists).
  specialize (Hone w Hw). apply Hget in Hi.
  pose proof (verifications_by_sublist _ _ ck w Hsub) as Hs.
  destruct (verifications_by claims ck w) as [|x l]; [done|]. injection Hi as ->.
  destruct (verifications_by claims' ck w) as [|y [|z l']]; cbn in Hone; [|cbn|lia].
  - by apply sublist_nil_r in Hs.
  - apply (elem_of_sublist _ _ (i, ce_terms c)) in Hs; [|left].
    by apply list_elem_of_singleton in Hs as <-.
Qed.

(** ** Stable checkpoints *)

Lemma certificate_name claims ck c :
  c ∈ certificates claims ck →
  ck = checkpoint_name utc_day (vt_cut (ce_terms c)) ∧
  ∃ d, d ∈ claims ∧ cc_subject d = ck ∧ cc_kind d = CHECKPOINT_VERIFIED.
Proof.
  intros Hv%certificate_valid. pose proof Hv as (_ & Hne & _).
  destruct (vt_participants (ce_terms c)) as [|w l] eqn:Ep; [done|].
  destruct (valid_certificate_participant _ _ _ w Hv) as (i & _ & Hi); [rewrite Ep; left|].
  apply head_verifications_by in Hi as (d & Hd & Hs & _ & _ & Ht).
  unfold Checkpoint.verified_terms in Ht.
  destruct (String.eqb_spec (cc_kind d) CHECKPOINT_VERIFIED) as [Hk|]; [|done]. cbn in Ht.
  apply bind_Some in Ht as (cut & Hcut & Ht). do 7 apply bind_Some in Ht as (? & _ & Ht).
  injection Ht as <-. cbn. unfold cc_cut in Hcut.
  apply bind_Some in Hcut as (n & _ & Hcut). destruct (String.eqb_spec (checkpoint_name utc_day n) (cc_subject d)); [|done].
  injection Hcut as <-. split; [congruence|eauto].
Qed.

Definition stable_step claims (m : BTreeMap Z (list Certificate)) (ck : string)
    : BTreeMap Z (list Certificate) :=
  match certificates claims ck with
  | c :: _ => bmap_insert (vt_cut (ce_terms c)) (certificates claims ck) m
  | [] => m
  end.

Lemma foldl_stable_step claims l cut certs :
  bmap_get cut (foldl (stable_step claims) [] l) = Some certs ↔
  checkpoint_name utc_day cut ∈ l ∧ certs = certificates claims (checkpoint_name utc_day cut) ∧
  ∃ c, head certs = Some c ∧ vt_cut (ce_terms c) = cut.
Proof.
  induction l as [|ck l IH] using rev_ind; [set_solver|].
  rewrite foldl_snoc, elem_of_app, list_elem_of_singleton. unfold stable_step at 1.
  destruct (certificates claims ck) as [|c cs] eqn:E.
  - rewrite IH. split; [naive_solver|]. intros ([?| <-] & -> & c & Hh & Hc); [naive_solver|].
    by rewrite E in Hh.
  - destruct (certificate_name claims ck c) as [Hn _]; [rewrite E; left|].
    destruct (decide (cut = vt_cut (ce_terms c))) as [->|Hne].
    + rewrite bmap_get_insert, <-Hn, E. naive_solver.
    + rewrite bmap_get_insert_ne, IH by done. split; [naive_solver|].
      intros ([?| <-] & -> & c' & Hh & Hc); [naive_solver|]. rewrite E in Hh. naive_solver.
Qed.

(** The stable checkpoints by cut are exactly the checkpoints that have a
    certificate: a cut's entry is all the certificates of the checkpoint the
    cut names, it is filed under the cut its first certificate carries, and no
    checkpoint's entry is lost to another's. *)
Theorem stable_checkpoints_iff claims cut certs :
  bmap_get cut (stable_checkpoints utc_day claims) = Some certs ↔
  certs = certificates claims (checkpoint_name utc_day cut) ∧
  ∃ c, head certs = Some c ∧ vt_cut (ce_terms c) = cut.
Proof.
  unfold stable_checkpoints. change (λ m checkpoint, _) with (stable_step claims).
  rewrite foldl_stable_step, elem_of_bset_of_list. split; [naive_solver|].
  intros [-> (c & Hh & Hc)]. split_and!; [|done|naive_solver].
  destruct (certificate_name claims (checkpoint_name utc_day cut) c) as [_ (d & Hd & <- & Hk)].
  { by apply head_Some_elem_of. }
  apply list_elem_of_fmap. exists d. split; [done|]. apply filter_elem_of. by rewrite Hk.
Qed.
End certificate_facts.

(** ** The chosen certificate *)

Definition certificate_key (c : Certificate) : Z * (string * VerifiedTerms) :=
  (- Z.of_nat (length (vt_participants (ce_terms c))), (vt_drop_digest (ce_terms c), ce_terms c))%Z.

Lemma certificate_cmp_key c d : certificate_cmp c d = cmp (certificate_key c) (certificate_key d).
Proof.
  assert (∀ n m, cmp (- Z.of_nat n)%Z (- Z.of_nat m)%Z = Nat.compare m n) as E.
  { intros n m. change (cmp (- Z.of_nat n)%Z (- Z.of_nat m)%Z) with (- Z.of_nat n ?= - Z.of_nat m)%Z.
    by rewrite Z.compare_opp, Nat2Z.inj_compare. }
  unfold certificate_cmp. by rewrite <-E.
Qed.

(** The certificate applied for a cut does not depend on the order in which
    the certificates are listed: any two lists of the same certificates, with
    distinct terms, choose the same one.  It exists whenever there is a
    certificate, no certificate has more participants, and among those with as
    many none has a smaller drop digest. *)
Theorem chosen_certificate_agreed l l' :
  (∀ c, c ∈ l ↔ c ∈ l') →
  (∀ c d, c ∈ l → d ∈ l → ce_terms c = ce_terms d → c = d) →
  chosen_certificate l = chosen_certificate l' ∧
  (l ≠ [] → ∃ c, chosen_certificate l = Some c ∧ c ∈ l ∧
     ∀ d, d ∈ l →
       let n := length (vt_participants (ce_terms c)) in
       let m := length (vt_participants (ce_terms d)) in
       (m < n)%nat ∨ (m = n ∧ cmp (vt_drop_digest (ce_terms c)) (vt_drop_digest (ce_terms d)) ≠ Gt)).
Proof.
  intros Hl Hinj. unfold chosen_certificate.
  pose proof (min_by_least certificate_cmp certificate_key certificate_cmp_key) as Hmin. split.
  - apply (min_by_same certificate_cmp certificate_key certificate_cmp_key); [done|].
    intros c d Hc Hd [= _ _ Ht]. by apply Hinj.
  - intros Hne. destruct (min_by certificate_cmp l) as [c|] eqn:E; [|by apply min_by_None in E].
    destruct (Hmin _ _ E) as [Hc Hle]. exists c. split_and!; [done..|]. intros d Hd. cbn.
    specialize (Hle d Hd). rewrite <-certificate_cmp_key in Hle. unfold certificate_cmp in Hle.
    destruct (Nat.compare_spec (length (vt_participants (ce_terms d)))
                (length (vt_participants (ce_terms c)))); [|by left|done].
    right. split; [done|]. intros E'. by rewrite E' in Hle.
Qed.

(** ** A partition certified on both sides *)

Definition demo_day (ms : Z) : option string := Some (decimal (ms / DAY_MS)).

Definition demo_verified (i writer : string) (parts : list string) (drop : string) : CheckpointClaim :=
  {| cc_id := i; cc_kind := CHECKPOINT_VERIFIED; cc_subject := "checkpoint/2"; cc_writer := writer;
     cc_actor := None;
     cc_fields := [("cut_unix_ms", VNumber (PosInt 172800000%Z));
                   ("participants", Array (VString <$> parts)); ("sealed_digest", VString "s");
                   ("rules_digest", VString "r"); ("drop_digest", VString drop);
                   ("retained_digest", VString "k"); ("graph_digest", VString "g");
                   ("reader_digest", VString "q")] |}.
Definition demo_excusal (i writer : string) : CheckpointClaim :=
  {| cc_id := i; cc_kind := CHECKPOINT_EXCUSED; cc_subject := "checkpoint/2"; cc_writer := "a";
     cc_actor := Some "person/ada"; cc_fields := [("writer", VString writer)] |}.

Definition demo_checkpoint : list CheckpointClaim :=
  [ demo_excusal "1" "c"; demo_verified "2" "a" ["a"; "b"] "d1"; demo_verified "3" "b" ["b"; "a"] "d1";
    demo_verified "4" "c" ["c"] "d0"; demo_verified "5" "c" ["c"] "d9" ].

Definition demo_terms (parts : list string) (drop : string) : VerifiedTerms :=
  {| vt_cut := 172800000%Z; vt_participants := parts; vt_sealed_digest := "s"; vt_rules_digest := "r";
     vt_drop_digest := drop; vt_retained_digest := "k"; vt_graph_digest := "g"; vt_reader_digest := "q" |}.
Definition demo_pair : Certificate :=
  {| ce_checkpoint := "checkpoint/2"; ce_terms := demo_terms ["a"; "b"] "d1";
     ce_verifications := [("a", "2"); ("b", "3")] |}.
Definition demo_alone : Certificate :=
  {| ce_checkpoint := "checkpoint/2"; ce_terms := demo_terms ["c"] "d0";
     ce_verifications := [("c", "4")] |}.

Example demo_certificates :
  certificates demo_day demo_checkpoint "checkpoint/2" = [demo_pair; demo_alone].
Proof. vm_compute. reflexivity. Qed.

(** The writer's own verification ended its excusal. *)
Example demo_participants :
  participants demo_day ["a"] [] demo_checkpoint = ["a"; "b"; "c"] ∧
  participants_for_rules demo_day ["a"] [] demo_checkpoint "r2" = ["a"; "b"].
Proof. vm_compute. done. Qed.

Lemma certificates_disjoint_witness : "a" ∉ vt_participants (ce_terms demo_alone).
Proof.
  apply (certificates_disjoint demo_day demo_checkpoint "checkpoint/2" demo_pair demo_alone "a").
  - rewrite demo_certificates. left.
  - rewrite demo_certificates. right. left.
  - intros H. discriminate H.
  - left.
Defined.

Lemma certificates_persist_witness :
  demo_pair ∈ certificates demo_day (demo_excusal "0" "z" :: demo_checkpoint) "checkpoint/2".
Proof.
  apply (certificates_persist demo_day demo_checkpoint).
  - constructor. reflexivity.
  - intros w [-> |[-> |[]%not_elem_of_nil]%elem_of_cons]%elem_of_cons; apply Nat.leb_le; reflexivity.
  - rewrite demo_certificates. left.
Defined.

Lemma chosen_certificate_agreed_witness :
  chosen_certificate [demo_alone; demo_pair] = chosen_certificate [demo_pair; demo_alone].
Proof.
  apply chosen_certificate_agreed.
  - intros c. rewrite !elem_of_cons. clear. tauto.
  - intros c d [-> |[-> |[]%not_elem_of_nil]%elem_of_cons]%elem_of_cons
      [-> |[-> |[]%not_elem_of_nil]%elem_of_cons]%elem_of_cons H; first [reflexivity|discriminate H].
Defined.
