(* ===== verification/Principal.v ===== *)
(** * Principals and claim signatures (crates/smallclaims/src/principal.rs)

    Principals are subjects that hold keys; delegations ([principal.key-granted]
    claims) connect their keys to node keys, the trust roots.  [judge] decides
    what a claim's signature is worth from facts the store looks up.  The
    cryptographic and serialisation packages are the class [Crypto]; the trait
    [Facts] is a class of the same shape. *)

From S2P Require Import Prelude BTree Json.

Local Open Scope string_scope.

(** ** Roles and families *)

Definition KEY_GRANTED : string := "principal.key-granted".
Definition KEY_REVOKED : string := "principal.key-revoked".

Inductive Role := Root | Device | RAgent | RPlugin.
Inductive Family := Node | Person | FAgent | FPlugin.

#[export] Instance Role_eq_dec : EqDecision Role.
Proof. solve_decision. Defined.
#[export] Instance Family_eq_dec : EqDecision Family.
Proof. solve_decision. Defined.

(** The [Debug] names, used in messages. *)
Definition role_debug (r : Role) : string :=
  match r with Root => "Root" | Device => "Device" | RAgent => "Agent" | RPlugin => "Plugin" end.
Definition family_debug (f : Family) : string :=
  match f with Node => "Node" | Person => "Person" | FAgent => "Agent" | FPlugin => "Plugin" end.

(** [Family::of] *)
Definition family_of (subject : string) : option Family :=
  match split_once "/" subject with
  | None => None
  | Some (prefix, rest) =>
      if String.eqb rest "" then None
      else if String.eqb prefix "host" then Some Node
      else if String.eqb prefix "person" then Some Person
      else if String.eqb prefix "agent" then Some FAgent
      else if String.eqb prefix "plugin" then Some FPlugin
      else None
  end.

(** [Family::accepts] *)
Definition accepts (f : Family) (role : Role) (issuer : Family) (same_principal : bool) : bool :=
  match f, role with
  | Person, Root => bool_decide (issuer = Node)
  | Person, Device => bool_decide (issuer = Person) && same_principal
  | FAgent, RAgent => bool_decide (issuer = Node)
  | FPlugin, RPlugin => bool_decide (issuer = Node)
  | _, _ => false
  end.

(** [Family::signs_with] *)
Definition signs_with (f : Family) (role : Role) : bool :=
  match f, role with
  | Person, Device | FAgent, RAgent | FPlugin, RPlugin => true
  | _, _ => false
  end.

(** ** Key grants *)

Record KeyGrant := {
  kg_key : string;
  kg_role : Role;
  kg_issuer : string;
  kg_issuer_key : string;
  kg_label : option string
}.

(** The derived (de)serialisation of [Role]: kebab-case names, a unit variant
    written as its name or as an object of its name and null. *)
Definition role_name (r : Role) : string :=
  match r with Root => "root" | Device => "device" | RAgent => "agent" | RPlugin => "plugin" end.
Definition role_of_name (s : string) : option Role :=
  if String.eqb s "root" then Some Root
  else if String.eqb s "device" then Some Device
  else if String.eqb s "agent" then Some RAgent
  else if String.eqb s "plugin" then Some RPlugin
  else None.
Definition role_of_value (v : Value) : option Role :=
  match v with
  | VString s => role_of_name s
  | Object [(s, Null)] => role_of_name s
  | _ => None
  end.
Definition label_of_value (v : option Value) : option (option string) :=
  match v with
  | None | Some Null => Some None
  | Some (VString s) => Some (Some s)
  | _ => None
  end.

Definition key_grant_of (key role issuer issuer_key label : option Value) : option KeyGrant :=
  key ← key ≫= as_str;
  role ← role ≫= role_of_value;
  issuer ← issuer ≫= as_str;
  issuer_key ← issuer_key ≫= as_str;
  label ← label_of_value label;
  Some {| kg_key := key; kg_role := role; kg_issuer := issuer; kg_issuer_key := issuer_key;
          kg_label := label |}.

(** [KeyGrant::from_fields]: a struct is read from an object, ignoring other
    keys, or from the sequence of its fields. *)
Definition from_fields (fields : Value) : option KeyGrant :=
  match fields with
  | Object l => key_grant_of (assoc "key" l) (assoc "role" l) (assoc "issuer" l)
                  (assoc "issuer_key" l) (assoc "label" l)
  | Array [key; role; issuer; issuer_key] =>
      key_grant_of (Some key) (Some role) (Some issuer) (Some issuer_key) None
  | Array [key; role; issuer; issuer_key; label] =>
      key_grant_of (Some key) (Some role) (Some issuer) (Some issuer_key) (Some label)
  | _ => None
  end.

(** [KeyGrant::fields] *)
Definition grant_fields (g : KeyGrant) : BTreeMap string Value :=
  foldl (λ m '(k, v), bmap_insert k v m) []
    ([("key", VString (kg_key g)); ("role", VString (role_name (kg_role g)));
      ("issuer", VString (kg_issuer g)); ("issuer_key", VString (kg_issuer_key g))]
     ++ match kg_label g with Some l => [("label", VString l)] | None => [] end)%list.

(** ** Signatures *)

Record ClaimSignature := {
  cs_signer : string;
  cs_on_behalf : option string;
  cs_key : string;
  cs_chain : list string;
  cs_nonce : string;
  cs_signed_at : Z;
  cs_signature : string;
  cs_format : option string;
  cs_signed_fields : list string
}.

(** [Judged] *)
Record Judged := {
  jd_id : string;
  jd_subject : string;
  jd_kind : string;
  jd_actor : option string;
  jd_content : string;
  jd_fields : Value
}.

(** The packages [base64], [ring] and [serde_json]. *)
Class Crypto := {
  base64url_decode : string → option (list ascii);
  ed25519_verify : list ascii → string → list ascii → bool;
  p256_verify : list ascii → string → list ascii → bool;
  json_to_string : Value → string
}.

Definition CLAIM_SIGNATURE_DOMAIN : string := "smallclaims-claim-v1".
Definition FIELDS_FORMAT : string := "fields-v1".
Definition FIELDS_DOMAIN : string := "smallclaims-claim-fields-v1".
Definition NL : ascii := "010"%char.
Definition newline : string := String NL "".

(** [signing_bytes] *)
Definition signing_bytes (content signer : string) (on_behalf : option string) (key : string)
    (chain : list string) (nonce : string) (signed_at : Z) : string :=
  join newline [CLAIM_SIGNATURE_DOMAIN; content; signer; default "" on_behalf; key;
                join "," chain; nonce; decimal signed_at].

Section signatures.
Context `{Crypto}.

(** [fields_signing_bytes]; [sort] and [dedup] give the names as a set. *)
Definition fields_signing_bytes (subject kind : string) (actor : option string) (fields : Value)
    (signed_fields : list string) (signer : string) (on_behalf : option string) (key : string)
    (chain : list string) (nonce : string) (signed_at : Z) : string :=
  let names := bset_of_list signed_fields in
  let line name := name +:+ "=" +:+
    json_to_string (canonical_json_value (default Null (value_get name fields))) in
  join newline ([FIELDS_DOMAIN; subject; kind; default "" actor] ++ (line <$> names) ++
                [signer; default "" on_behalf; key; join "," chain; nonce; decimal signed_at])%list.

(** [fleet::keys::verify_signature] *)
Definition verify_signature (public message signature : string) : bool :=
  match base64url_decode public, base64url_decode signature with
  | Some public, Some signature =>
      bool_decide (length public = 32%nat) && ed25519_verify public message signature
  | _, _ => false
  end.

(** [verify_key_signature] *)
Definition verify_key_signature (key message signature : string) : bool :=
  match strip_prefix "p256:" key with
  | None => verify_signature key message signature
  | Some point =>
      match base64url_decode point, base64url_decode signature with
      | Some point, Some signature =>
          bool_decide (length point = 65%nat) && p256_verify point message signature
      | _, _ => false
      end
  end.

(** [ClaimSignature::verifies] *)
Definition verifies (s : ClaimSignature) (claim : Judged) : bool :=
  match cs_format s with
  | None =>
      verify_key_signature (cs_key s)
        (signing_bytes (jd_content claim) (cs_signer s) (cs_on_behalf s) (cs_key s) (cs_chain s)
           (cs_nonce s) (cs_signed_at s)) (cs_signature s)
  | Some f =>
      if String.eqb f FIELDS_FORMAT && negb (bool_decide (cs_signed_fields s = []))
      then verify_key_signature (cs_key s)
             (fields_signing_bytes (jd_subject claim) (jd_kind claim) (jd_actor claim)
                (jd_fields claim) (cs_signed_fields s) (cs_signer s) (cs_on_behalf s) (cs_key s)
                (cs_chain s) (cs_nonce s) (cs_signed_at s)) (cs_signature s)
      else false
  end.
End signatures.

(** ** Verdicts *)

Inductive Verdict :=
| Verified
| Unsigned
| Held (reason : string)
| Invalid (reason : string).

#[export] Instance Verdict_eq_dec : EqDecision Verdict.
Proof. solve_decision. Defined.

Record Delegation := {
  dg_subject : string;
  dg_grant : KeyGrant;
  dg_verdict : Verdict
}.

(** The trait [Facts]: what [judge] asks the store. *)
Class Facts := {
  delegation : string → option Delegation;
  is_root : string → string → bool;
  revoked_before : string → string → bool;
  nonce_used_before : string → string → bool
}.

Definition quote (s : string) : string := "`" +:+ s +:+ "`".

Section judge.
Context `{Crypto, Facts}.

(** The loop of [judge_chain] at one delegation and after it: [first] is
    [index == 0]. *)
Fixpoint walk_chain (claim : Judged) (family : Family) (first : bool) (principal key : string)
    (chain : list string) : Verdict :=
  match chain with
  | [] => Invalid "the chain does not reach a node"
  | i :: rest =>
      match delegation i with
      | None => Held ("delegation " +:+ i +:+ " has not arrived")
      | Some d =>
          let grant := dg_grant d in
          if negb (String.eqb (dg_subject d) principal) || negb (String.eqb (kg_key grant) key) then
            Invalid ("delegation " +:+ i +:+ " does not grant the key the chain needs")
          else if first && negb (String.eqb (jd_kind claim) KEY_GRANTED)
                  && negb (signs_with family (kg_role grant)) then
            Invalid ("a " +:+ role_debug (kg_role grant) +:+ " key does not sign claims")
          else if negb first && negb (bool_decide (kg_role grant = Root)) then
            Invalid ("delegation " +:+ i +:+ " cannot issue keys")
          else if revoked_before principal key then
            Invalid ("the key of " +:+ quote principal +:+ " in the chain was revoked")
          else match dg_verdict d with
          | Held reason => Held reason
          | Unsigned => Invalid ("delegation " +:+ i +:+ " is unsigned")
          | Invalid reason => Invalid ("delegation " +:+ i +:+ " is invalid: " +:+ reason)
          | Verified =>
              if bool_decide (family_of (kg_issuer grant) = Some Node) then
                match rest with
                | [] => Verified
                | _ :: _ => Invalid "the chain goes on past a node"
                end
              else walk_chain claim family false (kg_issuer grant) (kg_issuer_key grant) rest
          end
      end
  end.

Definition judge_chain (claim : Judged) (s : ClaimSignature) (family : Family) : Verdict :=
  match cs_chain s with
  | [] => Invalid "the signature names no delegation for its key"
  | _ :: _ => walk_chain claim family true (cs_signer s) (cs_key s) (cs_chain s)
  end.

(** The checks of [judge] on a grant claim: the verdict that refuses it, if
    any. *)
Definition refuse_grant (claim : Judged) (s : ClaimSignature) (family : Family) : option Verdict :=
  if negb (String.eqb (jd_kind claim) KEY_GRANTED) then None
  else match from_fields (jd_fields claim) with
  | Some grant =>
      if String.eqb (kg_issuer grant) (cs_signer s) && String.eqb (kg_issuer_key grant) (cs_key s) then
        match family_of (jd_subject claim) with
        | None => Some (Invalid (quote (jd_subject claim) +:+ " cannot hold keys"))
        | Some subject_family =>
            if negb (accepts subject_family (kg_role grant) family
                       (String.eqb (jd_subject claim) (kg_issuer grant)))
            then Some (Invalid ("a " +:+ family_debug family +:+ " cannot grant a " +:+
                   role_debug (kg_role grant) +:+ " key to " +:+ quote (jd_subject claim)))
            else None
        end
      else Some (Invalid "a key grant must be signed by its issuer's key")
  | None => Some (Invalid "the key grant's fields are malformed")
  end.

(** [judge] *)
Definition judge (claim : Judged) (signature : option ClaimSignature) : Verdict :=
  match signature with
  | None => Unsigned
  | Some s =>
      if negb (verifies s claim) then Invalid "the signature does not match the claim"
      else if nonce_used_before (cs_key s) (cs_nonce s) then
        Invalid "the signature was used by an earlier claim"
      else if is_some_and (String.eqb (cs_signer s)) (cs_on_behalf s) then
        Invalid "a signer cannot act on its own behalf"
      else match family_of (cs_signer s) with
      | None => Invalid (quote (cs_signer s) +:+ " is not a principal")
      | Some family =>
          match refuse_grant claim s family with
          | Some verdict => verdict
          | None =>
              if bool_decide (family = Node) then
                if negb (bool_decide (cs_chain s = [])) then Invalid "a node key needs no chain"
                else if is_root (cs_signer s) (cs_key s) then Verified
                else Held ("fleet membership admits no such key for " +:+ quote (cs_signer s))
              else judge_chain claim s family
          end
      end
  end.
End judge.

(** ** What a verdict of verified means *)

Section verified.
Context `{Crypto, Facts}.

(** The chain from the key [k] of [p] to a node: every delegation has arrived
    and is verified, grants the key the step below needs in a role that may do
    that step's work, and its key is not revoked. *)
Inductive chain_ok (claim : Judged) (family : Family) : bool → string → string → list string → Prop :=
| chain_node (first : bool) i d :
    delegation i = Some d → dg_verdict d = Verified →
    revoked_before (dg_subject d) (kg_key (dg_grant d)) = false →
    (if first then jd_kind claim = KEY_GRANTED ∨ signs_with family (kg_role (dg_grant d)) = true
     else kg_role (dg_grant d) = Root) →
    family_of (kg_issuer (dg_grant d)) = Some Node →
    chain_ok claim family first (dg_subject d) (kg_key (dg_grant d)) [i]
| chain_step (first : bool) i d rest :
    delegation i = Some d → dg_verdict d = Verified →
    revoked_before (dg_subject d) (kg_key (dg_grant d)) = false →
    (if first then jd_kind claim = KEY_GRANTED ∨ signs_with family (kg_role (dg_grant d)) = true
     else kg_role (dg_grant d) = Root) →
    family_of (kg_issuer (dg_grant d)) ≠ Some Node →
    chain_ok claim family false (kg_issuer (dg_grant d)) (kg_issuer_key (dg_grant d)) rest →
    chain_ok claim family first (dg_subject d) (kg_key (dg_grant d)) (i :: rest).

Lemma walk_chain_sound claim family first p k chain :
  walk_chain claim family first p k chain = Verified → chain_ok claim family first p k chain.
Proof.
  revert first p k. induction chain as [|i rest IH]; intros first p k; cbn; [done|].
  destruct (delegation i) as [d|] eqn:Hd; [|done].
  destruct (String.eqb_spec (dg_subject d) p) as [<-|]; [|done].
  destruct (String.eqb_spec (kg_key (dg_grant d)) k) as [<-|]; [|done]. cbn.
  destruct (first && _ && _) eqn:Hfirst; [done|].
  destruct (negb first && _) eqn:Hlater; [done|].
  destruct (revoked_before _ _) eqn:Hrev; [done|].
  assert (if first then jd_kind claim = KEY_GRANTED ∨ signs_with family (kg_role (dg_grant d)) = true
          else kg_role (dg_grant d) = Root) as Hrole.
  { destruct first; cbn [negb andb] in Hfirst, Hlater; [|by bool_prop].
    destruct (String.eqb_spec (jd_kind claim) KEY_GRANTED); [by left|]. right. cbn [negb andb] in Hfirst. by bool_prop. }
  clear Hfirst Hlater. destruct (dg_verdict d) eqn:Hv; [|done..].
  case_bool_decide as Hnode.
  - destruct rest; [|done]. intros _. by apply chain_node.
  - intros Hw. apply chain_step; auto.
Qed.

Lemma walk_chain_complete claim family first p k chain :
  chain_ok claim family first p k chain → walk_chain claim family first p k chain = Verified.
Proof.
  induction 1 as [first i d Hd Hv Hrev Hrole Hnode|first i d rest Hd Hv Hrev Hrole Hnode _ IH];
    cbn; rewrite Hd, !String.eqb_refl; cbn; rewrite Hrev, Hv.
  all: replace (first && _ && _) with false
         by (destruct first; cbn; [|done]; destruct Hrole as [-> | ->]; cbn;
             rewrite ?andb_false_r; done).
  all: replace (negb first && _) with false
         by (destruct first; cbn; [done|]; by rewrite bool_decide_eq_true_2).
  - by rewrite bool_decide_eq_true_2.
  - by rewrite bool_decide_eq_false_2.
Qed.

Lemma chain_ok_nonempty claim family first p k chain :
  chain_ok claim family first p k chain → chain ≠ [].
Proof. by destruct 1. Qed.

Lemma judge_chain_verified claim s family :
  judge_chain claim s family = Verified ↔
  chain_ok claim family true (cs_signer s) (cs_key s) (cs_chain s).
Proof.
  unfold judge_chain. split.
  - destruct (cs_chain s); [done|]. apply walk_chain_sound.
  - intros Hc. pose proof (chain_ok_nonempty _ _ _ _ _ _ Hc).
    apply walk_chain_complete in Hc. by destruct (cs_chain s).
Qed.

(** A grant claim is signed by its issuer's key, and its issuer may grant that
    role to its subject. *)
Definition grant_allowed (claim : Judged) (s : ClaimSignature) (family : Family) : Prop :=
  jd_kind claim = KEY_GRANTED →
  ∃ grant f, from_fields (jd_fields claim) = Some grant ∧
    kg_issuer grant = cs_signer s ∧ kg_issuer_key grant = cs_key s ∧
    family_of (jd_subject claim) = Some f ∧
    accepts f (kg_role grant) family (String.eqb (jd_subject claim) (kg_issuer grant)) = true.

Lemma refuse_grant_None claim s family :
  refuse_grant claim s family = None ↔ grant_allowed claim s family.
Proof.
  unfold refuse_grant, grant_allowed.
  destruct (String.eqb_spec (jd_kind claim) KEY_GRANTED) as [Hk|Hk]; cbn; [|naive_solver].
  destruct (from_fields (jd_fields claim)) as [g|]; [|naive_solver].
  destruct (String.eqb_spec (kg_issuer g) (cs_signer s)); cbn; [|naive_solver].
  destruct (String.eqb_spec (kg_issuer_key g) (cs_key s)); [|naive_solver].
  destruct (family_of (jd_subject claim)) as [f|]; [|naive_solver].
  destruct (accepts _ _ _ _) eqn:E; cbn; split; [eauto 10|done|done|].
  intros Hg. destruct (Hg Hk) as (g' & f' & [= <-] & _ & _ & [= <-] & E'). congruence.
Qed.

Lemma judge_verified claim s :
  judge claim (Some s) = Verified ↔
  verifies s claim = true ∧ nonce_used_before (cs_key s) (cs_nonce s) = false ∧
  cs_on_behalf s ≠ Some (cs_signer s) ∧
  ∃ family, family_of (cs_signer s) = Some family ∧ grant_allowed claim s family ∧
    (if decide (family = Node)
     then cs_chain s = [] ∧ is_root (cs_signer s) (cs_key s) = true
     else chain_ok claim family true (cs_signer s) (cs_key s) (cs_chain s)).
Proof.
  unfold judge. destruct (verifies s claim); cbn; [|naive_solver].
  destruct (nonce_used_before _ _); [naive_solver|].
  assert (is_some_and (String.eqb (cs_signer s)) (cs_on_behalf s) = false
          ↔ cs_on_behalf s ≠ Some (cs_signer s)) as Hob.
  { destruct (cs_on_behalf s) as [b|]; cbn; [|naive_solver].
    rewrite String.eqb_neq. naive_solver. }
  destruct (is_some_and _ _); [naive_solver|].
  destruct (family_of (cs_signer s)) as [family|]; [|naive_solver].
  pose proof (refuse_grant_None claim s family) as Hg.
  destruct (refuse_grant claim s family) as [v|] eqn:Er.
  - split; [|naive_solver]. intros ->. exfalso. unfold refuse_grant in Er.
    repeat (case_match; try done).
  - case_bool_decide as Hn.
    + subst family. case_bool_decide as Hc; cbn [negb].
      * destruct (is_root _ _); [|naive_solver]. split; [|done]. intros _.
        split_and!; [done|done|by apply Hob|]. exists Node. split_and!; [done|by apply Hg|].
        by rewrite decide_True.
      * split; [done|]. intros (_ & _ & _ & f & [= <-] & _ & Hc'). rewrite decide_True in Hc' by done.
        naive_solver.
    + rewrite judge_chain_verified. split.
      * intros Hok. split_and!; [done|done|by apply Hob|]. exists family. rewrite decide_False by done.
        naive_solver.
      * intros (_ & _ & _ & f & [= <-] & _ & Hc'). by rewrite decide_False in Hc'.
Qed.
End verified.

(** C35: A claim is judged verified exactly when its signature matches it, the
    nonce is fresh, the signer does not act on its own behalf, a grant claim is
    one its signer may issue, and the key is a trust root of the signing node
    or reaches a node through delegations that have all arrived, are verified,
    unrevoked, and in the roles the walk requires. *)
Theorem judge_verified_iff `{Crypto, Facts} claim s :
  judge claim (Some s) = Verified ↔
  verifies s claim = true ∧ nonce_used_before (cs_key s) (cs_nonce s) = false ∧
  cs_on_behalf s ≠ Some (cs_signer s) ∧
  ∃ family, family_of (cs_signer s) = Some family ∧ grant_allowed claim s family ∧
    (if decide (family = Node)
     then cs_chain s = [] ∧ is_root (cs_signer s) (cs_key s) = true
     else chain_ok claim family true (cs_signer s) (cs_key s) (cs_chain s)).
Proof. apply judge_verified. Qed.

(** ** Delegation chains end at a trust root *)

Section rooted.
Context `{Crypto} (F : Facts).

(** The store's delegations are grant claims it has judged itself: with the
    facts as they stood at the delegation (what was revoked or used before it
    differs), which know no trust root this store does not. *)
Definition facts_sound : Prop :=
  ∀ i d, delegation i = Some d → dg_verdict d = Verified →
  ∃ (F' : Facts) claim s,
    jd_kind claim = KEY_GRANTED ∧ jd_subject claim = dg_subject d ∧
    from_fields (jd_fields claim) = Some (dg_grant d) ∧
    judge (H0 := F') claim (Some s) = Verified ∧
    ∀ p k, is_root (Facts := F') p k = true → is_root (Facts := F) p k = true.

(** [k] speaks for [p]: it is a node's trust root, or a verified grant that
    the rules allow gives it to [p], issued with a key that speaks for the
    issuer. *)
Inductive speaks : string → string → Prop :=
| speaks_root p k : family_of p = Some Node → is_root p k = true → speaks p k
| speaks_grant i d f f' :
    delegation i = Some d → dg_verdict d = Verified →
    family_of (dg_subject d) = Some f → family_of (kg_issuer (dg_grant d)) = Some f' →
    accepts f (kg_role (dg_grant d)) f' (String.eqb (dg_subject d) (kg_issuer (dg_grant d))) = true →
    revoked_before (dg_subject d) (kg_key (dg_grant d)) = false →
    speaks (kg_issuer (dg_grant d)) (kg_issuer_key (dg_grant d)) →
    speaks (dg_subject d) (kg_key (dg_grant d)).

(** What a verified delegation's own verdict established. *)
Lemma delegation_allowed i d :
  facts_sound → delegation i = Some d → dg_verdict d = Verified →
  ∃ f f', family_of (dg_subject d) = Some f ∧ family_of (kg_issuer (dg_grant d)) = Some f' ∧
    accepts f (kg_role (dg_grant d)) f' (String.eqb (dg_subject d) (kg_issuer (dg_grant d))) = true ∧
    (f' = Node → is_root (kg_issuer (dg_grant d)) (kg_issuer_key (dg_grant d)) = true).
Proof.
  intros Hsound Hd Hv. destruct (Hsound i d Hd Hv) as (F' & c & s & Hk & Hs & Hf & Hj & Hr).
  apply judge_verified in Hj as (_ & _ & _ & f' & Hf' & Hg & Hroot).
  destruct (Hg Hk) as (g & f & Hg' & Hi & Hik & Hfs & Ha).
  rewrite Hf in Hg'. injection Hg' as <-. rewrite Hs in Hfs, Ha. rewrite <-Hi in Hf'.
  exists f, f'. split_and!; [done..|]. intros ->. rewrite decide_True in Hroot by done.
  apply Hr. rewrite Hi, Hik. apply Hroot.
Qed.

Lemma chain_ok_speaks claim family first p k chain :
  facts_sound → chain_ok claim family first p k chain → speaks p k.
Proof.
  intros Hsound. induction 1 as [first i d Hd Hv Hrev Hrole Hnode|first i d rest Hd Hv Hrev Hrole _ _ IH].
  - destruct (delegation_allowed i d Hsound Hd Hv) as (f & f' & Hf & Hf' & Ha & Hr).
    eapply speaks_grant; [done..|]. apply speaks_root; [done|]. apply Hr. congruence.
  - destruct (delegation_allowed i d Hsound Hd Hv) as (f & f' & Hf & Hf' & Ha & _).
    by eapply speaks_grant.
Qed.

(** C5: When the store judged its delegations by the same function, a verified
    claim carries a genuine, unused signature by a key that speaks for its
    signer: through allowed, verified and unrevoked grants, down to the trust
    root of a node. *)
Theorem judge_verified_rooted claim s :
  facts_sound → judge claim (Some s) = Verified →
  verifies s claim = true ∧ nonce_used_before (cs_key s) (cs_nonce s) = false ∧
  speaks (cs_signer s) (cs_key s).
Proof.
  intros Hsound (Hver & Hn & _ & family & Hf & _ & Hc)%judge_verified. split_and!; [done..|].
  destruct (decide (family = Node)) as [->|]; [apply speaks_root; [done|apply Hc]|].
  by eapply chain_ok_speaks.
Qed.

Lemma accepts_signing f role f' same :
  accepts f role f' same = true → f = Person ∧ role = Device ∧ f' = Person ∧ same = true ∨ f' = Node.
Proof. unfold accepts. destruct f, role; intros ?; bool_prop; naive_solver. Qed.

(** The delegations behind a verified claim that is not itself a grant have
    a fixed shape.  An agent or plugin signs with a key a node granted it.  A
    person signs with a device key their own root key granted, and that root
    key was granted by a node; neither key is revoked, so revoking the root key
    cuts every device below it. *)
Theorem verified_chain_shape claim s family :
  facts_sound → judge claim (Some s) = Verified → jd_kind claim ≠ KEY_GRANTED →
  family_of (cs_signer s) = Some family →
  match family with
  | Node => cs_chain s = [] ∧ is_root (cs_signer s) (cs_key s) = true
  | FAgent | FPlugin => ∃ i d, cs_chain s = [i] ∧ delegation i = Some d ∧
      dg_subject d = cs_signer s ∧ kg_key (dg_grant d) = cs_key s ∧
      revoked_before (cs_signer s) (cs_key s) = false ∧
      is_root (kg_issuer (dg_grant d)) (kg_issuer_key (dg_grant d)) = true
  | Person => ∃ i d j e, cs_chain s = [i; j] ∧ delegation i = Some d ∧ delegation j = Some e ∧
      kg_role (dg_grant d) = Device ∧ kg_key (dg_grant d) = cs_key s ∧ dg_subject d = cs_signer s ∧
      kg_role (dg_grant e) = Root ∧ kg_key (dg_grant e) = kg_issuer_key (dg_grant d) ∧
      dg_subject e = cs_signer s ∧
      revoked_before (cs_signer s) (cs_key s) = false ∧
      revoked_before (cs_signer s) (kg_issuer_key (dg_grant d)) = false ∧
      is_root (kg_issuer (dg_grant e)) (kg_issuer_key (dg_grant e)) = true
  end.
Proof.
  intros Hsound (_ & _ & _ & f & Hf & _ & Hc)%judge_verified Hk Hf'.
  rewrite Hf in Hf'. injection Hf' as <-.
  destruct (decide (f = Node)) as [->|Hn]; [done|].
  inversion Hc as [first i d Hd Hv Hrev Hrole Hnode E1 E2 E3 E4|
                   first i d rest Hd Hv Hrev Hrole Hnode Hrest E1 E2 E3 E4]; subst; clear Hc.
  - destruct Hrole as [?|Hrole]; [done|].
    destruct (delegation_allowed i d Hsound Hd Hv) as (g & g' & Hg & Hg' & Ha & Hr).
    assert (g' = Node) as -> by congruence. specialize (Hr eq_refl).
    rewrite E2 in Hg. assert (g = f) as -> by congruence.
    destruct f; [done| |by exists i, d..].
    destruct (kg_role (dg_grant d)); done.
  - destruct Hrole as [?|Hrole]; [done|].
    destruct (delegation_allowed i d Hsound Hd Hv) as (g & g' & Hg & Hg' & Ha & _).
    rewrite E2 in Hg. assert (g = f) as -> by congruence.
    destruct (accepts_signing _ _ _ _ Ha) as [(-> & Hdev & -> & Hsame)| ->]; [|congruence].
    apply String.eqb_eq in Hsame. rewrite E2 in Hsame.
    inversion Hrest as [first j e He Hve Hreve Hrolee Hnodee F1 F2 F3 F4|
                        first j e rest' He Hve Hreve Hrolee Hnodee _ F1 F2 F3 F4]; subst; clear Hrest.
    + destruct (delegation_allowed j e Hsound He Hve) as (h & h' & Hh & Hh' & Hae & Hr).
      assert (h' = Node) as -> by congruence. specialize (Hr eq_refl).
      exists i, d, j, e. rewrite F2, F3 in Hreve. split_and!; congruence.
    + destruct (delegation_allowed j e Hsound He Hve) as (h & h' & Hh & Hh' & Hae & _).
      rewrite Hrolee in Hae. destruct h, h'; done.
Qed.
End rooted.

(** ** Signed bytes *)

Definition COMMA : ascii := ","%char.

(** The strings a signature covers are lines, and its chain's ids hold no
    comma. *)
Definition signable (content signer : string) (on_behalf : option string) (key : string)
    (chain : list string) (nonce : string) : Prop :=
  (∀ x, x ∈ [content; signer; key; nonce] → NL ∉ bytes_of x) ∧
  (∀ x, on_behalf = Some x → x ≠ "" ∧ NL ∉ bytes_of x) ∧
  (∀ x, x ∈ chain → x ≠ "" ∧ NL ∉ bytes_of x ∧ COMMA ∉ bytes_of x).

Lemma join_no_char c sep l :
  c ∉ bytes_of sep → (∀ x, x ∈ l → c ∉ bytes_of x) → c ∉ bytes_of (join sep l).
Proof.
  intros Hsep. induction l as [|x l IH]; intros Hl; [apply not_elem_of_nil|].
  destruct (decide (l = [])) as [->|Hne]; [apply Hl; left|].
  rewrite join_cons, !bytes_of_app, !not_elem_of_app by done. split_and!; [apply Hl; left|done|].
  apply IH. intros y Hy. apply Hl. by right.
Qed.

Lemma signable_lines content signer on_behalf key chain nonce :
  signable content signer on_behalf key chain nonce →
  ∀ x, x ∈ [CLAIM_SIGNATURE_DOMAIN; content; signer; default "" on_behalf; key; join "," chain; nonce] →
  NL ∉ bytes_of x.
Proof.
  intros (Hl & Ho & Hc). assert (NL ∉ bytes_of "") as Hempty by apply not_elem_of_nil.
  assert (NL ∉ bytes_of CLAIM_SIGNATURE_DOMAIN) by (refine (bool_decide_unpack (_ ∉ _) _); by vm_compute).
  assert (NL ∉ bytes_of (join "," chain)).
  { apply join_no_char; [refine (bool_decide_unpack (_ ∉ _) _); by vm_compute|naive_solver]. }
  assert (NL ∉ bytes_of (default "" on_behalf)).
  { destruct on_behalf; cbn; [naive_solver|done]. }
  intros x. rewrite !elem_of_cons, elem_of_nil. intros Hx.
  destruct_or!; subst; try done; apply Hl; rewrite !elem_of_cons; naive_solver.
Qed.

(** The bytes a node signature covers determine everything it is meant to
    cover: the content digest, the signer, on whose behalf, the key, the whole
    delegation chain, the nonce and the time, for values that are lines and
    chain ids without commas; and they are never the bytes of a named-fields
    signature. *)
Theorem signing_bytes_inj content signer on_behalf key chain nonce at_ms
    content' signer' on_behalf' key' chain' nonce' at_ms' :
  signable content signer on_behalf key chain nonce →
  signable content' signer' on_behalf' key' chain' nonce' →
  u64 at_ms → u64 at_ms' →
  (signing_bytes content signer on_behalf key chain nonce at_ms
   = signing_bytes content' signer' on_behalf' key' chain' nonce' at_ms' →
   (content, signer, on_behalf, key, chain, nonce, at_ms)
   = (content', signer', on_behalf', key', chain', nonce', at_ms')) ∧
  ∀ `{Crypto} subject kind actor fields names,
    signing_bytes content signer on_behalf key chain nonce at_ms ≠
    fields_signing_bytes subject kind actor fields names signer' on_behalf' key' chain' nonce' at_ms'.
Proof.
  intros Hs Hs' Ht Ht'. split.
  - intros E. unfold signing_bytes in E.
    apply (join_inj_last NL [_;_;_;_;_;_;_] [_;_;_;_;_;_;_]) in E
      as [[= <- <- Hob <- Hch <-] Hat];
      [|done|by apply signable_lines|by apply signable_lines].
    destruct Hs as (_ & Ho & Hc), Hs' as (_ & Ho' & Hc').
    apply (join_inj COMMA) in Hch as <-; [|naive_solver..].
    apply decimal_inj in Hat as <-; [|unfold u64 in *; lia..].
    destruct on_behalf as [b|], on_behalf' as [b'|]; cbn in Hob; naive_solver.
  - intros HC subject kind actor fields names E%(f_equal (String.get 18)).
    unfold signing_bytes, fields_signing_bytes in E. rewrite <-!app_comm_cons in E.
    rewrite !join_cons in E by done. discriminate E.
Qed.

(** A key grant read back from its own fields is itself. *)
Theorem key_grant_roundtrip g : from_fields (Object (grant_fields g)) = Some g.
Proof. destruct g as [key [] issuer issuer_key [label|]]; reflexivity. Qed.

(** ** A person, their root key and one device *)

(** A toy signature scheme: the signature is the message. *)
Definition demo_crypto : Crypto :=
  {| base64url_decode s := Some (bytes_of s);
     ed25519_verify _ message signature := bool_decide (signature = bytes_of message);
     p256_verify _ _ _ := false;
     json_to_string _ := "" |}.

Definition demo_node_key : string := "nnnnnnnnnnnnnnnnnnnnnnnnnnnnnnnn".
Definition demo_root_key : string := "rrrrrrrrrrrrrrrrrrrrrrrrrrrrrrrr".
Definition demo_device_key : string := "dddddddddddddddddddddddddddddddd".

Definition demo_root_grant : KeyGrant :=
  {| kg_key := demo_root_key; kg_role := Root; kg_issuer := "host/studio";
     kg_issuer_key := demo_node_key; kg_label := None |}.
Definition demo_device_grant : KeyGrant :=
  {| kg_key := demo_device_key; kg_role := Device; kg_issuer := "person/ada";
     kg_issuer_key := demo_root_key; kg_label := Some "phone" |}.

Definition demo_facts : Facts :=
  {| delegation i :=
       if String.eqb i "g1" then
         Some {| dg_subject := "person/ada"; dg_grant := demo_root_grant; dg_verdict := Verified |}
       else if String.eqb i "g2" then
         Some {| dg_subject := "person/ada"; dg_grant := demo_device_grant; dg_verdict := Verified |}
       else None;
     is_root s k := String.eqb s "host/studio" && String.eqb k demo_node_key;
     revoked_before _ _ := false;
     nonce_used_before _ _ := false |}.

Definition demo_judged (kind : string) (fields : Value) : Judged :=
  {| jd_id := "c"; jd_subject := "person/ada"; jd_kind := kind; jd_actor := None;
     jd_content := "digest"; jd_fields := fields |}.
Definition demo_signature (signer key : string) (chain : list string) : ClaimSignature :=
  {| cs_signer := signer; cs_on_behalf := None; cs_key := key; cs_chain := chain; cs_nonce := "n";
     cs_signed_at := 1; cs_signature := signing_bytes "digest" signer None key chain "n" 1;
     cs_format := None; cs_signed_fields := [] |}.
Definition demo_device_signature : ClaimSignature :=
  demo_signature "person/ada" demo_device_key ["g2"; "g1"].

Lemma demo_facts_sound : @facts_sound demo_crypto demo_facts.
Proof.
  intros i d Hd _. cbn in Hd. exists demo_facts.
  destruct (String.eqb_spec i "g1") as [_|_]; [|destruct (String.eqb_spec i "g2") as [_|_]; [|done]];
    injection Hd as <-.
  - exists (demo_judged KEY_GRANTED (Object (grant_fields demo_root_grant))),
      (demo_signature "host/studio" demo_node_key []).
    split_and!; [reflexivity|reflexivity|reflexivity|vm_compute; reflexivity|done].
  - exists (demo_judged KEY_GRANTED (Object (grant_fields demo_device_grant))),
      (demo_signature "person/ada" demo_root_key ["g1"]).
    split_and!; [reflexivity|reflexivity|reflexivity|vm_compute; reflexivity|done].
Qed.

Lemma judge_verified_rooted_witness : @speaks demo_facts "person/ada" demo_device_key.
Proof.
  refine (proj2 (proj2 (@judge_verified_rooted demo_crypto demo_facts (demo_judged "note" Null)
    demo_device_signature demo_facts_sound _))).
  vm_compute. reflexivity.
Defined.

Lemma verified_chain_shape_witness :
  ∃ i d j e, cs_chain demo_device_signature = [i; j] ∧
    delegation (Facts := demo_facts) i = Some d ∧ delegation (Facts := demo_facts) j = Some e ∧
    kg_role (dg_grant d) = Device ∧ kg_role (dg_grant e) = Root.
Proof.
  destruct (@verified_chain_shape demo_crypto demo_facts (demo_judged "note" Null)
    demo_device_signature Person demo_facts_sound) as (i & d & j & e & H).
  - vm_compute. reflexivity.
  - intros E. discriminate E.
  - reflexivity.
  - exists i, d, j, e. tauto.
Defined.

Lemma signing_bytes_inj_witness :
  signing_bytes "digest" "person/ada" None demo_device_key ["g2"; "g1"] "n" 1 ≠
  signing_bytes "digest" "person/ada" None demo_device_key ["g2"; "g3"] "n" 1.
Proof.
  intros E. eapply signing_bytes_inj in E; [discriminate E| | |unfold u64, u64_max; lia..].
  all: split_and!; [|intros ? [=]|].
  all: intros x; rewrite !elem_of_cons, elem_of_nil; intros Hx; destruct_or!; subst;
    try done; split_and?; try discriminate;
    refine (bool_decide_unpack (_ ∉ _) _); vm_compute; exact I.
Defined.
