(* ===== verification/Keyring.v ===== *)
(** * The keyring (crates/smallclaims/src/principal.rs, [Keyring])

    The keys a node signs with, shared between threads.  A change takes the
    [changing] mutex and moves [generation] before its first write and after
    its last; [settled] runs a read without the mutex and keeps its result only
    if the generation is even and did not move.  Each atomic access is one step
    of [kr_step], so any interleaving of a reader with the changes of other
    threads is a run. *)

From S2P Require Import Prelude BTree Principal.

(** ** State *)

(** [MemberKey]: its public half; the private half is never read here. *)
Record MemberKey := { mk_public : string }.

Record HeldKey := {
  hk_principal : string;
  hk_role : Role;
  hk_key : MemberKey;
  hk_chain : list string
}.

(** One guarded assignment of a change. *)
Inductive Write :=
| WNode (key : option MemberKey)
| WSigning (principal public : string)
| WKeys (public : string) (held : HeldKey).

(** How far the thread that holds the [changing] mutex has come. *)
Inductive Phase :=
| Locked (writes : list Write)   (* the mutex is taken *)
| Writing (writes : list Write)  (* the generation has moved; what is left to write *)
| Left.                          (* the change is dropped; the mutex is not yet released *)

Record Keyring := {
  kr_directory : option string;
  kr_node : option MemberKey;
  kr_keys : BTreeMap string HeldKey;
  kr_signing : BTreeMap string string;
  kr_generation : Z;
  kr_changing : option Phase
}.

(** [Keyring::default] *)
Definition keyring_default : Keyring :=
  {| kr_directory := None; kr_node := None; kr_keys := []; kr_signing := [];
     kr_generation := 0; kr_changing := None |}.

Definition with_phase (s : Keyring) (p : option Phase) : Keyring :=
  {| kr_directory := kr_directory s; kr_node := kr_node s; kr_keys := kr_keys s;
     kr_signing := kr_signing s; kr_generation := kr_generation s; kr_changing := p |}.

(** [generation.fetch_add(1)] *)
Definition bump (s : Keyring) : Keyring :=
  {| kr_directory := kr_directory s; kr_node := kr_node s; kr_keys := kr_keys s;
     kr_signing := kr_signing s; kr_generation := wadd64 (kr_generation s) 1;
     kr_changing := kr_changing s |}.

(** ** Operations *)

(** [set_directory] *)
Definition set_directory (s : Keyring) (directory : string) : Keyring :=
  {| kr_directory := Some directory; kr_node := kr_node s; kr_keys := kr_keys s;
     kr_signing := kr_signing s; kr_generation := kr_generation s; kr_changing := kr_changing s |}.

Definition apply_write (s : Keyring) (w : Write) : Keyring :=
  match w with
  | WNode key =>
      {| kr_directory := kr_directory s; kr_node := key; kr_keys := kr_keys s;
         kr_signing := kr_signing s; kr_generation := kr_generation s; kr_changing := kr_changing s |}
  | WSigning principal public =>
      {| kr_directory := kr_directory s; kr_node := kr_node s; kr_keys := kr_keys s;
         kr_signing := bmap_insert principal public (kr_signing s);
         kr_generation := kr_generation s; kr_changing := kr_changing s |}
  | WKeys public held =>
      {| kr_directory := kr_directory s; kr_node := kr_node s;
         kr_keys := bmap_insert public held (kr_keys s);
         kr_signing := kr_signing s; kr_generation := kr_generation s; kr_changing := kr_changing s |}
  end.

(** [set_node] and [insert]: the writes each makes while it changes. *)
Definition set_node (key : option MemberKey) : list Write := [WNode key].
Definition insert_key (held : HeldKey) : list Write :=
  let public := mk_public (hk_key held) in
  (if bool_decide (hk_role held = Root) then [] else [WSigning (hk_principal held) public])
  ++ [WKeys public held].

(** [node], [by_public] and [signing]; the last reads the two maps one after
    the other, so possibly in two states. *)
Definition node (s : Keyring) : option MemberKey := kr_node s.
Definition by_public (s : Keyring) (public : string) : option HeldKey := bmap_get public (kr_keys s).
Definition signing_read (s s' : Keyring) (principal : string) : option HeldKey :=
  public ← bmap_get principal (kr_signing s); by_public s' public.
Definition signing (s : Keyring) (principal : string) : option HeldKey := signing_read s s principal.

(** ** Steps *)

Inductive Label := LDirectory | LAcquire | LEnter | LWrite | LLeave | LRelease.

(** [change] takes the mutex and moves the generation; dropping [Changing]
    moves it again, then releases the mutex. *)
Inductive kr_step : Keyring → Label → Keyring → Prop :=
| step_directory s d : kr_step s LDirectory (set_directory s d)
| step_acquire s ws : kr_changing s = None → kr_step s LAcquire (with_phase s (Some (Locked ws)))
| step_enter s ws : kr_changing s = Some (Locked ws) →
    kr_step s LEnter (with_phase (bump s) (Some (Writing ws)))
| step_write s w ws : kr_changing s = Some (Writing (w :: ws)) →
    kr_step s LWrite (with_phase (apply_write s w) (Some (Writing ws)))
| step_leave s : kr_changing s = Some (Writing []) →
    kr_step s LLeave (with_phase (bump s) (Some Left))
| step_release s : kr_changing s = Some Left → kr_step s LRelease (with_phase s None).

(** [settled]: [before] and [after] are the states of the two loads of the
    generation, [value] what [read] returned in between. *)
Definition settled {T} (before after : Keyring) (value : T) : option T :=
  if Z.even (kr_generation before) then
    if Z.eqb (kr_generation after) (kr_generation before) then Some value else None
  else None.

(** ** The generation *)

(** Odd exactly while a change is being made. *)
Definition kr_inv (s : Keyring) : Prop :=
  u64 (kr_generation s) ∧
  Z.even (kr_generation s) = match kr_changing s with Some (Writing _) => false | _ => true end.

(** What a reader can see of the keys. *)
Definition same_keys (s s' : Keyring) : Prop :=
  kr_node s = kr_node s' ∧ kr_keys s = kr_keys s' ∧ kr_signing s = kr_signing s'.

#[export] Instance same_keys_equiv : Equivalence same_keys.
Proof.
  split.
  - by intros s.
  - intros s t (? & ? & ?). unfold same_keys. split_and!; congruence.
  - intros s t u (? & ? & ?) (? & ? & ?). unfold same_keys. split_and!; congruence.
Qed.

Lemma even_wadd64_1 n : Z.even (wadd64 n 1) = negb (Z.even n).
Proof.
  unfold wadd64, u64_max. set (m := (n + 1)%Z).
  replace (Z.even n) with (negb (Z.even m)) by (unfold m; rewrite Z.even_add; by destruct (Z.even n)).
  rewrite negb_involutive. symmetry.
  rewrite (Z.div_mod m (18446744073709551615 + 1)) at 1 by lia.
  rewrite Z.even_add, Z.even_mul. by destruct (Z.even (m mod _)).
Qed.

Lemma wadd64_u64 a b : u64 (wadd64 a b).
Proof.
  unfold u64, wadd64, u64_max. pose proof (Z.mod_pos_bound (a + b) (18446744073709551615 + 1)). lia.
Qed.

Lemma kr_step_inv s l s' : kr_inv s → kr_step s l s' → kr_inv s'.
Proof.
  intros [Hu He]. destruct 1 as [|s ws Hc|s ws Hc|s w ws Hc|s Hc|s Hc]; unfold kr_inv; cbn;
    rewrite ?even_wadd64_1; try (rewrite Hc in He); rewrite ?He; split; try done;
    try apply wadd64_u64; by destruct w.
Qed.

Lemma keyring_default_inv : kr_inv keyring_default.
Proof. split; [unfold u64, u64_max; cbn; lia|done]. Qed.

Definition moves (l : Label) : Z := match l with LEnter | LLeave => 1 | _ => 0 end.
Definition total_moves (tr : list Label) : Z := foldr (λ l n, moves l + n)%Z 0%Z tr.

Lemma total_moves_range tr : (0 <= total_moves tr <= Z.of_nat (length tr))%Z.
Proof.
  induction tr as [|l tr IH]; [cbn; lia|].
  change (total_moves (l :: tr)) with (moves l + total_moves tr)%Z.
  destruct l; cbn [moves length]; lia.
Qed.

Lemma run_generation s tr s' :
  kr_inv s → run kr_step s tr s' →
  kr_generation s' = ((kr_generation s + total_moves tr) mod (u64_max + 1))%Z.
Proof.
  intros Hinv. induction 1 as [s|s l s1 tr s' Hstep Hrun IH].
  - destruct Hinv as [Hu _]. cbn. rewrite Z.add_0_r, Z.mod_small; unfold u64 in Hu; [done|lia].
  - rewrite IH by eauto using kr_step_inv. clear IH Hrun. cbn [total_moves foldr].
    fold (total_moves tr). destruct Hstep; cbn [moves]; try done; try (by destruct w).
    all: unfold with_phase, bump, wadd64; cbn; rewrite Zplus_mod_idemp_l; f_equal; lia.
Qed.

Lemma total_moves_app tr tr' : total_moves (tr ++ tr') = (total_moves tr + total_moves tr')%Z.
Proof. induction tr as [|l tr IH]; [done|]. unfold total_moves in *. cbn. rewrite IH. lia. Qed.

(** Without a move of the generation nothing is written. *)
Lemma run_quiet s tr s' :
  run kr_step s tr s' → total_moves tr = 0%Z → kr_inv s → Z.even (kr_generation s) = true →
  same_keys s s' ∧ Z.even (kr_generation s') = true.
Proof.
  induction 1 as [s|s l s1 tr s' Hstep Hrun IH]; intros Hm Hinv Heven; [done|].
  cbn in Hm. pose proof (total_moves_range tr) as Hr. fold (total_moves tr) in Hm.
  pose proof (kr_step_inv _ _ _ Hinv Hstep) as Hinv1.
  assert (same_keys s s1 ∧ Z.even (kr_generation s1) = true) as [Hs He].
  { destruct Hstep as [| | |s w ws Hc| |]; cbn in Hm; try lia; [done|done| |done].
    destruct Hinv as [_ He]. rewrite Hc in He. congruence. }
  destruct (IH ltac:(destruct l; cbn in Hm; lia) Hinv1 He) as [Hs' He'].
  split; [by transitivity s1|done].
Qed.

Lemma settled_total_moves {T} s0 tr s1 (v v' : T) :
  kr_inv s0 → run kr_step s0 tr s1 → (Z.of_nat (length tr) <= u64_max)%Z →
  settled s0 s1 v = Some v' → Z.even (kr_generation s0) = true ∧ v' = v ∧ total_moves tr = 0%Z.
Proof.
  intros Hinv Hrun Hlen Hs. unfold settled in Hs.
  destruct (Z.even (kr_generation s0)); [|done].
  destruct (Z.eqb_spec (kr_generation s1) (kr_generation s0)) as [He|]; [|done].
  injection Hs as <-. split_and!; [done..|].
  rewrite (run_generation _ _ _ Hinv Hrun) in He. destruct Hinv as [[Hlo Hhi] _].
  pose proof (total_moves_range tr) as Hr. unfold u64_max in *.
  pose proof (Z.div_mod (kr_generation s0 + total_moves tr) (18446744073709551615 + 1)). lia.
Qed.

(** C37: A settled read is atomic.  If a reader's two loads of the generation
    accept its result, then in every state the other threads passed through
    in between the node key and both maps were what they were at the first
    load, at which no change was under way; so a read of the signing map and a
    later read of the held keys answer as one read of the keyring did.  The
    number of steps in between is bounded by 2^64, where the generation could
    come round. *)
Theorem settled_atomic {T} s0 tr1 sa tr2 sb tr3 s1 (v v' : T) principal :
  kr_inv s0 → run kr_step s0 tr1 sa → run kr_step sa tr2 sb → run kr_step sb tr3 s1 →
  (Z.of_nat (length (tr1 ++ tr2 ++ tr3)) <= u64_max)%Z →
  settled s0 s1 v = Some v' →
  v' = v ∧ (∀ ws, kr_changing s0 ≠ Some (Writing ws)) ∧
  same_keys s0 sa ∧ same_keys s0 sb ∧ same_keys s0 s1 ∧
  signing_read sa sb principal = signing s0 principal ∧ node sa = node s0.
Proof.
  intros Hinv H1 H2 H3 Hlen Hs.
  pose proof (run_app _ _ _ _ _ _ H2 H3) as H23. pose proof (run_app _ _ _ _ _ _ H1 H23) as H123.
  destruct (settled_total_moves _ _ _ _ _ Hinv H123 Hlen Hs) as (He & Hv & Hm).
  rewrite !total_moves_app in Hm.
  pose proof (total_moves_range tr1). pose proof (total_moves_range tr2). pose proof (total_moves_range tr3).
  destruct (run_quiet _ _ _ H1 ltac:(lia) Hinv He) as [Ha Hea].
  pose proof (run_invariant _ _ kr_step_inv _ _ _ H1 Hinv) as Hinva.
  destruct (run_quiet _ _ _ H2 ltac:(lia) Hinva Hea) as [Hb Heb].
  pose proof (run_invariant _ _ kr_step_inv _ _ _ H2 Hinva) as Hinvb.
  destruct (run_quiet _ _ _ H3 ltac:(lia) Hinvb Heb) as [Hc _].
  assert (same_keys s0 sb) as Hb0 by (by transitivity sa).
  split_and!; [done| |done|done|by transitivity sb| |symmetry; apply Ha].
  - intros ws E. destruct Hinv as [_ Hg]. rewrite E in Hg. congruence.
  - unfold signing, signing_read, by_public. destruct Ha as (_ & _ & ->), Hb0 as (_ & -> & _). done.
Qed.

(** The steps of a whole change made by one thread. *)
Fixpoint write_all (s : Keyring) (ws : list Write) : Keyring :=
  match ws with
  | [] => s
  | w :: ws' => write_all (with_phase (apply_write s w) (Some (Writing ws'))) ws'
  end.
Definition changed (s : Keyring) (ws : list Write) : Keyring :=
  let s := with_phase (bump (with_phase s (Some (Locked ws)))) (Some (Writing ws)) in
  with_phase (with_phase (bump (write_all s ws)) (Some Left)) None.
Definition change_trace (ws : list Write) : list Label :=
  [LAcquire; LEnter] ++ replicate (length ws) LWrite ++ [LLeave; LRelease].

Lemma write_all_phase s ws :
  kr_changing s = Some (Writing ws) → kr_changing (write_all s ws) = Some (Writing []).
Proof. revert s. induction ws as [|w ws IH]; intros s Hs; [done|]. by apply IH. Qed.

Lemma run_write_all s ws :
  kr_changing s = Some (Writing ws) → run kr_step s (replicate (length ws) LWrite) (write_all s ws).
Proof.
  revert s. induction ws as [|w ws IH]; intros s Hs; [constructor|].
  eapply run_cons; [by apply step_write|]. by apply IH.
Qed.

Lemma run_changed s ws :
  kr_changing s = None → run kr_step s (change_trace ws) (changed s ws).
Proof.
  intros Hs. eapply run_cons; [by apply step_acquire|]. eapply run_cons; [by apply (step_enter _ ws)|].
  eapply run_app; [by apply run_write_all|].
  eapply run_cons; [apply step_leave; by apply write_all_phase|].
  eapply run_cons; [by apply step_release|]. constructor.
Qed.

(** Inserting a held key is a run of the keyring that leaves the mutex free
    and the generation two further; afterwards the key is found by its public
    half, and it is its principal's signing key exactly when its role is not
    the root role: a root key leaves every principal's choice of signing key
    as it was. *)
Theorem insert_run s held :
  kr_inv s → kr_changing s = None →
  let s' := changed s (insert_key held) in
  run kr_step s (change_trace (insert_key held)) s' ∧
  kr_changing s' = None ∧ kr_generation s' = wadd64 (wadd64 (kr_generation s) 1) 1 ∧
  by_public s' (mk_public (hk_key held)) = Some held ∧
  (hk_role held ≠ Root → signing s' (hk_principal held) = Some held) ∧
  (hk_role held = Root → kr_signing s' = kr_signing s).
Proof.
  intros Hinv Hs. cbv zeta. split; [by apply run_changed|].
  unfold changed, insert_key, signing, signing_read, by_public.
  destruct (decide (hk_role held = Root)) as [Hr|Hr].
  - rewrite bool_decide_eq_true_2 by done. cbn. by rewrite bmap_get_insert.
  - rewrite bool_decide_eq_false_2 by done. cbn. rewrite !bmap_get_insert. cbn.
    by rewrite bmap_get_insert.
Qed.

(** ** A torn read that [settled] refuses *)

Definition demo_held : HeldKey :=
  {| hk_principal := "person/ada"; hk_role := Device; hk_key := {| mk_public := "KD" |};
     hk_chain := ["g2"; "g1"] |}.

(** Between the two writes of an insert the signing map already names a key
    the key map does not hold; the generation is odd there. *)
Example demo_torn :
  let torn := with_phase (apply_write (bump (with_phase keyring_default (Some (Locked []))))
                (WSigning "person/ada" "KD")) (Some (Writing [WKeys "KD" demo_held])) in
  bmap_get "person/ada" (kr_signing torn) = Some "KD" ∧ signing torn "person/ada" = None ∧
  settled torn torn tt = None.
Proof. by vm_compute. Qed.

Lemma settled_atomic_witness :
  signing_read (changed keyring_default (insert_key demo_held))
    (set_directory (changed keyring_default (insert_key demo_held)) "/keys") "person/ada"
  = signing (changed keyring_default (insert_key demo_held)) "person/ada".
Proof.
  refine (proj1 (proj2 (proj2 (proj2 (proj2 (proj2
    (settled_atomic (changed keyring_default (insert_key demo_held)) [] _ [LDirectory] _ [] _
      tt tt "person/ada" _ _ _ _ _ _)))))));
    [| constructor | eapply run_cons; [apply step_directory|constructor] | constructor
     | cbn; unfold u64_max; lia | reflexivity].
  split; [split; vm_compute; discriminate|reflexivity].
Defined.

Lemma insert_run_witness :
  signing (changed keyring_default (insert_key demo_held)) "person/ada" = Some demo_held.
Proof.
  apply (insert_run keyring_default demo_held keyring_default_inv eq_refl).
  discriminate.
Defined.
