(* ===== verification/Text.v ===== *)
(** * Text: UTF-8, whitespace and ASCII case

    What the code uses of Rust's [str] and [char]: [String::from_utf8],
    [str::chars], [char::is_whitespace] and the ASCII case conversions, on
    bytes. *)

From S2P Require Import Prelude.

(** ** UTF-8 *)

Definition in_range (lo hi : Z) (b : ascii) : bool := (lo <=? byte_val b)%Z && (byte_val b <=? hi)%Z.
Definition continuation (b : ascii) : bool := in_range 128 191 b.

(** The well-formed sequences of two, three and four bytes. *)
Definition utf8_2 (b1 b2 : ascii) : bool := in_range 194 223 b1 && continuation b2.
Definition utf8_3 (b1 b2 b3 : ascii) : bool :=
  ((in_range 224 224 b1 && in_range 160 191 b2) ||
   ((in_range 225 236 b1 || in_range 238 239 b1) && continuation b2) ||
   (in_range 237 237 b1 && in_range 128 159 b2)) && continuation b3.
Definition utf8_4 (b1 b2 b3 b4 : ascii) : bool :=
  ((in_range 240 240 b1 && in_range 144 191 b2) ||
   (in_range 241 243 b1 && continuation b2) ||
   (in_range 244 244 b1 && in_range 128 143 b2)) && continuation b3 && continuation b4.

(** The characters of a byte string, each as its bytes; [None] when it is not
    well-formed UTF-8. *)
Fixpoint chars (l : list ascii) : option (list (list ascii)) :=
  match l with
  | [] => Some []
  | b1 :: r1 =>
      if in_range 0 127 b1 then cons [b1] <$> chars r1
      else match r1 with
      | [] => None
      | b2 :: r2 =>
          if utf8_2 b1 b2 then cons [b1; b2] <$> chars r2
          else match r2 with
          | [] => None
          | b3 :: r3 =>
              if utf8_3 b1 b2 b3 then cons [b1; b2; b3] <$> chars r3
              else match r3 with
              | [] => None
              | b4 :: r4 =>
                  if utf8_4 b1 b2 b3 b4 then cons [b1; b2; b3; b4] <$> chars r4 else None
              end
          end
      end
  end.

Definition utf8 (l : list ascii) : bool := bool_decide (is_Some (chars l)).

(** [String::from_utf8] *)
Definition from_utf8 (l : list ascii) : option string :=
  if utf8 l then Some (string_of l) else None.

(** A Rust [String] holds well-formed UTF-8. *)
Definition valid_string (s : string) : Prop := utf8 (bytes_of s) = true.

Lemma from_utf8_valid s : valid_string s → from_utf8 (bytes_of s) = Some s.
Proof. unfold from_utf8. intros ->. by rewrite string_of_bytes_of. Qed.

Lemma chars_ascii l :
  (∀ b, b ∈ l → in_range 0 127 b = true) → chars l = Some ((λ b, [b]) <$> l).
Proof.
  induction l as [|b l IH]; intros Hl; [done|]. cbn. rewrite (Hl b) by left.
  rewrite IH by (intros; apply Hl; by right). done.
Qed.

(** ** Whitespace *)

Definition code_point (c : list ascii) : Z :=
  match byte_val <$> c with
  | [b] => b
  | [b1; b2] => (b1 mod 32) * 64 + b2 mod 64
  | [b1; b2; b3] => (b1 mod 16) * 4096 + (b2 mod 64) * 64 + b3 mod 64
  | [b1; b2; b3; b4] => (b1 mod 8) * 262144 + (b2 mod 64) * 4096 + (b3 mod 64) * 64 + b4 mod 64
  | _ => 0
  end%Z.

(** [char::is_whitespace]: the code points with the property White_Space. *)
Definition is_whitespace (c : list ascii) : bool :=
  let p := code_point c in
  ((9 <=? p) && (p <=? 13) || (p =? 32) || (p =? 133) || (p =? 160) || (p =? 5760) ||
   (8192 <=? p) && (p <=? 8202) || (p =? 8232) || (p =? 8233) || (p =? 8239) || (p =? 8287) ||
   (p =? 12288))%Z.

(** [text.chars().filter(|c| !c.is_whitespace()).collect()] *)
Definition without_whitespace (text : string) : string :=
  match chars (bytes_of text) with
  | Some cs => string_of (concat (List.filter (λ c, negb (is_whitespace c)) cs))
  | None => text
  end.

(** ** ASCII case *)

Definition to_lower (b : ascii) : ascii :=
  if in_range 65 90 b then byte_of (byte_val b + 32) else b.
Definition to_upper (b : ascii) : ascii :=
  if in_range 97 122 b then byte_of (byte_val b - 32) else b.

Definition to_ascii_lowercase (s : string) : string := string_of (to_lower <$> bytes_of s).
Definition to_ascii_uppercase (s : string) : string := string_of (to_upper <$> bytes_of s).

Definition eq_ignore_ascii_case (s t : string) : bool :=
  String.eqb (to_ascii_lowercase s) (to_ascii_lowercase t).

Lemma to_upper_lower b : to_upper (to_lower b) = to_upper b.
Proof. destruct b as [[] [] [] [] [] [] [] []]; vm_compute; reflexivity. Qed.

Lemma to_lower_ascii b : in_range 0 127 (to_lower b) = true → in_range 0 127 b = true.
Proof. destruct b as [[] [] [] [] [] [] [] []]; vm_compute; done. Qed.

Lemma to_upper_lower_string s : to_ascii_uppercase (to_ascii_lowercase s) = to_ascii_uppercase s.
Proof.
  unfold to_ascii_uppercase, to_ascii_lowercase. rewrite bytes_of_string_of, <-list_fmap_compose.
  f_equal. apply list_fmap_ext. intros ? b _. apply to_upper_lower.
Qed.
