(* ===== verification/JoinCode.v ===== *)
(** * Join codes (crates/smallclaims/src/fleet/code.rs)

    A join code is [stj1-] and the lowercase base32 of a binary record with a
    4-byte checksum.  Base32 (the package [data-encoding]) and SHA-256 (the
    package [sha2]) are parameters; the round trip relies on the documented
    facts that base32 decodes what it encodes, writes only letters [A-Z] and
    digits [2-7], and that a digest has 32 bytes. *)

From S2P Require Import Prelude Text.

Local Open Scope string_scope.
Local Open Scope claims_scope.

Definition PREFIX : string := "stj1-".
Definition VERSION : Z := 1%Z.
Definition FLAG_MIGRATE : Z := 1%Z.

Inductive CodeEndpoint :=
| Tailscale (address : string)
| Fabric (node protocol : string)
| Loopback (address : string).

Record JoinCode := {
  jc_fleet_id : list ascii;
  jc_invite : list ascii;
  jc_token : list ascii;
  jc_fingerprint : list ascii;
  jc_expires_at : Z;
  jc_name : option string;
  jc_migrate : bool;
  jc_endpoints : list CodeEndpoint
}.

Definition damaged : string := "this join code is damaged".

(** ** Writing the record *)

(** [put_text] *)
Definition put_text (text : string) : result (list ascii) string :=
  if (len text <=? u16_max)%Z then Ok (be_bytes 2 (len text) ++ bytes_of text)%list
  else Err "a join code field is too long".

Definition put_endpoint (e : CodeEndpoint) : result (list ascii) string :=
  match e with
  | Tailscale address => let? a := put_text address in Ok (byte_of 1 :: a)
  | Fabric node protocol =>
      let? n := put_text node in
      let? p := put_text protocol in
      Ok (byte_of 2 :: n ++ p)%list
  | Loopback address => let? a := put_text address in Ok (byte_of 3 :: a)
  end.

Fixpoint put_endpoints (l : list CodeEndpoint) : result (list ascii) string :=
  match l with
  | [] => Ok []
  | e :: l' => let? a := put_endpoint e in let? b := put_endpoints l' in Ok (a ++ b)%list
  end.

Definition put_name (name : option string) : result (list ascii) string :=
  match name with
  | Some name =>
      if (len name <=? 255)%Z then Ok (byte_of (len name) :: bytes_of name)
      else Err "the pinned name is too long"
  | None => Ok [byte_of 0]
  end.

Definition put_count (l : list CodeEndpoint) : result (list ascii) string :=
  if (length l <=? 255)%nat then Ok [byte_of (Z.of_nat (length l))]
  else Err "too many endpoints for a join code".

(** The record of [JoinCode::encode], before its checksum. *)
Definition put_record (c : JoinCode) : result (list ascii) string :=
  let? name := put_name (jc_name c) in
  let? count := put_count (jc_endpoints c) in
  let? endpoints := put_endpoints (jc_endpoints c) in
  Ok (byte_of VERSION :: byte_of (if jc_migrate c then FLAG_MIGRATE else 0) ::
      jc_fleet_id c ++ jc_invite c ++ jc_token c ++ jc_fingerprint c ++
      be_bytes 8 (jc_expires_at c) ++ name ++ count ++ endpoints)%list.

(** ** Reading the record *)

(** [Reader]: what is taken and what is left. *)
Definition take_bytes (n : nat) (bytes : list ascii) : result (list ascii * list ascii) string :=
  if (n <=? length bytes)%nat then Ok (firstn n bytes, skipn n bytes) else Err damaged.

Definition read_byte (bytes : list ascii) : result (Z * list ascii) string :=
  let? (b, rest) := take_bytes 1 bytes in Ok (be_val b, rest).

Definition read_utf8 (n : nat) (bytes : list ascii) : result (string * list ascii) string :=
  let? (t, rest) := take_bytes n bytes in
  match from_utf8 t with Some s => Ok (s, rest) | None => Err damaged end.

Definition read_text (bytes : list ascii) : result (string * list ascii) string :=
  let? (n, rest) := take_bytes 2 bytes in read_utf8 (Z.to_nat (be_val n)) rest.

Definition read_endpoint (bytes : list ascii) : result (CodeEndpoint * list ascii) string :=
  let? (kind, rest) := read_byte bytes in
  if (kind =? 1)%Z then let? (a, rest) := read_text rest in Ok (Tailscale a, rest)
  else if (kind =? 2)%Z then
    let? (n, rest) := read_text rest in
    let? (p, rest) := read_text rest in
    Ok (Fabric n p, rest)
  else if (kind =? 3)%Z then let? (a, rest) := read_text rest in Ok (Loopback a, rest)
  else Err ("this join code has an unknown endpoint kind " +:+ decimal kind).

Fixpoint read_endpoints (n : nat) (bytes : list ascii)
    : result (list CodeEndpoint * list ascii) string :=
  match n with
  | O => Ok ([], bytes)
  | S n' =>
      let? (e, rest) := read_endpoint bytes in
      let? (l, rest) := read_endpoints n' rest in
      Ok (e :: l, rest)
  end.

Definition read_name (bytes : list ascii) : result (option string * list ascii) string :=
  let? (n, rest) := read_byte bytes in
  if (n =? 0)%Z then Ok (None, rest)
  else let? (s, rest) := read_utf8 (Z.to_nat n) rest in Ok (Some s, rest).

(** The record of [JoinCode::decode], after its checksum. *)
Definition read_record (record : list ascii) : result JoinCode string :=
  let? (version, rest) := read_byte record in
  if negb (version =? VERSION)%Z then
    Err ("this join code needs a newer st (code version " +:+ decimal version +:+ ")")
  else
    let? (flags, rest) := read_byte rest in
    let? (fleet_id, rest) := take_bytes 16 rest in
    let? (invite, rest) := take_bytes 16 rest in
    let? (token, rest) := take_bytes 16 rest in
    let? (fingerprint, rest) := take_bytes 16 rest in
    let? (expires_at, rest) := take_bytes 8 rest in
    let? (name, rest) := read_name rest in
    let? (count, rest) := read_byte rest in
    let? (endpoints, rest) := read_endpoints (Z.to_nat count) rest in
    if bool_decide (rest = []) then
      Ok {| jc_fleet_id := fleet_id; jc_invite := invite; jc_token := token;
            jc_fingerprint := fingerprint; jc_expires_at := be_val expires_at; jc_name := name;
            jc_migrate := negb (Z.land flags FLAG_MIGRATE =? 0)%Z; jc_endpoints := endpoints |}
    else Err damaged.

Section code.
Variable sha256 : list ascii → list ascii.
Variable base32_encode : list ascii → string.
Variable base32_decode : string → option (list ascii).

(** [JoinCode::encode] *)
Definition encode (c : JoinCode) : result string string :=
  let? record := put_record c in
  Ok (PREFIX +:+ to_ascii_lowercase (base32_encode (record ++ firstn 4 (sha256 record))%list)).

(** [compact.get(..n)]: [None] past the end and inside a character. *)
Definition str_get_to (n : nat) (s : string) : option string :=
  let b := bytes_of s in
  if (length b <? n)%nat then None
  else if is_some_and continuation (b !! n) then None
  else Some (string_of (firstn n b)).

(** [JoinCode::decode] *)
Definition decode (text : string) : result JoinCode string :=
  let compact := without_whitespace text in
  if is_some_and (λ p, eq_ignore_ascii_case p PREFIX) (str_get_to 5 compact) then
    let body := string_of (skipn 5 (bytes_of compact)) in
    match base32_decode (to_ascii_uppercase body) with
    | None => Err damaged
    | Some bytes =>
        if (length bytes <=? 4)%nat then Err damaged
        else
          let record := firstn (length bytes - 4) bytes in
          let checksum := skipn (length bytes - 4) bytes in
          if bool_decide (firstn 4 (sha256 record) = checksum) then read_record record
          else Err (damaged +:+ ": check that it was copied whole")
    end
  else Err "this is not an st fleet join code".
End code.

(** ** Round trip of the record *)

Definition endpoint_texts (e : CodeEndpoint) : list string :=
  match e with Tailscale a | Loopback a => [a] | Fabric n p => [n; p] end.

(** What the types of [JoinCode] say: 16-byte arrays, a [u64], valid strings;
    and a pinned name that is not empty. *)
Definition code_wf (c : JoinCode) : Prop :=
  (∀ a, a ∈ [jc_fleet_id c; jc_invite c; jc_token c; jc_fingerprint c] → length a = 16%nat) ∧
  u64 (jc_expires_at c) ∧
  (∀ n, jc_name c = Some n → n ≠ "" ∧ valid_string n) ∧
  (∀ e t, e ∈ jc_endpoints c → t ∈ endpoint_texts e → valid_string t).

Lemma take_bytes_app n l rest : length l = n → take_bytes n (l ++ rest)%list = Ok (l, rest).
Proof.
  intros <-. unfold take_bytes. rewrite length_app.
  replace (length l <=? length l + length rest)%nat with true by (symmetry; apply Nat.leb_le; lia).
  by rewrite take_app_length, drop_app_length.
Qed.

Lemma read_byte_of z rest : (0 <= z < 256)%Z → read_byte (byte_of z :: rest) = Ok (z, rest).
Proof.
  intros Hz. unfold read_byte. change (byte_of z :: rest) with ([byte_of z] ++ rest)%list.
  rewrite take_bytes_app by done. cbn [result_bind].
  unfold be_val. cbn [foldl]. rewrite byte_val_of, Z.mod_small by done. done.
Qed.

Lemma length_len s : Z.to_nat (len s) = length (bytes_of s).
Proof. unfold len. lia. Qed.

Lemma read_utf8_app s n rest :
  valid_string s → n = length (bytes_of s) → read_utf8 n (bytes_of s ++ rest)%list = Ok (s, rest).
Proof.
  intros Hs ->. unfold read_utf8. rewrite take_bytes_app by done. cbn [result_bind].
  by rewrite from_utf8_valid.
Qed.

Lemma read_text_put t b rest :
  put_text t = Ok b → valid_string t → read_text (b ++ rest)%list = Ok (t, rest).
Proof.
  unfold put_text. destruct (len t <=? u16_max)%Z eqn:Hl; [|done]. intros Hb Hv. bool_prop.
  assert (b = be_bytes 2 (len t) ++ bytes_of t)%list as -> by congruence.
  unfold read_text. rewrite <-app_assoc, take_bytes_app by apply length_be_bytes. cbn [result_bind].
  rewrite be_val_be_bytes_small; [|unfold len, u16_max in *; lia].
  apply read_utf8_app; [done|apply length_len].
Qed.

Lemma read_endpoint_put e b rest :
  put_endpoint e = Ok b → (∀ t, t ∈ endpoint_texts e → valid_string t) →
  read_endpoint (b ++ rest)%list = Ok (e, rest).
Proof.
  intros Hb Hv. unfold read_endpoint. destruct e as [a|n p|a]; cbn in Hb.
  - apply result_bind_Ok in Hb as (a' & Ha & [= <-]). cbn [app].
    rewrite read_byte_of by lia. cbn [result_bind Z.eqb Pos.eqb].
    rewrite (read_text_put a) by (try done; apply Hv; left). done.
  - apply result_bind_Ok in Hb as (n' & Hn & Hb). apply result_bind_Ok in Hb as (p' & Hp & [= <-]).
    cbn [app]. rewrite read_byte_of by lia. cbn [result_bind Z.eqb Pos.eqb].
    rewrite <-app_assoc, (read_text_put n) by (try done; apply Hv; left). cbn [result_bind].
    rewrite (read_text_put p) by (try done; apply Hv; right; left). done.
  - apply result_bind_Ok in Hb as (a' & Ha & [= <-]). cbn [app].
    rewrite read_byte_of by lia. cbn [result_bind Z.eqb Pos.eqb].
    rewrite (read_text_put a) by (try done; apply Hv; left). done.
Qed.

Lemma read_endpoints_put l b rest :
  put_endpoints l = Ok b → (∀ e t, e ∈ l → t ∈ endpoint_texts e → valid_string t) →
  read_endpoints (length l) (b ++ rest)%list = Ok (l, rest).
Proof.
  revert b. induction l as [|e l IH]; intros b Hb Hv; cbn in Hb; [by injection Hb as <-|].
  apply result_bind_Ok in Hb as (x & Hx & Hb). apply result_bind_Ok in Hb as (y & Hy & [= <-]).
  cbn [read_endpoints length].
  rewrite <-app_assoc, (read_endpoint_put e) by first [done|intros; eapply Hv; [left|done]].
  cbn [result_bind]. rewrite (IH y) by first [done|intros; eapply Hv; [by right|done]]. done.
Qed.

Lemma read_name_put name b rest :
  put_name name = Ok b → (∀ n, name = Some n → n ≠ "" ∧ valid_string n) →
  read_name (b ++ rest)%list = Ok (name, rest).
Proof.
  intros Hb Hn. unfold read_name. destruct name as [n|]; cbn in Hb.
  - destruct (Hn n eq_refl) as [Hne Hv].
    destruct (len n <=? 255)%Z eqn:Hl; [|done]. injection Hb as <-. bool_prop. cbn [app].
    assert (len n ≠ 0%Z) as Hz.
    { intros E. apply Hne, bytes_of_inj. unfold len in E. apply length_zero_iff_nil. cbn. lia. }
    rewrite read_byte_of by (unfold len in *; lia). cbn [result_bind].
    destruct (Z.eqb_spec (len n) 0); [done|].
    rewrite read_utf8_app by (done || apply length_len). done.
  - injection Hb as <-. cbn [app]. by rewrite read_byte_of by lia.
Qed.

Lemma read_record_put c r : code_wf c → put_record c = Ok r → read_record r = Ok c.
Proof.
  intros (Ha & He & Hn & Ht) Hr. unfold put_record in Hr.
  apply result_bind_Ok in Hr as (name & Hname & Hr). apply result_bind_Ok in Hr as (count & Hcount & Hr).
  apply result_bind_Ok in Hr as (eps & Heps & Hr).
  match type of Hr with Ok ?x = _ => assert (r = x) as -> by congruence; clear Hr end.
  unfold put_count in Hcount. destruct (length (jc_endpoints c) <=? 255)%nat eqn:Hl; [|done].
  apply Nat.leb_le in Hl. injection Hcount as <-.
  unfold read_record. rewrite read_byte_of by (unfold VERSION; lia). cbn [result_bind negb Z.eqb VERSION Pos.eqb].
  rewrite read_byte_of by (unfold FLAG_MIGRATE; destruct (jc_migrate c); lia). cbn [result_bind].
  do 4 (rewrite take_bytes_app by (apply Ha; rewrite !elem_of_cons; tauto); cbn [result_bind]).
  rewrite take_bytes_app by apply length_be_bytes. cbn [result_bind].
  rewrite (read_name_put _ _ _ Hname Hn). cbn [result_bind app].
  rewrite read_byte_of by lia. cbn [result_bind]. rewrite Nat2Z.id.
  rewrite <-(app_nil_r eps), (read_endpoints_put _ _ _ Heps Ht). cbn [result_bind].
  rewrite bool_decide_eq_true_2 by done.
  rewrite be_val_be_bytes_small by (unfold u64, u64_max in He; change (256 ^ Z.of_nat 8)%Z with 18446744073709551616%Z; lia).
  by destruct c as [? ? ? ? ? ? [] ?].
Qed.

(** ** Round trip of the text *)

Lemma lower_prefix_split compact body :
  to_ascii_lowercase compact = PREFIX +:+ to_ascii_lowercase body →
  (∀ b, b ∈ bytes_of body → in_range 0 127 b = true) →
  is_some_and (λ p, eq_ignore_ascii_case p PREFIX) (str_get_to 5 compact) = true ∧
  to_ascii_uppercase (string_of (skipn 5 (bytes_of compact))) = to_ascii_uppercase body.
Proof.
  intros E Hascii. apply (f_equal bytes_of) in E. unfold to_ascii_lowercase in E.
  rewrite bytes_of_app, !bytes_of_string_of in E.
  assert (to_lower <$> take 5 (bytes_of compact) = bytes_of PREFIX) as Ep.
  { rewrite fmap_take, E, take_app_length'; done. }
  assert (to_lower <$> drop 5 (bytes_of compact) = to_lower <$> bytes_of body) as Eb.
  { rewrite fmap_drop, E, drop_app_length'; done. }
  assert (5 <= length (bytes_of compact))%nat as Hlen.
  { apply (f_equal length) in E. rewrite length_app, !length_fmap in E. cbn in E. lia. }
  split.
  - unfold str_get_to. destruct (Nat.ltb_spec (length (bytes_of compact)) 5); [lia|].
    assert (is_some_and continuation (bytes_of compact !! 5%nat) = false) as ->.
    { destruct (bytes_of compact !! 5%nat) as [b|] eqn:Hb; [|done]. cbn.
      assert (in_range 0 127 b = true) as Hr.
      { apply (f_equal (lookup 0%nat)) in Eb. rewrite !list_lookup_fmap, lookup_drop in Eb.
        change (5 + 0)%nat with 5%nat in Eb. rewrite Hb in Eb. cbn in Eb.
        destruct (bytes_of body !! 0%nat) as [b'|] eqn:Hb'; [|done]. cbn in Eb. injection Eb as Eb.
        apply list_elem_of_lookup_2, Hascii in Hb'. apply to_lower_ascii. rewrite Eb.
        destruct b' as [[] [] [] [] [] [] [] []]; vm_compute in Hb' |- *; done. }
      unfold continuation, in_range in *. bool_prop.
      apply andb_false_intro1, Z.leb_gt. lia. }
    unfold is_some_and, eq_ignore_ascii_case, to_ascii_lowercase at 1. apply String.eqb_eq.
    rewrite bytes_of_string_of, Ep. reflexivity.
  - rewrite <-to_upper_lower_string, <-(to_upper_lower_string body). f_equal.
    unfold to_ascii_lowercase. rewrite bytes_of_string_of. by f_equal.
Qed.

Section roundtrip.
Context (sha256 : list ascii → list ascii) (base32_encode : list ascii → string)
  (base32_decode : string → option (list ascii)).
Hypothesis sha256_length : ∀ b, length (sha256 b) = 32%nat.
Hypothesis base32_roundtrip : ∀ b, base32_decode (base32_encode b) = Some b.
Hypothesis base32_alphabet : ∀ b c, c ∈ bytes_of (base32_encode b) →
  in_range 65 90 c || in_range 50 55 c = true.

Lemma base32_upper b : to_ascii_uppercase (base32_encode b) = base32_encode b.
Proof.
  unfold to_ascii_uppercase. apply bytes_of_inj. rewrite bytes_of_string_of.
  rewrite <-(list_fmap_id (bytes_of (base32_encode b))) at 2.
  apply list_fmap_ext. intros i c Hc%list_elem_of_lookup_2%base32_alphabet.
  unfold to_upper, in_range in *. cbn.
  destruct (97 <=? byte_val c)%Z eqn:E; [|done]. destruct (byte_val c <=? 122)%Z eqn:E'; [|done]. bool_prop.
  apply orb_true_iff in Hc as [Hc|Hc]; bool_prop; lia.
Qed.

(** C38: A join code read back is the code that was written: whatever white
    space, of any script, was added to the text, and in whatever case its
    letters arrive, decoding gives exactly the fleet, invite, token,
    fingerprint, expiry, name, migration flag and endpoints that were encoded. *)
Theorem decode_encode c encoded text :
  code_wf c → encode sha256 base32_encode c = Ok encoded →
  to_ascii_lowercase (without_whitespace text) = encoded →
  decode sha256 base32_decode text = Ok c.
Proof.
  intros Hwf Henc Htext. apply result_bind_Ok in Henc as (record & Hrec & [= <-]).
  set (bytes := (record ++ firstn 4 (sha256 record))%list) in *.
  assert (length (firstn 4 (sha256 record)) = 4%nat) as H4 by (rewrite length_take, sha256_length; lia).
  apply lower_prefix_split in Htext as [Hp Hb].
  - unfold decode. rewrite Hp. rewrite Hb, base32_upper, base32_roundtrip.
    assert (length bytes = length record + 4)%nat as Hl by (unfold bytes; rewrite length_app; lia).
    destruct (Nat.leb_spec (length bytes) 4) as [Hle|_].
    { assert (length record = 0%nat) as ->%length_zero_iff_nil by lia.
      unfold put_record in Hrec. repeat (apply result_bind_Ok in Hrec as (? & _ & Hrec)). discriminate Hrec. }
    rewrite Hl, Nat.add_sub. unfold bytes. rewrite take_app_length, drop_app_length.
    rewrite bool_decide_eq_true_2 by done. by apply read_record_put.
  - intros b Hin%base32_alphabet. unfold in_range in *. apply orb_true_iff in Hin as [Hin|Hin]; bool_prop;
      apply andb_true_iff; split; apply Z.leb_le; lia.
Qed.

End roundtrip.

(** ** A code *)

(** Two letters a byte: a stand-in for base32 with the same alphabet. *)
Definition demo_letters (b : ascii) : list ascii :=
  [byte_of (65 + byte_val b / 16); byte_of (65 + byte_val b mod 16)].
Definition demo_encode (l : list ascii) : string := string_of (concat (demo_letters <$> l)).
Fixpoint demo_unletter (l : list ascii) : option (list ascii) :=
  match l with
  | [] => Some []
  | a :: b :: l' => cons (byte_of ((byte_val a - 65) * 16 + (byte_val b - 65))) <$> demo_unletter l'
  | _ => None
  end.
Definition demo_decode (s : string) : option (list ascii) := demo_unletter (bytes_of s).
Definition demo_sha256 (l : list ascii) : list ascii :=
  replicate 32 (byte_of (foldr (λ b n, byte_val b + n) 0 l)%Z).

Lemma demo_letters_spec b :
  demo_unletter (demo_letters b) = Some [b] ∧
  ∀ c, c ∈ demo_letters b → in_range 65 90 c || in_range 50 55 c = true.
Proof.
  destruct b as [[] [] [] [] [] [] [] []]; (split; [reflexivity|]);
    intros c; unfold demo_letters; rewrite !elem_of_cons, elem_of_nil; intros Hc; destruct_or!; subst;
    reflexivity || done.
Qed.

Lemma demo_roundtrip l : demo_decode (demo_encode l) = Some l.
Proof.
  unfold demo_decode, demo_encode. rewrite bytes_of_string_of.
  induction l as [|b l IH]; [done|]. destruct (demo_letters_spec b) as [Hb _].
  unfold demo_letters in *. cbn in Hb |- *. rewrite IH. cbn. injection Hb as Hb. by rewrite Hb.
Qed.

Lemma demo_alphabet l c :
  c ∈ bytes_of (demo_encode l) → in_range 65 90 c || in_range 50 55 c = true.
Proof.
  unfold demo_encode. rewrite bytes_of_string_of, list_elem_of_In, in_concat.
  intros (x & (b & <- & _)%in_map_iff & Hc). apply (demo_letters_spec b). by apply list_elem_of_In.
Qed.

Definition demo_code : JoinCode :=
  {| jc_fleet_id := replicate 16 "f"%char; jc_invite := replicate 16 "i"%char;
     jc_token := replicate 16 "t"%char; jc_fingerprint := replicate 16 "p"%char;
     jc_expires_at := 1700000000%Z; jc_name := Some "studio"; jc_migrate := true;
     jc_endpoints := [Tailscale "100.64.0.1:7000"; Fabric "n" "p"] |}.

Definition demo_text : string :=
  match encode demo_sha256 demo_encode demo_code with Ok t => t | Err e => e end.

Lemma decode_encode_witness :
  decode demo_sha256 demo_decode (" " +:+ to_ascii_uppercase demo_text +:+ String "010"%char "") = Ok demo_code.
Proof.
  apply (decode_encode demo_sha256 demo_encode demo_decode) with (encoded := demo_text).
  - intros b. reflexivity.
  - exact demo_roundtrip.
  - exact demo_alphabet.
  - split_and!.
    + intros a. rewrite !elem_of_cons, elem_of_nil. intros Ha. destruct_or!; subst; done.
    + split; vm_compute; discriminate.
    + intros n [= <-]. split; [discriminate|reflexivity].
    + intros e t. cbn [jc_endpoints demo_code]. rewrite !elem_of_cons, elem_of_nil.
      intros He Ht. destruct_or!; subst; cbn in Ht; rewrite !elem_of_cons, elem_of_nil in Ht;
        destruct_or!; subst; done.
  - vm_compute. reflexivity.
  - vm_compute. reflexivity.
Defined.
