(* ===== verification/Rules.v ===== *)
(** * Write rules (crates/smallclaims/src/rules.rs, the gate in
    store/principals.rs, and the shipped preset in crates/fractal-kernel/src/rules.rs)

    A rule restricts what principals may write, in one of three modes.  The
    latest [rule.set] claim of each name, in canonical order, is the rule;
    [rules_gate_tx] checks one local write against the current rules. *)

From S2P Require Import Prelude BTree Json Principal.

Local Open Scope string_scope.
Local Open Scope claims_scope.

(** ** Patterns *)

Definition STAR : ascii := "*"%char.
Definition SLASH : ascii := "/"%char.

(** [glob::matches]: [**] matches anything, [*] within one path segment. *)
Fixpoint matches (pattern value : list ascii) : bool :=
  match pattern with
  | [] => bool_decide (value = [])
  | c :: rest =>
      let segment := default (length value) (position (Ascii.eqb SLASH) value) in
      if Ascii.eqb c STAR then
        match rest with
        | c' :: rest' =>
            if Ascii.eqb c' STAR then
              existsb (λ skip, matches rest' (skipn skip value)) (List.seq 0 (S (length value)))
            else existsb (λ skip, matches rest (skipn skip value)) (List.seq 0 (S segment))
        | [] => existsb (λ skip, matches rest (skipn skip value)) (List.seq 0 (S segment))
        end
      else match value with
           | v :: value' => Ascii.eqb v c && matches rest value'
           | [] => false
           end
  end.

Definition glob (pattern value : string) : bool := matches (bytes_of pattern) (bytes_of value).

(** [str::replace] of a nonempty pattern: leftmost matches that do not
    overlap; [skip] bytes of the last match are still to be passed over. *)
Fixpoint replace_from (from to : string) (skip : nat) (s : string) : string :=
  match s with
  | EmptyString => ""
  | String a s' =>
      match skip with
      | S k => replace_from from to k s'
      | O => if starts_with from s then to +:+ replace_from from to (length (bytes_of from) - 1) s'
             else String a (replace_from from to 0 s')
      end
  end.
Definition replace (from to s : string) : string := replace_from from to 0 s.

(** ** Rules *)

Inductive Mode := Off | Audit | Enforce.
#[export] Instance Mode_eq_dec : EqDecision Mode.
Proof. solve_decision. Defined.

Record Rule := {
  ru_mode : Mode;
  ru_description : string;
  ru_actors : list string;
  ru_except : list string;
  ru_kinds : list string;
  ru_subjects : list string;
  ru_unless_subjects : list string
}.

Record NamedRule := {
  nr_name : string;
  nr_claim_id : string;
  nr_rule : Rule
}.

(** The derived deserialisation of a rule, with its defaults. *)
Definition mode_of_name (s : string) : option Mode :=
  if String.eqb s "off" then Some Off
  else if String.eqb s "audit" then Some Audit
  else if String.eqb s "enforce" then Some Enforce
  else None.
Definition mode_of_value (v : option Value) : option Mode :=
  match v with
  | None => Some Audit
  | Some (VString s) => mode_of_name s
  | Some (Object [(s, Null)]) => mode_of_name s
  | _ => None
  end.
Definition strings_of_value (v : Value) : option (list string) :=
  items ← as_array v; mapM (M := option) as_str items.
Definition strings_or_none (v : option Value) : option (list string) :=
  match v with None => Some [] | Some v => strings_of_value v end.
Definition description_of_value (v : option Value) : option string :=
  match v with None => Some "" | Some v => as_str v end.

Definition rule_of (field : string → nat → option Value) : option Rule :=
  mode ← mode_of_value (field "mode" 0%nat);
  description ← description_of_value (field "description" 1%nat);
  actors ← field "actors" 2%nat ≫= strings_of_value;
  except ← strings_or_none (field "except" 3%nat);
  kinds ← field "kinds" 4%nat ≫= strings_of_value;
  subjects ← strings_or_none (field "subjects" 5%nat);
  unless_subjects ← strings_or_none (field "unless_subjects" 6%nat);
  Some {| ru_mode := mode; ru_description := description; ru_actors := actors; ru_except := except;
          ru_kinds := kinds; ru_subjects := subjects; ru_unless_subjects := unless_subjects |}.

(** [Rule::from_fields]: from an object by name or from a sequence by place. *)
Definition rule_from_fields (fields : Value) : option Rule :=
  match fields with
  | Object l => rule_of (λ name _, assoc name l)
  | Array l => if (length l <=? 7)%nat then rule_of (λ _ i, l !! i) else None
  | _ => None
  end.

(** [actor.split_once('/').map_or(actor, |(_, name)| name)] *)
Definition actor_name (actor : string) : string :=
  match split_once SLASH actor with Some (_, name) => name | None => actor end.

(** [name.splitn(3, '/').take(2).join("/")] *)
Definition actor_namespace (actor : string) : string :=
  let name := actor_name actor in
  match split_once SLASH name with
  | None => name
  | Some (first, rest) =>
      match split_once SLASH rest with
      | None => first +:+ "/" +:+ rest
      | Some (second, _) => first +:+ "/" +:+ second
      end
  end.

(** The closure [any] of [restricts]. *)
Definition pattern_matches (actor value pattern : string) : bool :=
  glob (replace "{namespace}" (actor_namespace actor) (replace "{actor}" (actor_name actor) pattern)) value.
Definition any_matches (actor : string) (patterns : list string) (value : string) : bool :=
  existsb (pattern_matches actor value) patterns.

(** [Rule::restricts] *)
Definition restricts (r : Rule) (actor kind subject : string) : bool :=
  any_matches actor (ru_actors r) actor
  && negb (any_matches actor (ru_except r) actor)
  && any_matches actor (ru_kinds r) kind
  && (bool_decide (ru_subjects r = []) || any_matches actor (ru_subjects r) subject)
  && negb (any_matches actor (ru_unless_subjects r) subject).

(** [Decision] *)
Record Decision := {
  de_audited : list NamedRule;
  de_denied : option NamedRule
}.

(** One turn of the loop of [decide]. *)
Definition decide_step (actor kind subject : string) (d : Decision) (rule : NamedRule) : Decision :=
  if bool_decide (ru_mode (nr_rule rule) = Off) || negb (restricts (nr_rule rule) actor kind subject)
  then d
  else match ru_mode (nr_rule rule), de_denied d with
       | Enforce, None => {| de_audited := de_audited d; de_denied := Some rule |}
       | Audit, _ => {| de_audited := (de_audited d ++ [rule])%list; de_denied := de_denied d |}
       | _, _ => d
       end.
Definition decide_rules (rules : list NamedRule) (actor kind subject : string) : Decision :=
  foldl (decide_step actor kind subject) {| de_audited := []; de_denied := None |} rules.

(** ** The gate *)

Definition RULE_SET : string := "rule.set".
Definition RULE_AUDITED : string := "rule.audited".

(** A stored [rule.set] claim: its subject, id and body (already parsed:
    [None] when the body is not JSON). *)
Record RuleClaim := {
  rc_subject : string;
  rc_id : string;
  rc_body : option Value
}.

(** [current_rules_tx]: [claims] are the rule claims in canonical order. *)
Definition named_rule (entry : string * (string * option Value)) : option NamedRule :=
  let '(subject, (claim_id, body)) := entry in
  body ← body;
  name ← strip_prefix "rule/" subject;
  fields ← value_get "fields" body;
  rule ← rule_from_fields fields;
  Some {| nr_name := name; nr_claim_id := claim_id; nr_rule := rule |}.
Definition current_rules (claims : list RuleClaim) : list NamedRule :=
  omap named_rule
    (foldl (λ latest c, bmap_insert (rc_subject c) (rc_id c, rc_body c) latest)
       ([] : BTreeMap string (string * option Value)) claims).

(** The audit record the gate appends beside the write. *)
Record AuditRecord := {
  ar_subject : string;
  ar_rule : string;
  ar_actor : string;
  ar_action : string;
  ar_target : string
}.

Definition audit_record (actor kind subject : string) (r : NamedRule) : AuditRecord :=
  {| ar_subject := "rule/" +:+ nr_name r; ar_rule := nr_claim_id r; ar_actor := actor;
     ar_action := kind; ar_target := subject |}.

(** [rules_gate_tx]: the audit records it appends, or the refusal. *)
Definition rules_gate (claims : list RuleClaim) (actor kind subject : string)
    : result (list AuditRecord) (string * string) :=
  if String.eqb kind RULE_SET then
    if bool_decide (family_of actor = Some Person) then Ok []
    else Err ("rule-denied", "only a person sets rules, not " +:+ actor)
  else if String.eqb kind RULE_AUDITED then Ok []
  else if bool_decide (claims = []) then Ok []
  else
    let decision := decide_rules (current_rules claims) actor kind subject in
    match de_denied decision with
    | Some denied =>
        Err ("rule-denied",
             "rule " +:+ quote (nr_name denied) +:+ " refuses " +:+ actor +:+ " writing " +:+ kind
             +:+ " on " +:+ subject
             +:+ (if String.eqb (ru_description (nr_rule denied)) "" then ""
                  else ": " +:+ ru_description (nr_rule denied)))
    | None => Ok (audit_record actor kind subject <$> de_audited decision)
    end.

(** ** The shipped preset *)

(** [lockdown] *)
Definition audit_rule (description : string) (except kinds subjects unless_subjects : list string) : Rule :=
  {| ru_mode := Audit; ru_description := description; ru_actors := ["agent/**"]; ru_except := except;
     ru_kinds := kinds; ru_subjects := subjects; ru_unless_subjects := unless_subjects |}.
Definition lockdown (starters : list string) : list (string * Rule) :=
  [ ("agents-create-no-missions",
     audit_rule "agents may not create or publish missions" []
       ["mission-run.created"; "mission.published"] [] []);
    ("named-agents-start-agents",
     audit_rule "only the named agents may start, declare or stop agents" starters
       ["intent.desired"] ["agent/**"] []);
    ("agents-publish-in-namespace",
     audit_rule "an agent publishes documents only under its own namespace" []
       ["doc.bound"] ["doc/**"] ["doc/{namespace}/**"]) ].

(** ** What a pattern matches *)

Inductive glob_match : list ascii → list ascii → Prop :=
| match_nil : glob_match [] []
| match_any rest w v : glob_match rest v → glob_match (STAR :: STAR :: rest) (w ++ v)%list
| match_segment rest w v :
    head rest ≠ Some STAR → SLASH ∉ w → glob_match rest v → glob_match (STAR :: rest) (w ++ v)%list
| match_char c rest v : c ≠ STAR → glob_match rest v → glob_match (c :: rest) (c :: v).

Definition segment (value : list ascii) : nat :=
  default (length value) (position (Ascii.eqb SLASH) value).

Lemma segment_cons b v :
  segment (b :: v) = if Ascii.eqb SLASH b then 0%nat else S (segment v).
Proof.
  unfold segment, position. cbn. case_decide as Hb.
  - by rewrite Hb.
  - apply not_true_iff_false in Hb. rewrite Hb. by destruct (list_find _ v) as [[]|].
Qed.

Lemma segment_spec value k :
  (k <= segment value)%nat ↔ (k <= length value)%nat ∧ SLASH ∉ take k value.
Proof.
  revert k. induction value as [|b v IH]; intros k.
  - cbn. destruct k; cbn; [|split; [lia|intros []; lia]]. split; [|lia]. split; [lia|set_solver].
  - rewrite segment_cons. destruct k as [|k]; cbn [take length].
    { split; [|lia]. split; [lia|set_solver]. }
    rewrite not_elem_of_cons. destruct (Ascii.eqb_spec SLASH b) as [<-|Hb].
    + split; [lia|naive_solver].
    + specialize (IH k). split; intros H.
      * destruct IH as [IH _]. destruct IH; [lia|]. split_and!; [lia|done|done].
      * destruct IH as [_ IH]. destruct H as (? & ? & ?). cut (k <= segment v)%nat; [lia|].
        apply IH. split; [lia|done].
Qed.

Lemma existsb_skip (f : list ascii → bool) value n :
  existsb (λ skip, f (skipn skip value)) (List.seq 0 (S n)) = true ↔
  ∃ k, (k <= n)%nat ∧ f (skipn k value) = true.
Proof.
  rewrite existsb_exists. setoid_rewrite in_seq. split; intros (k & Hk & Hf); exists k; (split; [lia|done]).
Qed.

Lemma matches_cons c rest value :
  matches (c :: rest) value =
  if Ascii.eqb c STAR then
    match rest with
    | c' :: rest' =>
        if Ascii.eqb c' STAR
        then existsb (λ skip, matches rest' (skipn skip value)) (List.seq 0 (S (length value)))
        else existsb (λ skip, matches rest (skipn skip value)) (List.seq 0 (S (segment value)))
    | [] => existsb (λ skip, matches rest (skipn skip value)) (List.seq 0 (S (segment value)))
    end
  else match value with v :: value' => Ascii.eqb v c && matches rest value' | [] => false end.
Proof. done. Qed.

Lemma take_drop_app_le {A} (w v : list A) : (length w <= length (w ++ v))%nat.
Proof. rewrite length_app. lia. Qed.

Lemma segment_app_le w v : SLASH ∉ w → (length w <= segment (w ++ v))%nat.
Proof.
  intros Hw. apply segment_spec. rewrite take_app_length. split; [apply take_drop_app_le|done].
Qed.

Lemma matches_complete p v : glob_match p v → matches p v = true.
Proof.
  induction 1 as [|rest w v _ IH|rest w v Hr Hw _ IH|c rest v Hc _ IH]; [done|..]; rewrite matches_cons.
  - rewrite !Ascii.eqb_refl. apply existsb_skip. exists (length w).
    rewrite drop_app_length. split; [apply take_drop_app_le|done].
  - rewrite Ascii.eqb_refl. destruct rest as [|c' rest].
    + apply (existsb_skip (matches [])). exists (length w). rewrite drop_app_length.
      split; [by apply segment_app_le|done].
    + destruct (Ascii.eqb_spec c' STAR) as [->|]; [done|].
      apply (existsb_skip (matches (c' :: rest))). exists (length w). rewrite drop_app_length.
      split; [by apply segment_app_le|done].
  - destruct (Ascii.eqb_spec c STAR); [done|]. by rewrite Ascii.eqb_refl.
Qed.

Lemma glob_match_skip rest value k :
  head rest ≠ Some STAR → (k <= segment value)%nat → glob_match rest (skipn k value) →
  glob_match (STAR :: rest) value.
Proof.
  intros Hr [_ Hk]%segment_spec Hm. rewrite <-(take_drop k value). by apply match_segment.
Qed.

Lemma matches_sound p v : matches p v = true → glob_match p v.
Proof.
  revert v. induction p as [p IH] using (induction_ltof1 _ (@length ascii)); unfold ltof in IH; intros v.
  destruct p as [|c rest]; [cbn; intros; bool_prop; subst; constructor|]. rewrite matches_cons.
  destruct (Ascii.eqb_spec c STAR) as [->|Hc].
  - destruct rest as [|c' rest].
    + intros (k & Hk & Hm)%(existsb_skip (matches [])). eapply glob_match_skip; [done|done|].
      apply IH; [cbn; lia|done].
    + destruct (Ascii.eqb_spec c' STAR) as [->|Hc'].
      * intros (k & Hk & Hm)%(existsb_skip (matches rest)). rewrite <-(take_drop k v).
        apply match_any, IH; [cbn; lia|done].
      * intros (k & Hk & Hm)%(existsb_skip (matches (c' :: rest))).
        eapply glob_match_skip; [naive_solver|done|]. apply IH; [cbn; lia|done].
  - destruct v as [|b v]; [done|]. intros [Hb Hm]%andb_true_iff. apply Ascii.eqb_eq in Hb as ->.
    apply match_char; [done|]. apply IH; [cbn; lia|done].
Qed.

(** Pattern matching is exactly the documented relation: [**] stands for any
    text, a [*] not followed by another for any text within one path segment,
    and every other character for itself, the whole value being consumed.  The
    bounded search over skips the code makes finds a match whenever there is
    one. *)
Theorem glob_iff pattern value :
  glob pattern value = true ↔ glob_match (bytes_of pattern) (bytes_of value).
Proof. split; [apply matches_sound|apply matches_complete]. Qed.

(** ** Literal patterns and substitution *)

Lemma glob_match_literal p v : STAR ∉ p → glob_match p v ↔ v = p.
Proof.
  intros Hp. split.
  - induction 1 as [| | |c rest v Hc _ IH]; [done|set_solver..|]. f_equal. apply IH. set_solver.
  - intros ->. induction p as [|c p IH]; [constructor|]. apply match_char; set_solver.
Qed.

Lemma glob_match_prefix p v : STAR ∉ p → glob_match (p ++ [STAR; STAR]) v ↔ ∃ r, v = (p ++ r)%list.
Proof.
  revert v. induction p as [|c p IH]; intros v Hp; cbn.
  - split; [by exists v|]. intros _. rewrite <-(app_nil_r v). apply match_any. constructor.
  - apply not_elem_of_cons in Hp as [Hc Hp]. split.
    + inversion 1 as [|?| |c' rest v' _ Hm]; subst; [done..|].
      apply IH in Hm as [r ->]; [|done]. by exists r.
    + intros [r ->]. apply match_char; [done|]. apply IH; [done|]. by exists r.
Qed.

Lemma glob_prefix pre v : STAR ∉ bytes_of pre → glob (pre +:+ "**") v = starts_with pre v.
Proof.
  intros Hp. apply eq_true_iff_eq. unfold glob. split.
  - intros H%matches_sound. rewrite bytes_of_app in H. apply glob_match_prefix in H as [r Hr]; [|done].
    apply starts_with_spec. exists (string_of r). apply bytes_of_inj.
    by rewrite bytes_of_app, bytes_of_string_of.
  - intros [r ->]%starts_with_spec. apply matches_complete. rewrite !bytes_of_app.
    apply glob_match_prefix; [done|]. by eexists.
Qed.

Lemma glob_literal p v : STAR ∉ bytes_of p → glob p v = String.eqb v p.
Proof.
  intros Hp. apply eq_true_iff_eq. rewrite String.eqb_eq. unfold glob. split.
  - intros H%matches_sound. apply glob_match_literal in H; [|done]. by apply bytes_of_inj.
  - intros ->. by apply matches_complete, glob_match_literal.
Qed.

Definition BRACE : ascii := "{"%char.

Lemma starts_with_brace from b s : b ≠ BRACE → starts_with (String BRACE from) (String b s) = false.
Proof.
  intros Hb. apply not_true_iff_false. intros [r Hr]%starts_with_spec. by injection Hr.
Qed.

(** Text before the first brace is kept. *)
Lemma replace_literal from to pre rest :
  BRACE ∉ bytes_of pre →
  replace (String BRACE from) to (pre +:+ rest) = pre +:+ replace (String BRACE from) to rest.
Proof.
  induction pre as [|b pre IH]; intros Hp; [done|].
  change (bytes_of (String b pre)) with (b :: bytes_of pre) in Hp. apply not_elem_of_cons in Hp as [Hb Hp].
  rewrite !string_app_cons. unfold replace in *. cbn [replace_from].
  rewrite starts_with_brace by done. by rewrite IH.
Qed.

Lemma replace_no_brace from to s :
  BRACE ∉ bytes_of s → replace (String BRACE from) to s = s.
Proof.
  intros Hs. assert (s = s +:+ "") as E.
  { apply bytes_of_inj. rewrite bytes_of_app. by rewrite app_nil_r. }
  rewrite E at 1. rewrite replace_literal by done. by rewrite E at 2.
Qed.

Lemma pattern_matches_plain actor value p :
  BRACE ∉ bytes_of p → pattern_matches actor value p = glob p value.
Proof.
  intros Hp. unfold pattern_matches. rewrite (replace_no_brace "actor}") by done.
  by rewrite (replace_no_brace "namespace}").
Qed.

Lemma pattern_matches_namespace actor value pre :
  BRACE ∉ bytes_of pre →
  pattern_matches actor value (pre +:+ "{namespace}/**")
  = glob (pre +:+ actor_namespace actor +:+ "/**") value.
Proof.
  intros Hp. unfold pattern_matches. rewrite (replace_literal "actor}") by done.
  change (replace "{actor}" (actor_name actor) "{namespace}/**") with "{namespace}/**".
  by rewrite (replace_literal "namespace}").
Qed.

Lemma split_once_no_char c d s l r :
  split_once d s = Some (l, r) → c ∉ bytes_of s → c ∉ bytes_of l ∧ c ∉ bytes_of r.
Proof.
  intros [-> _]%split_once_Some Hs. rewrite bytes_of_app, not_elem_of_app in Hs. cbn in Hs.
  split; [apply Hs|]. destruct Hs as [_ Hs]. set_solver.
Qed.

Lemma actor_namespace_no_star actor : STAR ∉ bytes_of actor → STAR ∉ bytes_of (actor_namespace actor).
Proof.
  intros Ha. assert (STAR ∉ bytes_of (actor_name actor)) as Hn.
  { unfold actor_name. destruct (split_once SLASH actor) as [[l r]|] eqn:E; [|done].
    by apply (split_once_no_char STAR) in E as [_ ?]. }
  assert (STAR ∉ bytes_of "/") as Hs by (refine (bool_decide_unpack (_ ∉ _) _); by vm_compute).
  unfold actor_namespace. destruct (split_once SLASH (actor_name actor)) as [[f r]|] eqn:E; [|done].
  apply (split_once_no_char STAR) in E as [Hf Hr]; [|done].
  destruct (split_once SLASH r) as [[g r']|] eqn:E'; rewrite !bytes_of_app, !not_elem_of_app; [|done].
  by apply (split_once_no_char STAR) in E' as [Hg _].
Qed.

Ltac no_char := refine (bool_decide_unpack (_ ∉ _) _); by vm_compute.

(** The shipped rule on documents restricts exactly what it says, for every
    agent whose name holds no [*]: binding a document under [doc/] that is not
    under [doc/NAMESPACE/], where the namespace is the first two segments of
    the agent's name.  It never restricts anyone who is not an agent. *)
Theorem lockdown_namespace_iff starters actor subject name rule :
  lockdown starters !! 2%nat = Some (name, rule) → STAR ∉ bytes_of actor →
  restricts rule actor "doc.bound" subject =
  (starts_with "agent/" actor && starts_with "doc/" subject
   && negb (starts_with ("doc/" +:+ actor_namespace actor +:+ "/") subject)).
Proof.
  intros [= <- <-] Hstar. unfold restricts, audit_rule, any_matches. cbn [existsb ru_actors ru_except ru_kinds
    ru_subjects ru_unless_subjects negb]. rewrite !orb_false_r.
  change (bool_decide (["doc/**"] = [])) with false. cbn [negb orb].
  rewrite (pattern_matches_plain actor actor), (pattern_matches_plain actor "doc.bound"),
    (pattern_matches_plain actor subject "doc/**") by no_char.
  change "doc/{namespace}/**" with ("doc/" +:+ "{namespace}/**").
  rewrite (pattern_matches_namespace actor subject "doc/") by no_char.
  change "agent/**" with ("agent/" +:+ "**"). change "doc/**" with ("doc/" +:+ "**").
  rewrite (glob_prefix "agent/"), (glob_prefix "doc/") by no_char.
  rewrite (glob_literal "doc.bound") by no_char.
  rewrite String.eqb_refl, !andb_true_r. f_equal. f_equal.
  assert ("doc/" +:+ actor_namespace actor +:+ "/**" = ("doc/" +:+ actor_namespace actor +:+ "/") +:+ "**") as ->.
  { apply bytes_of_inj. rewrite !bytes_of_app. by rewrite <-!app_assoc. }
  apply glob_prefix. rewrite !bytes_of_app, !not_elem_of_app.
  split_and!; [no_char|by apply actor_namespace_no_star|no_char].
Qed.

(** A name that holds wildcards is substituted into the exception unquoted, so
    it is read as a pattern: this agent may bind a document anywhere at depth
    three or more. *)
Example wildcard_name_escapes :
  option_map (λ r, restricts r.2 "agent/**/**" "doc.bound" "doc/team/web/plan") (lockdown [] !! 2%nat)
  = Some false.
Proof. vm_compute. reflexivity. Qed.

(** ** Decisions *)

Definition in_mode (m : Mode) (actor kind subject : string) (r : NamedRule) : bool :=
  bool_decide (ru_mode (nr_rule r) = m) && restricts (nr_rule r) actor kind subject.

(** The loop collects every audit rule that restricts the write, in order, and
    the first enforce rule that does. *)
Lemma decide_rules_spec rules actor kind subject :
  decide_rules rules actor kind subject =
  {| de_audited := List.filter (in_mode Audit actor kind subject) rules;
     de_denied := List.find (in_mode Enforce actor kind subject) rules |}.
Proof.
  unfold decide_rules. induction rules as [|r rules IH] using rev_ind; [done|].
  rewrite foldl_snoc, IH, List.filter_app. clear IH.
  assert (∀ p : NamedRule → bool, List.find p (rules ++ [r]) =
    match List.find p rules with Some x => Some x | None => if p r then Some r else None end) as Hfind.
  { intros p. induction rules as [|x l IH]; cbn; [done|]. by destruct (p x). }
  assert (∀ m, in_mode m actor kind subject r =
    bool_decide (ru_mode (nr_rule r) = m) && restricts (nr_rule r) actor kind subject) as Hm by done.
  rewrite Hfind. cbn [List.filter]. rewrite !Hm. unfold decide_step. cbn [de_audited de_denied].
  destruct (restricts _ _ _ _), (ru_mode (nr_rule r)); cbn; rewrite ?app_nil_r;
    by destruct (List.find _ rules).
Qed.

Lemma find_is_Some {A} (p : A → bool) l :
  is_Some (List.find p l) ↔ ∃ x, x ∈ l ∧ p x = true.
Proof.
  split.
  - intros [x Hx]. exists x. by apply find_some_filter.
  - intros (x & Hx & Hp). destruct (List.find p l) eqn:E; [done|]. exfalso.
    rewrite (List.find_none _ _ E x) in Hp; [done|]. by apply list_elem_of_In.
Qed.

(** The last claim of a subject among rule claims. *)
Definition latest_claim (claims : list RuleClaim) (c : RuleClaim) : Prop :=
  ∃ pre post, claims = (pre ++ c :: post)%list ∧ ∀ d, d ∈ post → rc_subject d ≠ rc_subject c.

Definition rules_map (claims : list RuleClaim) : BTreeMap string (string * option Value) :=
  foldl (λ latest c, bmap_insert (rc_subject c) (rc_id c, rc_body c) latest) [] claims.

Lemma rules_map_wf claims : bmap_wf (rules_map claims).
Proof.
  unfold rules_map. induction claims as [|c claims IH] using rev_ind; [constructor|].
  rewrite foldl_snoc. by apply bmap_insert_wf.
Qed.

Lemma rules_map_get claims subject entry :
  bmap_get subject (rules_map claims) = Some entry ↔
  ∃ c, latest_claim claims c ∧ rc_subject c = subject ∧ (rc_id c, rc_body c) = entry.
Proof.
  unfold rules_map, latest_claim. induction claims as [|c claims IH] using rev_ind.
  { cbn. split; [done|]. by intros (? & ([|??] & ? & ? & _) & _). }
  rewrite foldl_snoc. destruct (decide (subject = rc_subject c)) as [->|Hne].
  - rewrite bmap_get_insert. split.
    + intros [= <-]. exists c. split_and!; [|done..]. exists claims, [].
      split; [done|]. by intros d ?%not_elem_of_nil.
    + intros (d & (pre & post & E & Hpost) & Hs & <-).
      destruct post as [|x post _] using rev_ind; [by apply app_inj_tail in E as [_ ->]|].
      rewrite app_comm_cons, app_assoc in E. apply app_inj_tail in E as [_ ->].
      exfalso. apply (Hpost x); [set_solver|done].
  - rewrite bmap_get_insert_ne, IH by done. split.
    + intros (d & (pre & post & -> & Hpost) & Hs & <-). exists d. split_and!; [|done..].
      exists pre, (post ++ [c])%list. split; [by rewrite <-app_assoc|].
      intros x [Hx| ->%list_elem_of_singleton]%elem_of_app; [by apply Hpost|]. congruence.
    + intros (d & (pre & post & E & Hpost) & Hs & <-). exists d. split_and!; [|done..].
      destruct post as [|x post _] using rev_ind.
      { apply app_inj_tail in E as [_ ->]. congruence. }
      rewrite app_comm_cons, app_assoc in E. apply app_inj_tail in E as [-> _].
      exists pre, post. split; [done|]. intros y Hy. apply Hpost. set_solver.
Qed.

Lemma elem_of_current_rules claims r :
  r ∈ current_rules claims ↔
  ∃ c, latest_claim claims c ∧ named_rule (rc_subject c, (rc_id c, rc_body c)) = Some r.
Proof.
  unfold current_rules. fold (rules_map claims). rewrite list_elem_of_omap. split.
  - intros ([subject entry] & Hin & Hr). apply elem_of_bmap_get in Hin; [|apply rules_map_wf].
    apply rules_map_get in Hin as (c & Hc & <- & <-). by exists c.
  - intros (c & Hc & Hr). exists (rc_subject c, (rc_id c, rc_body c)). split; [|done].
    apply elem_of_bmap_get; [apply rules_map_wf|]. apply rules_map_get. by exists c.
Qed.

(** C39: A write is refused exactly when it sets a rule and its actor is not a
    person, or it is neither a rule nor an audit record and some name's latest
    rule claim, in canonical order, is in enforce mode and restricts it.  A
    replaced rule has no effect, no rule can stop a person from setting rules,
    and every refusal has the code [rule-denied]. *)
Theorem rules_gate_refuses_iff claims actor kind subject :
  (∃ message, rules_gate claims actor kind subject = Err ("rule-denied", message)) ↔
  (kind = RULE_SET ∧ family_of actor ≠ Some Person) ∨
  (kind ≠ RULE_SET ∧ kind ≠ RULE_AUDITED ∧
   ∃ c r, latest_claim claims c ∧ named_rule (rc_subject c, (rc_id c, rc_body c)) = Some r ∧
          ru_mode (nr_rule r) = Enforce ∧ restricts (nr_rule r) actor kind subject = true).
Proof.
  unfold rules_gate. destruct (String.eqb_spec kind RULE_SET) as [->|Hs].
  { case_bool_decide; naive_solver. }
  destruct (String.eqb_spec kind RULE_AUDITED) as [->|Ha].
  { split; [by intros []|]. by intros [[]|(_ & [] & _)]. }
  rewrite decide_rules_spec. cbn [de_denied de_audited].
  assert (is_Some (List.find (in_mode Enforce actor kind subject) (current_rules claims)) ↔
    ∃ c r, latest_claim claims c ∧ named_rule (rc_subject c, (rc_id c, rc_body c)) = Some r ∧
          ru_mode (nr_rule r) = Enforce ∧ restricts (nr_rule r) actor kind subject = true) as Hf.
  { rewrite find_is_Some. unfold in_mode. split.
    - intros (r & (c & Hc & Hn)%elem_of_current_rules & [Hm Hr]%andb_true_iff).
      apply bool_decide_eq_true in Hm. by exists c, r.
    - intros (c & r & Hc & Hn & Hm & Hr). exists r. split; [apply elem_of_current_rules; by exists c|].
      by rewrite bool_decide_eq_true_2. }
  case_bool_decide as Hc.
  - subst claims. split; [by intros []|]. intros [[]|(_ & _ & c & r & (pre & post & E & _) & _)]; [done|].
    by apply app_cons_not_nil in E.
  - destruct (List.find _ _) as [r|] eqn:E.
    + split; [|intros _; by eexists]. intros _. right. split_and!; [done..|]. by apply Hf.
    + split; [by intros []|]. intros [[]|(_ & _ & Hr)]; [done|]. apply Hf in Hr. by destruct Hr.
Qed.

(** A write that is let through leaves one audit record for each current
    rule in audit mode that would have refused it, on that rule's subject and
    naming its claim, the writer, the kind and the target. *)
Theorem rules_gate_audits claims actor kind subject records :
  kind ≠ RULE_SET → kind ≠ RULE_AUDITED →
  rules_gate claims actor kind subject = Ok records →
  records = audit_record actor kind subject <$>
    List.filter (in_mode Audit actor kind subject) (current_rules claims).
Proof.
  intros Hs Ha. unfold rules_gate.
  destruct (String.eqb_spec kind RULE_SET), (String.eqb_spec kind RULE_AUDITED); try done.
  rewrite decide_rules_spec. cbn [de_denied de_audited].
  case_bool_decide as Hc; [by intros [= <-]; subst|].
  destruct (List.find _ _); [done|]. by intros [= <-].
Qed.

(** ** A rule replaced *)

Definition demo_rule_claim (i mode : string) : RuleClaim :=
  {| rc_subject := "rule/docs"; rc_id := i;
     rc_body := Some (Object [("fields", Object [("mode", VString mode);
       ("actors", Array [VString "agent/**"]); ("kinds", Array [VString "doc.*"])])]) |}.
Definition demo_rules : list RuleClaim := [demo_rule_claim "1" "enforce"; demo_rule_claim "2" "audit"].

Lemma rules_gate_audits_witness :
  ∃ records, rules_gate demo_rules "agent/a/b/c" "doc.bound" "doc/x" = Ok records ∧
  records = audit_record "agent/a/b/c" "doc.bound" "doc/x" <$>
    List.filter (in_mode Audit "agent/a/b/c" "doc.bound" "doc/x") (current_rules demo_rules).
Proof.
  eexists. split; [vm_compute; reflexivity|].
  apply rules_gate_audits; [discriminate|discriminate|vm_compute; reflexivity].
Defined.

Lemma lockdown_namespace_iff_witness :
  restricts (audit_rule "an agent publishes documents only under its own namespace" []
       ["doc.bound"] ["doc/**"] ["doc/{namespace}/**"]) "agent/team/web/reviewer" "doc.bound" "doc/team/api/x"
  = (starts_with "agent/" "agent/team/web/reviewer" && starts_with "doc/" "doc/team/api/x"
     && negb (starts_with ("doc/" +:+ actor_namespace "agent/team/web/reviewer" +:+ "/") "doc/team/api/x")).
Proof.
  apply (lockdown_namespace_iff [] _ _ "agents-publish-in-namespace"); [reflexivity|].
  refine (bool_decide_unpack (_ ∉ _) _). vm_compute. exact I.
Defined.
