(* ===== verification/WriterQueue.v ===== *)
(** * The writer's scheduler (crates/smallclaims/src/sqlite/writer_queue.rs, with
    its callers in sqlite.rs)

    One writer thread takes foreground jobs from a channel in arrival order and
    background loans from a queue of their own.  A notification in the channel
    tells the thread that the background queue is no longer empty; a fence
    waits for the background loans admitted before it.  Senders hold one lock
    while they push and notify, so each operation below is one step. *)

From S2P Require Import Prelude.

(** ** State *)

(** [WriterJob]; the payload of a job is a name. *)
Inductive WriterJob :=
| Batched (job : nat)
| Lend (job : nat)
| FenceLend (through : Z) (job : nat)
| BackgroundReady.

#[export] Instance WriterJob_eq_dec : EqDecision WriterJob.
Proof. solve_decision. Defined.

Definition FOREGROUND_TURNS : nat := 8.
Definition WRITE_BATCH_LIMIT : nat := 256.

(** [Pending], the state of [BackgroundQueue] *)
Record Pending := {
  p_last : Z;
  p_closed : bool;
  p_jobs : list (Z * WriterJob)
}.

(** The channel with its sending end, the background queue, and [Admission]. *)
Record Sched := {
  s_channel : list WriterJob;
  s_open : bool;
  s_pending : Pending;
  s_next : option WriterJob;
  s_background : bool;
  s_turns : nat
}.

Definition sched_new : Sched :=
  {| s_channel := []; s_open := true;
     s_pending := {| p_last := 0; p_closed := false; p_jobs := [] |};
     s_next := None; s_background := false; s_turns := 0 |}.

Definition with_pending (s : Sched) (p : Pending) : Sched :=
  {| s_channel := s_channel s; s_open := s_open s; s_pending := p; s_next := s_next s;
     s_background := s_background s; s_turns := s_turns s |}.
Definition with_channel (s : Sched) (c : list WriterJob) : Sched :=
  {| s_channel := c; s_open := s_open s; s_pending := s_pending s; s_next := s_next s;
     s_background := s_background s; s_turns := s_turns s |}.
Definition with_next (s : Sched) (n : option WriterJob) : Sched :=
  {| s_channel := s_channel s; s_open := s_open s; s_pending := s_pending s; s_next := n;
     s_background := s_background s; s_turns := s_turns s |}.
Definition with_turns (s : Sched) (t : nat) : Sched :=
  {| s_channel := s_channel s; s_open := s_open s; s_pending := s_pending s; s_next := s_next s;
     s_background := s_background s; s_turns := t |}.
Definition with_background (s : Sched) : Sched :=
  {| s_channel := s_channel s; s_open := s_open s; s_pending := s_pending s; s_next := s_next s;
     s_background := true; s_turns := s_turns s |}.

(** ** The background queue *)

(** [BackgroundQueue::push]: the new queue and whether to wake the writer;
    [None] where the code panics, on a closed queue or an exhausted counter. *)
Definition push (p : Pending) (job : WriterJob) : option (Pending * bool) :=
  if p_closed p then None
  else match checked_add64 (p_last p) 1 with
       | None => None
       | Some sequence =>
           Some ({| p_last := sequence; p_closed := false; p_jobs := p_jobs p ++ [(sequence, job)] |},
                 bool_decide (p_jobs p = []))
       end.

Definition watermark (p : Pending) : Z := p_last p.

(** [BackgroundQueue::pop] *)
Definition pop (p : Pending) (through : Z) : option (WriterJob * Pending) :=
  match p_jobs p with
  | (sequence, job) :: rest =>
      if (sequence <=? through)%Z
      then Some (job, {| p_last := p_last p; p_closed := p_closed p; p_jobs := rest |})
      else None
  | [] => None
  end.

Definition has_pending (p : Pending) : bool := negb (bool_decide (p_jobs p = [])).

(** [BackgroundQueue::close] *)
Definition close (p : Pending) : Pending :=
  {| p_last := p_last p; p_closed := true; p_jobs := [] |}.

(** ** Senders *)

(** [WriterConnection::send] of a foreground job *)
Definition send (s : Sched) (job : WriterJob) : Sched := with_channel s (s_channel s ++ [job]).

(** [WriterConnection::enqueue_background] *)
Definition enqueue_background (s : Sched) (job : nat) : option Sched :=
  match push (s_pending s) (Lend job) with
  | None => None
  | Some (p, wake) =>
      let s := with_pending s p in
      Some (if wake then with_channel s (s_channel s ++ [BackgroundReady]) else s)
  end.

(** The fence of [lend_writer] *)
Definition fence_job (s : Sched) (job : nat) : WriterJob :=
  let through := watermark (s_pending s) in
  if (through =? 0)%Z then Lend job else FenceLend through job.
Definition fence (s : Sched) (job : nat) : Sched := send s (fence_job s job).

(** ** The writer thread *)

(** [Admission::next] returns a job, waits for one, or ends. *)
Inductive Outcome := Dispatched (job : WriterJob) (background : bool) | Blocked | Ended | OutOfFuel.

Definition on_empty (s : Sched) : Sched * Outcome := (s, if s_open s then Blocked else Ended).

(** The arm of [next] for a job that is not a notification. *)
Definition admit_job (s : Sched) (job : WriterJob) : Sched * Outcome :=
  if s_background s then
    let through :=
      match job with
      | FenceLend through _ => Some through
      | _ => if (FOREGROUND_TURNS <=? s_turns s)%nat then Some u64_max else None
      end in
    match through ≫= pop (s_pending s) with
    | Some (loan, p) =>
        (with_turns (with_next (with_pending s p) (Some job)) 0, Dispatched loan true)
    | None =>
        (with_turns s (if has_pending (s_pending s) then S (s_turns s) else 0), Dispatched job false)
    end
  else (s, Dispatched job false).

(** The loop of [next]: each turn takes one job in flight. *)
Fixpoint next_loop (fuel : nat) (s : Sched) : Sched * Outcome :=
  match fuel with
  | O => (s, OutOfFuel)
  | S fuel' =>
      let got s job :=
        match job with
        | BackgroundReady => next_loop fuel' (with_background s)
        | _ => admit_job s job
        end in
      match s_next s, s_channel s with
      | Some job, _ => got (with_next s None) job
      | None, job :: channel => got (with_channel s channel) job
      | None, [] =>
          if s_background s then
            match pop (s_pending s) u64_max with
            | Some (loan, p) => (with_turns (with_pending s p) 0, Dispatched loan true)
            | None => on_empty s
            end
          else on_empty s
      end
  end.

(** What is on its way to the writer thread, in order. *)
Definition inflight (s : Sched) : list WriterJob := option_list (s_next s) ++ s_channel s.

Definition next (s : Sched) : Sched * Outcome := next_loop (S (length (inflight s))) s.

(** [Admission::put_back] *)
Definition put_back (s : Sched) (job : option WriterJob) : Sched := with_next s job.

(** The intake of [run_write_batch] after its first write: batched writes from
    the front of the channel, at most [budget] more; a job that is not one ends
    the batch and is put back. *)
Fixpoint batch_intake (budget : nat) (s : Sched) : list WriterJob * Sched :=
  match budget with
  | O => ([], put_back s None)
  | S budget' =>
      match s_channel s with
      | [] => ([], put_back s None)
      | Batched job :: channel =>
          let '(taken, s') := batch_intake budget' (with_channel s channel) in (Batched job :: taken, s')
      | job :: channel => ([], put_back (with_channel s channel) (Some job))
      end
  end.

(** [Admission]'s destructor *)
Definition admission_drop (s : Sched) : Sched := with_pending s (close (s_pending s)).

(** ** Steps *)

Inductive Label :=
| LSend (job : WriterJob)
| LBackground (job : nat)
| LFence (job : WriterJob)
| LNext (o : Outcome)
| LBatch (taken : list WriterJob)
| LDisconnect.

(** A batched write dispatched by [next] is followed by its intake, which the
    failure of a write or the window may stop early; the senders may disconnect.
    The thread asks for the next job only once the last is put back or taken. *)
Inductive wq_step : Sched → Label → Sched → Prop :=
| step_send s job : s_open s = true → (∀ t j, job ≠ FenceLend t j) → job ≠ BackgroundReady →
    wq_step s (LSend job) (send s job)
| step_background s job s' : s_open s = true → enqueue_background s job = Some s' →
    wq_step s (LBackground job) s'
| step_fence s job : s_open s = true → wq_step s (LFence (fence_job s job)) (fence s job)
| step_next s s' o : next s = (s', o) → wq_step s (LNext o) s'
| step_batch s budget taken s' : s_next s = None → (budget < WRITE_BATCH_LIMIT)%nat →
    batch_intake budget s = (taken, s') → wq_step s (LBatch taken) s'
| step_disconnect s :
    wq_step s LDisconnect
      {| s_channel := s_channel s; s_open := false; s_pending := s_pending s; s_next := s_next s;
         s_background := s_background s; s_turns := s_turns s |}.

(** ** The invariant *)

(** No fence is in flight before the first notification. *)
Fixpoint fences_after_ready (l : list WriterJob) : Prop :=
  match l with
  | [] => True
  | BackgroundReady :: _ => True
  | FenceLend _ _ :: _ => False
  | _ :: l' => fences_after_ready l'
  end.

(** Sequence numbers grow along the queue up to the watermark. *)
Definition pending_wf (p : Pending) : Prop :=
  (0 <= p_last p <= u64_max)%Z ∧ StronglySorted Z.lt (p_jobs p).*1 ∧
  ∀ q job, (q, job) ∈ p_jobs p → (0 < q <= p_last p)%Z ∧ ∃ j, job = Lend j.

(** Until the writer has seen a notification, one is on its way ahead of every
    fence as soon as anything was pushed. *)
Definition wq_inv (s : Sched) : Prop :=
  pending_wf (s_pending s) ∧
  (s_background s = false →
   fences_after_ready (inflight s) ∧ ((0 < p_last (s_pending s))%Z → BackgroundReady ∈ inflight s)).

Lemma sched_new_inv : wq_inv sched_new.
Proof.
  split; [split_and!; cbn; [lia|unfold u64_max; lia|constructor|]|].
  - intros q job. by intros ?%not_elem_of_nil.
  - intros _. cbn. split; [done|lia].
Qed.

Lemma fences_after_ready_snoc l job :
  fences_after_ready l → (BackgroundReady ∈ l ∨ ∀ t j, job ≠ FenceLend t j) →
  fences_after_ready (l ++ [job]).
Proof.
  induction l as [|x l IH]; cbn.
  - intros _ [?%not_elem_of_nil|H]; [done|]. by destruct job as [| |t j|]; try naive_solver.
  - intros H [Hin|Hj].
    + apply elem_of_cons in Hin as [<-|Hin]; [done|]. destruct x; auto.
    + destruct x; auto.
Qed.

Lemma inflight_send s job : inflight (send s job) = inflight s ++ [job].
Proof. unfold inflight, send. cbn. by rewrite app_assoc. Qed.

Lemma pop_Some p through job p' :
  pop p through = Some (job, p') →
  ∃ q, p_jobs p = (q, job) :: p_jobs p' ∧ (q <= through)%Z ∧
       p_last p' = p_last p ∧ p_closed p' = p_closed p.
Proof.
  unfold pop. destruct (p_jobs p) as [|[q j] rest]; [done|].
  destruct (Z.leb_spec q through); [|done]. intros [= -> <-]. by exists q.
Qed.

Lemma pop_None p through q job :
  pending_wf p → pop p through = None → (q, job) ∈ p_jobs p → (through < q)%Z.
Proof.
  intros (_ & Hs & _) Hp Hin. unfold pop in Hp. destruct (p_jobs p) as [|[q' j'] rest]; [set_solver|].
  destruct (Z.leb_spec q' through); [done|]. cbn in Hs. apply StronglySorted_cons in Hs as [Hall _].
  apply elem_of_cons in Hin as [[= -> ->]|Hin]; [done|].
  rewrite Forall_forall in Hall. specialize (Hall q). cut (q' < q)%Z; [lia|].
  apply Hall, list_elem_of_fmap. by exists (q, job).
Qed.

(** A nonempty queue always yields to an unbounded pop. *)
Lemma pop_all_None p : pending_wf p → pop p u64_max = None → p_jobs p = [].
Proof.
  intros Hwf Hp. destruct (p_jobs p) as [|[q j] rest] eqn:E; [done|].
  assert ((q, j) ∈ p_jobs p) as Hin by (rewrite E; left).
  pose proof (pop_None _ _ _ _ Hwf Hp Hin). destruct Hwf as (Hl & _ & Hj). apply Hj in Hin. lia.
Qed.

Lemma pop_wf p through job p' : pending_wf p → pop p through = Some (job, p') → pending_wf p'.
Proof.
  intros (Hl & Hs & Hj) (q & E & _ & El & _)%pop_Some. unfold pending_wf. rewrite El.
  rewrite E in Hs, Hj. cbn in Hs. apply StronglySorted_cons in Hs as [_ Hs].
  split_and!; [lia..|done|]. intros q' j' Hin. apply Hj. by right.
Qed.

Lemma push_wf p job p' wake :
  pending_wf p → push p (Lend job) = Some (p', wake) →
  pending_wf p' ∧ (0 < p_last p')%Z ∧ p_jobs p' = p_jobs p ++ [(p_last p', Lend job)] ∧
  (wake = false → (0 < p_last p)%Z).
Proof.
  intros (Hl & Hs & Hj). unfold push, checked_add64. destruct (p_closed p); [done|].
  destruct (Z.leb_spec (p_last p + 1) u64_max); [|done]. intros [= <- <-]. cbn. split_and!; [|lia|done|].
  - split_and!; cbn; [lia..| |].
    + rewrite fmap_app. cbn. apply StronglySorted_app_2; [|done|repeat constructor].
      intros x y Hx ->%list_elem_of_singleton.
      apply list_elem_of_fmap in Hx as ([q j] & -> & Hin). apply Hj in Hin. cbn. lia.
    + intros q j [Hin|[= -> ->]%list_elem_of_singleton]%elem_of_app.
      * apply Hj in Hin as [? ?]. split; [lia|done].
      * split; [lia|]. by exists job.
  - intros Hw. bool_prop. destruct (p_jobs p) as [|[q j] rest]; [done|].
    destruct (Hj q j) as [? _]; [left|lia].
Qed.

(** ** The writer's loop *)

Definition is_fence (job : WriterJob) : bool :=
  match job with FenceLend _ _ => true | _ => false end.
Definition plain (job : WriterJob) : Prop := job ≠ BackgroundReady.

(** The jobs in flight that are not notifications. *)
Definition work (l : list WriterJob) : list WriterJob :=
  List.filter (λ j, negb (bool_decide (j = BackgroundReady))) l.

(** What one answer of [next] has done. *)
Definition next_post (s s' : Sched) (o : Outcome) : Prop :=
  wq_inv s' ∧ (s_background s = true → s_background s' = true) ∧
  match o with
  | OutOfFuel => False
  | Blocked | Ended =>
      p_jobs (s_pending s') = [] ∧ s_pending s' = s_pending s ∧ inflight s' = [] ∧ work (inflight s) = []
  | Dispatched job true =>
      (∃ q, p_jobs (s_pending s) = (q, job) :: p_jobs (s_pending s')) ∧
      (∃ j, job = Lend j) ∧ work (inflight s) = work (inflight s')
  | Dispatched job false =>
      s_pending s' = s_pending s ∧ plain job ∧
      work (inflight s) = job :: work (inflight s') ∧
      (∀ t j, job = FenceLend t j → ∀ q l, (q, l) ∈ p_jobs (s_pending s) → (t < q)%Z) ∧
      (s_background s = true → p_jobs (s_pending s) ≠ [] →
       s_turns s' = S (s_turns s) ∧ (is_fence job = false → (s_turns s < FOREGROUND_TURNS)%nat))
  end.

Lemma admit_job_post s job s' o :
  wq_inv s → plain job → (s_background s = false → is_fence job = false) → s_next s = None →
  admit_job s job = (s', o) →
  match o with
  | Dispatched j true =>
      (∃ q, p_jobs (s_pending s) = (q, j) :: p_jobs (s_pending s')) ∧ (∃ i, j = Lend i) ∧
      inflight s' = job :: inflight s
  | Dispatched j false =>
      j = job ∧ s_pending s' = s_pending s ∧ inflight s' = inflight s ∧
      (∀ t i, job = FenceLend t i → ∀ q l, (q, l) ∈ p_jobs (s_pending s) → (t < q)%Z) ∧
      (s_background s = true → p_jobs (s_pending s) ≠ [] →
       s_turns s' = S (s_turns s) ∧ (is_fence job = false → (s_turns s < FOREGROUND_TURNS)%nat))
  | _ => False
  end ∧ s_background s' = s_background s ∧ wq_inv s'.
Proof.
  intros [Hwf Hb] Hp Hf Hn. unfold admit_job. destruct (s_background s) eqn:Eb.
  - set (through := match job with FenceLend t _ => Some t | _ => _ end).
    destruct (through ≫= pop (s_pending s)) as [[loan p]|] eqn:Epop; intros [= <- <-].
    + apply bind_Some in Epop as (t & _ & Epop). pose proof (pop_wf _ _ _ _ Hwf Epop) as Hwf'.
      apply pop_Some in Epop as (q & E & _). split_and!; [by exists q| |unfold inflight; cbn; by rewrite Hn|done|].
      * destruct Hwf as (_ & _ & Hj). destruct (Hj q loan) as [_ ?]; [rewrite E; left|done].
      * split; [done|]. cbn. by rewrite Eb.
    + split_and!; [done..| | |done|split; [done|cbn; by rewrite Eb]].
      * intros t i -> q l Hin. eapply pop_None; [done| |done]. done.
      * intros _ Hne. unfold has_pending. rewrite bool_decide_eq_false_2 by done. split; [done|].
        intros Hj. apply Nat.nle_gt. intros Hle.
        assert (through = Some u64_max) as Et.
        { unfold through. apply Nat.leb_le in Hle. rewrite Hle. by destruct job. }
        rewrite Et in Epop. by apply pop_all_None in Epop.
  - intros [= <- <-]. split_and!; [done..| |done|done|].
    + intros t i ->. by specialize (Hf eq_refl).
    + split; [done|]. by rewrite Eb.
Qed.

(** One job taken from those in flight. *)
Definition taken (s : Sched) (job : WriterJob) (s1 : Sched) : Prop :=
  inflight s = job :: inflight s1 ∧ s_pending s1 = s_pending s ∧
  s_background s1 = s_background s ∧ s_turns s1 = s_turns s ∧ s_next s1 = None.

Lemma taken_inv s job s1 :
  wq_inv s → taken s job s1 → plain job →
  wq_inv s1 ∧ (s_background s = false → is_fence job = false).
Proof.
  intros [Hwf Hb] (Hi & Hp & Hbg & _ & _) Hj. unfold wq_inv. rewrite Hp, Hbg.
  rewrite Hi in Hb. split; [split; [done|]|]; intros E; destruct (Hb E) as [Hf Hr].
  - split; [by destruct job|]. intros Hl. specialize (Hr Hl).
    apply elem_of_cons in Hr as [Hr|Hr]; [by rewrite <-Hr in Hj|done].
  - by destruct job.
Qed.

Lemma work_cons_plain job l : plain job → work (job :: l) = job :: work l.
Proof. intros Hj. unfold work. cbn. by rewrite bool_decide_eq_false_2. Qed.

Lemma taken_work s job s1 : taken s job s1 → plain job → work (inflight s) = job :: work (inflight s1).
Proof. intros (-> & _) Hj. by apply work_cons_plain. Qed.

Lemma next_post_job s job s1 s' o :
  wq_inv s → taken s job s1 → plain job → admit_job s1 job = (s', o) → next_post s s' o.
Proof.
  intros Hinv Ht Hj Ha. destruct (taken_inv _ _ _ Hinv Ht Hj) as [Hinv1 Hf].
  pose proof (taken_work _ _ _ Ht Hj) as Hw. destruct Ht as (_ & Hp & Hb & Hturns & Hn).
  rewrite <-Hb in Hf. destruct (admit_job_post _ _ _ _ Hinv1 Hj Hf Hn Ha) as (Ho & Hb' & Hinv').
  unfold next_post. split_and!; [done|by rewrite Hb', Hb|].
  rewrite Hp, Hb, Hturns in Ho. destruct o as [j []| | |]; [| |done..].
  - destruct Ho as (Hq & Hl & Hi). split_and!; [done..|]. by rewrite Hw, Hi, work_cons_plain.
  - destruct Ho as (-> & Hp' & Hi & Hfence & Hturn). split_and!; [done..| |done|done].
    by rewrite Hw, Hi.
Qed.

Lemma next_post_ready s s1 s' o :
  taken s BackgroundReady s1 → next_post (with_background s1) s' o → next_post s s' o.
Proof.
  intros (Hi & Hp & _ & Ht & _) (Hinv & Hb & Ho). specialize (Hb eq_refl).
  unfold next_post. split_and!; [done|done|].
  assert (work (inflight s) = work (inflight (with_background s1))) as -> by (by rewrite Hi).
  change (s_pending (with_background s1)) with (s_pending s1) in Ho.
  change (s_turns (with_background s1)) with (s_turns s1) in Ho. rewrite Hp, Ht in Ho.
  destruct o as [j []| | |]; [done| |done..].
  destruct Ho as (? & ? & ? & ? & Hturn). split_and!; [done..|]. intros _. by apply Hturn.
Qed.

Lemma with_background_inv s s1 : wq_inv s → taken s BackgroundReady s1 → wq_inv (with_background s1).
Proof. intros [Hwf _] (_ & Hp & _). split; [cbn; by rewrite Hp|done]. Qed.

Lemma next_loop_post fuel s s' o :
  wq_inv s → (length (inflight s) < fuel)%nat → next_loop fuel s = (s', o) → next_post s s' o.
Proof.
  revert s. induction fuel as [|fuel IH]; intros s Hinv Hlen Hnext; [lia|]. cbn [next_loop] in Hnext.
  assert (∀ job s1, taken s job s1 →
    match job with BackgroundReady => next_loop fuel (with_background s1) | _ => admit_job s1 job end
    = (s', o) → next_post s s' o) as Hgot.
  { intros job s1 Ht Hj. destruct (decide (job = BackgroundReady)) as [->|Hne].
    - eapply next_post_ready; [done|]. apply IH; [by eapply with_background_inv| |done].
      destruct Ht as [Hi _]. rewrite Hi in Hlen. cbn in Hlen.
      change (inflight (with_background s1)) with (inflight s1). lia.
    - eapply next_post_job; [done..|]. by destruct job. }
  destruct (s_next s) as [job|] eqn:En; [|destruct (s_channel s) as [|job channel] eqn:Ec].
  - apply (Hgot job (with_next s None)); [|done]. unfold taken, inflight. cbn. by rewrite En.
  - assert (inflight s = []) as Hi by (unfold inflight; by rewrite En, Ec).
    assert (∀ o', on_empty s = (s', o') → p_jobs (s_pending s) = [] → next_post s s' o') as Hempty.
    { intros o' [= <- <-] Hj. unfold next_post. rewrite Hi. split_and!; [done|done|]. by destruct (s_open s). }
    destruct (s_background s) eqn:Eb.
    + destruct (pop (s_pending s) u64_max) as [[loan p]|] eqn:Epop.
      * injection Hnext as <- <-. destruct Hinv as [Hwf _]. pose proof (pop_wf _ _ _ _ Hwf Epop).
        apply pop_Some in Epop as (q & E & _). unfold next_post. split_and!.
        -- split; [done|]. cbn. by rewrite Eb.
        -- done.
        -- by exists q.
        -- destruct Hwf as (_ & _ & Hj). destruct (Hj q loan) as [_ ?]; [rewrite E; left|done].
        -- done.
      * apply Hempty; [done|]. apply pop_all_None; [apply Hinv|done].
    + apply Hempty; [done|]. destruct Hinv as [(Hl & _ & Hj) Hb]. destruct (Hb Eb) as [_ Hr].
      destruct (p_jobs (s_pending s)) as [|[q l] rest] eqn:E; [done|].
      destruct (Hj q l) as [Hq _]; [left|]. rewrite Hi in Hr.
      by specialize (Hr ltac:(lia)) as ?%not_elem_of_nil.
  - apply (Hgot job (with_channel s channel)); [|done]. unfold taken, inflight. cbn. by rewrite En, Ec.
Qed.

Lemma next_spec s s' o : wq_inv s → next s = (s', o) → next_post s s' o.
Proof. intros Hinv. apply next_loop_post; [done|lia]. Qed.

(** ** Every step keeps the invariant *)

Lemma batch_intake_spec budget s taken s' :
  s_next s = None → batch_intake budget s = (taken, s') →
  (∀ j, j ∈ taken → ∃ i, j = Batched i) ∧ inflight s = taken ++ inflight s' ∧
  s_pending s' = s_pending s ∧ s_background s' = s_background s ∧ s_turns s' = s_turns s.
Proof.
  revert s taken s'. induction budget as [|budget IH]; intros s taken s' Hn; cbn.
  { intros [= <- <-]. unfold inflight. cbn. rewrite Hn. set_solver. }
  assert (∀ c, s_next (with_channel s c) = None) as Hn' by done.
  destruct (s_channel s) as [|[i|i|t i|] channel] eqn:Ec.
  - intros [= <- <-]. unfold inflight. cbn. rewrite Hn, Ec. set_solver.
  - destruct (batch_intake budget (with_channel s channel)) as [tk s1] eqn:Eb.
    intros [= <- <-]. destruct (IH _ _ _ (Hn' channel) Eb) as (Ht & Hi & Hp & Hb & Htn).
    split_and!; [|unfold inflight in *; cbn in *; rewrite Hn, Ec in *; cbn in *; by rewrite Hi|done..].
    intros j [-> |Hj]%elem_of_cons; [by exists i|by apply Ht].
  - intros [= <- <-]. unfold inflight. cbn. rewrite Hn, Ec. set_solver.
  - intros [= <- <-]. unfold inflight. cbn. rewrite Hn, Ec. set_solver.
  - intros [= <- <-]. unfold inflight. cbn. rewrite Hn, Ec. set_solver.
Qed.

Lemma fences_after_ready_batched pre l :
  (∀ j, j ∈ pre → ∃ i, j = Batched i) → fences_after_ready (pre ++ l) → fences_after_ready l.
Proof.
  induction pre as [|x pre IH]; intros Hp Hf; [done|].
  destruct (Hp x) as [i ->]; [left|]. apply IH; [|done]. intros j Hj. apply Hp. by right.
Qed.

Lemma wq_step_inv s l s' : wq_inv s → wq_step s l s' → wq_inv s'.
Proof.
  intros Hinv Hstep. destruct Hstep as [s job _ Hf Hr|s job s' _ He|s job _|s s' o Hn|s b tk s' Hn _ Hb|s].
  - destruct Hinv as [Hwf Hb]. split; [done|]. intros E. rewrite inflight_send. destruct (Hb E) as [Hfe Hre].
    split; [apply fences_after_ready_snoc; [done|by right]|]. intros Hl. specialize (Hre Hl). set_solver.
  - unfold enqueue_background in He. destruct (push _ _) as [[p wake]|] eqn:Ep; [|done].
    injection He as <-. destruct Hinv as [Hwf Hb].
    destruct (push_wf _ _ _ _ Hwf Ep) as (Hwf' & Hl & _ & Hw). destruct wake.
    + split; [done|]. intros E. destruct (Hb E) as [Hfe Hre].
      assert (inflight (with_channel (with_pending s p) (s_channel s ++ [BackgroundReady]))
              = inflight s ++ [BackgroundReady]) as Hi by (unfold inflight; cbn; by rewrite app_assoc).
      cbn [with_pending s_channel]. rewrite Hi. split; [apply fences_after_ready_snoc; [done|by right]|].
      intros _. set_solver.
    + split; [done|]. intros E. destruct (Hb E) as [Hfe Hre]. split; [done|]. intros _. by apply Hre, Hw.
  - destruct Hinv as [Hwf Hb]. unfold fence. split; [done|]. intros E. rewrite inflight_send.
    destruct (Hb E) as [Hfe Hre]. unfold fence_job, watermark. split; [|intros Hl; specialize (Hre Hl); set_solver].
    apply fences_after_ready_snoc; [done|]. destruct (Z.eqb_spec (p_last (s_pending s)) 0); [by right|].
    left. apply Hre. destruct Hwf as [Hl _]. lia.
  - by destruct (next_spec _ _ _ Hinv Hn).
  - destruct (batch_intake_spec _ _ _ _ Hn Hb) as (Ht & Hi & Hp & Hbg & _).
    destruct Hinv as [Hwf Hinv]. unfold wq_inv. rewrite Hp, Hbg. split; [done|]. intros E.
    destruct (Hinv E) as [Hfe Hre]. rewrite Hi in Hfe, Hre.
    split; [by eapply fences_after_ready_batched|]. intros Hl. specialize (Hre Hl).
    apply elem_of_app in Hre as [Hin|?]; [|done]. by destruct (Ht _ Hin).
  - done.
Qed.

(** ** What the scheduler promises *)

Definition reachable (s : Sched) : Prop := ∃ tr, run wq_step sched_new tr s.

Lemma reachable_inv s : reachable s → wq_inv s.
Proof. intros [tr Hr]. exact (run_invariant _ _ wq_step_inv _ _ _ Hr sched_new_inv). Qed.

(** The foreground jobs a trace submits and takes, and the background loans it
    submits and grants. *)
Definition submitted (l : Label) : list WriterJob :=
  match l with LSend job | LFence job => [job] | _ => [] end.
Definition started (l : Label) : list WriterJob :=
  match l with LNext (Dispatched job false) => [job] | LBatch taken => taken | _ => [] end.
Definition offered (l : Label) : list WriterJob :=
  match l with LBackground job => [Lend job] | _ => [] end.
Definition granted (l : Label) : list WriterJob :=
  match l with LNext (Dispatched job true) => [job] | _ => [] end.

Lemma work_app l l' : work (l ++ l') = work l ++ work l'.
Proof. apply List.filter_app. Qed.

Lemma work_plain l : (∀ j, j ∈ l → plain j) → work l = l.
Proof.
  induction l as [|x l IH]; intros Hl; [done|]. rewrite work_cons_plain by (apply Hl; left).
  f_equal. apply IH. intros j Hj. apply Hl. by right.
Qed.

Lemma wq_step_conserves s l s' :
  wq_inv s → wq_step s l s' →
  work (inflight s) ++ submitted l = started l ++ work (inflight s') ∧
  (p_jobs (s_pending s)).*2 ++ offered l = granted l ++ (p_jobs (s_pending s')).*2.
Proof.
  intros Hinv Hstep. destruct Hstep as [s job _ Hf Hr|s job s' _ He|s job _|s s' o Hn|s b tk s' Hn _ Hb|s].
  - rewrite inflight_send, work_app. cbn [submitted offered started granted app].
    rewrite (work_plain [job]) by (by intros j ->%list_elem_of_singleton). by rewrite app_nil_r.
  - unfold enqueue_background in He. destruct (push _ _) as [[p wake]|] eqn:Ep; [|done]. injection He as <-.
    destruct Hinv as [Hwf _]. destruct (push_wf _ _ _ _ Hwf Ep) as (_ & _ & Hj & _).
    cbn [submitted started offered granted app]. rewrite app_nil_r.
    destruct wake; (split; [|cbn; rewrite Hj, fmap_app; done]); [|done].
    unfold inflight. cbn. rewrite !work_app. cbn. by rewrite app_nil_r.
  - unfold fence. rewrite inflight_send, work_app. cbn [submitted offered started granted app].
    rewrite (work_plain [_]); [by rewrite app_nil_r|]. intros j ->%list_elem_of_singleton.
    unfold fence_job, plain. by destruct (_ =? _)%Z.
  - destruct (next_spec _ _ _ Hinv Hn) as (_ & _ & Ho).
    destruct o as [job []| | |]; cbn [submitted offered started granted app]; rewrite !app_nil_r; [..|done].
    + destruct Ho as ([q ->] & _ & ->). done.
    + destruct Ho as (-> & _ & -> & _). done.
    + destruct Ho as (_ & -> & Hi & ->). by rewrite Hi.
    + destruct Ho as (_ & -> & Hi & ->). by rewrite Hi.
  - destruct (batch_intake_spec _ _ _ _ Hn Hb) as (Ht & Hi & Hp & _).
    cbn [submitted offered started granted app]. rewrite Hp, Hi, work_app, !app_nil_r. split; [|done].
    f_equal. apply work_plain. intros j Hj. by destruct (Ht j Hj) as [i ->].
  - by rewrite !app_nil_r.
Qed.

(** C36: Foreground jobs start in exactly the order in which they were submitted
    and background loans are granted in the order in which they were offered;
    at every moment what was submitted is what has started followed by what is
    still in flight, so no job is lost, repeated or reordered within its class. *)
Theorem dispatch_fifo tr s :
  run wq_step sched_new tr s →
  concat (submitted <$> tr) = concat (started <$> tr) ++ work (inflight s) ∧
  concat (offered <$> tr) = concat (granted <$> tr) ++ (p_jobs (s_pending s)).*2.
Proof.
  intros Hrun.
  assert (∀ s0 tr s, run wq_step s0 tr s → wq_inv s0 →
    work (inflight s0) ++ concat (submitted <$> tr) = concat (started <$> tr) ++ work (inflight s) ∧
    (p_jobs (s_pending s0)).*2 ++ concat (offered <$> tr)
      = concat (granted <$> tr) ++ (p_jobs (s_pending s)).*2) as Hgen.
  { clear. induction 1 as [s|s l s1 tr s' Hstep Hrun IH]; intros Hinv; cbn; [by rewrite !app_nil_r|].
    destruct (IH (wq_step_inv _ _ _ Hinv Hstep)) as [IH1 IH2].
    destruct (wq_step_conserves _ _ _ Hinv Hstep) as [H1 H2].
    by rewrite !app_assoc, H1, H2, <-!app_assoc, IH1, IH2. }
  exact (Hgen _ _ _ Hrun sched_new_inv).
Qed.

(** A fence runs only after every background loan admitted before it: when
    the writer dispatches a fence, no loan up to its watermark is left in the
    background queue, whether or not the writer had heard of the queue before. *)
Theorem fence_drains s s' through job b :
  reachable s → next s = (s', Dispatched (FenceLend through job) b) →
  ∀ q loan, (q, loan) ∈ p_jobs (s_pending s') → (through < q)%Z.
Proof.
  intros Hr Hn q loan Hin. destruct (next_spec _ _ _ (reachable_inv _ Hr) Hn) as (_ & _ & Ho). destruct b.
  - by destruct Ho as (_ & [i ?] & _).
  - destruct Ho as (Hp & _ & _ & Hf & _). rewrite Hp in Hin. by eapply Hf.
Qed.

(** The writer never sleeps on work: whenever it waits for a job or ends,
    no foreground job is in flight and no background loan is pending; and its
    loop always comes to an answer. *)
Theorem next_never_sleeps_on_work s s' o :
  reachable s → next s = (s', o) →
  o ≠ OutOfFuel ∧ (o = Blocked ∨ o = Ended → p_jobs (s_pending s) = [] ∧ work (inflight s) = []).
Proof.
  intros Hr Hn. destruct (next_spec _ _ _ (reachable_inv _ Hr) Hn) as (_ & _ & Ho).
  split; [by intros ->|]. intros [-> | ->]; destruct Ho as (Hj & Hp & _ & Hw); by rewrite Hp in Hj.
Qed.

(** Foreground dispatches of a trace, fences apart. *)
Definition turn (l : Label) : nat :=
  match l with LNext (Dispatched job false) => if is_fence job then 0 else 1 | _ => 0 end.
Definition turns (tr : list Label) : nat := foldr (λ l n, turn l + n)%nat 0%nat tr.

Lemma wq_step_waiting s l s' :
  wq_inv s → wq_step s l s' → granted l = [] → s_background s = true → p_jobs (s_pending s) ≠ [] →
  s_background s' = true ∧ p_jobs (s_pending s') ≠ [] ∧
  (turn l + (FOREGROUND_TURNS - s_turns s') <= FOREGROUND_TURNS - s_turns s)%nat.
Proof.
  intros Hinv Hstep Hg Hb Hne.
  destruct Hstep as [s job _ Hf Hr|s job s' _ He|s job _|s s' o Hn|s b tk s' Hn _ Hbi|s]; cbn [turn].
  - split_and!; [done..|]. cbn. lia.
  - unfold enqueue_background in He. destruct (push _ _) as [[p wake]|] eqn:Ep; [|done]. injection He as <-.
    destruct Hinv as [Hwf _]. destruct (push_wf _ _ _ _ Hwf Ep) as (_ & _ & Hj & _).
    assert (p_jobs p ≠ []) by (rewrite Hj; by intros [_ ?]%app_nil).
    destruct wake; (split_and!; [done..|]); cbn; lia.
  - split_and!; [done..|]. cbn. lia.
  - destruct (next_spec _ _ _ Hinv Hn) as (_ & Hb' & Ho). specialize (Hb' Hb).
    destruct o as [job []| | |]; [done| |destruct Ho as (? & Hp & _); by rewrite Hp in *..|done].
    destruct Ho as (Hp & _ & _ & _ & Ht). destruct (Ht Hb Hne) as [Hs Hlt]. rewrite Hp, Hs.
    split_and!; [done..|]. destruct (is_fence job); [lia|]. specialize (Hlt eq_refl). lia.
  - destruct (batch_intake_spec _ _ _ _ Hn Hbi) as (_ & _ & -> & -> & ->). split_and!; [done..|lia].
  - split_and!; [done..|]. cbn. lia.
Qed.

(** Overtaking is bounded.  While a background loan of a queue the writer
    knows of stays pending and none is granted, at most [FOREGROUND_TURNS]
    foreground loans or batches are dispatched, fences not counted. *)
Theorem bounded_overtaking s tr s' :
  reachable s → run wq_step s tr s' → concat (granted <$> tr) = [] →
  s_background s = true → p_jobs (s_pending s) ≠ [] →
  (turns tr <= FOREGROUND_TURNS - s_turns s)%nat.
Proof.
  intros Hr%reachable_inv Hrun. induction Hrun as [s|s l s1 tr s' Hstep Hrun IH]; intros Hg Hb Hne; [cbn; lia|].
  cbn in Hg. apply app_nil in Hg as [Hgl Hg].
  destruct (wq_step_waiting _ _ _ Hr Hstep Hgl Hb Hne) as (Hb1 & Hne1 & Hle).
  specialize (IH (wq_step_inv _ _ _ Hr Hstep) Hg Hb1 Hne1).
  change (turns (l :: tr)) with (turn l + turns tr)%nat. lia.
Qed.

(** ** Concrete schedules *)

Fixpoint next_n (n : nat) (s : Sched) : list Outcome * Sched :=
  match n with
  | O => ([], s)
  | S n' => let '(s1, o) := next s in let '(l, s2) := next_n n' s1 in (o :: l, s2)
  end.

Definition demo_lent : Sched :=
  (next (default sched_new (enqueue_background sched_new 1))).1.
Definition demo_fences : Sched :=
  default sched_new (enqueue_background (foldl fence demo_lent (List.seq 10 12)) 2).

(** Fences taken before a background loan was offered overtake it without
    counting turns: twelve of them run here while loan 2 waits. *)
Example fences_overtake :
  let '(answers, s) := next_n 12 demo_fences in
  answers = (λ j, Dispatched (FenceLend 1 j) false) <$> List.seq 10 12 ∧
  p_jobs (s_pending s) = [(2%Z, Lend 2)] ∧ p_jobs (s_pending demo_fences) = [(2%Z, Lend 2)].
Proof. by vm_compute. Qed.

(** A loan, then ten writes behind it. *)
Definition demo_busy : Sched :=
  foldl (λ s j, send s (Lend j)) (default sched_new (enqueue_background sched_new 1)) (List.seq 10 10).

Example demo_overtaking :
  (next_n 10 demo_busy).1 =
  ((λ j, Dispatched (Lend j) false) <$> List.seq 10 8) ++ [Dispatched (Lend 1) true; Dispatched (Lend 18) false].
Proof. by vm_compute. Qed.

Definition demo_pushed : Sched := default sched_new (enqueue_background sched_new 1).
Definition demo_fenced : Sched := fence demo_pushed 2.

Lemma demo_pushed_reachable : reachable demo_pushed.
Proof. exists [LBackground 1]. eapply run_cons; [by apply step_background|constructor]. Qed.

Lemma demo_fenced_next : reachable (next demo_fenced).1.
Proof.
  destruct demo_pushed_reachable as [tr Hr]. eexists. eapply run_app; [exact Hr|].
  eapply run_cons; [by apply step_fence|]. eapply run_cons; [by apply (step_next _ (next demo_fenced).1)|].
  constructor.
Qed.

Lemma dispatch_fifo_witness :
  concat (submitted <$> [LSend (Lend 1); LNext (Dispatched (Lend 1) false)]) = [Lend 1].
Proof.
  refine (eq_trans (proj1 (dispatch_fifo [LSend (Lend 1); LNext (Dispatched (Lend 1) false)]
    (next (send sched_new (Lend 1))).1 _)) _); [|reflexivity].
  eapply run_cons; [apply step_send; [reflexivity|done|done]|].
  eapply run_cons; [apply step_next; reflexivity|]. constructor.
Defined.

Lemma fence_drains_witness :
  (next (next demo_fenced).1).2 = Dispatched (FenceLend 1 2) false ∧
  (1%Z, Lend 1) ∉ p_jobs (s_pending (next (next demo_fenced).1).1).
Proof.
  split; [reflexivity|]. intros Hin.
  assert (next (next demo_fenced).1 = ((next (next demo_fenced).1).1, Dispatched (FenceLend 1 2) false)) as E
    by reflexivity.
  pose proof (fence_drains (next demo_fenced).1 _ 1 2 false demo_fenced_next E 1%Z (Lend 1) Hin). lia.
Defined.

Lemma next_never_sleeps_witness :
  p_jobs (s_pending (next (next (next demo_fenced).1).1).1) = [] ∧
  work (inflight (next (next (next demo_fenced).1).1).1) = [].
Proof.
  destruct demo_fenced_next as [tr Hr].
  apply (next_never_sleeps_on_work (next (next (next demo_fenced).1).1).1
           (next (next (next demo_fenced).1).1).1 Blocked); [|reflexivity|left; reflexivity].
  eexists. eapply run_app; [exact Hr|]. do 2 (eapply run_cons; [by eapply step_next|]). constructor.
Defined.

Definition demo_waiting : Sched := (next (send demo_pushed (Lend 3))).1.

Lemma bounded_overtaking_witness :
  (turns [LSend (Lend 4)] <= FOREGROUND_TURNS - s_turns demo_waiting)%nat.
Proof.
  destruct demo_pushed_reachable as [tr Hr].
  apply (bounded_overtaking demo_waiting [LSend (Lend 4)] (send demo_waiting (Lend 4))).
  - eexists. eapply run_app; [exact Hr|].
    eapply run_cons; [apply (step_send _ (Lend 3)); [reflexivity|done|done]|].
    eapply run_cons; [by apply (step_next _ demo_waiting)|]. constructor.
  - eapply run_cons; [apply step_send; [reflexivity|done|done]|constructor].
  - reflexivity.
  - reflexivity.
  - discriminate.
Defined.
