(* ===== verification/DigestSum.v ===== *)
(** * The 512-bit modular sum of digests
    (crates/smallclaims/src/store/projection_digest.rs, [add])

    Range and projection digests are sums of hashes modulo 2^512, kept as
    big-endian byte arrays and added byte by byte with a carry; subtraction adds
    the complement with a carry of one. *)

From S2P Require Import Prelude.

Local Open Scope Z_scope.

(** ** The loop *)

(** The loop body of [add] from the last byte on; [carry] is a [u16]. *)
Fixpoint add_bytes (subtract : bool) (carry : Z) (sum hash : list ascii) : list ascii :=
  match sum, hash with
  | s :: sum', h :: hash' =>
      let byte := if subtract then 255 - byte_val h else byte_val h in
      let c := carry + (byte_val s + byte) in
      byte_of c :: add_bytes subtract (Z.shiftr c 8) sum' hash'
  | _, _ => sum
  end.

Definition add (accumulator hash : list ascii) (subtract : bool) : list ascii :=
  reverse (add_bytes subtract (if subtract then 1 else 0) (reverse accumulator) (reverse hash)).

(** ** Its value *)

Fixpoint le_val (l : list ascii) : Z :=
  match l with [] => 0 | b :: l' => byte_val b + 256 * le_val l' end.

Lemma be_val_snoc l b : be_val (l ++ [b]) = be_val l * 256 + byte_val b.
Proof. unfold be_val. by rewrite foldl_snoc. Qed.

Lemma be_val_reverse l : be_val (reverse l) = le_val l.
Proof.
  induction l as [|b l IH]; [done|]. rewrite reverse_cons, be_val_snoc, IH. cbn. lia.
Qed.

Lemma add_bytes_spec subtract carry sum hash :
  length sum = length hash →
  length (add_bytes subtract carry sum hash) = length sum ∧
  le_val (add_bytes subtract carry sum hash) =
    (carry + le_val sum + (if subtract then 256 ^ Z.of_nat (length sum) - 1 - le_val hash else le_val hash))
    mod 256 ^ Z.of_nat (length sum).
Proof.
  revert carry hash. induction sum as [|s sum IH]; intros carry [|h hash] Hlen; try done.
  { cbn. split; [done|]. by rewrite Z.mod_1_r. }
  cbn [add_bytes]. set (byte := if subtract then _ else _). set (c := carry + (byte_val s + byte)).
  destruct (IH (Z.shiftr c 8) hash) as [Hl Hv]; [by injection Hlen|].
  cbn [length le_val]. split; [by rewrite Hl|]. rewrite Hv, byte_val_of, Z.shiftr_div_pow2 by lia.
  rewrite Nat2Z.inj_succ, Z.pow_succ_r by lia. set (P := 256 ^ Z.of_nat (length sum)).
  assert (0 < P) by (unfold P; apply Z.pow_pos_nonneg; lia).
  set (X := le_val sum + (if subtract then P - 1 - le_val hash else le_val hash)).
  replace (carry + (byte_val s + 256 * le_val sum) +
    (if subtract then 256 * P - 1 - (byte_val h + 256 * le_val hash) else byte_val h + 256 * le_val hash))
    with (c + 256 * X) by (unfold X, c, byte; destruct subtract; lia).
  rewrite (Z.rem_mul_r (c + 256 * X) 256 P) by lia.
  rewrite (Z.mul_comm 256 X), Z.mod_add, Z.div_add by lia. change (2 ^ 8) with 256.
  unfold X. f_equal. f_equal. f_equal. lia.
Qed.

Lemma add_length acc hash subtract :
  length acc = length hash → length (add acc hash subtract) = length acc.
Proof.
  intros H. unfold add. rewrite length_reverse.
  by destruct (add_bytes_spec subtract (if subtract then 1 else 0) (reverse acc) (reverse hash)) as [-> _];
    rewrite ?length_reverse.
Qed.

(** Adding a hash byte by byte is addition modulo 2^512 (modulo 256 to the
    number of bytes in general), and subtracting it with the complement and
    initial carry is subtraction; the length never changes. *)
Theorem add_modular acc hash subtract :
  length acc = length hash →
  length (add acc hash subtract) = length acc ∧
  be_val (add acc hash subtract) =
    (be_val acc + (if subtract then - be_val hash else be_val hash)) mod 256 ^ Z.of_nat (length acc).
Proof.
  intros Hlen. split; [by apply add_length|]. unfold add. rewrite be_val_reverse.
  destruct (add_bytes_spec subtract (if subtract then 1 else 0) (reverse acc) (reverse hash)) as [_ ->];
    [by rewrite !length_reverse|].
  rewrite length_reverse, <-!be_val_reverse, !reverse_involutive.
  destruct subtract; [|f_equal; lia].
  set (P := 256 ^ Z.of_nat (length acc)). assert (0 < P) by (unfold P; apply Z.pow_pos_nonneg; lia).
  replace (1 + be_val acc + (P - 1 - be_val hash)) with (be_val acc + - be_val hash + 1 * P) by lia.
  apply Z.mod_add. lia.
Qed.

Lemma add_modular_witness :
  be_val (add (be_bytes 64 5) (be_bytes 64 7) true)
  = (be_val (be_bytes 64 5) + - be_val (be_bytes 64 7)) mod 256 ^ Z.of_nat (length (be_bytes 64 5)).
Proof.
  apply (add_modular (be_bytes 64 5) (be_bytes 64 7) true). by rewrite !length_be_bytes.
Defined.

(** ** On encoded numbers *)

Lemma be_bytes_be_val l : be_bytes (length l) (be_val l) = l.
Proof.
  induction l as [|b l IH]; [done|]. cbn [length be_bytes]. rewrite be_val_cons.
  pose proof (be_val_range l) as Hr. set (P := 256 ^ Z.of_nat (length l)) in *.
  f_equal.
  - rewrite Z.div_add_l, Z.div_small, Z.add_0_r by lia. apply byte_of_val.
  - assert (∀ n z k, be_bytes n (k * 256 ^ Z.of_nat n + z) = be_bytes n z) as Hshift.
    { clear. induction n as [|n IH]; intros z k; [done|]. cbn [be_bytes].
      rewrite Nat2Z.inj_succ, Z.pow_succ_r by lia.
      replace (k * (256 * 256 ^ Z.of_nat n) + z) with ((k * 256) * 256 ^ Z.of_nat n + z) by lia.
      rewrite IH. f_equal. apply byte_val_inj. rewrite !byte_val_of, Z.div_add_l by lia.
      by rewrite Z.add_comm, Z.mod_add by lia. }
    etransitivity; [apply Hshift|exact IH].
Qed.

Lemma be_bytes_eq n l z :
  length l = n → be_val l = z mod 256 ^ Z.of_nat n → l = be_bytes n z.
Proof. intros <- H. rewrite <-be_bytes_mod, <-H. symmetry. apply be_bytes_be_val. Qed.

Lemma add_be_bytes n a b subtract :
  add (be_bytes n a) (be_bytes n b) subtract = be_bytes n (if subtract then a - b else a + b).
Proof.
  assert (length (be_bytes n a) = length (be_bytes n b)) as Hl by (by rewrite !length_be_bytes).
  apply be_bytes_eq; [by rewrite add_length, length_be_bytes|].
  pose proof (add_bytes_spec subtract (if subtract then 1 else 0) (reverse (be_bytes n a))
    (reverse (be_bytes n b))) as [_ Hv]; [by rewrite !length_reverse|].
  unfold add. rewrite be_val_reverse, Hv, length_reverse, length_be_bytes, <-!be_val_reverse, !reverse_involutive,
    !be_val_be_bytes. clear Hv Hl.
  set (P := 256 ^ Z.of_nat n). assert (0 < P) by (unfold P; apply Z.pow_pos_nonneg; lia).
  destruct subtract.
  - replace (1 + a mod P + (P - 1 - b mod P)) with (a mod P - b mod P + 1 * P) by lia.
    rewrite Z.mod_add by lia. by rewrite Zminus_mod_idemp_l, Zminus_mod_idemp_r.
  - rewrite Z.add_0_l. by rewrite <-Z.add_mod by lia.
Qed.
