(* ===== verification/ClaimRanges.v ===== *)
(** * Range digests over retained claims
    (crates/smallclaims/src/store/claim_ranges.rs and the range types of
    replication.rs)

    Two members compare the claims they retain by counts and digest sums of
    ranges of claim ids.  Triggers queue every insert and delete; a background
    job folds the queue, and the claims older than the triggers, into the
    digests page by page.  The tables are the record [RangeDb].  SHA-512 (the
    package [sha2]) and [hex::encode] are parameters. *)

From S2P Require Import Prelude BTree DigestSum.

Local Open Scope string_scope.
Local Open Scope claims_scope.

Definition TOP_RANGES : Z := 64%Z.
Definition LEAF_RANGES : Z := 4096%Z.
Definition LEAVES_PER_TOP : Z := 64%Z.
Definition PAGE : nat := Z.to_nat 4096.

(** ** Claim ids and their ranges *)

Definition hex_digit (b : ascii) : option Z :=
  let v := byte_val b in
  if ((48 <=? v) && (v <=? 57))%Z then Some (v - 48)%Z
  else if ((97 <=? v) && (v <=? 102))%Z then Some (v - 87)%Z
  else None.

(** [leaf] *)
Definition regular (i : string) : bool :=
  Nat.eqb (length (bytes_of i)) 64 && forallb (λ b, bool_decide (is_Some (hex_digit b))) (bytes_of i).
Definition leaf (i : string) : Z :=
  if regular i then
    foldl (λ acc b, acc * 16 + default 0 (hex_digit b))%Z 0%Z (firstn 3 (bytes_of i))
  else LEAF_RANGES.

(** The two ranges of an id, as keys of [claim_range_digests]: level and range. *)
Definition range_keys (i : string) : list (Z * Z) :=
  [(1, leaf i / LEAVES_PER_TOP); (2, leaf i)]%Z.

(** ** Tables *)

Record RangeDb := {
  rd_claims : list (Z * string);                       (* claims: store_index, id *)
  rd_next_index : Z;                                   (* AUTOINCREMENT *)
  rd_digests : BTreeMap (Z * Z) (Z * list ascii);      (* claim_range_digests *)
  rd_import : option (Z * Z);                          (* claim_range_import: cursor, bound *)
  rd_pending : list (Z * (string * Z))                 (* claim_range_pending: change, id, sign *)
}.

Definition zeros : list ascii := be_bytes 64 0.

(** [install] over the claims that predate the triggers. *)
Definition install (claims : list (Z * string)) (next_index : Z) : RangeDb :=
  {| rd_claims := claims; rd_next_index := next_index; rd_digests := [];
     rd_import := (λ c, (0%Z, c.1)) <$> last claims; rd_pending := [] |}.

Definition next_change (pending : list (Z * (string * Z))) : Z :=
  match last pending with Some (change, _) => (change + 1)%Z | None => 1%Z end.

Definition queue_change (db : RangeDb) (i : string) (sign : Z) : RangeDb :=
  {| rd_claims := rd_claims db; rd_next_index := rd_next_index db; rd_digests := rd_digests db;
     rd_import := rd_import db;
     rd_pending := (rd_pending db ++ [(next_change (rd_pending db), (i, sign))])%list |}.

Definition with_claims (db : RangeDb) (claims : list (Z * string)) (next_index : Z) : RangeDb :=
  {| rd_claims := claims; rd_next_index := next_index; rd_digests := rd_digests db;
     rd_import := rd_import db; rd_pending := rd_pending db |}.

(** An insert into [claims], with its trigger; a stored id is not inserted again. *)
Definition insert_claim (db : RangeDb) (i : string) : RangeDb :=
  if bool_decide (i ∈ (rd_claims db).*2) then db
  else queue_change (with_claims db (rd_claims db ++ [(rd_next_index db, i)])%list (rd_next_index db + 1)) i 1.

(** Whether the import has yet to reach an index: the trigger's condition. *)
Definition awaiting (import : option (Z * Z)) (index : Z) : bool :=
  match import with
  | Some (cursor, bound) => ((cursor <? index) && (index <=? bound))%Z
  | None => false
  end.

(** A delete from [claims], with its trigger. *)
Definition delete_claim (db : RangeDb) (i : string) : RangeDb :=
  match List.find (λ c, String.eqb c.2 i) (rd_claims db) with
  | None => db
  | Some (index, _) =>
      let db' := with_claims db (List.filter (λ c, negb (String.eqb c.2 i)) (rd_claims db)) (rd_next_index db) in
      if awaiting (rd_import db) index then db' else queue_change db' i (-1)
  end.

(** [complete] *)
Definition complete (db : RangeDb) : bool :=
  bool_decide (rd_import db = None) && bool_decide (rd_pending db = []).

(** ** Folding *)

Definition Delta : Type := BTreeMap (Z * Z) (Z * list ascii).

Section folding.
Variable sha512 : list ascii → list ascii.

(** [member_hash] in the namespace of retained claims, which is 0. *)
Definition member_hash (i : string) : list ascii :=
  sha512 (bytes_of "st3-claim-range-v1" ++ [byte_of 0] ++ be_bytes 8 0 ++ be_bytes 8 (len i) ++ bytes_of i)%list.

(** [Delta::change] *)
Definition delta_add (d : Delta) (key : Z * Z) (hash : list ascii) (sign : Z) : Delta :=
  bmap_entry key (0%Z, zeros) (λ '(count, sum), ((count + sign)%Z, add sum hash (sign <? 0)%Z)) d.
Definition delta_change (d : Delta) (i : string) (sign : Z) : Delta :=
  foldl (λ d key, delta_add d key (member_hash i) sign) d (range_keys i).
Definition delta_of (changes : list (string * Z)) : Delta :=
  foldl (λ d '(i, sign), delta_change d i sign) [] changes.

(** [Delta::apply] *)
Fixpoint apply_delta (digests : BTreeMap (Z * Z) (Z * list ascii)) (delta : Delta)
    : result (BTreeMap (Z * Z) (Z * list ascii)) string :=
  match delta with
  | [] => Ok digests
  | ((level, range) as key, (change, sum)) :: rest =>
      let '(count, accumulator) := default (0%Z, zeros) (bmap_get key digests) in
      let count := (count + change)%Z in
      if (count <? 0)%Z then 
        Err ("claim range " +:+ decimal level +:+ "/" +:+ decimal range +:+ " would hold -"
             +:+ decimal (- count) +:+ " claims")
      else
        let accumulator := add accumulator sum false in
        apply_delta (if (count =? 0)%Z then bmap_remove key digests
                     else bmap_insert key (count, accumulator) digests) rest
  end.

(** [fold_page]: the tables after one page, how many changes it folded, and
    whether nothing was left to do. *)
Definition fold_page (db : RangeDb) : result (RangeDb * (nat * bool)) string :=
  let page := firstn PAGE (rd_pending db) in
  match last page with
  | Some (through, _) =>
      let? digests := apply_delta (rd_digests db) (delta_of page.*2) in
      Ok ({| rd_claims := rd_claims db; rd_next_index := rd_next_index db; rd_digests := digests;
             rd_import := rd_import db;
             rd_pending := List.filter (λ p, negb (p.1 <=? through)%Z) (rd_pending db) |},
          (length page, false))
  | None =>
      match rd_import db with
      | None => Ok (db, (0%nat, true))
      | Some (cursor, bound) =>
          let claims := firstn PAGE (List.filter (λ c, ((cursor <? c.1) && (c.1 <=? bound))%Z) (rd_claims db)) in
          let? digests := apply_delta (rd_digests db) (delta_of ((λ c, (c.2, 1%Z)) <$> claims)) in
          let import :=
            match last claims with
            | Some (through, _) => if (through <? bound)%Z then Some (through, bound) else None
            | None => None
            end in
          Ok ({| rd_claims := rd_claims db; rd_next_index := rd_next_index db; rd_digests := digests;
                 rd_import := import; rd_pending := rd_pending db |},
              (length claims, false))
      end
  end.

(** [fold_claim_ranges_paced], at most [fuel] pages: [None] when they are not
    enough. *)
Fixpoint fold_paced (fuel : nat) (db : RangeDb) : option (result RangeDb string) :=
  match fuel with
  | O => None
  | S fuel' =>
      match fold_page db with
      | Err e => Some (Err e)
      | Ok (db', (_, true)) => Some (Ok db')
      | Ok (db', (_, false)) => fold_paced fuel' db'
      end
  end.

(** ** Reading *)

Record ClaimRange := {
  cr_range : Z;
  cr_count : Z;
  cr_digest : list ascii
}.

(** [read_ranges], [tops], [leaves] and [whole] *)
Definition read_ranges (db : RangeDb) (level from to : Z) : list ClaimRange :=
  (λ '((_, range), (count, digest)), {| cr_range := range; cr_count := count; cr_digest := digest |}) <$>
    List.filter (λ '((l, r), _), ((l =? level) && (from <=? r) && (r <? to))%Z) (rd_digests db).
Definition tops (db : RangeDb) : list ClaimRange := read_ranges db 1 0 (TOP_RANGES + 1).
Definition leaves (db : RangeDb) (top : Z) : list ClaimRange :=
  read_ranges db 2 (top * LEAVES_PER_TOP) ((top + 1) * LEAVES_PER_TOP).
Definition whole (db : RangeDb) : Z * list ascii :=
  foldl (λ '(count, digest) t, ((count + cr_count t)%Z, add digest (cr_digest t) false))
    (0%Z, zeros) (tops db).

(** [format!("{leaf:03x}")] *)
Definition hex_char (n : Z) : ascii := byte_of (if (n <? 10)%Z then 48 + n else 87 + n).
Definition hex3 (n : Z) : string :=
  string_of [hex_char (n / 256 mod 16); hex_char (n / 16 mod 16); hex_char (n mod 16)]%Z.

(** [ids_in_leaf] *)
Definition ids_in_leaf (db : RangeDb) (l : Z) : list string :=
  let ids := sort_on id (rd_claims db).*2 in
  let ids :=
    if (LEAF_RANGES <=? l)%Z then ids
    else
      let to := if (l + 1 =? LEAF_RANGES)%Z then "g" else hex3 (l + 1) in
      List.filter (λ i, match cmp i (hex3 l) with Lt => false | _ => true end
                        && match cmp i to with Lt => true | _ => false end) ids in
  List.filter (λ i, (leaf i =? l)%Z) ids.
End folding.

(** ** What the digests of a set of claims are *)

Lemma leaf_range i : (0 <= leaf i <= LEAF_RANGES)%Z.
Proof.
  unfold leaf, regular. destruct (Nat.eqb _ _ && _) eqn:E; [|unfold LEAF_RANGES; lia].
  apply andb_true_iff in E as [_ Hall]. rewrite forallb_elem_of in Hall.
  assert (∀ b, b ∈ bytes_of i → (0 <= default 0 (hex_digit b) <= 15)%Z) as Hd.
  { intros b Hb%Hall. bool_prop. destruct Hb as [d Hd]. rewrite Hd. cbn. unfold hex_digit in Hd.
    destruct ((48 <=? byte_val b) && (byte_val b <=? 57))%Z eqn:E1; [injection Hd as <-; bool_prop; lia|].
    destruct ((97 <=? byte_val b) && (byte_val b <=? 102))%Z eqn:E2; [|done]. injection Hd as <-. bool_prop. lia. }
  unfold LEAF_RANGES. destruct (bytes_of i) as [|a [|b [|c l]]]; cbn [take foldl]; [lia|..].
  - pose proof (Hd a ltac:(set_solver)). lia.
  - pose proof (Hd a ltac:(set_solver)). pose proof (Hd b ltac:(set_solver)). lia.
  - pose proof (Hd a ltac:(set_solver)). pose proof (Hd b ltac:(set_solver)).
    pose proof (Hd c ltac:(set_solver)). rewrite take_0. cbn [foldl]. lia.
Qed.

Definition covers (key : Z * Z) (i : string) : bool :=
  bool_decide (key ∈ range_keys i).
Definition covered (key : Z * Z) (ids : list string) : list string := List.filter (covers key) ids.

(** Lists of signed changes: their count and weighted sum in one range. *)
Definition signed_sum (w : string → Z) (key : Z * Z) (changes : list (string * Z)) : Z :=
  foldr (λ '(i, sign) acc, (if covers key i then sign * w i else 0) + acc)%Z 0%Z changes.
Definition sum_of (w : string → Z) (ids : list string) : Z := foldr (λ i acc, w i + acc)%Z 0%Z ids.

Lemma sum_of_perm w ids ids' : ids ≡ₚ ids' → sum_of w ids = sum_of w ids'.
Proof. unfold sum_of. induction 1; cbn in *; lia. Qed.

#[export] Instance sum_of_proper w : Proper ((≡ₚ) ==> (=)) (sum_of w).
Proof. intros ids ids'. apply sum_of_perm. Qed.

Lemma covered_perm key ids ids' : ids ≡ₚ ids' → covered key ids ≡ₚ covered key ids'.
Proof.
  unfold covered. induction 1 as [|x l l' _ IH|x y l|l l' l'' _ IH _ IH']; cbn.
  - done.
  - destruct (covers key x); [by constructor|done].
  - destruct (covers key x), (covers key y); try done; constructor.
  - by transitivity (List.filter (covers key) l').
Qed.

Lemma sum_of_one ids : sum_of (λ _, 1%Z) ids = Z.of_nat (length ids).
Proof. unfold sum_of. induction ids as [|i ids IH]; cbn [foldr length]; lia. Qed.

(** Replaying queued changes over a collection of ids; a removal of an absent
    id has no meaning. *)
Fixpoint remove_one (i : string) (ids : list string) : list string :=
  match ids with
  | [] => []
  | j :: ids' => if String.eqb i j then ids' else j :: remove_one i ids'
  end.
Fixpoint replay (ids : list string) (changes : list (string * Z)) : option (list string) :=
  match changes with
  | [] => Some ids
  | (i, sign) :: rest =>
      if (sign =? 1)%Z then replay (i :: ids) rest
      else if (sign =? -1)%Z && bool_decide (i ∈ ids) then replay (remove_one i ids) rest
      else None
  end.

Lemma remove_one_perm i ids : i ∈ ids → ids ≡ₚ i :: remove_one i ids.
Proof.
  induction ids as [|j ids IH]; cbn; [set_solver|]. intros Hi.
  destruct (String.eqb_spec i j) as [->|Hne]; [done|].
  apply elem_of_cons in Hi as [->|Hi]; [done|]. rewrite (IH Hi) at 1. constructor.
Qed.

Lemma replay_app ids l l' ids' :
  replay ids (l ++ l') = Some ids' ↔ ∃ ids1, replay ids l = Some ids1 ∧ replay ids1 l' = Some ids'.
Proof.
  revert ids. induction l as [|[i sign] l IH]; intros ids; cbn; [naive_solver|].
  destruct (sign =? 1)%Z; [apply IH|]. destruct (_ && _); [apply IH|]. naive_solver.
Qed.

Lemma replay_adds ids l : replay ids ((λ i, (i, 1%Z)) <$> l) = Some (reverse l ++ ids)%list.
Proof.
  revert ids. induction l as [|i l IH]; intros ids; [done|].
  change (replay ids ((λ i, (i, 1%Z)) <$> i :: l)) with (replay (i :: ids) ((λ i, (i, 1%Z)) <$> l)).
  by rewrite IH, reverse_cons, <-app_assoc.
Qed.

Lemma signed_sum_cons w key i sign l :
  signed_sum w key ((i, sign) :: l) = ((if covers key i then sign * w i else 0) + signed_sum w key l)%Z.
Proof. done. Qed.

Lemma sum_covered_cons w key i ids :
  sum_of w (covered key (i :: ids)) = ((if covers key i then w i else 0) + sum_of w (covered key ids))%Z.
Proof. unfold covered. cbn. by destruct (covers key i). Qed.

Lemma replay_sum w key ids l ids' :
  replay ids l = Some ids' →
  sum_of w (covered key ids') = (sum_of w (covered key ids) + signed_sum w key l)%Z.
Proof.
  revert ids. induction l as [|[i sign] l IH]; intros ids; cbn [replay].
  - intros [= <-]. cbn. lia.
  - rewrite signed_sum_cons. destruct (Z.eqb_spec sign 1) as [->|].
    + intros H%IH. rewrite H, sum_covered_cons. destruct (covers key i); lia.
    + destruct (Z.eqb_spec sign (-1)) as [->|]; [|done]. cbn [andb].
      destruct (bool_decide (i ∈ ids)) eqn:E; [|done]. bool_prop. intros H%IH. rewrite H.
      rewrite (sum_of_perm w _ _ (covered_perm key _ _ (remove_one_perm i ids E))), sum_covered_cons.
      destruct (covers key i); lia.
Qed.

Section exact.
Context (sha512 : list ascii → list ascii).
Hypothesis sha512_length : ∀ b, length (sha512 b) = 64%nat.

Definition weight (i : string) : Z := be_val (member_hash sha512 i).

Lemma member_hash_weight i : member_hash sha512 i = be_bytes 64 (weight i).
Proof.
  unfold weight. rewrite <-(be_bytes_be_val (member_hash sha512 i)) at 1. f_equal. apply sha512_length.
Qed.

(** The row of a range: its population and sum, absent when empty. *)
Definition row (count sum : Z) : option (Z * list ascii) :=
  if (count =? 0)%Z then None else Some (count, be_bytes 64 sum).
Definition range_row (key : Z * Z) (ids : list string) : option (Z * list ascii) :=
  row (Z.of_nat (length (covered key ids))) (sum_of weight (covered key ids)).

Definition exact (digests : BTreeMap (Z * Z) (Z * list ascii)) (ids : list string) : Prop :=
  bmap_wf digests ∧ ∀ key, bmap_get key digests = range_row key ids.

Lemma range_row_perm key ids ids' : ids ≡ₚ ids' → range_row key ids = range_row key ids'.
Proof.
  intros Hp%(covered_perm key). unfold range_row. by rewrite Hp.
Qed.

Lemma exact_perm d ids ids' : ids ≡ₚ ids' → exact d ids → exact d ids'.
Proof. intros Hp [Hwf He]. split; [done|]. intros key. rewrite He. by apply range_row_perm. Qed.

(** *** The delta of a page *)

Definition touches (key : Z * Z) (changes : list (string * Z)) : bool := existsb (λ c, covers key c.1) changes.

Lemma delta_add_get d key key' hash sign :
  bmap_get key (delta_add d key' hash sign) =
  if bool_decide (key = key') then
    let '(c, s) := default (0%Z, zeros) (bmap_get key d) in Some ((c + sign)%Z, add s hash (sign <? 0)%Z)
  else bmap_get key d.
Proof.
  unfold delta_add. case_bool_decide as Hk.
  - subst. rewrite bmap_get_entry. by destruct (default _ _).
  - by rewrite bmap_get_entry_ne.
Qed.

Lemma delta_change_get d i sign key :
  bmap_get key (delta_change sha512 d i sign) =
  if covers key i then
    let '(c, s) := default (0%Z, zeros) (bmap_get key d) in
    Some ((c + sign)%Z, add s (member_hash sha512 i) (sign <? 0)%Z)
  else bmap_get key d.
Proof.
  unfold delta_change, range_keys, covers. cbn [foldl]. rewrite !delta_add_get.
  assert (key ∈ range_keys i ↔ key = (1, leaf i / LEAVES_PER_TOP)%Z ∨ key = (2, leaf i)%Z) as Hk
    by (unfold range_keys; set_solver).
  repeat case_bool_decide; subst; try done; try tauto.
Qed.

Lemma delta_of_snoc l i sign :
  delta_of sha512 (l ++ [(i, sign)]) = delta_change sha512 (delta_of sha512 l) i sign.
Proof. unfold delta_of. by rewrite foldl_snoc. Qed.

Lemma signed_sum_app w key l l' :
  signed_sum w key (l ++ l') = (signed_sum w key l + signed_sum w key l')%Z.
Proof. unfold signed_sum. induction l as [|[i s] l IH]; cbn; [done|]. rewrite IH. lia. Qed.

Lemma delta_of_get l key :
  (∀ c, c ∈ l → c.2 = 1%Z ∨ c.2 = (-1)%Z) →
  bmap_get key (delta_of sha512 l) =
  if touches key l
  then Some (signed_sum (λ _, 1%Z) key l, be_bytes 64 (signed_sum weight key l)) else None.
Proof.
  induction l as [|[i sign] l IH] using rev_ind; intros Hs; [done|].
  rewrite delta_of_snoc, delta_change_get. unfold touches. rewrite existsb_app. cbn [existsb fst].
  rewrite orb_false_r. fold (touches key l). rewrite !signed_sum_app, !signed_sum_cons.
  rewrite IH by (intros c Hc; apply Hs; set_solver). cbn [signed_sum foldr].
  destruct (covers key i); [|rewrite !Z.add_0_r, orb_false_r; done]. rewrite orb_true_r.
  assert (touches key l = false → ∀ w, signed_sum w key l = 0%Z) as Hz.
  { clear. induction l as [|[j s] l IH]; cbn; [done|]. intros [-> H]%orb_false_iff w. cbn. by apply IH. }
  assert (∀ a, add (be_bytes 64 a) (member_hash sha512 i) (sign <? 0)%Z = be_bytes 64 (a + sign * weight i)) as Hadd.
  { intros a. rewrite member_hash_weight, add_be_bytes.
    destruct (Hs (i, sign)) as [E|E]; [set_solver| |]; cbn in E; subst sign; f_equal;
      cbn [Z.ltb Z.compare]; lia. }
  destruct (touches key l); cbn [default from_option id].
  - rewrite Hadd. f_equal. f_equal; [lia|f_equal; lia].
  - unfold zeros. rewrite Hadd, !Hz by done. f_equal. f_equal; [lia|f_equal; lia].
Qed.

Lemma delta_of_wf l : bmap_wf (delta_of sha512 l).
Proof.
  induction l as [|[i sign] l IH] using rev_ind; [constructor|]. rewrite delta_of_snoc.
  unfold delta_change. cbn. unfold delta_add. do 2 apply bmap_entry_wf. done.
Qed.
(** *** Applying a delta *)

Definition updated (old : option (Z * list ascii)) (change : option (Z * list ascii))
    : option (Z * list ascii) :=
  match change with
  | None => old
  | Some (c, sum) =>
      let '(count, acc) := default (0%Z, zeros) old in
      if (count + c =? 0)%Z then None else Some ((count + c)%Z, add acc sum false)
  end.

Lemma apply_delta_ok digests delta :
  bmap_wf digests → NoDup (bmap_keys delta) →
  (∀ key c sum, (key, (c, sum)) ∈ delta → (0 <= (default (0, zeros) (bmap_get key digests)).1 + c)%Z) →
  ∃ digests', apply_delta digests delta = Ok digests' ∧ bmap_wf digests' ∧
    ∀ key, bmap_get key digests' = updated (bmap_get key digests) (bmap_get key delta).
Proof.
  revert digests. induction delta as [|[[level range] [c sum]] delta IH]; intros digests Hwf Hnd Hpos.
  { exists digests. done. }
  cbn in Hnd. apply NoDup_cons in Hnd as [Hn Hnd]. set (key := (level, range)) in *.
  cbn [apply_delta]. fold key.
  pose proof (Hpos key c sum ltac:(left)) as Hc.
  destruct (default (0%Z, zeros) (bmap_get key digests)) as [count acc] eqn:Ed. cbn [fst] in Hc.
  destruct (Z.ltb_spec (count + c) 0); [lia|].
  set (digests1 := if (count + c =? 0)%Z then bmap_remove key digests
                   else bmap_insert key ((count + c)%Z, add acc sum false) digests).
  assert (∀ key', bmap_get key' digests1 = if eqb_ord key' key then
    (if (count + c =? 0)%Z then None else Some ((count + c)%Z, add acc sum false))
    else bmap_get key' digests) as Hget.
  { intros key'. unfold digests1. destruct (count + c =? 0)%Z; [apply bmap_get_remove|].
    destruct (eqb_ord_spec key' key) as [->|]; [apply bmap_get_insert|by apply bmap_get_insert_ne]. }
  assert (∀ key', key' ∈ bmap_keys delta → eqb_ord key' key = false) as Hne.
  { intros key' Hin. apply eqb_ord_ne. by intros ->. }
  destruct (IH digests1) as (d' & Ha & Hwf' & Hd').
  - unfold digests1. destruct (count + c =? 0)%Z; [by apply bmap_remove_wf|by apply bmap_insert_wf].
  - done.
  - intros key' c' sum' Hin. rewrite Hget, Hne by (apply list_elem_of_fmap; by eexists (_, (_, _))).
    apply (Hpos key' c' sum'). by right.
  - exists d'. split_and!; [done..|]. intros key'. rewrite Hd', Hget. cbn [bmap_get].
    destruct (eqb_ord_spec key' key) as [->|Hk]; [|done].
    assert (bmap_get key delta = None) as ->.
    { apply eq_None_not_Some. by rewrite <-elem_of_bmap_keys. }
    unfold updated. by rewrite Ed.
Qed.

(** Folding queued changes that make sense over the digests of a
    collection of claims gives the digests of the changed collection. *)
Lemma apply_delta_exact digests ids changes ids' :
  exact digests ids → replay ids changes = Some ids' →
  ∃ digests', apply_delta digests (delta_of sha512 changes) = Ok digests' ∧ exact digests' ids'.
Proof.
  intros [Hwf He] Hr.
  assert (∀ c, c ∈ changes → c.2 = 1%Z ∨ c.2 = (-1)%Z) as Hsign.
  { clear -Hr. revert ids Hr. induction changes as [|[i s] l IH]; intros ids Hr c Hc; [set_solver|].
    cbn in Hr. destruct (Z.eqb_spec s 1) as [->|].
    - apply elem_of_cons in Hc as [->|Hc]; [by left|by eapply IH].
    - destruct (Z.eqb_spec s (-1)) as [->|]; [|done]. cbn in Hr. destruct (bool_decide _); [|done].
      apply elem_of_cons in Hc as [->|Hc]; [by right|by eapply IH]. }
  pose proof (λ key, delta_of_get changes key Hsign) as Hdelta.
  pose proof (λ key, replay_sum (λ _, 1%Z) key _ _ _ Hr) as Hcount.
  pose proof (λ key, replay_sum weight key _ _ _ Hr) as Hsum.
  setoid_rewrite sum_of_one in Hcount.
  assert (∀ key, (default (0%Z, zeros) (bmap_get key digests)).1 = Z.of_nat (length (covered key ids))) as Hold.
  { intros key. rewrite He. unfold range_row, row. destruct (Z.eqb_spec (Z.of_nat (length (covered key ids))) 0); cbn; lia. }
  destruct (apply_delta_ok digests (delta_of sha512 changes)) as (d' & Ha & Hwf' & Hd').
  - done.
  - apply bset_wf_NoDup, delta_of_wf.
  - intros key c sum Hin%elem_of_bmap_get; [|apply delta_of_wf]. rewrite Hdelta in Hin.
    destruct (touches key changes); [|done]. injection Hin as <- _. rewrite Hold, <-Hcount. lia.
  - exists d'. split; [done|]. split; [done|]. intros key. rewrite Hd', Hdelta, He.
    destruct (touches key changes) eqn:Et.
    + unfold updated, range_row. rewrite Hcount, Hsum. unfold row at 1.
      destruct (Z.eqb_spec (Z.of_nat (length (covered key ids))) 0) as [E|E].
      * cbn [default from_option id]. rewrite E. unfold row.
        assert (covered key ids = []) as -> by (apply length_zero_iff_nil; lia).
        destruct (_ =? 0)%Z; [done|]. unfold zeros. by rewrite add_be_bytes.
      * cbn [default from_option id]. unfold row. destruct (_ =? 0)%Z; [done|]. by rewrite add_be_bytes.
    + assert (∀ w, signed_sum w key changes = 0%Z) as Hz.
      { clear -Et. revert Et. induction changes as [|[i s] l IH]; cbn; [done|].
        intros [-> H]%orb_false_iff w. cbn. by apply IH. }
      unfold updated, range_row. by rewrite Hcount, Hsum, !Hz, !Z.add_0_r.
Qed.
(** ** The invariant of the tables *)

Definition awaiting_ids (db : RangeDb) : list (Z * string) :=
  List.filter (λ c, awaiting (rd_import db) c.1) (rd_claims db).
Definition tracked (db : RangeDb) : list string :=
  (List.filter (λ c, negb (awaiting (rd_import db) c.1)) (rd_claims db)).*2.

(** The digests are exact for some past collection of claims, which the queued
    changes turn into the claims the import has passed. *)
Definition cr_inv (db : RangeDb) : Prop :=
  StronglySorted Z.lt (rd_claims db).*1 ∧ NoDup (rd_claims db).*2 ∧
  (∀ c, c ∈ rd_claims db → (c.1 < rd_next_index db)%Z) ∧
  (∀ cursor bound, rd_import db = Some (cursor, bound) → (bound < rd_next_index db)%Z) ∧
  StronglySorted Z.lt (rd_pending db).*1 ∧
  ∃ folded now, exact (rd_digests db) folded ∧
    replay folded (rd_pending db).*2 = Some now ∧ now ≡ₚ tracked db.

Lemma filter_partition {A} (p q r : A → bool) (l : list A) :
  (∀ x, x ∈ l → p x = xorb (q x) (r x) ∧ (q x && r x) = false) →
  List.filter p l ≡ₚ List.filter q l ++ List.filter r l.
Proof.
  induction l as [|x l IH]; intros H; [done|].
  destruct (H x) as [Hp Hqr]; [left|]. specialize (IH (λ y Hy, H y (list_elem_of_further _ _ _ Hy))).
  cbn. rewrite Hp. destruct (q x), (r x); cbn in *; try done.
  - by rewrite IH.
  - by rewrite IH, Permutation_middle.
Qed.

Lemma sorted_page {A} (key : A → Z) (l : list A) n x :
  StronglySorted Z.lt (key <$> l) → last (firstn n l) = Some x →
  firstn n l = List.filter (λ y, (key y <=? key x)%Z) l ∧
  skipn n l = List.filter (λ y, negb (key y <=? key x)%Z) l.
Proof.
  revert n. induction l as [|a l IH]; intros n Hs Hl; [by rewrite take_nil in Hl|].
  destruct n as [|n]; [done|]. cbn in Hs. apply StronglySorted_cons in Hs as [Hall Hs].
  rewrite Forall_forall in Hall. cbn [List.filter].
  change (take (S n) (a :: l)) with (a :: take n l) in *. change (drop (S n) (a :: l)) with (drop n l).
  destruct (take n l) as [|b page] eqn:Ep.
  - injection Hl as ->. rewrite Z.leb_refl.
    assert (∀ y, y ∈ l → (key y <=? key x)%Z = false) as Hgt.
    { intros y Hy. apply Z.leb_gt, Hall, list_elem_of_fmap. by exists y. }
    assert (List.filter (λ y, (key y <=? key x)%Z) l = [] ∧
            List.filter (λ y, negb (key y <=? key x)%Z) l = l) as [-> ->].
    { clear -Hgt. induction l as [|y l IH]; [done|]. cbn. rewrite (Hgt y) by left. cbn.
      destruct IH as [-> ->]; [|done]. intros z Hz. apply Hgt. by right. }
    split; [done|]. cbn [negb]. destruct n; [done|]. destruct l; done.
  - assert (last (firstn n l) = Some x) as Hl'.
    { by rewrite Ep. }
    destruct (IH n Hs Hl') as [Ht Hd].
    assert (key a < key x)%Z.
    { apply Hall, list_elem_of_fmap. exists x. split; [done|].
      apply last_Some_elem_of in Hl'. by apply elem_of_take in Hl' as (k & ?%list_elem_of_lookup_2 & _). }
    replace (key a <=? key x)%Z with true by (symmetry; apply Z.leb_le; lia). cbn [negb].
    by rewrite <-Ht, <-Hd, Ep.
Qed.

Lemma take_page_nil {A} (l : list A) : last (firstn PAGE l) = None → l = [].
Proof.
  intros Hl%last_None. destruct l as [|x l]; [done|].
  assert (PAGE = S (Nat.pred PAGE)) as E by reflexivity. rewrite E in Hl. done.
Qed.
(** *** Claims come and go *)

Lemma next_change_fresh pending :
  StronglySorted Z.lt pending.*1 → ∀ p, p ∈ pending → (p.1 < next_change pending)%Z.
Proof.
  unfold next_change. intros Hs p Hp. destruct (last pending) as [[c x]|] eqn:El; [|apply last_None in El; subst; set_solver].
  apply last_Some in El as [l ->]. rewrite fmap_app in Hs. cbn in Hs.
  apply elem_of_app in Hp as [Hp| ->%list_elem_of_singleton]; [|cbn; lia].
  cut (p.1 < c)%Z; [lia|]. eapply (StronglySorted_app_1_elem_of Z.lt l.*1 [c]); [done| |left].
  apply list_elem_of_fmap. by exists p.
Qed.

Lemma sorted_snoc {A} (key : A → Z) (l : list A) x :
  StronglySorted Z.lt (key <$> l) → (∀ y, y ∈ l → (key y < key x)%Z) →
  StronglySorted Z.lt (key <$> (l ++ [x])%list).
Proof.
  intros Hs Hx. rewrite fmap_app. apply StronglySorted_app_2; [|done|repeat constructor].
  intros a b (y & -> & Hy)%list_elem_of_fmap ->%list_elem_of_singleton. by apply Hx.
Qed.

Lemma queue_change_inv_part db i sign :
  StronglySorted Z.lt (rd_pending db).*1 →
  StronglySorted Z.lt (rd_pending (queue_change db i sign)).*1 ∧
  (rd_pending (queue_change db i sign)).*2 = ((rd_pending db).*2 ++ [(i, sign)])%list.
Proof.
  intros Hs. cbn. split; [|by rewrite fmap_app]. apply (sorted_snoc fst); [done|]. by apply next_change_fresh.
Qed.

Lemma insert_claim_inv db i : cr_inv db → cr_inv (insert_claim db i).
Proof.
  intros (Hs & Hnd & Hi & Hb & Hp & folded & now & He & Hr & Hperm). unfold insert_claim.
  case_bool_decide as Hin; [by split_and!; try done; exists folded, now|].
  set (db1 := with_claims db _ _).
  destruct (queue_change_inv_part db1 i 1 Hp) as [Hp' Hpe]. split_and!.
  - cbn. apply (sorted_snoc fst); done.
  - cbn. rewrite fmap_app. apply NoDup_app. split_and!; [done|set_solver|]. apply NoDup_singleton.
  - intros c [Hc| ->%list_elem_of_singleton]%elem_of_app; cbn; [apply Hi in Hc; lia|lia].
  - intros c b E. apply Hb in E. cbn. lia.
  - done.
  - exists folded, (i :: now). split_and!; [done| |].
    + rewrite Hpe. apply replay_app. by exists now.
    + unfold tracked. cbn. rewrite List.filter_app, fmap_app. cbn.
      assert (awaiting (rd_import db) (rd_next_index db) = false) as ->.
      { unfold awaiting. destruct (rd_import db) as [[c b]|] eqn:E; [|done]. specialize (Hb c b eq_refl).
        apply andb_false_intro2, Z.leb_gt. lia. }
      cbn. rewrite Hperm. unfold tracked. by rewrite Permutation_app_comm.
Qed.

Lemma filter_remove_perm (p : Z * string → bool) (l : list (Z * string)) index i :
  NoDup l.*2 → (index, i) ∈ l →
  (List.filter p l).*2 ≡ₚ ((if p (index, i) then [i] else []) ++
    (List.filter p (List.filter (λ c, negb (String.eqb c.2 i)) l)).*2)%list.
Proof.
  induction l as [|[x j] l IH]; [set_solver|]. cbn. intros [Hj Hnd]%NoDup_cons Hin.
  apply elem_of_cons in Hin as [[= -> ->]|Hin].
  - rewrite String.eqb_refl. cbn.
    assert (List.filter (λ c, negb (String.eqb c.2 j)) l = l) as ->.
    { clear -Hj. induction l as [|[y k] l IH]; [done|]. cbn in *. apply not_elem_of_cons in Hj as [Hne Hj].
      destruct (String.eqb_spec k j); [congruence|]. cbn. by rewrite IH. }
    by destruct (p (x, j)).
  - destruct (String.eqb_spec j i) as [->|Hne]; cbn.
    { exfalso. apply Hj, list_elem_of_fmap. by exists (index, i). }
    specialize (IH Hnd Hin). destruct (p (x, j)); cbn; rewrite IH; [|done].
    destruct (p (index, i)); cbn; [|done]. constructor.
Qed.

Lemma filter_sorted {A} (key : A → Z) (p : A → bool) (l : list A) :
  StronglySorted Z.lt (key <$> l) → StronglySorted Z.lt (key <$> List.filter p l).
Proof.
  induction l as [|x l IH]; cbn; [done|]. intros [Hall Hs]%StronglySorted_cons.
  destruct (p x); [|by apply IH]. constructor; [by apply IH|]. rewrite Forall_forall in Hall |- *.
  intros y (z & -> & [Hz _]%filter_elem_of)%list_elem_of_fmap. apply Hall, list_elem_of_fmap. by exists z.
Qed.

Lemma filter_NoDup {A B} (f : A → B) (p : A → bool) (l : list A) :
  NoDup (f <$> l) → NoDup (f <$> List.filter p l).
Proof.
  induction l as [|x l IH]; cbn; [done|]. intros [Hx Hnd]%NoDup_cons.
  destruct (p x); [|by apply IH]. cbn. apply NoDup_cons. split; [|by apply IH].
  intros (y & E & [Hy _]%filter_elem_of)%list_elem_of_fmap. apply Hx, list_elem_of_fmap. by exists y.
Qed.

Lemma delete_claim_inv db i : cr_inv db → cr_inv (delete_claim db i).
Proof.
  intros (Hs & Hnd & Hi & Hb & Hp & folded & now & He & Hr & Hperm). unfold delete_claim.
  destruct (List.find _ (rd_claims db)) as [[index j]|] eqn:Ef; [|by split_and!; try done; exists folded, now].
  apply find_some_filter in Ef as [Hin Hj]. cbn in Hj. apply String.eqb_eq in Hj as ->.
  set (db1 := with_claims db _ _).
  assert (StronglySorted Z.lt (rd_claims db1).*1) by (by apply filter_sorted).
  assert (NoDup (rd_claims db1).*2) by (by apply filter_NoDup).
  assert (∀ c, c ∈ rd_claims db1 → (c.1 < rd_next_index db1)%Z).
  { intros c [Hc _]%filter_elem_of. by apply Hi. }
  pose proof (filter_remove_perm (λ c, negb (awaiting (rd_import db) c.1)) _ _ _ Hnd Hin) as Hrm.
  fold (tracked db) in Hrm. cbn [fst] in Hrm.
  change ((List.filter _ (List.filter _ (rd_claims db))).*2) with (tracked db1) in Hrm.
  destruct (awaiting (rd_import db) index); cbn [negb app] in Hrm.
  - split_and!; try done. exists folded, now. by rewrite <-Hrm.
  - destruct (queue_change_inv_part db1 i (-1) Hp) as [Hp' Hpe]. split_and!; try done.
    exists folded, (remove_one i now). split_and!; [done| |].
    + rewrite Hpe. apply replay_app. exists now. split; [done|]. cbn.
      rewrite bool_decide_eq_true_2; [done|]. rewrite Hperm, Hrm. left.
    + assert (i ∈ now) as Hin' by (rewrite Hperm, Hrm; left).
      apply (Permutation_cons_inv (a := i)). rewrite <-(remove_one_perm i now Hin'), Hperm. exact Hrm.
Qed.
(** *** Folding a page *)

Lemma filter_none {A} (p : A → bool) l : (∀ x, x ∈ l → p x = false) → List.filter p l = [].
Proof.
  induction l as [|x l IH]; intros H; [done|]. cbn. rewrite (H x) by left. apply IH.
  intros y Hy. apply H. by right.
Qed.

Lemma install_inv claims next_index :
  StronglySorted Z.lt claims.*1 → NoDup claims.*2 → (∀ c, c ∈ claims → (0 < c.1 < next_index)%Z) →
  cr_inv (install claims next_index).
Proof.
  intros Hs Hnd Hi. split_and!; [done|done|intros c Hc; apply Hi in Hc; cbn; lia| |constructor|].
  - cbn. intros c b E. destruct (last claims) as [x|] eqn:El; [|done]. injection E as <- <-.
    apply last_Some_elem_of, Hi in El. lia.
  - exists [], []. split_and!; [split; [constructor|done]|done|]. unfold tracked. cbn.
    assert (List.filter (λ c, negb (awaiting ((λ c : Z * string, (0%Z, c.1)) <$> last claims) c.1)) claims = []) as ->;
      [|done].
    assert (∀ c, c ∈ claims → awaiting ((λ c : Z * string, (0%Z, c.1)) <$> last claims) c.1 = true) as Haw.
    { intros c Hc. destruct (last claims) as [x|] eqn:El; [|apply last_None in El; subst; set_solver].
      cbn. apply last_Some in El as [l ->]. rewrite fmap_app in Hs.
      apply andb_true_iff. split; [apply Z.ltb_lt; apply Hi in Hc; lia|]. apply Z.leb_le.
      apply elem_of_app in Hc as [Hc| ->%list_elem_of_singleton]; [|done].
      apply Z.lt_le_incl. eapply (StronglySorted_app_1_elem_of Z.lt l.*1 [x.1]); [done| |left].
      apply list_elem_of_fmap. by exists c. }
    apply filter_none. intros c Hc. by rewrite Haw.
Qed.

(** Pages still to fold, at most. *)
Definition backlog (db : RangeDb) : nat :=
  (length (rd_pending db) + length (awaiting_ids db) + (if rd_import db then 1 else 0))%nat.

Lemma length_filter_lt {A} (p : A → bool) l x :
  x ∈ l → p x = false → (length (List.filter p l) < length l)%nat.
Proof.
  induction l as [|y l IH]; [set_solver|]. intros [-> |Hx]%elem_of_cons Hp; cbn.
  - rewrite Hp. pose proof (List.filter_length_le p l). lia.
  - specialize (IH Hx Hp). destruct (p y); cbn; lia.
Qed.

Lemma fold_pending_inv db through x :
  cr_inv db → last (firstn PAGE (rd_pending db)) = Some (through, x) →
  ∃ db' n, fold_page sha512 db = Ok (db', (n, false)) ∧ cr_inv db' ∧ (backlog db' < backlog db)%nat ∧
    rd_claims db' = rd_claims db.
Proof.
  intros (Hs & Hnd & Hi & Hb & Hp & folded & now & He & Hr & Hperm) Hl.
  destruct (sorted_page fst _ _ _ Hp Hl) as [_ Hrest]. cbn [fst] in Hrest.
  rewrite <-(firstn_skipn PAGE (rd_pending db)), fmap_app in Hr.
  apply replay_app in Hr as (mid & Hmid & Hr).
  destruct (apply_delta_exact _ _ _ _ He Hmid) as (d' & Ha & He').
  unfold fold_page. rewrite Hl, Ha. cbn [result_bind]. do 2 eexists. split; [done|]. split; [|split; [|done]].
  - split_and!; cbn; [done..| |].
    + rewrite <-Hrest. rewrite <-(firstn_skipn PAGE (rd_pending db)), fmap_app in Hp.
      by apply StronglySorted_app_1_r in Hp.
    + exists mid, now. rewrite <-Hrest. done.
  - unfold backlog, awaiting_ids. cbn. apply last_Some_elem_of, elem_of_take in Hl as (k & Hk & _).
    apply list_elem_of_lookup_2 in Hk.
    pose proof (length_filter_lt (λ p : Z * (string * Z), negb (p.1 <=? through)%Z) _ _ Hk) as Hlt.
    cbn in Hlt. rewrite Z.leb_refl in Hlt. specialize (Hlt eq_refl). lia.
Qed.

(** The page of the import, and the import after it. *)
Definition import_page (db : RangeDb) : list (Z * string) := firstn PAGE (awaiting_ids db).
Definition import_after (db : RangeDb) (bound : Z) : option (Z * Z) :=
  match last (import_page db) with
  | Some (through, _) => if (through <? bound)%Z then Some (through, bound) else None
  | None => None
  end.

Lemma awaiting_ids_eq db cursor bound :
  rd_import db = Some (cursor, bound) →
  awaiting_ids db = List.filter (λ c, ((cursor <? c.1) && (c.1 <=? bound))%Z) (rd_claims db).
Proof. intros Himp. unfold awaiting_ids. by rewrite Himp. Qed.

Lemma import_after_sub db cursor bound index :
  rd_import db = Some (cursor, bound) →
  awaiting (import_after db bound) index = true → awaiting (rd_import db) index = true.
Proof.
  intros Himp. unfold import_after. rewrite Himp. destruct (last (import_page db)) as [[t x]|] eqn:El; [|done].
  destruct (t <? bound)%Z; [|done]. cbn. intros [H1 H2]%andb_true_iff. apply andb_true_iff. split; [|done].
  apply last_Some_elem_of, elem_of_take in El as (k & Hk%list_elem_of_lookup_2 & _).
  rewrite (awaiting_ids_eq _ _ _ Himp) in Hk. apply filter_elem_of in Hk as [_ Hk]. cbn in Hk. bool_prop.
  apply Z.ltb_lt. lia.
Qed.

Lemma filter_filter {A} (p q : A → bool) l :
  List.filter p (List.filter q l) = List.filter (λ c, q c && p c) l.
Proof. induction l as [|c l IH]; [done|]. cbn. destruct (q c); cbn; [|done]. by rewrite IH. Qed.

(** What the page passes and what is left waiting. *)
Lemma import_after_waiting db cursor bound :
  rd_import db = Some (cursor, bound) → StronglySorted Z.lt (rd_claims db).*1 →
  List.filter (λ c, awaiting (import_after db bound) c.1) (rd_claims db) = skipn PAGE (awaiting_ids db) ∧
  import_page db = List.filter (λ c, negb (awaiting (import_after db bound) c.1)) (awaiting_ids db).
Proof.
  intros Himp Hs. assert (StronglySorted Z.lt (awaiting_ids db).*1) as Hws by (by apply filter_sorted).
  assert (List.filter (λ c, awaiting (import_after db bound) c.1) (rd_claims db)
          = List.filter (λ c, awaiting (import_after db bound) c.1) (awaiting_ids db)) as ->.
  { unfold awaiting_ids at 1. rewrite filter_filter. apply filter_ext_elem. intros c _.
    pose proof (import_after_sub db cursor bound c.1 Himp).
    destruct (awaiting (import_after db bound) c.1), (awaiting (rd_import db) c.1); naive_solver. }
  unfold import_after. destruct (last (import_page db)) as [[t x]|] eqn:El.
  - destruct (sorted_page fst _ _ _ Hws El) as [Ht Hd]. cbn [fst] in Ht, Hd.
    assert (∀ c, c ∈ awaiting_ids db → (c.1 <= bound)%Z) as Hle.
    { intros c Hc. rewrite (awaiting_ids_eq _ _ _ Himp) in Hc. apply filter_elem_of in Hc as [_ Hc].
      bool_prop. lia. }
    unfold import_page. rewrite Ht, Hd. destruct (Z.ltb_spec t bound);
      split; apply filter_ext_elem; intros c Hc; apply Hle in Hc; cbn.
    + apply Z.leb_le in Hc. rewrite Hc, andb_true_r, Z.leb_antisym. by rewrite ?negb_involutive.
    + apply Z.leb_le in Hc. rewrite Hc, andb_true_r, Z.leb_antisym. by rewrite ?negb_involutive.
    + symmetry. apply negb_false_iff, Z.leb_le. lia.
    + apply Z.leb_le. lia.
  - apply take_page_nil in El. unfold import_page. by rewrite El.
Qed.

Lemma import_after_tracked db cursor bound :
  rd_import db = Some (cursor, bound) → StronglySorted Z.lt (rd_claims db).*1 →
  List.filter (λ c, negb (awaiting (import_after db bound) c.1)) (rd_claims db) ≡ₚ
    List.filter (λ c, negb (awaiting (rd_import db) c.1)) (rd_claims db) ++ import_page db.
Proof.
  intros Himp Hs. rewrite (proj2 (import_after_waiting db cursor bound Himp Hs)).
  unfold awaiting_ids. rewrite filter_filter. apply filter_partition. intros c _.
  pose proof (import_after_sub db cursor bound c.1 Himp).
  destruct (awaiting (import_after db bound) c.1), (awaiting (rd_import db) c.1); naive_solver.
Qed.

Lemma import_after_end db bound :
  import_after db bound = None ∨
  ∃ through, import_after db bound = Some (through, bound) ∧ import_page db ≠ [].
Proof.
  unfold import_after. destruct (last (import_page db)) as [[t x]|] eqn:El; [|by left].
  destruct (t <? bound)%Z; [|by left]. right. exists t. split; [done|]. intros Hpn. by rewrite Hpn in El.
Qed.

Lemma fold_import_inv db cursor bound :
  cr_inv db → rd_pending db = [] → rd_import db = Some (cursor, bound) →
  ∃ db' n, fold_page sha512 db = Ok (db', (n, false)) ∧ cr_inv db' ∧ (backlog db' < backlog db)%nat ∧
    rd_claims db' = rd_claims db.
Proof.
  intros (Hs & Hnd & Hi & Hb & Hp & folded & now & He & Hr & Hperm) Hnil Himp.
  rewrite Hnil in Hr. injection Hr as <-. set (page := import_page db).
  destruct (apply_delta_exact (rd_digests db) folded ((λ i, (i, 1%Z)) <$> page.*2) (reverse page.*2 ++ folded)%list)
    as (d' & Ha & He'); [done|apply replay_adds|].
  exists {| rd_claims := rd_claims db; rd_next_index := rd_next_index db;
    rd_digests := d'; rd_import := import_after db bound; rd_pending := rd_pending db |}, (length page).
  pose proof (import_after_end db bound) as Hend. split; [|split; [|split; [|done]]].
  - unfold fold_page. rewrite Hnil, take_nil, Himp. cbn [last]. rewrite <-(awaiting_ids_eq _ _ _ Himp).
    fold (import_page db). fold page.
    assert ((λ c, (c.2, 1%Z)) <$> page = (λ i, (i, 1%Z)) <$> page.*2) as -> by (by rewrite <-list_fmap_compose).
    by rewrite Ha.
  - split_and!; cbn; [done..| |by rewrite Hnil; constructor|].
    + intros c b E. destruct Hend as [En|(t & Et & _)]; [congruence|]. rewrite Et in E. injection E as _ <-.
      by apply (Hb cursor).
    + exists (reverse page.*2 ++ folded)%list, (reverse page.*2 ++ folded)%list.
      rewrite Hnil. split_and!; [done..|]. unfold tracked. cbn.
      rewrite (import_after_tracked _ _ _ Himp Hs), fmap_app, Hperm. fold page.
      by rewrite reverse_Permutation, Permutation_app_comm.
  - unfold backlog. rewrite Hnil, Himp. cbn. unfold awaiting_ids at 1. cbn.
    rewrite (proj1 (import_after_waiting _ _ _ Himp Hs)), length_drop.
    fold (awaiting_ids db). destruct Hend as [-> |(t & -> & Hpn)]; [lia|]. unfold import_page in Hpn.
    assert (0 < length (firstn PAGE (awaiting_ids db)))%nat by (destruct (firstn PAGE _); [done|cbn; lia]).
    rewrite length_take in *. lia.
Qed.
(** ** Steps *)

Inductive RangeStep := RInsert (i : string) | RDelete (i : string) | RFold.

(** Claims are inserted and deleted by other transactions, and pages folded, in
    any order; each is one transaction. *)
Inductive cr_step : RangeDb → RangeStep → RangeDb → Prop :=
| step_insert db i : cr_step db (RInsert i) (insert_claim db i)
| step_delete db i : cr_step db (RDelete i) (delete_claim db i)
| step_fold db db' page : fold_page sha512 db = Ok (db', page) → cr_step db RFold db'.

Lemma fold_page_spec db :
  cr_inv db →
  ∃ db' n done, fold_page sha512 db = Ok (db', (n, done)) ∧ cr_inv db' ∧ rd_claims db' = rd_claims db ∧
    (if done then db' = db ∧ complete db = true else (backlog db' < backlog db)%nat).
Proof.
  intros Hinv. destruct (last (firstn PAGE (rd_pending db))) as [[through x]|] eqn:El.
  - destruct (fold_pending_inv _ _ _ Hinv El) as (db' & n & Hf & Hinv' & Hlt & Hc). by exists db', n, false.
  - apply take_page_nil in El. destruct (rd_import db) as [[cursor bound]|] eqn:Ei.
    + destruct (fold_import_inv _ _ _ Hinv El Ei) as (db' & n & Hf & Hinv' & Hlt & Hc). by exists db', n, false.
    + exists db, 0%nat, true. unfold fold_page, complete. rewrite El, Ei, take_nil. done.
Qed.

Lemma cr_step_inv db l db' : cr_inv db → cr_step db l db' → cr_inv db'.
Proof.
  intros Hinv Hstep. destruct Hstep as [db i|db i|db db1 page Hf].
  - by apply insert_claim_inv.
  - by apply delete_claim_inv.
  - destruct (fold_page_spec _ Hinv) as (db2 & n & d & Hf2 & Hinv2 & _). rewrite Hf in Hf2. by injection Hf2 as <- _.
Qed.

(** A store before the digests were installed: claims with distinct ids at
    increasing positive indices. *)
Definition legacy_store (claims : list (Z * string)) (next_index : Z) : Prop :=
  StronglySorted Z.lt claims.*1 ∧ NoDup claims.*2 ∧ ∀ c, c ∈ claims → (0 < c.1 < next_index)%Z.

Lemma complete_exact db : cr_inv db → complete db = true → exact (rd_digests db) (rd_claims db).*2.
Proof.
  intros (_ & _ & _ & _ & _ & folded & now & He & Hr & Hperm) Hc. unfold complete in Hc. bool_prop.
  rewrite H0 in Hr. injection Hr as <-. eapply exact_perm; [|done]. rewrite Hperm. unfold tracked. rewrite H.
  assert (List.filter (λ c : Z * string, negb (awaiting None c.1)) (rd_claims db) = rd_claims db) as ->; [|done].
  clear. induction (rd_claims db) as [|c l IH]; [done|]. cbn in *. by rewrite IH.
Qed.

(** C24: Whenever the index says it is complete, every range's row is exact:
    present exactly when some retained claim falls in the range, with the number
    of those claims and the 512-bit sum of their hashes; whatever claims were
    there before the triggers, and however inserts, deletes and folded pages
    interleaved since. *)
Theorem range_digests_exact claims next_index tr db :
  legacy_store claims next_index → run cr_step (install claims next_index) tr db → complete db = true →
  ∀ key, bmap_get key (rd_digests db) = range_row key (rd_claims db).*2.
Proof.
  intros (Hs & Hnd & Hi) Hrun Hc. apply complete_exact; [|done].
  eapply (run_invariant _ _ cr_step_inv); [done|]. by apply install_inv.
Qed.

Lemma fold_paced_complete fuel db :
  cr_inv db → (backlog db < fuel)%nat →
  ∃ db', fold_paced sha512 fuel db = Some (Ok db') ∧ cr_inv db' ∧ complete db' = true ∧
    rd_claims db' = rd_claims db.
Proof.
  revert db. induction fuel as [|fuel IH]; intros db Hinv Hlt; [lia|]. cbn.
  destruct (fold_page_spec _ Hinv) as (db' & n & d & Hf & Hinv' & Hc & Hd). rewrite Hf. destruct d.
  - destruct Hd as [-> Hcomplete]. by exists db.
  - destruct (IH db' Hinv') as (db2 & Hp & Hinv2 & Hcomplete & Hc2); [lia|]. exists db2. by rewrite <-Hc.
Qed.

(** Folding ends.  From any state the store can reach, paced folding never
    fails, comes to an end within a number of pages bounded by the queue and
    the claims still to import, leaves the claims as they were, and then the
    index is complete. *)
Theorem fold_paced_terminates claims next_index tr db :
  legacy_store claims next_index → run cr_step (install claims next_index) tr db →
  ∃ db', fold_paced sha512 (S (backlog db)) db = Some (Ok db') ∧
         complete db' = true ∧ rd_claims db' = rd_claims db.
Proof.
  intros (Hs & Hnd & Hi) Hrun.
  assert (cr_inv db) as Hinv by (eapply (run_invariant _ _ cr_step_inv); [done|by apply install_inv]).
  destruct (fold_paced_complete (S (backlog db)) db) as (db' & ? & _ & ? & ?); [done|lia|]. by exists db'.
Qed.
End exact.

(** ** A store for the witnesses *)

(** Any function to 64 bytes will do for SHA-512: here, the last 64 bytes. *)
Definition demo_sha512 (b : list ascii) : list ascii := be_bytes 64 (be_val b).
Lemma demo_sha512_length b : length (demo_sha512 b) = 64%nat.
Proof. apply length_be_bytes. Qed.

Definition demo_id (a b c : ascii) : string := string_of (a :: b :: c :: repeat "0"%char 61).
Definition demo_claims : list (Z * string) :=
  [(1%Z, demo_id "0" "a" "7"); (2%Z, "note"); (5%Z, demo_id "f" "f" "f")].
Definition demo_changes (db : RangeDb) : RangeDb :=
  insert_claim (delete_claim (insert_claim db (demo_id "0" "a" "8")) "note") "draft".
Definition demo_folded (db : RangeDb) : RangeDb :=
  match fold_page demo_sha512 db with Ok (db', _) => db' | Err _ => db end.
Definition demo_store : RangeDb := demo_folded (demo_folded (demo_changes (install demo_claims 6))).

Lemma demo_claims_legacy : legacy_store demo_claims 6.
Proof.
  split_and!.
  - cbn. repeat constructor.
  - apply (bool_decide_unpack _). vm_compute. exact I.
  - intros c Hc. cbn in Hc. repeat (apply elem_of_cons in Hc as [-> |Hc]; [cbn; lia|]). by apply elem_of_nil in Hc.
Qed.

Lemma fold_page_step db db' n finished :
  fold_page demo_sha512 db = Ok (db', (n, finished)) → cr_step demo_sha512 db RFold (demo_folded db).
Proof. intros Hf. unfold demo_folded. rewrite Hf. by apply (step_fold _ _ _ (n, finished)). Qed.

Lemma demo_store_run :
  run (cr_step demo_sha512) (install demo_claims 6)
    [RInsert (demo_id "0" "a" "8"); RDelete "note"; RInsert "draft"; RFold; RFold] demo_store.
Proof.
  assert (cr_inv demo_sha512 (demo_changes (install demo_claims 6))) as Hinv.
  { destruct demo_claims_legacy as (? & ? & ?).
    by apply insert_claim_inv, delete_claim_inv, insert_claim_inv, install_inv. }
  destruct (fold_page_spec _ demo_sha512_length _ Hinv) as (db1 & n1 & d1 & Hf1 & Hinv1 & _).
  assert (demo_folded (demo_changes (install demo_claims 6)) = db1) as E1 by (unfold demo_folded; by rewrite Hf1).
  destruct (fold_page_spec _ demo_sha512_length _ Hinv1) as (db2 & n2 & d2 & Hf2 & _).
  unfold demo_store.
  eapply run_cons; [apply step_insert|]. eapply run_cons; [apply step_delete|]. eapply run_cons; [apply step_insert|].
  fold (demo_changes (install demo_claims 6)).
  eapply run_cons; [by eapply fold_page_step|]. rewrite E1.
  eapply run_cons; [by eapply fold_page_step|]. apply run_nil.
Qed.

Lemma range_digests_exact_witness :
  complete demo_store = true ∧
  bmap_get (2, 167)%Z (rd_digests demo_store) = range_row demo_sha512 (2, 167)%Z (rd_claims demo_store).*2.
Proof.
  assert (complete demo_store = true) as Hc by (vm_compute; reflexivity). split; [exact Hc|].
  exact (range_digests_exact demo_sha512 demo_sha512_length demo_claims 6 _ demo_store
    demo_claims_legacy demo_store_run Hc (2, 167)%Z).
Defined.

Lemma fold_paced_terminates_witness :
  ∃ db', fold_paced demo_sha512 (S (backlog (install demo_claims 6))) (install demo_claims 6) = Some (Ok db') ∧
         complete db' = true ∧ rd_claims db' = demo_claims.
Proof.
  exact (fold_paced_terminates demo_sha512 demo_sha512_length demo_claims 6 [] (install demo_claims 6)
    demo_claims_legacy (run_nil _ _)).
Defined.

Lemma demo_folded_exact claims next_index :
  legacy_store claims next_index → complete (demo_folded (install claims next_index)) = true →
  exact demo_sha512 (rd_digests (demo_folded (install claims next_index)))
    (rd_claims (demo_folded (install claims next_index))).*2.
Proof.
  intros (Hs & Hnd & Hi) Hc. apply complete_exact; [|done]. unfold demo_folded.
  destruct (fold_page_spec demo_sha512 demo_sha512_length (install claims next_index)) as (db & n & d & Hf & Hinv & _);
    [by apply install_inv|]. by rewrite Hf.
Qed.
