(* ===== verification/RangeCompare.v ===== *)
(** * Comparing and walking claim ranges
    (crates/smallclaims/src/store/claim_ranges.rs, the range protocol of
    replication.rs, and [ClaimWalk] of sync/worker.rs)

    A member answers a peer's range query from its index, compares the peer's
    answer with its own index, and walks down: the tops that differ, their
    leaves, the ids of differing leaves, then the claims it lacks. *)

From S2P Require Import Prelude BTree DigestSum ClaimRanges.

Local Open Scope string_scope.

(** ** Messages *)

Definition CLAIM_RANGE_VERSION : Z := 1%Z.
Definition CLAIM_RANGE_QUERY_TOPS : nat := 4.
Definition CLAIM_RANGE_QUERY_LEAVES : nat := 8.
Definition CLAIM_RANGE_ANSWER_IDS : nat := Z.to_nat 4096.
Definition CLAIM_RANGE_QUERY_CLAIMS : nat := Z.to_nat 512.

Record ClaimRangeEntry := { en_range : Z; en_count : Z; en_digest : string }.
Record ClaimRangeLeaves := { gl_top : Z; gl_leaves : list ClaimRangeEntry }.
Record ClaimRangeIds := { gi_leaf : Z; gi_ids : list string }.
Record ClaimRangeDigest := { rg_count : Z; rg_digest : string }.

Record ClaimRangeSummary := {
  su_version : Z;
  su_retained : option ClaimRangeDigest;
  su_tops : option (list ClaimRangeEntry);
  su_leaves : list ClaimRangeLeaves;
  su_ids : list ClaimRangeIds
}.

Record ClaimRangeQuery := {
  qu_tops : bool;
  qu_leaves_of : list Z;
  qu_ids_of : list Z;
  qu_claims : list string
}.

Record ClaimRangeComparison := {
  co_same : bool;
  co_pair : string;
  co_tops : list Z;
  co_leaves : list Z;
  co_missing : list string
}.

Section compare.
Variable hex_encode : list ascii → string.

(** [entry] *)
Definition entry (r : ClaimRange) : ClaimRangeEntry :=
  {| en_range := cr_range r; en_count := cr_count r; en_digest := hex_encode (cr_digest r) |}.

(** ** Answering *)

(** The loop over [query.ids_of]: [listed] counts the ids listed so far. *)
Fixpoint answer_ids (db : RangeDb) (listed : nat) (leaves_asked : list Z) : list ClaimRangeIds :=
  match leaves_asked with
  | [] => []
  | l :: rest =>
      if (CLAIM_RANGE_ANSWER_IDS <=? listed)%nat then []
      else if (l <? LEAF_RANGES)%Z then
        let ids := ids_in_leaf db l in
        {| gi_leaf := l; gi_ids := ids |} :: answer_ids db (listed + length ids) rest
      else answer_ids db listed rest
  end.

(** [claim_range_summary_answering] *)
Definition summary_answering (db : RangeDb) (query : option ClaimRangeQuery) : ClaimRangeSummary :=
  let base := {| su_version := CLAIM_RANGE_VERSION; su_retained := None; su_tops := None;
                 su_leaves := []; su_ids := [] |} in
  if negb (complete db) then base
  else
    let '(count, digest) := whole db in
    let retained := Some {| rg_count := count; rg_digest := hex_encode digest |} in
    match query with
    | None => {| su_version := CLAIM_RANGE_VERSION; su_retained := retained; su_tops := None;
                 su_leaves := []; su_ids := [] |}
    | Some query =>
        {| su_version := CLAIM_RANGE_VERSION;
           su_retained := retained;
           su_tops := if qu_tops query then Some (entry <$> tops db) else None;
           su_leaves := (λ top, {| gl_top := top; gl_leaves := entry <$> leaves db top |}) <$>
             List.filter (λ top, (top <=? TOP_RANGES)%Z) (firstn CLAIM_RANGE_QUERY_TOPS (qu_leaves_of query));
           su_ids := answer_ids db 0 (firstn CLAIM_RANGE_QUERY_LEAVES (qu_ids_of query)) |}
    end.

(** ** Comparing *)

(** [differing] *)
Definition differing (local : list ClaimRange) (remote : list ClaimRangeEntry) : list Z :=
  let local : BTreeMap Z (Z * string) :=
    foldl (λ m r, bmap_insert (cr_range r) (cr_count r, hex_encode (cr_digest r)) m) [] local in
  en_range <$> List.filter (λ e, negb (bool_decide (bmap_get (en_range e) local = Some (en_count e, en_digest e)))) remote.

(** The loop over [remote.ids]; [retired] is the lookup of retired claims. *)
Fixpoint compare_ids (db : RangeDb) (retired : string → bool) (examined : nat)
    (groups : list ClaimRangeIds) : list string :=
  match groups with
  | [] => []
  | g :: rest =>
      if (LEAF_RANGES <=? gi_leaf g)%Z || (CLAIM_RANGE_ANSWER_IDS <=? examined)%nat
      then compare_ids db retired examined rest
      else
        let local := bset_of_list (ids_in_leaf db (gi_leaf g)) in
        (List.filter (λ i, (leaf i =? gi_leaf g)%Z && negb (bset_mem i local) && negb (retired i)) (gi_ids g)
         ++ compare_ids db retired (examined + length (gi_ids g)) rest)%list
  end.

(** [compare_claim_ranges] *)
Definition compare_claim_ranges (db : RangeDb) (retired : string → bool) (remote : ClaimRangeSummary)
    : option ClaimRangeComparison :=
  match su_retained remote with
  | Some theirs =>
      if negb (su_version remote =? CLAIM_RANGE_VERSION)%Z then None
      else if negb (complete db) then None
      else
        let '(count, digest) := whole db in
        let ours := hex_encode digest in
        let pair := ours +:+ "/" +:+ rg_digest theirs in
        if (count =? rg_count theirs)%Z && String.eqb ours (rg_digest theirs) then
          Some {| co_same := true; co_pair := pair; co_tops := []; co_leaves := []; co_missing := [] |}
        else
          Some {| co_same := false; co_pair := pair;
                  co_tops := match su_tops remote with
                             | Some remote_tops => differing (tops db) remote_tops
                             | None => []
                             end;
                  co_leaves := concat ((λ g, differing (leaves db (gl_top g)) (gl_leaves g)) <$>
                    List.filter (λ g, (gl_top g <=? TOP_RANGES)%Z) (firstn CLAIM_RANGE_QUERY_TOPS (su_leaves remote)));
                  co_missing := compare_ids db retired 0 (firstn CLAIM_RANGE_QUERY_LEAVES (su_ids remote)) |}
  | None => None
  end.
End compare.

(** ** Walking *)

Record ClaimWalk := {
  wa_pair : string;
  wa_asked_tops : bool;
  wa_tops : list Z;
  wa_leaves : list Z;
  wa_missing : BTreeSet string
}.

Definition walk_new (pair : string) : ClaimWalk :=
  {| wa_pair := pair; wa_asked_tops := false; wa_tops := []; wa_leaves := []; wa_missing := [] |}.
Definition walk_finished (pair : string) : ClaimWalk :=
  {| wa_pair := pair; wa_asked_tops := true; wa_tops := []; wa_leaves := []; wa_missing := [] |}.

Definition empty_query : ClaimRangeQuery :=
  {| qu_tops := false; qu_leaves_of := []; qu_ids_of := []; qu_claims := [] |}.

(** [ClaimWalk::next_query] *)
Definition next_query (w : ClaimWalk) : ClaimWalk * option ClaimRangeQuery :=
  if negb (bool_decide (wa_missing w = [])) then
    ({| wa_pair := wa_pair w; wa_asked_tops := wa_asked_tops w; wa_tops := wa_tops w;
        wa_leaves := wa_leaves w; wa_missing := skipn CLAIM_RANGE_QUERY_CLAIMS (wa_missing w) |},
     Some {| qu_tops := false; qu_leaves_of := []; qu_ids_of := [];
             qu_claims := firstn CLAIM_RANGE_QUERY_CLAIMS (wa_missing w) |})
  else if negb (bool_decide (wa_leaves w = [])) then
    ({| wa_pair := wa_pair w; wa_asked_tops := wa_asked_tops w; wa_tops := wa_tops w;
        wa_leaves := skipn CLAIM_RANGE_QUERY_LEAVES (wa_leaves w); wa_missing := wa_missing w |},
     Some {| qu_tops := false; qu_leaves_of := []; qu_claims := [];
             qu_ids_of := firstn CLAIM_RANGE_QUERY_LEAVES (wa_leaves w) |})
  else if negb (bool_decide (wa_tops w = [])) then
    ({| wa_pair := wa_pair w; wa_asked_tops := wa_asked_tops w;
        wa_tops := skipn CLAIM_RANGE_QUERY_TOPS (wa_tops w);
        wa_leaves := wa_leaves w; wa_missing := wa_missing w |},
     Some {| qu_tops := false; qu_ids_of := []; qu_claims := [];
             qu_leaves_of := firstn CLAIM_RANGE_QUERY_TOPS (wa_tops w) |})
  else if negb (wa_asked_tops w) then
    ({| wa_pair := wa_pair w; wa_asked_tops := true; wa_tops := wa_tops w; wa_leaves := wa_leaves w;
        wa_missing := wa_missing w |},
     Some {| qu_tops := true; qu_leaves_of := []; qu_ids_of := []; qu_claims := [] |})
  else (w, None).

(** [ClaimWalk::retry] *)
Definition retry (w : ClaimWalk) (q : ClaimRangeQuery) : ClaimWalk :=
  {| wa_pair := wa_pair w; wa_asked_tops := wa_asked_tops w && negb (qu_tops q);
     wa_tops := (qu_leaves_of q ++ wa_tops w)%list; wa_leaves := (qu_ids_of q ++ wa_leaves w)%list;
     wa_missing := bset_extend (wa_missing w) (qu_claims q) |}.

(** [ClaimWalk::absorb] *)
Definition absorb (w : ClaimWalk) (c : ClaimRangeComparison) : ClaimWalk :=
  {| wa_pair := wa_pair w; wa_asked_tops := wa_asked_tops w;
     wa_tops := (wa_tops w ++ co_tops c)%list; wa_leaves := (wa_leaves w ++ co_leaves c)%list;
     wa_missing := bset_extend (wa_missing w) (co_missing c) |}.

(** What one round trip of [walk_claim_ranges] brought: the exchange failed, or
    its answer was received with the comparison it allowed. *)
Inductive Answer :=
| Failed
| Received (comparison : option ClaimRangeComparison).

(** The loop of [walk_claim_ranges], at most one round trip per answer. *)
Fixpoint walk_rounds (w : ClaimWalk) (answers : list Answer) : ClaimWalk :=
  match answers with
  | [] => w
  | a :: rest =>
      let '(w', q) := next_query w in
      match q with
      | None => w'
      | Some q =>
          match a with
          | Failed => w'
          | Received None => retry w' q
          | Received (Some c) =>
              if co_same c then walk_finished (wa_pair w') else walk_rounds (absorb w' c) rest
          end
      end
  end.
Definition CLAIM_WALK_ROUND_TRIPS : nat := 4.
Definition walk_claim_ranges (kept : option ClaimWalk) (pair : string) (answers : list Answer) : ClaimWalk :=
  let w := match kept with
           | Some w => if String.eqb (wa_pair w) pair then w else walk_new pair
           | None => walk_new pair
           end in
  walk_rounds w (firstn CLAIM_WALK_ROUND_TRIPS answers).

(** ** The walk *)

Lemma bset_extend_take s n : bset_wf s → bset_extend (skipn n s) (firstn n s) = s.
Proof.
  intros Hs. apply bset_ext; [|done|].
  - apply bset_extend_wf. rewrite <-(firstn_skipn n s) in Hs. by apply StronglySorted_app_1_r in Hs.
  - intros x. rewrite elem_of_bset_extend. rewrite <-(firstn_skipn n s) at 3. rewrite elem_of_app. tauto.
Qed.

(** A walk never loses a question it takes back: asking and then retrying
    restores the walk exactly, and every question stays within the protocol's
    limits and is about something. *)
Theorem retry_next_query w w' q :
  bset_wf (wa_missing w) → next_query w = (w', Some q) →
  retry w' q = w ∧
  (length (qu_leaves_of q) <= CLAIM_RANGE_QUERY_TOPS)%nat ∧
  (length (qu_ids_of q) <= CLAIM_RANGE_QUERY_LEAVES)%nat ∧
  (length (qu_claims q) <= CLAIM_RANGE_QUERY_CLAIMS)%nat ∧ q ≠ empty_query.
Proof.
  intros Hwf. unfold next_query.
  assert (CLAIM_RANGE_QUERY_CLAIMS = S (Nat.pred CLAIM_RANGE_QUERY_CLAIMS)) as Hc by reflexivity.
  destruct w as [pair asked ts ls missing]. cbn in *.
  case_bool_decide as Hm; cbn; [case_bool_decide as Hl; cbn; [case_bool_decide as Ht; cbn; [destruct asked|]|]|].
  - done.
  - intros [= <- <-]. subst. cbn. split_and!; try lia; done.
  - intros [= <- <-]. subst. unfold retry. cbn. rewrite take_drop, andb_true_r, length_take.
    split_and!; try (unfold CLAIM_RANGE_QUERY_TOPS, CLAIM_RANGE_QUERY_LEAVES; lia); try done. destruct ts; done.
  - intros [= <- <-]. subst. unfold retry. cbn. rewrite take_drop, andb_true_r, length_take.
    split_and!; try (unfold CLAIM_RANGE_QUERY_TOPS, CLAIM_RANGE_QUERY_LEAVES; lia); try done. destruct ls; done.
  - intros [= <- <-]. unfold retry. cbn [wa_pair wa_asked_tops wa_tops wa_leaves wa_missing qu_tops
      qu_leaves_of qu_ids_of qu_claims negb app length]. rewrite bset_extend_take, andb_true_r, length_take by done.
    split_and!; try (unfold CLAIM_RANGE_QUERY_TOPS, CLAIM_RANGE_QUERY_LEAVES; lia); try done. destruct missing as [|x l]; [done|]. rewrite Hc. done.
Qed.

(** A round trip that fails does lose its question: the walk that had only
    asked for the tops is afterwards a finished one. *)
Example walk_failure_finishes :
  walk_claim_ranges None "a/b" [Failed] = walk_finished "a/b" ∧
  (next_query (walk_claim_ranges (Some (walk_claim_ranges None "a/b" [Failed])) "a/b"
     [Received None])).2 = None.
Proof. done. Qed.

(** ** Reading the ids of a leaf *)

Lemma list_cmp_app_l (p q r : list ascii) :
  length p = length q → cmp p q = Lt → cmp (p ++ r)%list q = Lt.
Proof.
  revert q. induction p as [|a p IH]; intros [|b q] Hlen; try done.
  change (cmp ((a :: p) ++ r)%list (b :: q)) with (then_with (cmp a b) (cmp (p ++ r)%list q)).
  change (cmp (a :: p) (b :: q)) with (then_with (cmp a b) (cmp p q)).
  rewrite !then_with_lt. intros [?|[? ?]]; [by left|right]. split; [done|]. apply IH; [by injection Hlen|done].
Qed.

Lemma list_cmp_prefix (p r : list ascii) : cmp (p ++ r)%list p ≠ Lt.
Proof.
  induction p as [|a p IH]; [by destruct r|].
  change (cmp ((a :: p) ++ r)%list (a :: p)) with (then_with (cmp a a) (cmp (p ++ r)%list p)).
  by rewrite cmp_refl.
Qed.

Lemma hex3_increases :
  forallb (λ n, match cmp (hex3 n) (if (n + 1 =? LEAF_RANGES)%Z then "g" else hex3 (n + 1)) with
                | Lt => true | _ => false end) (Z.of_nat <$> List.seq 0 (Z.to_nat 4096)) = true.
Proof. vm_compute. reflexivity. Qed.

Lemma hex_char_digit b d : hex_digit b = Some d → hex_char d = b ∧ (0 <= d < 16)%Z.
Proof. destruct b as [[] [] [] [] [] [] [] []]; vm_compute; try done; by intros [= <-]. Qed.

(** A regular id begins with the three digits of its leaf. *)
Lemma regular_hex3 i :
  regular i = true → (0 <= leaf i < LEAF_RANGES)%Z ∧ ∃ r, bytes_of i = (bytes_of (hex3 (leaf i)) ++ r)%list.
Proof.
  intros Hr. unfold leaf. rewrite Hr. unfold regular in Hr. apply andb_true_iff in Hr as [Hlen Hall].
  apply Nat.eqb_eq in Hlen. rewrite forallb_elem_of in Hall.
  destruct (bytes_of i) as [|a [|b [|c r]]]; try done.
  assert (∀ x, x ∈ a :: b :: c :: r → ∃ d, hex_digit x = Some d ∧ hex_char d = x ∧ (0 <= d < 16)%Z) as Hd.
  { intros x Hx%Hall. bool_prop. destruct Hx as [d Hd]. exists d. split; [done|]. by apply hex_char_digit. }
  destruct (Hd a) as (x & Ha & Hax & Hx); [set_solver|]. destruct (Hd b) as (y & Hb & Hby & Hy); [set_solver|].
  destruct (Hd c) as (z & Hc & Hcz & Hz); [set_solver|].
  change (firstn 3 (a :: b :: c :: r)) with [a; b; c]. cbn [foldl]. rewrite Ha, Hb, Hc. cbn [default from_option id].
  set (n := (((0 * 16 + x) * 16 + y) * 16 + z)%Z). unfold LEAF_RANGES. split; [unfold n; lia|]. exists r.
  unfold hex3. rewrite bytes_of_string_of.
  replace (n / 256 mod 16)%Z with x by (unfold n; Z.div_mod_to_equations; lia).
  replace (n / 16 mod 16)%Z with y by (unfold n; Z.div_mod_to_equations; lia).
  replace (n mod 16)%Z with z by (unfold n; Z.div_mod_to_equations; lia).
  by rewrite Hax, Hby, Hcz.
Qed.

Lemma elem_of_ids_in_leaf db l i :
  i ∈ ids_in_leaf db l ↔ i ∈ (rd_claims db).*2 ∧ leaf i = l.
Proof.
  unfold ids_in_leaf. rewrite filter_elem_of, Z.eqb_eq.
  assert (i ∈ sort_on id (rd_claims db).*2 ↔ i ∈ (rd_claims db).*2) as Hs by (by rewrite sort_on_perm).
  destruct (Z.leb_spec LEAF_RANGES l) as [Hl|Hl]; [by rewrite Hs|].
  rewrite filter_elem_of, Hs. split; [tauto|]. intros [Hi <-]. split; [|done]. split; [done|].
  assert (regular i = true) as Hr.
  { unfold leaf in Hl. destruct (regular i); [done|lia]. }
  destruct (regular_hex3 i Hr) as [Hrange [r Hb]]. apply andb_true_iff. rewrite !cmp_string_bytes, Hb. split.
  - destruct (cmp _ _) eqn:E; try done. by apply list_cmp_prefix in E.
  - assert (leaf i ∈ Z.of_nat <$> List.seq 0 (Z.to_nat 4096)) as Hin.
    { apply list_elem_of_fmap. exists (Z.to_nat (leaf i)). rewrite list_elem_of_In, in_seq.
      unfold LEAF_RANGES in *. lia. }
    pose proof hex3_increases as Hinc. rewrite forallb_elem_of in Hinc. specialize (Hinc _ Hin).
    rewrite cmp_string_bytes in Hinc.
    assert (cmp (bytes_of (hex3 (leaf i)))
      (bytes_of (if (leaf i + 1 =? LEAF_RANGES)%Z then "g" else hex3 (leaf i + 1))) = Lt) as Hlt
      by (by destruct (cmp _ _)).
    destruct (leaf i + 1 =? LEAF_RANGES)%Z eqn:Eg.
    + assert (cmp (bytes_of (hex3 (leaf i)) ++ r)%list (bytes_of "g") = Lt) as ->; [|done].
      unfold hex3 in *. rewrite bytes_of_string_of in *. set (a := hex_char _) in *.
      change (then_with (cmp a "g"%char) (cmp [hex_char (leaf i / 16 mod 16); hex_char (leaf i mod 16)] []) = Lt) in Hlt.
      change (then_with (cmp a "g"%char) (cmp ([hex_char (leaf i / 16 mod 16); hex_char (leaf i mod 16)] ++ r)%list []) = Lt).
      apply then_with_lt in Hlt as [Hlt|[_ Hlt]]; [by rewrite Hlt|done].
    + rewrite list_cmp_app_l; [done| |done]. unfold hex3. by rewrite !bytes_of_string_of.
Qed.

(** ** Reading the ranges *)

Section reading.
Context (sha512 : list ascii → list ascii).
Notation range_row := (range_row sha512).
Notation exact := (exact sha512).
Notation weight := (weight sha512).

Lemma elem_of_read_ranges db level from to r :
  bmap_wf (rd_digests db) →
  r ∈ read_ranges db level from to ↔
  bmap_get (level, cr_range r) (rd_digests db) = Some (cr_count r, cr_digest r) ∧
  (from <= cr_range r < to)%Z.
Proof.
  intros Hwf. unfold read_ranges. rewrite list_elem_of_fmap. split.
  - intros ([[l x] [n s]] & -> & [Hin Hp]%filter_elem_of). cbn. bool_prop. subst l.
    apply elem_of_bmap_get in Hin; [|done]. split; [done|lia].
  - intros [Hget Hr]. exists ((level, cr_range r), (cr_count r, cr_digest r)).
    split; [by destruct r|]. apply filter_elem_of. split; [by apply bmap_get_elem_of|].
    rewrite !andb_true_iff, Z.eqb_eq, Z.leb_le, Z.ltb_lt. lia.
Qed.

Lemma covers_top r i : covers (1%Z, r) i = true ↔ r = (leaf i / LEAVES_PER_TOP)%Z.
Proof. unfold covers, range_keys. rewrite bool_decide_eq_true. set_solver. Qed.

Lemma covers_leaf r i : covers (2%Z, r) i = true ↔ r = leaf i.
Proof. unfold covers, range_keys. rewrite bool_decide_eq_true. set_solver. Qed.

Lemma top_range i : (0 <= leaf i / LEAVES_PER_TOP < TOP_RANGES + 1)%Z.
Proof.
  pose proof (leaf_range i) as Hl. unfold LEAVES_PER_TOP, TOP_RANGES, LEAF_RANGES in *.
  Z.div_mod_to_equations. lia.
Qed.

(** Sums over the tops are sums over the claims. *)
Lemma sum_tops (w : string → Z) rs ids :
  NoDup rs → (∀ i, i ∈ ids → (leaf i / LEAVES_PER_TOP)%Z ∈ rs) →
  foldr (λ r acc, sum_of w (covered (1%Z, r) ids) + acc)%Z 0%Z rs = sum_of w ids.
Proof.
  intros Hnd. induction ids as [|i ids IH]; intros Hin.
  - clear. induction rs as [|r rs IH]; [done|]. cbn [foldr]. rewrite IH. done.
  - assert (∀ l, NoDup l → foldr (λ r acc, sum_of w (covered (1%Z, r) (i :: ids)) + acc)%Z 0%Z l =
      ((if bool_decide ((leaf i / LEAVES_PER_TOP)%Z ∈ l) then w i else 0) +
       foldr (λ r acc, sum_of w (covered (1%Z, r) ids) + acc)%Z 0%Z l)%Z) as Hgen.
    { clear. induction l as [|r l IH]; intros Hl; [done|]. cbn [foldr].
      apply NoDup_cons in Hl as [Hr Hl]. rewrite (IH Hl), sum_covered_cons.
      pose proof (covers_top r i) as Hc. destruct (covers (1%Z, r) i).
      - assert (r = leaf i / LEAVES_PER_TOP)%Z as -> by (by apply Hc).
        rewrite bool_decide_eq_false_2, bool_decide_eq_true_2 by set_solver. lia.
      - assert (r ≠ leaf i / LEAVES_PER_TOP)%Z as Hne by (intros E; by apply Hc in E).
        assert (bool_decide ((leaf i / LEAVES_PER_TOP)%Z ∈ r :: l) = bool_decide ((leaf i / LEAVES_PER_TOP)%Z ∈ l))
          as -> by (apply bool_decide_ext; set_solver). lia. }
    rewrite Hgen by done. rewrite bool_decide_eq_true_2 by (apply Hin; left).
    rewrite IH by (intros; apply Hin; by right). done.
Qed.

Lemma tops_exact db ids r :
  exact (rd_digests db) ids → r ∈ tops db →
  cr_count r = Z.of_nat (length (covered (1%Z, cr_range r) ids)) ∧
  cr_digest r = be_bytes 64 (sum_of weight (covered (1%Z, cr_range r) ids)).
Proof.
  intros [Hwf He] [Hget _]%elem_of_read_ranges; [|done]. rewrite He in Hget. unfold ClaimRanges.range_row, row in Hget.
  destruct (_ =? 0)%Z; [done|]. by injection Hget as <- <-.
Qed.

Lemma tops_NoDup db : bmap_wf (rd_digests db) → NoDup (cr_range <$> tops db).
Proof.
  intros Hwf. unfold tops, read_ranges. rewrite <-list_fmap_compose.
  apply bset_wf_NoDup in Hwf. unfold bmap_keys in Hwf.
  induction (rd_digests db) as [|[[l r] [n s]] d IH]; [constructor|]. cbn in Hwf |- *.
  apply NoDup_cons in Hwf as [Hn Hwf]. specialize (IH Hwf).
  destruct ((l =? 1) && (0 <=? r) && (r <? TOP_RANGES + 1))%Z eqn:E; [|done]. cbn. bool_prop. subst l.
  apply NoDup_cons. split; [|done].
  intros ([[l' r'] [n' s']] & Er & [Hin Hp]%filter_elem_of)%list_elem_of_fmap. cbn in Er. bool_prop. subst.
  apply Hn, list_elem_of_fmap. by exists ((1%Z, r'), (n', s')).
Qed.

(** The whole set's digest is the count and sum of every retained claim. *)
Lemma whole_exact db ids :
  exact (rd_digests db) ids →
  whole db = (Z.of_nat (length ids), be_bytes 64 (sum_of weight ids)).
Proof.
  intros He. pose proof (tops_exact db ids) as Ht. specialize (λ r, Ht r He).
  assert (∀ l n a, (∀ r, r ∈ l → r ∈ tops db) →
    foldl (λ '(count, digest) t, ((count + cr_count t)%Z, add digest (cr_digest t) false)) (n, be_bytes 64 a) l
    = ((n + foldr (λ r acc, sum_of (λ _, 1) (covered (1, r) ids) + acc) 0 (cr_range <$> l))%Z,
       be_bytes 64 (a + foldr (λ r acc, sum_of weight (covered (1, r) ids) + acc) 0 (cr_range <$> l))%Z)) as Hfold.
  { clear He. induction l as [|r l IH]; intros n a Hl; cbn [foldl fmap list_fmap foldr]; [by rewrite !Z.add_0_r|].
    destruct (Ht r) as [Hc Hd]; [apply Hl; left|]. rewrite Hc, Hd, add_be_bytes.
    rewrite IH by (intros; apply Hl; by right). rewrite sum_of_one. f_equal; [lia|f_equal; lia]. }
  unfold whole, zeros. rewrite Hfold by done.
  assert (∀ i, i ∈ ids → (leaf i / LEAVES_PER_TOP)%Z ∈ (cr_range <$> tops db)) as Hin.
  { intros i Hi. destruct He as [Hwf He]. specialize (He (1, leaf i / LEAVES_PER_TOP)%Z).
    assert (i ∈ covered (1, leaf i / LEAVES_PER_TOP)%Z ids) as Hc.
    { apply filter_elem_of. split; [done|]. by apply covers_top. }
    unfold ClaimRanges.range_row, row in He. destruct (Z.eqb_spec (Z.of_nat (length (covered (1, leaf i / LEAVES_PER_TOP)%Z ids))) 0) as [E|E].
    { destruct (covered _ ids); [set_solver|cbn in E; lia]. }
    apply list_elem_of_fmap. eexists {| cr_range := _; cr_count := _; cr_digest := _ |}. split; [done|].
    apply elem_of_read_ranges; [done|]. split; [exact He|]. apply top_range. }
  pose proof (tops_NoDup db (proj1 He)) as Hnd. rewrite !sum_tops by done. by rewrite sum_of_one.
Qed.
End reading.

(** ** Finding what is missing *)

Section missing.
Context (sha512 : list ascii → list ascii) (hex_encode : list ascii → string).
Hypothesis hex_encode_inj : ∀ a b, hex_encode a = hex_encode b → a = b.

(** A count and a sum of hashes. *)
Definition fingerprint (ids : list string) : Z * list ascii :=
  (Z.of_nat (length ids), be_bytes 64 (sum_of (weight sha512) ids)).

(** No collision between two stores: equal counts and sums mean equal claims,
    for the whole sets and for each range. *)
Definition collision_free (ours theirs : list string) : Prop :=
  (fingerprint ours = fingerprint theirs → ∀ i, i ∈ theirs → i ∈ ours) ∧
  ∀ key, fingerprint (covered key ours) = fingerprint (covered key theirs) →
         ∀ i, i ∈ covered key theirs → i ∈ covered key ours.

Lemma local_map_get (local : list ClaimRange) m r v :
  bmap_get r (foldl (λ m r, bmap_insert (cr_range r) (cr_count r, hex_encode (cr_digest r)) m) m local) = Some v →
  bmap_get r m = Some v ∨ ∃ x, x ∈ local ∧ cr_range x = r ∧ v = (cr_count x, hex_encode (cr_digest x)).
Proof.
  revert m. induction local as [|x l IH]; intros m; cbn; [by left|]. intros [H|(y & Hy & Hr & Hv)]%IH.
  - destruct (decide (r = cr_range x)) as [->|Hne].
    + rewrite bmap_get_insert in H. injection H as <-. right. exists x. split_and!; [left|done|done].
    + rewrite bmap_get_insert_ne in H by done. by left.
  - right. exists y. split_and!; [by right|done|done].
Qed.

(** A range in which the peer holds a claim we lack is named. *)
Lemma differing_names ours theirs level from to key_range i :
  exact sha512 (rd_digests ours) (rd_claims ours).*2 →
  exact sha512 (rd_digests theirs) (rd_claims theirs).*2 →
  collision_free (rd_claims ours).*2 (rd_claims theirs).*2 →
  covers (level, key_range) i = true → i ∈ (rd_claims theirs).*2 → i ∉ (rd_claims ours).*2 →
  (from <= key_range < to)%Z →
  key_range ∈ differing hex_encode (read_ranges ours level from to)
                (entry hex_encode <$> read_ranges theirs level from to).
Proof.
  intros [Hwf He] [Hwf' He'] [_ Hfree] Hcov Hin Hnin Hr.
  set (key := (level, key_range)) in *. specialize (Hfree key).
  assert (i ∈ covered key (rd_claims theirs).*2) as Hc by (apply filter_elem_of; done).
  assert (bmap_get key (rd_digests theirs) = Some (fingerprint (covered key (rd_claims theirs).*2))) as Hrow.
  { rewrite He'. unfold range_row, row, fingerprint. destruct (Z.eqb_spec (Z.of_nat (length (covered key (rd_claims theirs).*2))) 0); [|done].
    destruct (covered key (rd_claims theirs).*2); [set_solver|cbn in *; lia]. }
  set (x := {| cr_range := key_range; cr_count := (fingerprint (covered key (rd_claims theirs).*2)).1;
               cr_digest := (fingerprint (covered key (rd_claims theirs).*2)).2 |}).
  apply list_elem_of_fmap. exists (entry hex_encode x). split; [done|]. apply filter_elem_of. split.
  - apply list_elem_of_fmap. exists x. split; [done|]. apply elem_of_read_ranges; [done|]. by split.
  - apply negb_true_iff, bool_decide_eq_false. intros Hget.
    apply local_map_get in Hget as [?|(y & Hy & Hyr & Hv)]; [done|].
    apply elem_of_read_ranges in Hy as [Hy _]; [|done]. rewrite Hyr in Hy. cbn in Hv. injection Hv as Hcount Hdig.
    apply hex_encode_inj in Hdig. rewrite <-Hcount, <-Hdig, He in Hy. change (en_range (entry hex_encode x)) with key_range in Hy.
    fold key in Hy. unfold range_row, row in Hy. destruct (_ =? 0)%Z; [done|].
    assert (fingerprint (covered key (rd_claims ours).*2) = fingerprint (covered key (rd_claims theirs).*2)) as Hf.
    { exact (f_equal (default (0%Z, [])) Hy). }
    specialize (Hfree Hf i Hc). apply filter_elem_of in Hfree as [? _]. done.
Qed.

Lemma leaves_name ours theirs query i :
  exact sha512 (rd_digests ours) (rd_claims ours).*2 →
  exact sha512 (rd_digests theirs) (rd_claims theirs).*2 →
  collision_free (rd_claims ours).*2 (rd_claims theirs).*2 →
  i ∈ (rd_claims theirs).*2 → i ∉ (rd_claims ours).*2 →
  (leaf i / LEAVES_PER_TOP)%Z ∈ firstn CLAIM_RANGE_QUERY_TOPS (qu_leaves_of query) →
  leaf i ∈ concat ((λ g, differing hex_encode (leaves ours (gl_top g)) (gl_leaves g)) <$>
    List.filter (λ g, (gl_top g <=? TOP_RANGES)%Z) (firstn CLAIM_RANGE_QUERY_TOPS
      ((λ top, {| gl_top := top; gl_leaves := entry hex_encode <$> leaves theirs top |}) <$>
        List.filter (λ top, (top <=? TOP_RANGES)%Z) (firstn CLAIM_RANGE_QUERY_TOPS (qu_leaves_of query))))).
Proof.
  intros He He' Hfree Hin Hnin Htop. pose proof (top_range i) as Htr.
  set (asked := firstn CLAIM_RANGE_QUERY_TOPS (qu_leaves_of query)) in *.
  assert (length (List.filter (λ top, (top <=? TOP_RANGES)%Z) asked) <= CLAIM_RANGE_QUERY_TOPS)%nat as Hlen.
  { etransitivity; [apply List.filter_length_le|]. unfold asked. rewrite length_take. lia. }
  rewrite (take_ge (_ <$> _)) by (by rewrite length_fmap).
  set (top := (leaf i / LEAVES_PER_TOP)%Z) in *.
  rewrite list_elem_of_In, in_concat.
  exists (differing hex_encode (leaves ours top) (entry hex_encode <$> leaves theirs top)). split.
  - rewrite <-list_elem_of_In. apply list_elem_of_fmap.
    exists {| gl_top := top; gl_leaves := entry hex_encode <$> leaves theirs top |}. split; [done|].
    apply filter_elem_of. cbn. split; [|apply Z.leb_le; unfold TOP_RANGES in *; lia].
    apply list_elem_of_fmap. exists top. split; [done|]. apply filter_elem_of.
    split; [done|]. apply Z.leb_le. unfold TOP_RANGES in *. lia.
  - rewrite <-list_elem_of_In. apply (differing_names ours theirs 2 _ _ _ i); try done; [by apply covers_leaf|].
    unfold top, LEAVES_PER_TOP. Z.div_mod_to_equations. lia.
Qed.

Lemma ids_name ours theirs retired query i :
  i ∈ (rd_claims theirs).*2 → i ∉ (rd_claims ours).*2 → regular i = true → retired i = false →
  head (qu_ids_of query) = Some (leaf i) →
  i ∈ compare_ids ours retired 0 (firstn CLAIM_RANGE_QUERY_LEAVES
        (answer_ids theirs 0 (firstn CLAIM_RANGE_QUERY_LEAVES (qu_ids_of query)))).
Proof.
  intros Hin Hnin Hreg Hret Hh. destruct (regular_hex3 i Hreg) as [Hlr _].
  destruct (qu_ids_of query) as [|l rest]; [done|]. injection Hh as ->.
  unfold CLAIM_RANGE_QUERY_LEAVES. change (take 8 (leaf i :: rest)) with (leaf i :: take 7 rest).
  cbn [answer_ids]. change (CLAIM_RANGE_ANSWER_IDS <=? 0)%nat with false.
  replace (leaf i <? LEAF_RANGES)%Z with true by (symmetry; apply Z.ltb_lt; lia).
  set (tl := answer_ids theirs _ _). change (take 8 (?x :: tl)) with (x :: take 7 tl).
  cbn [take firstn compare_ids gi_leaf gi_ids]. change (CLAIM_RANGE_ANSWER_IDS <=? 0)%nat with false.
  replace (LEAF_RANGES <=? leaf i)%Z with false by (symmetry; apply Z.leb_gt; lia). cbn [orb].
  apply elem_of_app. left. apply filter_elem_of. split; [by apply elem_of_ids_in_leaf|].
  rewrite Z.eqb_refl, Hret. cbn [andb negb]. rewrite andb_true_r. apply negb_true_iff, bset_mem_false.
  rewrite elem_of_bset_of_list, elem_of_ids_in_leaf. tauto.
Qed.

(** C22: The walk finds what is missing.  Let both indexes be complete and their rows
    exact, let no two ranges that are compared have equal counts and digests and
    different claims, and let the peer retain a claim with a regular id that we
    neither retain nor have retired.  Then the answer is compared, the two sets are
    not taken to be the same, and the claim is named at the level that is asked about:
    its top among the differing tops, when the query asks for the tops; its leaf among
    the differing leaves, when its top is among the tops asked about that the answer
    looks at, the first [CLAIM_RANGE_QUERY_TOPS]; the claim itself among the missing
    ones, when its leaf is the first leaf asked about.  Of a later leaf nothing is said:
    the answer stops after [CLAIM_RANGE_ANSWER_IDS] ids. *)
Theorem compare_finds_missing ours theirs retired query i :
  exact sha512 (rd_digests ours) (rd_claims ours).*2 → complete ours = true →
  exact sha512 (rd_digests theirs) (rd_claims theirs).*2 → complete theirs = true →
  collision_free (rd_claims ours).*2 (rd_claims theirs).*2 →
  i ∈ (rd_claims theirs).*2 → i ∉ (rd_claims ours).*2 → regular i = true → retired i = false →
  ∃ c, compare_claim_ranges hex_encode ours retired (summary_answering hex_encode theirs (Some query)) = Some c ∧
    co_same c = false ∧
    (qu_tops query = true → (leaf i / LEAVES_PER_TOP)%Z ∈ co_tops c) ∧
    ((leaf i / LEAVES_PER_TOP)%Z ∈ firstn CLAIM_RANGE_QUERY_TOPS (qu_leaves_of query) → leaf i ∈ co_leaves c) ∧
    (head (qu_ids_of query) = Some (leaf i) → i ∈ co_missing c).
Proof.
  intros He Hc He' Hc' Hfree Hin Hnin Hreg Hret.
  unfold compare_claim_ranges, summary_answering. rewrite Hc', Hc. cbn [negb].
  rewrite !(whole_exact sha512 _ _ He), !(whole_exact sha512 _ _ He').
  cbn [su_retained su_version su_tops su_leaves su_ids rg_count rg_digest].
  change (CLAIM_RANGE_VERSION =? CLAIM_RANGE_VERSION)%Z with true. cbn [negb].
  assert ((Z.of_nat (length (rd_claims ours).*2) =? Z.of_nat (length (rd_claims theirs).*2))%Z &&
    String.eqb (hex_encode (be_bytes 64 (sum_of (weight sha512) (rd_claims ours).*2)))
       (hex_encode (be_bytes 64 (sum_of (weight sha512) (rd_claims theirs).*2))) = false) as ->.
  { apply not_true_iff_false. intros [E1 E2]%andb_true_iff. apply Z.eqb_eq in E1.
    apply String.eqb_eq, hex_encode_inj in E2. apply Hnin. destruct Hfree as [Hw _]. apply Hw; [|done].
    unfold fingerprint. by rewrite E1, E2. }
  eexists. split; [done|]. cbn [co_same co_tops co_leaves co_missing]. split; [done|].
  pose proof (top_range i) as Htr. split_and!.
  - intros ->. apply (differing_names ours theirs 1 0 (TOP_RANGES + 1) _ i); try done. by apply covers_top.
  - intros Htop. by apply leaves_name.
  - intros Hh. by apply ids_name.
Qed.
End missing.

(** ** Two members for the witnesses *)

(** [hex::encode]: two digits for each byte. *)
Definition demo_hex (l : list ascii) : string :=
  string_of (concat ((λ b, [hex_char (byte_val b / 16); hex_char (byte_val b mod 16)]%Z) <$> l)).

Lemma demo_hex_inj a b : demo_hex a = demo_hex b → a = b.
Proof.
  unfold demo_hex. intros H%(f_equal bytes_of). rewrite !bytes_of_string_of in H.
  revert b H. induction a as [|x a IH]; intros [|y b] H; [done..|]. cbn [fmap list_fmap concat app] in H.
  assert (∀ x y : ascii, hex_char (byte_val x / 16)%Z = hex_char (byte_val y / 16)%Z →
    hex_char (byte_val x mod 16)%Z = hex_char (byte_val y mod 16)%Z → x = y) as Hone.
  { assert (∀ n, (0 <= n < 16)%Z → hex_digit (hex_char n) = Some n) as Hd.
    { intros n Hn. assert (n ∈ seqZ 0 16) as Hin by (apply elem_of_seqZ; lia).
      assert (Forall (λ n, hex_digit (hex_char n) = Some n) (seqZ 0 16)) as Hall.
      { change (seqZ 0 16) with [0; 1; 2; 3; 4; 5; 6; 7; 8; 9; 10; 11; 12; 13; 14; 15]%Z. repeat constructor. }
      rewrite Forall_forall in Hall. by apply Hall. }
    intros u v Hh Hl. pose proof (byte_val_range u). pose proof (byte_val_range v).
    apply (f_equal hex_digit) in Hh, Hl. rewrite !Hd in Hh, Hl by (Z.div_mod_to_equations; lia).
    assert (byte_val u = byte_val v) as E.
    { assert (byte_val u / 16 = byte_val v / 16)%Z by congruence.
      assert (byte_val u mod 16 = byte_val v mod 16)%Z by congruence. Z.div_mod_to_equations. lia. }
    by apply byte_val_inj. }
  assert (x = y) as -> by (apply Hone; congruence). f_equal. apply IH. congruence.
Qed.

Definition demo_ours : RangeDb := demo_folded (install [(1%Z, demo_id "0" "a" "7")] 2).
Definition demo_theirs : RangeDb :=
  demo_folded (install [(1%Z, demo_id "f" "0" "1"); (4%Z, demo_id "0" "a" "7")] 5).
Definition demo_query : ClaimRangeQuery :=
  {| qu_tops := true; qu_leaves_of := [60%Z]; qu_ids_of := [3841%Z]; qu_claims := [] |}.

Lemma demo_collision_free : collision_free demo_sha512 (rd_claims demo_ours).*2 (rd_claims demo_theirs).*2.
Proof.
  assert ((rd_claims demo_ours).*2 = [demo_id "0" "a" "7"]) as -> by reflexivity.
  assert ((rd_claims demo_theirs).*2 = [demo_id "f" "0" "1"; demo_id "0" "a" "7"]) as -> by reflexivity.
  split; [intros H%(f_equal fst); done|]. intros key. unfold covered, fingerprint. cbn [List.filter].
  destruct (covers key (demo_id "f" "0" "1")), (covers key (demo_id "0" "a" "7")); intros H%(f_equal fst); done.
Qed.

Lemma compare_finds_missing_witness :
  ∃ c, compare_claim_ranges demo_hex demo_ours (λ _, false)
         (summary_answering demo_hex demo_theirs (Some demo_query)) = Some c ∧
    co_same c = false ∧ 60%Z ∈ co_tops c ∧ 3841%Z ∈ co_leaves c ∧ demo_id "f" "0" "1" ∈ co_missing c.
Proof.
  assert (complete demo_ours = true) as Ho by (vm_compute; reflexivity).
  assert (complete demo_theirs = true) as Ht by (vm_compute; reflexivity).
  assert (legacy_store [(1%Z, demo_id "0" "a" "7")] 2) as Hlo.
  { split_and!; [repeat constructor|apply NoDup_singleton|]. intros c ->%list_elem_of_singleton. cbn. lia. }
  assert (legacy_store [(1%Z, demo_id "f" "0" "1"); (4%Z, demo_id "0" "a" "7")] 5) as Hlt.
  { split_and!; [repeat constructor| |].
    - apply NoDup_cons. split; [|apply NoDup_singleton]. by intros E%list_elem_of_singleton.
    - intros c [-> | ->%list_elem_of_singleton]%elem_of_cons; cbn; lia. }
  destruct (compare_finds_missing demo_sha512 demo_hex demo_hex_inj demo_ours demo_theirs (λ _, false) demo_query
    (demo_id "f" "0" "1") (demo_folded_exact _ _ Hlo Ho) Ho (demo_folded_exact _ _ Hlt Ht) Ht demo_collision_free)
    as (c & Hc & Hs & H1 & H2 & H3).
  - change ((rd_claims demo_theirs).*2) with [demo_id "f" "0" "1"; demo_id "0" "a" "7"]. left.
  - change ((rd_claims demo_ours).*2) with [demo_id "0" "a" "7"]. by intros E%list_elem_of_singleton.
  - reflexivity.
  - reflexivity.
  - exists c. split; [exact Hc|]. split; [exact Hs|]. split; [apply H1; reflexivity|].
    split; [apply H2; left|]. apply H3. reflexivity.
Defined.

Lemma retry_next_query_witness :
  let w := absorb (walk_new "a/b") {| co_same := false; co_pair := "a/b"; co_tops := [3; 9]%Z;
                                      co_leaves := [200%Z]; co_missing := ["y"; "x"] |} in
  ∃ w' q, next_query w = (w', Some q) ∧ qu_claims q = ["x"; "y"] ∧ retry w' q = w.
Proof.
  intros w. destruct (next_query w) as [w' [q|]] eqn:E; [|vm_compute in E; discriminate E].
  assert (bset_wf (wa_missing w)) as Hwf by (apply bset_extend_wf; constructor).
  exists w', q. split; [reflexivity|]. split; [|exact (proj1 (retry_next_query w w' q Hwf E))].
  assert (Some (qu_claims q) = Some ["x"; "y"]) as Hq; [|congruence].
  change (Some (qu_claims q)) with (qu_claims <$> (w', Some q).2). rewrite <-E. vm_compute. reflexivity.
Defined.
