(* ===== verification/Windows.v ===== *)
(** * Rolling latency windows (crates/smallclaims/src/windows.rs)

    Each series keeps three rings of slots, each slot a sparse log histogram of
    the samples of one epoch.  Times are seconds since the process's origin and
    durations microseconds.  A [Vec] of buckets that is always sorted and searched
    by [binary_search_by_key] is a [BTreeMap]; counts are [u64] and their
    arithmetic is written out. *)

From S2P Require Import Prelude BTree.

Local Open Scope Z_scope.

(** ** Buckets *)

Definition TIERS : list (string * (Z * nat)) := [("1m", (5, 12%nat)); ("5m", (30, 10%nat)); ("1h", (300, 12%nat))]%string.
Definition SUB : Z := 16.

(** [u64::leading_zeros] *)
Definition leading_zeros (us : Z) : Z := if us =? 0 then 64 else 63 - Z.log2 us.

Definition bucket (us : Z) : Z :=
  if us <? SUB then us
  else
    let exponent := 63 - leading_zeros us in
    let sub := Z.shiftr us (exponent - 4) - SUB in
    (SUB + (exponent - 4) * SUB + sub) mod (u16_max + 1).

Definition upper (b : Z) : Z :=
  if b <? SUB then b
  else
    let exponent := (b - SUB) / SUB + 4 in
    let sub := (b - SUB) mod SUB in
    let bound := Z.shiftl (SUB + sub + 1) (exponent - 4) in
    if bound - 1 <=? u64_max then bound - 1 else u64_max.

(** ** Histograms *)

Record Histogram := {
  h_count : Z;
  h_over : Z;
  h_max_us : Z;
  h_buckets : BTreeMap Z Z
}.

Definition histogram_default : Histogram := {| h_count := 0; h_over := 0; h_max_us := 0; h_buckets := [] |}.

(** The two arms of the binary search: add to the bucket found, or insert it. *)
Definition bump_bucket (m : BTreeMap Z Z) (b n : Z) : BTreeMap Z Z :=
  match bmap_get b m with
  | Some c => bmap_insert b (sadd64 c n) m
  | None => bmap_insert b n m
  end.

Definition histogram_add (h : Histogram) (us : Z) (over : bool) : Histogram :=
  {| h_count := wadd64 (h_count h) 1;
     h_over := wadd64 (h_over h) (if over then 1 else 0);
     h_max_us := Z.max (h_max_us h) us;
     h_buckets := bump_bucket (h_buckets h) (bucket us) 1 |}.

Definition histogram_merge (h other : Histogram) : Histogram :=
  {| h_count := wadd64 (h_count h) (h_count other);
     h_over := wadd64 (h_over h) (h_over other);
     h_max_us := Z.max (h_max_us h) (h_max_us other);
     h_buckets := foldl (λ m '(b, n), bump_bucket m b n) (h_buckets h) (h_buckets other) |}.

(** The loop of [percentile]. *)
Fixpoint percentile_loop (max_us rank seen : Z) (buckets : list (Z * Z)) : Z :=
  match buckets with
  | [] => max_us
  | (b, n) :: rest =>
      let seen := wadd64 seen n in
      if rank <=? seen then Z.min (upper b) max_us else percentile_loop max_us rank seen rest
  end.

(** [div_ceil] *)
Definition div_ceil (a b : Z) : Z := if a mod b =? 0 then a / b else a / b + 1.
Definition percentile (h : Histogram) (percent : Z) : Z :=
  let rank := Z.max (div_ceil ((h_count h * percent) mod (u64_max + 1)) 100) 1 in
  percentile_loop (h_max_us h) rank 0 (h_buckets h).

(** ** Series *)

Record Slot := { s_epoch : Z; s_histogram : Histogram }.
Definition slot_default : Slot := {| s_epoch := 0; s_histogram := histogram_default |}.

Definition Series : Type := list (list Slot).
Definition series_default : Series := [[]; []; []].

(** The body of [record]'s loop over the tiers. *)
Definition ring_record (width : Z) (slots : nat) (ring : list Slot) (since us : Z) (over : bool) : list Slot :=
  let epoch := since / width in
  let ring := if bool_decide (ring = []) then replicate slots slot_default else ring in
  let at_ := Z.to_nat (epoch mod Z.of_nat slots) in
  match ring !! at_ with
  | None => ring (* unreachable: a ring has [slots] slots *)
  | Some slot =>
      if (0 <? h_count (s_histogram slot)) && (epoch <? s_epoch slot) then ring
      else
        let slot := if negb (s_epoch slot =? epoch) || (h_count (s_histogram slot) =? 0)
                    then {| s_epoch := epoch; s_histogram := histogram_default |} else slot in
        <[at_ := {| s_epoch := s_epoch slot; s_histogram := histogram_add (s_histogram slot) us over |}]> ring
  end.

(** [Series::record] of a sample that finished [since] seconds after the origin
    and took [micros]. *)
Definition series_record (s : Series) (since micros : Z) (over : bool) : Series :=
  let us := Z.min micros u64_max in
  zip_with (λ ring '(_, (width, slots)), ring_record width slots ring since us over) s TIERS.

(** [Series::window] of one ring. *)
Definition ring_window (width : Z) (slots : nat) (ring : list Slot) (since : Z) : Histogram :=
  let epoch := since / width in
  foldl (λ merged slot,
      if (0 <? h_count (s_histogram slot)) && (epoch <? s_epoch slot + Z.of_nat slots) && (s_epoch slot <=? epoch)
      then histogram_merge merged (s_histogram slot) else merged)
    histogram_default ring.
Definition series_window (s : Series) (tier : nat) (since : Z) : Histogram :=
  match TIERS !! tier, s !! tier with
  | Some (_, (width, slots)), Some ring => ring_window width slots ring since
  | _, _ => histogram_default
  end.

(** [Series::absorb] *)
Definition slot_absorb (mine theirs : Slot) : Slot :=
  if h_count (s_histogram theirs) =? 0 then mine
  else if (h_count (s_histogram mine) =? 0) || (s_epoch mine <? s_epoch theirs) then theirs
  else if s_epoch mine =? s_epoch theirs then
    {| s_epoch := s_epoch mine; s_histogram := histogram_merge (s_histogram mine) (s_histogram theirs) |}
  else mine.
(** Over the shorter of the two rings, as [zip] does; the rest is left alone. *)
Fixpoint ring_absorb (ring theirs : list Slot) : list Slot :=
  match ring, theirs with
  | mine :: ring', their :: theirs' => slot_absorb mine their :: ring_absorb ring' theirs'
  | _, _ => ring
  end.
Definition series_absorb (s other : Series) : Series :=
  zip_with (λ ring theirs, if bool_decide (ring = []) then theirs else ring_absorb ring theirs) s other.

(** [Series::is_empty] *)
Definition series_is_empty (s : Series) (since : Z) : bool :=
  forallb (λ tier, h_count (series_window s tier since) =? 0) (List.seq 0 (length TIERS)).

(** ** The precision of a bucket *)

Lemma bucket_shape us :
  SUB <= us <= u64_max →
  ∃ e q, 0 <= e <= 59 ∧ SUB <= q < 2 * SUB ∧ q * 2 ^ e <= us < (q + 1) * 2 ^ e ∧ bucket us = e * SUB + q.
Proof.
  unfold SUB, u64_max. intros Hus. unfold bucket, leading_zeros, SUB, u16_max.
  destruct (Z.ltb_spec us 16); [lia|]. destruct (Z.eqb_spec us 0); [lia|].
  set (l := Z.log2 us). destruct (Z.log2_spec us ltac:(lia)) as [Hlo Hhi]. fold l in Hlo, Hhi.
  assert (4 <= l) as Hl4 by (apply (Z.log2_le_mono 16); lia).
  assert (l < 64) as Hl64 by (apply Z.log2_lt_pow2; lia).
  replace (63 - (63 - l)) with l by lia. rewrite Z.shiftr_div_pow2 by lia.
  exists (l - 4), (us / 2 ^ (l - 4)). set (P := 2 ^ (l - 4)).
  assert (0 < P) by (apply Z.pow_pos_nonneg; lia).
  assert (2 ^ l = 16 * P) as HP by (unfold P; rewrite <-(Z.pow_add_r 2 4) by lia; f_equal; lia).
  assert (2 ^ Z.succ l = 32 * P) as HP' by (rewrite Z.pow_succ_r by lia; lia).
  assert (16 <= us / P < 32) as Hq by (split; [apply Z.div_le_lower_bound|apply Z.div_lt_upper_bound]; lia).
  pose proof (Z.div_mod us P ltac:(lia)). pose proof (Z.mod_pos_bound us P ltac:(lia)).
  split_and!; try lia; try nia. rewrite Z.mod_small; lia.
Qed.

Lemma upper_shape e q :
  0 <= e <= 59 → SUB <= q < 2 * SUB → upper (e * SUB + q) = (q + 1) * 2 ^ e - 1.
Proof.
  unfold SUB. intros He Hq. unfold upper, SUB, u64_max. destruct (Z.ltb_spec (e * 16 + q) 16); [lia|].
  replace (e * 16 + q - 16) with (e * 16 + (q - 16)) by lia.
  rewrite Z.div_add_l, (Z.div_small (q - 16)) by lia.
  replace ((e * 16 + (q - 16)) mod 16) with (q - 16) by (Z.div_mod_to_equations; lia).
  rewrite Z.shiftl_mul_pow2 by lia. replace (e + 0 + 4 - 4) with e by lia.
  replace (16 + (q - 16) + 1) with (q + 1) by lia.
  assert (2 ^ e <= 2 ^ 59) by (apply Z.pow_le_mono_r; lia). change (2 ^ 59) with 576460752303423488 in *.
  destruct (Z.leb_spec ((q + 1) * 2 ^ e - 1) 18446744073709551615); nia.
Qed.

Lemma bucket_small us : us < SUB → bucket us = us ∧ upper us = us.
Proof. intros H. unfold bucket, upper. destruct (Z.ltb_spec us SUB); [done|lia]. Qed.

Lemma upper_bucket us : u64 us → us <= upper (bucket us) <= us + us / SUB.
Proof.
  unfold u64. intros Hus. destruct (Z.ltb_spec us SUB) as [Hs|Hs].
  - destruct (bucket_small us Hs) as [-> ->]. pose proof (Z.div_pos us SUB). unfold SUB in *. lia.
  - destruct (bucket_shape us) as (e & q & He & Hq & Hb & ->); [lia|]. rewrite upper_shape by done.
    assert (0 < 2 ^ e) by (apply Z.pow_pos_nonneg; lia). split; [lia|].
    assert (2 ^ e <= us / SUB); [|lia]. unfold SUB in *. apply Z.div_le_lower_bound; [lia|]. nia.
Qed.

Lemma bucket_range us : u64 us → 0 <= bucket us < 976.
Proof.
  unfold u64. intros Hus. destruct (Z.ltb_spec us SUB) as [Hs|Hs].
  - destruct (bucket_small us Hs) as [-> _]. unfold SUB in *. lia.
  - destruct (bucket_shape us) as (e & q & He & Hq & _ & ->); [lia|]. unfold SUB in *. lia.
Qed.

Lemma bucket_mono us us' : u64 us' → 0 <= us <= us' → bucket us <= bucket us'.
Proof.
  unfold u64. intros Hus' Hus. destruct (Z.ltb_spec us SUB) as [Hs|Hs].
  - destruct (bucket_small us Hs) as [-> _]. destruct (Z.ltb_spec us' SUB) as [Hs'|Hs'].
    + destruct (bucket_small us' Hs') as [-> _]. lia.
    + destruct (bucket_shape us') as (e & q & He & Hq & _ & ->); [lia|]. unfold SUB in *. lia.
  - destruct (bucket_shape us) as (e & q & He & Hq & Hb & ->); [lia|].
    destruct (bucket_shape us') as (e' & q' & He' & Hq' & Hb' & ->); [lia|]. unfold SUB in *.
    destruct (Z.lt_total e e') as [Hlt|[<-|Hgt]]; [lia| |].
    + assert (0 < 2 ^ e) by (apply Z.pow_pos_nonneg; lia). nia.
    + assert (2 * 2 ^ e' <= 2 ^ e) by (rewrite <-Z.pow_succ_r by lia; apply Z.pow_le_mono_r; lia).
      assert (0 < 2 ^ e') by (apply Z.pow_pos_nonneg; lia). nia.
Qed.

Lemma upper_u64 us : u64 us → u64 (upper (bucket us)).
Proof.
  unfold u64. intros Hus. pose proof (upper_bucket us Hus) as [Hlo _]. split; [lia|].
  unfold upper. destruct (Z.ltb_spec (bucket us) SUB) as [H|H]; [unfold SUB, u64_max in *; lia|].
  destruct (Z.leb_spec (Z.shiftl (SUB + (bucket us - SUB) mod SUB + 1) ((bucket us - SUB) / SUB + 4 - 4) - 1) u64_max); lia.
Qed.

Lemma bucket_upper us : u64 us → bucket (upper (bucket us)) = bucket us.
Proof.
  intros Hus. pose proof (upper_u64 us Hus) as Hu. unfold u64 in *.
  destruct (Z.ltb_spec us SUB) as [Hs|Hs]; [by destruct (bucket_small us Hs) as [-> ->]; apply bucket_small|].
  pose proof (upper_bucket us Hus) as [Hle _].
  destruct (bucket_shape (upper (bucket us))) as (e' & q' & He' & Hq' & Hb' & ->); [lia|].
  destruct (bucket_shape us) as (e & q & He & Hq & Hb & E); [lia|]. rewrite E in *.
  rewrite upper_shape in Hb' by done. unfold SUB in *.
  destruct (Z.lt_total e e') as [Hlt|[<-|Hgt]].
  - assert (2 * 2 ^ e <= 2 ^ e') by (rewrite <-Z.pow_succ_r by lia; apply Z.pow_le_mono_r; lia). nia.
  - assert (0 < 2 ^ e) by (apply Z.pow_pos_nonneg; lia). assert (q = q') by nia. lia.
  - assert (2 * 2 ^ e' <= 2 ^ e) by (rewrite <-Z.pow_succ_r by lia; apply Z.pow_le_mono_r; lia).
    assert (0 < 2 ^ e') by (apply Z.pow_pos_nonneg; lia). nia.
Qed.

(** A bucket names its samples to within one sixteenth: the bound of a
    sample's bucket is at least the sample and exceeds it by at most a sixteenth
    of it, is itself in that bucket, and bucket numbers stay below 976 and in the
    order of the samples. *)
Theorem bucket_precise us us' :
  u64 us → u64 us' →
  us <= upper (bucket us) <= us + us / SUB ∧ bucket (upper (bucket us)) = bucket us ∧
  0 <= bucket us < 976 ∧ (us <= us' → bucket us <= bucket us').
Proof.
  intros Hus Hus'. split; [by apply upper_bucket|]. split; [by apply bucket_upper|].
  split; [by apply bucket_range|]. intros Hle. apply bucket_mono; [done|]. unfold u64 in Hus. lia.
Qed.

Lemma bucket_precise_witness : 1000 <= upper (bucket 1000) <= 1062 ∧ upper (bucket 1000) = 1023.
Proof.
  assert (u64 1000) as Hu by (split; vm_compute; discriminate).
  destruct (bucket_precise 1000 1000 Hu Hu) as [H _]. split; [exact H|reflexivity].
Defined.

(** ** What a histogram summarizes *)

(** Samples with what they took and whether they missed their target. *)
Definition Sample : Type := Z * bool.
Definition in_bucket (b : Z) (samples : list Sample) : Z :=
  Z.of_nat (length (List.filter (λ x : Sample, bucket x.1 =? b) samples)).
Definition missed (samples : list Sample) : Z :=
  Z.of_nat (length (List.filter (λ x : Sample, x.2) samples)).
Definition longest (samples : list Sample) : Z := foldr (λ x acc, Z.max x.1 acc) 0 samples.

Definition summarizes (h : Histogram) (samples : list Sample) : Prop :=
  h_count h = Z.of_nat (length samples) ∧ h_over h = missed samples ∧ h_max_us h = longest samples ∧
  bmap_wf (h_buckets h) ∧
  ∀ b, bmap_get b (h_buckets h) = if in_bucket b samples =? 0 then None else Some (in_bucket b samples).

Lemma bump_bucket_wf m b n : bmap_wf m → bmap_wf (bump_bucket m b n).
Proof. intros H. unfold bump_bucket. destruct (bmap_get b m); by apply bmap_insert_wf. Qed.

Lemma bump_bucket_get m b n b' :
  bmap_get b' (bump_bucket m b n) =
    if b' =? b then Some (match bmap_get b m with Some c => sadd64 c n | None => n end) else bmap_get b' m.
Proof.
  unfold bump_bucket. destruct (Z.eqb_spec b' b) as [->|Hne].
  - destruct (bmap_get b m); by rewrite bmap_get_insert.
  - destruct (bmap_get b m); by rewrite bmap_get_insert_ne.
Qed.

Lemma in_bucket_range b samples : 0 <= in_bucket b samples <= Z.of_nat (length samples).
Proof.
  unfold in_bucket. pose proof (List.filter_length_le (λ x : Sample, bucket x.1 =? b) samples). lia.
Qed.

Lemma in_bucket_app b l l' : in_bucket b (l ++ l') = in_bucket b l + in_bucket b l'.
Proof. unfold in_bucket. rewrite List.filter_app, length_app. lia. Qed.

Lemma missed_range samples : 0 <= missed samples <= Z.of_nat (length samples).
Proof. unfold missed. pose proof (List.filter_length_le (λ x : Sample, x.2) samples). lia. Qed.

Lemma longest_app l l' : longest (l ++ l') = Z.max (longest l) (longest l').
Proof.
  unfold longest. induction l as [|x l IH]; cbn [app foldr].
  - assert (0 <= foldr (λ x acc, Z.max x.1 acc) 0 l') by (clear; induction l'; cbn; lia). lia.
  - rewrite IH. lia.
Qed.

Lemma longest_spec samples : 0 <= longest samples ∧ ∀ x, x ∈ samples → x.1 <= longest samples.
Proof.
  induction samples as [|y l [IH1 IH2]]; [split; [done|set_solver]|]. cbn. fold (longest l). split; [lia|].
  intros x [-> |Hx%IH2]%elem_of_cons; lia.
Qed.

Lemma filter_length_perm {A} (p : A → bool) l l' :
  l ≡ₚ l' → length (List.filter p l) = length (List.filter p l').
Proof. induction 1; cbn; try congruence; repeat case_match; cbn; congruence. Qed.

Lemma summarizes_perm h l l' : l ≡ₚ l' → summarizes h l → summarizes h l'.
Proof.
  intros Hp (H1 & H2 & H3 & H4 & H5).
  pose proof (λ p, filter_length_perm p l l' Hp) as Hf.
  assert (longest l = longest l') as Hl by (clear -Hp; unfold longest; induction Hp; cbn; lia).
  split_and!.
  - by rewrite H1, Hp.
  - rewrite H2. unfold missed. by rewrite Hf.
  - by rewrite H3.
  - done.
  - intros b. rewrite H5. unfold in_bucket. by rewrite Hf.
Qed.

Lemma summarizes_default : summarizes histogram_default [].
Proof. by split_and!; [..|constructor|]. Qed.

Lemma wadd64_count (n m : nat) :
  Z.of_nat (n + m) <= u64_max → wadd64 (Z.of_nat n) (Z.of_nat m) = Z.of_nat (n + m).
Proof. intros H. rewrite wadd64_exact; lia. Qed.

Lemma histogram_add_summarizes h samples us over :
  summarizes h samples → Z.of_nat (S (length samples)) <= u64_max → 0 <= us →
  summarizes (histogram_add h us over) ((us, over) :: samples).
Proof.
  intros (H1 & H2 & H3 & H4 & H5) Hlen Hus. pose proof (missed_range samples) as Hm. split_and!; cbn.
  - rewrite H1, wadd64_exact; lia.
  - rewrite H2. unfold missed in *. cbn. destruct over; cbn; rewrite wadd64_exact; lia.
  - rewrite H3. fold (longest samples). lia.
  - by apply bump_bucket_wf.
  - intros b. rewrite bump_bucket_get, !H5. pose proof (in_bucket_range b samples) as Hr.
    unfold in_bucket in *. cbn [List.filter fst]. rewrite (Z.eqb_sym b). destruct (Z.eqb_spec (bucket us) b) as [->|]; [|done].
    cbn [length]. rewrite Nat2Z.inj_succ. destruct (Z.eqb_spec (Z.succ (Z.of_nat (length (List.filter (λ x : Sample, bucket x.1 =? b) samples)))) 0); [lia|].
    destruct (Z.eqb_spec (Z.of_nat (length (List.filter (λ x : Sample, bucket x.1 =? b) samples))) 0) as [E|E].
    + by rewrite E.
    + rewrite sadd64_exact by lia. done.
Qed.

Lemma merge_buckets_wf (m m' : BTreeMap Z Z) :
  bmap_wf m → bmap_wf (foldl (λ m '(b, n), bump_bucket m b n) m m').
Proof.
  revert m. induction m' as [|[b n] m' IH]; intros m Hm; [done|]. cbn. by apply IH, bump_bucket_wf.
Qed.

Lemma merge_buckets_get (m m' : BTreeMap Z Z) b :
  bmap_wf m' →
  bmap_get b (foldl (λ m '(b, n), bump_bucket m b n) m m') =
    match bmap_get b m' with
    | Some n => Some (match bmap_get b m with Some c => sadd64 c n | None => n end)
    | None => bmap_get b m
    end.
Proof.
  intros Hwf%bset_wf_NoDup. revert m. induction m' as [|[k n] m' IH]; intros m; [done|].
  cbn in Hwf. apply NoDup_cons in Hwf as [Hk Hwf]. cbn [foldl bmap_get]. rewrite (IH Hwf), bump_bucket_get.
  destruct (eqb_ord_spec b k) as [->|Hne].
  - rewrite Z.eqb_refl. fold (bmap_keys m') in Hk. rewrite elem_of_bmap_keys in Hk.
    destruct (bmap_get k m') eqn:E; [exfalso; apply Hk; by eexists|done].
  - by apply Z.eqb_neq in Hne as ->.
Qed.

Lemma histogram_merge_summarizes h h' samples samples' :
  summarizes h samples → summarizes h' samples' →
  Z.of_nat (length samples + length samples') <= u64_max →
  summarizes (histogram_merge h h') (samples ++ samples').
Proof.
  intros (H1 & H2 & H3 & H4 & H5) (H1' & H2' & H3' & H4' & H5') Hlen. split_and!; cbn.
  - rewrite H1, H1', length_app, wadd64_count; lia.
  - rewrite H2, H2'. pose proof (missed_range samples). pose proof (missed_range samples').
    rewrite wadd64_exact by lia. unfold missed. rewrite List.filter_app, length_app. lia.
  - by rewrite H3, H3', longest_app.
  - by apply merge_buckets_wf.
  - intros b. rewrite merge_buckets_get, H5, H5', in_bucket_app by done.
    pose proof (in_bucket_range b samples). pose proof (in_bucket_range b samples').
    destruct (Z.eqb_spec (in_bucket b samples) 0), (Z.eqb_spec (in_bucket b samples') 0),
      (Z.eqb_spec (in_bucket b samples + in_bucket b samples') 0); try lia; f_equal; try lia.
    rewrite sadd64_exact; lia.
Qed.

(** ** Percentiles *)

(** The samples in the order of what they took. *)
Definition ranked (samples : list Sample) : list Z := merge_sort Z.le samples.*1.

(** How many samples satisfy a test. *)
Definition count_if (p : Z → bool) (samples : list Sample) : Z :=
  Z.of_nat (length (List.filter (λ x : Sample, p x.1) samples)).

Lemma count_if_le p q samples :
  (∀ x, x ∈ samples → p x.1 = true → q x.1 = true) → count_if p samples <= count_if q samples.
Proof.
  unfold count_if. induction samples as [|x l IH]; intros H; [done|]. cbn.
  assert (∀ y, y ∈ l → p y.1 = true → q y.1 = true) as Hl by (intros y Hy; apply H; by right).
  specialize (IH Hl). specialize (H x (ltac:(left))). destruct (p x.1), (q x.1); cbn; try lia; by specialize (H eq_refl).
Qed.

(** At position [k] of the ranked samples: fewer are below than [k + 1], and at
    least [k + 1] are not above. *)
Lemma sorted_count (l : list Z) (k : nat) (x : Z) :
  StronglySorted Z.le l → l !! k = Some x →
  (length (List.filter (λ y, (y <? x)%Z) l) <= k < length (List.filter (λ y, (y <=? x)%Z) l))%nat.
Proof.
  revert k. induction l as [|y l IH]; intros [|k] Hs Hk; cbn in Hk; try done;
    apply StronglySorted_cons in Hs as [Hall Hs]; rewrite Forall_forall in Hall.
  - injection Hk as ->. cbn. rewrite Z.ltb_irrefl, Z.leb_refl. cbn. split; [|lia].
    assert (List.filter (λ y, y <? x) l = []) as ->; [|done].
    clear -Hall. induction l as [|z l IH]; [done|]. cbn. assert (x <= z) by (apply Hall; left).
    destruct (Z.ltb_spec z x); [lia|]. apply IH. intros w Hw. apply Hall. by right.
  - specialize (IH k Hs Hk). assert (y <= x) as Hyx by (apply Hall, list_elem_of_lookup; by exists k). cbn.
    apply Z.leb_le in Hyx. rewrite Hyx. destruct (y <? x); cbn; lia.
Qed.

Lemma ranked_count samples k x :
  ranked samples !! k = Some x →
  count_if (λ y, y <? x) samples <= Z.of_nat k < count_if (λ y, y <=? x) samples ∧ x ∈ samples.*1.
Proof.
  intros Hk. assert (ranked samples ≡ₚ samples.*1) as Hp by apply merge_sort_Permutation.
  assert (StronglySorted Z.le (ranked samples)) as Hs by (by apply (StronglySorted_merge_sort Z.le)).
  pose proof (sorted_count _ _ _ Hs Hk) as Hc.
  assert (∀ p : Z → bool, count_if p samples = Z.of_nat (length (List.filter p (ranked samples)))) as Hcount.
  { intros p. rewrite (filter_length_perm p _ _ Hp). unfold count_if. f_equal. clear.
    induction samples as [|y l IH]; [done|]. cbn. destruct (p y.1); cbn; by rewrite IH. }
  rewrite !Hcount. split; [lia|]. rewrite <-Hp. by eapply list_elem_of_lookup_2.
Qed.

(** Counting by pointwise equal tests, and splitting a count. *)
Lemma count_if_ext p q samples :
  (∀ x, x ∈ samples → p x.1 = q x.1) → count_if p samples = count_if q samples.
Proof. intros H. apply Z.le_antisymm; apply count_if_le; intros x Hx; by rewrite (H x Hx). Qed.

Lemma count_if_le_split b samples :
  count_if (λ y, bucket y <=? b) samples = count_if (λ y, bucket y <? b) samples + in_bucket b samples.
Proof.
  unfold count_if, in_bucket. induction samples as [|x l IH]; [done|]. cbn.
  destruct (Z.leb_spec (bucket x.1) b), (Z.ltb_spec (bucket x.1) b), (Z.eqb_spec (bucket x.1) b); cbn; lia.
Qed.

Definition below_all (keys : list Z) (y : Z) : bool := forallb (λ k, bucket y <? k) keys.

(** The loop stops at the bucket that holds the sample of the given rank. *)
Lemma percentile_loop_spec max_us rank seen (buckets : BTreeMap Z Z) samples :
  bmap_wf buckets →
  (∀ b n, (b, n) ∈ buckets → n = in_bucket b samples) →
  (∀ x, x ∈ samples → bucket x.1 ∈ bmap_keys buckets ∨ below_all (bmap_keys buckets) x.1 = true) →
  seen = count_if (below_all (bmap_keys buckets)) samples →
  seen < rank <= Z.of_nat (length samples) → Z.of_nat (length samples) <= u64_max →
  ∃ b, percentile_loop max_us rank seen buckets = Z.min (upper b) max_us ∧
    count_if (λ y, bucket y <? b) samples < rank <= count_if (λ y, bucket y <=? b) samples.
Proof.
  intros Hwf Hn Hcov Hseen Hrank Hlen. revert seen Hwf Hn Hcov Hseen Hrank.
  induction buckets as [|[b n] rest IH]; intros seen Hwf Hn Hcov Hseen Hrank.
  { exfalso. subst seen. unfold count_if in Hrank. cbn in Hrank.
    assert (List.filter (λ _ : Sample, true) samples = samples) as E by (clear; induction samples; cbn; congruence).
    rewrite E in Hrank. lia. }
  pose proof Hwf as Hs. unfold bmap_wf, bmap_keys, bset_wf in Hs. cbn in Hs.
  apply StronglySorted_cons in Hs as [Hall Hs]. fold (bmap_keys rest) in Hall, Hs. rewrite Forall_forall in Hall.
  assert (∀ k, k ∈ bmap_keys rest → b < k) as Hlt by (intros k Hk; by apply Z.compare_lt_iff, (Hall k)).
  assert (seen = count_if (λ y, bucket y <? b) samples) as Hhead.
  { rewrite Hseen. apply count_if_ext. intros x _. cbn. destruct (Z.ltb_spec (bucket x.1) b); [|done]. cbn.
    apply forallb_elem_of. intros k Hk%Hlt. apply Z.ltb_lt. lia. }
  pose proof (Hn b n ltac:(left)) as ->. pose proof (in_bucket_range b samples) as Hr.
  assert (seen + in_bucket b samples = count_if (λ y, bucket y <=? b) samples) as Htotal
    by (rewrite count_if_le_split; lia).
  assert (count_if (λ y, bucket y <=? b) samples <= Z.of_nat (length samples)) as Hle.
  { unfold count_if. pose proof (List.filter_length_le (λ x : Sample, bucket x.1 <=? b) samples). lia. }
  assert (0 <= seen) by (rewrite Hhead; unfold count_if; lia).
  cbn [percentile_loop]. rewrite wadd64_exact by lia.
  destruct (Z.leb_spec rank (seen + in_bucket b samples)) as [Hle'|Hgt]; [exists b; split; [done|lia]|].
  apply IH; [done|intros; apply Hn; by right| | |lia].
  - intros x Hx. destruct (Hcov x Hx) as [Hin|Hb].
    + cbn in Hin. apply elem_of_cons in Hin as [Heq|Hin]; [right|by left].
      apply forallb_elem_of. intros k Hk%Hlt. apply Z.ltb_lt; lia.
    + right. cbn in Hb. by apply andb_true_iff in Hb as [_ ?].
  - rewrite Htotal. apply count_if_ext. intros x Hx. destruct (Z.leb_spec (bucket x.1) b) as [Hxb|Hxb]; symmetry.
    + apply forallb_elem_of. intros k Hk%Hlt. apply Z.ltb_lt. lia.
    + destruct (Hcov x Hx) as [Hin|Hb].
      * cbn in Hin. apply elem_of_cons in Hin as [?|Hin]; [lia|]. apply not_true_iff_false. intros Hb.
        unfold below_all in Hb. rewrite forallb_elem_of in Hb. specialize (Hb _ Hin). apply Z.ltb_lt in Hb. lia.
      * cbn in Hb. apply andb_true_iff in Hb as [Hb _]. apply Z.ltb_lt in Hb. lia.
Qed.

Definition rank_of (samples : list Sample) (percent : Z) : Z :=
  Z.max (div_ceil (Z.of_nat (length samples) * percent) 100) 1.

Lemma rank_of_range samples percent :
  samples ≠ [] → 0 <= percent <= 100 → 1 <= rank_of samples percent <= Z.of_nat (length samples).
Proof.
  intros Hne Hp. unfold rank_of, div_ceil. assert (1 <= Z.of_nat (length samples)) by (destruct samples; [done|cbn; lia]).
  split; [lia|]. apply Z.max_lub; [|lia].
  destruct (Z.eqb_spec ((Z.of_nat (length samples) * percent) mod 100) 0); Z.div_mod_to_equations; nia.
Qed.

Lemma sample_bucket_key h samples x :
  summarizes h samples → x ∈ samples → bucket x.1 ∈ bmap_keys (h_buckets h).
Proof.
  intros (_ & _ & _ & _ & H5) Hx. apply elem_of_bmap_keys. rewrite H5.
  destruct (Z.eqb_spec (in_bucket (bucket x.1) samples) 0) as [E|]; [|done]. exfalso. unfold in_bucket in E.
  assert (x ∈ List.filter (λ y : Sample, bucket y.1 =? bucket x.1) samples) as Hin.
  { apply filter_elem_of. split; [done|]. apply Z.eqb_refl. }
  destruct (List.filter _ samples); [set_solver|cbn in E; lia].
Qed.

Lemma percentile_bucket h samples percent :
  summarizes h samples → samples ≠ [] → 0 <= percent <= 100 → Z.of_nat (length samples) * 100 <= u64_max →
  ∃ b, percentile h percent = Z.min (upper b) (longest samples) ∧
    count_if (λ y, bucket y <? b) samples < rank_of samples percent <= count_if (λ y, bucket y <=? b) samples.
Proof.
  intros Hsum Hne Hp Hlen. pose proof Hsum as (H1 & _ & H3 & H4 & H5). pose proof (rank_of_range samples percent Hne Hp) as Hr.
  unfold percentile. rewrite H1, H3, Z.mod_small by (unfold u64_max in *; nia).
  fold (rank_of samples percent). apply percentile_loop_spec; [done|..|lia|lia].
  - intros b n Hin%elem_of_bmap_get; [|done]. rewrite H5 in Hin. destruct (_ =? 0); congruence.
  - intros x Hx. left. by eapply sample_bucket_key.
  - symmetry. unfold count_if.
    assert (∀ x, x ∈ samples → below_all (bmap_keys (h_buckets h)) x.1 = false) as Hno.
    { intros x Hx. apply not_true_iff_false. intros Hb. unfold below_all in Hb. rewrite forallb_elem_of in Hb.
      specialize (Hb _ (sample_bucket_key _ _ _ Hsum Hx)). apply Z.ltb_lt in Hb. lia. }
    clear -Hno. induction samples as [|x l IH]; [done|]. cbn. rewrite Hno by left. apply IH. intros y Hy. apply Hno. by right.
Qed.

(** Percentiles are right to within a sixteenth.  For a histogram of any
    non-empty collection of samples whose count a hundred times over still fits
    in 64 bits, the reported percentile is at least the sample of that rank,
    exceeds it by at most a sixteenth, and never exceeds the longest sample. *)
Theorem percentile_precise h samples percent x :
  summarizes h samples → (∀ s, s ∈ samples → u64 s.1) → 0 <= percent <= 100 →
  Z.of_nat (length samples) * 100 <= u64_max →
  ranked samples !! Z.to_nat (rank_of samples percent - 1) = Some x →
  x <= percentile h percent <= x + x / SUB ∧ percentile h percent <= longest samples.
Proof.
  intros Hsum Hu64 Hp Hlen Hx.
  assert (samples ≠ []) as Hne by (by intros ->).
  pose proof (rank_of_range samples percent Hne Hp) as Hr.
  destruct (percentile_bucket h samples percent Hsum Hne Hp Hlen) as (b & -> & Hb).
  destruct (ranked_count _ _ _ Hx) as [Hc Hin]. rewrite Z2Nat.id in Hc by lia.
  apply list_elem_of_fmap in Hin as (s & -> & Hs). pose proof (Hu64 s Hs) as Hxu.
  assert (bucket s.1 = b) as <-.
  { destruct (Z.lt_total (bucket s.1) b) as [Hlt|[?|Hgt]]; [|done|]; exfalso.
    - assert (count_if (λ y, y <=? s.1) samples <= count_if (λ y, bucket y <? b) samples); [|lia].
      apply count_if_le. intros y Hy Hle%Z.leb_le. apply Z.ltb_lt.
      pose proof (bucket_mono y.1 s.1 Hxu). pose proof (Hu64 y Hy) as Hyu. unfold u64 in Hyu. lia.
    - assert (count_if (λ y, bucket y <=? b) samples <= count_if (λ y, y <? s.1) samples); [|lia].
      apply count_if_le. intros y Hy Hle%Z.leb_le. apply Z.ltb_lt. apply Z.nle_gt. intros Hsy.
      pose proof (bucket_mono s.1 y.1 (Hu64 y Hy)). unfold u64 in Hxu. lia. }
  pose proof (upper_bucket s.1 Hxu). pose proof (proj2 (longest_spec samples) s Hs). lia.
Qed.

(** ** What a ring holds *)

Section ring.
Context (width : Z) (slots : nat).
Hypothesis width_pos : 0 < width.
Hypothesis slots_pos : (0 < slots)%nat.

(** A sample with the time it finished at. *)
Definition Timed : Type := Z * Sample.
Definition epoch_of (t : Timed) : Z := t.1 / width.
Definition slot_of (t : Timed) : Z := epoch_of t mod Z.of_nat slots.
Definition at_epoch (e : Z) (l : list Timed) : list Sample := snd <$> List.filter (λ t, epoch_of t =? e) l.

(** The samples a window at [since] covers. *)
Definition in_window (since : Z) (t : Timed) : bool :=
  (since / width <? epoch_of t + Z.of_nat slots) && (epoch_of t <=? since / width).

(** A slot holds every sample of the newest epoch that fell on it. *)
Definition slot_ok (l : list Timed) (j : nat) (slot : Slot) : Prop :=
  (h_count (s_histogram slot) = 0 ∧ ∀ t, t ∈ l → slot_of t ≠ Z.of_nat j) ∨
  (0 < h_count (s_histogram slot) ∧ summarizes (s_histogram slot) (at_epoch (s_epoch slot) l) ∧
   s_epoch slot mod Z.of_nat slots = Z.of_nat j ∧
   ∀ t, t ∈ l → slot_of t = Z.of_nat j → epoch_of t <= s_epoch slot).

Definition ring_ok (l : list Timed) (ring : list Slot) : Prop :=
  (ring = [] ∧ l = []) ∨ (length ring = slots ∧ ∀ j slot, ring !! j = Some slot → slot_ok l j slot).

Lemma at_epoch_snoc e l t :
  at_epoch e (l ++ [t]) = (at_epoch e l ++ (if epoch_of t =? e then [t.2] else []))%list.
Proof. unfold at_epoch. rewrite List.filter_app, fmap_app. cbn. by destruct (epoch_of t =? e). Qed.

Lemma at_epoch_length e l : (length (at_epoch e l) <= length l)%nat.
Proof. unfold at_epoch. rewrite length_fmap. apply List.filter_length_le. Qed.

(** A slot that the sample does not fall on is unaffected. *)
Lemma slot_ok_other l t j slot :
  slot_ok l j slot → slot_of t ≠ Z.of_nat j → slot_ok (l ++ [t]) j slot.
Proof.
  intros [[Hc Hno]|(Hc & Hs & Hm & Hmax)] Hne.
  - left. split; [done|]. intros u [Hu| ->%list_elem_of_singleton]%elem_of_app; [by apply Hno|done].
  - right. split_and!; [done| |done|].
    + rewrite at_epoch_snoc. destruct (Z.eqb_spec (epoch_of t) (s_epoch slot)) as [E|]; [|by rewrite app_nil_r].
      exfalso. apply Hne. unfold slot_of. by rewrite E.
    + intros u [Hu| ->%list_elem_of_singleton]%elem_of_app; [by apply Hmax|done].
Qed.

Lemma slot_index t : (Z.to_nat (slot_of t) < slots)%nat ∧ Z.of_nat (Z.to_nat (slot_of t)) = slot_of t.
Proof. pose proof (Z.mod_pos_bound (epoch_of t) (Z.of_nat slots)). unfold slot_of. lia. Qed.

Lemma at_epoch_none e l : (∀ t, t ∈ l → epoch_of t ≠ e) → at_epoch e l = [].
Proof.
  intros H. unfold at_epoch. assert (List.filter (λ t, epoch_of t =? e) l = []) as ->; [|done].
  induction l as [|t l IH]; [done|]. cbn. destruct (Z.eqb_spec (epoch_of t) e) as [E|].
  - exfalso. by apply (H t (ltac:(left))).
  - apply IH. intros u Hu. apply H. by right.
Qed.

(** The slot a sample falls on, after it. *)
Definition slot_after (slot : Slot) (t : Timed) : Slot :=
  if (0 <? h_count (s_histogram slot)) && (epoch_of t <? s_epoch slot) then slot
  else
    let slot := if negb (s_epoch slot =? epoch_of t) || (h_count (s_histogram slot) =? 0)
                then {| s_epoch := epoch_of t; s_histogram := histogram_default |} else slot in
    {| s_epoch := s_epoch slot; s_histogram := histogram_add (s_histogram slot) t.2.1 t.2.2 |}.

Lemma slot_after_added l t j h :
  summarizes h (at_epoch (epoch_of t) l) → slot_of t = Z.of_nat j →
  (∀ u, u ∈ l → slot_of u = Z.of_nat j → epoch_of u <= epoch_of t) →
  0 <= t.2.1 → Z.of_nat (S (length l)) <= u64_max →
  slot_ok (l ++ [t]) j {| s_epoch := epoch_of t; s_histogram := histogram_add h t.2.1 t.2.2 |}.
Proof.
  intros Hs Hj Hmax Hus Hlen. pose proof (at_epoch_length (epoch_of t) l) as Hle.
  assert (summarizes (histogram_add h t.2.1 t.2.2) (at_epoch (epoch_of t) (l ++ [t]))) as Hs'.
  { rewrite at_epoch_snoc, Z.eqb_refl.
    apply (summarizes_perm _ (t.2 :: at_epoch (epoch_of t) l)); [apply Permutation_cons_append|].
    destruct t as [since [us over]]. apply histogram_add_summarizes; [done|lia|done]. }
  right. cbn. split_and!; [|done|done|].
  - cbn. destruct Hs as (-> & _). rewrite wadd64_exact; lia.
  - intros u [Hu| ->%list_elem_of_singleton]%elem_of_app Hju; [by apply Hmax|lia].
Qed.

Lemma slot_after_ok l t j slot :
  slot_ok l j slot → slot_of t = Z.of_nat j → 0 <= t.2.1 → Z.of_nat (S (length l)) <= u64_max →
  slot_ok (l ++ [t]) j (slot_after slot t).
Proof.
  intros Hok Hj Hus Hlen. unfold slot_after.
  assert (∀ u, epoch_of u = epoch_of t → slot_of u = Z.of_nat j) as Hsame.
  { intros u E. rewrite <-Hj. unfold slot_of. by rewrite E. }
  destruct Hok as [[Hc Hno]|(Hc & Hs & Hm & Hmax)].
  - rewrite Hc, orb_true_r. cbn [andb Z.ltb Z.compare]. apply slot_after_added; [|done|by intros u ? ?%Hno|done|done].
    rewrite at_epoch_none; [apply summarizes_default|]. intros u Hu E%Hsame. by apply Hno in Hu.
  - destruct (Z.ltb_spec 0 (h_count (s_histogram slot))); [|lia].
    destruct (Z.ltb_spec (epoch_of t) (s_epoch slot)) as [Hlt|Hge]; cbn [andb].
    + right. split_and!; [done| |done|].
      * rewrite at_epoch_snoc. destruct (Z.eqb_spec (epoch_of t) (s_epoch slot)); [lia|]. by rewrite app_nil_r.
      * intros u [Hu| ->%list_elem_of_singleton]%elem_of_app Hju; [by apply Hmax|lia].
    + destruct (Z.eqb_spec (h_count (s_histogram slot)) 0); [lia|]. rewrite orb_false_r.
      destruct (Z.eqb_spec (s_epoch slot) (epoch_of t)) as [E|Hne]; cbn [negb].
      * rewrite E in *. by apply slot_after_added.
      * apply slot_after_added; try done.
        -- rewrite at_epoch_none; [apply summarizes_default|]. intros u Hu E. specialize (Hmax u Hu (Hsame u E)). lia.
        -- intros u Hu Hju. specialize (Hmax u Hu Hju). lia.
Qed.

Lemma ring_record_ok l ring t :
  ring_ok l ring → 0 <= t.2.1 → Z.of_nat (S (length l)) <= u64_max →
  ring_ok (l ++ [t]) (ring_record width slots ring t.1 t.2.1 t.2.2).
Proof.
  intros Hring Hus Hlen. right. unfold ring_record.
  set (r := if bool_decide (ring = []) then _ else ring).
  assert (length r = slots ∧ ∀ j slot, r !! j = Some slot → slot_ok l j slot) as [Hr Hok].
  { unfold r. case_bool_decide as E.
    - split; [apply length_replicate|]. intros j slot [-> _]%lookup_replicate. left. split; [done|].
      destruct Hring as [[_ ->]|[Hr _]]; [set_solver|]. subst ring. cbn in Hr. lia.
    - by destruct Hring as [[-> _]|?]. }
  destruct (slot_index t) as [Hlt Hj]. cbv zeta.
  change (t.1 / width) with (epoch_of t). change (epoch_of t mod Z.of_nat slots) with (slot_of t).
  destruct (lookup_lt_is_Some_2 r (Z.to_nat (slot_of t))) as [slot Hslot]; [lia|]. rewrite Hslot.
  assert (∀ j s, (<[Z.to_nat (slot_of t) := slot_after slot t]> r) !! j = Some s → slot_ok (l ++ [t]) j s) as Hnew.
  { intros j s Hs. destruct (decide (j = Z.to_nat (slot_of t))) as [->|Hne].
    - rewrite list_lookup_insert_eq in Hs by lia. injection Hs as <-. apply slot_after_ok; [by apply Hok|done..].
    - rewrite list_lookup_insert_ne in Hs by done. apply slot_ok_other; [by apply Hok|]. intros E. apply Hne. lia. }
  unfold slot_after in Hnew. destruct (_ && _).
  - split; [done|]. intros j s Hs. apply Hnew. by rewrite list_insert_id.
  - split; [by rewrite length_insert|exact Hnew].
Qed.

Lemma at_epoch_app e l l' : at_epoch e (l ++ l') = (at_epoch e l ++ at_epoch e l')%list.
Proof. unfold at_epoch. by rewrite List.filter_app, fmap_app. Qed.

(** Samples of an epoch that falls on a slot, when no sample of the slot is that
    new. *)
Lemma at_epoch_newer e l j :
  e mod Z.of_nat slots = Z.of_nat j → (∀ t, t ∈ l → slot_of t = Z.of_nat j → epoch_of t < e) → at_epoch e l = [].
Proof.
  intros He H. apply at_epoch_none. intros t Ht E. specialize (H t Ht). unfold slot_of in H. rewrite E in H.
  specialize (H He). lia.
Qed.

Lemma slot_absorb_ok l l' j mine theirs :
  slot_ok l j mine → slot_ok l' j theirs → Z.of_nat (length l + length l') <= u64_max →
  slot_ok (l ++ l') j (slot_absorb mine theirs).
Proof.
  intros Hmine Htheirs Hlen. unfold slot_absorb.
  destruct Htheirs as [[Hc' Hno']|(Hc' & Hs' & Hm' & Hmax')].
  - rewrite Hc'. cbn. destruct Hmine as [[Hc Hno]|(Hc & Hs & Hm & Hmax)].
    + left. split; [done|]. intros t [Ht|Ht]%elem_of_app; [by apply Hno|by apply Hno'].
    + right. split_and!; [done| |done|].
      * rewrite at_epoch_app, (at_epoch_newer _ l' j), app_nil_r; [done|done|]. by intros t ? ?%Hno'.
      * intros t [Ht|Ht]%elem_of_app Hj; [by apply Hmax|by apply Hno' in Ht].
  - destruct (Z.eqb_spec (h_count (s_histogram theirs)) 0); [lia|].
    destruct Hmine as [[Hc Hno]|(Hc & Hs & Hm & Hmax)].
    + rewrite Hc. cbn. right. split_and!; [done| |done|].
      * rewrite at_epoch_app, (at_epoch_newer _ l j); [done|done|]. by intros t ? ?%Hno.
      * intros t [Ht|Ht]%elem_of_app Hj; [by apply Hno in Ht|by apply Hmax'].
    + destruct (Z.eqb_spec (h_count (s_histogram mine)) 0); [lia|]. cbn [orb].
      destruct (Z.ltb_spec (s_epoch mine) (s_epoch theirs)) as [Hlt|Hge]; [|destruct (Z.eqb_spec (s_epoch mine) (s_epoch theirs)) as [E|Hne]].
      * right. split_and!; [done| |done|].
        -- rewrite at_epoch_app, (at_epoch_newer _ l j); [done|done|]. intros t Ht Hj. specialize (Hmax t Ht Hj). lia.
        -- intros t [Ht|Ht]%elem_of_app Hj; [|by apply Hmax']. specialize (Hmax t Ht Hj). lia.
      * pose proof (at_epoch_length (s_epoch mine) l). pose proof (at_epoch_length (s_epoch theirs) l').
        assert (summarizes (histogram_merge (s_histogram mine) (s_histogram theirs))
          (at_epoch (s_epoch mine) l ++ at_epoch (s_epoch theirs) l')) as Hmerge
          by (apply histogram_merge_summarizes; [done|done|lia]).
        right. cbn. rewrite at_epoch_app. rewrite <-E in Hmerge. split_and!; [|done|done|].
        -- destruct Hs as (Hsc & _), Hs' as (Hsc' & _). rewrite wadd64_exact; lia.
        -- intros t [Ht|Ht]%elem_of_app Hj; [by apply Hmax|]. rewrite E. by apply Hmax'.
      * right. split_and!; [done| |done|].
        -- rewrite at_epoch_app, (at_epoch_newer _ l' j), app_nil_r; [done|done|].
           intros t Ht Hj. specialize (Hmax' t Ht Hj). lia.
        -- intros t [Ht|Ht]%elem_of_app Hj; [by apply Hmax|]. specialize (Hmax' t Ht Hj). lia.
Qed.

Lemma ring_absorb_lookup ring theirs j :
  length ring = length theirs →
  ring_absorb ring theirs !! j = (mine ← ring !! j; their ← theirs !! j; Some (slot_absorb mine their)).
Proof.
  revert theirs j. induction ring as [|mine ring IH]; intros [|their theirs] j Hlen; try done.
  destruct j as [|j]; cbn; [done|]. apply IH. by injection Hlen.
Qed.

Lemma ring_absorb_ok l l' ring theirs :
  ring_ok l ring → ring_ok l' theirs → Z.of_nat (length l + length l') <= u64_max →
  ring_ok (l ++ l') (if bool_decide (ring = []) then theirs else ring_absorb ring theirs).
Proof.
  intros Hr Hr' Hlen. destruct Hr as [[-> ->]|[Hl Hok]]; [by rewrite bool_decide_eq_true_2|].
  rewrite bool_decide_eq_false_2 by (intros ->; cbn in Hl; lia).
  destruct Hr' as [[-> ->]|[Hl' Hok']].
  - rewrite app_nil_r. right. by destruct ring.
  - right. split.
    + clear -Hl Hl'. subst slots. revert theirs Hl'. induction ring as [|mine ring IH]; intros [|their theirs] H; try done.
      cbn in *. by rewrite IH by lia.
    + intros j slot. rewrite ring_absorb_lookup by congruence.
      destruct (ring !! j) as [mine|] eqn:E; [|done]. destruct (theirs !! j) as [their|] eqn:E'; [|done].
      cbn. intros [= <-]. apply slot_absorb_ok; [by apply Hok|by apply Hok'|done].
Qed.

(** The samples a slot contributes to a window: all those of the window that
    fell on it. *)
Definition included (since : Z) (slot : Slot) : bool :=
  (0 <? h_count (s_histogram slot)) && (since / width <? s_epoch slot + Z.of_nat slots) &&
  (s_epoch slot <=? since / width).

Lemma slot_contributes l since j slot :
  slot_ok l j slot → (∀ t, t ∈ l → t.1 <= since) →
  snd <$> List.filter (λ t, in_window since t && (slot_of t =? Z.of_nat j)) l =
    if included since slot then at_epoch (s_epoch slot) l else [].
Proof.
  intros Hok Hle. assert (∀ t, t ∈ l → epoch_of t <= since / width) as Hle'.
  { intros t Ht. apply Z.div_le_mono; [lia|by apply Hle]. }
  assert (∀ e e', e <= e' → e' <= since / width → since / width < e + Z.of_nat slots →
    e mod Z.of_nat slots = e' mod Z.of_nat slots → e = e') as Hcong.
  { intros e e' H1 H2 H3 Hmod. pose proof (Z.div_mod e (Z.of_nat slots)). pose proof (Z.div_mod e' (Z.of_nat slots)).
    assert (0 < Z.of_nat slots) by lia. assert (e / Z.of_nat slots = e' / Z.of_nat slots) by nia. nia. }
  unfold included. destruct Hok as [[Hc Hno]|(Hc & Hs & Hm & Hmax)].
  - rewrite Hc. cbn. rewrite (filter_ext_elem _ (λ _, false)).
    + clear. by induction l.
    + intros t Ht. apply andb_false_iff. right. apply Z.eqb_neq. by apply Hno.
  - destruct (Z.ltb_spec 0 (h_count (s_histogram slot))); [|lia]. cbn [andb].
    destruct (Z.ltb_spec (since / width) (s_epoch slot + Z.of_nat slots)) as [Hnew|Hold]; cbn [andb].
    + destruct (Z.leb_spec (s_epoch slot) (since / width)) as [Hse|Hse].
      * unfold at_epoch. f_equal. apply filter_ext_elem. intros t Ht. specialize (Hle' t Ht). unfold in_window.
        destruct (Z.eqb_spec (epoch_of t) (s_epoch slot)) as [E|Hne].
        -- unfold slot_of. rewrite E, Hm, Z.eqb_refl, andb_true_r. apply andb_true_iff.
           split; [by apply Z.ltb_lt|by apply Z.leb_le].
        -- apply not_true_iff_false. rewrite !andb_true_iff, Z.ltb_lt, Z.leb_le, Z.eqb_eq.
           intros [[H1 H2] H3]. apply Hne, Hcong; [by apply Hmax|done|done|]. unfold slot_of in H3. congruence.
      * exfalso. destruct Hs as (Hcount & _). destruct (List.filter (λ t, epoch_of t =? s_epoch slot) l) as [|t k] eqn:E.
        { unfold at_epoch in Hcount. rewrite E in Hcount. cbn in Hcount. lia. }
        assert (t ∈ List.filter (λ t, epoch_of t =? s_epoch slot) l) as Hin by (rewrite E; left).
        apply filter_elem_of in Hin as [Ht He]. apply Z.eqb_eq in He. specialize (Hle' t Ht). lia.
    + rewrite (filter_ext_elem _ (λ _, false)); [clear; by induction l|].
      intros t Ht. apply not_true_iff_false. unfold in_window. rewrite !andb_true_iff, Z.ltb_lt, Z.leb_le, Z.eqb_eq.
      intros [[H1 H2] H3]. specialize (Hmax t Ht H3). lia.
Qed.

(** Splitting the samples of the first slots. *)
Lemma window_split l since (k : nat) :
  snd <$> List.filter (λ t, in_window since t && (slot_of t <? Z.of_nat (S k))) l ≡ₚ
  (snd <$> List.filter (λ t, in_window since t && (slot_of t <? Z.of_nat k)) l) ++
  (snd <$> List.filter (λ t, in_window since t && (slot_of t =? Z.of_nat k)) l).
Proof.
  rewrite <-fmap_app. apply fmap_Permutation. induction l as [|t l IH]; [done|]. cbn.
  destruct (in_window since t); cbn [andb]; [|done].
  destruct (Z.ltb_spec (slot_of t) (Z.of_nat (S k))), (Z.ltb_spec (slot_of t) (Z.of_nat k)),
    (Z.eqb_spec (slot_of t) (Z.of_nat k)); try lia; cbn; rewrite ?IH; try done.
  apply Permutation_middle.
Qed.

Lemma ring_window_prefix l ring since k :
  length ring = slots → (∀ j slot, ring !! j = Some slot → slot_ok l j slot) →
  (∀ t, t ∈ l → t.1 <= since) → Z.of_nat (length l) <= u64_max → (k <= slots)%nat →
  summarizes (ring_window width slots (firstn k ring) since)
    (snd <$> List.filter (λ t, in_window since t && (slot_of t <? Z.of_nat k)) l).
Proof.
  intros Hlen Hok Hle Hbound. induction k as [|k IH]; intros Hk.
  - rewrite (filter_ext_elem _ (λ _, false)).
    + assert (List.filter (λ _ : Timed, false) l = []) as -> by (clear; by induction l). apply summarizes_default.
    + intros t _. apply andb_false_iff. right. apply Z.ltb_ge. destruct (slot_index t). lia.
  - destruct (lookup_lt_is_Some_2 ring k) as [slot Hslot]; [lia|].
    rewrite (take_S_r _ _ _ Hslot). unfold ring_window. rewrite foldl_snoc.
    fold (ring_window width slots (firstn k ring) since). specialize (IH ltac:(lia)).
    fold (included since slot).
    eapply summarizes_perm; [symmetry; apply window_split|].
    rewrite (slot_contributes l since k slot (Hok k slot Hslot) Hle).
    destruct (included since slot) eqn:Einc; [|by rewrite app_nil_r].
    destruct (Hok k slot Hslot) as [[Hc _]|(_ & Hs & _)].
    { unfold included in Einc. rewrite Hc in Einc. done. }
    apply histogram_merge_summarizes; [done|done|].
    pose proof (slot_contributes l since k slot (Hok k slot Hslot) Hle) as Hcon. rewrite Einc in Hcon.
    rewrite <-Hcon, <-length_app, <-(window_split l since k), length_fmap.
    etransitivity; [|exact Hbound]. apply inj_le, List.filter_length_le.
Qed.

Lemma ring_window_exact l ring since :
  ring_ok l ring → (∀ t, t ∈ l → t.1 <= since) → Z.of_nat (length l) <= u64_max →
  summarizes (ring_window width slots ring since) (snd <$> List.filter (in_window since) l).
Proof.
  intros [[-> ->]|[Hlen Hok]] Hl Hbound; [apply summarizes_default|].
  pose proof (ring_window_prefix l ring since slots Hlen Hok) as H.
  rewrite firstn_all2 in H by lia. rewrite (filter_ext_elem _ (λ t, in_window since t && (slot_of t <? Z.of_nat slots))).
  - by apply H.
  - intros t _. destruct (slot_index t). replace (slot_of t <? Z.of_nat slots) with true; [by rewrite andb_true_r|].
    symmetry. apply Z.ltb_lt. lia.
Qed.
End ring.

(** ** What a series' windows hold *)

(** A recorded duration is capped at the largest [u64]. *)
Definition capped (since micros : Z) (over : bool) : Timed := (since, (Z.min micros u64_max, over)).

(** The series built by recording and absorbing, with the samples they were
    given. *)
Inductive recorded : Series → list Timed → Prop :=
| recorded_new : recorded series_default []
| recorded_sample s l since micros over :
    recorded s l → 0 <= micros → recorded (series_record s since micros over) (l ++ [capped since micros over])
| recorded_absorb s l s' l' :
    recorded s l → recorded s' l' → recorded (series_absorb s s') (l ++ l').

Definition series_ok (l : list Timed) (s : Series) : Prop :=
  Forall2 (λ ring '(_, (width, slots)), ring_ok width slots l ring) s TIERS.

Lemma TIERS_positive : Forall (λ '(_, (width, slots)), 0 < width ∧ (0 < slots)%nat) TIERS.
Proof. repeat constructor; lia. Qed.

Lemma series_record_ok l s since micros over :
  series_ok l s → 0 <= micros → Z.of_nat (S (length l)) <= u64_max →
  series_ok (l ++ [capped since micros over]) (series_record s since micros over).
Proof.
  intros Hs Hm Hlen. unfold series_ok, series_record in *. pose proof TIERS_positive as Hpos.
  induction Hs as [|ring [name [width slots]] s tiers Hring Hs IH]; [constructor|].
  apply Forall_cons in Hpos as [[Hw Hsl] Hpos]. cbn. constructor; [|by apply IH].
  apply (ring_record_ok width slots Hw Hsl l ring (capped since micros over)); [done| |done].
  apply Z.min_glb; [done|vm_compute; discriminate].
Qed.

Lemma series_absorb_ok l l' s s' :
  series_ok l s → series_ok l' s' → Z.of_nat (length l + length l') <= u64_max →
  series_ok (l ++ l') (series_absorb s s').
Proof.
  unfold series_ok, series_absorb. intros Hs Hs' Hlen. pose proof TIERS_positive as Hpos. revert s' Hs'.
  induction Hs as [|ring [name [width slots]] s tiers Hring Hs IH]; intros s' Hs'.
  - apply Forall2_nil_inv_r in Hs' as ->. constructor.
  - apply Forall2_cons_inv_r in Hs' as (ring' & rest & Hring' & Hrest & ->).
    apply Forall_cons in Hpos as [[Hw Hsl] Hpos]. cbn. constructor; [|by apply IH].
    by apply ring_absorb_ok.
Qed.

Lemma recorded_ok s l : recorded s l → Z.of_nat (length l) <= u64_max → series_ok l s.
Proof.
  induction 1 as [|s l since micros over Hr IH Hm|s l s' l' Hr IH Hr' IH']; intros Hlen.
  - repeat constructor; by left.
  - rewrite length_app in Hlen. cbn in Hlen. apply series_record_ok; [apply IH; lia|done|lia].
  - rewrite length_app in Hlen. apply series_absorb_ok; [apply IH; lia|apply IH'; lia|lia].
Qed.

Lemma recorded_window s l tier name width slots since :
  recorded s l → TIERS !! tier = Some (name, (width, slots)) →
  (∀ t, t ∈ l → t.1 <= since) → Z.of_nat (length l) <= u64_max →
  summarizes (series_window s tier since) (snd <$> List.filter (in_window width slots since) l).
Proof.
  intros Hs Htier Hl Hbound. apply recorded_ok in Hs; [|done].
  destruct (Forall2_lookup_r _ _ _ _ _ Hs Htier) as (ring & Hring & Hok).
  pose proof (Forall_lookup_1 _ _ _ _ TIERS_positive Htier) as [Hw Hsl].
  unfold series_window. rewrite Htier. assert (s !! tier = Some ring) as -> by exact Hring. by apply ring_window_exact.
Qed.

(** A window holds exactly its samples.  However a series was built, by
    recording samples in any order and absorbing other series, each window read
    at a time no earlier than the samples summarizes exactly the samples whose
    epochs lie in the window, each counted once: the rings neither lose a sample
    still in its window nor keep an expired one. *)
Theorem window_exact s l tier name width slots since :
  recorded s l → TIERS !! tier = Some (name, (width, slots)) →
  (∀ t, t ∈ l → t.1 <= since) → Z.of_nat (length l) <= u64_max →
  summarizes (series_window s tier since) (snd <$> List.filter (in_window width slots since) l).
Proof. apply recorded_window. Qed.

Definition demo_series : Series :=
  series_absorb (series_record (series_record (series_record series_default 100 1500 true) 3 20 false) 101 90 false)
    (series_record (series_record series_default 40 7 false) 110 80 false).
Definition demo_samples : list Timed :=
  [(100, (1500, true)); (3, (20, false)); (101, (90, false)); (40, (7, false)); (110, (80, false))].

Lemma demo_recorded : recorded demo_series demo_samples.
Proof.
  apply (recorded_absorb _ [(100, (1500, true)); (3, (20, false)); (101, (90, false))]
    _ [(40, (7, false)); (110, (80, false))]).
  - apply (recorded_sample _ [(100, (1500, true)); (3, (20, false))] 101 90); [|done].
    apply (recorded_sample _ [(100, (1500, true))] 3 20); [|done].
    apply (recorded_sample _ [] 100 1500); [apply recorded_new|done].
  - apply (recorded_sample _ [(40, (7, false))] 110 80); [|done].
    apply (recorded_sample _ [] 40 7); [apply recorded_new|done].
Qed.

Lemma demo_samples_past t : t ∈ demo_samples → t.1 <= 110.
Proof.
  intros Ht. unfold demo_samples in Ht. repeat (apply elem_of_cons in Ht as [-> |Ht]; [cbn; lia|]).
  by apply elem_of_nil in Ht.
Qed.

Lemma window_exact_witness :
  summarizes (series_window demo_series 0 110) [(1500, true); (90, false); (80, false)].
Proof.
  apply (window_exact demo_series demo_samples 0 "1m" 5 12 110);
    [apply demo_recorded|reflexivity|apply demo_samples_past|vm_compute; discriminate].
Defined.

Lemma percentile_precise_witness :
  90 <= percentile (series_window demo_series 0 110) 50 <= 95.
Proof.
  apply (percentile_precise _ [(1500, true); (90, false); (80, false)] 50 90).
  - apply (recorded_window demo_series demo_samples 0 "1m" 5 12 110);
      [apply demo_recorded|reflexivity|apply demo_samples_past|vm_compute; discriminate].
  - intros s Hs. repeat (apply elem_of_cons in Hs as [-> |Hs]; [split; vm_compute; discriminate|]). by apply elem_of_nil in Hs.
  - lia.
  - vm_compute. discriminate.
  - reflexivity.
Defined.
