(* ===== verification/Touched.v ===== *)
(** * What a piece of work read and wrote (crates/smallclaims/src/touched.rs)

    Thread-local recordings of the keys work reads, the entries it writes, the
    number of rows it changes and the earliest time it must run again.  The four
    thread-locals are the record [Touched]; work is a state transformer whose
    result is [None] when it panics.  Recordings nest by saving and restoring the
    thread-locals; the theorem relates that discipline to the plain sequence of
    notes the work made. *)

From S2P Require Import Prelude BTree.

Local Open Scope string_scope.

(** ** The thread-locals *)

Record Touched := {
  t_reads : option (BTreeSet string);   (* READS *)
  t_writes : Z;                         (* WRITES *)
  t_due : option Z;                     (* DUE *)
  t_wrote : option (list string)        (* WROTE *)
}.

Definition set_reads (s : Touched) (v : option (BTreeSet string)) : Touched :=
  {| t_reads := v; t_writes := t_writes s; t_due := t_due s; t_wrote := t_wrote s |}.
Definition set_writes (s : Touched) (v : Z) : Touched :=
  {| t_reads := t_reads s; t_writes := v; t_due := t_due s; t_wrote := t_wrote s |}.
Definition set_due (s : Touched) (v : option Z) : Touched :=
  {| t_reads := t_reads s; t_writes := t_writes s; t_due := v; t_wrote := t_wrote s |}.
Definition set_wrote (s : Touched) (v : option (list string)) : Touched :=
  {| t_reads := t_reads s; t_writes := t_writes s; t_due := t_due s; t_wrote := v |}.

(** ** Notes *)

Definition note_wrote (entry : string) (s : Touched) : Touched :=
  match t_wrote s with
  | Some l => set_wrote s (Some (l ++ [entry])%list)
  | None => s
  end.
Definition note_due (at_ : Z) (s : Touched) : Touched :=
  set_due s (Some (match t_due s with Some current => Z.min current at_ | None => at_ end)).
Definition note_read (key : string) (s : Touched) : Touched :=
  match t_reads s with
  | Some set => set_reads s (Some (bset_insert key set))
  | None => s
  end.
Definition note_writes (rows : Z) (s : Touched) : Touched :=
  if (0 <? rows)%Z then set_writes s (sadd64 (t_writes s) rows) else s.

(** ** Reading a recording *)

Definition wrote_len (s : Touched) : nat :=
  match t_wrote s with Some l => length l | None => 0%nat end.
Definition wrote_since (mark : nat) (s : Touched) : list string :=
  match t_wrote s with
  | Some l => if (mark <=? length l)%nat then skipn mark l else []
  | None => []
  end.
Definition recording_wrote (s : Touched) : bool := bool_decide (is_Some (t_wrote s)).

(** ** Recordings *)

Section record.
Context {A : Type} (work : Touched → Touched * option A).

(** [Scope::drop] of [record]: it runs when the work returns and when it
    panics. *)
Definition drop_reads (outer : option (BTreeSet string)) (s : Touched) : Touched :=
  let inner := default [] (t_reads s) in
  set_reads s ((λ outer, bset_extend outer inner) <$> outer).
Definition record (s : Touched) : Touched * option (A * BTreeSet string) :=
  let outer := t_reads s in
  let '(s, result) := work (set_reads s (Some bset_empty)) in
  match result with
  | Some a => let reads := default [] (t_reads s) in (drop_reads outer s, Some (a, reads))
  | None => (drop_reads outer s, None)
  end.

Definition drop_wrote (outer : option (list string)) (s : Touched) : Touched :=
  let inner := default [] (t_wrote s) in
  set_wrote s ((λ outer, (outer ++ inner)%list) <$> outer).
Definition record_wrote (s : Touched) : Touched * option (A * list string) :=
  let outer := t_wrote s in
  let '(s, result) := work (set_wrote s (Some [])) in
  match result with
  | Some a => let wrote := default [] (t_wrote s) in (drop_wrote outer s, Some (a, wrote))
  | None => (drop_wrote outer s, None)
  end.

(** [record_due] has no drop guard: a panic leaves the inner time in place. *)
Definition record_due (s : Touched) : Touched * option (A * option Z) :=
  let outer := t_due s in
  let '(s, result) := work (set_due s None) in
  match result with
  | Some a =>
      let inner := t_due s in
      let s := set_due s outer in
      (match inner, outer with Some at_, Some _ => note_due at_ s | _, _ => s end, Some (a, inner))
  | None => (s, None)
  end.
End record.

(** ** Work *)

Inductive Note :=
| NoteRead (key : string)
| NoteWrote (entry : string)
| NoteDue (at_ : Z)
| NoteWrites (rows : Z).

Definition note (n : Note) : Touched → Touched :=
  match n with
  | NoteRead key => note_read key
  | NoteWrote entry => note_wrote entry
  | NoteDue at_ => note_due at_
  | NoteWrites rows => note_writes rows
  end.

(** Work that makes notes, records other work, panics, and catches panics. *)
Inductive Work :=
| Return
| Panic
| Noting (n : Note) (rest : Work)
| Recording (inner rest : Work)
| RecordingWrote (inner rest : Work)
| RecordingDue (inner rest : Work)
| Catching (inner rest : Work).

Definition next {A} (r : Touched * option A) (rest : Touched → Touched * option unit) : Touched * option unit :=
  match r with
  | (s, Some _) => rest s
  | (s, None) => (s, None)
  end.

Fixpoint run_work (w : Work) (s : Touched) : Touched * option unit :=
  match w with
  | Return => (s, Some tt)
  | Panic => (s, None)
  | Noting n rest => run_work rest (note n s)
  | Recording inner rest => next (record (run_work inner) s) (run_work rest)
  | RecordingWrote inner rest => next (record_wrote (run_work inner) s) (run_work rest)
  | RecordingDue inner rest => next (record_due (run_work inner) s) (run_work rest)
  | Catching inner rest => run_work rest (run_work inner s).1
  end.

(** The notes work makes, in order, and whether it returns: no recordings. *)
Fixpoint trace (w : Work) : list Note * bool :=
  match w with
  | Return => ([], true)
  | Panic => ([], false)
  | Noting n rest => (n :: (trace rest).1, (trace rest).2)
  | Recording inner rest | RecordingWrote inner rest | RecordingDue inner rest =>
      if (trace inner).2 then ((trace inner).1 ++ (trace rest).1, (trace rest).2)%list else trace inner
  | Catching inner rest => ((trace inner).1 ++ (trace rest).1, (trace rest).2)%list
  end.

Definition reads_in (notes : list Note) : list string :=
  omap (λ n, match n with NoteRead key => Some key | _ => None end) notes.
Definition wrote_in (notes : list Note) : list string :=
  omap (λ n, match n with NoteWrote entry => Some entry | _ => None end) notes.
Definition rows_in (notes : list Note) : list Z :=
  omap (λ n, match n with NoteWrites rows => Some rows | _ => None end) notes.

(** ** Recordings see exactly the notes *)

(** What notes leave of an enclosing recording. *)
Definition after_notes (notes : list Note) (s s' : Touched) : Prop :=
  t_reads s' = (λ set, bset_extend set (reads_in notes)) <$> t_reads s ∧
  t_wrote s' = (λ l, l ++ wrote_in notes)%list <$> t_wrote s ∧
  t_writes s' = foldl (λ n rows, if (0 <? rows)%Z then sadd64 n rows else n) (t_writes s) (rows_in notes).

Definition reads_wf (s : Touched) : Prop := bset_wf (default [] (t_reads s)).

Lemma after_notes_nil s : after_notes [] s s.
Proof.
  split_and!; [by destruct (t_reads s)| |done]. destruct (t_wrote s) as [l|]; [|done]. cbn. by rewrite app_nil_r.
Qed.

Lemma after_notes_app l l' s s' s'' :
  after_notes l s s' → after_notes l' s' s'' → after_notes (l ++ l') s s''.
Proof.
  intros (H1 & H2 & H3) (H1' & H2' & H3'). unfold after_notes, reads_in, wrote_in, rows_in in *. rewrite !omap_app. split_and!.
  - rewrite H1', H1. destruct (t_reads s); [|done]. cbn. unfold bset_extend. by rewrite foldl_app.
  - rewrite H2', H2. destruct (t_wrote s); [|done]. cbn. by rewrite app_assoc.
  - by rewrite H3', H3, foldl_app.
Qed.

Lemma after_note n s : after_notes [n] s (note n s).
Proof.
  unfold after_notes. destruct n as [key|entry|at_|rows]; cbn.
  - unfold note_read. destruct (t_reads s) eqn:E; cbn; rewrite ?E; split_and!; try done;
      destruct (t_wrote s); cbn; by rewrite ?app_nil_r.
  - unfold note_wrote. destruct (t_wrote s) eqn:E; cbn; rewrite ?E; split_and!; try done; by destruct (t_reads s).
  - split_and!; try done; [by destruct (t_reads s)|]. destruct (t_wrote s); cbn; by rewrite ?app_nil_r.
  - unfold note_writes. destruct (0 <? rows)%Z; cbn; split_and!; try done; (try by destruct (t_reads s));
      destruct (t_wrote s); cbn; by rewrite ?app_nil_r.
Qed.

Lemma after_notes_wf l s s' : reads_wf s → after_notes l s s' → reads_wf s'.
Proof.
  unfold reads_wf. intros Hwf (H & _). rewrite H. destruct (t_reads s); cbn in *; [by apply bset_extend_wf|done].
Qed.

Lemma bset_extend_of_list (set : BTreeSet string) l :
  bset_wf set → bset_extend set (bset_of_list l) = bset_extend set l.
Proof.
  intros Hwf. apply bset_ext; [by apply bset_extend_wf..|]. intros x.
  by rewrite !elem_of_bset_extend, elem_of_bset_of_list.
Qed.

(** Work as [run_work] and [trace] describe it. *)
Definition follows (w : Work) : Prop := ∀ s, reads_wf s →
  after_notes (trace w).1 s (run_work w s).1 ∧ bool_decide (is_Some (run_work w s).2) = (trace w).2.

Lemma record_follows w s :
  follows w → reads_wf s →
  after_notes (trace w).1 s (record (run_work w) s).1 ∧
  snd <$> (record (run_work w) s).2 = (if (trace w).2 then Some (bset_of_list (reads_in (trace w).1)) else None).
Proof.
  intros Hw Hwf. unfold record. destruct (Hw (set_reads s (Some bset_empty))) as [(H1 & H2 & H3) Hr]; [constructor|].
  destruct (run_work w _) as [s1 r]. cbn in *. rewrite <-Hr.
  assert (after_notes (trace w).1 s (drop_reads (t_reads s) s1)) as Ha.
  { split_and!; [|done|done]. unfold drop_reads. rewrite H1. cbn. unfold reads_wf in Hwf.
    destruct (t_reads s); [|done]. cbn. f_equal. by apply bset_extend_of_list. }
  destruct r as [[]|]; cbn; [|done]. by rewrite H1.
Qed.

Lemma record_wrote_follows w s :
  follows w → reads_wf s →
  after_notes (trace w).1 s (record_wrote (run_work w) s).1 ∧
  snd <$> (record_wrote (run_work w) s).2 = (if (trace w).2 then Some (wrote_in (trace w).1) else None).
Proof.
  intros Hw Hwf. unfold record_wrote. destruct (Hw (set_wrote s (Some []))) as [(H1 & H2 & H3) Hr]; [done|].
  destruct (run_work w _) as [s1 r]. cbn in *. rewrite <-Hr.
  assert (after_notes (trace w).1 s (drop_wrote (t_wrote s) s1)) as Ha.
  { split_and!; [done| |done]. unfold drop_wrote. by rewrite H2. }
  destruct r as [[]|]; cbn; [|done]. by rewrite H2.
Qed.

Lemma record_due_follows w s :
  follows w → reads_wf s →
  after_notes (trace w).1 s (record_due (run_work w) s).1 ∧
  bool_decide (is_Some (record_due (run_work w) s).2) = (trace w).2.
Proof.
  intros Hw Hwf. unfold record_due. destruct (Hw (set_due s None)) as [(H1 & H2 & H3) Hr]; [done|].
  destruct (run_work w _) as [s1 r]. cbn in *. destruct r as [[]|]; cbn; split; try done.
  destruct (t_due s1), (t_due s); split_and!; cbn; done.
Qed.

Lemma follows_next {A} (r : Touched * option A) l (ok : bool) rest s :
  reads_wf s → after_notes l s r.1 → bool_decide (is_Some r.2) = ok → follows rest →
  after_notes (if ok then l ++ (trace rest).1 else l)%list s (next r (run_work rest)).1 ∧
  bool_decide (is_Some (next r (run_work rest)).2) = (if ok then (trace rest).2 else false).
Proof.
  intros Hwf Ha Hok Hrest. destruct r as [s1 [a|]]; cbn in *; subst ok; [|done].
  destruct (Hrest s1) as [Ha' Hr]; [by eapply after_notes_wf|]. split; [by eapply after_notes_app|done].
Qed.

Lemma work_follows w : follows w.
Proof.
  induction w as [| |n rest IH|inner IHi rest IH|inner IHi rest IH|inner IHi rest IH|inner IHi rest IH];
    intros s Hwf; cbn [run_work trace fst snd].
  - split; [apply after_notes_nil|done].
  - split; [apply after_notes_nil|done].
  - pose proof (after_note n s) as Hn. destruct (IH (note n s)) as [Ha Hr]; [by eapply after_notes_wf|].
    split; [|done]. by apply (after_notes_app [n] _ _ _ _ Hn).
  - destruct (record_follows inner s IHi Hwf) as [Ha Hr].
    destruct (follows_next (record (run_work inner) s) _ (trace inner).2 rest s Hwf Ha) as [Ha' Hr']; [|done|].
    { destruct (record _ s) as [s1 [x|]]; cbn in *; by destruct (trace inner).2. }
    by destruct (trace inner) as [l []].
  - destruct (record_wrote_follows inner s IHi Hwf) as [Ha Hr].
    destruct (follows_next (record_wrote (run_work inner) s) _ (trace inner).2 rest s Hwf Ha) as [Ha' Hr']; [|done|].
    { destruct (record_wrote _ s) as [s1 [x|]]; cbn in *; by destruct (trace inner).2. }
    by destruct (trace inner) as [l []].
  - destruct (record_due_follows inner s IHi Hwf) as [Ha Hr].
    destruct (follows_next (record_due (run_work inner) s) _ (trace inner).2 rest s Hwf Ha) as [Ha' Hr']; [done|done|].
    by destruct (trace inner) as [l []].
  - destruct (IHi s Hwf) as [Ha _]. destruct (IH (run_work inner s).1) as [Ha' Hr]; [by eapply after_notes_wf|].
    split; [by eapply after_notes_app|done].
Qed.

(** A recording sees exactly what its work did.  Whatever the work nests,
    records, or catches, [record] returns the set of the keys it noted and
    [record_wrote] the list of the entries it noted, in order, unless it
    panics; and in both cases, panics included, an enclosing recording has all of
    them added and the rows changed are counted. *)
Theorem recordings_exact w s :
  reads_wf s →
  (snd <$> (record (run_work w) s).2 =
     (if (trace w).2 then Some (bset_of_list (reads_in (trace w).1)) else None) ∧
   after_notes (trace w).1 s (record (run_work w) s).1) ∧
  (snd <$> (record_wrote (run_work w) s).2 = (if (trace w).2 then Some (wrote_in (trace w).1) else None) ∧
   after_notes (trace w).1 s (record_wrote (run_work w) s).1).
Proof.
  intros Hwf. pose proof (work_follows w) as Hw.
  destruct (record_follows w s Hw Hwf), (record_wrote_follows w s Hw Hwf). tauto.
Qed.

Definition demo_work : Work :=
  Noting (NoteRead "b") (Catching (Recording (Noting (NoteRead "a") Panic) Return)
    (Noting (NoteWrote "kind subject") Return)).
Definition demo_touched : Touched := {| t_reads := Some ["c"]; t_writes := 0; t_due := None; t_wrote := None |}.

Lemma recordings_exact_witness :
  snd <$> (record (run_work demo_work) demo_touched).2 = Some ["a"; "b"] ∧
  t_reads (record (run_work demo_work) demo_touched).1 = Some ["a"; "b"; "c"].
Proof.
  destruct (recordings_exact demo_work demo_touched) as [[H (Hr & _)] _]; [repeat constructor|].
  split; [exact H|exact Hr].
Defined.

(** A due time noted by nested work reaches the enclosing recording only when
    that one had already noted a time of its own. *)
Example nested_due_lost :
  (record_due (run_work (RecordingDue (Noting (NoteDue 5) Return) Return))
     {| t_reads := None; t_writes := 0; t_due := None; t_wrote := None |}).2 = Some (tt, None) ∧
  (record_due (run_work (Noting (NoteDue 9) (RecordingDue (Noting (NoteDue 5) Return) Return)))
     {| t_reads := None; t_writes := 0; t_due := None; t_wrote := None |}).2 = Some (tt, Some 5%Z).
Proof. done. Qed.
