(* ===== verification/Digests.v ===== *)
(** * Checkpoint and envelope digests
    (crates/smallclaims/src/store/checkpoint.rs, crates/smallclaims/src/hash.rs
    and [update_identity_digest] of store.rs)

    The digests members compare: what a checkpoint seals, drops and retains, and
    the identity of an envelope.  Each is SHA-256 over an encoding of its
    contents; SHA-256 and [hex::encode] are parameters.  The theorems show that
    the encodings are unambiguous, so two equal digests are about the same
    contents unless SHA-256 itself collides on the two encodings. *)

From S2P Require Import Prelude BTree Json.

Local Open Scope string_scope.

(** ** Data *)

Record EnvelopeKey := { ek_writer : string; ek_sequence : Z; ek_envelope_hash : string }.

Record EnvelopeTombstone := {
  et_writer : string;
  et_sequence : Z;
  et_envelope_hash : string;
  et_accepted_at_unix_ms : Z
}.

Record ClaimTombstone := {
  ct_id : string;
  ct_writer : string;
  ct_sequence : Z;
  ct_envelope_hash : string;
  ct_subject : string;
  ct_kind : string;
  ct_actor : option string;
  ct_predecessors : list string;
  ct_operation_id : option string;
  ct_request_digest : option string;
  ct_accepted_at_unix_ms : Z
}.

(** The fields of a claim a tombstone reads. *)
Record ClaimContent := {
  cl_id : string;
  cl_subject : string;
  cl_kind : string;
  cl_actor : option string;
  cl_body : Value;
  cl_predecessors : list string;
  cl_accepted_at_unix_ms : Z
}.

Record SealedClaim := {
  sc_claim : ClaimContent;
  sc_envelope : EnvelopeKey;
  sc_valid : bool;
  sc_protected : bool
}.

Record SealedEnvelope := { se_key : EnvelopeKey; se_accepted_at_unix_ms : Z; se_records : nat }.

(** [derive(Ord)]: the fields in order. *)
Definition ek_tuple (k : EnvelopeKey) : string * (Z * string) :=
  (ek_writer k, (ek_sequence k, ek_envelope_hash k)).
Definition et_tuple (t : EnvelopeTombstone) : string * (Z * (string * Z)) :=
  (et_writer t, (et_sequence t, (et_envelope_hash t, et_accepted_at_unix_ms t))).
Definition ct_tuple (t : ClaimTombstone)
    : string * (string * (Z * (string * (string * (string * (option string * (list string *
      (option string * (option string * Z))))))))) :=
  (ct_id t, (ct_writer t, (ct_sequence t, (ct_envelope_hash t, (ct_subject t, (ct_kind t, (ct_actor t,
    (ct_predecessors t, (ct_operation_id t, (ct_request_digest t, ct_accepted_at_unix_ms t)))))))))).

#[export] Instance ek_tuple_inj : Inj (=) (=) ek_tuple.
Proof. intros [] [] [=]; by subst. Qed.
#[export] Instance et_tuple_inj : Inj (=) (=) et_tuple.
Proof. intros [] [] [=]; by subst. Qed.
#[export] Instance ct_tuple_inj : Inj (=) (=) ct_tuple.
Proof. intros [] [] [=]; by subst. Qed.

#[export] Instance ord_EnvelopeKey : Ord EnvelopeKey := ord_inj ek_tuple ek_tuple_inj.
#[export] Instance ord_EnvelopeTombstone : Ord EnvelopeTombstone := ord_inj et_tuple et_tuple_inj.
#[export] Instance ord_ClaimTombstone : Ord ClaimTombstone := ord_inj ct_tuple ct_tuple_inj.

(** [operation_parts]: two JSON pointers that must both be strings. *)
Definition operation_parts (body : Value) : option (string * string) :=
  op ← value_get "_operation" body;
  id ← value_get "id" op ≫= as_str;
  digest ← value_get "request_digest" op ≫= as_str;
  Some (id, digest).

Definition claim_tombstone (s : SealedClaim) : ClaimTombstone :=
  let claim := sc_claim s in
  let operation := operation_parts (cl_body claim) in
  {| ct_id := cl_id claim;
     ct_writer := ek_writer (sc_envelope s);
     ct_sequence := ek_sequence (sc_envelope s);
     ct_envelope_hash := ek_envelope_hash (sc_envelope s);
     ct_subject := cl_subject claim;
     ct_kind := cl_kind claim;
     ct_actor := cl_actor claim;
     ct_predecessors := cl_predecessors claim;
     ct_operation_id := fst <$> operation;
     ct_request_digest := snd <$> operation;
     ct_accepted_at_unix_ms := cl_accepted_at_unix_ms claim |}.

(** ** What is hashed *)

(** A domain ends in a zero byte. *)
Definition domain (s : string) : list ascii := (bytes_of s ++ [byte_of 0])%list.

(** [(field.len() as u64).to_be_bytes()] and the field. *)
Definition sized (s : string) : list ascii := (be_bytes 8 (len s) ++ bytes_of s)%list.

(** [digest_field] *)
Definition digest_field (v : option string) : list ascii :=
  match v with
  | Some s => byte_of 1 :: sized s
  | None => [byte_of 0]
  end.

(** [update_identity_digest] *)
Definition identity_bytes (writer : string) (sequence : Z) (hash : string) : list ascii :=
  (sized writer ++ sized (decimal sequence) ++ sized hash)%list.

Definition envelope_bytes (e : EnvelopeTombstone) : list ascii :=
  (digest_field (Some (et_writer e)) ++ digest_field (Some (decimal (et_sequence e))) ++
   digest_field (Some (et_envelope_hash e)) ++ digest_field (Some (decimal (et_accepted_at_unix_ms e))))%list.

(** The number of items and the items. *)
Definition counted {A} (enc : A → list ascii) (l : list A) : list ascii :=
  (be_bytes 8 (Z.of_nat (length l)) ++ concat (enc <$> l))%list.

Definition claim_bytes (c : ClaimTombstone) : list ascii :=
  (digest_field (Some (ct_id c)) ++ digest_field (Some (ct_writer c)) ++
   digest_field (Some (decimal (ct_sequence c))) ++ digest_field (Some (ct_envelope_hash c)) ++
   digest_field (Some (ct_subject c)) ++ digest_field (Some (ct_kind c)) ++ digest_field (ct_actor c) ++
   counted (λ p, digest_field (Some p)) (ct_predecessors c) ++
   digest_field (ct_operation_id c) ++ digest_field (ct_request_digest c) ++
   digest_field (Some (decimal (ct_accepted_at_unix_ms c))))%list.

Definition drop_bytes (envelopes : list EnvelopeTombstone) (claims : list ClaimTombstone) : list ascii :=
  (domain "st3-checkpoint-drop-v1" ++ counted envelope_bytes (bset_of_list envelopes) ++
   counted claim_bytes (bset_of_list claims))%list.

Definition sealed_bytes (envelopes : list SealedEnvelope) : list ascii :=
  (domain "st3-checkpoint-sealed-v1" ++
   concat ((λ k, identity_bytes (ek_writer k) (ek_sequence k) (ek_envelope_hash k)) <$>
     bset_of_list (se_key <$> envelopes)))%list.

Definition retained_bytes (ids : list string) : list ascii :=
  (domain "st3-checkpoint-retained-v1" ++ concat ((λ i, digest_field (Some i)) <$> bset_of_list ids))%list.

Section digests.
Variable sha256 : list ascii → list ascii.
Variable hex_encode : list ascii → string.

Definition drop_digest (envelopes : list EnvelopeTombstone) (claims : list ClaimTombstone) : string :=
  hex_encode (sha256 (drop_bytes envelopes claims)).
Definition sealed_digest (envelopes : list SealedEnvelope) : string :=
  hex_encode (sha256 (sealed_bytes envelopes)).
Definition retained_digest (ids : list string) : string := hex_encode (sha256 (retained_bytes ids)).

(** [replica_envelope_hash] *)
Definition envelope_hash_bytes (writer : string) (sequence : Z) (previous : option string)
    (accepted_at_unix_ms : Z) (payload : list ascii) : list ascii :=
  (domain "st3-replica-envelope-v1" ++
   concat (sized <$> [writer; decimal sequence; default "" previous; decimal accepted_at_unix_ms;
                      hex_encode (sha256 payload)]))%list.
Definition replica_envelope_hash (writer : string) (sequence : Z) (previous : option string)
    (accepted_at_unix_ms : Z) (payload : list ascii) : string :=
  hex_encode (sha256 (envelope_hash_bytes writer sequence previous accepted_at_unix_ms payload)).

(** [replica_record_ref] *)
Definition NUL : ascii := byte_of 0.
Definition record_ref_text (writer : string) (sequence : Z) (envelope_hash : string) (position : Z) : string :=
  join (String NUL "") ["st3-replica-record-v1"; writer; decimal sequence; envelope_hash; decimal position].
Definition replica_record_ref (writer : string) (sequence : Z) (envelope_hash : string) (position : Z) : string :=
  "record/" +:+ hex_encode (sha256 (bytes_of (record_ref_text writer sequence envelope_hash position))).
End digests.

(** ** Unambiguous encodings *)

(** An encoding whose values can be read off the front of any sequence. *)
Class PrefixFree {A} (valid : A → Prop) (enc : A → list ascii) : Prop :=
  prefix_free x y r r' : valid x → valid y → (enc x ++ r = enc y ++ r')%list → x = y ∧ r = r'.

Definition fits (s : string) : Prop := (len s <= u64_max)%Z.

Lemma app_be_bytes_inj n a b r r' :
  (0 <= a < 256 ^ Z.of_nat n)%Z → (0 <= b < 256 ^ Z.of_nat n)%Z →
  (be_bytes n a ++ r = be_bytes n b ++ r')%list → a = b ∧ r = r'.
Proof.
  intros Ha Hb E. apply app_inj_1 in E as [E ->]; [|by rewrite !length_be_bytes].
  split; [|done]. by apply (be_bytes_inj n).
Qed.

Lemma len_u64 s : fits s → (0 <= len s < 256 ^ Z.of_nat 8)%Z.
Proof. unfold fits, len, u64_max. change (256 ^ Z.of_nat 8)%Z with 18446744073709551616%Z. lia. Qed.

#[export] Instance sized_prefix_free : PrefixFree fits sized.
Proof.
  intros x y r r' Hx%len_u64 Hy%len_u64. unfold sized. rewrite <-!app_assoc.
  intros [El E]%app_be_bytes_inj; [|done..]. apply app_inj_1 in E as [E ->].
  - split; [|done]. by apply bytes_of_inj.
  - unfold len in El. lia.
Qed.

Definition field_valid (v : option string) : Prop := match v with Some s => fits s | None => True end.

#[export] Instance digest_field_prefix_free : PrefixFree field_valid digest_field.
Proof.
  intros [x|] [y|] r r' Hx Hy; cbn [digest_field app]; intros E; try discriminate E.
  - assert ((sized x ++ r = sized y ++ r')%list) as E' by congruence.
    apply (prefix_free (valid := fits)) in E' as [-> ->]; done.
  - split; [done|]. congruence.
Qed.

Lemma concat_prefix_free {A} (valid : A → Prop) (enc : A → list ascii) `{!PrefixFree valid enc} l l' r r' :
  Forall valid l → Forall valid l' → length l = length l' →
  (concat (enc <$> l) ++ r = concat (enc <$> l') ++ r')%list → l = l' ∧ r = r'.
Proof.
  intros Hl. revert l'. induction Hl as [|x l Hx Hl IH]; intros [|y l'] Hl' Hlen; try done.
  apply Forall_cons in Hl' as [Hy Hl']. cbn. rewrite <-!app_assoc.
  intros [-> E]%(prefix_free (valid := valid)); [|done..]. apply IH in E as [-> ->]; [done|done|]. by injection Hlen.
Qed.

Definition counted_valid {A} (valid : A → Prop) (l : list A) : Prop :=
  Forall valid l ∧ (Z.of_nat (length l) <= u64_max)%Z.

#[export] Instance counted_prefix_free {A} (valid : A → Prop) (enc : A → list ascii) `{!PrefixFree valid enc} :
  PrefixFree (counted_valid valid) (counted enc).
Proof.
  intros l l' r r' [Hl Hn] [Hl' Hn']. unfold counted. rewrite <-!app_assoc.
  assert (∀ n : nat, (Z.of_nat n <= u64_max)%Z → (0 <= Z.of_nat n < 256 ^ Z.of_nat 8)%Z) as Hr.
  { intros n. unfold u64_max. change (256 ^ Z.of_nat 8)%Z with 18446744073709551616%Z. lia. }
  intros [Elen E]%app_be_bytes_inj; [|by apply Hr..].
  apply Nat2Z.inj in Elen. by apply (concat_prefix_free valid enc).
Qed.

(** A nonempty encoding needs no count at the end of what is hashed. *)
Lemma concat_inj {A} (valid : A → Prop) (enc : A → list ascii) `{!PrefixFree valid enc} l l' :
  (∀ x, enc x ≠ []) → Forall valid l → Forall valid l' → concat (enc <$> l) = concat (enc <$> l') → l = l'.
Proof.
  intros Hne Hl. revert l'. induction Hl as [|x l Hx Hl IH]; intros [|y l'] Hl'; cbn.
  - done.
  - intros E. symmetry in E. apply app_nil in E as [E _]. by apply Hne in E.
  - intros E. apply app_nil in E as [E _]. by apply Hne in E.
  - apply Forall_cons in Hl' as [Hy Hl'].
    intros [-> E]%(prefix_free (valid := valid)); [|done..]. f_equal. by apply IH.
Qed.

(** Decimal renderings fit. *)
Definition small (z : Z) : Prop := (0 <= z)%Z ∧ fits (decimal z).

(** Reading an encoding field by field. *)
Ltac read_fields :=
  repeat match goal with
  | E : (digest_field _ ++ _ = digest_field _ ++ _)%list |- _ =>
      apply (prefix_free (valid := field_valid)) in E as [? E]; [|done..]
  | E : (sized _ ++ _ = sized _ ++ _)%list |- _ =>
      apply (prefix_free (valid := fits)) in E as [? E]; [|done..]
  | E : (counted (λ p, digest_field (Some p)) _ ++ _ = _ ++ _)%list |- _ =>
      apply (prefix_free (valid := counted_valid fits)) in E as [? E]; [|done..]
  end.

#[export] Instance some_field_prefix_free : PrefixFree fits (λ p, digest_field (Some p)).
Proof.
  intros x y r r' Hx Hy E. apply (prefix_free (valid := field_valid)) in E as [[= ->] ->]; done.
Qed.

Definition envelope_valid (e : EnvelopeTombstone) : Prop :=
  fits (et_writer e) ∧ small (et_sequence e) ∧ fits (et_envelope_hash e) ∧ small (et_accepted_at_unix_ms e).

#[export] Instance envelope_bytes_prefix_free : PrefixFree envelope_valid envelope_bytes.
Proof.
  intros [w s h a] [w' s' h' a'] r r' (Hw & [Hs Hfs] & Hh & [Ha Hfa]) (Hw' & [Hs' Hfs'] & Hh' & [Ha' Hfa']).
  unfold envelope_bytes. cbn [et_writer et_sequence et_envelope_hash et_accepted_at_unix_ms] in *.
  rewrite <-!app_assoc. intros E. read_fields. simplify_eq.
  assert (s = s') as -> by (by apply decimal_inj). assert (a = a') as -> by (by apply decimal_inj). done.
Qed.

Definition claim_valid (c : ClaimTombstone) : Prop :=
  (fits (ct_id c) ∧ fits (ct_writer c) ∧ small (ct_sequence c) ∧ fits (ct_envelope_hash c)) ∧
  (fits (ct_subject c) ∧ fits (ct_kind c) ∧ field_valid (ct_actor c) ∧ counted_valid fits (ct_predecessors c)) ∧
  field_valid (ct_operation_id c) ∧ field_valid (ct_request_digest c) ∧ small (ct_accepted_at_unix_ms c).

#[export] Instance claim_bytes_prefix_free : PrefixFree claim_valid claim_bytes.
Proof.
  intros [] [] r r' ((? & ? & [? ?] & ?) & (? & ? & ? & ?) & ? & ? & [? ?])
    ((? & ? & [? ?] & ?) & (? & ? & ? & ?) & ? & ? & [? ?]).
  unfold claim_bytes. cbn [ct_id ct_writer ct_sequence ct_envelope_hash ct_subject ct_kind ct_actor ct_predecessors
    ct_operation_id ct_request_digest ct_accepted_at_unix_ms] in *.
  rewrite <-!app_assoc. intros E. read_fields. simplify_eq.
  repeat match goal with
  | E : decimal ?a = decimal ?b |- _ => assert (a = b) as -> by (by apply decimal_inj); clear E
  end. done.
Qed.

Definition identity_valid (k : EnvelopeKey) : Prop :=
  fits (ek_writer k) ∧ small (ek_sequence k) ∧ fits (ek_envelope_hash k).

#[export] Instance identity_prefix_free :
  PrefixFree identity_valid (λ k, identity_bytes (ek_writer k) (ek_sequence k) (ek_envelope_hash k)).
Proof.
  intros [w s h] [w' s' h'] r r' (Hw & [Hs Hfs] & Hh) (Hw' & [Hs' Hfs'] & Hh').
  unfold identity_bytes. cbn [ek_writer ek_sequence ek_envelope_hash] in *.
  rewrite <-!app_assoc. intros E. read_fields. simplify_eq. assert (s = s') as -> by (by apply decimal_inj). done.
Qed.

(** ** Sets of items *)

Section same.
Context {A : Type} `{Ord A}.

Lemma length_bset_insert (x : A) s : (length (bset_insert x s) <= S (length s))%nat.
Proof. induction s as [|y s IH]; cbn; [lia|]. destruct (cmp x y); cbn; lia. Qed.

Lemma length_bset_of_list (l : list A) : (length (bset_of_list l) <= length l)%nat.
Proof.
  unfold bset_of_list, bset_extend, bset_empty.
  assert (∀ (l s : list A), (length (foldl (λ s x, bset_insert x s) s l) <= length s + length l)%nat) as Hgen;
    [|apply (Hgen l [])].
  clear l. induction l as [|x l IH]; intros s; cbn [foldl length]; [lia|].
  pose proof (IH (bset_insert x s)). pose proof (length_bset_insert x s). lia.
Qed.

Lemma bset_of_list_same (l l' : list A) : bset_of_list l = bset_of_list l' ↔ ∀ x, x ∈ l ↔ x ∈ l'.
Proof.
  split.
  - intros E x. by rewrite <-(elem_of_bset_of_list x l), E, elem_of_bset_of_list.
  - intros E. apply bset_ext; [apply bset_of_list_wf..|]. intros x. by rewrite !elem_of_bset_of_list.
Qed.

Lemma bset_of_list_Forall (P : A → Prop) l : Forall P l → Forall P (bset_of_list l).
Proof. rewrite !Forall_forall. intros Hl x Hx. apply Hl. by rewrite <-elem_of_bset_of_list. Qed.

Lemma bset_of_list_counted (P : A → Prop) l :
  Forall P l → (Z.of_nat (length l) <= u64_max)%Z → counted_valid P (bset_of_list l).
Proof.
  intros Hl Hn. split; [by apply bset_of_list_Forall|]. pose proof (length_bset_of_list l). lia.
Qed.
End same.

(** ** What equal digests mean *)

Section meaning.
Context (sha256 : list ascii → list ascii) (hex_encode : list ascii → string).
Hypothesis hex_encode_inj : ∀ a b, hex_encode a = hex_encode b → a = b.

(** SHA-256 does not collide on two given inputs. *)
Definition no_collision (a b : list ascii) : Prop := sha256 a = sha256 b → a = b.

(** Equal drop digests mean the same drop.  Unless SHA-256 collides on the
    two encodings, two manifests have the same drop digest exactly when they name
    the same envelope tombstones and the same claim tombstones: a tombstone that
    differs in any field, or that one of them lacks, changes the digest, and the
    order they are listed in does not. *)
Theorem drop_digest_iff es cs es' cs' :
  Forall envelope_valid es → Forall envelope_valid es' → Forall claim_valid cs → Forall claim_valid cs' →
  (Z.of_nat (length es) <= u64_max)%Z → (Z.of_nat (length es') <= u64_max)%Z →
  (Z.of_nat (length cs) <= u64_max)%Z → (Z.of_nat (length cs') <= u64_max)%Z →
  no_collision (drop_bytes es cs) (drop_bytes es' cs') →
  drop_digest sha256 hex_encode es cs = drop_digest sha256 hex_encode es' cs' ↔
  (∀ e, e ∈ es ↔ e ∈ es') ∧ (∀ c, c ∈ cs ↔ c ∈ cs').
Proof.
  intros He He' Hc Hc' Hn1 Hn2 Hn3 Hn4 Hfree. rewrite <-!bset_of_list_same. split.
  - intros E%hex_encode_inj%Hfree. unfold drop_bytes in E. apply app_inv_head in E.
    apply (prefix_free (valid := counted_valid envelope_valid)) in E as [-> E]; [|by apply bset_of_list_counted..].
    rewrite <-(app_nil_r (counted claim_bytes (bset_of_list cs))),
      <-(app_nil_r (counted claim_bytes (bset_of_list cs'))) in E.
    apply (prefix_free (valid := counted_valid claim_valid)) in E as [-> _]; [done|by apply bset_of_list_counted..].
  - intros [E1 E2]. unfold drop_digest, drop_bytes. by rewrite E1, E2.
Qed.

(** Equal seals mean the same envelopes, and equal retained digests the same
    claims: unless SHA-256 collides on the two encodings, sealed digests agree
    exactly when the sealed sets hold the same envelope identities, and retained
    digests exactly when the same claim ids are kept. *)
Theorem seal_digests_iff es es' ids ids' :
  Forall identity_valid (se_key <$> es) → Forall identity_valid (se_key <$> es') →
  Forall fits ids → Forall fits ids' →
  no_collision (sealed_bytes es) (sealed_bytes es') → no_collision (retained_bytes ids) (retained_bytes ids') →
  (sealed_digest sha256 hex_encode es = sealed_digest sha256 hex_encode es' ↔
     ∀ k, k ∈ se_key <$> es ↔ k ∈ se_key <$> es') ∧
  (retained_digest sha256 hex_encode ids = retained_digest sha256 hex_encode ids' ↔
     ∀ i, i ∈ ids ↔ i ∈ ids').
Proof.
  intros He He' Hi Hi' Hf1 Hf2. rewrite <-!bset_of_list_same. split; split.
  - intros E%hex_encode_inj%Hf1. apply app_inv_head in E.
    refine (concat_inj identity_valid _ _ _ _ _ _ E); [|by apply bset_of_list_Forall..].
    intros k Hk%(f_equal length). unfold identity_bytes, sized in Hk. rewrite !length_app, length_be_bytes in Hk. done.
  - intros E. unfold sealed_digest, sealed_bytes. by rewrite E.
  - intros E%hex_encode_inj%Hf2. apply app_inv_head in E.
    by refine (concat_inj fits _ _ _ _ _ _ E); [|apply bset_of_list_Forall..].
  - intros E. unfold retained_digest, retained_bytes. by rewrite E.
Qed.

(** An envelope's hash binds the envelope.  Unless SHA-256 collides on the
    encodings or the payloads, two envelopes with the same hash have the same
    writer, sequence, previous hash (an absent one being the empty one), time and
    payload. *)
Theorem replica_envelope_hash_binds w s p a b w' s' p' a' b' :
  fits w → fits w' → small s → small s' → fits (default "" p) → fits (default "" p') → small a → small a' →
  fits (hex_encode (sha256 b)) → fits (hex_encode (sha256 b')) →
  no_collision (envelope_hash_bytes sha256 hex_encode w s p a b) (envelope_hash_bytes sha256 hex_encode w' s' p' a' b') →
  no_collision b b' →
  replica_envelope_hash sha256 hex_encode w s p a b = replica_envelope_hash sha256 hex_encode w' s' p' a' b' →
  w = w' ∧ s = s' ∧ default "" p = default "" p' ∧ a = a' ∧ b = b'.
Proof.
  intros Hw Hw' [Hs Hfs] [Hs' Hfs'] Hp Hp' [Ha Hfa] [Ha' Hfa'] Hb Hb' Hf Hfb E%hex_encode_inj%Hf.
  unfold envelope_hash_bytes in E. apply app_inv_head in E.
  assert (∀ x, sized x ≠ []) as Hne.
  { intros x Hx%(f_equal length). unfold sized in Hx. by rewrite length_app, length_be_bytes in Hx. }
  apply (concat_inj fits sized _ _ Hne) in E; [|by repeat constructor..].
  injection E as -> Es Ep Ea Eb. split_and!; [done|by apply decimal_inj|done|by apply decimal_inj|].
  by apply Hfb, hex_encode_inj.
Qed.
End meaning.

(** Decimals hold digits only. *)
Lemma pretty_N_char_digit x : (48 <= byte_val (pretty_N_char x) <= 57)%Z.
Proof.
  unfold pretty_N_char. destruct x as [|p]; [vm_compute; split; discriminate|].
  do 4 (destruct p as [p|p|]; try (vm_compute; split; discriminate)).
Qed.

Lemma decimal_digits z c : c ∈ bytes_of (decimal z) → (48 <= byte_val c <= 57)%Z.
Proof.
  unfold decimal. generalize (Z.to_N z). intros n.
  assert (∀ n s, (∀ c, c ∈ bytes_of s → (48 <= byte_val c <= 57)%Z) →
    c ∈ bytes_of (pretty_N_go n s) → (48 <= byte_val c <= 57)%Z) as Hgo.
  { clear n. intros n. induction (N.lt_wf_0 n) as [n _ IH]. intros s Hs.
    destruct (decide (n = 0)%N) as [->|Hn]; [rewrite pretty_N_go_0; apply Hs|].
    rewrite pretty_N_go_step by lia. apply IH; [apply N.div_lt; lia|].
    intros d [-> |Hd]%elem_of_cons; [apply pretty_N_char_digit|by apply Hs]. }
  unfold pretty, pretty_N. destruct (decide (n = 0)%N).
  - intros ->%list_elem_of_singleton. vm_compute. split; discriminate.
  - apply Hgo. intros d Hd. by apply elem_of_nil in Hd.
Qed.

Lemma decimal_no_nul z : NUL ∉ bytes_of (decimal z).
Proof. intros H%decimal_digits. vm_compute in H. by destruct H. Qed.

Lemma record_domain_no_nul : NUL ∉ bytes_of "st3-replica-record-v1".
Proof. apply (bool_decide_unpack _). vm_compute. done. Qed.

(** A record's reference binds its place: unless SHA-256 collides, records with
    the same reference are the same position of the same envelope, given that
    neither writers nor hashes hold a zero byte. *)
Theorem replica_record_ref_binds sha256 hex_encode w s h n w' s' h' n' :
  (∀ a b, hex_encode a = hex_encode b → a = b) →
  NUL ∉ bytes_of w → NUL ∉ bytes_of w' → NUL ∉ bytes_of h → NUL ∉ bytes_of h' →
  (0 <= s)%Z → (0 <= s')%Z → (0 <= n)%Z → (0 <= n')%Z →
  no_collision sha256 (bytes_of (record_ref_text w s h n)) (bytes_of (record_ref_text w' s' h' n')) →
  replica_record_ref sha256 hex_encode w s h n = replica_record_ref sha256 hex_encode w' s' h' n' →
  w = w' ∧ s = s' ∧ h = h' ∧ n = n'.
Proof.
  intros Hinj Hw Hw' Hh Hh' Hs Hs' Hn Hn' Hfree E.
  assert (hex_encode (sha256 (bytes_of (record_ref_text w s h n))) =
          hex_encode (sha256 (bytes_of (record_ref_text w' s' h' n')))) as E2%Hinj%Hfree%bytes_of_inj.
  { unfold replica_record_ref in E. apply (f_equal (strip_prefix "record/")) in E.
    rewrite (proj2 (strip_prefix_Some _ _ _) eq_refl), (proj2 (strip_prefix_Some _ _ _) eq_refl) in E. congruence. }
  apply (join_inj_last NUL ["st3-replica-record-v1"; w; decimal s; h] ["st3-replica-record-v1"; w'; decimal s'; h'])
    in E2 as [El En]; [|done|..].
  - injection El as -> Es ->. split_and!; [done|by apply decimal_inj|done|by apply decimal_inj].
  - intros x Hx. repeat (apply elem_of_cons in Hx as [-> |Hx]; [auto using record_domain_no_nul, decimal_no_nul|]).
    by apply elem_of_nil in Hx.
  - intros x Hx. repeat (apply elem_of_cons in Hx as [-> |Hx]; [auto using record_domain_no_nul, decimal_no_nul|]).
    by apply elem_of_nil in Hx.
Qed.

(** ** Witnesses *)

(** Any injective function will do for SHA-256 and [hex::encode]. *)
Definition demo_digest (l : list ascii) : list ascii := reverse l.
Definition demo_encode (l : list ascii) : string := string_of l.

Lemma demo_no_collision a b : no_collision demo_digest a b.
Proof. intros E. by apply (inj reverse). Qed.
Lemma demo_encode_inj a b : demo_encode a = demo_encode b → a = b.
Proof. intros E%(f_equal bytes_of). by rewrite !bytes_of_string_of in E. Qed.

Definition demo_envelope (sequence : Z) : EnvelopeTombstone :=
  {| et_writer := "cedar"; et_sequence := sequence; et_envelope_hash := "h"; et_accepted_at_unix_ms := 5 |}.
Definition demo_claim : SealedClaim :=
  {| sc_claim := {| cl_id := "c1"; cl_subject := "doc/a"; cl_kind := "doc.written"; cl_actor := Some "agent/x";
                    cl_body := Object [("_operation", Object [("id", VString "op"); ("request_digest", VString "d")])];
                    cl_predecessors := ["c0"]; cl_accepted_at_unix_ms := 5 |};
     sc_envelope := {| ek_writer := "cedar"; ek_sequence := 1; ek_envelope_hash := "h" |};
     sc_valid := true; sc_protected := false |}.

Ltac demo_valid :=
  unfold small, fits; repeat split; repeat constructor; try lia; try (vm_compute; discriminate).

Lemma demo_envelope_valid sequence : sequence = 1%Z ∨ sequence = 2%Z → envelope_valid (demo_envelope sequence).
Proof. intros [-> | ->]; demo_valid. Qed.

Lemma drop_digest_iff_witness :
  drop_digest demo_digest demo_encode [demo_envelope 1; demo_envelope 2] [claim_tombstone demo_claim] =
  drop_digest demo_digest demo_encode [demo_envelope 2; demo_envelope 1; demo_envelope 2] [claim_tombstone demo_claim].
Proof.
  apply (drop_digest_iff demo_digest demo_encode demo_encode_inj).
  - repeat (constructor; [apply demo_envelope_valid; tauto|]). constructor.
  - repeat (constructor; [apply demo_envelope_valid; tauto|]). constructor.
  - constructor; [demo_valid|constructor].
  - constructor; [demo_valid|constructor].
  - vm_compute. discriminate.
  - vm_compute. discriminate.
  - vm_compute. discriminate.
  - vm_compute. discriminate.
  - apply demo_no_collision.
  - split; [|done]. intros e. rewrite !elem_of_cons. tauto.
Defined.

Definition demo_sealed (sequence : Z) : SealedEnvelope :=
  {| se_key := {| ek_writer := "cedar"; ek_sequence := sequence; ek_envelope_hash := "h" |};
     se_accepted_at_unix_ms := 5; se_records := 1 |}.

Lemma seal_digests_iff_witness :
  sealed_digest demo_digest demo_encode [demo_sealed 1; demo_sealed 2] =
    sealed_digest demo_digest demo_encode [demo_sealed 2; demo_sealed 1] ∧
  ¬ (retained_digest demo_digest demo_encode ["a"] = retained_digest demo_digest demo_encode ["a"; "b"]).
Proof.
  destruct (seal_digests_iff demo_digest demo_encode demo_encode_inj [demo_sealed 1; demo_sealed 2]
    [demo_sealed 2; demo_sealed 1] ["a"] ["a"; "b"]) as [H1 H2].
  - constructor; [demo_valid|]. constructor; [demo_valid|constructor].
  - constructor; [demo_valid|]. constructor; [demo_valid|constructor].
  - constructor; [demo_valid|constructor].
  - constructor; [demo_valid|]. constructor; [demo_valid|constructor].
  - apply demo_no_collision.
  - apply demo_no_collision.
  - split.
    + apply H1. intros k. cbn [fmap list_fmap]. rewrite !elem_of_cons. tauto.
    + rewrite H2. intros H. assert ("b" ∈ ["a"]) as Hb by (apply H; right; left).
      apply list_elem_of_singleton in Hb. discriminate Hb.
Defined.

Lemma replica_envelope_hash_binds_witness :
  ¬ (replica_envelope_hash demo_digest demo_encode "cedar" 1 None 5 [] =
     replica_envelope_hash demo_digest demo_encode "cedar" 2 None 5 []).
Proof.
  intros E. apply (replica_envelope_hash_binds demo_digest demo_encode demo_encode_inj) in E as (_ & E & _);
    [discriminate E|..|apply demo_no_collision|apply demo_no_collision].
  all: demo_valid.
Defined.
