(* ===== verification/PreparedCut.v ===== *)
(** * Prepared replication cuts (crates/smallclaims/src/prepared_cut.rs)

    The checks that decide whether a prepared cut may be used and whether two
    members may compare projections, and the byte stream of the legacy graph
    digest.  SHA-256 and [hex::encode] are parameters. *)

From S2P Require Import Prelude BTree Json Digests.

Local Open Scope string_scope.
Local Open Scope claims_scope.

(** ** Data *)

Record SourceLifetime := {
  sl_database_id : string; sl_owner_id : string; sl_source_name : string; sl_fingerprint : string;
  sl_epoch : string; sl_file_incarnation : string; sl_copy_generation : Z; sl_restore_generation : Z;
  sl_schema_identity : string
}.

Record InventoryCut := {
  ic_prefix_count : Z; ic_prefix_digest : string; ic_envelope_count : Z; ic_tail_rowid : option Z; ic_digest : string
}.

Record CutToken := {
  tk_lifetime : SourceLifetime;
  tk_source_revision : Z; tk_store_index : Z; tk_graph_generation : Z; tk_projection_generation : Z;
  tk_inventory_generation : Z; tk_pending_generation : Z; tk_seeded_batch_rowid : Z; tk_admission_generation : Z;
  tk_signature_generation : Z; tk_checkpoint_generation : Z;
  tk_inventory : InventoryCut;
  tk_legacy_graph_digest : string
}.

Inductive LegacyFormat := SqliteJsonArrayV1 | OtherFormat.
Record LegacyProof := { lp_format : LegacyFormat; lp_digest : string; lp_complete : bool }.

Record PreparedCut := {
  pc_token : CutToken;
  pc_source_available : bool; pc_native_complete : bool; pc_inventory_complete : bool; pc_sealed : bool;
  pc_pending_known : bool; pc_admission_complete : bool; pc_projections_complete : bool;
  pc_legacy : option LegacyProof
}.

Inductive CutRefusal := Cancelled | Changed | Malformed | Incomplete | LegacyUnavailable.

Record SessionToken := {
  st_local_owner_id : string; st_peer_id : string; st_peer_incarnation : string; st_session_id : string;
  st_request_digest : string
}.

Record CapabilityEvidence := {
  ce_session : SessionToken; ce_authenticated : bool; ce_fresh : bool; ce_prepared_v1 : bool
}.

Record ProofDigests := { pd_inventory : string; pd_projection : string; pd_legacy : string }.

Record RemoteCompleteness := {
  rc_session : SessionToken; rc_authenticated : bool; rc_qualified_producer : bool; rc_complete : option bool;
  rc_inventory_complete : bool; rc_projections_complete : bool; rc_legacy_complete : bool;
  rc_asserted : ProofDigests; rc_transmitted : ProofDigests
}.

Inductive PeerLane :=
| Legacy
| Prepared (capability : option CapabilityEvidence) (completeness : option RemoteCompleteness).

Inductive ComparisonDecision :=
| RetryLocalCut (reason : CutRefusal)
| LegacyUnqualified
| PendingPeerProof
| Eligible.

#[export] Instance SourceLifetime_eq_dec : EqDecision SourceLifetime.
Proof. solve_decision. Defined.
#[export] Instance InventoryCut_eq_dec : EqDecision InventoryCut.
Proof. solve_decision. Defined.
#[export] Instance CutToken_eq_dec : EqDecision CutToken.
Proof. solve_decision. Defined.
#[export] Instance LegacyFormat_eq_dec : EqDecision LegacyFormat.
Proof. solve_decision. Defined.
#[export] Instance SessionToken_eq_dec : EqDecision SessionToken.
Proof. solve_decision. Defined.
#[export] Instance ProofDigests_eq_dec : EqDecision ProofDigests.
Proof. solve_decision. Defined.
#[export] Instance CutRefusal_eq_dec : EqDecision CutRefusal.
Proof. solve_decision. Defined.
#[export] Instance ComparisonDecision_eq_dec : EqDecision ComparisonDecision.
Proof. solve_decision. Defined.

(** ** Checks *)

(** [is_ascii_hexdigit] and not [is_ascii_uppercase] *)
Definition lower_hex (b : ascii) : bool :=
  let v := byte_val b in
  ((48 <=? v) && (v <=? 57) || (97 <=? v) && (v <=? 102))%Z.
Definition digest_is_hex (value : string) : bool :=
  (len value =? 64)%Z && forallb lower_hex (bytes_of value).

Definition nonempty (s : string) : bool := negb (String.eqb s "").

Definition token_well_formed (token : CutToken) : bool :=
  let lifetime := tk_lifetime token in
  let inventory := tk_inventory token in
  nonempty (sl_database_id lifetime) && nonempty (sl_owner_id lifetime) && nonempty (sl_source_name lifetime) &&
  nonempty (sl_fingerprint lifetime) && nonempty (sl_epoch lifetime) && nonempty (sl_file_incarnation lifetime) &&
  nonempty (sl_schema_identity lifetime) &&
  (ic_prefix_count inventory <=? ic_envelope_count inventory)%Z &&
  Bool.eqb (ic_envelope_count inventory =? 0)%Z (bool_decide (ic_tail_rowid inventory = None)) &&
  digest_is_hex (ic_prefix_digest inventory) && digest_is_hex (ic_digest inventory) &&
  digest_is_hex (tk_legacy_graph_digest token).

Definition validate_prepared_cut (requested : CutToken) (prepared : PreparedCut) (cancelled : bool)
    : result unit CutRefusal :=
  if cancelled then Err Cancelled
  else if negb (token_well_formed requested) || negb (token_well_formed (pc_token prepared)) then Err Malformed
  else if negb (bool_decide (requested = pc_token prepared)) then Err Changed
  else if negb (pc_source_available prepared) || negb (pc_native_complete prepared) ||
          negb (pc_inventory_complete prepared) || negb (pc_sealed prepared) || negb (pc_pending_known prepared) ||
          negb (pc_admission_complete prepared) || negb (pc_projections_complete prepared) then Err Incomplete
  else
    match pc_legacy prepared with
    | None => Err LegacyUnavailable
    | Some legacy =>
        if negb (bool_decide (lp_format legacy = SqliteJsonArrayV1)) || negb (lp_complete legacy) ||
           negb (digest_is_hex (lp_digest legacy)) ||
           negb (String.eqb (lp_digest legacy) (tk_legacy_graph_digest requested)) then Err LegacyUnavailable
        else Ok tt
    end.

Definition session_well_formed (s : SessionToken) : bool :=
  nonempty (st_local_owner_id s) && nonempty (st_peer_id s) && nonempty (st_peer_incarnation s) &&
  nonempty (st_session_id s) && digest_is_hex (st_request_digest s).

Definition proofs_well_formed (d : ProofDigests) : bool :=
  digest_is_hex (pd_inventory d) && digest_is_hex (pd_projection d) && digest_is_hex (pd_legacy d).

Definition permits_projection_actions (d : ComparisonDecision) : bool := bool_decide (d = Eligible).

Definition decide_comparison (requested : CutToken) (prepared : PreparedCut) (cancelled : bool)
    (current_session : SessionToken) (lane : PeerLane) : ComparisonDecision :=
  match validate_prepared_cut requested prepared cancelled with
  | Err reason => RetryLocalCut reason
  | Ok _ =>
      match lane with
      | Legacy => LegacyUnqualified
      | Prepared capability completeness =>
          if negb (session_well_formed current_session) ||
             negb (String.eqb (st_local_owner_id current_session) (sl_owner_id (tk_lifetime requested)))
          then PendingPeerProof
          else
            match capability, completeness with
            | Some capability, Some completeness =>
                if negb (bool_decide (ce_session capability = current_session)) ||
                   negb (ce_authenticated capability) || negb (ce_fresh capability) ||
                   negb (ce_prepared_v1 capability) ||
                   negb (bool_decide (rc_session completeness = current_session)) ||
                   negb (rc_authenticated completeness) || negb (rc_qualified_producer completeness) ||
                   negb (bool_decide (rc_complete completeness = Some true)) ||
                   negb (rc_inventory_complete completeness) || negb (rc_projections_complete completeness) ||
                   negb (rc_legacy_complete completeness) || negb (proofs_well_formed (rc_asserted completeness)) ||
                   negb (bool_decide (rc_asserted completeness = rc_transmitted completeness)) ||
                   negb (String.eqb (pd_inventory (rc_transmitted completeness)) (ic_digest (tk_inventory requested)))
                then PendingPeerProof
                else Eligible
            | _, _ => PendingPeerProof
            end
      end
  end.

(** ** The legacy digest *)

(** [LegacyDigestBuilder::table] *)
Definition row_bytes (row : list ascii) : list ascii := (be_bytes 8 (Z.of_nat (length row)) ++ row)%list.
Definition table_bytes (t : string * list (list ascii)) : list ascii :=
  (bytes_of t.1 ++ [byte_of 0] ++ concat (row_bytes <$> t.2))%list.

(** [LegacyDigestBuilder::new], [table] for each table, [finish] *)
Definition legacy_bytes (tables : list (string * list (list ascii))) : list ascii :=
  foldl (λ hashed t, hashed ++ table_bytes t)%list (domain "st3-logical-digest-v1") tables.
Definition legacy_digest (sha256 : list ascii → list ascii) (hex_encode : list ascii → string)
    (tables : list (string * list (list ascii))) : string :=
  hex_encode (sha256 (legacy_bytes tables)).

(** ** When projections may be compared *)

Definition cut_usable (requested : CutToken) (prepared : PreparedCut) : Prop :=
  token_well_formed requested = true ∧ pc_token prepared = requested ∧
  (pc_source_available prepared && pc_native_complete prepared && pc_inventory_complete prepared &&
   pc_sealed prepared && pc_pending_known prepared && pc_admission_complete prepared &&
   pc_projections_complete prepared) = true ∧
  pc_legacy prepared = Some {| lp_format := SqliteJsonArrayV1; lp_digest := tk_legacy_graph_digest requested;
                               lp_complete := true |}.

Lemma digest_of_token requested : token_well_formed requested = true → digest_is_hex (tk_legacy_graph_digest requested) = true.
Proof. unfold token_well_formed. by intros [_ ?]%andb_true_iff. Qed.

Lemma validate_Ok requested prepared cancelled :
  validate_prepared_cut requested prepared cancelled = Ok tt ↔ cancelled = false ∧ cut_usable requested prepared.
Proof.
  unfold validate_prepared_cut, cut_usable. destruct cancelled; [naive_solver|].
  destruct (token_well_formed requested) eqn:Ew; cbn [negb orb]; [|naive_solver].
  destruct (bool_decide (requested = pc_token prepared)) eqn:Et; bool_prop.
  - rewrite <-Et, Ew. cbn [negb].
    destruct (pc_source_available prepared), (pc_native_complete prepared), (pc_inventory_complete prepared),
      (pc_sealed prepared), (pc_pending_known prepared), (pc_admission_complete prepared),
      (pc_projections_complete prepared); cbn [negb orb andb]; try (split; [done|naive_solver]).
    destruct (pc_legacy prepared) as [[format digest done_]|]; cbn; [|naive_solver].
    case_bool_decide as Hf; cbn; [|naive_solver]. subst format. destruct done_; cbn; [|naive_solver].
    destruct (String.eqb_spec digest (tk_legacy_graph_digest requested)) as [->|Hne]; cbn.
    + rewrite digest_of_token by done. naive_solver.
    + rewrite orb_true_r. naive_solver.
  - destruct (negb (token_well_formed (pc_token prepared))); cbn; naive_solver.
Qed.

(** The peer's evidence for the current session. *)
Definition peer_proved (requested : CutToken) (current : SessionToken) (lane : PeerLane) : Prop :=
  session_well_formed current = true ∧ st_local_owner_id current = sl_owner_id (tk_lifetime requested) ∧
  ∃ digests, proofs_well_formed digests = true ∧ pd_inventory digests = ic_digest (tk_inventory requested) ∧
    lane = Prepared
      (Some {| ce_session := current; ce_authenticated := true; ce_fresh := true; ce_prepared_v1 := true |})
      (Some {| rc_session := current; rc_authenticated := true; rc_qualified_producer := true; rc_complete := Some true;
               rc_inventory_complete := true; rc_projections_complete := true; rc_legacy_complete := true;
               rc_asserted := digests; rc_transmitted := digests |}).

Lemma evidence_iff requested current capability completeness :
  session_well_formed current = true → st_local_owner_id current = sl_owner_id (tk_lifetime requested) →
  (negb (bool_decide (ce_session capability = current)) || negb (ce_authenticated capability) ||
   negb (ce_fresh capability) || negb (ce_prepared_v1 capability) ||
   negb (bool_decide (rc_session completeness = current)) || negb (rc_authenticated completeness) ||
   negb (rc_qualified_producer completeness) || negb (bool_decide (rc_complete completeness = Some true)) ||
   negb (rc_inventory_complete completeness) || negb (rc_projections_complete completeness) ||
   negb (rc_legacy_complete completeness) || negb (proofs_well_formed (rc_asserted completeness)) ||
   negb (bool_decide (rc_asserted completeness = rc_transmitted completeness)) ||
   negb (String.eqb (pd_inventory (rc_transmitted completeness)) (ic_digest (tk_inventory requested)))) = false ↔
  peer_proved requested current (Prepared (Some capability) (Some completeness)).
Proof.
  intros Hs Ho. unfold peer_proved. split.
  - intros H. bool_prop. destruct capability, completeness. cbn in *. subst. repeat (split; [done|]).
    apply String.eqb_eq in H0. by eexists.
  - intros (_ & _ & d & Hw & Hd & [= -> ->]). cbn. rewrite !bool_decide_eq_true_2, Hw, Hd, String.eqb_refl by done. done.
Qed.

(** Projections are compared only under full proof, and then always.  The
    decision is [Eligible] exactly when the request was not cancelled, the
    prepared cut is well formed, complete and for the requested token with the
    requested legacy digest, and the peer gave authenticated, fresh and complete
    evidence for the current session whose digests it also transmitted, with the
    same inventory. *)
Theorem eligible_iff requested prepared cancelled current lane :
  decide_comparison requested prepared cancelled current lane = Eligible ↔
  cancelled = false ∧ cut_usable requested prepared ∧ peer_proved requested current lane.
Proof.
  unfold decide_comparison. pose proof (validate_Ok requested prepared cancelled) as Hv.
  destruct (validate_prepared_cut requested prepared cancelled) as [[]|reason]; [|naive_solver].
  destruct lane as [|capability completeness].
  { split; [done|]. intros (_ & _ & _ & _ & d & _ & _ & ?). done. }
  destruct (session_well_formed current) eqn:Es; cbn [negb orb].
  2:{ split; [done|]. intros (_ & _ & Hs & _). congruence. }
  destruct (String.eqb_spec (st_local_owner_id current) (sl_owner_id (tk_lifetime requested))) as [Eo|Ho]; cbn [negb].
  2:{ split; [done|]. by intros (_ & _ & _ & ? & _). }
  destruct capability as [capability|], completeness as [completeness|];
    try (unfold peer_proved; split; [done|]; intros (_ & _ & _ & _ & d & _ & _ & ?); done).
  rewrite <-(evidence_iff requested current capability completeness Es Eo).
  destruct Hv as [Hv _]. destruct (Hv eq_refl) as [Hc Hu].
  match goal with |- context [if ?b then _ else _] => destruct b end; split; try done; intros (_ & _ & H); done.
Qed.

(** ** The legacy digest is unambiguous *)

(** What is hashed as tokens: the names of tables and their rows. *)
Inductive Token := Name (s : string) | Row (row : list ascii).
Definition token_bytes (t : Token) : list ascii :=
  match t with
  | Name s => (bytes_of s ++ [byte_of 0])%list
  | Row row => row_bytes row
  end.
(** Table names are not empty and hold no zero byte; rows are shorter than 2^56. *)
Definition token_valid (t : Token) : Prop :=
  match t with
  | Name s => s ≠ "" ∧ NUL ∉ bytes_of s
  | Row row => (Z.of_nat (length row) < 2 ^ 56)%Z
  end.
Definition table_valid (t : string * list (list ascii)) : Prop :=
  token_valid (Name t.1) ∧ Forall (λ row, token_valid (Row row)) t.2.
Definition tokens (tables : list (string * list (list ascii))) : list Token :=
  concat ((λ t, Name t.1 :: (Row <$> t.2)) <$> tables).

Lemma row_first row : token_valid (Row row) → ∃ r, row_bytes row = NUL :: r.
Proof.
  cbn. intros Hlen. unfold row_bytes. cbn [be_bytes app]. eexists. f_equal.
  unfold NUL, byte_of. do 2 f_equal. change (256 ^ Z.of_nat 7)%Z with (2 ^ 56)%Z. rewrite Z.div_small by lia. done.
Qed.

Lemma name_first s : token_valid (Name s) → ∃ c r, bytes_of s = c :: r ∧ c ≠ NUL.
Proof.
  cbn. intros [Hne Hn]. destruct s as [|c s]; [done|]. exists c, (bytes_of s). split; [done|]. intros ->. apply Hn. left.
Qed.

#[export] Instance token_prefix_free : PrefixFree token_valid token_bytes.
Proof.
  intros [s|row] [s'|row'] r r' Hv Hv' E; cbn [token_bytes] in E.
  - rewrite <-!app_assoc in E. apply app_sep_inj in E as [E ->]; [|apply Hv|apply Hv'].
    apply bytes_of_inj in E as ->. done.
  - destruct (name_first s Hv) as (c & l & Hs & Hc), (row_first row' Hv') as (l' & Hr).
    rewrite Hs, Hr in E. cbn in E. congruence.
  - destruct (name_first s' Hv') as (c & l & Hs & Hc), (row_first row Hv) as (l' & Hr).
    rewrite Hs, Hr in E. cbn in E. congruence.
  - cbn in Hv, Hv'. unfold row_bytes in E. rewrite <-!app_assoc in E.
    assert (2 ^ 56 < 256 ^ Z.of_nat 8)%Z by reflexivity.
    apply app_be_bytes_inj in E as [El E]; [|lia..]. apply app_inj_1 in E as [-> ->]; [done|lia].
Qed.

Lemma legacy_bytes_tokens tables :
  legacy_bytes tables = (domain "st3-logical-digest-v1" ++ concat (token_bytes <$> tokens tables))%list.
Proof.
  unfold legacy_bytes. generalize (domain "st3-logical-digest-v1"). induction tables as [|[name rows] tables IH]; intros d.
  - cbn. by rewrite app_nil_r.
  - cbn [foldl]. rewrite IH, <-app_assoc. f_equal. unfold tokens. cbn [fmap list_fmap concat fst snd].
    rewrite fmap_app, concat_app. f_equal. cbn [fmap list_fmap concat token_bytes].
    unfold table_bytes. cbn [fst snd]. rewrite <-app_assoc, <-list_fmap_compose. done.
Qed.

Lemma tokens_inj tables tables' : tokens tables = tokens tables' → tables = tables'.
Proof.
  revert tables'. induction tables as [|[name rows] tables IH]; intros [|[name' rows'] tables']; try done.
  unfold tokens. cbn. intros [= -> E].
  assert (∀ rows rows' : list (list ascii), (Row <$> rows) ++ tokens tables = (Row <$> rows') ++ tokens tables' →
    rows = rows' ∧ tokens tables = tokens tables')%list as Hrows.
  { clear. assert (∀ tb row l, tokens tb ≠ Row row :: l) as Hn by (intros [|[n r] tb] row l; done).
    induction rows as [|row rows IH]; intros [|row' rows'] E; cbn in E.
    - done.
    - by apply Hn in E.
    - symmetry in E. by apply Hn in E.
    - injection E as -> E. apply IH in E as [-> ->]. done. }
  destruct (Hrows rows rows' E) as [-> E']. f_equal. by apply IH.
Qed.

Lemma tokens_valid tables : Forall table_valid tables → Forall token_valid (tokens tables).
Proof.
  induction 1 as [|t tables [Hn Hr] _ IH]; [constructor|]. unfold tokens. cbn. constructor; [done|].
  apply Forall_app. split; [|done]. by apply Forall_fmap.
Qed.

(** The legacy digest is about the rows it was made from.  Though tables carry
    no row count, two digests agree, unless SHA-256 collides on what was hashed,
    only for the same tables in the same order with the same rows, given that table
    names are nonempty without zero bytes and rows are shorter than 2^56 bytes. *)
Theorem legacy_digest_binds sha256 hex_encode tables tables' :
  (∀ a b, hex_encode a = hex_encode b → a = b) →
  no_collision sha256 (legacy_bytes tables) (legacy_bytes tables') →
  Forall table_valid tables → Forall table_valid tables' →
  legacy_digest sha256 hex_encode tables = legacy_digest sha256 hex_encode tables' → tables = tables'.
Proof.
  intros Hinj Hfree Hv Hv' E%Hinj%Hfree. rewrite !legacy_bytes_tokens in E. apply app_inv_head in E.
  apply tokens_inj. refine (concat_inj token_valid _ _ _ _ _ _ E); [|by apply tokens_valid..].
  intros [s|row] Et%(f_equal length); cbn [token_bytes] in Et.
  - rewrite length_app in Et. cbn in Et. lia.
  - unfold row_bytes in Et. by rewrite length_app, length_be_bytes in Et.
Qed.

Lemma legacy_digest_binds_witness :
  ¬ (legacy_digest demo_digest demo_encode [("claims", [bytes_of "[1]"; bytes_of "[2]"])] =
     legacy_digest demo_digest demo_encode [("claims", [bytes_of "[1]"]); ("x", [])]).
Proof.
  intros E. apply (legacy_digest_binds demo_digest demo_encode) in E.
  - discriminate E.
  - apply demo_encode_inj.
  - apply demo_no_collision.
  - constructor; [|constructor]. split; [split; [discriminate|]|repeat constructor].
    apply (bool_decide_unpack _). vm_compute. exact I.
  - constructor; [|constructor; [|constructor]]; (split; [split; [discriminate|]|repeat constructor]).
    + apply (bool_decide_unpack _). vm_compute. exact I.
    + apply (bool_decide_unpack _). vm_compute. exact I.
Defined.
