(* ===== verification/Slices.v ===== *)
(** * Slices: the searches, chunks and rotations of Rust's [slice] and [Vec]

    [binary_search_by], [partition_point], [chunk_by], [insert] and [rotate_left] as the
    code uses them, with their meaning on slices that are sorted by a key of an [Ord]. *)

From S2P Require Import Prelude BTree.

(** ** Definitions *)

(** [slice::partition_point] of a partitioned slice. *)
Fixpoint partition_point {A} (p : A → bool) (l : list A) : nat :=
  match l with
  | [] => 0
  | x :: l' => if p x then S (partition_point p l') else 0
  end.

(** [slice::binary_search_by] of a sorted slice without duplicates: [inl] is
    [Ok], [inr] is [Err]. *)
Definition binary_search_by {A} (f : A → comparison) (l : list A) : nat + nat :=
  let i := partition_point (λ x, match f x with Lt => true | _ => false end) l in
  match l !! i with
  | Some x => match f x with Eq => inl i | _ => inr i end
  | None => inr i
  end.

(** [Vec::insert] *)
Definition vec_insert {A} (i : nat) (x : A) (l : list A) : list A := take i l ++ x :: drop i l.

(** [slice::chunk_by] *)
Fixpoint chunk_by {A} (same : A → A → bool) (l : list A) : list (list A) :=
  match l with
  | [] => []
  | x :: l' =>
      match chunk_by same l' with
      | (y :: c) :: cs => if same x y then (x :: y :: c) :: cs else [x] :: (y :: c) :: cs
      | cs => [x] :: cs
      end
  end.

(** [slice::rotate_left] *)
Definition rotate_left {A} (n : nat) (l : list A) : list A := drop n l ++ take n l.

(** ** Partitions *)

Section partition.
Context {A : Type} (R : A → A → Prop) (p : A → bool).
Implicit Types l : list A.

(** What satisfies [p] comes first. *)
Definition partitioned : Prop := ∀ x y, R x y → p y = true → p x = true.

Lemma partition_point_take l :
  partitioned → StronglySorted R l → take (partition_point p l) l = List.filter p l.
Proof.
  intros Hp Hl. induction Hl as [|x l Hl IH Hx]; cbn; [done|].
  destruct (p x) eqn:E; cbn; [by rewrite IH|]. symmetry.
  rewrite Forall_forall in Hx. clear IH Hl.
  induction l as [|y l IH]; cbn; [done|].
  destruct (p y) eqn:Ey; [|apply IH; set_solver].
  rewrite (Hp x y) in E; [done|apply Hx; left|done].
Qed.

Lemma partition_point_drop l :
  partitioned → StronglySorted R l → drop (partition_point p l) l = List.filter (λ x, negb (p x)) l.
Proof.
  intros Hp Hl. induction Hl as [|x l Hl IH Hx]; cbn; [done|].
  destruct (p x) eqn:E; cbn; [by rewrite IH|]. f_equal. symmetry.
  rewrite Forall_forall in Hx. clear IH Hl.
  induction l as [|y l IH]; cbn; [done|].
  destruct (p y) eqn:Ey; [rewrite (Hp x y) in E; [done|apply Hx; left|done]|].
  cbn. f_equal. apply IH. set_solver.
Qed.
End partition.

Lemma partition_point_ext {A} (p q : A → bool) l :
  (∀ x, x ∈ l → p x = q x) → partition_point p l = partition_point q l.
Proof.
  induction l as [|x l IH]; cbn; [done|]. intros Hpq.
  rewrite (Hpq x) by left. destruct (q x); [|done]. f_equal. apply IH. set_solver.
Qed.

Lemma partition_point_fmap {A B} (f : A → B) (p : B → bool) l :
  partition_point p (f <$> l) = partition_point (λ x, p (f x)) l.
Proof. induction l as [|x l IH]; cbn; [done|]. destruct (p (f x)); [|done]. by f_equal. Qed.

Lemma filter_ext_in' {A} (p q : A → bool) (l : list A) :
  (∀ x, x ∈ l → p x = q x) → List.filter p l = List.filter q l.
Proof.
  induction l as [|x l IH]; cbn; [done|]. intros Hpq. rewrite (Hpq x) by left.
  rewrite IH; [done|]. set_solver.
Qed.

Lemma filter_fmap_comm {A B} (f : A → B) (p : B → bool) l :
  List.filter p (f <$> l) = f <$> List.filter (λ x, p (f x)) l.
Proof. induction l as [|x l IH]; cbn; [done|]. destruct (p (f x)); cbn; by rewrite IH. Qed.

Lemma filter_filter_and {A} (p q : A → bool) (l : list A) :
  List.filter p (List.filter q l) = List.filter (λ x, q x && p x) l.
Proof. induction l as [|x l IH]; cbn; [done|]. destruct (q x); cbn; [|done]. destruct (p x); by rewrite IH. Qed.

(** ** Searching by a key *)

Section search.
Context {A : Type} `{Ord K} (key : A → K).
Implicit Types (l : list A) (k : K).

Definition search_key k : A → comparison := λ x, cmp (key x) k.

Lemma fmap_key_sorted l : bset_wf (fmap (M:=list) key l) ↔ StronglySorted (key_lt key) l.
Proof.
  unfold bset_wf. induction l as [|x l IH]; cbn.
  - split; constructor.
  - rewrite !StronglySorted_cons, IH, Forall_fmap. done.
Qed.

Lemma binary_search_by_ext {B} (f g : B → comparison) (l : list B) :
  (∀ x, x ∈ l → f x = g x) → binary_search_by f l = binary_search_by g l.
Proof.
  intros E. unfold binary_search_by.
  rewrite (partition_point_ext _ (λ x, match g x with Lt => true | _ => false end)).
  - destruct (l !! _) eqn:El; [|done]. rewrite E; [done|]. by eapply list_elem_of_lookup_2.
  - intros x Hx. by rewrite E.
Qed.

Lemma binary_search_Ok k l i :
  binary_search_by (search_key k) l = inl i → ∃ x, l !! i = Some x ∧ key x = k.
Proof.
  unfold binary_search_by. destruct (l !! _) as [x|] eqn:E; [|done].
  destruct (search_key k x) eqn:Ek; [|done..]. intros [= <-].
  exists x. split; [done|]. by apply cmp_eq.
Qed.

Lemma binary_search_Err k l i :
  bset_wf (fmap (M:=list) key l) → binary_search_by (search_key k) l = inr i →
  k ∉ key <$> l ∧ ∀ x, key x = k → key <$> vec_insert i x l = bset_insert k (fmap (M:=list) key l).
Proof.
  unfold vec_insert. intros Hl. revert i.
  induction l as [|y l IH]; intros i.
  - cbn. intros [= <-]. split; [set_solver|]. by intros x <-.
  - rewrite fmap_cons in Hl. apply StronglySorted_cons in Hl as [Hy Hl].
    unfold binary_search_by. cbn [partition_point].
    change (search_key k y) with (cmp (key y) k).
    destruct (cmp (key y) k) eqn:E.
    + change ((y :: l) !! 0%nat) with (Some y). cbn iota beta.
      change (search_key k y) with (cmp (key y) k). by rewrite E.
    + change ((y :: l) !! S ?n) with (l !! n). intros Hi.
      assert (∃ j, i = S j ∧ binary_search_by (search_key k) l = inr j) as (j & -> & Hj).
      { unfold binary_search_by. destruct (l !! _) eqn:El; [destruct (search_key k a)|]; simplify_eq/=; eauto. }
      destruct (IH Hl j Hj) as [Hn Hi']. rewrite fmap_cons. split.
      * apply not_elem_of_cons. split; [|done]. intros ->. by rewrite cmp_refl in E.
      * intros x Hx. cbn [take drop app fmap list_fmap bset_insert].
        rewrite (proj2 (cmp_gt k (key y)) E). f_equal. by apply Hi'.
    + change ((y :: l) !! 0%nat) with (Some y). cbn iota beta.
      change (search_key k y) with (cmp (key y) k). rewrite E. intros [= <-].
      apply cmp_gt in E. rewrite fmap_cons. split.
      * apply not_elem_of_cons. split; [intros ->; by rewrite cmp_refl in E|].
        rewrite Forall_forall in Hy. intros Hk%Hy. by apply (lt_ord_asym k (key y)).
      * intros x <-. cbn. by rewrite E.
Qed.

Lemma binary_search_iff k l :
  bset_wf (fmap (M:=list) key l) → (∃ i, binary_search_by (search_key k) l = inl i) ↔ k ∈ key <$> l.
Proof.
  intros Hl. split.
  - intros (i & (x & Hx & <-)%binary_search_Ok). apply list_elem_of_fmap.
    exists x. split; [done|]. by eapply list_elem_of_lookup_2.
  - intros Hk. destruct (binary_search_by _ l) as [i|i] eqn:E; [by exists i|].
    by apply binary_search_Err in E as [? _].
Qed.
End search.

(** A set inserted into where it already holds the element. *)
Lemma bset_insert_present `{Ord A} (x : A) s : bset_wf s → x ∈ s → bset_insert x s = s.
Proof.
  intros Hs Hx. apply bset_ext; [by apply bset_insert_wf|done|].
  intros y. rewrite elem_of_bset_insert. naive_solver.
Qed.

Lemma bset_of_list_cons `{Ord A} (x : A) l : bset_of_list (x :: l) = bset_insert x (bset_of_list l).
Proof.
  apply bset_ext; [apply bset_of_list_wf|apply bset_insert_wf, bset_of_list_wf|].
  intros y. by rewrite elem_of_bset_insert, !elem_of_bset_of_list, elem_of_cons.
Qed.

Lemma bset_of_list_wf_id `{Ord A} (l : list A) : bset_wf l → bset_of_list l = l.
Proof. intros Hl. apply bset_ext; [apply bset_of_list_wf|done|]. intros x. apply elem_of_bset_of_list. Qed.

(** ** Chunks of a slice sorted by a key *)

Section chunks.
Context {A : Type} `{Ord K} (key : A → K) (same : A → A → bool).
Implicit Types l : list A.

Definition with_key (k : K) l : list A := List.filter (λ x, eqb_ord (key x) k) l.

(** Sorted by the key, with repetitions. *)
Definition key_le (x y : A) : Prop := cmp (key x) (key y) ≠ Gt.

Lemma with_key_nil k l : k ∉ key <$> l → with_key k l = [].
Proof.
  induction l as [|x l IH]; cbn; [done|]. intros Hn. apply not_elem_of_cons in Hn as [Hne Hn].
  unfold with_key. cbn. rewrite eqb_ord_ne by done. by apply IH.
Qed.

Lemma with_key_cons_eq x l : with_key (key x) (x :: l) = x :: with_key (key x) l.
Proof. unfold with_key. cbn. by rewrite eqb_ord_refl. Qed.

Lemma with_key_cons_ne k x l : key x ≠ k → with_key k (x :: l) = with_key k l.
Proof. intros. unfold with_key. cbn. by rewrite eqb_ord_ne. Qed.

Lemma chunk_by_keys l :
  (∀ x y, x ∈ l → y ∈ l → same x y = eqb_ord (key x) (key y)) → StronglySorted key_le l →
  chunk_by same l = (λ k, with_key k l) <$> bset_of_list (key <$> l).
Proof.
  intros Hsame Hl. induction Hl as [|x l Hl IH Hx]; [done|].
  rewrite fmap_cons, bset_of_list_cons. cbn [chunk_by]. rewrite IH by set_solver. clear IH.
  rewrite Forall_forall in Hx.
  assert (∀ k, k ∈ bset_of_list (key <$> l) → cmp (key x) k ≠ Gt) as Hle.
  { intros k Hk. apply elem_of_bset_of_list, list_elem_of_fmap in Hk as (y & -> & Hy). by apply Hx. }
  assert (∀ k, k ∈ bset_of_list (key <$> l) → ∃ y, y ∈ l ∧ key y = k) as Hin.
  { intros k Hk. apply elem_of_bset_of_list, list_elem_of_fmap in Hk as (y & -> & Hy). eauto. }
  pose proof (bset_of_list_wf (key <$> l)) as Hwf.
  destruct (bset_of_list (key <$> l)) as [|k ks] eqn:Eks.
  { cbn [fmap list_fmap bset_insert]. rewrite with_key_cons_eq. rewrite with_key_nil; [done|].
    intros Hk. apply (elem_of_bset_of_list (key x)) in Hk. rewrite Eks in Hk. set_solver. }
  destruct (Hin k ltac:(left)) as (y0 & Hy0 & Hk0).
  assert (y0 ∈ with_key k l) as Hy0'.
  { unfold with_key. apply filter_elem_of. split; [done|]. by apply eqb_ord_true. }
  apply StronglySorted_cons in Hwf as [Hks Hwf]. rewrite Forall_forall in Hks.
  rewrite fmap_cons.
  destruct (with_key k l) as [|y c] eqn:Ec; [set_solver|].
  assert (y ∈ l ∧ key y = k) as [Hy Hk].
  { assert (y ∈ with_key k l) as Hy by (rewrite Ec; left).
    unfold with_key in Hy. apply filter_elem_of in Hy as [Hy E]. split; [done|]. by apply eqb_ord_true. }
  rewrite Hsame by set_solver. rewrite Hk. cbn [bset_insert].
  assert (∀ k', k' ∈ ks → key x ≠ k') as Hne.
  { intros k' Hk' E. pose proof (Hks k' Hk') as Hlt. pose proof (Hle k ltac:(left)) as Hxk.
    rewrite E in Hxk. apply Hxk. by apply cmp_gt. }
  destruct (cmp (key x) k) eqn:E.
  - apply cmp_eq in E. rewrite E, eqb_ord_refl, fmap_cons. f_equal.
    + cbn beta. rewrite <-E, with_key_cons_eq, E. by rewrite Ec.
    + apply list_fmap_ext. intros ? k' Hk'%list_elem_of_lookup_2. by rewrite with_key_cons_ne by auto.
  - rewrite eqb_ord_ne by (intros E'; by rewrite E', cmp_refl in E).
    rewrite !fmap_cons. f_equal; [|f_equal].
    + cbn beta. rewrite with_key_cons_eq, with_key_nil; [done|].
      intros Hk'. apply (elem_of_bset_of_list (key x)) in Hk'. rewrite Eks in Hk'.
      apply elem_of_cons in Hk' as [Hk'|Hk']; [rewrite Hk', cmp_refl in E; done|by apply Hne in Hk'].
    + cbn beta. rewrite with_key_cons_ne; [done|]. intros E'. by rewrite E', cmp_refl in E.
    + apply list_fmap_ext. intros ? k' Hk'%list_elem_of_lookup_2. by rewrite with_key_cons_ne by auto.
  - by destruct (Hle k ltac:(left)).
Qed.
End chunks.

Lemma chunk_by_fmap {A B} (f : A → B) (same : B → B → bool) (l : list A) :
  chunk_by same (f <$> l : list B) = (λ c : list A, f <$> c : list B) <$> chunk_by (λ x y, same (f x) (f y)) l.
Proof.
  induction l as [|x l IH]; [done|]. rewrite fmap_cons. cbn [chunk_by]. rewrite IH.
  destruct (chunk_by _ l) as [|[|y c] cs]; [done..|]. rewrite !fmap_cons.
  destruct (same (f x) (f y)); done.
Qed.

Lemma chunk_by_ext {A} (s s' : A → A → bool) (l : list A) :
  (∀ x y, x ∈ l → y ∈ l → s x y = s' x y) → chunk_by s l = chunk_by s' l.
Proof.
  assert (∀ k : list A, (∀ x, x ∈ concat (chunk_by s k) → x ∈ k)) as Hc.
  { induction k as [|x k IH]; cbn; [done|]. destruct (chunk_by s k) as [|[|y c] cs]; cbn in *.
    - set_solver.
    - set_solver.
    - destruct (s x y); cbn; set_solver. }
  induction l as [|x l IH]; cbn; [done|]. intros E. rewrite <-IH by set_solver.
  destruct (chunk_by s l) as [|[|y c] cs] eqn:Ec; [done..|].
  rewrite E; [done|left|]. right. apply Hc. rewrite Ec. cbn. left.
Qed.

(** ** Lookups after [Vec::insert] *)

Lemma partition_point_le {A} (p : A → bool) l : (partition_point p l <= length l)%nat.
Proof. induction l as [|x l IH]; cbn; [lia|]. destruct (p x); lia. Qed.

Lemma binary_search_Err_le {A} (f : A → comparison) l i : binary_search_by f l = inr i → (i <= length l)%nat.
Proof.
  unfold binary_search_by. pose proof (partition_point_le (λ x, match f x with Lt => true | _ => false end) l).
  destruct (l !! _) as [x|]; [destruct (f x)|]; intros [= <-]; lia.
Qed.

Lemma vec_insert_lookup {A} i (x : A) l : (i <= length l)%nat → vec_insert i x l !! i = Some x.
Proof. intros. unfold vec_insert. rewrite lookup_app_r; rewrite length_take_le by done; [|lia]. by rewrite Nat.sub_diag. Qed.

Lemma vec_insert_lookup_shift {A} i j (x : A) l :
  (i <= length l)%nat → vec_insert i x l !! (if (i <=? j)%nat then S j else j) = l !! j.
Proof.
  intros Hi. unfold vec_insert. destruct (Nat.leb_spec i j).
  - rewrite lookup_app_r; rewrite length_take_le by done; [|lia].
    replace (S j - i)%nat with (S (j - i)) by lia.
    rewrite lookup_cons, lookup_drop. f_equal. lia.
  - rewrite lookup_app_l by (rewrite length_take_le by done; lia). by rewrite lookup_take_lt by lia.
Qed.

Lemma vec_insert_length {A} i (x : A) l : length (vec_insert i x l) = S (length l).
Proof. unfold vec_insert. rewrite length_app. cbn. rewrite length_take, length_drop. lia. Qed.

Lemma elem_of_vec_insert {A} i (x y : A) l : y ∈ vec_insert i x l ↔ y = x ∨ y ∈ l.
Proof.
  rewrite <-(take_drop i l) at 2. unfold vec_insert. rewrite !elem_of_app, elem_of_cons. tauto.
Qed.

(** The slice between two partition points. *)
Lemma partition_slice {A} (R : A → A → Prop) (p q : A → bool) l :
  partitioned R p → partitioned R q → StronglySorted R l →
  drop (partition_point p l) (take (partition_point q l) l) = List.filter (λ x, q x && negb (p x)) l.
Proof.
  intros Hp Hq Hl. induction Hl as [|x l Hl IH Hx]; [done|].
  cbn [partition_point List.filter]. rewrite Forall_forall in Hx.
  destruct (p x) eqn:Ep, (q x) eqn:Eq; cbn [take drop andb negb].
  - done.
  - rewrite <-(filter_ext_in' (λ _, false)); [by rewrite List.filter_false|].
    intros y Hy. destruct (q y) eqn:Ey; [|done]. by rewrite (Hq x y) in Eq by auto.
  - f_equal. rewrite (partition_point_take R q) by done. apply filter_ext_in'.
    intros y Hy. destruct (p y) eqn:Ey; [|by rewrite andb_true_r]. by rewrite (Hp x y) in Ep by auto.
  - rewrite <-(filter_ext_in' (λ _, false)); [by rewrite List.filter_false|].
    intros y Hy. destruct (q y) eqn:Ey; [|done]. by rewrite (Hq x y) in Eq by auto.
Qed.

Lemma StronglySorted_mono {A} (R S : A → A → Prop) l :
  (∀ x y, R x y → S x y) → StronglySorted R l → StronglySorted S l.
Proof. intros HRS Hl. induction Hl; constructor; [done|]. eapply Forall_impl; eauto. Qed.

(** The maximum of a list and a floor. *)
Lemma foldl_max l a : (a <= foldl Z.max a l)%Z ∧ (∀ x, x ∈ l → (x <= foldl Z.max a l)%Z) ∧
  (foldl Z.max a l = a ∨ foldl Z.max a l ∈ l).
Proof.
  revert a. induction l as [|y l IH]; intros a; cbn; [set_solver by lia|].
  destruct (IH (Z.max a y)) as (H1 & H2 & H3). split_and!; [lia| |].
  - intros x [-> |Hx]%elem_of_cons; [lia|by apply H2].
  - destruct H3 as [H3|H3]; [|right; by right]. destruct (Z.max_spec a y) as [[_ E]|[_ E]].
    + right. rewrite H3, E. left.
    + left. congruence.
Qed.
