(* ===== verification/Inventory.v ===== *)
(** * The compact replication inventory (crates/smallclaims/src/store.rs,
    [CompactReplicationInventory])

    A node keeps the identities of every envelope it has seen in a compact form:
    writers are interned in a sorted table, SHA-256 hashes are kept as bytes and
    other hashes in a side table, and identities whose payload a checkpoint dropped
    are marked.  Here the form, its operations and its digests; the view of it as a
    sorted list of public identities is [inv_all], and the theorems relate
    every operation to that view.  The package [hex] is the class [Hex]. *)

From S2P Require Import Prelude BTree Json Digests Slices.

Local Open Scope string_scope.

(** ** Identities *)

Record ReplicaEnvelopeId := { ri_writer : string; ri_sequence : Z; ri_hash : string }.

Definition ri_tuple (i : ReplicaEnvelopeId) : string * (Z * string) := (ri_writer i, (ri_sequence i, ri_hash i)).
#[export] Instance ri_tuple_inj : Inj (=) (=) ri_tuple.
Proof. intros [] [] [=]; by subst. Qed.
#[export] Instance ord_ReplicaEnvelopeId : Ord ReplicaEnvelopeId := ord_inj ri_tuple ri_tuple_inj.

Record CompactEnvelopeId := {
  cx_writer : nat;
  cx_irregular : nat;
  cx_sequence : Z;
  cx_hash : list ascii
}.

Record CompactInventory := {
  iv_digest : string;
  iv_writers : list string;
  iv_irregular : list string;
  iv_envelopes : list CompactEnvelopeId;
  iv_payloadless : BTreeSet (list ascii);
  iv_payloadless_irregular : BTreeSet ReplicaEnvelopeId
}.

Definition inventory_default : CompactInventory :=
  {| iv_digest := ""; iv_writers := []; iv_irregular := []; iv_envelopes := []; iv_payloadless := [];
     iv_payloadless_irregular := [] |}.

(** ** The package [hex] *)

Class Hex := {
  hex_encode : list ascii → string;
  hex_decode : string → option (list ascii)
}.

(** 64 lowercase hex digits. *)
Definition canonical_hash (s : string) : bool :=
  (len s =? 64)%Z &&
  forallb (λ b, ((48 <=? byte_val b) && (byte_val b <=? 57) || (97 <=? byte_val b) && (byte_val b <=? 102))%Z)
    (bytes_of s).

(** What is relied on: decoding lowercase hex is undone by encoding, and encoding
    keeps the order of byte strings of one length. *)
Class HexLaws `{Hex} : Prop := {
  hex_decode_canonical s : canonical_hash s = true →
    ∃ b, hex_decode s = Some b ∧ length b = 32%nat ∧ hex_encode b = s;
  hex_encode_canonical b : length b = 32%nat → canonical_hash (hex_encode b) = true;
  hex_encode_cmp a b : length a = length b → cmp (hex_encode a) (hex_encode b) = cmp a b;
  hex_encode_len a : len (hex_encode a) = (2 * Z.of_nat (length a))%Z
}.

Section inventory.
Context `{Hex}.
Variable sha256 : list ascii → list ascii.

(** ** Reading *)

(** [hash_text]; an index out of range would panic. *)
Definition hash_text (inv : CompactInventory) (e : CompactEnvelopeId) : string :=
  match cx_irregular e with
  | O => hex_encode (cx_hash e)
  | S k => default "" (iv_irregular inv !! k)
  end.

Definition inv_identity (inv : CompactInventory) (e : CompactEnvelopeId) : ReplicaEnvelopeId :=
  {| ri_writer := default "" (iv_writers inv !! cx_writer e);
     ri_sequence := cx_sequence e;
     ri_hash := hash_text inv e |}.

Definition identities (inv : CompactInventory) (range : list CompactEnvelopeId) : list ReplicaEnvelopeId :=
  inv_identity inv <$> range.

(** Every identity the inventory lists, in its order. *)
Definition inv_all (inv : CompactInventory) : list ReplicaEnvelopeId := identities inv (iv_envelopes inv).

(** [order] *)
Definition inv_order (inv : CompactInventory) (l r : CompactEnvelopeId) : comparison :=
  then_with (Nat.compare (cx_writer l) (cx_writer r))
    (then_with (cmp (cx_sequence l) (cx_sequence r))
       (if Nat.eqb (cx_irregular l) 0 && Nat.eqb (cx_irregular r) 0
        then cmp (cx_hash l) (cx_hash r)
        else cmp (hash_text inv l) (hash_text inv r))).

Definition has_payload (inv : CompactInventory) (e : CompactEnvelopeId) : bool :=
  if Nat.eqb (cx_irregular e) 0 then negb (bset_mem (cx_hash e) (iv_payloadless inv))
  else negb (bset_mem (inv_identity inv e) (iv_payloadless_irregular inv)).

(** [writer_high_water] *)
Definition writer_high_water (inv : CompactInventory) : BTreeMap string Z :=
  foldl (λ high e,
      match iv_writers inv !! cx_writer e with
      | Some writer => bmap_entry writer 0%Z (λ entry, Z.max entry (cx_sequence e)) high
      | None => high
      end) [] (iv_envelopes inv).

(** ** Changing *)

Definition with_writers (inv : CompactInventory) (writers : list string) (envelopes : list CompactEnvelopeId)
    : CompactInventory :=
  {| iv_digest := iv_digest inv; iv_writers := writers; iv_irregular := iv_irregular inv; iv_envelopes := envelopes;
     iv_payloadless := iv_payloadless inv; iv_payloadless_irregular := iv_payloadless_irregular inv |}.
Definition with_irregular (inv : CompactInventory) (irregular : list string) : CompactInventory :=
  {| iv_digest := iv_digest inv; iv_writers := iv_writers inv; iv_irregular := irregular;
     iv_envelopes := iv_envelopes inv;
     iv_payloadless := iv_payloadless inv; iv_payloadless_irregular := iv_payloadless_irregular inv |}.
Definition with_payloadless (inv : CompactInventory) (regular : BTreeSet (list ascii))
    (irregular : BTreeSet ReplicaEnvelopeId) : CompactInventory :=
  {| iv_digest := iv_digest inv; iv_writers := iv_writers inv; iv_irregular := iv_irregular inv;
     iv_envelopes := iv_envelopes inv; iv_payloadless := regular; iv_payloadless_irregular := irregular |}.

(** [compact] *)
Definition zero_hash : list ascii := be_bytes 32 0.
Definition compact (inv : CompactInventory) (writer : nat) (i : ReplicaEnvelopeId)
    : CompactInventory * CompactEnvelopeId :=
  match (if canonical_hash (ri_hash i) then hex_decode (ri_hash i) else None) with
  | Some hash => (inv, {| cx_writer := writer; cx_irregular := 0; cx_sequence := ri_sequence i; cx_hash := hash |})
  | None =>
      let inv := with_irregular inv (iv_irregular inv ++ [ri_hash i])%list in
      (inv, {| cx_writer := writer; cx_irregular := length (iv_irregular inv); cx_sequence := ri_sequence i;
               cx_hash := zero_hash |})
  end.

(** [push_sorted] *)
Definition push_sorted (inv : CompactInventory) (i : ReplicaEnvelopeId) : CompactInventory :=
  let inv := if bool_decide (last (iv_writers inv) = Some (ri_writer i)) then inv
             else with_writers inv (iv_writers inv ++ [ri_writer i])%list (iv_envelopes inv) in
  let writer := (length (iv_writers inv) - 1)%nat in
  let '(inv, e) := compact inv writer i in
  with_writers inv (iv_writers inv) (iv_envelopes inv ++ [e])%list.

(** [mark_last_payloadless] *)
Definition mark_last_payloadless (inv : CompactInventory) : CompactInventory :=
  match last (iv_envelopes inv) with
  | None => inv
  | Some e =>
      if Nat.eqb (cx_irregular e) 0
      then with_payloadless inv (bset_insert (cx_hash e) (iv_payloadless inv)) (iv_payloadless_irregular inv)
      else with_payloadless inv (iv_payloadless inv) (bset_insert (inv_identity inv e) (iv_payloadless_irregular inv))
  end.

(** [insert]: finding or adding the writer, then the identity. *)
Definition intern_writer (inv : CompactInventory) (name : string) : CompactInventory * nat :=
  match binary_search_by (λ w, cmp w name) (iv_writers inv) with
  | inl writer => (inv, writer)
  | inr writer =>
      (with_writers inv (vec_insert writer name (iv_writers inv))
         ((λ e, if (writer <=? cx_writer e)%nat
                then {| cx_writer := S (cx_writer e); cx_irregular := cx_irregular e;
                        cx_sequence := cx_sequence e; cx_hash := cx_hash e |}
                else e) <$> iv_envelopes inv), writer)
  end.
Definition inv_insert (inv : CompactInventory) (i : ReplicaEnvelopeId) : CompactInventory :=
  let '(inv, writer) := intern_writer inv (ri_writer i) in
  let '(inv, e) := compact inv writer i in
  match binary_search_by (λ probe, inv_order inv probe e) (iv_envelopes inv) with
  | inl _ =>
      if Nat.eqb (cx_irregular e) 0
      then with_payloadless inv (bset_remove (cx_hash e) (iv_payloadless inv)) (iv_payloadless_irregular inv)
      else
        let inv := with_payloadless inv (iv_payloadless inv)
                     (bset_remove (inv_identity inv e) (iv_payloadless_irregular inv)) in
        with_irregular inv (removelast (iv_irregular inv))
  | inr position => with_writers inv (iv_writers inv) (vec_insert position e (iv_envelopes inv))
  end.

(** ** Digests *)

Definition INVENTORY_DIGEST_DOMAIN : list ascii := domain "st3-replication-inventory-v1".
Definition BUCKET_DIGEST_DOMAIN : list ascii := domain "st3-replication-bucket-v1".
Definition REPLICATION_BUCKET_WIDTH : Z := 256%Z.

Definition id_bytes (i : ReplicaEnvelopeId) : list ascii := identity_bytes (ri_writer i) (ri_sequence i) (ri_hash i).

(** [replication_identity_digest], and [digest_of] a range of the inventory. *)
Definition identity_digest (dom : list ascii) (l : list ReplicaEnvelopeId) : string :=
  hex_encode (sha256 (dom ++ concat (id_bytes <$> l))%list).
Definition digest_of (inv : CompactInventory) (dom : list ascii) (range : list CompactEnvelopeId) : string :=
  identity_digest dom (identities inv range).

Definition refresh_digest (inv : CompactInventory) : CompactInventory :=
  {| iv_digest := digest_of inv INVENTORY_DIGEST_DOMAIN (iv_envelopes inv); iv_writers := iv_writers inv;
     iv_irregular := iv_irregular inv; iv_envelopes := iv_envelopes inv;
     iv_payloadless := iv_payloadless inv; iv_payloadless_irregular := iv_payloadless_irregular inv |}.

Definition replication_bucket_start (sequence : Z) : Z := (sequence - sequence mod REPLICATION_BUCKET_WIDTH)%Z.

(** [range]: the identities of one writer sequence range. *)
Definition before (writer : nat) (bound : Z) (e : CompactEnvelopeId) : bool :=
  match then_with (Nat.compare (cx_writer e) writer) (cmp (cx_sequence e) bound) with Lt => true | _ => false end.
Definition inv_range (inv : CompactInventory) (writer : string) (start : Z) : list CompactEnvelopeId :=
  match binary_search_by (λ name, cmp name writer) (iv_writers inv) with
  | inr _ => []
  | inl w =>
      let end_ := sadd64 start REPLICATION_BUCKET_WIDTH in
      let from := partition_point (before w start) (iv_envelopes inv) in
      let to := partition_point (before w end_) (iv_envelopes inv) in
      drop from (take to (iv_envelopes inv))
  end.

Record Bucket := { bk_writer : string; bk_start : Z; bk_count : Z; bk_digest : string }.

(** [bucket]: one non-empty range; [range[0]] of an empty one would panic. *)
Definition inv_bucket (inv : CompactInventory) (range : list CompactEnvelopeId) : Bucket :=
  match range with
  | [] => {| bk_writer := ""; bk_start := 0; bk_count := 0; bk_digest := "" |}
  | first :: _ =>
      {| bk_writer := default "" (iv_writers inv !! cx_writer first);
         bk_start := replication_bucket_start (cx_sequence first);
         bk_count := Z.of_nat (length range);
         bk_digest := digest_of inv BUCKET_DIGEST_DOMAIN range |}
  end.

(** [buckets]: one digest per writer sequence range. *)
Definition same_range (l r : CompactEnvelopeId) : bool :=
  Nat.eqb (cx_writer l) (cx_writer r) &&
  (replication_bucket_start (cx_sequence l) =? replication_bucket_start (cx_sequence r))%Z.
Definition inv_buckets (inv : CompactInventory) : list Bucket :=
  inv_bucket inv <$> chunk_by same_range (iv_envelopes inv).

(** ** Reading the tables *)

(** The query of [load_compact_replication_inventory]: rows of [replica_envelopes], with
    their rowids, and the rows of [checkpoint_envelopes] that are not held, with rowid 0,
    ordered by identity.  The flag is the fifth column. *)
Definition inventory_rows (held : list (Z * ReplicaEnvelopeId)) (dropped : list ReplicaEnvelopeId)
    : list (Z * (ReplicaEnvelopeId * bool)) :=
  sort_on (λ row : Z * (ReplicaEnvelopeId * bool), row.2.1)
    (((λ row : Z * ReplicaEnvelopeId, (row.1, (row.2, true))) <$> held) ++
     ((λ i, (0%Z, (i, false))) <$> List.filter (λ i, negb (existsb (eqb_ord i) (snd <$> held))) dropped))%list.

Definition load_row (s : CompactInventory * Z * nat) (row : Z * (ReplicaEnvelopeId * bool))
    : CompactInventory * Z * nat :=
  let '(inv, max_rowid, envelope_rows) := s in
  let '(rowid, (i, held)) := row in
  let max_rowid := Z.max max_rowid rowid in
  let inv := push_sorted inv i in
  if held then (inv, max_rowid, S envelope_rows) else (mark_last_payloadless inv, max_rowid, envelope_rows).
Definition load_compact_replication_inventory (held : list (Z * ReplicaEnvelopeId))
    (dropped : list ReplicaEnvelopeId) : CompactInventory * Z * nat :=
  foldl load_row (inventory_default, 0%Z, 0%nat) (inventory_rows held dropped).

Definition full_compact_replication_inventory (held : list (Z * ReplicaEnvelopeId))
    (dropped : list ReplicaEnvelopeId) : CompactInventory * Z :=
  let '(inv, max_rowid, _) := load_compact_replication_inventory held dropped in
  (refresh_digest inv, max_rowid).

(** ** The invariant *)

(** The identity is marked as one whose payload is gone. *)
Definition lost (inv : CompactInventory) (i : ReplicaEnvelopeId) : bool :=
  match (if canonical_hash (ri_hash i) then hex_decode (ri_hash i) else None) with
  | Some h => bset_mem h (iv_payloadless inv)
  | None => bset_mem i (iv_payloadless_irregular inv)
  end.

(** The identities whose payload can be sent. *)
Definition sendable (inv : CompactInventory) : list ReplicaEnvelopeId :=
  identities inv (List.filter (has_payload inv) (iv_envelopes inv)).

Definition env_ok (inv : CompactInventory) (e : CompactEnvelopeId) : Prop :=
  (cx_writer e < length (iv_writers inv))%nat ∧
  match cx_irregular e with
  | O => length (cx_hash e) = 32%nat
  | S k => ∃ t, iv_irregular inv !! k = Some t ∧ canonical_hash t = false
  end.

Record inv_ok (inv : CompactInventory) : Prop := {
  ok_writers : bset_wf (iv_writers inv);
  ok_envelopes : Forall (env_ok inv) (iv_envelopes inv);
  ok_sorted : bset_wf (inv_all inv);
  ok_lost i : lost inv i = true →
    ∃ j, j ∈ inv_all inv ∧ ri_hash j = ri_hash i ∧ (canonical_hash (ri_hash i) = false → j = i)
}.

Lemma inventory_default_ok : inv_ok inventory_default.
Proof. split; [constructor..|]. intros i. unfold lost. by case_match. Qed.

(** ** Facts about hex *)

Section laws.
Context `{!HexLaws}.

Lemma hex_encode_inj a b : hex_encode a = hex_encode b → a = b.
Proof.
  intros E. assert (length a = length b) as Hl.
  { pose proof (hex_encode_len a). pose proof (hex_encode_len b). rewrite E in *. lia. }
  apply cmp_eq. by rewrite <-hex_encode_cmp, E, cmp_refl.
Qed.

Lemma hex_decode_encode b : length b = 32%nat → hex_decode (hex_encode b) = Some b.
Proof.
  intros Hb. destruct (hex_decode_canonical (hex_encode b)) as (c & -> & Hc & E).
  - by apply hex_encode_canonical.
  - f_equal. by apply hex_encode_inj.
Qed.

(** ** The order of compact identities is that of the public ones *)

Lemma sorted_lookup_cmp `{Ord A} (l : list A) i j x y :
  bset_wf l → l !! i = Some x → l !! j = Some y → Nat.compare i j = cmp x y.
Proof.
  intros Hl. revert i j. induction Hl as [|z l Hl IH Hz]; [done|].
  rewrite Forall_forall in Hz. intros [|i] [|j]; cbn; intros Hx Hy.
  - simplify_eq. by rewrite cmp_refl.
  - simplify_eq. symmetry. apply Hz. by eapply list_elem_of_lookup_2.
  - simplify_eq. symmetry. apply cmp_gt, Hz. by eapply list_elem_of_lookup_2.
  - by apply IH.
Qed.

Lemma inv_order_cmp inv l r :
  bset_wf (iv_writers inv) → env_ok inv l → env_ok inv r →
  inv_order inv l r = cmp (inv_identity inv l) (inv_identity inv r).
Proof.
  intros Hw [Hl Hlh] [Hr Hrh].
  apply lookup_lt_is_Some in Hl as [wl Hl]. apply lookup_lt_is_Some in Hr as [wr Hr].
  change (cmp (inv_identity inv l) (inv_identity inv r)) with
    (then_with (cmp (default "" (iv_writers inv !! cx_writer l)) (default "" (iv_writers inv !! cx_writer r)))
       (then_with (cmp (cx_sequence l) (cx_sequence r)) (cmp (hash_text inv l) (hash_text inv r)))).
  unfold inv_order. rewrite (sorted_lookup_cmp _ _ _ _ _ Hw Hl Hr), Hl, Hr. cbn [default from_option id].
  do 2 f_equal. unfold hash_text.
  destruct (cx_irregular l), (cx_irregular r); cbn [Nat.eqb andb]; [|done..].
  symmetry. apply hex_encode_cmp. congruence.
Qed.

Lemma hash_text_canonical inv e :
  env_ok inv e → canonical_hash (hash_text inv e) = Nat.eqb (cx_irregular e) 0.
Proof.
  intros [_ He]. unfold hash_text. destruct (cx_irregular e); [by apply hex_encode_canonical|].
  by destruct He as (t & -> & ?).
Qed.

Lemma has_payload_lost inv e :
  env_ok inv e → has_payload inv e = negb (lost inv (inv_identity inv e)).
Proof.
  intros He. unfold has_payload, lost. cbn [ri_hash inv_identity].
  rewrite hash_text_canonical by done. destruct (Nat.eqb_spec (cx_irregular e) 0) as [E|_]; [|done].
  unfold hash_text. rewrite E, hex_decode_encode; [done|]. destruct He as [_ He]. by rewrite E in He.
Qed.

Lemma sendable_lost inv :
  inv_ok inv → sendable inv = List.filter (λ i, negb (lost inv i)) (inv_all inv).
Proof.
  intros [_ Hok _ _]. unfold sendable, inv_all, identities. rewrite filter_fmap_comm. f_equal.
  rewrite Forall_forall in Hok. apply filter_ext_in'. intros e He. by apply has_payload_lost, Hok.
Qed.

(** ** Inserting *)

(** What an inventory says depends on these fields only. *)
Lemma lost_same inv inv' i :
  iv_payloadless inv' = iv_payloadless inv → iv_payloadless_irregular inv' = iv_payloadless_irregular inv →
  lost inv' i = lost inv i.
Proof. intros E E'. unfold lost. by rewrite E, E'. Qed.

(** [inv'] holds what [inv] holds; its tables may have grown. *)
Definition same_view (inv inv' : CompactInventory) : Prop :=
  inv_ok inv' ∧ inv_all inv' = inv_all inv ∧ ∀ i, lost inv' i = lost inv i.

Lemma intern_writer_view inv name inv' w :
  inv_ok inv → intern_writer inv name = (inv', w) →
  same_view inv inv' ∧ iv_writers inv' !! w = Some name.
Proof.
  intros [Hw He Hs Hl]. unfold intern_writer.
  destruct (binary_search_by _ _) as [i|i] eqn:E; intros [= <- <-].
  { apply (binary_search_Ok id) in E as (x & Hx & <-). done. }
  pose proof (binary_search_Err_le _ _ _ E) as Hi.
  apply (binary_search_Err id) in E as [Hn Hins]; [|by rewrite list_fmap_id].
  specialize (Hins name eq_refl). rewrite !list_fmap_id in Hins.
  set (shift := λ e, if (i <=? cx_writer e)%nat then _ else e).
  assert (∀ e, inv_identity (with_writers inv (vec_insert i name (iv_writers inv)) (shift <$> iv_envelopes inv)) (shift e)
               = inv_identity inv e) as Hid.
  { intros e. unfold inv_identity, shift, hash_text. cbn.
    rewrite <-(vec_insert_lookup_shift i (cx_writer e) name (iv_writers inv)) by done.
    by destruct (i <=? cx_writer e)%nat. }
  split; [|by apply vec_insert_lookup]. unfold same_view.
  assert (inv_all (with_writers inv (vec_insert i name (iv_writers inv)) (shift <$> iv_envelopes inv)) = inv_all inv)
    as Hall.
  { unfold inv_all, identities. cbn [iv_envelopes with_writers]. rewrite <-list_fmap_compose.
    apply list_fmap_ext. intros ? e _. apply Hid. }
  split; [|done]. split; [|..].
  - cbn. rewrite Hins. by apply bset_insert_wf.
  - cbn. rewrite Forall_fmap. eapply Forall_impl; [exact He|]. intros e [Hwe Hh]. unfold env_ok, shift. cbn.
    rewrite vec_insert_length. destruct (i <=? cx_writer e)%nat; (split; [cbn; lia|done]).
  - by rewrite Hall.
  - rewrite Hall. exact Hl.
Qed.

Lemma env_ok_grow inv inv' e t :
  iv_writers inv' = iv_writers inv → iv_irregular inv' = (iv_irregular inv ++ t)%list → env_ok inv e →
  env_ok inv' e ∧ inv_identity inv' e = inv_identity inv e.
Proof.
  intros Ew Ei [Hw Hh]. unfold env_ok, inv_identity, hash_text. rewrite Ew, Ei.
  destruct (cx_irregular e) as [|k]; [done|]. destruct Hh as (x & Hx & Hc).
  rewrite (lookup_app_l_Some _ _ _ _ Hx), Hx. eauto.
Qed.

Lemma grow_view inv inv' t :
  inv_ok inv → iv_writers inv' = iv_writers inv → iv_irregular inv' = (iv_irregular inv ++ t)%list →
  iv_envelopes inv' = iv_envelopes inv → iv_payloadless inv' = iv_payloadless inv →
  iv_payloadless_irregular inv' = iv_payloadless_irregular inv → same_view inv inv'.
Proof.
  intros [Hw He Hs Hl] Ew Ei Ee Ep Epi. rewrite Forall_forall in He.
  assert (inv_all inv' = inv_all inv) as Hall.
  { unfold inv_all, identities. rewrite Ee. apply list_fmap_ext.
    intros ? e Hin%list_elem_of_lookup_2. by eapply env_ok_grow; [..|apply He]. }
  split; [|split; [done|]]; [|intros i; by apply lost_same].
  split; [by rewrite Ew| |by rewrite Hall|].
  - rewrite Ee, Forall_forall. intros e Hin. by eapply env_ok_grow; [..|apply He].
  - intros i. rewrite (lost_same inv inv') by done. rewrite Hall. apply Hl.
Qed.

Lemma compact_view inv w i inv' e :
  inv_ok inv → iv_writers inv !! w = Some (ri_writer i) → compact inv w i = (inv', e) →
  same_view inv inv' ∧ env_ok inv' e ∧ inv_identity inv' e = i ∧
  if canonical_hash (ri_hash i)
  then inv' = inv ∧ cx_irregular e = 0%nat ∧ hex_decode (ri_hash i) = Some (cx_hash e)
  else inv' = with_irregular inv (iv_irregular inv ++ [ri_hash i])%list ∧ cx_irregular e ≠ 0%nat.
Proof.
  intros Hok Hw. unfold compact. destruct i as [iw sq ih]. cbn [ri_writer ri_sequence ri_hash] in *.
  pose proof (lookup_lt_Some _ _ _ Hw) as Hlt.
  destruct (canonical_hash ih) eqn:Ec.
  - destruct (hex_decode_canonical ih Ec) as (b & -> & Hb & Eb). intros [= <- <-].
    split; [done|]. unfold env_ok, inv_identity. cbn. by rewrite Hw, Eb.
  - intros [= <- <-].
    assert (same_view inv (with_irregular inv (iv_irregular inv ++ [ih]))) as Hv by (by eapply grow_view).
    split; [done|]. unfold env_ok, inv_identity, hash_text. cbn. rewrite length_app. cbn.
    rewrite Nat.add_1_r. rewrite list_lookup_middle by done. rewrite Hw. cbn. eauto 10.
Qed.

(** [i]'s payload is kept under the same name as [j]'s. *)
Definition names (i j : ReplicaEnvelopeId) : bool :=
  if canonical_hash (ri_hash i) then eqb_ord (ri_hash j) (ri_hash i) else eqb_ord j i.

Definition with_found (inv : CompactInventory) (e : CompactEnvelopeId) : CompactInventory :=
  if Nat.eqb (cx_irregular e) 0
  then with_payloadless inv (bset_remove (cx_hash e) (iv_payloadless inv)) (iv_payloadless_irregular inv)
  else
    let inv := with_payloadless inv (iv_payloadless inv)
                 (bset_remove (inv_identity inv e) (iv_payloadless_irregular inv)) in
    with_irregular inv (removelast (iv_irregular inv)).

Lemma bset_mem_remove `{Ord A} (x y : A) s : bset_mem y (bset_remove x s) = bset_mem y s && negb (eqb_ord y x).
Proof.
  apply eq_true_iff_eq. rewrite andb_true_iff, !bset_mem_spec, elem_of_bset_remove, negb_true_iff.
  destruct (eqb_ord_spec y x); naive_solver.
Qed.

Lemma decode_names i j b c :
  canonical_hash (ri_hash i) = true → canonical_hash (ri_hash j) = true →
  hex_decode (ri_hash i) = Some b → hex_decode (ri_hash j) = Some c →
  eqb_ord c b = eqb_ord (ri_hash j) (ri_hash i).
Proof.
  intros Hi Hj. destruct (hex_decode_canonical _ Hi) as (b' & -> & Hb & Eb).
  destruct (hex_decode_canonical _ Hj) as (c' & -> & Hc & Ec). intros [= ->] [= ->].
  unfold eqb_ord. by rewrite <-Eb, <-Ec, hex_encode_cmp by congruence.
Qed.

(** Giving a held identity its payload back. *)
Lemma with_found_view inv w i inv' e :
  inv_ok inv → iv_writers inv !! w = Some (ri_writer i) → compact inv w i = (inv', e) →
  inv_ok (with_found inv' e) ∧ inv_all (with_found inv' e) = inv_all inv ∧
  ∀ j, lost (with_found inv' e) j = lost inv j && negb (names i j).
Proof.
  intros Hok Hw Hc. pose proof (compact_view _ _ _ _ _ Hok Hw Hc) as (_ & _ & Hid & Hcase).
  assert (∃ regular irregular, with_found inv' e = with_payloadless inv regular irregular ∧
    ∀ j, lost (with_payloadless inv regular irregular) j = lost inv j && negb (names i j)) as (r & ir & -> & Hlost).
  - unfold with_found. destruct (canonical_hash (ri_hash i)) eqn:Ec.
    + destruct Hcase as (-> & -> & Hd). cbn [Nat.eqb]. do 2 eexists. split; [reflexivity|].
      intros j. unfold lost, names. rewrite Ec. cbn [iv_payloadless iv_payloadless_irregular with_payloadless].
      destruct (canonical_hash (ri_hash j)) eqn:Ej.
      * destruct (hex_decode_canonical _ Ej) as (c & Hj & _). rewrite Hj, bset_mem_remove.
        by rewrite (decode_names i j _ _ Ec Ej Hd Hj).
      * rewrite eqb_ord_ne; [by rewrite andb_true_r|]. congruence.
    + destruct Hcase as (-> & He). apply Nat.eqb_neq in He as ->. rewrite Hid.
      exists (iv_payloadless inv), (bset_remove i (iv_payloadless_irregular inv)). split.
      * unfold with_irregular, with_payloadless. cbn [iv_irregular]. by rewrite removelast_last.
      * intros j. unfold lost, names. rewrite Ec. cbn [iv_payloadless iv_payloadless_irregular with_payloadless].
        destruct (canonical_hash (ri_hash j)) eqn:Ej; [|by rewrite bset_mem_remove].
        destruct (hex_decode_canonical _ Ej) as (c & -> & _). rewrite eqb_ord_ne; [by rewrite andb_true_r|].
        congruence.
  - split; [|done]. destruct Hok as [H1 H2 H3 H4]. split; [done|done|done|].
    intros j. rewrite Hlost. intros [? _]%andb_true_iff. by apply H4.
Qed.

Lemma vec_insert_view inv e p :
  inv_ok inv → env_ok inv e →
  binary_search_by (λ probe, inv_order inv probe e) (iv_envelopes inv) = inr p →
  let inv' := with_writers inv (iv_writers inv) (vec_insert p e (iv_envelopes inv)) in
  inv_ok inv' ∧ inv_all inv' = bset_insert (inv_identity inv e) (inv_all inv) ∧ inv_identity inv e ∉ inv_all inv.
Proof.
  intros [Hw He Hs Hl] Hok E inv'.
  rewrite (binary_search_by_ext _ (search_key (inv_identity inv) (inv_identity inv e))) in E.
  2: { rewrite Forall_forall in He. intros x Hx. apply inv_order_cmp; [done|by apply He|done]. }
  apply binary_search_Err in E as [Hn Hins]; [|done].
  specialize (Hins e eq_refl).
  assert (inv_all inv' = bset_insert (inv_identity inv e) (inv_all inv)) as Hall by exact Hins.
  split; [|done]. split.
  - done.
  - rewrite Forall_forall in He |- *. intros x [-> |Hx]%elem_of_vec_insert; [done|by apply He].
  - rewrite Hall. by apply bset_insert_wf.
  - intros i (j & Hj & ?)%Hl. exists j. rewrite Hall, elem_of_bset_insert. naive_solver.
Qed.

Lemma inv_insert_unfold inv i inv1 w inv2 e :
  intern_writer inv (ri_writer i) = (inv1, w) → compact inv1 w i = (inv2, e) →
  inv_insert inv i =
  match binary_search_by (λ probe, inv_order inv2 probe e) (iv_envelopes inv2) with
  | inl _ => with_found inv2 e
  | inr p => with_writers inv2 (iv_writers inv2) (vec_insert p e (iv_envelopes inv2))
  end.
Proof. intros E1 E2. unfold inv_insert. by rewrite E1, E2. Qed.

Lemma inv_insert_view inv i :
  inv_ok inv →
  inv_ok (inv_insert inv i) ∧ inv_all (inv_insert inv i) = bset_insert i (inv_all inv) ∧
  ∀ j, lost (inv_insert inv i) j = lost inv j && negb (bset_mem i (inv_all inv) && names i j).
Proof.
  intros Hok. destruct (intern_writer inv (ri_writer i)) as [inv1 w] eqn:E1.
  destruct (compact inv1 w i) as [inv2 e] eqn:E2. rewrite (inv_insert_unfold _ _ _ _ _ _ E1 E2).
  destruct (intern_writer_view _ _ _ _ Hok E1) as [(Hok1 & Hall1 & Hlost1) Hw].
  destruct (compact_view _ _ _ _ _ Hok1 Hw E2) as ((Hok2 & Hall2 & Hlost2) & He & Hid & _).
  destruct (binary_search_by _ _) as [p|p] eqn:Ep.
  - destruct (with_found_view _ _ _ _ _ Hok1 Hw E2) as (Hok3 & Hall3 & Hlost3).
    assert (i ∈ inv_all inv) as Hin.
    { rewrite (binary_search_by_ext _ (search_key (inv_identity inv2) (inv_identity inv2 e))) in Ep.
      2: { destruct Hok2 as [Hw2 He2 _ _]. rewrite Forall_forall in He2.
           intros x Hx. apply inv_order_cmp; [done|by apply He2|done]. }
      apply binary_search_Ok in Ep as (x & Hx & Ex). rewrite Hid in Ex. rewrite <-Hall1, <-Hall2, <-Ex.
      apply list_elem_of_fmap. exists x. split; [done|]. by eapply list_elem_of_lookup_2. }
    split; [done|]. rewrite Hall3, Hall1. rewrite bset_insert_present by (by destruct Hok).
    split; [done|]. intros j. rewrite Hlost3, Hlost1. by rewrite (proj2 (bset_mem_spec i _) Hin).
  - destruct (vec_insert_view _ _ _ Hok2 He Ep) as (Hok3 & Hall3 & Hn). rewrite Hid, Hall2, Hall1 in Hn, Hall3.
    split; [done|]. split; [done|]. intros j.
    apply bset_mem_false in Hn. rewrite Hn, andb_true_r, <-Hlost1, <-Hlost2. by apply lost_same.
Qed.

(** Hashes name identities: an envelope hash commits to its writer and sequence. *)
Definition hashes_name (l : list ReplicaEnvelopeId) (i : ReplicaEnvelopeId) : Prop :=
  ∀ j, j ∈ l → ri_hash j = ri_hash i → j = i.

Lemma filter_insert (p q : ReplicaEnvelopeId → bool) i l :
  bset_wf l → q i = true → (∀ j, j ∈ l → j ≠ i → p j = q j) →
  List.filter q (bset_insert i l) = bset_insert i (List.filter p l).
Proof.
  intros Hl Hi Hpq. apply bset_ext.
  - by apply StronglySorted_filter, bset_insert_wf.
  - by apply bset_insert_wf, StronglySorted_filter.
  - intros j. rewrite filter_elem_of, !elem_of_bset_insert, filter_elem_of.
    destruct (eqb_ord_spec j i) as [->|Hne]; [naive_solver|].
    split.
    + intros [[-> |Hj] Hq]; [done|]. right. by rewrite Hpq.
    + intros [-> |[Hj Hp]]; [done|]. rewrite <-Hpq by done. tauto.
Qed.

Lemma inv_insert_sendable inv i :
  inv_ok inv → hashes_name (inv_all inv) i →
  sendable (inv_insert inv i) = bset_insert i (sendable inv).
Proof.
  intros Hok Hn. destruct (inv_insert_view inv i Hok) as (Hok' & Hall & Hlost).
  rewrite !sendable_lost, Hall by done. apply filter_insert; [by destruct Hok|..].
  - rewrite Hlost. destruct (lost inv i) eqn:E; [|done].
    destruct (ok_lost _ Hok i E) as (j & Hj & Hh & _). pose proof (Hn j Hj Hh) as ->.
    rewrite (proj2 (bset_mem_spec i _) Hj). unfold names. destruct (canonical_hash (ri_hash i)); by rewrite eqb_ord_refl.
  - intros j Hj Hne. rewrite Hlost. f_equal.
    assert (names i j = false) as ->; [|by rewrite andb_false_r, andb_true_r].
    unfold names. destruct (canonical_hash (ri_hash i)); apply eqb_ord_ne; [|done].
    intros Hh. by apply Hne, Hn.
Qed.

(** ** Loading *)

(** Every writer of the table has an identity. *)
Definition writers_used (inv : CompactInventory) : Prop :=
  ∀ w, w ∈ iv_writers inv → ∃ j, j ∈ inv_all inv ∧ ri_writer j = w.

Lemma cmp_id_writer i j : lt_ord j i → cmp (ri_writer j) (ri_writer i) ≠ Gt.
Proof.
  unfold lt_ord. change (cmp j i) with (then_with (cmp (ri_writer j) (ri_writer i))
    (then_with (cmp (ri_sequence j) (ri_sequence i)) (cmp (ri_hash j) (ri_hash i)))).
  by destruct (cmp (ri_writer j) (ri_writer i)).
Qed.

Lemma bset_wf_snoc `{Ord A} (l : list A) x : bset_wf l → (∀ y, y ∈ l → lt_ord y x) → bset_wf (l ++ [x])%list.
Proof.
  intros Hl Hx. apply StronglySorted_app_2; [|done|repeat constructor].
  intros y z Hy ->%list_elem_of_singleton. by apply Hx.
Qed.

(** The last writer of the table is the greatest, so a writer that is not the last and
    not below any is new. *)
Lemma last_writer_new (ws : list string) w :
  bset_wf ws → (∀ v, v ∈ ws → cmp v w ≠ Gt) → last ws ≠ Some w → ∀ v, v ∈ ws → lt_ord v w.
Proof.
  intros Hws Hle Hlast v Hv. destruct (cmp v w) eqn:E; [|done|by apply Hle in E].
  apply cmp_eq in E as ->. exfalso. apply list_elem_of_lookup_1 in Hv as [k Hk].
  destruct (last ws) as [x|] eqn:Ex; [|by apply last_None in Ex as ->].
  assert (x ≠ w) as Hne by congruence. pose proof Ex as Hx. rewrite last_lookup in Hx.
  assert (cmp x w = Lt) as Hlt.
  { destruct (cmp x w) eqn:E; [by apply cmp_eq in E|done|]. apply Hle in E; [done|].
    by eapply list_elem_of_lookup_2. }
  pose proof (sorted_lookup_cmp _ _ _ _ _ Hws Hx Hk) as Hc. rewrite Hlt in Hc.
  apply Nat.compare_lt_iff in Hc. apply lookup_lt_Some in Hk. lia.
Qed.

(** Interning the writer of an identity that sorts last. *)
Definition push_writer (inv : CompactInventory) (w : string) : CompactInventory :=
  if bool_decide (last (iv_writers inv) = Some w) then inv
  else with_writers inv (iv_writers inv ++ [w])%list (iv_envelopes inv).

Lemma push_writer_view inv i :
  inv_ok inv → writers_used inv → (∀ j, j ∈ inv_all inv → lt_ord j i) →
  let inv' := push_writer inv (ri_writer i) in
  same_view inv inv' ∧ iv_writers inv' !! (length (iv_writers inv') - 1)%nat = Some (ri_writer i) ∧
  ∀ w, w ∈ iv_writers inv' → w = ri_writer i ∨ w ∈ iv_writers inv.
Proof.
  intros [Hw He Hs Hl] Hused Hlt. unfold push_writer. case_bool_decide as Hlast.
  { split; [done|]. split; [|auto]. rewrite last_lookup in Hlast. by rewrite Nat.sub_1_r. }
  assert (∀ v, v ∈ iv_writers inv → lt_ord v (ri_writer i)) as Hnew.
  { apply last_writer_new; [done| |done]. intros v (j & Hj & <-)%Hused. by apply cmp_id_writer, Hlt. }
  assert (inv_all (with_writers inv (iv_writers inv ++ [ri_writer i])%list (iv_envelopes inv)) = inv_all inv) as Hall.
  { unfold inv_all, identities. cbn. rewrite Forall_forall in He. apply list_fmap_ext.
    intros ? e [Hwe _]%list_elem_of_lookup_2%He. unfold inv_identity. cbn.
    by rewrite lookup_app_l. }
  split_and!.
  - split; [|by split]. split; [|..].
    + by apply bset_wf_snoc.
    + cbn. eapply Forall_impl; [exact He|]. intros e [Hwe Hh]. split; [|done]. cbn. rewrite length_app. lia.
    + by rewrite Hall.
    + rewrite Hall. exact Hl.
  - cbn. rewrite length_app. cbn. rewrite Nat.add_sub. by apply list_lookup_middle.
  - cbn. intros w. rewrite elem_of_app, list_elem_of_singleton. tauto.
Qed.

Lemma push_sorted_view inv i :
  inv_ok inv → writers_used inv → (∀ j, j ∈ inv_all inv → lt_ord j i) →
  inv_ok (push_sorted inv i) ∧ writers_used (push_sorted inv i) ∧
  inv_all (push_sorted inv i) = (inv_all inv ++ [i])%list ∧ ∀ j, lost (push_sorted inv i) j = lost inv j.
Proof.
  intros Hok Hused Hlt. destruct (push_writer_view inv i Hok Hused Hlt) as ((Hok1 & Hall1 & Hlost1) & Hw & Hws).
  unfold push_sorted. fold (push_writer inv (ri_writer i)). set (inv1 := push_writer inv (ri_writer i)) in *.
  destruct (compact inv1 _ i) as [inv2 e] eqn:E2.
  destruct (compact_view _ _ _ _ _ Hok1 Hw E2) as ((Hok2 & Hall2 & Hlost2) & He & Hid & Hcase).
  assert (iv_writers inv2 = iv_writers inv1) as Ew.
  { destruct (canonical_hash (ri_hash i)); by destruct Hcase as (-> & _). }
  set (inv3 := with_writers inv2 _ _).
  assert (inv_all inv3 = (inv_all inv ++ [i])%list) as Hall.
  { rewrite <-Hall1, <-Hall2, <-Hid. unfold inv_all, identities. cbn. by rewrite fmap_app. }
  split_and!.
  - destruct Hok2 as [Hw2 He2 Hs2 Hl2]. split; [done| | |].
    + cbn. apply Forall_app. split; [done|]. by constructor.
    + rewrite Hall. apply bset_wf_snoc; [by destruct Hok|done].
    + rewrite Hall. intros j (k & Hk & ?)%Hl2. exists k. rewrite Hall2, Hall1 in Hk. set_solver.
  - intros w Hin. rewrite Hall. cbn in Hin. rewrite Ew in Hin. apply Hws in Hin as [-> |Hin]; [set_solver|].
    apply Hused in Hin as (j & ? & ?). exists j. set_solver.
  - done.
  - intros j. rewrite <-Hlost1, <-Hlost2. by apply lost_same.
Qed.

Lemma bset_mem_insert `{Ord A} (x y : A) s : bset_mem y (bset_insert x s) = bset_mem y s || eqb_ord y x.
Proof.
  apply eq_true_iff_eq. rewrite orb_true_iff, !bset_mem_spec, elem_of_bset_insert, eqb_ord_true. tauto.
Qed.

Lemma names_refl i : names i i = true.
Proof. unfold names. case_match; apply eqb_ord_refl. Qed.

Lemma names_hash i j :
  names i j = true → ri_hash i = ri_hash j ∧ (canonical_hash (ri_hash j) = false → i = j).
Proof.
  unfold names. destruct (canonical_hash (ri_hash i)) eqn:E; intros E'%eqb_ord_true.
  - rewrite E'. split; [done|]. congruence.
  - by subst.
Qed.

Lemma mark_last_payloadless_lost inv e i :
  env_ok inv e → inv_identity inv e = i → last (iv_envelopes inv) = Some e →
  ∃ regular irregular, mark_last_payloadless inv = with_payloadless inv regular irregular ∧
    ∀ j, lost (with_payloadless inv regular irregular) j = lost inv j || names i j.
Proof.
  intros He Hid Hlast. unfold mark_last_payloadless. rewrite Hlast, Hid.
  pose proof (hash_text_canonical inv e He) as Hc.
  assert (ri_hash i = hash_text inv e) as Hh by (by rewrite <-Hid). rewrite <-Hh in Hc.
  destruct (Nat.eqb_spec (cx_irregular e) 0) as [E|E].
  - assert (hex_decode (ri_hash i) = Some (cx_hash e)) as Hd.
    { rewrite Hh. unfold hash_text. rewrite E. apply hex_decode_encode. destruct He as [_ He]. by rewrite E in He. }
    do 2 eexists. split; [reflexivity|]. intros j. unfold lost, names. rewrite Hc.
    cbn [iv_payloadless iv_payloadless_irregular with_payloadless].
    destruct (canonical_hash (ri_hash j)) eqn:Ej.
    + destruct (hex_decode_canonical _ Ej) as (c & Hj & _). rewrite Hj, bset_mem_insert.
      by rewrite (decode_names i j _ _ Hc Ej Hd Hj).
    + rewrite eqb_ord_ne; [by rewrite orb_false_r|]. congruence.
  - do 2 eexists. split; [reflexivity|]. intros j. unfold lost, names. rewrite Hc.
    cbn [iv_payloadless iv_payloadless_irregular with_payloadless].
    destruct (canonical_hash (ri_hash j)) eqn:Ej; [|by rewrite bset_mem_insert].
    destruct (hex_decode_canonical _ Ej) as (c & -> & _). rewrite eqb_ord_ne; [by rewrite orb_false_r|].
    congruence.
Qed.

Lemma mark_last_view inv l i :
  inv_ok inv → inv_all inv = (l ++ [i])%list →
  inv_ok (mark_last_payloadless inv) ∧ inv_all (mark_last_payloadless inv) = inv_all inv ∧
  iv_writers (mark_last_payloadless inv) = iv_writers inv ∧
  ∀ j, lost (mark_last_payloadless inv) j = lost inv j || names i j.
Proof.
  intros Hok Hall.
  assert (∃ e, last (iv_envelopes inv) = Some e ∧ inv_identity inv e = i) as (e & Hlast & Hid).
  { assert (last (inv_all inv) = Some i) as Hlast by (by rewrite Hall, last_snoc).
    unfold inv_all, identities in Hlast. rewrite fmap_last in Hlast.
    destruct (last (iv_envelopes inv)) as [e|]; [|done]. exists e. by injection Hlast. }
  assert (env_ok inv e) as He.
  { pose proof (ok_envelopes _ Hok) as H'. rewrite Forall_forall in H'. by apply H', last_Some_elem_of. }
  destruct (mark_last_payloadless_lost inv e i He Hid Hlast) as (r & ir & -> & Hlost).
  split; [|done]. destruct Hok as [H1 H2 H3 H4]. split; [done|done|done|].
  intros j. rewrite Hlost. intros [Hj|Hj]%orb_true_iff; [by apply H4|].
  exists i. split; [|by apply names_hash]. change (i ∈ inv_all inv). rewrite Hall. set_solver.
Qed.

(** What loading has read so far. *)
Definition row_id (row : Z * (ReplicaEnvelopeId * bool)) : ReplicaEnvelopeId := row.2.1.
Definition row_held (row : Z * (ReplicaEnvelopeId * bool)) : bool := row.2.2.

Definition loaded (rows : list (Z * (ReplicaEnvelopeId * bool))) (s : CompactInventory * Z * nat) : Prop :=
  let '(inv, max_rowid, envelope_rows) := s in
  inv_ok inv ∧ writers_used inv ∧ inv_all inv = row_id <$> rows ∧
  (∀ j, lost inv j = existsb (λ row, negb (row_held row) && names (row_id row) j) rows) ∧
  max_rowid = foldl Z.max 0%Z (fst <$> rows) ∧
  envelope_rows = length (List.filter row_held rows).

Lemma load_row_loaded rows row s :
  (∀ j, j ∈ row_id <$> rows → lt_ord j (row_id row)) → loaded rows s → loaded (rows ++ [row])%list (load_row s row).
Proof.
  destruct s as [[inv m] n], row as [rowid [i held]]. intros Hlt (Hok & Hused & Hall & Hlost & -> & ->).
  rewrite <-Hall in Hlt.
  destruct (push_sorted_view inv i Hok Hused Hlt) as (Hok1 & Hused1 & Hall1 & Hlost1).
  unfold load_row. rewrite Hall in Hall1. destruct held; unfold loaded.
  - split_and!; [done|done|by rewrite Hall1, fmap_app| | |].
    + intros j. rewrite Hlost1, Hlost, existsb_app. cbn. by rewrite orb_false_r.
    + by rewrite fmap_app, foldl_app.
    + rewrite List.filter_app, length_app. cbn. lia.
  - destruct (mark_last_view _ _ _ Hok1 Hall1) as (Hok2 & Hall2 & Hw2 & Hlost2).
    split_and!; [done| |by rewrite Hall2, Hall1, fmap_app| | |].
    + intros w. rewrite Hw2, Hall2. apply Hused1.
    + intros j. rewrite Hlost2, Hlost1, Hlost, existsb_app. cbn. by rewrite orb_false_r.
    + by rewrite fmap_app, foldl_app.
    + rewrite List.filter_app, length_app. cbn. lia.
Qed.

Lemma load_rows_loaded rows :
  bset_wf (row_id <$> rows) → loaded rows (foldl load_row (inventory_default, 0%Z, 0%nat) rows).
Proof.
  induction rows as [|row rows IH] using rev_ind; intros Hs.
  - split_and!; [apply inventory_default_ok|intros w Hw; set_solver|done| |done|done].
    intros j. unfold lost. by case_match.
  - rewrite fmap_app in Hs. apply StronglySorted_app in Hs as (Hlt & Hs & _).
    rewrite foldl_app. apply load_row_loaded; [|by apply IH].
    intros j Hj. apply Hlt; [done|]. set_solver.
Qed.

(** Primary keys, and hashes that name identities. *)
Record tables_ok (held : list (Z * ReplicaEnvelopeId)) (dropped : list ReplicaEnvelopeId) : Prop := {
  tables_held : NoDup (snd <$> held);
  tables_dropped : NoDup dropped;
  tables_hashes i j :
    i ∈ ((snd <$> held) ++ dropped)%list → j ∈ ((snd <$> held) ++ dropped)%list → ri_hash i = ri_hash j → i = j
}.

(** What an inventory should say of the tables. *)
Definition inventory_of (held : list (Z * ReplicaEnvelopeId)) (dropped : list ReplicaEnvelopeId)
    (inv : CompactInventory) : Prop :=
  inv_ok inv ∧ inv_all inv = bset_of_list ((snd <$> held) ++ dropped)%list ∧
  sendable inv = bset_of_list (snd <$> held).

Section load.
Context (held : list (Z * ReplicaEnvelopeId)) (dropped : list ReplicaEnvelopeId) (Ht : tables_ok held dropped).

Let rows := inventory_rows held dropped.

Lemma elem_of_rows row :
  row ∈ rows ↔ (row_held row = true ∧ (row.1, row_id row) ∈ held) ∨
               (row_held row = false ∧ row.1 = 0%Z ∧ row_id row ∈ dropped ∧ row_id row ∉ snd <$> held).
Proof.
  unfold rows, inventory_rows. rewrite sort_on_perm, elem_of_app, 2!list_elem_of_fmap.
  setoid_rewrite filter_elem_of. setoid_rewrite negb_true_iff.
  assert (∀ i, existsb (eqb_ord i) (snd <$> held) = false ↔ i ∉ snd <$> held) as Hex by (intros i; apply bset_mem_false).
  setoid_rewrite Hex. destruct row as [rowid [i h]]. unfold row_held, row_id. cbn. split.
  - intros [([r j] & [= -> -> ->] & Hin)|(j & [= -> -> ->] & Hin & Hn)]; [left|right]; auto.
  - intros [[-> Hin]|(-> & -> & Hin & Hn)]; [left; by exists (rowid, i)|right; by exists i].
Qed.

Lemma rows_sorted : bset_wf (row_id <$> rows).
Proof.
  apply (fmap_key_sorted row_id). apply (sort_on_sorted row_id). rewrite fmap_app, <-!list_fmap_compose.
  destruct Ht as [Hh Hd _]. apply NoDup_app. split_and!.
  - exact Hh.
  - intros i Hi (j & -> & [_ Hn]%filter_elem_of)%list_elem_of_fmap. apply negb_true_iff in Hn.
    apply (bset_mem_false j (snd <$> held)) in Hn. done.
  - cbn. rewrite list_fmap_id. by apply NoDup_ListNoDup, List.NoDup_filter, NoDup_ListNoDup.
Qed.

Lemma rows_ids i : i ∈ row_id <$> rows ↔ i ∈ ((snd <$> held) ++ dropped)%list.
Proof.
  rewrite elem_of_app, !list_elem_of_fmap. setoid_rewrite elem_of_rows. split.
  - intros (row & -> & [[_ Hin]|(_ & _ & Hin & _)]); [left; by exists (row.1, row_id row)|by right].
  - intros [([r j] & -> & Hin)|Hin].
    + exists (r, (j, true)). unfold row_id, row_held. naive_solver.
    + destruct (bset_mem i (snd <$> held)) eqn:E.
      * apply bset_mem_spec, list_elem_of_fmap in E as ([r j] & -> & Hin').
        exists (r, (j, true)). unfold row_id, row_held. naive_solver.
      * apply bset_mem_false in E. exists (0%Z, (i, false)). unfold row_id, row_held. naive_solver.
Qed.

Lemma rows_held_length : length (List.filter row_held rows) = length held.
Proof.
  assert (rows ≡ₚ (((λ row : Z * ReplicaEnvelopeId, (row.1, (row.2, true))) <$> held) ++
     ((λ i, (0%Z, (i, false))) <$> List.filter (λ i, negb (existsb (eqb_ord i) (snd <$> held))) dropped)))%list as Hp
    by apply sort_on_perm.
  assert (∀ l l' : list (Z * (ReplicaEnvelopeId * bool)), l ≡ₚ l' →
    length (List.filter row_held l) = length (List.filter row_held l')) as Hperm.
  { intros l l' Hl. induction Hl; cbn; repeat case_match; cbn; lia. }
  rewrite (Hperm _ _ Hp), List.filter_app, length_app, !filter_fmap_comm, !length_fmap.
  unfold row_held. cbn. rewrite List.filter_true, List.filter_false. cbn. lia.
Qed.

(** The highest rowid, or zero. *)
Definition max_rowid_of (m : Z) : Prop :=
  (0 <= m)%Z ∧ (∀ row, row ∈ held → (row.1 <= m)%Z) ∧ (m = 0%Z ∨ m ∈ fst <$> held).

Lemma load_inventory_of :
  let '(inv, max_rowid, envelope_rows) := load_compact_replication_inventory held dropped in
  inventory_of held dropped inv ∧ max_rowid_of max_rowid ∧ envelope_rows = length held.
Proof.
  pose proof (load_rows_loaded rows rows_sorted) as Hload. unfold load_compact_replication_inventory.
  fold rows. destruct (foldl load_row _ rows) as [[inv m] n].
  destruct Hload as (Hok & _ & Hall & Hlost & -> & ->).
  split; [|split; [|apply rows_held_length]].
  - split; [done|]. assert (∀ i, i ∈ inv_all inv ↔ i ∈ ((snd <$> held) ++ dropped)%list) as Hin.
    { intros i. rewrite Hall. apply rows_ids. }
    split.
    + apply bset_ext; [by destruct Hok|apply bset_of_list_wf|]. intros i. by rewrite elem_of_bset_of_list.
    + rewrite sendable_lost by done. apply bset_ext; [by apply StronglySorted_filter; destruct Hok|apply bset_of_list_wf|].
      intros i. rewrite filter_elem_of, elem_of_bset_of_list, negb_true_iff, Hlost, Hin.
      rewrite <-not_true_iff_false, existsb_elem_of. split.
      * intros [[Hi|Hi]%elem_of_app Hn]; [done|]. destruct (bset_mem i (snd <$> held)) eqn:E; [by apply bset_mem_spec|].
        apply bset_mem_false in E. destruct Hn. exists (0%Z, (i, false)). split; [|apply names_refl].
        apply elem_of_rows. right. auto.
      * intros Hi. split; [apply elem_of_app; by left|]. intros (row & Hrow & [Hh Hname]%andb_true_iff).
        apply negb_true_iff in Hh. apply names_hash in Hname as [Hname _].
        apply elem_of_rows in Hrow as [[? _]|(_ & _ & Hd & Hn)]; [congruence|].
        apply Hn. assert (row_id row = i) as ->; [|done].
        apply (tables_hashes _ _ Ht); [set_solver..|done].
  - destruct (foldl_max (fst <$> rows) 0) as (H1 & H2 & H3). split_and!; [done| |].
    + intros row Hrow. apply H2, list_elem_of_fmap. exists (row.1, (row.2, true)). split; [done|].
      apply elem_of_rows. left. by destruct row.
    + destruct H3 as [H3|(row & E & Hrow)%list_elem_of_fmap]; [by left|].
      apply elem_of_rows in Hrow as [[_ Hrow]|(_ & E' & _)]; [right|left; congruence].
      rewrite E. apply list_elem_of_fmap. by exists (row.1, row_id row).
Qed.
End load.

(** [CompactReplicationInventory::insert] does to the public view what inserting into
    a sorted set does: it keeps the invariant of the compact form (interned writers in
    order, indices in range, identities in order, marks only on held identities), the
    listed identities become the old ones and the new one in their order, and the
    sendable ones too, so a tombstoned identity gets its payload back and no other
    identity's payload changes. *)
Theorem inv_insert_refines inv i :
  inv_ok inv → hashes_name (inv_all inv) i →
  inv_ok (inv_insert inv i) ∧ inv_all (inv_insert inv i) = bset_insert i (inv_all inv) ∧
  sendable (inv_insert inv i) = bset_insert i (sendable inv).
Proof.
  intros Hok Hn. destruct (inv_insert_view inv i Hok) as (? & ? & _). eauto using inv_insert_sendable.
Qed.
End laws.
End inventory.

(** ** Lowercase hex, for the witnesses *)

Definition demo_nibble (z : Z) : ascii := byte_of (if (z <? 10)%Z then (48 + z)%Z else (87 + z)%Z).
Definition demo_digit (c : ascii) : option Z :=
  let v := byte_val c in
  if (48 <=? v)%Z && (v <=? 57)%Z then Some (v - 48)%Z
  else if (97 <=? v)%Z && (v <=? 102)%Z then Some (v - 87)%Z else None.
Fixpoint demo_hex_encode (l : list ascii) : list ascii :=
  match l with
  | [] => []
  | b :: l' => demo_nibble (byte_val b / 16) :: demo_nibble (byte_val b mod 16) :: demo_hex_encode l'
  end.
Fixpoint demo_hex_decode (l : list ascii) : option (list ascii) :=
  match l with
  | [] => Some []
  | [_] => None
  | a :: b :: l' =>
      match demo_digit a, demo_digit b, demo_hex_decode l' with
      | Some x, Some y, Some r => Some (byte_of (16 * x + y)%Z :: r)
      | _, _, _ => None
      end
  end.
#[export] Instance demo_hex : Hex :=
  {| hex_encode := λ l, string_of (demo_hex_encode l); hex_decode := λ s, demo_hex_decode (bytes_of s) |}.

Definition demo_is_hex (b : ascii) : bool :=
  ((48 <=? byte_val b) && (byte_val b <=? 57) || (97 <=? byte_val b) && (byte_val b <=? 102))%Z.

Lemma demo_digit_nibble c : demo_is_hex c = true → ∃ x, demo_digit c = Some x ∧ (0 <= x < 16)%Z ∧ demo_nibble x = c.
Proof.
  unfold demo_is_hex, demo_digit, demo_nibble. intros Hc. apply orb_true_iff in Hc as [Hc|Hc]; bool_prop.
  - exists (byte_val c - 48)%Z. rewrite (proj2 (Z.leb_le 48 _)), (proj2 (Z.leb_le _ 57)) by done.
    split; [done|]. split; [lia|]. rewrite (proj2 (Z.ltb_lt _ 10)) by lia.
    replace (48 + (byte_val c - 48))%Z with (byte_val c) by lia. apply byte_of_val.
  - exists (byte_val c - 87)%Z. rewrite (proj2 (Z.leb_gt (byte_val c) 57)), andb_false_r by lia.
    rewrite (proj2 (Z.leb_le 97 _)), (proj2 (Z.leb_le _ 102)) by done.
    split; [done|]. split; [lia|]. rewrite (proj2 (Z.ltb_ge _ 10)) by lia.
    replace (87 + (byte_val c - 87))%Z with (byte_val c) by lia. apply byte_of_val.
Qed.

Lemma demo_nibble_hex x : (0 <= x < 16)%Z → demo_is_hex (demo_nibble x) = true.
Proof.
  intros Hx. assert (∃ n, x = Z.of_nat n ∧ (n < 16)%nat) as (n & -> & Hn) by (exists (Z.to_nat x); lia).
  do 16 (destruct n as [|n]; [done|]). lia.
Qed.

Lemma demo_nibble_cmp x y : (0 <= x < 16)%Z → (0 <= y < 16)%Z → cmp (demo_nibble x) (demo_nibble y) = cmp x y.
Proof.
  intros Hx Hy. change (cmp (demo_nibble x) (demo_nibble y)) with
    (Z.compare (byte_val (demo_nibble x)) (byte_val (demo_nibble y))).
  change (cmp x y) with (Z.compare x y). unfold demo_nibble. rewrite !byte_val_of, !Z.mod_small by (case_match; lia).
  repeat case_match; bool_prop; destruct (Z.compare_spec x y); apply Z.compare_eq_iff || apply Z.compare_lt_iff || apply Z.compare_gt_iff; lia.
Qed.

Lemma demo_hex_decode_ok n : ∀ l, length l = (2 * n)%nat → forallb demo_is_hex l = true →
  ∃ b, demo_hex_decode l = Some b ∧ length b = n ∧ demo_hex_encode b = l.
Proof.
  induction n as [|n IH]; intros l Hl Hd; [by destruct l; [exists []|]|].
  destruct l as [|x [|y l]]; cbn in Hl; [lia..|]. cbn in Hd. apply andb_true_iff in Hd as [Hx [Hy Hd]%andb_true_iff].
  apply demo_digit_nibble in Hx as (a & Ha & Ra & Ea). apply demo_digit_nibble in Hy as (b & Hb & Rb & Eb).
  destruct (IH l) as (r & Hr & Hlen & Hr'); [lia|done|]. cbn. rewrite Ha, Hb, Hr. eexists. split; [reflexivity|].
  cbn. rewrite Hlen, Hr', byte_val_of, (Z.mod_small (16 * a + b)) by lia.
  replace ((16 * a + b) / 16)%Z with a by (apply Z.div_unique with b; lia).
  replace ((16 * a + b) mod 16)%Z with b by (apply Z.mod_unique with a; lia). by rewrite Ea, Eb.
Qed.

Lemma demo_hex_encode_digits l :
  length (demo_hex_encode l) = (2 * length l)%nat ∧ forallb demo_is_hex (demo_hex_encode l) = true.
Proof.
  induction l as [|b l [IH1 IH2]]; [done|]. cbn [demo_hex_encode length forallb]. rewrite IH1, IH2.
  pose proof (byte_val_range b). rewrite !demo_nibble_hex; [split; [lia|done]|..].
  - apply Z.mod_pos_bound; lia.
  - split; [apply Z.div_pos; lia|apply Z.div_lt_upper_bound; lia].
Qed.

Lemma cmp_divmod x y : cmp x y = then_with (cmp (x / 16)%Z (y / 16)%Z) (cmp (x mod 16)%Z (y mod 16)%Z).
Proof.
  change (Z.compare x y = then_with (Z.compare (x / 16) (y / 16)) (Z.compare (x mod 16) (y mod 16))).
  pose proof (Z.div_mod x 16 ltac:(lia)). pose proof (Z.div_mod y 16 ltac:(lia)).
  pose proof (Z.mod_pos_bound x 16 ltac:(lia)). pose proof (Z.mod_pos_bound y 16 ltac:(lia)).
  destruct (Z.compare_spec (x / 16) (y / 16)); cbn.
  - destruct (Z.compare_spec (x mod 16) (y mod 16)).
    + apply Z.compare_eq_iff; lia.
    + apply Z.compare_lt_iff; lia.
    + apply Z.compare_gt_iff; lia.
  - apply Z.compare_lt_iff; lia.
  - apply Z.compare_gt_iff; lia.
Qed.

Lemma demo_hex_cmp a b : length a = length b → list_cmp (demo_hex_encode a) (demo_hex_encode b) = list_cmp a b.
Proof.
  revert b. induction a as [|x a IH]; intros [|y b]; cbn; [done..|]. intros [= Hl]. rewrite IH by done.
  pose proof (byte_val_range x). pose proof (byte_val_range y).
  rewrite !demo_nibble_cmp by (split; [by apply Z.div_pos; lia|by apply Z.div_lt_upper_bound; lia] || apply Z.mod_pos_bound; lia).
  change (cmp x y) with (cmp (byte_val x) (byte_val y)). rewrite (cmp_divmod (byte_val x)).
  by destruct (cmp (byte_val x / 16)%Z (byte_val y / 16)%Z).
Qed.

#[export] Instance demo_hex_laws : HexLaws.
Proof.
  split.
  - intros s [Hl Hd]%andb_true_iff. apply Z.eqb_eq in Hl. unfold len in Hl.
    destruct (demo_hex_decode_ok 32 (bytes_of s)) as (b & Hb & Hlen & He); [lia|done|].
    exists b. split; [done|]. split; [done|]. cbn. by rewrite He, string_of_bytes_of.
  - intros b Hb. unfold canonical_hash, len. cbn. rewrite bytes_of_string_of.
    destruct (demo_hex_encode_digits b) as [Hl Hd]. rewrite Hl, Hb. exact Hd.
  - intros a b Hl. cbn. rewrite cmp_string_bytes, !bytes_of_string_of. by apply demo_hex_cmp.
  - intros a. unfold len. cbn. rewrite bytes_of_string_of. destruct (demo_hex_encode_digits a) as [-> _]. lia.
Qed.

Definition demo_id (writer : string) (sequence : Z) (hash : string) : ReplicaEnvelopeId :=
  {| ri_writer := writer; ri_sequence := sequence; ri_hash := hash |}.
Definition demo_sha (c : ascii) : string := string_of (repeat c 64).
Definition demo_held : list (Z * ReplicaEnvelopeId) :=
  [(1%Z, demo_id "oak" 3 (demo_sha "a"%char)); (2%Z, demo_id "elm" 300 (demo_sha "b"%char))].
Definition demo_dropped : list ReplicaEnvelopeId := [demo_id "oak" 1 "not-a-hash"; demo_id "elm" 2 (demo_sha "c"%char)].
Definition demo_inventory : CompactInventory := (load_compact_replication_inventory demo_held demo_dropped).1.1.

#[export] Instance ReplicaEnvelopeId_eq_dec : EqDecision ReplicaEnvelopeId.
Proof. solve_decision. Defined.

Lemma demo_tables_ok : tables_ok demo_held demo_dropped.
Proof.
  split.
  - apply (bool_decide_unpack _). by vm_compute.
  - apply (bool_decide_unpack _). by vm_compute.
  - assert (Forall (λ i, Forall (λ j, ri_hash i = ri_hash j → i = j) ((snd <$> demo_held) ++ demo_dropped)%list)
      ((snd <$> demo_held) ++ demo_dropped)%list) as Hall by (apply (bool_decide_unpack _); by vm_compute).
    rewrite Forall_forall in Hall. intros i j Hi Hj. pose proof (Hall i Hi) as H'. rewrite Forall_forall in H'. by apply H'.
Qed.

Lemma demo_inventory_of : inventory_of demo_held demo_dropped demo_inventory.
Proof.
  pose proof (load_inventory_of demo_held demo_dropped demo_tables_ok) as Hload. unfold demo_inventory.
  destruct (load_compact_replication_inventory _ _) as [[inv m] n]. by destruct Hload.
Qed.

Lemma inv_insert_refines_witness :
  let i := demo_id "oak" 1 "not-a-hash" in
  sendable (inv_insert demo_inventory i) = bset_insert i (sendable demo_inventory) ∧
  sendable (inv_insert demo_inventory i) =
    [demo_id "elm" 300 (demo_sha "b"%char); demo_id "oak" 1 "not-a-hash"; demo_id "oak" 3 (demo_sha "a"%char)].
Proof.
  split; [|by vm_compute].
  apply (inv_insert_refines demo_inventory (demo_id "oak" 1 "not-a-hash")).
  - apply demo_inventory_of.
  - assert (Forall (λ j, ri_hash j = ri_hash (demo_id "oak" 1 "not-a-hash") → j = demo_id "oak" 1 "not-a-hash")
      (inv_all demo_inventory)) as Hall by (apply (bool_decide_unpack _); by vm_compute).
    rewrite Forall_forall in Hall. exact Hall.
Defined.
