(* ===== verification/Snapshot.v ===== *)
(** * Inventory ranges, digests and the replication snapshot
    (crates/smallclaims/src/store.rs, [build_replication_snapshot], and
    crates/smallclaims/src/store/inventory_generation.rs)

    A snapshot keeps the inventory, one digest per writer sequence range, and the
    digest state before each range.  When only appends happened since the last
    snapshot, which triggers on the two tables tell, the next one is extended from it:
    the new identities are inserted, the digests of the ranges they touch are replaced,
    and the inventory digest resumes at the first of those ranges.  The theorems show
    that the extended snapshot says exactly what one read from the tables would. *)

From stdpp Require Import relations.
From S2P Require Import Prelude BTree Json Digests Slices Inventory.

Local Open Scope string_scope.

(** ** Ranges *)

Section snapshot.
Context `{Hex}.
Variable sha256 : list ascii → list ascii.

(** The range an identity belongs to. *)
Definition id_key (i : ReplicaEnvelopeId) : string * Z := (ri_writer i, replication_bucket_start (ri_sequence i)).

(** [test_replication_buckets]: the ranges computed from public identities. *)
Definition id_bucket (range : list ReplicaEnvelopeId) : Bucket :=
  match range with
  | [] => {| bk_writer := ""; bk_start := 0; bk_count := 0; bk_digest := "" |}
  | first :: _ =>
      {| bk_writer := ri_writer first;
         bk_start := replication_bucket_start (ri_sequence first);
         bk_count := Z.of_nat (length range);
         bk_digest := identity_digest sha256 BUCKET_DIGEST_DOMAIN range |}
  end.
Definition same_id_range (l r : ReplicaEnvelopeId) : bool :=
  eqb_ord (ri_writer l) (ri_writer r) &&
  (replication_bucket_start (ri_sequence l) =? replication_bucket_start (ri_sequence r))%Z.
Definition test_replication_buckets (envelopes : list ReplicaEnvelopeId) : list Bucket :=
  id_bucket <$> chunk_by same_id_range envelopes.

(** ** The snapshot *)

Definition bk_key (b : Bucket) : string * Z := (bk_writer b, bk_start b).

(** The state of a running SHA-256 is what it has read. *)
Definition Sha256 : Type := list ascii.

Record Snapshot := {
  sn_max_envelope_rowid : Z;
  sn_envelope_rows : nat;
  sn_inventory_generation : Z;
  sn_inventory : CompactInventory;
  sn_buckets : list Bucket;
  sn_digest_prefixes : list Sha256
}.

(** [resume_digest]: the loop over the ranges from [from] on; a count that does not
    match the held identities would panic. *)
Fixpoint resume_loop (inv : CompactInventory) (buckets : list Bucket) (prefixes : list Sha256) (digest : Sha256)
    (position : nat) : list Sha256 * Sha256 :=
  match buckets with
  | [] => (prefixes, digest)
  | b :: rest =>
      let end_ := (position + Z.to_nat (bk_count b))%nat in
      resume_loop inv rest (prefixes ++ [digest])%list
        (digest ++ concat (id_bytes <$> identities inv (drop position (take end_ (iv_envelopes inv)))))%list end_
  end.
Definition bucket_counts (buckets : list Bucket) : nat := foldl (λ n b, (n + Z.to_nat (bk_count b))%nat) 0%nat buckets.
Definition with_digest (inv : CompactInventory) (digest : string) : CompactInventory :=
  {| iv_digest := digest; iv_writers := iv_writers inv; iv_irregular := iv_irregular inv;
     iv_envelopes := iv_envelopes inv; iv_payloadless := iv_payloadless inv;
     iv_payloadless_irregular := iv_payloadless_irregular inv |}.
Definition resume_digest (inv : CompactInventory) (buckets : list Bucket) (prefixes : list Sha256) (from : nat)
    : CompactInventory * list Sha256 :=
  if Nat.eqb from (length buckets) && Nat.eqb (length prefixes) (length buckets + 1) then (inv, prefixes)
  else
    let from := Nat.min from (length prefixes - 1) in
    let digest := default INVENTORY_DIGEST_DOMAIN (prefixes !! from) in
    let prefixes := take from prefixes in
    let position := bucket_counts (take (Nat.min from (length buckets)) buckets) in
    let '(prefixes, digest) := resume_loop inv (drop from buckets) prefixes digest position in
    (with_digest inv (hex_encode (sha256 digest)), (prefixes ++ [digest])%list).

(** The new identities: each one's range is touched and it is inserted. *)
Definition add_row (s : CompactInventory * BTreeSet (string * Z) * Z) (row : Z * ReplicaEnvelopeId)
    : CompactInventory * BTreeSet (string * Z) * Z :=
  let '(inv, touched, max_rowid) := s in
  (inv_insert inv row.2, bset_insert (id_key row.2) touched, Z.max max_rowid row.1).

(** A touched range's digest replaces the old one or is inserted in its place. *)
Definition put_bucket (inv : CompactInventory) (buckets : list Bucket) (key : string * Z) : list Bucket :=
  let bucket := inv_bucket sha256 inv (inv_range inv key.1 key.2) in
  match binary_search_by (λ existing, cmp (bk_key existing) key) buckets with
  | inl position => <[position := bucket]> buckets
  | inr position => vec_insert position bucket buckets
  end.

(** Where the inventory digest resumes. *)
Definition resume_from (buckets : list Bucket) (touched : BTreeSet (string * Z)) : nat :=
  match (λ key, partition_point (λ existing, match cmp (bk_key existing) key with Lt => true | _ => false end) buckets)
          <$> touched with
  | [] => length buckets
  | n :: l => foldl Nat.min n l
  end.

(** ** The tables *)

(** The two tables and the generation their triggers count. *)
Record Tables := {
  tb_held : list (Z * ReplicaEnvelopeId);
  tb_dropped : list ReplicaEnvelopeId;
  tb_generation : Z
}.

(** A change of one row, with the trigger it fires: appending above every rowid and
    rewriting other columns leave the generation alone. *)
Inductive TableOp :=
| InsertEnvelope (rowid : Z) (i : ReplicaEnvelopeId)
| DeleteEnvelope (rowid : Z)
| UpdateEnvelope (rowid rowid' : Z) (i' : ReplicaEnvelopeId)
| InsertTombstone (i : ReplicaEnvelopeId)
| DeleteTombstone (i : ReplicaEnvelopeId)
| UpdateTombstone (i i' : ReplicaEnvelopeId).

Definition bump_generation (fires : bool) (generation : Z) : Z := if fires then (generation + 1)%Z else generation.

Definition table_apply (op : TableOp) (t : Tables) : Tables :=
  match op with
  | InsertEnvelope rowid i =>
      let held := (tb_held t ++ [(rowid, i)])%list in
      {| tb_held := held; tb_dropped := tb_dropped t;
         tb_generation := bump_generation (existsb (λ row, rowid <? row.1)%Z held) (tb_generation t) |}
  | DeleteEnvelope rowid =>
      {| tb_held := List.filter (λ row, negb (row.1 =? rowid)%Z) (tb_held t); tb_dropped := tb_dropped t;
         tb_generation := bump_generation (existsb (λ row, row.1 =? rowid)%Z (tb_held t)) (tb_generation t) |}
  | UpdateEnvelope rowid rowid' i' =>
      {| tb_held := (λ row, if (row.1 =? rowid)%Z then (rowid', i') else row) <$> tb_held t;
         tb_dropped := tb_dropped t;
         tb_generation :=
           bump_generation (existsb (λ row, (row.1 =? rowid)%Z && negb ((row.1 =? rowid')%Z && eqb_ord row.2 i')) (tb_held t))
             (tb_generation t) |}
  | InsertTombstone i =>
      {| tb_held := tb_held t; tb_dropped := (tb_dropped t ++ [i])%list; tb_generation := bump_generation true (tb_generation t) |}
  | DeleteTombstone i =>
      {| tb_held := tb_held t; tb_dropped := List.filter (λ j, negb (eqb_ord j i)) (tb_dropped t);
         tb_generation := bump_generation (existsb (λ j, eqb_ord j i) (tb_dropped t)) (tb_generation t) |}
  | UpdateTombstone i i' =>
      {| tb_held := tb_held t; tb_dropped := (λ j, if eqb_ord j i then i' else j) <$> tb_dropped t;
         tb_generation := bump_generation (existsb (λ j, eqb_ord j i && negb (eqb_ord j i')) (tb_dropped t)) (tb_generation t) |}
  end.

(** The part of [build_replication_snapshot] that reads them. *)
Definition full_snapshot (t : Tables) : Snapshot :=
  let '(inv, max_rowid, rows) := load_compact_replication_inventory (tb_held t) (tb_dropped t) in
  let buckets := inv_buckets sha256 inv in
  let '(inv, prefixes) := resume_digest inv buckets [] 0 in
  {| sn_max_envelope_rowid := max_rowid; sn_envelope_rows := rows; sn_inventory_generation := tb_generation t;
     sn_inventory := inv; sn_buckets := buckets; sn_digest_prefixes := prefixes |}.
Definition build_replication_snapshot (previous : option Snapshot) (t : Tables) : Snapshot :=
  match previous with
  | None => full_snapshot t
  | Some p =>
      if (tb_generation t =? sn_inventory_generation p)%Z then
        let additions := sort_on fst (List.filter (λ row, sn_max_envelope_rowid p <? row.1)%Z (tb_held t)) in
        let '(inv, touched, max_rowid) := foldl add_row (sn_inventory p, [], sn_max_envelope_rowid p) additions in
        let buckets := foldl (put_bucket inv) (sn_buckets p) touched in
        let '(inv, prefixes) := resume_digest inv buckets (sn_digest_prefixes p) (resume_from buckets touched) in
        {| sn_max_envelope_rowid := max_rowid;
           sn_envelope_rows := sn_envelope_rows p + length additions;
           sn_inventory_generation := tb_generation t; sn_inventory := inv; sn_buckets := buckets;
           sn_digest_prefixes := prefixes |}
      else full_snapshot t
  end.

Section laws.
Context `{!HexLaws}.

(** ** A range of the inventory is a filter of its identities *)

Definition before_id (writer : string) (bound : Z) (i : ReplicaEnvelopeId) : bool :=
  match cmp (ri_writer i, ri_sequence i) (writer, bound) with Lt => true | _ => false end.

Lemma before_id_partitioned writer bound : partitioned lt_ord (before_id writer bound).
Proof.
  intros x y Hxy. unfold before_id. destruct (cmp (ri_writer y, _) _) eqn:Ey; [done| |done]. intros _.
  assert (cmp (ri_writer x, ri_sequence x) (writer, bound) = Lt) as ->; [|done].
  assert (cmp (ri_writer x, ri_sequence x) (ri_writer y, ri_sequence y) ≠ Gt) as Hle.
  { unfold lt_ord in Hxy. change (cmp x y) with (then_with (cmp (ri_writer x) (ri_writer y))
      (then_with (cmp (ri_sequence x) (ri_sequence y)) (cmp (ri_hash x) (ri_hash y)))) in Hxy.
    change (then_with (cmp (ri_writer x) (ri_writer y)) (cmp (ri_sequence x) (ri_sequence y)) ≠ Gt).
    destruct (cmp (ri_writer x) (ri_writer y)); cbn in *; [|done..]. by destruct (cmp (ri_sequence x) _). }
  destruct (cmp (ri_writer x, ri_sequence x) (ri_writer y, ri_sequence y)) eqn:E; [|by eapply cmp_lt_trans|done].
  apply cmp_eq in E. by rewrite E.
Qed.

Lemma before_before_id inv w writer bound e :
  inv_ok inv → iv_writers inv !! w = Some writer → env_ok inv e →
  before w bound e = before_id writer bound (inv_identity inv e).
Proof.
  intros Hok Hw [He _]. apply lookup_lt_is_Some in He as [we He]. unfold before, before_id.
  change (cmp (ri_writer (inv_identity inv e), ri_sequence (inv_identity inv e)) (writer, bound)) with
    (then_with (cmp (default "" (iv_writers inv !! cx_writer e)) writer) (cmp (cx_sequence e) bound)).
  rewrite He. cbn [default from_option id].
  by rewrite (sorted_lookup_cmp _ _ _ _ _ (ok_writers _ Hok) He Hw).
Qed.

(** The identities of [writer] from [start] on, below [end]. *)
Definition in_sequences (writer : string) (start end_ : Z) (i : ReplicaEnvelopeId) : bool :=
  eqb_ord (ri_writer i) writer && (start <=? ri_sequence i)%Z && (ri_sequence i <? end_)%Z.

Lemma in_sequences_before writer start end_ i :
  (start <= end_)%Z →
  before_id writer end_ i && negb (before_id writer start i) = in_sequences writer start end_ i.
Proof.
  intros Hle. unfold before_id, in_sequences.
  change (cmp (ri_writer i, ri_sequence i) (writer, end_)) with
    (then_with (cmp (ri_writer i) writer) (Z.compare (ri_sequence i) end_)).
  change (cmp (ri_writer i, ri_sequence i) (writer, start)) with
    (then_with (cmp (ri_writer i) writer) (Z.compare (ri_sequence i) start)).
  unfold eqb_ord. destruct (cmp (ri_writer i) writer); cbn [then_with andb negb]; [|done..].
  unfold Z.leb, Z.ltb. rewrite (Z.compare_antisym (ri_sequence i) start).
  by destruct (Z.compare (ri_sequence i) end_), (Z.compare (ri_sequence i) start).
Qed.

Lemma sadd64_le start n : (0 <= n)%Z → (start <= u64_max)%Z → (start <= sadd64 start n)%Z.
Proof. unfold sadd64. lia. Qed.

Lemma inv_range_filter inv writer start :
  inv_ok inv → (start <= u64_max)%Z →
  identities inv (inv_range inv writer start) =
  List.filter (in_sequences writer start (sadd64 start REPLICATION_BUCKET_WIDTH)) (inv_all inv).
Proof.
  intros Hok Hstart. pose proof (ok_envelopes _ Hok) as He. rewrite Forall_forall in He.
  unfold inv_range. destruct (binary_search_by _ _) as [w|w] eqn:Ew.
  - apply (binary_search_Ok id) in Ew as (name & Hw & <-). cbn [id].
    assert (∀ bound, partition_point (before w bound) (iv_envelopes inv)
                     = partition_point (before_id name bound) (inv_all inv)) as Hpp.
    { intros bound. unfold inv_all, identities. rewrite partition_point_fmap. apply partition_point_ext.
      intros e Hin. by apply before_before_id; [| |apply He]. }
    rewrite !Hpp. unfold identities. rewrite fmap_drop, fmap_take. fold (identities inv (iv_envelopes inv)).
    fold (inv_all inv). rewrite (partition_slice lt_ord); [|apply before_id_partitioned..|apply Hok].
    apply filter_ext_in'. intros i _. apply in_sequences_before. by apply sadd64_le.
  - apply (binary_search_Err id) in Ew as [Hn _]; [|rewrite list_fmap_id; apply Hok].
    rewrite list_fmap_id in Hn. cbn. symmetry. rewrite (filter_ext_in' _ (λ _, false)); [apply List.filter_false|].
    intros i (e & -> & Hin)%list_elem_of_fmap. destruct (He e Hin) as [Hlt _].
    apply lookup_lt_is_Some in Hlt as [we Hwe]. unfold in_sequences. cbn [ri_writer inv_identity]. rewrite Hwe. cbn.
    rewrite eqb_ord_ne; [done|]. intros ->. apply Hn. by eapply list_elem_of_lookup_2.
Qed.

(** ** Aligned ranges *)

Definition sequences_ok (l : list ReplicaEnvelopeId) : Prop := Forall (λ i, (0 <= ri_sequence i < u64_max)%Z) l.

Lemma bucket_start_div n : replication_bucket_start n = (256 * (n / 256))%Z.
Proof. unfold replication_bucket_start, REPLICATION_BUCKET_WIDTH. pose proof (Z.div_mod n 256). lia. Qed.

Lemma bucket_start_iff n k :
  (k mod 256 = 0)%Z → replication_bucket_start n = k ↔ (k <= n < k + 256)%Z.
Proof.
  intros Hk. rewrite bucket_start_div. apply Z.div_exact in Hk; [|lia].
  pose proof (Z.div_mod n 256 ltac:(lia)). pose proof (Z.mod_pos_bound n 256 ltac:(lia)).
  rewrite Hk. split; [lia|]. intros Hn. f_equal. symmetry. apply (Z.div_unique n 256 (k / 256) (n - k)); lia.
Qed.

Lemma bucket_start_aligned n : (replication_bucket_start n mod 256 = 0)%Z.
Proof. rewrite bucket_start_div, Z.mul_comm. by apply Z.mod_mul. Qed.

Lemma bucket_start_range n : (0 <= n)%Z → (0 <= replication_bucket_start n <= n)%Z.
Proof.
  intros Hn. rewrite bucket_start_div. pose proof (Z.mul_div_le n 256). pose proof (Z.div_pos n 256). lia.
Qed.

Lemma in_sequences_key writer start i :
  (start mod 256 = 0)%Z → (ri_sequence i < u64_max)%Z →
  in_sequences writer start (sadd64 start REPLICATION_BUCKET_WIDTH) i = eqb_ord (id_key i) (writer, start).
Proof.
  intros Ha Hi. apply eq_true_iff_eq. rewrite eqb_ord_true. unfold in_sequences, id_key.
  rewrite !andb_true_iff, eqb_ord_true, Z.leb_le, Z.ltb_lt.
  rewrite pair_equal_spec, bucket_start_iff by done. unfold sadd64, REPLICATION_BUCKET_WIDTH.
  split; [intros [[-> ?] ?]|intros [-> ?]]; (split; [|]); try split; (done || lia).
Qed.

Lemma inv_range_key inv writer start :
  inv_ok inv → sequences_ok (inv_all inv) → (start mod 256 = 0)%Z → (start <= u64_max)%Z →
  identities inv (inv_range inv writer start) = with_key id_key (writer, start) (inv_all inv).
Proof.
  intros Hok Hseq Ha Hs. rewrite inv_range_filter by done. unfold sequences_ok in Hseq. rewrite Forall_forall in Hseq.
  apply filter_ext_in'. intros i Hi. apply in_sequences_key; [done|]. by apply Hseq.
Qed.

(** ** The digests of the ranges *)

(** The range digest of one key. *)
Definition bucket_for (l : list ReplicaEnvelopeId) (k : string * Z) : Bucket :=
  {| bk_writer := k.1; bk_start := k.2;
     bk_count := Z.of_nat (length (with_key id_key k l));
     bk_digest := identity_digest sha256 BUCKET_DIGEST_DOMAIN (with_key id_key k l) |}.
Definition inventory_keys (l : list ReplicaEnvelopeId) : list (string * Z) := bset_of_list (id_key <$> l).

Lemma bk_key_bucket_for l k : bk_key (bucket_for l k) = k.
Proof. by destruct k. Qed.

Lemma elem_of_with_key k l i : i ∈ with_key id_key k l ↔ i ∈ l ∧ id_key i = k.
Proof. unfold with_key. by rewrite filter_elem_of, eqb_ord_true. Qed.

Lemma id_bucket_for l k : k ∈ inventory_keys l → id_bucket (with_key id_key k l) = bucket_for l k.
Proof.
  unfold inventory_keys. rewrite elem_of_bset_of_list, list_elem_of_fmap. intros (i & -> & Hi).
  unfold bucket_for. destruct (with_key id_key (id_key i) l) as [|j r] eqn:E.
  - assert (i ∈ with_key id_key (id_key i) l) as Hin by (by apply elem_of_with_key). rewrite E in Hin. set_solver.
  - assert (j ∈ with_key id_key (id_key i) l) as [_ Hj]%elem_of_with_key by (rewrite E; left).
    unfold id_bucket. by injection Hj as -> ->.
Qed.

Lemma id_key_mono i j : lt_ord i j → key_le id_key i j.
Proof.
  unfold lt_ord, key_le. change (cmp i j) with (then_with (cmp (ri_writer i) (ri_writer j))
    (then_with (cmp (ri_sequence i) (ri_sequence j)) (cmp (ri_hash i) (ri_hash j)))).
  change (cmp (id_key i) (id_key j)) with (then_with (cmp (ri_writer i) (ri_writer j))
    (Z.compare (replication_bucket_start (ri_sequence i)) (replication_bucket_start (ri_sequence j)))).
  destruct (cmp (ri_writer i) (ri_writer j)); cbn; [|done..]. intros Hlt.
  rewrite !bucket_start_div. apply Z.compare_le_iff.
  assert (ri_sequence i <= ri_sequence j)%Z.
  { change (cmp (ri_sequence i) (ri_sequence j)) with (Z.compare (ri_sequence i) (ri_sequence j)) in Hlt.
    destruct (Z.compare_spec (ri_sequence i) (ri_sequence j)); [lia..|done]. }
  pose proof (Z.div_le_mono (ri_sequence i) (ri_sequence j) 256). lia.
Qed.

Lemma same_id_range_key i j : same_id_range i j = eqb_ord (id_key i) (id_key j).
Proof.
  apply eq_true_iff_eq. unfold same_id_range. rewrite andb_true_iff, !eqb_ord_true, Z.eqb_eq. unfold id_key.
  by rewrite pair_equal_spec.
Qed.

Lemma test_replication_buckets_keys l :
  bset_wf l → test_replication_buckets l = bucket_for l <$> inventory_keys l.
Proof.
  intros Hl. unfold test_replication_buckets. rewrite (chunk_by_keys id_key).
  - rewrite <-list_fmap_compose. apply list_fmap_ext. intros ? k Hk%list_elem_of_lookup_2. by apply id_bucket_for.
  - intros i j _ _. apply same_id_range_key.
  - eapply StronglySorted_mono; [|exact Hl]. intros; by apply id_key_mono.
Qed.

Lemma inv_bucket_id inv range :
  Forall (env_ok inv) range → inv_bucket sha256 inv range = id_bucket (identities inv range).
Proof.
  intros Hr. destruct range as [|e range]; [done|]. unfold inv_bucket, id_bucket. cbn [identities fmap list_fmap].
  unfold digest_of. cbn [length]. by rewrite length_fmap.
Qed.

Lemma chunk_by_Forall {A} (P : A → Prop) (same : A → A → bool) l :
  Forall P l → Forall (Forall P) (chunk_by same l).
Proof.
  induction 1 as [|x l Hx Hl IH]; [constructor|]. cbn [chunk_by].
  destruct (chunk_by same l) as [|[|y c] cs]; [by repeat constructor| |].
  - apply Forall_cons in IH as [_ IH]. by repeat constructor.
  - apply Forall_cons in IH as [Hc IH]. destruct (same x y); repeat (constructor; try done).
Qed.

Lemma same_range_id inv l r :
  inv_ok inv → env_ok inv l → env_ok inv r →
  same_range l r = same_id_range (inv_identity inv l) (inv_identity inv r).
Proof.
  intros Hok [Hl _] [Hr _]. apply lookup_lt_is_Some in Hl as [wl Hl]. apply lookup_lt_is_Some in Hr as [wr Hr].
  unfold same_range, same_id_range. cbn [ri_writer ri_sequence inv_identity]. rewrite Hl, Hr.
  cbn [default from_option id]. f_equal. unfold eqb_ord.
  rewrite <-(sorted_lookup_cmp _ _ _ _ _ (ok_writers _ Hok) Hl Hr).
  destruct (Nat.compare_spec (cx_writer l) (cx_writer r)) as [E|E|E]; [by apply Nat.eqb_eq|apply Nat.eqb_neq; lia..].
Qed.

(** The range digests of the compact form are those of the public identities. *)
Lemma inv_buckets_public inv : inv_ok inv → inv_buckets sha256 inv = test_replication_buckets (inv_all inv).
Proof.
  intros Hok. pose proof (ok_envelopes _ Hok) as He.
  unfold inv_buckets, test_replication_buckets, inv_all, identities. rewrite chunk_by_fmap, <-list_fmap_compose.
  rewrite (chunk_by_ext (λ x y, same_id_range (inv_identity inv x) (inv_identity inv y)) same_range).
  - pose proof (chunk_by_Forall _ same_range _ He) as Hc. rewrite Forall_forall in Hc.
    apply list_fmap_ext. intros ? c Hin%list_elem_of_lookup_2. by apply inv_bucket_id, Hc.
  - rewrite Forall_forall in He. intros x y Hx Hy. symmetry. apply same_range_id; [done|by apply He..].
Qed.

(** ** Resuming the digest *)

(** The digest state before each range and after the last. *)
Fixpoint prefix_states (l : list ReplicaEnvelopeId) (ks : list (string * Z)) (digest : Sha256) : list Sha256 :=
  match ks with
  | [] => [digest]
  | k :: ks' => digest :: prefix_states l ks' (digest ++ concat (id_bytes <$> with_key id_key k l))%list
  end.
Definition digest_states (l : list ReplicaEnvelopeId) : list Sha256 :=
  prefix_states l (inventory_keys l) INVENTORY_DIGEST_DOMAIN.

(** A sorted list is the concatenation of its ranges. *)
Lemma concat_chunk_by {A} (same : A → A → bool) l : concat (chunk_by same l) = l.
Proof.
  induction l as [|x l IH]; [done|]. cbn [chunk_by]. destruct (chunk_by same l) as [|[|y c] cs]; cbn in *.
  - by rewrite <-IH.
  - by rewrite IH.
  - destruct (same x y); cbn; by rewrite IH.
Qed.

Lemma concat_ranges l : bset_wf l → concat ((λ k, with_key id_key k l) <$> inventory_keys l) = l.
Proof.
  intros Hl. rewrite <-(concat_chunk_by same_id_range l) at 2. f_equal. symmetry. apply (chunk_by_keys id_key).
  - intros i j _ _. apply same_id_range_key.
  - eapply StronglySorted_mono; [|exact Hl]. intros; by apply id_key_mono.
Qed.

Definition ranges (l : list ReplicaEnvelopeId) (ks : list (string * Z)) : list ReplicaEnvelopeId :=
  concat ((λ k, with_key id_key k l) <$> ks).

Lemma ranges_cons l k ks : ranges l (k :: ks) = (with_key id_key k l ++ ranges l ks)%list.
Proof. done. Qed.
Lemma ranges_app l ks ks' : ranges l (ks ++ ks')%list = (ranges l ks ++ ranges l ks')%list.
Proof. unfold ranges. by rewrite fmap_app, concat_app. Qed.

Lemma concat_bytes_app (l l' : list ReplicaEnvelopeId) :
  concat (id_bytes <$> (l ++ l')%list) = (concat (id_bytes <$> l) ++ concat (id_bytes <$> l'))%list.
Proof. by rewrite fmap_app, concat_app. Qed.

Lemma prefix_states_app l ks ks' digest :
  prefix_states l (ks ++ ks')%list digest =
  (take (length ks) (prefix_states l ks digest) ++
   prefix_states l ks' (digest ++ concat (id_bytes <$> ranges l ks)))%list.
Proof.
  revert digest. induction ks as [|k ks IH]; intros digest; cbn [prefix_states app length take].
  - by rewrite app_nil_r.
  - rewrite IH, ranges_cons, concat_bytes_app, app_assoc. done.
Qed.

Lemma length_prefix_states l ks digest : length (prefix_states l ks digest) = S (length ks).
Proof. revert digest. induction ks as [|k ks IH]; intros digest; cbn; [done|]. by rewrite IH. Qed.

Lemma prefix_states_lookup l ks digest n :
  (n <= length ks)%nat →
  prefix_states l ks digest !! n = Some (digest ++ concat (id_bytes <$> ranges l (take n ks)))%list.
Proof.
  intros Hn. rewrite <-(take_drop n ks) at 1. rewrite prefix_states_app.
  rewrite lookup_app_r; rewrite length_take, length_prefix_states, length_take; [|lia].
  replace (n - _)%nat with 0%nat by lia. by destruct (drop n ks).
Qed.

Lemma drop_take_middle {A} (l a b c : list A) :
  l = (a ++ b ++ c)%list → drop (length a) (take (length a + length b) l) = b.
Proof.
  intros ->. rewrite app_assoc, <-length_app, take_app_length, drop_app_length. done.
Qed.

Lemma resume_loop_states inv l ks ks' prefixes digest :
  inv_all inv = l → l = (ranges l ks ++ ranges l ks')%list →
  let '(prefixes', digest') :=
    resume_loop inv (bucket_for l <$> ks') prefixes digest (length (ranges l ks)) in
  (prefixes' ++ [digest'] = prefixes ++ prefix_states l ks' digest)%list ∧
  digest' = (digest ++ concat (id_bytes <$> ranges l ks'))%list.
Proof.
  intros Hall. revert ks prefixes digest. induction ks' as [|k ks' IH]; intros ks prefixes digest Hl.
  - cbn. by rewrite app_nil_r.
  - cbn [fmap list_fmap resume_loop]. cbn [bucket_for bk_count]. rewrite Nat2Z.id.
    assert (identities inv (drop (length (ranges l ks))
      (take (length (ranges l ks) + length (with_key id_key k l)) (iv_envelopes inv))) = with_key id_key k l) as ->.
    { unfold identities. rewrite fmap_drop, fmap_take. fold (identities inv (iv_envelopes inv)).
      fold (inv_all inv). rewrite Hall. rewrite ranges_cons in Hl. eapply drop_take_middle. exact Hl. }
    assert (length (ranges l ks) + length (with_key id_key k l) = length (ranges l (ks ++ [k])%list))%nat as ->.
    { rewrite ranges_app, length_app, ranges_cons. unfold ranges at 3. cbn. by rewrite app_nil_r. }
    specialize (IH (ks ++ [k])%list (prefixes ++ [digest])%list
      (digest ++ concat (id_bytes <$> with_key id_key k l))%list).
    destruct (resume_loop _ _ _ _ _) as [prefixes' digest'].
    destruct IH as [IH1 IH2].
    { rewrite Hl at 1. rewrite ranges_app, !ranges_cons. unfold ranges at 4. cbn. by rewrite app_nil_r, <-app_assoc. }
    rewrite IH1, IH2, ranges_cons, concat_bytes_app. cbn [prefix_states]. by rewrite <-!app_assoc.
Qed.

Lemma bucket_counts_ranges l ks : bucket_counts (bucket_for l <$> ks) = length (ranges l ks).
Proof.
  unfold bucket_counts. assert (∀ n, foldl (λ n b, (n + Z.to_nat (bk_count b))%nat) n (bucket_for l <$> ks)
    = (n + length (ranges l ks))%nat) as H'; [|apply H'].
  induction ks as [|k ks IH]; intros n; cbn [fmap list_fmap foldl]; [cbn; lia|].
  rewrite IH, ranges_cons, length_app. cbn. lia.
Qed.

Lemma digest_states_resume l f :
  (f <= length (inventory_keys l))%nat →
  (take f (digest_states l) ++ prefix_states l (drop f (inventory_keys l))
     (INVENTORY_DIGEST_DOMAIN ++ concat (id_bytes <$> ranges l (take f (inventory_keys l)))))%list = digest_states l.
Proof.
  intros Hf. unfold digest_states. rewrite <-(take_drop f (inventory_keys l)) at 1 4. rewrite !prefix_states_app.
  f_equal. rewrite length_take, Nat.min_l by done.
  rewrite take_app_le by (rewrite length_take, length_prefix_states, length_take; lia).
  by rewrite take_take, Nat.min_id.
Qed.

(** The digest of a whole inventory. *)
Definition inventory_digest (l : list ReplicaEnvelopeId) : string := identity_digest sha256 INVENTORY_DIGEST_DOMAIN l.

Lemma resume_digest_exact inv prefixes from :
  let l := inv_all inv in
  let f := Nat.min from (length prefixes - 1) in
  bset_wf l → (f <= length (inventory_keys l))%nat →
  take f prefixes = take f (digest_states l) →
  default INVENTORY_DIGEST_DOMAIN (prefixes !! f) = default INVENTORY_DIGEST_DOMAIN (digest_states l !! f) →
  (from = length (inventory_keys l) → length prefixes = S (length (inventory_keys l)) →
   prefixes = digest_states l ∧ iv_digest inv = inventory_digest l) →
  resume_digest inv (bucket_for l <$> inventory_keys l) prefixes from
  = (with_digest inv (inventory_digest l), digest_states l).
Proof.
  intros l f Hl Hf Htake Hdigest Hskip. unfold resume_digest. rewrite length_fmap, Nat.add_1_r.
  destruct (_ && _) eqn:E.
  { apply andb_true_iff in E as [Hfrom%Nat.eqb_eq Hlen%Nat.eqb_eq].
    destruct (Hskip Hfrom Hlen) as [-> <-]. by destruct inv. }
  fold f. rewrite Htake, Hdigest. replace (Nat.min f (length (inventory_keys l))) with f by lia.
  rewrite <-fmap_take, <-fmap_drop, bucket_counts_ranges.
  unfold digest_states at 2. rewrite prefix_states_lookup by done. cbn [default from_option id].
  pose proof (resume_loop_states inv l (take f (inventory_keys l)) (drop f (inventory_keys l)) (take f (digest_states l))
    (INVENTORY_DIGEST_DOMAIN ++ concat (id_bytes <$> ranges l (take f (inventory_keys l))))%list eq_refl) as Hloop.
  rewrite <-ranges_app, take_drop in Hloop.
  assert (ranges l (inventory_keys l) = l) as Hr by (by apply concat_ranges).
  destruct (resume_loop _ _ _ _ _) as [prefixes' digest'].
  destruct Hloop as [Hp Hd]; [done|].
  rewrite <-app_assoc, <-concat_bytes_app, <-ranges_app, take_drop, Hr in Hd. subst digest'.
  f_equal. rewrite Hp. apply digest_states_resume; done.
Qed.

(** ** Replacing the digests of touched ranges *)

Lemma inv_range_ok inv writer start : inv_ok inv → Forall (env_ok inv) (inv_range inv writer start).
Proof.
  intros [_ He _ _]. unfold inv_range. case_match; [|constructor]. by apply Forall_drop, Forall_take.
Qed.

Lemma elem_of_inventory_keys l k : k ∈ inventory_keys l ↔ ∃ i, i ∈ l ∧ id_key i = k.
Proof. unfold inventory_keys. rewrite elem_of_bset_of_list, list_elem_of_fmap. naive_solver. Qed.

Lemma range_bucket inv key :
  inv_ok inv → sequences_ok (inv_all inv) → key ∈ inventory_keys (inv_all inv) →
  inv_bucket sha256 inv (inv_range inv key.1 key.2) = bucket_for (inv_all inv) key.
Proof.
  intros Hok Hseq Hk. rewrite inv_bucket_id by (by apply inv_range_ok).
  pose proof Hk as (i & Hi & Hkey)%elem_of_inventory_keys. unfold sequences_ok in Hseq.
  rewrite Forall_forall in Hseq. pose proof (Hseq i Hi) as Hs.
  pose proof (bucket_start_range (ri_sequence i) ltac:(lia)).
  rewrite inv_range_key; [|done|by apply Forall_forall|subst key; apply bucket_start_aligned|subst key; cbn; lia].
  rewrite <-surjective_pairing. by apply id_bucket_for.
Qed.

(** One digest replaced or inserted in a list of digests by key. *)
Lemma put_bucket_fmap inv (f : string * Z → Bucket) (ks : list (string * Z)) key :
  inv_ok inv → sequences_ok (inv_all inv) → key ∈ inventory_keys (inv_all inv) →
  bset_wf ks → (∀ k, bk_key (f k) = k) →
  put_bucket inv (f <$> ks) key =
  (λ k, if eqb_ord k key then bucket_for (inv_all inv) k else f k) <$> bset_insert key ks.
Proof.
  intros Hok Hseq Hkey Hks Hf. unfold put_bucket. rewrite range_bucket by done.
  set (b := bucket_for (inv_all inv) key). set (g := λ k, if eqb_ord k key then _ else f k).
  assert (bk_key <$> (f <$> ks) = ks) as Hbk.
  { rewrite <-list_fmap_compose. rewrite <-(list_fmap_id ks) at 2. apply list_fmap_ext. intros ? k _. apply Hf. }
  assert (g key = b) as Hgk by (unfold g; by rewrite eqb_ord_refl).
  assert (∀ k, k ≠ key → g k = f k) as Hg by (intros k Hne; unfold g; by rewrite eqb_ord_ne).
  destruct (binary_search_by _ _) as [p|p] eqn:E.
  - apply (binary_search_Ok bk_key) in E as (x & Hx & Hxk). rewrite list_lookup_fmap in Hx.
    apply fmap_Some in Hx as (k & Ek & ->). rewrite Hf in Hxk. subst k.
    rewrite bset_insert_present by (done || by eapply list_elem_of_lookup_2).
    apply list_eq. intros j. rewrite list_lookup_fmap. destruct (decide (j = p)) as [->|Hj].
    + rewrite list_lookup_insert_eq, Ek; [cbn; by rewrite Hgk|]. rewrite length_fmap. by eapply lookup_lt_Some.
    + rewrite list_lookup_insert_ne, list_lookup_fmap by done. destruct (ks !! j) as [k|] eqn:Ej; cbn; [|done].
      f_equal. symmetry. apply Hg. intros ->. apply Hj. apply (NoDup_lookup ks j p key); [by apply bset_wf_NoDup|done..].
  - apply (binary_search_Err bk_key) in E as [Hn Hins]; [|by rewrite Hbk]. rewrite Hbk in Hn, Hins.
    assert (vec_insert p b (f <$> ks) = g <$> vec_insert p key ks) as Hvec.
    { unfold vec_insert. rewrite fmap_app, fmap_cons, Hgk, fmap_take, fmap_drop.
      assert (f <$> ks = g <$> ks) as ->; [|done]. apply list_fmap_ext.
      intros ? k Hk%list_elem_of_lookup_2. symmetry. apply Hg. intros ->. done. }
    rewrite Hvec. f_equal. rewrite <-(Hins b (bk_key_bucket_for _ key)), Hvec, <-list_fmap_compose.
    rewrite <-(list_fmap_id (vec_insert p key ks)) at 1. apply list_fmap_ext. intros ? k _. cbn.
    unfold g. destruct (eqb_ord k key); [by rewrite bk_key_bucket_for|by rewrite Hf].
Qed.

Lemma put_buckets_fmap inv (f : string * Z → Bucket) (ks ts : list (string * Z)) :
  inv_ok inv → sequences_ok (inv_all inv) → (∀ k, k ∈ ts → k ∈ inventory_keys (inv_all inv)) →
  bset_wf ks → (∀ k, bk_key (f k) = k) →
  foldl (put_bucket inv) (f <$> ks) ts =
  (λ k, if bset_mem k ts then bucket_for (inv_all inv) k else f k) <$> bset_extend ks ts.
Proof.
  intros Hok Hseq. revert f ks. induction ts as [|t ts IH]; intros f ks Hts Hks Hf; [done|].
  cbn [foldl]. rewrite put_bucket_fmap; [|done|done|apply Hts; left|done|done].
  rewrite IH; [|set_solver|by apply bset_insert_wf|].
  2: { intros k. destruct (eqb_ord k t); [apply bk_key_bucket_for|apply Hf]. }
  apply list_fmap_ext. intros ? k _. cbn. destruct (eqb_ord k t); cbn; [by destruct (bset_mem k ts)|done].
Qed.

(** Inserting identities leaves the ranges they do not belong to alone. *)
Lemma with_key_extend l adds k :
  bset_wf l → k ∉ id_key <$> adds → with_key id_key k (bset_extend l adds) = with_key id_key k l.
Proof.
  intros Hl Hk. apply bset_ext.
  - by apply StronglySorted_filter, bset_extend_wf.
  - by apply StronglySorted_filter.
  - intros i. rewrite !elem_of_with_key, elem_of_bset_extend, list_elem_of_fmap in *. naive_solver.
Qed.

Lemma bucket_for_extend l adds k :
  bset_wf l → k ∉ id_key <$> adds → bucket_for (bset_extend l adds) k = bucket_for l k.
Proof. intros Hl Hk. unfold bucket_for. by rewrite with_key_extend. Qed.

Lemma inventory_keys_extend l adds :
  bset_extend (inventory_keys l) (bset_of_list (id_key <$> adds)) = inventory_keys (bset_extend l adds).
Proof.
  apply bset_ext; [apply bset_extend_wf, bset_of_list_wf|apply bset_of_list_wf|].
  intros k. rewrite elem_of_bset_extend, elem_of_bset_of_list, !elem_of_inventory_keys, list_elem_of_fmap.
  setoid_rewrite elem_of_bset_extend. naive_solver.
Qed.

Lemma put_buckets_exact inv l adds :
  bset_wf l → inv_ok inv → sequences_ok (inv_all inv) → inv_all inv = bset_extend l adds →
  foldl (put_bucket inv) (bucket_for l <$> inventory_keys l) (bset_of_list (id_key <$> adds))
  = bucket_for (inv_all inv) <$> inventory_keys (inv_all inv).
Proof.
  intros Hl Hok Hseq Hall. rewrite put_buckets_fmap; [|done|done| |apply bset_of_list_wf|apply bk_key_bucket_for].
  - rewrite inventory_keys_extend, Hall. apply list_fmap_ext. intros ? k _.
    destruct (bset_mem k _) eqn:E; [done|]. apply bset_mem_false in E. rewrite elem_of_bset_of_list in E.
    symmetry. by apply bucket_for_extend.
  - intros k. rewrite elem_of_bset_of_list, list_elem_of_fmap, elem_of_inventory_keys, Hall.
    setoid_rewrite elem_of_bset_extend. naive_solver.
Qed.

(** ** Where the digest resumes *)

Definition key_before (k : string * Z) (k' : string * Z) : bool :=
  match cmp k' k with Lt => true | _ => false end.

Lemma key_before_spec k k' : key_before k k' = true ↔ lt_ord k' k.
Proof. unfold key_before, lt_ord. by destruct (cmp k' k). Qed.

Lemma key_before_partitioned k : partitioned lt_ord (key_before k).
Proof. intros x y Hxy. rewrite !key_before_spec. intros. by transitivity y. Qed.

Lemma partition_point_mono {A} (p q : A → bool) l :
  (∀ x, p x = true → q x = true) → (partition_point p l <= partition_point q l)%nat.
Proof.
  intros Hpq. induction l as [|x l IH]; cbn; [done|]. destruct (p x) eqn:E; [|lia]. rewrite (Hpq x E). lia.
Qed.

Lemma resume_from_least l k ts :
  bset_wf (k :: ts) →
  resume_from (bucket_for l <$> inventory_keys l) (k :: ts) = partition_point (key_before k) (inventory_keys l).
Proof.
  intros [Hk _]%StronglySorted_cons. unfold resume_from. rewrite fmap_cons.
  assert (∀ k', partition_point (λ existing, match cmp (bk_key existing) k' with Lt => true | _ => false end)
    (bucket_for l <$> inventory_keys l) = partition_point (key_before k') (inventory_keys l)) as Hpp.
  { intros k'. rewrite partition_point_fmap. apply partition_point_ext. intros x _. by rewrite bk_key_bucket_for. }
  rewrite Hpp. assert (∀ t, t ∈ ts → (partition_point (key_before k) (inventory_keys l) <=
    partition_point (key_before t) (inventory_keys l))%nat) as Hle.
  { rewrite Forall_forall in Hk. intros t Ht. apply partition_point_mono. intros x.
    rewrite !key_before_spec. intros. transitivity k; [done|]. by apply Hk. }
  clear Hk. induction ts as [|t ts IH]; [done|]. rewrite fmap_cons. cbn [foldl]. rewrite Hpp.
  rewrite Nat.min_l by (apply Hle; left). apply IH. set_solver.
Qed.

(** The ranges below every touched one are the same before and after. *)
Lemma inventory_keys_before l adds k :
  (∀ t, t ∈ id_key <$> adds → ¬ lt_ord t k) →
  take (partition_point (key_before k) (inventory_keys (bset_extend l adds))) (inventory_keys (bset_extend l adds)) =
  take (partition_point (key_before k) (inventory_keys l)) (inventory_keys l).
Proof.
  intros Hk. rewrite !(partition_point_take lt_ord) by (apply key_before_partitioned || apply bset_of_list_wf).
  apply bset_ext; [apply StronglySorted_filter, bset_of_list_wf..|].
  intros x. rewrite !filter_elem_of, key_before_spec, !elem_of_inventory_keys. setoid_rewrite elem_of_bset_extend.
  split; [|naive_solver]. intros [(i & [Hi|Hi] & <-) Hx]; [naive_solver|].
  destruct (Hk (id_key i)); [|done]. apply list_elem_of_fmap. eauto.
Qed.

Lemma take_partition_length {A} (p : A → bool) l : length (take (partition_point p l) l) = partition_point p l.
Proof. rewrite length_take. pose proof (partition_point_le p l). lia. Qed.

Lemma ranges_same l l' ks :
  (∀ k, k ∈ ks → with_key id_key k l = with_key id_key k l') → ranges l ks = ranges l' ks.
Proof. intros Hk. unfold ranges. f_equal. apply list_fmap_ext. intros ? k Hin%list_elem_of_lookup_2. by apply Hk. Qed.

(** Up to the first touched range the digest states are the same before and after. *)
Lemma digest_states_extend l adds k n m :
  bset_wf l → (∀ t, t ∈ id_key <$> adds → ¬ lt_ord t k) →
  n = partition_point (key_before k) (inventory_keys (bset_extend l adds)) → (m <= n)%nat →
  n = partition_point (key_before k) (inventory_keys l) ∧
  digest_states (bset_extend l adds) !! m = digest_states l !! m.
Proof.
  intros Hl Hk -> Hm. pose proof (inventory_keys_before l adds k Hk) as Htake.
  assert (partition_point (key_before k) (inventory_keys (bset_extend l adds)) =
          partition_point (key_before k) (inventory_keys l)) as Hn.
  { by rewrite <-take_partition_length, Htake, take_partition_length. }
  split; [done|]. rewrite <-Hn in Htake.
  pose proof (partition_point_le (key_before k) (inventory_keys l)).
  pose proof (partition_point_le (key_before k) (inventory_keys (bset_extend l adds))).
  unfold digest_states. rewrite !prefix_states_lookup by lia. do 4 f_equal.
  assert (take m (inventory_keys (bset_extend l adds)) = take m (inventory_keys l)) as ->.
  { rewrite <-(Nat.min_l m (partition_point (key_before k) (inventory_keys (bset_extend l adds)))) by done.
    by rewrite <-!take_take, Htake. }
  apply ranges_same. intros k' Hin. apply with_key_extend; [done|]. intros Ht. apply (Hk k' Ht).
  apply key_before_spec. apply (filter_elem_of (key_before k) (inventory_keys l) k').
  rewrite <-(partition_point_take lt_ord _ (inventory_keys l) (key_before_partitioned k) (bset_of_list_wf _)), <-Hn.
  rewrite <-(Nat.min_l m (partition_point (key_before k) (inventory_keys (bset_extend l adds)))) in Hin by done.
  rewrite <-take_take in Hin. apply elem_of_take in Hin as (j & Hj & _). by eapply list_elem_of_lookup_2.
Qed.

(** ** Snapshots that say what the tables hold *)

Record snapshot_ok (held : list (Z * ReplicaEnvelopeId)) (dropped : list ReplicaEnvelopeId) (sn : Snapshot) : Prop := {
  so_inventory : inventory_of held dropped (sn_inventory sn);
  so_digest : iv_digest (sn_inventory sn) = inventory_digest (inv_all (sn_inventory sn));
  so_buckets : sn_buckets sn = test_replication_buckets (inv_all (sn_inventory sn));
  so_prefixes : sn_digest_prefixes sn = digest_states (inv_all (sn_inventory sn));
  so_rows : sn_envelope_rows sn = length held;
  so_max : max_rowid_of held (sn_max_envelope_rowid sn)
}.

Lemma inventory_of_digest held dropped inv d :
  inventory_of held dropped inv → inventory_of held dropped (with_digest inv d).
Proof. by intros [[? ? ? ?] ?]. Qed.

Lemma full_snapshot_ok t : tables_ok (tb_held t) (tb_dropped t) → snapshot_ok (tb_held t) (tb_dropped t) (full_snapshot t).
Proof.
  intros Ht. unfold full_snapshot. pose proof (load_inventory_of _ _ Ht) as Hload.
  destruct (load_compact_replication_inventory _ _) as [[inv m] n]. destruct Hload as (Hinv & Hm & ->).
  pose proof (proj1 Hinv) as Hok. pose proof (ok_sorted _ Hok) as Hs.
  rewrite (inv_buckets_public inv Hok), test_replication_buckets_keys by done.
  rewrite (resume_digest_exact inv [] 0); [|done|cbn; lia|done| |].
  - split; [by apply inventory_of_digest|done| |done..].
    symmetry. by apply test_replication_buckets_keys.
  - cbn. unfold digest_states. by destruct (inventory_keys (inv_all inv)).
  - cbn. intros <-. done.
Qed.

Lemma add_rows adds : ∀ inv touched m,
  foldl add_row (inv, touched, m) adds =
  (foldl inv_insert inv (snd <$> adds), bset_extend touched (id_key <$> (snd <$> adds)), foldl Z.max m (fst <$> adds)).
Proof. induction adds as [|row adds IH]; intros inv touched m; cbn; [done|]. by rewrite IH. Qed.

Lemma insert_all ids : ∀ inv (names : list ReplicaEnvelopeId),
  inv_ok inv → (∀ i, i ∈ inv_all inv → i ∈ names) → (∀ i, i ∈ ids → i ∈ names) →
  (∀ i j, i ∈ names → j ∈ names → ri_hash i = ri_hash j → i = j) →
  inv_ok (foldl inv_insert inv ids) ∧ inv_all (foldl inv_insert inv ids) = bset_extend (inv_all inv) ids ∧
  sendable (foldl inv_insert inv ids) = bset_extend (sendable inv) ids.
Proof.
  induction ids as [|i ids IH]; intros inv names Hok Hall Hids Hinj; [done|]. cbn [foldl].
  assert (hashes_name (inv_all inv) i) as Hn.
  { intros j Hj Hh. apply Hinj; [by apply Hall|apply Hids; left|done]. }
  destruct (inv_insert_view inv i Hok) as (Hok' & Hall' & _).
  destruct (IH (inv_insert inv i) names Hok') as (? & -> & ->); [|set_solver|done|].
  - rewrite Hall'. intros j [-> |Hj]%elem_of_bset_insert; [apply Hids; left|by apply Hall].
  - split; [done|]. rewrite Hall', inv_insert_sendable by done. done.
Qed.

Lemma inventory_of_extend held dropped adds inv :
  inventory_of held dropped inv → tables_ok (held ++ adds)%list dropped →
  inventory_of (held ++ adds)%list dropped (foldl inv_insert inv (snd <$> adds)) ∧
  inv_all (foldl inv_insert inv (snd <$> adds)) = bset_extend (inv_all inv) (snd <$> adds).
Proof.
  intros (Hok & Hall & Hsend) [_ _ Hinj].
  destruct (insert_all (snd <$> adds) inv ((snd <$> (held ++ adds)) ++ dropped)%list Hok) as (Hok' & Hall' & Hsend').
  - intros i. rewrite Hall, elem_of_bset_of_list, fmap_app. set_solver.
  - intros i. rewrite fmap_app. set_solver.
  - done.
  - split; [|done]. split; [done|]. rewrite Hall', Hsend', Hall, Hsend. split.
    + apply bset_ext; [apply bset_extend_wf, bset_of_list_wf|apply bset_of_list_wf|].
      intros i. rewrite elem_of_bset_extend, !elem_of_bset_of_list, fmap_app, !elem_of_app. tauto.
    + apply bset_ext; [apply bset_extend_wf, bset_of_list_wf|apply bset_of_list_wf|].
      intros i. by rewrite elem_of_bset_extend, !elem_of_bset_of_list, fmap_app, elem_of_app.
Qed.

Lemma max_rowid_extend held adds m :
  max_rowid_of held m → max_rowid_of (held ++ adds)%list (foldl Z.max m (fst <$> adds)).
Proof.
  intros (H1 & H2 & H3). destruct (foldl_max (fst <$> adds) m) as (F1 & F2 & F3). split_and!; [lia| |].
  - intros row [Hr|Hr]%elem_of_app; [specialize (H2 row Hr); lia|]. apply F2, list_elem_of_fmap. eauto.
  - rewrite fmap_app, elem_of_app. destruct F3 as [->|F3]; tauto.
Qed.

(** ** Extending a snapshot *)

Lemma snapshot_perm held held' dropped sn :
  held ≡ₚ held' → snapshot_ok held dropped sn → snapshot_ok held' dropped sn.
Proof.
  intros Hp [(Hok & Hall & Hsend) ? ? ? Hrows (M1 & M2 & M3)].
  assert (∀ i, i ∈ snd <$> held ↔ i ∈ snd <$> held') as Hin by (intros i; by rewrite Hp).
  split; [|done..| |].
  - split; [done|]. rewrite Hall, Hsend. split; apply bset_of_list_same; intros i; rewrite ?elem_of_app; by rewrite Hin.
  - by rewrite Hrows, Hp.
  - split_and!; [done|intros row Hr; apply M2; by rewrite Hp|by rewrite <-Hp].
Qed.

Lemma bset_extend_nil_of_list `{Ord A} (l : list A) : bset_extend [] l = bset_of_list l.
Proof. done. Qed.

Lemma partition_point_present k ks : k ∈ ks → (partition_point (key_before k) ks < length ks)%nat.
Proof.
  induction ks as [|x ks IH]; [set_solver|]. intros [<-|Hk]%elem_of_cons; cbn.
  - destruct (key_before k k) eqn:E; [|lia]. apply key_before_spec in E. by apply lt_ord_irrefl in E.
  - specialize (IH Hk). destruct (key_before k x); lia.
Qed.

(** The least touched range. *)
Lemma least_touched adds k ts :
  bset_of_list (id_key <$> adds) = k :: ts →
  bset_wf (k :: ts) ∧ k ∈ id_key <$> adds ∧ ∀ t, t ∈ id_key <$> adds → ¬ lt_ord t k.
Proof.
  intros Et. pose proof (bset_of_list_wf (id_key <$> adds)) as Hts. rewrite Et in Hts. split; [done|].
  split; [apply elem_of_bset_of_list; rewrite Et; left|].
  intros t Ht. apply (elem_of_bset_of_list t) in Ht. rewrite Et in Ht.
  apply StronglySorted_cons in Hts as [Hk _]. rewrite Forall_forall in Hk.
  apply elem_of_cons in Ht as [->|Ht]; [apply lt_ord_irrefl|]. by apply lt_ord_asym, Hk.
Qed.

(** Resuming after inserting identities gives the digest of everything. *)
Lemma resume_digest_extend inv0 inv adds :
  inv_ok inv0 → inv_ok inv → inv_all inv = bset_extend (inv_all inv0) adds →
  (adds = [] → iv_digest inv = inventory_digest (inv_all inv)) →
  resume_digest inv (bucket_for (inv_all inv) <$> inventory_keys (inv_all inv)) (digest_states (inv_all inv0))
    (resume_from (bucket_for (inv_all inv) <$> inventory_keys (inv_all inv)) (bset_of_list (id_key <$> adds)))
  = (with_digest inv (inventory_digest (inv_all inv)), digest_states (inv_all inv)).
Proof.
  intros [_ _ Hl0 _] [_ _ Hl _] Hall Hdigest.
  destruct (bset_of_list (id_key <$> adds)) as [|k ts] eqn:Et.
  - assert (adds = []) as ->.
    { destruct adds as [|i adds]; [done|]. assert (id_key i ∈ bset_of_list (id_key <$> i :: adds)) as Hin.
      { apply elem_of_bset_of_list. left. }
      rewrite Et in Hin. set_solver. }
    cbn in Hall. rewrite <-Hall. cbn [resume_from fmap list_fmap]. rewrite length_fmap.
    apply resume_digest_exact; [done| |done|done|auto].
    unfold digest_states. rewrite length_prefix_states. lia.
  - destruct (least_touched _ _ _ Et) as (Hts & Hk & Hleast). rewrite resume_from_least by done.
    assert (k ∈ inventory_keys (inv_all inv)) as Hkin.
    { apply list_elem_of_fmap in Hk as (i & -> & Hi). apply elem_of_inventory_keys. exists i.
      rewrite Hall, elem_of_bset_extend. auto. }
    set (n := partition_point (key_before k) (inventory_keys (inv_all inv))).
    assert (∀ m, (m <= n)%nat → n = partition_point (key_before k) (inventory_keys (inv_all inv0)) ∧
      digest_states (inv_all inv) !! m = digest_states (inv_all inv0) !! m) as Hsame.
    { intros m Hm. unfold n in *. rewrite Hall in *. by eapply digest_states_extend. }
    assert (Nat.min n (length (digest_states (inv_all inv0)) - 1) = n) as Hf.
    { unfold digest_states. rewrite length_prefix_states. destruct (Hsame 0%nat ltac:(lia)) as [E _].
      pose proof (partition_point_le (key_before k) (inventory_keys (inv_all inv0))). lia. }
    apply resume_digest_exact; rewrite ?Hf; [done|apply partition_point_le| | |].
    + apply list_eq. intros m. destruct (decide (m < n)%nat) as [Hm|Hm].
      * rewrite !lookup_take_lt by done. symmetry. apply Hsame. lia.
      * by rewrite !lookup_take_ge by lia.
    + f_equal. symmetry. by apply Hsame.
    + intros Hn. pose proof (partition_point_present _ _ Hkin). unfold n in Hn. lia.
Qed.

Record tables_valid (t : Tables) : Prop := {
  tv_tables : tables_ok (tb_held t) (tb_dropped t);
  tv_sequences : sequences_ok ((snd <$> tb_held t) ++ tb_dropped t)%list;
  tv_rowids : NoDup (fst <$> tb_held t);
  tv_positive row : row ∈ tb_held t → (1 <= row.1)%Z
}.

Lemma filter_perm {A} (f : A → bool) (l l' : list A) : l ≡ₚ l' → List.filter f l ≡ₚ List.filter f l'.
Proof.
  induction 1 as [|x l l' Hp IH|x y l|l1 l2 l3 H1 IH1 H2 IH2]; cbn; [done| | |by etrans].
  - destruct (f x); by rewrite IH.
  - destruct (f x), (f y); try done. apply Permutation_swap.
Qed.

Lemma additions_perm old new held m :
  held ≡ₚ (old ++ new)%list → max_rowid_of old m → (∀ row, row ∈ new → (m < row.1)%Z) →
  sort_on fst (List.filter (λ row : Z * ReplicaEnvelopeId, m <? row.1)%Z held) ≡ₚ new.
Proof.
  intros Hp (_ & Hm & _) Hnew. rewrite sort_on_perm, (filter_perm _ _ _ Hp), List.filter_app.
  rewrite (filter_ext_in' _ (λ _, false) old), (filter_ext_in' _ (λ _, true) new), List.filter_false, List.filter_true.
  - done.
  - intros row Hr. by apply Z.ltb_lt, Hnew.
  - intros row Hr. apply Z.ltb_ge. by apply Hm.
Qed.

Lemma build_extends p t old new :
  tables_valid t → snapshot_ok old (tb_dropped t) p → tb_held t ≡ₚ (old ++ new)%list →
  (∀ row, row ∈ new → (sn_max_envelope_rowid p < row.1)%Z) → tb_generation t = sn_inventory_generation p →
  snapshot_ok (tb_held t) (tb_dropped t) (build_replication_snapshot (Some p) t).
Proof.
  intros [Ht Hseq _ _] Hp Hheld Hnew Hgen. unfold build_replication_snapshot. rewrite (proj2 (Z.eqb_eq _ _) Hgen).
  pose proof (additions_perm _ _ _ _ Hheld (so_max _ _ _ Hp) Hnew) as Hadds.
  set (adds := sort_on fst _) in *. rewrite add_rows.
  rewrite <-Hadds in Hheld. apply (snapshot_perm (old ++ adds)%list); [done|].
  assert (tables_ok (old ++ adds)%list (tb_dropped t)) as Ht'.
  { destruct Ht as [H1 H2 H3]. split; [by rewrite <-Hheld|done|]. intros i j. rewrite <-Hheld. apply H3. }
  destruct Hp as [Hinv Hd Hb Hpre Hrows Hmax].
  destruct (inventory_of_extend _ _ adds _ Hinv Ht') as [Hinv' Hall'].
  assert (sequences_ok (inv_all (foldl inv_insert (sn_inventory p) (snd <$> adds)))) as Hseq'.
  { unfold sequences_ok in *. rewrite Forall_forall in Hseq |- *. intros i.
    destruct Hinv' as (_ & -> & _). rewrite elem_of_bset_of_list, <-Hheld. apply Hseq. }
  pose proof (proj1 Hinv) as Hok. pose proof (proj1 Hinv') as Hok'.
  set (inv := foldl inv_insert (sn_inventory p) (snd <$> adds)) in *.
  rewrite Hb, test_replication_buckets_keys by (apply Hok). rewrite bset_extend_nil_of_list.
  rewrite (put_buckets_exact inv _ (snd <$> adds)) by (done || apply Hok).
  rewrite Hpre, (resume_digest_extend (sn_inventory p) inv (snd <$> adds)); [|done|done|done|].
  - split; [by apply inventory_of_digest|done| |done| |].
    + symmetry. apply test_replication_buckets_keys, Hok'.
    + cbn. rewrite Hrows, length_app. done.
    + cbn. by apply max_rowid_extend.
  - intros E%fmap_nil_inv. unfold inv. by rewrite E.
Qed.

(** ** Changes and snapshots in any order *)

Record System := { sy_tables : Tables; sy_cache : option Snapshot }.

Inductive sys_step : System → System → Prop :=
| step_table op s :
    tables_valid (table_apply op (sy_tables s)) →
    sys_step s {| sy_tables := table_apply op (sy_tables s); sy_cache := sy_cache s |}
| step_build s :
    sys_step s {| sy_tables := sy_tables s;
                  sy_cache := Some (build_replication_snapshot (sy_cache s) (sy_tables s)) |}
| step_forget s : sys_step s {| sy_tables := sy_tables s; sy_cache := None |}.

(** The cached snapshot is of the rows up to its highest rowid, unless the generation moved on. *)
Definition cache_ok (t : Tables) (p : Snapshot) : Prop :=
  (sn_inventory_generation p <= tb_generation t)%Z ∧
  (tb_generation t = sn_inventory_generation p →
   ∃ old new, tb_held t ≡ₚ (old ++ new)%list ∧ snapshot_ok old (tb_dropped t) p ∧
     ∀ row, row ∈ new → (sn_max_envelope_rowid p < row.1)%Z).
Definition coherent (s : System) : Prop :=
  tables_valid (sy_tables s) ∧ match sy_cache s with Some p => cache_ok (sy_tables s) p | None => True end.

Lemma build_ok s : coherent s → let t := sy_tables s in
  snapshot_ok (tb_held t) (tb_dropped t) (build_replication_snapshot (sy_cache s) t).
Proof.
  intros [Ht Hc] t. destruct (sy_cache s) as [p|]; [|by apply full_snapshot_ok, Ht].
  destruct Hc as [_ Hc]. destruct (decide (tb_generation t = sn_inventory_generation p)) as [E|E].
  - destruct (Hc E) as (old & new & ? & ? & ?). by eapply build_extends.
  - unfold build_replication_snapshot. rewrite (proj2 (Z.eqb_neq _ _) E). by apply full_snapshot_ok, Ht.
Qed.

Lemma build_generation c t : sn_inventory_generation (build_replication_snapshot c t) = tb_generation t.
Proof.
  assert (sn_inventory_generation (full_snapshot t) = tb_generation t) as Hf.
  { unfold full_snapshot. destruct (load_compact_replication_inventory _ _) as [[? ?] ?]. by destruct (resume_digest _ _ _ _). }
  destruct c as [p|]; [|done]. unfold build_replication_snapshot. case_match; [|done].
  destruct (foldl add_row _ _) as [[? ?] ?]. by destruct (resume_digest _ _ _ _).
Qed.

Lemma existsb_not {A} (p : A → bool) l : existsb p l = false → ∀ x, x ∈ l → p x = false.
Proof. intros E x Hx. apply not_true_iff_false. intros Hp. apply not_true_iff_false in E. apply E, existsb_elem_of. eauto. Qed.

(** A change that does not move the generation leaves the tables alone or appends. *)
Lemma table_apply_quiet op t :
  let t' := table_apply op t in
  tb_generation t' = (tb_generation t + 1)%Z ∨
  (tb_generation t' = tb_generation t ∧ tb_dropped t' = tb_dropped t ∧
   (tb_held t' = tb_held t ∨
    ∃ rowid i, tb_held t' = (tb_held t ++ [(rowid, i)])%list ∧ ∀ row, row ∈ tb_held t → (row.1 <= rowid)%Z)).
Proof.
  destruct op as [rowid i|rowid|rowid rowid' i'|i|i|i i']; cbn.
  - destruct (existsb _ (tb_held t ++ _)) eqn:E; [by left|]. right. split_and!; [done..|]. right.
    exists rowid, i. split; [done|]. intros row Hr. apply Z.ltb_ge. apply (existsb_not _ _ E row). set_solver.
  - destruct (existsb _ _) eqn:E; [by left|]. right. split_and!; [done..|]. left.
    rewrite (filter_ext_in' _ (λ _, true)); [apply List.filter_true|]. intros row Hr.
    by rewrite (existsb_not _ _ E row Hr).
  - destruct (existsb _ _) eqn:E; [by left|]. right. split_and!; [done..|]. left.
    rewrite <-(list_fmap_id (tb_held t)) at 2. apply list_fmap_ext. intros ? [r j] Hr%list_elem_of_lookup_2.
    pose proof (existsb_not _ _ E _ Hr) as Hn. cbn in *. destruct (Z.eqb_spec r rowid); [|done]. cbn in Hn.
    apply negb_false_iff, andb_true_iff in Hn as [->%Z.eqb_eq ->%eqb_ord_true]. done.
  - by left.
  - destruct (existsb _ _) eqn:E; [by left|]. right. split_and!; [done| |by left].
    rewrite (filter_ext_in' _ (λ _, true)); [apply List.filter_true|]. intros j Hj.
    by rewrite (existsb_not _ _ E j Hj).
  - destruct (existsb _ _) eqn:E; [by left|]. right. split_and!; [done| |by left].
    rewrite <-(list_fmap_id (tb_dropped t)) at 2. apply list_fmap_ext. intros ? j Hj%list_elem_of_lookup_2.
    pose proof (existsb_not _ _ E _ Hj) as Hn. cbn in *. destruct (eqb_ord_spec j i); [|done]. cbn in Hn.
    by apply negb_false_iff, eqb_ord_true in Hn.
Qed.

Lemma table_step_cache op t p :
  tables_valid (table_apply op t) → cache_ok t p → cache_ok (table_apply op t) p.
Proof.
  intros Hv [Hle Hc]. destruct (table_apply_quiet op t) as [Hg|(Hg & Hd & Hheld)].
  { unfold cache_ok. rewrite Hg. split; [lia|]. intros. lia. }
  unfold cache_ok. rewrite Hg, Hd. split; [done|]. intros E. destruct (Hc E) as (old & new & Hp & Hok & Hnew).
  destruct Hheld as [->|(rowid & i & Hheld & Hmax)]; [by exists old, new|].
  destruct Hv as [_ _ Hrow Hpos]. rewrite Hheld in *.
  exists old, (new ++ [(rowid, i)])%list. split; [by rewrite Hp, app_assoc|]. split; [done|].
  intros row [Hr| ->%list_elem_of_singleton]%elem_of_app; [by apply Hnew|].
  destruct (so_max _ _ _ Hok) as (_ & _ & [->|Hin]); cbn.
  - pose proof (Hpos (rowid, i)) as H1. cbn in H1. assert (1 <= rowid)%Z; [|lia]. apply H1. set_solver.
  - apply list_elem_of_fmap in Hin as (row & -> & Hr).
    assert (row ∈ tb_held t) as Hr' by (rewrite Hp; set_solver). pose proof (Hmax row Hr').
    assert (row.1 ≠ rowid); [|lia]. intros <-. rewrite fmap_app in Hrow. apply NoDup_app in Hrow as (_ & Hn & _).
    apply (Hn row.1); [apply list_elem_of_fmap; eauto|]. left.
Qed.

Lemma sys_step_coherent s s' : sys_step s s' → coherent s → coherent s'.
Proof.
  intros [op s0 Hv|s0|s0] [Ht Hc]; [|..]; split; cbn; try done.
  - destruct (sy_cache s0); [|done]. by apply table_step_cache.
  - split; rewrite build_generation; [done|]. intros _. exists (tb_held (sy_tables s0)), [].
    split; [by rewrite app_nil_r|]. split; [by apply build_ok|]. set_solver.
Qed.

Lemma reachable_coherent s s' : rtc sys_step s s' → coherent s → coherent s'.
Proof. induction 1; eauto using sys_step_coherent. Qed.

Lemma max_rowid_unique held m m' : max_rowid_of held m → max_rowid_of held m' → m = m'.
Proof.
  intros (H1 & H2 & H3) (H1' & H2' & H3').
  assert (∀ a b, (0 <= b)%Z → (∀ row, row ∈ held → (row.1 <= b)%Z) → (a = 0%Z ∨ a ∈ fst <$> held) → (a <= b)%Z) as Hle.
  { intros a b Hb Hall [->|(row & -> & Hr)%list_elem_of_fmap]; [done|by apply Hall]. }
  apply Z.le_antisymm; eauto.
Qed.

(** C11: Whatever changes the tables see and whenever snapshots were built before, the
    snapshot [build_replication_snapshot] makes, extended from the cached one when the
    generation allows it, says what one read in full from the tables says: the same
    identities, the same payloads, the same inventory digest, range digests and digest
    states, row count and highest rowid. *)
Theorem snapshot_coherent t s :
  tables_valid t → rtc sys_step {| sy_tables := t; sy_cache := None |} s →
  let built := build_replication_snapshot (sy_cache s) (sy_tables s) in
  let full := full_snapshot (sy_tables s) in
  inv_all (sn_inventory built) = inv_all (sn_inventory full) ∧
  sendable (sn_inventory built) = sendable (sn_inventory full) ∧
  iv_digest (sn_inventory built) = iv_digest (sn_inventory full) ∧
  sn_buckets built = sn_buckets full ∧
  sn_digest_prefixes built = sn_digest_prefixes full ∧
  sn_envelope_rows built = sn_envelope_rows full ∧
  sn_max_envelope_rowid built = sn_max_envelope_rowid full ∧
  sn_inventory_generation built = sn_inventory_generation full.
Proof.
  intros Ht Hs built full. assert (coherent s) as Hc by (eapply reachable_coherent; [done|by split]).
  pose proof (build_ok s Hc) as [(_ & A1 & A2) B C D E F]. fold built in A1, A2, B, C, D, E, F.
  destruct (full_snapshot_ok (sy_tables s)) as [(_ & A1' & A2') B' C' D' E' F']; [apply Hc|].
  fold full in A1', A2', B', C', D', E', F'.
  assert (inv_all (sn_inventory built) = inv_all (sn_inventory full)) as Hall by congruence.
  rewrite Hall in B, C, D. rewrite A2, B, C, D, E, A2', B', C', D', E'. split_and!; [done..| |].
  - by eapply max_rowid_unique.
  - unfold built. rewrite build_generation. symmetry. apply (build_generation None).
Qed.

(** A snapshot read from the tables lists every identity either table holds, in order
    and once; sends exactly those with a row in [replica_envelopes]; has one digest per
    range, equal to the digest computed from the public identities; and its inventory
    digest is the digest of all of them. *)
Theorem full_snapshot_exact t :
  tables_valid t →
  let full := full_snapshot t in
  let all := bset_of_list ((snd <$> tb_held t) ++ tb_dropped t)%list in
  inv_all (sn_inventory full) = all ∧ sendable (sn_inventory full) = bset_of_list (snd <$> tb_held t) ∧
  sn_buckets full = test_replication_buckets all ∧
  iv_digest (sn_inventory full) = identity_digest sha256 INVENTORY_DIGEST_DOMAIN all ∧
  sn_envelope_rows full = length (tb_held t).
Proof.
  intros Ht full all. destruct (full_snapshot_ok t) as [(_ & A1 & A2) B C _ E _]; [apply Ht|].
  fold full in A1, A2, B, C, E. rewrite B, C, A1. done.
Qed.
End laws.
End snapshot.

(** ** Witnesses *)

Definition tables_check (t : Tables) : bool :=
  let ids := ((snd <$> tb_held t) ++ tb_dropped t)%list in
  bool_decide (NoDup (snd <$> tb_held t)) && bool_decide (NoDup (tb_dropped t)) &&
  bool_decide (Forall (λ i, Forall (λ j, ri_hash i = ri_hash j → i = j) ids) ids) &&
  bool_decide (Forall (λ i, (0 <= ri_sequence i < u64_max)%Z) ids) &&
  bool_decide (NoDup (fst <$> tb_held t)) && bool_decide (Forall (λ row, (1 <= row.1)%Z) (tb_held t)).

Lemma tables_check_valid t : tables_check t = true → tables_valid t.
Proof.
  unfold tables_check. intros Hc. bool_prop. split; [split| | |]; [done|done| |done|done|].
  - intros i j Hi Hj. match goal with Hf : Forall (λ _, Forall _ _) _ |- _ => rewrite Forall_forall in Hf; pose proof (Hf i Hi) as Hj' end.
    rewrite Forall_forall in Hj'. by apply Hj'.
  - by apply Forall_forall.
Qed.

Definition demo_tables : Tables := {| tb_held := demo_held; tb_dropped := demo_dropped; tb_generation := 4 |}.
Definition demo_start : System := {| sy_tables := demo_tables; sy_cache := None |}.
Definition demo_cached : System :=
  {| sy_tables := demo_tables; sy_cache := Some (build_replication_snapshot demo_digest None demo_tables) |}.
Definition demo_append : TableOp := InsertEnvelope 3 (demo_id "oak" 1 "not-a-hash").
Definition demo_appended : System :=
  {| sy_tables := table_apply demo_append demo_tables; sy_cache := sy_cache demo_cached |}.

Lemma snapshot_coherent_witness :
  let built := build_replication_snapshot demo_digest (sy_cache demo_appended) (sy_tables demo_appended) in
  sn_buckets built = sn_buckets (full_snapshot demo_digest (sy_tables demo_appended)) ∧
  sn_inventory_generation built = 4%Z ∧ length (sn_buckets built) = 3%nat.
Proof.
  split; [|by vm_compute].
  apply (snapshot_coherent demo_digest demo_tables demo_appended).
  - apply tables_check_valid. by vm_compute.
  - eapply rtc_l; [apply (step_build demo_digest demo_start)|].
    eapply rtc_l; [|apply rtc_refl]. apply (step_table demo_digest demo_append demo_cached).
    apply tables_check_valid. by vm_compute.
Defined.

Lemma full_snapshot_exact_witness :
  sendable (sn_inventory (full_snapshot demo_digest demo_tables)) = bset_of_list (snd <$> demo_held).
Proof. apply (full_snapshot_exact demo_digest demo_tables). apply tables_check_valid. by vm_compute. Defined.
