(* ===== verification/Difference.v ===== *)
(** * Comparing two inventories (crates/smallclaims/src/store.rs,
    [compact_replication_difference_turn], [replication_inventory_difference] and
    [export_replication_difference])

    A peer sends one digest per range, and the identities of some ranges.  From that a
    node computes which of its envelopes to send, which of its own ranges to list in
    return, and how many envelopes either side lacks.  The theorems compare these
    answers with what the peer really holds. *)

From S2P Require Import Prelude BTree Json Digests Slices Inventory Snapshot.

Local Open Scope string_scope.

(** [ReplicationInventory], less the fields the comparison does not read. *)
Record ReplicationInventory := {
  rv_digest : string;
  rv_envelopes : list ReplicaEnvelopeId;
  rv_buckets : list Bucket;
  rv_accepts : option Z
}.

Definition REPLICATION_EXCHANGE_ENVELOPE_LIMIT : nat := 512.
Definition REPLICATION_PAGE_LIMIT : Z := 4096.

Definition replication_page_limit (remote : ReplicationInventory) : nat :=
  match rv_accepts remote with
  | None => REPLICATION_EXCHANGE_ENVELOPE_LIMIT
  | Some accepts => Z.to_nat (Z.min (Z.max accepts 1) REPLICATION_PAGE_LIMIT)
  end.

Definition GOLDEN : Z := 11400714819323198485%Z. (* 0x9E37_79B9_7F4A_7C15 *)
Definition listing_turn_start (turn len : nat) : nat :=
  Z.to_nat (Z.shiftr ((Z.of_nat turn * GOLDEN) mod 2 ^ 64 * Z.of_nat len) 64).

(** The maps both comparisons begin with: digests and listed identities by range. *)
Definition buckets_by_key (buckets : list Bucket) : BTreeMap (string * Z) Bucket :=
  foldl (λ m b, bmap_insert (bk_key b) b m) [] buckets.
Definition listed_by_key (envelopes : list ReplicaEnvelopeId) : BTreeMap (string * Z) (list ReplicaEnvelopeId) :=
  foldl (λ m i, bmap_entry (id_key i) [] (λ l, l ++ [i])%list m) [] envelopes.

Section difference.
Context `{Hex}.
Variable sha256 : list ascii → list ascii.

(** [replication_bucket_digest] *)
Definition replication_bucket_digest (l : list ReplicaEnvelopeId) : string :=
  identity_digest sha256 BUCKET_DIGEST_DOMAIN l.

(** The peer's listing of a range, sorted and without duplicates, when it is complete. *)
Definition complete_listing (listed : BTreeMap (string * Z) (list ReplicaEnvelopeId)) (theirs : Bucket)
    : option (list ReplicaEnvelopeId) :=
  match bmap_get (bk_key theirs) listed with
  | None => None
  | Some known =>
      let known := bset_of_list known in
      if negb (Z.of_nat (length known) =? bk_count theirs)%Z ||
         negb (String.eqb (replication_bucket_digest known) (bk_digest theirs))
      then None else Some known
  end.

Section turn.
Context (inv : CompactInventory) (remote_buckets : BTreeMap (string * Z) Bucket)
        (remote_listed : BTreeMap (string * Z) (list ReplicaEnvelopeId)) (page_limit : nat).

(** One range of the loop: the envelopes to send so far, and the differing ranges with
    and without a payload. *)
Definition turn_step (s : list ReplicaEnvelopeId * list Bucket * list Bucket) (bucket : Bucket)
    : list ReplicaEnvelopeId * list Bucket * list Bucket :=
  let '(missing, live, payloadless) := s in
  let local := inv_range inv (bk_writer bucket) (bk_start bucket) in
  let room := (page_limit - length missing)%nat in
  match bmap_get (bk_key bucket) remote_buckets with
  | None => ((missing ++ take room (identities inv (List.filter (has_payload inv) local)))%list, live, payloadless)
  | Some theirs =>
      if String.eqb (bk_digest theirs) (bk_digest bucket) then (missing, live, payloadless)
      else
        let '(live, payloadless) :=
          if existsb (has_payload inv) local then ((live ++ [bucket])%list, payloadless)
          else (live, (payloadless ++ [bucket])%list) in
        match complete_listing remote_listed theirs with
        | None => (missing, live, payloadless)
        | Some known =>
            ((missing ++ take room
               (snd <$> List.filter (λ p : CompactEnvelopeId * ReplicaEnvelopeId,
                  has_payload inv p.1 && negb (bset_mem p.2 known)) (zip local (identities inv local))))%list,
             live, payloadless)
        end
  end.
End turn.

(** The listing: whole ranges while they fit, the first one always. *)
Fixpoint list_ranges (inv : CompactInventory) (listing_limit : nat) (listed : list ReplicaEnvelopeId)
    (buckets : list Bucket) : list ReplicaEnvelopeId :=
  match buckets with
  | [] => listed
  | b :: rest =>
      let range := inv_range inv (bk_writer b) (bk_start b) in
      if negb (Nat.eqb (length listed) 0) && (listing_limit <? length listed + length range)%nat then listed
      else list_ranges inv listing_limit (listed ++ identities inv range)%list rest
  end.

Definition compact_replication_difference_turn (inv : CompactInventory) (buckets : list Bucket)
    (remote : ReplicationInventory) (listing_limit turn : nat)
    : list ReplicaEnvelopeId * list ReplicaEnvelopeId :=
  let '(missing, live, payloadless) :=
    foldl (turn_step inv (buckets_by_key (rv_buckets remote)) (listed_by_key (rv_envelopes remote))
             (replication_page_limit remote)) ([], [], []) buckets in
  let live := rotate_left (listing_turn_start turn (length live)) live in
  let payloadless := rotate_left (listing_turn_start turn (length payloadless)) payloadless in
  (missing, list_ranges inv listing_limit [] (live ++ payloadless)%list).

Definition compact_replication_difference (inv : CompactInventory) (buckets : list Bucket)
    (remote : ReplicationInventory) (listing_limit : nat) : list ReplicaEnvelopeId * list ReplicaEnvelopeId :=
  compact_replication_difference_turn inv buckets remote listing_limit 0.

(** ** Counting *)

Section count.
Context (inv : CompactInventory) (local_buckets : BTreeMap (string * Z) Bucket)
        (remote_listed : BTreeMap (string * Z) (list ReplicaEnvelopeId)).

Definition count_step (s : BTreeSet (string * Z) * Z * Z) (theirs : Bucket) : BTreeSet (string * Z) * Z * Z :=
  let '(shared, peer_only, local_only) := s in
  match bmap_get (bk_key theirs) local_buckets with
  | None => (shared, (peer_only + bk_count theirs)%Z, local_only)
  | Some ours =>
      let shared := bset_insert (bk_key theirs) shared in
      if String.eqb (bk_digest ours) (bk_digest theirs) then (shared, peer_only, local_only)
      else
        match complete_listing remote_listed theirs with
        | Some known =>
            let local := identities inv (inv_range inv (bk_writer ours) (bk_start ours)) in
            (shared,
             (peer_only + Z.of_nat (length (List.filter (λ i, negb (bset_mem i local)) known)))%Z,
             (local_only + Z.of_nat (length (List.filter (λ i, negb (bset_mem i known)) local)))%Z)
        | None =>
            (shared, (peer_only + ssub (bk_count theirs) (bk_count ours))%Z,
             (local_only + ssub (bk_count ours) (bk_count theirs))%Z)
        end
  end.
End count.

Definition replication_inventory_difference (inv : CompactInventory) (buckets : list Bucket)
    (remote : ReplicationInventory) : option (Z * Z) :=
  if negb (String.eqb (rv_digest remote) "") && String.eqb (rv_digest remote) (iv_digest inv) then Some (0, 0)%Z
  else
    match rv_buckets remote with
    | _ :: _ =>
        let '(shared, peer_only, local_only) :=
          foldl (count_step inv (buckets_by_key buckets) (listed_by_key (rv_envelopes remote))) ([], 0%Z, 0%Z)
            (rv_buckets remote) in
        let unshared := List.filter (λ b, negb (bset_mem (bk_key b) shared)) buckets in
        Some (peer_only, foldl (λ n b, n + bk_count b)%Z local_only unshared)
    | [] =>
        if negb (String.eqb (rv_digest remote) "") &&
           String.eqb (rv_digest remote) (identity_digest sha256 INVENTORY_DIGEST_DOMAIN (rv_envelopes remote))
        then
          let shared := length (List.filter (λ i,
            existsb (λ e, (cx_sequence e =? ri_sequence i)%Z && String.eqb (hash_text inv e) (ri_hash i))
              (inv_range inv (ri_writer i) (replication_bucket_start (ri_sequence i)))) (rv_envelopes remote)) in
          Some (Z.of_nat (length (rv_envelopes remote) - shared), Z.of_nat (length (iv_envelopes inv) - shared))
        else None
    end.

(** ** Answering a peer *)

(** The inventory and the envelopes of the answer ([export_replication_difference]); the
    other fields of the exchange do not depend on the comparison.  [accepts] is
    [replication_accepts()]. *)
Definition export_replication_difference (sn : Snapshot) (remote : ReplicationInventory) (accepts : Z) (turn : nat)
    : ReplicationInventory * list ReplicaEnvelopeId :=
  let inv := sn_inventory sn in
  let same := negb (String.eqb (rv_digest remote) "") && String.eqb (rv_digest remote) (iv_digest inv) in
  if negb same && negb (Nat.eqb (length (rv_buckets remote)) 0) then
    let '(missing, listed) :=
      compact_replication_difference_turn inv (sn_buckets sn) remote REPLICATION_EXCHANGE_ENVELOPE_LIMIT turn in
    ({| rv_digest := iv_digest inv; rv_envelopes := listed; rv_buckets := sn_buckets sn; rv_accepts := Some accepts |},
     missing)
  else
    let remote_is_complete :=
      if String.eqb (rv_digest remote) "" then true
      else String.eqb (rv_digest remote) (identity_digest sha256 INVENTORY_DIGEST_DOMAIN (rv_envelopes remote)) in
    let missing :=
      if same || negb remote_is_complete then []
      else
        let known := bset_of_list (rv_envelopes remote) in
        take (replication_page_limit remote)
          (List.filter (λ i, negb (bset_mem i known))
             (identities inv (List.filter (has_payload inv) (iv_envelopes inv)))) in
    (if same
     then {| rv_digest := iv_digest inv; rv_envelopes := []; rv_buckets := sn_buckets sn; rv_accepts := Some accepts |}
     else {| rv_digest := iv_digest inv; rv_envelopes := inv_all inv; rv_buckets := []; rv_accepts := Some accepts |},
     missing).

Section laws.
Context {Hlaws : HexLaws}.

(** ** Equal range digests are about equal ranges *)

Definition id_valid (i : ReplicaEnvelopeId) : Prop := fits (ri_writer i) ∧ small (ri_sequence i) ∧ fits (ri_hash i).

#[local] Instance id_bytes_prefix_free : PrefixFree id_valid id_bytes.
Proof.
  intros [w s h] [w' s' h'] r r' (Hw & [Hs Hfs] & Hh) (Hw' & [Hs' Hfs'] & Hh').
  unfold id_bytes, identity_bytes. cbn [ri_writer ri_sequence ri_hash] in *.
  rewrite <-!app_assoc. intros E. read_fields. simplify_eq. assert (s = s') as -> by (by apply decimal_inj). done.
Qed.

Definition hashed (dom : list ascii) (l : list ReplicaEnvelopeId) : list ascii := (dom ++ concat (id_bytes <$> l))%list.

Lemma identity_digest_binds dom l l' :
  Forall id_valid l → Forall id_valid l' → no_collision sha256 (hashed dom l) (hashed dom l') →
  identity_digest sha256 dom l = identity_digest sha256 dom l' → l = l'.
Proof.
  intros Hl Hl' Hc E%hex_encode_inj%Hc. apply app_inv_head in E.
  apply (concat_inj id_valid id_bytes); [|done|done|done].
  intros i Hi. unfold id_bytes, identity_bytes, sized in Hi.
  apply (f_equal length) in Hi. rewrite !length_app, length_be_bytes in Hi. cbn in Hi. lia.
Qed.

(** ** Reading what the peer sent *)

Lemma buckets_by_key_get (f : string * Z → Bucket) (ks : list (string * Z)) k :
  (∀ k, bk_key (f k) = k) → bmap_get k (buckets_by_key (f <$> ks)) = if bset_mem k ks then Some (f k) else None.
Proof.
  intros Hf. unfold buckets_by_key. induction ks as [|x ks IH] using rev_ind; [done|].
  rewrite fmap_app, foldl_app. cbn [fmap list_fmap foldl]. rewrite Hf.
  unfold bset_mem in *. rewrite existsb_app. cbn. rewrite orb_false_r.
  destruct (eqb_ord_spec k x) as [->|Hne].
  - by rewrite bmap_get_insert, orb_true_r.
  - by rewrite bmap_get_insert_ne, IH, orb_false_r.
Qed.

Lemma with_key_app k (l l' : list ReplicaEnvelopeId) :
  with_key id_key k (l ++ l')%list = (with_key id_key k l ++ with_key id_key k l')%list.
Proof. unfold with_key. by rewrite List.filter_app. Qed.

Lemma listed_by_key_get k es :
  bmap_get k (listed_by_key es) = match with_key id_key k es with [] => None | l => Some l end.
Proof.
  unfold listed_by_key. induction es as [|i es IH] using rev_ind; [done|].
  rewrite foldl_app. cbn [foldl]. rewrite with_key_app. destruct (eqb_ord_spec (id_key i) k) as [<-|Hne].
  - rewrite bmap_get_entry, IH, with_key_cons_eq. by destruct (with_key id_key (id_key i) es).
  - rewrite bmap_get_entry_ne, IH by done. by rewrite with_key_cons_ne, app_nil_r.
Qed.

Lemma with_key_present l k : k ∈ inventory_keys l → with_key id_key k l ≠ [].
Proof.
  intros (i & Hi & Hk)%elem_of_inventory_keys E.
  assert (i ∈ with_key id_key k l) as Hin by (by apply elem_of_with_key). rewrite E in Hin. set_solver.
Qed.

(** ** An honest peer *)

(** [peer] is what it holds; it sent the digests of all its ranges and listed some of its
    identities. *)
Record honest (peer : list ReplicaEnvelopeId) (remote : ReplicationInventory) : Prop := {
  hp_sorted : bset_wf peer;
  hp_buckets : rv_buckets remote = test_replication_buckets sha256 peer;
  hp_listed i : i ∈ rv_envelopes remote → i ∈ peer
}.

(** SHA-256 does not collide on the ranges at hand. *)
Record ranges_distinct (peer : list ReplicaEnvelopeId) (local listed : list ReplicaEnvelopeId) : Prop := {
  rd_peer : Forall id_valid peer;
  rd_local : Forall id_valid local;
  rd_ours k : no_collision sha256 (hashed BUCKET_DIGEST_DOMAIN (with_key id_key k local))
                (hashed BUCKET_DIGEST_DOMAIN (with_key id_key k peer));
  rd_listed k : no_collision sha256 (hashed BUCKET_DIGEST_DOMAIN (bset_of_list (with_key id_key k listed)))
                  (hashed BUCKET_DIGEST_DOMAIN (with_key id_key k peer))
}.

(** The peer listed the whole range. *)
Definition listed_whole (peer listed : list ReplicaEnvelopeId) (k : string * Z) : bool :=
  bset_eqb (bset_of_list (with_key id_key k listed)) (with_key id_key k peer).

Lemma Forall_with_key (P : ReplicaEnvelopeId → Prop) k l : Forall P l → Forall P (with_key id_key k l).
Proof. rewrite !Forall_forall. intros Hl i [Hi _]%elem_of_with_key. by apply Hl. Qed.

Section peer.
Context (peer local listed : list ReplicaEnvelopeId) (Hd : ranges_distinct peer local listed).
Context (Hlisted : ∀ i, i ∈ listed → i ∈ peer).

Lemma same_digest_iff k :
  String.eqb (bk_digest (bucket_for sha256 peer k)) (bk_digest (bucket_for sha256 local k))
  = bset_eqb (with_key id_key k local) (with_key id_key k peer).
Proof.
  apply eq_true_iff_eq. rewrite String.eqb_eq. destruct (bset_eqb_spec (with_key id_key k local) (with_key id_key k peer)) as [E|E].
  - cbn. by rewrite E.
  - split; [|done]. intros Hs. destruct E. symmetry in Hs. revert Hs. apply identity_digest_binds; [apply Forall_with_key, Hd..|].
    apply Hd.
Qed.

Lemma complete_listing_peer k :
  k ∈ inventory_keys peer →
  complete_listing (listed_by_key listed) (bucket_for sha256 peer k)
  = if listed_whole peer listed k then Some (with_key id_key k peer) else None.
Proof.
  intros Hk. unfold complete_listing. rewrite bk_key_bucket_for, listed_by_key_get. unfold listed_whole.
  destruct (bset_eqb_spec (bset_of_list (with_key id_key k listed)) (with_key id_key k peer)) as [E|E].
  - destruct (with_key id_key k listed) as [|i r] eqn:El; [by apply with_key_present in Hk; rewrite <-E in Hk|].
    rewrite E. cbn [bucket_for bk_count bk_digest]. rewrite Z.eqb_refl.
    unfold replication_bucket_digest. by rewrite String.eqb_refl.
  - destruct (with_key id_key k listed) as [|i r] eqn:El; [done|]. rewrite <-El in E |- *.
    destruct (_ || _) eqn:Eb; [done|]. apply orb_false_iff in Eb as [_ Eb%negb_false_iff%String.eqb_eq].
    destruct E. revert Eb. apply identity_digest_binds; [|apply Forall_with_key, Hd|apply Hd].
    apply Forall_forall. intros j [Hj _]%elem_of_bset_of_list%elem_of_with_key.
    pose proof (rd_peer _ _ _ Hd) as Hv. rewrite Forall_forall in Hv. by apply Hv, Hlisted.
Qed.
End peer.

(** ** One range of the comparison *)

Lemma range_identities inv k :
  inv_ok inv → sequences_ok (inv_all inv) → k ∈ inventory_keys (inv_all inv) →
  Forall (env_ok inv) (inv_range inv k.1 k.2) ∧
  identities inv (inv_range inv k.1 k.2) = with_key id_key k (inv_all inv).
Proof.
  intros Hok Hseq Hk. split; [by apply inv_range_ok|].
  apply elem_of_inventory_keys in Hk as (i & Hi & <-). unfold sequences_ok in Hseq. pose proof Hseq as Hs.
  rewrite Forall_forall in Hs. pose proof (Hs i Hi) as Hr. pose proof (bucket_start_range (ri_sequence i)).
  rewrite inv_range_key; [by destruct (id_key i)|done|done|apply bucket_start_aligned|cbn; lia].
Qed.

Lemma payload_range inv r :
  Forall (env_ok inv) r →
  identities inv (List.filter (has_payload inv) r) = List.filter (λ i, negb (lost inv i)) (identities inv r).
Proof.
  intros Hr. unfold identities. rewrite filter_fmap_comm. f_equal. rewrite Forall_forall in Hr.
  apply filter_ext_in'. intros e He. by apply has_payload_lost, Hr.
Qed.

Lemma payload_exists inv r :
  Forall (env_ok inv) r → existsb (has_payload inv) r = existsb (λ i, negb (lost inv i)) (identities inv r).
Proof. induction 1 as [|e r He Hr IH]; [done|]. cbn. by rewrite has_payload_lost, IH. Qed.

Lemma zip_missing inv known r ids :
  Forall (env_ok inv) r → identities inv r = ids →
  snd <$> List.filter (λ p : CompactEnvelopeId * ReplicaEnvelopeId,
    has_payload inv p.1 && negb (bset_mem p.2 known)) (zip r ids)
  = List.filter (λ i, negb (lost inv i) && negb (bset_mem i known)) ids.
Proof.
  intros Hr <-. assert (zip r (identities inv r) = (λ e, (e, inv_identity inv e)) <$> r) as ->.
  { unfold identities. clear Hr. induction r as [|e r IH]; [done|]. cbn. by rewrite <-IH. }
  unfold identities. rewrite !filter_fmap_comm, <-list_fmap_compose. f_equal. rewrite Forall_forall in Hr.
  apply filter_ext_in'. intros e He. cbn [fst snd]. by rewrite has_payload_lost by (by apply Hr).
Qed.

Section exchange.
Context (inv : CompactInventory) (Hok : inv_ok inv) (Hseq : sequences_ok (inv_all inv)).
Context (peer : list ReplicaEnvelopeId) (remote : ReplicationInventory) (Hpeer : honest peer remote).
Context (Hd : ranges_distinct peer (inv_all inv) (rv_envelopes remote)).

Let local := inv_all inv.
Let listed := rv_envelopes remote.

(** What the peer's message lets this node send: an envelope with a payload that the peer
    lacks, of a range the peer has nothing of or listed whole. *)
Definition wanted (i : ReplicaEnvelopeId) : bool :=
  negb (lost inv i) && negb (bset_mem i peer) &&
  (negb (bset_mem (id_key i) (inventory_keys peer)) || listed_whole peer listed (id_key i)).

(** The ranges both hold with different identities. *)
Definition range_differs (k : string * Z) : bool :=
  bset_mem k (inventory_keys peer) && negb (bset_eqb (with_key id_key k local) (with_key id_key k peer)).
Definition has_live (k : string * Z) : bool := existsb (λ i, negb (lost inv i)) (with_key id_key k local).

Lemma not_in_peer i k : k ∉ inventory_keys peer → id_key i = k → i ∉ peer.
Proof. intros Hk <- Hi. apply Hk, elem_of_inventory_keys. eauto. Qed.

Lemma remote_bucket k :
  bmap_get k (buckets_by_key (rv_buckets remote)) = if bset_mem k (inventory_keys peer) then Some (bucket_for sha256 peer k) else None.
Proof.
  rewrite (hp_buckets _ _ Hpeer), test_replication_buckets_keys by first [done | apply Hpeer].
  apply buckets_by_key_get. apply bk_key_bucket_for.
Qed.

Lemma turn_step_range limit m live payloadless k :
  k ∈ inventory_keys local →
  turn_step inv (buckets_by_key (rv_buckets remote)) (listed_by_key listed) limit (m, live, payloadless)
    (bucket_for sha256 local k)
  = ((m ++ take (limit - length m) (List.filter wanted (with_key id_key k local)))%list,
     (live ++ if range_differs k && has_live k then [bucket_for sha256 local k] else [])%list,
     (payloadless ++ if range_differs k && negb (has_live k) then [bucket_for sha256 local k] else [])%list).
Proof.
  intros Hk. destruct (range_identities inv k Hok Hseq Hk) as [Hr Hids]. unfold turn_step.
  rewrite bk_key_bucket_for, remote_bucket.
  change (bk_writer (bucket_for sha256 local k)) with k.1. change (bk_start (bucket_for sha256 local k)) with k.2.
  rewrite payload_range, payload_exists, Hids by done. fold local. fold (has_live k).
  unfold range_differs. destruct (bset_mem k (inventory_keys peer)) eqn:Ek; cbn [andb].
  - apply bset_mem_spec in Ek. rewrite (same_digest_iff peer local listed Hd).
    destruct (bset_eqb_spec (with_key id_key k local) (with_key id_key k peer)) as [E|E]; cbn [negb andb].
    + rewrite (filter_ext_in' _ (λ _, false)), List.filter_false, take_nil, !app_nil_r; [done|].
      intros i Hi. unfold wanted. rewrite E in Hi. apply elem_of_with_key in Hi as [Hi _].
      apply bset_mem_spec in Hi. by rewrite Hi, andb_false_r.
    + rewrite (complete_listing_peer peer local listed Hd (hp_listed _ _ Hpeer)) by done.
      assert (∀ i, i ∈ with_key id_key k local → wanted i =
        negb (lost inv i) && negb (bset_mem i peer) && listed_whole peer listed k) as Hw.
      { intros i [_ Hi]%elem_of_with_key. unfold wanted. rewrite Hi. by rewrite (proj2 (bset_mem_spec k _) Ek). }
      rewrite (filter_ext_in' _ _ _ Hw).
      destruct (listed_whole peer listed k).
      * rewrite (zip_missing inv _ _ _ Hr Hids).
        rewrite (filter_ext_in' (λ i, _ && negb (bset_mem i (with_key id_key k peer)))
          (λ i, negb (lost inv i) && negb (bset_mem i peer) && true)).
        -- by destruct (has_live k); cbn; rewrite ?app_nil_r.
        -- intros i [_ Hi]%elem_of_with_key. rewrite andb_true_r. do 2 f_equal. apply eq_true_iff_eq.
           rewrite !bset_mem_spec, elem_of_with_key. tauto.
      * rewrite (filter_ext_in' _ (λ _, false)) by (intros; apply andb_false_r).
        rewrite List.filter_false, take_nil, app_nil_r. by destruct (has_live k); cbn; rewrite ?app_nil_r.
  - apply bset_mem_false in Ek. rewrite !app_nil_r. do 4 f_equal. apply filter_ext_in'.
    intros i [_ Hi]%elem_of_with_key. unfold wanted. rewrite Hi, (proj2 (bset_mem_false k _) Ek).
    rewrite (proj2 (bset_mem_false i _) (not_in_peer i k Ek Hi)). by rewrite !andb_true_r.
Qed.

Lemma take_app_take {A} n (m c rest : list A) :
  (length m <= n)%nat →
  take n ((m ++ take (n - length m) c) ++ rest)%list = take n (m ++ c ++ rest)%list.
Proof.
  intros Hm. rewrite <-app_assoc. rewrite !take_app. f_equal. set (k := (n - length m)%nat).
  rewrite take_take, Nat.min_id, length_take. f_equal. f_equal. lia.
Qed.

Lemma turn_fold limit ks : ∀ m live payloadless,
  (∀ k, k ∈ ks → k ∈ inventory_keys local) → (length m <= limit)%nat →
  foldl (turn_step inv (buckets_by_key (rv_buckets remote)) (listed_by_key listed) limit) (m, live, payloadless)
    (bucket_for sha256 local <$> ks)
  = (take limit (m ++ List.filter wanted (ranges local ks))%list,
     (live ++ (bucket_for sha256 local <$> List.filter (λ k, range_differs k && has_live k) ks))%list,
     (payloadless ++ (bucket_for sha256 local <$> List.filter (λ k, range_differs k && negb (has_live k)) ks))%list).
Proof.
  induction ks as [|k ks IH]; intros m live payloadless Hks Hm.
  - cbn. rewrite !app_nil_r, take_ge by done. done.
  - rewrite fmap_cons. cbn [foldl]. rewrite turn_step_range by (apply Hks; left). rewrite IH.
    + rewrite ranges_cons, List.filter_app, take_app_take by done. cbn [List.filter].
      f_equal; [f_equal|]; destruct (range_differs k), (has_live k); cbn; by rewrite ?app_nil_r, <-?app_assoc.
    + set_solver.
    + rewrite length_app, length_take. lia.
Qed.

(** The differing ranges in the order of the listing: those with a payload first, each
    group from where the turn starts. *)
Definition listing_order (turn : nat) : list (string * Z) :=
  let live := List.filter (λ k, range_differs k && has_live k) (inventory_keys local) in
  let payloadless := List.filter (λ k, range_differs k && negb (has_live k)) (inventory_keys local) in
  (rotate_left (listing_turn_start turn (length live)) live ++
   rotate_left (listing_turn_start turn (length payloadless)) payloadless)%list.

Lemma rotate_left_fmap {A B} (f : A → B) n l : rotate_left n (f <$> l) = f <$> rotate_left n l.
Proof. unfold rotate_left. by rewrite fmap_app, fmap_drop, fmap_take. Qed.

Lemma difference_turn listing_limit turn :
  compact_replication_difference_turn inv (test_replication_buckets sha256 local) remote listing_limit turn
  = (take (replication_page_limit remote) (List.filter wanted local),
     list_ranges inv listing_limit [] (bucket_for sha256 local <$> listing_order turn)).
Proof.
  unfold compact_replication_difference_turn. pose proof (ok_sorted _ Hok) as Hs.
  rewrite test_replication_buckets_keys by done. fold listed.
  rewrite (turn_fold (replication_page_limit remote) (inventory_keys local) [] [] []) by (done || cbn; lia).
  cbn [app]. assert (ranges local (inventory_keys local) = local) as -> by (by apply concat_ranges).
  rewrite !length_fmap, !rotate_left_fmap, <-fmap_app. done.
Qed.

(** ** The listing *)

Lemma list_ranges_whole limit ks : ∀ acc,
  (∀ k, k ∈ ks → k ∈ inventory_keys local) →
  ∃ n, (n <= length ks)%nat ∧
    list_ranges inv limit acc (bucket_for sha256 local <$> ks) = (acc ++ ranges local (take n ks))%list ∧
    (acc = [] → ks ≠ [] → n ≠ 0%nat) ∧
    (n = 0%nat ∨ (acc = [] ∧ n = 1%nat) ∨ (length (acc ++ ranges local (take n ks)) <= limit)%nat) ∧
    ((n < length ks)%nat → (limit < length (acc ++ ranges local (take (S n) ks)))%nat).
Proof using Hok Hseq Hlaws.
  clear listed Hd Hpeer remote peer.
  induction ks as [|k ks IH]; intros acc Hks.
  { exists 0%nat. cbn. rewrite app_nil_r. naive_solver lia. }
  destruct (range_identities inv k Hok Hseq) as [Hr Hids]; [apply Hks; left|].
  pose proof (with_key_present local k ltac:(apply Hks; left)) as Hne.
  rewrite fmap_cons. cbn [list_ranges]. change (bk_writer (bucket_for sha256 local k)) with k.1.
  change (bk_start (bucket_for sha256 local k)) with k.2. rewrite Hids. fold local.
  assert (length (inv_range inv k.1 k.2) = length (with_key id_key k local)) as ->.
  { unfold local. rewrite <-Hids. unfold identities. by rewrite length_fmap. }
  assert (ranges local [k] = with_key id_key k local) as H1 by (cbn; by rewrite app_nil_r).
  destruct (_ && _) eqn:E.
  - apply andb_true_iff in E as [Ha%negb_true_iff%Nat.eqb_neq Hl%Nat.ltb_lt]. exists 0%nat.
    change (take 1 (k :: ks)) with [k]. change (ranges local (take 0 (k :: ks))) with (@nil ReplicaEnvelopeId).
    rewrite H1, app_nil_r, length_app. split_and!; [lia|done|by intros ->|by left|done].
  - destruct (IH (acc ++ with_key id_key k local)%list) as (n & Hn & -> & _ & Hle & Hmax); [set_solver|].
    exists (S n). cbn [take length]. rewrite !ranges_cons, !app_assoc.
    split_and!; [lia|done|done| |intros; apply Hmax; lia].
    right. destruct Hle as [-> |[[Hnil _]|Hle]]; [|by apply app_nil in Hnil as [_ ?]|by right].
    change (ranges local (take 0 ks)) with (@nil ReplicaEnvelopeId). rewrite app_nil_r, length_app.
    apply andb_false_iff in E as [E|E].
    + left. split; [|done]. apply negb_false_iff, Nat.eqb_eq in E. by apply nil_length_inv.
    + right. by apply Nat.ltb_ge in E.
Qed.

Lemma listing_order_spec turn k : k ∈ listing_order turn ↔ k ∈ inventory_keys local ∧ range_differs k = true.
Proof using Type.
  assert (∀ n (l : list (string * Z)) x, x ∈ rotate_left n l ↔ x ∈ l) as Hrot.
  { intros n l x. unfold rotate_left. rewrite <-(take_drop n l) at 3. rewrite !elem_of_app. tauto. }
  unfold listing_order. rewrite elem_of_app, !Hrot, !filter_elem_of, !andb_true_iff, negb_true_iff.
  destruct (has_live k); naive_solver.
Qed.
End exchange.

(** ** Counting what either side lacks *)

(** How many of [l] are not in [l']. *)
Definition lacking (l l' : list ReplicaEnvelopeId) : Z :=
  Z.of_nat (length (List.filter (λ i, negb (bset_mem i l')) l)).
Fixpoint total (f : string * Z → Z) (ks : list (string * Z)) : Z :=
  match ks with [] => 0%Z | k :: ks' => (f k + total f ks')%Z end.

Lemma lacking_app l m l' : lacking (l ++ m)%list l' = (lacking l l' + lacking m l')%Z.
Proof. unfold lacking. rewrite List.filter_app, length_app. lia. Qed.

Lemma lacking_ranges l l' ks : total (λ k, lacking (with_key id_key k l) l') ks = lacking (ranges l ks) l'.
Proof. induction ks as [|k ks IH]; [done|]. cbn [total]. by rewrite IH, ranges_cons, lacking_app. Qed.

Lemma lacking_all l l' : bset_wf l → lacking l l' = total (λ k, lacking (with_key id_key k l) l') (inventory_keys l).
Proof. intros Hl. rewrite lacking_ranges. f_equal. symmetry. by apply concat_ranges. Qed.

Lemma total_le f g ks : (∀ k, k ∈ ks → (f k <= g k)%Z) → (total f ks <= total g ks)%Z.
Proof.
  induction ks as [|k ks IH]; cbn [total]; [done|]. intros Hfg.
  specialize (IH ltac:(set_solver)). pose proof (Hfg k ltac:(left)). lia.
Qed.

Lemma total_eq f g ks : (∀ k, k ∈ ks → f k = g k) → total f ks = total g ks.
Proof. intros Hfg. apply Z.le_antisymm; apply total_le; intros k Hk; rewrite Hfg; done. Qed.

Lemma total_split (p : string * Z → bool) f ks :
  total f ks = (total f (List.filter p ks) + total f (List.filter (λ k, negb (p k)) ks))%Z.
Proof.
  induction ks as [|k ks IH]; [done|]. cbn [total List.filter]. rewrite IH.
  destruct (p k); cbn [total negb]; lia.
Qed.

Lemma total_filter (p : string * Z → bool) f ks :
  total (λ k, if p k then f k else 0%Z) ks = total f (List.filter p ks).
Proof. induction ks as [|k ks IH]; [done|]. cbn [total List.filter]. rewrite IH. by destruct (p k). Qed.

Lemma with_key_mem (l : list ReplicaEnvelopeId) k i : id_key i = k → bset_mem i (with_key id_key k l) = bset_mem i l.
Proof. intros Hk. apply eq_true_iff_eq. rewrite !bset_mem_spec, elem_of_with_key. tauto. Qed.

Lemma lacking_range l l' k : lacking (with_key id_key k l) (with_key id_key k l') = lacking (with_key id_key k l) l'.
Proof.
  unfold lacking. do 2 f_equal. apply filter_ext_in'. intros i [_ Hi]%elem_of_with_key. by rewrite with_key_mem.
Qed.

Lemma lacking_absent l l' k : k ∉ inventory_keys l' → lacking (with_key id_key k l) l' = Z.of_nat (length (with_key id_key k l)).
Proof.
  intros Hk. unfold lacking. do 2 f_equal. rewrite (filter_ext_in' _ (λ _, true)); [apply List.filter_true|].
  intros i [_ Hi]%elem_of_with_key. apply negb_true_iff, bset_mem_false. intros Hin. apply Hk, elem_of_inventory_keys. eauto.
Qed.

Lemma lacking_self l l' : (∀ i, i ∈ l → i ∈ l') → lacking l l' = 0%Z.
Proof.
  intros Hl. unfold lacking. rewrite (filter_ext_in' _ (λ _, false)), List.filter_false; [done|].
  intros i Hi. apply negb_false_iff, bset_mem_spec. auto.
Qed.

(** The difference in sizes is a lower bound. *)
Lemma lacking_size (l l' : list ReplicaEnvelopeId) :
  NoDup l → (ssub (Z.of_nat (length l)) (Z.of_nat (length l')) <= lacking l l')%Z.
Proof.
  intros Hl. unfold ssub, lacking.
  assert (length (List.filter (λ i, bset_mem i l') l) <= length l')%nat as Hle.
  { apply submseteq_length, NoDup_submseteq; [|intros i [_ Hi]%filter_elem_of; by apply bset_mem_spec].
    by apply NoDup_ListNoDup, List.NoDup_filter, NoDup_ListNoDup. }
  pose proof (List.filter_length (λ i, bset_mem i l') l). lia.
Qed.

Section counting.
Context (inv : CompactInventory) (Hok : inv_ok inv) (Hseq : sequences_ok (inv_all inv)).
Context (peer : list ReplicaEnvelopeId) (remote : ReplicationInventory) (Hpeer : honest peer remote).
Context (Hd : ranges_distinct peer (inv_all inv) (rv_envelopes remote)).

Let local := inv_all inv.
Let listed := rv_envelopes remote.

(** What one range adds to either count. *)
Definition peer_part (k : string * Z) : Z :=
  if negb (bset_mem k (inventory_keys local)) then Z.of_nat (length (with_key id_key k peer))
  else if bset_eqb (with_key id_key k local) (with_key id_key k peer) then 0%Z
  else if listed_whole peer listed k then lacking (with_key id_key k peer) (with_key id_key k local)
  else ssub (Z.of_nat (length (with_key id_key k peer))) (Z.of_nat (length (with_key id_key k local))).
Definition local_part (k : string * Z) : Z :=
  if bset_eqb (with_key id_key k local) (with_key id_key k peer) then 0%Z
  else if listed_whole peer listed k then lacking (with_key id_key k local) (with_key id_key k peer)
  else ssub (Z.of_nat (length (with_key id_key k local))) (Z.of_nat (length (with_key id_key k peer))).

Lemma count_step_range shared p l k :
  k ∈ inventory_keys peer →
  count_step inv (buckets_by_key (test_replication_buckets sha256 local)) (listed_by_key listed) (shared, p, l)
    (bucket_for sha256 peer k)
  = (if bset_mem k (inventory_keys local) then bset_insert k shared else shared,
     (p + peer_part k)%Z, (l + if bset_mem k (inventory_keys local) then local_part k else 0)%Z).
Proof.
  intros Hk. unfold count_step. rewrite bk_key_bucket_for, test_replication_buckets_keys by first [done | apply Hok].
  rewrite buckets_by_key_get by apply bk_key_bucket_for. unfold peer_part, local_part.
  destruct (bset_mem k (inventory_keys local)) eqn:El; cbn [negb].
  - apply bset_mem_spec in El. destruct (range_identities inv k Hok Hseq El) as [_ Hids].
    rewrite String.eqb_sym, (same_digest_iff peer local listed Hd).
    destruct (bset_eqb _ _); [by rewrite !Z.add_0_r|].
    rewrite (complete_listing_peer peer local listed Hd (hp_listed _ _ Hpeer)) by done.
    change (bk_writer (bucket_for sha256 local k)) with k.1. change (bk_start (bucket_for sha256 local k)) with k.2.
    rewrite Hids. fold local. by destruct (listed_whole peer listed k).
  - by rewrite Z.add_0_r.
Qed.

Lemma count_fold ks : ∀ shared p l,
  (∀ k, k ∈ ks → k ∈ inventory_keys peer) →
  foldl (count_step inv (buckets_by_key (test_replication_buckets sha256 local)) (listed_by_key listed)) (shared, p, l)
    (bucket_for sha256 peer <$> ks)
  = (bset_extend shared (List.filter (λ k, bset_mem k (inventory_keys local)) ks),
     (p + total peer_part ks)%Z,
     (l + total local_part (List.filter (λ k, bset_mem k (inventory_keys local)) ks))%Z).
Proof.
  induction ks as [|k ks IH]; intros shared p l Hks; [cbn; by rewrite !Z.add_0_r|].
  rewrite fmap_cons. cbn [foldl]. rewrite count_step_range by (apply Hks; left). rewrite IH by set_solver.
  cbn [List.filter total]. destruct (bset_mem k (inventory_keys local)); cbn [total]; (f_equal; [f_equal|]); (done || lia).
Qed.

Lemma unshared_counts (f : Bucket → Z) bs n : foldl (λ n b, n + f b)%Z n bs = (n + foldr (λ b m, f b + m)%Z 0%Z bs)%Z.
Proof. revert n. induction bs as [|b bs IH]; intros n; cbn; [lia|]. rewrite IH. lia. Qed.

Lemma peer_part_bound k :
  (peer_part k <= lacking (with_key id_key k peer) local)%Z ∧
  (range_differs inv peer k = false ∨ listed_whole peer listed k = true → k ∈ inventory_keys peer →
   peer_part k = lacking (with_key id_key k peer) local).
Proof.
  pose proof (bset_wf_NoDup _ (hp_sorted _ _ Hpeer)) as Hnd.
  assert (NoDup (with_key id_key k peer)) as Hnk by (by apply NoDup_ListNoDup, List.NoDup_filter, NoDup_ListNoDup).
  rewrite <-(lacking_range peer local k). unfold peer_part, range_differs. fold local.
  destruct (bset_mem k (inventory_keys local)) eqn:El; cbn [negb].
  - destruct (bset_eqb_spec (with_key id_key k local) (with_key id_key k peer)) as [E|E].
    + rewrite E, lacking_self by done. done.
    + destruct (listed_whole peer listed k); [done|]. split; [by apply lacking_size|].
      intros [Hdf|] Hk; [|done]. rewrite (proj2 (bset_mem_spec k _) Hk) in Hdf. done.
  - apply bset_mem_false in El. rewrite lacking_range, lacking_absent by done. done.
Qed.

Lemma local_part_bound k :
  (local_part k <= lacking (with_key id_key k local) peer)%Z ∧
  (range_differs inv peer k = false ∨ listed_whole peer listed k = true → k ∈ inventory_keys peer →
   local_part k = lacking (with_key id_key k local) peer).
Proof.
  pose proof (bset_wf_NoDup _ (ok_sorted _ Hok)) as Hnd.
  assert (NoDup (with_key id_key k local)) as Hnk by (by apply NoDup_ListNoDup, List.NoDup_filter, NoDup_ListNoDup).
  rewrite <-(lacking_range local peer k). unfold local_part, range_differs. fold local.
  destruct (bset_eqb_spec (with_key id_key k local) (with_key id_key k peer)) as [E|E].
  - rewrite E, lacking_self by done. done.
  - destruct (listed_whole peer listed k); [done|]. split; [by apply lacking_size|].
    intros [Hdf|] Hk; [|done]. rewrite (proj2 (bset_mem_spec k _) Hk) in Hdf. done.
Qed.

Lemma shared_keys :
  List.filter (λ k, bset_mem k (inventory_keys local)) (inventory_keys peer)
  = List.filter (λ k, bset_mem k (inventory_keys peer)) (inventory_keys local).
Proof.
  apply bset_ext; [apply StronglySorted_filter, bset_of_list_wf..|]. intros k.
  rewrite !filter_elem_of, !bset_mem_spec. tauto.
Qed.

Lemma foldr_count f (ks : list (string * Z)) :
  foldr (λ b m, bk_count b + m)%Z 0%Z (bucket_for sha256 f <$> ks) = total (λ k, Z.of_nat (length (with_key id_key k f))) ks.
Proof. induction ks as [|k ks IH]; [done|]. cbn [fmap list_fmap foldr total]. by rewrite <-IH. Qed.

Lemma count_ranges :
  rv_buckets remote ≠ [] →
  let '(shared, peer_only, local_only) :=
    foldl (count_step inv (buckets_by_key (test_replication_buckets sha256 local)) (listed_by_key listed)) ([], 0%Z, 0%Z)
      (rv_buckets remote) in
  let unshared := List.filter (λ b, negb (bset_mem (bk_key b) shared)) (test_replication_buckets sha256 local) in
  peer_only = total peer_part (inventory_keys peer) ∧
  foldl (λ n b, n + bk_count b)%Z local_only unshared =
  total (λ k, if bset_mem k (inventory_keys peer) then local_part k else lacking (with_key id_key k local) peer) (inventory_keys local).
Proof.
  intros _. rewrite (hp_buckets _ _ Hpeer), (test_replication_buckets_keys sha256 peer) by first [done|apply Hpeer].
  set (counted := foldl _ _ _).
  assert (counted = (bset_of_list (List.filter (λ k, bset_mem k (inventory_keys local)) (inventory_keys peer)),
    (0 + total peer_part (inventory_keys peer))%Z,
    (0 + total local_part (List.filter (λ k, bset_mem k (inventory_keys local)) (inventory_keys peer)))%Z)) as ->
    by (by apply count_fold).
  split; [lia|].
  rewrite unshared_counts, test_replication_buckets_keys by first [done|apply Hok]. rewrite filter_fmap_comm, foldr_count.
  rewrite (total_split (λ k, bset_mem k (inventory_keys peer)) _ (inventory_keys local)). rewrite Z.add_0_l, shared_keys. f_equal.
  - apply total_eq. intros k [_ Hk]%filter_elem_of. by rewrite Hk.
  - rewrite (filter_ext_in' _ (λ k, negb (bset_mem k (inventory_keys peer)))).
    + apply total_eq. intros k [_ Hk]%filter_elem_of. apply negb_true_iff in Hk. rewrite Hk.
      apply bset_mem_false in Hk. by rewrite lacking_absent.
    + intros k Hk. rewrite bk_key_bucket_for. f_equal. apply eq_true_iff_eq.
      rewrite !bset_mem_spec, elem_of_bset_of_list, filter_elem_of, bset_mem_spec. set_solver.
Qed.

Lemma count_bounds :
  (total peer_part (inventory_keys peer) <= lacking peer local)%Z ∧
  (total (λ k, if bset_mem k (inventory_keys peer) then local_part k else lacking (with_key id_key k local) peer)
     (inventory_keys local) <= lacking local peer)%Z ∧
  ((∀ k, range_differs inv peer k = true → listed_whole peer listed k = true) →
   total peer_part (inventory_keys peer) = lacking peer local ∧
   total (λ k, if bset_mem k (inventory_keys peer) then local_part k else lacking (with_key id_key k local) peer)
     (inventory_keys local) = lacking local peer).
Proof.
  rewrite (lacking_all peer local) by apply Hpeer. rewrite (lacking_all local peer) by apply Hok.
  split_and!.
  - apply total_le. intros k _. apply peer_part_bound.
  - apply total_le. intros k _. destruct (bset_mem k (inventory_keys peer)); [apply local_part_bound|done].
  - intros Hall. assert (∀ k, range_differs inv peer k = false ∨ listed_whole peer listed k = true) as Hcase.
    { intros k. destruct (range_differs inv peer k) eqn:E; [right; by apply Hall|by left]. }
    split; apply total_eq; intros k Hk.
    + by apply peer_part_bound.
    + destruct (bset_mem k (inventory_keys peer)) eqn:E; [|done]. apply local_part_bound; [done|by apply bset_mem_spec].
Qed.
End counting.

(** ** From a listing to the envelopes sent for it *)

Lemma elem_of_ranges l ks i : i ∈ ranges l ks ↔ i ∈ l ∧ id_key i ∈ ks.
Proof.
  induction ks as [|k ks IH]; [set_solver|]. rewrite ranges_cons, elem_of_app, IH, elem_of_with_key, elem_of_cons. tauto.
Qed.

Lemma listed_whole_ranges l ks k : bset_wf l → k ∈ ks → listed_whole l (ranges l ks) k = true.
Proof.
  intros Hl Hk. unfold listed_whole. destruct (bset_eqb_spec (bset_of_list (with_key id_key k (ranges l ks)))
    (with_key id_key k l)) as [|Hne]; [done|]. destruct Hne.
  apply bset_ext; [apply bset_of_list_wf|by apply StronglySorted_filter|]. intros i.
  rewrite elem_of_bset_of_list, !elem_of_with_key, elem_of_ranges. naive_solver.
Qed.

(** The parts of a snapshot an answer is made from. *)
Definition snapshot_view (sn : Snapshot) : Prop :=
  inv_ok (sn_inventory sn) ∧ sequences_ok (inv_all (sn_inventory sn)) ∧
  sn_buckets sn = test_replication_buckets sha256 (inv_all (sn_inventory sn)) ∧
  iv_digest (sn_inventory sn) = inventory_digest sha256 (inv_all (sn_inventory sn)).

(** An answer to a range_differs inventory is honest, and lists ranges that differ. *)
Lemma export_answer sn peer remote accepts turn :
  snapshot_view sn → honest peer remote → rv_buckets remote ≠ [] →
  ranges_distinct peer (inv_all (sn_inventory sn)) (rv_envelopes remote) →
  rv_digest remote = inventory_digest sha256 peer →
  no_collision sha256 (hashed INVENTORY_DIGEST_DOMAIN peer)
    (hashed INVENTORY_DIGEST_DOMAIN (inv_all (sn_inventory sn))) → peer ≠ inv_all (sn_inventory sn) →
  let answer := (export_replication_difference sn remote accepts turn).1 in
  ∃ n, rv_envelopes answer = ranges (inv_all (sn_inventory sn)) (take n (listing_order (sn_inventory sn) peer turn)) ∧
    (listing_order (sn_inventory sn) peer turn ≠ [] → n ≠ 0%nat) ∧
    honest (inv_all (sn_inventory sn)) answer.
Proof.
  intros (Hok & Hseq & Hb & Hdig) Hpeer Hne Hd Hdr Hnc Hdiff answer. unfold answer, export_replication_difference.
  assert (String.eqb (rv_digest remote) (iv_digest (sn_inventory sn)) = false) as ->.
  { apply String.eqb_neq. rewrite Hdr, Hdig. intros E. apply Hdiff. revert E. by apply identity_digest_binds; [apply Hd..|]. }
  rewrite andb_false_r. cbn [negb andb]. destruct (Nat.eqb_spec (length (rv_buckets remote)) 0) as [E|_].
  { by apply nil_length_inv in E. }
  cbn [negb]. rewrite Hb, (difference_turn _ Hok Hseq peer remote Hpeer Hd). cbn [fst rv_envelopes].
  destruct (list_ranges_whole _ Hok Hseq REPLICATION_EXCHANGE_ENVELOPE_LIMIT (listing_order (sn_inventory sn) peer turn) [])
    as (n & _ & -> & Hfirst & _).
  { intros k Hk. by apply listing_order_spec in Hk as [Hk _]. }
  exists n. split; [done|]. split; [auto|]. split; cbn; [apply Hok|done|].
  intros i [Hi _]%elem_of_ranges. done.
Qed.

(** C21: What a node sends after comparing its inventory with a peer's message: the first
    page, at the size the peer takes, of exactly those of its envelopes that have a
    payload, that the peer lacks, and whose range the peer has nothing of or listed
    whole.  So nothing the peer holds is sent again, and nothing it provably lacks is
    left out but for the page. *)
Theorem difference_missing_exact inv peer remote listing_limit turn :
  inv_ok inv → sequences_ok (inv_all inv) → honest peer remote →
  ranges_distinct peer (inv_all inv) (rv_envelopes remote) →
  (compact_replication_difference_turn inv (test_replication_buckets sha256 (inv_all inv)) remote listing_limit turn).1
  = take (replication_page_limit remote)
      (List.filter (λ i, negb (bset_mem i peer) &&
         (negb (bset_mem (id_key i) (inventory_keys peer)) || listed_whole peer (rv_envelopes remote) (id_key i)))
         (sendable inv)).
Proof.
  intros Hok Hseq Hpeer Hd. rewrite (difference_turn inv Hok Hseq peer remote Hpeer Hd). cbn [fst]. f_equal.
  rewrite sendable_lost, filter_filter_and by done. apply filter_ext_in'. intros i _. unfold wanted.
  by rewrite andb_assoc.
Qed.

(** What a node lists in return: whole ranges of its inventory, each of which the peer
    also holds and with other identities, live ranges before those without payloads and
    each group from where the turn starts; as many as fit the limit, and the first one
    in any case, so a listing is never empty while a range differs. *)
Theorem difference_listing_whole inv peer remote listing_limit turn :
  inv_ok inv → sequences_ok (inv_all inv) → honest peer remote →
  ranges_distinct peer (inv_all inv) (rv_envelopes remote) →
  let order := listing_order inv peer turn in
  let listed :=
    (compact_replication_difference_turn inv (test_replication_buckets sha256 (inv_all inv)) remote listing_limit turn).2 in
  ∃ n, (n <= length order)%nat ∧ listed = ranges (inv_all inv) (take n order) ∧
    (order ≠ [] → n ≠ 0%nat) ∧ (n <= 1 ∨ length listed <= listing_limit)%nat ∧
    ((n < length order)%nat → (listing_limit < length (ranges (inv_all inv) (take (S n) order)))%nat).
Proof.
  intros Hok Hseq Hpeer Hd order listed. unfold listed.
  rewrite (difference_turn inv Hok Hseq peer remote Hpeer Hd). cbn [snd]. fold order.
  destruct (list_ranges_whole inv Hok Hseq listing_limit order []) as (n & Hn & -> & Hfirst & Hle & Hmax).
  { intros k Hk. by apply listing_order_spec in Hk as [Hk _]. }
  exists n. split_and!; [done|done|auto| |done]. destruct Hle as [->|[[_ ->]|Hle]]; [left; lia..|by right].
Qed.

(** The counts a node reports of a peer that sent its range digests: neither exceeds
    what the peer, or this node, alone holds, and both are exact once the peer has listed
    every range that differs, or when the inventories are the same. *)
Theorem difference_counts inv peer remote :
  inv_ok inv → sequences_ok (inv_all inv) → honest peer remote → rv_buckets remote ≠ [] →
  ranges_distinct peer (inv_all inv) (rv_envelopes remote) →
  iv_digest inv = inventory_digest sha256 (inv_all inv) → rv_digest remote = inventory_digest sha256 peer →
  no_collision sha256 (hashed INVENTORY_DIGEST_DOMAIN peer) (hashed INVENTORY_DIGEST_DOMAIN (inv_all inv)) →
  ∃ peer_only local_only,
    replication_inventory_difference inv (test_replication_buckets sha256 (inv_all inv)) remote
    = Some (peer_only, local_only) ∧
    (peer_only <= lacking peer (inv_all inv))%Z ∧ (local_only <= lacking (inv_all inv) peer)%Z ∧
    ((∀ k, range_differs inv peer k = true → listed_whole peer (rv_envelopes remote) k = true) →
     peer_only = lacking peer (inv_all inv) ∧ local_only = lacking (inv_all inv) peer).
Proof.
  intros Hok Hseq Hpeer Hne Hd Hdi Hdr Hnc. unfold replication_inventory_difference.
  destruct (_ && _) eqn:E.
  - exists 0%Z, 0%Z. apply andb_true_iff in E as [_ E%String.eqb_eq]. rewrite Hdi, Hdr in E.
    apply identity_digest_binds in E as ->; [|apply Hd..|done]. by rewrite !lacking_self.
  - destruct (rv_buckets remote) as [|b bs] eqn:Eb; [done|]. rewrite <-Eb in *.
    pose proof (count_ranges inv Hok Hseq peer remote Hpeer Hd Hne) as Hc.
    destruct (foldl _ _ _) as [[shared p] l]. destruct Hc as [-> ->].
    do 2 eexists. split; [reflexivity|]. by apply count_bounds.
Qed.

(** A page takes one envelope at least. *)
Lemma page_limit_pos remote : (1 <= replication_page_limit remote)%nat.
Proof.
  unfold replication_page_limit, REPLICATION_PAGE_LIMIT. destruct (rv_accepts remote); [lia|].
  by apply Nat.leb_le.
Qed.

Lemma take_all_or_full {A} n (l : list A) x : x ∈ l → x ∈ take n l ∨ length (take n l) = n.
Proof.
  intros Hx. rewrite length_take. destruct (Nat.le_gt_cases (length l) n).
  - left. by rewrite take_ge by lia.
  - right. lia.
Qed.

(** C30: Two exchanges make progress.  When node B answers node A's message while some
    range both hold differs, B's answer lists such a range whole.  The page A then sends
    back holds distinct envelopes, each of which A has the payload of and B lacks, at most
    as many as B's answer accepts, which is one at least; and an envelope of that range
    that A can send and B lacks is in the page, unless the page is full.  So whenever A
    has something of the range for B, B receives some envelopes it lacks, and all of the
    range when they fit the page; what a full page leaves out waits for a later exchange. *)
Theorem exchange_progress a b remote accepts turn turn' :
  inv_ok a → sequences_ok (inv_all a) → snapshot_view b →
  honest (inv_all a) remote → rv_buckets remote ≠ [] → rv_digest remote = inventory_digest sha256 (inv_all a) →
  ranges_distinct (inv_all a) (inv_all (sn_inventory b)) (rv_envelopes remote) →
  no_collision sha256 (hashed INVENTORY_DIGEST_DOMAIN (inv_all a))
    (hashed INVENTORY_DIGEST_DOMAIN (inv_all (sn_inventory b))) →
  let answer := (export_replication_difference b remote accepts turn).1 in
  ranges_distinct (inv_all (sn_inventory b)) (inv_all a) (rv_envelopes answer) →
  (∃ k, k ∈ inventory_keys (inv_all (sn_inventory b)) ∧ range_differs (sn_inventory b) (inv_all a) k = true) →
  let page := (compact_replication_difference_turn a (test_replication_buckets sha256 (inv_all a)) answer
       REPLICATION_EXCHANGE_ENVELOPE_LIMIT turn').1 in
  (1 <= replication_page_limit answer)%nat ∧ (length page <= replication_page_limit answer)%nat ∧ NoDup page ∧
  (∀ i, i ∈ page → i ∈ sendable a ∧ i ∉ inv_all (sn_inventory b)) ∧
  ∃ k, range_differs (sn_inventory b) (inv_all a) k = true ∧
    (∀ i, i ∈ inv_all (sn_inventory b) → id_key i = k → i ∈ rv_envelopes answer) ∧
    (∀ i, i ∈ sendable a → i ∉ inv_all (sn_inventory b) → id_key i = k →
       i ∈ page ∨ length page = replication_page_limit answer).
Proof.
  intros Hok Hseq Hb Hpeer Hne Hdr Hd Hnc answer Hd' (k0 & Hk0 & Hdiff0) page.
  assert (inv_all a ≠ inv_all (sn_inventory b)) as Hdiff.
  { intros E. unfold range_differs in Hdiff0. rewrite E in Hdiff0. apply andb_true_iff in Hdiff0 as [_ Hdiff0].
    by destruct (bset_eqb_spec (with_key id_key k0 (inv_all (sn_inventory b))) (with_key id_key k0 (inv_all (sn_inventory b)))). }
  destruct (export_answer b (inv_all a) remote accepts turn Hb Hpeer Hne Hd Hdr Hnc Hdiff) as (n & Hlist & Hn & Hhonest).
  fold answer in Hlist, Hhonest.
  assert (k0 ∈ listing_order (sn_inventory b) (inv_all a) turn) as Hin by (by apply listing_order_spec).
  destruct (listing_order (sn_inventory b) (inv_all a) turn) as [|k ks] eqn:Eo; [set_solver|].
  destruct n as [|n]; [by destruct Hn|].
  assert (range_differs (sn_inventory b) (inv_all a) k = true) as Hk.
  { apply (listing_order_spec (sn_inventory b) (inv_all a) turn k). rewrite Eo. left. }
  assert (page = take (replication_page_limit answer)
    (List.filter (wanted a (inv_all (sn_inventory b)) answer) (inv_all a))) as Hpage.
  { unfold page. by rewrite (difference_turn a Hok Hseq _ answer Hhonest Hd'). }
  split_and!.
  - apply page_limit_pos.
  - rewrite Hpage, length_take. lia.
  - rewrite Hpage. eapply (proj1 (NoDup_app _ (drop (replication_page_limit answer) _))). rewrite take_drop.
    apply NoDup_ListNoDup, List.NoDup_filter, NoDup_ListNoDup, bset_wf_NoDup, (ok_sorted _ Hok).
  - intros i Hi. rewrite Hpage in Hi. apply elem_of_take in Hi as (n' & Hi%list_elem_of_lookup_2 & _).
    apply filter_elem_of in Hi as [Hi Hw].
    unfold wanted in Hw. bool_prop. split; [|by apply bset_mem_false].
    rewrite sendable_lost by done. apply filter_elem_of. split; [done|]. by apply negb_true_iff.
  - exists k. split_and!; [done| |].
    + intros i Hi Hik. rewrite Hlist. apply elem_of_ranges. split; [done|]. rewrite Hik. left.
    + intros i Hi Hni Hik. rewrite Hpage. apply take_all_or_full.
      rewrite sendable_lost in Hi by done. apply filter_elem_of in Hi as [Hi Hl].
      apply filter_elem_of. split; [done|]. unfold wanted. rewrite Hl, (proj2 (bset_mem_false i _) Hni). cbn.
      rewrite Hik, Hlist, listed_whole_ranges; [apply orb_true_r|apply Hb|left].
Qed.
End laws.
End difference.

(** ** Where listings start *)

(** A start is a valid position, so rotating by it is defined. *)
Lemma listing_turn_start_lt turn len : (0 < len)%nat → (listing_turn_start turn len < len)%nat.
Proof.
  intros Hlen. unfold listing_turn_start. rewrite Z.shiftr_div_pow2 by lia.
  pose proof (Z.mod_pos_bound (Z.of_nat turn * GOLDEN) (2 ^ 64) ltac:(lia)) as Hm.
  set (m := ((Z.of_nat turn * GOLDEN) mod 2 ^ 64)%Z) in *.
  assert (m * Z.of_nat len / 2 ^ 64 < Z.of_nat len)%Z as Hlt by (apply Z.div_lt_upper_bound; nia).
  pose proof (Z.div_pos (m * Z.of_nat len) (2 ^ 64) ltac:(nia) ltac:(lia)). lia.
Qed.

Definition reaches (answers peers peer len : nat) : bool :=
  let starts := (λ n, listing_turn_start (peer + n * peers) len) <$> seq 0 answers in
  forallb (λ j, existsb (Nat.eqb j) starts) (seq 0 len).

Definition len_reaches (len : nat) : bool :=
  reaches (2 * len) 1 0 len &&
  forallb (λ peers, forallb (λ peer, reaches (4 * len) peers peer len) (seq 0 peers)) (seq 1 4).

Lemma all_reach_true : forallb len_reaches (seq 1 16) = true.
Proof. by vm_compute. Qed.

Lemma all_reach_len len :
  (1 <= len <= 16)%nat →
  reaches (2 * len) 1 0 len = true ∧
  ∀ peers peer, (1 <= peers <= 4)%nat → (peer < peers)%nat → reaches (4 * len) peers peer len = true.
Proof.
  intros Hlen. assert (len_reaches len = true) as Hr.
  { apply (proj1 (forallb_forall len_reaches (seq 1 16)) all_reach_true), in_seq. lia. }
  unfold len_reaches in Hr. apply andb_true_iff in Hr as [H1 Hall]. split; [done|].
  intros peers peer Hpeers Hpeer. rewrite forallb_forall in Hall. specialize (Hall peers).
  rewrite in_seq, forallb_forall in Hall. apply Hall; [lia|]. apply in_seq. lia.
Qed.

Lemma reaches_spec answers peers peer len j :
  reaches answers peers peer len = true → (j < len)%nat →
  ∃ n, (n < answers)%nat ∧ listing_turn_start (peer + n * peers) len = j.
Proof.
  intros Hr Hj. unfold reaches in Hr. rewrite forallb_forall in Hr.
  specialize (Hr j ltac:(apply in_seq; lia)). apply existsb_exists in Hr as (x & Hx & ->%Nat.eqb_eq).
  apply list_elem_of_In, list_elem_of_fmap in Hx as (n & -> & Hn). apply elem_of_seq in Hn. exists n. lia.
Qed.

(** Up to 16 differing ranges and four peers sharing one turn counter, every range is
    where some listing starts: within twice as many answers as ranges for one peer, and
    within four times as many for each of up to four. *)
Theorem listing_turn_reaches len j :
  (1 <= len <= 16)%nat → (j < len)%nat →
  (∃ n, (n < 2 * len)%nat ∧ listing_turn_start n len = j) ∧
  ∀ peers peer, (1 <= peers <= 4)%nat → (peer < peers)%nat →
    ∃ n, (n < 4 * len)%nat ∧ listing_turn_start (peer + n * peers) len = j.
Proof.
  intros Hlen Hj. destruct (all_reach_len len Hlen) as [H1 Hall]. split.
  - destruct (reaches_spec _ _ _ _ j H1 Hj) as (n & Hn & E). exists n. split; [done|].
    by rewrite Nat.add_0_l, Nat.mul_1_r in E.
  - intros peers peer Hpeers Hpeer. by apply reaches_spec; [apply Hall|].
Qed.

(** ** Witnesses *)

Definition id_check (i : ReplicaEnvelopeId) : bool :=
  (len (ri_writer i) <=? u64_max)%Z && (0 <=? ri_sequence i)%Z && (len (decimal (ri_sequence i)) <=? u64_max)%Z &&
  (len (ri_hash i) <=? u64_max)%Z.

Lemma id_check_valid l : forallb id_check l = true → Forall id_valid l.
Proof.
  rewrite forallb_forall, Forall_forall. intros Hl i Hi. specialize (Hl i ltac:(by apply list_elem_of_In)).
  unfold id_check in Hl. bool_prop. by repeat split.
Qed.

Lemma demo_ranges_distinct peer local listed :
  forallb id_check peer = true → forallb id_check local = true → ranges_distinct demo_digest peer local listed.
Proof. intros Hp Hl. split; [by apply id_check_valid..|intros k; apply demo_no_collision|intros k; apply demo_no_collision]. Qed.

Definition demo_b_tables : Tables :=
  {| tb_held := [(1%Z, demo_id "oak" 5 (demo_sha "d"%char))]; tb_dropped := []; tb_generation := 0 |}.
Definition demo_b : Snapshot := full_snapshot demo_digest demo_b_tables.
Definition demo_message (l listed : list ReplicaEnvelopeId) : ReplicationInventory :=
  {| rv_digest := inventory_digest demo_digest l; rv_envelopes := listed;
     rv_buckets := test_replication_buckets demo_digest l; rv_accepts := None |}.

Lemma demo_honest l listed : bset_wf l → (∀ i, i ∈ listed → i ∈ l) → honest demo_digest l (demo_message l listed).
Proof. by split. Qed.

Lemma demo_inventory_ok : inv_ok demo_inventory.
Proof. apply demo_inventory_of. Qed.

Lemma demo_inventory_sequences : sequences_ok (inv_all demo_inventory).
Proof. apply (bool_decide_unpack _). by vm_compute. Qed.

Lemma demo_b_ok : snapshot_ok demo_digest (tb_held demo_b_tables) (tb_dropped demo_b_tables) demo_b.
Proof. apply (full_snapshot_ok demo_digest demo_b_tables), tables_check_valid. by vm_compute. Qed.

Lemma demo_b_view : snapshot_view demo_digest demo_b.
Proof.
  pose proof demo_b_ok as [(Hok & _) Hd Hb _ _ _]. split; [exact Hok|]. split; [|exact (conj Hb Hd)].
  apply (bool_decide_unpack _). by vm_compute.
Qed.

Definition demo_inventory_digested : CompactInventory :=
  with_digest demo_inventory (inventory_digest demo_digest (inv_all demo_inventory)).
Definition demo_peer : list ReplicaEnvelopeId := inv_all (sn_inventory demo_b).

Lemma difference_missing_exact_witness :
  (compact_replication_difference_turn demo_digest demo_inventory
     (test_replication_buckets demo_digest (inv_all demo_inventory)) (demo_message demo_peer demo_peer) 512 0).1
  = take 512 (List.filter (λ i, negb (bset_mem i demo_peer) &&
      (negb (bset_mem (id_key i) (inventory_keys demo_peer)) || listed_whole demo_peer demo_peer (id_key i)))
      (sendable demo_inventory)) ∧
  (compact_replication_difference_turn demo_digest demo_inventory
     (test_replication_buckets demo_digest (inv_all demo_inventory)) (demo_message demo_peer demo_peer) 512 0).1
  = [demo_id "elm" 300 (demo_sha "b"%char); demo_id "oak" 3 (demo_sha "a"%char)].
Proof.
  split; [|by vm_compute].
  apply (difference_missing_exact demo_digest demo_inventory demo_peer (demo_message demo_peer demo_peer) 512 0).
  - apply demo_inventory_ok.
  - apply demo_inventory_sequences.
  - by apply demo_honest; [apply demo_b_view|].
  - by apply demo_ranges_distinct; vm_compute.
Defined.

Lemma difference_listing_whole_witness :
  let order := listing_order demo_inventory demo_peer 3 in
  let listed := (compact_replication_difference_turn demo_digest demo_inventory
     (test_replication_buckets demo_digest (inv_all demo_inventory)) (demo_message demo_peer []) 1 3).2 in
  order = [("oak", 0%Z)] ∧
  ∃ n, (n <= length order)%nat ∧ listed = ranges (inv_all demo_inventory) (take n order) ∧
    (order ≠ [] → n ≠ 0%nat) ∧ (n <= 1 ∨ length listed <= 1)%nat ∧
    ((n < length order)%nat → (1 < length (ranges (inv_all demo_inventory) (take (S n) order)))%nat).
Proof.
  split; [by vm_compute|].
  apply (difference_listing_whole demo_digest demo_inventory demo_peer (demo_message demo_peer []) 1 3).
  - apply demo_inventory_ok.
  - apply demo_inventory_sequences.
  - by apply demo_honest; [apply demo_b_view|intros i Hi; apply not_elem_of_nil in Hi].
  - by apply demo_ranges_distinct; vm_compute.
Defined.

Lemma difference_counts_witness :
  ∃ peer_only local_only,
    replication_inventory_difference demo_digest demo_inventory_digested
      (test_replication_buckets demo_digest (inv_all demo_inventory_digested)) (demo_message demo_peer demo_peer)
    = Some (peer_only, local_only) ∧
    (peer_only <= lacking demo_peer (inv_all demo_inventory_digested))%Z ∧
    (local_only <= lacking (inv_all demo_inventory_digested) demo_peer)%Z ∧
    ((∀ k, range_differs demo_inventory_digested demo_peer k = true → listed_whole demo_peer demo_peer k = true) →
     peer_only = lacking demo_peer (inv_all demo_inventory_digested) ∧
     local_only = lacking (inv_all demo_inventory_digested) demo_peer).
Proof.
  apply (difference_counts demo_digest demo_inventory_digested demo_peer (demo_message demo_peer demo_peer)).
  - apply (inventory_of_digest demo_held demo_dropped demo_inventory), demo_inventory_of.
  - apply demo_inventory_sequences.
  - by apply demo_honest; [apply demo_b_view|].
  - by vm_compute.
  - by apply demo_ranges_distinct; vm_compute.
  - reflexivity.
  - reflexivity.
  - apply demo_no_collision.
Defined.

Lemma exchange_progress_witness :
  let a := demo_inventory in
  let b := demo_b in
  let answer := (export_replication_difference demo_digest b (demo_message (inv_all a) []) 4096 0).1 in
  let page := (compact_replication_difference_turn demo_digest a (test_replication_buckets demo_digest (inv_all a)) answer
       REPLICATION_EXCHANGE_ENVELOPE_LIMIT 1).1 in
  (1 <= replication_page_limit answer)%nat ∧ (length page <= replication_page_limit answer)%nat ∧ NoDup page ∧
  (∀ i, i ∈ page → i ∈ sendable a ∧ i ∉ inv_all (sn_inventory b)) ∧
  ∃ k, range_differs (sn_inventory b) (inv_all a) k = true ∧
    (∀ i, i ∈ inv_all (sn_inventory b) → id_key i = k → i ∈ rv_envelopes answer) ∧
    (∀ i, i ∈ sendable a → i ∉ inv_all (sn_inventory b) → id_key i = k →
       i ∈ page ∨ length page = replication_page_limit answer).
Proof.
  apply (exchange_progress demo_digest demo_inventory demo_b (demo_message (inv_all demo_inventory) []) 4096 0 1).
  - apply demo_inventory_ok.
  - apply demo_inventory_sequences.
  - apply demo_b_view.
  - by apply demo_honest; [apply demo_inventory_ok|intros i Hi; apply not_elem_of_nil in Hi].
  - by vm_compute.
  - reflexivity.
  - by apply demo_ranges_distinct; vm_compute.
  - apply demo_no_collision.
  - by apply demo_ranges_distinct; vm_compute.
  - exists ("oak", 0%Z). split; [|by vm_compute]. apply bset_mem_spec. by vm_compute.
Defined.

Lemma listing_turn_reaches_witness :
  (∃ n, (n < 2 * 4)%nat ∧ listing_turn_start n 4 = 3%nat) ∧
  (∃ n, (n < 4 * 4)%nat ∧ listing_turn_start (2 + n * 4) 4 = 3%nat).
Proof.
  split; [apply (listing_turn_reaches 4 3); lia|].
  apply (proj2 (listing_turn_reaches 4 3 ltac:(lia) ltac:(lia)) 4%nat 2%nat); lia.
Defined.
