(* ===== verification/Retired.v ===== *)
(** * Tombstone tables and the permanent ledger of retired identities
    (crates/smallclaims/src/store/retired.rs, with [record_checkpoint_tombstones_tx]
    of store/checkpoint.rs and [keep_only_tombstones_tx] and
    [forget_recording_tombstones] of store/checkpoint_trim.rs)

    A checkpoint records a tombstone for every envelope and claim it drops.  Adoption
    and an abandoned trim take tombstones away again; triggers keep each identity a
    tombstone ever had in a ledger that only grows, and a paged import brings in the
    rows that were there before the triggers.  The theorems show that the ledger is
    exactly the identities ever recorded, whatever order pages, recordings and
    withdrawals come in, and that the import ends. *)

From S2P Require Import Prelude BTree Json Digests Slices Inventory.

Local Open Scope claims_scope.
Local Open Scope string_scope.

(** ** Stored identities *)

(** A BLOB of 32 bytes or the original TEXT; SQLite never equates the two. *)
Inductive Identity := DigestId (bytes : list ascii) | TextId (text : string).

#[export] Instance identity_eq_dec : EqDecision Identity.
Proof. solve_decision. Defined.

(** ** A tombstone table and its ledger *)

Record TombRow (T : Type) := { tr_rowid : Z; tr_data : T; tr_checkpoint : string }.
Arguments tr_rowid {T} _.
Arguments tr_data {T} _.
Arguments tr_checkpoint {T} _.

Record TombTable (T I : Type) := {
  tt_rows : list (TombRow T);
  tt_retired : list I;
  tt_withdrawals : list (I * string)
}.
Arguments tt_rows {T I} _.
Arguments tt_retired {T I} _.
Arguments tt_withdrawals {T I} _.
Arguments Build_TombTable {T I} _ _ _.

(** [INSERT OR IGNORE] into a table that is its own primary key. *)
Definition insert_or_ignore {A} `{EqDecision A} (l : list A) (x : A) : list A :=
  if decide (x ∈ l) then l else (l ++ [x])%list.

(** The rowid SQLite gives a new row: one past the highest. *)
Definition next_rowid {T} (rows : list (TombRow T)) : Z := (foldl Z.max 0 (tr_rowid <$> rows) + 1)%Z.

Section table.
Context {T K I : Type} `{EqDecision K} `{EqDecision I}.
(** The primary key of a row and the identity the triggers store of it. *)
Variables (tkey : T → K) (ident : K → I).

Definition row_key (r : TombRow T) : K := tkey (tr_data r).
Definition row_ident (r : TombRow T) : I := ident (row_key r).

(** [INSERT OR IGNORE] of a tombstone, with the trigger [retired_*_recorded_v1]. *)
Definition record_row (checkpoint : string) (tb : TombTable T I) (t : T) : TombTable T I :=
  if decide (tkey t ∈ row_key <$> tt_rows tb) then tb
  else {| tt_rows := (tt_rows tb ++ [{| tr_rowid := next_rowid (tt_rows tb); tr_data := t; tr_checkpoint := checkpoint |}])%list;
          tt_retired := insert_or_ignore (tt_retired tb) (ident (tkey t));
          tt_withdrawals := tt_withdrawals tb |}.

(** [DELETE] of one row, with the trigger [retired_*_withdrawn_v1] before it. *)
Definition withdraw_row (tb : TombTable T I) (r : TombRow T) : TombTable T I :=
  {| tt_rows := List.filter (λ r', negb (tr_rowid r' =? tr_rowid r)%Z) (tt_rows tb);
     tt_retired := insert_or_ignore (tt_retired tb) (row_ident r);
     tt_withdrawals := insert_or_ignore (tt_withdrawals tb) (row_ident r, tr_checkpoint r) |}.

(** [DELETE ... WHERE]. *)
Definition withdraw (p : TombRow T → bool) (tb : TombTable T I) : TombTable T I :=
  foldl withdraw_row tb (List.filter p (tt_rows tb)).

(** [UPDATE] of one row's data and checkpoint, with the trigger [retired_*_rewritten_v1]
    after it; a key another row has is refused. *)
Definition rewrite_row (rowid : Z) (t : T) (checkpoint : string) (tb : TombTable T I) : option (TombTable T I) :=
  if existsb (λ r, negb (tr_rowid r =? rowid)%Z && bool_decide (row_key r = tkey t)) (tt_rows tb) then None
  else match List.find (λ r, (tr_rowid r =? rowid)%Z) (tt_rows tb) with
  | None => Some tb
  | Some old =>
      Some {| tt_rows := (λ r, if (tr_rowid r =? rowid)%Z
                               then {| tr_rowid := rowid; tr_data := t; tr_checkpoint := checkpoint |} else r) <$> tt_rows tb;
              tt_retired := insert_or_ignore (insert_or_ignore (tt_retired tb) (ident (tkey t))) (row_ident old);
              tt_withdrawals := insert_or_ignore (tt_withdrawals tb) (row_ident old, tr_checkpoint old) |}
  end.

(** The newest row goes if it is of this checkpoint. *)
Definition forget_newest (checkpoint : string) (tb : TombTable T I) : option (TombTable T I) :=
  match last (tt_rows tb) with
  | Some r => if String.eqb (tr_checkpoint r) checkpoint then Some (withdraw_row tb r) else None
  | None => None
  end.

(** One page of rows after a rowid, and the union of the rows of a page into the ledger. *)
Definition page_rows (limit : nat) (after : Z) (tb : TombTable T I) : list (TombRow T) :=
  take limit (List.filter (λ r, after <? tr_rowid r)%Z (tt_rows tb)).
Definition import_rows (after through : Z) (tb : TombTable T I) : TombTable T I :=
  {| tt_rows := tt_rows tb;
     tt_retired := foldl insert_or_ignore (tt_retired tb)
                     (row_ident <$> List.filter (λ r, (after <? tr_rowid r) && (tr_rowid r <=? through))%Z (tt_rows tb));
     tt_withdrawals := tt_withdrawals tb |}.
End table.

(** ** The two tables and the import's cursor *)

Definition envelope_key : Type := string * Z * string.
Definition et_key (e : EnvelopeTombstone) : envelope_key := (et_writer e, et_sequence e, et_envelope_hash e).

Record Ledger := {
  lg_claims : TombTable ClaimTombstone Identity;
  lg_envelopes : TombTable EnvelopeTombstone (string * Z * Identity);
  lg_cursor : option string
}.

(** [str::parse::<i64>]. *)
Definition digit_val (c : ascii) : option Z :=
  if (48 <=? byte_val c)%Z && (byte_val c <=? 57)%Z then Some (byte_val c - 48)%Z else None.
Fixpoint parse_digits (acc : Z) (s : string) : option Z :=
  match s with
  | EmptyString => Some acc
  | String c s => d ← digit_val c; parse_digits (acc * 10 + d)%Z s
  end.
Definition parse_i64 (s : string) : option Z :=
  let in_range (o : option Z) := n ← o; if (- i64_max - 1 <=? n)%Z && (n <=? i64_max)%Z then Some n else None in
  match s with
  | EmptyString => None
  | String c r =>
      if ascii_dec c "-" then match r with EmptyString => None | _ => in_range (Z.opp <$> parse_digits 0 r) end
      else if ascii_dec c "+" then match r with EmptyString => None | _ => in_range (parse_digits 0 r) end
      else in_range (parse_digits 0 s)
  end.

(** [i64]'s [Display]. *)
Definition display_i64 (z : Z) : string := if (z <? 0)%Z then "-" +:+ decimal (- z) else decimal z.

Inductive ImportCursor := CurClaims (rowid : Z) | CurEnvelopes (rowid : Z) | CurDone.

#[export] Instance import_cursor_eq_dec : EqDecision ImportCursor.
Proof. solve_decision. Defined.

Definition cursor_read (value : option string) : result ImportCursor string :=
  match value with
  | None => Ok (CurClaims 0)
  | Some value =>
      if String.eqb value "done" then Ok CurDone
      else match split_once ":" value with
      | Some (table, rowid) =>
          if String.eqb table "claims" then
            match parse_i64 rowid with Some n => Ok (CurClaims n) | None => Err "the rowid does not parse" end
          else if String.eqb table "envelopes" then
            match parse_i64 rowid with Some n => Ok (CurEnvelopes n) | None => Err "the rowid does not parse" end
          else Err ("retired identity import cursor `" +:+ value +:+ "` is malformed")
      | None => Err ("retired identity import cursor `" +:+ value +:+ "` is malformed")
      end
  end.
Definition cursor_write (c : ImportCursor) : string :=
  match c with
  | CurClaims rowid => "claims:" +:+ display_i64 rowid
  | CurEnvelopes rowid => "envelopes:" +:+ display_i64 rowid
  | CurDone => "done"
  end.

Record RetiredImport := { im_scanned : nat; im_done : bool }.

(** ** The operations *)

Section ledger.
(** SQLite's [unhex]. *)
Variable unhex : string → list ascii.

Definition identity_sql (value : string) : Identity :=
  if canonical_hash value then DigestId (unhex value) else TextId value.

Definition claim_ident (id : string) : Identity := identity_sql id.
Definition envelope_ident (k : envelope_key) : string * Z * Identity := (k.1.1, k.1.2, identity_sql k.2).

Definition claim_retired (s : Ledger) (id : string) : bool :=
  bool_decide (identity_sql id ∈ tt_retired (lg_claims s)).
Definition envelope_retired (s : Ledger) (writer : string) (sequence : Z) (envelope_hash : string) : bool :=
  bool_decide ((writer, sequence, identity_sql envelope_hash) ∈ tt_retired (lg_envelopes s)).

Definition IMPORT_PAGE : nat := 4096.

(** The rowid the page read ends at. *)
Definition page_through {T} (page : list (TombRow T)) : option Z :=
  match page with [] => None | r :: l => Some (foldl Z.max (tr_rowid r) (tr_rowid <$> l)) end.

Definition import_retired_page (s : Ledger) : result (RetiredImport * Ledger) string :=
  let? cursor := cursor_read (lg_cursor s) in
  let write (scanned : nat) (next : ImportCursor) (claims : TombTable ClaimTombstone Identity)
            (envelopes : TombTable EnvelopeTombstone (string * Z * Identity)) :=
    Ok ({| im_scanned := scanned; im_done := bool_decide (next = CurDone) |},
        {| lg_claims := claims; lg_envelopes := envelopes; lg_cursor := Some (cursor_write next) |}) in
  match cursor with
  | CurDone => Ok ({| im_scanned := 0; im_done := true |}, s)
  | CurClaims after =>
      let page := page_rows IMPORT_PAGE after (lg_claims s) in
      match page_through page with
      | Some through =>
          write (length page) (CurClaims through)
            (import_rows ct_id claim_ident after through (lg_claims s)) (lg_envelopes s)
      | None => write (length page) (CurEnvelopes 0) (lg_claims s) (lg_envelopes s)
      end
  | CurEnvelopes after =>
      let page := page_rows IMPORT_PAGE after (lg_envelopes s) in
      match page_through page with
      | Some through =>
          write (length page) (CurEnvelopes through) (lg_claims s)
            (import_rows et_key envelope_ident after through (lg_envelopes s))
      | None => write (length page) CurDone (lg_claims s) (lg_envelopes s)
      end
  end.

(** The loop of [import_retired_identities_paced]. *)
Fixpoint import_paced (fuel : nat) (s : Ledger) : option (result Ledger string) :=
  match fuel with
  | 0 => None
  | S fuel =>
      match import_retired_page s with
      | Err e => Some (Err e)
      | Ok (page, s) => if im_done page then Some (Ok s) else import_paced fuel s
      end
  end.

Definition retired_identity_import_done (s : Ledger) : result bool string :=
  let? cursor := cursor_read (lg_cursor s) in Ok (bool_decide (cursor = CurDone)).

(** [record_checkpoint_tombstones_tx]: a number that does not fit the column fails the
    transaction. *)
Definition fits_i64 (n : Z) : bool := (n <=? i64_max)%Z.
Definition record_envelopes (checkpoint : string) (s : result Ledger string) (e : EnvelopeTombstone) : result Ledger string :=
  let? s := s in
  if fits_i64 (et_sequence e) && fits_i64 (et_accepted_at_unix_ms e) then
    Ok {| lg_claims := lg_claims s; lg_envelopes := record_row et_key envelope_ident checkpoint (lg_envelopes s) e;
          lg_cursor := lg_cursor s |}
  else Err "out of range integral type conversion attempted".
Definition record_claims (checkpoint : string) (s : result Ledger string) (c : ClaimTombstone) : result Ledger string :=
  let? s := s in
  if fits_i64 (ct_sequence c) && fits_i64 (ct_accepted_at_unix_ms c) then
    Ok {| lg_claims := record_row ct_id claim_ident checkpoint (lg_claims s) c; lg_envelopes := lg_envelopes s;
          lg_cursor := lg_cursor s |}
  else Err "out of range integral type conversion attempted".
Definition record_checkpoint_tombstones_tx (checkpoint : string) (envelopes : list EnvelopeTombstone)
    (claims : list ClaimTombstone) (s : Ledger) : result Ledger string :=
  foldl (record_claims checkpoint) (foldl (record_envelopes checkpoint) (Ok s) envelopes) claims.

(** [keep_only_tombstones_tx]: the rest goes. *)
Definition keep_only_tombstones_tx (envelopes : list EnvelopeTombstone) (claims : list ClaimTombstone) (s : Ledger) : Ledger :=
  {| lg_claims := withdraw ct_id claim_ident (λ r, negb (bool_decide (ct_id (tr_data r) ∈ ct_id <$> claims))) (lg_claims s);
     lg_envelopes := withdraw et_key envelope_ident
                       (λ r, negb (bool_decide (et_key (tr_data r) ∈ et_key <$> envelopes))) (lg_envelopes s);
     lg_cursor := lg_cursor s |}.

(** A step of the inner loop of [forget_recording_tombstones]: envelopes first. *)
Definition forget_step (checkpoint : string) (s : Ledger) : option Ledger :=
  match forget_newest et_key envelope_ident checkpoint (lg_envelopes s) with
  | Some envelopes => Some {| lg_claims := lg_claims s; lg_envelopes := envelopes; lg_cursor := lg_cursor s |}
  | None =>
      match forget_newest ct_id claim_ident checkpoint (lg_claims s) with
      | Some claims => Some {| lg_claims := claims; lg_envelopes := lg_envelopes s; lg_cursor := lg_cursor s |}
      | None => None
      end
  end.
End ledger.

(** ** What a table and its ledger keep true *)

Lemma elem_of_insert_or_ignore {A} `{EqDecision A} (l : list A) x y : y ∈ insert_or_ignore l x ↔ y ∈ l ∨ y = x.
Proof. unfold insert_or_ignore. case_decide; set_solver. Qed.

Lemma elem_of_insert_all {A} `{EqDecision A} (xs l : list A) y : y ∈ foldl insert_or_ignore l xs ↔ y ∈ l ∨ y ∈ xs.
Proof.
  revert l. induction xs as [|x xs IH]; intros l; cbn; [set_solver|].
  rewrite IH, elem_of_insert_or_ignore, elem_of_cons. tauto.
Qed.

Lemma next_rowid_above {T} (rows : list (TombRow T)) r : r ∈ rows → (tr_rowid r < next_rowid rows)%Z.
Proof.
  intros Hr. destruct (foldl_max (tr_rowid <$> rows) 0) as (_ & Hm & _).
  specialize (Hm (tr_rowid r)). rewrite list_elem_of_fmap in Hm. unfold next_rowid.
  assert (tr_rowid r <= foldl Z.max 0 (tr_rowid <$> rows))%Z by eauto. lia.
Qed.

Lemma next_rowid_pos {T} (rows : list (TombRow T)) : (0 < next_rowid rows)%Z.
Proof. unfold next_rowid. destruct (foldl_max (tr_rowid <$> rows) 0) as (? & _). lia. Qed.

Section table_inv.
Context {T K I : Type} `{EqDecision K} `{EqDecision I}.
Context (tkey : T → K) (ident : K → I).
Implicit Types (tb : TombTable T I) (r : TombRow T) (ever : list K) (pend : option Z).

(** Whether the import has yet to read a row; [None] when it is past the table. *)
Definition awaits pend r : Prop := match pend with Some after => (after < tr_rowid r)%Z | None => False end.

(** [ever] is every key the table has had since the ledger exists. *)
Record tomb_inv pend ever tb : Prop := {
  ti_nodup : NoDup (tr_rowid <$> tt_rows tb);
  ti_pos r : r ∈ tt_rows tb → (0 < tr_rowid r)%Z;
  ti_sound i : i ∈ tt_retired tb → ∃ k, k ∈ ever ∧ ident k = i;
  ti_rows r : r ∈ tt_rows tb → row_key tkey r ∈ ever ∧ (row_ident tkey ident r ∈ tt_retired tb ∨ awaits pend r);
  ti_ever k : k ∈ ever → ident k ∈ tt_retired tb ∨ ∃ r, r ∈ tt_rows tb ∧ row_key tkey r = k
}.

Lemma record_row_inv pend ever tb ck t :
  tomb_inv pend ever tb → tomb_inv pend (tkey t :: ever) (record_row tkey ident ck tb t).
Proof.
  intros [Hn Hp Hs Hr He]. unfold record_row. case_decide as Hk.
  - apply list_elem_of_fmap in Hk as (r & Hk & Hin). split; [done|done| | |].
    + intros i (k & ? & ?)%Hs. exists k. set_solver.
    + intros r' Hr'. destruct (Hr r' Hr'). set_solver.
    + intros k [-> |Hk']%elem_of_cons; [|by apply He]. right. eauto.
  - split; cbn.
    + rewrite fmap_app. apply NoDup_app. split_and!; [done| |apply NoDup_singleton].
      intros x (r & -> & Hr')%list_elem_of_fmap Hx%list_elem_of_singleton. cbn in Hx.
      pose proof (next_rowid_above _ _ Hr'). lia.
    + intros r [?| ->%list_elem_of_singleton]%elem_of_app; [by apply Hp|apply next_rowid_pos].
    + intros i [(k & ? & ?)%Hs| ->]%elem_of_insert_or_ignore; [|set_solver]. exists k. set_solver.
    + intros r [Hin| ->%list_elem_of_singleton]%elem_of_app; rewrite elem_of_insert_or_ignore; [|set_solver].
      destruct (Hr r Hin). set_solver.
    + intros k. rewrite elem_of_cons, elem_of_insert_or_ignore. intros [-> |Hk']; [by left; right|].
      destruct (He k Hk') as [?|(r & ? & ?)]; [by left; left|]. right. exists r. set_solver.
Qed.

Lemma elem_of_withdraw_row tb r0 r :
  r ∈ tt_rows (withdraw_row tkey ident tb r0) ↔ r ∈ tt_rows tb ∧ tr_rowid r ≠ tr_rowid r0.
Proof. cbn. rewrite filter_elem_of, negb_true_iff, Z.eqb_neq. tauto. Qed.

Lemma tr_rowid_inj tb r r' : NoDup (tr_rowid <$> tt_rows tb) →
  r ∈ tt_rows tb → r' ∈ tt_rows tb → tr_rowid r = tr_rowid r' → r = r'.
Proof.
  intros Hn (i & Hi)%list_elem_of_lookup_1 (j & Hj)%list_elem_of_lookup_1 E.
  assert (i = j) as ->; [|congruence]. eapply (NoDup_lookup _ _ _ (tr_rowid r) Hn).
  - by rewrite list_lookup_fmap, Hi.
  - by rewrite list_lookup_fmap, Hj, E.
Qed.

Lemma withdraw_row_inv pend ever tb r0 :
  r0 ∈ tt_rows tb → tomb_inv pend ever tb → tomb_inv pend ever (withdraw_row tkey ident tb r0).
Proof.
  intros Hin [Hn Hp Hs Hr He]. split.
  - by apply NoDup_fmap_filter.
  - intros r [? _]%elem_of_withdraw_row. by apply Hp.
  - cbn. intros i [?| ->]%elem_of_insert_or_ignore; [by apply Hs|]. exists (row_key tkey r0). split; [by apply Hr|done].
  - intros r [Hr' _]%elem_of_withdraw_row. cbn. rewrite elem_of_insert_or_ignore. destruct (Hr r Hr'). tauto.
  - intros k Hk. setoid_rewrite elem_of_withdraw_row. cbn. rewrite elem_of_insert_or_ignore.
    destruct (He k Hk) as [?|(r & Hr' & <-)]; [tauto|].
    destruct (decide (tr_rowid r = tr_rowid r0)) as [E|]; [|eauto].
    rewrite (tr_rowid_inj tb r r0 Hn Hr' Hin E). tauto.
Qed.

Lemma withdraw_inv pend ever tb p : tomb_inv pend ever tb → tomb_inv pend ever (withdraw tkey ident p tb).
Proof.
  intros Hi. unfold withdraw. pose proof (NoDup_fmap_filter tr_rowid p _ (ti_nodup _ _ _ Hi)) as Hl.
  assert (∀ r, r ∈ List.filter p (tt_rows tb) → r ∈ tt_rows tb) as Hsub by (intros r [??]%filter_elem_of; done).
  revert Hl Hsub. generalize (List.filter p (tt_rows tb)) as l. intros l. revert tb Hi.
  induction l as [|r l IH]; intros tb Hi Hl Hsub; [done|]. cbn in Hl. apply NoDup_cons in Hl as [Hr Hl]. cbn.
  apply IH; [apply withdraw_row_inv; [set_solver|done]|done|]. intros r' Hr'.
  apply elem_of_withdraw_row. split; [set_solver|]. intros E. apply Hr, list_elem_of_fmap. by exists r'.
Qed.

(** What remains is what the condition does not name. *)
Lemma elem_of_withdraw tb p r : NoDup (tr_rowid <$> tt_rows tb) →
  r ∈ tt_rows (withdraw tkey ident p tb) ↔ r ∈ tt_rows tb ∧ p r = false.
Proof.
  intros Hn. unfold withdraw.
  assert (∀ l tb', r ∈ tt_rows (foldl (withdraw_row tkey ident) tb' l) ↔
            r ∈ tt_rows tb' ∧ tr_rowid r ∉ tr_rowid <$> l) as Hf.
  { induction l as [|r0 l IH]; intros tb'; cbn -[withdraw_row]; [set_solver|].
    rewrite IH, elem_of_withdraw_row, not_elem_of_cons. tauto. }
  rewrite Hf. split; intros [Hr Hx]; (split; [done|]).
  - apply not_true_iff_false. intros Hp. apply Hx, list_elem_of_fmap_2. by apply filter_elem_of.
  - intros (r' & E & [Hr' Hp]%filter_elem_of)%list_elem_of_fmap.
    rewrite (tr_rowid_inj tb r r' Hn Hr Hr' E) in Hx. congruence.
Qed.

Lemma rewrite_row_inv pend ever tb tb' rowid t ck :
  rewrite_row tkey ident rowid t ck tb = Some tb' → rowid ∈ tr_rowid <$> tt_rows tb →
  tomb_inv pend ever tb → tomb_inv pend (tkey t :: ever) tb'.
Proof.
  intros E Hex [Hn Hp Hs Hr He]. unfold rewrite_row in E. destruct (existsb _ _); [done|].
  destruct (List.find _ _) as [old|] eqn:Ef; simplify_eq.
  2: { apply list_elem_of_fmap in Hex as (r & -> & Hr'). eapply List.find_none in Ef; [|by apply list_elem_of_In].
       cbn in Ef. by rewrite Z.eqb_refl in Ef. }
  apply List.find_some in Ef as [Hold%list_elem_of_In Eo%Z.eqb_eq].
  assert (∀ r, r ∈ tt_rows tb → tr_rowid r = rowid → r = old) as Hu.
  { intros r ? ?. apply (tr_rowid_inj tb); [done..|congruence]. }
  set (g := λ r, if (tr_rowid r =? rowid)%Z then {| tr_rowid := rowid; tr_data := t; tr_checkpoint := ck |} else r).
  assert (∀ r, tr_rowid (g r) = tr_rowid r) as Hg.
  { intros r. unfold g. by destruct (Z.eqb_spec (tr_rowid r) rowid) as [<-|]. }
  split; cbn.
  - rewrite <-list_fmap_compose. rewrite (list_fmap_ext (tr_rowid ∘ g) tr_rowid); [done|]. intros; apply Hg.
  - intros r (r' & -> & Hr')%list_elem_of_fmap. rewrite Hg. by apply Hp.
  - intros i. rewrite !elem_of_insert_or_ignore. intros [[(k & ? & ?)%Hs| ->]| ->].
    + exists k. set_solver.
    + exists (tkey t). set_solver.
    + exists (row_key tkey old). split; [|done]. apply elem_of_cons. right. by apply Hr.
  - intros r (r' & -> & Hr')%list_elem_of_fmap. rewrite !elem_of_insert_or_ignore. unfold g.
    destruct (Z.eqb_spec (tr_rowid r') rowid) as [Ei|]; [unfold row_ident, row_key; cbn; set_solver|].
    destruct (Hr r' Hr'). set_solver.
  - intros k. rewrite elem_of_cons, !elem_of_insert_or_ignore. intros [-> |[?|(r & Hr' & <-)]%He]; [tauto..|].
    destruct (decide (tr_rowid r = rowid)) as [Ei|Ei]; [rewrite (Hu r Hr' Ei); tauto|].
    right. exists r. split; [|done]. apply list_elem_of_fmap. exists r. split; [|done]. unfold g.
    by rewrite (proj2 (Z.eqb_neq _ _) Ei).
Qed.

Lemma forget_newest_inv pend ever tb tb' ck :
  forget_newest tkey ident ck tb = Some tb' → tomb_inv pend ever tb → tomb_inv pend ever tb'.
Proof.
  unfold forget_newest. intros E Hi. destruct (last (tt_rows tb)) as [r|] eqn:El; [|done].
  destruct (String.eqb _ _); simplify_eq. apply withdraw_row_inv; [by eapply last_Some_elem_of|done].
Qed.

(** A page moves the import on: what it read is in the ledger. *)
Lemma import_rows_inv ever tb after through :
  tomb_inv (Some after) ever tb → tomb_inv (Some through) ever (import_rows tkey ident after through tb).
Proof.
  intros [Hn Hp Hs Hr He]. split; cbn; [done..| | |].
  - intros i [?|(r & -> & [Hin _]%filter_elem_of)%list_elem_of_fmap]%elem_of_insert_all; [by apply Hs|].
    exists (row_key tkey r). split; [by apply Hr|done].
  - intros r Hin. destruct (Hr r Hin) as [? Hw]. split; [done|]. rewrite elem_of_insert_all. cbn.
    destruct Hw as [?|Hw]; [by left; left|]. destruct (decide (tr_rowid r <= through)%Z); [left; right|right; lia].
    apply list_elem_of_fmap_2, filter_elem_of. split; [done|]. apply andb_true_iff. split; [apply Z.ltb_lt|apply Z.leb_le]; done.
  - intros k Hk. rewrite elem_of_insert_all. destruct (He k Hk) as [?|?]; [tauto|by right].
Qed.

(** An empty page is the end of the table. *)
Lemma import_end_inv ever tb after limit : (0 < limit)%nat → page_rows limit after tb = [] →
  tomb_inv (Some after) ever tb → tomb_inv None ever tb.
Proof.
  intros Hl Hpg [Hn Hp Hs Hr He]. split; try done. intros r Hin. destruct (Hr r Hin) as [? [?|Hw]]; [by eauto|].
  exfalso. unfold page_rows in Hpg. destruct (List.filter _ _) as [|r' l] eqn:Ef; [|by destruct limit; [lia|]].
  apply (not_elem_of_nil r). rewrite <-Ef. apply filter_elem_of. split; [done|]. by apply Z.ltb_lt.
Qed.

Lemma page_through_spec limit after tb through : page_through (page_rows limit after tb) = Some through →
  ∃ r, r ∈ tt_rows tb ∧ tr_rowid r = through ∧ (after < through)%Z.
Proof.
  intros E. assert (∃ r, r ∈ page_rows limit after tb ∧ tr_rowid r = through) as (r & Hr & <-).
  { destruct (page_rows limit after tb) as [|r l]; cbn in E; [done|]. simplify_eq.
    destruct (foldl_max (tr_rowid <$> l) (tr_rowid r)) as (_ & _ & [-> |(r' & -> & ?)%list_elem_of_fmap]);
      [exists r|exists r']; set_solver. }
  exists r. apply (subseteq_take limit), filter_elem_of in Hr as [? ?%Z.ltb_lt]. done.
Qed.
End table_inv.

(** ** The cursor's text *)

Lemma digit_val_char x : (x < 10)%N → digit_val (pretty_N_char x) = Some (Z.of_N x).
Proof.
  intros Hx. assert (In x [0; 1; 2; 3; 4; 5; 6; 7; 8; 9]%N) as Hin by (cbn; lia).
  cbn in Hin. repeat destruct Hin as [<-|Hin]; try done.
Qed.

Lemma parse_digits_go x s : parse_digits 0 (pretty_N_go x s) = parse_digits (Z.of_N x) s.
Proof.
  revert s. induction (N.lt_wf_0 x) as [x _ IH]; intros s. destruct (decide (0 < x)%N) as [Hx|Hx].
  - rewrite pretty_N_go_step by done. rewrite IH by (apply N.div_lt; lia). cbn [parse_digits].
    rewrite digit_val_char by (apply N.mod_lt; lia). cbn. f_equal.
    rewrite N2Z.inj_div, N2Z.inj_mod, Z.mul_comm. symmetry. apply (Z.div_mod (Z.of_N x) 10). lia.
  - assert (x = 0%N) as -> by lia. by rewrite pretty_N_go_0.
Qed.

Lemma parse_decimal z : (0 <= z)%Z → parse_digits 0 (decimal z) = Some z ∧ ∃ c r, decimal z = String c r.
Proof.
  intros Hz. assert (parse_digits 0 (decimal z) = Some z) as E.
  { unfold decimal, pretty, pretty_N. destruct (decide (Z.to_N z = 0%N)) as [E|E].
    - transitivity (Some 0%Z); [done|f_equal; lia].
    - rewrite parse_digits_go. cbn [parse_digits]. f_equal. lia. }
  split; [done|]. destruct (decimal z) as [|c r] eqn:Ed; [|eauto]. cbn in E. simplify_eq.
Qed.

Lemma parse_display z : (- i64_max - 1 <= z <= i64_max)%Z → parse_i64 (display_i64 z) = Some z.
Proof.
  intros Hz. unfold display_i64. destruct (Z.ltb_spec z 0) as [Hn|Hn].
  - destruct (parse_decimal (- z)) as [E (c & r & Ed)]; [lia|].
    change ("-" +:+ decimal (- z)) with (String "-" (decimal (- z))). unfold parse_i64.
    destruct (ascii_dec _ _); [|done]. rewrite Ed in *. rewrite E. cbn -[Z.leb i64_max].
    rewrite Z.opp_involutive. rewrite !(proj2 (Z.leb_le _ _)) by lia. done.
  - destruct (parse_decimal z) as [E (c & r & Ed)]; [lia|]. rewrite Ed in *. unfold parse_i64. rewrite E.
    destruct (ascii_dec c "-") as [-> |_]; [done|]. destruct (ascii_dec c "+") as [-> |_]; [done|].
    cbn -[Z.leb i64_max]. rewrite !(proj2 (Z.leb_le _ _)) by lia. done.
Qed.

(** What [write] stores, [read] gives back. *)
Lemma cursor_roundtrip c :
  match c with CurClaims n | CurEnvelopes n => (- i64_max - 1 <= n <= i64_max)%Z | CurDone => True end →
  cursor_read (Some (cursor_write c)) = Ok c.
Proof.
  destruct c as [n|n|]; intros Hn; [| |done]; pose proof (parse_display n Hn) as E; revert E;
    cbn [cursor_write]; generalize (display_i64 n); intros t E.
  - transitivity (match parse_i64 t with Some n => Ok (CurClaims n) | None => Err "the rowid does not parse" end);
      [reflexivity|by rewrite E].
  - transitivity (match parse_i64 t with Some n => Ok (CurEnvelopes n) | None => Err "the rowid does not parse" end);
      [reflexivity|by rewrite E].
Qed.

(** ** The ledger's history *)

Section history.
Context (unhex : string → list ascii).

Inductive LedgerOp :=
| OpRecord (checkpoint : string) (envelopes : list EnvelopeTombstone) (claims : list ClaimTombstone)
| OpKeepOnly (envelopes : list EnvelopeTombstone) (claims : list ClaimTombstone)
| OpForget (checkpoint : string)
| OpRewriteClaim (rowid : Z) (c : ClaimTombstone) (checkpoint : string)
| OpRewriteEnvelope (rowid : Z) (e : EnvelopeTombstone) (checkpoint : string)
| OpImport.

(** Rowids are 64-bit. *)
Definition rowids_fit (s : Ledger) : Prop :=
  (∀ r, r ∈ tt_rows (lg_claims s) → (tr_rowid r <= i64_max)%Z) ∧
  (∀ r, r ∈ tt_rows (lg_envelopes s) → (tr_rowid r <= i64_max)%Z).

(** One committed transaction on the tables. *)
Inductive ledger_step : Ledger → LedgerOp → Ledger → Prop :=
| ls_record ck es cs s s' :
    record_checkpoint_tombstones_tx unhex ck es cs s = Ok s' → rowids_fit s' → ledger_step s (OpRecord ck es cs) s'
| ls_keep es cs s : ledger_step s (OpKeepOnly es cs) (keep_only_tombstones_tx unhex es cs s)
| ls_forget ck s s' : forget_step unhex ck s = Some s' → ledger_step s (OpForget ck) s'
| ls_rewrite_claim rowid c ck s t :
    rewrite_row ct_id (claim_ident unhex) rowid c ck (lg_claims s) = Some t → rowid ∈ tr_rowid <$> tt_rows (lg_claims s) →
    ledger_step s (OpRewriteClaim rowid c ck) {| lg_claims := t; lg_envelopes := lg_envelopes s; lg_cursor := lg_cursor s |}
| ls_rewrite_envelope rowid e ck s t :
    rewrite_row et_key (envelope_ident unhex) rowid e ck (lg_envelopes s) = Some t →
    rowid ∈ tr_rowid <$> tt_rows (lg_envelopes s) →
    ledger_step s (OpRewriteEnvelope rowid e ck) {| lg_claims := lg_claims s; lg_envelopes := t; lg_cursor := lg_cursor s |}
| ls_import s page s' : import_retired_page unhex s = Ok (page, s') → ledger_step s OpImport s'.

(** The keys an operation records. *)
Definition op_claims (op : LedgerOp) : list string :=
  match op with
  | OpRecord _ _ cs => ct_id <$> cs
  | OpRewriteClaim _ c _ => [ct_id c]
  | _ => []
  end.
Definition op_envelopes (op : LedgerOp) : list envelope_key :=
  match op with
  | OpRecord _ es _ => et_key <$> es
  | OpRewriteEnvelope _ e _ => [et_key e]
  | _ => []
  end.

(** Every key the tables have had: those at the start and those recorded since. *)
Definition ever_claims (s0 : Ledger) (tr : list LedgerOp) : list string :=
  (row_key ct_id <$> tt_rows (lg_claims s0)) ++ (tr ≫= op_claims).
Definition ever_envelopes (s0 : Ledger) (tr : list LedgerOp) : list envelope_key :=
  (row_key et_key <$> tt_rows (lg_envelopes s0)) ++ (tr ≫= op_envelopes).

(** A store whose ledger was just created beside tables that already have rows. *)
Definition ledger_fresh (s : Ledger) : Prop :=
  tt_retired (lg_claims s) = [] ∧ tt_retired (lg_envelopes s) = [] ∧ lg_cursor s = None ∧ rowids_fit s ∧
  NoDup (tr_rowid <$> tt_rows (lg_claims s)) ∧ NoDup (tr_rowid <$> tt_rows (lg_envelopes s)) ∧
  (∀ r, r ∈ tt_rows (lg_claims s) → (0 < tr_rowid r)%Z) ∧ (∀ r, r ∈ tt_rows (lg_envelopes s) → (0 < tr_rowid r)%Z).

(** How far the import has come in each table. *)
Definition claims_pending (c : ImportCursor) : option Z := match c with CurClaims n => Some n | _ => None end.
Definition envelopes_pending (c : ImportCursor) : option Z :=
  match c with CurClaims _ => Some 0%Z | CurEnvelopes n => Some n | CurDone => None end.

Definition ledger_inv_at (c : ImportCursor) (claims : list string) (envelopes : list envelope_key) (s : Ledger) : Prop :=
  rowids_fit s ∧ cursor_read (lg_cursor s) = Ok c ∧
  tomb_inv ct_id (claim_ident unhex) (claims_pending c) claims (lg_claims s) ∧
  tomb_inv et_key (envelope_ident unhex) (envelopes_pending c) envelopes (lg_envelopes s).
Definition ledger_inv (claims : list string) (envelopes : list envelope_key) (s : Ledger) : Prop :=
  ∃ c, ledger_inv_at c claims envelopes s.

Lemma tomb_inv_ext {T K I} (tkey : T → K) (ident : K → I) pend ever ever' tb :
  (∀ k, k ∈ ever ↔ k ∈ ever') → tomb_inv tkey ident pend ever tb → tomb_inv tkey ident pend ever' tb.
Proof.
  intros Hx [Hn Hp Hs Hr He]. split; [done|done| | |].
  - intros i (k & ?%Hx & ?)%Hs. eauto.
  - intros r Hin. destruct (Hr r Hin) as [?%Hx ?]. done.
  - intros k ?%Hx. by apply He.
Qed.

Lemma record_all_inv {T K I} `{EqDecision K, EqDecision I} (tkey : T → K) (ident : K → I) pend ck ts : ∀ ever tb,
  tomb_inv tkey ident pend ever tb →
  tomb_inv tkey ident pend (ever ++ (tkey <$> ts)) (foldl (record_row tkey ident ck) tb ts).
Proof.
  induction ts as [|t ts IH]; intros ever tb Hi; cbn.
  - by rewrite app_nil_r.
  - eapply tomb_inv_ext; [|apply IH, record_row_inv, Hi]. set_solver.
Qed.

Lemma record_envelopes_Err ck es e : foldl (record_envelopes unhex ck) (Err e) es = Err e.
Proof. by induction es. Qed.
Lemma record_claims_Err ck cs e : foldl (record_claims unhex ck) (Err e) cs = Err e.
Proof. by induction cs. Qed.

Lemma record_tx_Ok ck es cs s s' : record_checkpoint_tombstones_tx unhex ck es cs s = Ok s' →
  s' = {| lg_claims := foldl (record_row ct_id (claim_ident unhex) ck) (lg_claims s) cs;
          lg_envelopes := foldl (record_row et_key (envelope_ident unhex) ck) (lg_envelopes s) es;
          lg_cursor := lg_cursor s |}.
Proof.
  unfold record_checkpoint_tombstones_tx. revert s. induction es as [|e es IH]; intros s.
  - revert s. induction cs as [|c cs IH]; intros s; cbn.
    + intros [= <-]. by destruct s.
    + destruct (fits_i64 _ && fits_i64 _); [|by rewrite record_claims_Err]. by intros ->%IH.
  - cbn. destruct (fits_i64 _ && fits_i64 _); [|by rewrite record_envelopes_Err, record_claims_Err].
    by intros ->%IH.
Qed.

(** Numbers that fit the columns are recorded. *)
Lemma record_tx_total ck es cs s :
  (∀ e, e ∈ es → fits_i64 (et_sequence e) = true ∧ fits_i64 (et_accepted_at_unix_ms e) = true) →
  (∀ c, c ∈ cs → fits_i64 (ct_sequence c) = true ∧ fits_i64 (ct_accepted_at_unix_ms c) = true) →
  ∃ s', record_checkpoint_tombstones_tx unhex ck es cs s = Ok s'.
Proof.
  unfold record_checkpoint_tombstones_tx. intros He Hc. revert s. induction es as [|e es IH]; intros s.
  - clear He. revert s. induction cs as [|c cs IH]; intros s; cbn; [eauto|].
    destruct (Hc c) as [-> ->]; [set_solver|]. apply IH. set_solver.
  - cbn. destruct (He e) as [-> ->]; [set_solver|]. apply IH. set_solver.
Qed.

Lemma page_through_None {T} (page : list (TombRow T)) : page_through page = None → page = [].
Proof. by destruct page. Qed.

(** What the import has left to read. *)
Definition rows_after {T I} (after : Z) (tb : TombTable T I) : nat :=
  length (List.filter (λ r, after <? tr_rowid r)%Z (tt_rows tb)).
Definition import_left (c : ImportCursor) (s : Ledger) : nat :=
  match c with
  | CurClaims n => rows_after n (lg_claims s) + rows_after 0 (lg_envelopes s) + 2
  | CurEnvelopes n => rows_after n (lg_envelopes s) + 1
  | CurDone => 0
  end.

Lemma rows_after_le {T I} after (tb : TombTable T I) : rows_after after tb <= length (tt_rows tb).
Proof. apply List.filter_length_le. Qed.

Lemma rows_after_page {T I} limit after (tb : TombTable T I) through :
  page_through (page_rows limit after tb) = Some through → rows_after through tb < rows_after after tb.
Proof.
  intros (r & Hin & <- & Hlt)%page_through_spec. unfold rows_after. induction (tt_rows tb) as [|r' l IH]; [by apply not_elem_of_nil in Hin|].
  cbn. apply elem_of_cons in Hin as [<-|Hin].
  - rewrite Z.ltb_irrefl, (proj2 (Z.ltb_lt _ _) Hlt). cbn. apply Nat.lt_succ_r. clear IH.
    induction l as [|x l IH]; cbn; [done|]. destruct (Z.ltb_spec (tr_rowid r) (tr_rowid x)), (Z.ltb_spec after (tr_rowid x)); cbn; lia.
  - specialize (IH Hin). destruct (Z.ltb_spec (tr_rowid r) (tr_rowid r')), (Z.ltb_spec after (tr_rowid r')); cbn; lia.
Qed.

(** A page of an import that is not done moves it on. *)
Lemma import_page_at c C E s : ledger_inv_at c C E s → c ≠ CurDone →
  ∃ page s' c', import_retired_page unhex s = Ok (page, s') ∧ ledger_inv_at c' C E s' ∧
    im_done page = bool_decide (c' = CurDone) ∧ import_left c' s' < import_left c s.
Proof.
  intros (Hf & Ec & Hc & He) Hd. unfold import_retired_page. rewrite Ec. cbn [result_bind].
  assert (∀ n, (0 < n)%Z → (n <= i64_max)%Z → (- i64_max - 1 <= n <= i64_max)%Z) as Hrange.
  { intros n ??. assert (0 <= i64_max)%Z by done. lia. }
  destruct c as [after|after|]; [| |done].
  - destruct (page_through _) as [through|] eqn:Et; eexists _, _, _; (split; [reflexivity|]);
      unfold ledger_inv_at; (split_and!; [done| | | |reflexivity|]); cbn [lg_claims lg_envelopes lg_cursor].
    + destruct (page_through_spec _ _ _ _ Et) as (r & Hr & <- & _).
      apply (cursor_roundtrip (CurClaims _)), Hrange; [by eapply ti_pos|by apply Hf].
    + by apply import_rows_inv.
    + done.
    + cbn. apply rows_after_page in Et. unfold rows_after in *. cbn. lia.
    + by apply (cursor_roundtrip (CurEnvelopes 0)).
    + eapply import_end_inv; [| |exact Hc]; [|by apply page_through_None]. unfold IMPORT_PAGE. lia.
    + done.
    + cbn. lia.
  - destruct (page_through _) as [through|] eqn:Et; eexists _, _, _; (split; [reflexivity|]);
      unfold ledger_inv_at; (split_and!; [done| | | |reflexivity|]); cbn [lg_claims lg_envelopes lg_cursor].
    + destruct (page_through_spec _ _ _ _ Et) as (r & Hr & <- & _).
      apply (cursor_roundtrip (CurEnvelopes _)), Hrange; [by eapply ti_pos|by apply Hf].
    + done.
    + by apply import_rows_inv.
    + cbn. apply rows_after_page in Et. unfold rows_after in *. cbn. lia.
    + done.
    + done.
    + eapply import_end_inv; [| |exact He]; [|by apply page_through_None]. unfold IMPORT_PAGE. lia.
    + cbn. lia.
Qed.

Lemma import_page_inv C E s page s' : import_retired_page unhex s = Ok (page, s') → ledger_inv C E s → ledger_inv C E s'.
Proof.
  intros Ep [c Hi]. destruct (decide (c = CurDone)) as [-> |Hd].
  - pose proof Hi as (_ & Ec & _). unfold import_retired_page in Ep. rewrite Ec in Ep. cbn in Ep. simplify_eq. by exists CurDone.
  - destruct (import_page_at _ _ _ _ Hi Hd) as (? & ? & c' & Ep' & ? & _).
    rewrite Ep in Ep'. simplify_eq. by exists c'.
Qed.

(** The rowids of a table after rows left it or changed in place. *)
Lemma withdraw_row_rowids {T K I} `{EqDecision I} (tkey : T → K) (ident : K → I) tb r0 r :
  r ∈ tt_rows (withdraw_row tkey ident tb r0) → r ∈ tt_rows tb.
Proof. by intros [? _]%elem_of_withdraw_row. Qed.
Lemma withdraw_rowids {T K I} `{EqDecision I} (tkey : T → K) (ident : K → I) p tb r :
  r ∈ tt_rows (withdraw tkey ident p tb) → r ∈ tt_rows tb.
Proof.
  unfold withdraw. generalize (List.filter p (tt_rows tb)). intros l. revert tb.
  induction l as [|r0 l IH]; intros tb; cbn -[withdraw_row]; [done|]. by intros ?%IH%withdraw_row_rowids.
Qed.
Lemma forget_newest_rowids {T K I} `{EqDecision I} (tkey : T → K) (ident : K → I) ck tb tb' r :
  forget_newest tkey ident ck tb = Some tb' → r ∈ tt_rows tb' → r ∈ tt_rows tb.
Proof.
  unfold forget_newest. intros E. repeat case_match; simplify_eq. apply withdraw_row_rowids.
Qed.
Lemma rewrite_row_rowids {T K I} `{EqDecision K, EqDecision I} (tkey : T → K) (ident : K → I) rowid t ck tb tb' r :
  rewrite_row tkey ident rowid t ck tb = Some tb' → r ∈ tt_rows tb' → tr_rowid r ∈ tr_rowid <$> tt_rows tb.
Proof.
  unfold rewrite_row. intros E. destruct (existsb _ _); [done|]. destruct (List.find _ _); simplify_eq; cbn.
  - intros (r' & -> & Hr')%list_elem_of_fmap. apply list_elem_of_fmap. exists r'. split; [|done].
    by destruct (Z.eqb_spec (tr_rowid r') rowid) as [<-|].
  - apply list_elem_of_fmap_2.
Qed.

Lemma ledger_step_inv C E s op s' : ledger_step s op s' → ledger_inv C E s →
  ledger_inv (C ++ op_claims op) (E ++ op_envelopes op) s'.
Proof.
  intros Hstep Hi. destruct Hstep as [ck es cs s s' Er Hf|es cs s|ck s s' Es|rowid c ck s t Er Hin|rowid e ck s t Er Hin|s page s' Ep];
    cbn [op_claims op_envelopes]; rewrite ?app_nil_r; [..|by eapply import_page_inv];
    destruct Hi as (c' & Hfs & Ec & Hc & He); exists c'.
  - split; [done|]. apply record_tx_Ok in Er as ->. split_and!; [done|by apply record_all_inv..].
  - split; [split; intros r ?%withdraw_rowids; by apply Hfs|]. split_and!; [done|by apply withdraw_inv..].
  - unfold forget_step in Es. destruct (forget_newest et_key _ _ _) as [t|] eqn:E1; simplify_eq.
    + split; [split; [apply Hfs|intros r Hr; by eapply Hfs, forget_newest_rowids]|].
      split_and!; [done|done|by eapply forget_newest_inv].
    + destruct (forget_newest ct_id _ _ _) as [t|] eqn:E2; simplify_eq.
      split; [split; [intros r Hr; by eapply Hfs, forget_newest_rowids|apply Hfs]|].
      split_and!; [done|by eapply forget_newest_inv|done].
  - split; [split; [|apply Hfs]|].
    + intros r Hr. apply (rewrite_row_rowids _ _ _ _ _ _ _ _ Er) in Hr as (r' & -> & ?)%list_elem_of_fmap. by apply Hfs.
    + split_and!; [done| |done]. eapply tomb_inv_ext; [|by eapply rewrite_row_inv]. set_solver.
  - split; [split; [apply Hfs|]|].
    + intros r Hr. apply (rewrite_row_rowids _ _ _ _ _ _ _ _ Er) in Hr as (r' & -> & ?)%list_elem_of_fmap. by apply Hfs.
    + split_and!; [done|done|]. eapply tomb_inv_ext; [|by eapply rewrite_row_inv]. set_solver.
Qed.

Lemma ledger_fresh_inv s : ledger_fresh s → ledger_inv (ever_claims s []) (ever_envelopes s []) s.
Proof.
  intros (H1 & H2 & Hc & Hf & Hn1 & Hn2 & Hp1 & Hp2). exists (CurClaims 0). split; [done|].
  unfold ever_claims, ever_envelopes. cbn. rewrite !app_nil_r, Hc. split_and!; [done|split..]; try done;
    rewrite ?H1, ?H2; cbn; set_solver.
Qed.

Lemma ledger_run_inv s0 tr s : ledger_fresh s0 → run ledger_step s0 tr s →
  ledger_inv (ever_claims s0 tr) (ever_envelopes s0 tr) s.
Proof.
  intros H0%ledger_fresh_inv. unfold ever_claims, ever_envelopes in *. cbn in H0. rewrite !app_nil_r in H0.
  revert H0. generalize (row_key ct_id <$> tt_rows (lg_claims s0)) (row_key et_key <$> tt_rows (lg_envelopes s0)).
  intros C E Hi Hr. revert C E Hi. induction Hr as [s|s op s' tr s'' Hs _ IH]; intros C E Hi; cbn.
  - by rewrite !app_nil_r.
  - rewrite !app_assoc. apply IH. by eapply ledger_step_inv.
Qed.

(** ** Exactness *)

Lemma identity_sql_inj a b :
  (∀ a b, canonical_hash a = true → canonical_hash b = true → unhex a = unhex b → a = b) →
  identity_sql unhex a = identity_sql unhex b → a = b.
Proof. unfold identity_sql. intros Hu E. repeat case_match; simplify_eq; eauto. Qed.

Lemma retired_import_done s : retired_identity_import_done s = Ok true ↔ cursor_read (lg_cursor s) = Ok CurDone.
Proof.
  unfold retired_identity_import_done. destruct (cursor_read _) as [c|e]; cbn; [|done].
  split; [intros [= ?%bool_decide_eq_true]; by subst|intros [= ->]; done].
Qed.

(** C33: The ledger is exactly what was ever recorded, except what waits in its table for the
    import. *)
Theorem retired_exact s0 tr s :
  (∀ a b, canonical_hash a = true → canonical_hash b = true → unhex a = unhex b → a = b) →
  ledger_fresh s0 → run ledger_step s0 tr s →
  (∀ id, claim_retired unhex s id = true → id ∈ ever_claims s0 tr) ∧
  (∀ w n h, envelope_retired unhex s w n h = true → (w, n, h) ∈ ever_envelopes s0 tr) ∧
  (∀ id, id ∈ ever_claims s0 tr → claim_retired unhex s id = true ∨
     retired_identity_import_done s ≠ Ok true ∧ id ∈ row_key ct_id <$> tt_rows (lg_claims s)) ∧
  (∀ w n h, (w, n, h) ∈ ever_envelopes s0 tr → envelope_retired unhex s w n h = true ∨
     retired_identity_import_done s ≠ Ok true ∧ (w, n, h) ∈ row_key et_key <$> tt_rows (lg_envelopes s)).
Proof.
  intros Hu H0 Hr. destruct (ledger_run_inv _ _ _ H0 Hr) as (c & _ & Ec & Hc & He).
  assert (c ≠ CurDone → retired_identity_import_done s ≠ Ok true) as Hd by (rewrite retired_import_done, Ec; congruence).
  unfold claim_retired, envelope_retired. split_and!.
  - intros id Hid%bool_decide_eq_true. destruct (ti_sound _ _ _ _ _ Hc _ Hid) as (k & Hk & E).
    by rewrite <-(identity_sql_inj _ _ Hu E).
  - intros w n h Hid%bool_decide_eq_true. destruct (ti_sound _ _ _ _ _ He _ Hid) as ([[w' n'] h'] & Hk & E).
    cbn in E. injection E as -> -> E. by rewrite <-(identity_sql_inj _ _ Hu E).
  - intros id Hid. rewrite bool_decide_eq_true. destruct (ti_ever _ _ _ _ _ Hc _ Hid) as [?|(r & Hin & <-)]; [by left|].
    destruct (ti_rows _ _ _ _ _ Hc _ Hin) as [_ [?|Hw]]; [by left|right]. split; [by apply Hd; intros ->|]. by apply list_elem_of_fmap_2.
  - intros w n h Hid. rewrite bool_decide_eq_true.
    destruct (ti_ever _ _ _ _ _ He _ Hid) as [?|(r & Hin & E)]; [by left|]. rewrite <-E.
    destruct (ti_rows _ _ _ _ _ He _ Hin) as [_ [Hret|Hw]]; [left|right].
    + unfold row_ident in Hret. by rewrite E in Hret.
    + split; [by apply Hd; intros ->|]. by apply list_elem_of_fmap_2.
Qed.

Lemma import_paced_ends fuel : ∀ c C E s, ledger_inv_at c C E s → import_left c s < fuel →
  ∃ n s', import_paced unhex fuel s = Some (Ok s') ∧ run ledger_step s (replicate n OpImport) s' ∧
    cursor_read (lg_cursor s') = Ok CurDone.
Proof.
  induction fuel as [|fuel IH]; intros c C E s Hi Hl; [lia|]. cbn [import_paced].
  destruct (decide (c = CurDone)) as [-> |Hd].
  - destruct Hi as (_ & Ec & _). exists 0, s. unfold import_retired_page. rewrite Ec. split_and!; [done|constructor|done].
  - destruct (import_page_at _ _ _ _ Hi Hd) as (page & s' & c' & Ep & Hi' & Hdn & Hlt). rewrite Ep, Hdn.
    destruct (decide (c' = CurDone)) as [-> |Hd'].
    + exists 1, s'. split_and!; [done| |by apply Hi']. eapply run_cons; [by eapply ls_import|constructor].
    + rewrite bool_decide_eq_false_2 by done. destruct (IH c' C E s' Hi') as (n & s'' & ? & Hr & ?); [lia|].
      exists (S n), s''. split_and!; [done| |done]. cbn. eapply run_cons; [by eapply ls_import|done].
Qed.

Lemma ever_imports s0 tr n :
  ever_claims s0 (tr ++ replicate n OpImport) = ever_claims s0 tr ∧
  ever_envelopes s0 (tr ++ replicate n OpImport) = ever_envelopes s0 tr.
Proof.
  unfold ever_claims, ever_envelopes. rewrite !bind_app.
  assert (replicate n OpImport ≫= op_claims = [] ∧ replicate n OpImport ≫= op_envelopes = []) as [-> ->].
  { by induction n. }
  by rewrite !app_nil_r.
Qed.

Lemma ledger_done_complete C E s : ledger_inv_at CurDone C E s →
  (∀ id, id ∈ C → claim_retired unhex s id = true) ∧
  (∀ w n h, (w, n, h) ∈ E → envelope_retired unhex s w n h = true).
Proof.
  intros (_ & _ & Hc & He). unfold claim_retired, envelope_retired. split.
  - intros id Hid. apply bool_decide_eq_true. destruct (ti_ever _ _ _ _ _ Hc _ Hid) as [?|(r & Hin & <-)]; [done|].
    by destruct (ti_rows _ _ _ _ _ Hc _ Hin) as [_ [?|[]]].
  - intros w n h Hid. apply bool_decide_eq_true. destruct (ti_ever _ _ _ _ _ He _ Hid) as [?|(r & Hin & E')]; [done|].
    destruct (ti_rows _ _ _ _ _ He _ Hin) as [_ [Hret|[]]]. unfold row_ident in Hret. by rewrite E' in Hret.
Qed.

(** The paced import ends, whatever happened before it, and then everything ever recorded
    is in the ledger. *)
Theorem import_paced_complete s0 tr s fuel :
  ledger_fresh s0 → run ledger_step s0 tr s →
  length (tt_rows (lg_claims s)) + length (tt_rows (lg_envelopes s)) + 2 < fuel →
  ∃ s', import_paced unhex fuel s = Some (Ok s') ∧ retired_identity_import_done s' = Ok true ∧
    (∀ id, id ∈ ever_claims s0 tr → claim_retired unhex s' id = true) ∧
    (∀ w n h, (w, n, h) ∈ ever_envelopes s0 tr → envelope_retired unhex s' w n h = true).
Proof.
  intros H0 Hr Hl. destruct (ledger_run_inv _ _ _ H0 Hr) as [c Hi].
  destruct (import_paced_ends fuel c _ _ s Hi) as (n & s' & Ep & Hr' & Ed).
  { destruct c as [m|m|]; cbn; [pose proof (rows_after_le m (lg_claims s)); pose proof (rows_after_le 0 (lg_envelopes s))|
      pose proof (rows_after_le m (lg_envelopes s))|]; lia. }
  exists s'. split_and!; [done|by apply retired_import_done|..].
  all: destruct (ledger_run_inv s0 (tr ++ replicate n OpImport) s' H0 (run_app _ _ _ _ _ _ Hr Hr')) as [c' Hi'].
  all: destruct (ever_imports s0 tr n) as [E1 E2]; rewrite E1, E2 in Hi'.
  all: pose proof Hi' as (_ & Ec' & _); rewrite Ed in Ec'; injection Ec' as <-.
  all: by apply ledger_done_complete in Hi' as [??].
Qed.
End history.

(** ** A store whose tombstones leave before the import reads them *)

Definition demo_unhex (s : string) : list ascii := default [] (hex_decode s).

Lemma demo_unhex_inj a b :
  canonical_hash a = true → canonical_hash b = true → demo_unhex a = demo_unhex b → a = b.
Proof.
  intros (x & Ex & _ & <-)%hex_decode_canonical (y & Ey & _ & <-)%hex_decode_canonical. unfold demo_unhex.
  rewrite Ex, Ey. cbn. by intros ->.
Qed.

Definition demo_tombstone (id : string) : ClaimTombstone :=
  {| ct_id := id; ct_writer := "cedar"; ct_sequence := 1; ct_envelope_hash := "h"; ct_subject := "doc/a";
     ct_kind := "doc.written"; ct_actor := None; ct_predecessors := []; ct_operation_id := None;
     ct_request_digest := None; ct_accepted_at_unix_ms := 5 |}.
Definition demo_ledger : Ledger :=
  {| lg_claims := {| tt_rows := [{| tr_rowid := 1; tr_data := demo_tombstone "a"; tr_checkpoint := "checkpoint/1" |};
                                 {| tr_rowid := 2; tr_data := demo_tombstone "b"; tr_checkpoint := "checkpoint/1" |}];
                     tt_retired := []; tt_withdrawals := [] |};
     lg_envelopes := {| tt_rows := [{| tr_rowid := 1; tr_data := demo_envelope 1; tr_checkpoint := "checkpoint/1" |}];
                        tt_retired := []; tt_withdrawals := [] |};
     lg_cursor := None |}.
Definition demo_ops : list LedgerOp := [OpKeepOnly [] [demo_tombstone "b"]; OpImport].
Definition demo_ledger_after : Ledger :=
  match import_retired_page demo_unhex (keep_only_tombstones_tx demo_unhex [] [demo_tombstone "b"] demo_ledger) with
  | Ok (_, s) => s
  | Err _ => demo_ledger
  end.

Lemma demo_ledger_fresh : ledger_fresh demo_ledger.
Proof.
  unfold ledger_fresh, rowids_fit. cbn. split_and!; try done; try (intros r; set_solver by lia).
  - intros r. rewrite !elem_of_cons, elem_of_nil. intros [-> |[-> |[]]]; done.
  - intros r. rewrite !elem_of_cons, elem_of_nil. intros [-> |[]]; done.
  - apply (bool_decide_unpack _). done.
  - apply (bool_decide_unpack _). done.
Qed.

Lemma demo_ledger_run : run (ledger_step demo_unhex) demo_ledger demo_ops demo_ledger_after.
Proof.
  eapply run_cons; [apply ls_keep|]. eapply run_cons; [|constructor].
  unfold demo_ledger_after. eapply ls_import. reflexivity.
Qed.

Lemma retired_exact_witness :
  "a" ∈ ever_claims demo_ledger demo_ops ∧
  (claim_retired demo_unhex demo_ledger_after "a" = true ∨
   retired_identity_import_done demo_ledger_after ≠ Ok true ∧
   "a" ∈ row_key ct_id <$> tt_rows (lg_claims demo_ledger_after)).
Proof.
  assert ("a" ∈ ever_claims demo_ledger demo_ops) as Ha by (apply elem_of_app; left; apply elem_of_cons; by left).
  split; [done|].
  by apply (retired_exact demo_unhex demo_ledger demo_ops demo_ledger_after demo_unhex_inj demo_ledger_fresh demo_ledger_run).
Defined.

Lemma import_paced_complete_witness :
  ∃ s, import_paced demo_unhex 10 demo_ledger_after = Some (Ok s) ∧ claim_retired demo_unhex s "b" = true.
Proof.
  destruct (import_paced_complete demo_unhex demo_ledger demo_ops demo_ledger_after 10 demo_ledger_fresh demo_ledger_run)
    as (s & Es & _ & Hc & _); [vm_compute; lia|].
  exists s. split; [done|]. apply Hc, elem_of_app. left. cbn. set_solver.
Defined.
