(* ===== verification/WriterHeads.v ===== *)
(** * Batches, writer heads and sequence allocation
    (crates/smallclaims/src/store/writer_heads.rs; [next_replica_sequence],
    [previous_batch_hash], [next_batch_rowid], [set_writer_floor] and the batch of
    [append_claim_record_tx] in store.rs; [write_time] of store/checkpoint_agreement.rs)

    A writer numbers its batches, chains them by hash and dates them.  A checkpoint trim
    can delete any of them, the newest included, and adoption can take their tombstones
    away again.  The theorems show that a sequence is never given twice, that a new batch
    names the hash of the writer's highest batch ever, and that a writer's own batches are
    numbered and dated in the order they were written. *)

From S2P Require Import Prelude BTree Json Digests Slices Inventory Retired.

Local Open Scope claims_scope.
Local Open Scope string_scope.

(** ** The tables *)

Record Batch := {
  ba_id : string;
  ba_origin : string;
  ba_replica_sequence : Z;
  ba_previous_hash : option string;
  ba_hash : string;
  ba_accepted_at_unix_ms : Z;
  ba_rowid : Z
}.

#[export] Instance batch_eq_dec : EqDecision Batch.
Proof. solve_decision. Defined.

(** [batches], [writer_heads], the keys of [meta] that are read here, the cuts of
    [checkpoints], and the tombstone tables with their ledger. *)
Record Writers := {
  wr_batches : list Batch;
  wr_heads : BTreeMap string (Z * string);
  wr_floors : BTreeMap string Z;
  wr_rowid_high_water : option Z;
  wr_cuts : list Z;
  wr_ledger : Ledger
}.

(** The upsert both triggers make: the head is raised, never lowered. *)
Definition raise_head (b : Batch) (heads : BTreeMap string (Z * string)) : BTreeMap string (Z * string) :=
  match bmap_get (ba_origin b) heads with
  | Some (sequence, _) =>
      if (sequence <? ba_replica_sequence b)%Z
      then bmap_insert (ba_origin b) (ba_replica_sequence b, ba_hash b) heads else heads
  | None => bmap_insert (ba_origin b) (ba_replica_sequence b, ba_hash b) heads
  end.

Definition set_batches (batches : list Batch) (heads : BTreeMap string (Z * string)) (w : Writers) : Writers :=
  {| wr_batches := batches; wr_heads := heads; wr_floors := wr_floors w;
     wr_rowid_high_water := wr_rowid_high_water w; wr_cuts := wr_cuts w; wr_ledger := wr_ledger w |}.
(** [writer_heads_batch_insert_v1] and [writer_heads_batch_delete_v1]. *)
Definition insert_batch (b : Batch) (w : Writers) : Writers :=
  set_batches (wr_batches w ++ [b])%list (raise_head b (wr_heads w)) w.
Definition delete_batch (b : Batch) (w : Writers) : Writers :=
  set_batches (List.filter (λ b', negb (String.eqb (ba_id b') (ba_id b))) (wr_batches w)) (raise_head b (wr_heads w)) w.

Definition is_origin (origin : string) (b : Batch) : bool := String.eqb (ba_origin b) origin.

(** ** Allocation *)

(** [COALESCE(MAX(...), 0)] over sequences. *)
Definition max_or_zero (l : list Z) : Z := foldl Z.max 0%Z l.

Definition tombstone_sequences (origin : string) (s : Ledger) : list Z :=
  (λ r, et_sequence (tr_data r)) <$>
    List.filter (λ r, String.eqb (et_writer (tr_data r)) origin) (tt_rows (lg_envelopes s)).
Definition retired_sequences (origin : string) (s : Ledger) : list Z :=
  (λ k : string * Z * Identity, k.1.2) <$> List.filter (λ k, String.eqb k.1.1 origin) (tt_retired (lg_envelopes s)).
Definition batch_sequences (origin : string) (w : Writers) : list Z :=
  ba_replica_sequence <$> List.filter (is_origin origin) (wr_batches w).

(** The highest of the five sources. *)
Definition sequence_floor (w : Writers) (origin : string) : Z :=
  max_or_zero [max_or_zero (batch_sequences origin w);
               match bmap_get origin (wr_heads w) with Some (sequence, _) => sequence | None => 0%Z end;
               max_or_zero (tombstone_sequences origin (wr_ledger w));
               max_or_zero (retired_sequences origin (wr_ledger w));
               default 0%Z (bmap_get origin (wr_floors w))].
(** One more; a sum past 64 bits becomes a float, which is not read as an integer. *)
Definition next_replica_sequence (w : Writers) (origin : string) : result Z string :=
  let top := sequence_floor w origin in
  if (top <? i64_max)%Z then Ok (top + 1)%Z else Err "Invalid column type Real".

(** [ORDER BY replica_sequence DESC LIMIT 1]. *)
Definition newest_batch (origin : string) (w : Writers) : option Batch :=
  foldl (λ best b, match best with
                   | Some a => if (ba_replica_sequence a <? ba_replica_sequence b)%Z then Some b else best
                   | None => Some b
                   end) None (List.filter (is_origin origin) (wr_batches w)).
Definition previous_batch_hash (w : Writers) (origin : string) : option string :=
  match newest_batch origin w, bmap_get origin (wr_heads w) with
  | Some b, Some (sequence, hash) => Some (if (ba_replica_sequence b <? sequence)%Z then hash else ba_hash b)
  | Some b, None => Some (ba_hash b)
  | None, Some (_, hash) => Some hash
  | None, None => None
  end.

Definition next_batch_rowid (w : Writers) : result (Z * Writers) string :=
  let top := Z.max (max_or_zero (ba_rowid <$> wr_batches w)) (default 0%Z (wr_rowid_high_water w)) in
  if (top <? i64_max)%Z then
    Ok ((top + 1)%Z,
        {| wr_batches := wr_batches w; wr_heads := wr_heads w; wr_floors := wr_floors w;
           wr_rowid_high_water := Some (top + 1)%Z; wr_cuts := wr_cuts w; wr_ledger := wr_ledger w |})
  else Err "Invalid column type Real".

(** [set_writer_floor] for this store's own writer. *)
Definition set_writer_floor (origin : string) (floor : Z) (w : Writers) : Writers :=
  {| wr_batches := wr_batches w; wr_heads := wr_heads w;
     wr_floors := bmap_insert origin (match bmap_get origin (wr_floors w) with
                                      | Some old => Z.max old floor | None => floor end) (wr_floors w);
     wr_rowid_high_water := wr_rowid_high_water w; wr_cuts := wr_cuts w; wr_ledger := wr_ledger w |}.

(** ** Time *)

(** The clock a write reads: [now_ms], and [temp.write_clock] when a simulation set it. *)
Record Clock := { clk_now_ms : Z; clk_offset_ms : Z; clk_at_ms : option Z }.
Definition i128_max : Z := Eval cbv in width_max 127.
Definition clock_time (c : Clock) : Z :=
  Z.max 0 (match clk_at_ms c with Some at_ms => at_ms | None => (Z.min (clk_now_ms c) i128_max + clk_offset_ms c)%Z end).

Definition write_time (w : Writers) (origin : string) (c : Clock) : Z :=
  Z.max (Z.max (clock_time c) (max_or_zero (wr_cuts w)))
        (match newest_batch origin w with Some b => ba_accepted_at_unix_ms b | None => 0%Z end).

(** ** Writing a batch *)

Section heads.
(** SHA-256 over CBOR of the header's five fields, and SQLite's [unhex]. *)
Variable canonical_hash5 : string * string * Z * option string * string → string.
Variable unhex : string → list ascii.

Definition batch_header_hash (origin : string) (sequence : Z) (previous_hash : option string) (accepted : Z) : string :=
  canonical_hash5 ("st3.replica-batch.v1", origin, sequence, previous_hash, decimal accepted).

(** The batch of [append_claim_record_tx], when none is forced. *)
Definition append_batch (origin : string) (c : Clock) (w : Writers) : result (Batch * Writers) string :=
  let now := write_time w origin c in
  let? sequence := next_replica_sequence w origin in
  let previous_hash := previous_batch_hash w origin in
  let hash := batch_header_hash origin sequence previous_hash now in
  let id := "batch/" +:+ origin +:+ "/" +:+ decimal sequence +:+ "/" +:+ hash in
  let? allocated := next_batch_rowid w in
  let b := {| ba_id := id; ba_origin := origin; ba_replica_sequence := sequence; ba_previous_hash := previous_hash;
              ba_hash := hash; ba_accepted_at_unix_ms := now; ba_rowid := allocated.1 |} in
  if existsb (λ b', String.eqb (ba_id b') id) (wr_batches w) then Err "UNIQUE constraint failed: batches.id"
  else Ok (b, insert_batch b allocated.2).

Definition with_rowid (rowid : Z) (b : Batch) : Batch :=
  {| ba_id := ba_id b; ba_origin := ba_origin b; ba_replica_sequence := ba_replica_sequence b;
     ba_previous_hash := ba_previous_hash b; ba_hash := ba_hash b;
     ba_accepted_at_unix_ms := ba_accepted_at_unix_ms b; ba_rowid := rowid |}.
(** The batch of an admitted envelope: a known id keeps its row ([INSERT OR IGNORE]). *)
Definition admit_batch (b : Batch) (w : Writers) : result Writers string :=
  if existsb (λ b', String.eqb (ba_id b') (ba_id b)) (wr_batches w) then Ok w
  else let? allocated := next_batch_rowid w in
       Ok (insert_batch (with_rowid allocated.1 b) allocated.2).

(** ** Histories *)

Inductive WriterOp :=
| WAppend (b : Batch)
| WAdmit (b : Batch)
| WKnown
| WDelete (b : Batch)
| WFloor (origin : string) (floor : Z)
| WCut (cut : Z)
| WLedger (op : LedgerOp).

Definition set_ledger (s : Ledger) (w : Writers) : Writers :=
  {| wr_batches := wr_batches w; wr_heads := wr_heads w; wr_floors := wr_floors w;
     wr_rowid_high_water := wr_rowid_high_water w; wr_cuts := wr_cuts w; wr_ledger := s |}.
Definition add_cut (cut : Z) (w : Writers) : Writers :=
  {| wr_batches := wr_batches w; wr_heads := wr_heads w; wr_floors := wr_floors w;
     wr_rowid_high_water := wr_rowid_high_water w; wr_cuts := (wr_cuts w ++ [cut])%list; wr_ledger := wr_ledger w |}.

Inductive writer_step : Writers → WriterOp → Writers → Prop :=
| ws_append origin c w b w' : append_batch origin c w = Ok (b, w') → writer_step w (WAppend b) w'
| ws_admit b rowid w w1 w' :
    existsb (λ b', String.eqb (ba_id b') (ba_id b)) (wr_batches w) = false →
    next_batch_rowid w = Ok (rowid, w1) → admit_batch b w = Ok w' → writer_step w (WAdmit (with_rowid rowid b)) w'
| ws_known b w :
    existsb (λ b', String.eqb (ba_id b') (ba_id b)) (wr_batches w) = true →
    admit_batch b w = Ok w → writer_step w WKnown w
| ws_delete b w : b ∈ wr_batches w → writer_step w (WDelete b) (delete_batch b w)
| ws_floor origin floor w : writer_step w (WFloor origin floor) (set_writer_floor origin floor w)
| ws_cut cut w : writer_step w (WCut cut) (add_cut cut w)
| ws_ledger op w s : ledger_step unhex (wr_ledger w) op s → writer_step w (WLedger op) (set_ledger s w).

(** What an operation brings in. *)
Definition op_batches (op : WriterOp) : list Batch :=
  match op with WAppend b | WAdmit b => [b] | _ => [] end.
Definition op_tombstones (op : WriterOp) : list envelope_key :=
  match op with WLedger op => op_envelopes op | _ => [] end.
End heads.

(** ** What an insert changes *)

(** The same tables, up to where rowids go on from. *)
Definition same_but_rowids (w w1 : Writers) : Prop :=
  wr_batches w1 = wr_batches w ∧ wr_heads w1 = wr_heads w ∧ wr_floors w1 = wr_floors w ∧
  wr_cuts w1 = wr_cuts w ∧ wr_ledger w1 = wr_ledger w.
Definition inserted (b : Batch) (w w' : Writers) : Prop := ∃ w1, same_but_rowids w w1 ∧ w' = insert_batch b w1.

Lemma next_batch_rowid_Ok w r w1 : next_batch_rowid w = Ok (r, w1) → same_but_rowids w w1.
Proof. unfold next_batch_rowid. case_match; [|done]. by intros [= <- <-]. Qed.

(** Rowids are never given twice either: above every row and every earlier one. *)
Lemma next_batch_rowid_fresh w r w1 : next_batch_rowid w = Ok (r, w1) →
  (∀ b, b ∈ wr_batches w → (ba_rowid b < r)%Z) ∧ (∀ h, wr_rowid_high_water w = Some h → (h < r)%Z) ∧
  wr_rowid_high_water w1 = Some r.
Proof.
  unfold next_batch_rowid. case_match; [|done]. intros [= <- <-].
  destruct (foldl_max (ba_rowid <$> wr_batches w) 0) as (_ & Hm & _). split_and!; [| |done].
  - intros b Hb. specialize (Hm (ba_rowid b) (list_elem_of_fmap_2 _ _ _ Hb)). unfold max_or_zero. lia.
  - intros h ->. cbn. lia.
Qed.

Section steps.
Context (canonical_hash5 : string * string * Z * option string * string → string) (unhex : string → list ascii).
Local Notation wstep := (writer_step canonical_hash5 unhex).

Lemma append_batch_Ok origin c w b w' : append_batch canonical_hash5 origin c w = Ok (b, w') →
  inserted b w w' ∧ ba_origin b = origin ∧ next_replica_sequence w origin = Ok (ba_replica_sequence b) ∧
  ba_previous_hash b = previous_batch_hash w origin ∧ ba_accepted_at_unix_ms b = write_time w origin c ∧
  ba_hash b = batch_header_hash canonical_hash5 origin (ba_replica_sequence b) (ba_previous_hash b) (ba_accepted_at_unix_ms b).
Proof.
  unfold append_batch. intros (n & En & (a & Ea & E)%result_bind_Ok)%result_bind_Ok. destruct a as [r w1].
  destruct (existsb _ _); [done|]. injection E as <- <-. split_and!; try done.
  exists w1. split; [by eapply next_batch_rowid_Ok|done].
Qed.

Lemma admit_batch_Ok b rowid w w1 w' :
  existsb (λ b', String.eqb (ba_id b') (ba_id b)) (wr_batches w) = false →
  next_batch_rowid w = Ok (rowid, w1) → admit_batch b w = Ok w' → inserted (with_rowid rowid b) w w'.
Proof.
  unfold admit_batch. intros -> E. rewrite E. cbn. intros [= <-]. exists w1. split; [by eapply next_batch_rowid_Ok|done].
Qed.

(** ** Nothing that raised the floor is forgotten *)

Definition source (w : Writers) (o : string) (m : Z) : Prop :=
  (∃ b, b ∈ wr_batches w ∧ ba_origin b = o ∧ ba_replica_sequence b = m) ∨
  (∃ h, bmap_get o (wr_heads w) = Some (m, h)) ∨
  (∃ r, r ∈ tt_rows (lg_envelopes (wr_ledger w)) ∧ et_writer (tr_data r) = o ∧ et_sequence (tr_data r) = m) ∨
  (∃ i, (o, m, i) ∈ tt_retired (lg_envelopes (wr_ledger w))) ∨
  bmap_get o (wr_floors w) = Some m.

Lemma max_or_zero_spec l :
  (0 <= max_or_zero l)%Z ∧ (∀ x, x ∈ l → (x <= max_or_zero l)%Z) ∧ (max_or_zero l = 0%Z ∨ max_or_zero l ∈ l).
Proof. apply (foldl_max l 0). Qed.

Lemma sequence_floor_five w o :
  sequence_floor w o =
    Z.max (max_or_zero (batch_sequences o w))
    (Z.max (match bmap_get o (wr_heads w) with Some (sequence, _) => Z.max 0 sequence | None => 0%Z end)
    (Z.max (max_or_zero (tombstone_sequences o (wr_ledger w)))
    (Z.max (max_or_zero (retired_sequences o (wr_ledger w))) (Z.max 0 (default 0%Z (bmap_get o (wr_floors w))))))).
Proof.
  unfold sequence_floor. unfold max_or_zero at 1. cbn [foldl].
  destruct (bmap_get o (wr_heads w)) as [[n h]|]; lia.
Qed.

Lemma source_le w o m : source w o m → (m <= sequence_floor w o)%Z.
Proof.
  rewrite sequence_floor_five. destruct (max_or_zero_spec (batch_sequences o w)) as (_ & H1 & _).
  destruct (max_or_zero_spec (tombstone_sequences o (wr_ledger w))) as (_ & H2 & _).
  destruct (max_or_zero_spec (retired_sequences o (wr_ledger w))) as (_ & H3 & _).
  intros [(b & Hb & Ho & Em)|[(h & E)|[(r & Hr & Ho & Em)|[(i & Hi)|E]]]].
  - assert (m ∈ batch_sequences o w) as ?%H1; [|lia].
    rewrite <-Em. apply list_elem_of_fmap_2, filter_elem_of. split; [done|]. by apply String.eqb_eq.
  - rewrite E. lia.
  - assert (m ∈ tombstone_sequences o (wr_ledger w)) as ?%H2; [|lia].
    apply list_elem_of_fmap. exists r. split; [done|]. apply filter_elem_of. split; [done|]. by apply String.eqb_eq.
  - assert (m ∈ retired_sequences o (wr_ledger w)) as ?%H3; [|lia].
    apply list_elem_of_fmap. exists (o, m, i). split; [done|]. apply filter_elem_of. split; [done|apply String.eqb_refl].
  - rewrite E. cbn. lia.
Qed.

Lemma floor_source w o : sequence_floor w o = 0%Z ∨ source w o (sequence_floor w o).
Proof.
  unfold sequence_floor. destruct (max_or_zero_spec
    [max_or_zero (batch_sequences o w);
     match bmap_get o (wr_heads w) with Some (sequence, _) => sequence | None => 0%Z end;
     max_or_zero (tombstone_sequences o (wr_ledger w));
     max_or_zero (retired_sequences o (wr_ledger w));
     default 0%Z (bmap_get o (wr_floors w))]) as (_ & _ & [H|H]); [by left|].
  rewrite !elem_of_cons, elem_of_nil in H. destruct H as [E|[E|[E|[E|[E|[]]]]]]; rewrite E; clear E.
  - destruct (max_or_zero_spec (batch_sequences o w)) as (_ & _ & [-> |(b & -> & [Hb Ho]%filter_elem_of)%list_elem_of_fmap]);
      [by left|right; left]. exists b. split_and!; [done| |done]. by apply String.eqb_eq.
  - destruct (bmap_get o (wr_heads w)) as [[n h]|] eqn:E; [|by left]. right. right. left. eauto.
  - destruct (max_or_zero_spec (tombstone_sequences o (wr_ledger w)))
      as (_ & _ & [-> |(r & -> & [Hr Ho]%filter_elem_of)%list_elem_of_fmap]); [by left|right; right; right; left].
    exists r. split_and!; [done| |done]. by apply String.eqb_eq.
  - destruct (max_or_zero_spec (retired_sequences o (wr_ledger w)))
      as (_ & _ & [-> |([[o' n] i] & -> & [Hr Ho]%filter_elem_of)%list_elem_of_fmap]); [by left|].
    apply String.eqb_eq in Ho. cbn in Ho. subst o'. right. right. right. right. left. eauto.
  - destruct (bmap_get o (wr_floors w)) as [n|] eqn:E; [|by left]. by do 5 right.
Qed.

(** The head after an upsert. *)
Lemma raise_head_spec b heads o :
  bmap_get o (raise_head b heads) =
    if String.eqb (ba_origin b) o then
      match bmap_get o heads with
      | Some (n, h) => if (n <? ba_replica_sequence b)%Z then Some (ba_replica_sequence b, ba_hash b) else Some (n, h)
      | None => Some (ba_replica_sequence b, ba_hash b)
      end
    else bmap_get o heads.
Proof.
  unfold raise_head. destruct (String.eqb_spec (ba_origin b) o) as [<-|Hne].
  - destruct (bmap_get (ba_origin b) heads) as [[n h]|] eqn:E; [|by rewrite bmap_get_insert].
    case_match; [by rewrite bmap_get_insert|done].
  - destruct (bmap_get (ba_origin b) heads) as [[n h]|]; [case_match|]; rewrite ?bmap_get_insert_ne; congruence.
Qed.

Lemma raise_head_ge b heads o n h : bmap_get o heads = Some (n, h) →
  ∃ n' h', bmap_get o (raise_head b heads) = Some (n', h') ∧ (n <= n')%Z.
Proof.
  intros E. rewrite raise_head_spec, E. destruct (String.eqb _ _); [|eauto with lia].
  destruct (Z.ltb_spec n (ba_replica_sequence b)); eauto with lia.
Qed.
Lemma raise_head_own b heads :
  ∃ n h, bmap_get (ba_origin b) (raise_head b heads) = Some (n, h) ∧ (ba_replica_sequence b <= n)%Z.
Proof.
  rewrite raise_head_spec, String.eqb_refl. destruct (bmap_get _ heads) as [[n h]|]; [|eauto with lia].
  destruct (Z.ltb_spec n (ba_replica_sequence b)); eauto with lia.
Qed.

Lemma tomb_key_source C E w o m h : ledger_inv unhex C E (wr_ledger w) → (o, m, h) ∈ E → source w o m.
Proof.
  intros (c & _ & _ & _ & He) Hk. destruct (ti_ever _ _ _ _ _ He _ Hk) as [Hi|(r & Hr & Ek)].
  - right. right. right. left. eexists. exact Hi.
  - right. right. left. exists r. unfold row_key, et_key in Ek. by simplify_eq.
Qed.

Lemma source_tomb_key C E w o m : ledger_inv unhex C E (wr_ledger w) →
  (∃ r, r ∈ tt_rows (lg_envelopes (wr_ledger w)) ∧ et_writer (tr_data r) = o ∧ et_sequence (tr_data r) = m) ∨
  (∃ i, (o, m, i) ∈ tt_retired (lg_envelopes (wr_ledger w))) → ∃ h, (o, m, h) ∈ E.
Proof.
  intros (c & _ & _ & _ & He) [(r & Hr & <- & <-)|(i & Hi)].
  - exists (et_envelope_hash (tr_data r)). by apply (ti_rows _ _ _ _ _ He r Hr).
  - destruct (ti_sound _ _ _ _ _ He _ Hi) as ([[o' m'] h] & Hk & [= -> -> _]). eauto.
Qed.

Lemma writer_step_ledger C E w op w' : wstep w op w' → ledger_inv unhex C E (wr_ledger w) →
  ∃ C', ledger_inv unhex C' (E ++ op_tombstones op) (wr_ledger w').
Proof.
  intros Hs Hi. destruct Hs as [o c w b w' (Hins & _)%append_batch_Ok|b r w w1 w' H1 H2 H3|b w H1 H2|b w Hb|o f w|ct w|op w s Hs];
    cbn [op_tombstones]; rewrite ?app_nil_r; try (by exists C).
  - destruct Hins as (w1 & (_ & _ & _ & _ & E1) & ->). exists C. cbn. by rewrite E1.
  - destruct (admit_batch_Ok _ _ _ _ _ H1 H2 H3) as (w2 & (_ & _ & _ & _ & E1) & ->). exists C. cbn. by rewrite E1.
  - eexists. by eapply ledger_step_inv.
Qed.

Lemma inserted_source b w w' o m : inserted b w w' → source w o m → (m <= sequence_floor w' o)%Z.
Proof.
  intros (w1 & (E1 & E2 & E3 & _ & E5) & ->) [(b' & Hb & ?)|[(h & E)|[Hr|[Hi|Ef]]]].
  - apply source_le. left. exists b'. cbn. rewrite E1. set_solver.
  - rewrite <-E2 in E. destruct (raise_head_ge b _ _ _ _ E) as (n & h' & En & ?).
    etrans; [done|]. apply source_le. right. left. eauto.
  - apply source_le. do 2 right. left. cbn. by rewrite E5.
  - apply source_le. do 3 right. left. cbn. by rewrite E5.
  - apply source_le. do 4 right. cbn. by rewrite E3.
Qed.


(** Batch ids are a primary key. *)
Definition ids_unique (w : Writers) : Prop := NoDup (ba_id <$> wr_batches w).

Lemma inserted_unique b w w' : existsb (λ b', String.eqb (ba_id b') (ba_id b)) (wr_batches w) = false →
  inserted b w w' → ids_unique w → ids_unique w'.
Proof.
  intros He (w1 & (E1 & _) & ->) Hu. unfold ids_unique. cbn. rewrite E1, fmap_app. apply NoDup_app.
  split_and!; [done| |apply NoDup_singleton]. intros x (b' & -> & Hb)%list_elem_of_fmap Hx%list_elem_of_singleton.
  apply not_true_iff_false in He. apply He, existsb_elem_of. exists b'. split; [done|]. by apply String.eqb_eq.
Qed.

Lemma writer_step_unique w op w' : wstep w op w' → ids_unique w → ids_unique w'.
Proof.
  intros Hs Hu. destruct Hs as [o c w b w' Ha|b r w w1 w' H1 H2 H3|b w H1 H2|b w Hb|o f w|ct w|op w s Hs]; try done.
  - eapply inserted_unique; [|by apply (append_batch_Ok _ _ _ _ _ Ha)|done]. unfold append_batch in Ha.
    apply result_bind_Ok in Ha as (n & _ & ([r w1] & _ & E)%result_bind_Ok). destruct (existsb _ _) eqn:Ex; [done|].
    by simplify_eq.
  - eapply (inserted_unique (with_rowid r b)); [exact H1|by eapply admit_batch_Ok|done].
  - by apply NoDup_fmap_filter.
Qed.

Lemma ba_id_inj w b b' : ids_unique w → b ∈ wr_batches w → b' ∈ wr_batches w → ba_id b = ba_id b' → b = b'.
Proof.
  intros Hn (i & Hi)%list_elem_of_lookup_1 (j & Hj)%list_elem_of_lookup_1 E.
  assert (i = j) as ->; [|congruence]. eapply (NoDup_lookup _ _ _ (ba_id b) Hn).
  - by rewrite list_lookup_fmap, Hi.
  - by rewrite list_lookup_fmap, Hj, E.
Qed.

Lemma elem_of_delete_batch w b b' : ids_unique w → b ∈ wr_batches w →
  b' ∈ wr_batches (delete_batch b w) ↔ b' ∈ wr_batches w ∧ b' ≠ b.
Proof.
  intros Hu Hb. cbn. rewrite filter_elem_of, negb_true_iff, String.eqb_neq. split; intros [Hin Hne]; (split; [done|]).
  - by intros ->.
  - intros E. by apply Hne, (ba_id_inj w).
Qed.

Lemma deleted_source b w o m : ids_unique w → b ∈ wr_batches w → source w o m →
  (m <= sequence_floor (delete_batch b w) o)%Z.
Proof.
  intros Hu Hb [(b' & Hb' & Ho & Em)|[(h & E)|Hrest]]; [| |by apply source_le; do 2 right].
  - destruct (decide (b' = b)) as [-> |Hne].
    + destruct (raise_head_own b (wr_heads w)) as (n & h & E & ?). rewrite Ho in E. rewrite <-Em.
      etrans; [done|]. apply source_le. right. left. eauto.
    + apply source_le. left. exists b'. split; [by apply elem_of_delete_batch|done].
  - destruct (raise_head_ge b _ _ _ _ E) as (n & h' & En & ?). etrans; [done|]. apply source_le. right. left. eauto.
Qed.

Lemma floor_source_le w w' o : (∀ m, source w o m → (m <= sequence_floor w' o)%Z) →
  (sequence_floor w o <= sequence_floor w' o)%Z.
Proof.
  intros H. destruct (floor_source w o) as [-> |?]; [|by apply H]. rewrite sequence_floor_five.
  destruct (max_or_zero_spec (batch_sequences o w')) as (? & _). lia.
Qed.

(** No step lowers the floor. *)
Lemma floor_mono C E w op w' o : wstep w op w' → ids_unique w → ledger_inv unhex C E (wr_ledger w) →
  (sequence_floor w o <= sequence_floor w' o)%Z.
Proof.
  intros Hs Hu Hi. apply floor_source_le. intros m Hm.
  destruct (writer_step_ledger _ _ _ _ _ Hs Hi) as [C' Hi'].
  destruct Hs as [o' c w b w' (Hins & _)%append_batch_Ok|b r w w1 w' H1 H2 H3|b w H1 H2|b w Hb|o' f w|ct w|op w s Hs].
  - by eapply inserted_source.
  - eapply inserted_source; [by eapply admit_batch_Ok|done].
  - by apply source_le.
  - by apply deleted_source.
  - destruct Hm as [?|[?|[?|[?|Ef]]]]; [apply source_le; by (do 4 (try (left; done) || right))..|].
    destruct (decide (o' = o)) as [-> |Hne].
    + transitivity (Z.max m f); [lia|]. apply source_le. do 4 right. cbn. by rewrite bmap_get_insert, Ef.
    + apply source_le. do 4 right. cbn. by rewrite bmap_get_insert_ne.
  - by apply source_le.
  - destruct Hm as [?|[?|Hm]]; [apply source_le; by left|apply source_le; by right; left|].
    assert (∃ h, (o, m, h) ∈ E ∨ bmap_get o (wr_floors w) = Some m) as (h & [Hk|Hf]).
    { destruct Hm as [?|[?|?]]; [..|by exists ""; right]; destruct (source_tomb_key _ _ w o m Hi) as [h ?]; eauto. }
    + eapply source_le, tomb_key_source; [exact Hi'|]. apply elem_of_app. left. exact Hk.
    + apply source_le. by do 4 right.
Qed.

(** ** Sequences *)

(** A step brought sequence [m] of writer [o] to this store. *)
Definition brought_in (op : WriterOp) (o : string) (m : Z) : Prop :=
  (∃ b, b ∈ op_batches op ∧ ba_origin b = o ∧ ba_replica_sequence b = m) ∨
  (∃ h, (o, m, h) ∈ op_tombstones op) ∨ op = WFloor o m.

Lemma inserted_has b w w' : inserted b w w' → b ∈ wr_batches w'.
Proof. intros (w1 & _ & ->). cbn. set_solver. Qed.

Lemma brought_in_floor C E w op w' o m : wstep w op w' → ledger_inv unhex C E (wr_ledger w) →
  brought_in op o m → (m <= sequence_floor w' o)%Z.
Proof.
  intros Hs Hi Hb. destruct (writer_step_ledger _ _ _ _ _ Hs Hi) as [C' Hi'].
  destruct Hb as [(b & Hb & Ho & Em)|[(h & Hk)| ->]].
  - apply source_le. left. exists b. split; [|done].
    destruct Hs as [o' c w b' w' (Hins & _)%append_batch_Ok|b' r w w1 w' H1 H2 H3|b' w H1 H2|b' w Hb'|o' f w|ct w|op w s Hs];
      cbn in Hb; try (by apply not_elem_of_nil in Hb); apply list_elem_of_singleton in Hb as ->;
      eapply inserted_has; [done|by eapply admit_batch_Ok].
  - eapply source_le, tomb_key_source; [exact Hi'|]. apply elem_of_app. right. exact Hk.
  - inversion Hs; subst. etrans; [|apply source_le; do 4 right; cbn; apply bmap_get_insert]. case_match; lia.
Qed.

Lemma run_floor w0 tr w o : run wstep w0 tr w → ∀ C E, ids_unique w0 → ledger_inv unhex C E (wr_ledger w0) →
  (sequence_floor w0 o <= sequence_floor w o)%Z ∧
  ∀ op m, op ∈ tr → brought_in op o m → (m <= sequence_floor w o)%Z.
Proof.
  induction 1 as [w|w op w' tr w'' Hs _ IH]; intros C E Hu Hi; [split; [lia|by intros ?? []%not_elem_of_nil]|].
  destruct (writer_step_ledger _ _ _ _ _ Hs Hi) as [C' Hi'].
  destruct (IH C' _ (writer_step_unique _ _ _ Hs Hu) Hi') as [Hle Hin].
  pose proof (floor_mono _ _ _ _ _ o Hs Hu Hi). split; [lia|].
  intros op' m [-> |Hop]%elem_of_cons Hb; [|by eapply Hin]. pose proof (brought_in_floor _ _ _ _ _ _ _ Hs Hi Hb). lia.
Qed.

(** C16: A sequence is never given twice: whatever was trimmed, tombstoned, withdrawn or admitted
    since, the next sequence of a writer is above every one this store ever held of it. *)
Theorem sequences_never_reused C E w0 tr w o n :
  ids_unique w0 → ledger_inv unhex C E (wr_ledger w0) → run wstep w0 tr w → next_replica_sequence w o = Ok n →
  ∀ m, source w0 o m ∨ (∃ op, op ∈ tr ∧ brought_in op o m) → (m < n)%Z.
Proof.
  intros Hu Hi Hr En m Hm. destruct (run_floor _ _ _ o Hr C E Hu Hi) as [Hle Hin].
  assert (m <= sequence_floor w o)%Z.
  { destruct Hm as [?%source_le|(op & ? & ?)]; [lia|by eapply Hin]. }
  unfold next_replica_sequence in En. case_match; simplify_eq. lia.
Qed.

(** ** The chain *)

(** The batches this store has had of a writer, as sequence and hash, with the head it began with. *)
Definition entry_of (b : Batch) : Z * string := (ba_replica_sequence b, ba_hash b).
Definition entries (w : Writers) (o : string) : list (Z * string) :=
  (entry_of <$> List.filter (is_origin o) (wr_batches w)) ++
  match bmap_get o (wr_heads w) with Some e => [e] | None => [] end.
Definition batch_history (w0 : Writers) (tr : list WriterOp) (o : string) : list (Z * string) :=
  entries w0 o ++ (entry_of <$> List.filter (is_origin o) (tr ≫= op_batches)).

Lemma newest_batch_spec w o :
  match newest_batch o w with
  | Some a => a ∈ wr_batches w ∧ ba_origin a = o ∧
              ∀ b, b ∈ wr_batches w → ba_origin b = o → (ba_replica_sequence b <= ba_replica_sequence a)%Z
  | None => ∀ b, b ∈ wr_batches w → ba_origin b ≠ o
  end.
Proof.
  unfold newest_batch.
  set (step := λ (best : option Batch) (b : Batch), match best with
     | Some a => if (ba_replica_sequence a <? ba_replica_sequence b)%Z then Some b else best | None => Some b end).
  assert (∀ l best, match foldl step best l with
    | Some a => (best = Some a ∨ a ∈ l) ∧ (∀ b, best = Some b ∨ b ∈ l → (ba_replica_sequence b <= ba_replica_sequence a)%Z)
    | None => best = None ∧ l = []
    end) as Hf.
  { induction l as [|x l IH]; intros best; cbn [foldl].
    - destruct best as [b0|]; [|done]. split; [by left|]. intros b [[= ->]|[]%not_elem_of_nil]. lia.
    - specialize (IH (step best x)). destruct (foldl step (step best x) l) as [a|].
      + destruct IH as [Ha Hle]. unfold step in Ha, Hle. destruct best as [b0|].
        * destruct (Z.ltb_spec (ba_replica_sequence b0) (ba_replica_sequence x)) as [Hlt|Hge].
          -- split; [set_solver|]. intros b [[= ->]|[-> |Hb]%elem_of_cons]; [|by apply Hle; left|by apply Hle; right].
             pose proof (Hle x (or_introl eq_refl)). lia.
          -- split; [set_solver|]. intros b [[= ->]|[-> |Hb]%elem_of_cons]; [by apply Hle; left| |by apply Hle; right].
             pose proof (Hle b0 (or_introl eq_refl)). lia.
        * split; [set_solver|]. intros b [?|[-> |Hb]%elem_of_cons]; [done|by apply Hle; left|by apply Hle; right].
      + destruct IH as [IH _]. unfold step in IH. destruct best; [case_match|]; done. }
  specialize (Hf (List.filter (is_origin o) (wr_batches w)) None). destruct (foldl _ _ _) as [a|].
  - destruct Hf as [[?|[Ha Ho]%filter_elem_of] Hle]; [done|]. split_and!; [done|by apply String.eqb_eq|].
    intros b Hb Hbo. apply Hle. right. apply filter_elem_of. split; [done|]. by apply String.eqb_eq.
  - destruct Hf as [_ Hf]. intros b Hb Ho. apply (not_elem_of_nil b). rewrite <-Hf. apply filter_elem_of.
    split; [done|]. by apply String.eqb_eq.
Qed.

Lemma elem_of_entries w o e : e ∈ entries w o ↔
  (∃ b, b ∈ wr_batches w ∧ ba_origin b = o ∧ entry_of b = e) ∨ bmap_get o (wr_heads w) = Some e.
Proof.
  unfold entries. rewrite elem_of_app, list_elem_of_fmap. f_equiv.
  - split.
    + intros (b & -> & [Hb Ho%String.eqb_eq]%filter_elem_of). eauto.
    + intros (b & Hb & Ho & <-). exists b. split; [done|]. apply filter_elem_of. split; [done|]. by apply String.eqb_eq.
  - destruct (bmap_get _ _) as [e'|]; [|split; [by intros []%not_elem_of_nil|done]].
    rewrite list_elem_of_singleton. split; [by intros ->|by intros [= ->]].
Qed.

Lemma previous_hash_spec w o :
  match previous_batch_hash w o with
  | Some h => ∃ m, (m, h) ∈ entries w o ∧ ∀ m' h', (m', h') ∈ entries w o → (m' <= m)%Z
  | None => entries w o = []
  end.
Proof.
  unfold previous_batch_hash. pose proof (newest_batch_spec w o) as Hn. destruct (newest_batch o w) as [a|].
  - destruct Hn as (Ha & Ho & Hmax).
    assert (∀ m' h', (m', h') ∈ entries w o → (m' <= ba_replica_sequence a)%Z ∨ bmap_get o (wr_heads w) = Some (m', h')) as Hle.
    { intros m' h' [(b & Hb & Hbo & [= <- <-])|?]%elem_of_entries; [left; by apply Hmax|by right]. }
    destruct (bmap_get o (wr_heads w)) as [[n h]|] eqn:Eh.
    + destruct (Z.ltb_spec (ba_replica_sequence a) n).
      * exists n. split; [apply elem_of_entries; by right|]. intros m' h' [?|[= <- <-]]%Hle; lia.
      * exists (ba_replica_sequence a). split; [apply elem_of_entries; left; eauto|].
        intros m' h' [?|[= <- <-]]%Hle; lia.
    + exists (ba_replica_sequence a). split; [apply elem_of_entries; left; eauto|]. intros m' h' [?|?]%Hle; [lia|done].
  - assert (∀ e, e ∈ entries w o → bmap_get o (wr_heads w) = Some e) as Hle.
    { intros e [(b & Hb & Hbo & _)|?]%elem_of_entries; [by destruct (Hn b Hb)|done]. }
    destruct (bmap_get o (wr_heads w)) as [[n h]|] eqn:Eh.
    + exists n. split; [apply elem_of_entries; by right|]. intros m' h' [= <- <-]%Hle. lia.
    + apply elem_of_nil_inv. intros e ?%Hle. done.
Qed.

(** The entries of a store stand for a history: they come from it, and none of it is above them. *)
Definition stands_for (w : Writers) (o : string) (H : list (Z * string)) : Prop :=
  (∀ e, e ∈ entries w o → e ∈ H) ∧ (∀ e, e ∈ H → ∃ e', e' ∈ entries w o ∧ (e.1 <= e'.1)%Z).

Lemma raise_head_entry b heads o e : bmap_get o (raise_head b heads) = Some e →
  bmap_get o heads = Some e ∨ ba_origin b = o ∧ e = entry_of b.
Proof.
  rewrite raise_head_spec. destruct (String.eqb_spec (ba_origin b) o); [|by left].
  destruct (bmap_get o heads) as [[n h]|]; [case_match|]; intros [= <-]; auto.
Qed.

Lemma stands_for_inserted b w w' o H : inserted b w w' → stands_for w o H →
  stands_for w' o (H ++ (entry_of <$> List.filter (is_origin o) [b])).
Proof.
  intros (w1 & (E1 & E2 & _) & ->) [Hin Hup].
  assert (∀ e, e ∈ entry_of <$> List.filter (is_origin o) [b] ↔ ba_origin b = o ∧ e = entry_of b) as Hb.
  { intros e. cbn. unfold is_origin. destruct (String.eqb_spec (ba_origin b) o); cbn; set_solver. }
  split.
  - intros e. rewrite elem_of_app, Hb, elem_of_entries. cbn. rewrite E1, E2. intros [(b' & Hb' & Ho & <-)|[Hh|?]%raise_head_entry].
    + apply elem_of_app in Hb' as [Hb'| ->%list_elem_of_singleton]; [|by right]. left. apply Hin, elem_of_entries. left. eauto.
    + left. apply Hin, elem_of_entries. by right.
    + by right.
  - intros e. rewrite elem_of_app, Hb. setoid_rewrite elem_of_entries. cbn. rewrite E1, E2. intros [He|[Ho ->]].
    + destruct (Hup e He) as (e' & [(b' & Hb' & Ho & <-)|Hh]%elem_of_entries & Hle).
      * exists (entry_of b'). split; [left; exists b'; set_solver|done].
      * destruct e' as [n h]. destruct (raise_head_ge b _ _ _ _ Hh) as (n' & h' & ? & ?). exists (n', h').
        split; [by right|]. cbn in *. lia.
    + exists (entry_of b). split; [left; exists b; set_solver|done].
Qed.

Lemma stands_for_deleted b w o H : ids_unique w → b ∈ wr_batches w → stands_for w o H → stands_for (delete_batch b w) o H.
Proof.
  intros Hu Hb [Hin Hup]. split.
  - intros e [(b' & [Hb' _]%elem_of_delete_batch & Ho & <-)|[Hh|[Ho ->]]%raise_head_entry]%elem_of_entries; try done;
      apply Hin, elem_of_entries; eauto.
  - intros e (e' & [(b' & Hb' & Ho & <-)|Hh]%elem_of_entries & Hle)%Hup.
    + destruct (decide (b' = b)) as [-> |Hne].
      * destruct (raise_head_own b (wr_heads w)) as (n & h & E & ?). exists (n, h). rewrite Ho in E.
        split; [apply elem_of_entries; by right|]. cbn in *. lia.
      * exists (entry_of b'). split; [|done]. apply elem_of_entries. left. exists b'. split; [by apply elem_of_delete_batch|done].
    + destruct e' as [n h]. destruct (raise_head_ge b _ _ _ _ Hh) as (n' & h' & ? & ?). exists (n', h').
      split; [apply elem_of_entries; by right|]. cbn in *. lia.
Qed.

Lemma stands_for_step w op w' o H : wstep w op w' → ids_unique w → stands_for w o H →
  stands_for w' o (H ++ (entry_of <$> List.filter (is_origin o) (op_batches op))).
Proof.
  intros Hs Hu HH. destruct Hs as [o' c w b w' (Hins & _)%append_batch_Ok|b r w w1 w' H1 H2 H3|b w H1 H2|b w Hb|o' f w|ct w|op w s Hs];
    cbn [op_batches]; try (cbn; by rewrite app_nil_r).
  - by eapply stands_for_inserted.
  - eapply stands_for_inserted; [by eapply admit_batch_Ok|done].
  - cbn. rewrite app_nil_r. by apply stands_for_deleted.
Qed.

Lemma stands_for_run w0 tr w o : run wstep w0 tr w → ∀ H, ids_unique w0 → stands_for w0 o H →
  stands_for w o (H ++ (entry_of <$> List.filter (is_origin o) (tr ≫= op_batches))).
Proof.
  induction 1 as [w|w op w' tr w'' Hs _ IH]; intros H Hu HH; cbn; [by rewrite app_nil_r|].
  rewrite List.filter_app, fmap_app, app_assoc.
  apply IH; [by eapply writer_step_unique|by eapply stands_for_step].
Qed.

(** A new batch names as its predecessor the hash of the highest batch of its writer that this
    store ever had, deleted or not; only a writer without any has none. *)
Theorem chain_links_highest w0 tr w o c b w' :
  ids_unique w0 → run wstep w0 tr w → append_batch canonical_hash5 o c w = Ok (b, w') →
  match ba_previous_hash b with
  | Some h => ∃ m, (m, h) ∈ batch_history w0 tr o ∧ ∀ m' h', (m', h') ∈ batch_history w0 tr o → (m' <= m)%Z
  | None => batch_history w0 tr o = []
  end.
Proof.
  intros Hu Hr (_ & _ & _ & -> & _)%append_batch_Ok.
  assert (stands_for w0 o (entries w0 o)) as H0 by (split; [done|]; intros e ?; exists e; split; [done|lia]).
  destruct (stands_for_run _ _ _ _ Hr _ Hu H0) as [Hin Hup]. pose proof (previous_hash_spec w o) as Hp. unfold batch_history.
  destruct (previous_batch_hash w o) as [h|].
  - destruct Hp as (m & Hm & Hmax). exists m. split; [by apply Hin|]. intros m' h' ([n h''] & Hn & Hle)%Hup.
    pose proof (Hmax _ _ Hn). cbn in *. lia.
  - apply elem_of_nil_inv. intros e (e' & He' & _)%Hup. rewrite Hp in He'. by apply not_elem_of_nil in He'.
Qed.

(** ** The order of a writer's own batches *)

(** What a store does with its own writer's batches: nobody else writes them, and a trim deletes
    them only before a cut it has recorded. *)
Definition own_step (o : string) (w : Writers) (op : WriterOp) (w' : Writers) : Prop :=
  wstep w op w' ∧ (∀ b, op = WAdmit b → ba_origin b ≠ o) ∧
  (∀ b, op = WDelete b → ba_origin b = o → ∃ cut, cut ∈ wr_cuts w ∧ (ba_accepted_at_unix_ms b < cut)%Z).

Definition own_ordered (o : string) (w : Writers) : Prop :=
  ∀ a b, a ∈ wr_batches w → b ∈ wr_batches w → ba_origin a = o → ba_origin b = o →
    (ba_replica_sequence a <= ba_replica_sequence b)%Z → (ba_accepted_at_unix_ms a <= ba_accepted_at_unix_ms b)%Z.

(** What a write is dated at least. *)
Definition time_floor (w : Writers) (o : string) : Z :=
  Z.max (max_or_zero (wr_cuts w)) (match newest_batch o w with Some b => ba_accepted_at_unix_ms b | None => 0%Z end).

Lemma write_time_floor w o c : write_time w o c = Z.max (clock_time c) (time_floor w o).
Proof. unfold write_time, time_floor. lia. Qed.

Lemma own_time_le w o b : own_ordered o w → b ∈ wr_batches w → ba_origin b = o →
  (ba_accepted_at_unix_ms b <= time_floor w o)%Z.
Proof.
  intros Hord Hb Ho. unfold time_floor. pose proof (newest_batch_spec w o) as Hn. destruct (newest_batch o w) as [a|].
  - destruct Hn as (Ha & Hao & Hmax). pose proof (Hord b a Hb Ha Ho Hao (Hmax b Hb Ho)). lia.
  - by destruct (Hn b Hb).
Qed.

(** The floor holds as long as the cuts stay and the newest own batch stays or is before a cut. *)
Lemma time_floor_le w w' o : own_ordered o w' → (∀ cut, cut ∈ wr_cuts w → cut ∈ wr_cuts w') →
  (∀ b, b ∈ wr_batches w → ba_origin b = o →
     b ∈ wr_batches w' ∨ ∃ cut, cut ∈ wr_cuts w' ∧ (ba_accepted_at_unix_ms b < cut)%Z) →
  (time_floor w o <= time_floor w' o)%Z.
Proof.
  intros Hord Hc Hb. destruct (max_or_zero_spec (wr_cuts w')) as (H0 & Hm & _).
  assert (max_or_zero (wr_cuts w) <= max_or_zero (wr_cuts w'))%Z as Hcut.
  { destruct (max_or_zero_spec (wr_cuts w)) as (_ & _ & [-> |?]); [done|]. by apply Hm, Hc. }
  assert (max_or_zero (wr_cuts w') <= time_floor w' o)%Z by (unfold time_floor; lia).
  unfold time_floor at 1. pose proof (newest_batch_spec w o) as Hn. destruct (newest_batch o w) as [a|]; [|lia].
  destruct Hn as (Ha & Hao & _). destruct (Hb a Ha Hao) as [Ha'|(cut & Hcut'%Hm & ?)]; [|lia].
  pose proof (own_time_le w' o a Hord Ha' Hao). lia.
Qed.

Lemma append_next o w b : next_replica_sequence w o = Ok (ba_replica_sequence b) → ba_origin b = o →
  (sequence_floor w o < ba_replica_sequence b)%Z.
Proof. unfold next_replica_sequence. intros E _. case_match; simplify_eq. lia. Qed.

Lemma own_step_ordered o w op w' : own_step o w op w' → ids_unique w → own_ordered o w → own_ordered o w'.
Proof.
  intros (Hs & Hadm & _) Hu Hord.
  destruct Hs as [o' c w b w' Ha|b r w w1 w' H1 H2 H3|b w H1 H2|b w Hb|o' f w|ct w|op w s Hs]; try done.
  - destruct (append_batch_Ok _ _ _ _ _ Ha) as (Hins & Hbo & Hseq & _ & Ht & _). destruct Hins as (w1 & (E1 & _) & ->).
    intros x y. cbn. rewrite E1, !elem_of_app, !list_elem_of_singleton. intros [Hx| ->] [Hy| ->] Hxo Hyo Hle; [by apply Hord| | |lia].
    + pose proof (own_time_le w o x Hord Hx Hxo). rewrite Ht, write_time_floor, <-Hbo, Hyo. lia.
    + assert (source w o (ba_replica_sequence y)) as Hsrc%source_le by (left; eauto).
      pose proof (append_next o' w b Hseq Hbo) as Hlt. rewrite <-Hbo, Hxo in Hlt. lia.
  - destruct (admit_batch_Ok _ _ _ _ _ H1 H2 H3) as (w2 & (E1 & _) & ->). specialize (Hadm _ eq_refl).
    intros x y. cbn. rewrite E1, !elem_of_app, !list_elem_of_singleton. intros [Hx| ->] [Hy| ->] Hxo Hyo; try done. by apply Hord.
  - intros x y [Hx _]%elem_of_delete_batch [Hy _]%elem_of_delete_batch; try done. by apply Hord.
Qed.

Lemma own_step_floor o w op w' : own_step o w op w' → ids_unique w → own_ordered o w →
  (time_floor w o <= time_floor w' o)%Z.
Proof.
  intros Hown Hu Hord. pose proof (own_step_ordered _ _ _ _ Hown Hu Hord) as Hord'. destruct Hown as (Hs & _ & Hdel).
  apply time_floor_le; [done|..];
    destruct Hs as [o' c w b w' (Hins & _)%append_batch_Ok|b r w w1 w' H1 H2 H3|b w H1 H2|b w Hb|o' f w|ct w|op w s Hs];
    try done; try (destruct Hins as (w1 & (E1 & _ & _ & E4 & _) & ->));
    try (destruct (admit_batch_Ok _ _ _ _ _ H1 H2 H3) as (w2 & (E1 & _ & _ & E4 & _) & ->)); cbn; rewrite ?E1, ?E4; try set_solver.
  intros x Hx Hxo. destruct (decide (x = b)) as [-> |Hne]; [right; by apply Hdel|left].
  by apply (elem_of_delete_batch w b x Hu Hb).
Qed.

Definition op_appended (op : WriterOp) : list Batch := match op with WAppend b => [b] | _ => [] end.
Definition own_appended (o : string) (tr : list WriterOp) : list Batch := List.filter (is_origin o) (tr ≫= op_appended).
Definition written_before (a b : Batch) : Prop :=
  (ba_replica_sequence a < ba_replica_sequence b)%Z ∧ (ba_accepted_at_unix_ms a <= ba_accepted_at_unix_ms b)%Z.

Lemma append_bounds o w op w' b : own_step o w op w' → ids_unique w → own_ordered o w → b ∈ op_appended op → ba_origin b = o →
  (sequence_floor w o < ba_replica_sequence b <= sequence_floor w' o)%Z ∧
  (time_floor w o <= ba_accepted_at_unix_ms b <= time_floor w' o)%Z.
Proof.
  intros Hown Hu Hord Hb Ho. pose proof (own_step_ordered _ _ _ _ Hown Hu Hord) as Hord'. destruct Hown as (Hs & _).
  destruct op as [b'| | | | | |]; cbn in Hb; try (by apply not_elem_of_nil in Hb). apply list_elem_of_singleton in Hb as ->.
  inversion Hs as [o' c w1 b1 w1' Ha| | | | | |]; subst.
  destruct (append_batch_Ok _ _ _ _ _ Ha) as (Hins & Hbo & Hseq & _ & Ht & _). rewrite Hbo in *. split.
  - split; [by apply append_next|]. apply source_le. left. exists b'. split; [by eapply inserted_has|done].
  - rewrite Ht, write_time_floor at 1. split; [lia|]. apply own_time_le; [done|by eapply inserted_has|done].
Qed.

(** In the order they were written, a writer's own batches have rising sequences and times that
    never step back, none before a cut recorded earlier. *)
Theorem own_writes_ordered C E o w0 tr w :
  ids_unique w0 → ledger_inv unhex C E (wr_ledger w0) → own_ordered o w0 → run (own_step o) w0 tr w →
  StronglySorted written_before (own_appended o tr) ∧
  (∀ b, b ∈ own_appended o tr → (sequence_floor w0 o < ba_replica_sequence b)%Z ∧
                                 (time_floor w0 o <= ba_accepted_at_unix_ms b)%Z).
Proof.
  intros Hu Hi Hord Hr. revert C E Hu Hi Hord.
  induction Hr as [w|w op w' tr w'' Hs _ IH]; intros C E Hu Hi Hord; [split; [constructor|by intros ? []%not_elem_of_nil]|].
  destruct (writer_step_ledger _ _ _ _ _ (proj1 Hs) Hi) as [C' Hi'].
  destruct (IH C' _ (writer_step_unique _ _ _ (proj1 Hs) Hu) Hi' (own_step_ordered _ _ _ _ Hs Hu Hord)) as [Hsort Hall].
  pose proof (floor_mono _ _ _ _ _ o (proj1 Hs) Hu Hi). pose proof (own_step_floor _ _ _ _ Hs Hu Hord).
  unfold own_appended in *. cbn [mbind list_bind]. rewrite List.filter_app.
  assert (∀ b, b ∈ List.filter (is_origin o) (op_appended op) →
    (sequence_floor w o < ba_replica_sequence b <= sequence_floor w' o)%Z ∧
    (time_floor w o <= ba_accepted_at_unix_ms b <= time_floor w' o)%Z) as Hb.
  { intros b [Hb Ho%String.eqb_eq]%filter_elem_of. by eapply append_bounds. }
  split.
  - destruct (List.filter (is_origin o) (op_appended op)) as [|b l] eqn:Ef; [done|]. destruct l as [|b2 l].
    + cbn. constructor; [done|]. apply List.Forall_forall. intros b' Hb'%list_elem_of_In. unfold written_before.
      destruct (Hall b' Hb'), (Hb b); [set_solver|]. lia.
    + exfalso. destruct op; cbn in Ef; try done. by destruct (is_origin o b0).
  - intros b [?%Hb|?%Hall]%elem_of_app; lia.
Qed.
End steps.

(** ** A writer whose newest batch is trimmed *)

Definition demo_hash5 (t : string * string * Z * option string * string) : string :=
  let '(domain, origin, sequence, previous, time) := t in
  domain +:+ "|" +:+ origin +:+ "|" +:+ decimal sequence +:+ "|" +:+ default "" previous +:+ "|" +:+ time.
Definition demo_empty_ledger : Ledger :=
  {| lg_claims := Build_TombTable [] [] []; lg_envelopes := Build_TombTable [] [] []; lg_cursor := None |}.
Definition demo_writers : Writers :=
  {| wr_batches := []; wr_heads := []; wr_floors := []; wr_rowid_high_water := None; wr_cuts := [];
     wr_ledger := demo_empty_ledger |}.
Definition demo_clock (ms : Z) : Clock := {| clk_now_ms := ms; clk_offset_ms := 0; clk_at_ms := None |}.
Definition demo_append (ms : Z) (w : Writers) : Batch * Writers :=
  match append_batch demo_hash5 "cedar" (demo_clock ms) w with
  | Ok r => r
  | Err _ => ({| ba_id := ""; ba_origin := ""; ba_replica_sequence := 0; ba_previous_hash := None; ba_hash := "";
                 ba_accepted_at_unix_ms := 0; ba_rowid := 0 |}, w)
  end.
Definition demo_first := demo_append 5 demo_writers.
Definition demo_second := demo_append 3 demo_first.2.
Definition demo_trimmed : Writers := delete_batch demo_second.1 (add_cut 9 demo_second.2).
Definition demo_third := demo_append 4 demo_trimmed.
Definition demo_writer_ops : list WriterOp :=
  [WAppend demo_first.1; WAppend demo_second.1; WCut 9; WDelete demo_second.1].

Lemma demo_writers_ledger : ledger_inv demo_unhex [] [] (wr_ledger demo_writers).
Proof.
  apply (ledger_fresh_inv demo_unhex demo_empty_ledger). unfold ledger_fresh, rowids_fit. cbn.
  split_and!; try done; try apply NoDup_nil_2; intros r []%not_elem_of_nil.
Qed.

Lemma demo_own_run : run (own_step demo_hash5 demo_unhex "cedar") demo_writers
  (demo_writer_ops ++ [WAppend demo_third.1]) demo_third.2.
Proof.
  unfold demo_writer_ops. cbn [app].
  eapply run_cons; [split_and!; [eapply (ws_append _ _ "cedar" (demo_clock 5)); reflexivity|done..]|].
  eapply run_cons; [split_and!; [eapply (ws_append _ _ "cedar" (demo_clock 3)); reflexivity|done..]|].
  eapply run_cons; [split_and!; [apply ws_cut|done..]|].
  eapply run_cons; [split_and!; [apply ws_delete; right; left|done|]|].
  - intros b [= <-] _. exists 9%Z. split; [left|done].
  - eapply run_cons; [split_and!; [eapply (ws_append _ _ "cedar" (demo_clock 4)); reflexivity|done..]|]. constructor.
Qed.

Lemma demo_writer_run : run (writer_step demo_hash5 demo_unhex) demo_writers demo_writer_ops demo_trimmed.
Proof.
  eapply run_cons; [eapply (ws_append _ _ "cedar" (demo_clock 5)); reflexivity|].
  eapply run_cons; [eapply (ws_append _ _ "cedar" (demo_clock 3)); reflexivity|].
  eapply run_cons; [apply ws_cut|]. eapply run_cons; [apply ws_delete; right; left|]. constructor.
Qed.

Lemma sequences_never_reused_witness : next_replica_sequence demo_trimmed "cedar" = Ok 3%Z ∧ (2 < 3)%Z.
Proof.
  split; [reflexivity|].
  apply (sequences_never_reused demo_hash5 demo_unhex [] [] demo_writers demo_writer_ops demo_trimmed "cedar" 3).
  - apply NoDup_nil_2.
  - exact demo_writers_ledger.
  - exact demo_writer_run.
  - reflexivity.
  - right. exists (WAppend demo_second.1). split; [right; left|]. left. exists demo_second.1.
    split_and!; [left|reflexivity|reflexivity].
Defined.

Lemma chain_links_highest_witness :
  ∃ m, (m, ba_hash demo_second.1) ∈ batch_history demo_writers demo_writer_ops "cedar" ∧
    ∀ m' h', (m', h') ∈ batch_history demo_writers demo_writer_ops "cedar" → (m' <= m)%Z.
Proof.
  exact (chain_links_highest demo_hash5 demo_unhex demo_writers demo_writer_ops demo_trimmed "cedar" (demo_clock 4)
           demo_third.1 demo_third.2 (NoDup_nil_2 (A := string)) demo_writer_run eq_refl).
Defined.

Lemma own_writes_ordered_witness :
  StronglySorted written_before (own_appended "cedar" (demo_writer_ops ++ [WAppend demo_third.1])).
Proof.
  apply (own_writes_ordered demo_hash5 demo_unhex [] [] "cedar" demo_writers (demo_writer_ops ++ [WAppend demo_third.1]) demo_third.2).
  - apply NoDup_nil_2.
  - exact demo_writers_ledger.
  - intros a b []%not_elem_of_nil.
  - exact demo_own_run.
Defined.
