(* ===== verification/Trim.v ===== *)
(** * Trimming a checkpoint
    (crates/smallclaims/src/store/checkpoint_trim.rs, with [delete_dropped_rows_tx] of
    store/checkpoint.rs and [remove_claim_tx] of store/events.rs)

    A trim records the tombstones of what a checkpoint drops, marks the checkpoint, and
    then deletes the rows the tombstones stand for, chunk by chunk, each chunk a
    transaction that stops early when its time is up.  A crash between chunks loses the
    cursor, not the chunks.  The theorems show that however the work is cut into chunks and
    wherever it is interrupted, the trim ends, exactly the tombstoned rows are gone, no
    claim loses its batch, and the projected graph stays as it was. *)

From S2P Require Import Prelude BTree Json Digests Slices Inventory Retired WriterHeads.

Local Open Scope claims_scope.
Local Open Scope string_scope.

(** ** The rest of the store *)

(** What a trim does to tables of other components: [principals::forget_claim_tx], and the
    generation and digest of the projected graph, which every chunk compares. *)
Record HeldClaim := { hc_id : string; hc_batch_id : string; hc_store_index : Z }.

Class OtherTables := {
  other : Type;
  forget_claim_tx : list HeldClaim → string → other → other;
  generation : other → Z;
  graph_digest : other → string
}.

(** ** The tables *)

Record HeldEnvelope := { he_key : envelope_key; he_batch_id : option string }.
Record Operation := { on_id : string; on_canonical_claim_id : string }.
Record CheckpointRow := { cp_id : string; cp_cut_unix_ms : Z; cp_state : string; cp_drop_digest : option string }.
(** [event_positions], [local_event_payloads] when it still exists, and the resume floor of [meta]. *)
Record EventIndex := { ei_positions : list Z; ei_legacy : option (list Z); ei_resume_floor : option Z }.

Section trim.
Context `{OtherTables}.

Record TrimStore := {
  ts_claims : list HeldClaim;
  ts_operations : list Operation;
  ts_envelopes : list HeldEnvelope;
  ts_records : list envelope_key;
  ts_signatures : list envelope_key;
  ts_holds : list envelope_key;
  ts_writers : Writers;
  ts_events : EventIndex;
  ts_checkpoints : list CheckpointRow;
  ts_claims_sequence : Z;
  ts_rows_changed : nat;
  ts_other : other
}.

Definition ts_ledger (s : TrimStore) : Ledger := wr_ledger (ts_writers s).

(** ** Deleting rows *)

Definition raise_resume_floor_tx (index : Z) (e : EventIndex) : EventIndex :=
  {| ei_positions := ei_positions e; ei_legacy := ei_legacy e;
     ei_resume_floor := Some (match ei_resume_floor e with Some f => Z.max f index | None => index end) |}.

Definition remove_claim_tx (claims : list HeldClaim) (claim : string) (e : EventIndex) : EventIndex :=
  match List.find (λ c, String.eqb (hc_id c) claim) claims with
  | None => e
  | Some c =>
      let position := hc_store_index c in
      let indexed := existsb (Z.eqb position) (ei_positions e) in
      let pending := match ei_legacy e with Some l => existsb (Z.eqb position) l | None => false end in
      if negb indexed && negb pending then e
      else
        let e := raise_resume_floor_tx position e in
        {| ei_positions := List.filter (λ p, negb (p =? position)%Z) (ei_positions e);
           ei_legacy := if pending then List.filter (λ p, negb (p =? position)%Z) <$> ei_legacy e else ei_legacy e;
           ei_resume_floor := ei_resume_floor e |}
  end.

(** The first loop of [delete_dropped_rows_tx]: one claim.  Foreign keys are on: a claim an
    operation still names is not deleted. *)
Definition drop_claim_row (s : TrimStore) (claim : ClaimTombstone) : result TrimStore string :=
  let operations := match ct_operation_id claim with
                    | Some operation =>
                        List.filter (λ o, negb (String.eqb (on_id o) operation &&
                                                String.eqb (on_canonical_claim_id o) (ct_id claim))) (ts_operations s)
                    | None => ts_operations s
                    end in
  if existsb (λ c, String.eqb (hc_id c) (ct_id claim)) (ts_claims s) &&
     existsb (λ o, String.eqb (on_canonical_claim_id o) (ct_id claim)) operations
  then Err "FOREIGN KEY constraint failed"
  else Ok {| ts_claims := List.filter (λ c, negb (String.eqb (hc_id c) (ct_id claim))) (ts_claims s);
             ts_operations := operations; ts_envelopes := ts_envelopes s; ts_records := ts_records s;
             ts_signatures := ts_signatures s; ts_holds := ts_holds s; ts_writers := ts_writers s;
             ts_events := remove_claim_tx (ts_claims s) (ct_id claim) (ts_events s);
             ts_checkpoints := ts_checkpoints s; ts_claims_sequence := ts_claims_sequence s;
             ts_rows_changed := ts_rows_changed s;
             ts_other := forget_claim_tx (ts_claims s) (ct_id claim) (ts_other s) |}.

Definition without_key (k : envelope_key) (l : list envelope_key) : list envelope_key :=
  List.filter (λ k', negb (bool_decide (k' = k))) l.

(** The second loop: one envelope, and its batch once nothing is left of it. *)
Definition drop_envelope_row (s : TrimStore) (envelope : EnvelopeTombstone) : TrimStore :=
  let k := et_key envelope in
  let batch := match List.find (λ e, bool_decide (he_key e = k)) (ts_envelopes s) with
               | Some e => he_batch_id e | None => None end in
  let envelopes := List.filter (λ e, negb (bool_decide (he_key e = k))) (ts_envelopes s) in
  let writers :=
    match batch with
    | None => ts_writers s
    | Some id =>
        if existsb (λ c, String.eqb (hc_batch_id c) id) (ts_claims s) ||
           existsb (λ e, bool_decide (he_batch_id e = Some id)) envelopes
        then ts_writers s
        else match List.find (λ b, String.eqb (ba_id b) id) (wr_batches (ts_writers s)) with
             | Some b => delete_batch b (ts_writers s)
             | None => ts_writers s
             end
    end in
  {| ts_claims := ts_claims s; ts_operations := ts_operations s; ts_envelopes := envelopes;
     ts_records := without_key k (ts_records s); ts_signatures := without_key k (ts_signatures s);
     ts_holds := without_key k (ts_holds s); ts_writers := writers; ts_events := ts_events s;
     ts_checkpoints := ts_checkpoints s; ts_claims_sequence := ts_claims_sequence s;
     ts_rows_changed := ts_rows_changed s; ts_other := ts_other s |}.

Definition drop_claim_rows (s : result TrimStore string) (claims : list ClaimTombstone) : result TrimStore string :=
  foldl (λ s claim, let? s := s in drop_claim_row s claim) s claims.
Definition delete_dropped_rows_tx (envelopes : list EnvelopeTombstone) (claims : list ClaimTombstone) (s : TrimStore) :
    result TrimStore string :=
  let? s := drop_claim_rows (Ok s) claims in
  Ok (foldl drop_envelope_row s envelopes).

(** ** The next rows *)

Record TrimCursor := { tc_envelope : envelope_key; tc_envelopes_done : bool; tc_claim : string }.
Definition trim_cursor_default : TrimCursor :=
  {| tc_envelope := ("", 0%Z, ""); tc_envelopes_done := false; tc_claim := "" |}.

(** [WHERE key > ?1 ORDER BY key LIMIT 1]. *)
Definition next_key {K} `{Ord K} (after : K) (keys : list K) : option K :=
  List.find (λ k, match cmp after k with Lt => true | _ => false end) (bset_of_list keys).

Definition deletable_claim (id : string) (operation_id : option string) : ClaimTombstone :=
  {| ct_id := id; ct_writer := ""; ct_sequence := 0; ct_envelope_hash := ""; ct_subject := ""; ct_kind := "";
     ct_actor := None; ct_predecessors := []; ct_operation_id := operation_id; ct_request_digest := None;
     ct_accepted_at_unix_ms := 0 |}.

Definition claim_held (s : TrimStore) (id : string) : bool := existsb (λ c, String.eqb (hc_id c) id) (ts_claims s).
Definition envelope_held (s : TrimStore) (k : envelope_key) : bool :=
  existsb (λ e, bool_decide (he_key e = k)) (ts_envelopes s).
Definition ct_envelope (c : ClaimTombstone) : envelope_key := (ct_writer c, ct_sequence c, ct_envelope_hash c).

Definition claim_rows (s : TrimStore) : list ClaimTombstone := tr_data <$> tt_rows (lg_claims (ts_ledger s)).
Definition envelope_rows (s : TrimStore) : list EnvelopeTombstone := tr_data <$> tt_rows (lg_envelopes (ts_ledger s)).

Definition next_claim_rows (s : TrimStore) (cursor : TrimCursor) :
    option (option EnvelopeTombstone * list ClaimTombstone) * TrimCursor :=
  match next_key (tc_claim cursor) (ct_id <$> claim_rows s) with
  | None => (None, cursor)
  | Some id =>
      let cursor := {| tc_envelope := tc_envelope cursor; tc_envelopes_done := tc_envelopes_done cursor; tc_claim := id |} in
      let claim := (λ c, deletable_claim (ct_id c) (ct_operation_id c)) <$>
                     List.find (λ c, String.eqb (ct_id c) id) (claim_rows s) in
      (Some (None, if claim_held s id then option_list claim else []), cursor)
  end.
Definition next_trim_rows (s : TrimStore) (cursor : TrimCursor) :
    option (option EnvelopeTombstone * list ClaimTombstone) * TrimCursor :=
  if tc_envelopes_done cursor then next_claim_rows s cursor
  else
    match next_key (tc_envelope cursor) (et_key <$> envelope_rows s) with
    | Some k =>
        let cursor := {| tc_envelope := k; tc_envelopes_done := false; tc_claim := tc_claim cursor |} in
        if envelope_held s k then
          let claims := (λ c, deletable_claim (ct_id c) (ct_operation_id c)) <$>
                          List.filter (λ c, bool_decide (ct_envelope c = k) && claim_held s (ct_id c)) (claim_rows s) in
          (Some (List.find (λ e, bool_decide (et_key e = k)) (envelope_rows s), claims), cursor)
        else (Some (None, []), cursor)
    | None =>
        next_claim_rows s {| tc_envelope := tc_envelope cursor; tc_envelopes_done := true; tc_claim := tc_claim cursor |}
    end.

(** ** Chunks *)

Record Chunk := {
  ch_store : TrimStore;
  ch_cursor : TrimCursor;
  ch_envelopes : list EnvelopeTombstone;
  ch_claims : list ClaimTombstone;
  ch_steps : nat
}.

(** The inner loop.  [more n] is whether time is left after [n] steps; the first step is
    always taken. *)
Fixpoint trim_steps (most : nat) (more : nat → bool) (c : Chunk) : result Chunk string :=
  match most with
  | 0 => Ok c
  | S most =>
      if Nat.eqb (ch_steps c) 0 || more (ch_steps c) then
        let '(rows, cursor) := next_trim_rows (ch_store c) (ch_cursor c) in
        match rows with
        | None => Ok {| ch_store := ch_store c; ch_cursor := cursor; ch_envelopes := ch_envelopes c;
                        ch_claims := ch_claims c; ch_steps := ch_steps c |}
        | Some (envelope, claims) =>
            let? s := delete_dropped_rows_tx (option_list envelope) claims (ch_store c) in
            trim_steps most more {| ch_store := s; ch_cursor := cursor;
                                    ch_envelopes := (ch_envelopes c ++ option_list envelope)%list;
                                    ch_claims := (ch_claims c ++ claims)%list; ch_steps := S (ch_steps c) |}
        end
      else Ok c
  end.

Inductive ChunkEnd := Exhausted | GraphChanged | Committed (c : Chunk).

(** One transaction.  Only if the generation moved is the work done again after a rollback and
    the digests compared. *)
Definition trim_chunk (most : nat) (more : nat → bool) (s : TrimStore) (cursor : TrimCursor) : result ChunkEnd string :=
  let? c := trim_steps most more {| ch_store := s; ch_cursor := cursor; ch_envelopes := []; ch_claims := []; ch_steps := 0 |} in
  if Nat.eqb (ch_steps c) 0 then Ok Exhausted
  else if (generation (ts_other (ch_store c)) =? generation (ts_other s))%Z then Ok (Committed c)
  else
    let after := graph_digest (ts_other (ch_store c)) in
    let before := graph_digest (ts_other s) in
    let? s' := delete_dropped_rows_tx (ch_envelopes c) (ch_claims c) s in
    if negb (String.eqb before after) || negb (String.eqb (graph_digest (ts_other s')) before) then Ok GraphChanged
    else Ok (Committed {| ch_store := s'; ch_cursor := ch_cursor c; ch_envelopes := ch_envelopes c;
                          ch_claims := ch_claims c; ch_steps := ch_steps c |}).

(** The caches that read replica rows are told, unless the chunk only moved the cursor. *)
Definition rows_changed (s : TrimStore) : TrimStore :=
  {| ts_claims := ts_claims s; ts_operations := ts_operations s; ts_envelopes := ts_envelopes s;
     ts_records := ts_records s; ts_signatures := ts_signatures s; ts_holds := ts_holds s; ts_writers := ts_writers s;
     ts_events := ts_events s; ts_checkpoints := ts_checkpoints s; ts_claims_sequence := ts_claims_sequence s;
     ts_rows_changed := S (ts_rows_changed s); ts_other := ts_other s |}.
Definition commit_chunk (c : Chunk) : TrimStore :=
  match ch_envelopes c, ch_claims c with
  | [], [] => ch_store c
  | _, _ => rows_changed (ch_store c)
  end.

(** ** The checkpoint's row *)

Definition set_checkpoints (checkpoints : list CheckpointRow) (writers : Writers) (s : TrimStore) : TrimStore :=
  {| ts_claims := ts_claims s; ts_operations := ts_operations s; ts_envelopes := ts_envelopes s;
     ts_records := ts_records s; ts_signatures := ts_signatures s; ts_holds := ts_holds s; ts_writers := writers;
     ts_events := ts_events s; ts_checkpoints := checkpoints; ts_claims_sequence := ts_claims_sequence s;
     ts_rows_changed := ts_rows_changed s; ts_other := ts_other s |}.
(** The upserts of [mark] and [set_checkpoint_state]: an existing row keeps its cut. *)
Definition upsert_checkpoint (checkpoint : string) (cut : Z) (update : CheckpointRow → CheckpointRow)
    (state : string) (drop_digest : option string) (s : TrimStore) : TrimStore :=
  if existsb (λ r, String.eqb (cp_id r) checkpoint) (ts_checkpoints s) then
    set_checkpoints ((λ r, if String.eqb (cp_id r) checkpoint then update r else r) <$> ts_checkpoints s) (ts_writers s) s
  else
    set_checkpoints (ts_checkpoints s ++ [{| cp_id := checkpoint; cp_cut_unix_ms := cut; cp_state := state;
                                             cp_drop_digest := drop_digest |}])%list
      (add_cut cut (ts_writers s)) s.
Definition set_checkpoint_state (checkpoint : string) (cut : Z) (state : string) (s : TrimStore) : result TrimStore string :=
  if fits_i64 cut then
    Ok (upsert_checkpoint checkpoint cut
          (λ r, {| cp_id := cp_id r; cp_cut_unix_ms := cp_cut_unix_ms r; cp_state := state; cp_drop_digest := cp_drop_digest r |})
          state None s)
  else Err "out of range integral type conversion attempted".
Definition mark (checkpoint : string) (cut : Z) (drop_digest state : string) (s : TrimStore) : result TrimStore string :=
  if fits_i64 cut then
    Ok (upsert_checkpoint checkpoint cut
          (λ r, {| cp_id := cp_id r; cp_cut_unix_ms := cp_cut_unix_ms r; cp_state := state; cp_drop_digest := Some drop_digest |})
          state (Some drop_digest) s)
  else Err "out of range integral type conversion attempted".

(** [trim.final_mark]: the state, and the sequence of [claims] so that older cursors expire. *)
Definition final_mark (checkpoint : string) (s : TrimStore) : TrimStore :=
  rows_changed
    {| ts_claims := ts_claims s; ts_operations := ts_operations s; ts_envelopes := ts_envelopes s;
       ts_records := ts_records s; ts_signatures := ts_signatures s; ts_holds := ts_holds s; ts_writers := ts_writers s;
       ts_events := ts_events s;
       ts_checkpoints := (λ r, if String.eqb (cp_id r) checkpoint
                               then {| cp_id := cp_id r; cp_cut_unix_ms := cp_cut_unix_ms r; cp_state := "trimmed";
                                       cp_drop_digest := cp_drop_digest r |} else r) <$> ts_checkpoints s;
       ts_claims_sequence := (ts_claims_sequence s + 1)%Z; ts_rows_changed := ts_rows_changed s; ts_other := ts_other s |}.

(** ** The whole trim *)

Inductive CheckpointAction :=
| Trimmed (checkpoint : string) (envelopes claims : nat)
| TrimGraphChanged (checkpoint : string).

(** [finish_trim_paced]: the store as its transactions left it, and what happened.  The
    diagnostic claim of the changed graph is an ordinary write that follows. *)
Fixpoint finish_trim_paced (fuel : nat) (most : nat) (more : nat → nat → bool) (checkpoint : string)
    (deleted_envelopes deleted_claims chunks : nat) (cursor : TrimCursor) (s : TrimStore) :
    option (TrimStore * result CheckpointAction string) :=
  match fuel with
  | 0 => None
  | S fuel =>
      match trim_chunk most (more chunks) s cursor with
      | Err e => Some (s, Err e)
      | Ok Exhausted => Some (final_mark checkpoint s, Ok (Trimmed checkpoint deleted_envelopes deleted_claims))
      | Ok GraphChanged =>
          match set_checkpoint_state checkpoint 0 "graph-changed" s with
          | Ok s => Some (s, Ok (TrimGraphChanged checkpoint))
          | Err e => Some (s, Err e)
          end
      | Ok (Committed c) =>
          finish_trim_paced fuel most more checkpoint (deleted_envelopes + length (ch_envelopes c))
            (deleted_claims + length (ch_claims c)) (S chunks) (ch_cursor c) (commit_chunk c)
      end
  end.
Definition finish_trim (fuel most : nat) (more : nat → nat → bool) (checkpoint : string) (s : TrimStore) :
    option (TrimStore * result CheckpointAction string) :=
  finish_trim_paced fuel most more checkpoint 0 0 0 trim_cursor_default s.

(** ** What deleting leaves *)

(** Rows with these identities are gone, the batches nothing is left of with them, and nothing
    else is. *)
Record dropped (ids : list string) (keys : list envelope_key) (s s' : TrimStore) : Prop := {
  dr_claims : ts_claims s' = List.filter (λ c, negb (bool_decide (hc_id c ∈ ids))) (ts_claims s);
  dr_envelopes : ts_envelopes s' = List.filter (λ e, negb (bool_decide (he_key e ∈ keys))) (ts_envelopes s);
  dr_records : ts_records s' = List.filter (λ k, negb (bool_decide (k ∈ keys))) (ts_records s);
  dr_signatures : ts_signatures s' = List.filter (λ k, negb (bool_decide (k ∈ keys))) (ts_signatures s);
  dr_holds : ts_holds s' = List.filter (λ k, negb (bool_decide (k ∈ keys))) (ts_holds s);
  dr_operations o : o ∈ ts_operations s' → o ∈ ts_operations s;
  dr_kept_operations o : o ∈ ts_operations s → on_canonical_claim_id o ∉ ids → o ∈ ts_operations s';
  dr_foreign_key o : o ∈ ts_operations s' → on_canonical_claim_id o ∈ hc_id <$> ts_claims s → on_canonical_claim_id o ∉ ids;
  dr_writers : ∃ bs, run (λ w b w', b ∈ wr_batches w ∧ w' = delete_batch b w) (ts_writers s) bs (ts_writers s');
  dr_orphans b : b ∈ wr_batches (ts_writers s) → b ∈ wr_batches (ts_writers s') ∨
    (∀ c, c ∈ ts_claims s' → hc_batch_id c ≠ ba_id b) ∧ (∀ e, e ∈ ts_envelopes s' → he_batch_id e ≠ Some (ba_id b));
  dr_ledger : ts_ledger s' = ts_ledger s;
  dr_checkpoints : ts_checkpoints s' = ts_checkpoints s
}.

Lemma filter_not_in_app {A B} `{EqDecision B} (f : A → B) (i j : list B) l :
  List.filter (λ x, negb (bool_decide (f x ∈ j))) (List.filter (λ x, negb (bool_decide (f x ∈ i))) l) =
  List.filter (λ x, negb (bool_decide (f x ∈ (i ++ j)%list))) l.
Proof.
  rewrite filter_filter_and. apply filter_ext_elem. intros x _. rewrite <-negb_orb. f_equal.
  apply eq_bool_prop_intro. rewrite orb_True, !bool_decide_spec, elem_of_app. done.
Qed.

Lemma filter_not_in_nil {A B} `{EqDecision B} (f : A → B) l : List.filter (λ x, negb (bool_decide (f x ∈ []))) l = l.
Proof.
  transitivity (List.filter (λ _, true) l); [|apply List.filter_true]. apply filter_ext_elem. intros x _.
  rewrite bool_decide_eq_false_2; [done|]. by intros []%not_elem_of_nil.
Qed.

Lemma run_unit {S L} (step : S → L → S → Prop) s l s' : step s l s' → run step s [l] s'.
Proof. intros. eapply run_cons; [done|constructor]. Qed.

Lemma dropped_refl s : dropped [] [] s s.
Proof.
  split; rewrite ?filter_not_in_nil; auto.
  - intros o _ _ []%not_elem_of_nil.
  - exists []. constructor.
Qed.

Lemma dropped_trans i k i' k' s s' s'' : dropped i k s s' → dropped i' k' s' s'' → dropped (i ++ i') (k ++ k') s s''.
Proof.
  intros D1 D2. split.
  - by rewrite (dr_claims _ _ _ _ D2), (dr_claims _ _ _ _ D1), filter_not_in_app.
  - by rewrite (dr_envelopes _ _ _ _ D2), (dr_envelopes _ _ _ _ D1), filter_not_in_app.
  - rewrite (dr_records _ _ _ _ D2), (dr_records _ _ _ _ D1). apply (filter_not_in_app id).
  - rewrite (dr_signatures _ _ _ _ D2), (dr_signatures _ _ _ _ D1). apply (filter_not_in_app id).
  - rewrite (dr_holds _ _ _ _ D2), (dr_holds _ _ _ _ D1). apply (filter_not_in_app id).
  - intros o ?%(dr_operations _ _ _ _ D2). by apply (dr_operations _ _ _ _ D1).
  - intros o Ho Hn. apply (dr_kept_operations _ _ _ _ D2); [apply (dr_kept_operations _ _ _ _ D1); [done|]|]; set_solver.
  - intros o Ho Hc. pose proof (dr_foreign_key _ _ _ _ D1 o (dr_operations _ _ _ _ D2 o Ho) Hc) as Hi.
    apply not_elem_of_app. split; [done|]. apply (dr_foreign_key _ _ _ _ D2 o Ho). rewrite (dr_claims _ _ _ _ D1).
    apply list_elem_of_fmap in Hc as (c & Ec & Hc). apply list_elem_of_fmap. exists c. split; [done|].
    apply filter_elem_of. split; [done|]. rewrite <-Ec. by apply negb_true_iff, bool_decide_eq_false.
  - destruct (dr_writers _ _ _ _ D1) as [bs ?], (dr_writers _ _ _ _ D2) as [bs' ?]. exists (bs ++ bs')%list. by eapply run_app.
  - intros b [Hb|[Hc He]]%(dr_orphans _ _ _ _ D1); [by apply (dr_orphans _ _ _ _ D2)|right]. split.
    + intros c Hin. rewrite (dr_claims _ _ _ _ D2) in Hin. apply filter_elem_of in Hin as [? _]. by apply Hc.
    + intros e Hin. rewrite (dr_envelopes _ _ _ _ D2) in Hin. apply filter_elem_of in Hin as [? _]. by apply He.
  - by rewrite (dr_ledger _ _ _ _ D2), (dr_ledger _ _ _ _ D1).
  - by rewrite (dr_checkpoints _ _ _ _ D2), (dr_checkpoints _ _ _ _ D1).
Qed.

Lemma drop_claim_row_dropped s c s' : drop_claim_row s c = Ok s' → dropped [ct_id c] [] s s'.
Proof.
  unfold drop_claim_row. destruct (_ && _) eqn:Ef; [done|]. intros [= <-]. split; cbn; rewrite ?filter_not_in_nil; auto.
  - apply filter_ext_elem. intros x _. f_equal. apply eq_bool_prop_intro.
    rewrite bool_decide_spec, list_elem_of_singleton. split; [by intros E%Is_true_eq_true%String.eqb_eq|].
    intros ->. by rewrite String.eqb_refl.
  - intros o Ho. destruct (ct_operation_id c); [|done]. by apply filter_elem_of in Ho as [? _].
  - intros o Ho Hn. destruct (ct_operation_id c); [|done]. apply filter_elem_of. split; [done|].
    apply negb_true_iff, andb_false_iff. right. apply String.eqb_neq. set_solver.
  - intros o Ho (x & Ex & Hx)%list_elem_of_fmap Eo%list_elem_of_singleton. apply andb_false_iff in Ef as [Ef|Ef];
      apply not_true_iff_false in Ef; apply Ef, existsb_elem_of; [exists x|exists o]; (split; [done|]).
    + apply String.eqb_eq. congruence.
    + by apply String.eqb_eq.
  - exists []. constructor.
Qed.

Lemma singleton_key_filter (k : envelope_key) {A} (f : A → envelope_key) l :
  List.filter (λ x, negb (bool_decide (f x = k))) l = List.filter (λ x, negb (bool_decide (f x ∈ [k]))) l.
Proof.
  apply filter_ext_elem. intros x _. f_equal. apply bool_decide_ext. by rewrite list_elem_of_singleton.
Qed.

Lemma delete_envelope_dropped s e : dropped [] [et_key e] s (drop_envelope_row s e).
Proof.
  unfold drop_envelope_row. set (batch := match List.find _ _ with Some _ => _ | None => _ end). clearbody batch.
  rewrite (singleton_key_filter _ he_key).
  set (envelopes := List.filter (λ e', negb (bool_decide (he_key e' ∈ [et_key e]))) (ts_envelopes s)).
  assert (∀ l, without_key (et_key e) l = List.filter (λ k, negb (bool_decide (k ∈ [et_key e]))) l) as Hk.
  { intros l. apply (singleton_key_filter (et_key e) id). }
  split; cbn; rewrite ?filter_not_in_nil, ?Hk; auto.
  - intros o _ _ []%not_elem_of_nil.
  - destruct batch as [id|]; [|by exists []; constructor]. case_match; [by exists []; constructor|].
    destruct (List.find _ _) as [b|] eqn:Ef; [|by exists []; constructor]. exists [b]. apply run_unit.
    apply List.find_some in Ef as [?%list_elem_of_In _]. done.
  - intros b Hb. destruct batch as [id|]; [|by left]. destruct (_ || _) eqn:Eo; [by left|].
    destruct (List.find _ _) as [b'|] eqn:Ef; [|by left]. apply List.find_some in Ef as [_ <-%String.eqb_eq].
    destruct (decide (ba_id b = ba_id b')) as [E|E].
    + right. rewrite E. apply orb_false_iff in Eo as [E1 E2]. split.
      * intros c Hc Ec. apply not_true_iff_false in E1. apply E1, existsb_elem_of. exists c. split; [done|]. by apply String.eqb_eq.
      * intros x Hx Ex. apply not_true_iff_false in E2. apply E2, existsb_elem_of. exists x. split; [done|].
        by apply bool_decide_eq_true.
    + left. cbn. apply filter_elem_of. split; [done|]. by apply negb_true_iff, String.eqb_neq.
  - unfold ts_ledger. cbn. destruct batch as [id|]; [|done]. case_match; [done|]. by case_match.
Qed.

Lemma drop_claim_rows_Err e cs : drop_claim_rows (Err e) cs = Err e.
Proof. by induction cs. Qed.

Lemma drop_claim_rows_dropped cs : ∀ s s', drop_claim_rows (Ok s) cs = Ok s' → dropped (ct_id <$> cs) [] s s'.
Proof.
  induction cs as [|c cs IH]; intros s s' E; cbn in *; [simplify_eq; apply dropped_refl|].
  destruct (drop_claim_row s c) as [s1|e] eqn:E1; [|by fold (drop_claim_rows (Err e) cs) in E; rewrite drop_claim_rows_Err in E].
  apply (dropped_trans [ct_id c] [] (ct_id <$> cs) [] s s1); [by apply drop_claim_row_dropped|by apply IH].
Qed.

Lemma delete_envelopes_dropped es : ∀ s, dropped [] (et_key <$> es) s (foldl drop_envelope_row s es).
Proof.
  induction es as [|e es IH]; intros s; cbn; [apply dropped_refl|].
  apply (dropped_trans [] [et_key e] [] (et_key <$> es) s (drop_envelope_row s e)); [apply delete_envelope_dropped|apply IH].
Qed.

Lemma delete_rows_dropped es cs s s' : delete_dropped_rows_tx es cs s = Ok s' → dropped (ct_id <$> cs) (et_key <$> es) s s'.
Proof.
  intros (s1 & E1 & [= <-])%result_bind_Ok. pose proof (dropped_trans _ _ _ _ _ _ _ (drop_claim_rows_dropped _ _ _ E1)
    (delete_envelopes_dropped es s1)) as D. by rewrite app_nil_r in D.
Qed.

(** The tables that deleting envelopes leaves alone. *)
Lemma delete_envelopes_other es : ∀ s, ts_other (foldl drop_envelope_row s es) = ts_other s.
Proof. induction es as [|e es IH]; intros s; cbn; [done|]. by rewrite IH. Qed.

(** ** Foreign keys *)

(** An operation whose canonical claim has a tombstone is the operation the tombstone names. *)
Definition ops_consistent (s : TrimStore) : Prop :=
  ∀ o c, o ∈ ts_operations s → c ∈ claim_rows s → ct_id c = on_canonical_claim_id o → ct_operation_id c = Some (on_id o).

Lemma ops_consistent_dropped i k s s' : dropped i k s s' → ops_consistent s → ops_consistent s'.
Proof.
  intros D Ho o c Hin Hc. unfold claim_rows in Hc. rewrite (dr_ledger _ _ _ _ D) in Hc.
  apply (dr_operations _ _ _ _ D) in Hin. by apply Ho.
Qed.

(** What the trim deletes names its operation as the tombstone does. *)
Definition from_row (s : TrimStore) (c : ClaimTombstone) : Prop :=
  ∃ r, r ∈ claim_rows s ∧ c = deletable_claim (ct_id r) (ct_operation_id r).

Lemma drop_claim_row_total s c : ops_consistent s → from_row s c → ∃ s', drop_claim_row s c = Ok s'.
Proof.
  intros Ho (r & Hr & ->). unfold drop_claim_row. cbn [ct_operation_id ct_id deletable_claim].
  set (operations := match ct_operation_id r with Some _ => _ | None => _ end).
  destruct (existsb (λ o, String.eqb (on_canonical_claim_id o) (ct_id r)) operations) eqn:Ex; [|rewrite andb_false_r; eauto].
  exfalso. apply existsb_elem_of in Ex as (o & Hin & Eo%String.eqb_eq).
  assert (o ∈ ts_operations s) as Hops.
  { unfold operations in Hin. destruct (ct_operation_id r); [|done]. by apply filter_elem_of in Hin as [? _]. }
  pose proof (Ho o r Hops Hr (eq_sym Eo)) as Eop. unfold operations in Hin. rewrite Eop in Hin.
  apply filter_elem_of in Hin as [_ Hin]. by rewrite Eo, !String.eqb_refl in Hin.
Qed.

Lemma delete_rows_total es cs s : ops_consistent s → (∀ c, c ∈ cs → from_row s c) →
  ∃ s', delete_dropped_rows_tx es cs s = Ok s'.
Proof.
  intros Ho Hc. assert (∃ s', drop_claim_rows (Ok s) cs = Ok s') as [s' E]; [|unfold delete_dropped_rows_tx; rewrite E; cbn; eauto].
  revert s Ho Hc. induction cs as [|c cs IH]; intros s Ho Hc; cbn; [eauto|].
  destruct (drop_claim_row_total s c Ho) as [s1 E1]; [apply Hc; set_solver|]. rewrite E1.
  pose proof (drop_claim_row_dropped _ _ _ E1) as D. apply IH; [by eapply ops_consistent_dropped|].
  intros c' Hc'. destruct (Hc c') as (r & Hr & ->); [set_solver|]. exists r. unfold claim_rows.
  by rewrite (dr_ledger _ _ _ _ D).
Qed.

(** ** The walk *)

Lemma next_key_spec {K} `{Ord K} (after : K) keys :
  match next_key after keys with
  | Some k => k ∈ keys ∧ lt_ord after k ∧ ∀ k', k' ∈ keys → lt_ord after k' → k' = k ∨ lt_ord k k'
  | None => ∀ k', k' ∈ keys → ¬ lt_ord after k'
  end.
Proof.
  unfold next_key. pose proof (bset_of_list_wf keys) as Hwf.
  assert (∀ x, x ∈ keys ↔ x ∈ bset_of_list keys) as Hin by (intros; by rewrite elem_of_bset_of_list).
  revert Hwf Hin. generalize (bset_of_list keys) as l. intros l Hwf Hin.
  assert (match List.find (λ k, match cmp after k with Lt => true | _ => false end) l with
    | Some k => k ∈ l ∧ lt_ord after k ∧ ∀ k', k' ∈ l → lt_ord after k' → k' = k ∨ lt_ord k k'
    | None => ∀ k', k' ∈ l → ¬ lt_ord after k' end) as Hf.
  { clear Hin. induction l as [|x l IH]; cbn; [by intros ? ?%not_elem_of_nil|].
    apply StronglySorted_cons in Hwf as [Hx Hwf]. destruct (cmp after x) eqn:Ex.
    2: { split_and!; [left|done|]. intros k' [-> |Hk']%elem_of_cons _; [by left|right].
         rewrite List.Forall_forall in Hx. apply Hx. by apply list_elem_of_In. }
    all: specialize (IH Hwf); destruct (List.find _ l) as [k|];
      [destruct IH as (? & ? & IH); split_and!; [by right|done|]|];
      intros k' [-> |Hk']%elem_of_cons; [unfold lt_ord; congruence|by apply IH..|unfold lt_ord; congruence|by apply IH]. }
  destruct (List.find _ l) as [k|].
  - destruct Hf as (? & ? & Hf). split_and!; [by apply Hin|done|]. intros k' Hk'%Hin. by apply Hf.
  - intros k' Hk'%Hin. by apply Hf.
Qed.

(** Every tombstone the cursor has passed stands for rows that are gone. *)
Definition walked (s : TrimStore) (c : TrimCursor) : Prop :=
  (∀ e, e ∈ envelope_rows s → tc_envelopes_done c = true ∨ ¬ lt_ord (tc_envelope c) (et_key e) →
     envelope_held s (et_key e) = false) ∧
  (∀ r, r ∈ claim_rows s → ¬ lt_ord (tc_claim c) (ct_id r) → claim_held s (ct_id r) = false).

Definition ltb_ord {K} `{Ord K} (a b : K) : bool := match cmp a b with Lt => true | _ => false end.
Lemma ltb_ord_spec {K} `{Ord K} (a b : K) : ltb_ord a b = true ↔ lt_ord a b.
Proof. unfold ltb_ord, lt_ord. destruct (cmp a b); done. Qed.

(** The tombstones the cursor has yet to read. *)
Definition trim_left (s : TrimStore) (c : TrimCursor) : nat :=
  (if tc_envelopes_done c then 0
   else length (List.filter (ltb_ord (tc_envelope c)) (et_key <$> envelope_rows s))) +
  length (List.filter (ltb_ord (tc_claim c)) (ct_id <$> claim_rows s)).

Lemma filter_ltb_lt {K} `{Ord K} (a k : K) l : k ∈ l → lt_ord a k →
  length (List.filter (ltb_ord k) l) < length (List.filter (ltb_ord a) l).
Proof.
  intros Hk Ha. assert (∀ x, ltb_ord k x = true → ltb_ord a x = true) as Hmono.
  { intros x. rewrite !ltb_ord_spec. by intros; etrans. }
  assert (∀ l', length (List.filter (ltb_ord k) l') <= length (List.filter (ltb_ord a) l')) as Hle.
  { induction l' as [|x l' IH]; cbn; [done|]. pose proof (Hmono x). destruct (ltb_ord k x), (ltb_ord a x); cbn; lia || naive_solver. }
  induction l as [|x l IH]; [by apply not_elem_of_nil in Hk|]. cbn. apply elem_of_cons in Hk as [<-|Hk].
  - rewrite (proj2 (ltb_ord_spec a k) Ha). destruct (ltb_ord k k) eqn:E; [by apply ltb_ord_spec, lt_ord_irrefl in E|].
    cbn. pose proof (Hle l). lia.
  - specialize (IH Hk). pose proof (Hmono x). destruct (ltb_ord k x), (ltb_ord a x); cbn; lia || naive_solver.
Qed.

Lemma held_dropped i k s s' : dropped i k s s' →
  (∀ id, claim_held s' id = true ↔ claim_held s id = true ∧ id ∉ i) ∧
  (∀ key, envelope_held s' key = true ↔ envelope_held s key = true ∧ key ∉ k).
Proof.
  intros D. unfold claim_held, envelope_held. rewrite (dr_claims _ _ _ _ D), (dr_envelopes _ _ _ _ D). split; intros x.
  - rewrite !existsb_elem_of. split.
    + intros (c & [Hc Hn]%filter_elem_of & <-%String.eqb_eq). apply negb_true_iff, bool_decide_eq_false in Hn.
      split; [|done]. exists c. split; [done|apply String.eqb_refl].
    + intros [(c & Hc & <-%String.eqb_eq) Hn]. exists c. split; [|apply String.eqb_refl]. apply filter_elem_of. split; [done|].
      by apply negb_true_iff, bool_decide_eq_false.
  - rewrite !existsb_elem_of. split.
    + intros (e & [He Hn]%filter_elem_of & <-%bool_decide_eq_true). apply negb_true_iff, bool_decide_eq_false in Hn.
      split; [|done]. exists e. split; [done|]. by apply bool_decide_eq_true.
    + intros [(e & He & <-%bool_decide_eq_true) Hn]. exists e. split; [|by apply bool_decide_eq_true].
      apply filter_elem_of. split; [done|]. by apply negb_true_iff, bool_decide_eq_false.
Qed.

Lemma rows_dropped i k s s' : dropped i k s s' → claim_rows s' = claim_rows s ∧ envelope_rows s' = envelope_rows s.
Proof. intros D. unfold claim_rows, envelope_rows. by rewrite (dr_ledger _ _ _ _ D). Qed.

(** What is gone stays gone, and what the step deletes is gone too. *)
Lemma walked_dropped i k s s' c c' : dropped i k s s' → walked s c →
  (∀ e, e ∈ envelope_rows s → tc_envelopes_done c' = true ∨ ¬ lt_ord (tc_envelope c') (et_key e) →
     tc_envelopes_done c = true ∨ ¬ lt_ord (tc_envelope c) (et_key e) ∨ et_key e ∈ k ∨ envelope_held s (et_key e) = false) →
  (∀ r, r ∈ claim_rows s → ¬ lt_ord (tc_claim c') (ct_id r) →
     ¬ lt_ord (tc_claim c) (ct_id r) ∨ ct_id r ∈ i ∨ claim_held s (ct_id r) = false) →
  walked s' c'.
Proof.
  intros D [We Wc] He Hc. destruct (rows_dropped _ _ _ _ D) as [Er Ee], (held_dropped _ _ _ _ D) as [Hhc Hhe].
  unfold walked. rewrite Er, Ee. split.
  - intros e Hin Hp. apply not_true_iff_false. rewrite Hhe. intros [Ht Hn].
    destruct (He e Hin Hp) as [?|[?|[?|Hf]]]; [..|congruence]; [rewrite We in Ht; auto; done..|done].
  - intros r Hin Hp. apply not_true_iff_false. rewrite Hhc. intros [Ht Hn].
    destruct (Hc r Hin Hp) as [?|[?|Hf]]; [rewrite Wc in Ht; auto; done|done|congruence].
Qed.

Definition all_gone (s : TrimStore) : Prop :=
  (∀ e, e ∈ envelope_rows s → envelope_held s (et_key e) = false) ∧
  (∀ r, r ∈ claim_rows s → claim_held s (ct_id r) = false).
Definition step_of (s : TrimStore) (c : TrimCursor) (envelope : option EnvelopeTombstone) (claims : list ClaimTombstone)
    (c' : TrimCursor) : Prop :=
  trim_left s c' < trim_left s c ∧ (∀ x, x ∈ claims → from_row s x) ∧ (∀ e, envelope = Some e → e ∈ envelope_rows s) ∧
  ∀ s', dropped (ct_id <$> claims) (et_key <$> option_list envelope) s s' → walked s' c'.

Lemma not_lt_between {K} `{Ord K} (a k x : K) : lt_ord a k → (lt_ord a x → x = k ∨ lt_ord k x) → ¬ lt_ord k x → ¬ lt_ord a x ∨ x = k.
Proof. intros Hk Hx Hn. destruct (cmp a x) eqn:E; [left|right|left]; unfold lt_ord in *; try congruence. destruct (Hx E); done. Qed.

Lemma next_claim_rows_spec s c : walked s c → tc_envelopes_done c = true →
  match next_claim_rows s c with
  | (None, _) => all_gone s
  | (Some (envelope, claims), c') => step_of s c envelope claims c'
  end.
Proof.
  intros Hw Hd. unfold next_claim_rows. pose proof (next_key_spec (tc_claim c) (ct_id <$> claim_rows s)) as Hk.
  destruct (next_key _ _) as [id|].
  - destruct Hk as (Hin & Hlt & Hleast). pose proof Hin as Hid. apply list_elem_of_fmap in Hin as (r & Er & Hr).
    destruct (List.find _ (claim_rows s)) as [r'|] eqn:Ef.
    2: { eapply List.find_none in Ef; [|by apply list_elem_of_In]. cbn in Ef. by rewrite Er, String.eqb_refl in Ef. }
    apply List.find_some in Ef as [Hr'%list_elem_of_In Er'%String.eqb_eq].
    assert (∀ x, x ∈ claim_rows s → ¬ lt_ord id (ct_id x) → ¬ lt_ord (tc_claim c) (ct_id x) ∨ ct_id x = id) as Hbetween.
    { intros x Hx. apply not_lt_between; [done|]. apply Hleast. by apply list_elem_of_fmap_2. }
    split_and!.
    + unfold trim_left. cbn. rewrite Hd. by apply filter_ltb_lt.
    + intros x Hx. destruct (claim_held s id); [|by apply not_elem_of_nil in Hx]. apply list_elem_of_singleton in Hx as ->.
      by exists r'.
    + done.
    + intros s' D. eapply walked_dropped; [exact D|exact Hw|naive_solver|]. intros x Hx [?| ->]%Hbetween; [by left|right|done].
      destruct (claim_held s id) eqn:Eh; [left|by right]. cbn. rewrite Er'. by left.
  - destruct Hw as [We Wc]. split; [intros e He; apply We; auto|]. intros r Hr. apply Wc; [done|]. by apply Hk, list_elem_of_fmap_2.
Qed.

Lemma next_trim_rows_spec s c : walked s c →
  match next_trim_rows s c with
  | (None, _) => all_gone s
  | (Some (envelope, claims), c') => step_of s c envelope claims c'
  end.
Proof.
  intros Hw. unfold next_trim_rows. destruct (tc_envelopes_done c) eqn:Hd; [by apply next_claim_rows_spec|].
  pose proof (next_key_spec (tc_envelope c) (et_key <$> envelope_rows s)) as Hk. destruct (next_key _ _) as [k|].
  - destruct Hk as (Hin & Hlt & Hleast). pose proof Hin as Hid. apply list_elem_of_fmap in Hin as (e & Ee & He).
    assert (∀ x, x ∈ envelope_rows s → ¬ lt_ord k (et_key x) → ¬ lt_ord (tc_envelope c) (et_key x) ∨ et_key x = k) as Hbetween.
    { intros x Hx. apply not_lt_between; [done|]. apply Hleast. by apply list_elem_of_fmap_2. }
    assert (trim_left s {| tc_envelope := k; tc_envelopes_done := false; tc_claim := tc_claim c |} < trim_left s c) as Hl.
    { unfold trim_left. cbn. rewrite Hd. pose proof (filter_ltb_lt _ _ _ Hid Hlt). lia. }
    destruct (envelope_held s k) eqn:Eh.
    + destruct (List.find _ (envelope_rows s)) as [e'|] eqn:Ef.
      2: { eapply List.find_none in Ef; [|by apply list_elem_of_In]. cbn in Ef.
           apply bool_decide_eq_false in Ef. by rewrite Ee in Ef. }
      apply List.find_some in Ef as [He'%list_elem_of_In Ee'%bool_decide_eq_true]. split_and!; [exact Hl| | |].
      * intros x (r & -> & [Hr _]%filter_elem_of)%list_elem_of_fmap. by exists r.
      * by intros ? [= <-].
      * intros s' D. eapply walked_dropped; [exact D|exact Hw| |cbn; naive_solver].
        intros x Hx [?|[?| ->]%Hbetween]; [done|by right; left| |done]. right. right. left. cbn. rewrite Ee'. by left.
    + split_and!; [exact Hl|by intros ? []%not_elem_of_nil|done|].
      intros s' D. eapply walked_dropped; [exact D|exact Hw| |cbn; naive_solver].
      intros x Hx [?|[?| ->]%Hbetween]; [done|by right; left|by do 3 right|done].
  - assert (walked s {| tc_envelope := tc_envelope c; tc_envelopes_done := true; tc_claim := tc_claim c |}) as Hw'.
    { destruct Hw as [We Wc]. split; [|exact Wc]. intros e He _. apply We; [done|]. right. by apply Hk, list_elem_of_fmap_2. }
    pose proof (next_claim_rows_spec _ _ Hw' eq_refl) as Hs. destruct (next_claim_rows _ _) as [[[envelope claims]|] c']; [|done].
    destruct Hs as (Hl & Hrest). split; [|done]. unfold trim_left in *. cbn in Hl. rewrite Hd. lia.
Qed.

(** ** Chunks *)

(** The rows come from tombstones, wherever the cursor is. *)
Lemma next_trim_rows_from s c envelope claims c' : next_trim_rows s c = (Some (envelope, claims), c') →
  (∀ x, x ∈ claims → from_row s x) ∧ (∀ e, envelope = Some e → e ∈ envelope_rows s).
Proof.
  assert (∀ c, next_claim_rows s c = (Some (envelope, claims), c') →
    (∀ x, x ∈ claims → from_row s x) ∧ (∀ e, envelope = Some e → e ∈ envelope_rows s)) as Hc.
  { intros c0 E. unfold next_claim_rows in E. destruct (next_key _ _) as [id|]; simplify_eq. split; [|done].
    intros x Hx. destruct (claim_held s id); [|by apply not_elem_of_nil in Hx].
    destruct (List.find _ _) as [r|] eqn:Ef; [|by apply not_elem_of_nil in Hx]. apply list_elem_of_singleton in Hx as ->.
    apply List.find_some in Ef as [?%list_elem_of_In _]. by exists r. }
  unfold next_trim_rows. destruct (tc_envelopes_done c); [apply Hc|]. destruct (next_key _ _) as [k|]; [|apply Hc].
  destruct (envelope_held s k); intros [= <- <- <-]; [|split; [by intros ? []%not_elem_of_nil|done]]. split.
  - intros x (r & -> & [Hr _]%filter_elem_of)%list_elem_of_fmap. by exists r.
  - intros e Ef. apply List.find_some in Ef as [?%list_elem_of_In _]. done.
Qed.

(** What a chunk has done so far, since the store [s] it began with. *)
Record chunk_of (s : TrimStore) (c : Chunk) : Prop := {
  co_dropped : dropped (ct_id <$> ch_claims c) (et_key <$> ch_envelopes c) s (ch_store c);
  co_claims x : x ∈ ch_claims c → from_row s x;
  co_envelopes e : e ∈ ch_envelopes c → e ∈ envelope_rows s
}.

Lemma from_row_dropped i k s s' x : dropped i k s s' → from_row s' x → from_row s x.
Proof. intros D (r & Hr & ->). exists r. by rewrite <-(proj1 (rows_dropped _ _ _ _ D)). Qed.

Lemma chunk_of_step s c envelope claims c' s' :
  chunk_of s c → next_trim_rows (ch_store c) (ch_cursor c) = (Some (envelope, claims), c') →
  delete_dropped_rows_tx (option_list envelope) claims (ch_store c) = Ok s' →
  chunk_of s {| ch_store := s'; ch_cursor := c'; ch_envelopes := ch_envelopes c ++ option_list envelope;
                ch_claims := ch_claims c ++ claims; ch_steps := S (ch_steps c) |}.
Proof.
  intros [D Hc He] En Ed. destruct (next_trim_rows_from _ _ _ _ _ En) as [Hf1 Hf2]. split; cbn.
  - rewrite !fmap_app. eapply dropped_trans; [exact D|]. by apply delete_rows_dropped.
  - intros x [?|Hx]%elem_of_app; [by apply Hc|]. by eapply from_row_dropped, Hf1.
  - intros e [?|Hx]%elem_of_app; [by apply He|]. rewrite <-(proj2 (rows_dropped _ _ _ _ D)). apply Hf2.
    destruct envelope; [|by apply not_elem_of_nil in Hx]. by apply list_elem_of_singleton in Hx as ->.
Qed.

Lemma trim_steps_of most more s : ∀ c c', trim_steps most more c = Ok c' → chunk_of s c → chunk_of s c'.
Proof.
  induction most as [|most IH]; intros c c' E Hc; cbn [trim_steps] in E; [by simplify_eq|].
  destruct (Nat.eqb (ch_steps c) 0 || more (ch_steps c)); [|by simplify_eq].
  destruct (next_trim_rows _ _) as [[[envelope claims]|] cursor] eqn:En.
  - apply result_bind_Ok in E as (s' & Ed & E). eapply IH; [exact E|]. by eapply chunk_of_step.
  - simplify_eq. destruct Hc as [D Hc He]. by split.
Qed.

Lemma chunk_of_start s cursor :
  chunk_of s {| ch_store := s; ch_cursor := cursor; ch_envelopes := []; ch_claims := []; ch_steps := 0 |}.
Proof. split; cbn; [apply dropped_refl|by intros ? []%not_elem_of_nil..]. Qed.

Lemma trim_chunk_of most more s cursor c : trim_chunk most more s cursor = Ok (Committed c) → chunk_of s c.
Proof.
  intros (c0 & E0 & E)%result_bind_Ok. apply (trim_steps_of _ _ s) in E0; [|apply chunk_of_start].
  destruct (Nat.eqb _ _); [done|]. destruct (_ =? _)%Z; [by simplify_eq|].
  apply result_bind_Ok in E as (s' & Ed & E). destruct (_ || _); [done|]. simplify_eq. destruct E0 as [_ Hc He].
  split; [|done..]. by apply delete_rows_dropped.
Qed.

Lemma dropped_commit i k s c : dropped i k s (ch_store c) → dropped i k s (commit_chunk c).
Proof.
  intros D. unfold commit_chunk. destruct (ch_envelopes c), (ch_claims c); [done|..];
    (destruct D as [? ? ? ? ? ? ? ? ? ? ? ?]; by split).
Qed.

(** A committed transaction of some trim, wherever its cursor was. *)
Definition committed_chunk (s : TrimStore) (cursor : TrimCursor) (s' : TrimStore) : Prop :=
  ∃ most more c, trim_chunk most more s cursor = Ok (Committed c) ∧ s' = commit_chunk c.

(** Only tombstoned rows are gone. *)
Definition trimmed_part (s s' : TrimStore) : Prop :=
  ∃ ids keys, dropped ids keys s s' ∧ (∀ i, i ∈ ids → i ∈ ct_id <$> claim_rows s) ∧
    (∀ k, k ∈ keys → k ∈ et_key <$> envelope_rows s).

Lemma trimmed_part_refl s : trimmed_part s s.
Proof. exists [], []. split; [apply dropped_refl|]. split; by intros ? []%not_elem_of_nil. Qed.

Lemma trimmed_part_trans s s' s'' : trimmed_part s s' → trimmed_part s' s'' → trimmed_part s s''.
Proof.
  intros (i & k & D & Hi & Hk) (i' & k' & D' & Hi' & Hk'). destruct (rows_dropped _ _ _ _ D) as [E1 E2].
  rewrite E1 in Hi'. rewrite E2 in Hk'. exists (i ++ i')%list, (k ++ k')%list. split; [by eapply dropped_trans|].
  set_solver.
Qed.

Lemma chunk_of_part s c : chunk_of s c → trimmed_part s (commit_chunk c).
Proof.
  intros [D Hc He]. eexists _, _. split; [by apply dropped_commit|]. split.
  - intros i (x & -> & (r & Hr & ->)%Hc)%list_elem_of_fmap. cbn. by apply list_elem_of_fmap_2.
  - intros k (e & -> & ?%He)%list_elem_of_fmap. by apply list_elem_of_fmap_2.
Qed.

Lemma committed_part s tr s' : run committed_chunk s tr s' → trimmed_part s s'.
Proof.
  induction 1 as [s|s l s' tr s'' (most & more & c & E & ->) _ IH]; [apply trimmed_part_refl|].
  eapply trimmed_part_trans; [|exact IH]. by eapply chunk_of_part, trim_chunk_of.
Qed.

(** ** The trim ends *)

(** Forgetting a claim leaves the projected graph alone. *)
Definition graph_kept : Prop := ∀ claims id p, graph_digest (forget_claim_tx claims id p) = graph_digest p.

Lemma delete_rows_graph es cs s s' : graph_kept → delete_dropped_rows_tx es cs s = Ok s' →
  graph_digest (ts_other s') = graph_digest (ts_other s).
Proof.
  intros Hg (s1 & E1 & [= <-])%result_bind_Ok. rewrite delete_envelopes_other. revert s E1.
  induction cs as [|c cs IH]; intros s E1; cbn in E1; [by simplify_eq|].
  destruct (drop_claim_row s c) as [s2|e] eqn:E2; [|by fold (drop_claim_rows (Err e) cs) in E1; rewrite drop_claim_rows_Err in E1].
  rewrite (IH _ E1). unfold drop_claim_row in E2. destruct (_ && _); [done|]. simplify_eq. apply Hg.
Qed.

(** Nothing is left of what the tombstones stand for: every cursor has walked past it. *)
Lemma all_gone_walked s c : all_gone s → walked s c.
Proof. intros [He Hc]. split; auto. Qed.

Lemma trim_left_dropped i k s s' c : dropped i k s s' → trim_left s' c = trim_left s c.
Proof. intros [E1 E2]%rows_dropped. unfold trim_left. by rewrite E1, E2. Qed.

Lemma next_trim_rows_end s c c' : next_trim_rows s c = (None, c') → trim_left s c' <= trim_left s c.
Proof.
  unfold next_trim_rows, next_claim_rows. destruct (tc_envelopes_done c) eqn:Hd.
  - destruct (next_key _ _); intros [= <-]. done.
  - destruct (next_key _ _); [by destruct (envelope_held s _)|]. cbn. destruct (next_key _ _); intros [= <-].
    unfold trim_left. cbn. rewrite Hd. lia.
Qed.

(** The steps of a chunk that began where the deletions are. *)
Lemma trim_steps_walk most more : ∀ c, ops_consistent (ch_store c) → walked (ch_store c) (ch_cursor c) →
  ∃ c', trim_steps most more c = Ok c' ∧ walked (ch_store c') (ch_cursor c') ∧ ch_steps c <= ch_steps c' ∧
    trim_left (ch_store c') (ch_cursor c') <= trim_left (ch_store c) (ch_cursor c) ∧
    (ch_steps c' = ch_steps c ∨ trim_left (ch_store c') (ch_cursor c') < trim_left (ch_store c) (ch_cursor c)) ∧
    (0 < most → ch_steps c = 0 → ch_steps c' = 0 → all_gone (ch_store c)).
Proof.
  induction most as [|most IH]; intros c Ho Hw; cbn [trim_steps].
  { exists c. split_and!; auto. lia. }
  destruct (Nat.eqb (ch_steps c) 0 || more (ch_steps c)) eqn:Em.
  2: { exists c. split_and!; auto. intros _ E. by rewrite E in Em. }
  pose proof (next_trim_rows_spec _ _ Hw) as Hs. destruct (next_trim_rows _ _) as [[[envelope claims]|] cursor] eqn:En.
  - destruct Hs as (Hl & Hf & He & Hw').
    destruct (delete_rows_total (option_list envelope) claims (ch_store c) Ho Hf) as [s' Ed]. rewrite Ed. cbn [result_bind].
    pose proof (delete_rows_dropped _ _ _ _ Ed) as D.
    set (c1 := {| ch_store := s'; ch_cursor := cursor; ch_envelopes := _; ch_claims := _; ch_steps := S (ch_steps c) |}).
    assert (ch_store c1 = s' ∧ ch_cursor c1 = cursor ∧ ch_steps c1 = S (ch_steps c)) as (E1 & E2 & E3) by done.
    destruct (IH c1) as (c' & Et & Hwc & Hle & Hleft & _).
    + rewrite E1. by eapply ops_consistent_dropped.
    + rewrite E1, E2. by apply Hw'.
    + exists c'. rewrite E1, E2, E3 in *. rewrite (trim_left_dropped _ _ _ _ _ D) in Hleft. split_and!; [done|done|lia..].
  - eexists. split; [reflexivity|]. cbn. pose proof (next_trim_rows_end _ _ _ En).
    split_and!; [by apply all_gone_walked|lia|lia|by left|done].
Qed.

Lemma trim_steps_graph most more : graph_kept → ∀ c c', trim_steps most more c = Ok c' →
  graph_digest (ts_other (ch_store c')) = graph_digest (ts_other (ch_store c)).
Proof.
  intros Hg. induction most as [|most IH]; intros c c' E; cbn [trim_steps] in E; [by simplify_eq|].
  destruct (Nat.eqb (ch_steps c) 0 || more (ch_steps c)); [|by simplify_eq].
  destruct (next_trim_rows _ _) as [[[envelope claims]|] cursor]; [|by simplify_eq].
  apply result_bind_Ok in E as (s' & Ed & E). rewrite (IH _ _ E). by apply (delete_rows_graph _ _ _ _ Hg) in Ed.
Qed.

(** The same deletions leave the same walk. *)
Lemma walked_same i k s a b c : dropped i k s a → dropped i k s b → walked a c → walked b c.
Proof.
  intros Da Db. destruct (rows_dropped _ _ _ _ Da) as [Ea1 Ea2], (rows_dropped _ _ _ _ Db) as [Eb1 Eb2].
  unfold walked, claim_held, envelope_held. rewrite Ea1, Ea2, Eb1, Eb2.
  by rewrite (dr_claims _ _ _ _ Da), (dr_claims _ _ _ _ Db), (dr_envelopes _ _ _ _ Da), (dr_envelopes _ _ _ _ Db).
Qed.

(** A chunk ends the walk or moves it on. *)
Lemma trim_chunk_walk most more s cursor : 0 < most → graph_kept → ops_consistent s → walked s cursor →
  trim_chunk most more s cursor = Ok Exhausted ∧ all_gone s ∨
  ∃ c, trim_chunk most more s cursor = Ok (Committed c) ∧ walked (ch_store c) (ch_cursor c) ∧
    trim_left s (ch_cursor c) < trim_left s cursor.
Proof.
  intros Hm Hg Ho Hw. unfold trim_chunk.
  set (c0 := {| ch_store := s; ch_cursor := cursor; ch_envelopes := []; ch_claims := []; ch_steps := 0 |}).
  destruct (trim_steps_walk most more c0 Ho Hw) as (c & Et & Hwc & _ & _ & Hleft & Hgone). rewrite Et. cbn [result_bind].
  pose proof (trim_steps_of _ _ s _ _ Et (chunk_of_start s cursor)) as [D Hfc Hfe].
  destruct (Nat.eqb_spec (ch_steps c) 0) as [E0|E0]; [left; split; [done|by apply Hgone]|right].
  assert (trim_left s (ch_cursor c) < trim_left s cursor) as Hlt.
  { destruct Hleft as [?|Hlt]; [done|]. by rewrite (trim_left_dropped _ _ _ _ _ D) in Hlt. }
  destruct (_ =? _)%Z; [by exists c|].
  destruct (delete_rows_total (ch_envelopes c) (ch_claims c) s Ho Hfc) as [s' Ed]. rewrite Ed. cbn [result_bind].
  assert (graph_digest (ts_other (ch_store c)) = graph_digest (ts_other s)) as ->.
  { exact (trim_steps_graph _ _ Hg _ _ Et). }
  rewrite (delete_rows_graph _ _ _ _ Hg Ed), !String.eqb_refl. cbn. eexists. split; [reflexivity|]. cbn. split; [|done].
  eapply walked_same; [exact D|by apply delete_rows_dropped|done].
Qed.

Lemma walked_commit c cursor : walked (ch_store c) cursor → walked (commit_chunk c) cursor.
Proof. unfold commit_chunk. by destruct (ch_envelopes c), (ch_claims c). Qed.

Lemma finish_trim_walk most more ck : 0 < most → graph_kept → ∀ fuel s cursor de dc n,
  ops_consistent s → walked s cursor → trim_left s cursor < fuel →
  ∃ s' de' dc', finish_trim_paced fuel most more ck de dc n cursor s = Some (final_mark ck s', Ok (Trimmed ck de' dc')) ∧
    trimmed_part s s' ∧ all_gone s'.
Proof.
  intros Hm Hg. induction fuel as [|fuel IH]; intros s cursor de dc n Ho Hw Hl; [lia|]. cbn [finish_trim_paced].
  destruct (trim_chunk_walk most (more n) s cursor Hm Hg Ho Hw) as [[E Hgone]|(c & E & Hw' & Hlt)]; rewrite E.
  - exists s, de, dc. split_and!; [done|apply trimmed_part_refl|done].
  - pose proof (chunk_of_part _ _ (trim_chunk_of _ _ _ _ _ E)) as Hp. pose proof Hp as (i & k & D & _).
    edestruct (IH (commit_chunk c) (ch_cursor c)) as (s' & de' & dc' & Ef & Hp' & Hgone);
      [by eapply ops_consistent_dropped|by apply walked_commit|by rewrite (trim_left_dropped _ _ _ _ _ D); lia|].
    rewrite Ef. exists s', de', dc'. split_and!; [done|by eapply trimmed_part_trans|done].
Qed.

(** ** Exactness *)

(** Every tombstone is after the cursor's start: names and ids are not empty. *)
Definition keys_above (s : TrimStore) : Prop :=
  (∀ e, e ∈ envelope_rows s → lt_ord (tc_envelope trim_cursor_default) (et_key e)) ∧
  (∀ r, r ∈ claim_rows s → lt_ord (tc_claim trim_cursor_default) (ct_id r)).

Lemma walked_start s : keys_above s → walked s trim_cursor_default.
Proof.
  intros [He Hc]. split; [intros e Hin [?|Hn]|intros r Hin Hn]; [done|by destruct (Hn (He e Hin))|by destruct (Hn (Hc r Hin))].
Qed.

(** The rows no tombstone stands for. *)
Definition kept_claims (s : TrimStore) : list HeldClaim :=
  List.filter (λ c, negb (bool_decide (hc_id c ∈ ct_id <$> claim_rows s))) (ts_claims s).
Definition kept_envelopes (s : TrimStore) : list HeldEnvelope :=
  List.filter (λ e, negb (bool_decide (he_key e ∈ et_key <$> envelope_rows s))) (ts_envelopes s).

Lemma filter_id {A} (p : A → bool) l : (∀ x, x ∈ l → p x = true) → List.filter p l = l.
Proof. intros Hp. transitivity (List.filter (λ _, true) l); [by apply filter_ext_elem|apply List.filter_true]. Qed.

Lemma kept_part s s' : trimmed_part s s' → kept_claims s' = kept_claims s ∧ kept_envelopes s' = kept_envelopes s.
Proof.
  intros (i & k & D & Hi & Hk). destruct (rows_dropped _ _ _ _ D) as [E1 E2]. unfold kept_claims, kept_envelopes.
  rewrite E1, E2, (dr_claims _ _ _ _ D), (dr_envelopes _ _ _ _ D), !filter_filter_and.
  split; apply filter_ext_elem; intros x _; rewrite <-negb_orb; f_equal; apply eq_bool_prop_intro;
    rewrite orb_True, !bool_decide_spec; split; [intros [?%Hi|?]|by right|intros [?%Hk|?]|by right]; done.
Qed.

Lemma all_gone_kept s : all_gone s → ts_claims s = kept_claims s ∧ ts_envelopes s = kept_envelopes s.
Proof.
  intros [He Hc]. unfold kept_claims, kept_envelopes. split; symmetry; apply filter_id; intros x Hx;
    apply negb_true_iff, bool_decide_eq_false.
  - intros (r & Er & Hr)%list_elem_of_fmap. specialize (Hc r Hr). apply not_true_iff_false in Hc. apply Hc, existsb_elem_of.
    exists x. split; [done|]. by apply String.eqb_eq.
  - intros (e & Er & Hr)%list_elem_of_fmap. specialize (He e Hr). apply not_true_iff_false in He. apply He, existsb_elem_of.
    exists x. split; [done|]. by apply bool_decide_eq_true.
Qed.

Lemma finish_trim_exact s ck most more fuel :
  0 < most → graph_kept → ops_consistent s → keys_above s → length (envelope_rows s) + length (claim_rows s) < fuel →
  ∃ s' n m, finish_trim fuel most more ck s = Some (s', Ok (Trimmed ck n m)) ∧
    ts_claims s' = kept_claims s ∧ ts_envelopes s' = kept_envelopes s ∧ ts_ledger s' = ts_ledger s ∧
    (∀ r, r ∈ ts_checkpoints s' → cp_id r = ck → cp_state r = "trimmed").
Proof.
  intros Hm Hg Ho Hk Hf.
  edestruct (finish_trim_walk most more ck Hm Hg fuel s trim_cursor_default) as (s' & n & m & E & Hp & Hgone);
    [done|by apply walked_start| |].
  { unfold trim_left. cbn [trim_cursor_default tc_envelopes_done].
    pose proof (List.filter_length_le (ltb_ord (tc_envelope trim_cursor_default)) (et_key <$> envelope_rows s)) as L1.
    pose proof (List.filter_length_le (ltb_ord (tc_claim trim_cursor_default)) (ct_id <$> claim_rows s)) as L2.
    pose proof (length_fmap et_key (envelope_rows s)). pose proof (length_fmap ct_id (claim_rows s)). lia. }
  destruct (kept_part _ _ Hp) as [K1 K2], (all_gone_kept _ Hgone) as [G1 G2].
  exists (final_mark ck s'), n, m. split_and!; [exact E|cbn; congruence|cbn; congruence| |].
  - destruct Hp as (i' & k' & D' & _). exact (dr_ledger _ _ _ _ D').
  - cbn. intros r (r0 & -> & _)%list_elem_of_fmap. destruct (String.eqb_spec (cp_id r0) ck); [done|]. by intros ?.
Qed.

(** C9: However a trim is cut into chunks and however many of them an interruption lets through, the
    trim that is then begun again ends, and exactly the rows no tombstone stands for are left. *)
Theorem trim_exact s tr s1 ck most more fuel :
  0 < most → graph_kept → ops_consistent s → keys_above s → run committed_chunk s tr s1 →
  length (envelope_rows s) + length (claim_rows s) < fuel →
  ∃ s' n m, finish_trim fuel most more ck s1 = Some (s', Ok (Trimmed ck n m)) ∧
    ts_claims s' = kept_claims s ∧ ts_envelopes s' = kept_envelopes s ∧ ts_ledger s' = ts_ledger s ∧
    (∀ r, r ∈ ts_checkpoints s' → cp_id r = ck → cp_state r = "trimmed").
Proof.
  intros Hm Hg Ho Hk Hr Hf. pose proof (committed_part _ _ _ Hr) as Hp. pose proof Hp as (i & k & D & _).
  destruct (rows_dropped _ _ _ _ D) as [E1 E2], (kept_part _ _ Hp) as [<- <-].
  rewrite <-(dr_ledger _ _ _ _ D). apply finish_trim_exact; [done|done|by eapply ops_consistent_dropped| |].
  - unfold keys_above. by rewrite E1, E2.
  - by rewrite E1, E2.
Qed.

(** ** Every outcome *)

(** Where a trim can stop: after committed chunks, marked one way or the other or not at all. *)
Lemma finish_trim_part most more ck : ∀ fuel s cursor de dc n s' r,
  finish_trim_paced fuel most more ck de dc n cursor s = Some (s', r) →
  ∃ tr s1, run committed_chunk s tr s1 ∧
    (s' = s1 ∨ s' = final_mark ck s1 ∨ set_checkpoint_state ck 0 "graph-changed" s1 = Ok s').
Proof.
  induction fuel as [|fuel IH]; intros s cursor de dc n s' r E; cbn [finish_trim_paced] in E; [done|].
  destruct (trim_chunk most (more n) s cursor) as [[| |c]|e] eqn:Ec.
  - simplify_eq. exists [], s. split; [constructor|]. auto.
  - exists [], s. split; [constructor|]. destruct (set_checkpoint_state _ _ _ _) eqn:Es; simplify_eq; auto.
  - apply IH in E as (tr & s1 & Hr & ?). exists (cursor :: tr), s1. split; [|done]. eapply run_cons; [|exact Hr].
    by exists most, (more n), c.
  - simplify_eq. exists [], s'. split; [constructor|]. auto.
Qed.

(** Claims have their batches and operations their claims. *)
Definition foreign_keys (s : TrimStore) : Prop :=
  (∀ c, c ∈ ts_claims s → ∃ b, b ∈ wr_batches (ts_writers s) ∧ ba_id b = hc_batch_id c) ∧
  (∀ o, o ∈ ts_operations s → on_canonical_claim_id o ∈ hc_id <$> ts_claims s).

Lemma foreign_keys_dropped i k s s' : dropped i k s s' → foreign_keys s → foreign_keys s'.
Proof.
  intros D [Hc Ho]. split.
  - intros c Hin. pose proof Hin as Hs. rewrite (dr_claims _ _ _ _ D) in Hs. apply filter_elem_of in Hs as [Hs _].
    destruct (Hc c Hs) as (b & Hb & Eb). destruct (dr_orphans _ _ _ _ D b Hb) as [?|[Hn _]]; [by exists b|].
    by destruct (Hn c Hin).
  - intros o Hin. pose proof (Ho o (dr_operations _ _ _ _ D o Hin)) as Hs.
    pose proof (dr_foreign_key _ _ _ _ D o Hin Hs) as Hn. rewrite (dr_claims _ _ _ _ D).
    apply list_elem_of_fmap in Hs as (c & Ec & Hs). apply list_elem_of_fmap. exists c. split; [done|].
    apply filter_elem_of. split; [done|]. rewrite <-Ec. by apply negb_true_iff, bool_decide_eq_false.
Qed.

(** A trim is deletions of batches as far as the writers' tables go. *)
Lemma dropped_writers_floor unhex i k s s' C E o : dropped i k s s' → ids_unique (ts_writers s) →
  ledger_inv unhex C E (ts_ledger s) → (sequence_floor (ts_writers s) o <= sequence_floor (ts_writers s') o)%Z.
Proof.
  intros D Hu Hi. destruct (dr_writers _ _ _ _ D) as [bs Hr]. unfold ts_ledger in Hi. revert Hu Hi.
  generalize dependent (ts_writers s'). generalize (ts_writers s). clear D. intros w w' Hr Hu Hi.
  apply (run_floor (λ _, "") unhex w (WDelete <$> bs) w' o) with C E; [|done|done].
  clear Hu Hi. induction Hr as [w|w b w1 bs w2 [Hb ->] _ IH]; cbn; [constructor|].
  eapply run_cons; [by apply ws_delete|exact IH].
Qed.

Lemma set_checkpoint_state_same ck cut st s s' : set_checkpoint_state ck cut st s = Ok s' →
  ts_claims s' = ts_claims s ∧ ts_operations s' = ts_operations s ∧ ts_other s' = ts_other s ∧ ts_ledger s' = ts_ledger s ∧
  wr_batches (ts_writers s') = wr_batches (ts_writers s) ∧ ∀ o, sequence_floor (ts_writers s') o = sequence_floor (ts_writers s) o.
Proof.
  unfold set_checkpoint_state, upsert_checkpoint. destruct (fits_i64 cut); [|done]. by destruct (existsb _ _); intros [= <-].
Qed.

(** Whatever a trim comes to, finished, stopped by an error or by a changed graph: every claim
    left has its batch, every operation its claim, and no writer's next sequence is lowered. *)
Theorem trim_integrity unhex C E fuel most more ck s s' r :
  finish_trim fuel most more ck s = Some (s', r) → foreign_keys s → ids_unique (ts_writers s) →
  ledger_inv unhex C E (ts_ledger s) →
  foreign_keys s' ∧ ts_ledger s' = ts_ledger s ∧
  ∀ o, (sequence_floor (ts_writers s) o <= sequence_floor (ts_writers s') o)%Z.
Proof.
  intros (tr & s1 & Hr & Hs')%finish_trim_part Hf Hu Hi. apply committed_part in Hr as (i & k & D & _).
  pose proof (foreign_keys_dropped _ _ _ _ D Hf) as Hf1. pose proof (dr_ledger _ _ _ _ D) as El.
  assert (∀ o, (sequence_floor (ts_writers s) o <= sequence_floor (ts_writers s1) o)%Z) as Hfl.
  { intros o. by eapply dropped_writers_floor. }
  destruct Hs' as [-> |[-> |Es]]; [done..|].
  destruct (set_checkpoint_state_same _ _ _ _ _ Es) as (E1 & E2 & _ & E4 & E5 & E6). split_and!.
  - unfold foreign_keys. by rewrite E1, E2, E5.
  - congruence.
  - intros o. by rewrite E6.
Qed.

(** ** The graph *)

Definition forget_all (l : list (list HeldClaim * string)) (p : other) : other :=
  foldl (λ p x, forget_claim_tx x.1 x.2 p) p l.

(** The generation moves whenever forgetting claims changes the graph. *)
Definition generation_tells : Prop :=
  ∀ l p, generation (forget_all l p) = generation p → graph_digest (forget_all l p) = graph_digest p.

Lemma delete_rows_forget es cs s s' : delete_dropped_rows_tx es cs s = Ok s' →
  ∃ l, ts_other s' = forget_all l (ts_other s).
Proof.
  intros (s1 & E1 & [= <-])%result_bind_Ok. rewrite delete_envelopes_other. revert s E1.
  induction cs as [|c cs IH]; intros s E1; cbn in E1; [simplify_eq; by exists []|].
  destruct (drop_claim_row s c) as [s2|e] eqn:E2; [|by fold (drop_claim_rows (Err e) cs) in E1; rewrite drop_claim_rows_Err in E1].
  destruct (IH _ E1) as [l ->]. unfold drop_claim_row in E2. destruct (_ && _); [done|]. simplify_eq.
  by exists ((ts_claims s, ct_id c) :: l).
Qed.

Lemma trim_steps_forget most more : ∀ c c', trim_steps most more c = Ok c' →
  ∃ l, ts_other (ch_store c') = forget_all l (ts_other (ch_store c)).
Proof.
  induction most as [|most IH]; intros c c' E; cbn [trim_steps] in E; [simplify_eq; by exists []|].
  destruct (Nat.eqb (ch_steps c) 0 || more (ch_steps c)); [|simplify_eq; by exists []].
  destruct (next_trim_rows _ _) as [[[envelope claims]|] cursor]; [|simplify_eq; by exists []].
  apply result_bind_Ok in E as (s' & [l El]%delete_rows_forget & E). destruct (IH _ _ E) as [l' ->]. cbn. rewrite El.
  exists (l ++ l')%list. unfold forget_all. by rewrite foldl_app.
Qed.

Lemma trim_chunk_graph most more s cursor c : generation_tells → trim_chunk most more s cursor = Ok (Committed c) →
  graph_digest (ts_other (ch_store c)) = graph_digest (ts_other s).
Proof.
  intros Hg (c0 & [l El]%trim_steps_forget & E)%result_bind_Ok. cbn in El. destruct (Nat.eqb _ _); [done|].
  destruct (Z.eqb_spec (generation (ts_other (ch_store c0))) (generation (ts_other s))) as [Eg|_].
  - simplify_eq. rewrite El in *. by apply Hg.
  - apply result_bind_Ok in E as (s' & _ & E). destruct (_ || _) eqn:Eo; [done|]. simplify_eq. cbn.
    apply orb_false_iff in Eo as [_ Eo]. by apply negb_false_iff, String.eqb_eq in Eo.
Qed.

(** No trim changes the projected graph, even where forgetting a claim would: such a chunk is
    rolled back. *)
Theorem trim_keeps_graph fuel most more ck s s' r :
  generation_tells → finish_trim fuel most more ck s = Some (s', r) →
  graph_digest (ts_other s') = graph_digest (ts_other s).
Proof.
  intros Hg (tr & s1 & Hr & Hs')%finish_trim_part.
  assert (graph_digest (ts_other s1) = graph_digest (ts_other s)) as <-.
  { clear Hs'. induction Hr as [s0|s0 l s2 tr s3 (m & mo & c & E & ->) _ IH]; [done|]. rewrite IH.
    rewrite <-(trim_chunk_graph _ _ _ _ _ Hg E). unfold commit_chunk. by destruct (ch_envelopes c), (ch_claims c). }
  destruct Hs' as [-> |[-> |Es]]; [done..|]. by destruct (set_checkpoint_state_same _ _ _ _ _ Es) as (_ & _ & -> & _).
Qed.
End trim.

(** ** Recording the tombstones *)

(** The trait [Tombstones]: a manifest in memory, or a staged plan read a page at a time. *)
Class Tombstones (T : Type) := {
  counts : T → nat * nat;
  envelope_page : T → nat → nat → result (list EnvelopeTombstone) string;
  claim_page : T → nat → nat → result (list ClaimTombstone) string;
  slices : T → option (list EnvelopeTombstone * list ClaimTombstone)
}.

#[export] Instance tombstones_slices : Tombstones (list EnvelopeTombstone * list ClaimTombstone) := {|
  counts t := (length t.1, length t.2);
  envelope_page t after limit := Ok (take limit (drop after t.1));
  claim_page t after limit := Ok (take limit (drop after t.2));
  slices t := Some t
|}.

(** What the recording relies on: pages of the two lists whose lengths the counts are. *)
Class TombstonesOf {T} `{Tombstones T} (t : T) (es : list EnvelopeTombstone) (cs : list ClaimTombstone) : Prop := {
  to_counts : counts t = (length es, length cs);
  to_envelopes after limit : envelope_page t after limit = Ok (take limit (drop after es));
  to_claims after limit : claim_page t after limit = Ok (take limit (drop after cs));
  to_slices : slices t = Some (es, cs) ∨ slices t = None
}.

#[export] Instance tombstones_slices_of es cs : TombstonesOf (es, cs) es cs.
Proof. split; auto. Qed.

Section recording.
Context `{OtherTables} `{Tombstones T}.
Variable unhex : string → list ascii.

Definition TOMBSTONE_READ_PAGE : nat := 256.

Definition set_trim_ledger (l : Ledger) (s : TrimStore) : TrimStore :=
  set_checkpoints (ts_checkpoints s) (set_ledger l (ts_writers s)) s.
Definition record_tombstones (checkpoint : string) (es : list EnvelopeTombstone) (cs : list ClaimTombstone) (s : TrimStore) :
    result TrimStore string :=
  let? l := record_checkpoint_tombstones_tx unhex checkpoint es cs (ts_ledger s) in Ok (set_trim_ledger l s).

Record Recording := {
  rc_store : TrimStore;
  rc_envelope : nat;
  rc_claim : nat;
  rc_envelope_page : list EnvelopeTombstone;
  rc_claim_page : list ClaimTombstone
}.

Definition is_nil {A} (l : list A) : bool := match l with [] => true | _ => false end.

(** The inner loop: one tombstone at a time while there is time. *)
Fixpoint record_steps (fuel : nat) (more : nat → bool) (checkpoint : string) (envelope_count steps : nat) (r : Recording) :
    result Recording string :=
  match fuel with
  | 0 => Ok r
  | S fuel =>
      if more steps && (negb (is_nil (rc_envelope_page r)) ||
                        Nat.leb envelope_count (rc_envelope r) && negb (is_nil (rc_claim_page r)))
      then
        match rc_envelope_page r, rc_claim_page r with
        | next :: rest, _ =>
            let? s := record_tombstones checkpoint [next] [] (rc_store r) in
            record_steps fuel more checkpoint envelope_count (S steps)
              {| rc_store := s; rc_envelope := S (rc_envelope r); rc_claim := rc_claim r;
                 rc_envelope_page := rest; rc_claim_page := rc_claim_page r |}
        | [], next :: rest =>
            let? s := record_tombstones checkpoint [] [next] (rc_store r) in
            record_steps fuel more checkpoint envelope_count (S steps)
              {| rc_store := s; rc_envelope := rc_envelope r; rc_claim := S (rc_claim r);
                 rc_envelope_page := []; rc_claim_page := rest |}
        | [], [] => Ok r
        end
      else Ok r
  end.

(** Reading the next page when the last one is used up. *)
Definition fill_page (t : T) (envelope_count : nat) (r : Recording) : result Recording string :=
  if Nat.ltb (rc_envelope r) envelope_count && is_nil (rc_envelope_page r) then
    let? page := envelope_page t (rc_envelope r) TOMBSTONE_READ_PAGE in
    Ok {| rc_store := rc_store r; rc_envelope := rc_envelope r; rc_claim := rc_claim r;
          rc_envelope_page := page; rc_claim_page := rc_claim_page r |}
  else if Nat.leb envelope_count (rc_envelope r) && is_nil (rc_claim_page r) then
    let? page := claim_page t (rc_claim r) TOMBSTONE_READ_PAGE in
    Ok {| rc_store := rc_store r; rc_envelope := rc_envelope r; rc_claim := rc_claim r;
          rc_envelope_page := rc_envelope_page r; rc_claim_page := page |}
  else Ok r.

(** The outer loop, a transaction a round; the store is what was committed. *)
Fixpoint record_loop (fuel : nat) (more : nat → nat → bool) (checkpoint : string) (t : T) (chunks : nat) (r : Recording) :
    option (TrimStore * result () string) :=
  match fuel with
  | 0 => None
  | S fuel =>
      let '(envelope_count, claim_count) := counts t in
      if Nat.ltb (rc_envelope r) envelope_count || Nat.ltb (rc_claim r) claim_count then
        match fill_page t envelope_count r with
        | Err e => Some (rc_store r, Err e)
        | Ok r =>
            if is_nil (rc_envelope_page r) && is_nil (rc_claim_page r)
            then Some (rc_store r, Err ("the tombstones of " +:+ checkpoint +:+ " ended before their count"))
            else
              match record_steps (length (rc_envelope_page r) + length (rc_claim_page r)) (more chunks) checkpoint
                      envelope_count 0 r with
              | Err e => Some (rc_store r, Err e)
              | Ok r => record_loop fuel more checkpoint t (S chunks) r
              end
        end
      else Some (rc_store r, Ok ())
  end.

(** [trim_checkpoint_from] up to the deletions: adoption replaces the tombstones in one
    transaction, a trim records them in chunks between two marks. *)
Definition record_checkpoint (fuel : nat) (more : nat → nat → bool) (checkpoint : string) (cut : Z) (drop_digest : string)
    (t : T) (exact : bool) (s : TrimStore) : option (TrimStore * result () string) :=
  if exact then
    match slices t with
    | None => Some (s, Err "an exact trim needs its manifest in memory")
    | Some (es, cs) =>
        match (let? s := record_tombstones checkpoint es cs
                           (set_trim_ledger (keep_only_tombstones_tx unhex es cs (ts_ledger s)) s) in
               mark checkpoint cut drop_digest "trimming" s) with
        | Ok s' => Some (s', Ok ())
        | Err e => Some (s, Err e)
        end
    end
  else
    match mark checkpoint cut drop_digest "recording" s with
    | Err e => Some (s, Err e)
    | Ok s =>
        match record_loop fuel more checkpoint t 0
                {| rc_store := s; rc_envelope := 0; rc_claim := 0; rc_envelope_page := []; rc_claim_page := [] |} with
        | Some (s, Ok _) =>
            match mark checkpoint cut drop_digest "trimming" s with
            | Ok s' => Some (s', Ok ())
            | Err e => Some (s, Err e)
            end
        | other => other
        end
    end.

Definition trim_checkpoint_from (fuel most : nat) (more : nat → nat → bool) (checkpoint : string) (cut : Z)
    (drop_digest : string) (t : T) (exact : bool) (s : TrimStore) : option (TrimStore * result CheckpointAction string) :=
  match record_checkpoint fuel more checkpoint cut drop_digest t exact s with
  | None => None
  | Some (s, Err e) => Some (s, Err e)
  | Some (s, Ok _) => finish_trim fuel most more checkpoint (rows_changed s)
  end.

(** ** Recording in chunks is recording at once *)

Definition recorded_ledger (ck : string) (es : list EnvelopeTombstone) (cs : list ClaimTombstone) (l : Ledger) : Ledger :=
  {| lg_claims := foldl (record_row ct_id (claim_ident unhex) ck) (lg_claims l) cs;
     lg_envelopes := foldl (record_row et_key (envelope_ident unhex) ck) (lg_envelopes l) es; lg_cursor := lg_cursor l |}.

Definition envelope_fits (e : EnvelopeTombstone) : Prop :=
  fits_i64 (et_sequence e) = true ∧ fits_i64 (et_accepted_at_unix_ms e) = true.
Definition claim_fits (c : ClaimTombstone) : Prop :=
  fits_i64 (ct_sequence c) = true ∧ fits_i64 (ct_accepted_at_unix_ms c) = true.

Lemma record_tombstones_Ok ck es cs s : (∀ e, e ∈ es → envelope_fits e) → (∀ c, c ∈ cs → claim_fits c) →
  record_tombstones ck es cs s = Ok (set_trim_ledger (recorded_ledger ck es cs (ts_ledger s)) s).
Proof.
  intros He Hc. unfold record_tombstones. destruct (record_tx_total unhex ck es cs (ts_ledger s) He Hc) as [l El].
  rewrite El. by apply record_tx_Ok in El as ->.
Qed.

Lemma page_cons {A} k a (l : list A) x rest : take k (drop a l) = x :: rest →
  l !! a = Some x ∧ rest = take (pred k) (drop (S a) l).
Proof.
  destruct k as [|k]; [done|]. destruct (drop a l) as [|y l'] eqn:Ed; [done|]. intros [= -> <-]. split.
  - by rewrite <-(Nat.add_0_r a), <-lookup_drop, Ed.
  - cbn. f_equal. assert (drop 1 (drop a l) = l') as <- by (by rewrite Ed). by rewrite drop_drop, Nat.add_1_r.
Qed.

Context (t : T) (es : list EnvelopeTombstone) (cs : list ClaimTombstone) `{!TombstonesOf t es cs} (ck : string).
Context (Hes : ∀ e, e ∈ es → envelope_fits e) (Hcs : ∀ c, c ∈ cs → claim_fits c).

Record recording_at (s : TrimStore) (r : Recording) : Prop := {
  rd_store : rc_store r = set_trim_ledger (recorded_ledger ck (take (rc_envelope r) es) (take (rc_claim r) cs) (ts_ledger s)) s;
  rd_envelope : rc_envelope r <= length es;
  rd_claim : rc_claim r <= length cs;
  rd_envelope_page : ∃ k, rc_envelope_page r = take k (drop (rc_envelope r) es);
  rd_claim_page : ∃ k, rc_claim_page r = take k (drop (rc_claim r) cs)
}.

Lemma record_steps_recorded more s fuel : ∀ steps r, recording_at s r →
  ∃ r', record_steps fuel more ck (length es) steps r = Ok r' ∧ recording_at s r' ∧
    rc_envelope r + rc_claim r <= rc_envelope r' + rc_claim r' ∧
    (0 < fuel → more steps = true →
     rc_envelope_page r ≠ [] ∨ length es <= rc_envelope r ∧ rc_claim_page r ≠ [] →
     rc_envelope r + rc_claim r < rc_envelope r' + rc_claim r').
Proof using Hes Hcs.
  induction fuel as [|fuel IH]; intros steps r Hr; cbn [record_steps].
  { exists r. split_and!; auto; lia. }
  destruct (more steps) eqn:Em; [|exists r; split_and!; auto; done].
  pose proof Hr as [Hs He Hc [ke Eke] [kc Ekc]]. destruct (rc_envelope_page r) as [|e rest] eqn:Ep; cbn [is_nil negb andb orb].
  - destruct (Nat.leb_spec (length es) (rc_envelope r)) as [Hle|Hlt]; cbn [andb].
    2: { exists r. split_and!; [done|exact Hr|lia|]. intros _ _ [?|[? _]]; [done|lia]. }
    destruct (rc_claim_page r) as [|c rest] eqn:Ecp; cbn [is_nil negb].
    { exists r. split_and!; [done|exact Hr|lia|]. intros _ _ [?|[_ ?]]; done. }
    destruct (page_cons _ _ _ _ _ (eq_sym Ekc)) as [Hl ->].
    assert (c ∈ cs) as Hin by (by eapply list_elem_of_lookup_2).
    rewrite record_tombstones_Ok; [|by intros ? []%not_elem_of_nil|by intros ? ->%list_elem_of_singleton; apply Hcs].
    cbn [result_bind]. edestruct IH as (r' & Er & Hr' & Hle' & _); [|exists r'; split_and!; [exact Er|done|cbn in Hle'; lia..]].
    apply lookup_lt_Some in Hl as Hlt. split; cbn; [|done|lia|by exists 0|by eexists]. rewrite Hs, (take_S_r _ _ _ Hl).
    unfold recorded_ledger. cbn. by rewrite foldl_app.
  - destruct (page_cons _ _ _ _ _ (eq_sym Eke)) as [Hl ->].
    assert (e ∈ es) as Hin by (by eapply list_elem_of_lookup_2).
    rewrite record_tombstones_Ok; [|by intros ? ->%list_elem_of_singleton; apply Hes|by intros ? []%not_elem_of_nil].
    cbn [result_bind]. edestruct IH as (r' & Er & Hr' & Hle' & _); [|exists r'; split_and!; [exact Er|done|cbn in Hle'; lia..]].
    apply lookup_lt_Some in Hl as Hlt. split; cbn; [|lia|done|by eexists|by eexists]. rewrite Hs, (take_S_r _ _ _ Hl).
    unfold recorded_ledger. cbn. by rewrite foldl_app.
Qed.

(** A full page is not empty while tombstones are left. *)
Lemma page_not_nil {A} a (l : list A) : a < length l → take TOMBSTONE_READ_PAGE (drop a l) ≠ [].
Proof.
  intros Hl E%(f_equal length). rewrite length_take, length_drop in E. unfold TOMBSTONE_READ_PAGE in E. cbn [length] in E. lia.
Qed.

Lemma fill_page_recorded s r : recording_at s r → rc_envelope r < length es ∨ rc_claim r < length cs →
  ∃ r', fill_page t (length es) r = Ok r' ∧ recording_at s r' ∧ rc_store r' = rc_store r ∧
    rc_envelope r' = rc_envelope r ∧ rc_claim r' = rc_claim r ∧
    (rc_envelope_page r' ≠ [] ∨ length es <= rc_envelope r' ∧ rc_claim_page r' ≠ []).
Proof using Type*.
  intros Hr Hleft. pose proof Hr as [Hs He Hc [ke Eke] [kc Ekc]]. unfold fill_page. rewrite to_envelopes, to_claims. cbn [result_bind].
  destruct (Nat.ltb_spec (rc_envelope r) (length es)) as [Hlt|Hge]; cbn [andb].
  - destruct (rc_envelope_page r) as [|e rest] eqn:Ep; cbn [is_nil].
    + eexists. split; [reflexivity|]. cbn. split_and!; [split; cbn; eauto|done..|left; by apply page_not_nil].
    + rewrite (proj2 (Nat.leb_gt _ _) Hlt). cbn. exists r. split_and!; [done|exact Hr|done..|by left; rewrite Ep].
  - rewrite (proj2 (Nat.leb_le _ _) Hge). cbn [andb]. destruct Hleft as [?|Hcl]; [lia|].
    destruct (rc_claim_page r) as [|c rest] eqn:Ep; cbn [is_nil].
    + eexists. split; [reflexivity|]. cbn. split_and!; [split; cbn; eauto|done..|right; split; [done|by apply page_not_nil]].
    + exists r. split_and!; [done|exact Hr|done..|by right; rewrite Ep].
Qed.

Lemma record_loop_recorded more s : (∀ n, more n 0 = true) → ∀ fuel n r, recording_at s r →
  (length es - rc_envelope r) + (length cs - rc_claim r) < fuel →
  record_loop fuel more ck t n r = Some (set_trim_ledger (recorded_ledger ck es cs (ts_ledger s)) s, Ok ()).
Proof using Type*.
  intros Hm. induction fuel as [|fuel IH]; intros n r Hr Hf; [lia|]. cbn [record_loop]. rewrite to_counts.
  destruct (Nat.ltb (rc_envelope r) (length es) || Nat.ltb (rc_claim r) (length cs)) eqn:El.
  - assert (rc_envelope r < length es ∨ rc_claim r < length cs) as Hleft.
    { apply orb_true_iff in El as [?%Nat.ltb_lt|?%Nat.ltb_lt]; auto. }
    destruct (fill_page_recorded s r Hr Hleft) as (r1 & Ef & Hr1 & _ & E2 & E3 & Hne). rewrite Ef.
    destruct (is_nil (rc_envelope_page r1) && is_nil (rc_claim_page r1)) eqn:En.
    { apply andb_true_iff in En as [E4 E5]. destruct (rc_envelope_page r1), (rc_claim_page r1); try done. naive_solver. }
    destruct (record_steps_recorded (more n) s (length (rc_envelope_page r1) + length (rc_claim_page r1)) 0 r1 Hr1)
      as (r2 & Es & Hr2 & _ & Hlt). rewrite Es. apply IH; [done|]. specialize (Hlt ltac:(destruct (rc_envelope_page r1), (rc_claim_page r1); cbn in *; try lia; done) (Hm n) Hne).
    pose proof (rd_envelope _ _ Hr2). pose proof (rd_claim _ _ Hr2). lia.
  - apply orb_false_iff in El as [E1%Nat.ltb_ge E2%Nat.ltb_ge]. destruct Hr as [Hs He Hc _ _].
    rewrite Hs, !firstn_all2 by lia. done.
Qed.

Lemma recorded_start s : recording_at s
  {| rc_store := s; rc_envelope := 0; rc_claim := 0; rc_envelope_page := []; rc_claim_page := [] |}.
Proof.
  split; cbn; [|lia|lia|by exists 0|by exists 0]. unfold set_trim_ledger, recorded_ledger, set_checkpoints, set_ledger, ts_ledger.
  cbn. destruct s as [? ? ? ? ? ? w]. cbn. destruct w as [? ? ? ? ? l]. cbn. by destruct l.
Qed.

(** The tombstones are recorded a few at a time, in as many transactions as it takes, and what
    is then in the tables and the ledger is what one transaction would have put there. *)
Theorem recording_exact more fuel s : (∀ n, more n 0 = true) → length es + length cs < fuel →
  ∃ s', record_loop fuel more ck t 0
          {| rc_store := s; rc_envelope := 0; rc_claim := 0; rc_envelope_page := []; rc_claim_page := [] |} = Some (s', Ok ()) ∧
    record_tombstones ck es cs s = Ok s'.
Proof using Type*.
  intros Hm Hf. eexists. split; [apply record_loop_recorded; [done|apply recorded_start|cbn; lia]|].
  by apply record_tombstones_Ok.
Qed.
End recording.

(** ** From manifest to tables *)

Lemma record_all_keys {T K I} `{EqDecision K, EqDecision I} (tkey : T → K) (ident : K → I) ck ts : ∀ tb,
  (∀ k, k ∈ row_key tkey <$> tt_rows (foldl (record_row tkey ident ck) tb ts) ↔
        k ∈ row_key tkey <$> tt_rows tb ∨ k ∈ tkey <$> ts) ∧
  (∀ r, r ∈ tt_rows (foldl (record_row tkey ident ck) tb ts) → r ∈ tt_rows tb ∨ tr_data r ∈ ts) ∧
  length (tt_rows (foldl (record_row tkey ident ck) tb ts)) <= length (tt_rows tb) + length ts.
Proof.
  induction ts as [|t ts IH]; intros tb; cbn; [set_solver by lia|]. destruct (IH (record_row tkey ident ck tb t)) as (H1 & H2 & H3).
  unfold record_row in *. destruct (decide _) as [Hd|Hd]; cbn in *.
  - split_and!; [|set_solver|lia]. intros k. rewrite H1, elem_of_cons. split; [tauto|]. intros [?|[-> |?]]; auto.
  - rewrite length_app in H3. cbn in H3. split_and!; [|set_solver|lia]. intros k. rewrite H1, fmap_app, elem_of_app, elem_of_cons.
    cbn. rewrite list_elem_of_singleton. unfold row_key at 2. cbn. tauto.
Qed.

Section applying.
Context `{OtherTables} `{Tombstones T}.
Context (unhex : string → list ascii).
Context (t : T) (es : list EnvelopeTombstone) (cs : list ClaimTombstone) `{!TombstonesOf t es cs} (ck : string).
Context (Hes : ∀ e, e ∈ es → envelope_fits e) (Hcs : ∀ c, c ∈ cs → claim_fits c).

Lemma mark_Ok cut digest st s : fits_i64 cut = true → ∃ s', mark ck cut digest st s = Ok s' ∧
  ts_claims s' = ts_claims s ∧ ts_envelopes s' = ts_envelopes s ∧ ts_operations s' = ts_operations s ∧ ts_ledger s' = ts_ledger s.
Proof.
  intros Ef. unfold mark, upsert_checkpoint. rewrite Ef. by destruct (existsb _ _); eexists; split_and!.
Qed.

(** What the store must say of the tombstones it has and gets. *)
Definition plan_ready (s : TrimStore) : Prop :=
  (∀ o c, o ∈ ts_operations s → c ∈ (claim_rows s ++ cs)%list → ct_id c = on_canonical_claim_id o →
     ct_operation_id c = Some (on_id o)) ∧
  (∀ e, e ∈ (envelope_rows s ++ es)%list → lt_ord (tc_envelope trim_cursor_default) (et_key e)) ∧
  (∀ c, c ∈ (claim_rows s ++ cs)%list → lt_ord (tc_claim trim_cursor_default) (ct_id c)).

(** Trimming a store whose tombstones are of these ids and keys. *)
Lemma trim_recorded s s1 (ids : list string) (keys : list envelope_key) most more fuel :
  0 < most → graph_kept → plan_ready s →
  ts_claims s1 = ts_claims s → ts_envelopes s1 = ts_envelopes s → ts_operations s1 = ts_operations s →
  (∀ c, c ∈ claim_rows s1 → c ∈ (claim_rows s ++ cs)%list) → (∀ e, e ∈ envelope_rows s1 → e ∈ (envelope_rows s ++ es)%list) →
  (∀ i, i ∈ ct_id <$> claim_rows s1 ↔ i ∈ ids) → (∀ k, k ∈ et_key <$> envelope_rows s1 ↔ k ∈ keys) →
  length (envelope_rows s1) + length (claim_rows s1) < fuel →
  ∃ s' n m, finish_trim fuel most more ck (rows_changed s1) = Some (s', Ok (Trimmed ck n m)) ∧
    ts_claims s' = List.filter (λ c, negb (bool_decide (hc_id c ∈ ids))) (ts_claims s) ∧
    ts_envelopes s' = List.filter (λ e, negb (bool_decide (he_key e ∈ keys))) (ts_envelopes s).
Proof.
  intros Hm Hg (Ho & Hke & Hkc) E1 E2 E3 Hc He Hi Hk Hf.
  destruct (finish_trim_exact (rows_changed s1) ck most more fuel Hm Hg) as (s' & n & m & E & Hcl & Hev & _).
  - intros o c Hin Hrow. apply Ho; [by rewrite <-E3|by apply Hc].
  - split; [intros e ?%He; by apply Hke|intros c ?%Hc; by apply Hkc].
  - exact Hf.
  - exists s', n, m. split; [done|]. rewrite Hcl, Hev. unfold kept_claims, kept_envelopes. cbn. rewrite E1, E2.
    split; apply filter_ext_elem; intros x _; f_equal; apply bool_decide_ext; [apply Hi|apply Hk].
Qed.

Lemma recorded_rows s : let s1 := set_trim_ledger (recorded_ledger unhex ck es cs (ts_ledger s)) s in
  (∀ c, c ∈ claim_rows s1 → c ∈ (claim_rows s ++ cs)%list) ∧ (∀ e, e ∈ envelope_rows s1 → e ∈ (envelope_rows s ++ es)%list) ∧
  (∀ i, i ∈ ct_id <$> claim_rows s1 ↔ i ∈ ct_id <$> claim_rows s ∨ i ∈ ct_id <$> cs) ∧
  (∀ k, k ∈ et_key <$> envelope_rows s1 ↔ k ∈ et_key <$> envelope_rows s ∨ k ∈ et_key <$> es) ∧
  length (envelope_rows s1) + length (claim_rows s1) <=
    length (envelope_rows s) + length es + (length (claim_rows s) + length cs).
Proof.
  intros s1. unfold claim_rows, envelope_rows. cbn [s1 set_trim_ledger set_checkpoints ts_ledger ts_writers set_ledger wr_ledger recorded_ledger lg_claims lg_envelopes].
  destruct (record_all_keys ct_id (claim_ident unhex) ck cs (lg_claims (ts_ledger s))) as (H1 & H2 & H3).
  destruct (record_all_keys et_key (envelope_ident unhex) ck es (lg_envelopes (ts_ledger s))) as (H4 & H5 & H6).
  change (wr_ledger (ts_writers s)) with (ts_ledger s).
  split_and!.
  - intros c (r & -> & [?|?]%H2)%list_elem_of_fmap; apply elem_of_app; [left; by apply list_elem_of_fmap_2|by right].
  - intros e (r & -> & [?|?]%H5)%list_elem_of_fmap; apply elem_of_app; [left; by apply list_elem_of_fmap_2|by right].
  - intros i. rewrite <-!list_fmap_compose. apply H1.
  - intros k. rewrite <-!list_fmap_compose. apply H4.
  - rewrite !length_fmap. lia.
Qed.

(** C23: Applying this node's own plan, end to end: tombstones recorded in chunks, marked, rows
    deleted in chunks.  It ends, and the claims and envelopes left are those without a
    tombstone, earlier or new. *)
Theorem trim_own_plan_exact most more cut digest fuel s :
  0 < most → (∀ n, more n 0 = true) → graph_kept → fits_i64 cut = true → plan_ready s →
  length (envelope_rows s) + length es + (length (claim_rows s) + length cs) < fuel →
  ∃ s' n m, trim_checkpoint_from unhex fuel most more ck cut digest t false s = Some (s', Ok (Trimmed ck n m)) ∧
    ts_claims s' = List.filter (λ c, negb (bool_decide (hc_id c ∈ ((ct_id <$> claim_rows s) ++ (ct_id <$> cs))%list))) (ts_claims s) ∧
    ts_envelopes s' =
      List.filter (λ e, negb (bool_decide (he_key e ∈ ((et_key <$> envelope_rows s) ++ (et_key <$> es))%list))) (ts_envelopes s).
Proof using Type*.
  intros Hm Hmore Hg Hcut Hready Hf. unfold trim_checkpoint_from, record_checkpoint.
  destruct (mark_Ok cut digest "recording" s Hcut) as (s0 & E0 & A1 & A2 & A3 & A4). rewrite E0.
  assert (claim_rows s0 = claim_rows s ∧ envelope_rows s0 = envelope_rows s) as [R1 R2].
  { unfold claim_rows, envelope_rows. by rewrite A4. }
  rewrite (record_loop_recorded unhex t es cs ck Hes Hcs more s0 Hmore) by (apply recorded_start || (cbn; lia)).
  set (s1 := set_trim_ledger _ s0). destruct (mark_Ok cut digest "trimming" s1 Hcut) as (s2 & E2 & B1 & B2 & B3 & B4). rewrite E2.
  assert (claim_rows s2 = claim_rows s1 ∧ envelope_rows s2 = envelope_rows s1) as [R3 R4].
  { unfold claim_rows, envelope_rows. by rewrite B4. }
  destruct (recorded_rows s0) as (H1 & H2 & H3 & H4 & H5). fold s1 in H1, H2, H3, H4, H5. rewrite R1, R2 in *.
  apply trim_recorded; try done; rewrite ?R3, ?R4; try done.
  - by rewrite B1.
  - by rewrite B2.
  - by rewrite B3.
  - intros i. rewrite H3. symmetry. apply elem_of_app.
  - intros k. rewrite H4. symmetry. apply elem_of_app.
  - lia.
Qed.

Lemma withdraw_length {U K I} `{EqDecision I} (tkey : U → K) (ident : K → I) p tb :
  length (tt_rows (withdraw tkey ident p tb)) <= length (tt_rows tb).
Proof.
  unfold withdraw. generalize (List.filter p (tt_rows tb)). intros l. revert tb. induction l as [|r l IH]; intros tb; cbn; [done|].
  etrans; [apply IH|]. cbn. apply List.filter_length_le.
Qed.

(** Adopting a manifest: afterwards exactly the rows the manifest names are gone, whatever
    tombstones this node had before. *)
Theorem adoption_exact most more cut digest fuel s :
  0 < most → graph_kept → fits_i64 cut = true → plan_ready s → slices t = Some (es, cs) →
  NoDup (tr_rowid <$> tt_rows (lg_claims (ts_ledger s))) → NoDup (tr_rowid <$> tt_rows (lg_envelopes (ts_ledger s))) →
  length (envelope_rows s) + length es + (length (claim_rows s) + length cs) < fuel →
  ∃ s' n m, trim_checkpoint_from unhex fuel most more ck cut digest t true s = Some (s', Ok (Trimmed ck n m)) ∧
    ts_claims s' = List.filter (λ c, negb (bool_decide (hc_id c ∈ ct_id <$> cs))) (ts_claims s) ∧
    ts_envelopes s' = List.filter (λ e, negb (bool_decide (he_key e ∈ et_key <$> es))) (ts_envelopes s).
Proof using Type*.
  intros Hm Hg Hcut Hready Hsl Hn1 Hn2 Hf. unfold trim_checkpoint_from, record_checkpoint. rewrite Hsl.
  set (s0 := set_trim_ledger (keep_only_tombstones_tx unhex es cs (ts_ledger s)) s).
  rewrite (record_tombstones_Ok unhex ck es cs s0 Hes Hcs). cbn [result_bind].
  set (s1 := set_trim_ledger _ s0). destruct (mark_Ok cut digest "trimming" s1 Hcut) as (s2 & E2 & B1 & B2 & B3 & B4). rewrite E2.
  assert (claim_rows s2 = claim_rows s1 ∧ envelope_rows s2 = envelope_rows s1) as [R3 R4].
  { unfold claim_rows, envelope_rows. by rewrite B4. }
  destruct (recorded_rows s0) as (H1 & H2 & H3 & H4 & H5). fold s1 in H1, H2, H3, H4, H5.
  assert (∀ c, c ∈ claim_rows s0 → c ∈ claim_rows s ∧ ct_id c ∈ ct_id <$> cs) as K1.
  { intros c (r & -> & [Hr Hk]%elem_of_withdraw)%list_elem_of_fmap; [|done]. split; [by apply list_elem_of_fmap_2|].
    by apply negb_false_iff, bool_decide_eq_true in Hk. }
  assert (∀ e, e ∈ envelope_rows s0 → e ∈ envelope_rows s ∧ et_key e ∈ et_key <$> es) as K2.
  { intros e (r & -> & [Hr Hk]%elem_of_withdraw)%list_elem_of_fmap; [|done]. split; [by apply list_elem_of_fmap_2|].
    by apply negb_false_iff, bool_decide_eq_true in Hk. }
  apply trim_recorded; try done; rewrite ?R3, ?R4; try done.
  - intros c [[? _]%K1|?]%H1%elem_of_app; apply elem_of_app; auto.
  - intros e [[? _]%K2|?]%H2%elem_of_app; apply elem_of_app; auto.
  - intros i. rewrite H3. split; [|auto]. intros [(c & -> & [_ ?]%K1)%list_elem_of_fmap|?]; done.
  - intros k. rewrite H4. split; [|auto]. intros [(e & -> & [_ ?]%K2)%list_elem_of_fmap|?]; done.
  - assert (length (claim_rows s0) <= length (claim_rows s) ∧ length (envelope_rows s0) <= length (envelope_rows s)) as [L1 L2].
    { unfold claim_rows, envelope_rows. rewrite !length_fmap. split; apply withdraw_length. }
    lia.
Qed.
End applying.

(** ** A store with one claim to trim *)

(** Forgetting moves the generation without changing the graph, so every chunk is done again. *)
#[local] Instance demo_other : OtherTables := {|
  other := nat;
  forget_claim_tx _ _ n := S n;
  generation n := Z.of_nat n;
  graph_digest _ := "graph"
|}.

Definition demo_dropped_claim : ClaimTombstone :=
  {| ct_id := "c1"; ct_writer := "cedar"; ct_sequence := 1; ct_envelope_hash := "h"; ct_subject := "doc/a";
     ct_kind := "doc.written"; ct_actor := None; ct_predecessors := []; ct_operation_id := Some "op1";
     ct_request_digest := Some "d"; ct_accepted_at_unix_ms := 5 |}.
Definition demo_batch (n : Z) (id : string) : Batch :=
  {| ba_id := id; ba_origin := "cedar"; ba_replica_sequence := n; ba_previous_hash := None; ba_hash := id;
     ba_accepted_at_unix_ms := 5; ba_rowid := n |}.
Definition demo_trim_writers (l : Ledger) : Writers :=
  {| wr_batches := [demo_batch 1 "b1"; demo_batch 2 "b2"]; wr_heads := [("cedar", (2%Z, "b2"))]; wr_floors := [];
     wr_rowid_high_water := Some 2%Z; wr_cuts := []; wr_ledger := l |}.
Definition demo_trim_store (l : Ledger) : TrimStore :=
  {| ts_claims := [{| hc_id := "c1"; hc_batch_id := "b1"; hc_store_index := 1 |};
                   {| hc_id := "c2"; hc_batch_id := "b2"; hc_store_index := 2 |}];
     ts_operations := [{| on_id := "op1"; on_canonical_claim_id := "c1" |}];
     ts_envelopes := [{| he_key := ("cedar", 1%Z, "h"); he_batch_id := Some "b1" |};
                      {| he_key := ("cedar", 2%Z, "h"); he_batch_id := Some "b2" |}];
     ts_records := [("cedar", 1%Z, "h")]; ts_signatures := []; ts_holds := [];
     ts_writers := demo_trim_writers l;
     ts_events := {| ei_positions := [1%Z; 2%Z]; ei_legacy := None; ei_resume_floor := None |};
     ts_checkpoints := []; ts_claims_sequence := 2; ts_rows_changed := 0; ts_other := 0 |}.
Definition demo_marked : TrimStore :=
  demo_trim_store (recorded_ledger demo_unhex "checkpoint/1" [demo_envelope 1] [demo_dropped_claim] demo_empty_ledger).

Lemma demo_trim_ops : ops_consistent demo_marked.
Proof. by intros o c ->%list_elem_of_singleton ->%list_elem_of_singleton. Qed.
Lemma demo_keys : keys_above demo_marked.
Proof. by split; intros x ->%list_elem_of_singleton. Qed.
Lemma demo_graph_kept : graph_kept.
Proof. done. Qed.

Lemma trim_exact_witness :
  ∃ s' n m, finish_trim 3 2000 (λ _ _, true) "checkpoint/1" demo_marked = Some (s', Ok (Trimmed "checkpoint/1" n m)) ∧
    ts_claims s' = [{| hc_id := "c2"; hc_batch_id := "b2"; hc_store_index := 2 |}].
Proof.
  destruct (trim_exact demo_marked [] demo_marked "checkpoint/1" 2000 (λ _ _, true) 3) as (s' & n & m & E & Hc & _).
  - lia.
  - exact demo_graph_kept.
  - exact demo_trim_ops.
  - exact demo_keys.
  - constructor.
  - vm_compute. lia.
  - exists s', n, m. split; [exact E|exact Hc].
Defined.

Lemma demo_recorded_ledger : ledger_inv demo_unhex ["c1"] [("cedar", 1%Z, "h")] (ts_ledger demo_marked).
Proof.
  apply (ledger_step_inv demo_unhex [] [] demo_empty_ledger (OpRecord "checkpoint/1" [demo_envelope 1] [demo_dropped_claim])).
  - apply ls_record; [reflexivity|]. by split; intros r ->%list_elem_of_singleton.
  - exact demo_writers_ledger.
Qed.

Lemma trim_integrity_witness : ∃ s' r,
  finish_trim 3 2000 (λ _ _, true) "checkpoint/1" demo_marked = Some (s', r) ∧ foreign_keys s' ∧
  (sequence_floor (ts_writers demo_marked) "cedar" <= sequence_floor (ts_writers s') "cedar")%Z.
Proof.
  eexists _, _. split; [reflexivity|].
  destruct (trim_integrity demo_unhex ["c1"] [("cedar", 1%Z, "h")] 3 2000 (λ _ _, true) "checkpoint/1" demo_marked _ _ eq_refl)
    as (Hf & _ & Hs).
  - split.
    + intros c [-> |[-> |[]%not_elem_of_nil]%elem_of_cons]%elem_of_cons;
        [exists (demo_batch 1 "b1")|exists (demo_batch 2 "b2")]; (split; [|reflexivity]); [left|right; left].
    + intros o ->%list_elem_of_singleton. left.
  - apply (bool_decide_unpack (NoDup ["b1"; "b2"])). done.
  - exact demo_recorded_ledger.
  - split; [exact Hf|exact (Hs "cedar")].
Defined.

Lemma trim_keeps_graph_witness : ∃ s' r,
  finish_trim 3 2000 (λ _ _, true) "checkpoint/1" demo_marked = Some (s', r) ∧ graph_digest (ts_other s') = "graph".
Proof.
  eexists _, _. split; [reflexivity|].
  exact (trim_keeps_graph 3 2000 (λ _ _, true) "checkpoint/1" demo_marked _ _ (λ _ _ _, eq_refl) eq_refl).
Defined.

Lemma demo_fits : (∀ e, e ∈ [demo_envelope 1] → envelope_fits e) ∧ (∀ c, c ∈ [demo_dropped_claim] → claim_fits c).
Proof. split; intros x ->%list_elem_of_singleton; done. Qed.
Lemma demo_ready : plan_ready [demo_envelope 1] [demo_dropped_claim] (demo_trim_store demo_empty_ledger).
Proof.
  split_and!; [by intros o c ->%list_elem_of_singleton ->%list_elem_of_singleton|by intros x ->%list_elem_of_singleton..].
Qed.

Lemma recording_exact_witness : ∃ s',
  record_loop demo_unhex 3 (λ _ _, true) "checkpoint/1" ([demo_envelope 1], [demo_dropped_claim]) 0
    {| rc_store := demo_trim_store demo_empty_ledger; rc_envelope := 0; rc_claim := 0; rc_envelope_page := []; rc_claim_page := [] |} =
    Some (s', Ok ()) ∧
  record_tombstones demo_unhex "checkpoint/1" [demo_envelope 1] [demo_dropped_claim] (demo_trim_store demo_empty_ledger) = Ok s'.
Proof.
  apply (recording_exact demo_unhex ([demo_envelope 1], [demo_dropped_claim]) [demo_envelope 1] [demo_dropped_claim]
           "checkpoint/1" (proj1 demo_fits) (proj2 demo_fits)); [done|cbn; lia].
Defined.

Lemma trim_own_plan_exact_witness : ∃ s' n m,
  trim_checkpoint_from demo_unhex 4 2000 (λ _ _, true) "checkpoint/1" 9 "digest" ([demo_envelope 1], [demo_dropped_claim]) false
    (demo_trim_store demo_empty_ledger) = Some (s', Ok (Trimmed "checkpoint/1" n m)) ∧
  ts_claims s' = [{| hc_id := "c2"; hc_batch_id := "b2"; hc_store_index := 2 |}].
Proof.
  destruct (trim_own_plan_exact demo_unhex ([demo_envelope 1], [demo_dropped_claim]) [demo_envelope 1] [demo_dropped_claim]
    "checkpoint/1" (proj1 demo_fits) (proj2 demo_fits) 2000 (λ _ _, true) 9 "digest" 4 (demo_trim_store demo_empty_ledger))
    as (s' & n & m & E & Hc & _); [lia|done|done|done|exact demo_ready|cbn; lia|].
  exists s', n, m. split; [exact E|exact Hc].
Defined.

Lemma adoption_exact_witness : ∃ s' n m,
  trim_checkpoint_from demo_unhex 6 2000 (λ _ _, true) "checkpoint/1" 9 "digest" ([demo_envelope 1], [demo_dropped_claim]) true
    (demo_trim_store demo_empty_ledger) = Some (s', Ok (Trimmed "checkpoint/1" n m)) ∧
  ts_claims s' = [{| hc_id := "c2"; hc_batch_id := "b2"; hc_store_index := 2 |}].
Proof.
  destruct (adoption_exact demo_unhex ([demo_envelope 1], [demo_dropped_claim]) [demo_envelope 1] [demo_dropped_claim]
    "checkpoint/1" (proj1 demo_fits) (proj2 demo_fits) 2000 (λ _ _, true) 9 "digest" 6 (demo_trim_store demo_empty_ledger))
    as (s' & n & m & E & Hc & _); [lia|done|done|exact demo_ready|done|apply NoDup_nil_2|apply NoDup_nil_2|cbn; lia|].
  exists s', n, m. split; [exact E|exact Hc].
Defined.
