(* ===== verification/Signatures.v ===== *)
(** * The signature tables
    (crates/smallclaims/src/store/principals.rs, with the control row of
    store/principals/migration.rs and the tables of store/principals/legacy.rs)

    A claim may carry several signatures, and each is kept as a candidate.  Beside the
    candidates the store keeps, by triggers, how many each claim and each carrying writer
    has; which nonces the matching candidates use; which facts each verdict relied on; and
    which claims wait to be judged.  This file models the tables and every operation that
    adds or forgets a signature.  The theorems show that the counts are exact after any
    sequence of operations, and that forgetting a claim leaves no row of it and sends every
    claim that shared a nonce with it back to be judged. *)

From stdpp Require Import gmap fin_sets.
From S2P Require Import Prelude BTree Json Principal.

Local Open Scope claims_scope.
Local Open Scope string_scope.

(** ** What other packages do *)

(** [serde_json] on a signature, the hash of CBOR text, and the order in which SQLite
    answers a query that asks for none. *)
Class SigCodec := {
  sig_to_string : ClaimSignature → string;
  sig_from_str : string → option ClaimSignature;
  hash_content : string → string → string → option string → Value → string;
  hash_roots : gset (string * string) → string;
  scan : gset string → list string
}.

Class SigCodecLaws `{SigCodec} := {
  sig_roundtrip s : sig_from_str (sig_to_string s) = Some s;
  sig_nonempty s : sig_to_string s ≠ "";
  scan_perm X : scan X ≡ₚ elements X
}.

(** ** The tables *)

Inductive SqlValue :=
| SqlNull
| SqlInteger (n : Z)
| SqlReal (bits : Z)
| SqlText (s : string)
| SqlBlob (b : list ascii).

Record ClaimRow := {
  cr_id : string;
  cr_subject : string;
  cr_kind : string;
  cr_actor : option string;
  cr_body : Value
}.

(** A row of [claims], the values of its canonical position, and the origin of its batch. *)
Record StoredClaim := {
  stc_row : ClaimRow;
  stc_position : list SqlValue;
  stc_origin : option string
}.

Record SignatureRow := { sr_signer : string; sr_key : string; sr_nonce : string; sr_signature : string }.

Record VerdictRow := {
  vr_verdict : string;
  vr_reason : option string;
  vr_signer : string;
  vr_on_behalf : option string
}.

Record JudgingRow := {
  jr_candidate_count : Z;
  jr_roots_digest : string;
  jr_content_digest : string;
  jr_last_signature : string;
  jr_best_signature : option string;
  jr_best_verdict : option string;
  jr_best_reason : option string;
  jr_complete : bool;
  jr_dirty : bool;
  jr_notified : bool;
  jr_blocked : bool
}.

(** The candidates with their keys and nonces, and what the triggers keep of them. *)
Record CandidateTables := {
  ca_rows : gmap (string * string) (string * string);
  ca_sources : gset (string * string * string);
  ca_counts : gmap string Z;
  ca_writer_counts : gmap string Z
}.

(** The five tables named [legacy_]. *)
Record LegacyTables := {
  lg_signatures : gmap string SignatureRow;
  lg_verdicts : gmap string VerdictRow;
  lg_links : gset (string * string);
  lg_queue : gset string;
  lg_fresh : gset string
}.

(** The control row [claim_signature_migration]. *)
Record MigrationRow := {
  mg_phase : string;
  mg_cursor : Z;
  mg_legacy_through : Z;
  mg_envelopes_through : Z;
  mg_fault : option string;
  mg_legacy_fault : option string;
  mg_envelope_row : Z;
  mg_claim_offset : Z;
  mg_serving_legacy : bool;
  mg_legacy_present : bool;
  mg_completed_work : Z
}.

Record SigTables := {
  st_claims : gmap string StoredClaim;
  st_candidates : CandidateTables;
  st_signatures : gmap string SignatureRow;
  st_nonce_uses : gset (string * string * string);
  st_judging : gmap string JudgingRow;
  st_verdicts : gmap string VerdictRow;
  st_links : gset (string * string);
  st_queue : gset string;
  st_fresh : gset string;
  st_expected : gmap (string * string * string) string;
  st_migration : MigrationRow;
  st_legacy : LegacyTables;
  st_verdict_roots : option string
}.

Definition set_candidates (c : CandidateTables) (s : SigTables) : SigTables :=
  Build_SigTables (st_claims s) c (st_signatures s) (st_nonce_uses s) (st_judging s) (st_verdicts s)
    (st_links s) (st_queue s) (st_fresh s) (st_expected s) (st_migration s) (st_legacy s) (st_verdict_roots s).
Definition set_signatures (x : gmap string SignatureRow) (s : SigTables) : SigTables :=
  Build_SigTables (st_claims s) (st_candidates s) x (st_nonce_uses s) (st_judging s) (st_verdicts s)
    (st_links s) (st_queue s) (st_fresh s) (st_expected s) (st_migration s) (st_legacy s) (st_verdict_roots s).
Definition set_nonce_uses (x : gset (string * string * string)) (s : SigTables) : SigTables :=
  Build_SigTables (st_claims s) (st_candidates s) (st_signatures s) x (st_judging s) (st_verdicts s)
    (st_links s) (st_queue s) (st_fresh s) (st_expected s) (st_migration s) (st_legacy s) (st_verdict_roots s).
Definition set_judging (x : gmap string JudgingRow) (s : SigTables) : SigTables :=
  Build_SigTables (st_claims s) (st_candidates s) (st_signatures s) (st_nonce_uses s) x (st_verdicts s)
    (st_links s) (st_queue s) (st_fresh s) (st_expected s) (st_migration s) (st_legacy s) (st_verdict_roots s).
Definition set_verdicts (x : gmap string VerdictRow) (s : SigTables) : SigTables :=
  Build_SigTables (st_claims s) (st_candidates s) (st_signatures s) (st_nonce_uses s) (st_judging s) x
    (st_links s) (st_queue s) (st_fresh s) (st_expected s) (st_migration s) (st_legacy s) (st_verdict_roots s).
Definition set_links (x : gset (string * string)) (s : SigTables) : SigTables :=
  Build_SigTables (st_claims s) (st_candidates s) (st_signatures s) (st_nonce_uses s) (st_judging s) (st_verdicts s)
    x (st_queue s) (st_fresh s) (st_expected s) (st_migration s) (st_legacy s) (st_verdict_roots s).
Definition set_queue (x : gset string) (s : SigTables) : SigTables :=
  Build_SigTables (st_claims s) (st_candidates s) (st_signatures s) (st_nonce_uses s) (st_judging s) (st_verdicts s)
    (st_links s) x (st_fresh s) (st_expected s) (st_migration s) (st_legacy s) (st_verdict_roots s).
Definition set_fresh (x : gset string) (s : SigTables) : SigTables :=
  Build_SigTables (st_claims s) (st_candidates s) (st_signatures s) (st_nonce_uses s) (st_judging s) (st_verdicts s)
    (st_links s) (st_queue s) x (st_expected s) (st_migration s) (st_legacy s) (st_verdict_roots s).
Definition set_expected (x : gmap (string * string * string) string) (s : SigTables) : SigTables :=
  Build_SigTables (st_claims s) (st_candidates s) (st_signatures s) (st_nonce_uses s) (st_judging s) (st_verdicts s)
    (st_links s) (st_queue s) (st_fresh s) x (st_migration s) (st_legacy s) (st_verdict_roots s).
Definition set_migration (x : MigrationRow) (s : SigTables) : SigTables :=
  Build_SigTables (st_claims s) (st_candidates s) (st_signatures s) (st_nonce_uses s) (st_judging s) (st_verdicts s)
    (st_links s) (st_queue s) (st_fresh s) (st_expected s) x (st_legacy s) (st_verdict_roots s).
Definition set_legacy (x : LegacyTables) (s : SigTables) : SigTables :=
  Build_SigTables (st_claims s) (st_candidates s) (st_signatures s) (st_nonce_uses s) (st_judging s) (st_verdicts s)
    (st_links s) (st_queue s) (st_fresh s) (st_expected s) (st_migration s) x (st_verdict_roots s).
Definition set_verdict_roots (x : option string) (s : SigTables) : SigTables :=
  Build_SigTables (st_claims s) (st_candidates s) (st_signatures s) (st_nonce_uses s) (st_judging s) (st_verdicts s)
    (st_links s) (st_queue s) (st_fresh s) (st_expected s) (st_migration s) (st_legacy s) x.

(** ** Reading a claim *)

(** [claim_row] *)
Definition claim_row (s : SigTables) (claim_id : string) : option ClaimRow :=
  stc_row <$> st_claims s !! claim_id.

(** [body.pointer("/fields/key").and_then(Value::as_str)], which is also what
    [json_extract(body, '$.fields.key')] compares with a text. *)
Definition field_key (body : Value) : option string :=
  (value_get "fields" body ≫= value_get "key") ≫= as_str.

(** [message_body_entry] *)
Definition is_lower_hex (c : ascii) : bool :=
  let n := byte_val c in ((48 <=? n) && (n <=? 57) || (97 <=? n) && (n <=? 102))%Z.

Definition is_message_body (entry : Value) : bool :=
  bool_decide (value_get "media_type" entry ≫= as_str = Some "text/plain") &&
  is_some_and (λ hash, (len hash =? 64)%Z && forallb is_lower_hex (bytes_of hash))
    (value_get "sha256" entry ≫= as_str) &&
  is_some_and (starts_with "host/") (value_get "origin" entry ≫= as_str) &&
  is_some_and (λ size, (1 <=? size)%Z && (size <=? 256 * 1024)%Z) (value_get "size" entry ≫= as_u64).

Definition message_body_entry (attachments : Value) : option Value :=
  as_array attachments ≫= find is_message_body.

(** [fields[key] = value] on an object. *)
Definition value_set (key : string) (v fields : Value) : Value :=
  match fields with Object l => Object (index_insert key v l) | _ => fields end.

Section tables.
Context `{SigCodec, Crypto}.

Definition CONTENT_DOMAIN : string := "smallclaims.claim-content.v1".

(** [content_digest] *)
Definition content_digest (row : ClaimRow) : string :=
  hash_content CONTENT_DOMAIN (cr_subject row) (cr_kind row) (cr_actor row) (canonical_json_value (cr_body row)).

Definition signature_fields (row : ClaimRow) : Value :=
  let fields := default Null (value_get "fields" (cr_body row)) in
  if String.eqb (cr_kind row) "message.sent" then
    match value_get "attachments" fields ≫= message_body_entry with
    | Some body =>
        value_set "body_bytes" (default Null (value_get "size" body))
          (value_set "body_sha256" (default Null (value_get "sha256" body)) fields)
    | None => fields
    end
  else fields.

(** The claim as [judge] and [verifies] take it. *)
Definition judged_of (row : ClaimRow) : Judged :=
  {| jd_id := cr_id row; jd_subject := cr_subject row; jd_kind := cr_kind row; jd_actor := cr_actor row;
     jd_content := content_digest row; jd_fields := signature_fields row |}.

Definition signature_matches (row : ClaimRow) (signature : ClaimSignature) : bool :=
  verifies signature (judged_of row).

(** ** The control row *)

Definition known_phase (phase : string) : bool :=
  bool_decide (phase ∈ ["legacy"; "envelopes"; "judging"; "done"]).

(** [legacy::active] *)
Definition legacy_active (s : SigTables) : result bool string :=
  let m := st_migration s in
  if negb (known_phase (mg_phase m)) then
    Err ("signature-state-corrupt: unknown bootstrap phase " +:+ mg_phase m)
  else if mg_serving_legacy m && String.eqb (mg_phase m) "done" then
    Err "signature-state-corrupt: completed bootstrap cannot serve legacy authorization"
  else match mg_serving_legacy m, mg_legacy_fault m with
  | true, Some fault => Err ("signature-state-corrupt: legacy projection: " +:+ fault)
  | serving, _ => Ok serving
  end.

(** [legacy::present] *)
Definition legacy_present (s : SigTables) : bool := mg_legacy_present (st_migration s).

(** [migration::state] with its three checks. *)
Definition migration_state (s : SigTables) : result MigrationRow string :=
  let m := st_migration s in
  let settled := bool_decide (mg_phase m ∈ ["judging"; "done"]) in
  if negb (known_phase (mg_phase m)) then
    Err ("signature-state-corrupt: unknown bootstrap phase " +:+ mg_phase m)
  else if settled && negb ((mg_cursor m =? 0) && (mg_envelope_row m =? 0) && (mg_claim_offset m =? 0))%Z then
    Err "signature-state-corrupt: completed inventory has pending cursors"
  else if String.eqb (mg_phase m) "done" && mg_serving_legacy m then
    Err "signature-state-corrupt: completed bootstrap cannot serve legacy authorization"
  else Ok m.

(** [SignatureMigration::done] and [unavailable_reason] *)
Definition migration_done (m : MigrationRow) : bool :=
  String.eqb (mg_phase m) "done" && bool_decide (mg_fault m = None).

Definition unavailable_reason (m : MigrationRow) : option string :=
  match mg_fault m with
  | Some fault => Some ("signature-state-corrupt: " +:+ fault)
  | None =>
      if negb (migration_done m) then
        Some ("signature-migration-incomplete: " +:+ mg_phase m +:+ " cursor " +:+ decimal (mg_cursor m))
      else None
  end.

(** [migration::unavailable], [judging_available], [record_fault] *)
Definition migration_unavailable (s : SigTables) : result (option string) string :=
  let? m := migration_state s in Ok (unavailable_reason m).

Definition judging_available (s : SigTables) : result bool string :=
  let? m := migration_state s in
  Ok (bool_decide (mg_fault m = None) && bool_decide (mg_phase m ∈ ["done"; "judging"])).

Definition with_fault (fault : option string) (m : MigrationRow) : MigrationRow :=
  {| mg_phase := mg_phase m; mg_cursor := mg_cursor m; mg_legacy_through := mg_legacy_through m;
     mg_envelopes_through := mg_envelopes_through m; mg_fault := fault; mg_legacy_fault := mg_legacy_fault m;
     mg_envelope_row := mg_envelope_row m; mg_claim_offset := mg_claim_offset m;
     mg_serving_legacy := mg_serving_legacy m; mg_legacy_present := mg_legacy_present m;
     mg_completed_work := mg_completed_work m |}.

Definition record_fault (reason : string) (s : SigTables) : SigTables :=
  set_migration (with_fault (Some reason) (st_migration s)) s.

(** [migration::finish_judging] *)
Definition finish_judging (s : SigTables) : SigTables :=
  let m := st_migration s in
  if String.eqb (mg_phase m) "judging" &&
     ((mg_cursor m =? 0) && (mg_envelope_row m =? 0) && (mg_claim_offset m =? 0))%Z &&
     bool_decide (mg_fault m = None) && bool_decide (st_queue s = ∅) && bool_decide (st_fresh s = ∅)
  then set_migration
    {| mg_phase := "done"; mg_cursor := mg_cursor m; mg_legacy_through := mg_legacy_through m;
       mg_envelopes_through := mg_envelopes_through m; mg_fault := mg_fault m; mg_legacy_fault := mg_legacy_fault m;
       mg_envelope_row := mg_envelope_row m; mg_claim_offset := mg_claim_offset m;
       mg_serving_legacy := false; mg_legacy_present := mg_legacy_present m;
       mg_completed_work := mg_completed_work m |} s
  else s.

(** [migration::note_work]; the clock is not modelled. *)
Definition note_work (work : Z) (s : SigTables) : SigTables :=
  let m := st_migration s in
  if String.eqb (mg_phase m) "done" then s
  else set_migration
    {| mg_phase := mg_phase m; mg_cursor := mg_cursor m; mg_legacy_through := mg_legacy_through m;
       mg_envelopes_through := mg_envelopes_through m; mg_fault := mg_fault m; mg_legacy_fault := mg_legacy_fault m;
       mg_envelope_row := mg_envelope_row m; mg_claim_offset := mg_claim_offset m;
       mg_serving_legacy := mg_serving_legacy m; mg_legacy_present := mg_legacy_present m;
       mg_completed_work := mg_completed_work m + work |}%Z s.

(** ** Queueing *)

Definition with_dirty (unnotify : bool) (r : JudgingRow) : JudgingRow :=
  {| jr_candidate_count := jr_candidate_count r; jr_roots_digest := jr_roots_digest r;
     jr_content_digest := jr_content_digest r; jr_last_signature := jr_last_signature r;
     jr_best_signature := jr_best_signature r; jr_best_verdict := jr_best_verdict r;
     jr_best_reason := jr_best_reason r; jr_complete := jr_complete r; jr_dirty := true;
     jr_notified := jr_notified r && negb unnotify; jr_blocked := jr_blocked r |}.

(** [UPDATE claim_signature_judging SET dirty=1 ... WHERE claim_id IN (...)] *)
Definition mark_dirty (unnotify : bool) (ids : gset string) (s : SigTables) : SigTables :=
  set_judging (map_imap (λ id r, Some (if bool_decide (id ∈ ids) then with_dirty unnotify r else r)) (st_judging s)) s.

(** [SELECT claim_id FROM claim_verdict_links WHERE link=?1] *)
Definition linked (links : gset (string * string)) (link : string) : gset string :=
  set_map snd (filter (λ p : string * string, p.1 = link) links).

(** [queue_linked_tx] *)
Definition queue_linked_tx (link : string) (s : SigTables) : SigTables :=
  let ids := linked (st_links s) link in
  let s := mark_dirty false ids s in
  set_queue (st_queue s ∪ ids) s.

Definition delegation_link (claim_id : string) : string := "delegation:" +:+ claim_id.
Definition key_link (principal key : string) : string := "key:" +:+ principal +:+ "|" +:+ key.
Definition nonce_link (key nonce : string) : string := "nonce:" +:+ key +:+ "|" +:+ nonce.
Definition root_link : string := "root".

(** The link [queue_affected_by_row_tx] queues, if any. *)
Definition affected_link (row : ClaimRow) : option string :=
  if String.eqb (cr_kind row) KEY_GRANTED then Some (delegation_link (cr_id row))
  else if String.eqb (cr_kind row) KEY_REVOKED then key_link (cr_subject row) <$> field_key (cr_body row)
  else None.

Definition queue_affected_by_row_tx (row : ClaimRow) (s : SigTables) : SigTables :=
  match affected_link row with Some link => queue_linked_tx link s | None => s end.

Definition queue_affected_by_tx (claim_id : string) (s : SigTables) : SigTables :=
  match claim_row s claim_id with Some row => queue_affected_by_row_tx row s | None => s end.

(** [legacy::queue_linked_tx], [legacy::stored_signature], [legacy::queue_affected_by_tx] *)
Definition legacy_queue_linked_tx (link : string) (l : LegacyTables) : LegacyTables :=
  {| lg_signatures := lg_signatures l; lg_verdicts := lg_verdicts l; lg_links := lg_links l;
     lg_queue := lg_queue l ∪ linked (lg_links l) link; lg_fresh := lg_fresh l |}.

Definition parse_signature (text : string) : result ClaimSignature string :=
  match sig_from_str text with
  | Some signature => Ok signature
  | None => Err "malformed signature"
  end.

Definition read_signature (rows : gmap string SignatureRow) (claim_id : string) : result (option ClaimSignature) string :=
  match rows !! claim_id with
  | None => Ok None
  | Some row => let? signature := parse_signature (sr_signature row) in Ok (Some signature)
  end.

Definition legacy_queue_affected_by_tx (claim_id : string) (s : SigTables) : result SigTables string :=
  match claim_row s claim_id with
  | None => Ok s
  | Some row =>
      let? stored := read_signature (lg_signatures (st_legacy s)) claim_id in
      match stored with
      | None => Ok s
      | Some signature =>
          let l := legacy_queue_linked_tx (nonce_link (cs_key signature) (cs_nonce signature)) (st_legacy s) in
          Ok (set_legacy (match affected_link row with Some link => legacy_queue_linked_tx link l | None => l end) s)
      end
  end.

(** ** Adding a signature *)

Definition signature_row (signature : ClaimSignature) (text : string) : SignatureRow :=
  {| sr_signer := cs_signer signature; sr_key := cs_key signature; sr_nonce := cs_nonce signature;
     sr_signature := text |}.

(** [INSERT OR IGNORE] into a table with a primary key. *)
Definition insert_or_ignore {A} (k : string) (v : A) (m : gmap string A) : gmap string A :=
  match m !! k with Some _ => m | None => <[k := v]> m end.

(** [legacy::store_claim_signature_tx] *)
Definition legacy_store_claim_signature_tx (claim_id : string) (signature : ClaimSignature) (l : LegacyTables)
    : LegacyTables :=
  match lg_signatures l !! claim_id with
  | Some _ => l
  | None =>
      {| lg_signatures := <[claim_id := signature_row signature (sig_to_string signature)]> (lg_signatures l);
         lg_verdicts := lg_verdicts l; lg_links := lg_links l; lg_queue := lg_queue l;
         lg_fresh := {[claim_id]} ∪ lg_fresh l |}
  end.

(** A count that goes up by one from nothing, and one that goes down by one and whose row is
    deleted at zero: the bodies of the four triggers. *)
Definition count_up (k : string) (counts : gmap string Z) : gmap string Z :=
  <[k := match counts !! k with Some n => n + 1 | None => 1 end]>%Z counts.

Definition count_down (k : string) (counts : gmap string Z) : gmap string Z :=
  match counts !! k with
  | Some n => if (n - 1 =? 0)%Z then delete k counts else <[k := (n - 1)%Z]> counts
  | None => counts
  end.

(** [INSERT OR IGNORE INTO claim_signature_candidates] with [claim_signature_candidate_added]:
    the table, and whether a row was added. *)
Definition insert_candidate (claim_id text key nonce : string) (c : CandidateTables) : CandidateTables * bool :=
  match ca_rows c !! (claim_id, text) with
  | Some _ => (c, false)
  | None =>
      ({| ca_rows := <[(claim_id, text) := (key, nonce)]> (ca_rows c); ca_sources := ca_sources c;
          ca_counts := count_up claim_id (ca_counts c); ca_writer_counts := ca_writer_counts c |}, true)
  end.

(** [INSERT OR IGNORE INTO claim_signature_sources] with [claim_signature_source_added]. *)
Definition insert_source (claim_id text writer : string) (c : CandidateTables) : CandidateTables :=
  if bool_decide ((claim_id, text, writer) ∈ ca_sources c) then c
  else {| ca_rows := ca_rows c; ca_sources := {[(claim_id, text, writer)]} ∪ ca_sources c;
          ca_counts := ca_counts c; ca_writer_counts := count_up writer (ca_writer_counts c) |}.

(** The nonce of a candidate that matches its claim is in use from now on. *)
Definition use_nonce (claim_id : string) (signature : ClaimSignature) (s : SigTables) : SigTables :=
  let use := (claim_id, cs_key signature, cs_nonce signature) in
  if bool_decide (use ∈ st_nonce_uses s) then s
  else queue_linked_tx (nonce_link (cs_key signature) (cs_nonce signature))
         (set_nonce_uses ({[use]} ∪ st_nonce_uses s) s).

(** What follows when a candidate was added: the second half of [store_candidate_tx]. *)
Definition candidate_added (claim_id : string) (signature : ClaimSignature) (s : SigTables) : SigTables :=
  let s := mark_dirty true {[claim_id]} s in
  let row := claim_row s claim_id in
  let s := match row with
           | Some r => if signature_matches r signature then use_nonce claim_id signature s else s
           | None => s
           end in
  let s := match row with Some r => queue_affected_by_row_tx r s | None => s end in
  let s := set_signatures (insert_or_ignore claim_id (signature_row signature (sig_to_string signature)) (st_signatures s)) s in
  set_fresh ({[claim_id]} ∪ st_fresh s) s.

Definition store_candidate_tx (claim_id : string) (signature : ClaimSignature) (writer : string)
    (update_legacy : bool) (s : SigTables) : SigTables :=
  let s := if update_legacy
           then set_legacy (legacy_store_claim_signature_tx claim_id signature (st_legacy s)) s else s in
  let text := sig_to_string signature in
  let '(c, added) := insert_candidate claim_id text (cs_key signature) (cs_nonce signature) (st_candidates s) in
  let s := set_candidates (insert_source claim_id text writer c) s in
  if negb added then s else candidate_added claim_id signature s.

Definition unknown_writer : string := "unknown-legacy".

(** The writer of the claim's batch. *)
Definition batch_origin (s : SigTables) (claim_id : string) : option string :=
  st_claims s !! claim_id ≫= stc_origin.

Definition store_carried_signature_tx (claim_id : string) (signature : ClaimSignature) (writer : string)
    (s : SigTables) : result SigTables string :=
  let? active := legacy_active s in
  Ok (store_candidate_tx claim_id signature writer active s).

Definition store_claim_signature_tx (claim_id : string) (signature : ClaimSignature) (s : SigTables)
    : result SigTables string :=
  store_carried_signature_tx claim_id signature (default unknown_writer (batch_origin s claim_id)) s.

Definition store_inventory_signature_tx (claim_id : string) (signature : ClaimSignature) (writer : option string)
    (s : SigTables) : SigTables :=
  let origin := match writer with None => batch_origin s claim_id | Some _ => None end in
  store_candidate_tx claim_id signature
    (default unknown_writer (match writer with Some w => Some w | None => origin end)) false s.

(** [nonce_used_in_model] *)
Definition nonce_used_in_model (key nonce : string) (serving_legacy : bool) (s : SigTables) : result bool string :=
  if serving_legacy then
    Ok (bool_decide (map_Exists (λ _ r, sr_key r = key ∧ sr_nonce r = nonce) (lg_signatures (st_legacy s))))
  else
    let? reason := migration_unavailable s in
    match reason with
    | Some reason => Err reason
    | None => Ok (bool_decide (set_Exists (λ u, u.1.2 = key ∧ u.2 = nonce) (st_nonce_uses s)))
    end.

(** [attach_expected_signature_inner_tx] *)
Definition attach_expected_signature_tx (claim_id subject kind : string) (actor writer : option string)
    (s : SigTables) : result SigTables string :=
  match actor with
  | None => Ok s
  | Some actor =>
      match st_expected s !! (subject, kind, actor) with
      | None => Ok s
      | Some text =>
          let s := set_expected (delete (subject, kind, actor) (st_expected s)) s in
          match sig_from_str text with
          | None => Ok s
          | Some signature =>
              let? serving_legacy := legacy_active s in
              let? used := nonce_used_in_model (cs_key signature) (cs_nonce signature) serving_legacy s in
              if used then Err "device-signature-replayed"
              else match writer with
              | Some writer => Ok (store_candidate_tx claim_id signature writer serving_legacy s)
              | None => store_claim_signature_tx claim_id signature s
              end
          end
      end
  end.

(** ** Forgetting a claim *)

(** [claim_signature_source_removed], once per deleted source. *)
Definition delete_sources (dead : gset (string * string * string)) (c : CandidateTables) : CandidateTables :=
  {| ca_rows := ca_rows c; ca_sources := ca_sources c ∖ dead; ca_counts := ca_counts c;
     ca_writer_counts := set_fold (λ u counts, count_down u.2 counts) (ca_writer_counts c) (ca_sources c ∩ dead) |}.

(** One row of [DELETE FROM claim_signature_candidates] with
    [claim_signature_candidate_removed]. *)
Definition delete_candidate (k : string * string) (c : CandidateTables) : CandidateTables :=
  let c := delete_sources (filter (λ u : string * string * string, u.1 = k) (ca_sources c)) c in
  {| ca_rows := delete k (ca_rows c); ca_sources := ca_sources c;
     ca_counts := count_down k.1 (ca_counts c); ca_writer_counts := ca_writer_counts c |}.

(** The candidates of a claim, in the order of their text. *)
Definition candidate_texts (c : CandidateTables) (claim_id : string) : list string :=
  bset_of_list (snd <$> elements (filter (λ k : string * string, k.1 = claim_id) (dom (ca_rows c)))).

Definition delete_candidates (claim_id : string) (c : CandidateTables) : CandidateTables :=
  foldl (λ c text, delete_candidate (claim_id, text) c) c (candidate_texts c claim_id).

(** The claims whose verdict relied on a nonce of this one. *)
Definition sharing_nonce (s : SigTables) (claim_id : string) : gset string :=
  set_map snd (filter (λ p : string * string, ∃ u, u ∈ st_nonce_uses s ∧ u.1.1 = claim_id ∧ p.1 = nonce_link u.1.2 u.2)
    (st_links s)).

Definition drop_legacy_rows (claim_id : string) (l : LegacyTables) : LegacyTables :=
  {| lg_signatures := delete claim_id (lg_signatures l); lg_verdicts := delete claim_id (lg_verdicts l);
     lg_links := filter (λ p : string * string, p.2 ≠ claim_id) (lg_links l);
     lg_queue := lg_queue l ∖ {[claim_id]}; lg_fresh := lg_fresh l ∖ {[claim_id]} |}.

(** The eight deletes at the end of [forget_claim_tx]. *)
Definition drop_rows (claim_id : string) (s : SigTables) : SigTables :=
  let s := set_signatures (delete claim_id (st_signatures s)) s in
  let s := set_candidates (delete_candidates claim_id (st_candidates s)) s in
  let s := set_nonce_uses (filter (λ u : string * string * string, u.1.1 ≠ claim_id) (st_nonce_uses s)) s in
  let s := set_judging (delete claim_id (st_judging s)) s in
  let s := set_verdicts (delete claim_id (st_verdicts s)) s in
  let s := set_links (filter (λ p : string * string, p.2 ≠ claim_id) (st_links s)) s in
  let s := set_queue (st_queue s ∖ {[claim_id]}) s in
  set_fresh (st_fresh s ∖ {[claim_id]}) s.

(** The queueing half of [forget_claim_tx]. *)
Definition requeue_sharing (id : string) (s : SigTables) : SigTables :=
  queue_affected_by_tx id (set_queue (st_queue s ∪ sharing_nonce s id) (mark_dirty true (sharing_nonce s id) s)).

(** [forget_claim_tx]; the count of deleted rows it answers with is left out. *)
Definition forget_claim_tx (claim_id : string) (s : SigTables) : result SigTables string :=
  let s := requeue_sharing claim_id s in
  let? active := legacy_active s in
  let? s := if active then legacy_queue_affected_by_tx claim_id s else Ok s in
  let s := if legacy_present s then set_legacy (drop_legacy_rows claim_id (st_legacy s)) s else s in
  Ok (drop_rows claim_id s).
End tables.

(** ** The counts *)

Section counts.
Context {A : Type} `{Countable A} (f : A → string).

Definition nonzero (n : nat) : option Z := if bool_decide (n = 0)%nat then None else Some (Z.of_nat n).

(** [m] counts the elements of [X] by [f], with no row for a count of zero. *)
Definition counts_exact (X : gset A) (m : gmap string Z) : Prop :=
  ∀ k, m !! k = nonzero (size (filter (λ a, f a = k) X)).

Lemma size_filter_add a (X : gset A) k :
  a ∉ X → size (filter (λ a, f a = k) ({[a]} ∪ X)) =
          ((if decide (f a = k) then 1 else 0) + size (filter (λ a, f a = k) X))%nat.
Proof.
  intros Ha. rewrite filter_union_L by apply _. rewrite size_union
    by (intros b [_ ->%elem_of_singleton]%elem_of_filter [_ Hb]%elem_of_filter; done).
  rewrite filter_singleton_L by apply _. case_decide; by rewrite ?size_singleton, ?size_empty.
Qed.

Lemma count_up_exact a X m : a ∉ X → counts_exact X m → counts_exact ({[a]} ∪ X) (count_up (f a) m).
Proof.
  intros Ha Hm k. rewrite size_filter_add by done. unfold count_up.
  destruct (decide (f a = k)) as [<-|Hk].
  - rewrite lookup_insert_eq, Hm. unfold nonzero.
    repeat case_bool_decide; try lia; f_equal; lia.
  - rewrite lookup_insert_ne by done. apply Hm.
Qed.

Lemma count_down_exact a X m : a ∈ X → counts_exact X m → counts_exact (X ∖ {[a]}) (count_down (f a) m).
Proof.
  intros Ha Hm k.
  pose proof (size_filter_add a (X ∖ {[a]}) k ltac:(set_solver)) as Hsize.
  rewrite <- (union_difference_L {[a]} X) in Hsize by set_solver.
  unfold count_down. pose proof (Hm (f a)) as Hfa. pose proof (Hm k) as Hk. unfold nonzero in *.
  destruct (decide (f a = k)) as [<-|Hne].
  - rewrite Hfa, Hsize in *. rewrite bool_decide_eq_false_2 by lia.
    destruct (Z.eqb_spec (Z.of_nat (1 + size (filter (λ b, f b = f a) (X ∖ {[a]}))) - 1) 0).
    + rewrite lookup_delete_eq, bool_decide_eq_true_2; [done|lia].
    + rewrite lookup_insert_eq, bool_decide_eq_false_2 by lia. f_equal. lia.
  - rewrite Hsize in Hk. cbn [Nat.add] in Hk. rewrite <- Hk.
    destruct (m !! f a) as [n|]; [|done].
    destruct (n - 1 =? 0)%Z; [by rewrite lookup_delete_ne|by rewrite lookup_insert_ne].
Qed.

Lemma counts_down_exact X Y m :
  Y ⊆ X → counts_exact X m → counts_exact (X ∖ Y) (set_fold (λ a m, count_down (f a) m) m Y).
Proof.
  intros HY Hm. revert HY.
  apply (set_fold_ind_L (λ m' Z, Z ⊆ X → counts_exact (X ∖ Z) m')); [intros _; by rewrite difference_empty_L|].
  intros a Z m' Ha IH HZ. replace (X ∖ ({[a]} ∪ Z)) with ((X ∖ Z) ∖ {[a]}) by set_solver.
  apply count_down_exact; [set_solver|]. apply IH. set_solver.
Qed.
End counts.

(** Every count is the number of its rows, and every source is of a candidate that is there. *)
Record candidates_wf (c : CandidateTables) : Prop := {
  wf_counts : counts_exact fst (dom (ca_rows c)) (ca_counts c);
  wf_writer_counts : counts_exact snd (ca_sources c) (ca_writer_counts c);
  wf_sources u : u ∈ ca_sources c → u.1 ∈ dom (ca_rows c)
}.

Lemma insert_candidate_spec claim_id text key nonce c :
  candidates_wf c →
  let '(c', added) := insert_candidate claim_id text key nonce c in
  candidates_wf c' ∧ (claim_id, text) ∈ dom (ca_rows c') ∧
  dom (ca_rows c') = {[(claim_id, text)]} ∪ dom (ca_rows c).
Proof.
  intros [Hn Hw Hs]. unfold insert_candidate.
  destruct (ca_rows c !! (claim_id, text)) as [x|] eqn:E.
  - apply elem_of_dom_2 in E. split_and!; [done|done|set_solver].
  - apply not_elem_of_dom in E. cbn [ca_rows]. rewrite dom_insert_L. split_and!; [|set_solver|done].
    split; cbn [ca_rows ca_sources ca_counts ca_writer_counts]; rewrite ?dom_insert_L; [|done|set_solver]. by apply (count_up_exact fst (claim_id, text)).
Qed.

Lemma insert_source_wf claim_id text writer c :
  (claim_id, text) ∈ dom (ca_rows c) → candidates_wf c → candidates_wf (insert_source claim_id text writer c).
Proof.
  intros Hc [Hn Hw Hs]. unfold insert_source. case_bool_decide as Hin; [done|].
  split; cbn [ca_rows ca_sources ca_counts ca_writer_counts]; [done|by apply (count_up_exact snd (claim_id, text, writer))|set_solver].
Qed.

Lemma sources_inter (k : string * string) c :
  ca_sources c ∩ filter (λ u : string * string * string, u.1 = k) (ca_sources c) =
  filter (λ u : string * string * string, u.1 = k) (ca_sources c).
Proof. set_solver. Qed.

Lemma sources_of_sub (k : string * string) c :
  filter (λ u : string * string * string, u.1 = k) (ca_sources c) ⊆ ca_sources c.
Proof. set_solver. Qed.

Lemma delete_candidate_wf k c : k ∈ dom (ca_rows c) → candidates_wf c → candidates_wf (delete_candidate k c).
Proof.
  intros Hk [Hn Hw Hs]. unfold delete_candidate, delete_sources. split; cbn [ca_rows ca_sources ca_counts ca_writer_counts].
  - rewrite dom_delete_L. by apply count_down_exact.
  - rewrite sources_inter. apply (counts_down_exact snd); [|done]. apply sources_of_sub.
  - intros u Hu. rewrite dom_delete_L. set_solver.
Qed.

Lemma elem_of_candidate_texts c claim_id text :
  text ∈ candidate_texts c claim_id ↔ (claim_id, text) ∈ dom (ca_rows c).
Proof.
  unfold candidate_texts. rewrite elem_of_bset_of_list, list_elem_of_fmap. split.
  - intros ([i t] & -> & Hin%elem_of_elements). apply elem_of_filter in Hin as [[= ->] Hin]. done.
  - intros Hin. exists (claim_id, text). split; [done|]. apply elem_of_elements, elem_of_filter. done.
Qed.

Lemma candidate_texts_sorted c claim_id : bset_wf (candidate_texts c claim_id).
Proof. apply bset_of_list_wf. Qed.

Lemma delete_texts_spec claim_id texts : ∀ c,
  NoDup texts → (∀ t, t ∈ texts → (claim_id, t) ∈ dom (ca_rows c)) → candidates_wf c →
  let c' := foldl (λ c text, delete_candidate (claim_id, text) c) c texts in
  candidates_wf c' ∧
  (∀ k, ca_rows c' !! k = if decide (k.1 = claim_id ∧ k.2 ∈ texts) then None else ca_rows c !! k) ∧
  (∀ u, u ∈ ca_sources c' ↔ u ∈ ca_sources c ∧ ¬ (u.1.1 = claim_id ∧ u.1.2 ∈ texts)).
Proof.
  induction texts as [|t texts IH]; intros c Hnd Hin Hwf; cbn.
  { split_and!; [done| |set_solver]. intros k. rewrite decide_False by set_solver. done. }
  apply NoDup_cons in Hnd as [Ht Hnd].
  destruct (IH (delete_candidate (claim_id, t) c)) as (Hwf' & Hrows & Hsrc); [done| | |].
  - intros t' Ht'. unfold delete_candidate. cbn [ca_rows]. rewrite dom_delete_L. apply elem_of_difference. split; [set_solver|].
    rewrite elem_of_singleton. congruence.
  - apply delete_candidate_wf; [set_solver|done].
  - split_and!; [done| |].
    + intros [i x]. rewrite Hrows. cbn [fst snd]. unfold delete_candidate. cbn [ca_rows]. destruct (decide (i = claim_id ∧ x ∈ texts)) as [[-> Hx]|Hx];
        [by rewrite decide_True by set_solver|].
      destruct (decide ((claim_id, t) = (i, x))) as [[= <- <-]|Hne].
      * rewrite lookup_delete_eq, decide_True; [done|set_solver].
      * rewrite lookup_delete_ne by done. rewrite decide_False; [done|]. set_solver.
    + intros [[i x] w]. rewrite Hsrc. unfold delete_candidate, delete_sources. cbn [ca_sources]. set_solver.
Qed.

Lemma delete_candidates_spec claim_id c :
  candidates_wf c →
  candidates_wf (delete_candidates claim_id c) ∧
  (∀ k, ca_rows (delete_candidates claim_id c) !! k = if decide (k.1 = claim_id) then None else ca_rows c !! k) ∧
  (∀ u, u ∈ ca_sources (delete_candidates claim_id c) ↔ u ∈ ca_sources c ∧ u.1.1 ≠ claim_id).
Proof.
  intros Hwf. destruct (delete_texts_spec claim_id (candidate_texts c claim_id) c) as (Hwf' & Hrows & Hsrc); [|by intros t ?%elem_of_candidate_texts|done|].
  { apply bset_wf_NoDup, candidate_texts_sorted. }
  split_and!; [done| |].
  - intros [i x]. unfold delete_candidates. rewrite Hrows. cbn [fst snd].
    destruct (decide (i = claim_id)) as [->|]; [|by rewrite decide_False by naive_solver].
    case_decide as Hd; [done|]. destruct (ca_rows c !! (claim_id, x)) eqn:E; [|done].
    exfalso. apply Hd. split; [done|]. by eapply elem_of_candidate_texts, elem_of_dom_2.
  - intros [[i x] w]. unfold delete_candidates. rewrite Hsrc. cbn [fst snd]. split; [|naive_solver].
    intros [Hin Hno]. split; [done|]. intros ->. apply Hno. split; [done|].
    apply elem_of_candidate_texts. by apply (wf_sources _ Hwf (claim_id, x, w)).
Qed.

(** ** What each operation does to the tables *)

Section operations.
Context `{SigCodec, Crypto}.
Implicit Types s : SigTables.

Lemma mark_dirty_candidates b ids s : st_candidates (mark_dirty b ids s) = st_candidates s.
Proof. done. Qed.

Lemma queue_linked_candidates link s : st_candidates (queue_linked_tx link s) = st_candidates s.
Proof. done. Qed.

Lemma queue_row_candidates row s : st_candidates (queue_affected_by_row_tx row s) = st_candidates s.
Proof. unfold queue_affected_by_row_tx. by destruct (affected_link row). Qed.

Lemma queue_affected_candidates id s : st_candidates (queue_affected_by_tx id s) = st_candidates s.
Proof. unfold queue_affected_by_tx. destruct (claim_row s id); [apply queue_row_candidates|done]. Qed.

Lemma use_nonce_candidates id signature s : st_candidates (use_nonce id signature s) = st_candidates s.
Proof. unfold use_nonce. by case_bool_decide. Qed.

Lemma candidate_added_candidates id signature s : st_candidates (candidate_added id signature s) = st_candidates s.
Proof.
  unfold candidate_added. cbn [st_candidates set_fresh set_signatures].
  destruct (claim_row _ id) as [r|]; [|done]. rewrite queue_row_candidates.
  destruct (signature_matches r signature); [by rewrite use_nonce_candidates|done].
Qed.

(** The tables after a signature is stored: the candidate and its source are there, whether
    or not they were before. *)
Lemma store_candidate_candidates id signature writer b s :
  st_candidates (store_candidate_tx id signature writer b s) =
  insert_source id (sig_to_string signature) writer
    (insert_candidate id (sig_to_string signature) (cs_key signature) (cs_nonce signature) (st_candidates s)).1.
Proof.
  unfold store_candidate_tx. set (s1 := if b then _ else _).
  assert (st_candidates s1 = st_candidates s) as -> by by destruct b.
  destruct (insert_candidate _ _ _ _ _) as [c []]; [apply candidate_added_candidates|done].
Qed.

Lemma store_candidate_wf id signature writer b s :
  candidates_wf (st_candidates s) → candidates_wf (st_candidates (store_candidate_tx id signature writer b s)).
Proof.
  intros Hwf. rewrite store_candidate_candidates.
  pose proof (insert_candidate_spec id (sig_to_string signature) (cs_key signature) (cs_nonce signature) _ Hwf) as Hspec.
  destruct (insert_candidate _ _ _ _ _) as [c added]. destruct Hspec as (Hc & Hin & _). by apply insert_source_wf.
Qed.

Lemma store_candidate_dom id signature writer b s :
  candidates_wf (st_candidates s) →
  dom (ca_rows (st_candidates (store_candidate_tx id signature writer b s))) =
  {[(id, sig_to_string signature)]} ∪ dom (ca_rows (st_candidates s)).
Proof.
  intros Hwf. rewrite store_candidate_candidates.
  pose proof (insert_candidate_spec id (sig_to_string signature) (cs_key signature) (cs_nonce signature) _ Hwf) as Hspec.
  destruct (insert_candidate _ _ _ _ _) as [c added]. destruct Hspec as (_ & _ & <-).
  unfold insert_source. by case_bool_decide.
Qed.

Definition no_legacy_row (id : string) (l : LegacyTables) : Prop :=
  lg_signatures l !! id = None ∧ lg_verdicts l !! id = None ∧ id ∉ lg_queue l ∧ id ∉ lg_fresh l ∧
  ∀ p, p ∈ lg_links l → p.2 ≠ id.

Lemma drop_legacy_none id l : no_legacy_row id (drop_legacy_rows id l).
Proof. unfold no_legacy_row, drop_legacy_rows. cbn. rewrite !lookup_delete_eq. split_and!; [done|done|set_solver..]. Qed.

Lemma set_legacy_self s : set_legacy (st_legacy s) s = s.
Proof. by destruct s. Qed.

Lemma legacy_queue_affected_Ok id s s' :
  legacy_queue_affected_by_tx id s = Ok s' → ∃ l, s' = set_legacy l s.
Proof.
  pose proof (eq_sym (set_legacy_self s)) as Hs.
  unfold legacy_queue_affected_by_tx. destruct (claim_row s id); [|intros [= <-]; eauto].
  intros ([signature|] & _ & [= <-])%result_bind_Ok; eauto.
Qed.

Lemma queue_affected_legacy id s :
  st_legacy (queue_affected_by_tx id s) = st_legacy s ∧ st_migration (queue_affected_by_tx id s) = st_migration s.
Proof.
  unfold queue_affected_by_tx, queue_affected_by_row_tx. destruct (claim_row s id); [|done].
  by destruct (affected_link _).
Qed.

Lemma forget_claim_Ok id s s' :
  forget_claim_tx id s = Ok s' →
  ∃ l, s' = drop_rows id (set_legacy l (requeue_sharing id s)) ∧ (legacy_present s = true → no_legacy_row id l).
Proof.
  unfold forget_claim_tx. intros (active & _ & (s1 & Hs1 & [= <-])%result_bind_Ok)%result_bind_Ok.
  assert (∃ l, s1 = set_legacy l (requeue_sharing id s)) as [l ->].
  { destruct active; [by apply legacy_queue_affected_Ok in Hs1|]. injection Hs1 as <-.
    exists (st_legacy (requeue_sharing id s)). symmetry. apply set_legacy_self. }
  assert (legacy_present (set_legacy l (requeue_sharing id s)) = legacy_present s) as ->.
  { unfold legacy_present, requeue_sharing. cbn. by rewrite (proj2 (queue_affected_legacy _ _)). }
  destruct (legacy_present s).
  - exists (drop_legacy_rows id l). split; [done|]. intros _. apply drop_legacy_none.
  - by exists l.
Qed.

(** No table has a row of the claim. *)
Definition no_row (id : string) (s : SigTables) : Prop :=
  st_signatures s !! id = None ∧ st_judging s !! id = None ∧ st_verdicts s !! id = None ∧
  id ∉ st_queue s ∧ id ∉ st_fresh s ∧ (∀ p, p ∈ st_links s → p.2 ≠ id) ∧
  (∀ u, u ∈ st_nonce_uses s → u.1.1 ≠ id) ∧ candidate_texts (st_candidates s) id = [] ∧
  ca_counts (st_candidates s) !! id = None ∧ (∀ u, u ∈ ca_sources (st_candidates s) → u.1.1 ≠ id).

(** The claim waits to be judged, and what is cached of it is not served. *)
Definition sent_back (x : string) (s : SigTables) : Prop :=
  x ∈ st_queue s ∧ ∀ r, st_judging s !! x = Some r → jr_dirty r = true.

Lemma candidate_texts_nil c id : (∀ k, k.1 = id → ca_rows c !! k = None) → candidate_texts c id = [].
Proof.
  intros Hnone. destruct (candidate_texts c id) as [|t l] eqn:E; [done|]. exfalso.
  assert (t ∈ candidate_texts c id) as Ht by (rewrite E; left).
  apply elem_of_candidate_texts, elem_of_dom in Ht as [x Hx]. by rewrite Hnone in Hx.
Qed.

Lemma drop_rows_none id s : candidates_wf (st_candidates s) → no_row id (drop_rows id s).
Proof.
  intros Hwf. destruct (delete_candidates_spec id _ Hwf) as (Hwf' & Hrows & Hsrc).
  unfold no_row, drop_rows. cbn [st_signatures st_judging st_verdicts st_queue st_fresh st_links st_nonce_uses
    st_candidates set_signatures set_candidates set_nonce_uses set_judging set_verdicts set_links set_queue set_fresh].
  assert (candidate_texts (delete_candidates id (st_candidates s)) id = []) as Ht.
  { apply candidate_texts_nil. intros k Hk. by rewrite Hrows, decide_True. }
  rewrite !lookup_delete_eq. split_and!; [done..|set_solver|set_solver|set_solver|set_solver|done| |].
  - rewrite (wf_counts _ Hwf'). unfold nonzero. rewrite bool_decide_eq_true_2; [done|].
    apply size_empty_iff. intros k. split; [|set_solver]. intros [Hk [x Hx]%elem_of_dom]%elem_of_filter.
    by rewrite Hrows, decide_True in Hx.
  - intros u [_ Hu]%Hsrc. done.
Qed.

Lemma mark_dirty_lookup b ids s x :
  st_judging (mark_dirty b ids s) !! x =
  (λ r, if bool_decide (x ∈ ids) then with_dirty b r else r) <$> st_judging s !! x.
Proof. unfold mark_dirty. cbn. rewrite map_lookup_imap. by destruct (st_judging s !! x). Qed.

Lemma queue_linked_sent_back link x s : (link, x) ∈ st_links s ∨ sent_back x s → sent_back x (queue_linked_tx link s).
Proof.
  assert ((link, x) ∈ st_links s ↔ x ∈ linked (st_links s) link) as Hl.
  { unfold linked. rewrite elem_of_map. split.
    - intros Hin. exists (link, x). by rewrite elem_of_filter.
    - intros ([l y] & -> & [Hl Hin]%elem_of_filter). cbn in Hl. by subst l. }
  unfold sent_back, queue_linked_tx. cbn [st_queue set_queue]. rewrite Hl. split.
  - cbn. set_solver.
  - intros r. change (st_judging _ !! x) with (st_judging (mark_dirty false (linked (st_links s) link) s) !! x).
    rewrite mark_dirty_lookup. intros (r0 & Hr0 & ->)%fmap_Some_1. case_bool_decide; [done|]. naive_solver.
Qed.

Lemma queue_affected_sent_back id x s : sent_back x s → sent_back x (queue_affected_by_tx id s).
Proof.
  unfold queue_affected_by_tx, queue_affected_by_row_tx. destruct (claim_row s id) as [row|]; [|done].
  destruct (affected_link row); [|done]. intros Hx. by apply queue_linked_sent_back; right.
Qed.

Lemma requeue_sharing_sent_back id x s : x ∈ sharing_nonce s id → sent_back x (requeue_sharing id s).
Proof.
  intros Hx. apply queue_affected_sent_back. split; [cbn; set_solver|]. intros r.
  change (st_judging _ !! x) with (st_judging (mark_dirty true (sharing_nonce s id) s) !! x).
  rewrite mark_dirty_lookup, bool_decide_eq_true_2 by done. intros (r0 & _ & ->)%fmap_Some_1. done.
Qed.

Lemma requeue_sharing_candidates id s : st_candidates (requeue_sharing id s) = st_candidates s.
Proof. unfold requeue_sharing. by rewrite queue_affected_candidates. Qed.

Lemma queue_affected_rest id s :
  st_signatures (queue_affected_by_tx id s) = st_signatures s ∧ st_verdicts (queue_affected_by_tx id s) = st_verdicts s ∧
  st_nonce_uses (queue_affected_by_tx id s) = st_nonce_uses s ∧ st_links (queue_affected_by_tx id s) = st_links s.
Proof.
  unfold queue_affected_by_tx, queue_affected_by_row_tx. destruct (claim_row s id) as [row|]; [|done].
  by destruct (affected_link row).
Qed.

(** What [forget_claim_tx] keeps: every row of every other claim, and the counts. *)
Definition others_kept (id : string) (s s' : SigTables) : Prop :=
  candidates_wf (st_candidates s') ∧
  (∀ k, k.1 ≠ id → ca_rows (st_candidates s') !! k = ca_rows (st_candidates s) !! k) ∧
  (∀ x, x ≠ id → st_signatures s' !! x = st_signatures s !! x ∧ st_verdicts s' !! x = st_verdicts s !! x) ∧
  (∀ u, u.1.1 ≠ id → u ∈ st_nonce_uses s' ↔ u ∈ st_nonce_uses s) ∧
  (∀ p, p.2 ≠ id → p ∈ st_links s' ↔ p ∈ st_links s).

Lemma forget_keeps_others id s l :
  candidates_wf (st_candidates s) → others_kept id s (drop_rows id (set_legacy l (requeue_sharing id s))).
Proof.
  intros Hwf. destruct (delete_candidates_spec id _ Hwf) as (Hwf' & Hrows & _).
  unfold others_kept, drop_rows. cbn [st_signatures st_verdicts st_links st_nonce_uses
    st_candidates set_signatures set_candidates set_nonce_uses set_judging set_verdicts set_links set_queue set_fresh set_legacy].
  rewrite requeue_sharing_candidates. unfold requeue_sharing.
  destruct (queue_affected_rest id (set_queue (st_queue s ∪ sharing_nonce s id) (mark_dirty true (sharing_nonce s id) s)))
    as (-> & -> & -> & ->). cbn [st_signatures st_verdicts st_links st_nonce_uses set_queue mark_dirty set_judging].
  split_and!; [done| | |set_solver|set_solver].
  - intros k Hk. by rewrite Hrows, decide_False.
  - intros x Hx. by rewrite !lookup_delete_ne.
Qed.

(** Forgetting a claim leaves no row of it in any of the signature tables, keeps every
    row of every other claim and the exactness of every count, and sends each claim whose
    verdict relied on a nonce of the forgotten claim back to be judged, with its cached
    verdict marked unserved; it succeeds whenever the control row is sound and, while the
    earlier projection serves, the claim's signature there can be read. *)
Theorem forget_exact id s active :
  candidates_wf (st_candidates s) → legacy_active s = Ok active →
  (active = true → ∃ o, read_signature (lg_signatures (st_legacy s)) id = Ok o) →
  ∃ s', forget_claim_tx id s = Ok s' ∧ no_row id s' ∧ (legacy_present s = true → no_legacy_row id (st_legacy s')) ∧
    others_kept id s s' ∧
    ∀ u x, u ∈ st_nonce_uses s → u.1.1 = id → (nonce_link u.1.2 u.2, x) ∈ st_links s → x ≠ id → sent_back x s'.
Proof.
  intros Hwf Hactive Hread.
  assert (∃ s', forget_claim_tx id s = Ok s') as [s' Hs'].
  { unfold forget_claim_tx.
    assert (legacy_active (requeue_sharing id s) = Ok active) as ->.
    { unfold legacy_active, requeue_sharing. by rewrite (proj2 (queue_affected_legacy _ _)). }
    cbn [result_bind]. destruct active; [|by eexists]. destruct (Hread eq_refl) as [o Ho].
    unfold legacy_queue_affected_by_tx, requeue_sharing. rewrite (proj1 (queue_affected_legacy _ _)). cbn [st_legacy set_queue mark_dirty set_judging].
    destruct (claim_row _ id); [|by eexists]. rewrite Ho. cbn [result_bind]. destruct o; by eexists. }
  exists s'. split; [done|]. destruct (forget_claim_Ok _ _ _ Hs') as (l & -> & Hl).
  split_and!; [|done|by apply forget_keeps_others|].
  - apply drop_rows_none. cbn [st_candidates set_legacy]. by rewrite requeue_sharing_candidates.
  - intros u x Hu Hid Hlink Hx.
    assert (x ∈ sharing_nonce s id) as Hsh.
    { unfold sharing_nonce. apply elem_of_map. exists (nonce_link u.1.2 u.2, x). split; [done|]. apply elem_of_filter.
      split; [|done]. exists u. done. }
    destruct (requeue_sharing_sent_back id x s Hsh) as [Hq Hd]. split; unfold drop_rows;
      cbn [st_queue st_judging set_signatures set_candidates set_nonce_uses set_judging set_verdicts set_links set_queue set_fresh set_legacy].
    + set_solver.
    + intros r. rewrite lookup_delete_ne by done. apply Hd.
Qed.
End operations.
