(* ===== verification/Judging.v ===== *)
(** * Judging claims against the store
    (crates/smallclaims/src/store/principals.rs and store/principals/judging.rs)

    A verdict is [judge] answered from the store: [StoreFacts] reads delegations,
    revocations, nonces and roots, judges the claims it needs on the way, remembers them for
    the pass, and notes every fact it was asked for as a link.  A claim's candidates are
    judged in pages, each a writer's loan; a finished fold is cached, and every claim linked
    to it is queued again. *)

From stdpp Require Import gmap fin_sets.
From S2P Require Import Prelude BTree Json Principal Signatures.

Local Open Scope claims_scope.
Local Open Scope string_scope.

Definition JUDGE_CHUNK : nat := 32.
Definition CANDIDATE_PAGE : nat := 32.
Definition MAX_CHAIN_DEPTH : nat := 8.

(** ** The questions of [judge], in order *)

(** [judge] as a tree of the questions it asks of its facts; the same function as
    [Principal.judge], which answers them all at once. *)
Inductive Ask (A : Type) : Type :=
| Answer (a : A)
| AskDelegation (claim_id : string) (k : option Delegation → Ask A)
| AskRoot (subject key : string) (k : bool → Ask A)
| AskRevoked (principal key : string) (k : bool → Ask A)
| AskNonce (key nonce : string) (k : bool → Ask A).
Arguments Answer {A}.
Arguments AskDelegation {A}.
Arguments AskRoot {A}.
Arguments AskRevoked {A}.
Arguments AskNonce {A}.

Section asks.
Context `{Crypto}.

(** [judge_chain]'s loop. *)
Fixpoint ask_chain (claim : Judged) (family : Family) (first : bool) (principal key : string)
    (chain : list string) : Ask Verdict :=
  match chain with
  | [] => Answer (Invalid "the chain does not reach a node")
  | i :: rest =>
      AskDelegation i (λ d,
      match d with
      | None => Answer (Held ("delegation " +:+ i +:+ " has not arrived"))
      | Some d =>
          let grant := dg_grant d in
          if negb (String.eqb (dg_subject d) principal) || negb (String.eqb (kg_key grant) key) then
            Answer (Invalid ("delegation " +:+ i +:+ " does not grant the key the chain needs"))
          else if first && negb (String.eqb (jd_kind claim) KEY_GRANTED)
                  && negb (signs_with family (kg_role grant)) then
            Answer (Invalid ("a " +:+ role_debug (kg_role grant) +:+ " key does not sign claims"))
          else if negb first && negb (bool_decide (kg_role grant = Root)) then
            Answer (Invalid ("delegation " +:+ i +:+ " cannot issue keys"))
          else AskRevoked principal key (λ revoked,
          if revoked then
            Answer (Invalid ("the key of " +:+ quote principal +:+ " in the chain was revoked"))
          else match dg_verdict d with
          | Held reason => Answer (Held reason)
          | Unsigned => Answer (Invalid ("delegation " +:+ i +:+ " is unsigned"))
          | Invalid reason => Answer (Invalid ("delegation " +:+ i +:+ " is invalid: " +:+ reason))
          | Verified =>
              if bool_decide (family_of (kg_issuer grant) = Some Node) then
                match rest with
                | [] => Answer Verified
                | _ :: _ => Answer (Invalid "the chain goes on past a node")
                end
              else ask_chain claim family false (kg_issuer grant) (kg_issuer_key grant) rest
          end)
      end)
  end.

Definition ask_judge (claim : Judged) (signature : option ClaimSignature) : Ask Verdict :=
  match signature with
  | None => Answer Unsigned
  | Some s =>
      if negb (verifies s claim) then Answer (Invalid "the signature does not match the claim")
      else AskNonce (cs_key s) (cs_nonce s) (λ used,
      if used then Answer (Invalid "the signature was used by an earlier claim")
      else if is_some_and (String.eqb (cs_signer s)) (cs_on_behalf s) then
        Answer (Invalid "a signer cannot act on its own behalf")
      else match family_of (cs_signer s) with
      | None => Answer (Invalid (quote (cs_signer s) +:+ " is not a principal"))
      | Some family =>
          match refuse_grant claim s family with
          | Some verdict => Answer verdict
          | None =>
              if bool_decide (family = Node) then
                if negb (bool_decide (cs_chain s = [])) then Answer (Invalid "a node key needs no chain")
                else AskRoot (cs_signer s) (cs_key s) (λ root,
                  if root then Answer Verified
                  else Answer (Held ("fleet membership admits no such key for " +:+ quote (cs_signer s))))
              else match cs_chain s with
              | [] => Answer (Invalid "the signature names no delegation for its key")
              | _ :: _ => ask_chain claim family true (cs_signer s) (cs_key s) (cs_chain s)
              end
          end
      end)
  end.
End asks.

(** The tree answered by fixed facts, and the links of the questions it asks. *)
Fixpoint answer {A} (F : Facts) (a : Ask A) : A :=
  match a with
  | Answer x => x
  | AskDelegation i k => answer F (k (delegation i))
  | AskRoot subject key k => answer F (k (is_root subject key))
  | AskRevoked principal key k => answer F (k (revoked_before principal key))
  | AskNonce key nonce k => answer F (k (nonce_used_before key nonce))
  end.

Lemma answer_chain `{Crypto} (F : Facts) claim family chain : ∀ first principal key,
  answer F (ask_chain claim family first principal key chain) = walk_chain claim family first principal key chain.
Proof.
  induction chain as [|i rest IH]; intros first principal key; [done|]. cbn.
  destruct (delegation i) as [d|]; [|done]. cbn.
  by repeat (case_match; cbn; try done).
Qed.

Lemma answer_judge `{Crypto} (F : Facts) claim signature :
  answer F (ask_judge claim signature) = judge claim signature.
Proof.
  unfold ask_judge, judge, judge_chain. destruct signature as [s|]; [|done].
  destruct (verifies s claim); [|done]. cbn [negb answer].
  destruct (nonce_used_before _ _); [done|]. destruct (is_some_and _ _); [done|].
  destruct (family_of _) as [family|]; [|done]. destruct (refuse_grant _ _ _); [done|].
  case_bool_decide.
  - case_bool_decide; [|done]. cbn. by destruct (is_root _ _).
  - destruct (cs_chain s); [done|]. apply answer_chain.
Qed.

(** ** Facts of the store *)

(** [Position::compare] *)
Definition sql_compare (x y : SqlValue) : comparison :=
  match x, y with
  | SqlInteger l, SqlInteger r => Z.compare l r
  | SqlText l, SqlText r => cmp l r
  | SqlNull, SqlNull => Eq
  | SqlNull, _ => Lt
  | _, SqlNull => Gt
  | SqlInteger _, _ => Lt
  | _, SqlInteger _ => Gt
  | _, _ => Eq
  end.

Fixpoint position_compare (xs ys : list SqlValue) : comparison :=
  match xs, ys with
  | x :: xs, y :: ys =>
      match sql_compare x y with Eq => position_compare xs ys | c => c end
  | _, _ => Eq
  end.

(** What [StoreFacts] changes while it answers: the verdicts of the pass, the links, the
    first error it read, and whether a revocation was not judged yet. *)
Record FactState := {
  fs_memo : gmap string Verdict;
  fs_links : gset string;
  fs_fault : option string;
  fs_incomplete : bool
}.

Definition fs_link (link : string) (f : FactState) : FactState :=
  {| fs_memo := fs_memo f; fs_links := {[link]} ∪ fs_links f; fs_fault := fs_fault f; fs_incomplete := fs_incomplete f |}.
Definition fs_remember (memo : gmap string Verdict) (f : FactState) : FactState :=
  {| fs_memo := memo; fs_links := fs_links f; fs_fault := fs_fault f; fs_incomplete := fs_incomplete f |}.
(** [get_or_insert_with] *)
Definition fs_fail (error : string) (f : FactState) : FactState :=
  {| fs_memo := fs_memo f; fs_links := fs_links f; fs_fault := Some (default error (fs_fault f));
     fs_incomplete := fs_incomplete f |}.
Definition fs_pending (f : FactState) : FactState :=
  {| fs_memo := fs_memo f; fs_links := fs_links f; fs_fault := fs_fault f; fs_incomplete := true |}.

(** What judging one claim gives: its verdict, the links it noted and the signature it is
    about; and the verdicts remembered, which stay also when it fails. *)
Definition JudgeResult : Type := result (Verdict * gset string * option ClaimSignature) string * gmap string Verdict.

Definition judgment_incomplete (v : Verdict) : bool :=
  match v with Held reason => starts_with "signature-judgment-incomplete:" reason | _ => false end.

Section facts.
Context `{SigCodec, Crypto}.
Context (s : SigTables) (roots : gset (string * string)).
(** [judge_claim] one level deeper; none at [MAX_CHAIN_DEPTH]. *)
Context (deeper : option (string → gmap string Verdict → JudgeResult)).
(** The claim being judged and its position. *)
Context (claim_id : string) (pos : list SqlValue).

(** [StoreFacts::before] *)
Definition before (other : string) : bool :=
  match st_claims s !! other with
  | Some c => bool_decide (position_compare (stc_position c) pos = Lt)
  | None => false
  end.

Definition verdict_of (id : string) (f : FactState) : Verdict * FactState :=
  match fs_memo f !! id with
  | Some v => (v, f)
  | None =>
      match deeper with
      | None => (Invalid "the chain is too deep or loops", f)
      | Some judge_deeper =>
          let '(r, memo) := judge_deeper id (fs_memo f) in
          let f := fs_remember memo f in
          let '(v, f) := match r with
            | Ok (v, _, _) => (v, f)
            | Err error => (Held ("signature-state-corrupt: " +:+ error), fs_fail error f)
            end in
          (v, fs_remember (<[id := v]> (fs_memo f)) f)
      end
  end.

(** [Facts::delegation] *)
Definition store_delegation (id : string) (f : FactState) : option Delegation * FactState :=
  let f := fs_link (delegation_link id) f in
  match claim_row s id with
  | None => (None, f)
  | Some row =>
      if negb (String.eqb (cr_kind row) KEY_GRANTED) then (None, f)
      else match value_get "fields" (cr_body row) ≫= from_fields with
      | None => (None, f)
      | Some grant =>
          let f := fs_link (key_link (cr_subject row) (kg_key grant)) f in
          let '(v, f) := verdict_of id f in
          (Some {| dg_subject := cr_subject row; dg_grant := grant; dg_verdict := v |}, f)
      end
  end.

(** [Facts::is_root] *)
Definition store_is_root (subject key : string) (f : FactState) : bool * FactState :=
  (bool_decide ((subject, key) ∈ roots), fs_link root_link f).

(** The revocations of a key that some candidate signs. *)
Definition revocations (principal key : string) : list string :=
  scan (filter (λ id, candidate_texts (st_candidates s) id ≠ []) (dom (filter
    (λ p : string * StoredClaim, cr_subject (stc_row p.2) = principal ∧ cr_kind (stc_row p.2) = KEY_REVOKED ∧
       field_key (cr_body (stc_row p.2)) = Some key) (st_claims s)))).

(** [revocations.into_iter().any(..)] *)
Fixpoint any_revokes (principal : string) (ids : list string) (f : FactState) : bool * FactState :=
  match ids with
  | [] => (false, f)
  | id :: ids =>
      if String.eqb id claim_id || negb (before id) then any_revokes principal ids f
      else match deeper with
      | None => any_revokes principal ids f
      | Some judge_deeper =>
          let '(r, memo) := judge_deeper id (fs_memo f) in
          let f := fs_remember memo f in
          let '(v, signature, f) := match r with
            | Ok (v, _, signature) => (v, signature, f)
            | Err error => (Held "signature-state-corrupt", None, fs_fail error f)
            end in
          let f := if judgment_incomplete v then fs_pending f else f in
          if bool_decide (v = Verified) &&
             is_some_and (λ signature, String.eqb (cs_signer signature) principal
                          || bool_decide (family_of (cs_signer signature) = Some Node)) signature
          then (true, f) else any_revokes principal ids f
      end
  end.

Definition store_revoked_before (principal key : string) (f : FactState) : bool * FactState :=
  any_revokes principal (revocations principal key) (fs_link (key_link principal key) f).

Definition store_nonce_used_before (key nonce : string) (f : FactState) : bool * FactState :=
  let others := filter (λ u : string * string * string, u.1.2 = key ∧ u.2 = nonce ∧ u.1.1 ≠ claim_id) (st_nonce_uses s) in
  (bool_decide (set_Exists (λ u : string * string * string, before u.1.1 = true) others),
   fs_link (nonce_link key nonce) f).

(** [judge] against these facts. *)
Fixpoint ask_store {A} (a : Ask A) (f : FactState) : A * FactState :=
  match a with
  | Answer x => (x, f)
  | AskDelegation i k => let '(d, f) := store_delegation i f in ask_store (k d) f
  | AskRoot subject key k => let '(b, f) := store_is_root subject key f in ask_store (k b) f
  | AskRevoked principal key k => let '(b, f) := store_revoked_before principal key f in ask_store (k b) f
  | AskNonce key nonce k => let '(b, f) := store_nonce_used_before key nonce f in ask_store (k b) f
  end.
End facts.

(** [judging::rank] *)
Definition rank (v : Verdict) : nat :=
  match v with Verified => 0 | Held _ => 1 | Invalid _ => 2 | Unsigned => 3 end.

(** [Verdict::name], [Verdict::reason], [verdict_from] *)
Definition verdict_name (v : Verdict) : string :=
  match v with Verified => "verified" | Unsigned => "unsigned" | Held _ => "held" | Invalid _ => "invalid" end.
Definition verdict_reason (v : Verdict) : option string :=
  match v with Held reason | Invalid reason => Some reason | _ => None end.
Definition verdict_from (name : string) (reason : option string) : Verdict :=
  if String.eqb name "verified" then Verified
  else if String.eqb name "unsigned" then Unsigned
  else if String.eqb name "held" then Held (default "" reason)
  else Invalid (default "" reason).

Section judging.
Context `{SigCodec, Crypto}.

Definition better (best : option (Verdict * ClaimSignature)) (v : Verdict) : bool :=
  is_none_or (λ b, Nat.ltb (rank v) (rank b.1)) best.

(** The loop of [judge_candidates]. *)
Fixpoint judge_each (s : SigTables) roots deeper (row : ClaimRow) pos (signatures : list ClaimSignature)
    (best : option (Verdict * ClaimSignature)) (f : FactState) : option (Verdict * ClaimSignature) * FactState :=
  match signatures with
  | [] => (best, f)
  | signature :: signatures =>
      let '(v, f) := ask_store s roots deeper (cr_id row) pos (ask_judge (judged_of row) (Some signature)) f in
      judge_each s roots deeper row pos signatures (if better best v then Some (v, signature) else best) f
  end.

Definition incomplete_dependency : Verdict :=
  Held "signature-judgment-incomplete: an authority dependency is pending".

Definition not_here (claim_id : string) : Verdict := Held ("claim " +:+ claim_id +:+ " is not here").

Definition judge_candidates (s : SigTables) roots deeper (row : ClaimRow) (signatures : list ClaimSignature)
    (memo : gmap string Verdict) : JudgeResult :=
  match stc_position <$> st_claims s !! cr_id row with
  | None => (Ok (not_here (cr_id row), ∅, None), memo)
  | Some pos =>
      let '(best, f) := judge_each s roots deeper row pos signatures None
        {| fs_memo := memo; fs_links := ∅; fs_fault := None; fs_incomplete := false |} in
      (match fs_fault f with
       | Some error => Err ("signature-state-corrupt: " +:+ error)
       | None =>
           if fs_incomplete f then Ok (incomplete_dependency, fs_links f, snd <$> best)
           else match best with
           | None => Ok (Unsigned, fs_links f, None)
           | Some (v, signature) => Ok (v, fs_links f, Some signature)
           end
       end, fs_memo f)
  end.

(** [judging::candidate_count], [judging::complete] *)
Definition candidate_count (s : SigTables) (claim_id : string) : Z :=
  default 0%Z (ca_counts (st_candidates s) !! claim_id).

Definition judging_complete (s : SigTables) (claim_id : string) : bool :=
  match st_judging s !! claim_id, ca_counts (st_candidates s) !! claim_id with
  | Some p, Some count =>
      jr_complete p && negb (jr_dirty p) && negb (jr_blocked p) && (jr_candidate_count p =? count)%Z
  | _, _ => false
  end.

(** [cached_verdict], [stored_signature] *)
Definition cached_verdict (s : SigTables) (claim_id : string) : option Verdict :=
  (λ r, verdict_from (vr_verdict r) (vr_reason r)) <$> st_verdicts s !! claim_id.

Definition stored_signature (s : SigTables) (claim_id : string) : result (option ClaimSignature) string :=
  read_signature (st_signatures s) claim_id.

(** [judging::validate_cached] *)
Definition validate_cached (s : SigTables) (row : ClaimRow) : result unit string :=
  match st_judging s !! cr_id row with
  | None => Err "Query returned no rows"
  | Some p =>
      if negb (String.eqb (jr_content_digest p) (content_digest row)) then
        Err "signature-state-corrupt: claim content differs from completed judgment"
      else match cached_verdict s (cr_id row) with
      | None => Err "signature-state-corrupt: completed judgment has no cached verdict"
      | Some cached =>
          if negb (bool_decide (jr_best_verdict p = Some (verdict_name cached)) &&
                   bool_decide (jr_best_reason p = verdict_reason cached)) then
            Err "signature-state-corrupt: cached verdict differs from completed judgment"
          else
            let? facade := stored_signature s (cr_id row) in
            match facade with
            | None => Err "signature-state-corrupt: completed judgment has no signature"
            | Some facade =>
                if bool_decide (jr_best_signature p = Some (sig_to_string facade)) then Ok ()
                else Err "signature-state-corrupt: signature facade differs from completed judgment"
            end
      end
  end.

(** [signature_candidates] *)
Fixpoint parse_all (texts : list string) : result (list ClaimSignature) string :=
  match texts with
  | [] => Ok []
  | text :: texts =>
      let? signature := parse_signature text in
      let? signatures := parse_all texts in
      Ok (signature :: signatures)
  end.

(** The answer for a claim with more candidates than a page. *)
Definition judge_many (s : SigTables) (row : ClaimRow) : result (Verdict * gset string * option ClaimSignature) string :=
  if judging_complete s (cr_id row) then
    let? _ := validate_cached s row in
    match cached_verdict s (cr_id row) with
    | None => Err ("signature-state-corrupt: completed candidate judgment has no verdict for " +:+ cr_id row)
    | Some v =>
        let? signature := stored_signature s (cr_id row) in
        match signature with
        | None => Err ("signature-state-corrupt: completed candidate judgment has no signature for " +:+ cr_id row)
        | Some signature => Ok (v, ∅, Some signature)
        end
    end
  else Ok (Held ("signature-judgment-incomplete: " +:+ cr_id row), ∅, None).

(** [judge_claim], where [deeper] judges what the claim relies on. *)
Definition judge_claim_with (s : SigTables) (roots : gset (string * string))
    (deeper : option (string → gmap string Verdict → JudgeResult)) (claim_id : string) (memo : gmap string Verdict)
    : JudgeResult :=
  match judging_available s with
  | Err error => (Err error, memo)
  | Ok false =>
      (let? reason := migration_unavailable s in
       Ok (Held (default "signature-state-corrupt: missing inventory state" reason), ∅, None), memo)
  | Ok true =>
      match claim_row s claim_id with
      | None => (Ok (not_here claim_id, ∅, None), memo)
      | Some row =>
          if (candidate_count s claim_id >? Z.of_nat CANDIDATE_PAGE)%Z then (judge_many s row, memo)
          else match parse_all (candidate_texts (st_candidates s) claim_id) with
          | Err error => (Err error, memo)
          | Ok signatures => judge_candidates s roots deeper row signatures memo
          end
      end
  end.

(** [judge_claim] where [levels] more levels may be opened below it. *)
Fixpoint judge_claim (s : SigTables) (roots : gset (string * string)) (levels : nat)
    : string → gmap string Verdict → JudgeResult :=
  judge_claim_with s roots (match levels with 0 => None | S levels => Some (judge_claim s roots levels) end).

(** [judge_claim] at the first level. *)
Definition judge_first (s : SigTables) (roots : gset (string * string)) : option (string → gmap string Verdict → JudgeResult) :=
  Some (judge_claim s roots (MAX_CHAIN_DEPTH - 1)).

(** ** A page of candidates *)

Definition Judgment : Type := Verdict * option ClaimSignature.

Record Advance := {
  ad_tables : SigTables;
  ad_memo : gmap string Verdict;
  ad_result : option Judgment;
  ad_used : nat
}.

Definition known_verdict (name : string) : bool :=
  bool_decide (name ∈ ["verified"; "held"; "invalid"; "unsigned"]).

(** Whether a fold that was begun goes on from its cursor. *)
Definition resumable (count : Z) (roots_digest : string) (p : JudgingRow) : bool :=
  negb (jr_complete p) && negb (jr_dirty p) && (jr_candidate_count p =? count)%Z &&
  String.eqb (jr_roots_digest p) roots_digest.

(** The row of a fold that begins: every column is set. *)
Definition begun (count : Z) (roots_digest content : string) : JudgingRow :=
  {| jr_candidate_count := count; jr_roots_digest := roots_digest; jr_content_digest := content;
     jr_last_signature := ""; jr_best_signature := None; jr_best_verdict := None; jr_best_reason := None;
     jr_complete := false; jr_dirty := false; jr_notified := false; jr_blocked := false |}.

(** What a fold has so far: the best verdict with the text of its signature. *)
Definition Best : Type := option (Verdict * string).

Definition best_of (p : JudgingRow) : Best :=
  match jr_best_signature p, jr_best_verdict p with
  | Some signature, Some verdict => Some (verdict_from verdict (jr_best_reason p), signature)
  | _, _ => None
  end.

(** The cursor, the best so far and whether a dependency was pending, with the row begun
    where there was none to go on from. *)
Definition begin_or_resume (count : Z) (roots_digest content : string) (previous : option JudgingRow)
    : result (string * Best * bool * JudgingRow) string :=
  match previous with
  | Some p =>
      if resumable count roots_digest p then
        match jr_best_verdict p with
        | Some name =>
            if known_verdict name then Ok (jr_last_signature p, best_of p, jr_blocked p, p)
            else Err ("signature-state-corrupt: unknown candidate accumulator verdict " +:+ name)
        | None => Ok (jr_last_signature p, best_of p, jr_blocked p, p)
        end
      else let p := begun count roots_digest content in Ok ("", None, false, p)
  | None => let p := begun count roots_digest content in Ok ("", None, false, p)
  end.

(** [signature>?2 ORDER BY signature LIMIT ?3] *)
Definition texts_after (texts : list string) (from : string) : list string :=
  List.filter (λ t, match cmp from t with Lt => true | _ => false end) texts.

(** [(rank(&verdict), &text) < (rank(old), old_text)] *)
Definition improves (v : Verdict) (text : string) (best : Best) : bool :=
  is_none_or (λ b : Verdict * string, Nat.ltb (rank v) (rank b.1)
    || Nat.eqb (rank v) (rank b.1) && match cmp text b.2 with Lt => true | _ => false end) best.

Definition with_progress (through : string) (best : Best) (finished blocked : bool) (p : JudgingRow) : JudgingRow :=
  {| jr_candidate_count := jr_candidate_count p; jr_roots_digest := jr_roots_digest p;
     jr_content_digest := jr_content_digest p; jr_last_signature := through;
     jr_best_signature := snd <$> best; jr_best_verdict := (λ b : Verdict * string, verdict_name b.1) <$> best;
     jr_best_reason := best ≫= (λ b : Verdict * string, verdict_reason b.1);
     jr_complete := finished; jr_dirty := jr_dirty p; jr_notified := jr_notified p; jr_blocked := blocked |}.

(** The judgment a finished fold gives. *)
Definition fold_result (claim_id : string) (count : Z) (best : Best) (blocked : bool) : result Judgment string :=
  match best with
  | None =>
      if (count =? 0)%Z then Ok (Unsigned, None)
      else Err ("signature-state-corrupt: nonempty candidate judgment has no result for " +:+ claim_id)
  | Some (v, text) =>
      let? signature := parse_signature text in
      Ok (if blocked then incomplete_dependency else v, Some signature)
  end.

(** [judging::advance] *)
Definition advance (s : SigTables) (roots : gset (string * string)) (row : ClaimRow) (memo : gmap string Verdict)
    (budget : nat) : result Advance string :=
  let id := cr_id row in
  let count := candidate_count s id in
  let? begun := begin_or_resume count (hash_roots roots) (content_digest row) (st_judging s !! id) in
  let '(from, best, blocked, p) := begun in
  let s := set_judging (<[id := p]> (st_judging s)) s in
  let texts := take budget (texts_after (candidate_texts (st_candidates s) id) from) in
  let? candidates := parse_all texts in
  let '(r, memo) := judge_candidates s roots (judge_first s roots) row candidates memo in
  let? judged := r in
  let '(v, links, signature) := judged in
  let blocked := blocked || judgment_incomplete v in
  let s := set_links (set_map (λ link, (link, id)) links ∪ st_links s) s in
  let best := match signature with
    | Some signature => let text := sig_to_string signature in if improves v text best then Some (v, text) else best
    | None => best
    end in
  let through := default from (last texts) in
  let finished := Nat.ltb (length texts) budget in
  let s := set_judging (<[id := with_progress through best finished blocked p]> (st_judging s)) s in
  if negb finished then
    Ok {| ad_tables := set_queue ({[id]} ∪ st_queue s) s; ad_memo := memo; ad_result := None; ad_used := length texts |}
  else
    let? result := fold_result id count best blocked in
    Ok {| ad_tables := s; ad_memo := memo; ad_result := Some result; ad_used := length texts |}.

(** ** The cached verdict *)

Definition with_notified (p : JudgingRow) : JudgingRow :=
  {| jr_candidate_count := jr_candidate_count p; jr_roots_digest := jr_roots_digest p;
     jr_content_digest := jr_content_digest p; jr_last_signature := jr_last_signature p;
     jr_best_signature := jr_best_signature p; jr_best_verdict := jr_best_verdict p;
     jr_best_reason := jr_best_reason p; jr_complete := jr_complete p; jr_dirty := jr_dirty p;
     jr_notified := true; jr_blocked := jr_blocked p |}.

Definition verdict_row (v : Verdict) (signature : ClaimSignature) : VerdictRow :=
  {| vr_verdict := verdict_name v; vr_reason := verdict_reason v; vr_signer := cs_signer signature;
     vr_on_behalf := cs_on_behalf signature |}.

#[local] Instance ClaimSignature_eq_dec : EqDecision ClaimSignature.
Proof. solve_decision. Defined.

(** [write_verdict_tx]: the tables, and whether what relies on the claim is to be queued. *)
Definition write_verdict_tx (claim_id : string) (signature : ClaimSignature) (v : Verdict) (s : SigTables)
    : result (SigTables * bool) string :=
  let previous := cached_verdict s claim_id in
  let? previous_signature := stored_signature s claim_id in
  let s := set_signatures (alter (λ _, signature_row signature (sig_to_string signature)) claim_id (st_signatures s)) s in
  let s := set_verdicts (<[claim_id := verdict_row v signature]> (st_verdicts s)) s in
  let notify := match st_judging s !! claim_id with Some p => negb (jr_notified p) | None => false end in
  let ready := negb (judgment_incomplete v) in
  let s := if ready then set_judging (alter with_notified claim_id (st_judging s)) s else s in
  Ok (s, negb (bool_decide (previous = Some v)) || negb (bool_decide (previous_signature = Some signature)) ||
         notify && ready).

(** ** A pass over the queue *)

Record Pass := { ps_tables : SigTables; ps_memo : gmap string Verdict; ps_candidates : nat; ps_judged : nat }.

(** One claim of the queue, while the pass may still judge candidates. *)
Definition judge_queued (roots : gset (string * string)) (claim_id : string) (a : Pass) : result Pass string :=
  if Nat.leb CANDIDATE_PAGE (ps_candidates a) then Ok a
  else
    let s := set_queue (st_queue (ps_tables a) ∖ {[claim_id]}) (ps_tables a) in
    match claim_row s claim_id with
    | None => Ok {| ps_tables := s; ps_memo := ps_memo a; ps_candidates := ps_candidates a; ps_judged := ps_judged a |}
    | Some row =>
        let? adv := advance s roots row (ps_memo a) (CANDIDATE_PAGE - ps_candidates a) in
        let candidates := (ps_candidates a + Nat.max (ad_used adv) 1)%nat in
        match ad_result adv with
        | Some (v, Some signature) =>
            let? written := write_verdict_tx claim_id signature v (ad_tables adv) in
            let '(s, changed) := written in
            Ok {| ps_tables := if changed then queue_affected_by_row_tx row s else s; ps_memo := ad_memo adv;
                  ps_candidates := candidates; ps_judged := S (ps_judged a) |}
        | _ => Ok {| ps_tables := ad_tables adv; ps_memo := ad_memo adv; ps_candidates := candidates;
                     ps_judged := ps_judged a |}
        end
    end.

Fixpoint judge_all (roots : gset (string * string)) (ids : list string) (a : Pass) : result Pass string :=
  match ids with
  | [] => Ok a
  | id :: ids => let? a := judge_queued roots id a in judge_all roots ids a
  end.

(** The trust roots are compared with those of the last pass. *)
Definition check_roots (roots : gset (string * string)) (s : SigTables) : SigTables :=
  if bool_decide (st_verdict_roots s = Some (hash_roots roots)) then s
  else set_verdict_roots (Some (hash_roots roots)) (queue_linked_tx root_link s).

(** A fresh claim is queued, with whatever it changes. *)
Definition queue_fresh (s : SigTables) (claim_id : string) : SigTables :=
  let s := set_fresh (st_fresh s ∖ {[claim_id]}) s in
  let s := queue_affected_by_tx claim_id s in
  set_queue ({[claim_id]} ∪ st_queue s) s.

(** One turn of the loop of [judge_claims_inner], a transaction: the tables, how many
    claims were judged, and whether there was nothing to do. *)
Definition judge_turn (check track : bool) (roots : gset (string * string)) (s : SigTables)
    : result (SigTables * nat * bool) string :=
  let s := if check || track then check_roots roots s else s in
  let fresh := take JUDGE_CHUNK (scan (st_fresh s)) in
  let s := foldl queue_fresh s fresh in
  let queued := take JUDGE_CHUNK (scan (st_queue s)) in
  let? a := judge_all roots queued {| ps_tables := s; ps_memo := ∅; ps_candidates := 0; ps_judged := 0 |} in
  let s := ps_tables a in
  let s := if track && negb (Nat.eqb (ps_candidates a) 0) then note_work (Z.of_nat (ps_candidates a)) s else s in
  let idle := bool_decide (fresh = []) && bool_decide (queued = []) in
  let s := if idle then finish_judging s else s in
  Ok (s, ps_judged a, idle).

(** The loop, where the trust roots stay as they are. *)
Fixpoint judge_loop (fuel : nat) (check track : bool) (roots : gset (string * string)) (judged : nat) (s : SigTables)
    : option (result (SigTables * nat) string) :=
  match fuel with
  | 0 => None
  | S fuel =>
      match judge_turn check track roots s with
      | Err error => Some (Err error)
      | Ok (s, n, true) => Some (Ok (s, judged + n)%nat)
      | Ok (s, n, false) => judge_loop fuel check track roots (judged + n)%nat s
      end
  end.

(** [judge_claims_inner] with [one_loan] false. *)
Definition judge_claims_inner (fuel : nat) (check : bool) (roots : gset (string * string)) (s : SigTables)
    : option (result (SigTables * nat) string) :=
  match migration_state s with
  | Err error => Some (Err error)
  | Ok m =>
      if bool_decide (mg_fault m ≠ None) || negb (bool_decide (mg_phase m ∈ ["done"; "judging"])) then Some (Ok (s, 0))
      else
        let track := negb (migration_done m) in
        let s := if check then check_roots roots s else s in
        if negb track && bool_decide (st_fresh s = ∅) && bool_decide (st_queue s = ∅) then Some (Ok (s, 0))
        else judge_loop fuel check track roots 0 s
  end.

Lemma judge_claims_pending fuel check roots s m :
  migration_state s = Ok m → migration_done m = true → st_fresh s ≠ ∅ ∨ st_queue s ≠ ∅ →
  judge_claims_inner fuel check roots s = judge_loop fuel check false roots 0 (if check then check_roots roots s else s).
Proof.
  intros Hm Hdone Hpending. unfold judge_claims_inner. rewrite Hm, Hdone. unfold migration_done in Hdone. bool_prop.
  destruct (String.eqb_spec (mg_phase m) "done") as [->|]; [|done].
  rewrite bool_decide_eq_false_2 by auto. rewrite bool_decide_eq_true_2 by (left). cbn [orb negb andb].
  set (s' := if check then _ else s).
  assert (st_fresh s' ≠ ∅ ∨ st_queue s' ≠ ∅) as [Hne|Hne].
  { unfold s'. destruct check; [|done]. unfold check_roots. case_bool_decide; [done|].
    destruct Hpending as [|Hq]; [by left|]. right. cbn. set_solver. }
  - by rewrite (bool_decide_eq_false_2 (st_fresh s' = ∅)).
  - rewrite (bool_decide_eq_false_2 (st_queue s' = ∅)) by done. by rewrite andb_false_r.
Qed.

(** ** What is served *)

(** [judging::unavailable] *)
Definition judging_unavailable (s : SigTables) (claim_id : string) : option string :=
  let count := candidate_count s claim_id in
  let pending := match st_judging s !! claim_id with
    | Some p => negb (jr_complete p) || jr_dirty p || jr_blocked p
    | None => false
    end in
  if pending || (count >? Z.of_nat CANDIDATE_PAGE)%Z && negb (judging_complete s claim_id) then
    Some ("signature-judgment-incomplete: " +:+ claim_id +:+ " has " +:+ decimal count +:+ " candidates")
  else None.

(** [Store::claim_verdict] *)
Definition claim_verdict (s : SigTables) (claim_id : string) : result Verdict string :=
  let? active := legacy_active s in
  if active then
    Ok (default Unsigned ((λ r, verdict_from (vr_verdict r) (vr_reason r)) <$> lg_verdicts (st_legacy s) !! claim_id))
  else
    let? reason := migration_unavailable s in
    match reason with
    | Some reason => Ok (Held reason)
    | None =>
        match judging_unavailable s claim_id with
        | Some reason => Ok (Held reason)
        | None => Ok (default Unsigned (cached_verdict s claim_id))
        end
    end.

(** [serving_signature] *)
Definition serving_signature (s : SigTables) (claim_id : string) : result (option ClaimSignature) string :=
  let? active := legacy_active s in
  if active then read_signature (lg_signatures (st_legacy s)) claim_id
  else
    let? reason := migration_unavailable s in
    match reason with
    | Some reason => Err reason
    | None =>
        match judging_unavailable s claim_id with
        | Some reason => Err reason
        | None => stored_signature s claim_id
        end
    end.

(** ** Rechecking *)

Record VerdictMismatch := { vm_claim_id : string; vm_cached : option string; vm_recomputed : string }.

(** The cache is emptied and every claim with a candidate is fresh. *)
Definition emptied (s : SigTables) : SigTables :=
  set_verdict_roots None (set_fresh (set_map fst (dom (ca_rows (st_candidates s))) ∪ st_fresh s)
    (set_queue ∅ (set_links ∅ (set_verdicts ∅ (set_judging ∅ s))))).

(** The claims whose cached verdict differed, in the order of their identities. *)
Definition mismatches (cached recomputed : gmap string string) : list VerdictMismatch :=
  omap (λ id,
    let was := cached !! id in
    let now := default "unsigned" (recomputed !! id) in
    if String.eqb (default "unsigned" was) now then None
    else Some {| vm_claim_id := id; vm_cached := was; vm_recomputed := now |})
    (bset_of_list (elements (dom cached) ++ elements (dom recomputed))%list : list string).

(** [Store::recheck_claim_verdicts].  It refuses to run before bootstrap is done, so the
    earlier projection does not serve and [judge_claims] is [judge_claims_inner]. *)
Definition recheck_claim_verdicts (fuel : nat) (roots : gset (string * string)) (s : SigTables)
    : option (result (SigTables * list VerdictMismatch) string) :=
  match migration_unavailable s with
  | Err error => Some (Err error)
  | Ok (Some reason) => Some (Err reason)
  | Ok None =>
      match judge_claims_inner fuel true roots (emptied s) with
      | None => None
      | Some (Err error) => Some (Err error)
      | Some (Ok (s', _)) => Some (Ok (s', mismatches (vr_verdict <$> st_verdicts s) (vr_verdict <$> st_verdicts s')))
      end
  end.
End judging.

(** ** A store with a person, a device and the device's own revocation *)

(** The demonstration's codec: a signature is written as lists of strings, each character
    after a [c], each string ended by an [s] and each list by an [l]. *)
Fixpoint string_text (t rest : string) : string :=
  match t with "" => String "s" rest | String a t => String "c" (String a (string_text t rest)) end.
Fixpoint list_text (l : list string) (rest : string) : string :=
  match l with [] => String "l" rest | t :: l => string_text t (list_text l rest) end.
Fixpoint lists_text (ls : list (list string)) : string :=
  match ls with [] => "" | l :: ls => list_text l (lists_text ls) end.

Fixpoint text_lists (t : string) (chars : list ascii) (strings : list string) : option (list (list string)) :=
  match t with
  | "" => match chars, strings with [], [] => Some [] | _, _ => None end
  | String k t =>
      if Ascii.eqb k "l" then cons strings <$> text_lists t [] []
      else if Ascii.eqb k "s" then text_lists t [] (strings ++ [string_of chars])
      else match t with "" => None | String a t => text_lists t (chars ++ [a]) strings end
  end%list.

Fixpoint bits_text (p : positive) : string :=
  match p with xH => "" | xO p => String "0" (bits_text p) | xI p => String "1" (bits_text p) end.
Fixpoint text_bits (t : string) : positive :=
  match t with "" => xH | String c t => if Ascii.eqb c "0" then xO (text_bits t) else xI (text_bits t) end.

Definition signature_lists (s : ClaimSignature) : list (list string) :=
  [[cs_signer s]; option_list (cs_on_behalf s); [cs_key s]; cs_chain s; [cs_nonce s];
   [bits_text (encode (cs_signed_at s))]; [cs_signature s]; option_list (cs_format s); cs_signed_fields s].
Definition lists_signature (ls : list (list string)) : option ClaimSignature :=
  match ls with
  | [[signer]; on_behalf; [key]; chain; [nonce]; [at_ms]; [signature]; format; fields] =>
      z ← decode (text_bits at_ms);
      Some (Build_ClaimSignature signer (head on_behalf) key chain nonce z signature (head format) fields)
  | _ => None
  end.

Definition demo_codec : SigCodec :=
  {| sig_to_string s := lists_text (signature_lists s);
     sig_from_str t := text_lists t [] [] ≫= lists_signature;
     hash_content domain subject kind actor body := join "|" [domain; subject; kind; default "" actor];
     hash_roots roots := pretty (size roots);
     scan := elements |}.

Lemma text_bits_text p : text_bits (bits_text p) = p.
Proof. by induction p as [p IH|p IH|]; cbn; rewrite ?IH. Qed.

Lemma text_lists_string t : ∀ rest chars strings,
  text_lists (string_text t rest) chars strings = text_lists rest [] (strings ++ [string_of (chars ++ bytes_of t)])%list.
Proof.
  induction t as [|a t IH]; intros rest chars strings; cbn; [by rewrite app_nil_r|].
  rewrite IH. by rewrite <- (assoc_L app).
Qed.

Lemma text_lists_list l : ∀ rest strings,
  text_lists (list_text l rest) [] strings = cons (strings ++ l)%list <$> text_lists rest [] [].
Proof.
  induction l as [|t l IH]; intros rest strings; cbn; [by rewrite app_nil_r|].
  rewrite text_lists_string, IH. cbn [app]. rewrite string_of_bytes_of. by rewrite <- (assoc_L app).
Qed.

Lemma text_lists_text ls : text_lists (lists_text ls) [] [] = Some ls.
Proof. induction ls as [|l ls IH]; [done|]. cbn [lists_text]. rewrite text_lists_list, IH. done. Qed.

Lemma demo_codec_laws : @SigCodecLaws demo_codec.
Proof.
  split; [| |done]; intros s; [|by destruct s as [[]]]. cbn [sig_from_str sig_to_string demo_codec]. rewrite text_lists_text. cbn.
  rewrite text_bits_text, decode_encode. destruct s as [? [] ? ? ? ? ? [] ?]; done.
Qed.

(** A toy scheme with short keys: every key decodes to 32 bytes, and the one signature that
    verifies is [ok]. *)
Definition toy_crypto : Crypto :=
  {| base64url_decode s := Some (if String.eqb s "ok" then bytes_of s else replicate 32 "k"%char);
     ed25519_verify _ _ signature := bool_decide (signature = bytes_of "ok");
     p256_verify _ _ _ := false;
     json_to_string _ := "" |}.

Definition toy_root_grant : KeyGrant :=
  {| kg_key := "r"; kg_role := Root; kg_issuer := "host/h"; kg_issuer_key := "n"; kg_label := None |}.
Definition toy_device_grant : KeyGrant :=
  {| kg_key := "d"; kg_role := Device; kg_issuer := "person/a"; kg_issuer_key := "r"; kg_label := None |}.

#[local] Instance Number_eq_dec : EqDecision Number.
Proof. solve_decision. Defined.
#[local] Instance Value_eq_dec : EqDecision Value.
Proof.
  refine (fix go (v w : Value) : Decision (v = w) :=
    match v, w with
    | Null, Null => left _
    | VBool a, VBool b => cast_if (decide (a = b))
    | VNumber a, VNumber b => cast_if (decide (a = b))
    | VString a, VString b => cast_if (decide (a = b))
    | Array l, Array m => cast_if (@list_eq_dec _ go l m)
    | Object l, Object m => cast_if (@list_eq_dec _ (@prod_eq_dec _ _ _ go) l m)
    | _, _ => right _
    end); clear go; congruence.
Defined.
#[local] Instance SqlValue_eq_dec : EqDecision SqlValue.
Proof. solve_decision. Defined.
#[local] Instance ClaimRow_eq_dec : EqDecision ClaimRow.
Proof. solve_decision. Defined.
#[local] Instance StoredClaim_eq_dec : EqDecision StoredClaim.
Proof. solve_decision. Defined.
#[local] Instance SignatureRow_eq_dec : EqDecision SignatureRow.
Proof. solve_decision. Defined.
#[local] Instance VerdictRow_eq_dec : EqDecision VerdictRow.
Proof. solve_decision. Defined.
#[local] Instance JudgingRow_eq_dec : EqDecision JudgingRow.
Proof. solve_decision. Defined.
#[local] Instance MigrationRow_eq_dec : EqDecision MigrationRow.
Proof. solve_decision. Defined.
#[local] Instance LegacyTables_eq_dec : EqDecision LegacyTables.
Proof. solve_decision. Defined.
#[local] Instance CandidateTables_eq_dec : EqDecision CandidateTables.
Proof. solve_decision. Defined.
#[local] Instance SigTables_eq_dec : EqDecision SigTables.
Proof. solve_decision. Defined.

Section demo.
#[local] Existing Instance demo_codec.
#[local] Existing Instance toy_crypto.

Definition demo_claim (id kind : string) (n : Z) (fields : list (string * Value)) : StoredClaim :=
  {| stc_row := {| cr_id := id; cr_subject := "person/a"; cr_kind := kind; cr_actor := None;
                   cr_body := Object [("fields", Object fields)] |};
     stc_position := [SqlInteger n]; stc_origin := Some "h" |}.

Definition demo_g1 : StoredClaim := demo_claim "g1" KEY_GRANTED 1 (grant_fields toy_root_grant).
Definition demo_g2 : StoredClaim := demo_claim "g2" KEY_GRANTED 2 (grant_fields toy_device_grant).
Definition demo_note : StoredClaim := demo_claim "c3" "note.written" 3 [].
Definition demo_revoked : StoredClaim := demo_claim "r4" KEY_REVOKED 4 [("key", VString "d")].

Definition demo_sign (c : StoredClaim) (signer key : string) (chain : list string) : ClaimSignature :=
  let nonce := cr_id (stc_row c) in
  {| cs_signer := signer; cs_on_behalf := None; cs_key := key; cs_chain := chain; cs_nonce := nonce;
     cs_signed_at := 1; cs_signature := "ok";
     cs_format := None; cs_signed_fields := [] |}.

Definition no_legacy : LegacyTables :=
  {| lg_signatures := ∅; lg_verdicts := ∅; lg_links := ∅; lg_queue := ∅; lg_fresh := ∅ |}.
Definition done_row : MigrationRow :=
  {| mg_phase := "done"; mg_cursor := 0; mg_legacy_through := 0; mg_envelopes_through := 0; mg_fault := None;
     mg_legacy_fault := None; mg_envelope_row := 0; mg_claim_offset := 0; mg_serving_legacy := false;
     mg_legacy_present := false; mg_completed_work := 0 |}.
Definition empty_tables (claims : gmap string StoredClaim) : SigTables :=
  {| st_claims := claims; st_candidates := {| ca_rows := ∅; ca_sources := ∅; ca_counts := ∅; ca_writer_counts := ∅ |};
     st_signatures := ∅; st_nonce_uses := ∅; st_judging := ∅; st_verdicts := ∅; st_links := ∅; st_queue := ∅;
     st_fresh := ∅; st_expected := ∅; st_migration := done_row; st_legacy := no_legacy; st_verdict_roots := None |}.

Definition demo_roots : gset (string * string) := {[("host/h", "n")]}.

(** The root grant signed by the node, the device grant by the root, a note by the device. *)
Definition demo_store : SigTables :=
  store_candidate_tx "c3" (demo_sign demo_note "person/a" "d" ["g2"; "g1"]) "h" false
  (store_candidate_tx "g2" (demo_sign demo_g2 "person/a" "r" ["g1"]) "h" false
  (store_candidate_tx "g1" (demo_sign demo_g1 "host/h" "n" []) "h" false
    (empty_tables {["g1" := demo_g1; "g2" := demo_g2; "c3" := demo_note; "r4" := demo_revoked]}))).

(** And the device's revocation of itself. *)
Definition self_revoked : SigTables :=
  store_candidate_tx "r4" (demo_sign demo_revoked "person/a" "d" ["g2"; "g1"]) "h" false demo_store.

(** The tables after the first turn of the loop. *)
Definition turned (s : SigTables) : SigTables :=
  match judge_turn false false demo_roots s with Ok (s, _, _) => s | Err _ => s end.

Definition turn_report (s : SigTables) : option (nat * bool) :=
  match judge_turn false false demo_roots s with Ok (_, n, idle) => Some (n, idle) | Err _ => None end.

Lemma turn_of_report s n idle :
  turn_report s = Some (n, idle) → judge_turn false false demo_roots s = Ok (turned s, n, idle).
Proof. unfold turn_report, turned. destruct (judge_turn _ _ _ s) as [[[s' m] i]|]; [|done]. by intros [= -> ->]. Qed.

Lemma first_turn : judge_turn false false demo_roots self_revoked = Ok (turned self_revoked, 4, false).
Proof. apply turn_of_report. vm_compute. reflexivity. Qed.

Lemma second_turn : judge_turn false false demo_roots (turned self_revoked) = Ok (turned (turned self_revoked), 2, false).
Proof. apply turn_of_report. vm_compute. reflexivity. Qed.

Lemma turned_again : turned (turned (turned self_revoked)) = turned (turned self_revoked).
Proof. apply (bool_decide_unpack _). vm_compute. exact I. Qed.

Lemma later_turn : judge_turn false false demo_roots (turned (turned self_revoked)) =
  Ok (turned (turned self_revoked), 2, false).
Proof. rewrite <- turned_again at 2. apply turn_of_report. vm_compute. reflexivity. Qed.

Lemma loop_forever fuel : ∀ n, judge_loop fuel false false demo_roots n (turned (turned self_revoked)) = None.
Proof.
  induction fuel as [|fuel IH]; intros n; [done|]. cbn [judge_loop]. rewrite later_turn. apply IH.
Qed.

Lemma self_revoked_forever fuel : judge_claims_inner fuel false demo_roots self_revoked = None.
Proof.
  rewrite (judge_claims_pending fuel false demo_roots self_revoked done_row);
    [|vm_compute; reflexivity|done|left; apply (bool_decide_unpack _); vm_compute; exact I].
  destruct fuel as [|[|fuel]]; cbn [judge_loop]; [done|by rewrite first_turn|].
  rewrite first_turn, second_turn. apply loop_forever.
Qed.

(** C40: the judging loop does not end on every store: there is one, of four claims and four
    signatures, in which a revocation of a key is signed with the key it revokes, and on
    which no number of turns empties the queue (shown with a toy signature scheme and a toy
    codec in the place of the real ones).  The revocation's verdict is linked to the key it
    revokes, so each time it is judged it queues itself again. *)
Theorem self_revocation_never_settles :
  ∃ (s : SigTables) roots revocation (c : StoredClaim) (signature : ClaimSignature),
    st_claims s !! revocation = Some c ∧ cr_kind (stc_row c) = KEY_REVOKED ∧
    (revocation, sig_to_string signature) ∈ dom (ca_rows (st_candidates s)) ∧
    cs_signer signature = cr_subject (stc_row c) ∧ field_key (cr_body (stc_row c)) = Some (cs_key signature) ∧
    (size (st_claims s) = 4 ∧ size (dom (ca_rows (st_candidates s))) = 4)%nat ∧
    ∀ fuel, judge_claims_inner fuel false roots s = None.
Proof.
  exists self_revoked, demo_roots, "r4", demo_revoked, (demo_sign demo_revoked "person/a" "d" ["g2"; "g1"]).
  split_and!; [by vm_compute|done|apply (bool_decide_unpack _); vm_compute; exact I|done|done|by vm_compute|by vm_compute|apply self_revoked_forever].
Qed.
End demo.
