(* ===== verification/Verdicts.v ===== *)
(** * Verdicts settle on the reference fold
    (crates/smallclaims/src/store/principals.rs, [recheck_claim_verdicts] included)

    The reference is the fold the module's comment names: a claim's verdict is [judge]
    applied to each of its candidates with facts read from the claims themselves, the best
    kept, with no cache, no pages and no queue.  Where the authority graph has no cycle, is
    no deeper than the store follows, and its grants and revocations have no more signatures
    than are judged at once ([tame]), the store's judging with its memory of the pass is
    that reference, the loop over the queue ends, and it leaves every signed claim with the
    reference's verdict. *)

From stdpp Require Import gmap fin_sets.
From S2P Require Import Prelude BTree Json Principal Signatures Judging.

Local Open Scope claims_scope.
Local Open Scope string_scope.

Section reference.
Context `{SigCodec, Crypto}.

(** ** The reference *)

(** Facts about the claims before [claim_id], where [known] gives the verdict of every other
    claim and the signature it is about. *)
Definition ref_facts (s : SigTables) (roots : gset (string * string))
    (known : string → Verdict * option ClaimSignature) (claim_id : string) (pos : list SqlValue) : Facts :=
  {| delegation i :=
       row ← claim_row s i;
       if String.eqb (cr_kind row) KEY_GRANTED then
         grant ← value_get "fields" (cr_body row) ≫= from_fields;
         Some {| dg_subject := cr_subject row; dg_grant := grant; dg_verdict := (known i).1 |}
       else None;
     is_root subject key := bool_decide ((subject, key) ∈ roots);
     revoked_before principal key :=
       existsb (λ id, negb (String.eqb id claim_id) && before s pos id && bool_decide ((known id).1 = Verified) &&
         is_some_and (λ signature, String.eqb (cs_signer signature) principal
                      || bool_decide (family_of (cs_signer signature) = Some Node)) (known id).2)
         (revocations s principal key);
     nonce_used_before key nonce :=
       bool_decide (set_Exists (λ u : string * string * string, before s pos u.1.1 = true)
         (filter (λ u : string * string * string, u.1.2 = key ∧ u.2 = nonce ∧ u.1.1 ≠ claim_id) (st_nonce_uses s))) |}.

(** The first of the best. *)
Definition keep_best (verdict : ClaimSignature → Verdict) (best : option (Verdict * ClaimSignature))
    (signature : ClaimSignature) : option (Verdict * ClaimSignature) :=
  if better best (verdict signature) then Some (verdict signature, signature) else best.

Definition judgment_of (best : option (Verdict * ClaimSignature)) : Verdict * option ClaimSignature :=
  match best with Some (v, signature) => (v, Some signature) | None => (Unsigned, None) end.

(** The candidates of a claim. *)
Definition candidates_of (s : SigTables) (claim_id : string) : list ClaimSignature :=
  match parse_all (candidate_texts (st_candidates s) claim_id) with Ok l => l | Err _ => [] end.

Definition ref_verdict (s : SigTables) roots known (c : StoredClaim) (signature : ClaimSignature) : Verdict :=
  @judge _ (ref_facts s roots known (cr_id (stc_row c)) (stc_position c)) (judged_of (stc_row c)) (Some signature).

(** The fold, through delegations and revocations [n] deep. *)
Fixpoint ref_judge (s : SigTables) (roots : gset (string * string)) (n : nat) (claim_id : string)
    : Verdict * option ClaimSignature :=
  match n with
  | 0 => (Unsigned, None)
  | S n =>
      match st_claims s !! claim_id with
      | None => (not_here claim_id, None)
      | Some c => judgment_of (foldl (keep_best (ref_verdict s roots (ref_judge s roots n) c)) None (candidates_of s claim_id))
      end
  end.
End reference.

(** ** Authority without cycles *)

Definition grant_of (c : StoredClaim) : option KeyGrant :=
  if String.eqb (cr_kind (stc_row c)) KEY_GRANTED then value_get "fields" (cr_body (stc_row c)) ≫= from_fields else None.

(** No more candidates than are judged at once. *)
Definition few (s : SigTables) (c : string) : Prop := (length (candidate_texts (st_candidates s) c) <= CANDIDATE_PAGE)%nat.

(** A height below which every claim finds what its verdict relies on: the delegations its
    signatures name, and the revocations of the keys those grant. *)
Record tame `{SigCodec} (s : SigTables) (h : string → nat) : Prop := {
  tm_ids c x : st_claims s !! c = Some x → cr_id (stc_row x) = c;
  tm_wf : candidates_wf (st_candidates s);
  tm_texts k : k ∈ dom (ca_rows (st_candidates s)) → ∃ signature, k.2 = sig_to_string signature;
  tm_few c x : st_claims s !! c = Some x → cr_kind (stc_row x) = KEY_GRANTED ∨ cr_kind (stc_row x) = KEY_REVOKED → few s c;
  tm_chain c signature i x :
    (c, sig_to_string signature) ∈ dom (ca_rows (st_candidates s)) → i ∈ cs_chain signature →
    st_claims s !! i = Some x → cr_kind (stc_row x) = KEY_GRANTED → (h i < h c)%nat;
  tm_revoked c signature i x g r y k :
    (c, sig_to_string signature) ∈ dom (ca_rows (st_candidates s)) → i ∈ cs_chain signature →
    st_claims s !! i = Some x → grant_of x = Some g →
    st_claims s !! r = Some y → cr_kind (stc_row y) = KEY_REVOKED → field_key (cr_body (stc_row y)) = Some k →
    key_link (cr_subject (stc_row y)) k = key_link (cr_subject (stc_row x)) (kg_key g) → (h r < h c)%nat;
  tm_depth c : (h c <= MAX_CHAIN_DEPTH)%nat
}.

(** ** Facts that agree where they are asked *)

(** What a chain can ask of its facts. *)
Definition agree_on (F F' : Facts) (chain : list string) : Prop :=
  ∀ i, i ∈ chain → @delegation F i = @delegation F' i ∧
    ∀ d, @delegation F i = Some d →
      @revoked_before F (dg_subject d) (kg_key (dg_grant d)) = @revoked_before F' (dg_subject d) (kg_key (dg_grant d)).

Lemma walk_chain_agree `{Crypto} (F F' : Facts) claim family chain : agree_on F F' chain → ∀ first principal key,
  @walk_chain F claim family first principal key chain = @walk_chain F' claim family first principal key chain.
Proof.
  intros Hag. induction chain as [|i rest IH]; intros first principal key; [done|]. cbn [walk_chain].
  destruct (Hag i ltac:(left)) as [Hd Hrev]. rewrite <- Hd. destruct (@delegation F i) as [d|]; [|done].
  destruct (String.eqb_spec (dg_subject d) principal) as [<-|]; [|done].
  destruct (String.eqb_spec (kg_key (dg_grant d)) key) as [<-|]; [|done].
  rewrite (Hrev d eq_refl). cbn [negb orb].
  repeat (case_match; try done). apply IH. intros j Hj. apply Hag. by right.
Qed.

Lemma judge_agree `{Crypto} (F F' : Facts) claim signature :
  (∀ k n, @nonce_used_before F k n = @nonce_used_before F' k n) → (∀ p k, @is_root F p k = @is_root F' p k) →
  agree_on F F' (cs_chain signature) → @judge _ F claim (Some signature) = @judge _ F' claim (Some signature).
Proof.
  intros Hn Hr Hag. unfold judge. rewrite Hn.
  destruct (negb (verifies signature claim)); [done|]. destruct (nonce_used_before _ _); [done|].
  destruct (is_some_and _ _); [done|]. destruct (family_of _) as [family|]; [|done].
  destruct (refuse_grant _ _ _); [done|]. destruct (bool_decide (family = Node)).
  - by rewrite Hr.
  - unfold judge_chain. destruct (cs_chain signature); [done|]. by apply walk_chain_agree.
Qed.

Lemma texts_after_split (l : list string) t (l' : list string) : bset_wf (l ++ t :: l')%list → texts_after (l ++ t :: l')%list t = l'.
Proof.
  intros Hwf. unfold texts_after. rewrite List.filter_app. cbn [List.filter]. rewrite cmp_refl.
  assert (∀ u, u ∈ l → lt_ord u t) as Hl.
  { intros u Hu. apply list_elem_of_split in Hu as (l1 & l2 & ->). rewrite <- (assoc_L app) in Hwf. cbn in Hwf.
    apply StronglySorted_app_1_elem_of with (l1 ++ [u])%list (l2 ++ t :: l')%list.
    - by rewrite <- (assoc_L app).
    - set_solver.
    - set_solver. }
  assert (∀ u, u ∈ l' → lt_ord t u) as Hl'.
  { intros u Hu. apply StronglySorted_app_1_elem_of with (l ++ [t])%list l'; [by rewrite <- (assoc_L app)|set_solver..]. }
  clear Hwf. replace (List.filter _ l) with (@nil string).
  - cbn. induction l' as [|u l' IH]; [done|]. cbn. rewrite (Hl' u) by left. f_equal. apply IH. intros v Hv. apply Hl'. by right.
  - symmetry. induction l as [|u l IH]; [done|]. cbn.
    pose proof (Hl u ltac:(left)) as Hu. destruct (cmp t u) eqn:E; [| |].
    + apply IH. intros v Hv. apply Hl. by right.
    + exfalso. by apply (lt_ord_asym t u).
    + apply IH. intros v Hv. apply Hl. by right.
Qed.

(** ** The reference is a fixed point *)

Section stable.
Context `{SigCodecLaws, Crypto}.
Context (s : SigTables) (roots : gset (string * string)) (h : string → nat).
Hypothesis Htame : tame s h.

Lemma parse_signature_text signature : parse_signature (sig_to_string signature) = Ok signature.
Proof. unfold parse_signature. by rewrite sig_roundtrip. Qed.

Lemma parse_all_texts l : parse_all (sig_to_string <$> l) = Ok l.
Proof. induction l as [|a l IH]; [done|]. cbn. by rewrite parse_signature_text, IH. Qed.

(** Texts of signatures are texts of exactly one list of them. *)
Lemma texts_of_signatures (texts : list string) :
  (∀ t, t ∈ texts → ∃ signature, t = sig_to_string signature) → ∃ l, texts = sig_to_string <$> l.
Proof.
  induction texts as [|t texts IH]; intros Ht; [by exists []|].
  destruct IH as [l ->]; [intros t' Ht'; apply Ht; by right|].
  destruct (Ht t ltac:(left)) as [signature ->]. by exists (signature :: l).
Qed.

Lemma candidate_texts_signatures c :
  candidate_texts (st_candidates s) c = sig_to_string <$> candidates_of s c ∧
  parse_all (candidate_texts (st_candidates s) c) = Ok (candidates_of s c).
Proof using Htame H0.
  destruct (texts_of_signatures (candidate_texts (st_candidates s) c)) as [l Hl].
  { intros t Ht%elem_of_candidate_texts. apply (tm_texts _ _ Htame (c, t) Ht). }
  unfold candidates_of. rewrite Hl, parse_all_texts. done.
Qed.

Lemma elem_of_candidates c signature :
  signature ∈ candidates_of s c → (c, sig_to_string signature) ∈ dom (ca_rows (st_candidates s)).
Proof using Htame H0.
  intros Hin. apply elem_of_candidate_texts. rewrite (proj1 (candidate_texts_signatures c)).
  by apply list_elem_of_fmap_2.
Qed.

Lemma candidate_count_length c : candidate_count s c = Z.of_nat (length (candidate_texts (st_candidates s) c)).
Proof using Htame H0.
  unfold candidate_count. rewrite (wf_counts _ (tm_wf _ _ Htame)). unfold nonzero.
  assert (length (candidate_texts (st_candidates s) c) =
    size (filter (λ k : string * string, k.1 = c) (dom (ca_rows (st_candidates s))))) as ->.
  { unfold candidate_texts. set (X := filter _ _). change (size X) with (length (elements X)).
    rewrite <- (length_fmap snd (elements X)). apply Permutation_length.
    apply NoDup_Permutation.
    - apply bset_wf_NoDup, bset_of_list_wf.
    - apply NoDup_fmap_2_strong; [|apply NoDup_elements]. intros [a b] [a' b'].
      unfold X. rewrite !elem_of_elements, !elem_of_filter. cbn. naive_solver.
    - intros t. apply elem_of_bset_of_list. }
  case_bool_decide as E; cbn; [by rewrite E|done].
Qed.

(** A dependency of [c]: lower, with every revocation of its key. *)
Definition lower (c i : string) : Prop :=
  ∀ x, st_claims s !! i = Some x → cr_kind (stc_row x) = KEY_GRANTED → (h i < h c)%nat ∧
    ∀ g r y k, grant_of x = Some g → st_claims s !! r = Some y → cr_kind (stc_row y) = KEY_REVOKED →
      field_key (cr_body (stc_row y)) = Some k →
      key_link (cr_subject (stc_row y)) k = key_link (cr_subject (stc_row x)) (kg_key g) → (h r < h c)%nat.

Lemma chain_lower c signature i : signature ∈ candidates_of s c → i ∈ cs_chain signature → lower c i.
Proof using Htame H0.
  intros Hs%elem_of_candidates Hi x Hx Hk. split; [by eapply tm_chain|]. intros. by eapply tm_revoked.
Qed.

Lemma elem_of_revocations r principal key :
  r ∈ revocations s principal key → ∃ y, st_claims s !! r = Some y ∧
    cr_subject (stc_row y) = principal ∧ cr_kind (stc_row y) = KEY_REVOKED ∧ field_key (cr_body (stc_row y)) = Some key.
Proof using H0.
  intros Hr. unfold revocations in Hr. rewrite scan_perm, elem_of_elements, elem_of_filter in Hr.
  destruct Hr as [_ [y [Hy Hp]%map_lookup_filter_Some]%elem_of_dom]. exists y. by split.
Qed.

(** The reference delegation of a claim. *)
Lemma ref_delegation_Some known c pos i d :
  @delegation (ref_facts s roots known c pos) i = Some d → ∃ x g, st_claims s !! i = Some x ∧
    cr_kind (stc_row x) = KEY_GRANTED ∧ grant_of x = Some g ∧
    d = {| dg_subject := cr_subject (stc_row x); dg_grant := g; dg_verdict := (known i).1 |}.
Proof.
  cbn. unfold claim_row. destruct (st_claims s !! i) as [x|]; [|done]. cbn. unfold grant_of.
  destruct (String.eqb_spec (cr_kind (stc_row x)) KEY_GRANTED) as [Hk|]; [|done].
  destruct (value_get "fields" (cr_body (stc_row x)) ≫= from_fields) as [g|] eqn:Eg; [|done].
  cbn. intros [= <-]. exists x, g. rewrite (proj2 (String.eqb_eq _ _) Hk), Eg. done.
Qed.

Lemma ref_facts_agree known known' c pos signature :
  signature ∈ candidates_of s c → (∀ i, (h i < h c)%nat → known i = known' i) →
  agree_on (ref_facts s roots known c pos) (ref_facts s roots known' c pos) (cs_chain signature).
Proof using Htame H0.
  intros Hs Hk i Hi. pose proof (chain_lower _ _ _ Hs Hi) as Hlow. split.
  - cbn. unfold claim_row. destruct (st_claims s !! i) as [x|] eqn:Hx; [|done]. cbn.
    destruct (String.eqb_spec (cr_kind (stc_row x)) KEY_GRANTED) as [Hg|]; [|done].
    destruct (value_get "fields" _ ≫= _); [|done]. cbn. rewrite Hk; [done|]. by apply (Hlow x).
  - intros d (x & g & Hx & Hg & Hgr & ->)%ref_delegation_Some. cbn [dg_subject dg_grant revoked_before ref_facts].
    assert (∀ l, (∀ r, r ∈ l → known r = known' r) →
      existsb (λ id, negb (String.eqb id c) && before s pos id && bool_decide ((known id).1 = Verified) &&
        is_some_and (λ signature, String.eqb (cs_signer signature) (cr_subject (stc_row x))
          || bool_decide (family_of (cs_signer signature) = Some Node)) (known id).2) l =
      existsb (λ id, negb (String.eqb id c) && before s pos id && bool_decide ((known' id).1 = Verified) &&
        is_some_and (λ signature, String.eqb (cs_signer signature) (cr_subject (stc_row x))
          || bool_decide (family_of (cs_signer signature) = Some Node)) (known' id).2) l) as Hl.
    { induction l as [|r l IH]; [done|]. intros Hr. cbn. rewrite (Hr r) by left. rewrite IH; [done|].
      intros r' Hr'. apply Hr. by right. }
    apply Hl. intros r (y & Hy & Hsub & Hrev & Hkey)%elem_of_revocations.
    apply Hk. destruct (Hlow x Hx Hg) as [_ Hl']. by eapply Hl'; [..|rewrite Hsub].
Qed.

Lemma foldl_keep_best_ext v v' l best :
  (∀ signature, signature ∈ l → v signature = v' signature) → foldl (keep_best v) best l = foldl (keep_best v') best l.
Proof.
  revert best. induction l as [|a l IH]; intros best Hv; [done|]. cbn. unfold keep_best at 2 4.
  rewrite (Hv a) by left. apply IH. intros b Hb. apply Hv. by right.
Qed.

Lemma ref_fold_agree known known' c x :
  st_claims s !! c = Some x → (∀ i, (h i < h c)%nat → known i = known' i) →
  foldl (keep_best (ref_verdict s roots known x)) None (candidates_of s c) =
  foldl (keep_best (ref_verdict s roots known' x)) None (candidates_of s c).
Proof using Htame H0.
  intros Hx Hk. apply foldl_keep_best_ext. intros signature Hs. unfold ref_verdict.
  rewrite (tm_ids _ _ Htame _ _ Hx). apply judge_agree; [done..|]. by apply ref_facts_agree.
Qed.

(** The reference verdict: deep enough for the claim. *)
Definition ref (c : string) : Verdict * option ClaimSignature := ref_judge s roots (S (h c)) c.

Lemma ref_stable n : ∀ c, (h c < n)%nat → ref_judge s roots n c = ref c.
Proof using Htame H0.
  induction n as [n IH] using (well_founded_induction lt_wf). intros c Hc.
  destruct n as [|m]; [lia|]. unfold ref. cbn [ref_judge].
  destruct (st_claims s !! c) as [x|] eqn:Hx; [|done]. f_equal. apply (ref_fold_agree _ _ c); [done|].
  intros i Hi. rewrite (IH m), (IH (h c)); [done|lia..].
Qed.

Lemma ref_eq c x : st_claims s !! c = Some x →
  ref c = judgment_of (foldl (keep_best (ref_verdict s roots ref x)) None (candidates_of s c)).
Proof using Htame H0.
  intros Hx. unfold ref at 1. cbn [ref_judge]. rewrite Hx. f_equal. apply (ref_fold_agree _ _ c); [done|].
  intros i Hi. by apply ref_stable.
Qed.

(** ** No verdict of the reference is unfinished *)

Lemma walk_chain_finished F claim family chain :
  (∀ i d, @delegation F i = Some d → judgment_incomplete (dg_verdict d) = false) → ∀ first principal key,
  judgment_incomplete (@walk_chain F claim family first principal key chain) = false.
Proof.
  intros Hd. induction chain as [|i rest IH]; intros first principal key; [done|]. cbn [walk_chain].
  destruct (@delegation F i) as [d|] eqn:E; [|done]. specialize (Hd _ _ E).
  by repeat (case_match; try done).
Qed.

Lemma judge_finished F claim signature :
  (∀ i d, @delegation F i = Some d → judgment_incomplete (dg_verdict d) = false) →
  judgment_incomplete (@judge _ F claim signature) = false.
Proof.
  intros Hd. unfold judge. destruct signature as [sg|]; [|done].
  destruct (negb (verifies sg claim)); [done|]. destruct (nonce_used_before _ _); [done|].
  destruct (is_some_and _ _); [done|]. destruct (family_of _) as [family|]; [|done].
  destruct (refuse_grant _ _ _) as [v|] eqn:E.
  - unfold refuse_grant in E. repeat (case_match; simplify_eq; try done).
  - destruct (bool_decide (family = Node)); [by repeat case_match|].
    unfold judge_chain. destruct (cs_chain sg); [done|]. by apply walk_chain_finished.
Qed.

Lemma keep_best_prop (P : Verdict → Prop) v l : ∀ best,
  (∀ signature, P (v signature)) → (∀ b, best = Some b → P b.1) → ∀ b, foldl (keep_best v) best l = Some b → P b.1.
Proof.
  induction l as [|a l IH]; intros best Hv Hb b; cbn; [apply Hb|]. apply IH; [done|].
  intros b'. unfold keep_best. destruct (better _ _); [intros [= <-]; apply Hv|apply Hb].
Qed.

Lemma ref_judge_finished n : ∀ c, judgment_incomplete (ref_judge s roots n c).1 = false.
Proof using.
  induction n as [|n IH]; intros c; [done|]. cbn [ref_judge]. destruct (st_claims s !! c) as [x|]; [|done].
  destruct (foldl _ None _) as [b|] eqn:E; [|done]. cbn. destruct b as [v sg]. cbn.
  refine (keep_best_prop (λ v, judgment_incomplete v = false) _ _ None _ _ (v, sg) E); [|done].
  intros signature. apply judge_finished. intros i d (y & g & _ & _ & _ & ->)%ref_delegation_Some. apply IH.
Qed.

(** ** The store answers as the reference does *)

(** Judged [i] gives its reference verdict, and remembers only reference verdicts. *)
Definition memo_ok (memo : gmap string Verdict) : Prop := ∀ i v, memo !! i = Some v → v = (ref i).1.

(** The claims a link's change queues are above the claim that changes. *)
Definition link_ok (c link : string) : Prop :=
  ∀ d y, st_claims s !! d = Some y → affected_link (stc_row y) = Some link → (h d < h c)%nat.

Definition judges_ref (judge_deeper : string → gmap string Verdict → JudgeResult) (i : string) : Prop :=
  ∀ memo, memo_ok memo → ∃ links memo', judge_deeper i memo = (Ok ((ref i).1, links, (ref i).2), memo') ∧ memo_ok memo'.

Section run.
Context (deeper : option (string → gmap string Verdict → JudgeResult)) (c : string) (pos : list SqlValue).
Hypothesis Hdeeper : ∀ i, (h i < h c)%nat → few s i → ∃ judge_deeper, deeper = Some judge_deeper ∧ judges_ref judge_deeper i.

(** The state of a judging that goes well. *)
Record sound (f : FactState) : Prop := {
  so_memo : memo_ok (fs_memo f);
  so_fault : fs_fault f = None;
  so_incomplete : fs_incomplete f = false;
  so_links l : l ∈ fs_links f → link_ok c l
}.

Lemma sound_link l f : link_ok c l → sound f → sound (fs_link l f).
Proof. intros Hl [Hm Hf Hi Hk]. split; [done..|]. cbn. intros l'. rewrite elem_of_union, elem_of_singleton. naive_solver. Qed.

Lemma sound_memo memo f : memo_ok memo → sound f → sound (fs_remember memo f).
Proof. intros Hm [_ Hf Hi Hk]. by split. Qed.

Lemma verdict_of_ref i f : (h i < h c)%nat → few s i → sound f → ∃ f', verdict_of deeper i f = ((ref i).1, f') ∧ sound f'.
Proof using Hdeeper.
  intros Hi Hfew Hf. unfold verdict_of. destruct (fs_memo f !! i) as [v|] eqn:E.
  { rewrite (so_memo _ Hf _ _ E). by exists f. }
  destruct (Hdeeper i Hi Hfew) as (J & -> & HJ). destruct (HJ _ (so_memo _ Hf)) as (links & memo' & -> & Hm).
  eexists. split; [reflexivity|]. apply sound_memo; [|by apply sound_memo]. cbn. intros j v.
  destruct (decide (i = j)) as [<-|Hne]; [rewrite lookup_insert_eq; by intros [= <-]|rewrite lookup_insert_ne by done; apply Hm].
Qed.

Lemma link_ok_other l : (∀ row, affected_link row ≠ Some l) → link_ok c l.
Proof. intros Hl d y _ Ha. by destruct (Hl (stc_row y)). Qed.

Lemma affected_nonce row key nonce : affected_link row ≠ Some (nonce_link key nonce).
Proof. unfold affected_link, key_link. repeat case_match; try done. by destruct (field_key (cr_body row)). Qed.

Lemma affected_root row : affected_link row ≠ Some root_link.
Proof. unfold affected_link, key_link. repeat case_match; try done. by destruct (field_key (cr_body row)). Qed.

Lemma affected_delegation row i : affected_link row = Some (delegation_link i) → cr_kind row = KEY_GRANTED ∧ cr_id row = i.
Proof.
  unfold affected_link, key_link, delegation_link. destruct (String.eqb_spec (cr_kind row) KEY_GRANTED).
  - intros E. split; [done|]. by injection E.
  - destruct (String.eqb (cr_kind row) KEY_REVOKED); [|done]. by destruct (field_key (cr_body row)).
Qed.

Lemma affected_key row l : affected_link row = Some l → (∀ i, l ≠ delegation_link i) →
  ∃ k, cr_kind row = KEY_REVOKED ∧ field_key (cr_body row) = Some k ∧ l = key_link (cr_subject row) k.
Proof.
  unfold affected_link. destruct (String.eqb_spec (cr_kind row) KEY_GRANTED).
  - intros [= <-] Hn. by destruct (Hn (cr_id row)).
  - destruct (String.eqb_spec (cr_kind row) KEY_REVOKED); [|done].
    destruct (field_key (cr_body row)) as [k|]; [|done]. intros [= <-] _. by exists k.
Qed.

Lemma key_not_delegation p k i : key_link p k ≠ delegation_link i.
Proof. done. Qed.

Lemma link_ok_delegation i : lower c i → link_ok c (delegation_link i).
Proof using Htame.
  intros Hl d y Hy [Hk Hid]%affected_delegation. rewrite (tm_ids _ _ Htame _ _ Hy) in Hid. subst d. by apply (Hl y).
Qed.

Lemma link_ok_key i x g : lower c i → st_claims s !! i = Some x → cr_kind (stc_row x) = KEY_GRANTED → grant_of x = Some g →
  link_ok c (key_link (cr_subject (stc_row x)) (kg_key g)).
Proof using.
  intros Hl Hx Hk Hg d y Hy Ha. destruct (affected_key _ _ Ha ltac:(intros j; apply key_not_delegation)) as (k & Hr & Hf & E).
  destruct (Hl x Hx Hk) as [_ Hrev]. by eapply Hrev.
Qed.

Lemma any_revokes_ref principal ids : ∀ f, (∀ r, r ∈ ids → (h r < h c)%nat ∧ few s r) → sound f →
  ∃ f', any_revokes s deeper c pos principal ids f =
    (existsb (λ id, negb (String.eqb id c) && before s pos id && bool_decide ((ref id).1 = Verified) &&
       is_some_and (λ signature, String.eqb (cs_signer signature) principal
                    || bool_decide (family_of (cs_signer signature) = Some Node)) (ref id).2) ids, f') ∧ sound f'.
Proof using Hdeeper.
  induction ids as [|r ids IH]; intros f Hr Hf; [by exists f|].
  assert (∀ r, r ∈ ids → (h r < h c)%nat ∧ few s r) as Hr' by (intros r' Hin; apply Hr; by right).
  cbn [any_revokes existsb]. destruct (String.eqb r c); cbn [negb orb andb]; [by apply IH|].
  destruct (before s pos r); cbn [negb andb]; [|by apply IH].
  destruct (Hdeeper r) as (J & -> & HJ); [apply Hr; left..|].
  destruct (HJ _ (so_memo _ Hf)) as (links & memo' & -> & Hm).
  replace (judgment_incomplete (ref r).1) with false by (symmetry; apply ref_judge_finished).
  assert (sound (fs_remember memo' f)) as Hf' by by apply sound_memo.
  destruct (bool_decide ((ref r).1 = Verified) && _); cbn [orb]; [by exists (fs_remember memo' f)|].
  by apply IH.
Qed.

Lemma store_delegation_ref i f : lower c i → sound f →
  ∃ f', store_delegation s deeper i f = (@delegation (ref_facts s roots ref c pos) i, f') ∧ sound f'.
Proof using Hdeeper Htame.
  intros Hl Hf. unfold store_delegation. apply (sound_link _ _ (link_ok_delegation i Hl)) in Hf.
  cbn [delegation ref_facts]. unfold claim_row.
  destruct (st_claims s !! i) as [x|] eqn:Hx; [|by eexists]. cbn [fmap option_fmap option_map mbind option_bind].
  destruct (String.eqb_spec (cr_kind (stc_row x)) KEY_GRANTED) as [Hk|Hk]; cbn [negb]; [|by eexists].
  destruct (value_get "fields" (cr_body (stc_row x)) ≫= from_fields) as [g|] eqn:Eg; [|by eexists].
  assert (grant_of x = Some g) as Hg by (unfold grant_of; by rewrite (proj2 (String.eqb_eq _ _) Hk)).
  apply (sound_link _ _ (link_ok_key i x g Hl Hx Hk Hg)) in Hf.
  destruct (verdict_of_ref i _ (proj1 (Hl x Hx Hk)) (tm_few _ _ Htame _ _ Hx (or_introl Hk)) Hf) as (f' & -> & Hf'). by exists f'.
Qed.

Lemma ask_chain_ref claim family chain : (∀ i, i ∈ chain → lower c i) → ∀ first principal key f, sound f →
  ∃ f', ask_store s roots deeper c pos (ask_chain claim family first principal key chain) f =
    (@walk_chain (ref_facts s roots ref c pos) claim family first principal key chain, f') ∧ sound f'.
Proof using Hdeeper Htame H0.
  induction chain as [|i rest IH]; intros Hl first principal key f Hf; [by exists f|].
  cbn [ask_chain ask_store walk_chain].
  destruct (store_delegation_ref i f) as (f1 & -> & Hf1); [apply Hl; left|done|].
  destruct (@delegation (ref_facts s roots ref c pos) i) as [d|] eqn:Hd; [|by exists f1].
  destruct (ref_delegation_Some _ _ _ _ _ Hd) as (x & g & Hx & Hk & Hg & ->). cbn [dg_subject dg_grant dg_verdict].
  destruct (String.eqb_spec (cr_subject (stc_row x)) principal) as [<-|]; [|by exists f1].
  destruct (String.eqb_spec (kg_key g) key) as [<-|]; [|by exists f1]. cbn [negb orb].
  destruct (first && _ && _); [by exists f1|]. destruct (negb first && _); [by exists f1|].
  cbn [ask_store]. unfold store_revoked_before.
  destruct (any_revokes_ref (cr_subject (stc_row x)) (revocations s (cr_subject (stc_row x)) (kg_key g))
    (fs_link (key_link (cr_subject (stc_row x)) (kg_key g)) f1)) as (f2 & -> & Hf2).
  { intros r (y & Hy & Hsub & Hrev & Hkey)%elem_of_revocations.
    destruct (Hl i ltac:(left) x Hx Hk) as [_ Hl']. split; [by eapply Hl'; [..|rewrite Hsub]|]. eapply tm_few; [done..|by right]. }
  { apply sound_link; [|done]. eapply link_ok_key; [|done..]. apply Hl. left. }
  cbn [revoked_before ref_facts]. destruct (existsb _ _); [by exists f2|].
  destruct (ref i).1; [|by exists f2..]. destruct (bool_decide (family_of (kg_issuer g) = Some Node)).
  { destruct rest; by exists f2. }
  apply IH; [|done]. intros j Hj. apply Hl. by right.
Qed.

Lemma ask_judge_ref claim signature f : (∀ i, i ∈ cs_chain signature → lower c i) → sound f →
  ∃ f', ask_store s roots deeper c pos (ask_judge claim (Some signature)) f =
    (@judge _ (ref_facts s roots ref c pos) claim (Some signature), f') ∧ sound f'.
Proof using Hdeeper Htame H0.
  intros Hl Hf. unfold ask_judge, judge. destruct (negb (verifies signature claim)); [by exists f|].
  cbn [ask_store]. cbn [store_nonce_used_before nonce_used_before ref_facts]. unfold store_nonce_used_before.
  assert (sound (fs_link (nonce_link (cs_key signature) (cs_nonce signature)) f)) as Hf1.
  { apply sound_link; [|done]. apply link_ok_other. intros row. apply affected_nonce. }
  destruct (bool_decide (set_Exists _ _)); [by eexists|]. destruct (is_some_and _ _); [by eexists|].
  destruct (family_of (cs_signer signature)) as [family|]; [|by eexists].
  destruct (refuse_grant claim signature family); [by eexists|]. destruct (bool_decide (family = Node)).
  - destruct (negb (bool_decide (cs_chain signature = []))); [by eexists|]. cbn [ask_store is_root ref_facts].
    unfold store_is_root. assert (sound (fs_link root_link (fs_link (nonce_link (cs_key signature) (cs_nonce signature)) f))) as Hf2.
    { apply sound_link; [|done]. apply link_ok_other. intros row. apply affected_root. }
    destruct (bool_decide (_ ∈ roots)); by eexists.
  - unfold judge_chain. destruct (cs_chain signature) eqn:Ec; [by eexists|]. by apply ask_chain_ref.
Qed.

Lemma judge_each_ref x signatures : ∀ best f, cr_id (stc_row x) = c → stc_position x = pos →
  (∀ signature, signature ∈ signatures → ∀ i, i ∈ cs_chain signature → lower c i) → sound f →
  ∃ f', judge_each s roots deeper (stc_row x) pos signatures best f =
    (foldl (keep_best (ref_verdict s roots ref x)) best signatures, f') ∧ sound f'.
Proof using Hdeeper Htame H0.
  induction signatures as [|sg signatures IH]; intros best f Hid Hpos Hl Hf; [by exists f|].
  cbn [judge_each foldl]. rewrite Hid.
  destruct (ask_judge_ref (judged_of (stc_row x)) sg f) as (f1 & -> & Hf1); [apply Hl; left|done|].
  destruct (IH (keep_best (ref_verdict s roots ref x) best sg) f1) as (f' & E & Hf'); [done|done| |done|].
  { intros sg' Hin. apply Hl. by right. }
  exists f'. split; [|done]. rewrite <- E. unfold keep_best, ref_verdict. by rewrite Hid, Hpos.
Qed.
End run.

Definition deep_enough (deeper : option (string → gmap string Verdict → JudgeResult)) (c : string) : Prop :=
  ∀ i, (h i < h c)%nat → few s i → ∃ judge_deeper, deeper = Some judge_deeper ∧ judges_ref judge_deeper i.

Lemma judge_candidates_ref deeper c x signatures memo :
  deep_enough deeper c → st_claims s !! c = Some x → (∀ sg, sg ∈ signatures → sg ∈ candidates_of s c) → memo_ok memo →
  ∃ links memo', judge_candidates s roots deeper (stc_row x) signatures memo =
    (Ok ((judgment_of (foldl (keep_best (ref_verdict s roots ref x)) None signatures)).1, links,
         (judgment_of (foldl (keep_best (ref_verdict s roots ref x)) None signatures)).2), memo') ∧
    memo_ok memo' ∧ ∀ l, l ∈ links → link_ok c l.
Proof using Htame H0.
  intros Hd Hx Hin Hm. unfold judge_candidates. rewrite (tm_ids _ _ Htame _ _ Hx), Hx. cbn [fmap option_fmap option_map].
  destruct (judge_each_ref deeper c (stc_position x) Hd x signatures None
    {| fs_memo := memo; fs_links := ∅; fs_fault := None; fs_incomplete := false |}) as (f' & E & [Hmemo Hfault Hinc Hlinks]).
  - by apply (tm_ids _ _ Htame).
  - done.
  - intros sg Hsg i Hi. apply (chain_lower c sg); [by apply Hin|done].
  - split; [done..|]. cbn. set_solver.
  - rewrite E, Hfault, Hinc. exists (fs_links f'), (fs_memo f').
    split; [|done]. by destruct (foldl _ None signatures) as [[v sg]|].
Qed.

Hypothesis Havailable : judging_available s = Ok true.

Lemma judge_claim_with_ref deeper c : few s c → deep_enough deeper c → judges_ref (judge_claim_with s roots deeper) c.
Proof using Htame H0 Havailable.
  intros Hfew Hd memo Hm. unfold judge_claim_with, claim_row. rewrite Havailable.
  destruct (st_claims s !! c) as [x|] eqn:Hx; cbn [fmap option_fmap option_map].
  - rewrite candidate_count_length, (proj2 (candidate_texts_signatures c)).
    unfold few in Hfew.
    destruct (Z.gtb_spec (Z.of_nat (length (candidate_texts (st_candidates s) c))) (Z.of_nat CANDIDATE_PAGE)); [lia|].
    destruct (judge_candidates_ref deeper c x (candidates_of s c) memo) as (links & memo' & -> & Hm' & _); [done..|].
    exists links, memo'. split; [|done]. by rewrite (ref_eq c x Hx).
  - exists ∅, memo. split; [|done]. unfold ref. cbn [ref_judge]. by rewrite Hx.
Qed.

Lemma judge_claim_ref levels : ∀ c, (h c <= levels)%nat → few s c → judges_ref (judge_claim s roots levels) c.
Proof using Htame H0 Havailable.
  induction levels as [|levels IH]; intros c Hc Hfew; cbn [judge_claim]; (apply judge_claim_with_ref; [done|]); intros i Hi Hfi; [lia|].
  eexists. split; [done|]. apply IH; [lia|done].
Qed.

Lemma judge_first_deep c : deep_enough (judge_first s roots) c.
Proof using Htame H0 Havailable.
  intros i Hi Hfew. eexists. split; [done|]. apply judge_claim_ref; [|done]. pose proof (tm_depth _ _ Htame c). lia.
Qed.

(** ** Pages *)

Lemma texts_after_empty c : texts_after (candidate_texts (st_candidates s) c) "" = candidate_texts (st_candidates s) c.
Proof using Htame H0.
  rewrite (proj1 (candidate_texts_signatures c)). induction (candidates_of s c) as [|a l IH]; [done|]. cbn.
  destruct (sig_to_string a) as [|ch t] eqn:E; [by destruct (sig_nonempty a)|]. f_equal. apply IH.
Qed.

Lemma keep_best_app v l acc :
  foldl (keep_best v) acc l =
  match foldl (keep_best v) None l with
  | Some b => if better acc b.1 then Some b else acc
  | None => acc
  end.
Proof.
  induction l as [|a l IH] using rev_ind; [done|]. rewrite !foldl_app. cbn [foldl]. rewrite IH.
  destruct (foldl (keep_best v) None l) as [[w sw]|]; [|done]. cbn [fst].
  unfold keep_best, better. destruct acc as [[u su]|]; cbn [is_none_or fst]; [|by destruct (Nat.ltb (rank (v a)) (rank w))].
  destruct (Nat.ltb_spec (rank w) (rank u)); cbn [is_none_or fst];
    destruct (Nat.ltb_spec (rank (v a)) (rank w)); cbn [fst];
    repeat match goal with |- context[Nat.ltb ?x ?y] => destruct (Nat.ltb_spec x y) end; done || lia.
Qed.

Lemma keep_best_elem v l : ∀ acc b, foldl (keep_best v) acc l = Some b → acc = Some b ∨ b.2 ∈ l.
Proof.
  induction l as [|a l IH]; intros acc b Hb; [by left|]. cbn in Hb. destruct (IH _ _ Hb) as [Hk|Hin]; [|right; by right].
  unfold keep_best in Hk. destruct (better acc (v a)); [|by left]. injection Hk as <-. right. left.
Qed.

Definition text_best (best : option (Verdict * ClaimSignature)) : Best :=
  (λ b : Verdict * ClaimSignature, (b.1, sig_to_string b.2)) <$> best.

Lemma improves_later v signature best :
  (∀ b, best = Some b → lt_ord (sig_to_string b.2) (sig_to_string signature)) →
  improves v (sig_to_string signature) (text_best best) = better best v.
Proof.
  intros Hlt. unfold improves, better. destruct best as [[w sw]|]; [|done]. cbn.
  specialize (Hlt _ eq_refl). cbn in Hlt. rewrite (proj2 (cmp_gt _ _) Hlt). by rewrite andb_false_r, orb_false_r.
Qed.

(** The columns of a row hold this best. *)
Definition holds_best (p : JudgingRow) (best : option (Verdict * ClaimSignature)) : Prop :=
  jr_best_signature p = snd <$> text_best best ∧
  jr_best_verdict p = (λ b : Verdict * ClaimSignature, verdict_name b.1) <$> best ∧
  jr_best_reason p = best ≫= (λ b : Verdict * ClaimSignature, verdict_reason b.1).

Lemma verdict_from_name v : verdict_from (verdict_name v) (verdict_reason v) = v.
Proof. by destruct v. Qed.

Lemma holds_best_of p best : holds_best p best → best_of p = text_best best.
Proof.
  intros (E1 & E2 & E3). unfold best_of. rewrite E1, E2, E3. destruct best as [[v sg]|]; [|done]. cbn.
  by rewrite verdict_from_name.
Qed.

Lemma known_verdict_name v : known_verdict (verdict_name v) = true.
Proof. by destruct v. Qed.

(** A fold that was begun: what it has judged, what is left, and the best so far. *)
Record folding (c : string) (x : StoredClaim) (p : JudgingRow) (done todo : list ClaimSignature) : Prop := {
  fo_all : candidates_of s c = (done ++ todo)%list;
  fo_after : texts_after (candidate_texts (st_candidates s) c) (jr_last_signature p) = sig_to_string <$> todo;
  fo_best : holds_best p (foldl (keep_best (ref_verdict s roots ref x)) None done);
  fo_blocked : jr_blocked p = false;
  fo_notified : jr_notified p = false;
  fo_open : jr_complete p = false ∧ jr_dirty p = false;
  fo_count : jr_candidate_count p = candidate_count s c;
  fo_roots : jr_roots_digest p = hash_roots roots
}.

(** Rows that go on from their cursor are folds of the reference. *)
Definition rows_fold (t : SigTables) : Prop :=
  ∀ c x p, st_claims s !! c = Some x → st_judging t !! c = Some p →
    resumable (candidate_count s c) (hash_roots roots) p = true → ∃ done todo, folding c x p done todo.

(** How many candidates a claim has left, one more where its fold begins again. *)
Definition left_of (t : SigTables) (c : string) : nat :=
  match st_judging t !! c with
  | Some p =>
      if resumable (candidate_count s c) (hash_roots roots) p
      then length (texts_after (candidate_texts (st_candidates s) c) (jr_last_signature p))
      else S (length (candidate_texts (st_candidates s) c))
  | None => S (length (candidate_texts (st_candidates s) c))
  end.

Lemma begun_folding c x content :
  folding c x (begun (candidate_count s c) (hash_roots roots) content) [] (candidates_of s c).
Proof using Htame H0.
  split; [done| |done..]. rewrite <- (proj1 (candidate_texts_signatures c)). apply texts_after_empty.
Qed.

Lemma begin_ok t c x content :
  rows_fold t → st_claims s !! c = Some x →
  ∃ p done todo, begin_or_resume (candidate_count s c) (hash_roots roots) content (st_judging t !! c) =
      Ok (jr_last_signature p, text_best (foldl (keep_best (ref_verdict s roots ref x)) None done), false, p) ∧
    folding c x p done todo ∧ (length todo <= left_of t c)%nat.
Proof using Htame H0.
  intros Hrows Hx. unfold begin_or_resume, left_of.
  assert (∃ p done todo, Ok ("", None, false, begun (candidate_count s c) (hash_roots roots) content) =
      Ok (E := string) (jr_last_signature p, text_best (foldl (keep_best (ref_verdict s roots ref x)) None done), false, p) ∧
    folding c x p done todo ∧ (length todo <= S (length (candidate_texts (st_candidates s) c)))%nat) as Hbegun.
  { exists (begun (candidate_count s c) (hash_roots roots) content), [], (candidates_of s c). split_and!; [done|apply begun_folding|].
    rewrite (proj1 (candidate_texts_signatures c)), length_fmap. lia. }
  destruct (st_judging t !! c) as [p|] eqn:Hp; [|done].
  destruct (resumable _ _ p) eqn:Hres; [|done].
  destruct (Hrows _ _ _ Hx Hp Hres) as (done & todo & Hf). exists p, done, todo.
  rewrite (holds_best_of _ _ (fo_best _ _ _ _ _ Hf)), (fo_blocked _ _ _ _ _ Hf).
  split_and!; [|done|rewrite (fo_after _ _ _ _ _ Hf), length_fmap; lia].
  destruct (fo_best _ _ _ _ _ Hf) as (_ & -> & _). destruct (foldl _ None done) as [[v sg]|]; [|done]. cbn.
  by rewrite known_verdict_name.
Qed.
End stable.

(** ** A measure that work on lower claims brings down *)

Section potential.
Context (h most : string → nat) (depth : nat) (universe : list string).
Hypothesis Hdepth : ∀ c, (h c <= depth)%nat.

(** One more than all the weights together. *)
Definition radix : nat := S (sum_list_with most universe).

(** A weight counts more than all the weights above it. *)
Definition potential (w : string → nat) : nat :=
  sum_list_with (λ c, w c * radix ^ (depth - h c))%nat universe.

Lemma sum_list_with_le {A} (f g : A → nat) l : (∀ a, a ∈ l → f a <= g a)%nat → (sum_list_with f l <= sum_list_with g l)%nat.
Proof.
  induction l as [|a l IH]; intros Hle; cbn; [done|].
  pose proof (Hle a ltac:(left)). assert (∀ b, b ∈ l → f b <= g b)%nat as Hl by (intros b Hb; apply Hle; by right).
  specialize (IH Hl). lia.
Qed.

Lemma sum_list_with_scale {A} (f : A → nat) k l : sum_list_with (λ a, f a * k)%nat l = (sum_list_with f l * k)%nat.
Proof. induction l as [|a l IH]; cbn; [done|]. rewrite IH. lia. Qed.

Lemma above_small (w : string → nat) a :
  (∀ c, w c <= most c)%nat → (a <= depth)%nat →
  (sum_list_with (λ c, if decide (a < h c)%nat then w c * radix ^ (depth - h c) else 0)%nat universe < radix ^ (depth - a))%nat.
Proof using Hdepth.
  intros Hw Ha. destruct (decide (a = depth)) as [->|Hne].
  { replace (sum_list_with _ universe) with 0%nat; [rewrite Nat.sub_diag; cbn; lia|].
    symmetry. induction universe as [|c l IH]; cbn; [done|]. rewrite IH.
    case_decide; [|done]. pose proof (Hdepth c). lia. }
  eapply Nat.le_lt_trans; [apply (sum_list_with_le _ (λ c, most c * radix ^ (depth - S a))%nat)|].
  - intros c _. case_decide; [|lia]. apply Nat.mul_le_mono; [apply Hw|]. apply Nat.pow_le_mono_r; [unfold radix; lia|lia].
  - rewrite sum_list_with_scale. replace (depth - a)%nat with (S (depth - S a)) by lia. cbn [Nat.pow].
    apply Nat.mul_lt_mono_pos_r; [|unfold radix; lia].
    assert (radix ≠ 0) by (unfold radix; lia). pose proof (Nat.pow_nonzero radix (depth - S a)). lia.
Qed.

Lemma potential_split (w w' : string → nat) c :
  c ∈ universe → (w' c < w c)%nat → (∀ d, d ≠ c → (h d <= h c)%nat → w' d <= w d)%nat →
  (potential w' + radix ^ (depth - h c) <= potential w +
   sum_list_with (λ d, if decide (h c < h d)%nat then w' d * radix ^ (depth - h d) else 0)%nat universe)%nat.
Proof using.
  intros Hc Hlt Hle. unfold potential. generalize radix. intros B.
  assert (∀ d, w' d * B ^ (depth - h d) + (if decide (d = c) then B ^ (depth - h c) else 0) <=
    w d * B ^ (depth - h d) + (if decide (h c < h d) then w' d * B ^ (depth - h d) else 0))%nat as Hpoint.
  { intros d. destruct (decide (d = c)) as [->|Hne].
    - rewrite decide_False by lia. nia.
    - case_decide; [lia|]. pose proof (Hle d Hne). nia. }
  assert (∀ l, sum_list_with (λ d, w' d * B ^ (depth - h d)) l + sum_list_with (λ d, if decide (d = c) then B ^ (depth - h c) else 0) l <=
    sum_list_with (λ d, w d * B ^ (depth - h d)) l +
    sum_list_with (λ d, if decide (h c < h d) then w' d * B ^ (depth - h d) else 0) l)%nat as Hsum.
  { induction l as [|d l IH]; cbn; [lia|]. pose proof (Hpoint d). lia. }
  assert (B ^ (depth - h c) <= sum_list_with (λ d, if decide (d = c) then B ^ (depth - h c) else 0) universe)%nat as Hone.
  { apply list_elem_of_split in Hc as (l1 & l2 & E). rewrite E, sum_list_with_app. cbn. rewrite decide_True by done. lia. }
  specialize (Hsum universe). lia.
Qed.

Lemma potential_drops (w w' : string → nat) c :
  c ∈ universe → (w' c < w c)%nat → (∀ d, d ≠ c → (h d <= h c)%nat → w' d <= w d)%nat →
  (∀ d, w' d <= most d)%nat → (potential w' < potential w)%nat.
Proof using Hdepth.
  intros Hc Hlt Hle Hmost. pose proof (potential_split w w' c Hc Hlt Hle). pose proof (above_small w' (h c) Hmost (Hdepth c)). lia.
Qed.
End potential.

(** ** Judging while the queue changes *)

Section settle.
Context `{SigCodecLaws, Crypto}.
Context (s : SigTables) (roots : gset (string * string)) (h : string → nat).
Hypothesis Htame : tame s h.
Implicit Types t : SigTables.

(** The tables judging reads are those of [s], and judging may go on. *)
Record based t : Prop := {
  ba_claims : st_claims t = st_claims s;
  ba_candidates : st_candidates t = st_candidates s;
  ba_nonce_uses : st_nonce_uses t = st_nonce_uses s;
  ba_available : judging_available t = Ok true
}.

Lemma based_tame t : based t → tame t h.
Proof using Htame.
  intros [Hc Hca _ _]. destruct Htame. split; unfold few in *; rewrite ?Hc, ?Hca; try done; intros; rewrite ?Hc, ?Hca in *; eauto.
Qed.

Lemma candidates_of_based t c : based t → candidates_of t c = candidates_of s c.
Proof. intros [_ Hca _ _]. unfold candidates_of. by rewrite Hca. Qed.

Lemma ref_facts_based t known c pos : based t → ref_facts t roots known c pos = ref_facts s roots known c pos.
Proof.
  intros [Hc Hca Hn _]. unfold ref_facts, claim_row, before, revocations. by rewrite Hc, Hca, Hn.
Qed.

Lemma ref_verdict_ext t known known' x signature : based t → (∀ i, known i = known' i) →
  ref_verdict t roots known x signature = ref_verdict s roots known' x signature.
Proof.
  intros Hb Hk. unfold ref_verdict. rewrite (ref_facts_based _ _ _ _ Hb). apply judge_agree; [done..|].
  intros i _. split; [cbn; by rewrite Hk|]. intros d _. cbn [revoked_before ref_facts].
  induction (revocations s _ _) as [|r l IH]; [done|]. cbn. by rewrite Hk, IH.
Qed.

Lemma ref_judge_based t n : based t → ∀ c, ref_judge t roots n c = ref_judge s roots n c.
Proof.
  intros Hb. induction n as [|n IH]; intros c; [done|]. cbn [ref_judge]. rewrite (ba_claims _ Hb).
  destruct (st_claims s !! c) as [x|]; [|done]. f_equal. rewrite candidates_of_based by done.
  apply foldl_keep_best_ext. intros signature _. by apply ref_verdict_ext.
Qed.

(** The reference on [s], and its fold for one claim. *)
Notation best_for x := (foldl (keep_best (ref_verdict s roots (ref s roots h) x)) None).

Lemma best_for_based t x l : based t →
  foldl (keep_best (ref_verdict t roots (ref t roots h) x)) None l = best_for x l.
Proof.
  intros Hb. apply foldl_keep_best_ext. intros signature _. apply ref_verdict_ext; [done|]. intros i. by apply ref_judge_based.
Qed.

Lemma memo_ok_based t memo : based t → memo_ok t roots h memo ↔ memo_ok s roots h memo.
Proof. intros Hb. unfold memo_ok, ref. setoid_rewrite (ref_judge_based t _ Hb). done. Qed.

Lemma link_ok_based t c l : based t → link_ok t h c l ↔ link_ok s h c l.
Proof. intros Hb. unfold link_ok. by rewrite (ba_claims _ Hb). Qed.

Lemma page_ref t c x signatures memo :
  based t → st_claims s !! c = Some x → (∀ sg, sg ∈ signatures → sg ∈ candidates_of s c) → memo_ok s roots h memo →
  ∃ links memo', judge_candidates t roots (judge_first t roots) (stc_row x) signatures memo =
    (Ok ((judgment_of (best_for x signatures)).1, links, (judgment_of (best_for x signatures)).2), memo') ∧
    memo_ok s roots h memo' ∧ ∀ l, l ∈ links → link_ok s h c l.
Proof using Htame H0.
  intros Hb Hx Hin Hm. pose proof (based_tame _ Hb) as Ht.
  destruct (judge_candidates_ref t roots h Ht (judge_first t roots) c x signatures memo) as (links & memo' & E & Hm' & Hl).
  - apply judge_first_deep; [done|apply (ba_available _ Hb)].
  - by rewrite (ba_claims _ Hb).
  - intros sg Hsg. rewrite candidates_of_based by done. by apply Hin.
  - by apply memo_ok_based.
  - exists links, memo'. rewrite best_for_based in E by done. split_and!; [done|by apply (memo_ok_based t)|].
    intros l Hin'%Hl. by apply (link_ok_based t).
Qed.

Lemma best_for_finished x l : judgment_incomplete (judgment_of (best_for x l)).1 = false.
Proof using.
  destruct (best_for x l) as [[v sg]|] eqn:E; [|done]. cbn.
  refine (keep_best_prop (λ v, judgment_incomplete v = false) _ _ None _ _ (v, sg) E); [|done].
  intros signature. apply judge_finished. intros i d (y & g & _ & _ & _ & ->)%ref_delegation_Some. apply ref_judge_finished.
Qed.

(** A page's best joins the best of the pages before it. *)
Lemma page_best x (done page rest : list ClaimSignature) :
  bset_wf (sig_to_string <$> (done ++ page ++ rest)%list : list string) →
  match (judgment_of (best_for x page)).2 with
  | Some signature =>
      if improves (judgment_of (best_for x page)).1 (sig_to_string signature) (text_best (best_for x done))
      then Some ((judgment_of (best_for x page)).1, sig_to_string signature) else text_best (best_for x done)
  | None => text_best (best_for x done)
  end = text_best (best_for x (done ++ page)%list).
Proof using.
  intros Hwf. rewrite foldl_app, (keep_best_app _ page (best_for x done)).
  destruct (best_for x page) as [[v sg]|] eqn:E; [|done]. cbn [judgment_of fst snd].
  rewrite improves_later; [by destruct (better _ v)|]. intros b Hb.
  destruct (keep_best_elem _ _ _ _ E) as [|Hin]; [done|]. destruct (keep_best_elem _ _ _ _ Hb) as [|Hin']; [done|].
  rewrite fmap_app in Hwf. eapply StronglySorted_app_1_elem_of; [apply Hwf|by apply list_elem_of_fmap_2|].
  rewrite fmap_app. apply elem_of_app. left. by apply (list_elem_of_fmap_2 _ _ sg).
Qed.

Lemma with_progress_holds p through best finished blocked :
  holds_best (with_progress through (text_best best) finished blocked p) best.
Proof. unfold holds_best. cbn. by destruct best as [[v sg]|]. Qed.

Lemma keep_best_Some v l : ∀ b, ∃ b', foldl (keep_best v) (Some b) l = Some b'.
Proof.
  induction l as [|a l IH]; intros b; [by exists b|]. cbn. unfold keep_best at 2. destruct (better _ _); apply IH.
Qed.

(** The tables after a page of [c] with this row and these links. *)
Definition paged t (c : string) (p : JudgingRow) (links : gset string) (again : bool) : SigTables :=
  let t := set_judging (<[c := p]> (st_judging t)) (set_links (set_map (λ link, (link, c)) links ∪ st_links t) t) in
  if again then set_queue ({[c]} ∪ st_queue t) t else t.

(** The row of a fold that is finished. *)
Definition finished_row (c : string) (p : JudgingRow) : Prop :=
  jr_complete p = true ∧ jr_dirty p = false ∧ jr_blocked p = false ∧ jr_notified p = false ∧
  jr_candidate_count p = candidate_count s c.

Lemma last_through (done page rest : list ClaimSignature) from :
  bset_wf (sig_to_string <$> (done ++ page ++ rest)%list : list string) → page ≠ [] →
  texts_after (sig_to_string <$> (done ++ page ++ rest)%list) (default from (last (sig_to_string <$> page))) = sig_to_string <$> rest.
Proof.
  intros Hwf Hne. destruct page as [|sg l _] using rev_ind; [done|].
  assert (sig_to_string <$> (done ++ (l ++ [sg]) ++ rest)%list =
    ((sig_to_string <$> (done ++ l)%list) ++ sig_to_string sg :: (sig_to_string <$> rest))%list) as E.
  { rewrite !fmap_app. cbn. by rewrite <- !(assoc_L app). }
  rewrite E in Hwf |- *. rewrite (fmap_app _ l [sg]). cbn. rewrite last_snoc. cbn. by apply texts_after_split.
Qed.

Lemma candidate_texts_wf c : bset_wf (sig_to_string <$> candidates_of s c : list string).
Proof using Htame H0. rewrite <- (proj1 (candidate_texts_signatures s h Htame c)). apply candidate_texts_sorted. Qed.

Lemma based_set_judging t j : based t → based (set_judging j t).
Proof. by intros []. Qed.

(** What a page leaves: the fold goes on with fewer candidates, or its judgment is the
    reference's. *)
Lemma fold_page c x p (done todo : list ClaimSignature) budget :
  (1 <= budget)%nat → st_claims s !! c = Some x → folding s roots h c x p done todo →
  let page := take budget todo in
  let best := text_best (best_for x (done ++ page)%list) in
  let finished := Nat.ltb (length page) budget in
  let through := default (jr_last_signature p) (last (sig_to_string <$> page)) in
  let p' := with_progress through best finished false p in
  (finished = false → ∃ done' todo', folding s roots h c x p' done' todo' ∧ (length todo' < length todo)%nat) ∧
  (finished = true → finished_row c p' ∧ fold_result c (candidate_count s c) best false = Ok (ref s roots h c)).
Proof using Htame H0.
  intros Hb Hx Hf page best finished through p'.
  pose proof (fo_all _ _ _ _ _ _ _ _ Hf) as Hall.
  pose proof (candidate_texts_wf c) as Hwf. rewrite Hall in Hwf.
  split; intros Hfin; unfold finished in Hfin; [apply Nat.ltb_ge in Hfin|apply Nat.ltb_lt in Hfin];
    unfold page in Hfin; rewrite length_take in Hfin.
  - exists (done ++ page)%list, (drop budget todo). split; [|rewrite length_drop; lia].
    destruct Hf as [_ Haf Hbest Hbl Hno Hop Hco Hro].
    assert (done ++ todo = done ++ page ++ drop budget todo)%list as Esplit by (unfold page; by rewrite take_drop).
    split; [|..].
    + rewrite Hall, Esplit. by rewrite (assoc_L app).
    + rewrite (proj1 (candidate_texts_signatures s h Htame c)), Hall, Esplit. cbn [jr_last_signature with_progress p'].
      apply last_through; [by rewrite <- Esplit|]. unfold page. destruct todo, budget; cbn in *; lia || done.
    + apply with_progress_holds.
    + done.
    + done.
    + split; [|apply Hop]. cbn. unfold finished, page. apply Nat.ltb_ge. rewrite length_take. lia.
    + done.
    + done.
  - assert (page = todo) as Epage by (unfold page; apply take_ge; lia). split.
    + destruct Hf as [_ _ _ _ Hno [_ Hdi] Hco _]. split_and!; [|done..]. cbn. unfold finished, page. apply Nat.ltb_lt. rewrite length_take. lia.
    + unfold best. rewrite Epage, <- Hall, (ref_eq s roots h Htame c x Hx). unfold fold_result, text_best.
      destruct (best_for x (candidates_of s c)) as [[v sg]|] eqn:E; cbn.
      * by rewrite parse_signature_text.
      * rewrite (candidate_count_length s h Htame), (proj1 (candidate_texts_signatures s h Htame c)), length_fmap.
        destruct (candidates_of s c) as [|a l]; [done|]. exfalso. cbn [foldl] in E.
        destruct (keep_best_Some (ref_verdict s roots (ref s roots h) x) l (ref_verdict s roots (ref s roots h) x a, a)) as [b Eb].
        change (keep_best _ None a) with (Some (ref_verdict s roots (ref s roots h) x a, a)) in E. by rewrite Eb in E.
Qed.

Lemma advance_ref t c x memo budget :
  based t → rows_fold s roots h t → st_claims s !! c = Some x → memo_ok s roots h memo → (1 <= budget)%nat →
  ∃ adv p' links, advance t roots (stc_row x) memo budget = Ok adv ∧ memo_ok s roots h (ad_memo adv) ∧
    (∀ l, l ∈ links → link_ok s h c l) ∧
    ((ad_result adv = None ∧ ad_tables adv = paged t c p' links true ∧
      ∃ done todo, folding s roots h c x p' done todo ∧ (length todo < left_of s roots t c)%nat) ∨
     (ad_result adv = Some (ref s roots h c) ∧ ad_tables adv = paged t c p' links false ∧ finished_row c p')).
Proof using Htame H0.
  intros Hb Hrows Hx Hm Hbudget. unfold advance. rewrite (tm_ids _ _ Htame _ _ Hx).
  replace (candidate_count t c) with (candidate_count s c) by (unfold candidate_count; by rewrite (ba_candidates _ Hb)).
  destruct (begin_ok s roots h Htame t c x (content_digest (stc_row x)) Hrows Hx) as (p & done & todo & -> & Hf & Hleft).
  cbn [result_bind st_candidates set_judging]. rewrite (ba_candidates _ Hb), (fo_after _ _ _ _ _ _ _ _ Hf), <- fmap_take.
  rewrite parse_all_texts. cbn [result_bind].
  pose proof (fo_all _ _ _ _ _ _ _ _ Hf) as Hall. pose proof (candidate_texts_wf c) as Hwf. rewrite Hall in Hwf.
  rewrite <- (take_drop budget todo) in Hwf.
  destruct (page_ref (set_judging (<[c:=p]> (st_judging t)) t) c x (take budget todo) memo)
    as (links & memo' & -> & Hm' & Hlinks); [by apply based_set_judging|done| |done|].
  { intros sg Hsg. rewrite Hall. apply elem_of_app. right. rewrite <- (take_drop budget todo). apply elem_of_app. by left. }
  cbn [result_bind]. rewrite best_for_finished, (page_best x done _ _ Hwf), length_fmap. cbn [orb].
  destruct (fold_page c x p done todo budget Hbudget Hx Hf) as [Hmore Hend].
  destruct (Nat.ltb (length (take budget todo)) budget) eqn:Efin; cbn [negb].
  - destruct (Hend eq_refl) as [Hrow ->]. cbn [result_bind]. eexists _, _, links. split_and!; [done|done|done|right].
    split_and!; [done| |apply Hrow]. cbn. unfold paged. cbn. by rewrite insert_insert_eq.
  - destruct (Hmore eq_refl) as (done' & todo' & Hf' & Hlt). eexists _, _, links. split_and!; [done|done|done|left].
    split_and!; [done| |exists done', todo'; split; [apply Hf'|lia]]. cbn. unfold paged. cbn. by rewrite insert_insert_eq.
Qed.

(** ** The state of a pass *)

Context (U : gset string).

(** The claim's fold is finished and the reference's judgment is cached. *)
Definition judged t (c : string) : Prop :=
  (∃ p, st_judging t !! c = Some p ∧ jr_complete p = true ∧ jr_dirty p = false ∧ jr_blocked p = false ∧
     jr_candidate_count p = candidate_count s c) ∧
  ∃ sg, (ref s roots h c).2 = Some sg ∧ st_verdicts t !! c = Some (verdict_row (ref s roots h c).1 sg) ∧
    st_signatures t !! c = Some (signature_row sg (sig_to_string sg)).

(** Judging is under way within [U]: whatever does not wait is judged. *)
Record settling t : Prop := {
  se_based : based t;
  se_rows : rows_fold s roots h t;
  se_facades c r : st_signatures t !! c = Some r → ∃ sg, sr_signature r = sig_to_string sg;
  se_present k : k ∈ dom (ca_rows (st_candidates s)) → is_Some (st_signatures t !! k.1);
  se_links l x : (l, x) ∈ st_links t → link_ok s h x l ∧ x ∈ U;
  se_queue : st_queue t ⊆ U;
  se_fresh : st_fresh t ⊆ U;
  se_outside c : c ∉ U → st_judging t !! c = None ∧ st_verdicts t !! c = None;
  se_judged c x : st_claims s !! c = Some x → candidates_of s c ≠ [] → c ∉ st_queue t → c ∉ st_fresh t → judged t c
}.

Definition weight t (c : string) : nat := if decide (c ∈ st_queue t) then S (left_of s roots t c) else 0.
Definition heaviest (c : string) : nat := S (S (length (candidate_texts (st_candidates s) c))).

Lemma weight_bound t c : (weight t c <= heaviest c)%nat.
Proof.
  unfold weight, heaviest, left_of. case_decide; [|lia]. destruct (st_judging t !! c) as [p|]; [|lia].
  destruct (resumable _ _ p); [|lia]. unfold texts_after.
  pose proof (List.filter_length_le (λ u : string, match cmp (jr_last_signature p) u with Lt => true | _ => false end)
    (candidate_texts (st_candidates s) c)). lia.
Qed.

Lemma elem_of_linked l x t : x ∈ linked (st_links t) l ↔ (l, x) ∈ st_links t.
Proof.
  unfold linked. rewrite elem_of_map. split.
  - intros ([l' y] & -> & [Hl Hin]%elem_of_filter). cbn in Hl. by subst l'.
  - intros Hin. exists (l, x). by rewrite elem_of_filter.
Qed.

Lemma queue_linked_lookup l t c :
  st_judging (queue_linked_tx l t) !! c =
  (λ r, if bool_decide (c ∈ linked (st_links t) l) then with_dirty false r else r) <$> st_judging t !! c.
Proof. apply (mark_dirty_lookup false (linked (st_links t) l) t c). Qed.

Lemma resumable_dirty n d r b : resumable n d (with_dirty b r) = false.
Proof. unfold resumable. cbn. by rewrite andb_false_r. Qed.

Lemma queue_linked_settling l t : settling t → settling (queue_linked_tx l t).
Proof.
  intros [Hb Hrows Hfac Hpres Hlinks Hq Hfr Hout Hj]. split; try done.
  - destruct Hb. by split.
  - intros c x p Hx Hp Hres. rewrite queue_linked_lookup in Hp. apply fmap_Some_1 in Hp as (p0 & Hp0 & ->).
    case_bool_decide; [by rewrite resumable_dirty in Hres|]. by apply (Hrows c x p0).
  - cbn. intros x. rewrite elem_of_union, elem_of_linked. intros [Hx|Hx]; [by apply Hq|]. by apply (Hlinks l x).
  - intros c Hc. rewrite queue_linked_lookup. destruct (Hout c Hc) as [-> ?]. done.
  - intros c x Hx Hne Hnq Hnf. cbn in Hnq. apply not_elem_of_union in Hnq as [Hnq Hnl].
    destruct (Hj c x Hx Hne Hnq Hnf) as [(p & Hp & Hrest) Hsg]. split; [|done].
    exists p. rewrite queue_linked_lookup, Hp. cbn. by rewrite bool_decide_eq_false_2.
Qed.

Lemma queue_row_settling row t : settling t → settling (queue_affected_by_row_tx row t).
Proof. unfold queue_affected_by_row_tx. destruct (affected_link row); [apply queue_linked_settling|done]. Qed.

Lemma queue_affected_settling c t : settling t → settling (queue_affected_by_tx c t).
Proof. unfold queue_affected_by_tx. destruct (claim_row t c); [apply queue_row_settling|done]. Qed.

(** Only claims above it are weighed down by what a claim changes. *)
Lemma queue_row_weight c x t d :
  settling t → st_claims s !! c = Some x → (h d <= h c)%nat →
  weight (queue_affected_by_row_tx (stc_row x) t) d = weight t d ∧
  (d ∈ st_queue (queue_affected_by_row_tx (stc_row x) t) ↔ d ∈ st_queue t).
Proof.
  intros Ht Hx Hd. unfold queue_affected_by_row_tx. destruct (affected_link (stc_row x)) as [l|] eqn:El; [|done].
  assert (d ∉ linked (st_links t) l) as Hnot.
  { rewrite elem_of_linked. intros Hin. destruct (se_links _ Ht _ _ Hin) as [Hok _]. pose proof (Hok c x Hx El). lia. }
  assert (d ∈ st_queue (queue_linked_tx l t) ↔ d ∈ st_queue t) as Hq by (cbn; set_solver).
  split; [|done]. unfold weight.
  destruct (decide (d ∈ st_queue t)) as [Hin|Hin]; [rewrite decide_True by tauto|by rewrite decide_False by tauto]. f_equal.
  unfold left_of. rewrite queue_linked_lookup. destruct (st_judging t !! d); [|done]. cbn. by rewrite bool_decide_eq_false_2.
Qed.

Lemma ref_signed c x : st_claims s !! c = Some x → candidates_of s c ≠ [] → ∃ sg, (ref s roots h c).2 = Some sg.
Proof using Htame H0.
  intros Hx Hne. rewrite (ref_eq s roots h Htame c x Hx). destruct (candidates_of s c) as [|a l]; [done|]. cbn [foldl].
  destruct (keep_best_Some (ref_verdict s roots (ref s roots h) x) l (ref_verdict s roots (ref s roots h) x a, a)) as [[v sg] E].
  change (keep_best _ None a) with (Some (ref_verdict s roots (ref s roots h) x a, a)). rewrite E. by exists sg.
Qed.

(** Taking a claim that is not there from the queue. *)
Lemma unqueue_settling t c : settling t → st_claims s !! c = None → settling (set_queue (st_queue t ∖ {[c]}) t).
Proof.
  intros [Hb Hrows Hfac Hpres Hlinks Hq Hfr Hout Hj] Hc. split; try done.
  - destruct Hb. by split.
  - cbn. set_solver.
  - intros d x Hd Hne Hnq Hnf. apply (Hj d x Hd Hne); [|done]. cbn in Hnq. intros Hin. apply Hnq.
    apply elem_of_difference. split; [done|]. rewrite elem_of_singleton. intros ->. by rewrite Hc in Hd.
Qed.

Lemma paged_rows_fold t c p links again :
  rows_fold s roots h t →
  (∀ x, st_claims s !! c = Some x → resumable (candidate_count s c) (hash_roots roots) p = true → ∃ done todo, folding s roots h c x p done todo) →
  rows_fold s roots h (paged t c p links again).
Proof.
  intros Hrows Hc d x q Hx Hq Hres.
  assert (st_judging (paged t c p links again) = <[c := p]> (st_judging t)) as E by by destruct again.
  rewrite E in Hq. destruct (decide (c = d)) as [<-|Hne].
  - rewrite lookup_insert_eq in Hq. injection Hq as <-. by apply Hc.
  - rewrite lookup_insert_ne in Hq by done. by apply (Hrows d x q).
Qed.

Lemma paged_links t c p links again l x :
  (l, x) ∈ st_links (paged t c p links again) ↔ (l ∈ links ∧ x = c) ∨ (l, x) ∈ st_links t.
Proof.
  assert (st_links (paged t c p links again) = set_map (λ link, (link, c)) links ∪ st_links t) as -> by by destruct again.
  rewrite elem_of_union, elem_of_map. naive_solver.
Qed.

Lemma paged_judging t c p links again d :
  st_judging (paged t c p links again) !! d = if decide (c = d) then Some p else st_judging t !! d.
Proof.
  assert (st_judging (paged t c p links again) = <[c := p]> (st_judging t)) as -> by by destruct again.
  apply lookup_insert.
Qed.

Lemma paged_based t c p links again : based t → based (paged t c p links again).
Proof. intros []. by destruct again. Qed.

Lemma folding_resumable c x p done todo :
  folding s roots h c x p done todo → resumable (candidate_count s c) (hash_roots roots) p = true.
Proof.
  intros [_ _ _ _ _ [E1 E2] E3 E4]. unfold resumable. rewrite E1, E2, E3, E4, Z.eqb_refl, String.eqb_refl. done.
Qed.

(** A page that leaves its claim waiting. *)
Lemma page_settling t c x p links done todo :
  settling t → c ∈ st_queue t → st_claims s !! c = Some x → folding s roots h c x p done todo →
  (∀ l, l ∈ links → link_ok s h c l) → settling (paged t c p links true).
Proof.
  intros [Hb Hrows Hfac Hpres Hlinks Hq Hfr Hout Hj] Hc Hx Hf Hl.
  assert (c ∈ U) as HcU by by apply Hq. split; try done.
  - by apply paged_based.
  - apply paged_rows_fold; [done|]. intros x' Hx' _. assert (x' = x) as -> by congruence. eauto.
  - intros l y. rewrite paged_links. intros [[Hin ->]|Hin]; [by split; [apply Hl|]|by apply Hlinks].
  - cbn. set_solver.
  - intros d Hd. rewrite paged_judging, decide_False by (intros ->; done). by apply Hout.
  - intros d y Hd Hne Hnq Hnf. destruct (Hj d y Hd Hne) as [(q & Hq' & Hrest) Hsg]; [cbn in Hnq; set_solver|done|].
    split; [|done]. exists q. rewrite paged_judging, decide_False; [done|]. intros ->. apply Hnq. cbn. set_solver.
Qed.

(** The tables after a finished fold of [c] is written. *)
Definition written t (c : string) (p : JudgingRow) (links : gset string) (sg : ClaimSignature) : SigTables :=
  let t := paged (set_queue (st_queue t ∖ {[c]}) t) c p links false in
  let t := set_signatures (alter (λ _, signature_row sg (sig_to_string sg)) c (st_signatures t)) t in
  let t := set_verdicts (<[c := verdict_row (ref s roots h c).1 sg]> (st_verdicts t)) t in
  set_judging (alter with_notified c (st_judging t)) t.

Lemma write_verdict_ref t c p links sg :
  settling t → ∃ changed,
  write_verdict_tx c sg (ref s roots h c).1 (paged (set_queue (st_queue t ∖ {[c]}) t) c p links false) =
  Ok (written t c p links sg, changed).
Proof using H0.
  intros Ht. unfold write_verdict_tx, stored_signature, read_signature. cbn [st_signatures paged set_judging set_links set_queue].
  assert (judgment_incomplete (ref s roots h c).1 = false) as -> by apply ref_judge_finished.
  destruct (st_signatures t !! c) as [r|] eqn:Er; [|by eexists].
  destruct (se_facades _ Ht _ _ Er) as [sg' ->]. rewrite parse_signature_text. by eexists.
Qed.

Lemma written_judging t c p links sg d :
  st_judging (written t c p links sg) !! d = if decide (c = d) then Some (with_notified p) else st_judging t !! d.
Proof.
  unfold written. cbn [st_judging set_judging set_verdicts set_signatures]. case_decide as E.
  - subst d. rewrite lookup_alter_eq, paged_judging, decide_True by done. done.
  - rewrite lookup_alter_ne, paged_judging, decide_False by done. done.
Qed.

Lemma written_settling t c x p links sg :
  settling t → c ∈ st_queue t → st_claims s !! c = Some x → finished_row c p → (ref s roots h c).2 = Some sg →
  candidates_of s c ≠ [] → (∀ l, l ∈ links → link_ok s h c l) → settling (written t c p links sg).
Proof using Htame H0.
  intros [Hb Hrows Hfac Hpres Hlinks Hq Hfr Hout Hj] Hc Hx (Hcomp & Hdirty & Hblock & _ & Hcount) Hsg Hne Hl.
  assert (c ∈ U) as HcU by by apply Hq.
  assert (is_Some (st_signatures t !! c)) as [r0 Hr0].
  { destruct (candidates_of s c) as [|a l] eqn:Ec; [done|].
    apply (Hpres (c, sig_to_string a)). apply (elem_of_candidates s h Htame). rewrite Ec. left. }
  split.
  - destruct Hb. by split.
  - intros d y q Hy Hq' Hres. rewrite written_judging in Hq'. case_decide as E.
    + injection Hq' as <-. unfold resumable in Hres. cbn in Hres. by rewrite Hcomp in Hres.
    + by apply (Hrows d y q).
  - intros d r. cbn. destruct (decide (c = d)) as [<-|Hd]; [|rewrite lookup_alter_ne by done; apply Hfac].
    rewrite lookup_alter_eq, Hr0. intros [= <-]. by exists sg.
  - intros k Hk. cbn. destruct (decide (c = k.1)) as [E|Hd]; [|rewrite lookup_alter_ne by done; by apply Hpres].
    rewrite <- E, lookup_alter_eq, Hr0. by eexists.
  - intros l y. change (st_links (written t c p links sg)) with (st_links (paged (set_queue (st_queue t ∖ {[c]}) t) c p links false)).
    rewrite paged_links. intros [[Hin ->]|Hin]; [by split; [apply Hl|]|by apply Hlinks].
  - cbn. set_solver.
  - done.
  - intros d Hd. assert (c ≠ d) as Hcd by (intros ->; done). rewrite written_judging, decide_False by done.
    cbn. rewrite lookup_insert_ne by done. by apply Hout.
  - intros d y Hd Hned Hnq Hnf. destruct (decide (c = d)) as [<-|Hcd].
    + split.
      * exists (with_notified p). rewrite written_judging, decide_True by done. done.
      * exists sg. cbn. by rewrite lookup_insert_eq, lookup_alter_eq, Hr0.
    + destruct (Hj d y Hd Hned) as [(q & Hq' & Hrest) (sg' & E1 & E2 & E3)]; [cbn in Hnq; set_solver|done|]. split.
      * exists q. rewrite written_judging, decide_False by done. done.
      * exists sg'. cbn. by rewrite lookup_insert_ne, lookup_alter_ne.
Qed.

(** An unsigned claim's fold leaves nothing to write. *)
Lemma unsigned_settling t c p links :
  settling t → c ∈ st_queue t → finished_row c p → candidates_of s c = [] →
  (∀ l, l ∈ links → link_ok s h c l) → settling (paged (set_queue (st_queue t ∖ {[c]}) t) c p links false).
Proof.
  intros [Hb Hrows Hfac Hpres Hlinks Hq Hfr Hout Hj] Hc (Hcomp & _) Hno Hl. assert (c ∈ U) as HcU by by apply Hq.
  split; try done.
  - destruct Hb. by split.
  - apply paged_rows_fold; [done|]. intros x _ Hres. unfold resumable in Hres. by rewrite Hcomp in Hres.
  - intros l y. rewrite paged_links. intros [[Hin ->]|Hin]; [by split; [apply Hl|]|by apply Hlinks].
  - cbn. set_solver.
  - intros d Hd. rewrite paged_judging, decide_False by (intros ->; done). by apply Hout.
  - intros d y Hd Hne Hnq Hnf. assert (c ≠ d) as Hcd by (intros ->; done).
    destruct (Hj d y Hd Hne) as [(q & Hq' & Hrest) Hsg]; [cbn in Hnq; set_solver|done|].
    split; [|done]. exists q. rewrite paged_judging, decide_False by done. done.
Qed.

Lemma weight_frame t t' d :
  (d ∈ st_queue t' ↔ d ∈ st_queue t) → st_judging t' !! d = st_judging t !! d → weight t' d = weight t d.
Proof.
  intros Hq Hj. unfold weight, left_of. rewrite Hj.
  destruct (decide (d ∈ st_queue t)) as [Hin|Hin]; [by rewrite decide_True by tauto|by rewrite decide_False by tauto].
Qed.

Definition load t : nat := potential h heaviest MAX_CHAIN_DEPTH (elements U) (weight t).

(** One claim of the queue, done with: it is lighter, only claims above it are heavier, and no
    other leaves the queue. *)
Definition worked t t' (c : string) : Prop :=
  settling t' ∧ (st_fresh t' = st_fresh t ∧ st_verdict_roots t' = st_verdict_roots t) ∧ (weight t' c < weight t c)%nat ∧
  (∀ d, d ≠ c → (h d <= h c)%nat → weight t' d = weight t d) ∧ (∀ d, d ≠ c → d ∈ st_queue t → d ∈ st_queue t').

Lemma worked_load t t' c : c ∈ U → worked t t' c → (load t' < load t)%nat.
Proof using Htame.
  intros Hc (_ & _ & Hlt & Hle & _). apply (potential_drops _ _ _ _ (tm_depth _ _ Htame) _ _ c); [by apply elem_of_elements|done| |].
  - intros d Hd Hh. by rewrite (Hle d Hd Hh).
  - intros d. apply weight_bound.
Qed.

Lemma weight_unqueued t c : c ∉ st_queue t → weight t c = 0.
Proof. intros Hc. unfold weight. by rewrite decide_False. Qed.

Lemma weight_queued t c : c ∈ st_queue t → weight t c = S (left_of s roots t c).
Proof. intros Hc. unfold weight. by rewrite decide_True. Qed.

Lemma worked_row t u c x : c ∈ st_queue t → st_claims s !! c = Some x → c ∉ st_queue u → settling u →
  st_fresh u = st_fresh t ∧ st_verdict_roots u = st_verdict_roots t → (∀ d, d ≠ c → (d ∈ st_queue u ↔ d ∈ st_queue t) ∧ st_judging u !! d = st_judging t !! d) → ∀ changed : bool,
  worked t (if changed then queue_affected_by_row_tx (stc_row x) u else u) c.
Proof.
  intros Hc Hx Hnc Hu Hfresh Hframe changed.
  assert (worked t u c) as Hw.
  { split_and!; [done|apply Hfresh|apply Hfresh| | |].
    - rewrite (weight_unqueued _ _ Hnc), (weight_queued _ _ Hc). lia.
    - intros d Hd _. destruct (Hframe d Hd). by apply weight_frame.
    - intros d Hd Hin. by apply (Hframe d Hd). }
  destruct changed; [|done]. destruct Hw as (_ & _ & Hlt & Hle & Hkeep). split_and!.
  - by apply queue_row_settling.
  - destruct Hfresh as [<- _]. unfold queue_affected_by_row_tx. by destruct (affected_link _).
  - destruct Hfresh as [_ <-]. unfold queue_affected_by_row_tx. by destruct (affected_link _).
  - by rewrite (proj1 (queue_row_weight c x u c Hu Hx ltac:(lia))).
  - intros d Hd Hh. rewrite (proj1 (queue_row_weight c x u d Hu Hx Hh)). by apply Hle.
  - intros d Hd Hin. pose proof (Hkeep d Hd Hin). unfold queue_affected_by_row_tx. destruct (affected_link _); [|done]. cbn. set_solver.
Qed.

Lemma judge_queued_ref c a :
  settling (ps_tables a) → c ∈ st_queue (ps_tables a) → memo_ok s roots h (ps_memo a) → (ps_candidates a < CANDIDATE_PAGE)%nat →
  ∃ a', judge_queued roots c a = Ok a' ∧ memo_ok s roots h (ps_memo a') ∧ worked (ps_tables a) (ps_tables a') c.
Proof using Htame H0.
  intros Ht Hc Hm Hpage. unfold judge_queued. rewrite (proj2 (Nat.leb_gt _ _) Hpage).
  set (t := ps_tables a) in *. set (t1 := set_queue (st_queue t ∖ {[c]}) t).
  pose proof (se_based _ Ht) as Hb. unfold claim_row. change (st_claims t1) with (st_claims t). rewrite (ba_claims _ Hb).
  destruct (st_claims s !! c) as [x|] eqn:Hx; cbn [fmap option_fmap option_map].
  2:{ eexists. split_and!; [done|done|]. split_and!; [by apply unqueue_settling|done|done| | |].
      - rewrite (weight_unqueued t1), (weight_queued t) by (done || (cbn; set_solver)). lia.
      - intros d Hd _. apply weight_frame; [cbn; set_solver|done].
      - cbn. set_solver. }
  assert (based t1) as Hb1 by (destruct Hb; by split).
  destruct (advance_ref t1 c x (ps_memo a) (CANDIDATE_PAGE - ps_candidates a))
    as (adv & p' & links & -> & Hm' & Hlinks & Hcases); [done|apply (se_rows _ Ht)|done|done|lia|]. cbn [result_bind].
  destruct Hcases as [(-> & Etab & done' & todo & Hf & Hlen)|(-> & Etab & Hrow)].
  - eexists. split_and!; [done|done|]. cbn [ps_tables]. rewrite Etab.
    assert (paged t1 c p' links true = paged t c p' links true) as ->.
    { assert ({[c]} ∪ st_queue t ∖ {[c]} = {[c]} ∪ st_queue t) as E by
        (apply set_eq; intros d; destruct (decide (d = c)); set_solver).
      unfold paged, t1, set_queue, set_judging, set_links. cbn. by rewrite E. }
    split_and!; [by eapply page_settling|done|done| | |].
    + rewrite !weight_queued by (done || (cbn; set_solver)). unfold left_of at 1. rewrite paged_judging, decide_True by done.
      rewrite (folding_resumable _ _ _ _ _ Hf), (fo_after _ _ _ _ _ _ _ _ Hf), length_fmap.
      change (left_of s roots t1 c) with (left_of s roots t c) in Hlen. lia.
    + intros d Hd _. apply weight_frame; [cbn; set_solver|]. by rewrite paged_judging, decide_False.
    + cbn. set_solver.
  - destruct (decide (candidates_of s c = [])) as [Hno|Hsome].
    + assert (ref s roots h c = (Unsigned, None)) as -> by by rewrite (ref_eq s roots h Htame c x Hx), Hno.
      eexists. split_and!; [done|done|]. cbn [ps_tables]. rewrite Etab.
      apply (worked_row t (paged t1 c p' links false) c x Hc Hx) with (changed := false);
        [cbn; set_solver|by apply unsigned_settling|done|].
      intros d Hd. rewrite paged_judging, decide_False by done. split; [cbn; set_solver|done].
    + destruct (ref_signed c x Hx Hsome) as [sg Hsg]. destruct (ref s roots h c) as [v o] eqn:Eref. cbn in Hsg. subst o.
      rewrite Etab. destruct (write_verdict_ref t c p' links sg Ht) as [changed Ew]. rewrite Eref in Ew. cbn [fst] in Ew. fold t1 in Ew.
      rewrite Ew. cbn [result_bind]. eexists. split_and!; [done|done|]. cbn [ps_tables].
      apply (worked_row t (written t c p' links sg) c x Hc Hx);
        [cbn; set_solver|eapply written_settling; try done; by rewrite Eref|done|].
      intros d Hd. rewrite written_judging, decide_False by done. split; [cbn; set_solver|done].
Qed.

Lemma judge_all_ref ids : ∀ a, NoDup ids → (∀ c, c ∈ ids → c ∈ st_queue (ps_tables a)) → settling (ps_tables a) →
  memo_ok s roots h (ps_memo a) →
  ∃ a', judge_all roots ids a = Ok a' ∧ settling (ps_tables a') ∧
    (st_fresh (ps_tables a') = st_fresh (ps_tables a) ∧ st_verdict_roots (ps_tables a') = st_verdict_roots (ps_tables a)) ∧
    (load (ps_tables a') <= load (ps_tables a))%nat ∧
    (ids ≠ [] → (ps_candidates a < CANDIDATE_PAGE)%nat → load (ps_tables a') < load (ps_tables a))%nat.
Proof using Htame H0.
  induction ids as [|c ids IH]; intros a Hnd Hin Ht Hm; [by exists a|].
  apply NoDup_cons in Hnd as [Hc Hnd]. cbn [judge_all].
  destruct (decide (ps_candidates a < CANDIDATE_PAGE)%nat) as [Hpage|Hpage].
  - destruct (judge_queued_ref c a) as (a1 & -> & Hm1 & Hw); [done|apply Hin; left|done|done|]. cbn [result_bind].
    assert (c ∈ U) as HcU by (apply (se_queue _ Ht), Hin; left).
    pose proof (worked_load _ _ _ HcU Hw) as Hlt. destruct Hw as (Ht1 & Hf1 & _ & _ & Hkeep).
    destruct (IH a1) as (a' & -> & Ht' & Hf' & Hle & _); [done| |done|done|].
    { intros d Hd. apply Hkeep; [|apply Hin; by right]. intros ->. done. }
    exists a'. destruct Hf1, Hf'. split_and!; [done|done|congruence|congruence|lia|lia].
  - unfold judge_queued. rewrite (proj2 (Nat.leb_le _ _)) by lia. cbn [result_bind].
    destruct (IH a) as (a' & -> & Ht' & Hf' & Hle & _); [done|intros d Hd; apply Hin; by right|done|done|].
    exists a'. destruct Hf'. split_and!; [done..|lia].
Qed.

(** ** A turn of the loop *)

Lemma queue_fresh_alt t c :
  queue_fresh t c = queue_affected_by_tx c (set_fresh (st_fresh t ∖ {[c]}) (set_queue ({[c]} ∪ st_queue t) t)).
Proof.
  unfold queue_fresh, queue_affected_by_tx, queue_affected_by_row_tx, claim_row. cbn [st_claims set_fresh set_queue].
  destruct (stc_row <$> st_claims t !! c) as [row|]; [|done]. destruct (affected_link row) as [l|]; [|done].
  unfold queue_linked_tx, mark_dirty, set_queue, set_judging, set_fresh. cbn. f_equal. set_solver.
Qed.

Lemma queue_fresh_settling t c : c ∈ st_fresh t → settling t → settling (queue_fresh t c).
Proof.
  intros Hc [Hb Hrows Hfac Hpres Hlinks Hq Hfr Hout Hj]. rewrite queue_fresh_alt. apply queue_affected_settling.
  split; try done.
  - destruct Hb. by split.
  - cbn. set_solver.
  - cbn. set_solver.
  - intros d x Hd Hne Hnq Hnf. cbn in Hnq, Hnf. apply (Hj d x Hd Hne); set_solver.
Qed.

Lemma queue_fresh_fresh t c : st_fresh (queue_fresh t c) = st_fresh t ∖ {[c]}.
Proof.
  rewrite queue_fresh_alt. unfold queue_affected_by_tx, queue_affected_by_row_tx.
  destruct (claim_row _ c) as [row|]; [|done]. by destruct (affected_link row).
Qed.

Lemma queue_freshes_settling l : ∀ t, NoDup l → (∀ c, c ∈ l → c ∈ st_fresh t) → settling t →
  settling (foldl queue_fresh t l) ∧ st_fresh (foldl queue_fresh t l) = st_fresh t ∖ list_to_set l.
Proof.
  induction l as [|c l IH]; intros t Hnd Hin Ht; cbn [foldl list_to_set]; [by rewrite difference_empty_L|].
  apply NoDup_cons in Hnd as [Hc Hnd].
  destruct (IH (queue_fresh t c)) as [Ht' ->]; [done| |apply queue_fresh_settling; [apply Hin; left|done]|].
  - intros d Hd. rewrite queue_fresh_fresh. apply elem_of_difference. split; [apply Hin; by right|].
    rewrite elem_of_singleton. congruence.
  - split; [done|]. rewrite queue_fresh_fresh. set_solver.
Qed.

Lemma take_scan_nil (X : gset string) n : (0 < n)%nat → take n (scan X) = [] → X = ∅.
Proof using H0.
  intros Hn Hnil. assert (scan X = []) as Hs by (destruct (scan X), n; done || lia).
  pose proof (scan_perm X) as Hp. rewrite Hs in Hp. symmetry in Hp. apply Permutation_nil_r in Hp.
  apply elements_empty_inv in Hp. by apply leibniz_equiv.
Qed.

Lemma take_scan_sub (X : gset string) n c : c ∈ take n (scan X) → c ∈ X.
Proof using H0.
  intros Hin. apply elem_of_elements. rewrite <- scan_perm. rewrite <- (take_drop n (scan X)). apply elem_of_app. by left.
Qed.

Lemma take_scan_NoDup (X : gset string) n : NoDup (take n (scan X)).
Proof using H0.
  assert (NoDup (scan X)) as Hnd by (rewrite scan_perm; apply NoDup_elements).
  rewrite <- (take_drop n (scan X)) in Hnd. by apply NoDup_app in Hnd as (? & _ & _).
Qed.

Lemma available_state t : judging_available t = Ok true →
  migration_state t = Ok (st_migration t) ∧ mg_fault (st_migration t) = None ∧
  (mg_phase (st_migration t) = "done" ∨ mg_phase (st_migration t) = "judging").
Proof.
  unfold judging_available, migration_state. repeat (case_match; try done). cbn. intros [= Hav]. bool_prop.
  split_and!; [done|done|]. set_solver.
Qed.

Lemma finish_available t : judging_available t = Ok true → judging_available (finish_judging t) = Ok true.
Proof.
  intros Hav. destruct (available_state _ Hav) as (Hst & Hfault & Hphase). unfold finish_judging.
  destruct (String.eqb (mg_phase (st_migration t)) "judging" && _ && _ && _ && _) eqn:E; [|done]. bool_prop.
  unfold judging_available, migration_state. cbn. rewrite Hfault. cbn.
  repeat match goal with H : (_ =? 0)%Z = true |- _ => rewrite H end.
  by repeat match goal with H : _ = 0%Z |- _ => rewrite H end.
Qed.

Lemma note_available n t : judging_available (note_work n t) = judging_available t.
Proof.
  unfold note_work. destruct (String.eqb (mg_phase (st_migration t)) "done"); [done|].
  unfold judging_available, migration_state. cbn. by repeat (case_match; try done).
Qed.

Lemma migration_settling t m : judging_available (set_migration m t) = Ok true → settling t → settling (set_migration m t).
Proof. intros Hav [Hb Hrows Hfac Hpres Hlinks Hq Hfr Hout Hj]. split; try done. by destruct Hb. Qed.

Lemma finish_settling t : settling t → settling (finish_judging t).
Proof.
  intros Ht. pose proof (finish_available _ (ba_available _ (se_based _ Ht))) as Hav. unfold finish_judging in *.
  destruct (_ && _); [|done]. by apply migration_settling.
Qed.

Lemma note_settling n t : settling t → settling (note_work n t).
Proof.
  intros Ht. pose proof (note_available n t) as Hav. rewrite (ba_available _ (se_based _ Ht)) in Hav. unfold note_work in *.
  destruct (String.eqb _ _); [done|]. by apply migration_settling.
Qed.

Lemma check_settling t : settling t → settling (check_roots roots t).
Proof.
  intros Ht. unfold check_roots. case_bool_decide; [done|]. apply (queue_linked_settling root_link) in Ht.
  destruct Ht as [Hb Hrows Hfac Hpres Hlinks Hq Hfr Hout Hj]. split; try done. by destruct Hb.
Qed.

Lemma check_again t : check_roots roots (check_roots roots t) = check_roots roots t.
Proof. unfold check_roots at 1. unfold check_roots at 1. repeat case_bool_decide; try done. Qed.

(** What is left of a pass: fresh claims first, then the load of the queue. *)
Definition work t : nat := (size (st_fresh t) * S (potential h heaviest MAX_CHAIN_DEPTH (elements U) heaviest) + load t)%nat.

Lemma load_bound t : (load t <= potential h heaviest MAX_CHAIN_DEPTH (elements U) heaviest)%nat.
Proof. apply sum_list_with_le. intros c _. apply Nat.mul_le_mono_r, weight_bound. Qed.

(** The pass is over: nothing waits, and bootstrap, if it was under way, is done. *)
Definition over t : Prop := settling t ∧ st_queue t = ∅ ∧ st_fresh t = ∅ ∧ migration_done (st_migration t) = true.

Lemma queue_freshes_roots l : ∀ t, st_verdict_roots (foldl queue_fresh t l) = st_verdict_roots t.
Proof.
  induction l as [|c l IH]; intros t; [done|]. cbn [foldl]. rewrite IH, queue_fresh_alt.
  unfold queue_affected_by_tx, queue_affected_by_row_tx. destruct (claim_row _ c); [|done]. by destruct (affected_link _).
Qed.

Lemma finish_done t :
  judging_available t = Ok true → st_queue t = ∅ → st_fresh t = ∅ → migration_done (st_migration (finish_judging t)) = true.
Proof.
  intros Hav Hq Hf. destruct (available_state _ Hav) as (Hst & Hfault & Hphase). unfold finish_judging, migration_done.
  destruct Hphase as [E|E]; rewrite E; cbn; rewrite Hfault; [by rewrite E|].
  unfold migration_state in Hst. rewrite E in Hst. cbn in Hst. rewrite Hq, Hf. cbn.
  destruct (_ && _ && _) eqn:Ez in Hst; [|done]. rewrite Ez. done.
Qed.

Lemma finish_tables t : st_queue (finish_judging t) = st_queue t ∧ st_fresh (finish_judging t) = st_fresh t.
Proof. unfold finish_judging. by destruct (_ && _). Qed.

Lemma note_work_load n t : load (note_work n t) = load t ∧ st_fresh (note_work n t) = st_fresh t ∧
  st_verdict_roots (note_work n t) = st_verdict_roots t ∧ st_queue (note_work n t) = st_queue t.
Proof. unfold note_work. by destruct (String.eqb _ _). Qed.

Lemma turn_ref check track t :
  settling t → (check || track = true → check_roots roots t = t) →
  ∃ t' n idle, judge_turn check track roots t = Ok (t', n, idle) ∧
    if idle then over t' else settling t' ∧ (work t' < work t)%nat ∧ st_verdict_roots t' = st_verdict_roots t.
Proof using Htame H0.
  intros Ht Hcheck. unfold judge_turn.
  replace (if check || track then check_roots roots t else t) with t by (destruct (check || track); [by rewrite Hcheck|done]).
  set (fresh := take JUDGE_CHUNK (scan (st_fresh t))).
  destruct (queue_freshes_settling fresh t) as [Ht1 Hf1]; [apply take_scan_NoDup|intros c; apply take_scan_sub|done|].
  set (t1 := foldl queue_fresh t fresh) in *. set (queued := take JUDGE_CHUNK (scan (st_queue t1))).
  assert (st_verdict_roots t1 = st_verdict_roots t) as Hr1 by apply queue_freshes_roots.
  destruct (judge_all_ref queued {| ps_tables := t1; ps_memo := ∅; ps_candidates := 0; ps_judged := 0 |})
    as (a & Ea & Ht2 & [Hf2 Hr2] & Hle & Hlt); [apply take_scan_NoDup|intros c; apply take_scan_sub|done|by intros i v|].
  rewrite Ea. cbn [result_bind ps_tables] in *.
  set (t3 := if track && _ then note_work _ _ else _).
  assert (load t3 = load (ps_tables a) ∧ st_fresh t3 = st_fresh (ps_tables a) ∧ st_queue t3 = st_queue (ps_tables a) ∧
    st_verdict_roots t3 = st_verdict_roots (ps_tables a) ∧ settling t3) as (Hload & Hf3 & Hq3 & Hr3 & Ht3).
  { unfold t3. destruct (track && _); [|done].
    destruct (note_work_load (Z.of_nat (ps_candidates a)) (ps_tables a)) as (-> & -> & -> & ->). split_and!; [done..|].
    by apply note_settling. }
  eexists _, _, _. split; [done|]. destruct (bool_decide (fresh = [])) eqn:Efresh; bool_prop; cbn [andb].
  - assert (st_fresh t = ∅) as Hempty by (apply (take_scan_nil _ JUDGE_CHUNK); [unfold JUDGE_CHUNK; lia|done]).
    assert (t1 = t) as E1 by (unfold t1; by rewrite Efresh).
    destruct (bool_decide (queued = [])) eqn:Equeued; bool_prop.
    + rewrite Equeued in Ea. injection Ea as <-. cbn [ps_tables] in Hq3, Hf3.
      assert (st_queue t1 = ∅) as Hq by (apply (take_scan_nil _ JUDGE_CHUNK); [unfold JUDGE_CHUNK; lia|done]).
      destruct (finish_tables t3) as [Eq Ef]. split_and!; [by apply finish_settling|by rewrite Eq, Hq3|by rewrite Ef, Hf3, E1|].
      apply finish_done; [apply (ba_available _ (se_based _ Ht3))|by rewrite Hq3|by rewrite Hf3, E1].
    + split_and!; [done| |congruence]. unfold work. rewrite Hf3, Hf2, Hload, E1.
      pose proof (Hlt Equeued ltac:(unfold CANDIDATE_PAGE; cbn; lia)) as Hlt'. rewrite E1 in Hlt'. lia.
  - split_and!; [done| |congruence]. unfold work. rewrite Hf3, Hf2, Hf1, Hload. pose proof (load_bound (ps_tables a)) as Hb.
    assert (size (st_fresh t ∖ list_to_set fresh) < size (st_fresh t))%nat as Hsize.
    { apply subset_size. destruct fresh as [|c l] eqn:El; [done|].
      assert (c ∈ st_fresh t) as Hc by (apply (take_scan_sub _ JUDGE_CHUNK); fold fresh; rewrite El; left).
      set_solver. }
    nia.
Qed.

Lemma check_fixed t : check_roots roots t = t ↔ st_verdict_roots t = Some (hash_roots roots).
Proof.
  unfold check_roots. case_bool_decide as E; [done|]. split; [|done]. intros Ht. by rewrite <- Ht.
Qed.

Lemma loop_ref check track fuel : ∀ t n, settling t → (check || track = true → check_roots roots t = t) → (work t < fuel)%nat →
  ∃ t' m, judge_loop fuel check track roots n t = Some (Ok (t', m)) ∧ over t'.
Proof using Htame H0.
  induction fuel as [|fuel IH]; intros t n Ht Hc Hw; [lia|]. cbn [judge_loop].
  destruct (turn_ref check track t Ht Hc) as (t' & m & idle & -> & Hturn). destruct idle.
  - by eexists _, _.
  - destruct Hturn as (Ht' & Hlt & Hr). apply IH; [done| |lia]. intros Hct. apply check_fixed. rewrite Hr. by apply check_fixed, Hc.
Qed.

(** When bootstrap is done, the candidates' cache serves. *)
Lemma done_serves t :
  judging_available t = Ok true → migration_done (st_migration t) = true →
  legacy_active t = Ok false ∧ migration_unavailable t = Ok None.
Proof.
  intros Hav Hdone. destruct (available_state _ Hav) as (Hst & Hfault & _).
  assert (mg_phase (st_migration t) = "done") as Hphase.
  { unfold migration_done in Hdone. bool_prop. by apply String.eqb_eq. }
  unfold migration_unavailable, unavailable_reason. rewrite Hst. cbn [result_bind]. rewrite Hfault, Hdone. split; [|done].
  unfold migration_state in Hst. unfold legacy_active. rewrite Hphase in Hst |- *. cbn in Hst |- *.
  destruct (_ && negb _) in Hst; [done|]. by destruct (mg_serving_legacy (st_migration t)).
Qed.

Lemma complete_count t c p :
  based t → candidates_of s c ≠ [] → st_judging t !! c = Some p → jr_complete p = true → jr_dirty p = false → jr_blocked p = false →
  jr_candidate_count p = candidate_count s c → judging_complete t c = true.
Proof using Htame H0.
  intros Hb Hsome Hp E1 E2 E3 E4. unfold judging_complete. rewrite Hp, E1, E2, E3, (ba_candidates _ Hb). cbn [negb andb].
  pose proof (candidate_count_length s h Htame c) as Hcount. rewrite (proj1 (candidate_texts_signatures s h Htame c)), length_fmap in Hcount.
  unfold candidate_count in *. destruct (ca_counts (st_candidates s) !! c) as [count|]; cbn in *; [by apply Z.eqb_eq|].
  destruct (candidates_of s c); [done|]. cbn in Hcount. lia.
Qed.

Lemma over_served t c x :
  over t → (∀ d, d ∈ U → candidates_of s d ≠ []) → st_claims s !! c = Some x →
  claim_verdict t c = Ok (ref s roots h c).1 ∧ (candidates_of s c ≠ [] → serving_signature t c = Ok (ref s roots h c).2).
Proof using Htame H0.
  intros (Ht & Hq & Hf & Hdone) HU Hx.
  destruct (done_serves t (ba_available _ (se_based _ Ht)) Hdone) as [Ea Eu].
  unfold claim_verdict, serving_signature. rewrite Ea, Eu. cbn [result_bind]. unfold judging_unavailable.
  assert (candidate_count t c = candidate_count s c) as -> by (unfold candidate_count; by rewrite (ba_candidates _ (se_based _ Ht))).
  rewrite (candidate_count_length s h Htame).
  destruct (decide (candidates_of s c = [])) as [Hno|Hsome].
  - rewrite (proj1 (candidate_texts_signatures s h Htame c)), Hno. cbn [fmap list_fmap length Z.of_nat Z.gtb Z.compare andb].
    assert (c ∉ U) as HcU by (intros Hin; by apply (HU c)). destruct (se_outside _ Ht c HcU) as [-> Hv]. cbn [orb].
    split; [|done]. unfold cached_verdict. rewrite Hv. cbn [fmap option_fmap option_map default]. by rewrite (ref_eq s roots h Htame c x Hx), Hno.
  - destruct (se_judged _ Ht c x Hx Hsome) as [(p & Hp & E1 & E2 & E3 & E4) (sg & Eref & Hv & Hs)];
      [by rewrite Hq; apply not_elem_of_empty|by rewrite Hf; apply not_elem_of_empty|].
    rewrite (complete_count t c p (se_based _ Ht) Hsome Hp E1 E2 E3 E4), Hp, E1, E2, E3. cbn [negb orb]. rewrite andb_false_r. unfold cached_verdict, stored_signature, read_signature. rewrite Hv, Hs, Eref. cbn.
    rewrite verdict_from_name, parse_signature_text. done.
Qed.

(** The name the cache has for a claim once the pass is over. *)
Lemma over_name t c x :
  over t → (∀ d, d ∈ U → candidates_of s d ≠ []) → st_claims s !! c = Some x →
  default "unsigned" ((vr_verdict <$> st_verdicts t) !! c) = verdict_name (ref s roots h c).1.
Proof using Htame H0.
  intros (Ht & Hq & Hf & _) HU Hx. rewrite lookup_fmap. destruct (decide (candidates_of s c = [])) as [Hno|Hsome].
  - assert (c ∉ U) as HcU by (intros Hin; by apply (HU c)). destruct (se_outside _ Ht c HcU) as [_ ->].
    by rewrite (ref_eq s roots h Htame c x Hx), Hno.
  - destruct (se_judged _ Ht c x Hx Hsome) as [_ (sg & _ & -> & _)];
      [by rewrite Hq; apply not_elem_of_empty|by rewrite Hf; apply not_elem_of_empty|]. done.
Qed.
End settle.

(** ** Rechecking gives the reference *)

Section recheck.
Context `{SigCodecLaws, Crypto}.
Implicit Types s : SigTables.

(** What storing signatures keeps: every claim with a candidate has a signature to show, every
    signature shown can be read, and only claims with candidates are fresh. *)
Record stored_ok s : Prop := {
  sk_facades c r : st_signatures s !! c = Some r → ∃ sg, sr_signature r = sig_to_string sg;
  sk_present k : k ∈ dom (ca_rows (st_candidates s)) → is_Some (st_signatures s !! k.1);
  sk_fresh c : c ∈ st_fresh s → c ∈ (set_map fst (dom (ca_rows (st_candidates s))) : gset string)
}.

Lemma unavailable_available s : migration_unavailable s = Ok None →
  judging_available s = Ok true ∧ migration_state s = Ok (st_migration s) ∧ migration_done (st_migration s) = true.
Proof.
  unfold migration_unavailable, judging_available. intros (m & Hm & [= Hr])%result_bind_Ok.
  assert (m = st_migration s) as -> by (unfold migration_state in Hm; by repeat (case_match; try done); simplify_eq).
  rewrite Hm. cbn. unfold unavailable_reason in Hr. destruct (mg_fault (st_migration s)) eqn:Ef; [done|].
  destruct (migration_done (st_migration s)) eqn:Ed; [|done]. split_and!; [|done|done].
  unfold migration_done in Ed. bool_prop. destruct (String.eqb_spec (mg_phase (st_migration s)) "done") as [->|]; [|done]. done.
Qed.

Lemma signed_elem s h c : tame s h →
  c ∈ (set_map fst (dom (ca_rows (st_candidates s))) : gset string) ↔ candidates_of s c ≠ [].
Proof using H0.
  intros Ht. rewrite elem_of_map. split.
  - intros ([c' text] & -> & Hin). cbn. apply elem_of_candidate_texts in Hin.
    rewrite (proj1 (candidate_texts_signatures s h Ht c')) in Hin. intros E. rewrite E in Hin. by apply elem_of_nil in Hin.
  - intros Hne. destruct (candidates_of s c) as [|a l] eqn:E; [done|]. exists (c, sig_to_string a). split; [done|].
    apply (elem_of_candidates s h Ht). rewrite E. left.
Qed.

Lemma emptied_settling s roots h : tame s h → judging_available s = Ok true → stored_ok s →
  settling s roots h (st_fresh (emptied s)) (emptied s).
Proof using H0.
  intros Ht Hav [Hfac Hpres Hfr]. split; try done.
  intros c x Hx Hne _ Hnf. exfalso. apply Hnf. cbn. apply elem_of_union. left. by apply (signed_elem s h c Ht).
Qed.

Lemma emptied_signed s h d : tame s h → stored_ok s → d ∈ st_fresh (emptied s) → candidates_of s d ≠ [].
Proof using H0.
  intros Ht Hok [Hd|Hd]%elem_of_union; [|apply (sk_fresh _ Hok) in Hd]; by apply (signed_elem s h d Ht).
Qed.

Lemma recheck_loop s roots h : tame s h → migration_unavailable s = Ok None → stored_ok s →
  ∃ bound, ∀ fuel, (bound <= fuel)%nat →
  ∃ t n, judge_claims_inner fuel true roots (emptied s) = Some (Ok (t, n)) ∧ over s roots h (st_fresh (emptied s)) t.
Proof using H0.
  intros Ht Hun Hok. destruct (unavailable_available s Hun) as (Hav & Hst & Hdone).
  pose proof (emptied_settling s roots h Ht Hav Hok) as Hset.
  pose proof (check_settling s roots h _ _ Hset) as Hset'.
  set (U := st_fresh (emptied s)) in *. exists (S (work s roots h U (check_roots roots (emptied s)))). intros fuel Hfuel.
  destruct (decide (st_fresh (emptied s) = ∅)) as [Hnone|Hsome].
  - exists (check_roots roots (emptied s)), 0. unfold judge_claims_inner.
    change (migration_state (emptied s)) with (migration_state s). rewrite Hst, Hdone.
    assert (st_fresh (check_roots roots (emptied s)) = ∅ ∧ st_queue (check_roots roots (emptied s)) = ∅) as [E1 E2].
    { unfold check_roots. case_bool_decide; [done|]. split; [done|]. cbn. set_solver. }
    rewrite E1, E2. unfold migration_done in Hdone. bool_prop.
    destruct (String.eqb_spec (mg_phase (st_migration s)) "done") as [Ep|]; [|done]. rewrite Ep.
    rewrite (bool_decide_eq_false_2 (mg_fault (st_migration s) ≠ None)) by auto. split; [done|].
    split_and!; [done..|]. unfold check_roots. case_bool_decide; cbn; unfold migration_done; rewrite Ep;
      by rewrite bool_decide_eq_true_2.
  - rewrite (judge_claims_pending fuel true roots (emptied s) (st_migration s)) by (done || by left).
    apply (loop_ref s roots h Ht); [done| |lia]. intros _. apply check_again.
Qed.

Lemma elem_of_mismatches cached recomputed c :
  (∃ m, m ∈ mismatches cached recomputed ∧ vm_claim_id m = c) ↔
  default "unsigned" (cached !! c) ≠ default "unsigned" (recomputed !! c).
Proof.
  unfold mismatches. setoid_rewrite list_elem_of_omap. split.
  - intros (m & (id & _ & Hm) & <-). destruct (String.eqb_spec (default "unsigned" (cached !! id)) (default "unsigned" (recomputed !! id))); [done|].
    by injection Hm as <-.
  - intros Hne. eexists. split; [exists c; split|].
    + apply elem_of_bset_of_list, elem_of_app. rewrite !elem_of_elements, !elem_of_dom.
      destruct (cached !! c); [by left; eexists|]. destruct (recomputed !! c); [by right; eexists|done].
    + by rewrite (proj2 (String.eqb_neq _ _) Hne).
    + done.
Qed.

(** C10: Rechecking recomputes every verdict from the claims, on a store whose authority is
    tame: no claim relies on itself through the delegations its signatures name and the
    revocations of the keys those grant (so no revocation is signed with the key it revokes),
    such reliance is at most [MAX_CHAIN_DEPTH] deep, and no grant or revocation has more than
    [CANDIDATE_PAGE] signatures; other claims may have any number.  Where besides the stored
    signatures can be read, every signed claim has one to show, only signed claims are fresh,
    and the migration of signatures is done, the judging loop over the emptied cache ends;
    then every claim is served with the verdict and the signature of the reference fold, and
    the mismatches reported are exactly the claims whose cached verdict was another. *)
Theorem recheck_exact s roots h :
  tame s h → migration_unavailable s = Ok None → stored_ok s →
  ∃ bound, ∀ fuel, (bound <= fuel)%nat →
  ∃ s' ms, recheck_claim_verdicts fuel roots s = Some (Ok (s', ms)) ∧ st_queue s' = ∅ ∧ st_fresh s' = ∅ ∧
    ∀ c x, st_claims s !! c = Some x →
      let reference := ref_judge s roots (S MAX_CHAIN_DEPTH) c in
      claim_verdict s' c = Ok reference.1 ∧
      (candidates_of s c ≠ [] → serving_signature s' c = Ok reference.2) ∧
      ((∃ m, m ∈ ms ∧ vm_claim_id m = c) ↔
       default "unsigned" (vr_verdict <$> st_verdicts s !! c) ≠ verdict_name reference.1).
Proof using H0.
  intros Ht Hun Hok. destruct (recheck_loop s roots h Ht Hun Hok) as [bound Hloop]. exists bound. intros fuel Hfuel.
  destruct (Hloop fuel Hfuel) as (t & n & E & Hover). exists t, (mismatches (vr_verdict <$> st_verdicts s) (vr_verdict <$> st_verdicts t)).
  split_and!; [unfold recheck_claim_verdicts; by rewrite Hun, E|apply Hover|apply Hover|].
  intros c x Hx reference. assert (reference = ref s roots h c) as ->.
  { apply (ref_stable s roots h Ht). pose proof (tm_depth _ _ Ht c). lia. }
  assert (∀ d, d ∈ st_fresh (emptied s) → candidates_of s d ≠ []) as HU by (intros d; by apply (emptied_signed s h)).
  destruct (over_served s roots h Ht _ t c x Hover HU Hx) as [Hv Hs]. split_and!; [done|done|].
  rewrite elem_of_mismatches, (over_name s roots h Ht _ t c x Hover HU Hx), lookup_fmap. done.
Qed.

(** C34: Judging one claim with the store's memory of the pass is the reference fold, on a
    store whose authority is tame (as above: no claim relies on itself, reliance is at most
    [MAX_CHAIN_DEPTH] deep, and no grant or revocation has more than [CANDIDATE_PAGE]
    signatures), when judging is available and the claim itself has at most
    [CANDIDATE_PAGE] signatures: the verdict and the signature it is about are those of
    [judge] over facts read directly from the claims. *)
Theorem judge_claim_reference s roots h c :
  tame s h → judging_available s = Ok true → few s c →
  ∃ links memo, judge_claim s roots MAX_CHAIN_DEPTH c ∅ =
    (Ok ((ref_judge s roots (S MAX_CHAIN_DEPTH) c).1, links, (ref_judge s roots (S MAX_CHAIN_DEPTH) c).2), memo).
Proof using H0.
  intros Ht Hav Hfew. pose proof (tm_depth _ _ Ht c) as Hd.
  destruct (judge_claim_ref s roots h Ht Hav MAX_CHAIN_DEPTH c Hd Hfew ∅) as (links & memo & E & _); [by intros i v|].
  exists links, memo. rewrite E, (ref_stable s roots h Ht); [done|lia].
Qed.
End recheck.

(** ** A person, a device and a note *)

Section example.
#[local] Existing Instance demo_codec.
#[local] Existing Instance demo_codec_laws.
#[local] Existing Instance toy_crypto.

Definition demo_height (c : string) : nat :=
  if String.eqb c "c3" then 2 else if String.eqb c "g2" then 1 else 0.

Lemma candidate_texts_size (ca : CandidateTables) c : (length (candidate_texts ca c) <= size (dom (ca_rows ca)))%nat.
Proof.
  unfold candidate_texts. set (X := filter _ _).
  transitivity (length (snd <$> elements X)).
  - apply submseteq_length, NoDup_submseteq; [apply bset_wf_NoDup, bset_of_list_wf|]. intros t. apply elem_of_bset_of_list.
  - rewrite length_fmap. change (length (elements X)) with (size X). apply subseteq_size. unfold X. set_solver.
Qed.

Lemma demo_dom : dom (ca_rows (st_candidates demo_store)) =
  {[("c3", sig_to_string (demo_sign demo_note "person/a" "d" ["g2"; "g1"]));
    ("g2", sig_to_string (demo_sign demo_g2 "person/a" "r" ["g1"]));
    ("g1", sig_to_string (demo_sign demo_g1 "host/h" "n" []))]}.
Proof. apply (bool_decide_unpack _). vm_compute. exact I. Qed.

Lemma demo_candidate c sg : (c, sig_to_string sg) ∈ dom (ca_rows (st_candidates demo_store)) →
  c = "c3" ∧ cs_chain sg = ["g2"; "g1"] ∨ c = "g2" ∧ cs_chain sg = ["g1"] ∨ c = "g1" ∧ cs_chain sg = [].
Proof.
  assert (∀ a b, sig_to_string a = sig_to_string b → a = b) as Hinj.
  { intros a b E. pose proof (sig_roundtrip a) as Ha. rewrite E, sig_roundtrip in Ha. by injection Ha. }
  rewrite demo_dom, !elem_of_union, !elem_of_singleton. intros [[E|E]|E];
    pose proof (f_equal fst E) as Ec; apply (f_equal snd) in E; cbn [fst snd] in Ec, E; apply Hinj in E; subst; auto.
Qed.

Lemma demo_claims r y : st_claims demo_store !! r = Some y →
  (r = "g1" ∧ y = demo_g1) ∨ (r = "g2" ∧ y = demo_g2) ∨ (r = "c3" ∧ y = demo_note) ∨ (r = "r4" ∧ y = demo_revoked).
Proof.
  change (st_claims demo_store) with
    ({["g1" := demo_g1; "g2" := demo_g2; "c3" := demo_note; "r4" := demo_revoked]} : gmap string StoredClaim).
  rewrite !lookup_insert_Some, lookup_singleton_Some. naive_solver.
Qed.

Lemma demo_few c : few demo_store c.
Proof. unfold few. etransitivity; [apply candidate_texts_size|]. rewrite demo_dom. apply Nat.leb_le. vm_compute. reflexivity. Qed.

Lemma demo_tame : tame demo_store demo_height.
Proof.
  split.
  - intros c x Hx. by destruct (demo_claims c x Hx) as [[-> ->]|[[-> ->]|[[-> ->]|[-> ->]]]].
  - do 3 apply store_candidate_wf. split; cbn [ca_rows ca_sources ca_counts ca_writer_counts st_candidates empty_tables].
    + intros k. by rewrite dom_empty_L.
    + by intros k.
    + set_solver.
  - intros k. rewrite demo_dom, !elem_of_union, !elem_of_singleton. intros [[->| ->]| ->]; by eexists.
  - intros c x _ _. apply demo_few.
  - intros c sg i x Hc%demo_candidate Hi _ _. destruct Hc as [[-> E]|[[-> E]|[-> E]]]; rewrite E in Hi;
      repeat (apply elem_of_cons in Hi as [->|Hi]; [apply Nat.ltb_lt; reflexivity|]); by apply elem_of_nil in Hi.
  - intros c sg i x g r y k Hc%demo_candidate Hi _ _ Hy%demo_claims Hr _ _.
    destruct Hy as [[-> ->]|[[-> ->]|[[-> ->]|[-> _]]]]; [discriminate Hr..|].
    destruct Hc as [[-> E]|[[-> E]|[-> E]]]; [apply Nat.ltb_lt; reflexivity..|]. rewrite E in Hi. by apply elem_of_nil in Hi.
  - intros c. unfold demo_height. repeat case_match; unfold MAX_CHAIN_DEPTH; lia.
Qed.

Lemma demo_stored : stored_ok demo_store.
Proof.
  assert (st_signatures demo_store =
    {["g1" := signature_row (demo_sign demo_g1 "host/h" "n" []) (sig_to_string (demo_sign demo_g1 "host/h" "n" []));
      "g2" := signature_row (demo_sign demo_g2 "person/a" "r" ["g1"]) (sig_to_string (demo_sign demo_g2 "person/a" "r" ["g1"]));
      "c3" := signature_row (demo_sign demo_note "person/a" "d" ["g2"; "g1"]) (sig_to_string (demo_sign demo_note "person/a" "d" ["g2"; "g1"]))]})
    as E by (vm_compute; reflexivity).
  split.
  - intros c r. rewrite E, !lookup_insert_Some, lookup_singleton_Some.
    intros [[_ <-]|[_ [[_ <-]|[_ [_ <-]]]]]; by eexists.
  - intros k. rewrite demo_dom, !elem_of_union, !elem_of_singleton, E. intros [[->| ->]| ->]; by eexists.
  - intros c Hc. assert (st_fresh demo_store = {["g1"; "g2"; "c3"]}) as Ef by (vm_compute; reflexivity).
    rewrite demo_dom. rewrite Ef in Hc. rewrite !elem_of_union, !elem_of_singleton in Hc.
    apply elem_of_map. destruct Hc as [[->| ->]| ->]; eexists (_, _); (split; [reflexivity|]);
      rewrite !elem_of_union, !elem_of_singleton; eauto.
Qed.

Lemma recheck_exact_witness :
  ∃ fuel s' ms, recheck_claim_verdicts fuel demo_roots demo_store = Some (Ok (s', ms)) ∧
    claim_verdict s' "c3" = Ok Verified ∧ claim_verdict s' "r4" = Ok Unsigned.
Proof.
  destruct (recheck_exact demo_store demo_roots demo_height demo_tame) as [bound Hb];
    [vm_compute; reflexivity|apply demo_stored|].
  destruct (Hb bound (le_n bound)) as (s' & ms & E & _ & _ & Hs). exists bound, s', ms. split; [exact E|]. split.
  - destruct (Hs "c3" demo_note) as [-> _]; vm_compute; reflexivity.
  - destruct (Hs "r4" demo_revoked) as [-> _]; vm_compute; reflexivity.
Defined.

Lemma judge_claim_reference_witness :
  ∃ links memo signature, judge_claim demo_store demo_roots MAX_CHAIN_DEPTH "c3" ∅ = (Ok (Verified, links, Some signature), memo).
Proof.
  destruct (judge_claim_reference demo_store demo_roots demo_height "c3" demo_tame) as (links & memo & E); [vm_compute; reflexivity|apply demo_few|].
  exists links, memo, (demo_sign demo_note "person/a" "d" ["g2"; "g1"]). rewrite E.
  replace (ref_judge demo_store demo_roots (S MAX_CHAIN_DEPTH) "c3")
    with (Verified, Some (demo_sign demo_note "person/a" "d" ["g2"; "g1"])) by (vm_compute; reflexivity).
  reflexivity.
Defined.

(** The claim that shares a nonce is sent back when the other is forgotten. *)
Lemma forget_exact_witness :
  ∃ s', forget_claim_tx "g1" demo_store = Ok s' ∧ no_row "g1" s' ∧ others_kept "g1" demo_store s'.
Proof.
  destruct (forget_exact "g1" demo_store false) as (s' & E & Hno & _ & Hkept & _).
  - apply (tm_wf _ _ demo_tame).
  - vm_compute. reflexivity.
  - discriminate.
  - exists s'. split; [exact E|]. split; assumption.
Defined.
End example.
