(* ===== verification/FleetStore.v ===== *)
(** * The stored fleet and its generation
    (crates/smallclaims/src/store.rs: [fleet_generation_schema],
    [fleet_membership_tx_with_local_signer], [fleet_membership], [sealed_fleet_view_tx])

    Membership is folded from fleet claims, the batches and envelopes that carry them and
    the signatures on those envelopes.  The fold is expensive, so its result is cached
    under a counter that triggers on five tables move.  The tables, every trigger and the
    two caches are modelled here; the theorem shows that a cache hit is the membership of
    the tables as they are, whatever statements ran in between. *)

From stdpp Require Import gmap.
From S2P Require Import Prelude BTree Json Membership FleetView Retired WriterHeads.

Local Open Scope string_scope.

(** ** The tables *)

(** [ClaimRecord]: a row of [claims]; the operation is read from the body. *)
Record ClaimRecord := {
  cm_id : string;
  cm_batch_id : string;
  cm_subject : string;
  cm_kind : string;
  cm_origin : string;
  cm_actor : option string;
  cm_body : Value;
  cm_predecessors : list string;
  cm_accepted_at_unix_ms : Z
}.

(** [EnvelopePayload]: bytes, or text that is not base64. *)
Inductive EnvelopePayload :=
| PayloadBytes (bytes : list ascii)
| InvalidBase64 (text : string).

(** A row of [replica_envelopes]; times are TEXT. *)
Record ReplicaEnvelopeRow := {
  ev_previous_hash : option string;
  ev_accepted_at_unix_ms : string;
  ev_payload : EnvelopePayload;
  ev_batch_id : option string;
  ev_relay : string;
  ev_receipt_state : string;
  ev_validation_error : option string;
  ev_received_at_unix_ms : string;
  ev_rowid : Z
}.

(** [claims], [batches] (with the heads and tombstones of [Writers]), [replica_envelopes],
    [replica_envelope_signatures] by identity and member key, the anchor of [meta] and
    the counter of [fleet_generation]. *)
Record FleetTables := {
  ft_claims : gmap string ClaimRecord;
  ft_writers : Writers;
  ft_envelopes : gmap envelope_key ReplicaEnvelopeRow;
  ft_signatures : gmap (envelope_key * string) string;
  ft_anchor : option string;
  ft_generation : Z
}.

Definition set_claims (x : gmap string ClaimRecord) (t : FleetTables) : FleetTables :=
  {| ft_claims := x; ft_writers := ft_writers t; ft_envelopes := ft_envelopes t; ft_signatures := ft_signatures t;
     ft_anchor := ft_anchor t; ft_generation := ft_generation t |}.
Definition set_writers (x : Writers) (t : FleetTables) : FleetTables :=
  {| ft_claims := ft_claims t; ft_writers := x; ft_envelopes := ft_envelopes t; ft_signatures := ft_signatures t;
     ft_anchor := ft_anchor t; ft_generation := ft_generation t |}.
Definition set_envelopes (x : gmap envelope_key ReplicaEnvelopeRow) (t : FleetTables) : FleetTables :=
  {| ft_claims := ft_claims t; ft_writers := ft_writers t; ft_envelopes := x; ft_signatures := ft_signatures t;
     ft_anchor := ft_anchor t; ft_generation := ft_generation t |}.
Definition set_envelope_signatures (x : gmap (envelope_key * string) string) (t : FleetTables) : FleetTables :=
  {| ft_claims := ft_claims t; ft_writers := ft_writers t; ft_envelopes := ft_envelopes t; ft_signatures := x;
     ft_anchor := ft_anchor t; ft_generation := ft_generation t |}.
Definition set_anchor (x : option string) (t : FleetTables) : FleetTables :=
  {| ft_claims := ft_claims t; ft_writers := ft_writers t; ft_envelopes := ft_envelopes t;
     ft_signatures := ft_signatures t; ft_anchor := x; ft_generation := ft_generation t |}.

(** [UPDATE fleet_generation SET value=value+1], when a trigger's condition holds. *)
Definition bump_when (condition : bool) (t : FleetTables) : FleetTables :=
  {| ft_claims := ft_claims t; ft_writers := ft_writers t; ft_envelopes := ft_envelopes t;
     ft_signatures := ft_signatures t; ft_anchor := ft_anchor t;
     ft_generation := (ft_generation t + if condition then 1 else 0)%Z |}.

Definition FLEET_CLAIM_KINDS : list string :=
  [MEMBER_ADMITTED; MEMBER_ENDPOINTS; MEMBER_LEFT; MEMBER_REMOVED;
   "fleet.invite-created"; "fleet.invite-redeemed"; "fleet.invite-revoked"].
Definition fleet_kind (kind : string) : bool := bool_decide (kind ∈ FLEET_CLAIM_KINDS).

(** The row of [batches] with this id. *)
Definition batch_of (t : FleetTables) (id : string) : option Batch :=
  List.find (λ b, String.eqb (ba_id b) id) (wr_batches (ft_writers t)).

(** [carries_fleet_claims]: a fleet claim has this batch. *)
Definition carries_fleet_claims (t : FleetTables) (batch : option string) : bool :=
  bool_decide (map_Exists (λ (_ : string) c, batch = Some (cm_batch_id c) ∧ fleet_kind (cm_kind c) = true) (ft_claims t)).

(** [signs_fleet_claims]: an envelope of the signature's batch carries a fleet claim. *)
Definition carried_under (t : FleetTables) (k : envelope_key) (row : ReplicaEnvelopeRow) (signed : envelope_key) : bool :=
  match ev_batch_id row ≫= batch_of t with
  | Some b => String.eqb k.2 signed.2 && String.eqb (ba_origin b) signed.1.1 && (ba_replica_sequence b =? signed.1.2)%Z &&
              carries_fleet_claims t (Some (ba_id b))
  | None => false
  end.
Definition signs_fleet_claims (t : FleetTables) (signed : envelope_key) : bool :=
  bool_decide (map_Exists (λ k row, carried_under t k row signed = true) (ft_envelopes t)).

(** ** Reading membership *)

(** The member keys that signed an envelope of this batch. *)
Definition batch_signers (t : FleetTables) (b : Batch) : gset string :=
  set_map snd (filter (λ s : envelope_key * string,
    s.1.1 = (ba_origin b, ba_replica_sequence b) ∧
    map_Exists (λ (k : envelope_key) row, k.2 = s.1.2 ∧ ev_batch_id row = Some (ba_id b)) (ft_envelopes t))
    (dom (ft_signatures t))).

(** A batch not sealed yet is signed by this node, when its key is given. *)
Definition local_signers (t : FleetTables) (local_signer : option (string * string)) (b : Batch) : gset string :=
  match local_signer with
  | Some (origin, key) =>
      if String.eqb (ba_origin b) origin &&
         negb (bool_decide (map_Exists (λ (_ : envelope_key) row, ev_batch_id row = Some (ba_id b)) (ft_envelopes t)))
      then {[key]} else ∅
  | None => ∅
  end.

(** The fields of a claim's body. *)
Definition fields_of (body : Value) : BTreeMap string Value :=
  match value_get "fields" body with
  | Some (Object fields) => foldl (λ m f, bmap_insert f.1 f.2 m) [] fields
  | _ => []
  end.

(** One claim of [fleet_claims_with_signers_query], with the signers of its envelopes. *)
Definition fleet_claim (t : FleetTables) (local_signer : option (string * string)) (id : string) : option FleetClaim :=
  c ← ft_claims t !! id;
  if fleet_kind (cm_kind c) then
    b ← batch_of t (cm_batch_id c);
    Some {| fc_id := id; fc_kind := cm_kind c; fc_subject := cm_subject c; fc_fields := fields_of (cm_body c);
            fc_writer := ba_origin b; fc_sequence := ba_replica_sequence b;
            fc_signers := bset_of_list (elements (batch_signers t b ∪ local_signers t local_signer b)) |}
  else None.

Definition fleet_claims_with_signers (t : FleetTables) (local_signer : option (string * string)) : list FleetClaim :=
  omap (fleet_claim t local_signer) (bset_of_list (elements (dom (ft_claims t)))).

Definition fleet_membership_tx_with_local_signer (t : FleetTables) (local_signer : option (string * string)) : Membership :=
  match ft_anchor t with
  | None => membership_default
  | Some anchor => fold (Some anchor) (fleet_claims_with_signers t local_signer)
  end.
Definition fleet_membership_tx (t : FleetTables) : Membership := fleet_membership_tx_with_local_signer t None.

(** [sealed_fleet_view_tx]: in one read snapshot, the view and the cache after it. *)
Definition sealed_fleet_view_tx (t : FleetTables) (cache : option (Z * FleetView)) : FleetView * option (Z * FleetView) :=
  let fresh := let view := from_membership (fleet_membership_tx t) in (view, Some (ft_generation t, view)) in
  match cache with
  | Some (generation, view) => if (generation =? ft_generation t)%Z then (view, cache) else fresh
  | None => fresh
  end.

(** ** The statements and their triggers *)

Inductive FleetOp :=
| InsertClaim (c : ClaimRecord)
| DeleteClaim (id : string)
| UpdateClaim (id : string) (c : ClaimRecord) (content identity : bool)
| InsertEnvelope (k : envelope_key) (row : ReplicaEnvelopeRow)
| DeleteEnvelope (k : envelope_key)
| UpdateEnvelope (k k' : envelope_key) (row : ReplicaEnvelopeRow) (batch identity : bool)
| InsertSignature (k : envelope_key) (member_key signature : string)
| DeleteSignature (k : envelope_key) (member_key : string)
| UpdateSignature (k : envelope_key) (member_key : string) (k' : envelope_key) (member_key' signature : string)
| InsertBatch (b : Batch)
| DeleteBatch (b : Batch)
| UpdateBatch (b b' : Batch) (identity : bool)
| ChangeWriters (w : Writers)
| SetAnchor (anchor : option string).

(** [INSERT OR IGNORE INTO claims] with [fleet_generation_claim_insert]. *)
Definition insert_claim_row (c : ClaimRecord) (t : FleetTables) : FleetTables :=
  match ft_claims t !! cm_id c with
  | Some _ => t
  | None => bump_when (fleet_kind (cm_kind c)) (set_claims (<[cm_id c := c]> (ft_claims t)) t)
  end.
(** [fleet_generation_claim_delete] *)
Definition delete_claim_row (id : string) (t : FleetTables) : FleetTables :=
  match ft_claims t !! id with
  | Some c => bump_when (fleet_kind (cm_kind c)) (set_claims (delete id (ft_claims t)) t)
  | None => t
  end.
(** [fleet_generation_claim_update] fires when kind, batch or body is assigned, and
    [fleet_generation_claim_identity_update] when id or subject is. *)
Definition update_claim_row (old c : ClaimRecord) (content identity : bool) (t : FleetTables) : FleetTables :=
  let fleet := fleet_kind (cm_kind c) || fleet_kind (cm_kind old) in
  bump_when (identity && fleet) (bump_when (content && fleet)
    (set_claims (<[cm_id c := c]> (delete (cm_id old) (ft_claims t))) t)).

(** [fleet_generation_envelope_insert] and [_delete]. *)
Definition insert_envelope_row (k : envelope_key) (row : ReplicaEnvelopeRow) (t : FleetTables) : FleetTables :=
  match ft_envelopes t !! k with
  | Some _ => t
  | None => let t := set_envelopes (<[k := row]> (ft_envelopes t)) t in bump_when (carries_fleet_claims t (ev_batch_id row)) t
  end.
Definition delete_envelope_row (k : envelope_key) (t : FleetTables) : FleetTables :=
  match ft_envelopes t !! k with
  | Some row => let t := set_envelopes (delete k (ft_envelopes t)) t in bump_when (carries_fleet_claims t (ev_batch_id row)) t
  | None => t
  end.
(** [fleet_generation_envelope_update] fires when the batch is assigned, and
    [fleet_generation_envelope_identity_update] when it or a part of the key is. *)
Definition update_envelope_row (k k' : envelope_key) (old row : ReplicaEnvelopeRow) (batch identity : bool)
    (t : FleetTables) : FleetTables :=
  let t := set_envelopes (<[k' := row]> (delete k (ft_envelopes t))) t in
  let now := carries_fleet_claims t (ev_batch_id row) in
  bump_when (identity && (carries_fleet_claims t (ev_batch_id old) || now)) (bump_when (batch && now) t).

(** [fleet_generation_signature_insert_by_batch], [_delete_by_batch] and [_update_by_batch]. *)
Definition insert_signature_row (k : envelope_key) (member_key signature : string) (t : FleetTables) : FleetTables :=
  match ft_signatures t !! (k, member_key) with
  | Some _ => t
  | None => bump_when (signs_fleet_claims t k) (set_envelope_signatures (<[(k, member_key) := signature]> (ft_signatures t)) t)
  end.
Definition delete_signature_row (k : envelope_key) (member_key : string) (t : FleetTables) : FleetTables :=
  match ft_signatures t !! (k, member_key) with
  | Some _ => bump_when (signs_fleet_claims t k) (set_envelope_signatures (delete (k, member_key) (ft_signatures t)) t)
  | None => t
  end.
Definition update_signature_row (k : envelope_key) (member_key : string) (k' : envelope_key)
    (member_key' signature : string) (t : FleetTables) : FleetTables :=
  bump_when (signs_fleet_claims t k' || signs_fleet_claims t k)
    (set_envelope_signatures (<[(k', member_key') := signature]> (delete (k, member_key) (ft_signatures t))) t).

(** [fleet_generation_batch_insert], [_delete] and [_update]. *)
Definition insert_batch_row (b : Batch) (t : FleetTables) : FleetTables :=
  bump_when (carries_fleet_claims t (Some (ba_id b))) (set_writers (insert_batch b (ft_writers t)) t).
Definition delete_batch_row (b : Batch) (t : FleetTables) : FleetTables :=
  bump_when (carries_fleet_claims t (Some (ba_id b))) (set_writers (delete_batch b (ft_writers t)) t).
Definition replace_batch (b b' : Batch) (w : Writers) : Writers :=
  set_batches ((λ x, if String.eqb (ba_id x) (ba_id b) then b' else x) <$> wr_batches w) (wr_heads w) w.
Definition update_batch_row (b b' : Batch) (identity : bool) (t : FleetTables) : FleetTables :=
  bump_when (identity && (carries_fleet_claims t (Some (ba_id b)) || carries_fleet_claims t (Some (ba_id b'))))
    (set_writers (replace_batch b b' (ft_writers t)) t).

(** The three triggers on [meta]: any write of the anchor moves the counter. *)
Definition write_anchor (anchor : option string) (t : FleetTables) : FleetTables := bump_when true (set_anchor anchor t).

(** A statement changes only the columns it assigns, and keeps keys unique. *)
Inductive fleet_step : FleetTables → FleetOp → FleetTables → Prop :=
| fstep_insert_claim t c : fleet_step t (InsertClaim c) (insert_claim_row c t)
| fstep_delete_claim t id : fleet_step t (DeleteClaim id) (delete_claim_row id t)
| fstep_update_claim t id old c content identity :
    ft_claims t !! id = Some old → cm_id old = id → (cm_id c = id ∨ ft_claims t !! cm_id c = None) →
    (content = false → cm_kind c = cm_kind old ∧ cm_batch_id c = cm_batch_id old ∧ cm_body c = cm_body old) →
    (identity = false → cm_id c = cm_id old ∧ cm_subject c = cm_subject old) →
    fleet_step t (UpdateClaim id c content identity) (update_claim_row old c content identity t)
| fstep_insert_envelope t k row : fleet_step t (InsertEnvelope k row) (insert_envelope_row k row t)
| fstep_delete_envelope t k : fleet_step t (DeleteEnvelope k) (delete_envelope_row k t)
| fstep_update_envelope t k k' old row batch identity :
    ft_envelopes t !! k = Some old → (k' = k ∨ ft_envelopes t !! k' = None) →
    (batch = true → identity = true) → (identity = false → k' = k ∧ ev_batch_id row = ev_batch_id old) →
    fleet_step t (UpdateEnvelope k k' row batch identity) (update_envelope_row k k' old row batch identity t)
| fstep_insert_signature t k key signature :
    fleet_step t (InsertSignature k key signature) (insert_signature_row k key signature t)
| fstep_delete_signature t k key : fleet_step t (DeleteSignature k key) (delete_signature_row k key t)
| fstep_update_signature t k key k' key' signature :
    is_Some (ft_signatures t !! (k, key)) → ((k', key') = (k, key) ∨ ft_signatures t !! (k', key') = None) →
    fleet_step t (UpdateSignature k key k' key' signature) (update_signature_row k key k' key' signature t)
| fstep_insert_batch t b : batch_of t (ba_id b) = None → fleet_step t (InsertBatch b) (insert_batch_row b t)
| fstep_delete_batch t b : batch_of t (ba_id b) = Some b → fleet_step t (DeleteBatch b) (delete_batch_row b t)
| fstep_update_batch t b b' identity :
    batch_of t (ba_id b) = Some b → (ba_id b' = ba_id b ∨ batch_of t (ba_id b') = None) →
    (identity = false → ba_id b' = ba_id b ∧ ba_origin b' = ba_origin b ∧ ba_replica_sequence b' = ba_replica_sequence b) →
    fleet_step t (UpdateBatch b b' identity) (update_batch_row b b' identity t)
| fstep_writers t w : wr_batches w = wr_batches (ft_writers t) → fleet_step t (ChangeWriters w) (set_writers w t)
| fstep_anchor t anchor : fleet_step t (SetAnchor anchor) (write_anchor anchor t).

(** ** A statement that leaves the counter leaves the fold's input *)

Lemma carries_spec t batch :
  carries_fleet_claims t batch = true ↔
  ∃ id c, ft_claims t !! id = Some c ∧ batch = Some (cm_batch_id c) ∧ fleet_kind (cm_kind c) = true.
Proof. unfold carries_fleet_claims. rewrite bool_decide_eq_true. by apply map_Exists_lookup. Qed.

Lemma carries_of t id c :
  ft_claims t !! id = Some c → fleet_kind (cm_kind c) = true → carries_fleet_claims t (Some (cm_batch_id c)) = true.
Proof. intros. apply carries_spec. eauto. Qed.

Lemma elem_of_batch_signers t b key :
  key ∈ batch_signers t b ↔
  ∃ h (k : envelope_key) row, is_Some (ft_signatures t !! ((ba_origin b, ba_replica_sequence b, h), key)) ∧
    ft_envelopes t !! k = Some row ∧ k.2 = h ∧ ev_batch_id row = Some (ba_id b).
Proof.
  unfold batch_signers. rewrite elem_of_map. setoid_rewrite elem_of_filter. setoid_rewrite elem_of_dom.
  split.
  - intros ([[ws h] key'] & -> & (Hws & (k & row & Hk & Hh & Hb)%map_Exists_lookup) & Hs). cbn in *. subst ws. naive_solver.
  - intros (h & k & row & Hs & Hk & Hh & Hb). exists ((ba_origin b, ba_replica_sequence b, h), key). split; [done|].
    split; [|done]. split; [done|]. apply map_Exists_lookup. naive_solver.
Qed.

(** What the fold reads of a batch. *)
Definition batch_ident (b : Batch) : string * string * Z := (ba_id b, ba_origin b, ba_replica_sequence b).

Definition same_signers (t t' : FleetTables) (b : Batch) : Prop :=
  (∀ key, key ∈ batch_signers t' b ↔ key ∈ batch_signers t b) ∧
  ((∃ (k : envelope_key) row, ft_envelopes t' !! k = Some row ∧ ev_batch_id row = Some (ba_id b)) ↔
   (∃ (k : envelope_key) row, ft_envelopes t !! k = Some row ∧ ev_batch_id row = Some (ba_id b))).

Lemma local_signers_same t t' local b : same_signers t t' b → local_signers t' local b = local_signers t local b.
Proof.
  intros [_ Hs]. unfold local_signers. destruct local as [[origin key]|]; [|done].
  rewrite (bool_decide_ext _ (map_Exists (λ (_ : envelope_key) row, ev_batch_id row = Some (ba_id b)) (ft_envelopes t))); [done|].
  by rewrite !map_Exists_lookup.
Qed.

Lemma batch_signers_ident t b b' : batch_ident b = batch_ident b' → batch_signers t b = batch_signers t b'.
Proof. unfold batch_ident. intros [= Hi Ho Hs]. unfold batch_signers. by rewrite Hi, Ho, Hs. Qed.

Lemma local_signers_ident t local b b' : batch_ident b = batch_ident b' → local_signers t local b = local_signers t local b'.
Proof. unfold batch_ident. intros [= Hi Ho Hs]. unfold local_signers. by rewrite Hi, Ho. Qed.

Lemma batch_of_id t id b : batch_of t id = Some b → ba_id b = id.
Proof. intros [_ H]%find_some_filter. by apply String.eqb_eq. Qed.

Lemma fleet_claim_ext t t' local id :
  (∀ c, fleet_kind (cm_kind c) = true → ft_claims t' !! id = Some c ↔ ft_claims t !! id = Some c) →
  (∀ c, ft_claims t !! id = Some c → fleet_kind (cm_kind c) = true →
     batch_ident <$> batch_of t' (cm_batch_id c) = batch_ident <$> batch_of t (cm_batch_id c) ∧
     ∀ b, batch_of t (cm_batch_id c) = Some b → same_signers t t' b) →
  fleet_claim t' local id = fleet_claim t local id.
Proof.
  intros Hc Hb. unfold fleet_claim.
  destruct (ft_claims t !! id) as [c|] eqn:E; cbn [mbind option_bind].
  - destruct (fleet_kind (cm_kind c)) eqn:Ef.
    + rewrite (proj2 (Hc c Ef) eq_refl). cbn [mbind option_bind]. rewrite Ef. destruct (Hb c eq_refl Ef) as [Hid Hsame].
      destruct (batch_of t (cm_batch_id c)) as [b|] eqn:Eb, (batch_of t' (cm_batch_id c)) as [b'|] eqn:Eb'; try done.
      injection Hid as Hi Ho Hs. cbn [mbind option_bind].
      assert (same_signers t t' b) as Hsig by (by apply Hsame).
      assert (batch_ident b' = batch_ident b) as Heq by (unfold batch_ident; by rewrite Hi, Ho, Hs).
      rewrite Ho, Hs, (batch_signers_ident _ _ _ Heq), (local_signers_ident _ _ _ _ Heq), (local_signers_same t t') by done.
      assert (batch_signers t' b = batch_signers t b) as -> by (apply set_eq; intros key; apply Hsig). done.
    + destruct (ft_claims t' !! id) as [c'|] eqn:E'; [|done]. cbn [mbind option_bind].
      destruct (fleet_kind (cm_kind c')) eqn:Ef'; [|done]. pose proof (proj1 (Hc c' Ef') eq_refl) as [= ->]. congruence.
  - destruct (ft_claims t' !! id) as [c'|] eqn:E'; [|done]. cbn [mbind option_bind].
    destruct (fleet_kind (cm_kind c')) eqn:Ef'; [|done]. by pose proof (proj1 (Hc c' Ef') eq_refl).
Qed.

Lemma same_signers_refl t t' b :
  ft_envelopes t' = ft_envelopes t → ft_signatures t' = ft_signatures t → same_signers t t' b.
Proof. intros He Hs. split; [intros key; rewrite !elem_of_batch_signers|]; by rewrite ?He, ?Hs. Qed.

(** The input of the fold is as before. *)
Definition same_input (t t' : FleetTables) : Prop :=
  ft_anchor t' = ft_anchor t ∧ ∀ local id, fleet_claim t' local id = fleet_claim t local id.

(** The counter does not fall, and where it stays the input stays. *)
Definition guarded (t t' : FleetTables) : Prop :=
  (ft_generation t <= ft_generation t')%Z ∧ (ft_generation t' = ft_generation t → same_input t t').

Lemma guarded_bump t t' condition :
  ft_generation t' = ft_generation t → (condition = false → same_input t t') → guarded t (bump_when condition t').
Proof.
  intros Hg Hs. split; cbn [ft_generation bump_when]; rewrite Hg; destruct condition; [lia|lia|lia|].
  intros _. destruct (Hs eq_refl) as [Ha Hf]. split; [done|]. intros local id. apply (Hf local id).
Qed.

Lemma guarded_bump2 t t' first second :
  ft_generation t' = ft_generation t → (first = false → second = false → same_input t t') →
  guarded t (bump_when second (bump_when first t')).
Proof.
  intros Hg Hs. split; cbn [ft_generation bump_when]; rewrite Hg; destruct first, second; try lia.
  intros _. destruct (Hs eq_refl eq_refl) as [Ha Hf]. split; [done|]. intros local id. apply (Hf local id).
Qed.

Lemma guarded_refl t : guarded t t.
Proof. split; [lia|]. intros _. by split. Qed.

Lemma signs_spec t k b :
  carries_fleet_claims t (Some (ba_id b)) = true → batch_of t (ba_id b) = Some b →
  k.1 = (ba_origin b, ba_replica_sequence b) →
  (∃ (k' : envelope_key) row, ft_envelopes t !! k' = Some row ∧ k'.2 = k.2 ∧ ev_batch_id row = Some (ba_id b)) →
  signs_fleet_claims t k = true.
Proof.
  intros Hc Hb Hk (k' & row & He & Hh & Hid). unfold signs_fleet_claims. apply bool_decide_eq_true, map_Exists_lookup.
  exists k', row. split; [done|]. unfold carried_under. rewrite Hid. cbn [mbind option_bind]. rewrite Hb, Hh, Hk, Hc. cbn [fst snd].
  by rewrite !String.eqb_refl, Z.eqb_refl.
Qed.

Lemma carries_ext t t' batch : ft_claims t' = ft_claims t → carries_fleet_claims t' batch = carries_fleet_claims t batch.
Proof. unfold carries_fleet_claims. by intros ->. Qed.

(** Rows of another batch do not matter to a fleet claim's batch. *)
Lemma carries_ne t b batch :
  carries_fleet_claims t (Some (ba_id b)) = true → carries_fleet_claims t batch = false → batch ≠ Some (ba_id b).
Proof. intros H H' ->. congruence. Qed.

Lemma same_signers_envelopes t t' b :
  ft_signatures t' = ft_signatures t →
  (∀ h, (∃ (k : envelope_key) row, ft_envelopes t' !! k = Some row ∧ k.2 = h ∧ ev_batch_id row = Some (ba_id b)) ↔
        (∃ (k : envelope_key) row, ft_envelopes t !! k = Some row ∧ k.2 = h ∧ ev_batch_id row = Some (ba_id b))) →
  same_signers t t' b.
Proof.
  intros Hs He. split.
  - intros key. rewrite !elem_of_batch_signers. rewrite Hs. naive_solver.
  - naive_solver.
Qed.

Lemma insert_claim_guarded c t : guarded t (insert_claim_row c t).
Proof.
  unfold insert_claim_row. destruct (ft_claims t !! cm_id c) as [old|] eqn:E; [apply guarded_refl|].
  apply guarded_bump; [done|]. intros Hk. split; [done|]. intros local id. apply fleet_claim_ext.
  - intros c' Hk'. cbn [ft_claims set_claims]. destruct (decide (cm_id c = id)) as [<-|Hne].
    + rewrite lookup_insert_eq, E. split; [intros [= ->]; congruence|done].
    + by rewrite lookup_insert_ne.
  - intros c' Hc' _. split; [done|]. intros b _. by apply same_signers_refl.
Qed.

Lemma delete_claim_guarded id t : guarded t (delete_claim_row id t).
Proof.
  unfold delete_claim_row. destruct (ft_claims t !! id) as [old|] eqn:E; [|apply guarded_refl].
  apply guarded_bump; [done|]. intros Hk. split; [done|]. intros local id'. apply fleet_claim_ext.
  - intros c' Hk'. cbn [ft_claims set_claims]. destruct (decide (id = id')) as [<-|Hne].
    + rewrite lookup_delete_eq, E. split; [done|]. intros [= ->]. congruence.
    + by rewrite lookup_delete_ne.
  - intros c' Hc' _. split; [done|]. intros b _. by apply same_signers_refl.
Qed.

Lemma update_claim_guarded t old c content identity :
  ft_claims t !! cm_id old = Some old → (cm_id c = cm_id old ∨ ft_claims t !! cm_id c = None) →
  (content = false → cm_kind c = cm_kind old ∧ cm_batch_id c = cm_batch_id old ∧ cm_body c = cm_body old) →
  (identity = false → cm_id c = cm_id old ∧ cm_subject c = cm_subject old) →
  guarded t (update_claim_row old c content identity t).
Proof.
  intros Hold Hfree Hcontent Hidentity. unfold update_claim_row. apply guarded_bump2; [done|].
  intros Hfirst Hsecond. split; [done|]. intros local id.
  destruct (fleet_kind (cm_kind c) || fleet_kind (cm_kind old)) eqn:Hf.
  - (* nothing that the fold reads was assigned *)
    rewrite andb_true_r in Hfirst, Hsecond. subst content identity.
    destruct (Hcontent eq_refl) as (Hk & Hb & Hbody), (Hidentity eq_refl) as [Hid Hs].
    unfold fleet_claim. cbn [ft_claims set_claims]. rewrite Hid. destruct (decide (cm_id old = id)) as [<-|Hne].
    + rewrite lookup_insert_eq, Hold. cbn [mbind option_bind]. rewrite Hk, Hb, Hs, Hbody. done.
    + by rewrite lookup_insert_ne, lookup_delete_ne by done.
  - apply orb_false_iff in Hf as [Hf Hf']. apply fleet_claim_ext.
    + intros c' Hk'. cbn [ft_claims set_claims]. destruct (decide (cm_id c = id)) as [<-|Hne].
      * rewrite lookup_insert_eq. split; [intros [= ->]; congruence|]. intros E. destruct Hfree as [Hid|Hn]; [|congruence].
        rewrite Hid in E. congruence.
      * rewrite lookup_insert_ne by done. destruct (decide (cm_id old = id)) as [<-|Hne'].
        -- rewrite lookup_delete_eq. split; [done|]. congruence.
        -- by rewrite lookup_delete_ne.
    + intros c' Hc' _. split; [done|]. intros b _. by apply same_signers_refl.
Qed.

Lemma same_input_tables t t' :
  ft_anchor t' = ft_anchor t → ft_claims t' = ft_claims t →
  (∀ id, carries_fleet_claims t (Some id) = true → batch_ident <$> batch_of t' id = batch_ident <$> batch_of t id) →
  (∀ b, carries_fleet_claims t (Some (ba_id b)) = true → batch_of t (ba_id b) = Some b → same_signers t t' b) →
  same_input t t'.
Proof.
  intros Ha Hc Hb Hs. split; [done|]. intros local id. apply fleet_claim_ext; [by rewrite Hc|].
  intros c E Hk. pose proof (carries_of _ _ _ E Hk) as Hcarry. split; [by apply Hb|].
  intros b Eb. pose proof (batch_of_id _ _ _ Eb) as Hid. apply Hs; by rewrite Hid.
Qed.

Lemma insert_envelope_guarded k row t : guarded t (insert_envelope_row k row t).
Proof.
  unfold insert_envelope_row. destruct (ft_envelopes t !! k) eqn:E; [apply guarded_refl|]. cbn zeta.
  rewrite (carries_ext t) by done. apply guarded_bump; [done|]. intros Hn. apply same_input_tables; try done.
  intros b Hb _. apply same_signers_envelopes; [done|]. intros h. pose proof (carries_ne _ _ _ Hb Hn) as Hne.
  cbn [ft_envelopes set_envelopes]. setoid_rewrite lookup_insert_Some. split.
  - intros (k0 & row0 & [[<- <-]|[_ Hk]] & Hh & Hid); [done|eauto].
  - intros (k0 & row0 & Hk & Hh & Hid). exists k0, row0. split; [right; split; [intros ->; by rewrite E in Hk|done]|done].
Qed.

Lemma delete_envelope_guarded k t : guarded t (delete_envelope_row k t).
Proof.
  unfold delete_envelope_row. destruct (ft_envelopes t !! k) as [row|] eqn:E; [|apply guarded_refl]. cbn zeta.
  rewrite (carries_ext t) by done. apply guarded_bump; [done|]. intros Hn. apply same_input_tables; try done.
  intros b Hb _. apply same_signers_envelopes; [done|]. intros h. pose proof (carries_ne _ _ _ Hb Hn) as Hne.
  cbn [ft_envelopes set_envelopes]. setoid_rewrite lookup_delete_Some. split; [naive_solver|].
  intros (k' & row' & Hk & Hh & Hid). exists k', row'. split; [|done]. split; [intros ->; rewrite E in Hk; by injection Hk as ->|done].
Qed.

Lemma update_envelope_guarded t k k' old row batch identity :
  ft_envelopes t !! k = Some old → (k' = k ∨ ft_envelopes t !! k' = None) →
  (batch = true → identity = true) → (identity = false → k' = k ∧ ev_batch_id row = ev_batch_id old) →
  guarded t (update_envelope_row k k' old row batch identity t).
Proof.
  intros Hold Hfree Himpl Hidentity. unfold update_envelope_row. cbn zeta. rewrite !(carries_ext t) by done.
  apply guarded_bump2; [done|]. intros _ Hsecond. apply same_input_tables; try done.
  intros b Hb _. apply same_signers_envelopes; [done|]. intros h. cbn [ft_envelopes set_envelopes].
  setoid_rewrite lookup_insert_Some. setoid_rewrite lookup_delete_Some.
  destruct identity.
  - cbn [andb] in Hsecond. apply orb_false_iff in Hsecond as [H1 H2].
    pose proof (carries_ne _ _ _ Hb H1) as Hne1. pose proof (carries_ne _ _ _ Hb H2) as Hne2.
    split; [intros (k0 & row0 & [[<- <-]|(_ & _ & Hk)] & Hh & Hid); [done|eauto]|]. intros (k0 & row0 & Hk & Hh & Hid). exists k0, row0. split; [|done]. right.
    assert (k ≠ k0) as Hk0 by (intros ->; rewrite Hold in Hk; by injection Hk as ->). split; [|done].
    intros ->. destruct Hfree as [->|Hn]; [done|]. by rewrite Hn in Hk.
  - destruct (Hidentity eq_refl) as [-> Hbatch]. split.
    + intros (k0 & row0 & [[<- <-]|(Hne & Hne' & Hk)] & Hh & Hid); [|eauto]. exists k, old. by rewrite <-Hbatch.
    + intros (k0 & row0 & Hk & Hh & Hid). destruct (decide (k = k0)) as [<-|Hne]; [|eauto 10].
      exists k, row. split; [by left|]. split; [done|]. rewrite Hbatch. rewrite Hold in Hk. by injection Hk as ->.
Qed.

(** A signature no fleet claim's envelope carries. *)
Lemma unsigned_irrelevant t k b key h :
  carries_fleet_claims t (Some (ba_id b)) = true → batch_of t (ba_id b) = Some b → signs_fleet_claims t k = false →
  (∃ (k' : envelope_key) row, ft_envelopes t !! k' = Some row ∧ k'.2 = h ∧ ev_batch_id row = Some (ba_id b)) →
  ∀ key' : string, (k, key') ≠ ((ba_origin b, ba_replica_sequence b, h), key).
Proof.
  intros Hc Hb Hn (k' & row & He & Hh & Hid) key' [= -> ->].
  rewrite (signs_spec t _ b) in Hn; [done|done|done|done|]. naive_solver.
Qed.

Lemma signatures_same t t' :
  ft_anchor t' = ft_anchor t → ft_claims t' = ft_claims t → ft_writers t' = ft_writers t → ft_envelopes t' = ft_envelopes t →
  (∀ b key h, carries_fleet_claims t (Some (ba_id b)) = true → batch_of t (ba_id b) = Some b →
     (∃ (k' : envelope_key) row, ft_envelopes t !! k' = Some row ∧ k'.2 = h ∧ ev_batch_id row = Some (ba_id b)) →
     is_Some (ft_signatures t' !! ((ba_origin b, ba_replica_sequence b, h), key)) ↔
     is_Some (ft_signatures t !! ((ba_origin b, ba_replica_sequence b, h), key))) →
  same_input t t'.
Proof.
  intros Ha Hc Hw He Hs. apply same_input_tables; [done|done| |].
  - intros id _. unfold batch_of. by rewrite Hw.
  - intros b Hb Hbo. split; [|by rewrite He]. intros key. rewrite !elem_of_batch_signers, He.
    split; intros (h & k & row & Hsig & Hk & Hh & Hid); exists h, k, row; (split; [|done]); apply Hs in Hsig; eauto.
Qed.

Lemma insert_signature_guarded k key signature t : guarded t (insert_signature_row k key signature t).
Proof.
  unfold insert_signature_row. destruct (ft_signatures t !! (k, key)) eqn:E; [apply guarded_refl|].
  apply guarded_bump; [done|]. intros Hn. apply signatures_same; try done. intros b key' h Hb Hbo Hh.
  cbn [ft_signatures set_envelope_signatures]. by rewrite lookup_insert_ne by (by eapply unsigned_irrelevant).
Qed.

Lemma delete_signature_guarded k key t : guarded t (delete_signature_row k key t).
Proof.
  unfold delete_signature_row. destruct (ft_signatures t !! (k, key)) eqn:E; [|apply guarded_refl].
  apply guarded_bump; [done|]. intros Hn. apply signatures_same; try done. intros b key' h Hb Hbo Hh.
  cbn [ft_signatures set_envelope_signatures]. by rewrite lookup_delete_ne by (by eapply unsigned_irrelevant).
Qed.

Lemma update_signature_guarded k key k' key' signature t : guarded t (update_signature_row k key k' key' signature t).
Proof.
  unfold update_signature_row. apply guarded_bump; [done|]. intros [Hn' Hn]%orb_false_iff.
  apply signatures_same; try done. intros b key0 h Hb Hbo Hh. cbn [ft_signatures set_envelope_signatures].
  rewrite lookup_insert_ne by (by eapply unsigned_irrelevant). by rewrite lookup_delete_ne by (by eapply unsigned_irrelevant).
Qed.

Lemma batches_same t t' :
  ft_anchor t' = ft_anchor t → ft_claims t' = ft_claims t → ft_envelopes t' = ft_envelopes t →
  ft_signatures t' = ft_signatures t →
  (∀ id, carries_fleet_claims t (Some id) = true → batch_ident <$> batch_of t' id = batch_ident <$> batch_of t id) →
  same_input t t'.
Proof. intros Ha Hc He Hs Hb. apply same_input_tables; try done. intros b _ _. by apply same_signers_refl. Qed.

Lemma insert_batch_guarded t b : batch_of t (ba_id b) = None → guarded t (insert_batch_row b t).
Proof.
  intros Hb. apply guarded_bump; [done|]. intros Hn. apply batches_same; try done. intros id Hid. unfold batch_of.
  cbn [ft_writers set_writers insert_batch set_batches wr_batches].
  induction (wr_batches (ft_writers t)) as [|x l IH]; cbn [app List.find].
  - destruct (String.eqb_spec (ba_id b) id) as [<-|]; [congruence|done].
  - destruct (String.eqb (ba_id x) id); [done|apply IH].
Qed.

Lemma delete_batch_guarded t b : guarded t (delete_batch_row b t).
Proof.
  apply guarded_bump; [done|]. intros Hn. apply batches_same; try done. intros id Hid. unfold batch_of.
  cbn [ft_writers set_writers delete_batch set_batches wr_batches]. f_equal.
  assert (ba_id b ≠ id) as Hne by congruence.
  induction (wr_batches (ft_writers t)) as [|x l IH]; cbn [List.filter List.find]; [done|].
  destruct (String.eqb_spec (ba_id x) (ba_id b)) as [Hx|Hx]; cbn [negb List.find].
  - rewrite IH, Hx. by apply String.eqb_neq in Hne as ->.
  - by destruct (String.eqb (ba_id x) id).
Qed.

Lemma update_batch_guarded t b b' identity :
  (ba_id b' = ba_id b ∨ batch_of t (ba_id b') = None) → batch_of t (ba_id b) = Some b →
  (identity = false → ba_id b' = ba_id b ∧ ba_origin b' = ba_origin b ∧ ba_replica_sequence b' = ba_replica_sequence b) →
  guarded t (update_batch_row b b' identity t).
Proof.
  intros Hfree Hb Hidentity. apply guarded_bump; [done|]. intros Hn. apply batches_same; try done. intros id Hid.
  unfold batch_of in *. cbn [ft_writers set_writers replace_batch set_batches wr_batches].
  destruct identity; cbn [andb] in Hn.
  - apply orb_false_iff in Hn as [Hn Hn']. assert (ba_id b ≠ id) by congruence. assert (ba_id b' ≠ id) by congruence.
    f_equal. clear Hb Hfree. induction (wr_batches (ft_writers t)) as [|x l IH]; cbn [fmap list_fmap List.find]; [done|].
    destruct (String.eqb_spec (ba_id x) (ba_id b)) as [Hx|Hx].
    + rewrite Hx, !(proj2 (String.eqb_neq _ _)) by done. apply IH.
    + by destruct (String.eqb (ba_id x) id).
  - destruct (Hidentity eq_refl) as (Hi & Ho & Hs). clear Hfree Hn.
    induction (wr_batches (ft_writers t)) as [|x l IH]; cbn [fmap list_fmap List.find] in *; [done|].
    destruct (String.eqb_spec (ba_id x) (ba_id b)) as [Hx|Hx].
    + injection Hb as ->. rewrite Hi. destruct (String.eqb (ba_id b) id) eqn:E.
      * cbn. unfold batch_ident. by rewrite Hi, Ho, Hs.
      * clear IH Hx. f_equal. apply String.eqb_neq in E. induction l as [|y l IH]; cbn [fmap list_fmap List.find]; [done|].
        destruct (String.eqb_spec (ba_id y) (ba_id b)) as [Hy|Hy]; [rewrite Hi, Hy, (proj2 (String.eqb_neq _ _) E); apply IH|].
        by destruct (String.eqb (ba_id y) id).
    + destruct (String.eqb (ba_id x) id); [done|]. by apply IH.
Qed.

#[local] Hint Resolve insert_claim_guarded delete_claim_guarded update_claim_guarded insert_envelope_guarded
  delete_envelope_guarded update_envelope_guarded insert_signature_guarded delete_signature_guarded
  update_signature_guarded insert_batch_guarded delete_batch_guarded update_batch_guarded : claims.

Lemma fleet_step_guarded t op t' : fleet_step t op t' → guarded t t'.
Proof.
  destruct 1; subst; eauto with claims.
  - split; [done|]. intros _. apply batches_same; try done. intros id _. unfold batch_of. cbn. by rewrite H.
  - apply guarded_bump; [done|]. done.
Qed.

Lemma guarded_trans t t' t'' : guarded t t' → guarded t' t'' → guarded t t''.
Proof.
  intros [Hg Hs] [Hg' Hs']. split; [lia|]. intros E. destruct (Hs ltac:(lia)) as [Ha Hf], (Hs' ltac:(lia)) as [Ha' Hf'].
  split; [congruence|]. intros local id. by rewrite Hf', Hf.
Qed.

Lemma run_guarded t tr t' : run fleet_step t tr t' → guarded t t'.
Proof.
  induction 1 as [|t op t1 tr t2 Hstep _ IH]; [apply guarded_refl|].
  eapply guarded_trans; [by eapply fleet_step_guarded|done].
Qed.

(** ** The fold of the same input *)

Lemma fleet_claim_id t local id f : fleet_claim t local id = Some f → fc_id f = id.
Proof.
  unfold fleet_claim. destruct (ft_claims t !! id) as [c|]; [|done]. cbn [mbind option_bind].
  destruct (fleet_kind (cm_kind c)); [|done]. destruct (batch_of t (cm_batch_id c)); [|done]. cbn [mbind option_bind]. by intros [= <-].
Qed.

Lemma elem_of_fleet_claims t local f :
  f ∈ fleet_claims_with_signers t local ↔ fleet_claim t local (fc_id f) = Some f.
Proof.
  unfold fleet_claims_with_signers. rewrite list_elem_of_omap. setoid_rewrite elem_of_bset_of_list.
  setoid_rewrite elem_of_elements. setoid_rewrite elem_of_dom. split.
  - intros (id & _ & Hf). by rewrite (fleet_claim_id _ _ _ _ Hf).
  - intros Hf. exists (fc_id f). split; [|done]. unfold fleet_claim in Hf. destruct (ft_claims t !! fc_id f); [by eexists|done].
Qed.

Lemma fleet_claims_sorted t local : StronglySorted (key_lt fc_id) (fleet_claims_with_signers t local).
Proof.
  unfold fleet_claims_with_signers. pose proof (bset_of_list_wf (elements (dom (ft_claims t)))) as Hs.
  induction Hs as [|id l Hl IH Hid]; cbn [omap list_omap]; [constructor|].
  destruct (fleet_claim t local id) as [f|] eqn:E; [|done]. constructor; [done|].
  apply Forall_forall. intros f' (id' & Hid' & Hf')%list_elem_of_omap. unfold key_lt.
  rewrite (fleet_claim_id _ _ _ _ E), (fleet_claim_id _ _ _ _ Hf'). rewrite Forall_forall in Hid. by apply Hid.
Qed.

Lemma fleet_claims_NoDup t local : NoDup (fleet_claims_with_signers t local).
Proof.
  induction (fleet_claims_sorted t local) as [|f l Hl IH Hf]; constructor; [|done].
  rewrite Forall_forall in Hf. intros Hin%Hf. by apply lt_ord_irrefl in Hin.
Qed.

Lemma fleet_claims_same t t' local :
  (∀ id, fleet_claim t' local id = fleet_claim t local id) →
  fleet_claims_with_signers t' local = fleet_claims_with_signers t local.
Proof.
  intros Hf. apply (key_sorted_ext fc_id); [apply fleet_claims_sorted..|].
  apply NoDup_Permutation; [apply fleet_claims_NoDup..|].
  intros f. by rewrite !elem_of_fleet_claims, Hf.
Qed.

Lemma same_input_membership t t' local :
  same_input t t' → fleet_membership_tx_with_local_signer t' local = fleet_membership_tx_with_local_signer t local.
Proof. intros [Ha Hf]. unfold fleet_membership_tx_with_local_signer. by rewrite Ha, (fleet_claims_same t t'). Qed.

(** ** The caches *)

(** [fleet_membership] reads the counter, then the tables, then stores both; other
    statements may run between the two reads.  [membership_cache] and
    [sealed_fleet_cache] are lost when the process restarts. *)
Record FleetCaches := {
  fs_tables : FleetTables;
  fs_membership : option (Z * Membership);
  fs_folding : option Z;
  fs_sealed : option (Z * FleetView)
}.

Inductive CacheOp :=
| CTable (op : FleetOp)
| CReadGeneration
| CFold
| CReadSealed
| CRestart.

Inductive cache_step : FleetCaches → CacheOp → FleetCaches → Prop :=
| cstep_table s op t : fleet_step (fs_tables s) op t →
    cache_step s (CTable op) {| fs_tables := t; fs_membership := fs_membership s; fs_folding := fs_folding s; fs_sealed := fs_sealed s |}
| cstep_generation s :
    cache_step s CReadGeneration {| fs_tables := fs_tables s; fs_membership := fs_membership s;
      fs_folding := Some (ft_generation (fs_tables s)); fs_sealed := fs_sealed s |}
| cstep_fold s folded_at : fs_folding s = Some folded_at →
    cache_step s CFold {| fs_tables := fs_tables s;
      fs_membership := Some (folded_at, fleet_membership_tx (fs_tables s)); fs_folding := None; fs_sealed := fs_sealed s |}
| cstep_sealed s :
    cache_step s CReadSealed {| fs_tables := fs_tables s; fs_membership := fs_membership s; fs_folding := fs_folding s;
      fs_sealed := (sealed_fleet_view_tx (fs_tables s) (fs_sealed s)).2 |}
| cstep_restart s :
    cache_step s CRestart {| fs_tables := fs_tables s; fs_membership := None; fs_folding := None; fs_sealed := None |}.

(** [fleet_membership]'s first half: the cached membership, when the counter has not moved. *)
Definition cached_membership (s : FleetCaches) : option Membership :=
  match fs_membership s with
  | Some (folded_at, membership) => if (folded_at =? ft_generation (fs_tables s))%Z then Some membership else None
  | None => None
  end.

(** What a cache holds was true of the tables at its generation. *)
Definition current_at {A} (t : FleetTables) (value : FleetTables → A) (cache : option (Z * A)) : Prop :=
  ∀ g v, cache = Some (g, v) → (g <= ft_generation t)%Z ∧ (g = ft_generation t → v = value t).

Lemma current_at_guarded {A} t t' (value : FleetTables → A) cache :
  guarded t t' → (same_input t t' → value t' = value t) → current_at t value cache → current_at t' value cache.
Proof.
  intros [Hg Hs] Hv Hc g v E. destruct (Hc g v E) as [Hle Heq]. split; [lia|]. intros Hg'.
  rewrite Hv by (apply Hs; lia). apply Heq. lia.
Qed.

Definition sealed_view (t : FleetTables) : FleetView := from_membership (fleet_membership_tx t).

Record caches_ok (s : FleetCaches) : Prop := {
  co_membership : current_at (fs_tables s) fleet_membership_tx (fs_membership s);
  co_sealed : current_at (fs_tables s) sealed_view (fs_sealed s);
  co_folding g : fs_folding s = Some g → (g <= ft_generation (fs_tables s))%Z
}.

Lemma sealed_fleet_view_current t cache :
  current_at t sealed_view cache →
  (sealed_fleet_view_tx t cache).1 = sealed_view t ∧ current_at t sealed_view (sealed_fleet_view_tx t cache).2.
Proof.
  intros Hc. unfold sealed_fleet_view_tx. destruct cache as [[g v]|]; [destruct (Z.eqb_spec g (ft_generation t)) as [->|]|];
    cbn [fst snd]; [split; [|done]; by destruct (Hc _ _ eq_refl) as [_ ->]|..];
    (split; [done|]; intros g' v' [= <- <-]; split; [done|done]).
Qed.

Lemma cache_step_ok s op s' : caches_ok s → cache_step s op s' → caches_ok s'.
Proof.
  intros [Hm Hv Hf] Hstep. destruct Hstep as [s op t Hstep|s|s g Hg|s|s]; split; cbn [fs_tables fs_membership fs_sealed fs_folding];
    try done.
  - apply (current_at_guarded _ _ _ _ (fleet_step_guarded _ _ _ Hstep)); [|done]. apply same_input_membership.
  - apply (current_at_guarded _ _ _ _ (fleet_step_guarded _ _ _ Hstep)); [|done]. intros H. unfold sealed_view.
    unfold fleet_membership_tx. by rewrite (same_input_membership _ _ _ H).
  - intros g Hg. destruct (fleet_step_guarded _ _ _ Hstep) as [Hle _]. specialize (Hf g Hg). lia.
  - intros g [= <-]. done.
  - intros g' v [= <- <-]. split; [by apply Hf|done].
  - by apply sealed_fleet_view_current.
Qed.

(** C13: Membership is folded again only when the counter of [fleet_generation] moved, and
    that is enough: whatever statements run on the claims, batches, envelopes, signatures
    and the anchor, whenever caches are filled (the counter and the tables may be read at
    different moments) and the process restarts, a cached membership that is still served
    is the one the tables give, and so is the sealed view. *)
Theorem fleet_cache_coherent t tr s :
  run cache_step {| fs_tables := t; fs_membership := None; fs_folding := None; fs_sealed := None |} tr s →
  (∀ m, cached_membership s = Some m → m = fleet_membership_tx (fs_tables s)) ∧
  (sealed_fleet_view_tx (fs_tables s) (fs_sealed s)).1 = from_membership (fleet_membership_tx (fs_tables s)).
Proof.
  intros Hrun. assert (caches_ok s) as [Hm Hv _].
  { eapply (run_invariant cache_step caches_ok cache_step_ok); [done|]. by split. }
  split; [|by apply sealed_fleet_view_current]. intros m. unfold cached_membership.
  destruct (fs_membership s) as [[g v]|]; [|done]. destruct (Z.eqb_spec g (ft_generation (fs_tables s))) as [Hg|]; [|done].
  intros [= <-]. by apply (Hm g v).
Qed.

(** ** A cached fleet *)

Definition demo_no_writers : Writers :=
  {| wr_batches := []; wr_heads := []; wr_floors := []; wr_rowid_high_water := None; wr_cuts := [];
     wr_ledger := {| lg_claims := {| tt_rows := []; tt_retired := []; tt_withdrawals := [] |};
                     lg_envelopes := {| tt_rows := []; tt_retired := []; tt_withdrawals := [] |}; lg_cursor := None |} |}.
Definition demo_batch : Batch :=
  {| ba_id := "batch/a/1/h"; ba_origin := "a"; ba_replica_sequence := 1; ba_previous_hash := None; ba_hash := "h";
     ba_accepted_at_unix_ms := 10; ba_rowid := 1 |}.
Definition demo_admission : ClaimRecord :=
  {| cm_id := "m1"; cm_batch_id := "batch/a/1/h"; cm_subject := "host/a"; cm_kind := MEMBER_ADMITTED; cm_origin := "a";
     cm_actor := None; cm_body := Object [("fields", Object [("member_key", VString "KA"); ("via", VString "anchor")])];
     cm_predecessors := []; cm_accepted_at_unix_ms := 10 |}.
Definition demo_row (batch : option string) : ReplicaEnvelopeRow :=
  {| ev_previous_hash := None; ev_accepted_at_unix_ms := "10"; ev_payload := PayloadBytes []; ev_batch_id := batch; ev_relay := "a";
     ev_receipt_state := "pending"; ev_validation_error := None; ev_received_at_unix_ms := "11"; ev_rowid := 1 |}.
Definition demo_fleet_tables : FleetTables :=
  {| ft_claims := ∅; ft_writers := demo_no_writers; ft_envelopes := ∅; ft_signatures := ∅;
     ft_anchor := Some "KA"; ft_generation := 0 |}.

(** The anchor's own admission arrives and is signed. *)
Definition demo_admitted : FleetTables :=
  insert_signature_row ("a", 1%Z, "e") "KA" "s"
    (insert_envelope_row ("a", 1%Z, "e") (demo_row (Some "batch/a/1/h"))
      (insert_claim_row demo_admission (insert_batch_row demo_batch demo_fleet_tables))).

(** Another envelope is received after the fold. *)
Definition demo_received : FleetTables := insert_envelope_row ("b", 1%Z, "f") (demo_row None) demo_admitted.
Definition demo_cached : FleetCaches :=
  {| fs_tables := demo_received; fs_membership := Some (ft_generation demo_admitted, fleet_membership_tx demo_admitted);
     fs_folding := None; fs_sealed := Some (ft_generation demo_admitted, sealed_view demo_admitted) |}.

Example demo_admitted_windows :
  ((λ w, window (fleet_membership_tx demo_admitted) w 1) <$> ["a"; "b"]) = [WKeyed ["KA"]; WLegacy] ∧
  ft_generation demo_admitted = 3%Z.
Proof. vm_compute. done. Qed.

Lemma fleet_cache_coherent_witness :
  cached_membership demo_cached = Some (fleet_membership_tx demo_received) ∧
  (sealed_fleet_view_tx demo_received (fs_sealed demo_cached)).1 = from_membership (fleet_membership_tx demo_received).
Proof.
  pose proof (fleet_cache_coherent demo_fleet_tables
    [CTable (InsertBatch demo_batch); CTable (InsertClaim demo_admission);
     CTable (InsertEnvelope ("a", 1%Z, "e") (demo_row (Some "batch/a/1/h"))); CTable (InsertSignature ("a", 1%Z, "e") "KA" "s");
     CReadGeneration; CFold; CReadSealed; CTable (InsertEnvelope ("b", 1%Z, "f") (demo_row None))] demo_cached) as H.
  destruct H as [Hm Hs].
  - repeat (eapply run_cons; [constructor; try constructor; try reflexivity|cbn [fs_tables fs_membership fs_folding fs_sealed]]).
    apply run_nil.
  - assert (cached_membership demo_cached = Some (fleet_membership_tx demo_admitted)) as E by (vm_compute; reflexivity).
    split; [rewrite E; f_equal; exact (Hm _ E)|exact Hs].
Defined.
