(* ===== verification/Admission.v ===== *)
(** * Admitting replicated envelopes
    (crates/smallclaims/src/store/prepared_envelope.rs, and the receipt and the backlog pass
    of crates/smallclaims/src/store.rs)

    An envelope is received as a pending row.  A pass over the backlog prepares envelopes
    away from the writer (decoding, hashes, encodings, the part of classification that
    needs no store), takes the writer for a bounded chunk, and admits each envelope in a
    savepoint unless fleet membership holds it back.  Membership is folded beforehand and
    used only while its counter stands; an envelope that carries fleet claims ends the
    chunk, and held envelopes get another round when membership changed. *)

From stdpp Require Import gmap.
From S2P Require Import Prelude BTree Json Digests Membership Principal Text Retired WriterHeads FleetStore.

Local Open Scope string_scope.
Local Open Scope claims_scope.

(** ** Data *)

Record St3Error := { er_code : string; er_message : string }.

(** [ClaimRecord] as it travels: with what only its encoding uses. *)
Record WireClaim := {
  wc_row : ClaimRecord;
  wc_store_index : Z;
  wc_operation_id : option string;
  wc_request_digest : option string
}.

Record ReplicaBatch := {
  rb_id : string;
  rb_origin : string;
  rb_replica_sequence : Z;
  rb_previous_hash : option string;
  rb_hash : string;
  rb_accepted_at_unix_ms : Z;
  rb_claims : list WireClaim
}.

Record ReplicaEnvelopePayload := {
  pl_batch : ReplicaBatch;
  pl_blobs : BTreeMap string (list ascii);
  pl_claim_signatures : BTreeMap string ClaimSignature
}.

Record ReplicaEnvelope := {
  re_writer : string;
  re_sequence : Z;
  re_previous_hash : option string;
  re_hash : string;
  re_accepted_at_unix_ms : Z;
  re_payload : EnvelopePayload;
  re_member_key : option string;
  re_signature : option string
}.
Definition re_key (e : ReplicaEnvelope) : envelope_key := (re_writer e, re_sequence e, re_hash e).

Inductive ReplicatedClaimAdmission := AdmissionValid | UnknownKind | UnknownField.

(** A row of [replica_records], by its reference. *)
Record ReplicaRecord := {
  rr_writer : string;
  rr_sequence : Z;
  rr_envelope_hash : string;
  rr_position : Z;
  rr_raw : list ascii;
  rr_state : string;
  rr_claim_id : option string;
  rr_subject_hint : option string;
  rr_kind_hint : option string;
  rr_error_code : option string;
  rr_error_message : option string;
  rr_replacement_claim_id : option string;
  rr_updated_at_unix_ms : Z
}.

(** The row of [replica_envelopes] a preparation was made from. *)
Record EnvelopeRow := { er_rowid : Z; er_received_at_unix_ms : string }.
#[export] Instance envelope_row_eq_dec : EqDecision EnvelopeRow.
Proof. solve_decision. Defined.

(** SHA-256, hex and base64, CBOR and JSON: what the code uses of its packages.
    [canonical_hash] of a batch header and of a claim's content are SHA-256 of CBOR in hex. *)
Class AdmissionCodec := {
  sha256 : list ascii → list ascii;
  hex_encode : list ascii → string;
  base64_encode : list ascii → string;
  base64_error : string → string;
  hash_header : string * string * Z * option string * string → string;
  hash_claim : string * string * string * string * option string * Value * list string → result string St3Error;
  decode_payload : list ascii → result ReplicaEnvelopePayload string;
  encode_claim : WireClaim → result (list ascii) St3Error;
  encode_body : Value → result string St3Error;
  encode_predecessors : list string → result string St3Error
}.

(** What admission does to tables of other components: the signature tables, and what the
    triggers on [claims] and [replica_records] keep. *)
Class AdmissionHooks := {
  other : Type;
  store_carried_signature_tx : string → ClaimSignature → string → other → result other St3Error;
  claim_inserted : ClaimRecord → other → other;
  record_written : ReplicaRecord → other → other
}.

Section admission.
Context `{Crypto} `{AdmissionCodec} `{AdmissionHooks}.

(** The tables admission reads and writes; [ad_claims_sequence] is the AUTOINCREMENT high
    water of [claims], and the last two are keys of [meta]. *)
Record AdmStore := {
  ad_fleet : FleetTables;
  ad_blobs : gmap string (list ascii);
  ad_records : gmap string ReplicaRecord;
  ad_holds : gmap envelope_key (string * Z);
  ad_positions : gmap string Z;
  ad_claims_sequence : Z;
  ad_admitted_index : option Z;
  ad_retried : option Z * option string;
  ad_other : other
}.

Definition with_fleet (t : FleetTables) (s : AdmStore) : AdmStore :=
  {| ad_fleet := t; ad_blobs := ad_blobs s; ad_records := ad_records s; ad_holds := ad_holds s; ad_positions := ad_positions s;
     ad_claims_sequence := ad_claims_sequence s; ad_admitted_index := ad_admitted_index s; ad_retried := ad_retried s;
     ad_other := ad_other s |}.
Definition with_blobs (x : gmap string (list ascii)) (s : AdmStore) : AdmStore :=
  {| ad_fleet := ad_fleet s; ad_blobs := x; ad_records := ad_records s; ad_holds := ad_holds s; ad_positions := ad_positions s;
     ad_claims_sequence := ad_claims_sequence s; ad_admitted_index := ad_admitted_index s; ad_retried := ad_retried s;
     ad_other := ad_other s |}.
Definition with_record (ref : string) (r : ReplicaRecord) (s : AdmStore) : AdmStore :=
  {| ad_fleet := ad_fleet s; ad_blobs := ad_blobs s; ad_records := <[ref := r]> (ad_records s); ad_holds := ad_holds s;
     ad_positions := ad_positions s; ad_claims_sequence := ad_claims_sequence s; ad_admitted_index := ad_admitted_index s;
     ad_retried := ad_retried s; ad_other := record_written r (ad_other s) |}.
Definition with_holds (x : gmap envelope_key (string * Z)) (s : AdmStore) : AdmStore :=
  {| ad_fleet := ad_fleet s; ad_blobs := ad_blobs s; ad_records := ad_records s; ad_holds := x; ad_positions := ad_positions s;
     ad_claims_sequence := ad_claims_sequence s; ad_admitted_index := ad_admitted_index s; ad_retried := ad_retried s;
     ad_other := ad_other s |}.
Definition with_positions (x : gmap string Z) (s : AdmStore) : AdmStore :=
  {| ad_fleet := ad_fleet s; ad_blobs := ad_blobs s; ad_records := ad_records s; ad_holds := ad_holds s; ad_positions := x;
     ad_claims_sequence := ad_claims_sequence s; ad_admitted_index := ad_admitted_index s; ad_retried := ad_retried s;
     ad_other := ad_other s |}.
Definition with_inserted (sequence : Z) (o : other) (s : AdmStore) : AdmStore :=
  {| ad_fleet := ad_fleet s; ad_blobs := ad_blobs s; ad_records := ad_records s; ad_holds := ad_holds s;
     ad_positions := ad_positions s; ad_claims_sequence := sequence; ad_admitted_index := ad_admitted_index s;
     ad_retried := ad_retried s; ad_other := o |}.
Definition with_meta (index : option Z) (retried : option Z * option string) (s : AdmStore) : AdmStore :=
  {| ad_fleet := ad_fleet s; ad_blobs := ad_blobs s; ad_records := ad_records s; ad_holds := ad_holds s;
     ad_positions := ad_positions s; ad_claims_sequence := ad_claims_sequence s; ad_admitted_index := index;
     ad_retried := retried; ad_other := ad_other s |}.

(** [ReplicationAdmission], without the time spent. *)
Record Outcome := { ou_valid : nat; ou_unknown : nat; ou_invalid : nat; ou_held : nat; ou_changed : bool }.
Definition outcome_default : Outcome := {| ou_valid := 0; ou_unknown := 0; ou_invalid := 0; ou_held := 0; ou_changed := false |}.
Definition add_valid (changed : bool) (o : Outcome) : Outcome :=
  {| ou_valid := S (ou_valid o); ou_unknown := ou_unknown o; ou_invalid := ou_invalid o; ou_held := ou_held o;
     ou_changed := ou_changed o || changed |}.
Definition add_unknown (o : Outcome) : Outcome :=
  {| ou_valid := ou_valid o; ou_unknown := S (ou_unknown o); ou_invalid := ou_invalid o; ou_held := ou_held o; ou_changed := ou_changed o |}.
Definition add_invalid (o : Outcome) : Outcome :=
  {| ou_valid := ou_valid o; ou_unknown := ou_unknown o; ou_invalid := S (ou_invalid o); ou_held := ou_held o; ou_changed := ou_changed o |}.
Definition set_held (n : nat) (o : Outcome) : Outcome :=
  {| ou_valid := ou_valid o; ou_unknown := ou_unknown o; ou_invalid := ou_invalid o; ou_held := n; ou_changed := ou_changed o |}.

(** The runtime's classification, without and with the store. *)
Variable classify_unbound : ReplicaBatch → WireClaim → option (result ReplicatedClaimAdmission St3Error).
Variable classify : AdmStore → ReplicaBatch → WireClaim → result ReplicatedClaimAdmission St3Error.

(** ** Hashes *)

Definition verify_replica_batch_header (b : ReplicaBatch) : result unit St3Error :=
  let expected := batch_header_hash hash_header (rb_origin b) (rb_replica_sequence b) (rb_previous_hash b) (rb_accepted_at_unix_ms b) in
  if negb (String.eqb expected (rb_hash b)) ||
     negb (String.eqb (rb_id b) ("batch/" +:+ rb_origin b +:+ "/" +:+ decimal (rb_replica_sequence b) +:+ "/" +:+ rb_hash b))
  then Err {| er_code := "batch-hash-mismatch"; er_message := "replicated batch `" +:+ rb_id b +:+ "` failed verification" |}
  else Ok tt.

Definition claim_content (c : ClaimRecord) (body : Value)
    : string * string * string * string * option string * Value * list string :=
  (cm_batch_id c, cm_subject c, cm_kind c, cm_origin c, cm_actor c, body, cm_predecessors c).
Definition claim_hash (c : ClaimRecord) : result string St3Error := hash_claim (claim_content c (canonical_json_value (cm_body c))).

(** The hash of the canonical body, or of the body in the order it was written. *)
Definition claim_id_is_content_hash (c : ClaimRecord) : result bool St3Error :=
  let? canonical := claim_hash c in
  if String.eqb canonical (cm_id c) then Ok true
  else let? insertion_order := hash_claim (claim_content c (cm_body c)) in
       Ok (String.eqb insertion_order (cm_id c)).

(** [EnvelopePayload::bytes] and [base64] *)
Definition payload_bytes (p : EnvelopePayload) : result (list ascii) string :=
  match p with PayloadBytes bytes => Ok bytes | InvalidBase64 text => Err (base64_error text) end.
Definition payload_base64 (p : EnvelopePayload) : string :=
  match p with PayloadBytes bytes => base64_encode bytes | InvalidBase64 text => text end.

(** ** Preparation *)


(** What the claim checks that need no store found. *)
Inductive ClaimCheck :=
| CheckFailed (error : St3Error)
| Classified (classification : result ReplicatedClaimAdmission St3Error)
| Unclassified.

Record PreparedBlob := { pb_position : Z; pb_record_ref : string; pb_valid : bool }.
Record PreparedClaim := {
  pc_record_ref : string;
  pc_raw : result (list ascii) St3Error;
  pc_body : result string St3Error;
  pc_predecessors : result string St3Error;
  pc_check : ClaimCheck
}.
Record PreparedPayload := {
  pp_payload : ReplicaEnvelopePayload;
  pp_blobs : list PreparedBlob;
  pp_claims : list PreparedClaim
}.
Record PreparedEnvelope := {
  pe_key : envelope_key;
  pe_row : option EnvelopeRow;
  pe_bytes : Z;
  pe_content : result PreparedPayload St3Error
}.

Definition check_claim (b : ReplicaBatch) (claim : WireClaim) : ClaimCheck :=
  let c := wc_row claim in
  if negb (String.eqb (cm_batch_id c) (rb_id b)) || negb (String.eqb (cm_origin c) (rb_origin b))
  then CheckFailed {| er_code := "claim-batch-mismatch";
                      er_message := "replicated claim `" +:+ cm_id c +:+ "` names another batch or writer" |}
  else match claim_id_is_content_hash c with
  | Ok true => match classify_unbound b claim with Some classification => Classified classification | None => Unclassified end
  | Ok false => CheckFailed {| er_code := "claim-hash-mismatch";
                               er_message := "replicated claim `" +:+ cm_id c +:+ "` failed verification" |}
  | Err error => CheckFailed error
  end.

Definition record_ref_of (k : envelope_key) (position : nat) : string :=
  replica_record_ref sha256 hex_encode k.1.1 k.1.2 k.2 (Z.of_nat position).

Definition prepare_blob (k : envelope_key) (position : nat) (blob : string * list ascii) : PreparedBlob :=
  {| pb_position := Z.of_nat position; pb_record_ref := record_ref_of k position;
     pb_valid := String.eqb (hex_encode (sha256 blob.2)) blob.1 |}.
Definition prepare_claim (k : envelope_key) (b : ReplicaBatch) (position : nat) (claim : WireClaim) : PreparedClaim :=
  {| pc_record_ref := record_ref_of k position; pc_raw := encode_claim claim;
     pc_body := encode_body (canonical_json_value (cm_body (wc_row claim)));
     pc_predecessors := encode_predecessors (cm_predecessors (wc_row claim)); pc_check := check_claim b claim |}.

Definition prepare_payload (e : ReplicaEnvelope) : result PreparedPayload St3Error :=
  match payload_bytes (re_payload e) with
  | Err error => Err {| er_code := "invalid-envelope-payload"; er_message := "the envelope payload is not valid base64: " +:+ error |}
  | Ok bytes =>
      let expected := replica_envelope_hash sha256 hex_encode (re_writer e) (re_sequence e) (re_previous_hash e)
                        (re_accepted_at_unix_ms e) bytes in
      if negb (String.eqb expected (re_hash e))
      then Err {| er_code := "envelope-hash-mismatch"; er_message := "the envelope hash does not match its payload" |}
      else match decode_payload bytes with
      | Err error => Err {| er_code := "invalid-envelope-payload"; er_message := "the envelope payload is not valid CBOR: " +:+ error |}
      | Ok payload =>
          let b := pl_batch payload in
          if negb (String.eqb (rb_origin b) (re_writer e)) || negb (rb_replica_sequence b =? re_sequence e)%Z ||
             negb (bool_decide (rb_previous_hash b = re_previous_hash e)) ||
             negb (rb_accepted_at_unix_ms b =? re_accepted_at_unix_ms e)%Z
          then Err {| er_code := "envelope-batch-mismatch"; er_message := "the envelope and its batch identify different writes" |}
          else
            let? _ := verify_replica_batch_header b in
            Ok {| pp_payload := payload;
                  pp_blobs := imap (λ offset blob, prepare_blob (re_key e) (length (rb_claims b) + offset) blob) (pl_blobs payload);
                  pp_claims := imap (λ position claim, prepare_claim (re_key e) b position claim) (rb_claims b) |}
      end
  end.

Definition payload_size (p : EnvelopePayload) : Z :=
  match payload_bytes p with Ok bytes => Z.of_nat (length bytes) | Err _ => 0%Z end.
Definition prepare_envelope (e : ReplicaEnvelope) (row : option EnvelopeRow) : PreparedEnvelope :=
  {| pe_key := re_key e; pe_row := row; pe_bytes := payload_size (re_payload e); pe_content := prepare_payload e |}.

(** ** Admission under the writer *)

(** [collect_hash_fields]: the blobs a body names. *)
Definition names_hash (key : string) (value : Value) : option string :=
  if bool_decide (key ∈ ["hash"; "blob_hash"; "bundle_hash"]) then
    match value with VString hash => if (len hash =? 64)%Z then Some hash else None | _ => None end
  else None.
Fixpoint collect_hash_fields (value : Value) : list string :=
  match value with
  | Object fields =>
      concat (map (λ f, option_list (names_hash f.1 f.2) ++ collect_hash_fields f.2)%list fields)
  | Array values => concat (map collect_hash_fields values)
  | _ => []
  end.
Definition claim_blobs (c : ClaimRecord) : BTreeSet string := bset_of_list (collect_hash_fields (cm_body c)).

(** [ensure_claim_blobs] *)
Definition ensure_claim_blobs (s : AdmStore) (c : ClaimRecord) : result unit St3Error :=
  match List.find (λ hash, bool_decide (ad_blobs s !! hash = None)) (claim_blobs c) with
  | Some hash => Err {| er_code := "missing-replicated-blob";
                        er_message := "claim `" +:+ cm_id c +:+ "` references missing blob `" +:+ hash +:+ "`" |}
  | None => Ok tt
  end.

Definition finish_claim_check (s : AdmStore) (b : ReplicaBatch) (claim : WireClaim) (check : ClaimCheck)
    : result ReplicatedClaimAdmission St3Error :=
  let? admission := match check with
    | CheckFailed error => Err error
    | Classified classification => classification
    | Unclassified => classify s b claim
    end in
  match admission with
  | AdmissionValid => let? _ := ensure_claim_blobs s (wc_row claim) in Ok AdmissionValid
  | _ => Ok admission
  end.

(** [checkpoint::claim_tombstoned] and [envelope_tombstoned] *)
Definition claim_tombstoned (t : FleetTables) (id : string) : bool :=
  existsb (λ r, String.eqb (ct_id (tr_data r)) id) (tt_rows (lg_claims (wr_ledger (ft_writers t)))).
Definition envelope_tombstoned (t : FleetTables) (k : envelope_key) : bool :=
  existsb (λ r, bool_decide (et_key (tr_data r) = k)) (tt_rows (lg_envelopes (wr_ledger (ft_writers t)))).

(** A record written for the first time. *)
Definition new_record (k : envelope_key) (position : Z) (raw : list ascii) (state : string) (claim_id subject kind code message : option string)
    (now : Z) : ReplicaRecord :=
  {| rr_writer := k.1.1; rr_sequence := k.1.2; rr_envelope_hash := k.2; rr_position := position; rr_raw := raw; rr_state := state;
     rr_claim_id := claim_id; rr_subject_hint := subject; rr_kind_hint := kind; rr_error_code := code; rr_error_message := message;
     rr_replacement_claim_id := None; rr_updated_at_unix_ms := now |}.

(** The columns a conflicting record may be assigned. *)
Definition assign (r : ReplicaRecord) (state : string) (claim_id subject kind code message : option string) (now : Z) : ReplicaRecord :=
  {| rr_writer := rr_writer r; rr_sequence := rr_sequence r; rr_envelope_hash := rr_envelope_hash r; rr_position := rr_position r;
     rr_raw := rr_raw r; rr_state := state; rr_claim_id := claim_id; rr_subject_hint := subject; rr_kind_hint := kind;
     rr_error_code := code; rr_error_message := message; rr_replacement_claim_id := rr_replacement_claim_id r;
     rr_updated_at_unix_ms := now |}.

Definition is_repaired (r : ReplicaRecord) : bool := String.eqb (rr_state r) "repaired".
(** [CASE WHEN state='repaired' THEN state ELSE new END] *)
Definition unless_repaired (r : ReplicaRecord) (state : string) : string := if is_repaired r then rr_state r else state.

(** [INSERT .. ON CONFLICT(record_ref) DO UPDATE SET .. WHERE ..] *)
Definition upsert (ref : string) (fresh : ReplicaRecord) (where_ : ReplicaRecord → bool) (set : ReplicaRecord → ReplicaRecord)
    (s : AdmStore) : AdmStore :=
  match ad_records s !! ref with
  | None => with_record ref fresh s
  | Some old => if where_ old then with_record ref (set old) s else s
  end.

Definition state_of (s : AdmStore) (ref : string) : option string := rr_state <$> ad_records s !! ref.

(** The columns a valid record clears its error from, unless it was repaired. *)
Definition not_clean (state : string) (r : ReplicaRecord) : bool :=
  negb (is_repaired r) &&
  (negb (String.eqb (rr_state r) state) || bool_decide (rr_error_code r ≠ None) || bool_decide (rr_error_message r ≠ None)).

Definition put_valid_blob (k : envelope_key) (blob : PreparedBlob) (hash : string) (bytes : list ascii) (now : Z) : AdmStore → AdmStore :=
  let subject := Some ("blob/" +:+ hash) in
  upsert (pb_record_ref blob) (new_record k (pb_position blob) bytes "valid" None subject (Some "blob") None None now)
    (λ r, bool_decide (rr_subject_hint r ≠ subject) || bool_decide (rr_kind_hint r ≠ Some "blob") || not_clean "valid" r)
    (λ r, assign r (unless_repaired r "valid") (rr_claim_id r) subject (Some "blob")
            (if is_repaired r then rr_error_code r else None) (if is_repaired r then rr_error_message r else None) now).

Definition put_invalid_blob (k : envelope_key) (blob : PreparedBlob) (hash : string) (bytes : list ascii) (now : Z) : AdmStore → AdmStore :=
  let subject := Some ("blob/" +:+ hash) in
  let code := Some "blob-hash-mismatch" in
  let message := Some ("replicated blob `" +:+ hash +:+ "` failed verification") in
  upsert (pb_record_ref blob) (new_record k (pb_position blob) bytes "invalid" None subject (Some "blob") code message now)
    (λ r, negb (is_repaired r) && negb (String.eqb (rr_state r) "invalid") || bool_decide (rr_subject_hint r ≠ subject) ||
          bool_decide (rr_kind_hint r ≠ Some "blob") || bool_decide (rr_error_code r ≠ code) || bool_decide (rr_error_message r ≠ message))
    (λ r, assign r (unless_repaired r "invalid") (rr_claim_id r) subject (Some "blob") code message now).

(** One blob of the payload. *)
Definition admit_blob (k : envelope_key) (now : Z) (a : AdmStore * Outcome * bool) (b : PreparedBlob * (string * list ascii))
    : AdmStore * Outcome * bool :=
  let '(s, o, degraded) := a in
  let '(blob, (hash, bytes)) := b in
  let previous_state := state_of s (pb_record_ref blob) in
  if pb_valid blob then
    let s := match ad_blobs s !! hash with None => with_blobs (<[hash := bytes]> (ad_blobs s)) s | Some _ => s end in
    (put_valid_blob k blob hash bytes now s, add_valid (bool_decide (previous_state ≠ Some "valid")) o, degraded)
  else (put_invalid_blob k blob hash bytes now s, add_invalid o, true).

Definition put_valid_claim (k : envelope_key) (ref : string) (position : Z) (raw : list ascii) (c : ClaimRecord) (now : Z) : AdmStore → AdmStore :=
  upsert ref (new_record k position raw "valid" (Some (cm_id c)) (Some (cm_subject c)) (Some (cm_kind c)) None None now)
    (λ r, bool_decide (rr_claim_id r ≠ Some (cm_id c)) || bool_decide (rr_subject_hint r ≠ Some (cm_subject c)) ||
          bool_decide (rr_kind_hint r ≠ Some (cm_kind c)) || not_clean "valid" r)
    (λ r, assign r (unless_repaired r "valid") (Some (cm_id c)) (Some (cm_subject c)) (Some (cm_kind c))
            (if is_repaired r then rr_error_code r else None) (if is_repaired r then rr_error_message r else None) now).

Definition put_unknown_claim (k : envelope_key) (ref : string) (position : Z) (raw : list ascii) (c : ClaimRecord) (error : St3Error) (now : Z)
    : AdmStore → AdmStore :=
  let code := Some (er_code error) in let message := Some (er_message error) in
  upsert ref (new_record k position raw "unknown" (Some (cm_id c)) (Some (cm_subject c)) (Some (cm_kind c)) code message now)
    (λ r, negb (is_repaired r) && (negb (String.eqb (rr_state r) "unknown") || bool_decide (rr_error_code r ≠ code) ||
          bool_decide (rr_error_message r ≠ message)))
    (λ r, assign r (unless_repaired r "unknown") (rr_claim_id r) (rr_subject_hint r) (rr_kind_hint r)
            (if is_repaired r then rr_error_code r else code) (if is_repaired r then rr_error_message r else message) now).

Definition put_invalid_claim (k : envelope_key) (ref : string) (position : Z) (raw : list ascii) (c : ClaimRecord) (error : St3Error) (now : Z)
    : AdmStore → AdmStore :=
  let code := Some (er_code error) in let message := Some (er_message error) in
  upsert ref (new_record k position raw "invalid" (Some (cm_id c)) (Some (cm_subject c)) (Some (cm_kind c)) code message now)
    (λ r, negb (is_repaired r) && negb (String.eqb (rr_state r) "invalid") || bool_decide (rr_error_code r ≠ code) ||
          bool_decide (rr_error_message r ≠ message))
    (λ r, assign r (unless_repaired r "invalid") (rr_claim_id r) (rr_subject_hint r) (rr_kind_hint r) code message now).

Definition unknown_kind : St3Error :=
  {| er_code := "unknown-claim-kind"; er_message := "this st build does not know the claim kind" |}.
Definition unknown_field : St3Error :=
  {| er_code := "unknown-claim-field"; er_message := "this st build does not know every field on the claim kind" |}.

(** [record_position_tx]: the least position recorded of a claim. *)
Definition record_least_position (id : string) (position : Z) (s : AdmStore) : AdmStore :=
  with_positions (<[id := match ad_positions s !! id with Some p => Z.min p position | None => position end]> (ad_positions s)) s.

(** The row as it is stored: the body in canonical form. *)
Definition stored_claim (c : ClaimRecord) : ClaimRecord :=
  {| cm_id := cm_id c; cm_batch_id := cm_batch_id c; cm_subject := cm_subject c; cm_kind := cm_kind c; cm_origin := cm_origin c;
     cm_actor := cm_actor c; cm_body := canonical_json_value (cm_body c); cm_predecessors := cm_predecessors c;
     cm_accepted_at_unix_ms := cm_accepted_at_unix_ms c |}.

(** [INSERT OR IGNORE INTO claims], and whether it inserted. *)
Definition insert_claim_tx (c : ClaimRecord) (s : AdmStore) : AdmStore * bool :=
  match ft_claims (ad_fleet s) !! cm_id c with
  | Some _ => (s, false)
  | None => (with_inserted (ad_claims_sequence s + 1)%Z (claim_inserted (stored_claim c) (ad_other s))
               (with_fleet (insert_claim_row (stored_claim c) (ad_fleet s)) s), true)
  end.

(** The claim is stored, with the signature its envelope carries, unless a checkpoint dropped it. *)
Definition store_claim (k : envelope_key) (signatures : BTreeMap string ClaimSignature) (position : Z) (p : PreparedClaim)
    (c : ClaimRecord) (s : AdmStore) : result (AdmStore * bool) St3Error :=
  if claim_tombstoned (ad_fleet s) (cm_id c) then Ok (s, false)
  else
    let s := record_least_position (cm_id c) position s in
    let? _ := pc_body p in
    let? _ := pc_predecessors p in
    let '(s, inserted) := insert_claim_tx c s in
    match bmap_get (cm_id c) signatures with
    | Some signature =>
        let? o := store_carried_signature_tx (cm_id c) signature k.1.1 (ad_other s) in
        Ok (with_inserted (ad_claims_sequence s) o s, inserted)
    | None => Ok (s, inserted)
    end.

(** One claim of the batch.  The outcome is kept when the envelope fails. *)
Definition admit_claim (k : envelope_key) (payload : ReplicaEnvelopePayload) (now : Z) (position : Z) (claim : WireClaim) (p : PreparedClaim)
    (s : AdmStore) (o : Outcome) (degraded : bool) : Outcome * result (AdmStore * bool) St3Error :=
  match pc_raw p with
  | Err error => (o, Err error)
  | Ok raw =>
      let c := wc_row claim in
      let ref := pc_record_ref p in
      let previous_state := state_of s ref in
      match finish_claim_check s (pl_batch payload) claim (pc_check p) with
      | Ok AdmissionValid =>
          match store_claim k (pl_claim_signatures payload) position p c s with
          | Err error => (o, Err error)
          | Ok (s, inserted) =>
              (add_valid (inserted || bool_decide (previous_state ≠ Some "valid")) o,
               Ok (put_valid_claim k ref position raw c now s, degraded))
          end
      | Ok UnknownKind => (add_unknown o, Ok (put_unknown_claim k ref position raw c unknown_kind now s, degraded))
      | Ok UnknownField => (add_unknown o, Ok (put_unknown_claim k ref position raw c unknown_field now s, degraded))
      | Err error => (add_invalid o, Ok (put_invalid_claim k ref position raw c error now s, true))
      end
  end.

Fixpoint admit_claims (k : envelope_key) (payload : ReplicaEnvelopePayload) (now : Z) (position : nat)
    (claims : list (WireClaim * PreparedClaim)) (s : AdmStore) (o : Outcome) (degraded : bool)
    : Outcome * result (AdmStore * bool) St3Error :=
  match claims with
  | [] => (o, Ok (s, degraded))
  | (claim, p) :: claims =>
      match admit_claim k payload now (Z.of_nat position) claim p s o degraded with
      | (o, Err error) => (o, Err error)
      | (o, Ok (s, degraded)) => admit_claims k payload now (S position) claims s o degraded
      end
  end.

Definition batch_row (b : ReplicaBatch) : Batch :=
  {| ba_id := rb_id b; ba_origin := rb_origin b; ba_replica_sequence := rb_replica_sequence b;
     ba_previous_hash := rb_previous_hash b; ba_hash := rb_hash b; ba_accepted_at_unix_ms := rb_accepted_at_unix_ms b; ba_rowid := 0 |}.

(** The batch: a known id keeps its row, a new one takes the next rowid. *)
Definition admit_batch_tx (b : ReplicaBatch) (s : AdmStore) : result AdmStore St3Error :=
  let t := ad_fleet s in
  match batch_of t (rb_id b) with
  | Some _ => Ok s
  | None =>
      match next_batch_rowid (ft_writers t) with
      | Ok (rowid, w) => Ok (with_fleet (insert_batch_row (with_rowid rowid (batch_row b)) (set_writers w t)) s)
      | Err error => Err {| er_code := "internal"; er_message := error |}
      end
  end.

(** The envelope's receipt at the end. *)
Definition with_receipt (row : ReplicaEnvelopeRow) (state : string) (error : option string) (batch : option string) : ReplicaEnvelopeRow :=
  {| ev_previous_hash := ev_previous_hash row; ev_accepted_at_unix_ms := ev_accepted_at_unix_ms row; ev_payload := ev_payload row;
     ev_batch_id := batch; ev_relay := ev_relay row; ev_receipt_state := state; ev_validation_error := error;
     ev_received_at_unix_ms := ev_received_at_unix_ms row; ev_rowid := ev_rowid row |}.
Definition finish_receipt (k : envelope_key) (degraded : bool) (batch : string) (s : AdmStore) : AdmStore :=
  let state := if degraded then "degraded" else "validated" in
  match ft_envelopes (ad_fleet s) !! k with
  | Some row =>
      if negb (String.eqb (ev_receipt_state row) state) || bool_decide (ev_validation_error row ≠ None) ||
         bool_decide (ev_batch_id row ≠ Some batch)
      then with_fleet (update_envelope_row k k row (with_receipt row state None (Some batch)) true true (ad_fleet s)) s
      else s
  | None => s
  end.

(** [admit_prepared_envelope_tx]; on an error its writes are rolled back, its counts are not. *)
Definition admit_prepared_envelope_tx (prepared : PreparedEnvelope) (now : Z) (s : AdmStore) (o : Outcome)
    : Outcome * result AdmStore St3Error :=
  match pe_content prepared with
  | Err error => (o, Err error)
  | Ok content =>
      let k := pe_key prepared in
      let payload := pp_payload content in
      let b := pl_batch payload in
      let '(s, o, degraded) := foldl (admit_blob k now) (s, o, false) (zip (pp_blobs content) (pl_blobs payload)) in
      match admit_batch_tx b s with
      | Err error => (o, Err error)
      | Ok s =>
          match admit_claims k payload now 0 (zip (rb_claims b) (pp_claims content)) s o degraded with
          | (o, Err error) => (o, Err error)
          | (o, Ok (s, degraded)) => (o, Ok (finish_receipt k degraded (rb_id b) s))
          end
      end
  end.

(** ** Authority *)

(** [fleet_admission_hold]: whether membership holds the envelope back, and why. *)
Definition envelope_signers (t : FleetTables) (k : envelope_key) : gset string :=
  set_map snd (filter (λ p : envelope_key * string, p.1 = k) (dom (ft_signatures t))).
Definition fleet_admission_hold (t : FleetTables) (m : Membership) (k : envelope_key) : option string :=
  match window m k.1.1 k.1.2 with
  | WLegacy => None
  | WFenced => Some "fenced"
  | WKeyed keys => if bool_decide (set_Exists (λ signer, signer ∈ keys) (envelope_signers t k)) then None else Some "unsigned"
  end.

(** [hold_replica_envelope] *)
Definition hold_replica_envelope (k : envelope_key) (reason : string) (now : Z) (s : AdmStore) : AdmStore :=
  match ad_holds s !! k with
  | Some (old, _) => if String.eqb old reason then s else with_holds (<[k := (reason, now)]> (ad_holds s)) s
  | None => with_holds (<[k := (reason, now)]> (ad_holds s)) s
  end.

Definition envelope_carries_fleet_claims (t : FleetTables) (k : envelope_key) : bool :=
  match ft_envelopes t !! k with Some row => carries_fleet_claims t (ev_batch_id row) | None => false end.

(** [record_invalid_replica_envelope] *)
Definition record_invalid_replica_envelope (e : ReplicaEnvelope) (error : St3Error) (now : Z) (s : AdmStore) : AdmStore :=
  let k := re_key e in
  let code := Some (er_code error) in let message := Some (er_message error) in
  let s := upsert (record_ref_of k 0)
    (new_record k 0 (bytes_of (payload_base64 (re_payload e))) "invalid" None None None code message now) (λ _, true)
    (λ r, assign r "invalid" (rr_claim_id r) (rr_subject_hint r) (rr_kind_hint r) code message now) s in
  match ft_envelopes (ad_fleet s) !! k with
  | Some row =>
      with_fleet (update_envelope_row k k row (with_receipt row "degraded" message (ev_batch_id row)) false false (ad_fleet s)) s
  | None => s
  end.

(** [admission_envelope_row] *)
Definition admission_envelope_row (t : FleetTables) (e : ReplicaEnvelope) : option EnvelopeRow :=
  row ← ft_envelopes t !! re_key e;
  if bool_decide (ev_previous_hash row = re_previous_hash e) &&
     String.eqb (ev_accepted_at_unix_ms row) (decimal (re_accepted_at_unix_ms e)) && negb (envelope_tombstoned t (re_key e))
  then Some {| er_rowid := ev_rowid row; er_received_at_unix_ms := ev_received_at_unix_ms row |} else None.

(** ** Receipt *)

Definition ENVELOPE_SIGNATURE_DOMAIN : string := "st3-envelope-v1".
Definition envelope_signature_message (fleet_id : string) (k : envelope_key) : string :=
  join newline [ENVELOPE_SIGNATURE_DOMAIN; fleet_id; k.1.1; decimal k.1.2; k.2].

(** [VerifiedEnvelopeSignature::verify] and [store] *)
Definition verify_envelope_signature (fleet_id : string) (k : envelope_key) (member_key signature : string) : bool :=
  verify_signature member_key (envelope_signature_message fleet_id k) signature.
Definition store_envelope_signature (k : envelope_key) (member_key signature : string) (s : AdmStore) : AdmStore * nat :=
  (with_fleet (insert_signature_row k member_key signature (ad_fleet s)) s,
   match ft_signatures (ad_fleet s) !! (k, member_key) with Some _ => 0 | None => 1 end).

(** [ReplicationExchange], its envelopes and the signatures that follow theirs. *)
Record ReplicationExchange := {
  ex_peer : string;
  ex_fleet_id : string;
  ex_shard_id : option string;
  ex_envelopes : list ReplicaEnvelope;
  ex_signatures : list (envelope_key * string * string)
}.

(** What a receipt counts. *)
Record Received := { rc_received : nat; rc_duplicate : nat; rc_signatures : nat }.
Definition count (received duplicate signatures : nat) (c : Received) : Received :=
  {| rc_received := rc_received c + received; rc_duplicate := rc_duplicate c + duplicate; rc_signatures := rc_signatures c + signatures |}.

(** The rowid SQLite gives a row: one above the largest. *)
Definition next_envelope_rowid (t : FleetTables) : Z := map_fold (λ _ row acc, Z.max (ev_rowid row) acc) 0%Z (ft_envelopes t) + 1.

(** One envelope of [receive_replication_exchange_via]. *)
Definition receive_envelope (fleet_id relay : string) (now : Z) (a : AdmStore * Received) (e : ReplicaEnvelope) : AdmStore * Received :=
  let '(s, c) := a in
  let k := re_key e in
  if envelope_tombstoned (ad_fleet s) k then (s, count 0 1 0 c)
  else
    let '(s, stored) := match re_member_key e, re_signature e with
      | Some key, Some signature =>
          if verify_envelope_signature fleet_id k key signature then store_envelope_signature k key signature s else (s, 0)
      | _, _ => (s, 0)
      end in
    let row := {| ev_previous_hash := re_previous_hash e; ev_accepted_at_unix_ms := decimal (re_accepted_at_unix_ms e);
                  ev_payload := re_payload e; ev_batch_id := None; ev_relay := relay; ev_receipt_state := "pending";
                  ev_validation_error := None; ev_received_at_unix_ms := decimal now; ev_rowid := next_envelope_rowid (ad_fleet s) |} in
    (with_fleet (insert_envelope_row k row (ad_fleet s)) s,
     match ft_envelopes (ad_fleet s) !! k with Some _ => count 0 1 stored c | None => count 1 0 stored c end).

(** A signature that follows its envelope. *)
Definition receive_signature (fleet_id : string) (a : AdmStore * Received) (x : envelope_key * string * string) : AdmStore * Received :=
  let '(s, c) := a in
  let '(k, member_key, signature) := x in
  if negb (verify_envelope_signature fleet_id k member_key signature) || envelope_tombstoned (ad_fleet s) k then (s, c)
  else let '(s, stored) := store_envelope_signature k member_key signature s in (s, count 0 0 stored c).

(** [receive_replication_exchange_via], as far as the fleet's tables go. *)
Definition receive_replication_exchange (bound_shard : result (option string) string) (relay fleet_id : string) (now : Z)
    (input : ReplicationExchange) (s : AdmStore) : result (AdmStore * Received) St3Error :=
  if negb (String.eqb (ex_peer input) relay)
  then Err {| er_code := "peer-label-mismatch"; er_message := "the authenticated peer label does not match the exchange label" |}
  else if negb (String.eqb (ex_fleet_id input) fleet_id)
  then Err {| er_code := "fleet-id-mismatch"; er_message := "the peer belongs to another fleet" |}
  else match bound_shard with
  | Err error => Err {| er_code := "shard-state"; er_message := error |}
  | Ok shard =>
      if negb (bool_decide (ex_shard_id input = shard))
      then Err {| er_code := "shard-mismatch"; er_message := "the exchange belongs to another shard or the default store" |}
      else
        let a := foldl (receive_envelope fleet_id relay now) (s, {| rc_received := 0; rc_duplicate := 0; rc_signatures := 0 |}) (ex_envelopes input) in
        Ok (foldl (receive_signature fleet_id) a (ex_signatures input))
  end.

(** ** The backlog *)

(** [str::parse::<u128>] *)
Definition parse_u128 (s : string) : option Z :=
  let digits := match s with String c r => if ascii_dec c "+" then r else s | EmptyString => s end in
  match digits with
  | EmptyString => None
  | _ => n ← parse_digits 0 digits; if (n <? 2 ^ 128)%Z then Some n else None
  end.

(** The records a retry looks at again, by [LIKE '%violates ..%'], which ignores case. *)
Fixpoint contains (needle hay : string) : bool :=
  starts_with needle hay || match hay with EmptyString => false | String _ hay => contains needle hay end.
Definition like_contains (needle hay : string) : bool := contains (to_ascii_lowercase needle) (to_ascii_lowercase hay).
Definition violates (code_ : string) (r : ReplicaRecord) : bool :=
  String.eqb (rr_state r) "invalid" && bool_decide (rr_error_code r = Some "invalid-replicated-claim") &&
  is_some_and (like_contains ("violates " +:+ code_ +:+ ":")) (rr_error_message r).
Definition retried_record (retry_hash_mismatches retry_subject_references : bool) (r : ReplicaRecord) : bool :=
  String.eqb (rr_state r) "unknown" || violates "unknown-claim-field" r ||
  retry_hash_mismatches && String.eqb (rr_state r) "invalid" && bool_decide (rr_error_code r = Some "claim-hash-mismatch") ||
  retry_subject_references && violates "invalid-subject-reference" r.
Definition rr_key (r : ReplicaRecord) : envelope_key := (rr_writer r, rr_sequence r, rr_envelope_hash r).

(** [admission_retry_query] *)
Definition retry_ids (retry_hash_mismatches retry_subject_references : bool) (s : AdmStore) : gset envelope_key :=
  dom (filter (λ p : envelope_key * ReplicaEnvelopeRow, ev_receipt_state p.2 = "pending") (ft_envelopes (ad_fleet s))) ∪
  list_to_set (rr_key <$> List.filter (retried_record retry_hash_mismatches retry_subject_references) (snd <$> map_to_list (ad_records s))).
Definition pending_envelope (t : FleetTables) (k : envelope_key) : option (ReplicaEnvelope * EnvelopeRow) :=
  (λ row, ({| re_writer := k.1.1; re_sequence := k.1.2; re_previous_hash := ev_previous_hash row; re_hash := k.2;
              re_accepted_at_unix_ms := default 0%Z (parse_u128 (ev_accepted_at_unix_ms row)); re_payload := ev_payload row;
              re_member_key := None; re_signature := None |},
           {| er_rowid := ev_rowid row; er_received_at_unix_ms := ev_received_at_unix_ms row |})) <$> ft_envelopes t !! k.
Definition pending_envelopes (retry_hash_mismatches retry_subject_references : bool) (s : AdmStore)
    : list (ReplicaEnvelope * EnvelopeRow) :=
  omap (pending_envelope (ad_fleet s)) (bset_of_list (elements (retry_ids retry_hash_mismatches retry_subject_references s))).

Definition ADMISSION_CHUNK_ENVELOPES : nat := 8.
Definition ADMISSION_PREPARED_BYTES : Z := 16 * 1024 * 1024.

Inductive AdmissionAuthority := AuthorityMembership | AuthoritySource.

(** Preparing ahead: up to a chunk, and a budget of payload bytes that one envelope may exceed alone. *)
Fixpoint prepare_ahead (items : list (nat * (ReplicaEnvelope * EnvelopeRow))) (bytes : Z) (ready : gmap nat PreparedEnvelope)
    : gmap nat PreparedEnvelope :=
  match items with
  | [] => ready
  | (index, (e, row)) :: items =>
      match ready !! index with
      | Some _ => prepare_ahead items bytes ready
      | None =>
          let size := payload_size (re_payload e) in
          if (0 <? bytes)%Z && (ADMISSION_PREPARED_BYTES <? bytes + size)%Z then ready
          else prepare_ahead items (bytes + size)%Z (<[index := prepare_envelope e (Some row)]> ready)
      end
  end.
Definition ready_bytes (ready : gmap nat PreparedEnvelope) : Z := map_fold (λ _ p acc, (pe_bytes p + acc)%Z) 0%Z ready.

(** What a round carries from loan to loan. *)
Record Round := {
  rd_store : AdmStore;
  rd_outcome : Outcome;
  rd_next : nat;
  rd_ready : gmap nat PreparedEnvelope;
  rd_held : list (ReplicaEnvelope * EnvelopeRow);
  rd_changed : bool
}.
Definition on_store (s : AdmStore) (o : Outcome) (r : Round) : Round :=
  {| rd_store := s; rd_outcome := o; rd_next := rd_next r; rd_ready := rd_ready r; rd_held := rd_held r; rd_changed := rd_changed r |}.

(** A degraded receipt that a schema retry selected goes back to pending while it is held. *)
Definition hold_again (k : envelope_key) (s : AdmStore) : AdmStore :=
  match ft_envelopes (ad_fleet s) !! k with
  | Some row =>
      if String.eqb (ev_receipt_state row) "degraded" &&
         existsb (λ r, bool_decide (rr_key r = k) && violates "invalid-subject-reference" r) (snd <$> map_to_list (ad_records s))
      then with_fleet (update_envelope_row k k row (with_receipt row "pending" (ev_validation_error row) (ev_batch_id row)) false false
             (ad_fleet s)) s
      else s
  | None => s
  end.

Definition release_hold (k : envelope_key) (s : AdmStore) : AdmStore := with_holds (delete k (ad_holds s)) s.

(** One envelope of a loan, and whether it changed membership. *)
Definition admit_one (authority : AdmissionAuthority) (retry_subject_references : bool) (m : Membership) (now : Z)
    (e : ReplicaEnvelope) (prepared : PreparedEnvelope) (r : Round) : Round * bool :=
  let s := rd_store r in
  match admission_envelope_row (ad_fleet s) e with
  | None => (r, false)
  | Some row =>
      if negb (bool_decide (pe_row prepared = Some row)) then (r, false)
      else
        let hold := match authority with
          | AuthorityMembership => fleet_admission_hold (ad_fleet s) m (re_key e)
          | AuthoritySource => None
          end in
        match hold with
        | Some reason =>
            let s := hold_replica_envelope (re_key e) reason now s in
            let s := if retry_subject_references then hold_again (re_key e) s else s in
            ({| rd_store := s; rd_outcome := rd_outcome r; rd_next := rd_next r; rd_ready := rd_ready r;
                rd_held := (rd_held r ++ [(e, row)])%list; rd_changed := rd_changed r |}, false)
        | None =>
            match admit_prepared_envelope_tx prepared now s (rd_outcome r) with
            | (o, Ok s) =>
                let s := release_hold (re_key e) s in
                let changes := envelope_carries_fleet_claims (ad_fleet s) (re_key e) in
                ({| rd_store := s; rd_outcome := o; rd_next := rd_next r; rd_ready := rd_ready r; rd_held := rd_held r;
                    rd_changed := rd_changed r || changes |}, changes)
            | (o, Err error) => (on_store (record_invalid_replica_envelope e error now s) (add_invalid o) r, false)
            end
        end
  end.

Definition take_ready (r : Round) : Round :=
  {| rd_store := rd_store r; rd_outcome := rd_outcome r; rd_next := S (rd_next r); rd_ready := delete (rd_next r) (rd_ready r);
     rd_held := rd_held r; rd_changed := rd_changed r |}.

Section pass.
Variables (authority : AdmissionAuthority) (retry_subject_references : bool).
(** Whether a loan's time is spent when it has come to an envelope, and the time it is. *)
Variables (spent : nat → nat → bool) (now : nat → Z).
(** What other transactions do before a loan gets the writer. *)
Variable env : nat → AdmStore → AdmStore.

(** The envelopes of one loan: at most [n] more. *)
Fixpoint loan (id n : nat) (first : bool) (pending : list (ReplicaEnvelope * EnvelopeRow)) (m : Membership) (r : Round) : Round :=
  match n with
  | 0 => r
  | S n =>
      if negb first && spent id (rd_next r) then r
      else match pending !! rd_next r, rd_ready r !! rd_next r with
      | Some (e, _), Some prepared =>
          let '(r, stop) := admit_one authority retry_subject_references m (now id) e prepared (take_ready r) in
          if (stop : bool) then r else loan id n false pending m r
      | _, _ => r
      end
  end.

(** The end of a loan: the index a projection has to reach is kept. *)
Definition commit_loan (r : Round) : Round :=
  if ou_changed (rd_outcome r)
  then on_store (with_meta (Some (ad_claims_sequence (rd_store r))) (ad_retried (rd_store r)) (rd_store r)) (rd_outcome r) r
  else r.

(** One round over the pending envelopes; [membership] is what was folded last. *)
Fixpoint round (fuel : nat) (pending : list (ReplicaEnvelope * EnvelopeRow)) (membership : option (Z * Membership)) (r : Round)
    : option (nat * Round) :=
  match fuel with
  | 0 => None
  | S fuel =>
      if Nat.leb (length pending) (rd_next r) then Some (S fuel, r)
      else
        let '(generation, m) := match membership with
          | Some folded => folded
          | None => (ft_generation (ad_fleet (rd_store r)), fleet_membership_tx (ad_fleet (rd_store r)))
          end in
        let items := drop (rd_next r) (take (rd_next r + ADMISSION_CHUNK_ENVELOPES) (imap pair pending)) in
        let ready := prepare_ahead items (ready_bytes (rd_ready r)) (rd_ready r) in
        let r := {| rd_store := env fuel (rd_store r); rd_outcome := rd_outcome r; rd_next := rd_next r; rd_ready := ready;
                    rd_held := rd_held r; rd_changed := rd_changed r |} in
        if negb (ft_generation (ad_fleet (rd_store r)) =? generation)%Z then round fuel pending None r
        else
          let n := Nat.min (rd_next r + ADMISSION_CHUNK_ENVELOPES) (length pending) - rd_next r in
          round fuel pending (Some (generation, m)) (commit_loan (loan fuel n true pending m r))
  end.

(** Rounds until no held envelope could be decided differently. *)
Fixpoint rounds (fuel : nat) (pending : list (ReplicaEnvelope * EnvelopeRow)) (s : AdmStore) (o : Outcome) (budget : nat)
    : option (AdmStore * Outcome) :=
  match fuel with
  | 0 => None
  | S fuel =>
      match round budget pending None {| rd_store := s; rd_outcome := o; rd_next := 0; rd_ready := ∅; rd_held := []; rd_changed := false |} with
      | None => None
      | Some (budget, r) =>
          if negb (rd_changed r) || bool_decide (rd_held r = [])
          then Some (rd_store r, set_held (length (rd_held r)) (rd_outcome r))
          else rounds fuel (rd_held r) (rd_store r) (rd_outcome r) budget
      end
  end.
End pass.

(** [admit_replication_backlog], once local batches are sealed and judged. *)
Definition admit_replication_backlog (authority : AdmissionAuthority) (schema_digest : string) (spent : nat → nat → bool) (now : nat → Z)
    (env : nat → AdmStore → AdmStore) (budget : nat) (s : AdmStore) : option (AdmStore * Outcome) :=
  let retry_hash_mismatches := bool_decide ((ad_retried s).1 = None) in
  let retry_subject_references := bool_decide ((ad_retried s).2 ≠ Some schema_digest) in
  let pending := pending_envelopes retry_hash_mismatches retry_subject_references s in
  match rounds authority retry_subject_references spent now env (S (length pending)) pending s outcome_default budget with
  | None => None
  | Some (s, o) =>
      let retried := (if retry_hash_mismatches then Some (now 0%nat) else (ad_retried s).1,
                      if retry_subject_references then Some schema_digest else (ad_retried s).2) in
      Some (if retry_hash_mismatches || retry_subject_references then with_meta (ad_admitted_index s) retried s else s, o)
  end.
End admission.
