(* ===== verification/Backlog.v ===== *)
(** * What a pass over the replication backlog comes to
    (crates/smallclaims/src/store.rs, [admit_replication_backlog], and
    crates/smallclaims/src/store/prepared_envelope.rs)

    The pass of [Admission] works in chunks, on envelopes prepared beforehand and on a
    membership folded beforehand, while other transactions run in between.  It is shown to
    refine single steps that each judge one envelope by the membership of the tables as
    they are, to end, and to leave no envelope pending that membership lets in. *)

From stdpp Require Import gmap.
From S2P Require Import Prelude BTree Json Digests Membership Principal Text Retired WriterHeads FleetStore Admission.

Local Open Scope string_scope.
Local Open Scope claims_scope.

(** ** Statements on the fleet's tables *)

Definition fleet_run (t t' : FleetTables) : Prop := ∃ tr, run fleet_step t tr t'.

Lemma fleet_run_refl t : fleet_run t t.
Proof. exists []. constructor. Qed.
Lemma fleet_run_trans t t' t'' : fleet_run t t' → fleet_run t' t'' → fleet_run t t''.
Proof. intros [tr H] [tr' H']. exists (tr ++ tr')%list. by eapply run_app. Qed.
Lemma fleet_run_step t op t' : fleet_step t op t' → fleet_run t t'.
Proof. intros H. exists [op]. econstructor; [done|constructor]. Qed.
Lemma fleet_run_guarded t t' : fleet_run t t' → guarded t t'.
Proof. intros [tr H]. by eapply run_guarded. Qed.

#[local] Hint Resolve fleet_run_refl : claims.

(** The id a verified batch of this envelope has. *)
Section batch_id.
Context `{AdmissionCodec}.
Definition header_batch_id (k : envelope_key) (previous_hash : option string) (accepted : string) : string :=
  "batch/" +:+ k.1.1 +:+ "/" +:+ decimal k.1.2 +:+ "/" +:+ hash_header ("st3.replica-batch.v1", k.1.1, k.1.2, previous_hash, accepted).

(** The batch of an admitted envelope is the one its header names. *)
Definition receipts_ok (t : FleetTables) : Prop :=
  ∀ k row id, ft_envelopes t !! k = Some row → ev_batch_id row = Some id →
    id = header_batch_id k (ev_previous_hash row) (ev_accepted_at_unix_ms row).
End batch_id.

Section backlog.
Context `{Crypto} `{AdmissionCodec} `{AdmissionHooks}.
Variable classify_unbound : ReplicaBatch → WireClaim → option (result ReplicatedClaimAdmission St3Error).
Variable classify : AdmStore → ReplicaBatch → WireClaim → result ReplicatedClaimAdmission St3Error.

Notation prepare_envelope := (prepare_envelope classify_unbound).
Notation prepare_payload := (prepare_payload classify_unbound).
Notation admit_prepared_envelope_tx := (admit_prepared_envelope_tx classify).
Notation admit_claims := (admit_claims classify).
Notation admit_claim := (admit_claim classify).

(** ** What a preparation has verified *)

Record prepared_ok (e : ReplicaEnvelope) (content : PreparedPayload) : Prop := {
  po_origin : rb_origin (pl_batch (pp_payload content)) = re_writer e;
  po_sequence : rb_replica_sequence (pl_batch (pp_payload content)) = re_sequence e;
  po_previous : rb_previous_hash (pl_batch (pp_payload content)) = re_previous_hash e;
  po_accepted : rb_accepted_at_unix_ms (pl_batch (pp_payload content)) = re_accepted_at_unix_ms e;
  po_hash : rb_hash (pl_batch (pp_payload content)) =
    batch_header_hash hash_header (re_writer e) (re_sequence e) (re_previous_hash e) (re_accepted_at_unix_ms e);
  po_id : rb_id (pl_batch (pp_payload content)) = header_batch_id (re_key e) (re_previous_hash e) (decimal (re_accepted_at_unix_ms e));
  po_bytes : ∃ bytes, re_payload e = PayloadBytes bytes ∧ decode_payload bytes = Ok (pp_payload content) ∧
    re_hash e = replica_envelope_hash sha256 hex_encode (re_writer e) (re_sequence e) (re_previous_hash e) (re_accepted_at_unix_ms e) bytes;
  po_claims : pp_claims content =
    imap (λ position claim, prepare_claim classify_unbound (re_key e) (pl_batch (pp_payload content)) position claim)
      (rb_claims (pl_batch (pp_payload content)));
  po_blobs : pp_blobs content =
    imap (λ offset blob, prepare_blob (re_key e) (length (rb_claims (pl_batch (pp_payload content))) + offset) blob) (pl_blobs (pp_payload content))
}.

Lemma prepare_payload_ok e content : prepare_payload e = Ok content → prepared_ok e content.
Proof.
  unfold Admission.prepare_payload. destruct (re_payload e) as [bytes|] eqn:Ep; cbn [payload_bytes]; [|done].
  destruct (String.eqb_spec (replica_envelope_hash sha256 hex_encode (re_writer e) (re_sequence e) (re_previous_hash e)
    (re_accepted_at_unix_ms e) bytes) (re_hash e)) as [Hhash|]; cbn [negb]; [|done].
  destruct (decode_payload bytes) as [payload|] eqn:Ed; [|done].
  destruct (String.eqb_spec (rb_origin (pl_batch payload)) (re_writer e)) as [Ho|]; cbn [negb orb]; [|done].
  destruct (Z.eqb_spec (rb_replica_sequence (pl_batch payload)) (re_sequence e)) as [Hs|]; cbn [negb orb]; [|done].
  destruct (bool_decide_reflect (rb_previous_hash (pl_batch payload) = re_previous_hash e)) as [Hp|]; cbn [negb orb]; [|done].
  destruct (Z.eqb_spec (rb_accepted_at_unix_ms (pl_batch payload)) (re_accepted_at_unix_ms e)) as [Ha|]; cbn [negb orb]; [|done].
  unfold verify_replica_batch_header. rewrite Ho, Hs, Hp, Ha.
  destruct (String.eqb_spec (batch_header_hash hash_header (re_writer e) (re_sequence e) (re_previous_hash e) (re_accepted_at_unix_ms e))
    (rb_hash (pl_batch payload))) as [Hh|]; cbn [negb orb result_bind]; [|done].
  destruct (String.eqb_spec (rb_id (pl_batch payload))
    ("batch/" +:+ re_writer e +:+ "/" +:+ decimal (re_sequence e) +:+ "/" +:+ rb_hash (pl_batch payload))) as [Hid|];
    cbn [negb result_bind]; [|done].
  intros [= <-]. split; cbn [pp_payload pp_claims pp_blobs]; try done.
  - rewrite Hid, <-Hh. done.
  - by exists bytes.
Qed.

(** ** What admission does to the fleet's tables *)

Lemma upsert_fleet ref fresh where_ set s : ad_fleet (upsert ref fresh where_ set s) = ad_fleet s.
Proof. unfold upsert. destruct (ad_records s !! ref); [|done]. by destruct (where_ _). Qed.

Lemma admit_blobs_fleet k now blobs a : ad_fleet (foldl (admit_blob k now) a blobs).1.1 = ad_fleet a.1.1.
Proof.
  revert a. induction blobs as [|[blob [hash bytes]] blobs IH]; intros [[s o] degraded]; cbn [foldl]; [done|]. rewrite IH.
  unfold admit_blob. destruct (pb_valid blob); cbn [fst]; unfold put_valid_blob, put_invalid_blob; rewrite upsert_fleet; [|done].
  by destruct (ad_blobs s !! hash).
Qed.

(** A claim goes into the store only in its batch, and the claims there stay. *)
Record claims_grow (batch : string) (t t' : FleetTables) : Prop := {
  cg_run : fleet_run t t';
  cg_keep id c : ft_claims t !! id = Some c → ft_claims t' !! id = Some c;
  cg_batch id c : ft_claims t' !! id = Some c → ft_claims t !! id = Some c ∨ cm_batch_id c = batch;
  cg_batches id : is_Some (batch_of t id) → batch_of t' id = batch_of t id;
  cg_envelopes : ft_envelopes t' = ft_envelopes t;
  cg_signatures : ft_signatures t' = ft_signatures t;
  cg_ledger : wr_ledger (ft_writers t') = wr_ledger (ft_writers t);
  cg_generation : carries_fleet_claims t' (Some batch) = false → ft_generation t' = ft_generation t
}.

Lemma claims_grow_refl batch t : claims_grow batch t t.
Proof. split; auto with claims. Qed.

(** Fleet claims that stay keep their batch marked. *)
Lemma carries_keep t t' batch :
  (∀ id c, ft_claims t !! id = Some c → ft_claims t' !! id = Some c) →
  carries_fleet_claims t' batch = false → carries_fleet_claims t batch = false.
Proof.
  intros Hk Hn. apply not_true_iff_false. intros (id & c & Hc & Hb & Hf)%carries_spec.
  apply not_true_iff_false in Hn. apply Hn, carries_spec. exists id, c. auto.
Qed.

Lemma claims_grow_trans batch t t' t'' : claims_grow batch t t' → claims_grow batch t' t'' → claims_grow batch t t''.
Proof.
  intros [r k b bs e s l g] [r' k' b' bs' e' s' l' g']. split.
  - by eapply fleet_run_trans.
  - auto.
  - intros id c Hc. destruct (b' id c Hc) as [Hc'|]; auto.
  - intros id Hb. rewrite bs', bs; [done|done|]. by rewrite bs.
  - congruence.
  - congruence.
  - congruence.
  - intros Hc. rewrite g', g; [done| |done]. by eapply carries_keep.
Qed.

Lemma insert_claim_grow c s :
  claims_grow (cm_batch_id c) (ad_fleet s) (ad_fleet (insert_claim_tx c s).1).
Proof.
  unfold insert_claim_tx. destruct (ft_claims (ad_fleet s) !! cm_id c) eqn:E; [apply claims_grow_refl|].
  cbn [fst ad_fleet with_inserted with_fleet]. unfold insert_claim_row. cbn [cm_id stored_claim]. rewrite E. split; try done.
  - eapply fleet_run_step. pose proof (fstep_insert_claim (ad_fleet s) (stored_claim c)) as Hstep.
    unfold insert_claim_row in Hstep. cbn [cm_id stored_claim] in Hstep. by rewrite E in Hstep.
  - intros id c' Hc'. cbn [ft_claims bump_when set_claims]. rewrite lookup_insert_ne; [done|]. intros <-. congruence.
  - intros id c' Hc'. cbn [ft_claims bump_when set_claims] in Hc'. apply lookup_insert_Some in Hc' as [[<- <-]|[_ Hc']]; [by right|by left].
  - intros Hn. cbn [ft_generation bump_when set_claims]. destruct (fleet_kind (cm_kind (stored_claim c))) eqn:Ek; [|lia].
    exfalso. apply not_true_iff_false in Hn. apply Hn, carries_spec. exists (cm_id c), (stored_claim c).
    cbn [ft_claims bump_when set_claims]. by rewrite lookup_insert_eq.
Qed.

Lemma store_claim_grow k signatures position p c s s' inserted :
  store_claim k signatures position p c s = Ok (s', inserted) → claims_grow (cm_batch_id c) (ad_fleet s) (ad_fleet s').
Proof.
  unfold store_claim. destruct (claim_tombstoned (ad_fleet s) (cm_id c)); [intros [= <- <-]; apply claims_grow_refl|].
  destruct (pc_body p); [|done]. destruct (pc_predecessors p); [|done]. cbn [result_bind].
  pose proof (insert_claim_grow c (record_least_position (cm_id c) position s)) as Hg.
  destruct (insert_claim_tx c (record_least_position (cm_id c) position s)) as [s1 i]. cbn [fst] in Hg.
  destruct (bmap_get (cm_id c) signatures) as [signature|]; [|intros [= <- <-]; done].
  intros (o & _ & [= <- <-])%result_bind_Ok. done.
Qed.

(** ** The checks a stored claim has passed *)

Record claim_verified (b : ReplicaBatch) (c : ClaimRecord) : Prop := {
  cv_batch : cm_batch_id c = rb_id b;
  cv_origin : cm_origin c = rb_origin b;
  cv_hash : claim_id_is_content_hash c = Ok true
}.

Lemma finish_check_verified s b claim admission :
  finish_claim_check classify s b claim (check_claim classify_unbound b claim) = Ok admission → claim_verified b (wc_row claim).
Proof.
  unfold finish_claim_check, check_claim.
  destruct (String.eqb_spec (cm_batch_id (wc_row claim)) (rb_id b)) as [Hb|]; cbn [negb orb result_bind]; [|done].
  destruct (String.eqb_spec (cm_origin (wc_row claim)) (rb_origin b)) as [Ho|]; cbn [negb orb result_bind]; [|done].
  destruct (claim_id_is_content_hash (wc_row claim)) as [[]|] eqn:E; [|done..]. done.
Qed.

Definition checked (b : ReplicaBatch) (claims : list (WireClaim * PreparedClaim)) : Prop :=
  Forall (λ cp, pc_check cp.2 = check_claim classify_unbound b cp.1) claims.

Lemma checked_prepared k b claims n :
  checked b (zip claims (imap (λ position claim, prepare_claim classify_unbound k b (n + position) claim) claims)).
Proof.
  revert n. induction claims as [|claim claims IH]; intros n; cbn [imap zip zip_with]; constructor; [done|].
  replace (imap _ claims) with (imap (λ position claim, prepare_claim classify_unbound k b (S n + position) claim) claims); [apply IH|].
  apply imap_ext. intros i x _. cbn. by rewrite Nat.add_succ_r.
Qed.

Lemma admit_claim_grow k payload now position claim p s o degraded o' s' degraded' :
  pc_check p = check_claim classify_unbound (pl_batch payload) claim →
  admit_claim k payload now position claim p s o degraded = (o', Ok (s', degraded')) →
  claims_grow (rb_id (pl_batch payload)) (ad_fleet s) (ad_fleet s').
Proof.
  intros Hcheck. unfold Admission.admit_claim. destruct (pc_raw p) as [raw|]; [|done]. rewrite Hcheck.
  destruct (finish_claim_check classify s (pl_batch payload) claim _) as [[]|error] eqn:E.
  - destruct (store_claim k (pl_claim_signatures payload) position p (wc_row claim) s) as [[s1 inserted]|] eqn:Es; [|done].
    intros [= <- <- <-]. unfold put_valid_claim. rewrite upsert_fleet. apply finish_check_verified in E. rewrite <-(cv_batch _ _ E).
    by eapply store_claim_grow.
  - intros [= <- <- <-]. unfold put_unknown_claim. rewrite upsert_fleet. apply claims_grow_refl.
  - intros [= <- <- <-]. unfold put_unknown_claim. rewrite upsert_fleet. apply claims_grow_refl.
  - intros [= <- <- <-]. unfold put_invalid_claim. rewrite upsert_fleet. apply claims_grow_refl.
Qed.

Lemma admit_claims_grow k payload now position claims s o degraded o' s' degraded' :
  checked (pl_batch payload) claims →
  admit_claims k payload now position claims s o degraded = (o', Ok (s', degraded')) →
  claims_grow (rb_id (pl_batch payload)) (ad_fleet s) (ad_fleet s').
Proof.
  revert position s o degraded. induction claims as [|[claim p] claims IH]; intros position s o degraded Hc; cbn [Admission.admit_claims].
  - intros [= <- <- <-]. apply claims_grow_refl.
  - apply Forall_cons in Hc as [Hp Hc]. destruct (admit_claim k payload now (Z.of_nat position) claim p s o degraded) as [o1 [[s1 d1]|]] eqn:E; [|done].
    intros Hrest. eapply claims_grow_trans; [by eapply admit_claim_grow|]. by eapply IH.
Qed.

Lemma batch_of_insert w t b id :
  wr_batches w = wr_batches (ft_writers t) → is_Some (batch_of t id) →
  batch_of (insert_batch_row b (set_writers w t)) id = batch_of t id.
Proof.
  intros Hw. unfold batch_of. cbn [ft_writers insert_batch_row bump_when set_writers insert_batch set_batches wr_batches]. rewrite Hw. clear Hw.
  induction (wr_batches (ft_writers t)) as [|x l IH]; cbn [app List.find]; [by intros [? ?]|].
  destruct (String.eqb (ba_id x) id); [done|apply IH].
Qed.

Lemma next_rowid_writers w rowid w' : next_batch_rowid w = Ok (rowid, w') → wr_batches w' = wr_batches w ∧ wr_ledger w' = wr_ledger w.
Proof. unfold next_batch_rowid. case_match; [|done]. by intros [= _ <-]. Qed.

Lemma batch_of_same_batches t t' id : wr_batches (ft_writers t') = wr_batches (ft_writers t) → batch_of t' id = batch_of t id.
Proof. unfold batch_of. by intros ->. Qed.

Lemma admit_batch_grow b s s' : admit_batch_tx b s = Ok s' → claims_grow (rb_id b) (ad_fleet s) (ad_fleet s') ∧ is_Some (batch_of (ad_fleet s') (rb_id b)).
Proof.
  unfold admit_batch_tx. destruct (batch_of (ad_fleet s) (rb_id b)) as [b0|] eqn:Eb.
  - intros [= <-]. split; [apply claims_grow_refl|]. by rewrite Eb.
  - destruct (next_batch_rowid (ft_writers (ad_fleet s))) as [[rowid w]|] eqn:Er; [|done]. intros [= <-].
    apply next_rowid_writers in Er as [Hw Hl]. cbn [ad_fleet with_fleet]. split; [split; try done|].
    + eapply fleet_run_trans; [eapply fleet_run_step, (fstep_writers _ w); done|]. eapply fleet_run_step.
      apply (fstep_insert_batch (set_writers w (ad_fleet s)) (with_rowid rowid (batch_row b))).
      rewrite (batch_of_same_batches (ad_fleet s)) by done. done.
    + auto.
    + intros id Hid. by apply batch_of_insert.
    + cbn. intros Hn. unfold insert_batch_row. cbn [ft_generation bump_when set_writers ba_id with_rowid batch_row].
      rewrite (carries_ext (ad_fleet s)) by done. unfold insert_batch_row in Hn. rewrite (carries_ext (ad_fleet s)) in Hn by done.
      rewrite Hn. lia.
    + unfold batch_of. cbn [ft_writers insert_batch_row bump_when set_writers insert_batch set_batches wr_batches].
      clear. induction (wr_batches w) as [|x l IH]; cbn [app List.find].
      * cbn [ba_id with_rowid batch_row]. rewrite String.eqb_refl. by eexists.
      * destruct (String.eqb (ba_id x) (rb_id b)); [by eexists|apply IH].
Qed.

(** ** A whole envelope *)

Definition same_header (row row' : ReplicaEnvelopeRow) : Prop :=
  ev_previous_hash row' = ev_previous_hash row ∧ ev_accepted_at_unix_ms row' = ev_accepted_at_unix_ms row ∧
  ev_payload row' = ev_payload row ∧ ev_received_at_unix_ms row' = ev_received_at_unix_ms row ∧ ev_rowid row' = ev_rowid row.

(** The receipt is settled and names the batch. *)
Definition settled_row (batch : string) (row : ReplicaEnvelopeRow) : Prop :=
  ev_batch_id row = Some batch ∧ ev_validation_error row = None ∧ ev_receipt_state row ∈ ["validated"; "degraded"].

Lemma finish_receipt_spec k degraded batch s row :
  ft_envelopes (ad_fleet s) !! k = Some row →
  ∃ row' t', finish_receipt k degraded batch s = with_fleet t' s ∧ fleet_run (ad_fleet s) t' ∧ same_header row row' ∧
    settled_row batch row' ∧ ft_envelopes t' = <[k := row']> (ft_envelopes (ad_fleet s)) ∧
    ft_claims t' = ft_claims (ad_fleet s) ∧ ft_writers t' = ft_writers (ad_fleet s) ∧ ft_signatures t' = ft_signatures (ad_fleet s) ∧
    (carries_fleet_claims (ad_fleet s) (Some batch) = false → carries_fleet_claims (ad_fleet s) (ev_batch_id row) = false →
     ft_generation t' = ft_generation (ad_fleet s)).
Proof.
  intros Hrow. unfold finish_receipt. rewrite Hrow. case_match eqn:E.
  - exists (with_receipt row (if degraded then "degraded" else "validated") None (Some batch)). eexists. split; [done|]. unfold update_envelope_row. cbn zeta. split_and!; try done.
    + eapply fleet_run_step. pose proof (fstep_update_envelope (ad_fleet s) k k row
        (with_receipt row (if degraded then "degraded" else "validated") None (Some batch)) true true) as Hstep.
      apply Hstep; [done|by left|done|done].
    + unfold settled_row. cbn. destruct degraded; set_solver.
    + cbn [ft_envelopes bump_when set_envelopes]. by rewrite insert_delete_eq.
    + intros Hb Hold. cbn [ft_generation bump_when set_envelopes ev_batch_id with_receipt andb].
      rewrite !(carries_ext (ad_fleet s) (set_envelopes _ _)) by done. rewrite Hb, Hold. cbn. lia.
  - exists row, (ad_fleet s). apply orb_false_iff in E as [[Es%negb_false_iff Ee]%orb_false_iff Eb].
    apply bool_decide_eq_false in Ee, Eb. apply dec_stable in Ee, Eb. apply String.eqb_eq in Es.
    split_and!; try done; [by destruct s|apply fleet_run_refl|..].
    + unfold settled_row. rewrite Es. destruct degraded; set_solver.
    + by rewrite insert_id.
Qed.

(** Two tables that differ by an admission of [e] with its verified content. *)
Record envelope_admitted (k : envelope_key) (batch : string) (t t' : FleetTables) : Prop := {
  ea_run : fleet_run t t';
  ea_receipts : receipts_ok t → receipts_ok t';
  ea_row : ∃ row row', ft_envelopes t !! k = Some row ∧ ft_envelopes t' = <[k := row']> (ft_envelopes t) ∧ same_header row row' ∧
    settled_row batch row';
  ea_keep id c : ft_claims t !! id = Some c → ft_claims t' !! id = Some c;
  ea_claims id c : ft_claims t' !! id = Some c → ft_claims t !! id = Some c ∨ cm_batch_id c = batch;
  ea_signatures : ft_signatures t' = ft_signatures t;
  ea_ledger : wr_ledger (ft_writers t') = wr_ledger (ft_writers t);
  ea_generation : receipts_ok t → envelope_carries_fleet_claims t' k = false → ft_generation t' = ft_generation t
}.

Lemma admission_row_spec t e row :
  admission_envelope_row t e = Some row →
  ∃ r, ft_envelopes t !! re_key e = Some r ∧ ev_previous_hash r = re_previous_hash e ∧
    ev_accepted_at_unix_ms r = decimal (re_accepted_at_unix_ms e) ∧ envelope_tombstoned t (re_key e) = false ∧
    row = {| er_rowid := ev_rowid r; er_received_at_unix_ms := ev_received_at_unix_ms r |}.
Proof.
  unfold admission_envelope_row. destruct (ft_envelopes t !! re_key e) as [r|]; [|done]. cbn [mbind option_bind].
  destruct (bool_decide_reflect (ev_previous_hash r = re_previous_hash e)); [|done].
  destruct (String.eqb_spec (ev_accepted_at_unix_ms r) (decimal (re_accepted_at_unix_ms e))); [|done].
  destruct (envelope_tombstoned t (re_key e)) eqn:E; [done|]. intros [= <-]. by exists r.
Qed.

Lemma admit_tables e row row' now s o o' s' :
  admission_envelope_row (ad_fleet s) e = Some row →
  admit_prepared_envelope_tx (prepare_envelope e row') now s o = (o', Ok s') →
  ∃ content, prepare_payload e = Ok content ∧
    envelope_admitted (re_key e) (rb_id (pl_batch (pp_payload content))) (ad_fleet s) (ad_fleet s').
Proof.
  intros (r & Hr & Hprev & Hacc & _ & _)%admission_row_spec. unfold Admission.admit_prepared_envelope_tx. cbn [pe_content pe_key Admission.prepare_envelope].
  destruct (prepare_payload e) as [content|] eqn:Ec; [|done]. pose proof (prepare_payload_ok e content Ec) as Hok.
  pose proof (admit_blobs_fleet (re_key e) now (zip (pp_blobs content) (pl_blobs (pp_payload content))) (s, o, false)) as Hblobs.
  destruct (foldl _ _ _) as [[s1 o1] d1]. cbn [fst] in Hblobs.
  destruct (admit_batch_tx (pl_batch (pp_payload content)) s1) as [s2|] eqn:Eb; [|done]. apply admit_batch_grow in Eb as [Hgrow1 _].
  rewrite (po_claims _ _ Hok).
  destruct (admit_claims (re_key e) (pp_payload content) now 0 _ s2 o1 d1) as [o3 [[s3 d3]|]] eqn:E3; [|done].
  apply (admit_claims_grow _ _ _ _ _ _ _ _ _ _ _ (checked_prepared (re_key e) _ _ 0)) in E3. intros [= <- <-].
  pose proof (claims_grow_trans _ _ _ _ Hgrow1 E3) as Hgrow. rewrite Hblobs in Hgrow.
  exists content. split; [done|]. set (batch := rb_id (pl_batch (pp_payload content))) in *.
  assert (ft_envelopes (ad_fleet s3) !! re_key e = Some r) as Hr3 by (by rewrite (cg_envelopes _ _ _ Hgrow)).
  destruct (finish_receipt_spec (re_key e) d3 batch s3 r Hr3) as (row1 & t' & -> & Hrun & Hhead & Hset & Henv & Hclaims & Hw & Hsig & Hgen).
  cbn [ad_fleet with_fleet].
  assert (header_batch_id (re_key e) (ev_previous_hash r) (ev_accepted_at_unix_ms r) = batch) as Hbatch.
  { rewrite Hprev, Hacc. symmetry. apply (po_id _ _ Hok). }
  split.
  - eapply fleet_run_trans; [apply (cg_run _ _ _ Hgrow)|done].
  - intros Hrec k0 row0 id Hk0 Hid. rewrite Henv, (cg_envelopes _ _ _ Hgrow) in Hk0.
    apply lookup_insert_Some in Hk0 as [[<- <-]|[_ Hk0]]; [|by eapply Hrec].
    destruct Hset as (Hb & _ & _), Hhead as (Hp & Ha & _). rewrite Hp, Ha, Hbatch. congruence.
  - exists r, row1. rewrite Henv, (cg_envelopes _ _ _ Hgrow). done.
  - intros id c Hc. rewrite Hclaims. by apply (cg_keep _ _ _ Hgrow).
  - intros id c Hc. rewrite Hclaims in Hc. by apply (cg_batch _ _ _ Hgrow).
  - rewrite Hsig. apply (cg_signatures _ _ _ Hgrow).
  - rewrite Hw. apply (cg_ledger _ _ _ Hgrow).
  - intros Hrec. unfold envelope_carries_fleet_claims. rewrite Henv, lookup_insert_eq. destruct Hset as (-> & _ & _).
    rewrite (carries_ext (ad_fleet s3)) by done. intros Hn. rewrite Hgen; [by apply (cg_generation _ _ _ Hgrow)|done|].
    destruct (ev_batch_id r) as [id|] eqn:Eid; [|apply not_true_iff_false; by intros (? & ? & _ & [=] & _)%carries_spec].
    rewrite (Hrec _ _ _ Hr Eid), Hbatch. done.
Qed.

(** ** Single steps, each under the membership of the tables as they are *)

Inductive AdmEvent :=
| EvAdmit (k : envelope_key)
| EvReject (k : envelope_key) (error : St3Error)
| EvHold (k : envelope_key) (reason : string)
| EvOthers
| EvMeta.

Definition held_back (s : AdmStore) (k : envelope_key) : option string :=
  fleet_admission_hold (ad_fleet s) (fleet_membership_tx (ad_fleet s)) k.

(** What other transactions may do: any statements on the fleet's tables that bind
    envelopes to batches as admission and sealing do. *)
Definition others_may (s s' : AdmStore) : Prop :=
  fleet_run (ad_fleet s) (ad_fleet s') ∧ (receipts_ok (ad_fleet s) → receipts_ok (ad_fleet s')).

(** What they do here. *)
Variable others : AdmStore → AdmStore → Prop.
Hypothesis others_ok : ∀ s s', others s s' → others_may s s'.

Inductive adm_step : AdmStore → AdmEvent → AdmStore → Prop :=
| astep_admit s e row row' now o o' s' :
    admission_envelope_row (ad_fleet s) e = Some row → held_back s (re_key e) = None →
    admit_prepared_envelope_tx (prepare_envelope e row') now s o = (o', Ok s') →
    adm_step s (EvAdmit (re_key e)) (release_hold (re_key e) s')
| astep_reject s e row row' now o o' error :
    admission_envelope_row (ad_fleet s) e = Some row → held_back s (re_key e) = None →
    admit_prepared_envelope_tx (prepare_envelope e row') now s o = (o', Err error) →
    adm_step s (EvReject (re_key e) error) (record_invalid_replica_envelope e error now s)
| astep_hold s e row reason now (again : bool) :
    admission_envelope_row (ad_fleet s) e = Some row → held_back s (re_key e) = Some reason →
    adm_step s (EvHold (re_key e) reason)
      (let s := hold_replica_envelope (re_key e) reason now s in if again then hold_again (re_key e) s else s)
| astep_others s s' : others s s' → adm_step s EvOthers s'
| astep_meta s index retried : adm_step s EvMeta (with_meta index retried s).

(** An update of a row that keeps its key and batch. *)
Lemma update_row_may t k row row' :
  ft_envelopes t !! k = Some row → ev_batch_id row' = ev_batch_id row → same_header row row' →
  let t' := update_envelope_row k k row row' false false t in
  fleet_run t t' ∧ (receipts_ok t → receipts_ok t') ∧ ft_generation t' = ft_generation t ∧
  ft_envelopes t' = <[k := row']> (ft_envelopes t).
Proof.
  intros Hrow Hb (Hp & Ha & _) t'.
  assert (ft_envelopes t' = <[k := row']> (ft_envelopes t)) as He by (subst t'; cbn; by rewrite insert_delete_eq).
  split_and!; [| |subst t'; cbn; lia|done].
  - eapply fleet_run_step. apply (fstep_update_envelope t k k row row' false false); [done|by left|done|done].
  - intros Hr k0 row0 id Hk0 Hid. rewrite He in Hk0. apply lookup_insert_Some in Hk0 as [[<- <-]|[_ Hk0]]; [|by eapply Hr].
    rewrite Hp, Ha. apply Hr; congruence.
Qed.

Lemma hold_fleet k reason now s : ad_fleet (hold_replica_envelope k reason now s) = ad_fleet s.
Proof. unfold hold_replica_envelope. destruct (ad_holds s !! k) as [[old ?]|]; [by destruct (String.eqb old reason)|done]. Qed.

Lemma hold_again_may k s : others_may s (hold_again k s) ∧ ft_generation (ad_fleet (hold_again k s)) = ft_generation (ad_fleet s).
Proof.
  unfold hold_again. destruct (ft_envelopes (ad_fleet s) !! k) as [row|] eqn:E; [|by repeat split; auto with claims].
  case_match; [|by repeat split; auto with claims]. cbn [ad_fleet with_fleet].
  destruct (update_row_may (ad_fleet s) k row (with_receipt row "pending" (ev_validation_error row) (ev_batch_id row)) E)
    as (Hr & Hrec & Hg & _); done.
Qed.

Lemma record_invalid_may e error now s :
  others_may s (record_invalid_replica_envelope e error now s) ∧
  ft_generation (ad_fleet (record_invalid_replica_envelope e error now s)) = ft_generation (ad_fleet s).
Proof.
  unfold record_invalid_replica_envelope, others_may. rewrite upsert_fleet.
  destruct (ft_envelopes (ad_fleet s) !! re_key e) as [row|] eqn:E; [|by rewrite upsert_fleet; repeat split; auto with claims].
  cbn [ad_fleet with_fleet].
  destruct (update_row_may (ad_fleet s) (re_key e) row (with_receipt row "degraded" (Some (er_message error)) (ev_batch_id row)) E)
    as (Hr & Hrec & Hg & _); done.
Qed.

Lemma adm_step_may s ev s' : adm_step s ev s' → others_may s s'.
Proof.
  destruct 1 as [s e row row' now o o' s' Hrow Hhold Ha|s e row row' now o o' error Hrow Hhold Ha|s e row reason now again Hrow Hhold|s s' Hm|s index retried].
  - destruct (admit_tables _ _ _ _ _ _ _ _ Hrow Ha) as (content & _ & Hadm). split; [apply (ea_run _ _ _ _ Hadm)|apply (ea_receipts _ _ _ _ Hadm)].
  - apply record_invalid_may.
  - cbn zeta. destruct again; [|split; rewrite hold_fleet; auto with claims]. unfold others_may.
    destruct (hold_again_may (re_key e) (hold_replica_envelope (re_key e) reason now s)) as [[Hr Hrec] _].
    by rewrite hold_fleet in Hr, Hrec.
  - by apply others_ok.
  - split; auto with claims.
Qed.

Lemma adm_run_may s tr s' : run adm_step s tr s' → others_may s s'.
Proof.
  induction 1 as [|s ev s1 tr s2 Hstep _ [Hr Hrec]]; [by split; auto with claims|].
  destruct (adm_step_may _ _ _ Hstep) as [Hr1 Hrec1]. split; [by eapply fleet_run_trans|auto].
Qed.

(** ** The pass refines the steps *)

Definition current (s : AdmStore) (m : Membership) : Prop := m = fleet_membership_tx (ad_fleet s).

Lemma generation_current s s' m :
  others_may s s' → ft_generation (ad_fleet s') = ft_generation (ad_fleet s) → current s m → current s' m.
Proof.
  intros [Hr _] Hg ->. unfold current. destruct (fleet_run_guarded _ _ Hr) as [_ Hs]. symmetry.
  apply same_input_membership. by apply Hs.
Qed.

Section refines.
Variables (again : bool) (spent : nat → nat → bool) (now : nat → Z) (env : nat → AdmStore → AdmStore).
Hypothesis env_others : ∀ n s, others s (env n s).

Notation admit_one := (admit_one classify AuthorityMembership again).
Notation loan := (loan classify AuthorityMembership again spent now).
Notation round := (round classify_unbound classify AuthorityMembership again spent now env).
Notation rounds := (rounds classify_unbound classify AuthorityMembership again spent now env).

Lemma admit_one_refines m t e row' r r' stop :
  current (rd_store r) m → receipts_ok (ad_fleet (rd_store r)) →
  admit_one m t e (prepare_envelope e row') r = (r', stop) →
  (∃ tr, run adm_step (rd_store r) tr (rd_store r')) ∧ (stop = false → current (rd_store r') m) ∧
  rd_next r' = rd_next r ∧ rd_ready r' = rd_ready r.
Proof.
  intros Hm Hrec. unfold Admission.admit_one. destruct (admission_envelope_row (ad_fleet (rd_store r)) e) as [row|] eqn:Erow;
    [|intros [= <- <-]; split_and!; [exists []; constructor|done..]].
  destruct (negb _); [intros [= <- <-]; split_and!; [exists []; constructor|done..]|].
  rewrite Hm. fold (held_back (rd_store r) (re_key e)). destruct (held_back (rd_store r) (re_key e)) as [reason|] eqn:Ehold.
  - intros [= <- <-]. cbn [rd_store rd_next rd_ready].
    pose proof (astep_hold (rd_store r) e row reason t again Erow Ehold) as Hstep. split_and!; [|intros _|done..].
    + eexists. econstructor; [exact Hstep|constructor].
    + rewrite <-Hm. apply (generation_current (rd_store r)); [by eapply adm_step_may| |done].
      destruct again; [|by rewrite hold_fleet]. destruct (hold_again_may (re_key e) (hold_replica_envelope (re_key e) reason t (rd_store r))) as [_ ->].
      by rewrite hold_fleet.
  - destruct (admit_prepared_envelope_tx _ t (rd_store r) (rd_outcome r)) as [o [s'|error]] eqn:Ea.
    + intros [= <- <-]. cbn [rd_store rd_next rd_ready]. split_and!; [|intros Hn|done..].
      * eexists. econstructor; [by eapply astep_admit|constructor].
      * rewrite <-Hm. destruct (admit_tables _ _ _ _ _ _ _ _ Erow Ea) as (content & _ & Hadm).
        apply (generation_current (rd_store r)); [split; [apply (ea_run _ _ _ _ Hadm)|apply (ea_receipts _ _ _ _ Hadm)]| |done].
        apply (ea_generation _ _ _ _ Hadm); done.
    + intros [= <- <-]. cbn [rd_store rd_next rd_ready on_store]. split_and!; [|intros _|done..].
      * eexists. econstructor; [by eapply astep_reject|constructor].
      * rewrite <-Hm. apply (generation_current (rd_store r)); [by apply record_invalid_may|by apply record_invalid_may|done].
Qed.

(** Prepared envelopes are those of the pending list. *)
Definition ready_ok (pending : list (ReplicaEnvelope * EnvelopeRow)) (ready : gmap nat PreparedEnvelope) : Prop :=
  ∀ i p, ready !! i = Some p → ∃ e row, pending !! i = Some (e, row) ∧ p = prepare_envelope e (Some row).

Lemma ready_ok_delete pending i ready : ready_ok pending ready → ready_ok pending (delete i ready).
Proof. intros Hr j p [_ Hj]%lookup_delete_Some. by apply Hr. Qed.

Lemma prepare_ahead_ok pending items bytes ready :
  Forall (λ x, pending !! x.1 = Some x.2) items → ready_ok pending ready →
  ready_ok pending (prepare_ahead classify_unbound items bytes ready).
Proof.
  revert bytes ready. induction items as [|[i [e row]] items IH]; intros bytes ready Hi Hr; cbn [prepare_ahead]; [done|].
  apply Forall_cons in Hi as [Hi His]. cbn [fst snd] in Hi. destruct (ready !! i); [by apply IH|]. case_match; [done|].
  apply IH; [done|]. intros j p [[<- <-]|[_ Hj]]%lookup_insert_Some; [by exists e, row|by apply Hr].
Qed.

Lemma imap_pair_lookup {A} (l : list A) (x : nat * A) : x ∈ imap pair l → l !! x.1 = Some x.2.
Proof.
  intros (i & Hi)%list_elem_of_lookup. rewrite list_lookup_imap in Hi. destruct (l !! i) eqn:E; [|done]. by injection Hi as <-.
Qed.

Lemma ahead_items n k (pending : list (ReplicaEnvelope * EnvelopeRow)) :
  Forall (λ x, pending !! x.1 = Some x.2) (drop n (take k (imap pair pending))).
Proof.
  apply Forall_forall. intros x [j Hj]%list_elem_of_lookup. rewrite lookup_drop in Hj. apply lookup_take_Some in Hj as [Hj _].
  apply imap_pair_lookup, list_elem_of_lookup. eauto.
Qed.

Lemma loan_refines pending id n first m r :
  current (rd_store r) m → receipts_ok (ad_fleet (rd_store r)) → ready_ok pending (rd_ready r) →
  (∃ tr, run adm_step (rd_store r) tr (rd_store (loan id n first pending m r))) ∧ ready_ok pending (rd_ready (loan id n first pending m r)).
Proof.
  revert first r. induction n as [|n IH]; intros first r Hm Hrec Hready; cbn [Admission.loan]; [split; [exists []; constructor|done]|].
  destruct (negb first && spent id (rd_next r)); [split; [exists []; constructor|done]|].
  destruct (pending !! rd_next r) as [[e row]|] eqn:Ep; [|split; [exists []; constructor|done]].
  destruct (rd_ready r !! rd_next r) as [p|] eqn:Er; [|split; [exists []; constructor|done]].
  destruct (Hready _ _ Er) as (e' & row' & Ep' & ->). rewrite Ep in Ep'. injection Ep' as <- <-.
  destruct (admit_one m (now id) e (prepare_envelope e (Some row)) (take_ready r)) as [r1 stop] eqn:E1.
  destruct (admit_one_refines m (now id) e (Some row) (take_ready r) r1 stop) as ([tr Hrun] & Hcur & Hnext & Hrd); [done..|].
  assert (ready_ok pending (rd_ready r1)) as Hready1 by (rewrite Hrd; by apply ready_ok_delete).
  destruct stop; [split; [by exists tr|done]|].
  destruct (IH false r1 (Hcur eq_refl)) as ([tr' Hrun'] & Hready'); [|done|].
  { by apply (adm_run_may _ _ _ Hrun). }
  split; [exists (tr ++ tr')%list; by eapply run_app|done].
Qed.

Lemma commit_loan_run r : ∃ tr, run adm_step (rd_store r) tr (rd_store (commit_loan r)).
Proof.
  unfold commit_loan. destruct (ou_changed (rd_outcome r)); [|exists []; constructor].
  eexists [_]. econstructor; [apply astep_meta|constructor].
Qed.

Lemma round_refines fuel pending membership r n r' :
  current_at (ad_fleet (rd_store r)) fleet_membership_tx membership → receipts_ok (ad_fleet (rd_store r)) → ready_ok pending (rd_ready r) →
  round fuel pending membership r = Some (n, r') → ∃ tr, run adm_step (rd_store r) tr (rd_store r').
Proof.
  revert membership r. induction fuel as [|fuel IH]; intros membership r Hcur Hrec Hready; cbn [Admission.round]; [done|].
  destruct (Nat.leb _ _); [intros [= <- <-]; exists []; constructor|].
  set (folded := match membership with Some folded => folded | None => _ end).
  assert (current_at (ad_fleet (rd_store r)) fleet_membership_tx (Some folded)) as Hfold.
  { destruct membership as [f|]; [done|]. intros g v [= <- <-]. done. }
  destruct folded as [generation m]. clear Hcur membership. cbn zeta.
  set (ready := prepare_ahead _ _ _ _). assert (ready_ok pending ready) as Hready'.
  { apply prepare_ahead_ok; [apply ahead_items|done]. }
  set (r1 := {| rd_store := env fuel (rd_store r) |}).
  pose proof (others_ok _ _ (env_others fuel (rd_store r))) as Hmay.
  assert (receipts_ok (ad_fleet (rd_store r1))) as Hrec1 by (by apply Hmay).
  assert (∃ tr, run adm_step (rd_store r) tr (rd_store r1)) as [tr Hrun] by (eexists [_]; econstructor; [by apply astep_others|constructor]).
  pose proof (fleet_run_guarded _ _ (proj1 Hmay)) as Hg.
  assert (current_at (ad_fleet (rd_store r1)) fleet_membership_tx (Some (generation, m))) as Hcur1.
  { apply (current_at_guarded _ _ _ _ Hg); [|done]. by apply same_input_membership. }
  destruct (Z.eqb_spec (ft_generation (ad_fleet (rd_store r1))) generation) as [Hgen|]; cbn [negb].
  - assert (current (rd_store r1) m) as Hm by (by apply (Hcur1 generation m eq_refl)).
    destruct (loan_refines pending fuel (Nat.min (rd_next r1 + ADMISSION_CHUNK_ENVELOPES) (length pending) - rd_next r1) true m r1 Hm Hrec1 Hready')
      as ([tr1 Hrun1] & Hready1).
    destruct (commit_loan_run (loan fuel (Nat.min (rd_next r1 + ADMISSION_CHUNK_ENVELOPES) (length pending) - rd_next r1) true pending m r1)) as [tr2 Hrun2].
    pose proof (run_app _ _ _ _ _ _ Hrun1 Hrun2) as Hrun12.
    intros Hround. apply IH in Hround as [tr3 Hrun3].
    + eexists. eapply run_app; [exact Hrun|]. by eapply run_app.
    + pose proof (fleet_run_guarded _ _ (proj1 (adm_run_may _ _ _ Hrun12))) as Hg12.
      apply (current_at_guarded _ _ _ _ Hg12); [by apply same_input_membership|done].
    + by apply (adm_run_may _ _ _ Hrun12).
    + unfold commit_loan. case_match; done.
  - intros Hround. apply IH in Hround as [tr3 Hrun3]; [|by intros ? ?|done|done].
    eexists. by eapply run_app.
Qed.

Lemma rounds_refines fuel pending s o budget s' o' :
  receipts_ok (ad_fleet s) → rounds fuel pending s o budget = Some (s', o') → ∃ tr, run adm_step s tr s'.
Proof.
  revert pending s o budget. induction fuel as [|fuel IH]; intros pending s o budget Hrec; cbn [Admission.rounds]; [done|].
  destruct (round budget pending None _) as [[n r]|] eqn:E; [|done].
  apply round_refines in E as [tr Hrun]; [|by intros ? ?|done|done]. cbn [rd_store] in Hrun.
  destruct (negb (rd_changed r) || bool_decide (rd_held r = [])); [intros [= <- <-]; by exists tr|].
  intros Hrest. apply IH in Hrest as [tr' Hrun']; [|by apply (adm_run_may _ _ _ Hrun)]. exists (tr ++ tr')%list. by eapply run_app.
Qed.
End refines.

(** ** Where an admitted claim comes from *)

(** The runtime's rules took the claim, with or without the store. *)
Definition rules_take (b : ReplicaBatch) (w : WireClaim) : Prop :=
  classify_unbound b w = Some (Ok AdmissionValid) ∨
  classify_unbound b w = None ∧ ∃ s, classify s b w = Ok AdmissionValid.

(** Row [c] is claim [w] of batch [b], checked against the store [s]. *)
Record claim_admitted (s : AdmStore) (b : ReplicaBatch) (w : WireClaim) (c : ClaimRecord) : Prop := {
  ca_row : c = stored_claim (wc_row w);
  ca_verified : claim_verified b (wc_row w);
  ca_rules : rules_take b w;
  ca_kept : claim_tombstoned (ad_fleet s) (cm_id c) = false;
  ca_blobs hash : hash ∈ collect_hash_fields (cm_body (wc_row w)) → is_Some (ad_blobs s !! hash)
}.

Lemma ensure_blobs_spec s c hash :
  ensure_claim_blobs s c = Ok tt → hash ∈ collect_hash_fields (cm_body c) → is_Some (ad_blobs s !! hash).
Proof.
  unfold ensure_claim_blobs. destruct (List.find _ _) eqn:E; [done|]. intros _ Hin.
  apply (find_none _ _) with (x := hash) in E; [|by apply list_elem_of_In, elem_of_bset_of_list].
  apply bool_decide_eq_false in E. by apply not_eq_None_Some.
Qed.

Lemma finish_check_valid s b w :
  finish_claim_check classify s b w (check_claim classify_unbound b w) = Ok AdmissionValid →
  claim_verified b (wc_row w) ∧ rules_take b w ∧ ensure_claim_blobs s (wc_row w) = Ok tt.
Proof.
  intros Hc. split; [by eapply finish_check_verified|]. revert Hc. unfold finish_claim_check.
  intros (admission & Ha & Hc)%result_bind_Ok. destruct admission; [|done..].
  apply result_bind_Ok in Hc as ([] & Hb & _). split; [|done]. revert Ha. unfold check_claim, rules_take.
  destruct (_ || _); [done|]. destruct (claim_id_is_content_hash (wc_row w)) as [[]|]; [|done..].
  destruct (classify_unbound b w) as [r|]; [intros ->; by left|intros Hs; right; eauto].
Qed.

Lemma upsert_blobs ref fresh where_ set s : ad_blobs (upsert ref fresh where_ set s) = ad_blobs s.
Proof. unfold upsert. destruct (ad_records s !! ref); [|done]. by destruct (where_ _). Qed.

Lemma store_claim_new k signatures position p c s s' inserted :
  store_claim k signatures position p c s = Ok (s', inserted) →
  ad_blobs s' = ad_blobs s ∧
  ∀ id c', ft_claims (ad_fleet s') !! id = Some c' →
    ft_claims (ad_fleet s) !! id = Some c' ∨ c' = stored_claim c ∧ claim_tombstoned (ad_fleet s) (cm_id c) = false.
Proof.
  unfold store_claim. destruct (claim_tombstoned (ad_fleet s) (cm_id c)); [intros [= <- <-]; auto|].
  destruct (pc_body p); [|done]. destruct (pc_predecessors p); [|done]. cbn [result_bind].
  assert (∀ s1 i, insert_claim_tx c (record_least_position (cm_id c) position s) = (s1, i) → ad_blobs s1 = ad_blobs s ∧
    ∀ id c', ft_claims (ad_fleet s1) !! id = Some c' → ft_claims (ad_fleet s) !! id = Some c' ∨ c' = stored_claim c ∧ false = false) as Hins.
  { intros s1 i. unfold insert_claim_tx. cbn [ad_fleet record_least_position with_positions].
    destruct (ft_claims (ad_fleet s) !! cm_id c) eqn:Eid; intros [= <- <-]; split; auto. intros id c'.
    cbn [ad_fleet with_inserted with_fleet]. unfold insert_claim_row. cbn [cm_id stored_claim]. rewrite Eid.
    cbn [ft_claims bump_when set_claims]. intros [[_ <-]|[_ Hc']]%lookup_insert_Some; auto. }
  destruct (insert_claim_tx c (record_least_position (cm_id c) position s)) as [s1 i]. specialize (Hins s1 i eq_refl).
  destruct (bmap_get (cm_id c) signatures) as [signature|]; [|intros [= <- <-]; done].
  intros (o & _ & [= <- <-])%result_bind_Ok. done.
Qed.

Lemma admit_claim_new k payload now position w p s o degraded o' s' degraded' :
  pc_check p = check_claim classify_unbound (pl_batch payload) w →
  admit_claim k payload now position w p s o degraded = (o', Ok (s', degraded')) →
  ad_blobs s' = ad_blobs s ∧
  ∀ id c, ft_claims (ad_fleet s') !! id = Some c → ft_claims (ad_fleet s) !! id = Some c ∨ claim_admitted s (pl_batch payload) w c.
Proof.
  intros Hcheck. unfold Admission.admit_claim. destruct (pc_raw p) as [raw|]; [|done]. rewrite Hcheck.
  destruct (finish_claim_check classify s (pl_batch payload) w _) as [[]|error] eqn:E.
  - destruct (store_claim k (pl_claim_signatures payload) position p (wc_row w) s) as [[s1 inserted]|] eqn:Es; [|done].
    intros [= <- <- <-]. apply store_claim_new in Es as [Hb Hnew]. unfold put_valid_claim. rewrite upsert_blobs, upsert_fleet. split; [done|].
    intros id c Hc. destruct (Hnew id c Hc) as [Hold|[-> Htomb]]; [by left|right].
    apply finish_check_valid in E as (Hv & Hr & Hblobs). split; try done. intros hash. by apply ensure_blobs_spec.
  - intros [= <- <- <-]. unfold put_unknown_claim. rewrite upsert_blobs, upsert_fleet. auto.
  - intros [= <- <- <-]. unfold put_unknown_claim. rewrite upsert_blobs, upsert_fleet. auto.
  - intros [= <- <- <-]. unfold put_invalid_claim. rewrite upsert_blobs, upsert_fleet. auto.
Qed.

Lemma claim_admitted_ext s s' b w c :
  ad_blobs s' = ad_blobs s → wr_ledger (ft_writers (ad_fleet s')) = wr_ledger (ft_writers (ad_fleet s)) →
  claim_admitted s' b w c → claim_admitted s b w c.
Proof. intros Hb Hl [Hr Hv Hru Hk Hbl]. unfold claim_tombstoned in Hk. rewrite Hl in Hk. rewrite Hb in Hbl. by split. Qed.

Lemma admit_claims_new k payload now position claims s o degraded o' s' degraded' :
  checked (pl_batch payload) claims →
  admit_claims k payload now position claims s o degraded = (o', Ok (s', degraded')) →
  ∀ id c, ft_claims (ad_fleet s') !! id = Some c →
    ft_claims (ad_fleet s) !! id = Some c ∨ ∃ w, w ∈ claims.*1 ∧ claim_admitted s (pl_batch payload) w c.
Proof.
  revert position s o degraded. induction claims as [|[w p] claims IH]; intros position s o degraded Hc; cbn [Admission.admit_claims].
  - intros [= <- <- <-]. auto.
  - apply Forall_cons in Hc as [Hp Hc]. destruct (admit_claim k payload now (Z.of_nat position) w p s o degraded) as [o1 [[s1 d1]|]] eqn:E; [|done].
    intros Hrest id c Hid. pose proof (cg_ledger _ _ _ (admit_claim_grow _ _ _ _ _ _ _ _ _ _ _ _ Hp E)) as Hl.
    apply admit_claim_new in E as [Hb Hnew]; [|done]. cbn [fmap list_fmap fst].
    destruct (IH _ _ _ _ Hc Hrest id c Hid) as [Hid1|(w' & Hw' & Ha)].
    + destruct (Hnew id c Hid1) as [|Ha]; [by left|right]. exists w. split; [set_solver|done].
    + right. exists w'. split; [set_solver|]. by eapply claim_admitted_ext.
Qed.

(** A blob is stored already, or the envelope carries it under its hash. *)
Definition blob_at_hand (s : AdmStore) (payload : ReplicaEnvelopePayload) (hash : string) : Prop :=
  is_Some (ad_blobs s !! hash) ∨ ∃ bytes, (hash, bytes) ∈ pl_blobs payload ∧ hex_encode (sha256 bytes) = hash.

Lemma admit_blobs_new k now blobs a hash :
  is_Some (ad_blobs (foldl (admit_blob k now) a blobs).1.1 !! hash) →
  is_Some (ad_blobs a.1.1 !! hash) ∨ ∃ blob bytes, (blob, (hash, bytes)) ∈ blobs ∧ pb_valid blob = true.
Proof.
  revert a. induction blobs as [|[blob [h bytes]] blobs IH]; intros [[s o] degraded]; cbn [foldl]; [by left|]. intros Hh.
  destruct (IH _ Hh) as [Hs|(blob' & bytes' & Hin & Hv)]; [|right; exists blob', bytes'; split; [set_solver|done]].
  unfold admit_blob in Hs. cbn [fst] in Hs |- *. destruct (pb_valid blob) eqn:Ev; cbn [fst] in Hs;
    unfold put_valid_blob, put_invalid_blob in Hs; rewrite upsert_blobs in Hs; [|by left].
  destruct (ad_blobs s !! h) eqn:Eh; [by left|]. cbn [ad_blobs with_blobs] in Hs.
  destruct Hs as [x [[<- <-]|[_ Hx]]%lookup_insert_Some]; [right; exists blob, bytes; split; [set_solver|done]|left; eauto].
Qed.

(** The envelope may be admitted by the fleet's membership in [s]: no admitted member has
    claimed the writer, or a key the membership gives the writer at this sequence signed
    the envelope for this fleet. *)
Definition authorised (fleet_id : string) (s : AdmStore) (k : envelope_key) : Prop :=
  match window (fleet_membership_tx (ad_fleet s)) k.1.1 k.1.2 with
  | WLegacy => True
  | WFenced => False
  | WKeyed keys => ∃ key signature, key ∈ keys ∧ verify_envelope_signature fleet_id k key signature = true
  end.

(** Every signature the store keeps verifies. *)
Definition signatures_verified (fleet_id : string) (t : FleetTables) : Prop :=
  ∀ k key signature, ft_signatures t !! (k, key) = Some signature → verify_envelope_signature fleet_id k key signature = true.

Lemma held_back_authorised fleet_id s k :
  signatures_verified fleet_id (ad_fleet s) → held_back s k = None → authorised fleet_id s k.
Proof.
  intros Hs. unfold held_back, fleet_admission_hold, authorised. destruct (window _ _ _) as [|keys|]; [done| |done].
  destruct (bool_decide_reflect (set_Exists (λ signer, signer ∈ keys) (envelope_signers (ad_fleet s) k))) as [(key & Hkey & Hin)|]; [|done].
  intros _. unfold envelope_signers in Hkey. apply elem_of_map in Hkey as ([k' key'] & -> & [Hk' Hd]%elem_of_filter).
  cbn [fst snd] in *. subst k'. apply elem_of_dom in Hd as [signature Hsig]. exists key', signature. split; [done|by apply Hs].
Qed.

(** Where row [c] was admitted from: claim [w] of the payload of a received envelope [e]. *)
Record admitted_from (fleet_id : string) (s : AdmStore) (e : ReplicaEnvelope) (content : PreparedPayload) (w : WireClaim) (c : ClaimRecord)
    : Prop := {
  af_received : is_Some (admission_envelope_row (ad_fleet s) e);
  af_authorised : authorised fleet_id s (re_key e);
  af_prepared : prepared_ok e content;
  af_carried : w ∈ rb_claims (pl_batch (pp_payload content));
  af_row : c = stored_claim (wc_row w);
  af_verified : claim_verified (pl_batch (pp_payload content)) (wc_row w);
  af_rules : rules_take (pl_batch (pp_payload content)) w;
  af_kept : claim_tombstoned (ad_fleet s) (cm_id c) = false;
  af_blobs hash : hash ∈ collect_hash_fields (cm_body (wc_row w)) → blob_at_hand s (pp_payload content) hash
}.

Lemma fst_zip_imap {A B} (f : nat → A → B) (l : list A) : (zip l (imap f l)).*1 = l.
Proof. revert f. induction l as [|x l IH]; intros f; cbn; [done|]. f_equal. apply IH. Qed.

Lemma blob_valid_in k (f : nat → nat) blobs blob hash bytes :
  (blob, (hash, bytes)) ∈ zip (imap (λ i x, prepare_blob k (f i) x) blobs) blobs → pb_valid blob = true →
  (hash, bytes) ∈ blobs ∧ hex_encode (sha256 bytes) = hash.
Proof.
  revert f. induction blobs as [|x blobs IH]; intros f; cbn [imap zip zip_with]; [by intros ?%elem_of_nil|].
  intros [[= -> <-]|Hin]%elem_of_cons Hv.
  - split; [set_solver|]. cbn in Hv. by apply String.eqb_eq.
  - destruct (IH (λ i, f (S i)) Hin Hv) as [Hin' Hh]. split; [set_solver|done].
Qed.

Lemma prepared_blob_valid e content blob hash bytes :
  prepared_ok e content → (blob, (hash, bytes)) ∈ zip (pp_blobs content) (pl_blobs (pp_payload content)) → pb_valid blob = true →
  (hash, bytes) ∈ pl_blobs (pp_payload content) ∧ hex_encode (sha256 bytes) = hash.
Proof. intros Hok. rewrite (po_blobs _ _ Hok). apply (blob_valid_in (re_key e) (λ i, _ + i)). Qed.

Lemma admit_provenance fleet_id e row row' now s o o' s' id c :
  signatures_verified fleet_id (ad_fleet s) → admission_envelope_row (ad_fleet s) e = Some row → held_back s (re_key e) = None →
  admit_prepared_envelope_tx (prepare_envelope e row') now s o = (o', Ok s') →
  ft_claims (ad_fleet s') !! id = Some c → ft_claims (ad_fleet s) !! id = Some c ∨ ∃ content w, admitted_from fleet_id s e content w c.
Proof.
  intros Hsig Hrow Hheld Ha Hc. pose proof Ha as Ha0. destruct (admission_row_spec _ _ _ Hrow) as (r & Hr & _).
  revert Ha. unfold Admission.admit_prepared_envelope_tx. cbn [pe_content pe_key Admission.prepare_envelope].
  destruct (prepare_payload e) as [content|] eqn:Ec; [|done]. pose proof (prepare_payload_ok e content Ec) as Hok.
  pose proof (admit_blobs_fleet (re_key e) now (zip (pp_blobs content) (pl_blobs (pp_payload content))) (s, o, false)) as Hfleet.
  pose proof (admit_blobs_new (re_key e) now (zip (pp_blobs content) (pl_blobs (pp_payload content))) (s, o, false)) as Hblobs.
  destruct (foldl _ _ _) as [[s1 o1] d1]. cbn [fst] in Hfleet, Hblobs.
  destruct (admit_batch_tx (pl_batch (pp_payload content)) s1) as [s2|] eqn:Eb; [|done].
  assert (ft_claims (ad_fleet s2) = ft_claims (ad_fleet s) ∧ ad_blobs s2 = ad_blobs s1) as [Hc2 Hb2].
  { revert Eb. unfold admit_batch_tx. rewrite Hfleet. destruct (batch_of _ _); [by intros [= <-]; rewrite Hfleet|].
    destruct (next_batch_rowid _) as [[rowid w]|]; [|done]. by intros [= <-]. }
  apply admit_batch_grow in Eb as [Hgrow _]. rewrite (po_claims _ _ Hok).
  destruct (admit_claims (re_key e) (pp_payload content) now 0 _ s2 o1 d1) as [o3 [[s3 d3]|]] eqn:E3; [|done].
  pose proof (admit_claims_new _ _ _ _ _ _ _ _ _ _ _ (checked_prepared (re_key e) _ _ 0) E3 id c) as Hnew.
  intros [= _ <-]. assert (ft_claims (ad_fleet s3) !! id = Some c) as Hc3.
  { revert Hc. unfold finish_receipt. destruct (ft_envelopes (ad_fleet s3) !! re_key e) eqn:Ee; [|done]. by case_match. }
  destruct (Hnew Hc3) as [Hold|(w & Hw & Hadm)]; [left; by rewrite <-Hc2|right]. rewrite fst_zip_imap in Hw.
  exists content, w. destruct Hadm as [-> Hv Hru Hk Hbl]. split; [by exists row|by apply held_back_authorised|done..| |].
  - unfold claim_tombstoned in *. by rewrite (cg_ledger _ _ _ Hgrow), Hfleet in Hk.
  - intros hash Hh. apply Hbl in Hh. rewrite Hb2 in Hh.
    destruct (Hblobs hash Hh) as [|(blob & bytes & Hin & Hb)]; [by left|right]. exists bytes. by eapply prepared_blob_valid.
Qed.

Lemma step_provenance fleet_id (elsewhere : ClaimRecord → Prop) s ev s' :
  (∀ s s', others s s' → signatures_verified fleet_id (ad_fleet s) → signatures_verified fleet_id (ad_fleet s')) →
  (∀ s s' id c, others s s' → ft_claims (ad_fleet s') !! id = Some c → ft_claims (ad_fleet s) !! id = Some c ∨ elsewhere c) →
  adm_step s ev s' → signatures_verified fleet_id (ad_fleet s) →
  signatures_verified fleet_id (ad_fleet s') ∧
  ∀ id c, ft_claims (ad_fleet s') !! id = Some c →
    ft_claims (ad_fleet s) !! id = Some c ∨ elsewhere c ∨ ∃ e content w, admitted_from fleet_id s e content w c.
Proof.
  intros Ho1 Ho2 Hstep Hsig. destruct Hstep as [s e row row' now o o' s' Hrow Hhold Ha|s e row row' now o o' error Hrow Hhold Ha|
    s e row reason now again Hrow Hhold|s s' Hm|s index retried].
  - split.
    + destruct (admit_tables _ _ _ _ _ _ _ _ Hrow Ha) as (content & _ & Hadm). unfold signatures_verified. cbn [ad_fleet release_hold with_holds].
      by rewrite (ea_signatures _ _ _ _ Hadm).
    + intros id c Hc. destruct (admit_provenance fleet_id e row row' now s o o' s' id c Hsig Hrow Hhold Ha Hc) as [|(content & w & Hf)]; eauto 8.
  - assert (∀ t, ad_fleet (record_invalid_replica_envelope e error now s) = t →
      ft_signatures t = ft_signatures (ad_fleet s) ∧ ft_claims t = ft_claims (ad_fleet s)) as Ht.
    { unfold record_invalid_replica_envelope. rewrite upsert_fleet. intros t <-. destruct (ft_envelopes _ !! _); [|by rewrite upsert_fleet]. done. }
    destruct (Ht _ eq_refl) as [Hs Hc]. unfold signatures_verified. rewrite Hs, Hc. auto.
  - assert (∀ s1, ft_signatures (ad_fleet (hold_again (re_key e) s1)) = ft_signatures (ad_fleet s1) ∧
      ft_claims (ad_fleet (hold_again (re_key e) s1)) = ft_claims (ad_fleet s1)) as Ht.
    { intros s1. unfold hold_again. destruct (ft_envelopes _ !! _); [|done]. by case_match. }
    destruct (Ht (hold_replica_envelope (re_key e) reason now s)) as [Hs Hc]. unfold signatures_verified.
    destruct again; [rewrite Hs, Hc|]; rewrite !hold_fleet; auto.
  - split; [by eapply Ho1|]. intros id c Hc. destruct (Ho2 _ _ _ _ Hm Hc); auto.
  - auto.
Qed.

Lemma run_provenance fleet_id (elsewhere : ClaimRecord → Prop) s tr s' id c :
  (∀ s s', others s s' → signatures_verified fleet_id (ad_fleet s) → signatures_verified fleet_id (ad_fleet s')) →
  (∀ s s' id c, others s s' → ft_claims (ad_fleet s') !! id = Some c → ft_claims (ad_fleet s) !! id = Some c ∨ elsewhere c) →
  run adm_step s tr s' → signatures_verified fleet_id (ad_fleet s) → ft_claims (ad_fleet s') !! id = Some c →
  ft_claims (ad_fleet s) !! id = Some c ∨ elsewhere c ∨
  ∃ tr1 s1 e content w, run adm_step s tr1 s1 ∧ admitted_from fleet_id s1 e content w c.
Proof.
  intros Ho1 Ho2 Hrun. induction Hrun as [s|s ev s1 tr s2 Hstep Hrun IH]; intros Hsig Hc; [by left|].
  destruct (step_provenance fleet_id elsewhere s ev s1 Ho1 Ho2 Hstep Hsig) as [Hsig1 Hnew].
  destruct (IH Hsig1 Hc) as [Hc1|[Hl|(tr1 & s' & e & content & w & Hrun1 & Hf)]]; [|auto|].
  - destruct (Hnew id c Hc1) as [|[|(e & content & w & Hf)]]; [auto..|]. right; right. exists [], s, e, content, w. split; [constructor|done].
  - right; right. exists (ev :: tr1), s', e, content, w. split; [by econstructor|done].
Qed.

(** ** The whole pass *)

Lemma pass_run schema_digest spent now env budget s s' o :
  (∀ n s, others s (env n s)) → receipts_ok (ad_fleet s) →
  admit_replication_backlog classify_unbound classify AuthorityMembership schema_digest spent now env budget s = Some (s', o) →
  ∃ tr, run adm_step s tr s'.
Proof.
  intros Henv Hrec. unfold admit_replication_backlog.
  destruct (Admission.rounds _ _ _ _ _ _ _ _ _ _ _) as [[s1 o1]|] eqn:E; [|done].
  apply rounds_refines in E as [tr Hrun]; [|done|done]. case_match; intros [= <- <-]; [|by exists tr].
  exists (tr ++ [EvMeta])%list. eapply run_app; [exact Hrun|]. econstructor; [apply astep_meta|constructor].
Qed.

(** C4: a pass over the backlog, though it prepares envelopes and folds membership before
    it has the writer, works in chunks and is interleaved with other transactions, is a
    sequence of single steps each of which admits, rejects or holds one received envelope
    by the membership of the tables at that very step. *)
Theorem backlog_refines_single_steps schema_digest spent now env budget s s' o :
  (∀ n s, others s (env n s)) → receipts_ok (ad_fleet s) →
  admit_replication_backlog classify_unbound classify AuthorityMembership schema_digest spent now env budget s = Some (s', o) →
  (∃ tr, run adm_step s tr s') ∧ receipts_ok (ad_fleet s').
Proof.
  intros Henv Hrec Hpass. destruct (pass_run _ _ _ _ _ _ _ _ Henv Hrec Hpass) as [tr Hrun].
  split; [by exists tr|]. by apply (adm_run_may _ _ _ Hrun).
Qed.

(** C3: a claim that a pass brings into the store was in the payload of a received envelope
    whose bytes the envelope's hash covers, in the verified batch of the envelope's writer;
    its id is the hash of its content, the rules took it, no checkpoint had dropped it, the
    blobs it names were at hand; and when it was admitted the fleet's membership gave the
    writer a key whose signature over the envelope verifies, or claimed the writer for no
    member at that sequence. *)
Theorem backlog_admits_only_authentic_claims fleet_id (elsewhere : ClaimRecord → Prop) schema_digest spent now env budget s s' o id c :
  (∀ s s', others s s' → signatures_verified fleet_id (ad_fleet s) → signatures_verified fleet_id (ad_fleet s')) →
  (∀ s s' id c, others s s' → ft_claims (ad_fleet s') !! id = Some c → ft_claims (ad_fleet s) !! id = Some c ∨ elsewhere c) →
  (∀ n s, others s (env n s)) → receipts_ok (ad_fleet s) → signatures_verified fleet_id (ad_fleet s) →
  admit_replication_backlog classify_unbound classify AuthorityMembership schema_digest spent now env budget s = Some (s', o) →
  ft_claims (ad_fleet s') !! id = Some c →
  ft_claims (ad_fleet s) !! id = Some c ∨ elsewhere c ∨
  ∃ tr s1 e content w, run adm_step s tr s1 ∧ admitted_from fleet_id s1 e content w c.
Proof.
  intros Ho1 Ho2 Henv Hrec Hsig Hpass Hc. destruct (pass_run _ _ _ _ _ _ _ _ Henv Hrec Hpass) as [tr Hrun].
  by eapply run_provenance.
Qed.

End backlog.

(** ** Two envelopes arrive: the anchor's, which admits two hosts, and one of the second host *)

Definition toy_keys : Crypto :=
  {| base64url_decode s := Some (if String.eqb s "ok" then bytes_of s else replicate 32 "k"%char);
     ed25519_verify _ _ signature := bool_decide (signature = bytes_of "ok");
     p256_verify _ _ _ := false;
     json_to_string _ := "" |}.

Definition toy_claim (batch writer subject kind : string) (fields : list (string * Value)) : WireClaim :=
  {| wc_row := {| cm_id := subject +:+ " " +:+ kind; cm_batch_id := batch; cm_subject := subject; cm_kind := kind; cm_origin := writer;
                  cm_actor := None; cm_body := Object [("fields", Object fields)]; cm_predecessors := [];
                  cm_accepted_at_unix_ms := 10 |};
     wc_store_index := 0; wc_operation_id := None; wc_request_digest := None |}.

Definition toy_payload (writer : string) (claims : list WireClaim) : ReplicaEnvelopePayload :=
  {| pl_batch := {| rb_id := "batch/" +:+ writer +:+ "/1/h"; rb_origin := writer; rb_replica_sequence := 1; rb_previous_hash := None;
                    rb_hash := "h"; rb_accepted_at_unix_ms := 10; rb_claims := claims |};
     pl_blobs := [("x", bytes_of "x")]; pl_claim_signatures := [] |}.
Definition toy_payload_a : ReplicaEnvelopePayload :=
  toy_payload "a"
    [toy_claim "batch/a/1/h" "a" "host/a" MEMBER_ADMITTED [("member_key", VString "KA"); ("via", VString "anchor")];
     toy_claim "batch/a/1/h" "a" "host/b" MEMBER_ADMITTED
       [("member_key", VString "KB"); ("via", VString "invite"); ("writer_floor", VNumber (PosInt 0))]].
Definition toy_payload_b : ReplicaEnvelopePayload := toy_payload "b" [toy_claim "batch/b/1/h" "b" "note/1" "note.written" []].

Definition toy_codec : AdmissionCodec :=
  {| sha256 bytes := bytes;
     hex_encode bytes := string_of bytes;
     base64_encode := string_of;
     base64_error text := text;
     hash_header _ := "h";
     hash_claim '(_, subject, kind, _, _, _, _) := Ok (subject +:+ " " +:+ kind);
     decode_payload bytes := match bytes with [] => Ok toy_payload_a | _ => Ok toy_payload_b end;
     encode_claim _ := Ok [];
     encode_body _ := Ok "";
     encode_predecessors _ := Ok "" |}.
Definition toy_hooks : AdmissionHooks :=
  {| other := unit; store_carried_signature_tx _ _ _ o := Ok o; claim_inserted _ o := o; record_written _ o := o |}.

Section toy.
#[local] Existing Instance toy_keys.
#[local] Existing Instance toy_codec.
#[local] Existing Instance toy_hooks.

Definition toy_envelope (writer : string) (bytes : list ascii) (key : option string) : ReplicaEnvelope :=
  {| re_writer := writer; re_sequence := 1; re_previous_hash := None;
     re_hash := replica_envelope_hash sha256 hex_encode writer 1 None 10 bytes; re_accepted_at_unix_ms := 10;
     re_payload := PayloadBytes bytes; re_member_key := key; re_signature := Some "ok" |}.
Definition toy_a : ReplicaEnvelope := toy_envelope "a" [] (Some "KA").
Definition toy_b : ReplicaEnvelope := toy_envelope "b" (bytes_of "b") None.

Definition toy_empty : AdmStore :=
  {| ad_fleet := demo_fleet_tables; ad_blobs := ∅; ad_records := ∅; ad_holds := ∅; ad_positions := ∅; ad_claims_sequence := 0;
     ad_admitted_index := None; ad_retried := (None, None); ad_other := tt |}.
Definition toy_exchange : ReplicationExchange :=
  {| ex_peer := "a"; ex_fleet_id := "f"; ex_shard_id := None; ex_envelopes := [toy_a; toy_b]; ex_signatures := [] |}.
Definition toy_store : AdmStore :=
  match receive_replication_exchange (Ok None) "a" "f" 11 toy_exchange toy_empty with Ok a => a.1 | Err _ => toy_empty end.
Definition toy_unbound (_ : ReplicaBatch) (_ : WireClaim) : option (result ReplicatedClaimAdmission St3Error) := None.
Definition toy_classify (_ : AdmStore) (_ : ReplicaBatch) (_ : WireClaim) : result ReplicatedClaimAdmission St3Error := Ok AdmissionValid.
Definition toy_env (_ : nat) (s : AdmStore) : AdmStore := s.
#[local] Notation toy_pass :=
  (admit_replication_backlog toy_unbound toy_classify AuthorityMembership "d" (λ _ _, false) (λ _, 20%Z) toy_env 20 toy_store).

Definition toy_id : string := "host/b " +:+ MEMBER_ADMITTED.

(** The anchor's claims are admitted, and then the second host needs a signature. *)
Definition toy_done (s : AdmStore) : Prop :=
  ev_receipt_state <$> ft_envelopes (ad_fleet s) !! re_key toy_a = Some "validated" ∧
  ev_receipt_state <$> ft_envelopes (ad_fleet s) !! re_key toy_b = Some "pending" ∧
  held_back toy_store (re_key toy_b) = None ∧ held_back s (re_key toy_b) = Some "unsigned" ∧
  ad_holds s !! re_key toy_b = Some ("unsigned", 20%Z) ∧ cm_subject <$> ft_claims (ad_fleet s) !! toy_id = Some "host/b".

Lemma toy_pass_done : ∃ s o, toy_pass = Some (s, o) ∧ toy_done s ∧ ou_held o = 1.
Proof.
  assert (is_some_and (λ x, bool_decide (toy_done x.1 ∧ ou_held x.2 = 1)) toy_pass = true) as E by (vm_compute; reflexivity).
  destruct toy_pass as [[s o]|]; [|discriminate]. exists s, o. split; [reflexivity|]. by apply (bool_decide_eq_true_1 _) in E.
Qed.

Lemma receipts_unbound t : map_Forall (λ _ row, ev_batch_id row = None) (ft_envelopes t) → receipts_ok t.
Proof. intros Hf k row id Hk Hid. by rewrite (Hf k row Hk) in Hid. Qed.

Lemma toy_receipts : receipts_ok (ad_fleet toy_store).
Proof. apply receipts_unbound. apply (bool_decide_eq_true_1 _). vm_compute. reflexivity. Qed.

Lemma toy_signatures : signatures_verified "f" (ad_fleet toy_store).
Proof.
  assert (map_Forall (λ x signature, verify_envelope_signature "f" x.1 x.2 signature = true) (ft_signatures (ad_fleet toy_store))) as Hf.
  { apply (bool_decide_eq_true_1 _). vm_compute. reflexivity. }
  intros k key signature Hs. apply (Hf _ _ Hs).
Qed.

(** Nothing else runs. *)
Definition toy_others (s s' : AdmStore) : Prop := s' = s.
Lemma toy_others_ok s s' : toy_others s s' → others_may s s'.
Proof. intros ->. by repeat split; auto with claims. Qed.

Lemma backlog_refines_single_steps_witness :
  ∃ s o tr, toy_pass = Some (s, o) ∧ run (adm_step toy_unbound toy_classify toy_others) toy_store tr s.
Proof.
  destruct toy_pass_done as (s & o & E & _).
  destruct (backlog_refines_single_steps toy_unbound toy_classify toy_others toy_others_ok "d" (λ _ _, false) (λ _, 20%Z) toy_env 20 toy_store s o
    (λ _ _, eq_refl) toy_receipts E) as [[tr Hrun] _].
  exists s, o, tr. split; [exact E|exact Hrun].
Defined.

Lemma backlog_admits_only_authentic_claims_witness :
  ∃ tr s1 e content w c, cm_subject c = "host/b" ∧
    run (adm_step toy_unbound toy_classify toy_others) toy_store tr s1 ∧ admitted_from toy_unbound toy_classify "f" s1 e content w c.
Proof.
  destruct toy_pass_done as (s & o & E & (_ & _ & _ & _ & _ & Hid) & _).
  destruct (ft_claims (ad_fleet s) !! toy_id) as [c|] eqn:Hc; [|done]. injection Hid as Hid.
  destruct (backlog_admits_only_authentic_claims toy_unbound toy_classify toy_others toy_others_ok "f" (λ _, False) "d" (λ _ _, false)
    (λ _, 20%Z) toy_env 20 toy_store s o toy_id c) as [Hno|[[]|(tr & s1 & e & content & w & Hrun & Hf)]].
  - by intros s0 s' ->.
  - intros s0 s' id c' ->. auto.
  - intros n s0. reflexivity.
  - exact toy_receipts.
  - exact toy_signatures.
  - exact E.
  - exact Hc.
  - vm_compute in Hno. discriminate.
  - exists tr, s1, e, content, w, c. split; [exact Hid|split; [exact Hrun|exact Hf]].
Defined.
End toy.
