(* ===== verification/Settle.v ===== *)
(** * A pass over the backlog ends, and decides every envelope it was given
    (crates/smallclaims/src/store.rs, [admit_replication_backlog])

    A loan always has its first envelope prepared, so every pair of iterations of a round
    comes further; a round that changed membership leaves fewer held envelopes than it
    was given.  So the pass ends when other transactions let membership rest, and with the
    membership it leaves every envelope it looked at is settled, or held for the reason
    that membership gives. *)

From stdpp Require Import gmap.
From S2P Require Import Prelude BTree Json Digests Membership Principal Text Retired WriterHeads FleetStore Admission Backlog.

Local Open Scope string_scope.
Local Open Scope claims_scope.
Local Open Scope nat_scope.

Section settle.
Context `{Crypto} `{AdmissionCodec} `{AdmissionHooks}.
Variable classify_unbound : ReplicaBatch → WireClaim → option (result ReplicatedClaimAdmission St3Error).
Variable classify : AdmStore → ReplicaBatch → WireClaim → result ReplicatedClaimAdmission St3Error.

Notation prepare_envelope := (prepare_envelope classify_unbound).
Notation prepare_ahead := (prepare_ahead classify_unbound).

(** ** What is prepared starts at the next envelope *)

Definition prepared_from (next : nat) (ready : gmap nat PreparedEnvelope) : Prop :=
  ∀ i, is_Some (ready !! i) → next ≤ i ∧ ∀ j, next ≤ j ≤ i → is_Some (ready !! j).

Definition consecutive {A} (n : nat) (items : list (nat * A)) : Prop := ∀ j x, items !! j = Some x → x.1 = n + j.

Lemma consecutive_items {A} n k (l : list A) : consecutive n (drop n (take k (imap pair l))).
Proof.
  intros j x Hx. rewrite lookup_drop in Hx. apply lookup_take_Some in Hx as [Hx _]. rewrite list_lookup_imap in Hx.
  destruct (l !! (n + j)); [|done]. by injection Hx as <-.
Qed.

Lemma prepared_from_empty next : prepared_from next ∅.
Proof. intros i [p Hp]. by rewrite lookup_empty in Hp. Qed.

Lemma prepared_from_take next ready : prepared_from next ready → prepared_from (S next) (delete next ready).
Proof.
  intros Hd i [p [Hne Hi]%lookup_delete_Some]. destruct (Hd i) as [Hle Hall]; [by eexists|]. split; [lia|].
  intros j Hj. rewrite lookup_delete_ne by lia. apply Hall. lia.
Qed.

Lemma prepare_ahead_keeps items bytes ready i : is_Some (ready !! i) → is_Some (prepare_ahead items bytes ready !! i).
Proof.
  revert bytes ready. induction items as [|[j [e row]] items IH]; intros bytes ready Hi; cbn [Admission.prepare_ahead]; [done|].
  destruct (ready !! j) eqn:Ej; [by apply IH|]. case_match; [done|]. apply IH. destruct (decide (i = j)) as [->|Hne].
  - rewrite lookup_insert_eq. by eexists.
  - by rewrite lookup_insert_ne.
Qed.

Lemma prepare_ahead_from next n items bytes ready :
  consecutive n items → next ≤ n → (∀ j, next ≤ j < n → is_Some (ready !! j)) → prepared_from next ready →
  prepared_from next (prepare_ahead items bytes ready).
Proof.
  revert n bytes ready. induction items as [|[i [e row]] items IH]; intros n bytes ready Hc Hn Hall Hd; cbn [Admission.prepare_ahead]; [done|].
  pose proof (Hc 0 _ eq_refl) as Hi. cbn [fst] in Hi. rewrite Nat.add_0_r in Hi. subst i.
  assert (consecutive (S n) items) as Hc' by (intros j x Hx; rewrite (Hc (S j) x Hx); lia).
  destruct (ready !! n) eqn:En.
  - apply (IH (S n)); [done|lia| |done]. intros j Hj. destruct (decide (j = n)) as [->|]; [by eexists|apply Hall; lia].
  - case_match; [done|]. assert (∀ j, next ≤ j < S n → is_Some (<[n := prepare_envelope e (Some row)]> ready !! j)) as Hall'.
    { intros j Hj. destruct (decide (j = n)) as [->|]; [rewrite lookup_insert_eq; by eexists|].
      rewrite lookup_insert_ne by done. apply Hall. lia. }
    apply (IH (S n)); [done|lia|done|]. intros i [p Hp]. apply lookup_insert_Some in Hp as [[<- _]|[Hne Hp]].
    + split; [done|]. intros j Hj. apply Hall'. lia.
    + destruct (Hd i) as [Hle Hdn]; [by eexists|]. split; [done|]. intros j Hj.
      destruct (decide (j = n)) as [->|]; [rewrite lookup_insert_eq; by eexists|rewrite lookup_insert_ne by done; by apply Hdn].
Qed.

(** The next envelope is always prepared: the budget of bytes never keeps it out. *)
Lemma next_prepared next k (pending : list (ReplicaEnvelope * EnvelopeRow)) ready :
  next < length pending → next < k → prepared_from next ready →
  is_Some (prepare_ahead (drop next (take k (imap pair pending))) (ready_bytes ready) ready !! next).
Proof.
  intros Hlen Hk Hd. destruct (ready !! next) as [p|] eqn:E; [apply prepare_ahead_keeps; by eexists|].
  assert (ready = ∅) as ->.
  { apply map_empty. intros i. apply eq_None_not_Some. intros Hi. destruct (Hd i Hi) as [Hle Hall].
    destruct (Hall next) as [p Hp]; [lia|]. by rewrite E in Hp. }
  destruct (lookup_lt_is_Some_2 pending next Hlen) as [[e row] Hx].
  assert (take k (imap pair pending) !! next = Some (next, (e, row))) as Ht.
  { rewrite lookup_take_lt by done. by rewrite list_lookup_imap, Hx. }
  rewrite (drop_S _ _ _ Ht). cbn [Admission.prepare_ahead]. rewrite lookup_empty.
  change (ready_bytes ∅) with 0%Z. cbn [Z.ltb Z.compare andb]. apply prepare_ahead_keeps. rewrite lookup_insert_eq. by eexists.
Qed.

(** ** The pass ends *)

Section ends.
Variables (authority : AdmissionAuthority) (again : bool) (spent : nat → nat → bool) (now : nat → Z) (env : nat → AdmStore → AdmStore).
(** The iterations at which others change the counter of membership. *)
Variable churn : nat → bool.
Hypothesis env_rests : ∀ n s, churn n = false → ft_generation (ad_fleet (env n s)) = ft_generation (ad_fleet s).

Notation admit_one := (admit_one classify authority again).
Notation loan := (loan classify authority again spent now).
Notation round := (round classify_unbound classify authority again spent now env).
Notation rounds := (rounds classify_unbound classify authority again spent now env).

Definition changes_below (fuel : nat) : nat := length (List.filter churn (seq 0 fuel)).
Lemma changes_below_S fuel : changes_below (S fuel) = changes_below fuel + (if churn fuel then 1 else 0).
Proof.
  unfold changes_below. rewrite seq_S, List.filter_app, length_app. cbn [List.filter]. rewrite Nat.add_0_l. by destruct (churn fuel).
Qed.

(** What has been taken was admitted, held or passed over. *)
Definition accounted (pending : list (ReplicaEnvelope * EnvelopeRow)) (r : Round) : Prop :=
  length (rd_held r) + (if rd_changed r then 1 else 0) ≤ rd_next r ≤ length pending ∧ prepared_from (rd_next r) (rd_ready r).

Lemma admit_one_counts m t e p r r' stop :
  admit_one m t e p r = (r', stop) →
  length (rd_held r') + (if rd_changed r' then 1 else 0) ≤ S (length (rd_held r) + (if rd_changed r then 1 else 0)) ∧
  rd_next r' = rd_next r ∧ rd_ready r' = rd_ready r.
Proof.
  unfold Admission.admit_one. destruct (admission_envelope_row _ _); [|intros [= <- <-]; split_and!; [lia|done..]].
  destruct (negb _); [intros [= <- <-]; split_and!; [lia|done..]|].
  destruct (match authority with AuthorityMembership => _ | AuthoritySource => None end).
  - intros [= <- <-]. cbn [rd_held rd_changed rd_next rd_ready]. rewrite length_app. cbn [length]. split_and!; [lia|done..].
  - destruct (admit_prepared_envelope_tx _ _ _ _ _) as [o [s'|error]]; intros [= <- <-]; cbn [rd_held rd_changed rd_next rd_ready on_store];
      (split_and!; [|done..]); [|lia]. destruct (rd_changed r), (envelope_carries_fleet_claims _ _); cbn; lia.
Qed.

Lemma loan_accounted pending id n first m r :
  accounted pending r → accounted pending (loan id n first pending m r) ∧ rd_next r ≤ rd_next (loan id n first pending m r).
Proof.
  revert first r. induction n as [|n IH]; intros first r Hr; cbn [Admission.loan]; [done|].
  destruct (negb first && spent id (rd_next r)); [done|].
  destruct (pending !! rd_next r) as [[e row]|] eqn:Ep; [|done]. destruct (rd_ready r !! rd_next r) as [p|] eqn:Er; [|done].
  destruct (admit_one m (now id) e p (take_ready r)) as [r1 stop] eqn:E1. apply admit_one_counts in E1 as (Hcount & Hnext & Hready).
  cbn [rd_held rd_changed rd_next rd_ready take_ready] in *. destruct Hr as [Hcounts Hd]. apply lookup_lt_Some in Ep.
  assert (accounted pending r1) as Hr1.
  { split; [rewrite Hnext; lia|]. rewrite Hnext, Hready. by apply prepared_from_take. }
  destruct stop; [split; [done|lia]|]. destruct (IH false r1 Hr1) as [Ha Hle]. split; [done|lia].
Qed.

Lemma loan_advances pending id n m r :
  accounted pending r → rd_next r < length pending → is_Some (rd_ready r !! rd_next r) →
  rd_next r < rd_next (loan id (S n) true pending m r).
Proof.
  intros Hr Hlt [p Hp]. destruct (lookup_lt_is_Some_2 pending (rd_next r) Hlt) as [[e row] Hx]. cbn [Admission.loan negb andb].
  rewrite Hx, Hp. destruct (admit_one m (now id) e p (take_ready r)) as [r1 stop] eqn:E1. apply admit_one_counts in E1 as (Hcount & Hnext & Hready).
  cbn [rd_held rd_changed rd_next rd_ready take_ready] in *. destruct Hr as [Hcounts Hd].
  destruct stop; [lia|]. assert (accounted pending r1) as Hr1.
  { split; [rewrite Hnext; lia|]. rewrite Hnext, Hready. by apply prepared_from_take. }
  destruct (loan_accounted pending id n false m r1 Hr1) as [_ Hle]. lia.
Qed.

Lemma commit_loan_rest r :
  rd_next (commit_loan r) = rd_next r ∧ rd_ready (commit_loan r) = rd_ready r ∧ rd_held (commit_loan r) = rd_held r ∧
  rd_changed (commit_loan r) = rd_changed r ∧ ad_fleet (rd_store (commit_loan r)) = ad_fleet (rd_store r).
Proof. unfold commit_loan. by destruct (ou_changed (rd_outcome r)). Qed.

Definition stale (membership : option (Z * Membership)) (r : Round) : nat :=
  match membership with
  | Some (g, _) => if (ft_generation (ad_fleet (rd_store r)) =? g)%Z then 0 else 1
  | None => 0
  end.

Definition round_cost (pending : list (ReplicaEnvelope * EnvelopeRow)) membership r : nat :=
  2 * (length pending - rd_next r) + stale membership r.

Lemma round_ends fuel pending membership r :
  accounted pending r → round_cost pending membership r + changes_below fuel < fuel →
  ∃ fuel' r', round fuel pending membership r = Some (fuel', r') ∧ accounted pending r' ∧ fuel' ≤ fuel ∧
    fuel + changes_below fuel' ≤ fuel' + round_cost pending membership r + changes_below fuel.
Proof.
  revert membership r. induction fuel as [|fuel IH]; intros membership r Hr Hf; [lia|]. cbn [Admission.round].
  rewrite changes_below_S in Hf. destruct (Nat.leb_spec (length pending) (rd_next r)) as [Hge|Hlt].
  { exists (S fuel), r. split_and!; [done|done|done|lia]. }
  set (folded := match membership with Some folded => folded | None => _ end).
  assert (∃ g m, folded = (g, m) ∧ stale (Some (g, m)) r = stale membership r) as (g & m & -> & Hstale).
  { destruct membership as [[g m]|]; [by exists g, m|]. eexists _, _. split; [done|]. cbn. by rewrite Z.eqb_refl. }
  cbn zeta. set (ready := prepare_ahead _ _ _). set (r1 := {| rd_store := env fuel (rd_store r) |}).
  assert (accounted pending r1) as Hr1.
  { destruct Hr as [Hc Hd]. split; [done|]. apply (prepare_ahead_from _ (rd_next r)); [apply consecutive_items|done|intros j Hj; exfalso; subst r1; cbn in Hj; lia|done]. }
  assert (is_Some (rd_ready r1 !! rd_next r1)) as Hfirst.
  { apply next_prepared; [done|unfold ADMISSION_CHUNK_ENVELOPES; lia|apply Hr]. }
  rewrite changes_below_S. destruct (Z.eqb_spec (ft_generation (ad_fleet (rd_store r1))) g) as [Hg|Hg]; cbn [negb].
  - change (rd_next r) with (rd_next r1) in Hlt |- *.
    destruct (Nat.min (rd_next r1 + ADMISSION_CHUNK_ENVELOPES) (length pending) - rd_next r1) as [|n] eqn:En;
      [unfold ADMISSION_CHUNK_ENVELOPES in En; lia|].
    pose proof (loan_advances pending fuel n m r1 Hr1 Hlt Hfirst) as Hadv.
    destruct (loan_accounted pending fuel (S n) true m r1 Hr1) as [Hl _].
    set (r2 := commit_loan (loan fuel (S n) true pending m r1)).
    destruct (commit_loan_rest (loan fuel (S n) true pending m r1)) as (Hn2 & Hrd2 & Hh2 & Hc2 & _). fold r2 in Hn2, Hrd2, Hh2, Hc2.
    assert (accounted pending r2) as Hr2 by (unfold accounted; by rewrite Hn2, Hrd2, Hh2, Hc2).
    assert (stale (Some (g, m)) r2 ≤ 1) as Hs2 by (unfold stale; destruct (_ =? _)%Z; lia).
    assert (round_cost pending (Some (g, m)) r2 < round_cost pending membership r) as Hcost.
    { unfold round_cost. rewrite Hn2. change (rd_next r) with (rd_next r1). lia. }
    destruct (IH (Some (g, m)) r2 Hr2) as (fuel' & r' & -> & Ha & Hle & Hbound); [lia|].
    exists fuel', r'. split_and!; [done|done|lia|lia].
  - assert (stale membership r + (if churn fuel then 1 else 0) ≥ 1) as Hchurn.
    { rewrite <-Hstale. cbn. destruct (churn fuel) eqn:Ec; [lia|]. rewrite <-(env_rests fuel (rd_store r) Ec).
      apply Z.eqb_neq in Hg. cbn in Hg. rewrite Hg. lia. }
    assert (round_cost pending None r1 + stale membership r = round_cost pending membership r) as Hcost
      by (unfold round_cost; change (rd_next r1) with (rd_next r); cbn [stale]; lia).
    destruct (IH None r1 Hr1) as (fuel' & r' & -> & Ha & Hle & Hbound); [lia|].
    exists fuel', r'. split_and!; [done|done|lia|lia].
Qed.

Lemma rounds_end fuel pending s o budget :
  length pending < fuel → length pending * S (length pending) + changes_below budget < budget →
  is_Some (rounds fuel pending s o budget).
Proof.
  revert pending s o budget. induction fuel as [|fuel IH]; intros pending s o budget Hf Hb; [lia|]. cbn [Admission.rounds].
  set (r := {| rd_store := s |}). assert (accounted pending r) as Hr by (split; [cbn; lia|apply prepared_from_empty]).
  destruct (round_ends budget pending None r Hr) as (budget' & r' & -> & [Hc _] & Hle & Hbound); [unfold round_cost; cbn; nia|].
  destruct (rd_changed r'); cbn [negb orb]; [|by eexists]. destruct (bool_decide (rd_held r' = [])); [by eexists|].
  unfold round_cost in Hbound. cbn in Hbound. apply IH; [lia|nia].
Qed.
End ends.

(** the pass returns.  While membership keeps changing under it it folds again, so the
    bound counts those changes: with L envelopes to look at, L(L+1) iterations and one
    more per change are enough, whoever holds authority and however long each loan is. *)
Theorem backlog_pass_ends authority schema_digest spent now env churn budget s :
  (∀ n s, churn n = false → ft_generation (ad_fleet (env n s)) = ft_generation (ad_fleet s)) →
  let pending := pending_envelopes (bool_decide ((ad_retried s).1 = None)) (bool_decide ((ad_retried s).2 ≠ Some schema_digest)) s in
  length pending * S (length pending) + changes_below churn budget < budget →
  ∃ s' o, admit_replication_backlog classify_unbound classify authority schema_digest spent now env budget s = Some (s', o).
Proof.
  intros Henv pending Hb. unfold admit_replication_backlog. fold pending.
  destruct (rounds_end authority (bool_decide ((ad_retried s).2 ≠ Some schema_digest)) spent now env churn Henv (S (length pending)) pending s
    outcome_default budget) as [[s' o] ->]; [lia|done|]. eauto.
Qed.

(** ** What one envelope of a loan leaves alone *)

Notation admit_one := (admit_one classify AuthorityMembership).

(** The parts of the tables that other envelopes are judged by. *)
Record judged_alike (k : envelope_key) (s s' : AdmStore) : Prop := {
  ja_rows k' : k' ≠ k → ft_envelopes (ad_fleet s') !! k' = ft_envelopes (ad_fleet s) !! k';
  ja_holds k' : k' ≠ k → ad_holds s' !! k' = ad_holds s !! k';
  ja_admission e : admission_envelope_row (ad_fleet s') e = admission_envelope_row (ad_fleet s) e;
  ja_signatures : ft_signatures (ad_fleet s') = ft_signatures (ad_fleet s)
}.

Lemma judged_alike_refl k s : judged_alike k s s.
Proof. done. Qed.

(** A row is replaced by one with the same header. *)
Lemma judged_alike_row k s s' row row' :
  ft_envelopes (ad_fleet s) !! k = Some row → ft_envelopes (ad_fleet s') = <[k := row']> (ft_envelopes (ad_fleet s)) → same_header row row' →
  wr_ledger (ft_writers (ad_fleet s')) = wr_ledger (ft_writers (ad_fleet s)) → (∀ k', k' ≠ k → ad_holds s' !! k' = ad_holds s !! k') →
  ft_signatures (ad_fleet s') = ft_signatures (ad_fleet s) → judged_alike k s s'.
Proof.
  intros Hrow He (Hp & Ha & _ & Hrec & Hid) Hl Hh Hs. split; [|done| |done].
  - intros k' Hne. by rewrite He, lookup_insert_ne.
  - intros e. unfold admission_envelope_row, envelope_tombstoned. rewrite He, Hl. destruct (decide (re_key e = k)) as [->|Hne].
    + rewrite lookup_insert_eq, Hrow. cbn [mbind option_bind]. by rewrite Hp, Ha, Hrec, Hid.
    + by rewrite lookup_insert_ne.
Qed.

Lemma upsert_holds ref fresh where_ set s : ad_holds (upsert ref fresh where_ set s) = ad_holds s.
Proof. unfold upsert. destruct (ad_records s !! ref); [|done]. by destruct (where_ _). Qed.

Lemma admit_blobs_holds k t blobs a : ad_holds (foldl (admit_blob k t) a blobs).1.1 = ad_holds a.1.1.
Proof.
  revert a. induction blobs as [|[blob [hash bytes]] blobs IH]; intros [[s o] degraded]; cbn [foldl]; [done|]. rewrite IH.
  unfold admit_blob. destruct (pb_valid blob); cbn [fst]; unfold put_valid_blob, put_invalid_blob; rewrite upsert_holds; [|done].
  by destruct (ad_blobs s !! hash).
Qed.

Lemma store_claim_holds k signatures position p c s s' inserted :
  store_claim k signatures position p c s = Ok (s', inserted) → ad_holds s' = ad_holds s.
Proof.
  unfold store_claim. destruct (claim_tombstoned _ _); [by intros [= <- <-]|].
  destruct (pc_body p); [|done]. destruct (pc_predecessors p); [|done]. cbn [result_bind].
  unfold insert_claim_tx. destruct (ft_claims _ !! _); (destruct (bmap_get _ _); [intros (? & _ & [= <- <-])%result_bind_Ok|intros [= <- <-]]); done.
Qed.

Lemma admit_claims_holds k payload t position claims s o degraded o' s' degraded' :
  Admission.admit_claims classify k payload t position claims s o degraded = (o', Ok (s', degraded')) → ad_holds s' = ad_holds s.
Proof.
  revert position s o degraded. induction claims as [|[w p] claims IH]; intros position s o degraded; cbn [Admission.admit_claims]; [by intros [= _ <- _]|].
  destruct (Admission.admit_claim classify k payload t (Z.of_nat position) w p s o degraded) as [o1 [[s1 d1]|]] eqn:E; [|done].
  intros ->%IH. revert E. unfold Admission.admit_claim. destruct (pc_raw p); [|done].
  destruct (finish_claim_check _ _ _ _ _) as [[]|].
  - destruct (store_claim _ _ _ _ _ _) as [[s2 i]|] eqn:Es; [|done]. intros [= _ <- _]. unfold put_valid_claim. rewrite upsert_holds.
    by eapply store_claim_holds.
  - intros [= _ <- _]. apply upsert_holds.
  - intros [= _ <- _]. apply upsert_holds.
  - intros [= _ <- _]. apply upsert_holds.
Qed.

Lemma admit_prepared_holds p t s o o' s' :
  Admission.admit_prepared_envelope_tx classify p t s o = (o', Ok s') → ad_holds s' = ad_holds s.
Proof.
  unfold Admission.admit_prepared_envelope_tx. destruct (pe_content p) as [content|]; [|done].
  pose proof (admit_blobs_holds (pe_key p) t (zip (pp_blobs content) (pl_blobs (pp_payload content))) (s, o, false)) as Hb.
  destruct (foldl _ _ _) as [[s1 o1] d1]. cbn [fst] in Hb.
  destruct (admit_batch_tx _ s1) as [s2|] eqn:Eb; [|done].
  assert (ad_holds s2 = ad_holds s1) as Hh.
  { revert Eb. unfold admit_batch_tx. destruct (batch_of _ _); [by intros [= <-]|]. destruct (next_batch_rowid _) as [[]|]; [|done]. by intros [= <-]. }
  destruct (Admission.admit_claims _ _ _ _ _ _ _ _ _) as [o3 [[s3 d3]|]] eqn:E3; [|done]. apply admit_claims_holds in E3. intros [= _ <-].
  unfold finish_receipt. destruct (ft_envelopes _ !! _); [case_match|]; cbn [ad_holds with_fleet]; congruence.
Qed.

(** The receipt is not pending any more. *)
Definition receipt_settled (s : AdmStore) (k : envelope_key) : Prop :=
  ∃ row, ft_envelopes (ad_fleet s) !! k = Some row ∧ ev_receipt_state row ≠ "pending".

(** The envelope is held for the reason [reason]. *)
Definition noted (s : AdmStore) (k : envelope_key) (reason : string) : Prop := ∃ t, ad_holds s !! k = Some (reason, t).

Lemma hold_noted k reason t s : noted (hold_replica_envelope k reason t s) k reason.
Proof.
  unfold hold_replica_envelope, noted. destruct (ad_holds s !! k) as [[old t0]|] eqn:E.
  - destruct (String.eqb_spec old reason) as [->|]; [by eauto|]. cbn. rewrite lookup_insert_eq. eauto.
  - cbn. rewrite lookup_insert_eq. eauto.
Qed.

Lemma hold_other k reason t s k' : k' ≠ k → ad_holds (hold_replica_envelope k reason t s) !! k' = ad_holds s !! k'.
Proof.
  intros Hne. unfold hold_replica_envelope. destruct (ad_holds s !! k) as [[old t0]|]; [destruct (String.eqb old reason); [done|]|];
    cbn; by rewrite lookup_insert_ne.
Qed.

Lemma hold_again_alike k s : judged_alike k s (hold_again k s) ∧ ad_holds (hold_again k s) = ad_holds s.
Proof.
  unfold hold_again. destruct (ft_envelopes (ad_fleet s) !! k) as [row|] eqn:E; [|done]. case_match; [|done]. split; [|done].
  eapply judged_alike_row; [exact E|cbn; by rewrite insert_delete_eq|done..].
Qed.

Lemma record_invalid_alike e error t s :
  is_Some (ft_envelopes (ad_fleet s) !! re_key e) →
  judged_alike (re_key e) s (record_invalid_replica_envelope e error t s) ∧ receipt_settled (record_invalid_replica_envelope e error t s) (re_key e).
Proof.
  intros [row E]. unfold record_invalid_replica_envelope. rewrite upsert_fleet, E.
  split.
  - eapply judged_alike_row; [exact E|cbn; by rewrite insert_delete_eq|done|done| |done]. intros k' _. cbn. by rewrite upsert_holds.
  - eexists. cbn. rewrite lookup_insert_eq. split; [done|]. done.
Qed.

Lemma admit_one_settles again m t e row r r' stop :
  current (rd_store r) m → admit_one again m t e (prepare_envelope e (Some row)) r = (r', stop) →
  judged_alike (re_key e) (rd_store r) (rd_store r') ∧ rd_changed r' = rd_changed r || stop ∧
  (rd_held r' = rd_held r ∧ (admission_envelope_row (ad_fleet (rd_store r)) e = Some row → receipt_settled (rd_store r') (re_key e)) ∨
   rd_held r' = (rd_held r ++ [(e, row)])%list ∧ stop = false ∧
   ∃ reason, held_back (rd_store r) (re_key e) = Some reason ∧ noted (rd_store r') (re_key e) reason).
Proof.
  intros Hm. unfold Admission.admit_one. destruct (admission_envelope_row (ad_fleet (rd_store r)) e) as [row'|] eqn:Erow;
    [|intros [= <- <-]; rewrite orb_false_r; split_and!; [done|done|left; split; [done|intros [=]]]].
  cbn [pe_row Admission.prepare_envelope]. destruct (bool_decide_reflect (Some row = Some row')) as [[= <-]|Hne]; cbn [negb];
    [|intros [= <- <-]; rewrite orb_false_r; split_and!; [done|done|left; split; [done|congruence]]].
  destruct (admission_row_spec _ _ _ Erow) as (x & Hx & _).
  rewrite Hm. fold (held_back (rd_store r) (re_key e)). destruct (held_back (rd_store r) (re_key e)) as [reason|].
  - intros [= <- <-]. cbn [rd_store rd_held rd_changed]. rewrite orb_false_r. set (s1 := hold_replica_envelope (re_key e) reason t (rd_store r)).
    assert (judged_alike (re_key e) (rd_store r) s1) as Hj.
    { split; subst s1; [by rewrite hold_fleet|intros k'; apply hold_other|by rewrite hold_fleet|by rewrite hold_fleet]. }
    destruct (hold_again_alike (re_key e) s1) as [[Ha1 Ha2 Ha3 Ha4] Hh].
    pose proof (hold_noted (re_key e) reason t (rd_store r)) as Hn. fold s1 in Hn.
    split_and!; [|done|right; split_and!; [done|done|exists reason; split; [done|]]].
    + destruct again; [|done]. destruct Hj as [J1 J2 J3 J4]. split.
      * intros k' Hk. by rewrite Ha1, J1.
      * intros k' Hk. by rewrite Ha2, J2.
      * intros e'. by rewrite Ha3.
      * by rewrite Ha4.
    + destruct again; [|done]. unfold noted. by rewrite Hh.
  - destruct (Admission.admit_prepared_envelope_tx _ _ t (rd_store r) (rd_outcome r)) as [o [s'|error]] eqn:Ea; intros [= <- <-];
      cbn [rd_store rd_held rd_changed on_store].
    + pose proof (admit_prepared_holds _ _ _ _ _ _ Ea) as Hh.
      destruct (admit_tables _ _ _ _ _ _ _ _ _ _ Erow Ea) as (content & _ & Hadm).
      destruct (ea_row _ _ _ _ Hadm) as (row1 & row2 & Hr1 & Hr2 & Hhead & (_ & _ & Hset)).
      split_and!; [|done|left; split; [done|intros _]].
      * eapply judged_alike_row; [exact Hr1|exact Hr2|done|apply (ea_ledger _ _ _ _ Hadm)| |apply (ea_signatures _ _ _ _ Hadm)].
        intros k' Hk. cbn. by rewrite lookup_delete_ne, Hh.
      * exists row2. cbn [ad_fleet release_hold with_holds]. rewrite Hr2, lookup_insert_eq. split; [done|]. intros E. rewrite E in Hset. set_solver.
    + destruct (record_invalid_alike e error t (rd_store r)) as [Hj Hs]; [by eexists|]. rewrite orb_false_r. auto.
Qed.

(** ** A round *)

Section quiet.
Variables (again : bool) (spent : nat → nat → bool) (now : nat → Z) (env : nat → AdmStore → AdmStore).
(** Other transactions leave the fleet's tables and the holds alone. *)
Hypothesis env_quiet : ∀ n s, ad_fleet (env n s) = ad_fleet s ∧ ad_holds (env n s) = ad_holds s.

Notation loan := (loan classify AuthorityMembership again spent now).
Notation round := (round classify_unbound classify AuthorityMembership again spent now env).
Notation rounds := (rounds classify_unbound classify AuthorityMembership again spent now env).

Definition keys_of (pending : list (ReplicaEnvelope * EnvelopeRow)) : list envelope_key := re_key ∘ fst <$> pending.

(** An envelope that was taken is settled, or held; while no membership claim was
    admitted, for the reason membership still gives. *)
Definition envelope_taken (r : Round) (e : ReplicaEnvelope) (row : EnvelopeRow) : Prop :=
  receipt_settled (rd_store r) (re_key e) ∨
  (e, row) ∈ rd_held r ∧ ∃ reason, noted (rd_store r) (re_key e) reason ∧
    (rd_changed r = false → held_back (rd_store r) (re_key e) = Some reason).

Record round_ok (s : AdmStore) (pending : list (ReplicaEnvelope * EnvelopeRow)) (r : Round) : Prop := {
  ro_receipts : receipts_ok (ad_fleet (rd_store r));
  ro_ready : ready_ok classify_unbound pending (rd_ready r);
  ro_admission e : admission_envelope_row (ad_fleet (rd_store r)) e = admission_envelope_row (ad_fleet s) e;
  ro_taken i e row : i < rd_next r → pending !! i = Some (e, row) → admission_envelope_row (ad_fleet s) e = Some row → envelope_taken r e row;
  ro_held : rd_held r `sublist_of` take (rd_next r) pending;
  ro_kept k : k ∉ keys_of pending → receipt_settled s k → receipt_settled (rd_store r) k
}.

Lemma round_ok_start s o pending :
  receipts_ok (ad_fleet s) →
  round_ok s pending {| rd_store := s; rd_outcome := o; rd_next := 0; rd_ready := ∅; rd_held := []; rd_changed := false |}.
Proof.
  intros Hr. split; cbn [rd_store rd_next rd_ready rd_held]; [done| |done|lia|constructor|done].
  intros i p Hp. by rewrite lookup_empty in Hp.
Qed.

(** What [held_back] and [receipt_settled] read of another envelope stays. *)
Lemma judged_alike_taken r r' k e row :
  judged_alike k (rd_store r) (rd_store r') → re_key e ≠ k → (∃ x, rd_held r' = (rd_held r ++ x)%list) →
  (rd_changed r' = false → rd_changed r = false ∧ fleet_membership_tx (ad_fleet (rd_store r')) = fleet_membership_tx (ad_fleet (rd_store r))) →
  envelope_taken r e row → envelope_taken r' e row.
Proof.
  intros [Hrows Hholds _ Hsig] Hne [x Hx] Hm [(row' & Hr & Hs)|(Hin & reason & [t Ht] & Hback)].
  - left. exists row'. by rewrite Hrows.
  - right. rewrite Hx. split; [set_solver|]. exists reason. split; [exists t; by rewrite Hholds|]. intros Hc.
    destruct (Hm Hc) as [Hc' Hmem]. rewrite <-(Hback Hc'). unfold held_back, fleet_admission_hold, envelope_signers. by rewrite Hsig, Hmem.
Qed.

Lemma keys_lookup pending i (e : ReplicaEnvelope) (row : EnvelopeRow) : pending !! i = Some (e, row) → keys_of pending !! i = Some (re_key e).
Proof. intros Hi. unfold keys_of. by rewrite list_lookup_fmap, Hi. Qed.

Lemma round_ok_step s pending m t e row r r1 stop :
  NoDup (keys_of pending) → current (rd_store r) m → round_ok s pending r → pending !! rd_next r = Some (e, row) →
  admit_one again m t e (prepare_envelope e (Some row)) (take_ready r) = (r1, stop) →
  round_ok s pending r1 ∧ (stop = false → current (rd_store r1) m).
Proof.
  intros Hnd Hm [Hrec Hready Hadm Htaken Hheld Hkept] Hx E1.
  destruct (admit_one_refines classify_unbound classify (λ _ _, False) (λ _ _ H, False_ind _ H) again m t e (Some row) (take_ready r) r1 stop Hm Hrec E1)
    as ([tr Hrun] & Hcur & Hnext & Hrd).
  pose proof (adm_run_may _ _ _ (λ _ _ H, False_ind _ H) _ _ _ Hrun) as Hmay.
  destruct (admit_one_settles again m t e row (take_ready r) r1 stop Hm E1) as (Hj & Hch & Hcase).
  cbn [rd_store rd_next rd_ready rd_held rd_changed take_ready] in *. split; [|done].
  split.
  - by apply Hmay.
  - rewrite Hrd. by apply ready_ok_delete.
  - intros e'. by rewrite (ja_admission _ _ _ Hj).
  - intros i e' row' Hi Hpi Hrow. rewrite Hnext in Hi. destruct (decide (i = rd_next r)) as [->|Hne].
    + rewrite Hx in Hpi. injection Hpi as <- <-. destruct Hcase as [[_ Hs]|(Hh & -> & reason & Hback & Hn)].
      * left. apply Hs. by rewrite Hadm.
      * right. split; [rewrite Hh; set_solver|]. exists reason. split; [done|]. intros _. rewrite <-Hback.
        unfold held_back, fleet_admission_hold, envelope_signers. rewrite (ja_signatures _ _ _ Hj).
        pose proof (Hcur eq_refl) as Hc1. unfold current in Hc1, Hm. by rewrite <-Hc1, <-Hm.
    + apply (judged_alike_taken r r1 (re_key e)); [done| | | |].
      * intros Heq. apply Hne. apply (NoDup_lookup (keys_of pending) i (rd_next r) (re_key e)); [done| |by eapply keys_lookup].
        rewrite <-Heq. by eapply keys_lookup.
      * destruct Hcase as [[-> _]|[-> _]]; [exists []; by rewrite app_nil_r|by eexists].
      * rewrite Hch. intros [Hc ->]%orb_false_iff. split; [done|]. pose proof (Hcur eq_refl) as Hc1. unfold current in Hc1, Hm. congruence.
      * apply (Htaken i); [lia|done..].
  - rewrite Hnext. rewrite (take_S_r _ _ _ Hx). destruct Hcase as [[-> _]|[-> _]].
    + by apply sublist_inserts_r.
    + by apply sublist_app.
  - intros k Hk Hs. destruct (Hkept k Hk Hs) as (row' & Hr' & Hst). exists row'. split; [|done]. rewrite (ja_rows _ _ _ Hj); [done|].
    intros ->. apply Hk. apply list_elem_of_lookup. exists (rd_next r). by eapply keys_lookup.
Qed.

Lemma loan_ok s pending id n first m r :
  NoDup (keys_of pending) → current (rd_store r) m → round_ok s pending r → round_ok s pending (loan id n first pending m r).
Proof.
  intros Hnd. revert first r. induction n as [|n IH]; intros first r Hm Hr; cbn [Admission.loan]; [done|].
  destruct (negb first && spent id (rd_next r)); [done|].
  destruct (pending !! rd_next r) as [[e row]|] eqn:Ep; [|done].
  destruct (rd_ready r !! rd_next r) as [p|] eqn:Er; [|done].
  destruct (ro_ready _ _ _ Hr _ _ Er) as (e' & row' & Ep' & ->). rewrite Ep in Ep'. injection Ep' as <- <-.
  destruct (admit_one again m (now id) e (prepare_envelope e (Some row)) (take_ready r)) as [r1 stop] eqn:E1.
  destruct (round_ok_step _ _ _ _ _ _ _ _ _ Hnd Hm Hr Ep E1) as [Hr1 Hcur]. destruct stop; [done|]. apply IH; auto.
Qed.

Lemma round_ok_ext s pending r r' :
  ad_fleet (rd_store r') = ad_fleet (rd_store r) → ad_holds (rd_store r') = ad_holds (rd_store r) → rd_next r' = rd_next r →
  rd_held r' = rd_held r → rd_changed r' = rd_changed r → ready_ok classify_unbound pending (rd_ready r') →
  round_ok s pending r → round_ok s pending r'.
Proof.
  intros Hf Hh Hn Hd Hc Hready [Hrec _ Hadm Htaken Hheld Hkept]. split.
  - by rewrite Hf.
  - done.
  - intros e. by rewrite Hf.
  - intros i e row Hi Hp Hrow. rewrite Hn in Hi. specialize (Htaken i e row Hi Hp Hrow).
    unfold envelope_taken, receipt_settled, noted, held_back in *. by rewrite Hf, Hh, Hd, Hc.
  - by rewrite Hd, Hn.
  - intros k Hk Hs. unfold receipt_settled. rewrite Hf. by apply Hkept.
Qed.

Lemma round_settles s fuel pending membership r n r' :
  NoDup (keys_of pending) → current_at (ad_fleet (rd_store r)) fleet_membership_tx membership → round_ok s pending r →
  round fuel pending membership r = Some (n, r') → round_ok s pending r' ∧ length pending ≤ rd_next r'.
Proof.
  intros Hnd. revert membership r. induction fuel as [|fuel IH]; intros membership r Hcur Hr; cbn [Admission.round]; [done|].
  destruct (Nat.leb_spec (length pending) (rd_next r)) as [Hge|_]; [by intros [= <- <-]|].
  set (folded := match membership with Some folded => folded | None => _ end).
  assert (current_at (ad_fleet (rd_store r)) fleet_membership_tx (Some folded)) as Hfold.
  { destruct membership as [f|]; [done|]. intros g v [= <- <-]. done. }
  destruct folded as [generation m]. clear Hcur membership. cbn zeta.
  set (ready := prepare_ahead _ _ _). assert (ready_ok classify_unbound pending ready) as Hready.
  { apply prepare_ahead_ok; [apply ahead_items|apply Hr]. }
  set (r1 := {| rd_store := env fuel (rd_store r) |}). destruct (env_quiet fuel (rd_store r)) as [Hf Hh].
  assert (round_ok s pending r1) as Hr1 by (by apply (round_ok_ext s pending r)).
  assert (current_at (ad_fleet (rd_store r1)) fleet_membership_tx (Some (generation, m))) as Hcur1 by (subst r1; cbn; by rewrite Hf).
  clearbody r1. destruct (Z.eqb_spec (ft_generation (ad_fleet (rd_store r1))) generation) as [Hgen|]; cbn [negb].
  - assert (current (rd_store r1) m) as Hm by (by apply (Hcur1 generation m eq_refl)).
    set (k := Nat.min _ _ - _). pose proof (loan_ok s pending fuel k true m r1 Hnd Hm Hr1) as Hl.
    destruct (loan_refines classify_unbound classify (λ _ _, False) (λ _ _ H, False_ind _ H) again spent now pending fuel k true m r1 Hm
      (ro_receipts _ _ _ Hr1) (ro_ready _ _ _ Hr1)) as [[tr Hrun] _].
    pose proof (fleet_run_guarded _ _ (proj1 (adm_run_may _ _ _ (λ _ _ H, False_ind _ H) _ _ _ Hrun))) as Hg.
    destruct (commit_loan_rest (loan fuel k true pending m r1)) as (Hn2 & Hrd2 & Hh2 & Hc2 & Hf2).
    apply IH.
    + rewrite Hf2. apply (current_at_guarded _ _ _ _ Hg); [by apply same_input_membership|done].
    + apply (round_ok_ext s pending (loan fuel k true pending m r1)); try done; [|rewrite Hrd2; apply Hl].
      unfold commit_loan. by destruct (ou_changed _).
  - apply IH; [by intros ? ?|done].
Qed.

(** Decided: settled, or held for the reason that membership gives. *)
Definition decided (s : AdmStore) (k : envelope_key) : Prop :=
  receipt_settled s k ∨ ∃ reason, held_back s k = Some reason ∧ noted s k reason.

Lemma rounds_settle fuel pending s o budget s' o' :
  NoDup (keys_of pending) → receipts_ok (ad_fleet s) → rounds fuel pending s o budget = Some (s', o') →
  (∀ e row, (e, row) ∈ pending → admission_envelope_row (ad_fleet s) e = Some row → decided s' (re_key e)) ∧
  (∀ k, k ∉ keys_of pending → receipt_settled s k → receipt_settled s' k).
Proof.
  revert pending s o budget. induction fuel as [|fuel IH]; intros pending s o budget Hnd Hrec; cbn [Admission.rounds]; [done|].
  destruct (round budget pending None _) as [[n r]|] eqn:E; [|done].
  apply (round_settles s) in E as [Hr Hall]; [|done|by intros ? ?|by apply round_ok_start].
  assert (∀ e row, (e, row) ∈ pending → admission_envelope_row (ad_fleet s) e = Some row → envelope_taken r e row) as Htaken.
  { intros e row [i Hi]%list_elem_of_lookup Hrow. apply (ro_taken _ _ _ Hr i); [|done..]. apply lookup_lt_Some in Hi. lia. }
  assert (∀ x, x ∈ rd_held r → x ∈ pending) as Hsub.
  { intros x Hx. eapply elem_of_sublist; [exact Hx|]. etrans; [apply Hr|apply sublist_take]. }
  destruct (negb (rd_changed r) || bool_decide (rd_held r = [])) eqn:Elast.
  - intros [= <- <-]. split; [|apply Hr]. intros e row Hin Hrow.
    destruct (Htaken e row Hin Hrow) as [Hs|(Hh & reason & Hn & Hback)]; [by left|right]. exists reason. split; [|done]. apply Hback.
    apply orb_true_iff in Elast as [Hc%negb_true_iff|Hnil%bool_decide_eq_true]; [done|]. rewrite Hnil in Hh. by apply elem_of_nil in Hh.
  - intros Hrest. assert (NoDup (keys_of (rd_held r))) as Hnd'.
    { apply (sublist_NoDup _ (keys_of pending)); [done|]. unfold keys_of. apply fmap_sublist. etrans; [apply Hr|apply sublist_take]. }
    apply IH in Hrest as [D1 D2]; [|done|apply Hr]. split.
    + intros e row Hin Hrow. assert ((e, row) ∈ rd_held r → decided s' (re_key e)) as Hagain.
      { intros Hh. apply (D1 e row Hh). by rewrite (ro_admission _ _ _ Hr). }
      destruct (Htaken e row Hin Hrow) as [Hs|[? _]]; [|by apply Hagain].
      destruct (decide (re_key e ∈ keys_of (rd_held r))) as [Hk|Hk]; [|left; by apply D2].
      apply list_elem_of_fmap in Hk as ([e' row'] & Hk & Hh'). apply Hagain. replace (e, row) with (e', row'); [done|].
      apply Hsub, list_elem_of_lookup in Hh' as [i Hi]. apply list_elem_of_lookup in Hin as [j Hj]. cbn in Hk.
      assert (i = j) as ->; [|congruence]. apply (NoDup_lookup (keys_of pending) i j (re_key e)); [done| |by eapply keys_lookup].
      rewrite Hk. by eapply keys_lookup.
    + intros k Hk Hs. apply D2; [|by apply (ro_kept _ _ _ Hr)]. intros ([e' row'] & -> & Hh')%list_elem_of_fmap. apply Hk.
      apply list_elem_of_fmap. exists (e', row'). auto.
Qed.
End quiet.

(** ** The envelopes a pass looks at *)

Lemma parse_u128_decimal z : (0 <= z < 2 ^ 128)%Z → parse_u128 (decimal z) = Some z.
Proof.
  intros Hz. destruct (parse_decimal z) as [E (c & r & Ed)]; [lia|]. rewrite Ed in *. unfold parse_u128.
  destruct (ascii_dec c "+") as [-> |_]; [done|]. rewrite E. cbn [mbind option_bind]. by rewrite (proj2 (Z.ltb_lt _ _)) by lia.
Qed.

Lemma pending_keys t (l : list envelope_key) : keys_of (omap (pending_envelope t) l) `sublist_of` l.
Proof.
  induction l as [|k l IH]; cbn [omap list_omap]; [constructor|]. unfold pending_envelope at 1.
  destruct (ft_envelopes t !! k); cbn [fmap option_fmap option_map]; [|by constructor].
  unfold keys_of. cbn [fmap list_fmap compose fst]. destruct k as [[writer sequence] hash]. by constructor.
Qed.

Lemma pending_NoDup a b s : NoDup (keys_of (pending_envelopes a b s)).
Proof. eapply sublist_NoDup; [|apply pending_keys]. apply bset_wf_NoDup, bset_of_list_wf. Qed.

(** A pending row is among them. *)
Lemma pending_found a b s k row accepted :
  ft_envelopes (ad_fleet s) !! k = Some row → ev_receipt_state row = "pending" → ev_accepted_at_unix_ms row = decimal accepted →
  (0 <= accepted < 2 ^ 128)%Z → envelope_tombstoned (ad_fleet s) k = false →
  ∃ e er, (e, er) ∈ pending_envelopes a b s ∧ re_key e = k ∧ admission_envelope_row (ad_fleet s) e = Some er.
Proof.
  intros Hrow Hp Ha Hz Ht. destruct (pending_envelope (ad_fleet s) k) as [[e er]|] eqn:E; [|unfold pending_envelope in E; by rewrite Hrow in E].
  exists e, er. assert (k ∈ bset_of_list (elements (retry_ids a b s))) as Hk.
  { apply elem_of_bset_of_list, elem_of_elements, elem_of_union_l, elem_of_dom. exists row. by apply map_lookup_filter_Some. }
  split; [by apply list_elem_of_omap; exists k|]. unfold pending_envelope in E. rewrite Hrow in E. cbn [fmap option_fmap option_map] in E.
  rewrite Ha, parse_u128_decimal in E by done. cbn [default from_option id] in E. injection E as <- <-. destruct k as [[writer sequence] hash]. split; [done|].
  unfold admission_envelope_row, re_key. cbn [re_writer re_sequence re_hash re_previous_hash re_accepted_at_unix_ms fst snd].
  rewrite Hrow. cbn [mbind option_bind]. rewrite bool_decide_eq_true_2, Ha, String.eqb_refl, Ht by done. done.
Qed.

Lemma no_changes budget : changes_below (λ _, false) budget = 0.
Proof. induction budget as [|n IH]; [done|]. by rewrite changes_below_S, IH. Qed.

(** C12: a pass decides every envelope it finds pending.  When no other transaction changes
    the fleet's tables or the holds, the pass returns, and in the store it leaves the
    receipt of each envelope that was pending is validated or degraded, or the envelope
    has a hold with the reason that the membership of that store gives: none is left that
    the membership it admitted itself would let in. *)
Theorem backlog_decides_every_envelope schema_digest spent now env budget s k row accepted :
  (∀ n s, ad_fleet (env n s) = ad_fleet s ∧ ad_holds (env n s) = ad_holds s) → receipts_ok (ad_fleet s) →
  let pending := pending_envelopes (bool_decide ((ad_retried s).1 = None)) (bool_decide ((ad_retried s).2 ≠ Some schema_digest)) s in
  length pending * S (length pending) < budget →
  ft_envelopes (ad_fleet s) !! k = Some row → ev_receipt_state row = "pending" → ev_accepted_at_unix_ms row = decimal accepted →
  (0 <= accepted < 2 ^ 128)%Z → envelope_tombstoned (ad_fleet s) k = false →
  ∃ s' o, admit_replication_backlog classify_unbound classify AuthorityMembership schema_digest spent now env budget s = Some (s', o) ∧
    decided s' k.
Proof.
  intros Henv Hrec pending Hb Hrow Hp Ha Hz Ht. unfold admit_replication_backlog. fold pending.
  set (again := bool_decide ((ad_retried s).2 ≠ Some schema_digest)).
  assert (∀ n s, false = false → ft_generation (ad_fleet (env n s)) = ft_generation (ad_fleet s)) as Hrests
    by (intros n s0 _; by rewrite (proj1 (Henv n s0))).
  destruct (rounds_end AuthorityMembership again spent now env (λ _, false) Hrests (S (length pending)) pending s outcome_default budget)
    as [[s1 o] E]; [lia|rewrite no_changes; lia|]. rewrite E. eexists _, o. split; [done|].
  destruct (rounds_settle again spent now env Henv _ _ _ _ _ _ _ (pending_NoDup _ _ _) Hrec E) as [Hd _].
  destruct (pending_found (bool_decide ((ad_retried s).1 = None)) again s k row accepted Hrow Hp Ha Hz Ht) as (e & er & Hin & <- & Hadm).
  specialize (Hd e er Hin Hadm). by case_match.
Qed.
End settle.

(** ** The two envelopes of [Backlog] *)

Section toy.
#[local] Existing Instance toy_keys.
#[local] Existing Instance toy_codec.
#[local] Existing Instance toy_hooks.

#[local] Notation toy_pass :=
  (admit_replication_backlog toy_unbound toy_classify AuthorityMembership "d" (λ _ _, false) (λ _, 20%Z) toy_env 20 toy_store).

Lemma backlog_pass_ends_witness : ∃ s o, toy_pass = Some (s, o).
Proof.
  apply (backlog_pass_ends toy_unbound toy_classify AuthorityMembership "d" (λ _ _, false) (λ _, 20%Z) toy_env (λ _, false) 20 toy_store).
  - intros n s _. reflexivity.
  - apply Nat.ltb_lt. vm_compute. reflexivity.
Defined.

Lemma backlog_decides_every_envelope_witness : ∃ s o, toy_pass = Some (s, o) ∧ decided s (re_key toy_b).
Proof.
  destruct (ft_envelopes (ad_fleet toy_store) !! re_key toy_b) as [row|] eqn:E; [|vm_compute in E; discriminate].
  apply (backlog_decides_every_envelope toy_unbound toy_classify "d" (λ _ _, false) (λ _, 20%Z) toy_env 20 toy_store (re_key toy_b) row 10).
  - intros n s. split; reflexivity.
  - exact toy_receipts.
  - apply Nat.ltb_lt. vm_compute. reflexivity.
  - exact E.
  - vm_compute in E. injection E as <-. reflexivity.
  - vm_compute in E. injection E as <-. reflexivity.
  - lia.
  - vm_compute. reflexivity.
Defined.
End toy.
