(* ===== verification/Operations.v ===== *)
(** * Operations: which request an idempotency key stands for
    (crates/smallclaims/src/store/operation_metadata.rs, and of
    crates/smallclaims/src/store.rs the operations of claims)

    A claim may carry an operation: a key and the digest of the request it was written for.
    The table [operations] has a row per operation with a stored claim, reduced from every
    claim of it, stored or dropped by a checkpoint, that was not repaired.  A write with a
    key first looks at that row and at the tombstones, so that a request is written once. *)

From stdpp Require Import gmap.
From S2P Require Import Prelude BTree Json Digests Membership Principal Retired WriterHeads FleetStore.

Local Open Scope string_scope.
Local Open Scope claims_scope.

(** ** The reduction *)

Record OperationMetadata := {
  om_minimum : option string;
  om_canonical : option string;
  om_fallback : option string;
  om_conflict : bool
}.
Definition metadata_default : OperationMetadata :=
  {| om_minimum := None; om_canonical := None; om_fallback := None; om_conflict := false |}.

Definition is_less (x y : string) : bool := match cmp x y with Lt => true | _ => false end.

Definition include (m : OperationMetadata) (x : string * string * bool) : OperationMetadata :=
  let '(digest, claim, stored) := x in
  let m := match (λ minimum, cmp digest minimum) <$> om_minimum m with
    | None | Some Lt =>
        {| om_minimum := Some digest; om_canonical := if stored then Some claim else None; om_fallback := om_fallback m;
           om_conflict := om_conflict m || bool_decide (is_Some (om_minimum m)) |}
    | Some Gt =>
        {| om_minimum := om_minimum m; om_canonical := om_canonical m; om_fallback := om_fallback m; om_conflict := true |}
    | Some Eq =>
        {| om_minimum := om_minimum m;
           om_canonical := if stored && is_none_or (is_less claim) (om_canonical m) then Some claim else om_canonical m;
           om_fallback := om_fallback m; om_conflict := om_conflict m |}
    end in
  if stored && is_none_or (is_less claim) (om_fallback m)
  then {| om_minimum := om_minimum m; om_canonical := om_canonical m; om_fallback := Some claim; om_conflict := om_conflict m |}
  else m.

(** [row]; a stored claim supplies a digest. *)
Notation operation_row := (string * string * string)%type.
Definition metadata_row (m : OperationMetadata) : option operation_row :=
  match om_fallback m, om_minimum m with
  | Some fallback, Some minimum => Some (minimum, default fallback (om_canonical m), if om_conflict m then "conflict" else "active")
  | _, _ => None
  end.
Definition reduce (records : list (string * string * bool)) : option operation_row := metadata_row (foldl include metadata_default records).

(** ** The reduction it stands for *)

Definition least (l : list string) : option string := min_by cmp l.
Definition digests_of (records : list (string * string * bool)) : list string := (λ x, x.1.1) <$> records.
Definition stored_of (records : list (string * string * bool)) : list (string * string) := fst <$> List.filter snd records.
Definition stored_under (digest : string) (records : list (string * string * bool)) : list string :=
  snd <$> List.filter (λ x, String.eqb x.1 digest) (stored_of records).

(** The least digest; the least stored claim of it, or of any; and whether they all agree. *)
Definition old_row (records : list (string * string * bool)) : option operation_row :=
  match least (digests_of records), least (snd <$> stored_of records) with
  | Some digest, Some first =>
      let canonical := default first (least (stored_under digest records)) in
      Some (digest, canonical, if forallb (String.eqb digest) (digests_of records) then "active" else "conflict")
  | _, _ => None
  end.

Lemma least_snoc l x :
  least (l ++ [x]) = Some (match least l with Some best => if is_less x best then x else best | None => x end).
Proof.
  destruct l as [|y l]; [done|]. unfold least, min_by, is_less. cbn [app]. rewrite foldl_snoc. f_equal.
  rewrite (cmp_opp (foldl _ y l) x). by destruct (cmp (foldl _ y l) x).
Qed.

Lemma least_spec l x : least l = Some x → x ∈ l ∧ ∀ y, y ∈ l → cmp x y ≠ Gt.
Proof. by apply (min_by_least cmp id). Qed.
Lemma least_None l : least l = None ↔ l = [].
Proof. apply min_by_None. Qed.
Lemma least_same l l' : (∀ x, x ∈ l ↔ x ∈ l') → least l = least l'.
Proof. intros Hl. by apply (min_by_same cmp id). Qed.

(** What the fields hold after some records. *)
Record reduced (records : list (string * string * bool)) (m : OperationMetadata) : Prop := {
  re_minimum : om_minimum m = least (digests_of records);
  re_fallback : om_fallback m = least (snd <$> stored_of records);
  re_canonical : om_canonical m = (digest ← om_minimum m; least (stored_under digest records));
  re_conflict : om_conflict m = negb (forallb (λ d, bool_decide (om_minimum m = Some d)) (digests_of records))
}.

Lemma stored_of_snoc records digest claim (stored : bool) :
  stored_of (records ++ [(digest, claim, stored)]) = (stored_of records ++ if stored then [(digest, claim)] else [])%list.
Proof. unfold stored_of. rewrite List.filter_app, fmap_app. by destruct stored. Qed.

Lemma stored_under_snoc d records digest claim (stored : bool) :
  stored_under d (records ++ [(digest, claim, stored)]) =
    (stored_under d records ++ if stored && String.eqb digest d then [claim] else [])%list.
Proof.
  unfold stored_under. rewrite stored_of_snoc. destruct stored; cbn [andb]; [|by rewrite !app_nil_r].
  rewrite List.filter_app, fmap_app. cbn. by destruct (String.eqb digest d).
Qed.

Lemma digests_of_snoc records x : digests_of (records ++ [x]) = (digests_of records ++ [x.1.1])%list.
Proof. unfold digests_of. by rewrite fmap_app. Qed.

Lemma stored_under_new d records : d ∉ digests_of records → stored_under d records = [].
Proof.
  induction records as [|[[digest claim] stored] records IH]; [done|]. intros Hd. unfold stored_under, stored_of in *. cbn [List.filter snd] in *.
  assert (d ≠ digest ∧ d ∉ digests_of records) as [Hne Hd'] by set_solver.
  destruct stored; cbn [fmap list_fmap List.filter fst]; [|by apply IH].
  rewrite (proj2 (String.eqb_neq digest d)) by done. by apply IH.
Qed.

(** The least of a list, grown by the one stored. *)
Lemma least_stored (l : list string) (claim : string) (stored : bool) :
  least (l ++ (if stored then [claim] else [])) = (if stored && is_none_or (is_less claim) (least l) then Some claim else least l).
Proof.
  destruct stored; [|by rewrite app_nil_r]. rewrite least_snoc. cbn [andb]. destruct (least l) as [best|]; cbn [is_none_or]; [|done].
  by destruct (is_less claim best).
Qed.

Lemma include_fallback m digest claim (stored : bool) :
  om_fallback (include m (digest, claim, stored)) =
    if stored && is_none_or (is_less claim) (om_fallback m) then Some claim else om_fallback m.
Proof. unfold include. destruct (om_minimum m) as [minimum|]; cbn [fmap option_fmap option_map]; [destruct (cmp digest minimum)|]; cbn [om_fallback]; by case_match. Qed.

(** The other fields after a record. *)
Lemma include_rest m digest claim (stored : bool) m' :
  m' = include m (digest, claim, stored) →
  match om_minimum m with
  | None => om_minimum m' = Some digest ∧ om_canonical m' = (if stored then Some claim else None) ∧ om_conflict m' = om_conflict m
  | Some minimum =>
      match cmp digest minimum with
      | Lt => om_minimum m' = Some digest ∧ om_canonical m' = (if stored then Some claim else None) ∧ om_conflict m' = true
      | Gt => om_minimum m' = Some minimum ∧ om_canonical m' = om_canonical m ∧ om_conflict m' = true
      | Eq => om_minimum m' = Some minimum ∧
          om_canonical m' = (if stored && is_none_or (is_less claim) (om_canonical m) then Some claim else om_canonical m) ∧
          om_conflict m' = om_conflict m
      end
  end.
Proof.
  intros ->. unfold include. destruct (om_minimum m) as [minimum|]; cbn [fmap option_fmap option_map].
  - destruct (cmp digest minimum); cbn [om_fallback]; case_match; cbn; rewrite ?orb_true_r; auto.
  - cbn [om_fallback]. case_match; cbn; rewrite ?orb_false_r; auto.
Qed.

Lemma forallb_snoc {A} (f : A → bool) l x : forallb f (l ++ [x]) = forallb f l && f x.
Proof. rewrite forallb_app. cbn. by rewrite andb_true_r. Qed.

Lemma include_reduced records m x : reduced records m → reduced (records ++ [x]) (include m x).
Proof.
  destruct x as [[digest claim] stored]. intros [Hm Hf Hc Hx]. pose proof (include_rest m digest claim stored _ eq_refl) as Hrest.
  pose proof (include_fallback m digest claim stored) as Hfall. set (m' := include m (digest, claim, stored)) in *. clearbody m'.
  assert (om_fallback m' = least (snd <$> stored_of (records ++ [(digest, claim, stored)]))) as Hf'.
  { rewrite Hfall, Hf, stored_of_snoc, fmap_app, <-least_stored. by destruct stored. }
  destruct (om_minimum m) as [minimum|] eqn:Em.
  - symmetry in Hm. destruct (least_spec _ _ Hm) as [Hin Hle].
    assert (∀ d, om_minimum m' = Some d → d ≠ minimum ∨ digest ≠ d → om_conflict m' = true →
      om_conflict m' = negb (forallb (λ d, bool_decide (om_minimum m' = Some d)) (digests_of (records ++ [(digest, claim, stored)])))) as Hconf.
    { intros d Hd Hor ->. symmetry. apply negb_true_iff, not_true_iff_false. rewrite digests_of_snoc, forallb_snoc, andb_true_iff, forallb_forall.
      intros [Hall Hlast]. destruct Hor as [Hne|Hne].
      - specialize (Hall minimum). rewrite <-list_elem_of_In in Hall. specialize (Hall Hin). apply bool_decide_eq_true in Hall. congruence.
      - cbn in Hlast. apply bool_decide_eq_true in Hlast. congruence. }
    destruct (cmp digest minimum) eqn:Ecmp; destruct Hrest as (Hm' & Hc' & Hx').
    + apply cmp_eq in Ecmp as ->. split.
      * by rewrite Hm', digests_of_snoc, least_snoc, Hm; cbn; unfold is_less; rewrite cmp_refl.
      * done.
      * rewrite Hm', Hc', Hc. cbn. rewrite stored_under_snoc, String.eqb_refl, andb_true_r. by rewrite least_stored.
      * rewrite Hx', Hx, Hm', digests_of_snoc, forallb_snoc. cbn. by rewrite bool_decide_eq_true_2, andb_true_r.
    + assert (digest ≠ minimum) as Hne by (intros ->; by rewrite cmp_refl in Ecmp). split.
      * rewrite Hm', digests_of_snoc, least_snoc, Hm. cbn. unfold is_less. by rewrite Ecmp.
      * done.
      * rewrite Hm', Hc'. cbn. rewrite stored_under_snoc, String.eqb_refl, andb_true_r, stored_under_new; [by destruct stored|].
        intros Hd. apply (Hle digest Hd). apply cmp_gt. done.
      * by apply (Hconf digest); [|left|].
    + assert (digest ≠ minimum) as Hne by (intros ->; by rewrite cmp_refl in Ecmp). split.
      * rewrite Hm', digests_of_snoc, least_snoc, Hm. cbn. unfold is_less. by rewrite Ecmp.
      * done.
      * rewrite Hm', Hc', Hc. cbn. rewrite stored_under_snoc, (proj2 (String.eqb_neq digest minimum)), andb_false_r by done. by rewrite app_nil_r.
      * by apply (Hconf minimum); [|right|].
  - symmetry in Hm. apply least_None in Hm. assert (records = []) as -> by (by destruct records).
    destruct Hrest as (Hm' & Hc' & Hx'). cbn [app]. split.
    + by rewrite Hm'.
    + done.
    + rewrite Hm', Hc'. cbn. unfold stored_under, stored_of. destruct stored; cbn; [|done]. by rewrite String.eqb_refl.
    + rewrite Hx', Hx, Hm'. cbn. by rewrite bool_decide_eq_true_2.
Qed.

Lemma fold_reduced records : reduced records (foldl include metadata_default records).
Proof. induction records as [|x records IH] using rev_ind; [done|]. rewrite foldl_snoc. by apply include_reduced. Qed.

Lemma reduce_old records : reduce records = old_row records.
Proof.
  unfold reduce, metadata_row, old_row. destruct (fold_reduced records) as [Hm Hf Hc Hx]. rewrite Hf, Hx, Hc, Hm. clear.
  destruct (least (digests_of records)) as [digest|] eqn:Ed; [|by destruct (least (snd <$> stored_of records))].
  destruct (least (snd <$> stored_of records)) as [first|]; [|done]. cbn [mbind option_bind].
  f_equal. f_equal. assert (forallb (λ d, bool_decide (Some digest = Some d)) (digests_of records) = forallb (String.eqb digest) (digests_of records)) as ->.
  { clear. induction (digests_of records) as [|d l IH]; [done|]. cbn. rewrite IH. f_equal.
    destruct (String.eqb_spec digest d) as [->|]; [by rewrite bool_decide_eq_true_2|apply bool_decide_eq_false_2; congruence]. }
  by destruct (forallb _ _).
Qed.

Lemma forallb_same {A} (f : A → bool) l l' : (∀ x, x ∈ l ↔ x ∈ l') → forallb f l = forallb f l'.
Proof.
  intros Hl. apply Bool.eq_iff_eq_true. rewrite !forallb_forall. split; intros Hall x Hx; apply Hall, list_elem_of_In, Hl, list_elem_of_In; done.
Qed.

Lemma elem_of_stored_of records x : x ∈ stored_of records ↔ (x, true) ∈ records.
Proof.
  unfold stored_of. rewrite list_elem_of_fmap. setoid_rewrite list_elem_of_In. setoid_rewrite filter_In. split.
  - intros ([y []] & -> & Hin & Hs); [done|done].
  - intros Hin. by exists (x, true).
Qed.

(** The order in which records are read does not matter, nor whether one is read twice. *)
Lemma reduce_same records records' : (∀ x, x ∈ records ↔ x ∈ records') → reduce records = reduce records'.
Proof.
  intros Hr. rewrite !reduce_old. unfold old_row.
  assert (∀ x, x ∈ stored_of records ↔ x ∈ stored_of records') as Hs by (intros x; by rewrite !elem_of_stored_of).
  assert (∀ x, x ∈ digests_of records ↔ x ∈ digests_of records') as Hd.
  { intros x. unfold digests_of. rewrite !list_elem_of_fmap. by setoid_rewrite Hr. }
  rewrite (least_same _ _ Hd).
  rewrite (least_same (snd <$> stored_of records) (snd <$> stored_of records')); [|intros x; rewrite !list_elem_of_fmap; by setoid_rewrite Hs].
  destruct (least (digests_of records')) as [digest|]; [|done]. rewrite (forallb_same (String.eqb digest) _ _ Hd).
  rewrite (least_same (stored_under digest records) (stored_under digest records')); [done|]. intros x. unfold stored_under.
  rewrite !list_elem_of_fmap. setoid_rewrite list_elem_of_In. setoid_rewrite filter_In. setoid_rewrite <-list_elem_of_In. by setoid_rewrite Hs.
Qed.

(** ** The tables *)

Record OpTables := {
  ot_claims : gmap string ClaimRecord;
  ot_tombstones : gmap string ClaimTombstone;
  ot_repaired : gset string;
  ot_rows : gmap string operation_row
}.
Definition set_rows (rows : gmap string operation_row) (t : OpTables) : OpTables :=
  {| ot_claims := ot_claims t; ot_tombstones := ot_tombstones t; ot_repaired := ot_repaired t; ot_rows := rows |}.

(** What a stored claim says of its operation: [EXPECTED_OPERATIONS_QUERY]. *)
Definition stored_record (t : OpTables) (x : string * ClaimRecord) : option (string * (string * string * bool)) :=
  if bool_decide (x.1 ∈ ot_repaired t) then None
  else (λ o, (o.1, (o.2, x.1, true))) <$> operation_parts (cm_body x.2).
Definition stored_records (t : OpTables) : list (string * (string * string * bool)) := omap (stored_record t) (map_to_list (ot_claims t)).

(** And a dropped one: [CHECKPOINT_OPERATION_METADATA_QUERY]. *)
Definition still_stored (t : OpTables) (id : string) : bool :=
  match ot_claims t !! id with Some c => bool_decide (is_Some (stored_record t (id, c))) | None => false end.
Definition dropped_record (t : OpTables) (x : string * ClaimTombstone) : option (string * (string * string * bool)) :=
  if bool_decide (x.1 ∈ ot_repaired t) || still_stored t x.1 then None
  else match ct_operation_id x.2, ct_request_digest x.2 with
  | Some operation, Some digest => Some (operation, (digest, x.1, false))
  | _, _ => None
  end.
Definition dropped_records (t : OpTables) : list (string * (string * string * bool)) := omap (dropped_record t) (map_to_list (ot_tombstones t)).

Definition of_operation (operation : string) (l : list (string * (string * string * bool))) : list (string * string * bool) :=
  snd <$> List.filter (λ x, String.eqb x.1 operation) l.

(** [expected_operations] *)
Definition include_entry (g : gmap string OperationMetadata) (x : string * (string * string * bool)) : gmap string OperationMetadata :=
  <[x.1 := include (default metadata_default (g !! x.1)) x.2]> g.
Definition include_present (g : gmap string OperationMetadata) (x : string * (string * string * bool)) : gmap string OperationMetadata :=
  match g !! x.1 with Some m => <[x.1 := include m x.2]> g | None => g end.
Definition expected_operations (t : OpTables) : gmap string operation_row :=
  omap metadata_row (foldl include_present (foldl include_entry ∅ (stored_records t)) (dropped_records t)).

(** [expected_operation], through the operation indexes. *)
Definition expected_operation (t : OpTables) (operation : string) : option operation_row :=
  metadata_row (foldl include (foldl include metadata_default (of_operation operation (stored_records t))) (of_operation operation (dropped_records t))).

Lemma of_operation_snoc operation l x :
  of_operation operation (l ++ [x]) = (of_operation operation l ++ if String.eqb x.1 operation then [x.2] else [])%list.
Proof. unfold of_operation. rewrite List.filter_app, fmap_app. cbn. by destruct (String.eqb x.1 operation). Qed.

Lemma include_entries_lookup l operation :
  foldl include_entry ∅ l !! operation =
    if bool_decide (of_operation operation l = []) then None else Some (foldl include metadata_default (of_operation operation l)).
Proof.
  induction l as [|x l IH] using rev_ind; [done|]. rewrite foldl_snoc, of_operation_snoc. unfold include_entry at 1.
  destruct (String.eqb_spec x.1 operation) as [<-|Hne].
  - rewrite lookup_insert_eq, IH, foldl_snoc. rewrite (bool_decide_eq_false_2 ((of_operation x.1 l ++ [x.2])%list = [])) by (by destruct (of_operation x.1 l)).
    case_bool_decide as Hnil; [|done]. by rewrite Hnil.
  - by rewrite lookup_insert_ne, IH, app_nil_r.
Qed.

Lemma include_present_lookup g l operation :
  foldl include_present g l !! operation = (λ m, foldl include m (of_operation operation l)) <$> g !! operation.
Proof.
  induction l as [|x l IH] using rev_ind; [symmetry; apply option_fmap_id|]. rewrite foldl_snoc, of_operation_snoc. unfold include_present at 1.
  destruct (String.eqb_spec x.1 operation) as [<-|Hne].
  - rewrite IH. destruct (g !! x.1); cbn; [|done]. by rewrite lookup_insert_eq, foldl_snoc.
  - rewrite app_nil_r. destruct (foldl include_present g l !! x.1); [by rewrite lookup_insert_ne|done].
Qed.

(** Tombstones alone give no row. *)
Lemma dropped_only l : Forall (λ x : string * string * bool, x.2 = false) l → reduce l = None.
Proof.
  intros Hl. rewrite reduce_old. unfold old_row. assert (stored_of l = []) as ->; [|by destruct (least (digests_of l))].
  induction Hl as [|[[d c] []] l Hx Hl IH]; [done|done|]. exact IH.
Qed.

Lemma dropped_records_false t operation : Forall (λ x : string * string * bool, x.2 = false) (of_operation operation (dropped_records t)).
Proof.
  apply Forall_forall. intros x Hx. unfold of_operation in Hx. apply list_elem_of_fmap in Hx as ([op y] & -> & Hin).
  apply list_elem_of_In, filter_In in Hin as [Hin _]. apply list_elem_of_In in Hin. unfold dropped_records in Hin.
  apply list_elem_of_omap in Hin as ([id tomb] & _ & Hd). revert Hd. unfold dropped_record. case_match; [done|].
  cbn [snd]. destruct (ct_operation_id tomb), (ct_request_digest tomb); [|done..]. by intros [= <- <-].
Qed.

Lemma expected_reduce t operation :
  expected_operation t operation = reduce (of_operation operation (stored_records t) ++ of_operation operation (dropped_records t)).
Proof. unfold expected_operation, reduce. by rewrite foldl_app. Qed.

Lemma expected_operations_lookup t operation : expected_operations t !! operation = expected_operation t operation.
Proof.
  unfold expected_operations. rewrite lookup_omap, include_present_lookup, include_entries_lookup. rewrite expected_reduce.
  case_bool_decide as Hnil; [|cbn; unfold reduce; by rewrite foldl_app]. rewrite Hnil. cbn. symmetry. apply dropped_only, dropped_records_false.
Qed.

(** ** Operations on the tables *)

(** [checkpoint::checkpointed_operation], by digest and claim. *)
Definition dropped_of (t : OpTables) (operation : string) (x : string * ClaimTombstone) : option (string * string) :=
  if bool_decide (x.1 ∈ ot_repaired t) then None
  else match ct_operation_id x.2, ct_request_digest x.2 with
  | Some o, Some digest => if String.eqb o operation then Some (digest, x.1) else None
  | _, _ => None
  end.
Definition checkpointed_operation (t : OpTables) (operation : string) : list (string * string) :=
  bset_of_list (omap (dropped_of t operation) (map_to_list (ot_tombstones t))).

Definition operation_tx (t : OpTables) (operation : string) : option operation_row := ot_rows t !! operation.

(** The refusals of an idempotent write, by their codes. *)
Inductive WriteRefusal :=
| IdempotencyConflict
| IdempotencyMismatch (stored_digest : string)
| ClaimCheckpointed (claim_id : string).

(** [checkpointed_operation_outcome] *)
Definition checkpointed_operation_outcome (t : OpTables) (operation request_digest : string) : result unit WriteRefusal :=
  match checkpointed_operation t operation with
  | [] => Ok tt
  | (stored_digest, claim_id) :: _ as dropped =>
      if existsb (λ x, negb (String.eqb x.1 stored_digest)) dropped then Err IdempotencyConflict
      else if negb (String.eqb stored_digest request_digest) then Err (IdempotencyMismatch stored_digest)
      else Err (ClaimCheckpointed claim_id)
  end.

(** [repair_operations_tx], and how many rows it changed. *)
Definition repair_operation (a : OpTables * nat) (operation : string) : OpTables * nat :=
  let '(t, changed) := a in
  match expected_operation t operation with
  | Some r => if bool_decide (ot_rows t !! operation = Some r) then (t, changed) else (set_rows (<[operation := r]> (ot_rows t)) t, S changed)
  | None => match ot_rows t !! operation with
            | Some _ => (set_rows (delete operation (ot_rows t)) t, S changed)
            | None => (t, changed)
            end
  end.
Definition repair_operations_tx (t : OpTables) (operations : list string) : OpTables * nat := foldl repair_operation (t, 0) operations.

(** [register_operation_tx], after the claim was stored. *)
Definition register_operation_tx (t : OpTables) (id : string) (body : Value) : OpTables * bool :=
  match operation_parts body with
  | None => (t, true)
  | Some (operation, request_digest) =>
      match operation_tx t operation with
      | None =>
          let dropped := checkpointed_operation t operation in
          let conflict := existsb (λ x, negb (String.eqb x.1 request_digest)) dropped in
          let stored_digest := match dropped with
            | (digest, _) :: _ => if is_less digest request_digest then digest else request_digest
            | [] => request_digest
            end in
          (set_rows (<[operation := (stored_digest, id, if conflict then "conflict" else "active")]> (ot_rows t)) t,
           bool_decide (dropped = []))
      | Some (stored_digest, canonical, state) =>
          if String.eqb stored_digest request_digest then
            (if is_less id canonical then set_rows (<[operation := (stored_digest, id, state)]> (ot_rows t)) t else t,
             String.eqb state "active" && String.eqb canonical id)
          else (set_rows (<[operation := (stored_digest, canonical, "conflict")]> (ot_rows t)) t, false)
      end
  end.

Definition store_op_claim (c : ClaimRecord) (t : OpTables) : OpTables :=
  {| ot_claims := <[cm_id c := c]> (ot_claims t); ot_tombstones := ot_tombstones t; ot_repaired := ot_repaired t; ot_rows := ot_rows t |}.

(** [append_claim] of ivm/runtime.rs: the claim written, or the one the key stands for. *)
Definition append_claim (t : OpTables) (operation : option (string * string)) (c : ClaimRecord) : result (OpTables * string * bool) WriteRefusal :=
  let write := Ok ((register_operation_tx (store_op_claim c t) (cm_id c) (cm_body c)).1, cm_id c, true) in
  match operation with
  | None => Ok (store_op_claim c t, cm_id c, true)
  | Some (operation, request_digest) =>
      match operation_tx t operation with
      | Some (stored_digest, canonical, state) =>
          if String.eqb state "conflict" then Err IdempotencyConflict
          else if negb (String.eqb stored_digest request_digest) then Err (IdempotencyMismatch stored_digest)
          else Ok (t, canonical, false)
      | None => let? _ := checkpointed_operation_outcome t operation request_digest in write
      end
  end.

(** The body [append_claim] gives a claim with an operation. *)
Definition operation_body (fields evidence : Value) (operation : option (string * string)) : Value :=
  Object ([("fields", fields); ("evidence", evidence)] ++
          match operation with
          | Some (id, digest) => [("_operation", Object [("id", VString id); ("request_digest", VString digest)])]
          | None => []
          end).

(** ** The rows are exact *)

Definition rows_exact (t : OpTables) : Prop := ∀ operation, ot_rows t !! operation = expected_operation t operation.

(** A claim and its tombstone carry the same operation. *)
Definition tombstones_agree (t : OpTables) : Prop :=
  ∀ id c tomb, ot_claims t !! id = Some c → ot_tombstones t !! id = Some tomb →
    operation_parts (cm_body c) = (o ← ct_operation_id tomb; d ← ct_request_digest tomb; Some (o, d)).

(** The records of an operation, as a set. *)
Definition op_records (t : OpTables) (operation : string) : list (string * string * bool) :=
  (of_operation operation (stored_records t) ++ of_operation operation (dropped_records t))%list.

Lemma elem_of_of_operation operation l x : x ∈ of_operation operation l ↔ (operation, x) ∈ l.
Proof.
  unfold of_operation. rewrite list_elem_of_fmap. setoid_rewrite list_elem_of_In. setoid_rewrite filter_In. split.
  - intros ([o y] & -> & Hin & Ho%String.eqb_eq). cbn in Ho. by subst.
  - intros Hin. exists (operation, x). cbn. by rewrite String.eqb_refl.
Qed.

Lemma elem_of_stored t operation d id b :
  (d, id, b) ∈ of_operation operation (stored_records t) ↔
  b = true ∧ id ∉ ot_repaired t ∧ ∃ c, ot_claims t !! id = Some c ∧ operation_parts (cm_body c) = Some (operation, d).
Proof.
  rewrite elem_of_of_operation. unfold stored_records. rewrite list_elem_of_omap. split.
  - intros ([id' c] & Hin & Hr). apply elem_of_map_to_list in Hin. revert Hr. unfold stored_record. cbn [fst snd].
    case_bool_decide as Hn; [done|]. destruct (operation_parts (cm_body c)) as [[o d']|] eqn:Ep; [|done]. intros [= <- <- <- <-]. eauto.
  - intros (-> & Hn & c & Hc & Hp). exists (id, c). split; [by apply elem_of_map_to_list|]. unfold stored_record. cbn [fst snd].
    by rewrite bool_decide_eq_false_2, Hp.
Qed.

Lemma still_stored_spec t id :
  still_stored t id = true ↔ id ∉ ot_repaired t ∧ ∃ c, ot_claims t !! id = Some c ∧ is_Some (operation_parts (cm_body c)).
Proof.
  unfold still_stored. destruct (ot_claims t !! id) as [c|]; [|split; [done|intros (_ & c & [=] & _)]].
  rewrite bool_decide_eq_true. unfold stored_record. cbn [fst snd]. case_bool_decide as Hn; [split; [by intros [? ?]|by intros [? _]]|].
  rewrite fmap_is_Some. split; [eauto|by intros (_ & c' & [= <-] & ?)].
Qed.

Lemma elem_of_dropped t operation d id b :
  (d, id, b) ∈ of_operation operation (dropped_records t) ↔
  b = false ∧ id ∉ ot_repaired t ∧ still_stored t id = false ∧
  ∃ tomb, ot_tombstones t !! id = Some tomb ∧ ct_operation_id tomb = Some operation ∧ ct_request_digest tomb = Some d.
Proof.
  rewrite elem_of_of_operation. unfold dropped_records. rewrite list_elem_of_omap. split.
  - intros ([id' tomb] & Hin & Hr). apply elem_of_map_to_list in Hin. revert Hr. unfold dropped_record. cbn [fst snd].
    destruct (bool_decide_reflect (id' ∈ ot_repaired t)); cbn [orb]; [done|]. destruct (still_stored t id') eqn:Es; [done|].
    destruct (ct_operation_id tomb) eqn:Eo, (ct_request_digest tomb) eqn:Ed; [|done..]. intros [= <- <- <- <-]. split_and!; [done..|]. eauto.
  - intros (-> & Hn & Hs & tomb & Ht & Ho & Hd). exists (id, tomb). split; [by apply elem_of_map_to_list|]. unfold dropped_record. cbn [fst snd].
    by rewrite bool_decide_eq_false_2, Hs, Ho, Hd.
Qed.

Lemma elem_of_checkpointed t operation d id :
  (d, id) ∈ checkpointed_operation t operation ↔
  id ∉ ot_repaired t ∧ ∃ tomb, ot_tombstones t !! id = Some tomb ∧ ct_operation_id tomb = Some operation ∧ ct_request_digest tomb = Some d.
Proof.
  unfold checkpointed_operation. rewrite elem_of_bset_of_list, list_elem_of_omap. split.
  - intros ([id' tomb] & Hin & Hr). apply elem_of_map_to_list in Hin. revert Hr. unfold dropped_of. cbn [fst snd].
    case_bool_decide as Hn; [done|]. destruct (ct_operation_id tomb) eqn:Eo, (ct_request_digest tomb) eqn:Ed; [|done..].
    destruct (String.eqb_spec s operation) as [->|]; [|done]. intros [= <- <-]. eauto.
  - intros (Hn & tomb & Ht & Ho & Hd). exists (id, tomb). split; [by apply elem_of_map_to_list|]. unfold dropped_of. cbn [fst snd].
    by rewrite bool_decide_eq_false_2, Ho, Hd, String.eqb_refl.
Qed.

Lemma expected_same t t' operation :
  (∀ x, x ∈ op_records t operation ↔ x ∈ op_records t' operation) → expected_operation t operation = expected_operation t' operation.
Proof. intros Hr. rewrite !expected_reduce. by apply reduce_same. Qed.

(** No row, no stored claim. *)
Lemma expected_None t operation : expected_operation t operation = None ↔ of_operation operation (stored_records t) = [].
Proof.
  rewrite expected_reduce. split.
  - rewrite reduce_old. unfold old_row. intros Hnone. destruct (of_operation operation (stored_records t)) as [|[[d id] b] l] eqn:E; [done|].
    assert (b = true) as -> by (apply (elem_of_stored t operation d id); rewrite E; set_solver).
    destruct (least (digests_of _)) as [digest|] eqn:Ed; [|by apply least_None in Ed].
    by destruct (least (snd <$> _)) as [first|] eqn:Ef; [|apply least_None in Ef].
  - intros ->. apply dropped_only, dropped_records_false.
Qed.

(** A new claim of an operation is one more record of it. *)
Lemma store_records t c operation digest operation' :
  ot_claims t !! cm_id c = None → ot_tombstones t !! cm_id c = None → cm_id c ∉ ot_repaired t →
  operation_parts (cm_body c) = Some (operation, digest) →
  ∀ x, x ∈ op_records (store_op_claim c t) operation' ↔ x ∈ op_records t operation' ∨ operation' = operation ∧ x = (digest, cm_id c, true).
Proof.
  intros Hc Ht Hn Hp [[d id] b]. unfold op_records. rewrite !elem_of_app, !elem_of_stored, !elem_of_dropped. cbn [ot_claims ot_tombstones ot_repaired store_op_claim].
  assert (∀ id', id' ≠ cm_id c → still_stored (store_op_claim c t) id' = still_stored t id') as Hstill.
  { intros id' Hne. unfold still_stored, stored_record. cbn [ot_claims store_op_claim]. by rewrite lookup_insert_ne. }
  destruct (decide (id = cm_id c)) as [->|Hne].
  - rewrite lookup_insert_eq, Hc, Ht. split.
    + intros [(-> & _ & c' & [= <-] & Hp')|(_ & _ & _ & tomb & [=] & _)]. right. rewrite Hp in Hp'. by injection Hp' as -> ->.
    + intros [[(_ & _ & c' & [=] & _)|(_ & _ & _ & tomb & [=] & _)]|(-> & [= -> ->])]. left. split_and!; [done..|]. eauto.
  - rewrite lookup_insert_ne, Hstill by done. split; [by left|]. intros [|(_ & [= _ ? _])]; done.
Qed.

(** What the metadata of an active operation is. *)
Lemma active_metadata records digest canonical :
  reduce records = Some (digest, canonical, "active") →
  foldl include metadata_default records =
    {| om_minimum := Some digest; om_canonical := Some canonical; om_fallback := Some canonical; om_conflict := false |}.
Proof.
  unfold reduce, metadata_row. destruct (fold_reduced records) as [Hm Hf Hc Hx]. set (m := foldl include metadata_default records) in *. clearbody m.
  destruct (om_fallback m) as [fallback|] eqn:Ef; [|done]. destruct (om_minimum m) as [minimum|] eqn:Em; [|done].
  destruct (om_conflict m) eqn:Ex; [done|]. intros [= <- <-]. symmetry in Hx. apply negb_false_iff in Hx.
  assert (stored_under minimum records = snd <$> stored_of records) as Hall.
  { unfold stored_under. f_equal. apply forallb_filter_id, forallb_forall. intros x Hin%list_elem_of_In%elem_of_stored_of. apply String.eqb_eq.
    rewrite forallb_forall in Hx. specialize (Hx x.1). rewrite bool_decide_eq_true in Hx.
    assert (Some minimum = Some x.1) as [= <-]; [|done]. apply Hx, list_elem_of_In. unfold digests_of. apply list_elem_of_fmap. by exists (x, true). }
  cbn [mbind option_bind] in Hc. rewrite Hall, <-Hf in Hc. destruct m. cbn in *. by subst.
Qed.

Lemma set_rows_expected rows t operation : expected_operation (set_rows rows t) operation = expected_operation t operation.
Proof. done. Qed.

Lemma stored_of_dropped (l : list (string * string)) : stored_of ((λ x, (x, false)) <$> l) = [].
Proof. induction l as [|x l IH]; [done|]. exact IH. Qed.

Lemma agreeing_digests (dropped : list (string * string)) digest digest' :
  digest' = digest ∨ digest' ∈ dropped.*1 →
  forallb (String.eqb digest') (digests_of ((λ x, (x, false)) <$> dropped)) && String.eqb digest' digest =
  negb (existsb (λ x, negb (String.eqb x.1 digest)) dropped).
Proof.
  intros Hd. apply Bool.eq_iff_eq_true. rewrite andb_true_iff, forallb_forall, negb_true_iff, String.eqb_eq, <-not_true_iff_false, existsb_exists.
  assert (∀ x, In x (digests_of ((λ x, (x, false)) <$> dropped)) ↔ x ∈ dropped.*1) as Hin.
  { intros x. rewrite <-list_elem_of_In. unfold digests_of. by rewrite <-list_fmap_compose. }
  split.
  - intros [Hall ->] (x & Hx & Hne%negb_true_iff%String.eqb_neq). apply Hne. symmetry. apply String.eqb_eq, Hall, Hin, list_elem_of_fmap.
    exists x. by rewrite list_elem_of_In.
  - intros Hno. assert (∀ d, d ∈ dropped.*1 → d = digest) as Hsame.
    { intros d (x & -> & Hx%list_elem_of_In)%list_elem_of_fmap. destruct (String.eqb_spec x.1 digest) as [|Hne]; [done|]. exfalso. apply Hno. exists x.
      split; [done|]. by apply negb_true_iff, String.eqb_neq. }
    assert (digest' = digest) as -> by (destruct Hd; auto). split; [|done]. intros x Hx%Hin. apply String.eqb_eq. symmetry. auto.
Qed.

(** An operation whose claims are all dropped, and its first stored claim. *)
Lemma fresh_row t c operation digest :
  tombstones_agree t → ot_claims t !! cm_id c = None → ot_tombstones t !! cm_id c = None → cm_id c ∉ ot_repaired t →
  operation_parts (cm_body c) = Some (operation, digest) → expected_operation t operation = None →
  let dropped := checkpointed_operation t operation in
  expected_operation (store_op_claim c t) operation =
    Some (match dropped with (d, _) :: _ => if is_less d digest then d else digest | [] => digest end, cm_id c,
          if existsb (λ x, negb (String.eqb x.1 digest)) dropped then "conflict" else "active").
Proof.
  intros Hagree Hc Ht Hn Hp Hnone dropped. apply expected_None in Hnone.
  assert (expected_operation (store_op_claim c t) operation = reduce (((λ x, (x, false)) <$> dropped) ++ [(digest, cm_id c, true)])) as ->.
  { rewrite expected_reduce. apply reduce_same. intros [[d id] b]. fold (op_records (store_op_claim c t) operation).
    rewrite (store_records t c operation digest operation Hc Ht Hn Hp), elem_of_app, list_elem_of_singleton. unfold op_records. rewrite Hnone.
    cbn [app]. rewrite elem_of_dropped, list_elem_of_fmap. split.
    - intros [(-> & Hr & _ & tomb & Htomb)|[_ ->]]; [left|by right]. exists (d, id). split; [done|]. apply elem_of_checkpointed. eauto.
    - intros [([d' id'] & [= -> -> ->] & (Hr & tomb & Htomb & Ho & Hd)%elem_of_checkpointed)| ->]; [left|by right]. split_and!; [done|done| |eauto].
      apply not_true_iff_false. intros (_ & c' & Hc' & [p Hp'])%still_stored_spec. pose proof (Hagree id' c' tomb Hc' Htomb) as Ha.
      rewrite Ho, Hd in Ha. cbn in Ha. assert ((d', id', true) ∈ of_operation operation (stored_records t)) as Hin by (apply elem_of_stored; eauto 6).
      rewrite Hnone in Hin. by apply elem_of_nil in Hin. }
  rewrite reduce_old. unfold old_row. rewrite digests_of_snoc, least_snoc, stored_of_snoc.
  rewrite stored_of_dropped.
  cbn [app fmap list_fmap least min_by foldl snd fst].
  set (digest' := match least (digests_of _) with Some best => _ | None => digest end).
  assert (digest' = match dropped with (d, _) :: _ => if is_less d digest then d else digest | [] => digest end) as Hd'.
  { subst digest'. assert (least (digests_of ((λ x, (x, false)) <$> dropped)) = fst <$> head dropped) as ->.
    { unfold digests_of. rewrite <-list_fmap_compose. change ((λ x : string * string * bool, x.1.1) ∘ (λ x : string * string, (x, false))) with (fst : string * string → string).
      pose proof (bset_of_list_wf (omap (dropped_of t operation) (map_to_list (ot_tombstones t)))) as Hwf. fold (checkpointed_operation t operation) in Hwf. fold dropped in Hwf.
      destruct dropped as [|[d0 i0] l]; [done|]. cbn [fmap list_fmap head option_fmap option_map fst].
      destruct (least _) as [x|] eqn:E; [|by apply least_None in E]. f_equal. apply least_spec in E as [Hin Hle].
      specialize (Hle d0 (list_elem_of_here _ _)). apply elem_of_cons in Hin as [->|Hin]; [done|].
      apply list_elem_of_fmap in Hin as ([d1 i1] & -> & Hin). apply StronglySorted_inv in Hwf as [_ Hall].
      rewrite Forall_forall in Hall. specialize (Hall _ Hin). unfold lt_ord in Hall. cbn in Hall, Hle |- *.
      change (cmp (d0, i0) (d1, i1)) with (then_with (cmp d0 d1) (cmp i0 i1)) in Hall.
      destruct (cmp d0 d1) eqn:Ec; cbn in Hall; [by apply cmp_eq in Ec|exfalso; apply Hle; by apply cmp_gt|done]. }
    destruct dropped as [|[d0 i0] l]; cbn; [done|]. unfold is_less. rewrite (cmp_opp digest d0).
    destruct (cmp digest d0) eqn:Ec; cbn; [by apply cmp_eq in Ec|done|done]. }
  rewrite <-Hd'. f_equal. f_equal; [f_equal|].
  - rewrite stored_under_snoc. cbn [andb]. unfold stored_under. rewrite stored_of_dropped. cbn. by destruct (String.eqb digest digest').
  - rewrite forallb_snoc. cbn [fst]. rewrite (agreeing_digests dropped digest digest'); [by destruct (existsb _ _)|].
    rewrite Hd'. destruct dropped as [|[d0 i0] l]; [by left|]. case_match; [right; set_solver|by left].
Qed.

(** The claim is new here, and no checkpoint dropped it. *)
Definition fresh_claim (t : OpTables) (c : ClaimRecord) : Prop :=
  ot_claims t !! cm_id c = None ∧ ot_tombstones t !! cm_id c = None ∧ cm_id c ∉ ot_repaired t.

(** The writers' guard: no row yet, or an active one of the same request. *)
Definition may_register (t : OpTables) (c : ClaimRecord) : Prop :=
  ∀ operation digest, operation_parts (cm_body c) = Some (operation, digest) →
    operation_tx t operation = None ∨ ∃ canonical, operation_tx t operation = Some (digest, canonical, "active").

Lemma store_other t c operation' :
  fresh_claim t c → (∀ digest, operation_parts (cm_body c) ≠ Some (operation', digest)) →
  expected_operation (store_op_claim c t) operation' = expected_operation t operation'.
Proof.
  intros (Hc & Ht & Hn) Hne. apply expected_same. intros x. destruct (operation_parts (cm_body c)) as [[operation digest]|] eqn:Hp.
  - rewrite (store_records t c operation digest operation' Hc Ht Hn Hp). split; [|by left]. intros [|[-> _]]; [done|]. by destruct (Hne digest).
  - destruct x as [[d id] b]. unfold op_records. rewrite !elem_of_app, !elem_of_stored, !elem_of_dropped.
    cbn [ot_claims ot_tombstones ot_repaired store_op_claim]. destruct (decide (id = cm_id c)) as [->|Hid].
    + rewrite lookup_insert_eq, Hc, Ht. split.
      * intros [(_ & _ & c' & [= <-] & Hp')|(_ & _ & _ & tomb & [=] & _)]. congruence.
      * intros [(_ & _ & c' & [=] & _)|(_ & _ & _ & tomb & [=] & _)].
    + assert (still_stored (store_op_claim c t) id = still_stored t id) as ->.
      { unfold still_stored, stored_record. cbn [ot_claims store_op_claim]. by rewrite lookup_insert_ne. }
      by rewrite lookup_insert_ne.
Qed.

Lemma register_exact t c :
  rows_exact t → tombstones_agree t → fresh_claim t c → may_register t c →
  rows_exact (register_operation_tx (store_op_claim c t) (cm_id c) (cm_body c)).1.
Proof.
  intros Hex Hagree Hfresh Hmay. unfold register_operation_tx. destruct (operation_parts (cm_body c)) as [[operation digest]|] eqn:Hp.
  2: { intros operation'. cbn [fst]. rewrite store_other; [apply Hex|done|]. intros digest. by rewrite Hp. }
  assert (∀ row operation', operation' ≠ operation →
    <[operation := row]> (ot_rows t) !! operation' = expected_operation (store_op_claim c t) operation') as Hother.
  { intros row operation' Hne. rewrite lookup_insert_ne, store_other; [apply Hex|done| |done]. intros digest'. rewrite Hp. congruence. }
  destruct Hfresh as (Hc & Ht & Hn). unfold operation_tx. cbn [ot_rows store_op_claim].
  destruct (Hmay operation digest Hp) as [Hrow|[canonical Hrow]]; unfold operation_tx in Hrow; rewrite Hrow; cbn [fst].
  - intros operation'. cbn [ot_rows set_rows store_op_claim]. rewrite set_rows_expected.
    destruct (decide (operation' = operation)) as [->|Hne]; [|by apply Hother]. rewrite lookup_insert_eq. symmetry.
    apply (fresh_row t c operation digest Hagree Hc Ht Hn Hp). by rewrite <-Hex.
  - rewrite String.eqb_refl. assert (expected_operation (store_op_claim c t) operation =
      Some (digest, if is_less (cm_id c) canonical then cm_id c else canonical, "active")) as Hnew.
    { rewrite Hex, expected_reduce in Hrow. pose proof (active_metadata _ _ _ Hrow) as Hmeta.
      transitivity (reduce (op_records t operation ++ [(digest, cm_id c, true)])).
      - rewrite expected_reduce. apply reduce_same. intros x. fold (op_records (store_op_claim c t) operation).
        rewrite (store_records t c operation digest operation Hc Ht Hn Hp), elem_of_app, list_elem_of_singleton. naive_solver.
      - unfold reduce, op_records. rewrite foldl_snoc, Hmeta. unfold include, metadata_row. cbn. rewrite cmp_refl. cbn. by destruct (is_less (cm_id c) canonical). }
    cbn [fst]. destruct (is_less (cm_id c) canonical) eqn:El.
    + intros operation'. cbn [ot_rows set_rows store_op_claim]. rewrite set_rows_expected.
      destruct (decide (operation' = operation)) as [->|Hne]; [|by apply Hother]. by rewrite lookup_insert_eq, Hnew.
    + intros operation'. cbn [ot_rows store_op_claim]. destruct (decide (operation' = operation)) as [->|Hne]; [by rewrite Hrow, Hnew|].
      rewrite <-(Hother (digest, canonical, "active") operation' Hne). by rewrite lookup_insert_ne.
Qed.

(** ** Repair and rebuild *)

Lemma repair_operation_spec t changed operation :
  let a := repair_operation (t, changed) operation in
  ot_claims a.1 = ot_claims t ∧ ot_tombstones a.1 = ot_tombstones t ∧ ot_repaired a.1 = ot_repaired t ∧
  (∀ operation', ot_rows a.1 !! operation' = if bool_decide (operation' = operation) then expected_operation t operation else ot_rows t !! operation') ∧
  a.2 = changed + (if bool_decide (ot_rows t !! operation = expected_operation t operation) then 0 else 1).
Proof.
  cbn zeta. unfold repair_operation. destruct (expected_operation t operation) as [r|] eqn:E.
  - case_bool_decide as Hr; cbn [fst snd ot_claims ot_tombstones ot_repaired ot_rows set_rows]; (split_and!; [done..| |lia]); intros operation';
      case_bool_decide as Ho; subst; try done; [by rewrite lookup_insert_eq|by rewrite lookup_insert_ne].
  - destruct (ot_rows t !! operation) eqn:Er; cbn [fst snd ot_claims ot_tombstones ot_repaired ot_rows set_rows].
    + split_and!; [done..| |rewrite bool_decide_eq_false_2 by done; lia]. intros operation'.
      case_bool_decide as Ho; subst; [by rewrite lookup_delete_eq|by rewrite lookup_delete_ne].
    + split_and!; [done..| |rewrite bool_decide_eq_true_2 by done; lia]. intros operation'. case_bool_decide; by subst.
Qed.

(** [expected_operation] reads no rows. *)
Lemma expected_ext t t' operation :
  ot_claims t' = ot_claims t → ot_tombstones t' = ot_tombstones t → ot_repaired t' = ot_repaired t →
  expected_operation t' operation = expected_operation t operation.
Proof. destruct t, t'. cbn. by intros -> -> ->. Qed.

Lemma repair_spec operations a :
  let a' := foldl repair_operation a operations in
  ot_claims a'.1 = ot_claims a.1 ∧ ot_tombstones a'.1 = ot_tombstones a.1 ∧ ot_repaired a'.1 = ot_repaired a.1 ∧
  (∀ operation, ot_rows a'.1 !! operation = if bool_decide (operation ∈ operations) then expected_operation a.1 operation else ot_rows a.1 !! operation).
Proof.
  revert a. induction operations as [|o operations IH]; intros [t changed]; cbn zeta; cbn [foldl]; [by split_and!|].
  destruct (repair_operation_spec t changed o) as (Hc & Ht & Hr & Hrows & _).
  destruct (IH (repair_operation (t, changed) o)) as (Hc' & Ht' & Hr' & Hrows'). cbn [fst] in *.
  split_and!; [congruence..|]. intros operation. rewrite Hrows', Hrows, (expected_ext t) by done.
  destruct (decide (operation = o)) as [->|Hne]; [rewrite (bool_decide_eq_true_2 (o ∈ o :: operations)) by set_solver; by repeat case_bool_decide|].
  rewrite (bool_decide_eq_false_2 (operation = o)) by done.
  by rewrite (bool_decide_ext (operation ∈ operations) (operation ∈ o :: operations)) by set_solver.
Qed.

(** A column as it is stored: text, or damaged. *)
Inductive ColumnValue := SqlText (text : string) | SqlOther.
Record RawRow := {
  rw_rowid : Z;
  rw_id : ColumnValue;
  rw_request_digest : ColumnValue;
  rw_canonical_claim_id : ColumnValue;
  rw_state : ColumnValue;
  rw_cached : bool
}.
Definition text_is (v : ColumnValue) (text : string) : bool := match v with SqlText t => String.eqb t text | SqlOther => false end.

(** The row is the canonical one, and so is its logical copy. *)
Definition correct_row (expected : gmap string operation_row) (r : RawRow) : option string :=
  match rw_id r with
  | SqlText id =>
      match expected !! id with
      | Some (digest, claim, state) =>
          if text_is (rw_request_digest r) digest && text_is (rw_canonical_claim_id r) claim && text_is (rw_state r) state && rw_cached r
          then Some id else None
      | None => None
      end
  | SqlOther => None
  end.

(** The rows that are missing, and the ones to remove. *)
Fixpoint discover (expected : gmap string operation_row) (rows : list RawRow) : gmap string operation_row * list Z :=
  match rows with
  | [] => (expected, [])
  | r :: rows =>
      match correct_row expected r with
      | Some id => discover (delete id expected) rows
      | None => let '(missing, obsolete) := discover expected rows in (missing, rw_rowid r :: obsolete)
      end
  end.

Definition max_rowid (rows : list RawRow) : Z := foldr (λ r acc, Z.max (rw_rowid r) acc) 0%Z rows.
Definition insert_operation_row (rows : list RawRow) (x : string * operation_row) : list RawRow :=
  let '(id, (digest, claim, state)) := x in
  (rows ++ [{| rw_rowid := max_rowid rows + 1; rw_id := SqlText id; rw_request_digest := SqlText digest; rw_canonical_claim_id := SqlText claim;
               rw_state := SqlText state; rw_cached := true |}])%list.

(** [rebuild_operations_tx] *)
Definition rebuild_operations_tx (t : OpTables) (rows : list RawRow) : list RawRow :=
  let '(missing, obsolete) := discover (expected_operations t) rows in
  foldl insert_operation_row (List.filter (λ r, negb (bool_decide (rw_rowid r ∈ obsolete))) rows) (sort_on fst (map_to_list missing)).

(** What a row says, when it says anything. *)
Definition read_row (r : RawRow) : option (string * operation_row) :=
  match rw_id r, rw_request_digest r, rw_canonical_claim_id r, rw_state r with
  | SqlText id, SqlText digest, SqlText claim, SqlText state => Some (id, (digest, claim, state))
  | _, _, _, _ => None
  end.

Lemma correct_row_spec expected r id :
  correct_row expected r = Some id → ∃ row, expected !! id = Some row ∧ read_row r = Some (id, row).
Proof.
  unfold correct_row, read_row. destruct (rw_id r) as [id'|]; [|done]. destruct (expected !! id') as [[[digest claim] state]|] eqn:E; [|done].
  destruct (rw_request_digest r) as [d|], (rw_canonical_claim_id r) as [c|], (rw_state r) as [s|]; cbn [text_is andb];
    rewrite ?andb_false_r; try done.
  destruct (String.eqb_spec d digest) as [->|]; [|done]. destruct (String.eqb_spec c claim) as [->|]; [|done].
  destruct (String.eqb_spec s state) as [->|]; [|done]. cbn [andb]. destruct (rw_cached r); [|done]. intros [= <-]. eauto.
Qed.

Lemma discover_spec rows expected missing obsolete :
  NoDup (rw_rowid <$> rows) → discover expected rows = (missing, obsolete) →
  (∀ x, x ∈ obsolete → x ∈ rw_rowid <$> rows) ∧
  (read_row <$> List.filter (λ r, negb (bool_decide (rw_rowid r ∈ obsolete))) rows) ++ (Some <$> map_to_list missing) ≡ₚ Some <$> map_to_list expected.
Proof.
  revert expected missing obsolete. induction rows as [|r rows IH]; intros expected missing obsolete Hnd; cbn [discover].
  - intros [= <- <-]. split; [set_solver|done].
  - cbn [fmap list_fmap] in Hnd. apply NoDup_cons in Hnd as [Hr Hnd]. destruct (correct_row expected r) as [id|] eqn:E.
    + intros Hd. destruct (IH _ _ _ Hnd Hd) as [Hsub Hperm]. split; [set_solver|]. cbn [List.filter].
      rewrite bool_decide_eq_false_2 by (intros Hin; apply Hr; auto). cbn [negb fmap list_fmap app].
      apply correct_row_spec in E as (row & He & ->). rewrite Hperm. rewrite <-(map_to_list_delete expected id row He). done.
    + destruct (discover expected rows) as [missing' obsolete'] eqn:Ed. intros [= <- <-]. destruct (IH _ _ _ Hnd Ed) as [Hsub Hperm]. split; [set_solver|].
      cbn [List.filter]. rewrite bool_decide_eq_true_2 by set_solver. cbn [negb]. rewrite <-Hperm.
      erewrite (List.filter_ext_in _ (λ r, negb (bool_decide (rw_rowid r ∈ obsolete')))); [done|]. intros r' Hr'%list_elem_of_In. f_equal. apply bool_decide_ext.
      assert (rw_rowid r' ≠ rw_rowid r) by (intros Heq; apply Hr; rewrite <-Heq; apply list_elem_of_fmap; eauto). set_solver.
Qed.

Lemma insert_rows_read rows l : read_row <$> foldl insert_operation_row rows l = ((read_row <$> rows) ++ (Some <$> l))%list.
Proof.
  revert rows. induction l as [|[id [[digest claim] state]] l IH]; intros rows; cbn [foldl]; [by rewrite app_nil_r|].
  rewrite IH. cbn [insert_operation_row]. rewrite fmap_app. cbn. by rewrite <-app_assoc.
Qed.

(** C31: rebuilding the table of operations from any rows, damaged, stale or missing, leaves
    exactly one row per operation with a stored claim, and it says what the reduction of
    all the operation's claims says, stored and dropped; reading one operation through the
    indexes gives the same row. *)
Theorem rebuild_operations_exact t rows :
  NoDup (rw_rowid <$> rows) →
  read_row <$> rebuild_operations_tx t rows ≡ₚ Some <$> map_to_list (expected_operations t) ∧
  ∀ operation, expected_operations t !! operation = expected_operation t operation.
Proof.
  intros Hnd. split; [|apply expected_operations_lookup]. unfold rebuild_operations_tx.
  destruct (discover (expected_operations t) rows) as [missing obsolete] eqn:E. rewrite insert_rows_read.
  rewrite (sort_on_perm fst (map_to_list missing)). by apply discover_spec.
Qed.

(** an operation's row is the one that sorting all its claims gives, whatever the order
    in which they are read: the least digest, the least stored claim of that digest (of
    any, when a checkpoint dropped them), and a conflict when digests differ. *)
Theorem operation_reduction_reference records records' :
  (∀ x, x ∈ records ↔ x ∈ records') → reduce records' = old_row records.
Proof. intros Hr. rewrite <-reduce_old. by apply reduce_same. Qed.

(** ** The other writers of the tables *)

(** The table after [rebuild_operations_tx]. *)
Definition rebuilt (t : OpTables) : OpTables := set_rows (expected_operations t) t.

Definition set_tombstones (tombs : gmap string ClaimTombstone) (t : OpTables) : OpTables :=
  {| ot_claims := ot_claims t; ot_tombstones := tombs; ot_repaired := ot_repaired t; ot_rows := ot_rows t |}.

(** A checkpoint records a tombstone ([record_checkpoint_tombstones_tx]): one that is there stays. *)
Definition record_tombstone (tomb : ClaimTombstone) (t : OpTables) : OpTables :=
  match ot_tombstones t !! ct_id tomb with
  | Some _ => t
  | None => set_tombstones (<[ct_id tomb := tomb]> (ot_tombstones t)) t
  end.

(** It deletes a claim ([delete_dropped_rows_tx]): with it goes the row that names it. *)
Definition drop_row (tomb : ClaimTombstone) (rows : gmap string operation_row) : gmap string operation_row :=
  match ct_operation_id tomb with
  | None => rows
  | Some operation =>
      match rows !! operation with
      | Some (_, canonical, _) => if String.eqb canonical (ct_id tomb) then delete operation rows else rows
      | None => rows
      end
  end.
Definition drop_claim (tomb : ClaimTombstone) (t : OpTables) : OpTables :=
  {| ot_claims := delete (ct_id tomb) (ot_claims t); ot_tombstones := ot_tombstones t; ot_repaired := ot_repaired t;
     ot_rows := drop_row tomb (ot_rows t) |}.

(** Adoption withdraws every other tombstone ([keep_only_tombstones_tx]). *)
Definition keep_only_tombstones (adopted : list string) (t : OpTables) : OpTables :=
  set_tombstones (filter (λ x, x.1 ∈ adopted) (ot_tombstones t)) t.
(** A trim that is given up forgets the tombstones it recorded ([forget_recording_tombstones]). *)
Definition forget_tombstones (recorded : list string) (t : OpTables) : OpTables :=
  set_tombstones (filter (λ x, x.1 ∉ recorded) (ot_tombstones t)) t.

(** Repairs: the claims that are repaired, and the operations of any claim they touch. *)
Definition mark_repaired (ids : list string) (t : OpTables) : OpTables :=
  {| ot_claims := ot_claims t; ot_tombstones := ot_tombstones t; ot_repaired := list_to_set ids ∪ ot_repaired t; ot_rows := ot_rows t |}.
Definition claim_operations (t : OpTables) (id : string) : list string :=
  (option_list (ot_claims t !! id ≫= λ c, fst <$> operation_parts (cm_body c)) ++
   option_list (ot_tombstones t !! id ≫= λ tomb, o ← ct_operation_id tomb; _ ← ct_request_digest tomb; Some o) ++
   omap (λ x, if String.eqb x.2.1.2 id then Some x.1 else None) (map_to_list (ot_rows t)))%list.
Definition repaired_operation_ids_tx (t : OpTables) (ids : list string) : list string := bset_of_list (ids ≫= claim_operations t).
(** [apply_replication_repairs]: [others] are the replacements, the earlier ones too. *)
Definition apply_replication_repairs (repaired others : list string) (t : OpTables) : OpTables :=
  (repair_operations_tx (mark_repaired repaired t) (repaired_operation_ids_tx t (repaired ++ others))).1.

(** The operations of the tombstones that go while their claims are not stored. *)
Definition lost_operations (adopted : list string) (t : OpTables) : list string :=
  omap (λ x, if bool_decide (x.1 ∈ adopted) || bool_decide (is_Some (ot_claims t !! x.1)) then None else ct_operation_id x.2)
    (map_to_list (ot_tombstones t)).

(** What the other writers and the projection do, one claim or tombstone at a time: admission
    stores a claim and leaves the rows alone; the projection registers it later, or reduces its
    operation anew, or rebuilds them all. *)
Inductive OpEvent :=
| OpWrite (operation : option (string * string)) (outcome : result (string * bool) WriteRefusal)
| OpReceive (c : ClaimRecord) (repaired : bool)
| OpProject (id : string)
| OpReconcile (operations : list string)
| OpRebuild
| OpRecord (tomb : ClaimTombstone)
| OpDrop (tomb : ClaimTombstone)
| OpAdopt (lost : list string)
| OpForget (recorded : list string)
| OpRepair (operations : list string).

Definition tomb_parts (tomb : ClaimTombstone) : option (string * string) := o ← ct_operation_id tomb; d ← ct_request_digest tomb; Some (o, d).

Inductive op_step : OpTables → OpEvent → OpTables → Prop :=
| ostep_write t operation c t' id wrote :
    fresh_claim t c → operation_parts (cm_body c) = operation → append_claim t operation c = Ok (t', id, wrote) →
    op_step t (OpWrite operation (Ok (id, wrote))) t'
| ostep_refuse t operation c refusal :
    fresh_claim t c → operation_parts (cm_body c) = operation → append_claim t operation c = Err refusal →
    op_step t (OpWrite operation (Err refusal)) t
| ostep_receive t c :
    ot_claims t !! cm_id c = None → ot_tombstones t !! cm_id c = None →
    op_step t (OpReceive c (bool_decide (cm_id c ∈ ot_repaired t))) (store_op_claim c t)
| ostep_project t id c : ot_claims t !! id = Some c → op_step t (OpProject id) (register_operation_tx t id (cm_body c)).1
| ostep_reconcile t operations : op_step t (OpReconcile operations) (repair_operations_tx t operations).1
| ostep_rebuild t : op_step t OpRebuild (rebuilt t)
| ostep_record t tomb :
    (∀ c, ot_claims t !! ct_id tomb = Some c → operation_parts (cm_body c) = tomb_parts tomb) →
    op_step t (OpRecord tomb) (record_tombstone tomb t)
| ostep_drop t tomb : ot_tombstones t !! ct_id tomb = Some tomb → op_step t (OpDrop tomb) (drop_claim tomb t)
| ostep_adopt t adopted : op_step t (OpAdopt (lost_operations adopted t)) (keep_only_tombstones adopted t)
| ostep_forget t recorded :
    (∀ id, id ∈ recorded → is_Some (ot_claims t !! id)) → op_step t (OpForget recorded) (forget_tombstones recorded t)
| ostep_repair t repaired others :
    op_step t (OpRepair (repaired_operation_ids_tx t repaired)) (apply_replication_repairs repaired others t).

(** What takes a key's record away: a repair of a claim of it, or the withdrawal of the
    tombstone of one that is no longer stored. *)
Definition disturbs (operation : string) (ev : OpEvent) : bool :=
  match ev with
  | OpRepair operations | OpAdopt operations => bool_decide (operation ∈ operations)
  | OpReceive c true => bool_decide (fst <$> operation_parts (cm_body c) = Some operation)
  | _ => false
  end.

(** ** Writing once *)

(** Claim [id] of request [digest] counts for the operation. *)
Definition counts_for (t : OpTables) (operation digest id : string) : Prop := ∃ b, (digest, id, b) ∈ op_records t operation.

(** No stored claim of the operation was repaired. *)
Definition unrepaired (t : OpTables) (operation : string) : Prop :=
  ∀ id c d, ot_claims t !! id = Some c → operation_parts (cm_body c) = Some (operation, d) → id ∉ ot_repaired t.

(** The row names a stored claim of its operation. *)
Definition row_named (t : OpTables) (operation : string) : Prop :=
  ∀ d canonical state, ot_rows t !! operation = Some (d, canonical, state) →
    ∃ c d', ot_claims t !! canonical = Some c ∧ operation_parts (cm_body c) = Some (operation, d').
(** There is a row, or an unrepaired tombstone whose claim is gone. *)
Definition key_held (t : OpTables) (operation : string) : Prop :=
  is_Some (ot_rows t !! operation) ∨
  ∃ id tomb d, ot_tombstones t !! id = Some tomb ∧ tomb_parts tomb = Some (operation, d) ∧ ot_claims t !! id = None ∧ id ∉ ot_repaired t.

Lemma tomb_parts_spec tomb operation d : tomb_parts tomb = Some (operation, d) ↔ ct_operation_id tomb = Some operation ∧ ct_request_digest tomb = Some d.
Proof. unfold tomb_parts. destruct (ct_operation_id tomb), (ct_request_digest tomb); cbn; split; try done; [by intros [= -> ->]|by intros [[= ->] [= ->]]|by intros []..]. Qed.

Lemma elem_of_op_records t operation d id b :
  (d, id, b) ∈ op_records t operation ↔
  b = true ∧ id ∉ ot_repaired t ∧ (∃ c, ot_claims t !! id = Some c ∧ operation_parts (cm_body c) = Some (operation, d)) ∨
  b = false ∧ id ∉ ot_repaired t ∧ still_stored t id = false ∧
    (∃ tomb, ot_tombstones t !! id = Some tomb ∧ ct_operation_id tomb = Some operation ∧ ct_request_digest tomb = Some d).
Proof. unfold op_records. by rewrite elem_of_app, elem_of_stored, elem_of_dropped. Qed.

(** A claim counts when it is stored, or its tombstone is, and it was not repaired. *)
Lemma counts_spec t operation digest id :
  tombstones_agree t →
  counts_for t operation digest id ↔
  id ∉ ot_repaired t ∧
  ((∃ c, ot_claims t !! id = Some c ∧ operation_parts (cm_body c) = Some (operation, digest)) ∨
   (∃ tomb, ot_tombstones t !! id = Some tomb ∧ tomb_parts tomb = Some (operation, digest))).
Proof.
  intros Ha. unfold counts_for. setoid_rewrite elem_of_op_records. split.
  - intros [b [(_ & Hn & Hc)|(_ & Hn & _ & tomb & Ht & Ho)]]; split; auto. right. exists tomb. by rewrite tomb_parts_spec.
  - intros [Hn [Hc|(tomb & Ht & Hp)]]; [exists true; auto|]. destruct (still_stored t id) eqn:Es.
    + apply still_stored_spec in Es as (_ & c & Hc & _). exists true. left. split_and!; [done..|]. exists c. split; [done|].
      by rewrite (Ha _ _ _ Hc Ht).
    + exists false. right. split_and!; [done..|]. exists tomb. by rewrite <-tomb_parts_spec.
Qed.

Lemma outcome_fresh t operation digest : checkpointed_operation_outcome t operation digest = Ok tt → checkpointed_operation t operation = [].
Proof.
  unfold checkpointed_operation_outcome. destruct (checkpointed_operation t operation) as [|[d id] l]; [done|].
  destruct (existsb _ _); [done|]. by destruct (negb _).
Qed.

Lemma agree_ext t t' : ot_claims t' = ot_claims t → ot_tombstones t' = ot_tombstones t → tombstones_agree t → tombstones_agree t'.
Proof. intros Hc Ht Ha id c tomb. rewrite Hc, Ht. apply Ha. Qed.

Lemma agree_store t c : ot_tombstones t !! cm_id c = None → tombstones_agree t → tombstones_agree (store_op_claim c t).
Proof.
  intros Ht Ha id c' tomb. cbn [ot_claims ot_tombstones store_op_claim].
  intros [[<- <-]|[_ Hc']]%lookup_insert_Some Htomb; [congruence|by eapply Ha].
Qed.

Lemma register_tables t id body :
  ot_claims (register_operation_tx t id body).1 = ot_claims t ∧ ot_tombstones (register_operation_tx t id body).1 = ot_tombstones t ∧
  ot_repaired (register_operation_tx t id body).1 = ot_repaired t.
Proof.
  unfold register_operation_tx. destruct (operation_parts body) as [[operation digest]|]; [|done].
  destruct (operation_tx t operation) as [[[stored canonical] state]|]; [|done]. destruct (String.eqb stored digest); [|done]. by destruct (is_less id canonical).
Qed.

(** The row after registering a claim: of its own operation it names the claim, or the one before. *)
Lemma register_row t id body operation :
  let t' := (register_operation_tx t id body).1 in
  (is_Some (ot_rows t !! operation) → is_Some (ot_rows t' !! operation)) ∧
  ∀ d canonical state, ot_rows t' !! operation = Some (d, canonical, state) →
    (canonical = id ∧ ∃ digest, operation_parts body = Some (operation, digest)) ∨ ∃ d' state', ot_rows t !! operation = Some (d', canonical, state').
Proof.
  cbn zeta. unfold register_operation_tx. destruct (operation_parts body) as [[o digest]|] eqn:Hp; [|by split; eauto].
  assert (∀ row : operation_row, (row.1.2 = id ∨ ∃ d' state', ot_rows t !! o = Some (d', row.1.2, state')) →
    (is_Some (ot_rows t !! operation) → is_Some (<[o := row]> (ot_rows t) !! operation)) ∧
    ∀ d canonical state, <[o := row]> (ot_rows t) !! operation = Some (d, canonical, state) →
      (canonical = id ∧ ∃ digest0, Some (o, digest) = Some (operation, digest0)) ∨ ∃ d' state', ot_rows t !! operation = Some (d', canonical, state')) as Hset.
  { intros row Hrow. destruct (decide (operation = o)) as [->|Hne].
    - split; [intros _; by rewrite lookup_insert_eq|]. intros d canonical state. rewrite lookup_insert_eq. intros [= ->]. cbn in Hrow.
      destruct Hrow as [->|]; [left; eauto|by right].
    - split; [by rewrite lookup_insert_ne by done|]. intros d canonical state. rewrite lookup_insert_ne by done. intros Hrow'. right. eauto. }
  unfold operation_tx. destruct (ot_rows t !! o) as [[[stored canonical] state]|] eqn:Er.
  - destruct (String.eqb stored digest); [destruct (is_less id canonical)|].
    + apply Hset. by left.
    + split; [done|]. intros d c s Hrow. right. eauto.
    + apply Hset. right. eauto.
  - apply Hset. by left.
Qed.

(** The row the claims give names a stored claim of the operation. *)
Lemma expected_canonical t operation d canonical state :
  expected_operation t operation = Some (d, canonical, state) →
  canonical ∉ ot_repaired t ∧ ∃ c d', ot_claims t !! canonical = Some c ∧ operation_parts (cm_body c) = Some (operation, d').
Proof.
  rewrite expected_reduce. fold (op_records t operation). unfold reduce, metadata_row. destruct (fold_reduced (op_records t operation)) as [_ Hf Hc _].
  set (m := foldl include metadata_default _) in *. clearbody m. destruct (om_fallback m) as [fallback|]; [|done]. destruct (om_minimum m) as [minimum|]; [|done].
  intros [= _ <- _]. assert (∃ d', (d', default fallback (om_canonical m), true) ∈ op_records t operation) as [d' Hin].
  { destruct (om_canonical m) as [canonical|]; cbn in Hc |- *.
    - symmetry in Hc. apply least_spec in Hc as [Hin _]. unfold stored_under in Hin. apply list_elem_of_fmap in Hin as ([d' c] & -> & Hin).
      apply list_elem_of_In, filter_In in Hin as [Hin _]. exists d'. by apply elem_of_stored_of, list_elem_of_In.
    - symmetry in Hf. apply least_spec in Hf as [Hin _]. apply list_elem_of_fmap in Hin as ([d' c] & -> & Hin). exists d'. by apply elem_of_stored_of. }
  apply elem_of_op_records in Hin as [(_ & Hn & c & Hc' & Hp)|(? & _)]; [eauto 6|done].
Qed.

Lemma expected_stored t operation id c d :
  id ∉ ot_repaired t → ot_claims t !! id = Some c → operation_parts (cm_body c) = Some (operation, d) → is_Some (expected_operation t operation).
Proof.
  intros Hn Hc Hp. destruct (expected_operation t operation) eqn:E; [done|]. apply expected_None in E.
  assert ((d, id, true) ∈ of_operation operation (stored_records t)) as Hin by (apply elem_of_stored; eauto). rewrite E in Hin. by apply elem_of_nil in Hin.
Qed.

(** A write answers with the row's claim, or stores its own and registers it. *)
Lemma append_cases t operation c t' id wrote :
  append_claim t operation c = Ok (t', id, wrote) →
  (wrote = false ∧ t' = t ∧ ∃ o d state, operation = Some (o, d) ∧ ot_rows t !! o = Some (d, id, state) ∧ state ≠ "conflict") ∨
  (wrote = true ∧ id = cm_id c ∧
   (operation = None ∧ t' = store_op_claim c t ∨
    ∃ o d, operation = Some (o, d) ∧ ot_rows t !! o = None ∧ checkpointed_operation t o = [] ∧
      t' = (register_operation_tx (store_op_claim c t) (cm_id c) (cm_body c)).1)).
Proof.
  unfold append_claim, operation_tx. destruct operation as [[o d]|]; [|intros [= <- <- <-]; right; split_and!; [done..|by left]].
  destruct (ot_rows t !! o) as [[[stored canonical] state]|] eqn:Er.
  - destruct (String.eqb_spec state "conflict") as [|Hne]; [done|]. destruct (String.eqb_spec stored d) as [->|]; [|done]. intros [= <- <- <-].
    left. split_and!; [done..|]. eauto 6.
  - intros ([] & Hout%outcome_fresh & [= <- <- <-])%result_bind_Ok. right. split_and!; [done..|]. right. eauto 8.
Qed.

Lemma repair_tables t operations :
  let t' := (repair_operations_tx t operations).1 in
  ot_claims t' = ot_claims t ∧ ot_tombstones t' = ot_tombstones t ∧ ot_repaired t' = ot_repaired t ∧
  ∀ operation, ot_rows t' !! operation = expected_operation t operation ∨ ot_rows t' !! operation = ot_rows t !! operation.
Proof.
  destruct (repair_spec operations (t, 0)) as (Hc & Ht & Hr & Hrows). unfold repair_operations_tx. cbn [fst] in *. split_and!; [done..|].
  intros operation. rewrite Hrows. case_bool_decide; auto.
Qed.

Lemma elem_of_repaired_operations t ids operation :
  operation ∈ repaired_operation_ids_tx t ids ↔ ∃ id, id ∈ ids ∧ operation ∈ claim_operations t id.
Proof. unfold repaired_operation_ids_tx. rewrite elem_of_bset_of_list, list_elem_of_bind. naive_solver. Qed.

Lemma claim_operations_stored t id c operation d :
  ot_claims t !! id = Some c → operation_parts (cm_body c) = Some (operation, d) → operation ∈ claim_operations t id.
Proof. intros Hc Hp. unfold claim_operations. rewrite Hc. cbn. rewrite Hp. cbn. set_solver. Qed.
Lemma claim_operations_dropped t id tomb operation d :
  ot_tombstones t !! id = Some tomb → tomb_parts tomb = Some (operation, d) → operation ∈ claim_operations t id.
Proof. intros Ht [Ho Hd]%tomb_parts_spec. unfold claim_operations. rewrite Ht. cbn. rewrite Ho, Hd. cbn. set_solver. Qed.

(** A repair leaves an operation's claims alone, unless it is of one of them. *)
Lemma undisturbed_repair t repaired operation id :
  bool_decide (operation ∈ repaired_operation_ids_tx t repaired) = false →
  operation ∈ claim_operations t id → id ∉ ot_repaired t → id ∉ (list_to_set repaired : gset string) ∪ ot_repaired t.
Proof.
  intros Hd%bool_decide_eq_false Hop Hn [Hin%elem_of_list_to_set|]%elem_of_union; [|done]. apply Hd, elem_of_repaired_operations. eauto.
Qed.

Lemma lost_spec adopted t id tomb operation :
  bool_decide (operation ∈ lost_operations adopted t) = false → ot_tombstones t !! id = Some tomb → ct_operation_id tomb = Some operation →
  ot_claims t !! id = None → id ∈ adopted.
Proof.
  intros Hd%bool_decide_eq_false Ht Ho Hc. destruct (decide (id ∈ adopted)) as [|Hn]; [done|]. exfalso. apply Hd. unfold lost_operations.
  apply list_elem_of_omap. exists (id, tomb). rewrite elem_of_map_to_list. split; [done|]. cbn [fst snd].
  rewrite bool_decide_eq_false_2 by done. by rewrite Hc, bool_decide_eq_false_2.
Qed.

(** The three tables a step may not touch. *)
Definition same_claims (t t' : OpTables) : Prop :=
  ot_claims t' = ot_claims t ∧ ot_tombstones t' = ot_tombstones t ∧ ot_repaired t' = ot_repaired t.

Lemma counted_ext t t' operation digest id : same_claims t t' → counts_for t operation digest id → counts_for t' operation digest id.
Proof. intros (Hc & Ht & Hr). unfold counts_for. destruct t, t'. cbn in *. by subst. Qed.
Lemma unrepaired_ext t t' operation : same_claims t t' → unrepaired t operation → unrepaired t' operation.
Proof. intros (Hc & Ht & Hr) Hu id c d. rewrite Hc, Hr. apply Hu. Qed.
Lemma register_same t id body : same_claims t (register_operation_tx t id body).1.
Proof. apply register_tables. Qed.
Lemma repair_same t operations : same_claims t (repair_operations_tx t operations).1.
Proof. destruct (repair_tables t operations) as (? & ? & ? & _). done. Qed.

Lemma agree_step t ev t' : op_step t ev t' → tombstones_agree t → tombstones_agree t'.
Proof.
  destruct 1 as [t operation c t' id wrote Hf Hp Happ|t operation c refusal Hf Hp Happ|t c Hc Ht|t id c Hc|t operations|t|t tomb Htomb|t tomb Ht|t adopted|t recorded Hr|t repaired others];
    intros Ha; try done.
  - destruct Hf as (_ & Ht & _). apply append_cases in Happ as [(_ & -> & _)|(_ & _ & [[_ ->]|(o & d & _ & _ & _ & ->)])]; [done|by apply agree_store|].
    destruct (register_same (store_op_claim c t) (cm_id c) (cm_body c)) as (Hc' & Ht' & _). by eapply agree_ext, agree_store.
  - by apply agree_store.
  - destruct (register_same t id (cm_body c)) as (? & ? & _). by eapply agree_ext.
  - destruct (repair_same t operations) as (? & ? & _). by eapply agree_ext.
  - unfold record_tombstone. destruct (ot_tombstones t !! ct_id tomb) as [|] eqn:E; [done|]. intros id c' tomb'. cbn [ot_claims ot_tombstones set_tombstones].
    intros Hc' [[<- <-]|[_ Ht']]%lookup_insert_Some; [by apply Htomb|by eapply Ha].
  - intros id c' tomb'. cbn [ot_claims ot_tombstones drop_claim]. intros [_ Hc']%lookup_delete_Some. by apply Ha.
  - intros id c' tomb'. cbn [ot_claims ot_tombstones keep_only_tombstones set_tombstones]. intros Hc' [Ht' _]%map_lookup_filter_Some. by eapply Ha.
  - intros id c' tomb'. cbn [ot_claims ot_tombstones forget_tombstones set_tombstones]. intros Hc' [Ht' _]%map_lookup_filter_Some. by eapply Ha.
  - unfold apply_replication_repairs. destruct (repair_same (mark_repaired repaired t) (repaired_operation_ids_tx t (repaired ++ others))) as (? & ? & _). by eapply agree_ext; [..|exact Ha].
Qed.

Lemma unrepaired_store t c operation :
  ot_claims t !! cm_id c = None → (cm_id c ∈ ot_repaired t → fst <$> operation_parts (cm_body c) ≠ Some operation) →
  unrepaired t operation → unrepaired (store_op_claim c t) operation.
Proof.
  intros Hc Hn Hu id c' d. cbn [ot_claims ot_repaired store_op_claim].
  intros [[<- <-]|[_ Hc']]%lookup_insert_Some Hp; [|by eapply Hu]. intros Hin. apply (Hn Hin). by rewrite Hp.
Qed.

Lemma unrepaired_step t ev t' operation : op_step t ev t' → disturbs operation ev = false → unrepaired t operation → unrepaired t' operation.
Proof.
  destruct 1 as [t op c t' id wrote Hf Hp Happ|t op c refusal Hf Hp Happ|t c Hc Ht|t id c Hc|t operations|t|t tomb Htomb|t tomb Ht|t adopted|t recorded Hr|t repaired others];
    intros Hd Hu; try done.
  - destruct Hf as (Hc & _ & Hn). apply append_cases in Happ as [(_ & -> & _)|(_ & _ & [[_ ->]|(o & d & _ & _ & _ & ->)])]; [done|by apply unrepaired_store|].
    by eapply unrepaired_ext, unrepaired_store; [apply register_same|..].
  - apply unrepaired_store; [done| |done]. intros Hin. cbn in Hd. rewrite bool_decide_eq_true_2 in Hd by done. by apply bool_decide_eq_false in Hd.
  - by eapply unrepaired_ext; [apply register_same|].
  - by eapply unrepaired_ext; [apply repair_same|].
  - unfold record_tombstone. by destruct (ot_tombstones t !! ct_id tomb).
  - intros id c d. cbn [ot_claims ot_repaired drop_claim]. intros [_ Hc]%lookup_delete_Some. by apply (Hu id c d).
  - unfold apply_replication_repairs. eapply unrepaired_ext; [apply repair_same|]. intros id c d. cbn [ot_claims ot_repaired mark_repaired]. intros Hc Hp.
    eapply undisturbed_repair; [done|by eapply claim_operations_stored|by eapply Hu].
Qed.

Lemma counted_store t c operation digest id :
  tombstones_agree t → ot_claims t !! cm_id c = None → ot_tombstones t !! cm_id c = None →
  counts_for t operation digest id → counts_for (store_op_claim c t) operation digest id.
Proof.
  intros Ha Hc Ht. rewrite !counts_spec by (done || by apply agree_store). cbn [ot_claims ot_tombstones ot_repaired store_op_claim].
  intros [Hn [(c' & Hc' & Hp)|Htomb]]; (split; [done|]); [left|by right]. exists c'. rewrite lookup_insert_ne; [done|]. intros <-. congruence.
Qed.

(** A claim that counts goes on counting until it is disturbed. *)
Lemma counted_step t ev t' operation digest id :
  op_step t ev t' → disturbs operation ev = false → tombstones_agree t → counts_for t operation digest id → counts_for t' operation digest id.
Proof.
  intros Hstep Hd Ha Hcount. pose proof (agree_step _ _ _ Hstep Ha) as Ha'. revert Hd Ha Hcount Ha'.
  destruct Hstep as [t op c t' id' wrote Hf Hp Happ|t op c refusal Hf Hp Happ|t c Hc Ht|t id' c Hc|t operations|t|t tomb Htomb|t tomb Ht|t adopted|t recorded Hr|t repaired others];
    intros Hd Ha Hcount Ha'; try done.
  - destruct Hf as (Hc & Ht & _). apply append_cases in Happ as [(_ & -> & _)|(_ & _ & [[_ ->]|(o & d & _ & _ & _ & ->)])]; [done|by apply counted_store|].
    by eapply counted_ext, counted_store; [apply register_same|..].
  - by apply counted_store.
  - by eapply counted_ext; [apply register_same|].
  - by eapply counted_ext; [apply repair_same|].
  - revert Hcount Ha'. unfold record_tombstone. destruct (ot_tombstones t !! ct_id tomb) as [|] eqn:E; [done|]. intros Hcount Ha'. revert Hcount.
    rewrite !counts_spec by done. cbn [ot_claims ot_tombstones ot_repaired set_tombstones]. intros [Hn [Hst|(tomb' & Ht' & Hp)]]; (split; [done|]); [by left|right].
    exists tomb'. rewrite lookup_insert_ne; [done|]. intros <-. congruence.
  - revert Hcount. rewrite !counts_spec by done. cbn [ot_claims ot_tombstones ot_repaired drop_claim]. intros [Hn [(c & Hc & Hp)|Htomb]]; (split; [done|]); [|by right].
    destruct (decide (id = ct_id tomb)) as [->|Hne]; [right|left; exists c; by rewrite lookup_delete_ne]. exists tomb. split; [done|].
    unfold tomb_parts. by rewrite <-(Ha _ _ _ Hc Ht).
  - revert Hcount. rewrite !counts_spec by done. cbn [ot_claims ot_tombstones ot_repaired keep_only_tombstones set_tombstones].
    intros [Hn [Hst|(tomb & Ht & Hp)]]; (split; [done|]); [by left|]. destruct (ot_claims t !! id) as [c|] eqn:Hc.
    + left. exists c. split; [done|]. by rewrite (Ha _ _ _ Hc Ht).
    + right. exists tomb. split; [|done]. apply map_lookup_filter_Some. split; [done|]. cbn. apply tomb_parts_spec in Hp as [Ho _]. by eapply lost_spec.
  - revert Hcount. rewrite !counts_spec by done. cbn [ot_claims ot_tombstones ot_repaired forget_tombstones set_tombstones].
    intros [Hn [Hst|(tomb & Ht & Hp)]]; (split; [done|]); [by left|]. destruct (decide (id ∈ recorded)) as [Hin|Hin].
    + destruct (Hr _ Hin) as [c Hc]. left. exists c. split; [done|]. by rewrite (Ha _ _ _ Hc Ht).
    + right. exists tomb. split; [|done]. by apply map_lookup_filter_Some.
  - revert Ha'. unfold apply_replication_repairs. intros Ha'. eapply counted_ext; [apply repair_same|]. revert Hcount. rewrite !counts_spec by done.
    cbn [ot_claims ot_tombstones ot_repaired mark_repaired]. intros [Hn Hst]. split; [|done]. eapply undisturbed_repair; [done| |done].
    destruct Hst as [(c & Hc & Hp)|(tomb & Ht & Hp)]; [by eapply claim_operations_stored|by eapply claim_operations_dropped].
Qed.

(** What an operation that nothing disturbs keeps: its row names a stored claim, and it has a
    row or an unrepaired tombstone. *)
Definition row_held (t : OpTables) (operation : string) : Prop := row_named t operation ∧ key_held t operation.

Lemma held_store t c operation :
  ot_claims t !! cm_id c = None → ot_tombstones t !! cm_id c = None → row_held t operation → row_held (store_op_claim c t) operation.
Proof.
  intros Hc Ht [Hrow Hheld]. split.
  - intros d canonical state (c' & d' & Hc' & Hp)%Hrow. exists c', d'. cbn [ot_claims store_op_claim]. rewrite lookup_insert_ne; [done|]. intros <-. congruence.
  - destruct Hheld as [|(id & tomb & d & Htomb & Hp & Hn & Hr)]; [by left|]. right. exists id, tomb, d. cbn [ot_claims ot_tombstones ot_repaired store_op_claim].
    rewrite lookup_insert_ne; [done|]. intros <-. congruence.
Qed.

(** A change of the rows alone. *)
Lemma held_rows t t' operation :
  same_claims t t' → (is_Some (ot_rows t !! operation) → is_Some (ot_rows t' !! operation)) → row_named t' operation →
  row_held t operation → row_held t' operation.
Proof.
  intros (Hc & Ht & Hr) Hsome Hrow [_ Hheld]. split; [done|]. destruct Hheld as [|Htomb]; [left; auto|right]. by rewrite Hc, Ht, Hr.
Qed.

Lemma held_register t id c operation :
  ot_claims t !! id = Some c → row_held t operation → row_held (register_operation_tx t id (cm_body c)).1 operation.
Proof.
  intros Hc Hheld. pose proof (register_same t id (cm_body c)) as Hsame. destruct (register_row t id (cm_body c) operation) as [Hsome Hnames].
  apply (held_rows t); [done..| |done]. intros d canonical state [[-> [digest Hp]]|(d' & state' & Hrow)]%Hnames; destruct Hsame as (-> & _); [eauto|].
  destruct Hheld as [Hnamed _]. by eapply Hnamed.
Qed.

(** A row that is computed from the claims. *)
Lemma held_expected t t' operation :
  same_claims t t' → unrepaired t operation → ot_rows t' !! operation = expected_operation t operation ∨ ot_rows t' !! operation = ot_rows t !! operation →
  row_held t operation → row_held t' operation.
Proof.
  intros Hsame Hu Hrows [Hrow Hheld]. assert (row_named t' operation) as Hrow'.
  { intros d canonical state Hx. destruct Hsame as (-> & _). destruct Hrows as [E|E]; rewrite E in Hx; [|by eapply Hrow]. by apply expected_canonical in Hx as [_ Hst]. }
  apply (held_rows t); [done| |done|done]. destruct Hrows as [E|E]; rewrite E; [|done]. intros [[[d canonical] state] (c & d' & Hc & Hp)%Hrow].
  eapply expected_stored; [by eapply Hu|done..].
Qed.

Lemma held_drop t tomb operation :
  tombstones_agree t → unrepaired t operation → ot_tombstones t !! ct_id tomb = Some tomb → row_held t operation → row_held (drop_claim tomb t) operation.
Proof.
  intros Ha Hu Ht [Hrow Hheld].
  assert (ot_rows (drop_claim tomb t) !! operation = ot_rows t !! operation ∧ (∀ d state, ot_rows t !! operation ≠ Some (d, ct_id tomb, state)) ∨
    ot_rows (drop_claim tomb t) !! operation = None ∧ ∃ d state, ot_rows t !! operation = Some (d, ct_id tomb, state)) as Hcases.
  { cbn [ot_rows drop_claim]. unfold drop_row. destruct (ot_rows t !! operation) as [[[d canonical] state]|] eqn:Er.
    2: { left. split; [|done]. destruct (ct_operation_id tomb) as [o|]; [|done]. destruct (ot_rows t !! o) as [[[d canonical] state]|] eqn:Eo; [|done].
         destruct (String.eqb _ _); [|done]. rewrite lookup_delete_ne; [done|]. congruence. }
    destruct (decide (canonical = ct_id tomb)) as [->|Hne].
    - right. split; [|eauto]. destruct (Hrow _ _ _ Er) as (c & d' & Hc & Hp). pose proof (Ha _ _ _ Hc Ht) as Hparts. rewrite Hp in Hparts. symmetry in Hparts.
      apply (proj1 (tomb_parts_spec tomb operation d')) in Hparts as [-> _]. rewrite Er, String.eqb_refl. apply lookup_delete_eq.
    - left. split; [|congruence]. destruct (ct_operation_id tomb) as [o|]; [|done]. destruct (ot_rows t !! o) as [[[d1 c1] s1]|] eqn:Eo; [|done].
      destruct (String.eqb_spec c1 (ct_id tomb)) as [->|]; [|done]. rewrite lookup_delete_ne; [done|]. intros ->. congruence. }
  split.
  - intros d canonical state Hrow'. destruct Hcases as [[E Hne]|[E _]]; rewrite E in Hrow'; [|done]. destruct (Hrow _ _ _ Hrow') as (c & d' & Hc & Hp).
    exists c, d'. cbn [ot_claims drop_claim]. rewrite lookup_delete_ne; [done|]. intros <-. by eapply Hne.
  - destruct Hcases as [[E Hne]|[_ (d & state & Er)]].
    + destruct Hheld as [Hsome|(id & tomb' & d & Htomb & Hp & Hn & Hr)]; [left; by rewrite E|right]. exists id, tomb', d.
      cbn [ot_claims ot_tombstones ot_repaired drop_claim]. split_and!; [done..| |done]. apply lookup_delete_None. by right.
    + right. destruct (Hrow _ _ _ Er) as (c & d' & Hc & Hp). exists (ct_id tomb), tomb, d'. cbn [ot_claims ot_tombstones ot_repaired drop_claim].
      split_and!; [done| |by apply lookup_delete_eq|by eapply Hu]. unfold tomb_parts. by rewrite <-(Ha _ _ _ Hc Ht).
Qed.

(** A tombstone that is all there is of a key stays. *)
Lemma held_withdraw t tombs operation :
  (∀ id tomb d, ot_tombstones t !! id = Some tomb → tomb_parts tomb = Some (operation, d) → ot_claims t !! id = None → tombs !! id = Some tomb) →
  row_held t operation → row_held (set_tombstones tombs t) operation.
Proof. intros Hkeep [Hrow [Hsome|(id & tomb & d & Ht & Hp & Hn & Hr)]]; (split; [done|]); [by left|right]. exists id, tomb, d. cbn. eauto. Qed.

Lemma held_step t ev t' operation :
  op_step t ev t' → disturbs operation ev = false → tombstones_agree t → unrepaired t operation → row_held t operation → row_held t' operation.
Proof.
  destruct 1 as [t op c t' id wrote Hf Hp Happ|t op c refusal Hf Hp Happ|t c Hc Ht|t id c Hc|t operations|t|t tomb Htomb|t tomb Ht|t adopted|t recorded Hr|t repaired others];
    intros Hd Ha Hu Hheld; try done.
  - destruct Hf as (Hc & Ht & _). apply append_cases in Happ as [(_ & -> & _)|(_ & _ & [[_ ->]|(o & d & _ & _ & _ & ->)])]; [done|by apply held_store|].
    apply held_register; [apply lookup_insert_eq|by apply held_store].
  - by apply held_store.
  - by apply held_register.
  - destruct (repair_tables t operations) as (_ & _ & _ & Hrows). by eapply held_expected; [apply repair_same|..].
  - eapply (held_expected t); [done..| |done]. left. apply expected_operations_lookup.
  - unfold record_tombstone. destruct (ot_tombstones t !! ct_id tomb) as [|] eqn:E; [done|]. apply held_withdraw; [|done]. intros id tomb' d Ht' _ _.
    rewrite lookup_insert_ne; [done|]. intros <-. congruence.
  - by apply held_drop.
  - apply held_withdraw; [|done]. intros id tomb d Ht [Ho _]%tomb_parts_spec Hc. apply map_lookup_filter_Some. split; [done|]. by eapply lost_spec.
  - apply held_withdraw; [|done]. intros id tomb d Ht _ Hc. apply map_lookup_filter_Some. split; [done|]. cbn. intros [c Hc']%Hr. congruence.
  - unfold apply_replication_repairs. destruct (repair_tables (mark_repaired repaired t) (repaired_operation_ids_tx t (repaired ++ others))) as (_ & _ & _ & Hrows).
    assert (unrepaired (mark_repaired repaired t) operation) as Hu'.
    { intros id c d. cbn [ot_claims ot_repaired mark_repaired]. intros Hc Hp. eapply undisturbed_repair; [done|by eapply claim_operations_stored|by eapply Hu]. }
    eapply held_expected; [apply repair_same|done|apply Hrows|]. destruct Hheld as [Hrow [Hsome|(id & tomb & d & Ht & Hp & Hn & Hr)]]; (split; [done|]); [by left|right].
    exists id, tomb, d. split_and!; [done..|]. cbn [ot_repaired mark_repaired]. eapply undisturbed_repair; [done|by eapply claim_operations_dropped|done].
Qed.

Lemma active_records records digest canonical :
  reduce records = Some (digest, canonical, "active") →
  (digest, canonical, true) ∈ records ∧ ∀ d id b, (d, id, b) ∈ records → d = digest.
Proof.
  intros Hr%active_metadata. destruct (fold_reduced records) as [_ _ Hc Hx]. rewrite Hr in Hc, Hx. cbn in Hc, Hx. split.
  - symmetry in Hc. apply least_spec in Hc as [Hin _]. unfold stored_under in Hin. apply list_elem_of_fmap in Hin as ([d c] & -> & Hin).
    apply list_elem_of_In, filter_In in Hin as [Hin Hd]. cbn in Hd. apply String.eqb_eq in Hd as ->. by apply elem_of_stored_of, list_elem_of_In.
  - intros d id b Hin. symmetry in Hx. apply negb_false_iff in Hx. rewrite forallb_forall in Hx. specialize (Hx d). rewrite bool_decide_eq_true in Hx.
    assert (Some digest = Some d) as [= ->]; [|done]. apply Hx, list_elem_of_In. unfold digests_of. apply list_elem_of_fmap. by exists (d, id, b).
Qed.

Lemma reduce_state records digest canonical state : reduce records = Some (digest, canonical, state) → state = "active" ∨ state = "conflict".
Proof.
  unfold reduce, metadata_row. set (m := foldl include metadata_default records). destruct (om_fallback m), (om_minimum m); [|done..].
  intros [= _ _ <-]. destruct (om_conflict m); auto.
Qed.

(** Where a key is held, no write with it adds a claim; and an exact row tells its request. *)
Lemma append_held t operation digest id digest' c t' id' wrote :
  row_held t operation → append_claim t (Some (operation, digest')) c = Ok (t', id', wrote) →
  wrote = false ∧ t' = t ∧ (∃ c' d, ot_claims t !! id' = Some c' ∧ operation_parts (cm_body c') = Some (operation, d)) ∧
  (counts_for t operation digest id → ot_rows t !! operation = expected_operation t operation → digest' = digest).
Proof.
  intros [Hrow Hheld] [(-> & -> & o & d & state & [= <- <-] & Er & Hs)|(-> & _ & [[? _]|(o & d & [= <- <-] & Er & Hnone & _)])]%append_cases; [|done|].
  - split_and!; [done|done|by eapply Hrow|]. intros [b Hb] Hex. rewrite Er, expected_reduce in Hex. fold (op_records t operation) in Hex. symmetry in Hex.
    destruct (reduce_state _ _ _ _ Hex) as [->|]; [|done]. destruct (active_records _ _ _ Hex) as [_ Hall]. symmetry. by eapply Hall.
  - exfalso. destruct Hheld as [[x Hx]|(i & tomb & d & Ht & [Ho Hd]%tomb_parts_spec & _ & Hr)]; [congruence|].
    assert ((d, i) ∈ checkpointed_operation t operation) as Hin by (apply elem_of_checkpointed; eauto). rewrite Hnone in Hin. by apply elem_of_nil in Hin.
Qed.

(** A write that added its claim holds the key. *)
Lemma written_held t operation digest c t' id :
  tombstones_agree t → fresh_claim t c → operation_parts (cm_body c) = Some (operation, digest) →
  append_claim t (Some (operation, digest)) c = Ok (t', id, true) → counts_for t' operation digest id ∧ row_held t' operation.
Proof.
  intros Ha (Hc & Ht & Hn) Hp [(? & _)|(_ & -> & [[? _]|(o & d & [= <- <-] & Er & Hnone & ->)])]%append_cases; [done..|]. split.
  - eapply counted_ext; [apply register_same|]. apply counts_spec; [by apply agree_store|]. split; [done|]. left. exists c. split; [apply lookup_insert_eq|done].
  - destruct (register_row (store_op_claim c t) (cm_id c) (cm_body c) operation) as [_ Hnames].
    destruct (register_same (store_op_claim c t) (cm_id c) (cm_body c)) as (Hc' & _). split.
    + intros d canonical state [[-> _]|(d' & state' & Hrow)]%Hnames; [|cbn in Hrow; congruence]. rewrite Hc'. exists c, digest. split; [apply lookup_insert_eq|done].
    + left. unfold register_operation_tx, operation_tx. rewrite Hp. cbn [ot_rows store_op_claim]. rewrite Er. cbn [fst ot_rows set_rows]. by rewrite lookup_insert_eq.
Qed.

(** C17: a request that carries an idempotency key is written at most once.  Once a claim was
    written for a key, a later write with that key adds no claim and changes nothing: it is
    refused, or answered with a stored claim of the key, and where the row of the key is
    the one its claims reduce to, only for the same request.  In between, claims may be written
    and received, registered late or never, rows reconciled and rebuilt, and tombstones recorded,
    dropped for, forgotten and withdrawn, in any order, as long as no claim of the key is
    repaired and no adoption withdraws the tombstone of one that is no longer stored. *)
Theorem idempotent_write_once t operation digest id t1 tr t2 digest' outcome t3 :
  tombstones_agree t → unrepaired t operation →
  op_step t (OpWrite (Some (operation, digest)) (Ok (id, true))) t1 →
  run op_step t1 tr t2 → Forall (λ ev, disturbs operation ev = false) tr →
  op_step t2 (OpWrite (Some (operation, digest')) outcome) t3 →
  t3 = t2 ∧ ∀ id' wrote, outcome = Ok (id', wrote) → wrote = false ∧
    (∃ c d, ot_claims t2 !! id' = Some c ∧ operation_parts (cm_body c) = Some (operation, d)) ∧
    (ot_rows t2 !! operation = expected_operation t2 operation → digest' = digest).
Proof.
  intros Ha Hu Hwrite Hrun Hquiet Hlast. pose proof (agree_step _ _ _ Hwrite Ha) as Ha1.
  assert (unrepaired t1 operation) as Hu1 by (by eapply unrepaired_step).
  assert (counts_for t1 operation digest id ∧ row_held t1 operation) as [Hcount Hheld].
  { inversion Hwrite as [t0 op c t' id0 wrote Hf Hp Happ| | | | | | | | | |]; subst. by apply (written_held t _ _ c). }
  clear Hwrite Ha Hu t. assert (counts_for t2 operation digest id ∧ row_held t2 operation) as [Hcount2 Hheld2].
  { induction Hrun as [s|s ev s' tr s'' Hstep Hrun IH]; [done|]. apply Forall_cons in Hquiet as [Hev Hquiet].
    apply IH; [done|done|by eapply agree_step|by eapply unrepaired_step|by eapply counted_step|by eapply held_step]. }
  inversion Hlast as [t0 op c t' id0 wrote Hf Hp Happ|t0 op c refusal Hf Hp Happ| | | | | | | | |]; subst; [|by split].
  destruct (append_held _ _ digest id _ _ _ _ _ Hheld2 Happ) as (-> & -> & Hst & Hd). split; [done|]. intros id' wrote [= <- <-]. auto.
Qed.

(** ** A key, its claim and a checkpoint *)

Definition demo_op_claim (id digest : string) : ClaimRecord :=
  {| cm_id := id; cm_batch_id := "b"; cm_subject := "note/1"; cm_kind := "note.written"; cm_origin := "a"; cm_actor := None;
     cm_body := operation_body Null Null (Some ("op/1", digest)); cm_predecessors := []; cm_accepted_at_unix_ms := 1 |}.
Definition demo_op_tomb (id digest : string) : ClaimTombstone :=
  {| ct_id := id; ct_writer := "a"; ct_sequence := 1; ct_envelope_hash := "e"; ct_subject := "note/1"; ct_kind := "note.written"; ct_actor := None;
     ct_predecessors := []; ct_operation_id := Some "op/1"; ct_request_digest := Some digest; ct_accepted_at_unix_ms := 1 |}.
Definition demo_ops_empty : OpTables := {| ot_claims := ∅; ot_tombstones := ∅; ot_repaired := ∅; ot_rows := ∅ |}.

Definition appended (a : result (OpTables * string * bool) WriteRefusal) : OpTables := match a with Ok (t, _, _) => t | Err _ => demo_ops_empty end.
Definition demo_written : OpTables := appended (append_claim demo_ops_empty (Some ("op/1", "d")) (demo_op_claim "c1" "d")).
Definition demo_trimmed : OpTables := drop_claim (demo_op_tomb "c1" "d") (record_tombstone (demo_op_tomb "c1" "d") demo_written).
(** Another member's claim of the request arrives and is registered, and then the first is dropped. *)
Definition demo_received : OpTables := (register_operation_tx (store_op_claim (demo_op_claim "c0" "d") demo_written) "c0" (cm_body (demo_op_claim "c0" "d"))).1.
Definition demo_replaced : OpTables := drop_claim (demo_op_tomb "c1" "d") (record_tombstone (demo_op_tomb "c1" "d") demo_received).

(** A retry gets the claim, another request is refused, and both are refused after the trim. *)
Example demo_retries :
  append_claim demo_written (Some ("op/1", "d")) (demo_op_claim "c2" "d") = Ok (demo_written, "c1", false) ∧
  append_claim demo_written (Some ("op/1", "x")) (demo_op_claim "c2" "x") = Err (IdempotencyMismatch "d") ∧
  append_claim demo_trimmed (Some ("op/1", "d")) (demo_op_claim "c2" "d") = Err (ClaimCheckpointed "c1").
Proof. split_and!; vm_compute; reflexivity. Qed.

Lemma demo_ops_empty_agree : tombstones_agree demo_ops_empty.
Proof. intros id c tomb Hc. by vm_compute in Hc. Qed.

Lemma demo_fresh t id digest :
  ot_claims t !! id = None → ot_tombstones t !! id = None → bool_decide (id ∈ ot_repaired t) = false → fresh_claim t (demo_op_claim id digest).
Proof. intros H1 H2 H3%bool_decide_eq_false. done. Qed.

(** A row of an operation nobody wrote, and a stale one. *)
Definition demo_raw (rowid : Z) (operation digest canonical : string) : RawRow :=
  {| rw_rowid := rowid; rw_id := SqlText operation; rw_request_digest := SqlText digest; rw_canonical_claim_id := SqlText canonical;
     rw_state := SqlText "active"; rw_cached := true |}.
Lemma rebuild_operations_exact_witness :
  read_row <$> rebuild_operations_tx demo_written [demo_raw 1 "op/0" "d" "c0"; demo_raw 4 "op/1" "x" "c1"] ≡ₚ
    [Some ("op/1", ("d", "c1", "active"))].
Proof.
  replace [Some ("op/1", ("d", "c1", "active"))] with (Some <$> map_to_list (expected_operations demo_written)) by (by vm_compute).
  apply (rebuild_operations_exact demo_written [demo_raw 1 "op/0" "d" "c0"; demo_raw 4 "op/1" "x" "c1"]).
  apply (bool_decide_unpack _). by vm_compute.
Defined.

Lemma operation_reduction_reference_witness :
  reduce [("b", "c2", true); ("a", "c3", false); ("b", "c1", true)] = Some ("a", "c1", "conflict").
Proof.
  rewrite (operation_reduction_reference [("a", "c3", false); ("b", "c1", true); ("b", "c2", true)]); [by vm_compute|].
  intros x. set_solver.
Defined.

Lemma idempotent_write_once_witness :
  append_claim demo_replaced (Some ("op/1", "d")) (demo_op_claim "c2" "d") = Ok (demo_replaced, "c0", false) ∧
  ∃ c d, ot_claims demo_replaced !! "c0" = Some c ∧ operation_parts (cm_body c) = Some ("op/1", d).
Proof.
  assert (append_claim demo_replaced (Some ("op/1", "d")) (demo_op_claim "c2" "d") = Ok (demo_replaced, "c0", false)) as Hanswer by (by vm_compute).
  split; [exact Hanswer|].
  destruct (idempotent_write_once demo_ops_empty "op/1" "d" "c1" demo_written
    [OpReceive (demo_op_claim "c0" "d") false; OpProject "c0"; OpRecord (demo_op_tomb "c1" "d"); OpDrop (demo_op_tomb "c1" "d")]
    demo_replaced "d" (Ok ("c0", false)) demo_replaced) as [_ Hlater].
  - exact demo_ops_empty_agree.
  - intros id c d Hc. by vm_compute in Hc.
  - apply (ostep_write _ _ (demo_op_claim "c1" "d")); [by apply demo_fresh; vm_compute|by vm_compute|by vm_compute].
  - eapply run_cons; [apply (ostep_receive demo_written (demo_op_claim "c0" "d")); by vm_compute|].
    eapply run_cons; [apply (ostep_project _ "c0" (demo_op_claim "c0" "d")); by vm_compute|].
    eapply run_cons; [apply (ostep_record demo_received); intros c Hc; vm_compute in Hc; injection Hc as <-; by vm_compute|].
    eapply run_cons; [apply (ostep_drop (record_tombstone (demo_op_tomb "c1" "d") demo_received)); by vm_compute|apply run_nil].
  - by repeat constructor.
  - apply (ostep_write _ _ (demo_op_claim "c2" "d")); [by apply demo_fresh; vm_compute|by vm_compute|exact Hanswer].
  - destruct (Hlater "c0" false eq_refl) as (_ & Hst & _). exact Hst.
Defined.
