(* ===== verification/Idempotency.v ===== *)
(** * Receipts: the saved response of a request
    (crates/smallclaims/src/store/idempotency.rs, and of crates/smallclaims/src/store.rs the
    keys of requests)

    A request that carries an idempotency key is committed with a receipt: its response,
    under a digest of the key.  A retry gets that response.  Receipts are kept for a week
    and then cleaned up, a chunk at a time; the claim of the request, or the tombstone a
    checkpoint leaves of it, goes on saying that the request was committed. *)

From stdpp Require Import gmap.
From S2P Require Import Prelude BTree Json Digests Membership Principal Retired WriterHeads FleetStore Admission Operations.

Local Open Scope string_scope.
Local Open Scope claims_scope.

(** ** Keys and requests *)

Record ClaimInput := {
  in_subject : string;
  in_kind : string;
  in_actor : option string;
  in_fields : gmap string Value;
  in_evidence : list string;
  in_expected_subject : option (option string);
  in_idempotency_key : option string
}.

(** [char::is_control] on UTF-8: U+0000 to U+001F, U+007F, and U+0080 to U+009F. *)
Fixpoint any_control (l : list ascii) : bool :=
  match l with
  | [] => false
  | c :: l' =>
      ((byte_val c <? 32) || (byte_val c =? 127) ||
       ((byte_val c =? 194) && match l' with d :: _ => (128 <=? byte_val d) && (byte_val d <=? 159) | [] => false end))%Z || any_control l'
  end.

Definition sort_dedup (l : list string) : list string := bset_of_list l.

Section keys.
Context (sha256 : list ascii → list ascii) (hex_encode : list ascii → string).

Definition operation_id_for_key (key : string) : string :=
  "op/" +:+ hex_encode (sha256 (bytes_of "st3.idempotency.v1" ++ [NUL] ++ bytes_of key)%list).

(** [canonical_hash] of what a request is, in CBOR. *)
Definition request : Type := string * string * option string * list (string * Value) * list string * option (option string).
Context (hash_request : request → result string St3Error).

(** The fields in the order of the map, the evidence sorted and without duplicates. *)
Definition request_of (input : ClaimInput) : request :=
  (in_subject input, in_kind input, in_actor input,
   (λ f, (f.1, canonical_json_value f.2)) <$> sort_on fst (map_to_list (in_fields input)),
   sort_dedup (in_evidence input), in_expected_subject input).

Definition invalid_key (key : string) : bool :=
  String.eqb key "" || (512 <? length (bytes_of key))%nat || any_control (bytes_of key).

Definition claim_operation (input : ClaimInput) : result (option (string * string)) St3Error :=
  match in_idempotency_key input with
  | None => Ok None
  | Some key =>
      if invalid_key key then
        Err {| er_code := "invalid-idempotency-key"; er_message := "an idempotency key must contain 1 through 512 non-control characters" |}
      else let? request_digest := hash_request (request_of input) in Ok (Some (operation_id_for_key key, request_digest))
  end.

Context (hash_body : Value → result string St3Error).


End keys.

(** ** Receipts *)

Definition RETENTION_MS : Z := 7 * 24 * 60 * 60 * 1000.
Definition CLEANUP_CHUNK : nat := 64.
Definition CLOCK_SLACK_MS : Z := 5 * 60 * 1000.
Definition saturating_add (x y : Z) : Z := Z.max (- i64_max - 1) (Z.min i64_max (x + y)).

(** A row of [idempotency]; the table is kept in the order of its rowids. *)
Record Receipt := {
  rc_rowid : Z;
  rc_operation_id : string;
  rc_response : string;
  rc_expires_at_unix_ms : Z;
  rc_replay_safe : bool
}.
#[export] Instance receipt_eq_dec : EqDecision Receipt.
Proof. solve_decision. Defined.

Record Cleanup := { cu_examined : nat; cu_deleted : nat; cu_extended : nat }.
Definition cleanup_default : Cleanup := {| cu_examined := 0; cu_deleted := 0; cu_extended := 0 |}.

Definition max_receipt (l : list Receipt) : Z := foldr (λ r acc, Z.max (rc_rowid r) acc) 0%Z l.

(** [initialize]: the rows that were there before have no caller to name, and stay. *)
Definition initialize (legacy : option Z) (l : list Receipt) : Z := default (max_receipt l) legacy.

(** [INSERT INTO idempotency], with the trigger that dates it; [None] when the key is taken. *)
Definition receipt_of (operation : string) (l : list Receipt) : option Receipt := List.find (λ r, String.eqb (rc_operation_id r) operation) l.

(** The rows that cleanup may touch. *)
Definition recent (legacy : Z) (l : list Receipt) : list Receipt := List.filter (λ r, legacy <? rc_rowid r)%Z l.
Definition next_expiry (legacy : Z) (l : list Receipt) : option Z := rc_expires_at_unix_ms <$> head (recent legacy l).

(** The claim of an operation that is stored: the one that comes first. *)
Definition claim_operation_id (body : Value) : option string := (value_get "_operation" body ≫= value_get "id") ≫= as_str.
Definition claims_of (t : OpTables) (operation : string) : list string :=
  omap (λ x, if bool_decide (claim_operation_id (cm_body x.2) = Some operation) then Some x.1 else None) (map_to_list (ot_claims t)).
Definition original_claim (t : OpTables) (operation : string) : option string :=
  match least (claims_of t operation) with
  | Some claim => Some claim
  | None => snd <$> head (checkpointed_operation t operation)
  end.

(** A saved response, or the error that it is gone while its request was committed. *)
Inductive KeyExpired := IdempotencyKeyExpired (claim_id : string).
Definition cached_response (t : OpTables) (l : list Receipt) (operation : string) : result (option string) KeyExpired :=
  match receipt_of operation l with
  | Some r => Ok (Some (rc_response r))
  | None => match original_claim t operation with
            | Some claim => Err (IdempotencyKeyExpired claim)
            | None => Ok None
            end
  end.

(** ** Cleaning up *)

(** The order of the index: by length and then by text, which is the order of the times. *)
Definition time_order (x y : string) : comparison :=
  match Nat.compare (String.length x) (String.length y) with Eq => cmp x y | c => c end.
Definition latest_time (l : list string) : option string := min_by (λ x y, time_order y x) l.
Definition clock_limit {E} (parse_error : E) (t : OpTables) : result (option Z) E :=
  match latest_time ((λ x, decimal (cm_accepted_at_unix_ms x.2)) <$> map_to_list (ot_claims t)) with
  | None => Ok None
  | Some latest =>
      match parse_u128 latest with
      | Some time => Ok (Some (saturating_add (Z.min time i64_max) CLOCK_SLACK_MS))
      | None => Err parse_error
      end
  end.

Definition durable (t : OpTables) (key : string) : bool := negb (bool_decide (claims_of t key = [])).
Definition checkpointed (t : OpTables) (key : string) : bool := negb (durable t key) && negb (bool_decide (checkpointed_operation t key = [])).

(** [UPDATE idempotency SET rowid=MAX(rowid)+1]: the row moves to the end. *)
Definition extend_receipt (now : Z) (r : Receipt) (l : list Receipt) : list Receipt :=
  (List.filter (λ x, negb (rc_rowid x =? rc_rowid r)%Z) l ++
   ((λ x, {| rc_rowid := max_receipt l + 1; rc_operation_id := rc_operation_id x; rc_response := rc_response x;
            rc_expires_at_unix_ms := saturating_add now RETENTION_MS; rc_replay_safe := rc_replay_safe x |}) <$>
     List.filter (λ x, rc_rowid x =? rc_rowid r)%Z l))%list.
Definition delete_receipt (key : string) (l : list Receipt) : list Receipt * nat :=
  (List.filter (λ x, negb (String.eqb (rc_operation_id x) key)) l, length (List.filter (λ x, String.eqb (rc_operation_id x) key) l)).

Section cleanup.
Context {E : Type} (parse_error : E) (in_use : string → result bool E).

(** Whether a row has to stay. *)
Definition must_stay (t : OpTables) (r : Receipt) : result bool E :=
  if negb (rc_replay_safe r) && negb (durable t (rc_operation_id r)) && negb (checkpointed t (rc_operation_id r)) then Ok true
  else in_use (rc_response r).

Fixpoint cleanup_rows (t : OpTables) (now : Z) (candidates l : list Receipt) (c : Cleanup) : result (list Receipt * Cleanup) E :=
  match candidates with
  | [] => Ok (l, c)
  | r :: candidates =>
      if (now <? rc_expires_at_unix_ms r)%Z then Ok (l, c)
      else
        let? stay := must_stay t r in
        if stay : bool then
          cleanup_rows t now candidates (extend_receipt now r l)
            {| cu_examined := S (cu_examined c); cu_deleted := cu_deleted c; cu_extended := S (cu_extended c) |}
        else
          let '(l', n) := delete_receipt (rc_operation_id r) l in
          cleanup_rows t now candidates l' {| cu_examined := S (cu_examined c); cu_deleted := n + cu_deleted c; cu_extended := cu_extended c |}
  end.

Definition cleanup_candidates (limit : nat) (legacy : Z) (l : list Receipt) : list Receipt := take (Nat.min limit CLEANUP_CHUNK) (recent legacy l).
Definition cleanup_tx (t : OpTables) (legacy now : Z) (limit : nat) (l : list Receipt) : result (list Receipt * Cleanup) E :=
  cleanup_rows t now (cleanup_candidates limit legacy l) l cleanup_default.

(** [cleanup_idempotency]: the clock is trusted no further than the newest claim allows. *)
Definition cleanup_idempotency (t : OpTables) (legacy now : Z) (l : list Receipt) : result (list Receipt * Cleanup) E :=
  let? clock := clock_limit parse_error t in
  match clock with
  | None => Ok (l, cleanup_default)
  | Some limit => cleanup_tx t legacy (Z.min now limit) CLEANUP_CHUNK l
  end.
End cleanup.

(** ** What a cleanup leaves *)

(** The table: rowids grow, and an operation has one row. *)
Record receipts_wf (l : list Receipt) : Prop := {
  rw_sorted : StronglySorted (λ a b, (rc_rowid a < rc_rowid b)%Z) l;
  rw_unique : NoDup (rc_operation_id <$> l)
}.

Definition without (r : Receipt) (l : list Receipt) : list Receipt := List.filter (λ x, negb (bool_decide (x = r))) l.
Definition moved (now rowid : Z) (r : Receipt) : Receipt :=
  {| rc_rowid := rowid; rc_operation_id := rc_operation_id r; rc_response := rc_response r;
     rc_expires_at_unix_ms := saturating_add now RETENTION_MS; rc_replay_safe := rc_replay_safe r |}.

Lemma max_receipt_ge l r : r ∈ l → (rc_rowid r <= max_receipt l)%Z.
Proof. unfold max_receipt. induction 1 as [r l|r x l _ IH]; cbn [foldr]; lia. Qed.

Lemma filter_ext_in {A} (f g : A → bool) l : (∀ x, x ∈ l → f x = g x) → List.filter f l = List.filter g l.
Proof. intros Hfg. apply List.filter_ext_in. intros x Hx. by apply Hfg, list_elem_of_In. Qed.

Lemma sorted_rowid l a b : StronglySorted (λ a b, (rc_rowid a < rc_rowid b)%Z) l → a ∈ l → b ∈ l → rc_rowid a = rc_rowid b → a = b.
Proof.
  induction 1 as [|x l Hs IH Hx]; [by intros ?%elem_of_nil|]. rewrite Forall_forall in Hx.
  intros [->|Ha]%elem_of_cons [->|Hb]%elem_of_cons; auto; intros E; [specialize (Hx _ Hb)|specialize (Hx _ Ha)]; lia.
Qed.

Lemma unique_operation l a b : NoDup (rc_operation_id <$> l) → a ∈ l → b ∈ l → rc_operation_id a = rc_operation_id b → a = b.
Proof.
  induction l as [|x l IH]; [by intros _ ?%elem_of_nil|]. intros [Hx Hnd]%NoDup_cons.
  intros [->|Ha]%elem_of_cons [->|Hb]%elem_of_cons E; auto; exfalso; apply Hx; [rewrite E|rewrite <-E]; by apply list_elem_of_fmap_2.
Qed.

Lemma sorted_NoDup l : StronglySorted (λ a b, (rc_rowid a < rc_rowid b)%Z) l → NoDup l.
Proof. induction 1 as [|x l Hs IH Hx]; [apply NoDup_nil_2|]. apply NoDup_cons. split; [|done]. intros Hin. rewrite Forall_forall in Hx. specialize (Hx _ Hin). lia. Qed.

(** One row, by its rowid and by its operation. *)
Lemma filter_only (f : Receipt → bool) l r : NoDup l → r ∈ l → (∀ x, x ∈ l → f x = bool_decide (x = r)) → List.filter f l = [r].
Proof.
  intros Hnd Hr Hf. rewrite (filter_ext_in f (λ x, bool_decide (x = r)) l Hf). clear Hf.
  induction l as [|x l IH]; [by apply elem_of_nil in Hr|]. apply NoDup_cons in Hnd as [Hx Hnd]. cbn [List.filter].
  case_bool_decide as E; [subst|].
  - f_equal. clear IH Hr Hnd. induction l as [|y l IH]; [done|]. apply not_elem_of_cons in Hx as [Hne Hx]. cbn [List.filter].
    by rewrite bool_decide_false, IH.
  - apply elem_of_cons in Hr as [->|Hr]; [done|]. by apply IH.
Qed.

Lemma extend_one now r l : receipts_wf l → r ∈ l → extend_receipt now r l = (without r l ++ [moved now (max_receipt l + 1) r])%list.
Proof.
  intros [Hs _] Hr. unfold extend_receipt. f_equal.
  - apply filter_ext_in. intros x Hx. f_equal. apply Bool.eq_iff_eq_true. rewrite Z.eqb_eq, bool_decide_eq_true. split; [by apply sorted_rowid with l|by intros ->].
  - rewrite (filter_only _ l r); [done|by apply sorted_NoDup|done|]. intros x Hx. apply Bool.eq_iff_eq_true.
    rewrite Z.eqb_eq, bool_decide_eq_true. split; [by apply sorted_rowid with l|by intros ->].
Qed.

Lemma delete_one r l : receipts_wf l → r ∈ l → delete_receipt (rc_operation_id r) l = (without r l, 1).
Proof.
  intros [Hs Hu] Hr.
  assert (∀ x, x ∈ l → String.eqb (rc_operation_id x) (rc_operation_id r) = bool_decide (x = r)) as Hop.
  { intros x Hx. apply Bool.eq_iff_eq_true. rewrite String.eqb_eq, bool_decide_eq_true. split; [by apply unique_operation with l|by intros ->]. }
  unfold delete_receipt. f_equal; [apply filter_ext_in; intros x Hx; by rewrite Hop|].
  by rewrite (filter_only _ l r) by (auto using sorted_NoDup).
Qed.

Lemma filter_sublist_bool {A} (f : A → bool) l : List.filter f l `sublist_of` l.
Proof. induction l as [|x l IH]; cbn [List.filter]; [done|]. destruct (f x); by constructor. Qed.

Lemma sublist_sorted {A} (R : A → A → Prop) l l' : l `sublist_of` l' → StronglySorted R l' → StronglySorted R l.
Proof.
  induction 1 as [|x l l' Hl IH|x l l' Hl IH]; intros Hs; [constructor|..]; apply StronglySorted_inv in Hs as [Hs Hx]; [|by apply IH].
  constructor; [by apply IH|]. rewrite Forall_forall in *. intros y Hy. apply Hx. by eapply elem_of_sublist.
Qed.

Lemma sublist_wf l l' : l `sublist_of` l' → receipts_wf l' → receipts_wf l.
Proof. intros Hl [Hs Hu]. split; [by eapply sublist_sorted|]. eapply sublist_NoDup; [done|]. by apply fmap_sublist. Qed.

Lemma append_wf l r : receipts_wf l → (∀ x, x ∈ l → (rc_rowid x < rc_rowid r)%Z) → rc_operation_id r ∉ rc_operation_id <$> l → receipts_wf (l ++ [r]).
Proof.
  intros [Hs Hu] Hr Ho. split.
  - apply StronglySorted_app_2; [|done|by repeat constructor]. intros x y Hx ->%list_elem_of_singleton. by apply Hr.
  - rewrite fmap_app. apply NoDup_app. split_and!; [done| |apply NoDup_singleton]. cbn. intros x Hx ->%list_elem_of_singleton. done.
Qed.

Lemma elem_of_without x r l : x ∈ without r l ↔ x ∈ l ∧ x ≠ r.
Proof. unfold without. rewrite list_elem_of_In, filter_In, <-list_elem_of_In, negb_true_iff, bool_decide_eq_false. done. Qed.

Lemma moved_wf now r l : receipts_wf l → r ∈ l → receipts_wf (without r l ++ [moved now (max_receipt l + 1) r]).
Proof.
  intros Hwf Hr. apply append_wf; [by eapply sublist_wf; [apply filter_sublist_bool|]|..].
  - intros x [Hx _]%elem_of_without. cbn. pose proof (max_receipt_ge l x Hx). lia.
  - cbn. intros (x & E & [Hx Hne]%elem_of_without)%list_elem_of_fmap. apply Hne. by eapply unique_operation; [apply Hwf|..].
Qed.

(** What a row says, apart from its rowid. *)
Definition face (r : Receipt) : string * string * Z * bool := (rc_operation_id r, rc_response r, rc_expires_at_unix_ms r, rc_replay_safe r).

(** The rows a cleanup looks at: up to the first young one. *)
Fixpoint expired (now : Z) (l : list Receipt) : list Receipt :=
  match l with
  | [] => []
  | r :: l => if (now <? rc_expires_at_unix_ms r)%Z then [] else r :: expired now l
  end.

Lemma expired_prefix now l : ∃ rest, l = (expired now l ++ rest)%list.
Proof. induction l as [|r l [rest IH]]; cbn [expired]; [by exists []|]. destruct (now <? _)%Z; [by exists (r :: l)|]. exists rest. cbn. by f_equal. Qed.

Definition outside (gone l : list Receipt) : list Receipt := List.filter (λ x, negb (bool_decide (x ∈ gone))) l.

Lemma outside_without gone r l : outside gone (without r l) = outside (r :: gone) l.
Proof.
  unfold outside, without. induction l as [|x l IH]; [done|]. cbn [List.filter]. destruct (decide (x = r)) as [->|Hne].
  - rewrite (bool_decide_true (r = r)), (bool_decide_true (r ∈ r :: gone)) by set_solver. done.
  - rewrite (bool_decide_false (x = r)) by done. cbn [negb List.filter]. rewrite IH.
    rewrite (bool_decide_ext (x ∈ r :: gone) (x ∈ gone)) by set_solver. done.
Qed.

Section cleanup_spec.
Context {E : Type} (in_use : string → result bool E) (t : OpTables) (now : Z).

Definition stays (r : Receipt) : bool := match must_stay in_use t r with Ok b => b | Err _ => true end.
Definition cleaned (c : Cleanup) (l : list Receipt) : Cleanup :=
  {| cu_examined := length l + cu_examined c; cu_deleted := length (List.filter (λ r, negb (stays r)) l) + cu_deleted c;
     cu_extended := length (List.filter stays l) + cu_extended c |}.

Lemma cleanup_rows_spec candidates l c l' c' :
  receipts_wf l → NoDup candidates → (∀ r, r ∈ candidates → r ∈ l) → cleanup_rows in_use t now candidates l c = Ok (l', c') →
  receipts_wf l' ∧ c' = cleaned c (expired now candidates) ∧
  face <$> l' = (face <$> (outside (expired now candidates) l ++ (moved now 0 <$> List.filter stays (expired now candidates))))%list.
Proof.
  revert l c. induction candidates as [|r candidates IH]; intros l c Hwf Hnd Hin.
  { intros [= <- <-]. cbn [expired]. split_and!; [done|by destruct c|]. unfold outside. rewrite (filter_ext_in _ (λ _, true)); [|done].
    cbn. by rewrite List.filter_true, app_nil_r. }
  apply NoDup_cons in Hnd as [Hr Hnd]. assert (r ∈ l) as Hrl by (apply Hin; set_solver).
  cbn [cleanup_rows expired]. destruct (now <? rc_expires_at_unix_ms r)%Z.
  { intros [= <- <-]. split_and!; [done|by destruct c|]. unfold outside. rewrite (filter_ext_in _ (λ _, true)); [|done].
    cbn. by rewrite List.filter_true, app_nil_r. }
  intros (stay & Hstay & Hrun)%result_bind_Ok. assert (stays r = stay) as Hs by (unfold stays; by rewrite Hstay).
  assert (∀ x, x ∈ candidates → x ∈ without r l) as Hin'.
  { intros x Hx. apply elem_of_without. split; [apply Hin; set_solver|by intros ->]. }
  destruct stay.
  - rewrite extend_one in Hrun by done. apply IH in Hrun as (Hwf' & -> & Hl'); [|by apply moved_wf|done|set_solver].
    split_and!; [done|unfold cleaned; cbn; rewrite Hs; cbn; f_equal; lia|]. rewrite Hl'. unfold outside at 1. rewrite List.filter_app. fold (outside (expired now candidates) (without r l)).
    rewrite outside_without. cbn [List.filter]. rewrite bool_decide_false.
    + cbn [negb]. rewrite Hs. cbn [fmap list_fmap]. rewrite !fmap_app. cbn. by rewrite <-app_assoc.
    + intros Hm. destruct (expired_prefix now candidates) as [rest Hrest]. assert (moved now (max_receipt l + 1) r ∈ l) as Hml.
      { apply Hin. apply elem_of_cons. right. rewrite Hrest. set_solver. }
      pose proof (max_receipt_ge l _ Hml) as Hge. cbn in Hge. lia.
  - rewrite delete_one in Hrun by done. apply IH in Hrun as (Hwf' & -> & Hl'); [|by eapply sublist_wf; [apply filter_sublist_bool|]|done|done].
    split_and!; [done|unfold cleaned; cbn; rewrite Hs; cbn; f_equal; lia|]. rewrite Hl', outside_without. cbn [List.filter]. by rewrite Hs.
Qed.
End cleanup_spec.

Lemma recent_sublist legacy limit l : cleanup_candidates limit legacy l `sublist_of` l.
Proof. unfold cleanup_candidates. etransitivity; [apply sublist_take|apply filter_sublist_bool]. Qed.

Lemma expired_length now l : (length (expired now l) ≤ length l)%nat.
Proof. destruct (expired_prefix now l) as [rest E]. rewrite E at 2. rewrite length_app. lia. Qed.

Lemma candidates_length limit legacy l : (length (cleanup_candidates limit legacy l) ≤ Nat.min limit CLEANUP_CHUNK)%nat.
Proof. unfold cleanup_candidates. rewrite length_take. lia. Qed.

Lemma cleanup_rows_total (used : string → bool) t now candidates l c :
  ∃ l' c', cleanup_rows (E := string) (λ response, Ok (used response)) t now candidates l c = Ok (l', c').
Proof.
  revert l c. induction candidates as [|r candidates IH]; intros l c; cbn [cleanup_rows]; [eauto|]. destruct (now <? _)%Z; [eauto|].
  unfold must_stay. set (b := negb _ && _ && _). clearbody b. destruct b; [apply IH|]. cbn [result_bind]. destruct (used _); [apply IH|].
  destruct (delete_receipt _ l) as [l' n]. apply IH.
Qed.

(** C32: a cleanup returns, looks at no more than 64 rows, of those that came after the first
    start, oldest first and up to the first that is not due, and does to each one thing: a
    row in use, or the only record of its request, moves to the end with a new week;
    any other is deleted.  No other row changes, and the counts say what was done. *)
Theorem cleanup_exact (used : string → bool) t legacy now limit l :
  receipts_wf l →
  let in_use response : result bool string := Ok (used response) in
  let due := expired now (cleanup_candidates limit legacy l) in
  ∃ l' c, cleanup_tx in_use t legacy now limit l = Ok (l', c) ∧ receipts_wf l' ∧
    face <$> l' = (face <$> (outside due l ++ (moved now 0 <$> List.filter (stays in_use t) due)))%list ∧
    cu_examined c = length due ∧ (cu_deleted c + cu_extended c = cu_examined c ∧ cu_examined c ≤ 64)%nat ∧
    cu_extended c = length (List.filter (stays in_use t) due).
Proof.
  intros Hwf in_use due. destruct (cleanup_rows_total used t now (cleanup_candidates limit legacy l) l cleanup_default) as (l' & c & Hrun).
  exists l', c. split; [done|]. apply cleanup_rows_spec in Hrun as (Hwf' & -> & Hl'); [|done|..].
  - split_and!; [done|done|by cbn; rewrite Nat.add_0_r| | |by cbn; rewrite Nat.add_0_r].
    + cbn. rewrite !Nat.add_0_r. fold due. induction due as [|r due IH]; [done|]. cbn [List.filter]. destruct (stays _ t r); cbn; lia.
    + cbn. rewrite Nat.add_0_r. etransitivity; [apply expired_length|]. etransitivity; [apply candidates_length|]. unfold CLEANUP_CHUNK. lia.
  - eapply sublist_NoDup; [|apply recent_sublist]. by apply sorted_NoDup, Hwf.
  - intros r Hr. eapply elem_of_sublist; [done|apply recent_sublist].
Qed.

(** ** Histories *)






Section histories.
Context (sha256 : list ascii → list ascii) (hex_encode : list ascii → string) (hash_body : Value → result string St3Error).





















End histories.

(** The digest of a request does not depend on the order of its evidence, nor on repetitions. *)
Lemma claim_operation_evidence sha256 hex_encode hash_request input input' :
  in_subject input = in_subject input' → in_kind input = in_kind input' → in_actor input = in_actor input' → in_fields input = in_fields input' →
  (∀ x, x ∈ in_evidence input ↔ x ∈ in_evidence input') → in_expected_subject input = in_expected_subject input' →
  in_idempotency_key input = in_idempotency_key input' →
  claim_operation sha256 hex_encode hash_request input = claim_operation sha256 hex_encode hash_request input'.
Proof.
  intros Hs Hk Ha Hf He Hx Hi. unfold claim_operation, request_of. rewrite Hs, Hk, Ha, Hf, Hx, Hi.
  unfold sort_dedup. by rewrite (proj2 (bset_of_list_same (in_evidence input) (in_evidence input')) He).
Qed.

(** ** A receipt nothing else protects, and one that a claim does *)

Definition demo_receipt (rowid : Z) (operation response : string) : Receipt :=
  {| rc_rowid := rowid; rc_operation_id := operation; rc_response := response; rc_expires_at_unix_ms := 0; rc_replay_safe := false |}.
Definition demo_receipts : list Receipt := [demo_receipt 1 "cache/k" "saved"; demo_receipt 2 "op/1" "done"].
Definition demo_receipts_cleaned : list Receipt :=
  [{| rc_rowid := 3; rc_operation_id := "cache/k"; rc_response := "saved"; rc_expires_at_unix_ms := 5 + RETENTION_MS; rc_replay_safe := false |}].

Example demo_cleanup :
  cleanup_idempotency "parse" (λ _, Ok false) demo_written 0 5 demo_receipts =
    Ok (demo_receipts_cleaned, {| cu_examined := 2; cu_deleted := 1; cu_extended := 1 |}) ∧
  cached_response demo_written demo_receipts_cleaned "cache/k" = Ok (Some "saved") ∧
  cached_response demo_written demo_receipts_cleaned "op/1" = Err (IdempotencyKeyExpired "c1") ∧
  cached_response demo_trimmed demo_receipts_cleaned "op/1" = Err (IdempotencyKeyExpired "c1").
Proof. split_and!; vm_compute; reflexivity. Qed.

Lemma demo_receipts_wf : receipts_wf demo_receipts.
Proof. split; [repeat constructor|apply (bool_decide_unpack _); by vm_compute]. Qed.

Lemma cleanup_exact_witness :
  ∃ l' c, cleanup_tx (E := string) (λ _, Ok false) demo_written 0 5 64 demo_receipts = Ok (l', c) ∧ receipts_wf l' ∧
    face <$> l' = [("cache/k", "saved", (5 + RETENTION_MS)%Z, false)].
Proof.
  destruct (cleanup_exact (λ _, false) demo_written 0 5 64 demo_receipts demo_receipts_wf) as (l' & c & H1 & H2 & H3 & _).
  exists l', c. split; [exact H1|split; [exact H2|rewrite H3; vm_compute; reflexivity]].
Defined.

