(* ===== verification/Seal.v ===== *)
(** * Sealing local batches
    (crates/smallclaims/src/store/prepared_seal.rs, and of crates/smallclaims/src/store.rs
    and store/principals.rs the chunks of a pass and the choice of a claim's signer)

    A batch this node wrote is sealed: its claims are signed, encoded with the blobs they
    name into an envelope, and the envelope is hashed, stored and signed with the member
    key.  Sealing prepares a chunk of batches in a read snapshot, away from the writer, and
    writes it under the writer only if everything it read is still so.  The keyring may
    change while it prepares, so the signers are looked at again as well. *)

From stdpp Require Import gmap.
From S2P Require Import Prelude BTree Json Digests Membership Principal Keyring Signatures Judging Text Retired WriterHeads FleetStore Admission.

Local Open Scope string_scope.
Local Open Scope claims_scope.

(** ** Who signs a claim *)

(** All that [claim_signer] reads of a claim. *)
Record SignerInput := { si_grant : option (string * string); si_actor : option string }.
#[export] Instance signer_input_eq_dec : EqDecision SignerInput.
Proof. solve_decision. Defined.
#[export] Instance claim_signature_eq_dec : EqDecision ClaimSignature.
Proof. solve_decision. Defined.

Definition signer_input (c : ClaimRecord) : SignerInput :=
  {| si_grant := if String.eqb (cm_kind c) KEY_GRANTED
                 then (λ g, (kg_issuer g, kg_issuer_key g)) <$> (value_get "fields" (cm_body c) ≫= from_fields)
                 else None;
     si_actor := cm_actor c |}.

Record ClaimSigner := { sg_key : MemberKey; sg_signer : string; sg_on_behalf : option string; sg_chain : list string }.

(** [ClaimSigner::signed] *)
Definition signed (signer : ClaimSigner) (s : ClaimSignature) : bool :=
  String.eqb (cs_key s) (mk_public (sg_key signer)) && String.eqb (cs_signer s) (sg_signer signer) &&
  bool_decide (cs_on_behalf s = sg_on_behalf signer) && bool_decide (cs_chain s = sg_chain signer).

(** [same_signer] *)
Definition same_signer (one other : option ClaimSignature) : bool :=
  match one, other with
  | Some one, Some other =>
      String.eqb (cs_key one) (cs_key other) && String.eqb (cs_signer one) (cs_signer other) &&
      bool_decide (cs_on_behalf one = cs_on_behalf other) && bool_decide (cs_chain one = cs_chain other)
  | None, None => true
  | _, _ => false
  end.

(** [claim_signer_for]: the issuer of a grant, a principal this node holds a key of, or the
    node on the writer's behalf. *)
Definition as_issuer (kr : Keyring) (node_key : MemberKey) (node_subject : string) (grant : option (string * string)) : option ClaimSigner :=
  match grant with
  | None => None
  | Some (issuer, issuer_key) =>
      if String.eqb issuer node_subject && String.eqb issuer_key (mk_public node_key)
      then Some {| sg_key := node_key; sg_signer := node_subject; sg_on_behalf := None; sg_chain := [] |}
      else match by_public kr issuer_key with
      | Some held => if String.eqb (hk_principal held) issuer
                     then Some {| sg_key := hk_key held; sg_signer := hk_principal held; sg_on_behalf := None; sg_chain := hk_chain held |}
                     else None
      | None => None
      end
  end.
Definition claim_signer_for (kr : Keyring) (node_subject : string) (input : SignerInput) : option ClaimSigner :=
  node_key ← node kr;
  match as_issuer kr node_key node_subject (si_grant input) with
  | Some signer => Some signer
  | None =>
      match si_actor input ≫= (λ actor, (λ held, (actor, held)) <$> signing kr actor) with
      | Some (actor, held) => Some {| sg_key := hk_key held; sg_signer := actor; sg_on_behalf := None; sg_chain := hk_chain held |}
      | None =>
          Some {| sg_key := node_key; sg_signer := node_subject;
                  sg_on_behalf := (actor ← si_actor input; if String.eqb actor node_subject then None else Some actor); sg_chain := [] |}
      end
  end.

(** ** The store as sealing sees it *)

(** The signature tables: what sealing asks of them. *)
Class SealSignatures := {
  sig_state : Type;
  envelope_signature : sig_state → string → result (option ClaimSignature) St3Error;
  store_signature_tx : string → ClaimSignature → sig_state → result sig_state St3Error;
  store_signature_other id s st st' id' :
    store_signature_tx id s st = Ok st' → id' ≠ id → envelope_signature st' id' = envelope_signature st id'
}.

(** States of the tables in which signatures are read and stored, and which storing keeps. *)
Class SealSignaturesReadable `{SealSignatures} := {
  readable : sig_state → Prop;
  readable_read st id : readable st → ∃ stored, envelope_signature st id = Ok stored;
  readable_store id s st : readable st → ∃ st', store_signature_tx id s st = Ok st' ∧ readable st'
}.

(** Encoding a payload, and signing with the private half of a key. *)
Class SealCodec := {
  encode_payload : ReplicaEnvelopePayload → result (list ascii) St3Error;
  key_sign : MemberKey → string → string
}.

Section seal.
Context `{Crypto} `{SigCodec} `{AdmissionCodec} `{SealCodec} `{SealSignatures}.

(** [claims] with their store indexes, [batches], [replica_envelopes] and their signatures,
    [blobs], [replica_records], the signature tables and the fleet id of [meta]. *)
Record SealStore := {
  ss_fleet : FleetTables;
  ss_index : gmap string Z;
  ss_blobs : gmap string (list ascii);
  ss_records : gmap string ReplicaRecord;
  ss_signatures : sig_state;
  ss_fleet_id : option string
}.
Definition set_fleet (t : FleetTables) (s : SealStore) : SealStore :=
  {| ss_fleet := t; ss_index := ss_index s; ss_blobs := ss_blobs s; ss_records := ss_records s; ss_signatures := ss_signatures s;
     ss_fleet_id := ss_fleet_id s |}.
Definition set_records (x : gmap string ReplicaRecord) (s : SealStore) : SealStore :=
  {| ss_fleet := ss_fleet s; ss_index := ss_index s; ss_blobs := ss_blobs s; ss_records := x; ss_signatures := ss_signatures s;
     ss_fleet_id := ss_fleet_id s |}.
Definition set_sig_state (x : sig_state) (s : SealStore) : SealStore :=
  {| ss_fleet := ss_fleet s; ss_index := ss_index s; ss_blobs := ss_blobs s; ss_records := ss_records s; ss_signatures := x;
     ss_fleet_id := ss_fleet_id s |}.

(** [sign_unsealed], with the nonce it draws. *)
Definition claim_row_of (c : ClaimRecord) : ClaimRow :=
  {| cr_id := cm_id c; cr_subject := cm_subject c; cr_kind := cm_kind c; cr_actor := cm_actor c; cr_body := cm_body c |}.
Definition sign_claim (key : MemberKey) (content signer : string) (on_behalf : option string) (chain : list string) (nonce : string)
    (signed_at : Z) : ClaimSignature :=
  {| cs_signer := signer; cs_on_behalf := on_behalf; cs_key := mk_public key; cs_chain := chain; cs_nonce := nonce; cs_signed_at := signed_at;
     cs_signature := key_sign key (signing_bytes content signer on_behalf (mk_public key) chain nonce signed_at);
     cs_format := None; cs_signed_fields := [] |}.
Definition sign_unsealed (kr : Keyring) (node_subject nonce : string) (c : ClaimRecord) : option ClaimSignature :=
  chosen ← claim_signer_for kr node_subject (signer_input c);
  Some (sign_claim (sg_key chosen) (content_digest (claim_row_of c)) (sg_signer chosen) (sg_on_behalf chosen) (sg_chain chosen) nonce
          (Z.min (cm_accepted_at_unix_ms c) u64_max)).

(** ** Batches and claims *)

(** [unsealed_batches] *)
Definition has_envelope (t : FleetTables) (batch : string) : bool :=
  bool_decide (map_Exists (λ (_ : envelope_key) row, ev_batch_id row = Some batch) (ft_envelopes t)).
Definition in_range (after through : option Z) (rowid : Z) : bool :=
  (match after with Some n => Z.min i64_max (n + 1) <=? rowid | None => true end && match through with Some n => rowid <=? n | None => true end)%Z.
Definition unsealed_batches (t : FleetTables) (after through : option Z) : list Batch :=
  let rows := List.filter (λ b, in_range after through (ba_rowid b) && negb (has_envelope t (ba_id b))) (wr_batches (ft_writers t)) in
  match after with
  | Some _ => sort_on ba_rowid rows
  | None => sort_on (λ b, (ba_origin b, ba_replica_sequence b, ba_id b)) rows
  end.

(** The claims of a batch, in store order. *)
Definition claims_of_batch (s : SealStore) (batch : string) : list (Z * ClaimRecord) :=
  sort_on fst (omap (λ x, if String.eqb (cm_batch_id x.2) batch then (λ i, (i, x.2)) <$> ss_index s !! x.1 else None) (map_to_list (ft_claims (ss_fleet s)))).
Definition wire_claim (x : Z * ClaimRecord) : WireClaim :=
  {| wc_row := x.2; wc_store_index := x.1; wc_operation_id := fst <$> operation_parts (cm_body x.2);
     wc_request_digest := snd <$> operation_parts (cm_body x.2) |}.

(** [collect_referenced_blobs], and which of the named blobs are stored. *)
Definition named_of (claims : list (Z * ClaimRecord)) : BTreeSet string := bset_of_list (claims ≫= (λ x, collect_hash_fields (cm_body x.2))).
Definition collect_referenced_blobs (s : SealStore) (claims : list (Z * ClaimRecord)) : BTreeMap string (list ascii) :=
  omap (λ hash, (λ bytes, (hash, bytes)) <$> ss_blobs s !! hash) (named_of claims).
Definition blob_stored (s : SealStore) (hash : string) : bool := bool_decide (is_Some (ss_blobs s !! hash)).

(** ** Sealing a batch *)

Record SealedRecord := { sr_claim_id : string; sr_subject : string; sr_kind : string; sr_raw : list ascii }.
Record SealedBatch := {
  sb_batch : Batch;
  sb_claims : list (string * Z);
  sb_named_blobs : list (string * bool);
  sb_stored_signatures : list (option ClaimSignature);
  sb_signatures : list (string * ClaimSignature);
  sb_payload : list ascii;
  sb_envelope_hash : string;
  sb_records : list SealedRecord;
  sb_fresh : list (SignerInput * option ClaimSignature)
}.

(** How a claim without a stored signature is signed, when it is. *)
Definition SignUnsealed : Type := option (ClaimRecord → option ClaimSignature).

Record Signing := {
  sn_stored : list (option ClaimSignature);
  sn_signatures : list (string * ClaimSignature);
  sn_fresh : list (SignerInput * option ClaimSignature)
}.
Fixpoint sign_claims (st : sig_state) (sign : SignUnsealed) (claims : list (Z * ClaimRecord)) : result Signing St3Error :=
  match claims with
  | [] => Ok {| sn_stored := []; sn_signatures := []; sn_fresh := [] |}
  | (_, c) :: claims =>
      let? stored := envelope_signature st (cm_id c) in
      let '(signature, fresh) := match stored, sign with
        | Some signature, _ => (Some signature, [])
        | None, Some sign => let signature := sign c in (signature, [(signer_input c, signature)])
        | None, None => (None, [])
        end in
      let? rest := sign_claims st sign claims in
      Ok {| sn_stored := stored :: sn_stored rest;
            sn_signatures := ((λ s, (cm_id c, s)) <$> option_list signature) ++ sn_signatures rest;
            sn_fresh := fresh ++ sn_fresh rest |}%list
  end.

Fixpoint seal_records (claims : list (Z * ClaimRecord)) : result (list SealedRecord) St3Error :=
  match claims with
  | [] => Ok []
  | x :: claims =>
      let? raw := encode_claim (wire_claim x) in
      let? rest := seal_records claims in
      Ok ({| sr_claim_id := cm_id x.2; sr_subject := cm_subject x.2; sr_kind := cm_kind x.2; sr_raw := raw |} :: rest)
  end.

Definition payload_of (b : Batch) (claims : list (Z * ClaimRecord)) (blobs : BTreeMap string (list ascii))
    (signatures : list (string * ClaimSignature)) : ReplicaEnvelopePayload :=
  {| pl_batch := {| rb_id := ba_id b; rb_origin := ba_origin b; rb_replica_sequence := ba_replica_sequence b;
                    rb_previous_hash := ba_previous_hash b; rb_hash := ba_hash b; rb_accepted_at_unix_ms := ba_accepted_at_unix_ms b;
                    rb_claims := wire_claim <$> claims |};
     pl_blobs := blobs;
     pl_claim_signatures := foldl (λ m x, bmap_insert x.1 x.2 m) [] signatures |}.

Definition seal_batch (s : SealStore) (b : Batch) (sign : SignUnsealed) : result SealedBatch St3Error :=
  let claims := claims_of_batch s (ba_id b) in
  let blobs := collect_referenced_blobs s claims in
  let? signing := sign_claims (ss_signatures s) sign claims in
  let? records := seal_records claims in
  let? payload := encode_payload (payload_of b claims blobs (sn_signatures signing)) in
  Ok {| sb_batch := b; sb_claims := (λ x, (cm_id x.2, x.1)) <$> claims;
        sb_named_blobs := (λ hash, (hash, blob_stored s hash)) <$> named_of claims;
        sb_stored_signatures := sn_stored signing; sb_signatures := sn_signatures signing; sb_payload := payload;
        sb_envelope_hash := replica_envelope_hash sha256 hex_encode (ba_origin b) (ba_replica_sequence b) (ba_previous_hash b)
                              (ba_accepted_at_unix_ms b) payload;
        sb_records := records; sb_fresh := sn_fresh signing |}.

Definition sealed_key (sealed : SealedBatch) : envelope_key :=
  (ba_origin (sb_batch sealed), ba_replica_sequence (sb_batch sealed), sb_envelope_hash sealed).

(** [write_sealed_batch_tx]: the signatures, the envelope as validated, and its records. *)
Fixpoint store_signatures (signatures : list (string * ClaimSignature)) (st : sig_state) : result sig_state St3Error :=
  match signatures with
  | [] => Ok st
  | (id, s) :: signatures => let? st := store_signature_tx id s st in store_signatures signatures st
  end.
Definition sealed_row (relay : string) (sealed : SealedBatch) (t : FleetTables) : ReplicaEnvelopeRow :=
  let b := sb_batch sealed in
  {| ev_previous_hash := ba_previous_hash b; ev_accepted_at_unix_ms := decimal (ba_accepted_at_unix_ms b);
     ev_payload := PayloadBytes (sb_payload sealed); ev_batch_id := Some (ba_id b); ev_relay := relay; ev_receipt_state := "validated";
     ev_validation_error := None; ev_received_at_unix_ms := decimal (ba_accepted_at_unix_ms b); ev_rowid := next_envelope_rowid t |}.
Definition sealed_record (sealed : SealedBatch) (position : nat) (r : SealedRecord) : ReplicaRecord :=
  new_record (sealed_key sealed) (Z.of_nat position) (sr_raw r) "valid" (Some (sr_claim_id r)) (Some (sr_subject r)) (Some (sr_kind r)) None None
    (ba_accepted_at_unix_ms (sb_batch sealed)).
Definition insert_record (records : gmap string ReplicaRecord) (x : string * ReplicaRecord) : gmap string ReplicaRecord :=
  match records !! x.1 with Some _ => records | None => <[x.1 := x.2]> records end.
Definition write_sealed_batch_tx (relay : string) (sealed : SealedBatch) (s : SealStore) : result SealStore St3Error :=
  let? st := store_signatures (sb_signatures sealed) (ss_signatures s) in
  let s := set_fleet (insert_envelope_row (sealed_key sealed) (sealed_row relay sealed (ss_fleet s)) (ss_fleet s)) (set_sig_state st s) in
  Ok (set_records (foldl insert_record (ss_records s)
        (imap (λ position r, (record_ref_of (sealed_key sealed) position, sealed_record sealed position r)) (sb_records sealed))) s).

(** [sealed_batch_current]: what a sealed batch was made from is still so. *)
Fixpoint signatures_current (st : sig_state) (l : list (string * option ClaimSignature)) : result bool St3Error :=
  match l with
  | [] => Ok true
  | (id, stored) :: l => let? now := envelope_signature st id in if bool_decide (now = stored) then signatures_current st l else Ok false
  end.
Definition sealed_batch_current (s : SealStore) (sealed : SealedBatch) : result bool St3Error :=
  let claims := (λ x, (cm_id x.2, x.1)) <$> claims_of_batch s (ba_id (sb_batch sealed)) in
  if negb (bool_decide (claims = sb_claims sealed)) then Ok false
  else if negb (forallb (λ x, Bool.eqb (blob_stored s x.1) x.2) (sb_named_blobs sealed)) then Ok false
  else signatures_current (ss_signatures s) (zip (fst <$> claims) (sb_stored_signatures sealed)).

(** [seed_replica_envelopes_signed_tx]: each batch prepared and written under the writer. *)
Fixpoint seed_batches (relay : string) (sign : SignUnsealed) (batches : list Batch) (s : SealStore) : result SealStore St3Error :=
  match batches with
  | [] => Ok s
  | b :: batches =>
      let? sealed := seal_batch s b sign in
      let? s := write_sealed_batch_tx relay sealed s in
      seed_batches relay sign batches s
  end.
Definition seed_replica_envelopes_signed_tx (relay : string) (after through : option Z) (sign : SignUnsealed) (s : SealStore)
    : result SealStore St3Error :=
  seed_batches relay sign (unsealed_batches (ss_fleet s) after through) s.

(** ** Signing envelopes *)

(** [own_unsigned_envelopes] *)
Definition unsigned_of (t : FleetTables) (origin member_key : string) (where_ : ReplicaEnvelopeRow → bool) : list (Z * string) :=
  sort_on fst (omap (λ x : envelope_key * ReplicaEnvelopeRow,
    if String.eqb x.1.1.1 origin && where_ x.2 && negb (bool_decide (is_Some (ft_signatures t !! (x.1, member_key))))
    then Some (x.1.1.2, x.1.2) else None) (map_to_list (ft_envelopes t))).
Definition batch_rowid (t : FleetTables) (row : ReplicaEnvelopeRow) : option Z := ba_rowid <$> (ev_batch_id row ≫= batch_of t).
Definition own_unsigned_envelopes (t : FleetTables) (origin member_key : string) (after through : option Z) : list (Z * string) :=
  let bounded (low : Z) (rowid : Z) := (low <? rowid)%Z && match through with Some n => (rowid <=? n)%Z | None => true end in
  unsigned_of t origin member_key (λ row,
    match after with
    | Some low => match batch_rowid t row with Some rowid => bounded low rowid | None => false end
    | None => bounded (- i64_max - 1)%Z (ev_rowid row)
    end).

Record EnvelopeSigner := { es_member_key : string; es_fleet_id : option string }.
#[export] Instance envelope_signer_eq_dec : EqDecision EnvelopeSigner.
Proof. solve_decision. Defined.
Definition envelope_signer (s : SealStore) (member_key : option MemberKey) : option (MemberKey * EnvelopeSigner) :=
  (λ key, (key, {| es_member_key := mk_public key; es_fleet_id := ss_fleet_id s |})) <$> member_key.

(** ** A chunk, prepared *)

Definition SEAL_CHUNK_BATCHES : nat := 64.
Definition SEAL_PREPARED_BYTES : Z := 16 * 1024 * 1024.

Record PreparedSeal := {
  ps_seeded_through : Z;
  ps_through : Z;
  ps_origin : string;
  ps_signer : option EnvelopeSigner;
  ps_batches : list SealedBatch;
  ps_signers : list (SignerInput * option ClaimSignature);
  ps_signers_agree : bool;
  ps_envelope_signatures : gmap (Z * string) string
}.

(** The largest of the next rowids: they are in order. *)
Definition chunk_through (t : FleetTables) (seeded_through target : Z) : Z :=
  let rowids := sort_on id (List.filter (λ n, (seeded_through <? n)%Z && (n <=? target)%Z) (ba_rowid <$> wr_batches (ft_writers t))) in
  default target (last (take SEAL_CHUNK_BATCHES rowids)).

(** The batches that fit, the first one always, and how far they reach. *)
Fixpoint prepare_batches (s : SealStore) (sign : SignUnsealed) (budget : Z) (through : Z) (batches : list Batch) (kept : list SealedBatch) (bytes : Z)
    : result (list SealedBatch * Z) St3Error :=
  match batches with
  | [] => Ok (kept, through)
  | b :: batches =>
      let? sealed := seal_batch s b sign in
      let bytes' := (bytes + Z.of_nat (length (sb_payload sealed)))%Z in
      match last kept with
      | Some last => if (budget <? bytes')%Z then Ok (kept, ba_rowid (sb_batch last))
                     else prepare_batches s sign budget through batches (kept ++ [sealed]) bytes'
      | None => prepare_batches s sign budget through batches (kept ++ [sealed]) bytes'
      end
  end.

(** The first signature of each input, and whether the others name the same signer. *)
Definition signer_seen (input : SignerInput) (l : list (SignerInput * option ClaimSignature)) : option (option ClaimSignature) :=
  snd <$> List.find (λ x, bool_decide (x.1 = input)) l.
Definition see_signer (a : list (SignerInput * option ClaimSignature) * bool) (x : SignerInput * option ClaimSignature)
    : list (SignerInput * option ClaimSignature) * bool :=
  match signer_seen x.1 a.1 with
  | Some seen => (a.1, a.2 && same_signer seen x.2)
  | None => ((a.1 ++ [x])%list, a.2)
  end.

Definition sign_envelope (origin : string) (key : MemberKey) (fleet_id : string) (x : Z * string) : string :=
  key_sign key (envelope_signature_message fleet_id (origin, x.1, x.2)).

(** [prepare_seal]; the signatures are made with the keyring as it is at each claim. *)
Definition prepare_seal (s : SealStore) (origin : string) (member_key : option MemberKey) (sign : ClaimRecord → option ClaimSignature)
    (seeded_through target budget : Z) : result (option PreparedSeal) St3Error :=
  if (target <=? seeded_through)%Z then Ok None
  else
    let chunk := chunk_through (ss_fleet s) seeded_through target in
    let? prepared := prepare_batches s (Some sign) budget chunk (unsealed_batches (ss_fleet s) (Some seeded_through) (Some chunk)) [] 0 in
    let '(batches, through) := prepared in
    let '(signers, agree) := foldl see_signer ([], true) (batches ≫= sb_fresh) in
    let signer := envelope_signer s member_key in
    let signatures := match signer with
      | Some (key, {| es_fleet_id := Some fleet_id |}) =>
          let unsigned := (own_unsigned_envelopes (ss_fleet s) origin (mk_public key) (Some seeded_through) (Some through) ++
            omap (λ sealed, if String.eqb (ba_origin (sb_batch sealed)) origin
                            then Some (ba_replica_sequence (sb_batch sealed), sb_envelope_hash sealed) else None) batches)%list in
          list_to_map ((λ x, (x, sign_envelope origin key fleet_id x)) <$> unsigned)
      | _ => ∅
      end in
    Ok (Some {| ps_seeded_through := seeded_through; ps_through := through; ps_origin := origin; ps_signer := snd <$> signer;
                ps_batches := batches; ps_signers := signers; ps_signers_agree := agree; ps_envelope_signatures := signatures |}).

(** ** A chunk, written *)

Fixpoint batches_current (s : SealStore) (batches : list SealedBatch) : result bool St3Error :=
  match batches with
  | [] => Ok true
  | sealed :: batches => let? current := sealed_batch_current s sealed in if current : bool then batches_current s batches else Ok false
  end.
Fixpoint write_batches (relay : string) (batches : list SealedBatch) (s : SealStore) : result SealStore St3Error :=
  match batches with
  | [] => Ok s
  | sealed :: batches => let? s := write_sealed_batch_tx relay sealed s in write_batches relay batches s
  end.

(** Each input is signed as the keyring would sign it now; [None] is a keyring that changes. *)
Definition signers_unchanged (ring : option Keyring) (node_subject : string) (signers : list (SignerInput * option ClaimSignature)) : bool :=
  match ring with
  | None => false
  | Some kr =>
      forallb (λ x : SignerInput * option ClaimSignature,
        match claim_signer_for kr node_subject x.1, x.2 with
        | Some signer, Some signature => signed signer signature
        | None, None => true
        | _, _ => false
        end) signers
  end.

Fixpoint store_envelope_signatures (origin member_key : string) (signatures : gmap (Z * string) string) (l : list (Z * string)) (t : FleetTables)
    : option FleetTables :=
  match l with
  | [] => Some t
  | x :: l =>
      match signatures !! x with
      | None => None
      | Some signature => store_envelope_signatures origin member_key signatures l (insert_signature_row (origin, x.1, x.2) member_key signature t)
      end
  end.

Definition node_subject (origin : string) : string := "host/" +:+ origin.

(** [seal_prepared_tx]; [Ok None] when something it was prepared from changed. *)
Definition seal_prepared_tx (s : SealStore) (origin : string) (member_key : option MemberKey) (ring : option Keyring) (p : PreparedSeal)
    : result (option SealStore) St3Error :=
  let signer := envelope_signer s member_key in
  if negb (String.eqb (ps_origin p) origin) then Ok None
  else if negb (bool_decide (snd <$> signer = ps_signer p)) then Ok None
  else if negb (bool_decide (unsealed_batches (ss_fleet s) (Some (ps_seeded_through p)) (Some (ps_through p)) = sb_batch <$> ps_batches p)) then Ok None
  else
    let? current := batches_current s (ps_batches p) in
    if negb current then Ok None
    else if negb (ps_signers_agree p) then Ok None
    else if negb (bool_decide (ps_signers p = [])) && negb (signers_unchanged ring (node_subject origin) (ps_signers p)) then Ok None
    else
      let? s := write_batches origin (ps_batches p) s in
      match signer with
      | Some (key, {| es_fleet_id := Some _ |}) =>
          let unsigned := own_unsigned_envelopes (ss_fleet s) origin (mk_public key) (Some (ps_seeded_through p)) (Some (ps_through p)) in
          Ok ((λ t, set_fleet t s) <$> store_envelope_signatures origin (mk_public key) (ps_envelope_signatures p) unsigned (ss_fleet s))
      | _ => Ok (Some s)
      end.

(** What sealing under the writer would do: seed the batches, then sign this node's
    envelopes among them. *)
Definition sign_own_envelopes (origin : string) (signer : option (MemberKey * EnvelopeSigner)) (after through : Z) (s : SealStore) : SealStore :=
  match signer with
  | Some (key, {| es_fleet_id := Some fleet_id |}) =>
      set_fleet (foldl (λ t x, insert_signature_row (origin, x.1, x.2) (mk_public key) (sign_envelope origin key fleet_id x) t) (ss_fleet s)
        (own_unsigned_envelopes (ss_fleet s) origin (mk_public key) (Some after) (Some through))) s
  | _ => s
  end.
Definition seal_under_writer (s : SealStore) (origin : string) (member_key : option MemberKey) (sign : ClaimRecord → option ClaimSignature)
    (after through : Z) : result SealStore St3Error :=
  let? s' := seed_replica_envelopes_signed_tx origin (Some after) (Some through) (Some sign) s in
  Ok (sign_own_envelopes origin (envelope_signer s member_key) after through s').

(** ** Passes *)

(** [seal_local_batch_chunk_within]: the store, the frontier, and whether to go on.  Between
    preparing and writing others may change the store, the keys and the frontier. *)
Definition seal_local_batch_chunk (s s' : SealStore) (origin : string) (member_key member_key' : option MemberKey)
    (sign : ClaimRecord → option ClaimSignature) (ring : option Keyring) (frontier frontier' target budget : Z) : result (SealStore * Z * bool) St3Error :=
  let? prepared := prepare_seal s origin member_key sign frontier target budget in
  match prepared with
  | None => Ok (s', frontier', false)
  | Some p =>
      if (target <=? frontier')%Z then Ok (s', frontier', false)
      else if (frontier' =? ps_seeded_through p)%Z then
        let? sealed := seal_prepared_tx s' origin member_key' ring p in
        match sealed with
        | Some s'' => Ok (s'', ps_through p, true)
        | None => Ok (s', frontier', true)
        end
      else Ok (s', frontier', true)
  end.

(** Rowids are positive: [next_batch_rowid]. *)
Definition max_batch_rowid (t : FleetTables) : Z := max_or_zero (ba_rowid <$> wr_batches (ft_writers t)).

(** [seal_local_batches_after_frontier], while nobody else changes anything. *)
Fixpoint seal_chunks (fuel : nat) (s : SealStore) (origin : string) (member_key : option MemberKey) (nonces : nat → string → string) (kr : Keyring)
    (frontier target : Z) : option (result (SealStore * Z) St3Error) :=
  match fuel with
  | O => None
  | S fuel =>
      let sign c := sign_unsealed kr (node_subject origin) (nonces fuel (cm_id c)) c in
      match seal_local_batch_chunk s s origin member_key member_key sign (Some kr) frontier frontier target SEAL_PREPARED_BYTES with
      | Err e => Some (Err e)
      | Ok (s', frontier', true) => seal_chunks fuel s' origin member_key nonces kr frontier' target
      | Ok (s', frontier', false) => Some (Ok (s', frontier'))
      end
  end.

(** [recover_sealing_frontier]: once after opening, the frontier moves back before the first
    batch that was skipped behind it.  The search reads at the frontier [cursor], and others
    may have moved it to [frontier] when the writer lowers it. *)
Definition carries_claim (s : SealStore) (batch : string) : bool :=
  existsb (λ x, String.eqb (cm_batch_id x.2) batch && negb (claim_tombstoned (ss_fleet s) x.1)) (map_to_list (ft_claims (ss_fleet s))).
Definition skipped_rowids (s : SealStore) (cursor : Z) : list Z :=
  ba_rowid <$> List.filter (λ b, (ba_rowid b <=? cursor)%Z && negb (has_envelope (ss_fleet s) (ba_id b)) && carries_claim s (ba_id b))
    (wr_batches (ft_writers (ss_fleet s))).
Definition least_rowid (l : list Z) : option Z := foldr (λ n least, Some (default n (Z.min n <$> least))) None l.
Definition recover_sealing_frontier (pending : bool) (s : SealStore) (cursor frontier : Z) : Z :=
  if pending then match least_rowid (skipped_rowids s cursor) with Some missing => Z.min frontier (missing - 1) | None => frontier end
  else frontier.

(** [seal_local_batches] *)
Definition seal_local_batches (fuel : nat) (pending : bool) (s : SealStore) (origin : string) (member_key : option MemberKey)
    (nonces : nat → string → string) (kr : Keyring) (frontier : Z) : option (result (SealStore * Z) St3Error) :=
  seal_chunks fuel s origin member_key nonces kr (recover_sealing_frontier pending s frontier frontier) (max_batch_rowid (ss_fleet s)).

(** ** What it takes to seal alike *)

(** Rows are found under their ids, and ids and hashes name contents. *)
Definition claims_keyed (s : SealStore) : Prop := ∀ id c, ft_claims (ss_fleet s) !! id = Some c → cm_id c = id.
Record same_content (s s' : SealStore) : Prop := {
  sc_claims : ∀ id c c', ft_claims (ss_fleet s) !! id = Some c → ft_claims (ss_fleet s') !! id = Some c' → c = c';
  sc_blobs : ∀ hash bytes bytes', ss_blobs s !! hash = Some bytes → ss_blobs s' !! hash = Some bytes' → bytes = bytes'
}.

Lemma elem_of_claims_of_batch s batch i c :
  (i, c) ∈ claims_of_batch s batch ↔ ∃ id, ft_claims (ss_fleet s) !! id = Some c ∧ cm_batch_id c = batch ∧ ss_index s !! id = Some i.
Proof.
  unfold claims_of_batch. rewrite (elem_of_Permutation_proper _ _ _ (sort_on_perm fst _)), list_elem_of_omap. split.
  - intros ([id c'] & Hin%elem_of_map_to_list & Hx). cbn [fst snd] in Hx. destruct (String.eqb_spec (cm_batch_id c') batch) as [Hb|]; [|done].
    destruct (ss_index s !! id) as [i'|] eqn:Hi; [|done]. injection Hx as <- <-. eauto.
  - intros (id & Hc & <- & Hi). exists (id, c). rewrite elem_of_map_to_list. cbn [fst snd]. by rewrite String.eqb_refl, Hi.
Qed.

(** Ids and indexes that agree name the same claims. *)
Lemma claims_by_id s s' batch :
  claims_keyed s → claims_keyed s' → same_content s s' →
  (λ x : Z * ClaimRecord, (cm_id x.2, x.1)) <$> claims_of_batch s' batch = (λ x, (cm_id x.2, x.1)) <$> claims_of_batch s batch →
  claims_of_batch s' batch = claims_of_batch s batch.
Proof.
  intros Hk Hk' [Hsame _]. assert (∀ x, x ∈ claims_of_batch s batch → ft_claims (ss_fleet s) !! cm_id x.2 = Some x.2) as Hin1.
  { intros [i c] (id & Hc & _)%elem_of_claims_of_batch. cbn. by rewrite (Hk _ _ Hc). }
  assert (∀ x, x ∈ claims_of_batch s' batch → ft_claims (ss_fleet s') !! cm_id x.2 = Some x.2) as Hin2.
  { intros [i c] (id & Hc & _)%elem_of_claims_of_batch. cbn. by rewrite (Hk' _ _ Hc). }
  revert Hin1 Hin2. generalize (claims_of_batch s batch) as l, (claims_of_batch s' batch) as l'.
  intros l l'. revert l. induction l' as [|[i c] l' IH]; intros [|[i' c'] l] Hin1 Hin2; cbn [fmap list_fmap]; try done.
  intros [= Hid -> Hl]. f_equal; [|apply IH; [set_solver..|done]]. f_equal. symmetry. eapply Hsame; [apply (Hin1 (i', c')); set_solver|].
  cbn [snd]. rewrite <-Hid. apply (Hin2 (i', c)). set_solver.
Qed.

Lemma forallb_blobs s s' named :
  forallb (λ x, Bool.eqb (blob_stored s' x.1) x.2) ((λ hash, (hash, blob_stored s hash)) <$> named) = true →
  ∀ hash, hash ∈ named → blob_stored s' hash = blob_stored s hash.
Proof.
  rewrite forallb_forall. intros Hall hash Hin. apply eqb_prop. apply (Hall (hash, blob_stored s hash)).
  apply list_elem_of_In, list_elem_of_fmap. by exists hash.
Qed.

Lemma blobs_alike s s' claims :
  same_content s s' → (∀ hash, hash ∈ named_of claims → blob_stored s' hash = blob_stored s hash) →
  collect_referenced_blobs s' claims = collect_referenced_blobs s claims.
Proof.
  intros [_ Hb] Hst. unfold collect_referenced_blobs.
  assert (∀ l : list string, (∀ hash, hash ∈ l → blob_stored s' hash = blob_stored s hash) →
    omap (λ hash, (λ bytes, (hash, bytes)) <$> ss_blobs s' !! hash) l = omap (λ hash, (λ bytes, (hash, bytes)) <$> ss_blobs s !! hash) l) as Hl.
  { clear Hst. induction l as [|hash l IH]; [done|]. intros Hst. cbn [omap list_omap]. rewrite IH by set_solver.
    specialize (Hst hash ltac:(set_solver)). unfold blob_stored in Hst. destruct (ss_blobs s' !! hash) as [b'|] eqn:E', (ss_blobs s !! hash) as [b|] eqn:E; cbn in *.
    - by rewrite (Hb _ _ _ E E').
    - done.
    - done.
    - done. }
  by apply Hl.
Qed.

(** Signing again gives the same, when the stored signatures and the new ones are the same. *)
Lemma sign_claims_again st st' sign sign' claims sn :
  sign_claims st (Some sign) claims = Ok sn →
  signatures_current st' (zip (cm_id ∘ snd <$> claims) (sn_stored sn)) = Ok true →
  (∀ i c, (i, c) ∈ claims → (signer_input c, sign c) ∈ sn_fresh sn → sign' c = sign c) →
  sign_claims st' (Some sign') claims = Ok sn.
Proof.
  revert sn. induction claims as [|[i c] claims IH]; intros sn; cbn [sign_claims]; [done|].
  intros (stored & _ & Hsn)%result_bind_Ok Hcur Hsign.
  assert (∃ signature fresh rest, sign_claims st (Some sign) claims = Ok rest ∧
    sn = {| sn_stored := stored :: sn_stored rest; sn_signatures := ((λ s, (cm_id c, s)) <$> option_list signature) ++ sn_signatures rest;
            sn_fresh := fresh ++ sn_fresh rest |}%list ∧
    (signature, fresh) = match stored with Some s => (Some s, []) | None => (sign c, [(signer_input c, sign c)]) end) as (signature & fresh & rest & Hrest & -> & Hsf).
  { destruct stored as [s|]; apply result_bind_Ok in Hsn as (rest & Hrest & [= <-]);
      [exists (Some s), [], rest|exists (sign c), [(signer_input c, sign c)], rest]; done. }
  clear Hsn. cbn [fmap list_fmap zip zip_with sn_stored signatures_current] in Hcur. apply result_bind_Ok in Hcur as (now & Hnow & Hcur).
  case_bool_decide as Heq; [subst now|done]. change (envelope_signature st' (cm_id c) = Ok stored) in Hnow. rewrite Hnow. cbn [result_bind].
  rewrite (IH rest Hrest Hcur); [|intros j c' Hj Hfr; apply (Hsign j c'); cbn [sn_fresh]; set_solver].
  destruct stored as [s|]; [by injection Hsf as -> ->|]. injection Hsf as -> ->.
  rewrite (Hsign i c); [done|set_solver|]. cbn [sn_fresh]. set_solver.
Qed.

Lemma seal_batch_again s s' b sign sign' sealed :
  claims_keyed s → claims_keyed s' → same_content s s' →
  seal_batch s b (Some sign) = Ok sealed → sealed_batch_current s' sealed = Ok true →
  (∀ c, (signer_input c, sign c) ∈ sb_fresh sealed → sign' c = sign c) →
  seal_batch s' b (Some sign') = Ok sealed.
Proof.
  intros Hk Hk' Hsame Hseal Hcur Hsign. unfold seal_batch in Hseal. apply result_bind_Ok in Hseal as (sn & Hsn & Hseal).
  apply result_bind_Ok in Hseal as (records & Hrec & Hseal). apply result_bind_Ok in Hseal as (payload & Hpay & [= <-]).
  unfold sealed_batch_current in Hcur. cbn [sb_batch sb_claims sb_named_blobs sb_stored_signatures sb_fresh] in *.
  case_bool_decide as Hclaims; cbn [negb] in Hcur; [|done]. destruct (forallb _ _) eqn:Hblobs; cbn [negb] in Hcur; [|done].
  apply (claims_by_id s s') in Hclaims; [|done..]. pose proof (forallb_blobs _ _ _ Hblobs) as Hst. unfold seal_batch. rewrite Hclaims in *.
  rewrite <-list_fmap_compose in Hcur. rewrite (sign_claims_again _ _ _ _ _ _ Hsn Hcur) by (intros; by apply Hsign). cbn [result_bind].
  rewrite Hrec. cbn [result_bind]. rewrite (blobs_alike s s') by done. rewrite Hpay. cbn [result_bind]. do 2 f_equal.
  apply list_fmap_ext. intros k hash Hl. f_equal. apply Hst. by eapply list_elem_of_lookup_2.
Qed.

(** ** Signers *)

Lemma see_signers fresh signers signers' :
  foldl see_signer (signers, true) fresh = (signers', true) →
  (∀ x, x ∈ signers → x ∈ signers') ∧ ∀ input signature, (input, signature) ∈ fresh → ∃ seen, (input, seen) ∈ signers' ∧ same_signer seen signature = true.
Proof.
  assert (∀ l a, (foldl see_signer a l).2 = true → a.2 = true) as Htrue.
  { induction l as [|x l IH]; intros [l0 b]; [done|]. cbn [foldl]. intros Hb%IH. revert Hb. unfold see_signer. cbn [fst snd].
    destruct (signer_seen x.1 l0); cbn [snd]; [by intros [-> _]%andb_true_iff|done]. }
  revert signers. induction fresh as [|[input signature] fresh IH]; intros signers; cbn [foldl]; [intros [= <-]; split; [done|by intros ?? ?%elem_of_nil]|].
  unfold see_signer at 2. cbn [fst snd]. destruct (signer_seen input signers) as [seen|] eqn:Eseen.
  - intros Hf. pose proof (Htrue fresh _ (eq_trans (f_equal snd Hf) eq_refl)) as Hs. cbn in Hs. rewrite Hs in Hf. apply IH in Hf as [Hsub Hf].
    split; [done|]. intros input' signature' [[= -> ->]|Hin]%elem_of_cons; [|by apply Hf]. exists seen. split; [|done]. apply Hsub.
    unfold signer_seen in Eseen. destruct (List.find _ signers) as [[i s]|] eqn:Ef; [|done]. injection Eseen as <-.
    apply List.find_some in Ef as [Hin Hi]. apply bool_decide_eq_true in Hi. cbn in Hi. subst i. by apply list_elem_of_In.
  - intros Hf. apply IH in Hf as [Hsub Hf]. split; [intros x Hx; apply Hsub; set_solver|].
    intros input' signature' [[= -> ->]|Hin]%elem_of_cons; [|by apply Hf]. exists signature. split; [apply Hsub; set_solver|].
    destruct signature as [s|]; [|done]. cbn. rewrite !String.eqb_refl, !bool_decide_true by done. done.
Qed.

(** The signature a keyring gives is fixed by the signer it chooses. *)
Lemma sign_unsealed_same kr kr' subject nonce c seen :
  match claim_signer_for kr' subject (signer_input c), seen with
  | Some signer, Some s => signed signer s
  | None, None => true
  | _, _ => false
  end = true →
  same_signer seen (sign_unsealed kr subject nonce c) = true →
  sign_unsealed kr' subject nonce c = sign_unsealed kr subject nonce c.
Proof.
  unfold sign_unsealed. destruct (claim_signer_for kr' subject (signer_input c)) as [[[key'] signer' behalf' chain']|], seen as [s|]; try done;
    destruct (claim_signer_for kr subject (signer_input c)) as [[[key] signer behalf chain]|]; cbn; try done.
  unfold signed. cbn. rewrite !andb_true_iff, !bool_decide_eq_true, !String.eqb_eq. intros [[[-> ->] ->] ->] [[[-> ->] ->] ->]. done.
Qed.

(** ** Writing one batch leaves the others as they were *)

Lemma store_signatures_other signatures st st' id :
  store_signatures signatures st = Ok st' → id ∉ signatures.*1 → envelope_signature st' id = envelope_signature st id.
Proof.
  revert st. induction signatures as [|[id' s] signatures IH]; intros st; cbn [store_signatures fmap list_fmap fst]; [by intros [= <-]|].
  intros (st1 & Hst1 & Hst')%result_bind_Ok [Hne Hid]%not_elem_of_cons. rewrite (IH _ Hst' Hid). by eapply store_signature_other.
Qed.

Lemma insert_envelope_claims k row t :
  ft_claims (insert_envelope_row k row t) = ft_claims t ∧ ft_writers (insert_envelope_row k row t) = ft_writers t.
Proof. unfold insert_envelope_row. by destruct (ft_envelopes t !! k). Qed.

(** What a write changes: signatures of its claims, an envelope and records. *)
Lemma write_sealed_frame relay sealed s s' :
  write_sealed_batch_tx relay sealed s = Ok s' →
  ft_claims (ss_fleet s') = ft_claims (ss_fleet s) ∧ ss_index s' = ss_index s ∧ ss_blobs s' = ss_blobs s ∧ ss_fleet_id s' = ss_fleet_id s ∧
  ft_writers (ss_fleet s') = ft_writers (ss_fleet s) ∧
  ∀ id, id ∉ (sb_signatures sealed).*1 → envelope_signature (ss_signatures s') id = envelope_signature (ss_signatures s) id.
Proof.
  unfold write_sealed_batch_tx. intros (st & Hst & [= <-])%result_bind_Ok. cbn [set_records set_fleet set_sig_state ss_fleet ss_index ss_blobs ss_fleet_id ss_signatures].
  destruct (insert_envelope_claims (sealed_key sealed) (sealed_row relay sealed (ss_fleet s)) (ss_fleet s)) as [Hc Hw].
  split_and!; [done..|]. intros id Hid. by eapply store_signatures_other.
Qed.

Lemma sign_claims_ids st sign claims sn id : sign_claims st sign claims = Ok sn → id ∈ (sn_signatures sn).*1 → ∃ i c, (i, c) ∈ claims ∧ cm_id c = id.
Proof.
  revert sn. induction claims as [|[i c] claims IH]; intros sn; cbn [sign_claims]; [intros [= <-] Hid; by apply elem_of_nil in Hid|].
  intros (stored & _ & Hsn)%result_bind_Ok. destruct (match stored with Some _ => _ | None => _ end) as [signature fresh].
  apply result_bind_Ok in Hsn as (rest & Hrest & [= <-]). cbn [sn_signatures]. rewrite fmap_app, elem_of_app. intros [Hid|Hid].
  - destruct signature; cbn in Hid; [|by apply elem_of_nil in Hid]. apply list_elem_of_singleton in Hid as ->. exists i, c. set_solver.
  - destruct (IH _ Hrest Hid) as (j & c' & ? & ?). exists j, c'. set_solver.
Qed.

Lemma seal_batch_parts s b sign sealed :
  seal_batch s b sign = Ok sealed → sb_batch sealed = b ∧
  ∃ sn, sign_claims (ss_signatures s) sign (claims_of_batch s (ba_id b)) = Ok sn ∧ sb_signatures sealed = sn_signatures sn ∧ sb_fresh sealed = sn_fresh sn.
Proof.
  unfold seal_batch. intros (sn & Hsn & Hseal)%result_bind_Ok. apply result_bind_Ok in Hseal as (records & _ & Hseal).
  apply result_bind_Ok in Hseal as (payload & _ & [= <-]). split; [done|]. by exists sn.
Qed.

Lemma sign_claims_ext st st' sign claims :
  (∀ i c, (i, c) ∈ claims → envelope_signature st' (cm_id c) = envelope_signature st (cm_id c)) → sign_claims st' sign claims = sign_claims st sign claims.
Proof.
  induction claims as [|[i c] claims IH]; intros He; [done|]. cbn [sign_claims]. rewrite (He i c) by set_solver. by rewrite IH by set_solver.
Qed.

Lemma write_keyed relay sealed s s' : write_sealed_batch_tx relay sealed s = Ok s' → claims_keyed s → claims_keyed s'.
Proof. intros Hw Hk id c. destruct (write_sealed_frame _ _ _ _ Hw) as (-> & _). apply Hk. Qed.

Lemma seal_batch_frame relay sealed s s' b b' sign sign' :
  claims_keyed s → seal_batch s b sign = Ok sealed → write_sealed_batch_tx relay sealed s = Ok s' → ba_id b' ≠ ba_id b →
  seal_batch s' b' sign' = seal_batch s b' sign'.
Proof.
  intros Hk Hseal Hw Hne. destruct (write_sealed_frame _ _ _ _ Hw) as (Hc & Hi & Hb & _ & _ & Hsig).
  destruct (seal_batch_parts _ _ _ _ Hseal) as (Hb0 & sn & Hsn & Hids & _).
  unfold seal_batch. assert (claims_of_batch s' (ba_id b') = claims_of_batch s (ba_id b')) as ->.
  { unfold claims_of_batch. by rewrite Hc, Hi. }
  assert (collect_referenced_blobs s' (claims_of_batch s (ba_id b')) = collect_referenced_blobs s (claims_of_batch s (ba_id b'))) as ->.
  { unfold collect_referenced_blobs. by rewrite Hb. }
  rewrite (sign_claims_ext (ss_signatures s)).
  - unfold blob_stored. by rewrite Hb.
  - intros i c (id & Hc1 & Hb1 & _)%elem_of_claims_of_batch. apply Hsig. rewrite Hids. intros Hin.
    destruct (sign_claims_ids _ _ _ _ _ Hsn Hin) as (j & c' & (id' & Hc2 & Hb2 & _)%elem_of_claims_of_batch & Heq).
    rewrite (Hk _ _ Hc1), (Hk _ _ Hc2) in Heq. congruence.
Qed.

Lemma Forall2_with_elem {A B} (P : A → B → Prop) l k : Forall2 P l k → Forall2 (λ x y, x ∈ l ∧ P x y) l k.
Proof.
  induction 1 as [|x y l k Hxy Hlk IH]; constructor; [by split; [left|]|]. eapply Forall2_impl; [exact IH|]. intros x' y' [? ?]. split; [by right|done].
Qed.

(** Sealing first and writing then is seeding one after the other. *)
Lemma seed_write relay sign batches sealeds s :
  claims_keyed s → NoDup (ba_id <$> batches) → Forall2 (λ b sealed, seal_batch s b sign = Ok sealed) batches sealeds →
  seed_batches relay sign batches s = write_batches relay sealeds s.
Proof.
  intros Hk Hnd Hall. revert s Hk Hall. revert sealeds. induction batches as [|b batches IH]; intros sealeds s Hk Hall.
  { apply Forall2_nil_inv_l in Hall as ->. done. }
  apply Forall2_cons_inv_l in Hall as (sealed & sealeds' & Hb & Hall & ->). apply NoDup_cons in Hnd as [Hn Hnd].
  cbn [seed_batches write_batches]. rewrite Hb. cbn [result_bind]. destruct (write_sealed_batch_tx relay sealed s) as [s'|e] eqn:Hw; [|done].
  cbn [result_bind]. apply IH; [done|by eapply write_keyed|]. eapply Forall2_impl; [exact (Forall2_with_elem _ _ _ Hall)|]. intros b' sealed' [Hin Hseal].
  rewrite <-Hseal. eapply seal_batch_frame; [exact Hk|exact Hb|exact Hw|]. intros Heq. apply Hn. rewrite <-Heq. by apply list_elem_of_fmap_2.
Qed.

Lemma prepare_batches_sealed s sign budget through batches kept bytes kept' through' :
  prepare_batches s sign budget through batches kept bytes = Ok (kept', through') →
  Forall (λ sealed, seal_batch s (sb_batch sealed) sign = Ok sealed) kept →
  Forall (λ sealed, seal_batch s (sb_batch sealed) sign = Ok sealed) kept'.
Proof.
  revert kept bytes. induction batches as [|b batches IH]; intros kept bytes; cbn [prepare_batches]; [by intros [= <- <-]|].
  intros (sealed & Hs & Hp)%result_bind_Ok Hkept.
  assert (Forall (λ sealed, seal_batch s (sb_batch sealed) sign = Ok sealed) (kept ++ [sealed])) as Hkept'.
  { apply Forall_app. split; [done|]. constructor; [|constructor]. by destruct (seal_batch_parts _ _ _ _ Hs) as [-> _]. }
  destruct (last kept) as [l|]; [|by eapply IH]. destruct (budget <? _)%Z; [by injection Hp as <- <-|by eapply IH].
Qed.

Lemma batches_current_all s batches : batches_current s batches = Ok true → Forall (λ sealed, sealed_batch_current s sealed = Ok true) batches.
Proof.
  induction batches as [|sealed batches IH]; [constructor|]. cbn [batches_current]. intros ([] & Hc & Hrest)%result_bind_Ok; [|done].
  constructor; [done|by apply IH].
Qed.

Lemma unsealed_ids t after through : NoDup (ba_id <$> wr_batches (ft_writers t)) → NoDup (ba_id <$> unsealed_batches t after through).
Proof.
  intros Hnd. unfold unsealed_batches. set (rows := List.filter _ _). assert (NoDup (ba_id <$> rows)) as Hrows.
  { eapply sublist_NoDup; [exact Hnd|]. apply fmap_sublist. subst rows. generalize (wr_batches (ft_writers t)) as l. induction l as [|x l IH]; [done|].
    cbn [List.filter]. destruct (_ && _); by constructor. }
  clearbody rows. destruct after; [rewrite (sort_on_perm ba_rowid rows)|rewrite (sort_on_perm _ rows)]; done.
Qed.

Lemma fresh_signed_alike rings nonces kr subject fresh signers :
  foldl see_signer ([], true) fresh = (signers, true) → (signers = [] ∨ signers_unchanged (Some kr) subject signers = true) →
  ∀ c, (signer_input c, sign_unsealed (rings (cm_id c)) subject (nonces (cm_id c)) c) ∈ fresh →
    sign_unsealed kr subject (nonces (cm_id c)) c = sign_unsealed (rings (cm_id c)) subject (nonces (cm_id c)) c.
Proof.
  intros [_ Hseen]%see_signers Hun c Hin. destruct (Hseen _ _ Hin) as (seen & Hs & Hsame). destruct Hun as [->|Hun]; [by apply elem_of_nil in Hs|].
  cbn [signers_unchanged] in Hun. rewrite forallb_forall in Hun. specialize (Hun (signer_input c, seen) (proj1 (list_elem_of_In _ _) Hs)). cbn [fst snd] in Hun.
  by eapply sign_unsealed_same.
Qed.

Lemma store_envelope_signatures_as origin key fleet_id signatures l t t' :
  (∀ x signature, signatures !! x = Some signature → signature = sign_envelope origin key fleet_id x) →
  store_envelope_signatures origin (mk_public key) signatures l t = Some t' →
  t' = foldl (λ t x, insert_signature_row (origin, x.1, x.2) (mk_public key) (sign_envelope origin key fleet_id x) t) t l.
Proof.
  intros Hsig. revert t. induction l as [|x l IH]; intros t; cbn [store_envelope_signatures foldl]; [by intros [= <-]|].
  destruct (signatures !! x) as [signature|] eqn:Ex; [|done]. rewrite (Hsig _ _ Ex). apply IH.
Qed.

Lemma envelope_signer_fix s s' mk mk' : snd <$> envelope_signer s' mk' = snd <$> envelope_signer s mk → envelope_signer s' mk' = envelope_signer s mk.
Proof. unfold envelope_signer. destruct mk as [[k]|], mk' as [[k']|]; cbn; [|done..]. by intros [= -> ->]. Qed.

(** The signatures a preparation makes are the member key's. *)
Lemma prepared_signatures s origin mk sign frontier target budget p :
  prepare_seal s origin mk sign frontier target budget = Ok (Some p) →
  ps_seeded_through p = frontier ∧ ps_origin p = origin ∧ ps_signer p = snd <$> envelope_signer s mk ∧
  Forall (λ sealed, seal_batch s (sb_batch sealed) (Some sign) = Ok sealed) (ps_batches p) ∧
  foldl see_signer ([], true) (ps_batches p ≫= sb_fresh) = (ps_signers p, ps_signers_agree p) ∧
  ∀ key fleet_id, envelope_signer s mk = Some (key, {| es_member_key := mk_public key; es_fleet_id := Some fleet_id |}) →
    ∀ x signature, ps_envelope_signatures p !! x = Some signature → signature = sign_envelope origin key fleet_id x.
Proof.
  unfold prepare_seal. destruct (target <=? frontier)%Z; [done|]. intros ([batches through] & Hb & Hp)%result_bind_Ok.
  destruct (foldl see_signer ([], true) (batches ≫= sb_fresh)) as [signers agree] eqn:Esee. injection Hp as <-. cbn [ps_seeded_through ps_origin ps_signer ps_batches ps_signers ps_signers_agree ps_envelope_signatures].
  split_and!; [done..|eapply prepare_batches_sealed; [exact Hb|constructor]|done|].
  intros key fleet_id -> x signature Hx. apply elem_of_list_to_map_2 in Hx. apply list_elem_of_fmap in Hx as (y & [= -> ->] & _). done.
Qed.

(** C14: a chunk of batches that was prepared away from the writer and is committed holds what
    sealing under the writer would have stored from the store as it is at the commit, with the
    keyring as it is then: the same signatures by the same signers (but for their nonces),
    the same envelopes, records and envelope signatures, whatever happened to the store and
    the keyring in between, claim by claim. *)
Theorem prepared_seal_as_under_writer s s' s'' origin mk mk' (rings : string → Keyring) nonces kr frontier target budget p :
  claims_keyed s → claims_keyed s' → same_content s s' → NoDup (ba_id <$> wr_batches (ft_writers (ss_fleet s'))) →
  prepare_seal s origin mk (λ c, sign_unsealed (rings (cm_id c)) (node_subject origin) (nonces (cm_id c)) c) frontier target budget = Ok (Some p) →
  seal_prepared_tx s' origin mk' (Some kr) p = Ok (Some s'') →
  seal_under_writer s' origin mk' (λ c, sign_unsealed kr (node_subject origin) (nonces (cm_id c)) c) frontier (ps_through p) = Ok s''.
Proof.
  intros Hk Hk' Hsame Hnd (Hfrom & Ho & Hsigner & Hsealed & Hsee & Hsigs)%prepared_signatures. unfold seal_prepared_tx.
  rewrite Ho, String.eqb_refl, Hfrom. cbn [negb]. case_bool_decide as Hes; cbn [negb]; [|done]. rewrite Hsigner in Hes. apply envelope_signer_fix in Hes.
  case_bool_decide as Hun; cbn [negb]; [|done]. intros (current & Hcur & Hrun)%result_bind_Ok. destruct current; cbn [negb] in Hrun; [|done].
  destruct (ps_signers_agree p); cbn [negb] in Hrun; [|done]. destruct (negb (bool_decide (ps_signers p = [])) && _) eqn:Eun; [done|].
  assert (ps_signers p = [] ∨ signers_unchanged (Some kr) (node_subject origin) (ps_signers p) = true) as Hsg.
  { apply andb_false_iff in Eun as [?%negb_false_iff%bool_decide_eq_true|?%negb_false_iff]; auto. }
  apply result_bind_Ok in Hrun as (s1 & Hw & Hrun). unfold seal_under_writer, seed_replica_envelopes_signed_tx.
  rewrite Hun, (seed_write _ _ _ (ps_batches p)); [|done|rewrite <-Hun; by apply unsealed_ids|].
  - rewrite Hw. cbn [result_bind]. f_equal. unfold sign_own_envelopes. rewrite Hes. rewrite Hes in Hrun.
    destruct (envelope_signer s mk) as [[key [pub [fleet_id|]]]|] eqn:Esig; [|by injection Hrun as <-..].
    assert (pub = mk_public key) as ->. { unfold envelope_signer in Esig. destruct mk as [k|]; [|done]. cbn in Esig. by injection Esig as <- <- _. }
    destruct (store_envelope_signatures _ _ _ _ _) as [t|] eqn:Est; [|done]. injection Hrun as <-.
    apply (store_envelope_signatures_as _ _ fleet_id) in Est as ->; [done|]. by apply (Hsigs key fleet_id).
  - apply batches_current_all in Hcur. apply Forall2_fmap_l, Forall_Forall2_diag. rewrite Forall_forall in Hsealed, Hcur |- *.
    intros sealed Hin. eapply seal_batch_again; [exact Hk|exact Hk'|exact Hsame|by apply Hsealed|by apply Hcur|].
    intros c Hc. eapply fresh_signed_alike; [exact Hsee|exact Hsg|]. apply list_elem_of_bind. by exists sealed.
Qed.

(** ** A quiet store seals *)

(** Rowids tell batches apart. *)
Definition rowids_unique (t : FleetTables) : Prop := NoDup (ba_rowid <$> wr_batches (ft_writers t)).

Lemma filter_sublist_of {A} (f : A → bool) l : List.filter f l `sublist_of` l.
Proof. induction l as [|x l IH]; cbn [List.filter]; [done|]. destruct (f x); by constructor. Qed.

Lemma sorted_filter (f : Batch → bool) l : StronglySorted (key_lt ba_rowid) l → StronglySorted (key_lt ba_rowid) (List.filter f l).
Proof.
  induction 1 as [|x l Hs IH Hx]; cbn [List.filter]; [constructor|]. destruct (f x); [|done]. constructor; [done|].
  rewrite Forall_forall in *. intros y Hy. apply Hx. eapply elem_of_sublist; [exact Hy|apply filter_sublist_of].
Qed.

Lemma filter_perm_of {A} (f : A → bool) l l' : l ≡ₚ l' → List.filter f l ≡ₚ List.filter f l'.
Proof.
  induction 1 as [|x l l' H4 IH|x y l|l1 l2 l3 H4 IH1 H5 IH2]; cbn [List.filter]; [done| | |by etransitivity].
  - destruct (f x); [by constructor|done].
  - destruct (f x), (f y); try done. constructor.
Qed.

Lemma filter_filter_of {A} (f g : A → bool) l : List.filter f (List.filter g l) = List.filter (λ x, g x && f x) l.
Proof. induction l as [|x l IH]; [done|]. cbn [List.filter]. destruct (g x); cbn [List.filter andb]; by rewrite IH. Qed.

Lemma unsealed_sorted t after through : rowids_unique t → StronglySorted (key_lt ba_rowid) (unsealed_batches t (Some after) through).
Proof. intros Hu. unfold unsealed_batches. apply sort_on_sorted. eapply sublist_NoDup; [exact Hu|]. apply fmap_sublist, filter_sublist_of. Qed.

(** A shorter reach is a part of a longer one. *)
Lemma unsealed_shorter t after chunk through :
  rowids_unique t → (through <= chunk)%Z →
  unsealed_batches t (Some after) (Some through) = List.filter (λ b, ba_rowid b <=? through)%Z (unsealed_batches t (Some after) (Some chunk)).
Proof.
  intros Hu Hle. apply (key_sorted_ext ba_rowid); [by apply unsealed_sorted|by apply sorted_filter, unsealed_sorted|].
  unfold unsealed_batches. rewrite (sort_on_perm ba_rowid). rewrite (filter_perm_of _ _ _ (sort_on_perm ba_rowid _)), filter_filter_of.
  apply Permutation_refl'. induction (wr_batches (ft_writers t)) as [|b l IH]; [done|]. cbn [List.filter]. rewrite IH.
  assert (in_range (Some after) (Some through) (ba_rowid b) && negb (has_envelope t (ba_id b)) =
    in_range (Some after) (Some chunk) (ba_rowid b) && negb (has_envelope t (ba_id b)) && (ba_rowid b <=? through)%Z) as ->; [|done].
  unfold in_range. destruct (Z.leb_spec (ba_rowid b) through), (Z.leb_spec (ba_rowid b) chunk); try lia;
    destruct (Z.min i64_max (after + 1) <=? ba_rowid b)%Z, (has_envelope t (ba_id b)); done.
Qed.

(** The batches a preparation keeps: the first ones, up to where it reaches. *)
Lemma prepare_batches_reach s sign budget chunk batches kept bytes kept' through :
  prepare_batches s sign budget chunk batches kept bytes = Ok (kept', through) →
  ∃ rest, ((sb_batch <$> kept) ++ batches)%list = ((sb_batch <$> kept') ++ rest)%list ∧
    (rest = [] ∧ through = chunk ∨ rest ≠ [] ∧ ∃ sealed, last kept' = Some sealed ∧ through = ba_rowid (sb_batch sealed)).
Proof.
  revert kept bytes. induction batches as [|b batches IH]; intros kept bytes; cbn [prepare_batches].
  { intros [= <- <-]. exists []. by split; [|left]. }
  intros (sealed & Hs & Hp)%result_bind_Ok. destruct (seal_batch_parts _ _ _ _ Hs) as [Hb _].
  assert (∀ bytes', prepare_batches s sign budget chunk batches (kept ++ [sealed]) bytes' = Ok (kept', through) →
    ∃ rest, ((sb_batch <$> kept) ++ b :: batches)%list = ((sb_batch <$> kept') ++ rest)%list ∧
      (rest = [] ∧ through = chunk ∨ rest ≠ [] ∧ ∃ sealed, last kept' = Some sealed ∧ through = ba_rowid (sb_batch sealed))) as Hgo.
  { intros bytes' Hp'. apply IH in Hp' as (rest & Hrest & Hcase). exists rest. split; [|done]. rewrite <-Hrest, fmap_app, <-app_assoc. cbn. by rewrite Hb. }
  destruct (last kept) as [l|] eqn:El; [|by eapply Hgo]. destruct (budget <? _)%Z; [|by eapply Hgo].
  injection Hp as <- <-. exists (b :: batches). split; [done|]. right. split; [done|]. by exists l.
Qed.

Lemma filter_prefix (l rest : list Batch) x :
  StronglySorted (key_lt ba_rowid) (l ++ rest) → last l = Some x → List.filter (λ b, ba_rowid b <=? ba_rowid x)%Z (l ++ rest) = l.
Proof.
  intros Hs Hx. rewrite List.filter_app. assert (∀ y z, y ∈ l → z ∈ rest → key_lt ba_rowid y z) as Hlr.
  { intros y z Hy Hz. apply StronglySorted_app in Hs as (Hlt & _). by apply Hlt. }
  assert (x ∈ l) as Hxl by (by apply last_Some_elem_of).
  assert (∀ y, y ∈ l → (ba_rowid y <= ba_rowid x)%Z) as Hle.
  { apply StronglySorted_app in Hs as (_ & Hl & _). clear Hlr Hxl. revert Hl Hx. clear. induction l as [|a l IH]; [by intros _ _ ? ?%elem_of_nil|].
    intros Hl Hx y. apply StronglySorted_inv in Hl as [Hl Ha]. destruct l as [|b l]; [injection Hx as ->; intros ->%list_elem_of_singleton; lia|].
    rewrite last_cons_cons in Hx. intros [->|Hy]%elem_of_cons; [|by apply IH]. apply last_Some_elem_of in Hx. rewrite Forall_forall in Ha. specialize (Ha _ Hx).
    by apply Z.lt_le_incl. }
  assert (List.filter (λ b, ba_rowid b <=? ba_rowid x)%Z l = l) as ->.
  { clear Hs Hx Hlr Hxl. induction l as [|a l IH]; [done|]. cbn [List.filter]. rewrite (proj2 (Z.leb_le _ _)) by (apply Hle; set_solver).
    f_equal. apply IH. intros y Hy. apply Hle. set_solver. }
  assert (List.filter (λ b, ba_rowid b <=? ba_rowid x)%Z rest = []) as ->; [|by rewrite app_nil_r].
  clear Hs. induction rest as [|a rest IH]; [done|]. cbn [List.filter]. specialize (Hlr x a Hxl ltac:(set_solver)) as Hxa.
  rewrite (proj2 (Z.leb_gt _ _)) by exact Hxa. apply IH. set_solver.
Qed.

Lemma elem_of_unsealed t after through b :
  b ∈ unsealed_batches t (Some after) (Some through) ↔
  b ∈ wr_batches (ft_writers t) ∧ in_range (Some after) (Some through) (ba_rowid b) = true ∧ has_envelope t (ba_id b) = false.
Proof.
  unfold unsealed_batches. rewrite (elem_of_Permutation_proper _ _ _ (sort_on_perm ba_rowid _)), list_elem_of_In, filter_In, <-list_elem_of_In, andb_true_iff, negb_true_iff. done.
Qed.

(** The chunk that was prepared is the one the writer finds. *)
Lemma prepared_reach s sign budget after chunk kept through :
  rowids_unique (ss_fleet s) → prepare_batches s sign budget chunk (unsealed_batches (ss_fleet s) (Some after) (Some chunk)) [] 0 = Ok (kept, through) →
  (through <= chunk)%Z ∧ unsealed_batches (ss_fleet s) (Some after) (Some through) = sb_batch <$> kept.
Proof.
  intros Hu (rest & Hrest & Hcase)%prepare_batches_reach. cbn [fmap list_fmap app] in Hrest. destruct Hcase as [[-> ->]|(_ & sealed & Hlast & ->)].
  { split; [lia|]. by rewrite Hrest, app_nil_r. }
  assert (last (sb_batch <$> kept) = Some (sb_batch sealed)) as Hl by (by rewrite fmap_last, Hlast).
  assert ((ba_rowid (sb_batch sealed) <= chunk)%Z) as Hle.
  { assert (sb_batch sealed ∈ unsealed_batches (ss_fleet s) (Some after) (Some chunk)) as (_ & Hr & _)%elem_of_unsealed.
    { rewrite Hrest. apply elem_of_app. left. by apply last_Some_elem_of. }
    unfold in_range in Hr. apply andb_true_iff in Hr as [_ Hr]. by apply Z.leb_le. }
  split; [done|]. rewrite (unsealed_shorter _ _ chunk) by done. rewrite Hrest. apply filter_prefix; [|done]. rewrite <-Hrest. by apply unsealed_sorted.
Qed.

Lemma signatures_current_own st sign claims sn :
  sign_claims st sign claims = Ok sn → signatures_current st (zip (cm_id ∘ snd <$> claims) (sn_stored sn)) = Ok true.
Proof.
  revert sn. induction claims as [|[i c] claims IH]; intros sn; cbn [sign_claims]; [by intros [= <-]|].
  intros (stored & Hst & Hsn)%result_bind_Ok. destruct (match stored with Some _ => _ | None => _ end) as [signature fresh].
  apply result_bind_Ok in Hsn as (rest & Hrest & [= <-]). cbn [fmap list_fmap sn_stored zip zip_with signatures_current].
  change ((cm_id ∘ snd) (i, c)) with (cm_id c). rewrite Hst. cbn [result_bind]. rewrite bool_decide_true by done. by apply IH.
Qed.

Lemma sealed_current_own s b sign sealed : seal_batch s b sign = Ok sealed → sealed_batch_current s sealed = Ok true.
Proof.
  unfold seal_batch. intros (sn & Hsn & Hseal)%result_bind_Ok. apply result_bind_Ok in Hseal as (records & _ & Hseal).
  apply result_bind_Ok in Hseal as (payload & _ & [= <-]). unfold sealed_batch_current. cbn [sb_batch sb_claims sb_named_blobs sb_stored_signatures].
  rewrite bool_decide_true by done. cbn [negb]. assert (forallb (λ x, Bool.eqb (blob_stored s x.1) x.2) ((λ hash, (hash, blob_stored s hash)) <$> named_of (claims_of_batch s (ba_id b))) = true) as ->.
  { apply forallb_forall. intros x (hash & -> & _)%list_elem_of_In%list_elem_of_fmap. apply eqb_reflx. }
  cbn [negb]. rewrite <-list_fmap_compose. by eapply signatures_current_own.
Qed.

Lemma batches_current_own s sign batches :
  Forall (λ sealed, seal_batch s (sb_batch sealed) sign = Ok sealed) batches → batches_current s batches = Ok true.
Proof. induction 1 as [|sealed batches Hs _ IH]; [done|]. cbn [batches_current]. rewrite (sealed_current_own _ _ _ _ Hs). done. Qed.

(** With one keyring, every claim of an input is signed by one signer. *)
Definition signed_as (kr : Keyring) (subject : string) (x : SignerInput * option ClaimSignature) : bool :=
  match claim_signer_for kr subject x.1, x.2 with
  | Some signer, Some signature => signed signer signature
  | None, None => true
  | _, _ => false
  end.

Lemma sign_unsealed_as kr subject nonce c : signed_as kr subject (signer_input c, sign_unsealed kr subject nonce c) = true.
Proof.
  unfold signed_as, sign_unsealed. cbn [fst snd]. destruct (claim_signer_for kr subject (signer_input c)) as [[key signer behalf chain]|]; [|done].
  cbn. unfold signed. cbn. by rewrite !String.eqb_refl, !bool_decide_true.
Qed.

Lemma signed_as_same kr subject input one other :
  signed_as kr subject (input, one) = true → signed_as kr subject (input, other) = true → same_signer one other = true.
Proof.
  unfold signed_as. cbn [fst snd]. destruct (claim_signer_for kr subject input) as [signer|], one as [one|], other as [other|]; try done.
  unfold signed, same_signer. rewrite !andb_true_iff, !bool_decide_eq_true, !String.eqb_eq. intros [[[-> ->] ->] ->] [[[-> ->] ->] ->]. done.
Qed.

Lemma see_signers_as kr subject fresh signers :
  Forall (λ x, signed_as kr subject x = true) signers → Forall (λ x, signed_as kr subject x = true) fresh →
  (foldl see_signer (signers, true) fresh).2 = true ∧ Forall (λ x, signed_as kr subject x = true) (foldl see_signer (signers, true) fresh).1.
Proof.
  intros Hs Hf. revert signers Hs. induction Hf as [|[input signature] fresh Hx _ IH]; intros signers Hs; [done|]. cbn [foldl].
  unfold see_signer at 2 4. cbn [fst snd]. destruct (signer_seen input signers) as [seen|] eqn:Eseen.
  - assert (same_signer seen signature = true) as Hsame; [|cbn [andb]; rewrite Hsame; by apply IH].
    unfold signer_seen in Eseen. destruct (List.find _ signers) as [[i' s']|] eqn:Ef; [|done]. injection Eseen as <-.
    apply List.find_some in Ef as [Hin Hi]. apply bool_decide_eq_true in Hi. cbn in Hi. subst i'. rewrite Forall_forall in Hs.
    eapply signed_as_same; [|exact Hx]. by apply Hs, list_elem_of_In.
  - apply IH. apply Forall_app. split; [done|]. by constructor.
Qed.

Lemma fresh_as kr subject nonces st claims sn :
  sign_claims st (Some (λ c, sign_unsealed kr subject (nonces (cm_id c)) c)) claims = Ok sn → Forall (λ x, signed_as kr subject x = true) (sn_fresh sn).
Proof.
  revert sn. induction claims as [|[i c] claims IH]; intros sn; cbn [sign_claims]; [by intros [= <-]|].
  intros (stored & _ & Hsn)%result_bind_Ok. destruct stored as [s0|]; apply result_bind_Ok in Hsn as (rest & Hrest & [= <-]); cbn [sn_fresh app]; [by apply IH|].
  constructor; [apply sign_unsealed_as|by apply IH].
Qed.

(** What writing batches does to the fleet's tables. *)
Record envelopes_grow (keys : list envelope_key) (t t' : FleetTables) : Prop := {
  eg_writers : ft_writers t' = ft_writers t;
  eg_signatures : ft_signatures t' = ft_signatures t;
  eg_keep k row : ft_envelopes t !! k = Some row → ft_envelopes t' !! k = Some row;
  eg_new k row : ft_envelopes t' !! k = Some row → ft_envelopes t !! k = Some row ∨ k ∈ keys;
  eg_all k : k ∈ keys → is_Some (ft_envelopes t' !! k)
}.

Lemma insert_envelope_grows k row t : envelopes_grow [k] t (insert_envelope_row k row t).
Proof.
  unfold insert_envelope_row. destruct (ft_envelopes t !! k) as [old|] eqn:E.
  - split; [done|done|done|by left|]. intros k' ->%list_elem_of_singleton. by rewrite E.
  - split; cbn; [done|done|..].
    + intros k' row' Hk'. rewrite lookup_insert_ne; [done|]. intros ->. congruence.
    + intros k' row' [[<- _]|[_ ?]]%lookup_insert_Some; [right; set_solver|by left].
    + intros k' ->%list_elem_of_singleton. by rewrite lookup_insert_eq.
Qed.

Lemma envelopes_grow_trans keys keys' t t' t'' : envelopes_grow keys t t' → envelopes_grow keys' t' t'' → envelopes_grow (keys ++ keys') t t''.
Proof.
  intros [W1 S1 K1 N1 A1] [W2 S2 K2 N2 A2]. split; [congruence|congruence|auto|..].
  - intros k row Hk. destruct (N2 _ _ Hk) as [Hk'|]; [|set_solver]. destruct (N1 _ _ Hk'); set_solver.
  - intros k [Hk|Hk]%elem_of_app; [|auto]. destruct (A1 _ Hk) as [row Hrow]. exists row. auto.
Qed.

Lemma write_batches_grow relay batches s s' : write_batches relay batches s = Ok s' → envelopes_grow (sealed_key <$> batches) (ss_fleet s) (ss_fleet s').
Proof.
  revert s. induction batches as [|sealed batches IH]; intros s; cbn [write_batches fmap list_fmap].
  { intros [= <-]. split; auto. intros k []%elem_of_nil. }
  intros (s1 & Hw & Hrest)%result_bind_Ok. change (sealed_key sealed :: (sealed_key <$> batches)) with ([sealed_key sealed] ++ (sealed_key <$> batches))%list.
  eapply envelopes_grow_trans; [|by apply IH]. unfold write_sealed_batch_tx in Hw. apply result_bind_Ok in Hw as (st & _ & [= <-]).
  apply insert_envelope_grows.
Qed.

Lemma elem_of_unsigned t origin key where_ n h :
  (n, h) ∈ unsigned_of t origin key where_ ↔
  ∃ row, ft_envelopes t !! (origin, n, h) = Some row ∧ where_ row = true ∧ ft_signatures t !! ((origin, n, h), key) = None.
Proof.
  unfold unsigned_of. rewrite (elem_of_Permutation_proper _ _ _ (sort_on_perm fst _)), list_elem_of_omap. split.
  - intros ([[[w n'] h'] row] & Hin%elem_of_map_to_list & Hx). cbn [fst snd] in Hx.
    destruct (String.eqb_spec w origin) as [->|]; cbn [andb] in Hx; [|done]. destruct (where_ row) eqn:Ew; cbn [andb] in Hx; [|done].
    case_bool_decide as Hs; cbn [negb] in Hx; [done|]. injection Hx as -> ->. exists row. split_and!; [done..|]. by apply eq_None_not_Some.
  - intros (row & Hrow & Hw & Hs). exists ((origin, n, h), row). rewrite elem_of_map_to_list. cbn [fst snd]. split; [done|].
    rewrite String.eqb_refl, Hw, bool_decide_false; [done|]. by apply eq_None_not_Some.
Qed.

(** An envelope the writer finds unsigned was so before, or was just sealed. *)
Lemma own_unsigned_grow keys t t' origin key after through n h :
  envelopes_grow keys t t' → (n, h) ∈ own_unsigned_envelopes t' origin key (Some after) through →
  (n, h) ∈ own_unsigned_envelopes t origin key (Some after) through ∨ (origin, n, h) ∈ keys.
Proof.
  intros [Hw Hs _ Hnew _]. unfold own_unsigned_envelopes. rewrite !elem_of_unsigned. intros (row & Hrow & Hwhere & Hsig). destruct (Hnew _ _ Hrow) as [Hold|]; [|by right].
  left. exists row. split_and!; [done| |by rewrite <-Hs]. unfold batch_rowid, batch_of in *. by rewrite Hw in Hwhere.
Qed.

Lemma store_envelope_signatures_found origin key signatures l t :
  (∀ x, x ∈ l → is_Some (signatures !! x)) → ∃ t', store_envelope_signatures origin key signatures l t = Some t'.
Proof.
  revert t. induction l as [|x l IH]; intros t Hl; cbn [store_envelope_signatures]; [eauto|]. destruct (Hl x ltac:(set_solver)) as [signature ->]. apply IH. set_solver.
Qed.

Lemma store_envelope_signatures_tables origin key signatures l t t' :
  store_envelope_signatures origin key signatures l t = Some t' → ft_envelopes t' = ft_envelopes t ∧ ft_writers t' = ft_writers t.
Proof.
  revert t. induction l as [|x l IH]; intros t; cbn [store_envelope_signatures]; [by intros [= <-]|]. destruct (signatures !! x); [|done]. intros [-> ->]%IH.
  unfold insert_signature_row. by destruct (ft_signatures t !! _).
Qed.

(** In a quiet store the writer finds everything as it was prepared. *)
Lemma quiet_chunk s origin mk nonces kr frontier target budget p :
  rowids_unique (ss_fleet s) →
  prepare_seal s origin mk (λ c, sign_unsealed kr (node_subject origin) (nonces (cm_id c)) c) frontier target budget = Ok (Some p) →
  match write_batches origin (ps_batches p) s with
  | Err e => seal_prepared_tx s origin mk (Some kr) p = Err e
  | Ok s1 => ∃ s2, seal_prepared_tx s origin mk (Some kr) p = Ok (Some s2) ∧ ft_envelopes (ss_fleet s2) = ft_envelopes (ss_fleet s1) ∧
      ft_writers (ss_fleet s2) = ft_writers (ss_fleet s1) ∧ ss_signatures s2 = ss_signatures s1
  end.
Proof.
  intros Hu Hprep. pose proof (prepared_signatures _ _ _ _ _ _ _ _ Hprep) as (Hfrom & Ho & Hsigner & Hsealed & Hsee & Hsigs).
  assert (Forall (λ x, signed_as kr (node_subject origin) x = true) (ps_batches p ≫= sb_fresh)) as Hfresh.
  { apply Forall_forall. intros x (sealed & Hx & Hin)%list_elem_of_bind. rewrite Forall_forall in Hsealed. specialize (Hsealed _ Hin).
    destruct (seal_batch_parts _ _ _ _ Hsealed) as (_ & sn & Hsn & _ & Hf). rewrite Hf in Hx. pose proof (fresh_as _ _ _ _ _ _ Hsn) as Has.
    rewrite Forall_forall in Has. by apply Has. }
  destruct (see_signers_as kr (node_subject origin) (ps_batches p ≫= sb_fresh) []) as [Hagree Hall]; [constructor|done|]. rewrite Hsee in Hagree, Hall. cbn [fst snd] in Hagree, Hall.
  assert (signers_unchanged (Some kr) (node_subject origin) (ps_signers p) = true) as Hunch.
  { apply forallb_forall. intros x Hx. rewrite Forall_forall in Hall. apply (Hall x), list_elem_of_In, Hx. }
  assert (unsealed_batches (ss_fleet s) (Some (ps_seeded_through p)) (Some (ps_through p)) = sb_batch <$> ps_batches p ∧
    ∀ key fleet_id, envelope_signer s mk = Some (key, {| es_member_key := mk_public key; es_fleet_id := Some fleet_id |}) →
      ∀ x, x ∈ own_unsigned_envelopes (ss_fleet s) origin (mk_public key) (Some frontier) (Some (ps_through p)) ∨ (origin, x.1, x.2) ∈ sealed_key <$> ps_batches p →
        is_Some (ps_envelope_signatures p !! x)) as [Hreach Hfound].
  { revert Hprep. unfold prepare_seal. destruct (target <=? frontier)%Z; [done|]. intros ([batches through] & Hb & Hp)%result_bind_Ok.
    destruct (foldl see_signer ([], true) (batches ≫= sb_fresh)) as [signers agree]. injection Hp as <-. cbn [ps_seeded_through ps_through ps_batches ps_envelope_signatures].
    split; [by apply prepared_reach in Hb as [_ ?]|]. intros key fleet_id -> x Hx. apply not_eq_None_Some. intros Hnone%not_elem_of_list_to_map. apply Hnone.
    rewrite <-list_fmap_compose. apply list_elem_of_fmap. exists x. split; [done|]. apply elem_of_app. destruct Hx as [Hx|Hx]; [by left|right].
    apply list_elem_of_fmap in Hx as (sealed & Hk & Hin). apply list_elem_of_omap. exists sealed. split; [done|]. unfold sealed_key in Hk. injection Hk as Hko Hkn Hkh.
    rewrite <-Hko, String.eqb_refl, <-Hkn, <-Hkh. by destruct x. }
  unfold seal_prepared_tx. rewrite Ho, String.eqb_refl, Hsigner, Hreach, (batches_current_own _ _ _ Hsealed), Hagree, Hunch. rewrite !bool_decide_true by done.
  cbn [negb result_bind]. rewrite andb_false_r. destruct (write_batches origin (ps_batches p) s) as [s1|e] eqn:Hw; cbn [result_bind]; [|done].
  apply write_batches_grow in Hw. rewrite Hfrom. destruct (envelope_signer s mk) as [[key [pub [fleet_id|]]]|] eqn:Esig; [|by exists s1..].
  assert (pub = mk_public key) as ->. { unfold envelope_signer in Esig. destruct mk as [k|]; [|done]. cbn in Esig. by injection Esig as <- <- _. }
  destruct (store_envelope_signatures_found origin (mk_public key) (ps_envelope_signatures p)
    (own_unsigned_envelopes (ss_fleet s1) origin (mk_public key) (Some frontier) (Some (ps_through p))) (ss_fleet s1)) as [t' Ht'].
  { intros [n h] Hin. apply (Hfound key fleet_id eq_refl). eapply own_unsigned_grow; [exact Hw|done]. }
  rewrite Ht'. exists (set_fleet t' s1). split; [done|]. apply store_envelope_signatures_tables in Ht' as [? ?]. by split_and!.
Qed.

(** ** A store that nobody else changes *)

(** The encoders of claims and payloads, which write to memory, succeed. *)
Record encoders_work : Prop := {
  ew_claim c : ∃ bytes, encode_claim c = Ok bytes;
  ew_payload p : ∃ bytes, encode_payload p = Ok bytes
}.

Context `{!SealSignaturesReadable}.

Lemma sign_claims_total st sign claims : readable st → ∃ sn, sign_claims st sign claims = Ok sn.
Proof.
  intros Hr. induction claims as [|[i c] claims [rest IH]]; cbn [sign_claims]; [eauto|]. destruct (readable_read st (cm_id c) Hr) as [stored ->]. cbn [result_bind].
  rewrite IH. destruct stored, sign; cbn; eauto.
Qed.

Lemma seal_records_total claims : encoders_work → ∃ records, seal_records claims = Ok records.
Proof.
  intros Hn. induction claims as [|x claims [rest IH]]; cbn [seal_records]; [eauto|]. destruct (ew_claim Hn (wire_claim x)) as [raw ->]. rewrite IH. cbn. eauto.
Qed.

Lemma seal_batch_total s b sign : encoders_work → readable (ss_signatures s) → ∃ sealed, seal_batch s b sign = Ok sealed.
Proof.
  intros Hn Hr. unfold seal_batch. destruct (sign_claims_total (ss_signatures s) sign (claims_of_batch s (ba_id b)) Hr) as [sn ->]. cbn [result_bind].
  destruct (seal_records_total (claims_of_batch s (ba_id b)) Hn) as [records ->]. cbn [result_bind].
  destruct (ew_payload Hn (payload_of b (claims_of_batch s (ba_id b)) (collect_referenced_blobs s (claims_of_batch s (ba_id b))) (sn_signatures sn))) as [payload ->].
  cbn. eauto.
Qed.

Lemma prepare_batches_total s sign budget through batches kept bytes :
  encoders_work → readable (ss_signatures s) → ∃ x, prepare_batches s sign budget through batches kept bytes = Ok x.
Proof.
  intros Hn Hr. revert kept bytes. induction batches as [|b batches IH]; intros kept bytes; cbn [prepare_batches]; [eauto|].
  destruct (seal_batch_total s b sign Hn Hr) as [sealed ->]. cbn [result_bind]. destruct (last kept); [|apply IH]. destruct (budget <? _)%Z; [eauto|apply IH].
Qed.

Lemma write_batches_total relay batches s :
  readable (ss_signatures s) → ∃ s', write_batches relay batches s = Ok s' ∧ readable (ss_signatures s').
Proof.
  revert s. induction batches as [|sealed batches IH]; intros s Hr; cbn [write_batches]; [eauto|]. unfold write_sealed_batch_tx.
  assert (∃ st, store_signatures (sb_signatures sealed) (ss_signatures s) = Ok st ∧ readable st) as (st & -> & Hst); [|cbn [result_bind]; by apply IH].
  revert Hr. generalize (ss_signatures s) as st. induction (sb_signatures sealed) as [|[id g] l IHl]; intros st Hr; cbn [store_signatures]; [eauto|].
  destruct (readable_store id g st Hr) as (st' & -> & Hr'). by apply IHl.
Qed.

Lemma chunk_through_range t frontier target : (frontier < target)%Z → (frontier < chunk_through t frontier target <= target)%Z.
Proof.
  intros Hlt. unfold chunk_through. destruct (last _) as [n|] eqn:El; cbn [default from_option id]; [|lia]. apply last_Some_elem_of, elem_of_take in El as (i & El & _).
  apply list_elem_of_lookup_2 in El. rewrite (elem_of_Permutation_proper _ _ _ (sort_on_perm id _)) in El.
  apply list_elem_of_In, filter_In in El as [_ [?%Z.ltb_lt ?%Z.leb_le]%andb_true_iff]. lia.
Qed.

(** A batch that has an envelope, or whose envelope's identity is there. *)
Definition sealed_in (t : FleetTables) (b : Batch) : Prop :=
  has_envelope t (ba_id b) = true ∨
  ∃ payload, is_Some (ft_envelopes t !! ((ba_origin b, ba_replica_sequence b,
    replica_envelope_hash sha256 hex_encode (ba_origin b) (ba_replica_sequence b) (ba_previous_hash b) (ba_accepted_at_unix_ms b) payload) : envelope_key)).

Lemma sealed_in_grow keys t t' b : envelopes_grow keys t t' → sealed_in t b → sealed_in t' b.
Proof.
  intros [_ _ Hk _ _] [He|(payload & row & Hrow)]; [left|right; exists payload, row; auto]. unfold has_envelope in *. apply bool_decide_eq_true in He as (k & row & Hrow & Hb).
  apply bool_decide_eq_true. exists k, row. auto.
Qed.

Lemma seal_batch_hash s b sign sealed : seal_batch s b sign = Ok sealed →
  sealed_key sealed = (ba_origin b, ba_replica_sequence b,
    replica_envelope_hash sha256 hex_encode (ba_origin b) (ba_replica_sequence b) (ba_previous_hash b) (ba_accepted_at_unix_ms b) (sb_payload sealed)).
Proof.
  unfold seal_batch. intros (sn & _ & Hseal)%result_bind_Ok. apply result_bind_Ok in Hseal as (records & _ & Hseal). by apply result_bind_Ok in Hseal as (payload & _ & [= <-]).
Qed.

(** One chunk in a quiet store: the frontier moves, and what it passes is sealed. *)
Lemma quiet_step s origin mk nonces kr frontier target budget :
  encoders_work → readable (ss_signatures s) → rowids_unique (ss_fleet s) → (frontier < target <= i64_max)%Z →
  ∃ s' frontier', seal_local_batch_chunk s s origin mk mk (λ c, sign_unsealed kr (node_subject origin) (nonces (cm_id c)) c) (Some kr) frontier frontier target budget =
      Ok (s', frontier', true) ∧ (frontier < frontier' <= target)%Z ∧ readable (ss_signatures s') ∧ ft_writers (ss_fleet s') = ft_writers (ss_fleet s) ∧
    (∀ b, sealed_in (ss_fleet s) b → sealed_in (ss_fleet s') b) ∧
    ∀ b, b ∈ wr_batches (ft_writers (ss_fleet s)) → (frontier < ba_rowid b <= frontier')%Z → sealed_in (ss_fleet s') b.
Proof.
  intros Hn Hr Hu Hlt. set (sign := λ c, sign_unsealed kr (node_subject origin) (nonces (cm_id c)) c). unfold seal_local_batch_chunk.
  pose proof (chunk_through_range (ss_fleet s) frontier target ltac:(lia)) as Hchunk.
  assert (∃ p, prepare_seal s origin mk sign frontier target budget = Ok (Some p) ∧
    (frontier < ps_through p <= target)%Z ∧ unsealed_batches (ss_fleet s) (Some frontier) (Some (ps_through p)) = sb_batch <$> ps_batches p) as (p & Hp & Hreach & Hun).
  { unfold prepare_seal. rewrite (proj2 (Z.leb_gt _ _)) by lia.
    destruct (prepare_batches_total s (Some sign) budget (chunk_through (ss_fleet s) frontier target)
      (unsealed_batches (ss_fleet s) (Some frontier) (Some (chunk_through (ss_fleet s) frontier target))) [] 0 Hn Hr) as [[batches through] Hb].
    rewrite Hb. cbn [result_bind]. destruct (foldl see_signer ([], true) (batches ≫= sb_fresh)) as [signers agree]. eexists. split; [done|]. cbn [ps_through ps_batches].
    destruct (prepared_reach _ _ _ _ _ _ _ Hu Hb) as [Hle Hreach]. split; [|done]. split; [|lia]. destruct (prepare_batches_reach _ _ _ _ _ _ _ _ _ Hb) as (rest & Hrest & Hcase).
    destruct Hcase as [[_ ->]|(_ & sealed & Hlast & ->)]; [lia|].
    assert (sb_batch sealed ∈ unsealed_batches (ss_fleet s) (Some frontier) (Some (chunk_through (ss_fleet s) frontier target))) as (_ & Hrange & _)%elem_of_unsealed.
    { cbn [fmap list_fmap app] in Hrest. rewrite Hrest. apply elem_of_app. left. apply list_elem_of_fmap_2. by apply last_Some_elem_of. }
    unfold in_range in Hrange. apply andb_true_iff in Hrange as [Hrange%Z.leb_le _]. lia. }
  rewrite Hp. cbn [result_bind]. rewrite (proj2 (Z.leb_gt _ _)) by lia.
  pose proof (prepared_signatures _ _ _ _ _ _ _ _ Hp) as (Hfrom & _ & _ & Hsealed & _). rewrite Hfrom, Z.eqb_refl.
  pose proof (quiet_chunk _ _ _ _ _ _ _ _ _ Hu Hp) as Hq. destruct (write_batches_total origin (ps_batches p) s Hr) as (s1 & Hw & Hr1). rewrite Hw in Hq.
  destruct Hq as (s2 & -> & Henv & Hwr & Hsig). cbn [result_bind]. apply write_batches_grow in Hw. exists s2, (ps_through p). split; [done|]. split; [done|].
  assert (∀ b, sealed_in (ss_fleet s1) b → sealed_in (ss_fleet s2) b) as Hs12. { intros b. unfold sealed_in, has_envelope. by rewrite Henv. }
  split_and!; [by rewrite Hsig|by rewrite Hwr, (eg_writers _ _ _ Hw)|intros b Hb; by eapply Hs12, sealed_in_grow|].
  intros b Hb Hrange. apply Hs12. destruct (has_envelope (ss_fleet s) (ba_id b)) eqn:He; [eapply sealed_in_grow; [exact Hw|by left]|].
  assert (b ∈ sb_batch <$> ps_batches p) as (sealed & -> & Hin)%list_elem_of_fmap.
  { rewrite <-Hun. apply elem_of_unsealed. split_and!; [done| |done]. unfold in_range. apply andb_true_iff. split; apply Z.leb_le; lia. }
  right. exists (sb_payload sealed). rewrite Forall_forall in Hsealed. rewrite <-(seal_batch_hash _ _ _ _ (Hsealed _ Hin)). apply (eg_all _ _ _ Hw). by apply list_elem_of_fmap_2.
Qed.

Lemma quiet_chunks fuel s origin mk nonces kr frontier target :
  encoders_work → readable (ss_signatures s) → rowids_unique (ss_fleet s) → (target <= i64_max)%Z → (Z.to_nat (target - frontier) < fuel)%nat →
  ∃ s' frontier', seal_chunks fuel s origin mk nonces kr frontier target = Some (Ok (s', frontier')) ∧ (target <= frontier')%Z ∧
    (∀ b, sealed_in (ss_fleet s) b → sealed_in (ss_fleet s') b) ∧
    ∀ b, b ∈ wr_batches (ft_writers (ss_fleet s)) → (frontier < ba_rowid b <= target)%Z → sealed_in (ss_fleet s') b.
Proof.
  intros Hn. revert s frontier. induction fuel as [|fuel IH]; intros s frontier Hr Hu Ht Hf; [lia|]. cbn [seal_chunks].
  destruct (Z.leb_spec target frontier) as [Hle|Hlt].
  { unfold seal_local_batch_chunk, prepare_seal. rewrite (proj2 (Z.leb_le _ _)) by done. cbn [result_bind]. exists s, frontier. split_and!; [done..|]. intros b _ ?. lia. }
  destruct (quiet_step s origin mk (nonces fuel) kr frontier target SEAL_PREPARED_BYTES Hn Hr Hu ltac:(lia)) as (s1 & f1 & -> & Hf1 & Hr1 & Hw & Hkeep & Hnew).
  destruct (IH s1 f1) as (s2 & f2 & -> & Hf2 & Hkeep2 & Hall); [done|unfold rowids_unique; by rewrite Hw|done|lia|]. exists s2, f2. split_and!; [done|done|auto|].
  intros b Hb Hrange. destruct (Z.leb_spec (ba_rowid b) f1); [apply Hkeep2, Hnew; [done|lia]|apply Hall; [by rewrite Hw|lia]].
Qed.

Lemma least_rowid_spec l :
  match least_rowid l with Some least => ∀ n, n ∈ l → (least <= n)%Z | None => l = [] end.
Proof.
  induction l as [|n l IH]; [done|]. change (least_rowid (n :: l)) with (Some (default n (Z.min n <$> least_rowid l))). destruct (least_rowid l) as [least|]; cbn.
  - intros m [->|Hm]%elem_of_cons; [lia|]. specialize (IH m Hm). lia.
  - subst l. intros m ->%list_elem_of_singleton. lia.
Qed.

(** Behind the recovered frontier nothing is left to seal. *)
Lemma recovered_behind s frontier b :
  b ∈ wr_batches (ft_writers (ss_fleet s)) → carries_claim s (ba_id b) = true → (ba_rowid b <= recover_sealing_frontier true s frontier frontier)%Z →
  sealed_in (ss_fleet s) b.
Proof.
  intros Hb Hc Hle. destruct (has_envelope (ss_fleet s) (ba_id b)) eqn:He; [by left|exfalso].
  assert (ba_rowid b <= frontier → ba_rowid b ∈ skipped_rowids s frontier)%Z as Hin.
  { intros Hf. apply list_elem_of_fmap_2, list_elem_of_In, filter_In. split; [by apply list_elem_of_In|]. by rewrite (proj2 (Z.leb_le _ _) Hf), He, Hc. }
  revert Hle. unfold recover_sealing_frontier. pose proof (least_rowid_spec (skipped_rowids s frontier)) as Hspec. destruct (least_rowid _) as [missing|]; intros Hle.
  - specialize (Hspec _ (Hin ltac:(lia))). lia.
  - rewrite Hspec in Hin. apply Hin in Hle. by apply elem_of_nil in Hle.
Qed.

(** C27: sealing ends, and forgets nothing.  Where claims and payloads can be encoded, the
    signature tables are in a state in which signatures are read and stored (which storing
    keeps; for this store's tables it says which table serves and that its texts parse, see
    [tables_readable]), and rowids are unique and in range, the first pass of a store that
    nobody else changes returns after no more chunks than there are rowids up to the last
    batch, moves the frontier there, and leaves an envelope for every batch after the
    frontier it found and for every batch, wherever it is, with a claim that no checkpoint
    dropped. *)
Theorem quiet_store_seals_all fuel s origin mk nonces kr frontier :
  encoders_work → readable (ss_signatures s) → rowids_unique (ss_fleet s) → (max_batch_rowid (ss_fleet s) <= i64_max)%Z →
  (Z.to_nat (max_batch_rowid (ss_fleet s) - recover_sealing_frontier true s frontier frontier) < fuel)%nat →
  ∃ s' frontier', seal_local_batches fuel true s origin mk nonces kr frontier = Some (Ok (s', frontier')) ∧ (max_batch_rowid (ss_fleet s) <= frontier')%Z ∧
    ∀ b, b ∈ wr_batches (ft_writers (ss_fleet s)) → (frontier < ba_rowid b)%Z ∨ carries_claim s (ba_id b) = true → sealed_in (ss_fleet s') b.
Proof.
  intros Hn Hr Hu Ht Hf. destruct (quiet_chunks fuel s origin mk nonces kr _ _ Hn Hr Hu Ht Hf) as (s' & f' & Hs & Hle & Hkeep & Hall). exists s', f'. split_and!; [done..|].
  intros b Hb Hcase. destruct (max_or_zero_spec (ba_rowid <$> wr_batches (ft_writers (ss_fleet s)))) as (_ & Hmax & _). specialize (Hmax _ (list_elem_of_fmap_2 ba_rowid _ _ Hb)).
  fold (max_batch_rowid (ss_fleet s)) in Hmax.
  destruct (Z.leb_spec (ba_rowid b) (recover_sealing_frontier true s frontier frontier)) as [Hback|Hafter]; [|by apply Hall].
  destruct Hcase as [Hfront|Hc]; [exfalso|by eapply Hkeep, recovered_behind].
  revert Hback. unfold recover_sealing_frontier. destruct (least_rowid _); lia.
Qed.
End seal.

(** ** The signature tables of this store *)

Section tables.
Context `{SigCodec} `{Crypto}.

Definition internal (e : string) : St3Error := {| er_code := "internal"; er_message := e |}.
Definition or_internal {A} (r : result A string) : result A St3Error := match r with Ok x => Ok x | Err e => Err (internal e) end.

(** [principals::envelope_signature] *)
Definition stored_envelope_signature (s : SigTables) (claim_id : string) : result (option ClaimSignature) string :=
  let? active := legacy_active s in
  read_signature (if active : bool then lg_signatures (st_legacy s) else st_signatures s) claim_id.

Lemma queue_linked_frame link s :
  st_migration (queue_linked_tx link s) = st_migration s ∧ st_legacy (queue_linked_tx link s) = st_legacy s ∧
  st_signatures (queue_linked_tx link s) = st_signatures s.
Proof. done. Qed.

Lemma candidate_added_frame id g s id' :
  id' ≠ id → st_migration (candidate_added id g s) = st_migration s ∧ st_legacy (candidate_added id g s) = st_legacy s ∧
  st_signatures (candidate_added id g s) !! id' = st_signatures s !! id'.
Proof.
  intros Hne. unfold candidate_added. set (s1 := mark_dirty true {[id]} s).
  assert (∀ r, st_migration (queue_affected_by_row_tx r (if signature_matches r g then use_nonce id g s1 else s1)) = st_migration s ∧
    st_legacy (queue_affected_by_row_tx r (if signature_matches r g then use_nonce id g s1 else s1)) = st_legacy s ∧
    st_signatures (queue_affected_by_row_tx r (if signature_matches r g then use_nonce id g s1 else s1)) = st_signatures s) as Hrow.
  { intros r. unfold queue_affected_by_row_tx, use_nonce. destruct (affected_link r), (signature_matches r g); [|done|..|done]; case_bool_decide; done. }
  destruct (claim_row s1 id) as [r|]; cbn [set_fresh set_signatures st_migration st_legacy st_signatures].
  - destruct (Hrow r) as (-> & -> & ->). split_and!; [done..|]. unfold Signatures.insert_or_ignore. destruct (st_signatures s !! id); [done|]. by rewrite lookup_insert_ne.
  - split_and!; [done..|]. unfold Signatures.insert_or_ignore. cbn. destruct (st_signatures s !! id); [done|]. by rewrite lookup_insert_ne.
Qed.

Lemma store_candidate_frame id g writer legacy s id' :
  id' ≠ id → st_migration (store_candidate_tx id g writer legacy s) = st_migration s ∧
  lg_signatures (st_legacy (store_candidate_tx id g writer legacy s)) !! id' = lg_signatures (st_legacy s) !! id' ∧
  st_signatures (store_candidate_tx id g writer legacy s) !! id' = st_signatures s !! id'.
Proof.
  intros Hne. unfold store_candidate_tx. set (s0 := if legacy then _ else s).
  assert (st_migration s0 = st_migration s ∧ lg_signatures (st_legacy s0) !! id' = lg_signatures (st_legacy s) !! id' ∧ st_signatures s0 = st_signatures s) as (Hm & Hl & Hs).
  { subst s0. destruct legacy; [|done]. cbn. split_and!; [done| |done]. unfold legacy_store_claim_signature_tx.
    destruct (lg_signatures (st_legacy s) !! id); [done|]. cbn. by rewrite lookup_insert_ne. }
  clearbody s0. destruct (insert_candidate id (sig_to_string g) (cs_key g) (cs_nonce g) (st_candidates s0)) as [c added]. destruct added; cbn [negb].
  - destruct (candidate_added_frame id g (set_candidates (insert_source id (sig_to_string g) writer c) s0) id' Hne) as (-> & -> & ->). cbn. by rewrite Hs.
  - cbn. by rewrite Hs.
Qed.

#[export] Program Instance seal_signature_tables : SealSignatures := {|
  sig_state := SigTables;
  envelope_signature s id := or_internal (stored_envelope_signature s id);
  store_signature_tx id g s := or_internal (Signatures.store_claim_signature_tx id g s)
|}.
Next Obligation.
  intros id g s s' id' Hstore Hne. revert Hstore. unfold or_internal, Signatures.store_claim_signature_tx, Signatures.store_carried_signature_tx.
  destruct (legacy_active s) as [active|] eqn:Ea; cbn [result_bind]; [|done]. intros [= <-].
  destruct (store_candidate_frame id g (default unknown_writer (batch_origin s id)) active s id' Hne) as (Hm & Hl & Hs).
  unfold stored_envelope_signature. unfold legacy_active in *. rewrite Hm, Ea. cbn [result_bind]. unfold read_signature. destruct active; [by rewrite Hl|by rewrite Hs].
Qed.

(** The tables are readable when the migration says which of them serves, and every
    signature of that one is the text of a signature. *)
Definition texts_parse (rows : gmap string SignatureRow) : Prop := ∀ id r, rows !! id = Some r → ∃ g, sr_signature r = sig_to_string g.
Definition tables_readable (s : SigTables) : Prop :=
  ∃ active, legacy_active s = Ok active ∧ texts_parse (if active : bool then lg_signatures (st_legacy s) else st_signatures s).

Lemma texts_parse_ignore id g rows : texts_parse rows → texts_parse (Signatures.insert_or_ignore id (signature_row g (sig_to_string g)) rows).
Proof.
  intros Hp id' r. unfold Signatures.insert_or_ignore. destruct (rows !! id); [apply Hp|]. intros [[<- <-]|[_ ?]]%lookup_insert_Some; [by exists g|by eapply Hp].
Qed.

Lemma candidate_added_tables id g s :
  st_migration (candidate_added id g s) = st_migration s ∧ st_legacy (candidate_added id g s) = st_legacy s ∧
  st_signatures (candidate_added id g s) = Signatures.insert_or_ignore id (signature_row g (sig_to_string g)) (st_signatures s).
Proof.
  unfold candidate_added. set (s1 := mark_dirty true {[id]} s). destruct (claim_row s1 id) as [r|]; [|done].
  unfold queue_affected_by_row_tx, use_nonce. destruct (affected_link r), (signature_matches r g); [|done|..|done]; case_bool_decide; done.
Qed.

Lemma store_candidate_readable id g writer active s :
  legacy_active s = Ok active → texts_parse (if active : bool then lg_signatures (st_legacy s) else st_signatures s) →
  tables_readable (store_candidate_tx id g writer active s).
Proof.
  intros Ha Hp. exists active. unfold store_candidate_tx. set (s0 := if active then _ else s).
  assert (st_migration s0 = st_migration s ∧ texts_parse (if active : bool then lg_signatures (st_legacy s0) else st_signatures s0)) as [Hm Hp0].
  { subst s0. destruct active; [|done]. split; [done|]. cbn. unfold legacy_store_claim_signature_tx. pose proof (texts_parse_ignore id g _ Hp) as Hi.
    unfold Signatures.insert_or_ignore in Hi. by destruct (lg_signatures (st_legacy s) !! id). }
  clearbody s0. destruct (insert_candidate id (sig_to_string g) (cs_key g) (cs_nonce g) (st_candidates s0)) as [c added]. unfold legacy_active in *.
  destruct added; cbn [negb]; [|cbn [set_candidates st_migration]; by rewrite Hm].
  destruct (candidate_added_tables id g (set_candidates (insert_source id (sig_to_string g) writer c) s0)) as (-> & -> & ->).
  cbn [set_candidates st_migration st_legacy st_signatures]. rewrite Hm. split; [done|]. destruct active; [done|]. by apply texts_parse_ignore.
Qed.

#[export] Program Instance seal_tables_readable `{!SigCodecLaws} : SealSignaturesReadable := {| readable := tables_readable |}.
Next Obligation.
  intros Hlaws s id (active & Ha & Hp). cbn. unfold stored_envelope_signature. rewrite Ha. cbn [result_bind]. unfold read_signature.
  destruct ((if active : bool then _ else _) !! id) as [r|] eqn:Er; [|by eexists]. destruct (Hp _ _ Er) as [g ->]. unfold parse_signature. rewrite sig_roundtrip. by eexists.
Qed.
Next Obligation.
  intros Hlaws id g s (active & Ha & Hp). cbn. unfold Signatures.store_claim_signature_tx, Signatures.store_carried_signature_tx. rewrite Ha. cbn. eexists. split; [done|].
  by apply store_candidate_readable.
Qed.
End tables.

(** ** A node seals a note *)

Definition note_keys : Crypto :=
  {| base64url_decode s := Some (bytes_of s); ed25519_verify _ message signature := bool_decide (signature = bytes_of message);
     p256_verify _ _ _ := false; json_to_string _ := "" |}.
Definition note_sig_codec : SigCodec :=
  {| sig_to_string := cs_signature; sig_from_str _ := None; hash_content _ subject kind _ _ := subject +:+ " " +:+ kind; hash_roots _ := ""; scan := elements |}.
Definition note_signatures : SealSignatures.
Proof.
  refine {| sig_state := gmap string ClaimSignature; envelope_signature st id := Ok (st !! id);
            store_signature_tx id g st := Ok (match st !! id with Some _ => st | None => <[id := g]> st end) |}.
  intros id g st st' id' [= <-] Hne. destruct (st !! id); [done|]. by rewrite lookup_insert_ne.
Defined.
Definition note_claim : ClaimRecord :=
  {| cm_id := "note/1 note.written"; cm_batch_id := "batch/a/1/h"; cm_subject := "note/1"; cm_kind := "note.written"; cm_origin := "a";
     cm_actor := Some "person/ada"; cm_body := Object [("fields", Object [("hash", VString "x")])]; cm_predecessors := []; cm_accepted_at_unix_ms := 10 |}.
Definition note_payload : ReplicaEnvelopePayload := payload_of demo_batch [(1%Z, note_claim)] [] [].
Definition note_codec : AdmissionCodec :=
  {| sha256 bytes := bytes; hex_encode bytes := string_of bytes; base64_encode := string_of; base64_error text := text; hash_header _ := "h";
     hash_claim '(_, subject, kind, _, _, _, _) := Ok (subject +:+ " " +:+ kind); decode_payload _ := Ok note_payload;
     encode_claim _ := Ok []; encode_body _ := Ok ""; encode_predecessors _ := Ok "" |}.
Definition note_seal_codec : SealCodec := {| encode_payload p := Ok (bytes_of (rb_id (pl_batch p))); key_sign key message := mk_public key +:+ message |}.

(** The value of a computation that gives one. *)
Definition got {A E} (d : A) (r : result (option A) E) : A := match r with Ok (Some x) => x | _ => d end.
Definition gives {A E} (r : result (option A) E) : bool := match r with Ok (Some _) => true | _ => false end.
Lemma got_spec {A E} (d : A) (r : result (option A) E) : gives r = true → r = Ok (Some (got d r)).
Proof. by destruct r as [[x|]|]. Qed.

Section note.
#[local] Existing Instances note_keys note_sig_codec note_signatures note_codec note_seal_codec.

Definition note_store : SealStore :=
  {| ss_fleet := insert_claim_row note_claim (insert_batch_row demo_batch demo_fleet_tables); ss_index := {["note/1 note.written" := 1%Z]}; ss_blobs := ∅;
     ss_records := ∅; ss_signatures := (∅ : gmap string ClaimSignature); ss_fleet_id := Some "fleet" |}.
Definition note_ring : Keyring :=
  {| kr_directory := None; kr_node := Some {| mk_public := "node" |}; kr_keys := []; kr_signing := []; kr_generation := 0; kr_changing := None |}.
Definition note_key : option MemberKey := Some {| mk_public := "member" |}.
Definition nothing_prepared : PreparedSeal :=
  {| ps_seeded_through := 0; ps_through := 0; ps_origin := ""; ps_signer := None; ps_batches := []; ps_signers := []; ps_signers_agree := true; ps_envelope_signatures := ∅ |}.
Definition note_prepared : PreparedSeal :=
  got nothing_prepared (prepare_seal note_store "a" note_key (λ c, sign_unsealed note_ring (node_subject "a") (cm_id c) c) 0 1 100).
Definition note_sealed : SealStore := got note_store (seal_prepared_tx note_store "a" note_key (Some note_ring) note_prepared).

Lemma note_store_keyed : claims_keyed note_store.
Proof.
  intros id c. cbn [ss_fleet note_store]. assert (ft_claims (insert_claim_row note_claim (insert_batch_row demo_batch demo_fleet_tables)) = {["note/1 note.written" := note_claim]}) as -> by done.
  by intros [<- <-]%lookup_singleton_Some.
Qed.

(** The envelope, the member's signature on it, the claim's signature and its record. *)
Example note_is_sealed :
  (λ x : envelope_key * ReplicaEnvelopeRow, (x.1.1, ev_batch_id x.2, ev_receipt_state x.2)) <$> map_to_list (ft_envelopes (ss_fleet note_sealed)) =
    [("a", 1%Z, Some "batch/a/1/h", "validated")] ∧
  size (ft_signatures (ss_fleet note_sealed)) = 1 ∧ cs_on_behalf <$> (ss_signatures note_sealed : gmap string ClaimSignature) !! "note/1 note.written" = Some (Some "person/ada") ∧
  size (ss_records note_sealed) = 1.
Proof. split_and!; vm_compute; reflexivity. Qed.

Lemma prepared_seal_as_under_writer_witness :
  seal_under_writer note_store "a" note_key (λ c, sign_unsealed note_ring (node_subject "a") (cm_id c) c) 0 (ps_through note_prepared) = Ok note_sealed.
Proof.
  apply (prepared_seal_as_under_writer note_store note_store note_sealed "a" note_key note_key (λ _, note_ring) id note_ring 0 1 100 note_prepared).
  - apply note_store_keyed.
  - apply note_store_keyed.
  - split; congruence.
  - apply (bool_decide_unpack _). vm_compute. exact I.
  - apply got_spec. vm_compute. reflexivity.
  - apply got_spec. vm_compute. reflexivity.
Defined.

Lemma note_encoders_work : encoders_work.
Proof. split; cbn; eauto. Qed.
End note.

(** ** The same note, with the signature tables of this store *)

Section tabled.
#[local] Existing Instances note_keys demo_codec demo_codec_laws note_codec note_seal_codec.

Definition tabled_store : SealStore :=
  {| ss_fleet := insert_claim_row note_claim (insert_batch_row demo_batch demo_fleet_tables); ss_index := {["note/1 note.written" := 1%Z]}; ss_blobs := ∅;
     ss_records := ∅; ss_signatures := empty_tables ∅; ss_fleet_id := Some "fleet" |}.

Lemma tabled_readable : readable (ss_signatures tabled_store).
Proof. exists false. split; [done|]. intros id r. cbn. by rewrite lookup_empty. Qed.

(** The frontier already passed the batch, which a repair brought back. *)
Lemma quiet_store_seals_all_witness :
  ∃ s' frontier', seal_local_batches 2 true tabled_store "a" note_key (λ _ id, id) note_ring 5 = Some (Ok (s', frontier')) ∧ (1 <= frontier')%Z ∧
    sealed_in (ss_fleet s') demo_batch.
Proof.
  destruct (quiet_store_seals_all 2 tabled_store "a" note_key (λ _ id, id) note_ring 5 note_encoders_work tabled_readable) as (s' & f' & Hs & Hf & Hall);
    [apply (bool_decide_unpack _); vm_compute; exact I|apply Z.leb_le; vm_compute; reflexivity|apply Nat.ltb_lt; vm_compute; reflexivity|].
  exists s', f'. split_and!; [exact Hs|exact Hf|]. apply Hall; [apply (bool_decide_unpack _); vm_compute; exact I|right; vm_compute; reflexivity].
Defined.
End tabled.
