(* ===== verification/Receive.v ===== *)
(** * Receiving an exchange
    (crates/smallclaims/src/store.rs, [receive_replication_exchange_via])

    A page of envelopes and signatures becomes pending rows in one transaction.  What it
    keeps is well formed (every signature verifies, an envelope is bound to no batch but
    the one its header names), the tables only grow, and a page that is delivered again
    changes nothing.  The store stays well formed beside passes over the backlog and the
    node's other transactions as well, which [local_step] lists. *)

From stdpp Require Import gmap.
From S2P Require Import Prelude BTree Json Digests Membership Principal Keyring Text Retired WriterHeads FleetStore Admission Backlog Seal.

Local Open Scope string_scope.
Local Open Scope claims_scope.
Local Open Scope nat_scope.

Section receive.
Context `{Crypto} `{AdmissionCodec} `{AdmissionHooks}.
Variables (fleet_id relay : string) (now : Z).

Notation receive_envelope := (receive_envelope fleet_id relay now).
Notation receive_signature := (receive_signature fleet_id).

(** What a receipt does to the tables. *)
Record tables_grow (s s' : AdmStore) : Prop := {
  tg_rows k row : ft_envelopes (ad_fleet s) !! k = Some row → ft_envelopes (ad_fleet s') !! k = Some row;
  tg_new k row : ft_envelopes (ad_fleet s') !! k = Some row →
    ft_envelopes (ad_fleet s) !! k = Some row ∨ ev_batch_id row = None ∧ ev_receipt_state row = "pending" ∧ envelope_tombstoned (ad_fleet s) k = false;
  tg_signatures x signature : ft_signatures (ad_fleet s) !! x = Some signature → ft_signatures (ad_fleet s') !! x = Some signature;
  tg_verified x signature : ft_signatures (ad_fleet s') !! x = Some signature →
    ft_signatures (ad_fleet s) !! x = Some signature ∨ verify_envelope_signature fleet_id x.1 x.2 signature = true;
  tg_claims : ft_claims (ad_fleet s') = ft_claims (ad_fleet s);
  tg_writers : ft_writers (ad_fleet s') = ft_writers (ad_fleet s);
  tg_rest : s' = with_fleet (ad_fleet s') s;
  tg_run : fleet_run (ad_fleet s) (ad_fleet s')
}.

Lemma with_fleet_same s : with_fleet (ad_fleet s) s = s.
Proof. by destruct s. Qed.

Lemma tables_grow_refl s : tables_grow s s.
Proof. split; auto with claims; [by rewrite with_fleet_same|apply fleet_run_refl]. Qed.

Lemma tables_grow_trans s s' s'' : tables_grow s s' → tables_grow s' s'' → tables_grow s s''.
Proof.
  intros [r n g v c w e u] [r' n' g' v' c' w' e' u']. split.
  - auto.
  - intros k row Hk. destruct (n' k row Hk) as [Hk'|(Hb & Hs & Ht)]; [auto|]. right. unfold envelope_tombstoned in *. by rewrite <-w.
  - auto.
  - intros x signature Hx. destruct (v' x signature Hx); auto.
  - congruence.
  - congruence.
  - rewrite e', e. done.
  - by eapply fleet_run_trans.
Qed.

(** ** One signature, one envelope *)

Lemma store_signature_grow k key signature s :
  verify_envelope_signature fleet_id k key signature = true → tables_grow s (store_envelope_signature k key signature s).1.
Proof.
  intros Hv. unfold store_envelope_signature. cbn [fst]. unfold insert_signature_row.
  destruct (ft_signatures (ad_fleet s) !! (k, key)) eqn:E; [rewrite with_fleet_same; apply tables_grow_refl|].
  split; cbn [ad_fleet with_fleet ft_signatures ft_envelopes bump_when set_envelope_signatures]; try done; auto.
  - intros x sig Hx. rewrite lookup_insert_ne; [done|]. intros <-. congruence.
  - intros x sig [[<- <-]|[_ Hx]]%lookup_insert_Some; [by right|by left].
  - eapply fleet_run_step. pose proof (fstep_insert_signature (ad_fleet s) k key signature) as Hstep.
    unfold insert_signature_row in Hstep. by rewrite E in Hstep.
Qed.

Lemma insert_envelope_grow k row s :
  ev_batch_id row = None → ev_receipt_state row = "pending" → envelope_tombstoned (ad_fleet s) k = false →
  tables_grow s (with_fleet (insert_envelope_row k row (ad_fleet s)) s).
Proof.
  intros Hb Hs Ht. unfold insert_envelope_row. destruct (ft_envelopes (ad_fleet s) !! k) eqn:E; [rewrite with_fleet_same; apply tables_grow_refl|].
  split; cbn [ad_fleet with_fleet ft_signatures ft_envelopes bump_when set_envelopes]; try done; auto.
  - intros k' row' Hk. rewrite lookup_insert_ne; [done|]. intros <-. congruence.
  - intros k' row' [[<- <-]|[_ Hk]]%lookup_insert_Some; [by right|by left].
  - eapply fleet_run_step. pose proof (fstep_insert_envelope (ad_fleet s) k row) as Hstep. unfold insert_envelope_row in Hstep. by rewrite E in Hstep.
Qed.

(** The signature an envelope carries, when it verifies. *)
Definition carried_signature (e : ReplicaEnvelope) : option (string * string) :=
  match re_member_key e, re_signature e with
  | Some key, Some signature => if verify_envelope_signature fleet_id (re_key e) key signature then Some (key, signature) else None
  | _, _ => None
  end.

(** The store has nothing to learn from the envelope, or from the signature. *)
Definition knows_envelope (s : AdmStore) (e : ReplicaEnvelope) : Prop :=
  envelope_tombstoned (ad_fleet s) (re_key e) = true ∨
  is_Some (ft_envelopes (ad_fleet s) !! re_key e) ∧
  ∀ key signature, carried_signature e = Some (key, signature) → is_Some (ft_signatures (ad_fleet s) !! (re_key e, key)).
Definition knows_signature (s : AdmStore) (x : envelope_key * string * string) : Prop :=
  verify_envelope_signature fleet_id x.1.1 x.1.2 x.2 = false ∨ envelope_tombstoned (ad_fleet s) x.1.1 = true ∨
  is_Some (ft_signatures (ad_fleet s) !! x.1).

Lemma knows_envelope_grow s s' e : tables_grow s s' → knows_envelope s e → knows_envelope s' e.
Proof.
  intros Hg [Ht|[[row Hrow] Hs]]; [left; unfold envelope_tombstoned in *; by rewrite (tg_writers _ _ Hg)|right]. split.
  - exists row. by apply (tg_rows _ _ Hg).
  - intros key signature Hc. destruct (Hs key signature Hc) as [sig Hsig]. exists sig. by apply (tg_signatures _ _ Hg).
Qed.

Lemma knows_signature_grow s s' x : tables_grow s s' → knows_signature s x → knows_signature s' x.
Proof.
  intros Hg [Hv|[Ht|[sig Hsig]]]; [by left| |].
  - right; left. unfold envelope_tombstoned in *. by rewrite (tg_writers _ _ Hg).
  - right; right. exists sig. by apply (tg_signatures _ _ Hg).
Qed.

Lemma store_signature_stored k key signature s : is_Some (ft_signatures (ad_fleet (store_envelope_signature k key signature s).1) !! (k, key)).
Proof.
  unfold store_envelope_signature, insert_signature_row. cbn [fst ad_fleet with_fleet].
  destruct (ft_signatures (ad_fleet s) !! (k, key)) eqn:E; [by eexists|]. cbn. rewrite lookup_insert_eq. by eexists.
Qed.

Lemma receive_envelope_spec s c e :
  let a := receive_envelope (s, c) e in
  tables_grow s a.1 ∧ knows_envelope a.1 e ∧ rc_received a.2 + rc_duplicate a.2 = S (rc_received c + rc_duplicate c).
Proof.
  cbn zeta. unfold Admission.receive_envelope, knows_envelope. destruct (envelope_tombstoned (ad_fleet s) (re_key e)) eqn:Et.
  { cbn. split_and!; [apply tables_grow_refl|by left|lia]. }
  set (first := match re_member_key e with Some _ => _ | None => _ end).
  assert (tables_grow s first.1 ∧ ∀ key signature, carried_signature e = Some (key, signature) →
    is_Some (ft_signatures (ad_fleet first.1) !! (re_key e, key))) as [Hg Hsig].
  { subst first. unfold carried_signature. destruct (re_member_key e) as [key|], (re_signature e) as [signature|];
      try (split; [apply tables_grow_refl|done]).
    destruct (verify_envelope_signature fleet_id (re_key e) key signature) eqn:Ev; [|split; [apply tables_grow_refl|done]].
    split; [by apply store_signature_grow|]. intros key' signature' [= <- <-]. apply store_signature_stored. }
  clearbody first. destruct first as [s1 stored]. cbn [fst] in Hg, Hsig |- *.
  assert (envelope_tombstoned (ad_fleet s1) (re_key e) = false) as Et1 by (unfold envelope_tombstoned in *; by rewrite (tg_writers _ _ Hg)).
  set (row := {| ev_previous_hash := re_previous_hash e |}).
  pose proof (insert_envelope_grow (re_key e) row s1 eq_refl eq_refl Et1) as Hg1.
  split_and!; [by eapply tables_grow_trans| |].
  - right. split; [|intros key signature Hc; destruct (Hsig key signature Hc) as [sig Hs]; exists sig; by apply (tg_signatures _ _ Hg1)].
    unfold insert_envelope_row. cbn [ad_fleet with_fleet]. destruct (ft_envelopes (ad_fleet s1) !! re_key e) eqn:E; [by eexists|].
    cbn. rewrite lookup_insert_eq. by eexists.
  - destruct (ft_envelopes (ad_fleet s1) !! re_key e); cbn; lia.
Qed.

Lemma receive_signature_spec s c x :
  let a := receive_signature (s, c) x in
  tables_grow s a.1 ∧ knows_signature a.1 x ∧ rc_received a.2 + rc_duplicate a.2 = rc_received c + rc_duplicate c.
Proof.
  cbn zeta. destruct x as [[k key] signature]. unfold Admission.receive_signature, knows_signature. cbn [fst snd].
  destruct (verify_envelope_signature fleet_id k key signature) eqn:Ev; cbn [negb orb];
    [|cbn; split_and!; [apply tables_grow_refl|by left|done]].
  destruct (envelope_tombstoned (ad_fleet s) k) eqn:Et; [cbn; split_and!; [apply tables_grow_refl|right; by left|done]|].
  pose proof (store_signature_grow k key signature s Ev) as Hg. pose proof (store_signature_stored k key signature s) as Hs.
  destruct (store_envelope_signature k key signature s) as [s1 stored]. cbn in *. split_and!; [done|right; by right|lia].
Qed.

(** ** A page *)

Lemma receive_envelopes_spec envelopes a :
  let a' := foldl receive_envelope a envelopes in
  tables_grow a.1 a'.1 ∧ Forall (knows_envelope a'.1) envelopes ∧
  rc_received a'.2 + rc_duplicate a'.2 = rc_received a.2 + rc_duplicate a.2 + length envelopes.
Proof.
  revert a. induction envelopes as [|e envelopes IH]; intros [s c]; cbn zeta; cbn [foldl length].
  - split_and!; [apply tables_grow_refl|constructor|lia].
  - destruct (receive_envelope_spec s c e) as (Hg & Hk & Hn). destruct (IH (receive_envelope (s, c) e)) as (Hg' & Hks & Hn').
    split_and!; [by eapply tables_grow_trans|constructor; [by eapply knows_envelope_grow|done]|cbn [fst snd] in *; lia].
Qed.

Lemma receive_signatures_spec signatures a :
  let a' := foldl receive_signature a signatures in
  tables_grow a.1 a'.1 ∧ Forall (knows_signature a'.1) signatures ∧ rc_received a'.2 + rc_duplicate a'.2 = rc_received a.2 + rc_duplicate a.2.
Proof.
  revert a. induction signatures as [|x signatures IH]; intros [s c]; cbn zeta; cbn [foldl].
  - split_and!; [apply tables_grow_refl|constructor|lia].
  - destruct (receive_signature_spec s c x) as (Hg & Hk & Hn). destruct (IH (receive_signature (s, c) x)) as (Hg' & Hks & Hn').
    split_and!; [by eapply tables_grow_trans|constructor; [by eapply knows_signature_grow|done]|cbn [fst snd] in *; lia].
Qed.

(** ** A page that comes again *)

Lemma receive_known_envelope s c e : knows_envelope s e → receive_envelope (s, c) e = (s, count 0 1 0 c).
Proof.
  unfold knows_envelope, carried_signature, Admission.receive_envelope. destruct (envelope_tombstoned (ad_fleet s) (re_key e)); [done|].
  intros [[=]|[[row Hrow] Hsig]].
  assert (∀ stored, (let row := {| ev_previous_hash := re_previous_hash e; ev_accepted_at_unix_ms := decimal (re_accepted_at_unix_ms e);
      ev_payload := re_payload e; ev_batch_id := None; ev_relay := relay; ev_receipt_state := "pending"; ev_validation_error := None;
      ev_received_at_unix_ms := decimal now; ev_rowid := next_envelope_rowid (ad_fleet s) |} in
    (with_fleet (insert_envelope_row (re_key e) row (ad_fleet s)) s,
     match ft_envelopes (ad_fleet s) !! re_key e with Some _ => count 0 1 stored c | None => count 1 0 stored c end)) = (s, count 0 1 stored c)) as Hrest.
  { intros stored. cbn zeta. unfold insert_envelope_row. by rewrite Hrow, with_fleet_same. }
  destruct (re_member_key e) as [key|], (re_signature e) as [signature|]; [|apply Hrest..].
  destruct (verify_envelope_signature fleet_id (re_key e) key signature); [|apply Hrest].
  destruct (Hsig key signature eq_refl) as [sig Hs]. unfold store_envelope_signature, insert_signature_row. rewrite Hs, with_fleet_same. apply Hrest.
Qed.

Lemma receive_known_signature s c x : knows_signature s x → receive_signature (s, c) x = (s, c).
Proof.
  destruct x as [[k key] signature]. unfold knows_signature, Admission.receive_signature. cbn [fst snd].
  destruct (verify_envelope_signature fleet_id k key signature); [|done]. cbn [negb orb].
  destruct (envelope_tombstoned (ad_fleet s) k); [done|]. intros [[=]|[[=]|[sig Hs]]].
  unfold store_envelope_signature, insert_signature_row. rewrite Hs, with_fleet_same. destruct c. unfold count. cbn. by rewrite !Nat.add_0_r.
Qed.

Lemma receive_known_envelopes envelopes s c :
  Forall (knows_envelope s) envelopes → foldl receive_envelope (s, c) envelopes = (s, count 0 (length envelopes) 0 c).
Proof.
  revert c. induction envelopes as [|e envelopes IH]; intros c Hk; cbn [foldl length].
  - destruct c. unfold count. cbn. by rewrite !Nat.add_0_r.
  - apply Forall_cons in Hk as [He Hk]. rewrite receive_known_envelope by done. rewrite IH by done. f_equal. unfold count. cbn. f_equal; lia.
Qed.

Lemma receive_known_signatures signatures s c :
  Forall (knows_signature s) signatures → foldl receive_signature (s, c) signatures = (s, c).
Proof.
  induction signatures as [|x signatures IH]; intros Hk; cbn [foldl]; [done|]. apply Forall_cons in Hk as [Hx Hk].
  rewrite receive_known_signature by done. by apply IH.
Qed.

End receive.

Section exchanges.
Context `{Crypto} `{AdmissionCodec} `{AdmissionHooks}.

Lemma exchange_spec bound_shard relay fleet_id now input s s' c :
  receive_replication_exchange bound_shard relay fleet_id now input s = Ok (s', c) →
  tables_grow fleet_id s s' ∧ Forall (knows_envelope fleet_id s') (ex_envelopes input) ∧ Forall (knows_signature fleet_id s') (ex_signatures input) ∧
  rc_received c + rc_duplicate c = length (ex_envelopes input) ∧
  ex_peer input = relay ∧ ex_fleet_id input = fleet_id ∧ bound_shard = Ok (ex_shard_id input).
Proof.
  unfold receive_replication_exchange. destruct (String.eqb_spec (ex_peer input) relay) as [Hp|]; cbn [negb]; [|done].
  destruct (String.eqb_spec (ex_fleet_id input) fleet_id) as [Hf|]; cbn [negb]; [|done]. destruct bound_shard as [shard|]; [|done].
  destruct (bool_decide_reflect (ex_shard_id input = shard)) as [Hs|]; cbn [negb]; [|done]. set (zero := {| rc_received := 0 |}).
  destruct (receive_envelopes_spec fleet_id relay now (ex_envelopes input) (s, zero)) as (Hg & Hk & Hn).
  destruct (receive_signatures_spec fleet_id (ex_signatures input) (foldl (receive_envelope fleet_id relay now) (s, zero) (ex_envelopes input)))
    as (Hg' & Hk' & Hn').
  intros [= E]. rewrite E in Hg', Hk', Hn'. cbn [fst snd] in *. split_and!; [by eapply tables_grow_trans| |done|cbn in *; lia|done|done|congruence].
  eapply Forall_impl; [exact Hk|]. intros e. by apply knows_envelope_grow.
Qed.

(** an exchange that is delivered again changes nothing, whenever and on whatever relay:
    all its envelopes are duplicates, no signature is new, and the store is the same. *)
Theorem redelivered_exchange_changes_nothing bound_shard relay fleet_id now later input s s' c :
  receive_replication_exchange bound_shard relay fleet_id now input s = Ok (s', c) →
  receive_replication_exchange bound_shard relay fleet_id later input s' =
    Ok (s', {| rc_received := 0; rc_duplicate := length (ex_envelopes input); rc_signatures := 0 |}).
Proof.
  intros (_ & Hk & Hk' & _ & Hp & Hf & ->)%exchange_spec. unfold receive_replication_exchange.
  rewrite Hp, Hf, !String.eqb_refl, bool_decide_eq_true_2 by done. cbn [negb].
  by rewrite receive_known_envelopes, receive_known_signatures.
Qed.

(** ** The store stays well formed *)

Record store_wf (fleet_id : string) (s : AdmStore) : Prop := {
  wf_receipts : receipts_ok (ad_fleet s);
  wf_signatures : signatures_verified fleet_id (ad_fleet s);
  wf_states : map_Forall (λ _ row, ev_receipt_state row ∈ ["pending"; "validated"; "degraded"]) (ft_envelopes (ad_fleet s));
  wf_bound : map_Forall (λ _ row, ev_receipt_state row = "validated" → is_Some (ev_batch_id row)) (ft_envelopes (ad_fleet s))
}.

Lemma exchange_wf bound_shard relay fleet_id now input s s' c :
  receive_replication_exchange bound_shard relay fleet_id now input s = Ok (s', c) → store_wf fleet_id s → store_wf fleet_id s'.
Proof.
  intros (Hg & _)%exchange_spec [Hr Hs Hst Hb]. split.
  - intros k row id Hk Hid. destruct (tg_new _ _ _ Hg k row Hk) as [Hk'|(Hn & _)]; [by eapply Hr|congruence].
  - intros k key signature Hk. by destruct (tg_verified _ _ _ Hg (k, key) signature Hk) as [Hk'|]; [apply Hs|].
  - intros k row Hk. destruct (tg_new _ _ _ Hg k row Hk) as [Hk'|(_ & -> & _)]; [by eapply Hst|set_solver].
  - intros k row Hk. destruct (tg_new _ _ _ Hg k row Hk) as [Hk'|(_ & -> & _)]; [by eapply Hb|done].
Qed.

(** A row gets a receipt and keeps its batch, or is bound to the batch of its header. *)
Lemma row_wf fleet_id s s' k row row' :
  ft_envelopes (ad_fleet s) !! k = Some row → ft_envelopes (ad_fleet s') = <[k := row']> (ft_envelopes (ad_fleet s)) →
  ft_signatures (ad_fleet s') = ft_signatures (ad_fleet s) → ev_receipt_state row' ∈ ["pending"; "validated"; "degraded"] →
  (ev_receipt_state row' = "validated" → is_Some (ev_batch_id row')) → receipts_ok (ad_fleet s') → store_wf fleet_id s → store_wf fleet_id s'.
Proof.
  intros Hrow He Hs Hst Hb Hrec [_ Hsig Hsts Hbs]. split; [done|unfold signatures_verified; by rewrite Hs| |]; rewrite He; by apply map_Forall_insert_2.
Qed.

(** The row, with its payload in another encoding. *)
Definition with_payload (payload : EnvelopePayload) (row : ReplicaEnvelopeRow) : ReplicaEnvelopeRow :=
  {| ev_previous_hash := ev_previous_hash row; ev_accepted_at_unix_ms := ev_accepted_at_unix_ms row; ev_payload := payload; ev_batch_id := ev_batch_id row;
     ev_relay := ev_relay row; ev_receipt_state := ev_receipt_state row; ev_validation_error := ev_validation_error row;
     ev_received_at_unix_ms := ev_received_at_unix_ms row; ev_rowid := ev_rowid row |}.

Section steps.
Variable classify_unbound : ReplicaBatch → WireClaim → option (result ReplicatedClaimAdmission St3Error).
Variable classify : AdmStore → ReplicaBatch → WireClaim → result ReplicatedClaimAdmission St3Error.
Context `{SealCodec} (fleet_id : string).
(** A signature made with a key that was generated verifies with its public half. *)
Variable generated : MemberKey → Prop.
Hypothesis sign_verifies : ∀ origin key x, generated key → verify_envelope_signature fleet_id (origin, x.1, x.2) (mk_public key) (sign_envelope origin key fleet_id x) = true.

(** The other transactions of a node, by what they do to the tables of envelopes and of the
    membership: claims and batches are appended, checkpoints delete rows and record tombstones,
    payloads are stored in another encoding, a batch is sealed, an envelope of one's own is signed,
    a backup is restored (its envelopes pending, its signatures verified), another exchange
    arrives; and what touches only other tables may do anything. *)
Inductive local_step (s s' : AdmStore) : Prop :=
| local_elsewhere : ad_fleet s' = ad_fleet s → local_step s s'
| local_insert_claim c : ad_fleet s' = insert_claim_row c (ad_fleet s) → local_step s s'
| local_delete_claim id : ad_fleet s' = delete_claim_row id (ad_fleet s) → local_step s s'
| local_insert_batch b : batch_of (ad_fleet s) (ba_id b) = None → ad_fleet s' = insert_batch_row b (ad_fleet s) → local_step s s'
| local_delete_batch b : batch_of (ad_fleet s) (ba_id b) = Some b → ad_fleet s' = delete_batch_row b (ad_fleet s) → local_step s s'
| local_delete_envelope k : ad_fleet s' = delete_envelope_row k (ad_fleet s) → local_step s s'
| local_delete_signature k key : ad_fleet s' = delete_signature_row k key (ad_fleet s) → local_step s s'
| local_writers w : wr_batches w = wr_batches (ft_writers (ad_fleet s)) → ad_fleet s' = set_writers w (ad_fleet s) → local_step s s'
| local_anchor anchor : ad_fleet s' = write_anchor anchor (ad_fleet s) → local_step s s'
| local_payload k row payload :
    ft_envelopes (ad_fleet s) !! k = Some row → ad_fleet s' = update_envelope_row k k row (with_payload payload row) false false (ad_fleet s) → local_step s s'
| local_seal relay sealed :
    let b := sb_batch sealed in
    ba_id b = header_batch_id (sealed_key sealed) (ba_previous_hash b) (decimal (ba_accepted_at_unix_ms b)) →
    ad_fleet s' = insert_envelope_row (sealed_key sealed) (sealed_row relay sealed (ad_fleet s)) (ad_fleet s) → local_step s s'
| local_sign origin key x : generated key →
    ad_fleet s' = insert_signature_row (origin, x.1, x.2) (mk_public key) (sign_envelope origin key fleet_id x) (ad_fleet s) → local_step s s'
| local_restore_envelope k row :
    ev_batch_id row = None → ev_receipt_state row = "pending" → ad_fleet s' = insert_envelope_row k row (ad_fleet s) → local_step s s'
| local_restore_signature k key signature :
    verify_envelope_signature fleet_id k key signature = true → ad_fleet s' = insert_signature_row k key signature (ad_fleet s) → local_step s s'
| local_exchange bound_shard relay now input c :
    receive_replication_exchange bound_shard relay fleet_id now input s = Ok (s', c) → local_step s s'.
Definition others : AdmStore → AdmStore → Prop := rtc local_step.

Notation adm_step := (adm_step classify_unbound classify others).

(** Where a row of envelopes comes from: it was there, with the same receipt; it waits; or
    it is one's own, bound to the batch of its header. *)
Definition row_from (t : FleetTables) (k : envelope_key) (row : ReplicaEnvelopeRow) : Prop :=
  (∃ payload old, ft_envelopes t !! k = Some old ∧ row = with_payload payload old) ∨
  ev_batch_id row = None ∧ ev_receipt_state row = "pending" ∨
  ev_batch_id row = Some (header_batch_id k (ev_previous_hash row) (ev_accepted_at_unix_ms row)) ∧ ev_receipt_state row = "validated".
Record tables_from (t t' : FleetTables) : Prop := {
  tf_rows k row : ft_envelopes t' !! k = Some row → row_from t k row;
  tf_signatures k key signature : ft_signatures t' !! (k, key) = Some signature →
    ft_signatures t !! (k, key) = Some signature ∨ verify_envelope_signature fleet_id k key signature = true
}.

Lemma from_wf s s' : tables_from (ad_fleet s) (ad_fleet s') → store_wf fleet_id s → store_wf fleet_id s'.
Proof.
  intros [Hrows Hsigs] [Hr Hv Hst Hb]. split.
  - intros k row id [(payload & old & Hk & ->)|[[Hn _]|[Hid _]]]%Hrows; [exact (Hr k old id Hk)|intros; congruence..].
  - intros k key signature [Hk|]%Hsigs; [by apply Hv|done].
  - intros k row [(payload & old & Hk & ->)|[[_ ->]|[_ ->]]]%Hrows; [by apply (Hst k old)|set_solver..].
  - intros k row [(payload & old & Hk & ->)|[[_ ->]|[-> _]]]%Hrows; [by apply (Hb k old)|done|eauto].
Qed.

Lemma from_receipts t t' : tables_from t t' → receipts_ok t → receipts_ok t'.
Proof.
  intros [Hrows _] Hr k row id [(payload & old & Hk & ->)|[[Hn _]|[Hid _]]]%Hrows; [exact (Hr k old id Hk)|intros; congruence..].
Qed.

Lemma from_old t k row : ft_envelopes t !! k = Some row → row_from t k row.
Proof. intros Hk. left. exists (ev_payload row), row. split; [done|]. by destruct row. Qed.

Lemma fewer_from t t' : ft_envelopes t' ⊆ ft_envelopes t → ft_signatures t' ⊆ ft_signatures t → tables_from t t'.
Proof.
  intros He Hs. split; [|left; by eapply lookup_weaken]. intros k row Hk. apply from_old. by eapply lookup_weaken.
Qed.

Lemma envelope_from t k row : row_from t k row → tables_from t (insert_envelope_row k row t).
Proof.
  intros Hrow. unfold insert_envelope_row. destruct (ft_envelopes t !! k) as [old|]; [by apply fewer_from|]. split; [|by left].
  intros k' row'. cbn. intros [[<- <-]|[_ Hk']]%lookup_insert_Some; [done|by apply from_old].
Qed.

Lemma signature_from t k key signature : verify_envelope_signature fleet_id k key signature = true → tables_from t (insert_signature_row k key signature t).
Proof.
  intros Hver. unfold insert_signature_row. destruct (ft_signatures t !! (k, key)); [by apply fewer_from|]. split; [intros k' row'; by apply from_old|].
  intros k' key' g. cbn. intros [[[= <- <-] <-]|[_ ?]]%lookup_insert_Some; auto.
Qed.

Lemma local_from s s' : local_step s s' → tables_from (ad_fleet s) (ad_fleet s').
Proof.
  destruct 1 as [E|c E|id E|b Hb E|b Hb E|k E|k key E|w Hw E|anchor E|k row payload Hrow E|relay sealed b Hid E|origin key x Hkey E|k row Hb Hp E|k key signature Hver E|bound_shard relay now input c E]; try rewrite E.
  - by apply fewer_from.
  - unfold insert_claim_row. destruct (ft_claims (ad_fleet s) !! cm_id c); by apply fewer_from.
  - unfold delete_claim_row. destruct (ft_claims (ad_fleet s) !! id); by apply fewer_from.
  - by apply fewer_from.
  - by apply fewer_from.
  - unfold delete_envelope_row. destruct (ft_envelopes (ad_fleet s) !! k); [|by apply fewer_from]. apply fewer_from; [apply delete_subseteq|done].
  - unfold delete_signature_row. destruct (ft_signatures (ad_fleet s) !! (k, key)); [|by apply fewer_from]. apply fewer_from; [done|apply delete_subseteq].
  - by apply fewer_from.
  - by apply fewer_from.
  - split; [|by left]. intros k' row'. cbn. rewrite insert_delete_eq. intros [[<- <-]|[_ Hk']]%lookup_insert_Some; [left; eauto|by apply from_old].
  - apply envelope_from. right; right. split; [|done]. cbn [sealed_row ev_batch_id ev_previous_hash ev_accepted_at_unix_ms]. fold b. by rewrite <-Hid.
  - by apply signature_from, sign_verifies.
  - apply envelope_from. right; by left.
  - by apply signature_from.
  - apply exchange_spec in E as [Hg _]. split.
    + intros k row Hk. destruct (tg_new _ _ _ Hg k row Hk) as [Hk'|(Hn & Hp & _)]; [by apply from_old|right; by left].
    + intros k key signature Hk. by apply (tg_verified _ _ _ Hg (k, key)).
Qed.

Lemma local_run s s' : local_step s s' → fleet_run (ad_fleet s) (ad_fleet s').
Proof.
  destruct 1 as [E|c E|id E|b Hb E|b Hb E|k E|k key E|w Hw E|anchor E|k row payload Hrow E|relay sealed b Hid E|origin key x Hkey E|k row Hb Hp E|k key signature Hver E|bound_shard relay now input c E]; try rewrite E.
  1: apply fleet_run_refl.
  all: try by eapply fleet_run_step; econstructor.
  - eapply fleet_run_step. by eapply (fstep_update_envelope (ad_fleet s) k k row (with_payload payload row) false false); [|left|..].
  - by apply exchange_spec in E as [[_ _ _ _ _ _ _ Hrun] _].
Qed.

(** What the other transactions do is what a pass over the backlog allows for. *)
Lemma others_ok s s' : others s s' → others_may s s'.
Proof.
  induction 1 as [s|s s1 s' Hstep _ [Hrun Hrec]]; [by split; [apply fleet_run_refl|]|]. split.
  - eapply fleet_run_trans; [by apply local_run|done].
  - intros Hr. apply Hrec. by eapply from_receipts; [apply local_from|].
Qed.
Lemma others_wf s s' : others s s' → store_wf fleet_id s → store_wf fleet_id s'.
Proof. induction 1 as [|s s1 s' Hstep _ IH]; [done|]. intros Hwf. apply IH. by eapply from_wf; [apply local_from|]. Qed.

Lemma hold_again_wf k s : store_wf fleet_id s → store_wf fleet_id (hold_again k s).
Proof.
  intros Hwf. pose proof (hold_again_may k s) as [[_ Hrec] _]. specialize (Hrec (wf_receipts _ _ Hwf)). revert Hrec. unfold hold_again.
  destruct (ft_envelopes (ad_fleet s) !! k) as [row|] eqn:E; [|done]. case_match; [|done]. intros Hrec.
  eapply row_wf; [exact E|cbn; by rewrite insert_delete_eq|done|cbn; set_solver|done|exact Hrec|done].
Qed.

Lemma adm_step_wf s ev s' : adm_step s ev s' → store_wf fleet_id s → store_wf fleet_id s'.
Proof.
  intros Hstep Hwf. pose proof (proj2 (adm_step_may _ _ _ others_ok _ _ _ Hstep) (wf_receipts _ _ Hwf)) as Hrec.
  destruct Hstep as [s e row row' now o o' s' Hrow Hhold Ha|s e row row' now o o' error Hrow Hhold Ha|
    s e row reason now again Hrow Hhold|s s' Hm|s index retried].
  - destruct (admit_tables _ _ _ _ _ _ _ _ _ _ Hrow Ha) as (content & _ & Hadm).
    destruct (ea_row _ _ _ _ Hadm) as (r & r' & Hr & Hr' & _ & (Hb & _ & Hset)).
    eapply row_wf; [exact Hr|exact Hr'|apply (ea_signatures _ _ _ _ Hadm)|set_solver|by rewrite Hb|exact Hrec|done].
  - destruct (admission_row_spec _ _ _ Hrow) as (r & Hr & _). revert Hrec. unfold record_invalid_replica_envelope. rewrite upsert_fleet, Hr. intros Hrec.
    eapply row_wf; [exact Hr|cbn; by rewrite insert_delete_eq|done|cbn; set_solver|done|exact Hrec|done].
  - assert (store_wf fleet_id (hold_replica_envelope (re_key e) reason now s)) as Hh
      by (destruct Hwf; split; by rewrite hold_fleet).
    cbn zeta. destruct again; [by apply hold_again_wf|done].
  - by eapply others_wf.
  - destruct Hwf. by split.
Qed.

(** What happens to a store: exchanges, passes over the backlog, and the other transactions, which
    may also come between the transactions of a pass. *)
Inductive NodeEvent := NodeReceived (c : Received) | NodePassed (o : Outcome) | NodeLocal.
Inductive node_step : AdmStore → NodeEvent → AdmStore → Prop :=
| nstep_receive s bound_shard relay now input s' c :
    receive_replication_exchange bound_shard relay fleet_id now input s = Ok (s', c) → node_step s (NodeReceived c) s'
| nstep_pass s schema_digest spent now env budget s' o :
    (∀ n s, others s (env n s)) →
    admit_replication_backlog classify_unbound classify AuthorityMembership schema_digest spent now env budget s = Some (s', o) →
    node_step s (NodePassed o) s'
| nstep_local s s' : local_step s s' → node_step s NodeLocal s'.

(** C28: the rows of envelopes and signatures stay well formed through any history of
    exchanges received, passes over the backlog, and the other transactions of a node
    ([local_step]: appends of claims and batches, deletions and tombstones of checkpoints, sealing
    of batches whose id is that of their header, signing of one's own envelopes, payloads stored
    anew, restored backups), between passes and between the transactions of a pass: each receipt state is one of
    the three, an envelope is bound to no batch but the one its own header hashes to, a
    validated envelope is bound to it, and each signature verifies for this fleet, as long
    as what the node signs with its key verifies. *)
Theorem store_stays_well_formed s tr s' : run node_step s tr s' → store_wf fleet_id s → store_wf fleet_id s'.
Proof.
  apply (run_invariant node_step (store_wf fleet_id)). clear s s' tr. intros s0 ev s1 Hwf Hstep.
  destruct Hstep as [s bound_shard relay now input s2 c Hx|s schema spent now env budget s2 o Henv Hp|s s2 Ho].
  - by eapply exchange_wf.
  - destruct (pass_run _ _ _ others_ok _ _ _ _ _ _ _ _ Henv (wf_receipts _ _ Hwf) Hp) as [tr' Hrun].
    apply (run_invariant adm_step (store_wf fleet_id)) in Hrun; [done| |done]. eauto using adm_step_wf.
  - by eapply from_wf; [apply local_from|].
Qed.
End steps.
End exchanges.

(** ** A page and its pass *)

Section toy.
#[local] Existing Instance toy_keys.
#[local] Existing Instance toy_codec.
#[local] Existing Instance toy_hooks.

Lemma exchange_done bound_shard relay fleet_id now input s :
  match receive_replication_exchange bound_shard relay fleet_id now input s with Ok _ => true | Err _ => false end = true →
  ∃ c, receive_replication_exchange bound_shard relay fleet_id now input s =
    Ok (match receive_replication_exchange bound_shard relay fleet_id now input s with Ok a => a.1 | Err _ => s end, c).
Proof. destruct (receive_replication_exchange _ _ _ _ _ _) as [[s' c]|]; [by eexists|done]. Qed.

Lemma toy_received : ∃ c, receive_replication_exchange (Ok None) "a" "f" 11 toy_exchange toy_empty = Ok (toy_store, c).
Proof. unfold toy_store. apply exchange_done. vm_compute. reflexivity. Qed.

Lemma redelivered_exchange_changes_nothing_witness :
  receive_replication_exchange (Ok None) "a" "f" 12 toy_exchange toy_store =
    Ok (toy_store, {| rc_received := 0; rc_duplicate := length (ex_envelopes toy_exchange); rc_signatures := 0 |}).
Proof.
  destruct toy_received as [c E].
  exact (redelivered_exchange_changes_nothing (Ok None) "a" "f" 11 12 toy_exchange toy_empty toy_store c E).
Defined.

Lemma toy_empty_wf : store_wf "f" toy_empty.
Proof.
  split; [intros k row id Hk|intros k key signature Hk|apply map_Forall_empty|apply map_Forall_empty]; cbn [ad_fleet toy_empty ft_envelopes ft_signatures demo_fleet_tables] in Hk; by rewrite lookup_empty in Hk.
Qed.

(** A key that signs what verifies. *)
Definition toy_seal_codec : SealCodec := {| encode_payload _ := Ok []; key_sign _ _ := "ok" |}.
#[local] Existing Instance toy_seal_codec.
Lemma toy_sign_verifies origin key x : mk_public key ≠ "ok" → verify_envelope_signature "f" (origin, x.1, x.2) (mk_public key) (sign_envelope origin key "f" x) = true.
Proof. intros Hne%String.eqb_neq. unfold verify_envelope_signature, verify_signature, sign_envelope. cbn. by rewrite Hne. Qed.

(** A deletion that finds no row, the page, and the pass. *)
Lemma store_stays_well_formed_witness : ∃ s, toy_done s ∧ store_wf "f" s.
Proof.
  destruct toy_pass_done as (s & o & E & Hd & _). exists s. split; [exact Hd|].
  destruct toy_received as [c E0].
  apply (store_stays_well_formed toy_unbound toy_classify "f" (λ key, mk_public key ≠ "ok") toy_sign_verifies toy_empty [NodeLocal; NodeReceived c; NodePassed o] s).
  - eapply run_cons; [eapply (nstep_local _ _ _ _ toy_empty toy_empty); by apply (local_delete_envelope _ _ _ _ (re_key toy_a))|].
    eapply run_cons; [eapply nstep_receive; exact E0|].
    eapply run_cons; [|apply run_nil]. eapply nstep_pass; [|exact E]. intros n s1. apply rtc_refl.
  - exact toy_empty_wf.
Defined.
End toy.
