(* ===== verification/Delivery.v ===== *)
(** * From one store to another: a sealed batch arrives

    Sealing ([Seal]) and admission ([Admission]) are the two ends of replication.  What one
    store seals, another accepts: the envelope it stores passes every check of the
    preparation, and its blobs and claims are stored as they were.  Only a claim that names a
    blob neither side has becomes an invalid record, and then the receipt is degraded. *)

From stdpp Require Import gmap.
From S2P Require Import Prelude BTree Json Digests Membership Principal Keyring Signatures Judging Text Retired WriterHeads FleetStore Admission Backlog Seal.

Local Open Scope string_scope.
Local Open Scope claims_scope.

(** What a receiver needs of its signature tables: states in which a carried signature is
    stored, and which that and the triggers of claims and records keep. *)
Class SignaturesStorable `{AdmissionHooks} := {
  storable : other → Prop;
  storable_store id g w ot : storable ot → ∃ ot', store_carried_signature_tx id g w ot = Ok ot' ∧ storable ot';
  storable_inserted c ot : storable ot → storable (claim_inserted c ot);
  storable_written x ot : storable ot → storable (record_written x ot)
}.


Section delivery.
Context `{Crypto} `{SigCodec} `{AdmissionCodec} `{SealCodec} `{SealSignatures} `{SignaturesStorable}.
Variable classify_unbound : ReplicaBatch → WireClaim → option (result ReplicatedClaimAdmission St3Error).
Variable classify : AdmStore → ReplicaBatch → WireClaim → result ReplicatedClaimAdmission St3Error.







(** ** Blobs *)



(** ** Claims *)










(** ** A whole envelope *)
















End delivery.

(** ** The signature tables of this store *)

(** The receiver stores carried signatures in them; what follows an inserted claim and a
    written record leaves their migration alone. *)
Section tables.
Context `{Crypto} `{SigCodec} (inserted : ClaimRecord → SigTables → SigTables) (written : ReplicaRecord → SigTables → SigTables).
Hypothesis inserted_migration : ∀ c s, st_migration (inserted c s) = st_migration s.
Hypothesis written_migration : ∀ x s, st_migration (written x s) = st_migration s.

Definition carried_tables : AdmissionHooks :=
  {| other := SigTables; store_carried_signature_tx id g w s := or_internal (Signatures.store_carried_signature_tx id g w s);
     claim_inserted := inserted; record_written := written |}.

Lemma store_candidate_migration id g w legacy s : st_migration (store_candidate_tx id g w legacy s) = st_migration s.
Proof.
  unfold store_candidate_tx. set (s0 := if legacy then _ else s). assert (st_migration s0 = st_migration s) as <- by (subst s0; by destruct legacy).
  destruct (insert_candidate _ _ _ _ _) as [c []]; cbn [negb]; [|done]. by rewrite (proj1 (candidate_added_tables _ _ _)).
Qed.

(** Storing works whenever the migration says whether the legacy tables serve. *)
Definition carried_storable : @SignaturesStorable carried_tables.
Proof using inserted_migration written_migration.
  refine (@Build_SignaturesStorable carried_tables (λ s : SigTables, ∃ active, legacy_active s = Ok active) _ _ _); cbn; unfold legacy_active.
  - intros id g w s [active Ha]. unfold Signatures.store_carried_signature_tx. unfold legacy_active at 1. rewrite Ha. cbn. eexists. split; [done|].
    exists active. by rewrite store_candidate_migration.
  - intros c s. by rewrite inserted_migration.
  - intros x s. by rewrite written_migration.
Defined.
End tables.

(** ** A letter with its enclosure, and one whose enclosure is lost *)

Definition enclosure : list ascii := replicate 64 "x"%char.
Definition lost_enclosure : string := string_of (replicate 64 "y"%char).
Definition mail (subject hash : string) : ClaimRecord :=
  {| cm_id := subject +:+ " letter.sent"; cm_batch_id := "batch/a/1/h"; cm_subject := subject; cm_kind := "letter.sent"; cm_origin := "a";
     cm_actor := None; cm_body := Object [("fields", Object [("blob_hash", VString hash)])]; cm_predecessors := []; cm_accepted_at_unix_ms := 10 |}.
Definition letter : ClaimRecord := mail "letter/1" (string_of enclosure).
Definition lost_letter : ClaimRecord := mail "letter/2" lost_enclosure.
Definition letter_codec : AdmissionCodec :=
  {| sha256 bytes := bytes; hex_encode := string_of; base64_encode := string_of; base64_error text := text; hash_header _ := "h";
     hash_claim '(_, subject, kind, _, _, _, _) := Ok (subject +:+ " " +:+ kind);
     decode_payload _ := Ok (payload_of demo_batch [(1%Z, letter); (2%Z, lost_letter)] [(string_of enclosure, enclosure)] []);
     encode_claim _ := Ok []; encode_body _ := Ok ""; encode_predecessors _ := Ok "" |}.
Definition letter_hooks : AdmissionHooks := @carried_tables note_keys demo_codec (λ _ s, s) (λ _ s, s).
Definition letter_storable : @SignaturesStorable letter_hooks :=
  @carried_storable note_keys demo_codec (λ _ s, s) (λ _ s, s) (λ _ _, eq_refl) (λ _ _, eq_refl).

Section letter.
#[local] Existing Instances note_keys demo_codec letter_codec note_seal_codec letter_hooks letter_storable.






End letter.
