(* ===== verification/PeerAuth.v ===== *)
(** * Signed messages between members (crates/smallclaims/src/sync/mod.rs)

    Every request and answer of the sync exchange carries the fleet's HMAC and, on a member,
    its member key's signature ([FleetAuth]).  Both cover the protocol, the method, the path,
    the fleet, the sender, the digest of the body and, in an answer, the digest of the
    request it answers. *)

From S2P Require Import Prelude BTree Json Membership FleetView Principal Keyring Inventory.

Local Open Scope string_scope.
Local Open Scope claims_scope.

(** ** Packages *)

(** [hmac], [sha2] and the private half of a member key. *)
Class AuthCrypto := {
  hmac_sha256 : list ascii → string → list ascii;
  digest_sha256 : list ascii → list ascii;
  member_sign : MemberKey → string → string
}.
(** The package [http]: which texts a header may hold, and which it gives back as text. *)
Class HttpHeaders := {
  header_value_ok : string → bool;
  header_text_ok : string → bool
}.

(** ** What is signed *)

Definition PROTOCOL : string := "st3-replication-v1".
Definition MEMBER_SIGNATURE_DOMAIN : string := "st3-member-v1".
Definition EXCHANGE_PATH : string := "/v1/peer/exchange".
Definition HEADER_FLEET : string := "x-st3-fleet".
Definition HEADER_NODE : string := "x-st3-node".
Definition HEADER_BODY : string := "x-st3-body-sha256".
Definition HEADER_SIGNATURE : string := "x-st3-signature".
Definition HEADER_REQUEST : string := "x-st3-request-digest".
Definition HEADER_MEMBER_KEY : string := "x-st3-member-key".
Definition HEADER_MEMBER_SIGNATURE : string := "x-st3-member-signature".
(** [HEADER_ALIASES]: the other spelling of a header. *)
Definition alias_of (name : string) : string :=
  default name (assoc name
    [(HEADER_FLEET, "x-fractal-fleet"); (HEADER_NODE, "x-fractal-node"); (HEADER_BODY, "x-fractal-body-sha256");
     (HEADER_SIGNATURE, "x-fractal-signature"); (HEADER_REQUEST, "x-fractal-request-digest");
     (HEADER_MEMBER_KEY, "x-fractal-member-key"); (HEADER_MEMBER_SIGNATURE, "x-fractal-member-signature")]).

Record FleetAuth := { fa_fleet_id : string; fa_secret : list ascii; fa_member : option MemberKey }.

(** [FleetAuth::canonical] *)
Definition canonical (fleet_id method path node body_digest : string) (request_digest : option string) : string :=
  join newline [PROTOCOL; method; path; fleet_id; node; body_digest; default "" request_digest].
(** [FleetAuth::member_message] *)
Definition member_message (canonical : string) : string := join newline [MEMBER_SIGNATURE_DOMAIN; canonical].

(** The headers of a message, in order; a name may occur more than once. *)
Definition HeaderMap : Type := list (string * string).
Definition get_all (name : string) (h : HeaderMap) : list string := snd <$> List.filter (λ x, String.eqb x.1 name) h.
Definition insert_header (name value : string) (h : HeaderMap) : HeaderMap := (List.filter (λ x, negb (String.eqb x.1 name)) h ++ [(name, value)])%list.

Section auth.
Context `{Crypto} `{AuthCrypto} `{Hex} `{HttpHeaders}.

(** [FleetAuth::body_digest], [FleetAuth::signature] *)
Definition body_digest (body : list ascii) : string := hex_encode (digest_sha256 body).
Definition signature (auth : FleetAuth) (method path node digest : string) (request_digest : option string) : string :=
  hex_encode (hmac_sha256 (fa_secret auth) (canonical (fa_fleet_id auth) method path node digest request_digest)).

(** ** Headers *)

Definition put_header (name value : string) (h : HeaderMap) : result HeaderMap string :=
  if header_value_ok value then Ok (insert_header name value h) else Err "failed to parse header value".

(** [headers] *)
Definition headers (fleet node digest signature : string) (request_digest : option string) : result HeaderMap string :=
  let? h := put_header HEADER_FLEET fleet [] in
  let? h := put_header HEADER_NODE node h in
  let? h := put_header HEADER_BODY digest h in
  let? h := put_header HEADER_SIGNATURE signature h in
  match request_digest with
  | Some request_digest => put_header HEADER_REQUEST request_digest h
  | None => Ok h
  end.

(** [FleetAuth::add_member_signature] *)
Definition add_member_signature (auth : FleetAuth) (h : HeaderMap) (canonical : string) : result HeaderMap string :=
  match fa_member auth with
  | Some member =>
      let? h := put_header HEADER_MEMBER_KEY (mk_public member) h in
      put_header HEADER_MEMBER_SIGNATURE (member_sign member (member_message canonical)) h
  | None => Ok h
  end.

(** [FleetAuth::request_headers_method] and [response_headers_for]: a request has no digest
    of a request. *)
Definition message_headers (auth : FleetAuth) (method path node : string) (body : list ascii) (request_digest : option string)
    : result HeaderMap string :=
  let digest := body_digest body in
  let? h := headers (fa_fleet_id auth) node digest (signature auth method path node digest request_digest) request_digest in
  add_member_signature auth h (canonical (fa_fleet_id auth) method path node digest request_digest).
Definition request_headers_method (auth : FleetAuth) (method path node : string) (body : list ascii) : result HeaderMap string :=
  message_headers auth method path node body None.
Definition response_headers_for (auth : FleetAuth) (path node : string) (body : list ascii) (request_digest : string) : result HeaderMap string :=
  message_headers auth "RESPONSE" path node body (Some request_digest).

(** ** Verification *)

(** [signed_fields]: one field, under either name. *)
Definition signed_field (name : string) (h : HeaderMap) : result (option string) string :=
  match (get_all name h ++ get_all (alias_of name) h)%list with
  | [] => Ok None
  | first :: rest =>
      if forallb (λ value, String.eqb value first) rest then Ok (if header_text_ok first then Some first else None)
      else Err ("the signed message has conflicting " +:+ name +:+ "/" +:+ alias_of name +:+ " headers")
  end.
Definition field (value : option string) (name : string) : result string string :=
  match value with Some text => Ok text | None => Err ("the signed message has no valid " +:+ name +:+ " header") end.

(** [anyhow::ensure] *)
Definition ensure (condition : bool) (message : string) : result unit string := if condition then Ok tt else Err message.

(** [FleetAuth::verify_sender] *)
Definition verify_sender (auth : FleetAuth) (h : HeaderMap) (method path : string) (body : list ascii) (expected_node request_digest : option string)
    : result Sender string :=
  let? fleet := signed_field HEADER_FLEET h in
  let? node := signed_field HEADER_NODE h in
  let? body_hash := signed_field HEADER_BODY h in
  let? mac := signed_field HEADER_SIGNATURE h in
  let? request := signed_field HEADER_REQUEST h in
  let? member_key := signed_field HEADER_MEMBER_KEY h in
  let? member_signature := signed_field HEADER_MEMBER_SIGNATURE h in
  let? fleet := field fleet HEADER_FLEET in
  let? _ := ensure (String.eqb fleet (fa_fleet_id auth)) "the fleet ID does not match" in
  let? node := field node HEADER_NODE in
  let? _ := ensure (match expected_node with Some expected => String.eqb node expected | None => true end)
              "the signed node does not match the configured peer" in
  let digest := body_digest body in
  let? body_hash := field body_hash HEADER_BODY in
  let? _ := ensure (String.eqb body_hash digest) "the signed body digest does not match" in
  let? _ := match request_digest with
            | Some expected =>
                let? request := field request HEADER_REQUEST in
                ensure (String.eqb request expected) "the response does not bind to this request"
            | None => Ok tt
            end in
  let? mac := field mac HEADER_SIGNATURE in
  let? mac := match hex_decode mac with Some bytes => Ok bytes | None => Err "the replication signature is not hexadecimal" end in
  let message := canonical (fa_fleet_id auth) method path node digest request_digest in
  let? _ := ensure (bool_decide (mac = hmac_sha256 (fa_secret auth) message)) "the replication signature does not match" in
  Ok {| sd_name := node; sd_member_key := member_key;
        sd_member_signature_valid := match member_key, member_signature with
          | Some key, Some signature => verify_signature key (member_message message) signature
          | _, _ => false
          end |}.

(** ** What the packages promise *)

(** Hex is undone by decoding and is text, and a text of a header is one line. *)
Class AuthLaws : Prop := {
  hex_round_trip bytes : hex_decode (hex_encode bytes) = Some bytes;
  hex_is_text bytes : header_text_ok (hex_encode bytes) = true;
  text_is_line value : header_text_ok value = true → NL ∉ bytes_of value
}.
Context `{AuthLaws}.

(** ** The bytes of a message determine it *)

(** The parts of a message that are lines. *)
Definition lines (l : list string) : Prop := ∀ x, x ∈ l → NL ∉ bytes_of x.

Lemma domain_lines : lines [PROTOCOL; MEMBER_SIGNATURE_DOMAIN].
Proof. refine (proj1 (Forall_forall (λ x, NL ∉ bytes_of x) _) _). apply (bool_decide_unpack _). vm_compute. exact I. Qed.

Lemma canonical_inj fleet method path node digest rd fleet' method' path' node' digest' rd' :
  lines [method; path; fleet; node; digest] → lines [method'; path'; fleet'; node'; digest'] →
  canonical fleet method path node digest rd = canonical fleet' method' path' node' digest' rd' →
  (fleet, method, path, node, digest, default "" rd) = (fleet', method', path', node', digest', default "" rd').
Proof.
  intros Hl Hl' E. apply (join_inj_last NL [_;_;_;_;_;_] [_;_;_;_;_;_]) in E as [[= -> -> -> -> ->] ->]; [done|done|..].
  - intros x [->|Hx]%elem_of_cons; [apply domain_lines; by left|by apply Hl].
  - intros x [->|Hx]%elem_of_cons; [apply domain_lines; by left|by apply Hl'].
Qed.

(** The MAC a message comes with. *)
Definition presents (h : HeaderMap) (mac : list ascii) : Prop := ∃ text, signed_field HEADER_SIGNATURE h = Ok (Some text) ∧ hex_decode text = Some mac.

Lemma signed_field_line name h value : signed_field name h = Ok (Some value) → NL ∉ bytes_of value.
Proof.
  unfold signed_field. destruct (_ ++ _)%list as [|first rest]; [done|]. destruct (forallb _ rest); [|done].
  destruct (header_text_ok first) eqn:E; [|done]. intros [= <-]. by apply text_is_line.
Qed.
Lemma field_ok value name text : field value name = Ok text → value = Some text.
Proof. destruct value; [by intros [= ->]|done]. Qed.
Lemma ensure_ok condition message u : ensure condition message = Ok u → condition = true.
Proof. by destruct condition. Qed.

(** What a message that verifies was checked for. *)
Lemma verify_sender_ok auth h method path body expected rd sender :
  verify_sender auth h method path body expected rd = Ok sender →
  let message := canonical (fa_fleet_id auth) method path (sd_name sender) (body_digest body) rd in
  presents h (hmac_sha256 (fa_secret auth) message) ∧ NL ∉ bytes_of (sd_name sender) ∧ NL ∉ bytes_of (fa_fleet_id auth) ∧
  (∀ node, expected = Some node → sd_name sender = node) ∧
  (sd_member_signature_valid sender = true → ∃ key signature, sd_member_key sender = Some key ∧ verify_signature key (member_message message) signature = true).
Proof.
  unfold verify_sender. intros (fleet & Hf & E)%result_bind_Ok. apply result_bind_Ok in E as (node & Hn & E). apply result_bind_Ok in E as (bh & Hb & E).
  apply result_bind_Ok in E as (mac & Hm & E). apply result_bind_Ok in E as (request & Hr & E). apply result_bind_Ok in E as (mk & Hk & E).
  apply result_bind_Ok in E as (ms & Hs & E). apply result_bind_Ok in E as (fleet' & ->%field_ok & E). apply result_bind_Ok in E as (? & Hfe%ensure_ok%String.eqb_eq & E).
  apply result_bind_Ok in E as (node' & ->%field_ok & E). apply result_bind_Ok in E as (? & Hne%ensure_ok & E). apply result_bind_Ok in E as (bh' & ->%field_ok & E).
  apply result_bind_Ok in E as (? & _ & E). apply result_bind_Ok in E as (? & _ & E). apply result_bind_Ok in E as (mac' & ->%field_ok & E).
  apply result_bind_Ok in E as (bytes & Hd & E). apply result_bind_Ok in E as (? & Hmac%ensure_ok%bool_decide_eq_true & E). injection E as <-. cbn [sd_name sd_member_key sd_member_signature_valid].
  split_and!.
  - exists mac'. split; [done|]. destruct (hex_decode mac'); [|done]. congruence.
  - by eapply signed_field_line.
  - rewrite <-Hfe. by eapply signed_field_line.
  - intros peer ->. by apply String.eqb_eq in Hne.
  - destruct mk as [key|], ms as [sig|]; try done. intros Hv. by exists key, sig.
Qed.

(** ** A member's own messages verify *)

(** The headers that are sent, in order. *)
Definition sent (auth : FleetAuth) (method path node digest : string) (rd : option string) : HeaderMap :=
  ([(HEADER_FLEET, fa_fleet_id auth); (HEADER_NODE, node); (HEADER_BODY, digest); (HEADER_SIGNATURE, signature auth method path node digest rd)] ++
   ((λ rd, (HEADER_REQUEST, rd)) <$> option_list rd) ++
   match fa_member auth with
   | Some member =>
       [(HEADER_MEMBER_KEY, mk_public member);
        (HEADER_MEMBER_SIGNATURE, member_sign member (member_message (canonical (fa_fleet_id auth) method path node digest rd)))]
   | None => []
   end)%list.

Lemma message_headers_sent auth method path node body rd h :
  message_headers auth method path node body rd = Ok h → h = sent auth method path node (body_digest body) rd.
Proof.
  unfold message_headers, headers, add_member_signature, put_header, sent. set (digest := body_digest body). clearbody digest.
  set (mac := signature auth method path node digest rd). clearbody mac.
  destruct (header_value_ok (fa_fleet_id auth)); cbn [result_bind]; [|done]. destruct (header_value_ok node); cbn [result_bind]; [|done].
  destruct (header_value_ok digest); cbn [result_bind]; [|done]. destruct (header_value_ok mac); cbn [result_bind]; [|done].
  destruct rd as [rd|], (fa_member auth) as [member|]; cbn [result_bind];
    repeat match goal with |- context [if header_value_ok ?x then _ else _] => destruct (header_value_ok x); cbn [result_bind]; [|done] end; by intros [= <-].
Qed.

Lemma sent_fields auth method path node digest rd :
  let h := sent auth method path node digest rd in
  let text value := if header_text_ok value then Some value else None in
  signed_field HEADER_FLEET h = Ok (text (fa_fleet_id auth)) ∧ signed_field HEADER_NODE h = Ok (text node) ∧ signed_field HEADER_BODY h = Ok (text digest) ∧
  signed_field HEADER_SIGNATURE h = Ok (text (signature auth method path node digest rd)) ∧ signed_field HEADER_REQUEST h = Ok (rd ≫= text) ∧
  signed_field HEADER_MEMBER_KEY h = Ok (fa_member auth ≫= λ member, text (mk_public member)) ∧
  signed_field HEADER_MEMBER_SIGNATURE h = Ok (fa_member auth ≫= λ member, text (member_sign member (member_message (canonical (fa_fleet_id auth) method path node digest rd)))).
Proof. cbv zeta. unfold sent. destruct rd, (fa_member auth); split_and!; reflexivity. Qed.

Lemma own_messages_verify auth auth' method path node body rd expected h :
  message_headers auth method path node body rd = Ok h →
  fa_fleet_id auth' = fa_fleet_id auth → fa_secret auth' = fa_secret auth →
  header_text_ok (fa_fleet_id auth) = true → header_text_ok node = true → is_none_or header_text_ok rd = true →
  (∀ member, fa_member auth = Some member → header_text_ok (mk_public member) = true ∧
    ∀ m, header_text_ok (member_sign member m) = true ∧ verify_signature (mk_public member) m (member_sign member m) = true) →
  is_none_or (String.eqb node) expected = true →
  verify_sender auth' h method path body expected rd =
    Ok {| sd_name := node; sd_member_key := mk_public <$> fa_member auth; sd_member_signature_valid := bool_decide (is_Some (fa_member auth)) |}.
Proof.
  intros ->%message_headers_sent Hf Hs Hft Hnt Hrt Hmember He. unfold verify_sender.
  destruct (sent_fields auth method path node (body_digest body) rd) as (-> & -> & -> & -> & -> & -> & ->). cbn [result_bind].
  unfold signature. rewrite Hft, Hnt. unfold body_digest at 1 2 3. rewrite !hex_is_text. cbn [result_bind field]. rewrite Hf, String.eqb_refl. cbn [ensure result_bind].
  assert (match expected with Some expected0 => String.eqb node expected0 | None => true end = true) as -> by (by destruct expected).
  cbn [ensure result_bind]. fold (body_digest body). rewrite String.eqb_refl. cbn [ensure result_bind].
  assert (match rd with Some ex => let? request := field (rd ≫= λ value, if header_text_ok value then Some value else None) HEADER_REQUEST in ensure (String.eqb request ex) "the response does not bind to this request" | None => Ok tt end = Ok tt) as ->.
  { destruct rd as [rd|]; [|done]. cbn [is_none_or] in Hrt. cbn. rewrite Hrt. cbn. by rewrite String.eqb_refl. }
  cbn [result_bind]. rewrite hex_round_trip. cbn [result_bind]. rewrite Hs, bool_decide_true by done. cbn [ensure result_bind]. f_equal. f_equal.
  - destruct (fa_member auth) as [member|]; [|done]. destruct (Hmember member eq_refl) as [Hpub _]. cbn. by rewrite Hpub.
  - destruct (fa_member auth) as [member|]; [|done]. destruct (Hmember member eq_refl) as [Hpub Hsig]. cbn [mbind option_bind fmap option_fmap option_map]. rewrite Hpub.
    destruct (Hsig (member_message (canonical (fa_fleet_id auth) method path node (body_digest body) rd))) as [Ht Hv]. rewrite Ht. by rewrite Hv.
Qed.
End auth.
