(* ===== verification/Handshake.v ===== *)
(** * The join handshake (crates/smallclaims/src/fleet/handshake.rs)

    One request and one answer.  The joiner proves the invite token with an HMAC over its
    request and signs it with its new member key.  The sponsor seals the fleet secret under a
    key agreed between fresh ephemeral keys, salted with the token, and signs the whole answer
    with its member key, whose fingerprint is in the join code.

    A member key signs five kinds of bytes: claims, envelopes, exchange messages, join
    requests and join answers.  They determine what was signed, so that none can be passed off
    as another, and a joiner that opens an answer holds what a sponsor sealed for its own
    request. *)

From stdpp Require Import gmap.
From S2P Require Import Prelude BTree Json Membership FleetView Principal Keyring JoinCode Digests Retired FleetStore Admission PeerAuth.

Local Open Scope string_scope.
Local Open Scope claims_scope.

(** ** Messages *)

Definition JOIN_PROTOCOL : string := "st3-join-v1".
Definition SEAL_INFO : string := "st3-join-v1 seal".

Record WriterHead := { wh_sequence : Z; wh_hash : string }.
Record JoinRequest := {
  jr_protocol : string;
  jr_invite : string;
  jr_name : string;
  jr_mode : string;
  jr_member_key : string;
  jr_ephemeral : string;
  jr_writer_head : option WriterHead;
  jr_build : string;
  jr_migrate : bool;
  jr_proof : string;
  jr_signature : string
}.
Record SealedJoin := {
  sj_fleet_id : string;
  sj_secret : option string;
  sj_anchor_key : string;
  sj_sponsor : string;
  sj_writer_floor : option Z;
  sj_fabric_protocol : option string;
  sj_admitted_claim : option string
}.
Record JoinResponse := {
  js_protocol : string;
  js_sponsor : string;
  js_sponsor_key : string;
  js_ephemeral : string;
  js_nonce : string;
  js_sealed : string;
  js_signature : string
}.

(** ** Packages *)

(** [base64], [ring] and [serde_json]: X25519, HKDF-SHA256, ChaCha20-Poly1305 and the JSON of
    what is sealed. *)
Class JoinCrypto := {
  base64url_encode : list ascii → string;
  x25519_public : list ascii → list ascii;
  x25519_agree : list ascii → list ascii → option (list ascii);
  hkdf_sha256 : list ascii → list ascii → list ascii → list ascii;
  chacha_seal : list ascii → list ascii → list ascii → list ascii → list ascii;
  chacha_open : list ascii → list ascii → list ascii → list ascii → option (list ascii);
  sealed_to_vec : SealedJoin → list ascii;
  sealed_from_slice : list ascii → option SealedJoin
}.

(** [WriterHead] and [JoinRequest::transcript] as JSON values. *)
Definition head_value (head : option WriterHead) : Value :=
  match head with
  | Some h => Object [("sequence", VNumber (PosInt (wh_sequence h))); ("hash", VString (wh_hash h))]
  | None => Null
  end.
Definition transcript_value (r : JoinRequest) : Value :=
  Object [("build", VString (jr_build r)); ("ephemeral", VString (jr_ephemeral r)); ("invite", VString (jr_invite r));
          ("member_key", VString (jr_member_key r)); ("migrate", VBool (jr_migrate r)); ("mode", VString (jr_mode r));
          ("name", VString (jr_name r)); ("protocol", VString (jr_protocol r)); ("writer_head", head_value (jr_writer_head r))].

Section handshake.
Context `{Crypto} `{AuthCrypto} `{JoinCrypto}.

Definition transcript (r : JoinRequest) : string := json_to_string (transcript_value r).

(** [JoinResponse::signed_bytes] *)
Definition signed_bytes (response : JoinResponse) (request : JoinRequest) : string :=
  join newline [transcript request; jr_proof request; js_sponsor response; js_sponsor_key response; js_ephemeral response;
                js_nonce response; js_sealed response].

(** [decode] *)
Definition decode_text (text : string) : result (list ascii) string :=
  match base64url_decode text with Some bytes => Ok bytes | None => Err "the join message has invalid base64" end.

(** [proof], [aad], [seal_key] *)
Definition proof (token : list ascii) (transcript : string) : list ascii := hmac_sha256 token transcript.
Definition aad (transcript sponsor_key : string) (sponsor_ephemeral : list ascii) : list ascii :=
  digest_sha256 (bytes_of transcript ++ bytes_of sponsor_key ++ sponsor_ephemeral)%list.
Definition seal_key (shared token aad : list ascii) : list ascii := hkdf_sha256 token shared (bytes_of SEAL_INFO ++ aad)%list.

(** [code::fingerprint] *)
Definition fingerprint (member_key : string) : list ascii :=
  take 16 (digest_sha256 (default (bytes_of member_key) (base64url_decode member_key))).

(** ** The joiner *)

Record Joiner := { jn_ephemeral : list ascii; jn_token : list ascii; jn_fingerprint : list ascii; jn_request : JoinRequest }.

(** [Joiner::start], with the ephemeral key it draws; [invite] is the code's invite in hex. *)
Definition start (ephemeral : list ascii) (code : JoinCode) (invite : string) (member : MemberKey) (name mode : string) (writer_head : option WriterHead)
    (build : string) : Joiner :=
  let request signature proof :=
    {| jr_protocol := JOIN_PROTOCOL; jr_invite := invite; jr_name := name; jr_mode := mode; jr_member_key := mk_public member;
       jr_ephemeral := base64url_encode (x25519_public ephemeral); jr_writer_head := writer_head; jr_build := build; jr_migrate := jc_migrate code;
       jr_proof := proof; jr_signature := signature |} in
  let transcript := transcript (request "" "") in
  {| jn_ephemeral := ephemeral; jn_token := jc_token code; jn_fingerprint := jc_fingerprint code;
     jn_request := request (member_sign member transcript) (base64url_encode (proof (jc_token code) transcript)) |}.

(** [Joiner::open] *)
Definition open (j : Joiner) (response : JoinResponse) : result SealedJoin string :=
  let? _ := ensure (String.eqb (js_protocol response) JOIN_PROTOCOL) "the sponsor speaks another join protocol" in
  let? _ := ensure (bool_decide (fingerprint (js_sponsor_key response) = jn_fingerprint j))
              "the sponsor's key does not match the join code; this is not the machine that made it" in
  let? _ := ensure (verify_signature (js_sponsor_key response) (signed_bytes response (jn_request j)) (js_signature response))
              "the sponsor's answer is not signed by its key" in
  let? sponsor_ephemeral := decode_text (js_ephemeral response) in
  let aad := aad (transcript (jn_request j)) (js_sponsor_key response) sponsor_ephemeral in
  let? shared := match x25519_agree (jn_ephemeral j) sponsor_ephemeral with
                 | Some shared => Ok shared
                 | None => Err "the sponsor's ephemeral key is invalid"
                 end in
  let key := seal_key shared (jn_token j) aad in
  let? nonce := decode_text (js_nonce response) in
  let? _ := ensure (Nat.eqb (length nonce) 12) "the join nonce is invalid" in
  let? sealed := decode_text (js_sealed response) in
  match chacha_open key nonce aad sealed with
  | None => Err "the sealed join answer does not open"
  | Some opened => match sealed_from_slice opened with Some payload => Ok payload | None => Err "decode the sealed join answer" end
  end.

(** ** The sponsor *)

Inductive RequestFault := FaultProtocol | FaultProof | FaultSignature.

(** [verify_request] *)
Definition verify_request (request : JoinRequest) (token : list ascii) : result unit RequestFault :=
  if negb (String.eqb (jr_protocol request) JOIN_PROTOCOL) then Err FaultProtocol
  else
    let transcript := transcript request in
    match base64url_decode (jr_proof request) with
    | None => Err FaultProof
    | Some expected =>
        if negb (bool_decide (expected = proof token transcript)) then Err FaultProof
        else if negb (verify_signature (jr_member_key request) transcript (jr_signature request)) then Err FaultSignature
        else Ok tt
    end.

(** [seal_response], with the ephemeral key and the nonce it draws. *)
Definition seal_response (ephemeral nonce : list ascii) (request : JoinRequest) (token : list ascii) (sponsor : string) (sponsor_key : MemberKey)
    (payload : SealedJoin) : result JoinResponse string :=
  let public := x25519_public ephemeral in
  let? joiner_ephemeral := decode_text (jr_ephemeral request) in
  let aad := aad (transcript request) (mk_public sponsor_key) public in
  let? shared := match x25519_agree ephemeral joiner_ephemeral with
                 | Some shared => Ok shared
                 | None => Err "the joiner's ephemeral key is invalid"
                 end in
  let key := seal_key shared token aad in
  let sealed := chacha_seal key nonce aad (sealed_to_vec payload) in
  let response signature :=
    {| js_protocol := JOIN_PROTOCOL; js_sponsor := sponsor; js_sponsor_key := mk_public sponsor_key; js_ephemeral := base64url_encode public;
       js_nonce := base64url_encode nonce; js_sealed := base64url_encode sealed; js_signature := signature |} in
  Ok (response (member_sign sponsor_key (signed_bytes (response "") request))).

(** ** What the packages promise *)

(** Base64 without padding has one text for each byte string; X25519 agrees; sealing is
    undone by opening with the same key, nonce and associated data; and JSON is written on
    one line, objects in braces, and read back as it was. *)
Class JoinLaws : Prop := {
  base64_round_trip bytes : base64url_decode (base64url_encode bytes) = Some bytes;
  base64_canonical text bytes : base64url_decode text = Some bytes → text = base64url_encode bytes;
  base64_line bytes : NL ∉ bytes_of (base64url_encode bytes);
  agree_commutes a b : x25519_agree a (x25519_public b) = x25519_agree b (x25519_public a);
  chacha_round_trip key nonce aad plain : chacha_open key nonce aad (chacha_seal key nonce aad plain) = Some plain;
  sealed_round_trip payload : sealed_from_slice (sealed_to_vec payload) = Some payload;
  json_object fields : ∃ rest, json_to_string (Object fields) = String "{" rest;
  json_line value : NL ∉ bytes_of (json_to_string value);
  json_inj value value' : value_wf value → value_wf value' → json_to_string value = json_to_string value' → value = value'
}.
Context `{JoinLaws}.

Lemma decoded_line text bytes : base64url_decode text = Some bytes → NL ∉ bytes_of text.
Proof. intros ->%base64_canonical. apply base64_line. Qed.
Lemma decode_text_ok text bytes : decode_text text = Ok bytes → text = base64url_encode bytes.
Proof. unfold decode_text. destruct (base64url_decode text) eqn:E; [|done]. intros [= <-]. by apply base64_canonical. Qed.
Lemma decode_text_encode bytes : decode_text (base64url_encode bytes) = Ok bytes.
Proof. unfold decode_text. by rewrite base64_round_trip. Qed.

(** ** What a request's transcript covers *)

Definition unsigned (r : JoinRequest) : JoinRequest :=
  {| jr_protocol := jr_protocol r; jr_invite := jr_invite r; jr_name := jr_name r; jr_mode := jr_mode r; jr_member_key := jr_member_key r;
     jr_ephemeral := jr_ephemeral r; jr_writer_head := jr_writer_head r; jr_build := jr_build r; jr_migrate := jr_migrate r; jr_proof := "";
     jr_signature := "" |}.

Lemma transcript_wf r : value_wf (transcript_value r).
Proof.
  unfold transcript_value, head_value. cbn. split_and!; try done.
  - repeat (apply NoDup_cons_2; [set_unfold; intuition congruence|]). apply NoDup_nil_2.
  - destruct (jr_writer_head r); [|done]. cbn. split_and!; try done. repeat (apply NoDup_cons_2; [set_unfold; intuition congruence|]). apply NoDup_nil_2.
Qed.

Lemma transcript_inj r r' : transcript r = transcript r' → unsigned r = unsigned r'.
Proof.
  intros E%json_inj; [|apply transcript_wf..]. destruct r as [? ? ? ? ? ? head], r' as [? ? ? ? ? ? head'].
  unfold transcript_value, unsigned in *. cbn in *. injection E as -> -> -> -> -> -> -> -> Hh. f_equal. destruct head as [[]|], head' as [[]|]; cbn in Hh; congruence.
Qed.
Lemma transcript_unsigned r : transcript (unsigned r) = transcript r.
Proof. done. Qed.

(** ** What a member key signs *)

Inductive MemberMessage :=
| ClaimMessage (content signer : string) (on_behalf : option string) (key : string) (chain : list string) (nonce : string) (signed_at : Z)
| EnvelopeMessage (fleet_id : string) (k : envelope_key)
| ExchangeMessage (fleet_id method path node digest : string) (request_digest : option string)
| RequestMessage (request : JoinRequest)
| AnswerMessage (request : JoinRequest) (response : JoinResponse).

Definition message_bytes (m : MemberMessage) : string :=
  match m with
  | ClaimMessage content signer on_behalf key chain nonce signed_at => signing_bytes content signer on_behalf key chain nonce signed_at
  | EnvelopeMessage fleet_id k => envelope_signature_message fleet_id k
  | ExchangeMessage fleet_id method path node digest request_digest => member_message (canonical fleet_id method path node digest request_digest)
  | RequestMessage request => transcript request
  | AnswerMessage request response => signed_bytes response request
  end.

(** Its parts are lines where the code makes them of lines. *)
Definition message_wf (m : MemberMessage) : Prop :=
  match m with
  | ClaimMessage content signer on_behalf key chain nonce signed_at => signable content signer on_behalf key chain nonce ∧ u64 signed_at
  | EnvelopeMessage fleet_id k => lines [fleet_id; k.1.1] ∧ (0 <= k.1.2)%Z
  | ExchangeMessage fleet_id method path node digest _ => lines [method; path; fleet_id; node; digest]
  | RequestMessage _ => True
  | AnswerMessage request response => lines [jr_proof request; js_sponsor_key response; js_ephemeral response; js_nonce response; js_sealed response]
  end.

(** What the bytes cover: of a request all but its proof and signature, of an answer all but
    its protocol and signature, with the request and the proof it answers. *)
Definition with_proof (proof : string) (r : JoinRequest) : JoinRequest :=
  {| jr_protocol := jr_protocol r; jr_invite := jr_invite r; jr_name := jr_name r; jr_mode := jr_mode r; jr_member_key := jr_member_key r;
     jr_ephemeral := jr_ephemeral r; jr_writer_head := jr_writer_head r; jr_build := jr_build r; jr_migrate := jr_migrate r; jr_proof := proof;
     jr_signature := jr_signature r |}.
Definition unsigned_answer (s : JoinResponse) : JoinResponse :=
  {| js_protocol := ""; js_sponsor := js_sponsor s; js_sponsor_key := js_sponsor_key s; js_ephemeral := js_ephemeral s; js_nonce := js_nonce s;
     js_sealed := js_sealed s; js_signature := "" |}.
Definition covered (m : MemberMessage) : MemberMessage :=
  match m with
  | ExchangeMessage fleet_id method path node digest rd => ExchangeMessage fleet_id method path node digest (Some (default "" rd))
  | RequestMessage request => RequestMessage (unsigned request)
  | AnswerMessage request response => AnswerMessage (with_proof (jr_proof request) (unsigned request)) (unsigned_answer response)
  | _ => m
  end.

(** The first line of a message tells its kind. *)
Definition head_line (m : MemberMessage) : string :=
  match m with
  | ClaimMessage _ _ _ _ _ _ _ => CLAIM_SIGNATURE_DOMAIN
  | EnvelopeMessage _ _ => ENVELOPE_SIGNATURE_DOMAIN
  | ExchangeMessage _ _ _ _ _ _ => MEMBER_SIGNATURE_DOMAIN
  | RequestMessage request | AnswerMessage request _ => transcript request
  end.
Definition one_line (m : MemberMessage) : bool := match m with RequestMessage _ => true | _ => false end.

Lemma head_line_line m : NL ∉ bytes_of (head_line m).
Proof. destruct m; try apply json_line; apply (bool_decide_unpack (_ ∉ _)); vm_compute; exact I. Qed.

Lemma message_head m :
  if one_line m then message_bytes m = head_line m else ∃ tail, message_bytes m = head_line m +:+ String NL tail.
Proof.
  destruct m; cbn [one_line message_bytes head_line]; try done; unfold signing_bytes, envelope_signature_message, member_message, signed_bytes;
    rewrite join_cons by done; by eexists.
Qed.

Lemma head_lines_agree m m' : message_bytes m = message_bytes m' → head_line m = head_line m' ∧ one_line m = one_line m'.
Proof.
  intros E. pose proof (message_head m) as Hm. pose proof (message_head m') as Hm'. destruct (one_line m), (one_line m').
  - by rewrite <-Hm, <-Hm', E.
  - destruct Hm' as [tail Ht]. rewrite Hm in E. exfalso. apply (head_line_line m). rewrite E, Ht, bytes_of_app. cbn. set_solver.
  - destruct Hm as [tail Ht]. rewrite Hm' in E. exfalso. apply (head_line_line m'). rewrite <-E, Ht, bytes_of_app. cbn. set_solver.
  - destruct Hm as [tail Ht], Hm' as [tail' Ht']. rewrite Ht, Ht' in E. apply string_sep_inj in E as [-> _]; [done|apply head_line_line..].
Qed.

(** Pieces that are lines are found from the end, whatever comes first. *)
Lemma app_lines_inj {A} (c : A) (l l' : list (list A)) x x' :
  length l = length l' → (∀ y, y ∈ l → c ∉ y) → (∀ y, y ∈ l' → c ∉ y) →
  (x ++ concat (cons c <$> l) = x' ++ concat (cons c <$> l'))%list → x = x' ∧ l = l'.
Proof.
  revert l'. induction l as [|y l IH] using rev_ind; intros l' Hlen Hl Hl'.
  { destruct l'; [|done]. cbn. by rewrite !app_nil_r. }
  destruct l' as [|y' l' _] using rev_ind; [rewrite length_app in Hlen; cbn in Hlen; lia|]. rewrite !length_app in Hlen. cbn in Hlen.
  rewrite !fmap_app, !concat_app, !app_assoc. cbn. rewrite !app_nil_r. intros E%(f_equal reverse). rewrite !reverse_app, !reverse_cons, <-!app_assoc in E.
  apply app_sep_inj in E as [Hy%(inj reverse) E]; [rewrite <-!reverse_app in E; apply (inj reverse) in E|rewrite elem_of_reverse; apply Hl; set_solver|rewrite elem_of_reverse; apply Hl'; set_solver].
  destruct (IH l') as [-> ->]; [lia|set_solver..|done|by subst].
Qed.
Lemma join_bytes x l : bytes_of (join newline (x :: l)) = (bytes_of x ++ concat (cons NL <$> (bytes_of <$> l)))%list.
Proof.
  revert x. induction l as [|y l IH]; intros x; [by rewrite app_nil_r|]. rewrite join_cons, !bytes_of_app by done. rewrite IH. reflexivity.
Qed.
Lemma join_lines_inj x x' l l' :
  length l = length l' → lines l → lines l' → join newline (x :: l) = join newline (x' :: l') → x = x' ∧ l = l'.
Proof.
  intros Hlen Hl Hl' E%(f_equal bytes_of). rewrite !join_bytes in E. apply app_lines_inj in E as [Hx%bytes_of_inj Hll]; [split; [done|]; assert (Inj (=) (=) bytes_of) by exact bytes_of_inj; by apply (inj (fmap bytes_of))| | |].
  - by rewrite !length_fmap.
  - intros y (z & -> & Hz)%list_elem_of_fmap. by apply Hl.
  - intros y (z & -> & Hz)%list_elem_of_fmap. by apply Hl'.
Qed.

Lemma transcript_brace r : ∃ rest, transcript r = String "{" rest.
Proof. apply json_object. Qed.

Lemma answer_inj request response request' response' :
  message_wf (AnswerMessage request response) → message_wf (AnswerMessage request' response') → signed_bytes response request = signed_bytes response' request' →
  covered (AnswerMessage request response) = covered (AnswerMessage request' response').
Proof.
  cbn [message_wf]. intros Hl Hl'. unfold signed_bytes. rewrite !(join_cons _ _ [_; _; _; _; _; _]) by done.
  intros [Ht E]%string_sep_inj; [|apply json_line..]. rewrite !(join_cons _ _ [_; _; _; _; _]) in E by done.
  apply string_sep_inj in E as [Hp E]; [|apply Hl; by left|apply Hl'; by left].
  apply join_lines_inj in E as [Hs [= Hk He Hn Hd]]; [|done|intros x Hx; apply Hl; by right|intros x Hx; apply Hl'; by right].
  cbn [covered]. unfold unsigned_answer. by rewrite (transcript_inj _ _ Ht), Hp, Hs, Hk, He, Hn, Hd.
Qed.

Lemma envelope_message_inj fleet k fleet' k' :
  message_wf (EnvelopeMessage fleet k) → message_wf (EnvelopeMessage fleet' k') → envelope_signature_message fleet k = envelope_signature_message fleet' k' →
  fleet = fleet' ∧ k = k'.
Proof.
  destruct k as [[w n] h], k' as [[w' n'] h']. cbn. intros [Hl Hn] [Hl' Hn'] E.
  apply (join_inj_last NL [_; _; _; _] [_; _; _; _]) in E as [[= -> -> Hd] ->]; [by rewrite (decimal_inj n n')|done|..].
  - intros x. rewrite !elem_of_cons, elem_of_nil. intros [-> |[-> |[-> |[-> |[]]]]];
      [apply (head_line_line (EnvelopeMessage "" ("", 0%Z, "")))|apply Hl; set_solver|apply Hl; set_solver|]. intros Hin%decimal_digits. vm_compute in Hin. by destruct Hin.
  - intros x. rewrite !elem_of_cons, elem_of_nil. intros [-> |[-> |[-> |[-> |[]]]]];
      [apply (head_line_line (EnvelopeMessage "" ("", 0%Z, "")))|apply Hl'; set_solver|apply Hl'; set_solver|]. intros Hin%decimal_digits. vm_compute in Hin. by destruct Hin.
Qed.

(** The bytes a member key signs tell which of the five kinds of message was signed, and
    everything it covers: none can be passed off as another. *)
Lemma message_bytes_inj m m' : message_wf m → message_wf m' → message_bytes m = message_bytes m' → covered m = covered m'.
Proof.
  intros Hm Hm' E. destruct (head_lines_agree m m' E) as [Hh Ho].
  assert (∀ d r, In d [CLAIM_SIGNATURE_DOMAIN; ENVELOPE_SIGNATURE_DOMAIN; MEMBER_SIGNATURE_DOMAIN] → d ≠ transcript r) as Hbrace.
  { intros d r Hd. destruct (transcript_brace r) as [rest ->]. cbn in Hd. destruct_or!; by subst. }
  destruct m, m'; cbn [head_line one_line message_bytes] in *; try done; try (exfalso; revert Hh; apply Hbrace; cbn; tauto);
    try (exfalso; symmetry in Hh; revert Hh; apply Hbrace; cbn; tauto).
  - destruct Hm as [Hs Ht], Hm' as [Hs' Ht']. destruct (signing_bytes_inj _ _ _ _ _ _ _ _ _ _ _ _ _ _ Hs Hs' Ht Ht') as [Hinj _]. apply Hinj in E. cbn. congruence.
  - apply envelope_message_inj in E as [-> ->]; done.
  - unfold member_message in E. rewrite !(join_cons _ MEMBER_SIGNATURE_DOMAIN) in E by done. cbn [join String.concat] in E.
    apply string_sep_inj in E as [_ E]; [|apply (head_line_line (ExchangeMessage "" "" "" "" "" None))..]. apply canonical_inj in E; [|done..]. cbn. congruence.
  - cbn. by rewrite (transcript_inj _ _ E).
  - by apply answer_inj.
Qed.

(** ** The handshake delivers *)

Lemma start_verifies ephemeral code invite member name mode head build :
  (∀ m, verify_signature (mk_public member) m (member_sign member m) = true) →
  verify_request (jn_request (start ephemeral code invite member name mode head build)) (jc_token code) = Ok tt.
Proof.
  intros Hs. unfold verify_request, start. cbn [jn_request jr_protocol jr_proof jr_member_key jr_signature]. rewrite String.eqb_refl, base64_round_trip. cbn [negb].
  rewrite bool_decide_true by done. cbn [negb]. unfold transcript, transcript_value at 1. cbn [jr_build jr_ephemeral jr_invite jr_member_key jr_migrate jr_mode jr_name jr_protocol jr_writer_head].
  unfold transcript_value. cbn [jr_build jr_ephemeral jr_invite jr_member_key jr_migrate jr_mode jr_name jr_protocol jr_writer_head]. by rewrite Hs.
Qed.

(** What a sponsor did for an answer: it verified the request, and sealed and signed. *)
Record sponsor_ran (sponsor_key : MemberKey) (token_of : string → list ascii) (request : JoinRequest) (payload : SealedJoin) (response : JoinResponse) : Prop := {
  ran_request : verify_request request (token_of (jr_invite request)) = Ok tt;
  ran_answer : ∃ ephemeral nonce sponsor, length nonce = 12%nat ∧
    seal_response ephemeral nonce request (token_of (jr_invite request)) sponsor sponsor_key payload = Ok response
}.

(** An answer opens, for the joiner of that request, to what was sealed in it. *)
Lemma sealed_opens ephemeral ephemeral' nonce request token sponsor sponsor_key payload response shared sealed :
  jr_ephemeral request = base64url_encode (x25519_public ephemeral) →
  seal_response ephemeral' nonce request token sponsor sponsor_key payload = Ok response →
  x25519_agree ephemeral (x25519_public ephemeral') = Some shared →
  let aad := aad (transcript request) (mk_public sponsor_key) (x25519_public ephemeral') in
  decode_text (js_sealed response) = Ok sealed → chacha_open (seal_key shared token aad) nonce aad sealed = Some (sealed_to_vec payload).
Proof.
  intros Hje Hseal Hshared aad0. unfold seal_response in Hseal. rewrite Hje, decode_text_encode in Hseal. cbn [result_bind] in Hseal. rewrite agree_commutes, Hshared in Hseal. cbn [result_bind] in Hseal.
  injection Hseal as <-. cbn [js_sealed]. rewrite decode_text_encode. intros [= <-]. apply chacha_round_trip.
Qed.

(** A whole handshake: the sponsor accepts the joiner's request, and the joiner opens the
    sponsor's answer and has the payload. *)
Lemma join_round_trip ephemeral code invite member name mode head build ephemeral' nonce sponsor sponsor_key payload shared :
  (∀ key m, key ∈ [member; sponsor_key] → verify_signature (mk_public key) m (member_sign key m) = true) →
  fingerprint (mk_public sponsor_key) = jc_fingerprint code → length nonce = 12%nat →
  x25519_agree ephemeral (x25519_public ephemeral') = Some shared →
  let j := start ephemeral code invite member name mode head build in
  verify_request (jn_request j) (jc_token code) = Ok tt ∧
  ∃ response, seal_response ephemeral' nonce (jn_request j) (jc_token code) sponsor sponsor_key payload = Ok response ∧ open j response = Ok payload.
Proof.
  intros Hs Hf Hn Hshared j. split; [apply start_verifies; intros m; apply Hs; by left|].
  assert (jr_ephemeral (jn_request j) = base64url_encode (x25519_public ephemeral)) as Hje by done.
  assert (∃ response, seal_response ephemeral' nonce (jn_request j) (jc_token code) sponsor sponsor_key payload = Ok response) as [response Hseal].
  { unfold seal_response. rewrite Hje, decode_text_encode. cbn [result_bind]. rewrite agree_commutes, Hshared. cbn [result_bind]. by eexists. }
  exists response. split; [done|].
  assert (∃ sealed, response = {| js_protocol := JOIN_PROTOCOL; js_sponsor := sponsor; js_sponsor_key := mk_public sponsor_key; js_ephemeral := base64url_encode (x25519_public ephemeral');
    js_nonce := base64url_encode nonce; js_sealed := base64url_encode sealed; js_signature := member_sign sponsor_key (signed_bytes response (jn_request j)) |}) as [sealed Hr].
  { revert Hseal. unfold seal_response. rewrite Hje, decode_text_encode. cbn [result_bind]. rewrite agree_commutes, Hshared. cbn [result_bind]. intros [= <-]. by eexists. }
  pose proof (sealed_opens _ _ _ _ _ _ _ _ _ _ sealed Hje Hseal Hshared) as Hopen. cbv zeta in Hopen.
  assert (js_sealed response = base64url_encode sealed) as Hd by (by rewrite Hr). rewrite Hd, decode_text_encode in Hopen. specialize (Hopen eq_refl).
  unfold open. assert (js_signature response = member_sign sponsor_key (signed_bytes response (jn_request j))) as -> by (by rewrite Hr at 1).
  assert (js_sponsor_key response = mk_public sponsor_key) as -> by (by rewrite Hr). rewrite Hs by (right; by left).
  assert (js_protocol response = JOIN_PROTOCOL ∧ js_ephemeral response = base64url_encode (x25519_public ephemeral') ∧ js_nonce response = base64url_encode nonce) as (-> & -> & ->) by (by rewrite Hr).
  rewrite String.eqb_refl, Hf, bool_decide_true, Hd, !decode_text_encode by done. cbn [ensure result_bind].
  change (jn_ephemeral j) with ephemeral. rewrite Hshared. cbn [result_bind]. rewrite Hn. cbn [ensure result_bind Nat.eqb]. change (jn_token j) with (jc_token code). rewrite Hopen. by rewrite sealed_round_trip.
Qed.

(** ** What the joiner knows *)

Lemma seal_response_fields ephemeral nonce request token sponsor sponsor_key payload response :
  seal_response ephemeral nonce request token sponsor sponsor_key payload = Ok response →
  js_sponsor_key response = mk_public sponsor_key ∧ js_ephemeral response = base64url_encode (x25519_public ephemeral) ∧
  js_nonce response = base64url_encode nonce.
Proof. unfold seal_response. intros (je & _ & E)%result_bind_Ok. by apply result_bind_Ok in E as (shared & _ & [= <-]). Qed.

(** What opening checked. *)
Lemma open_ok j response payload :
  open j response = Ok payload →
  fingerprint (js_sponsor_key response) = jn_fingerprint j ∧
  verify_signature (js_sponsor_key response) (signed_bytes response (jn_request j)) (js_signature response) = true ∧
  ∃ sponsor_ephemeral shared nonce sealed opened,
    decode_text (js_ephemeral response) = Ok sponsor_ephemeral ∧ decode_text (js_nonce response) = Ok nonce ∧ decode_text (js_sealed response) = Ok sealed ∧
    x25519_agree (jn_ephemeral j) sponsor_ephemeral = Some shared ∧
    (let aad := aad (transcript (jn_request j)) (js_sponsor_key response) sponsor_ephemeral in
     chacha_open (seal_key shared (jn_token j) aad) nonce aad sealed = Some opened) ∧ sealed_from_slice opened = Some payload.
Proof.
  unfold open. intros (? & _ & E)%result_bind_Ok. apply result_bind_Ok in E as (? & Hf%ensure_ok%bool_decide_eq_true & E).
  apply result_bind_Ok in E as (? & Hs%ensure_ok & E). apply result_bind_Ok in E as (se & He & E). apply result_bind_Ok in E as (shared & Hsh & E).
  apply result_bind_Ok in E as (nonce & Hn & E). apply result_bind_Ok in E as (? & _ & E). apply result_bind_Ok in E as (sealed & Hd & E).
  destruct (chacha_open _ _ _ _) as [opened|] eqn:Ho; [|done]. destruct (sealed_from_slice opened) as [p|] eqn:Hp; [|done]. injection E as ->.
  destruct (x25519_agree _ _) as [sh|] eqn:Ha; [|done]. injection Hsh as ->. split_and!; [done..|]. exists se, shared, nonce, sealed, opened. by split_and!.
Qed.

Lemma verified_key_line key m signature : verify_signature key m signature = true → NL ∉ bytes_of key.
Proof. unfold verify_signature. destruct (base64url_decode key) eqn:E; [|done]. intros _. by eapply decoded_line. Qed.
Lemma decoded_text_line text bytes : decode_text text = Ok bytes → NL ∉ bytes_of text.
Proof. intros ->%decode_text_ok. apply base64_line. Qed.

Section agreement.
Variable sponsor_key : MemberKey.
Variable token_of : string → list ascii.
Variable signed : MemberMessage → Prop.
(** Only the holder of the sponsor's key signs with it, it signs the five kinds of message,
    and an answer as a sponsor does. *)
Hypothesis unforgeable : ∀ m signature, verify_signature (mk_public sponsor_key) m signature = true → ∃ message, signed message ∧ message_bytes message = m.
Hypothesis signs_lines : ∀ message, signed message → message_wf message.
Hypothesis answers_ran : ∀ request response, signed (AnswerMessage request response) → ∃ payload, sponsor_ran sponsor_key token_of request payload response.

(** C6: a joiner that opens an answer holds what a sponsor with the code's fingerprint sealed
    for its very request: the sponsor verified a request with the same invite, name, member
    key, ephemeral key and proof, and the answer and the payload are its own.  Nothing else
    the sponsor's key ever signs, and no answer to another request, can stand in for it. *)
Theorem join_agreement ephemeral code invite member name mode head build response payload :
  let j := start ephemeral code invite member name mode head build in
  jc_fingerprint code = fingerprint (mk_public sponsor_key) → token_of invite = jc_token code →
  (fingerprint (js_sponsor_key response) = fingerprint (mk_public sponsor_key) → js_sponsor_key response = mk_public sponsor_key) →
  open j response = Ok payload →
  ∃ request answer, sponsor_ran sponsor_key token_of request payload answer ∧ unsigned request = unsigned (jn_request j) ∧
    jr_proof request = jr_proof (jn_request j) ∧ unsigned_answer answer = unsigned_answer response.
Proof.
  intros j Hfp Htoken Hcollide (Hf & Hsig & se & shared & nonce & sealed & opened & He & Hn & Hd & Hag & Hop & Hpl)%open_ok.
  change (jn_fingerprint j) with (jc_fingerprint code) in Hf. rewrite Hfp in Hf. specialize (Hcollide Hf).
  assert (message_wf (AnswerMessage (jn_request j) response)) as Hwf.
  { intros x. rewrite !elem_of_cons, elem_of_nil. intros [-> |[-> |[-> |[-> |[-> |[]]]]]];
      [apply base64_line|by eapply verified_key_line|by eapply decoded_text_line..]. }
  pose proof Hsig as Hsig'. rewrite Hcollide in Hsig'. apply unforgeable in Hsig' as (message & Hsigned & Hbytes).
  pose proof (message_bytes_inj message (AnswerMessage (jn_request j) response) (signs_lines _ Hsigned) Hwf Hbytes) as Hcov.
  destruct message as [| | | |request answer]; try done. cbn [covered] in Hcov. injection Hcov. intros Hsl Hno Hep Hsk Hsp Hproof Hmig Hbuild Hhead Heph Hmem Hmode Hname Hinv Hprot.
  assert (unsigned request = unsigned (jn_request j)) as Hreq by (unfold unsigned; by rewrite Hmig, Hbuild, Hhead, Heph, Hmem, Hmode, Hname, Hinv, Hprot).
  destruct (answers_ran _ _ Hsigned) as [payload' Hran]. exists request, answer.
  assert (payload' = payload) as ->; [|split_and!; [done..|]; unfold unsigned_answer; congruence].
  destruct (ran_answer _ _ _ _ _ Hran) as (ephemeral' & nonce' & sponsor & _ & Hseal). destruct (seal_response_fields _ _ _ _ _ _ _ _ Hseal) as (Hk' & He' & Hn').
  rewrite <-Hep, He', decode_text_encode in He. injection He as <-. rewrite <-Hno, Hn', decode_text_encode in Hn. injection Hn as <-. rewrite <-Hsl in Hd.
  pose proof (sealed_opens ephemeral _ _ _ _ _ _ _ _ _ _ Heph Hseal Hag Hd) as Hopens. cbv zeta in Hop, Hopens.
  assert (transcript request = transcript (jn_request j)) as Ht by (rewrite <-(transcript_unsigned request), Hreq; done).
  rewrite Hinv, Htoken, Ht in Hopens. rewrite Hcollide in Hop.
  change (jn_token j) with (jc_token code) in Hop. rewrite Hopens in Hop. injection Hop as <-. rewrite sealed_round_trip in Hpl. congruence.
Qed.
End agreement.

(** ** What a member that accepts a message knows *)

Section exchange.
Context `{Hex} `{HttpHeaders} `{AuthLaws}.
Variable signed : string → MemberMessage → Prop.
Hypothesis unforgeable : ∀ key m signature, verify_signature key m signature = true → ∃ message, signed key message ∧ message_bytes message = m.
Hypothesis signs_lines : ∀ key message, signed key message → message_wf message.

(** C18: a request or answer that verifies and is accepted from a member was sent by it: the
    one current key of the node it names signed an exchange message with this very method,
    path, body and, for an answer, request, in this fleet, and it carries the fleet's MAC over
    the same.  No envelope, claim or join message of that key can stand in for it. *)
Theorem accepted_message_authentic auth h method path body expected rd sender view config_peer legacy :
  lines [method; path; body_digest body] →
  verify_sender auth h method path body expected rd = Ok sender → accept view sender config_peer legacy = Ok AcceptMember →
  (∀ node, expected = Some node → sd_name sender = node) ∧
  presents h (hmac_sha256 (fa_secret auth) (canonical (fa_fleet_id auth) method path (sd_name sender) (body_digest body) rd)) ∧
  ∃ member rd', view_current view (sd_name sender) = [member] ∧ default "" rd' = default "" rd ∧
    signed (mv_member_key member) (ExchangeMessage (fa_fleet_id auth) method path (sd_name sender) (body_digest body) rd').
Proof.
  intros Hl (Hmac & Hnode & Hfleet & Hexp & Hsig)%verify_sender_ok (member & Hcur & Hvalid & Hkey)%accept_member_inv. split_and!; [done..|].
  destruct (Hsig Hvalid) as (key & signature & Hk & Hv). rewrite Hkey in Hk. injection Hk as <-. apply unforgeable in Hv as (message & Hm & Hb).
  assert (message_wf (ExchangeMessage (fa_fleet_id auth) method path (sd_name sender) (body_digest body) rd)) as Hwf.
  { intros x. rewrite !elem_of_cons, elem_of_nil. intros [-> |[-> |[-> |[-> |[-> |[]]]]]]; [apply Hl; set_solver|apply Hl; set_solver|done|done|apply Hl; set_solver]. }
  pose proof (message_bytes_inj message (ExchangeMessage (fa_fleet_id auth) method path (sd_name sender) (body_digest body) rd) (signs_lines _ _ Hm) Hwf Hb) as Hcov.
  destruct message as [| |f m p n d rd'| |]; try done. cbn [covered] in Hcov. injection Hcov as -> -> -> -> -> Hrd. exists member, rd'. by split_and!.
Qed.
End exchange.
End handshake.
