(* ===== verification/JoinExample.v ===== *)
(** * A handshake and an exchange, worked out

    The packages that [PeerAuth] and [Handshake] take as parameters, as small concrete
    functions that keep their laws: hex for base64, a prefix-free text for JSON, and keys whose
    holders signed one message each. *)

From stdpp Require Import gmap pretty.
From S2P Require Import Prelude BTree Json Membership FleetView Principal Keyring JoinCode Digests Retired FleetStore Admission Inventory PeerAuth Handshake.

Local Open Scope string_scope.
Local Open Scope claims_scope.

(** ** Hex is one text for each byte string *)

Lemma demo_digit_inv c x : demo_digit c = Some x → demo_is_hex c = true.
Proof.
  unfold demo_digit, demo_is_hex. destruct ((48 <=? byte_val c) && (byte_val c <=? 57))%Z; [done|]. destruct ((97 <=? byte_val c) && (byte_val c <=? 102))%Z; done.
Qed.
Lemma demo_hex_decode_digits n l b : length l <= n → demo_hex_decode l = Some b → length l = 2 * length b ∧ forallb demo_is_hex l = true.
Proof.
  revert l b. induction n as [|n IH]; intros l b Hl; [destruct l; [|cbn in Hl; lia]; by intros [= <-]|].
  destruct l as [|x [|y l]]; [by intros [= <-]|done|]. cbn [demo_hex_decode]. destruct (demo_digit x) eqn:Hx, (demo_digit y) eqn:Hy; try done.
  destruct (demo_hex_decode l) as [r|] eqn:Hr; [|done]. intros [= <-]. cbn in Hl. destruct (IH l r) as [Hlen Hd]; [lia|done|].
  cbn. rewrite (demo_digit_inv _ _ Hx), (demo_digit_inv _ _ Hy), Hd, Hlen. split; [lia|done].
Qed.
Lemma demo_hex_encode_inj l l' : demo_hex_encode l = demo_hex_encode l' → l = l'.
Proof. intros E. apply (hex_encode_inj l l'). cbn. by rewrite E. Qed.

Definition toy_encode (bytes : list ascii) : string := string_of (demo_hex_encode bytes).
Definition toy_decode (text : string) : option (list ascii) := demo_hex_decode (bytes_of text).

Lemma toy_round_trip bytes : toy_decode (toy_encode bytes) = Some bytes.
Proof.
  unfold toy_decode, toy_encode. rewrite bytes_of_string_of. destruct (demo_hex_encode_digits bytes) as [Hl Hd].
  destruct (demo_hex_decode_ok (length bytes) _ Hl Hd) as (b & -> & _ & E%demo_hex_encode_inj). congruence.
Qed.
Lemma toy_canonical text bytes : toy_decode text = Some bytes → text = toy_encode bytes.
Proof.
  unfold toy_decode, toy_encode. intros Hd. destruct (demo_hex_decode_digits _ _ _ (le_n _) Hd) as [Hl Hh].
  destruct (demo_hex_decode_ok (length bytes) _ Hl Hh) as (b & Hb & _ & E). rewrite Hd in Hb. injection Hb as <-. by rewrite E, string_of_bytes_of.
Qed.
Lemma hex_not c l : demo_is_hex c = false → c ∉ demo_hex_encode l.
Proof.
  intros Hc Hin. destruct (demo_hex_encode_digits l) as [_ Hd]. rewrite forallb_forall in Hd. apply list_elem_of_In, Hd in Hin. congruence.
Qed.
Lemma toy_line bytes : NL ∉ bytes_of (toy_encode bytes).
Proof. unfold toy_encode. rewrite bytes_of_string_of. by apply hex_not. Qed.

(** ** JSON as a prefix-free text *)

Definition hexs (s : string) : list ascii := demo_hex_encode (bytes_of s).
Definition toy_number (n : Number) : list ascii :=
  match n with
  | PosInt z => "p"%char :: hexs (pretty z)
  | NegInt z => "m"%char :: hexs (pretty z)
  | Float z => "q"%char :: hexs (pretty z)
  end.
Fixpoint tj (v : Value) : list ascii :=
  match v with
  | Null => ["n"%char]
  | VBool true => ["t"%char]
  | VBool false => ["u"%char]
  | VNumber n => (toy_number n ++ [";"%char])%list
  | VString s => ("s"%char :: hexs s ++ [";"%char])%list
  | Array l => ("["%char :: concat (map (λ v, ","%char :: tj v) l) ++ ["]"%char])%list
  | Object l => ("{"%char :: concat (map (λ f, ","%char :: hexs (f.1) ++ ":"%char :: tj (f.2)) l) ++ ["}"%char])%list
  end.

Lemma hexs_prefix s s' c c' r r' :
  demo_is_hex c = false → demo_is_hex c' = false → (hexs s ++ c :: r = hexs s' ++ c' :: r')%list → s = s' ∧ c = c' ∧ r = r'.
Proof.
  intros Hc Hc'. assert (∀ l l', forallb demo_is_hex l = true → forallb demo_is_hex l' = true → (l ++ c :: r = l' ++ c' :: r')%list → l = l' ∧ c = c' ∧ r = r') as Hl.
  { induction l as [|x l IH]; intros [|y l']; cbn; intros Hx Hy; intros [= -> E].
    - done.
    - by rewrite Hc in Hy.
    - by rewrite Hc' in Hx.
    - apply andb_true_iff in Hx as [_ Hx], Hy as [_ Hy]. destruct (IH l' Hx Hy E) as (-> & -> & ->). done. }
  intros E. destruct (Hl _ _ (proj2 (demo_hex_encode_digits _)) (proj2 (demo_hex_encode_digits _)) E) as (Hs & -> & ->). split_and!; [|done..].
  by apply bytes_of_inj, demo_hex_encode_inj.
Qed.

Lemma tj_inj v : ∀ v' r r', (tj v ++ r = tj v' ++ r')%list → v = v' ∧ r = r'.
Proof.
  induction v as [|b|n|s|l IH|l IH] using Value_ind; intros v' r r' E.
  - destruct v' as [|[]|[]| | |]; cbn in E; try discriminate. by injection E.
  - destruct b, v' as [|[]|[]| | |]; cbn in E; try discriminate; by injection E.
  - destruct n, v' as [|[]|[]| | |]; cbn in E; try discriminate; injection E as E; rewrite <-!app_assoc in E;
      apply hexs_prefix in E as (->%(inj pretty) & _ & E); [by cbn in E; subst|done..].
  - destruct v' as [|[]|[]| | |]; cbn in E; try discriminate. injection E as E. rewrite <-!app_assoc in E. apply hexs_prefix in E as (-> & _ & E); [by cbn in E; subst|done..].
  - destruct v' as [|[]|[]| |l'|]; cbn in E; try discriminate. injection E as E. rewrite <-!app_assoc in E.
    assert (l = l' ∧ r = r') as [-> ->]; [|done]. revert l' E. induction IH as [|v l Hv _ IH]; intros [|v' l'] E; cbn in E; try discriminate.
    + by injection E.
    + injection E as E. rewrite <-!app_assoc in E. apply Hv in E as [-> E]. destruct (IH _ E) as [-> ->]. done.
  - destruct v' as [|[]|[]| | |l']; cbn in E; try discriminate. injection E as E. rewrite <-!app_assoc in E.
    assert (l = l' ∧ r = r') as [-> ->]; [|done]. revert l' E. induction IH as [|[k v] l Hv _ IH]; intros [|[k' v'] l'] E; cbn in E; try discriminate.
    + by injection E.
    + injection E as E. cbn in Hv, E. rewrite <-!app_assoc in E. apply hexs_prefix in E as (-> & _ & E); [|done..].
      apply Hv in E as [-> E]. destruct (IH _ E) as [-> ->]. done.
Qed.

Lemma tj_line v : NL ∉ tj v.
Proof.
  assert (∀ s, NL ∉ hexs s) as Hh by (intros s; by apply hex_not).
  induction v as [|b|n|s|l IH|l IH] using Value_ind; cbn.
  - set_solver.
  - destruct b; set_solver.
  - destruct n; cbn; rewrite ?not_elem_of_cons, not_elem_of_app; (split_and!; [done..|set_solver]).
  - rewrite not_elem_of_cons, not_elem_of_app. split_and!; [done|done|set_solver].
  - rewrite not_elem_of_cons, not_elem_of_app. split_and!; [done| |set_solver]. induction IH as [|v l Hv _ IH]; cbn; [set_solver|].
    rewrite not_elem_of_cons, not_elem_of_app. by split_and!.
  - rewrite not_elem_of_cons, not_elem_of_app. split_and!; [done| |set_solver]. induction IH as [|[k v] l Hv _ IH]; cbn; [set_solver|].
    rewrite not_elem_of_cons, !not_elem_of_app, not_elem_of_cons. split_and!; [done|apply (Hh k)|done|exact Hv|exact IH].
Qed.

(** ** Packages *)

Definition toy_crypto (accepts : string → bool) : Crypto :=
  {| base64url_decode := toy_decode; ed25519_verify _ message _ := accepts message; p256_verify _ _ _ := false; json_to_string v := string_of (tj v) |}.
Definition toy_auth : AuthCrypto :=
  {| hmac_sha256 key message := (key ++ bytes_of message)%list; digest_sha256 bytes := bytes; member_sign _ _ := toy_encode [] |}.
Definition toy_headers : HttpHeaders :=
  {| header_value_ok text := forallb (λ c, negb (Ascii.eqb c NL)) (bytes_of text); header_text_ok text := forallb (λ c, negb (Ascii.eqb c NL)) (bytes_of text) |}.
(** What is sealed, as the bits of its number. *)
Fixpoint bits (p : positive) : list ascii := match p with xH => [] | xO p => "0"%char :: bits p | xI p => "1"%char :: bits p end.
Fixpoint number (l : list ascii) : positive := match l with [] => xH | c :: l => if Ascii.eqb c "0"%char then xO (number l) else xI (number l) end.
Lemma number_bits p : number (bits p) = p.
Proof. induction p as [p IH|p IH|]; cbn; congruence. Qed.
#[export] Instance sealed_eq_dec : EqDecision SealedJoin.
Proof. solve_decision. Defined.
#[export] Program Instance sealed_countable : Countable SealedJoin :=
  inj_countable' (λ p, (sj_fleet_id p, sj_secret p, sj_anchor_key p, sj_sponsor p, sj_writer_floor p, sj_fabric_protocol p, sj_admitted_claim p))
    (λ '(f, s, a, sp, w, fp, c), {| sj_fleet_id := f; sj_secret := s; sj_anchor_key := a; sj_sponsor := sp; sj_writer_floor := w; sj_fabric_protocol := fp; sj_admitted_claim := c |}) _.
Next Obligation. by intros []. Qed.

(** Private keys are byte strings and agree on the two of them, in order. *)
Definition toy_agree (a b : list ascii) : list ascii := if bool_decide (cmp a b = Lt) then (a ++ b)%list else (b ++ a)%list.
Definition toy_join : JoinCrypto :=
  {| base64url_encode := toy_encode; x25519_public key := key; x25519_agree a b := Some (toy_agree a b); hkdf_sha256 salt secret info := (salt ++ secret ++ info)%list;
     chacha_seal key nonce aad plain := (key ++ nonce ++ aad ++ plain)%list;
     chacha_open key nonce aad sealed := let front := (key ++ nonce ++ aad)%list in if bool_decide (take (length front) sealed = front) then Some (drop (length front) sealed) else None;
     sealed_to_vec p := bits (countable.encode p); sealed_from_slice l := countable.decode (number l) |}.

Section laws.
Variable accepts : string → bool.
#[local] Instance laws_crypto : Crypto := toy_crypto accepts.
#[local] Existing Instances toy_auth toy_join.

Lemma toy_join_laws : JoinLaws.
Proof.
  split.
  - apply toy_round_trip.
  - apply toy_canonical.
  - apply toy_line.
  - intros a b. cbn. unfold toy_agree. f_equal. pose proof (cmp_opp a b) as Ho. rewrite Ho. destruct (cmp a b) eqn:E; cbn; [|done..].
    apply cmp_eq in E. by subst.
  - intros key nonce aad0 plain. cbn. rewrite !app_assoc, take_app_length, drop_app_length. by rewrite bool_decide_true.
  - intros payload. cbn. by rewrite number_bits, countable.decode_encode.
  - intros fields. by eexists.
  - intros v. cbn. rewrite bytes_of_string_of. apply tj_line.
  - intros v v' _ _ E%(f_equal bytes_of). cbn in E. rewrite !bytes_of_string_of in E. rewrite <-(app_nil_r (tj v)), <-(app_nil_r (tj v')) in E. by apply tj_inj in E as [-> _].
Qed.
End laws.

(** ** A laptop joins *)

Definition toy_key (c : ascii) : MemberKey := {| mk_public := toy_encode (replicate 32 c) |}.
Definition toy_code : JoinCode :=
  {| jc_fleet_id := replicate 16 "f"%char; jc_invite := replicate 16 "i"%char; jc_token := replicate 16 "t"%char; jc_fingerprint := replicate 16 "s"%char;
     jc_expires_at := 0; jc_name := None; jc_migrate := false; jc_endpoints := [] |}.
Definition toy_payload : SealedJoin :=
  {| sj_fleet_id := "fleet"; sj_secret := Some "secret"; sj_anchor_key := "anchor"; sj_sponsor := "studio"; sj_writer_floor := Some 12%Z;
     sj_fabric_protocol := None; sj_admitted_claim := None |}.

Section laptop.
#[local] Existing Instances toy_auth toy_join.

Definition laptop (accepts : string → bool) : Joiner :=
  start (H := toy_crypto accepts) (bytes_of "laptop's") toy_code "invite" (toy_key "m"%char) "laptop" "dial-out" None "1".
Definition no_answer : JoinResponse :=
  {| js_protocol := ""; js_sponsor := ""; js_sponsor_key := ""; js_ephemeral := ""; js_nonce := ""; js_sealed := ""; js_signature := "" |}.
Definition studio_answer (accepts : string → bool) : JoinResponse :=
  match seal_response (H := toy_crypto accepts) (bytes_of "studio's") (replicate 12 "n"%char) (jn_request (laptop accepts)) (jc_token toy_code) "studio"
          (toy_key "s"%char) toy_payload with
  | Ok response => response
  | Err _ => no_answer
  end.

(** What is signed does not depend on what is accepted, and exactly that is. *)
Definition nothing (_ : string) : bool := false.
Definition request_bytes : string := Eval vm_compute in transcript (H := toy_crypto nothing) (jn_request (laptop nothing)).
Definition answer_bytes : string := Eval vm_compute in signed_bytes (H := toy_crypto nothing) (studio_answer nothing) (jn_request (laptop nothing)).
Definition these (m : string) : bool := String.eqb m request_bytes || String.eqb m answer_bytes.
#[local] Instance laptop_crypto : Crypto := toy_crypto these.
Definition token_of (_ : string) : list ascii := jc_token toy_code.
Definition studio_signed (m : MemberMessage) : Prop := m = RequestMessage (jn_request (laptop these)) ∨ m = AnswerMessage (jn_request (laptop these)) (studio_answer these).

Lemma studio_bytes m : studio_signed m → message_wf m.
Proof.
  intros [-> | ->]; [done|]. refine (proj1 (Forall_forall (λ x, NL ∉ bytes_of x) _) _). apply (bool_decide_unpack _). vm_compute. exact I.
Qed.
Lemma studio_unforgeable m signature :
  verify_signature (mk_public (toy_key "s"%char)) m signature = true → ∃ message, studio_signed message ∧ message_bytes message = m.
Proof.
  unfold verify_signature. destruct (base64url_decode _); [|done]. destruct (base64url_decode signature); [|done]. intros [_ Hm]%andb_true_iff.
  change (these m = true) in Hm. apply orb_true_iff in Hm as [->%String.eqb_eq| ->%String.eqb_eq].
  - exists (RequestMessage (jn_request (laptop these))). split; [by left|]. vm_compute. reflexivity.
  - exists (AnswerMessage (jn_request (laptop these)) (studio_answer these)). split; [by right|]. vm_compute. reflexivity.
Qed.
Lemma studio_ran : sponsor_ran (toy_key "s"%char) token_of (jn_request (laptop these)) toy_payload (studio_answer these).
Proof.
  split.
  - vm_compute. reflexivity.
  - exists (bytes_of "studio's"), (replicate 12 "n"%char), "studio". split; [done|]. vm_compute. reflexivity.
Qed.

Lemma join_agreement_witness : ∃ request answer,
  sponsor_ran (toy_key "s"%char) token_of request toy_payload answer ∧ unsigned request = unsigned (jn_request (laptop these)) ∧
  jr_proof request = jr_proof (jn_request (laptop these)) ∧ unsigned_answer answer = unsigned_answer (studio_answer these).
Proof.
  pose proof (toy_join_laws these) as Hlaws.
  apply (join_agreement (toy_key "s"%char) token_of studio_signed studio_unforgeable studio_bytes) with (code := toy_code) (invite := "invite").
  - intros request response [|[= -> ->]]; [done|]. exists toy_payload. apply studio_ran.
  - vm_compute. reflexivity.
  - reflexivity.
  - intros _. vm_compute. reflexivity.
  - vm_compute. reflexivity.
Defined.
End laptop.

(** ** A peer answers *)

Section peer.
#[local] Existing Instances toy_auth toy_join toy_headers demo_hex.

Definition peer_auth : FleetAuth := {| fa_fleet_id := "fleet"; fa_secret := bytes_of "secret"; fa_member := Some (toy_key "p"%char) |}.
Definition peer_message (accepts : string → bool) : MemberMessage :=
  ExchangeMessage "fleet" "RESPONSE" EXCHANGE_PATH "peer" (body_digest (bytes_of "body")) (Some "request").
Definition peer_bytes : string := Eval vm_compute in message_bytes (H := toy_crypto nothing) (peer_message nothing).
Definition that (m : string) : bool := String.eqb m peer_bytes.
#[local] Instance peer_crypto : Crypto := toy_crypto that.
Definition peer_headers : HeaderMap :=
  match response_headers_for peer_auth EXCHANGE_PATH "peer" (bytes_of "body") "request" with Ok h => h | Err _ => [] end.
Definition peer_sender : Sender := {| sd_name := "peer"; sd_member_key := Some (mk_public (toy_key "p"%char)); sd_member_signature_valid := true |}.
Definition peer_view : FleetView :=
  {| fv_anchor := None; fv_legacy_removed := [];
     fv_members := [{| mv_name := "peer"; mv_member_key := mk_public (toy_key "p"%char); mv_state := "current"; mv_mode := "listening"; mv_endpoints := []; mv_start := 0;
                       mv_end := None; mv_ended := None; mv_removed_by := None; mv_removal_reason := None |}] |}.
Definition peer_signed (key : string) (m : MemberMessage) : Prop := m = peer_message that.

Lemma toy_auth_laws : AuthLaws.
Proof.
  split.
  - intros bytes. apply toy_round_trip.
  - intros bytes. cbn. rewrite bytes_of_string_of. apply forallb_forall. intros c Hc. destruct (Ascii.eqb_spec c NL) as [->|]; [|done].
    exfalso. by apply (hex_not NL bytes), list_elem_of_In.
  - intros value. cbn. rewrite forallb_forall. intros Hall Hin%list_elem_of_In. by apply Hall in Hin.
Qed.
Lemma peer_lines key m : peer_signed key m → message_wf m.
Proof. intros ->. refine (proj1 (Forall_forall (λ x, NL ∉ bytes_of x) _) _). apply (bool_decide_unpack _). vm_compute. exact I. Qed.
Lemma peer_unforgeable key m signature : verify_signature key m signature = true → ∃ message, peer_signed key message ∧ message_bytes message = m.
Proof.
  unfold verify_signature. destruct (base64url_decode key); [|done]. destruct (base64url_decode signature); [|done]. intros [_ Hm]%andb_true_iff.
  change (that m = true) in Hm. apply String.eqb_eq in Hm as ->. exists (peer_message that). split; [done|]. vm_compute. reflexivity.
Qed.

Lemma accepted_message_authentic_witness :
  presents peer_headers (hmac_sha256 (bytes_of "secret") (canonical "fleet" "RESPONSE" EXCHANGE_PATH "peer" (body_digest (bytes_of "body")) (Some "request"))) ∧
  ∃ member, view_current peer_view "peer" = [member] ∧ peer_signed (mv_member_key member) (peer_message that).
Proof.
  pose proof (toy_join_laws that) as Hlaws. pose proof toy_auth_laws as Hauth.
  destruct (accepted_message_authentic peer_signed peer_unforgeable peer_lines peer_auth peer_headers "RESPONSE" EXCHANGE_PATH (bytes_of "body") (Some "peer") (Some "request")
    peer_sender peer_view false false) as (_ & Hmac & member & rd & Hcur & Hrd & Hs).
  - refine (proj1 (Forall_forall (λ x, NL ∉ bytes_of x) _) _). apply (bool_decide_unpack _). vm_compute. exact I.
  - vm_compute. reflexivity.
  - vm_compute. reflexivity.
  - split; [exact Hmac|]. exists member. split; [exact Hcur|]. reflexivity.
Defined.
End peer.
