(* ===== verification/Threads.v ===== *)
(** * Code of many store accesses, run beside other code

    A method of the store that is not one transaction reads and writes more than once, and
    other threads work between its accesses.  Here such a method is a program: each access is
    one atomic action on the store, and what follows is the program the action returns.  The
    same program is run alone ([exec]) and in a pool of threads whose accesses interleave
    ([pool_step]).  [good] is the condition under which a program may be trusted in any pool:
    every access of it keeps an invariant and changes the store only as all threads may. *)

From stdpp Require Import gmap.
From S2P Require Import Prelude.

Local Open Scope claims_scope.

Section programs.
Context {S E : Type}.

(** A program ends with an answer, or makes an access that may fail. *)
Inductive Prog (A : Type) : Type :=
| Done (a : A)
| Atomic (act : S → result (S * Prog A) E).
Global Arguments Done {A} a.
Global Arguments Atomic {A} act.

Fixpoint prog_bind {A B} (p : Prog A) (k : A → Prog B) : Prog B :=
  match p with
  | Done a => k a
  | Atomic act => Atomic (λ s, match act s with Ok (s', p') => Ok (s', prog_bind p' k) | Err e => Err e end)
  end.

(** One access, a read, a write, an error. *)
Definition access {A} (f : S → result (A * S) E) : Prog A :=
  Atomic (λ s, match f s with Ok (a, s') => Ok (s', Done a) | Err e => Err e end).
Definition reads {A} (f : S → A) : Prog A := access (λ s, Ok (f s, s)).
Definition writes (f : S → S) : Prog unit := access (λ s, Ok (tt, f s)).
Definition fails {A} (e : E) : Prog A := Atomic (λ _, Err e).

(** Alone: the answer or the error, and the store it leaves. *)
Fixpoint exec {A} (p : Prog A) (s : S) : result A E * S :=
  match p with
  | Done a => (Ok a, s)
  | Atomic act => match act s with Ok (s', p') => exec p' s' | Err e => (Err e, s) end
  end.

Lemma exec_bind {A B} (p : Prog A) (k : A → Prog B) : ∀ s,
  exec (prog_bind p k) s = match exec p s with (Ok a, s') => exec (k a) s' | (Err e, s') => (Err e, s') end.
Proof.
  revert p. fix IH 1. intros [a|act] s; [done|]. cbn [prog_bind exec]. destruct (act s) as [[s' p']|e]; [|done]. apply IH.
Qed.
Lemma exec_access {A} (f : S → result (A * S) E) s :
  exec (access f) s = match f s with Ok (a, s') => (Ok a, s') | Err e => (Err e, s) end.
Proof. cbn. by destruct (f s) as [[a s']|e]. Qed.

(** An error as a value, as a caller that matches on it sees it. *)
Fixpoint catch {A} (p : Prog A) : Prog (result A E) :=
  match p with
  | Done a => Done (Ok a)
  | Atomic act => Atomic (λ s, match act s with Ok (s', p') => Ok (s', catch p') | Err e => Ok (s, Done (Err e)) end)
  end.
Lemma exec_catch {A} (p : Prog A) : ∀ s, exec (catch p) s = (Ok (exec p s).1, (exec p s).2).
Proof. revert p. fix IH 1. intros [a|act] s; [done|]. cbn [catch exec]. destruct (act s) as [[s' p']|e]; [apply IH|done]. Qed.

(** ** Many threads *)

Inductive PoolEvent (A : Type) :=
| Started (p : Prog A)
| Moved (i : nat)
| Failed (i : nat) (e : E)
| Answered (a : A)
| Elsewhere.
Global Arguments Started {A} p.
Global Arguments Moved {A} i.
Global Arguments Failed {A} i e.
Global Arguments Answered {A} a.
Global Arguments Elsewhere {A}.

Definition answers {A} (tr : list (PoolEvent A)) : list A := omap (λ ev, match ev with Answered a => Some a | _ => None end) tr.

Section pool.
Context {A : Type}.
(** What may be started, and what others may do to the store. *)
Variable allowed : Prog A → Prop.
Variable env : S → S → Prop.

Inductive pool_step : S * list (Prog A) → PoolEvent A → S * list (Prog A) → Prop :=
| pool_start s ps p : allowed p → pool_step (s, ps) (Started p) (s, (ps ++ [p])%list)
| pool_move s ps i act s' p' : ps !! i = Some (Atomic act) → act s = Ok (s', p') → pool_step (s, ps) (Moved i) (s', <[i := p']> ps)
| pool_fail s ps i act e : ps !! i = Some (Atomic act) → act s = Err e → pool_step (s, ps) (Failed i e) (s, delete i ps)
| pool_answer s ps i a : ps !! i = Some (Done a) → pool_step (s, ps) (Answered a) (s, delete i ps)
| pool_elsewhere s s' ps : env s s' → pool_step (s, ps) Elsewhere (s', ps).

(** ** What every thread keeps to *)

Variable R : S → S → Prop.
Context `{!PreOrder R}.
Variable I : S → Prop.

(** Whatever others did in between, each access of the program keeps [I] and to [R]; its
    answer satisfies [Q] of the store. *)
Fixpoint good {B} (p : Prog B) (s0 : S) (Q : B → S → Prop) : Prop :=
  match p with
  | Done a => Q a s0
  | Atomic act => ∀ s, R s0 s → I s → match act s with Ok (s', p') => I s' ∧ R s s' ∧ good p' s' Q | Err _ => True end
  end.

Lemma good_mono {B} (p : Prog B) (Q Q' : B → S → Prop) : (∀ a s, Q a s → Q' a s) → ∀ s0, good p s0 Q → good p s0 Q'.
Proof.
  intros HQ. revert p. fix IH 1. intros [a|act] s0 Hg; cbn [good] in *; [by apply HQ|]. intros s Hs HI. specialize (Hg s Hs HI).
  destruct (act s) as [[s' p']|e]; [|done]. destruct Hg as (? & ? & ?). split_and!; [done..|by apply IH].
Qed.

Lemma good_bind {B C} (p : Prog B) (k : B → Prog C) (Q : C → S → Prop) : ∀ s0,
  good p s0 (λ a s, good (k a) s Q) → good (prog_bind p k) s0 Q.
Proof.
  revert p. fix IH 1. intros [a|act] s0 Hg; cbn [good prog_bind] in *; [done|]. intros s Hs HI. specialize (Hg s Hs HI).
  destruct (act s) as [[s' p']|e]; [|done]. destruct Hg as (? & ? & ?). split_and!; [done..|by apply IH].
Qed.

Lemma good_access {B} (f : S → result (B * S) E) (Q : B → S → Prop) s0 :
  (∀ s, R s0 s → I s → match f s with Ok (a, s') => I s' ∧ R s s' ∧ Q a s' | Err _ => True end) → good (access f) s0 Q.
Proof. intros Hf s Hs HI. specialize (Hf s Hs HI). by destruct (f s) as [[a s']|e]. Qed.
Lemma good_reads {B} (f : S → B) (Q : B → S → Prop) s0 : (∀ s, R s0 s → I s → Q (f s) s) → good (reads f) s0 Q.
Proof. intros HQ. apply good_access. intros s Hs HI. split_and!; [done|reflexivity|by apply HQ]. Qed.
Lemma good_writes (f : S → S) (Q : unit → S → Prop) s0 :
  (∀ s, R s0 s → I s → I (f s) ∧ R s (f s) ∧ Q tt (f s)) → good (writes f) s0 Q.
Proof. intros HQ. by apply good_access. Qed.
Lemma good_fails {B} (e : E) (Q : B → S → Prop) s0 : good (fails e) s0 Q.
Proof. by intros s _ _. Qed.

(** A good program run alone does what [Q] says. *)
Lemma good_exec {B} (p : Prog B) (Q : B → S → Prop) : ∀ s, I s → good p s Q →
  let (a, s') := exec p s in I s' ∧ R s s' ∧ match a with Ok a => Q a s' | Err _ => True end.
Proof.
  revert p. fix IH 1. intros [a|act] s HI Hg; cbn [good exec] in *; [split_and!; [done|reflexivity|done]|]. specialize (Hg s ltac:(reflexivity) HI).
  destruct (act s) as [[s' p']|e]; [|split_and!; [done|reflexivity|done]]. destruct Hg as (HI' & Hs' & Hg). specialize (IH p' s' HI' Hg).
  destruct (exec p' s') as [a s'']. destruct IH as (? & ? & ?). split_and!; [done|by transitivity s'|done].
Qed.

(** In a pool of good threads every answer given is true of the store ever after. *)
Lemma pool_good (Q : A → S → Prop) s0 tr s ps :
  (∀ a s s', R s s' → Q a s → Q a s') → (∀ p, allowed p → ∀ s, good p s Q) → (∀ s s', I s → env s s' → I s' ∧ R s s') → I s0 →
  run pool_step (s0, []) tr (s, ps) → I s ∧ R s0 s ∧ ∀ a, a ∈ answers tr → Q a s.
Proof.
  intros Hst Hgood Henv HI Hrun.
  assert (∀ c tr c', run pool_step c tr c' → I c.1 → (∀ p, p ∈ c.2 → ∃ s1, R s1 c.1 ∧ good p s1 Q) →
    I c'.1 ∧ R c.1 c'.1 ∧ ∀ a, a ∈ answers tr → Q a c'.1) as Hall; [|by apply (Hall _ _ _ Hrun); [done|intros p Hp; apply elem_of_nil in Hp]].
  clear s0 tr s ps HI Hrun. intros c tr c'. induction 1 as [c|c ev c1 tr c2 Hstep _ IH]; intros HI Hps; [split_and!; [done|reflexivity|by intros a Ha%elem_of_nil]|].
  assert (I c1.1 ∧ R c.1 c1.1 ∧ (∀ p, p ∈ c1.2 → ∃ s1, R s1 c1.1 ∧ good p s1 Q) ∧ (∀ a, ev = Answered a → Q a c1.1)) as (HI1 & HR1 & Hps1 & Ha1).
  - destruct Hstep as [s ps p Hp|s ps i act s' p' Hi Ha|s ps i act e Hi Ha|s ps i a Hi|s s' ps He]; cbn [fst snd] in *.
    + split_and!; [done|reflexivity| |done]. intros q [Hq| ->%list_elem_of_singleton]%elem_of_app; [by apply Hps|]. exists s. split; [reflexivity|by apply Hgood].
    + destruct (Hps _ (list_elem_of_lookup_2 _ _ _ Hi)) as (s1 & Hs1 & Hg). specialize (Hg s Hs1 HI). rewrite Ha in Hg. destruct Hg as (HI' & HR & Hg').
      split_and!; [done|done| |done]. intros q [j Hj]%list_elem_of_lookup. destruct (decide (i = j)) as [<-|Hne].
      * rewrite list_lookup_insert_eq in Hj by (by eapply lookup_lt_Some). injection Hj as <-. exists s'. split; [reflexivity|done].
      * rewrite list_lookup_insert_ne in Hj by done. destruct (Hps q) as (s2 & Hs2 & Hg2); [by eapply list_elem_of_lookup_2|]. exists s2. split; [by transitivity s|done].
    + split_and!; [done|reflexivity| |done]. intros q Hq. apply Hps. by eapply list_elem_of_delete_inv.
    + split_and!; [done|reflexivity| |]. { intros q Hq. apply Hps. by eapply list_elem_of_delete_inv. }
      intros b [= <-]. destruct (Hps _ (list_elem_of_lookup_2 _ _ _ Hi)) as (s1 & Hs1 & Hg). by eapply Hst.
    + destruct (Henv _ _ HI He) as [HI' HR]. split_and!; [done|done| |done]. intros q Hq. destruct (Hps q Hq) as (s1 & Hs1 & Hg). exists s1. split; [by transitivity s|done].
  - destruct (IH HI1 Hps1) as (HI2 & HR2 & Ha2). split_and!; [done|by transitivity (c1.1)|]. intros a. unfold answers. cbn [omap list_omap].
    destruct ev; cbn; try exact (Ha2 a). intros [->|Ha]%elem_of_cons; [|by apply Ha2]. eapply Hst; [done|by apply Ha1].
Qed.

(** ** One schedule *)

(** The threads are moved in this order; one that ended is answered and leaves the pool. *)
Fixpoint schedule (l : list nat) (c : S * list (Prog A)) : option (list (PoolEvent A) * (S * list (Prog A))) :=
  match l with
  | [] => Some ([], c)
  | i :: l =>
      let next := match c.2 !! i with
                  | Some (Atomic act) => match act c.1 with
                                         | Ok (s', p') => Some (Moved i, (s', <[i := p']> c.2))
                                         | Err e => Some (Failed i e, (c.1, delete i c.2))
                                         end
                  | Some (Done a) => Some (Answered a, (c.1, delete i c.2))
                  | None => None
                  end in
      x ← next; y ← schedule l x.2; Some (x.1 :: y.1, y.2)
  end.
Lemma schedule_run l : ∀ c tr c', schedule l c = Some (tr, c') → run pool_step c tr c'.
Proof.
  induction l as [|i l IH]; intros c tr c'; cbn [schedule]; [intros [= <- <-]; apply run_nil|]. destruct c as [s ps]. cbn [fst snd].
  destruct (ps !! i) as [[a|act]|] eqn:Hi; cbn [mbind option_bind]; [| |done].
  - destruct (schedule l _) as [[tr1 c1]|] eqn:Hs; [|done]. intros [= <- <-]. eapply run_cons; [by eapply pool_answer|by apply IH].
  - destruct (act s) as [[s' p']|e] eqn:Ha; cbn [mbind option_bind fst snd]; (destruct (schedule l _) as [[tr1 c1]|] eqn:Hs; [|done]); intros [= <- <-].
    + eapply run_cons; [by eapply pool_move|by apply IH].
    + eapply run_cons; [by eapply pool_fail|by apply IH].
Qed.
Lemma start_run ps : ∀ s ps0, (∀ p, p ∈ ps → allowed p) → run pool_step (s, ps0) (Started <$> ps) (s, (ps0 ++ ps)%list).
Proof.
  induction ps as [|p ps IH]; intros s ps0 Hps; [rewrite app_nil_r; apply run_nil|]. eapply run_cons; [apply pool_start, Hps; by left|].
  replace (ps0 ++ p :: ps)%list with ((ps0 ++ [p]) ++ ps)%list by (by rewrite <-app_assoc). apply IH. intros q Hq. apply Hps. by right.
Qed.
Lemma scheduled_run l s ps tr c : (∀ p, p ∈ ps → allowed p) → schedule l (s, ps) = Some (tr, c) → run pool_step (s, []) ((Started <$> ps) ++ tr) c.
Proof. intros Hps Hl. eapply run_app; [by apply (start_run ps s [])|]. by apply (schedule_run l). Qed.
End pool.
End programs.
Arguments Prog : clear implicits.

Notation "'let*' x := p 'in' k" := (prog_bind p (λ x, k)) (at level 200, x pattern, p at level 100, k at level 200) : claims_scope.
