(* ===== verification/Invites.v ===== *)
(** * Invites, joins and removals (crates/smallclaims/src/store.rs: [create_fleet_invite] to
    [fleet_invites], [remove_fleet_member], [leave_fleet], [writer_high_water])

    A sponsor makes an invite and keeps its token; a joiner proves that it holds the token,
    and is bound to the invite with its key and its name.  None of these methods is one
    transaction, so each is a program of accesses that other threads may come between.  The
    theorems show that an invite admits one key under one name whatever runs beside it, that
    five bad proofs burn it, that a name that is joined again starts above everything known
    of it, and that a removal keeps what is held of the removed. *)

From stdpp Require Import gmap.
From S2P Require Import Prelude BTree Json Membership FleetView Principal Keyring JoinCode Digests Retired WriterHeads FleetStore Admission Idempotency Inventory PeerAuth Handshake Threads.

Local Open Scope string_scope.
Local Open Scope claims_scope.

(** ** The tables *)

(** A row of [fleet_invite_tokens]; the token is hex. *)
Record InviteRow := {
  fi_token : option string;
  fi_expires_at_unix_ms : Z;
  fi_name : option string;
  fi_migrate : bool;
  fi_bound_key : option string;
  fi_bound_name : option string;
  fi_failures : Z;
  fi_admitted_claim : option string;
  fi_writer_floor : option Z;
  fi_created_by : option string
}.
#[export] Instance invite_row_eq_dec : EqDecision InviteRow.
Proof. solve_decision. Defined.

(** The fleet's tables, the invites this node sponsors, the keys [fleet_id] and
    [fleet_leaving] of [meta], the membership in memory and the clock. *)
Record InviteStore := {
  is_fleet : FleetTables;
  is_invites : gmap string InviteRow;
  is_fleet_id : option string;
  is_leaving : bool;
  is_cache : option (Z * Membership);
  is_now : Z
}.

Definition set_fleet (t : FleetTables) (s : InviteStore) : InviteStore :=
  {| is_fleet := t; is_invites := is_invites s; is_fleet_id := is_fleet_id s; is_leaving := is_leaving s; is_cache := is_cache s; is_now := is_now s |}.
Definition set_invites (rows : gmap string InviteRow) (s : InviteStore) : InviteStore :=
  {| is_fleet := is_fleet s; is_invites := rows; is_fleet_id := is_fleet_id s; is_leaving := is_leaving s; is_cache := is_cache s; is_now := is_now s |}.
Definition set_cache (cache : option (Z * Membership)) (s : InviteStore) : InviteStore :=
  {| is_fleet := is_fleet s; is_invites := is_invites s; is_fleet_id := is_fleet_id s; is_leaving := is_leaving s; is_cache := cache; is_now := is_now s |}.
Definition set_leaving (leaving : bool) (s : InviteStore) : InviteStore :=
  {| is_fleet := is_fleet s; is_invites := is_invites s; is_fleet_id := is_fleet_id s; is_leaving := leaving; is_cache := is_cache s; is_now := is_now s |}.

Definition erase_token (row : InviteRow) : InviteRow :=
  {| fi_token := None; fi_expires_at_unix_ms := fi_expires_at_unix_ms row; fi_name := fi_name row; fi_migrate := fi_migrate row;
     fi_bound_key := fi_bound_key row; fi_bound_name := fi_bound_name row; fi_failures := fi_failures row; fi_admitted_claim := fi_admitted_claim row;
     fi_writer_floor := fi_writer_floor row; fi_created_by := fi_created_by row |}.
Definition set_failures (failures : Z) (row : InviteRow) : InviteRow :=
  {| fi_token := fi_token row; fi_expires_at_unix_ms := fi_expires_at_unix_ms row; fi_name := fi_name row; fi_migrate := fi_migrate row;
     fi_bound_key := fi_bound_key row; fi_bound_name := fi_bound_name row; fi_failures := failures; fi_admitted_claim := fi_admitted_claim row;
     fi_writer_floor := fi_writer_floor row; fi_created_by := fi_created_by row |}.
Definition set_bound (key name : string) (floor : option Z) (row : InviteRow) : InviteRow :=
  {| fi_token := fi_token row; fi_expires_at_unix_ms := fi_expires_at_unix_ms row; fi_name := fi_name row; fi_migrate := fi_migrate row;
     fi_bound_key := Some key; fi_bound_name := Some name; fi_failures := fi_failures row; fi_admitted_claim := fi_admitted_claim row;
     fi_writer_floor := floor; fi_created_by := fi_created_by row |}.
Definition set_admitted (claim : string) (row : InviteRow) : InviteRow :=
  {| fi_token := fi_token row; fi_expires_at_unix_ms := fi_expires_at_unix_ms row; fi_name := fi_name row; fi_migrate := fi_migrate row;
     fi_bound_key := fi_bound_key row; fi_bound_name := fi_bound_name row; fi_failures := fi_failures row; fi_admitted_claim := Some claim;
     fi_writer_floor := fi_writer_floor row; fi_created_by := fi_created_by row |}.

(** ** The claims graph *)

(** [append_claim], which gives the claim's id, [replication_snapshot], and the claims in
    canonical order. *)
Class ClaimsGraph := {
  graph_append : ClaimInput → FleetTables → result (string * FleetTables) St3Error;
  graph_snapshot : FleetTables → result FleetTables St3Error;
  graph_claims : FleetTables → list ClaimRecord
}.
(** The claim that is returned is one of this request, new or written before; writing and
    sealing lose no claim. *)
Class ClaimsGraphLaws `{ClaimsGraph} : Prop := {
  append_stores input t id t' : graph_append input t = Ok (id, t') →
    ∃ c, ft_claims t' !! id = Some c ∧ cm_subject c = in_subject input ∧ cm_kind c = in_kind input ∧
      ∀ k, bmap_get k (fields_of (cm_body c)) = in_fields input !! k;
  append_keeps input t id t' : graph_append input t = Ok (id, t') → ft_claims t ⊆ ft_claims t';
  snapshot_keeps t t' : graph_snapshot t = Ok t' → ft_claims t ⊆ ft_claims t'
}.

Definition internal (message : string) : St3Error := {| er_code := "internal"; er_message := message |}.
Notation program := (Prog InviteStore St3Error).

(** ** Reading what is known of a writer *)

(** [MAX] over integers. *)
Definition list_max (l : list Z) : option Z := Z.opp <$> list_min (Z.opp <$> l).
Definition envelope_sequences (writer : string) (t : FleetTables) : list Z :=
  (λ k : envelope_key, k.1.2) <$> List.filter (λ k, String.eqb k.1.1 writer) (map_to_list (ft_envelopes t)).*1.
Definition head_sequences (writer : string) (w : Writers) : list Z := fst <$> option_list (bmap_get writer (wr_heads w)).
(** The sequences of the four tables that [writer_high_water] reads. *)
Definition held_sequences (t : FleetTables) (writer : string) : list Z :=
  (envelope_sequences writer t ++ tombstone_sequences writer (wr_ledger (ft_writers t)) ++ retired_sequences writer (wr_ledger (ft_writers t)) ++
   head_sequences writer (ft_writers t))%list.
Definition writer_high_water (t : FleetTables) (writer : string) : option Z := list_max (held_sequences t writer).

(** [writer_head]: the highest batch of the writer. *)
Definition writer_head (t : FleetTables) (writer : string) : option (Z * string) :=
  (λ b, (ba_replica_sequence b, ba_hash b)) <$> newest_batch writer (ft_writers t).

Definition FLEET_INVITE_FAILURE_LIMIT : Z := 5.
Definition is_ascii_alphanumeric (b : ascii) : bool :=
  let n := byte_val b in ((48 <=? n) && (n <=? 57) || (65 <=? n) && (n <=? 90) || (97 <=? n) && (n <=? 122))%Z.
Definition name_byte (b : ascii) : bool :=
  is_ascii_alphanumeric b || bool_decide (b ∈ ["."; "_"; "-"]%char).
Definition valid_fleet_node_name (name : string) : bool :=
  negb (String.eqb name "") && (len name <=? 63)%Z && negb (String.eqb name "local") &&
  is_some_and is_ascii_alphanumeric (head (bytes_of name)) && forallb name_byte (bytes_of name).

(** ** Requests *)

Definition invite_subject (invite : string) : string := "fleet-invite/" +:+ invite.
Definition host_subject (name : string) : string := "host/" +:+ name.
Definition text_field (name : string) (value : option string) : list (string * Value) :=
  match value with Some text => [(name, VString text)] | None => [] end.
Definition value_u64 (n : Z) : Value := VNumber (PosInt n).

Definition claim_input (subject kind : string) (actor : option string) (fields : list (string * Value)) (idempotency_key : option string) : ClaimInput :=
  {| in_subject := subject; in_kind := kind; in_actor := actor; in_fields := list_to_map fields; in_evidence := [];
     in_expected_subject := None; in_idempotency_key := idempotency_key |}.

Definition created_input (origin invite : string) (expires_at : Z) (transports : list string) (person : string) (name : option string) : ClaimInput :=
  claim_input (invite_subject invite) "fleet.invite-created" (Some person)
    ([("sponsor", VString (host_subject origin)); ("expires_at_unix_ms", value_u64 expires_at); ("transports", Array (VString <$> transports));
      ("created_by", VString person)] ++ text_field "name" name)%list None.
Definition redeemed_input (r : JoinRequest) : ClaimInput :=
  claim_input (invite_subject (jr_invite r)) "fleet.invite-redeemed" None
    [("name", VString (jr_name r)); ("member_key", VString (jr_member_key r))] (Some ("fleet-invite-redeemed:" +:+ jr_invite r)).
Definition admitted_input (origin fleet_id : string) (r : JoinRequest) (migrate : bool) (writer_floor : option Z) (created_by : option string) : ClaimInput :=
  claim_input (host_subject (jr_name r)) MEMBER_ADMITTED created_by
    ([("fleet_id", VString fleet_id); ("member_key", VString (jr_member_key r)); ("via", VString (if migrate then "migration" else "invite"));
      ("sponsor", VString (host_subject origin)); ("invite", VString (invite_subject (jr_invite r))); ("mode", VString (jr_mode r))] ++
     match writer_floor with Some floor => [("writer_floor", value_u64 floor)] | None => [] end ++ text_field "admitted_by" created_by)%list
    (Some ("fleet-invite-admitted:" +:+ jr_invite r)).
Definition revoked_input (invite reason : string) (person : option string) : ClaimInput :=
  claim_input (invite_subject invite) "fleet.invite-revoked" person
    (("reason", VString reason) :: text_field "revoked_by" person) (Some ("fleet-invite-revoked:" +:+ invite)).
Definition removed_input (name reason person : string) (high_water : Z) (key : option string) : ClaimInput :=
  claim_input (host_subject name) MEMBER_REMOVED (Some person)
    ([("high_water", value_u64 high_water); ("reason", VString reason); ("removed_by", VString person)] ++ text_field "member_key" key)%list None.
Definition left_input (origin key person : string) : ClaimInput :=
  claim_input (host_subject origin) MEMBER_LEFT (Some person) [("member_key", VString key); ("high_water", value_u64 0)] None.
Definition anchor_input (origin fleet_id member_key mode : string) : ClaimInput :=
  claim_input (host_subject origin) MEMBER_ADMITTED None
    [("fleet_id", VString fleet_id); ("member_key", VString member_key); ("via", VString "anchor"); ("mode", VString mode)]
    (Some ("fleet-anchor:" +:+ member_key)).

(** ** Answers *)

Inductive FleetRedemption :=
| Closed
| Refused (reason : string)
| JoinAdmitted (token : list ascii) (writer_floor : option Z) (admitted_claim : option string) (first : bool).
Record CreatedFleetInvite := { ci_invite : string; ci_token : list ascii; ci_expires_at_unix_ms : Z }.
Record FleetRemoval := { fr_name : string; fr_keys : list string; fr_high_water : Z; fr_revoked_invites : list string }.
Record FleetInviteView := {
  vw_invite : string;
  vw_sponsor : string;
  vw_name : option string;
  vw_expires_at_unix_ms : Z;
  vw_created_by : option string;
  vw_state : string;
  vw_redeemed_name : option string;
  vw_redeemed_key : option string;
  vw_redeemed_at_unix_ms : option Z;
  vw_revoked_reason : option string
}.

(** ** Erasing tokens *)

Definition revoked_claim (t : FleetTables) (invite : string) : bool :=
  bool_decide (map_Exists (λ (_ : string) c, cm_subject c = invite_subject invite ∧ cm_kind c = "fleet.invite-revoked") (ft_claims t)).
(** [CAST(expires_at_unix_ms AS INTEGER) <= now] *)
Definition expired (now : Z) (row : InviteRow) : bool := (Z.min (fi_expires_at_unix_ms row) i64_max <=? now)%Z.
Definition sweep_row (s : InviteStore) (invite : string) (row : InviteRow) : InviteRow :=
  if bool_decide (is_Some (fi_token row)) && (expired (is_now s) row || revoked_claim (is_fleet s) invite) then erase_token row else row.
Definition sweep (s : InviteStore) : InviteStore := set_invites (map_imap (λ invite row, Some (sweep_row s invite row)) (is_invites s)) s.
Definition sweep_fleet_invites : program unit := writes sweep.

Definition any_token (s : InviteStore) : bool := bool_decide (map_Exists (λ (_ : string) row, is_Some (fi_token row)) (is_invites s)).
Definition has_open_fleet_invites : program bool :=
  let* _ := sweep_fleet_invites in
  reads any_token.

(** [UPDATE fleet_invite_tokens SET ... WHERE invite_id=?1]: the rows changed. *)
Definition update_invite (invite : string) (guard : InviteRow → bool) (f : InviteRow → InviteRow) (s : InviteStore) : nat * InviteStore :=
  match is_invites s !! invite with
  | Some row => if guard row then (1, set_invites (<[invite := f row]> (is_invites s)) s) else (0, s)
  | None => (0, s)
  end.

(** ** The views of invites *)

(** [body["fields"][name]] *)
Definition body_field (c : ClaimRecord) (name : string) : option Value := value_get "fields" (cm_body c) ≫= value_get name.
Definition body_text (c : ClaimRecord) (name : string) : option string := body_field c name ≫= as_str.

Definition INVITE_CLAIM_KINDS : list string := ["fleet.invite-created"; "fleet.invite-redeemed"; "fleet.invite-revoked"].
Definition redeemed_view (c : ClaimRecord) (v : FleetInviteView) : FleetInviteView :=
  {| vw_invite := vw_invite v; vw_sponsor := vw_sponsor v; vw_name := vw_name v; vw_expires_at_unix_ms := vw_expires_at_unix_ms v;
     vw_created_by := vw_created_by v; vw_state := "redeemed"; vw_redeemed_name := body_text c "name"; vw_redeemed_key := body_text c "member_key";
     vw_redeemed_at_unix_ms := Some (cm_accepted_at_unix_ms c); vw_revoked_reason := vw_revoked_reason v |}.
Definition with_state (state : string) (reason : option string) (v : FleetInviteView) : FleetInviteView :=
  {| vw_invite := vw_invite v; vw_sponsor := vw_sponsor v; vw_name := vw_name v; vw_expires_at_unix_ms := vw_expires_at_unix_ms v;
     vw_created_by := vw_created_by v; vw_state := state; vw_redeemed_name := vw_redeemed_name v; vw_redeemed_key := vw_redeemed_key v;
     vw_redeemed_at_unix_ms := vw_redeemed_at_unix_ms v; vw_revoked_reason := reason |}.
Definition view_claim (invites : BTreeMap string FleetInviteView) (c : ClaimRecord) : BTreeMap string FleetInviteView :=
  match strip_prefix "fleet-invite/" (cm_subject c) with
  | None => invites
  | Some invite =>
      if String.eqb (cm_kind c) "fleet.invite-created" then
        bmap_insert invite
          {| vw_invite := cm_subject c; vw_sponsor := default "" (body_text c "sponsor"); vw_name := body_text c "name";
             vw_expires_at_unix_ms := default 0%Z (body_field c "expires_at_unix_ms" ≫= as_u64); vw_created_by := body_text c "created_by";
             vw_state := "open"; vw_redeemed_name := None; vw_redeemed_key := None; vw_redeemed_at_unix_ms := None; vw_revoked_reason := None |} invites
      else if String.eqb (cm_kind c) "fleet.invite-redeemed" then bmap_update (redeemed_view c) invite invites
      else if String.eqb (cm_kind c) "fleet.invite-revoked" then
        bmap_update (λ v, if String.eqb (vw_state v) "open" then with_state "revoked" (body_text c "reason") v else v) invite invites
      else invites
  end.
Definition expire_view (now : Z) (v : FleetInviteView) : FleetInviteView :=
  if String.eqb (vw_state v) "open" && (vw_expires_at_unix_ms v <=? now)%Z then with_state "expired" (vw_revoked_reason v) v else v.
(** [fleet_invites], of the claims in canonical order. *)
Definition invite_views (claims : list ClaimRecord) (now : Z) (all : bool) : list FleetInviteView :=
  let rows := List.filter (λ c, bool_decide (cm_kind c ∈ INVITE_CLAIM_KINDS)) claims in
  let views := expire_view now <$> bmap_values (foldl view_claim [] rows) in
  if all then views else List.filter (λ v, String.eqb (vw_state v) "open" || String.eqb (vw_state v) "redeemed") views.

(** [str::trim_start_matches] *)
Fixpoint trim_start_matches (fuel : nat) (prefix text : string) : string :=
  match fuel with
  | O => text
  | S fuel => match strip_prefix prefix text with Some rest => trim_start_matches fuel prefix rest | None => text end
  end.

Section invites.
Context `{Crypto} `{AuthCrypto} `{JoinCrypto} `{Hex} `{ClaimsGraph}.
(** This node and, on a member, its key. *)
Variable origin : string.
Variable member_public_key : option string.

(** ** The graph from a program *)

Definition append_claim_of (input : ClaimInput) : program string :=
  access (λ s, let? x := graph_append input (is_fleet s) in Ok (x.1, set_fleet x.2 s)).
Definition replication_snapshot : program unit :=
  access (λ s, let? t := graph_snapshot (is_fleet s) in Ok (tt, set_fleet t s)).

(** [fleet_membership]: from memory when the generation did not move, else folded. *)
Definition fold_membership : program Membership :=
  let* _ := replication_snapshot in
  let* folded_at := reads (λ s, ft_generation (is_fleet s)) in
  let* membership := reads (λ s, fleet_membership_tx (is_fleet s)) in
  let* _ := writes (set_cache (Some (folded_at, membership))) in
  Done membership.
Definition fleet_membership : program Membership :=
  let* current := reads (λ s, ft_generation (is_fleet s)) in
  let* cache := reads is_cache in
  match cache with
  | Some (folded_at, membership) => if (folded_at =? current)%Z then Done membership else fold_membership
  | None => fold_membership
  end.

(** ** Creating and revoking *)

(** [revoke_fleet_invite] *)
Definition revoke_fleet_invite (invite reason : string) (person : option string) : program unit :=
  let* _ := append_claim_of (revoked_input invite reason person) in
  let* _ := sweep_fleet_invites in
  replication_snapshot.

(** [create_fleet_invite], with the invite and the token that it draws. *)
Definition create_fleet_invite (invite token : list ascii) (name : option string) (lifetime_ms : Z) (transports : list string) (person : string) (migrate : bool)
    : program CreatedFleetInvite :=
  if is_some_and (λ name, negb (valid_fleet_node_name name)) name then
    fails {| er_code := "invalid-node-name"; er_message := "a node name is a letter or digit followed by letters, digits, `.`, `_`, or `-`" |}
  else if negb ((10 <=? lifetime_ms / 1000) && (lifetime_ms / 1000 <=? 86400))%Z then
    fails {| er_code := "invalid-invite-lifetime"; er_message := "an invite lasts between 10 seconds and 24 hours" |}
  else
    let* membership := fleet_membership in
    match state membership origin with
    | Current own =>
        if negb (String.eqb (inc_mode own) "listening") then
          fails {| er_code := "dial-out-cannot-sponsor";
                   er_message := "a dial-out member accepts no connections, so it cannot sponsor an invite; run this on a listening member" |}
        else
          let invite := hex_encode invite in
          let* now := reads is_now in
          let expires_at := (now + lifetime_ms)%Z in
          if (u64_max <? expires_at)%Z then fails (internal "out of range integral type conversion attempted")
          else
            let* _ := append_claim_of (created_input origin invite expires_at transports person name) in
            let* _ := access (λ s, match is_invites s !! invite with
                                   | Some _ => Err (internal "UNIQUE constraint failed: fleet_invite_tokens.invite_id")
                                   | None => Ok (tt, set_invites (<[invite :=
                                       {| fi_token := Some (hex_encode token); fi_expires_at_unix_ms := expires_at; fi_name := name; fi_migrate := migrate;
                                          fi_bound_key := None; fi_bound_name := None; fi_failures := 0; fi_admitted_claim := None;
                                          fi_writer_floor := None; fi_created_by := Some person |}]> (is_invites s)) s)
                                   end) in
            let* _ := replication_snapshot in
            Done {| ci_invite := invite; ci_token := token; ci_expires_at_unix_ms := expires_at |}
    | _ => fails {| er_code := "not-a-member"; er_message := "this node is not a current fleet member" |}
    end.

(** ** Redeeming *)

(** The end of a name that is out of the fleet. *)
Definition ended_end (membership : Membership) (name : string) : option Z :=
  match state membership name with
  | Ended _ => list_max (omap inc_end (List.filter (λ i, String.eqb (inc_name i) name) (incarnations membership)))
  | LegacyRemoved high_water => Some high_water
  | _ => None
  end.
Definition name_in_use (membership : Membership) (name : string) : bool :=
  match state membership name with Current _ | Conflicted _ => true | _ => false end.
Definition name_claimed (t : FleetTables) (name : string) : bool :=
  bool_decide (map_Exists (λ (_ : string) c, cm_subject c = host_subject name ∧ fleet_kind (cm_kind c) = true) (ft_claims t)).

(** [fleet_name_floor] *)
Definition fleet_name_floor (name : string) (joiner_wrote_as_name migrate : bool) : program (result (option Z) string) :=
  let* membership := fleet_membership in
  if name_in_use membership name then Done (Err "name-in-use")
  else if migrate then Done (match ended_end membership name with Some _ => Err "name-was-removed" | None => Ok None end)
  else
    let* held := reads (λ s, writer_high_water (is_fleet s) name) in
    let* claimed := reads (λ s, name_claimed (is_fleet s) name) in
    Done (if bool_decide (held = None) && negb claimed then Ok None
          else match ended_end membership name with
               | None => Err "name-has-unremoved-history"
               | Some ended_end =>
                   if joiner_wrote_as_name then Err "store-already-wrote-as-name"
                   else Ok (Some (Z.max (default 0%Z held) ended_end))
               end).

(** [append_fleet_admission] *)
Definition append_fleet_admission (r : JoinRequest) (migrate : bool) (writer_floor : option Z) (created_by : option string) : program string :=
  let* fleet_id := reads is_fleet_id in
  match fleet_id with
  | None => fails (internal "this store is not in a fleet")
  | Some fleet_id =>
      let* _ := append_claim_of (redeemed_input r) in
      let* admitted := append_claim_of (admitted_input origin fleet_id r migrate writer_floor created_by) in
      let* _ := writes (λ s, (update_invite (jr_invite r) (λ _, true) (set_admitted admitted) s).2) in
      let* _ := replication_snapshot in
      Done admitted
  end.

(** [hex::decode(&token)], 16 bytes *)
Definition token_bytes (token : string) : option (list ascii) :=
  match hex_decode token with Some bytes => if Nat.eqb (length bytes) 16 then Some bytes else None | None => None end.

(** A joiner whose request was verified. *)
Definition admit_joiner (r : JoinRequest) (token : list ascii) (row : InviteRow) : program FleetRedemption :=
  if negb (Bool.eqb (jr_migrate r) (fi_migrate row)) then Done (Refused "kind")
  else if is_some_and (λ pinned, negb (String.eqb pinned (jr_name r))) (fi_name row) || negb (valid_fleet_node_name (jr_name r))
          || negb (String.eqb (jr_mode r) "listening" || String.eqb (jr_mode r) "dial-out") then Done (Refused "name")
  else
    match fi_bound_key row with
    | Some bound =>
        if negb (String.eqb bound (jr_member_key r)) || negb (bool_decide (fi_bound_name row = Some (jr_name r))) then Done (Refused "bound-to-another-key")
        else
          match fi_admitted_claim row with
          | Some claim => Done (JoinAdmitted token (fi_writer_floor row) (Some claim) false)
          | None =>
              let* claim := append_fleet_admission r (fi_migrate row) (fi_writer_floor row) (fi_created_by row) in
              Done (JoinAdmitted token (fi_writer_floor row) (Some claim) false)
          end
    | None =>
        let* floor := fleet_name_floor (jr_name r) (bool_decide (is_Some (jr_writer_head r))) (fi_migrate row) in
        match floor with
        | Err reason => Done (Refused reason)
        | Ok floor =>
            let* bound := access (λ s, if is_some_and (λ floor, i64_max <? floor)%Z floor then Err (internal "out of range integral type conversion attempted")
                            else Ok (update_invite (jr_invite r)
                              (λ row, bool_decide (fi_bound_key row = None) && bool_decide (is_Some (fi_token row)))
                              (set_bound (jr_member_key r) (jr_name r) floor) s)) in
            if Nat.eqb bound 0 then Done (Refused "bound-to-another-key")
            else
              let* claim := append_fleet_admission r (fi_migrate row) floor (fi_created_by row) in
              Done (JoinAdmitted token floor (Some claim) true)
        end
    end.

(** [redeem_fleet_invite] *)
Definition redeem_fleet_invite (r : JoinRequest) : program FleetRedemption :=
  let* open := has_open_fleet_invites in
  if negb open then Done Closed
  else
    let* row := reads (λ s, row ← is_invites s !! jr_invite r; token ← fi_token row; Some (token, row)) in
    match row with
    | None => Done (Refused "unknown-invite")
    | Some (token, row) =>
        match token_bytes token with
        | None => fails (internal "a stored invite token is damaged")
        | Some token =>
            match verify_request r token with
            | Ok _ => admit_joiner r token row
            | Err FaultProof =>
                let failures := (fi_failures row + 1)%Z in
                let* _ := access (λ s, if (i64_max <? failures)%Z then Err (internal "out of range integral type conversion attempted")
                                       else Ok (tt, (update_invite (jr_invite r) (λ _, true) (set_failures failures) s).2)) in
                let* _ := if (FLEET_INVITE_FAILURE_LIMIT <=? failures)%Z then revoke_fleet_invite (jr_invite r) "too-many-failures" None else Done tt in
                Done (Refused "proof")
            | Err _ => Done (Refused "request")
            end
        end
    end.

(** ** Removing and leaving *)

(** [fleet_invites] *)
Definition fleet_invites (all : bool) : program (list FleetInviteView) :=
  let* claims := reads (λ s, graph_claims (is_fleet s)) in
  let* now := reads is_now in
  Done (invite_views claims now all).

Fixpoint for_each {A} (f : A → program unit) (l : list A) : program unit :=
  match l with
  | [] => Done tt
  | a :: l => let* _ := f a in for_each f l
  end.

(** [remove_fleet_member] *)
Definition remove_fleet_member (name reason person : string) : program FleetRemoval :=
  if String.eqb name origin then fails {| er_code := "cannot-remove-self"; er_message := "a member cannot remove itself; use st fleet leave" |}
  else
    match member_public_key with
    | None => fails {| er_code := "not-a-member"; er_message := "only a member with a member key can remove; this node has none" |}
    | Some own_key =>
        let* membership := fleet_membership in
        if negb (match state membership origin with Current own => String.eqb (inc_member_key own) own_key | _ => false end) then
          fails {| er_code := "not-a-member"; er_message := "this node is not a current fleet member" |}
        else
          let keys := match state membership name with
                      | Current i => Some [Some (inc_member_key i)]
                      | Conflicted current => Some ((λ i, Some (inc_member_key i)) <$> current)
                      | Ended _ | LegacyRemoved _ => None
                      | NotMember => Some [None]
                      end in
          match keys with
          | None => fails {| er_code := "already-removed"; er_message := "`" +:+ name +:+ "` is already out of the fleet" |}
          | Some keys =>
              let* high_water := reads (λ s, default 0%Z (writer_high_water (is_fleet s) name)) in
              if bool_decide (keys = [None]) && (high_water =? 0)%Z then
                fails {| er_code := "unknown-member"; er_message := "`" +:+ name +:+ "` has never been a member or written to this fleet" |}
              else
                let* _ := for_each (λ key, let* _ := append_claim_of (removed_input name reason person high_water key) in Done tt) keys in
                let* views := fleet_invites false in
                let sponsored := List.filter (λ v, String.eqb (vw_state v) "open" && String.eqb (vw_sponsor v) (host_subject name)) views in
                let* _ := for_each (λ v, revoke_fleet_invite (trim_start_matches (String.length (vw_invite v)) "fleet-invite/" (vw_invite v))
                                           "sponsor-removed" (Some person)) sponsored in
                let* _ := replication_snapshot in
                Done {| fr_name := name; fr_keys := omap id keys; fr_high_water := high_water; fr_revoked_invites := vw_invite <$> sponsored |}
          end
    end.

(** [latest_claim] with a kind *)
Definition latest_claim (t : FleetTables) (subject kind : string) : option ClaimRecord :=
  last (List.filter (λ c, String.eqb (cm_subject c) subject && String.eqb (cm_kind c) kind) (graph_claims t)).

(** [leave_fleet] *)
Definition leave_fleet (person : string) : program string :=
  match member_public_key with
  | None => fails {| er_code := "not-a-member"; er_message := "this node has no member key" |}
  | Some key =>
      let* written := reads (λ s, latest_claim (is_fleet s) (host_subject origin) MEMBER_LEFT) in
      match written ≫= (λ c, if bool_decide (body_text c "member_key" = Some key) then Some c else None) with
      | Some c => Done (cm_id c)
      | None =>
          let* record := append_claim_of (left_input origin key person) in
          let* _ := replication_snapshot in
          Done record
      end
  end.

(** [set_fleet_leaving], [fleet_leaving], [record_fleet_anchor], [admit_fleet_anchor] *)
Definition set_fleet_leaving (leaving : bool) : program unit := writes (set_leaving leaving).
Definition fleet_leaving : program bool := reads is_leaving.
Definition record_fleet_anchor (fleet_id member_key mode : string) : program unit :=
  let* _ := append_claim_of (anchor_input origin fleet_id member_key mode) in
  Done tt.
Definition admit_fleet_anchor (fleet_id member_key mode : string) : program unit :=
  let* _ := record_fleet_anchor fleet_id member_key mode in
  replication_snapshot.

(** ** What every method keeps to *)

(** An invite stays; its terms do not change, its token can only be erased, and it is bound
    once. *)
Record row_later (row row' : InviteRow) : Prop := {
  rl_terms : (fi_expires_at_unix_ms row', fi_name row', fi_migrate row', fi_created_by row') =
             (fi_expires_at_unix_ms row, fi_name row, fi_migrate row, fi_created_by row);
  rl_token text : fi_token row' = Some text → fi_token row = Some text;
  rl_bound key : fi_bound_key row = Some key →
    (fi_bound_key row', fi_bound_name row', fi_writer_floor row') = (fi_bound_key row, fi_bound_name row, fi_writer_floor row)
}.
Definition invites_later (s s' : InviteStore) : Prop :=
  ∀ invite row, is_invites s !! invite = Some row → ∃ row', is_invites s' !! invite = Some row' ∧ row_later row row'.

#[local] Instance row_later_refl : Reflexive row_later.
Proof. by intros row. Qed.
#[local] Instance row_later_trans : Transitive row_later.
Proof.
  intros a b c [T K B] [T' K' B']. split; [congruence|by intros text ?%K'%K|]. intros key Hk. pose proof (B key Hk) as E. rewrite <-E. injection E as E1 E2 E3.
  apply (B' key). congruence.
Qed.
#[local] Instance invites_later_preorder : PreOrder invites_later.
Proof.
  split; [intros s invite row Hr; exists row; split; [done|reflexivity]|]. intros s s' s'' Hs Hs' invite row (row' & Hr' & Hl)%Hs.
  destruct (Hs' _ _ Hr') as (row'' & Hr'' & Hl'). exists row''. split; [done|by transitivity row'].
Qed.
Lemma invites_later_same s s' : is_invites s' = is_invites s → invites_later s s'.
Proof. intros E invite row Hr. exists row. rewrite E. split; [done|reflexivity]. Qed.
Lemma invites_later_rows s rows : (∀ invite row, is_invites s !! invite = Some row → ∃ row', rows !! invite = Some row' ∧ row_later row row') →
  invites_later s (set_invites rows s).
Proof. done. Qed.

Lemma sweep_later s : invites_later s (sweep s).
Proof.
  apply invites_later_rows. intros invite row Hr. exists (sweep_row s invite row). rewrite map_lookup_imap, Hr. split; [done|]. unfold sweep_row.
  destruct (_ && _); [|reflexivity]. by split.
Qed.
Lemma update_later invite guard f s : (∀ row, guard row = true → row_later row (f row)) → invites_later s (update_invite invite guard f s).2.
Proof.
  intros Hf. unfold update_invite. destruct (is_invites s !! invite) as [row|] eqn:Hr; [|reflexivity]. destruct (guard row) eqn:Hg; [|reflexivity].
  apply invites_later_rows. intros invite' row' Hr'. destruct (decide (invite = invite')) as [<-|Hne].
  - rewrite Hr in Hr'. injection Hr' as <-. exists (f row). rewrite lookup_insert_eq. auto.
  - exists row'. rewrite lookup_insert_ne by done. split; [done|reflexivity].
Qed.

Notation good := (good invites_later (λ _, True)).

(** A program whose accesses all keep to it, whatever it answers. *)
Definition orderly {A} (p : program A) : Prop := ∀ s0 (Q : A → InviteStore → Prop), (∀ a s, invites_later s0 s → Q a s) → good p s0 Q.

Lemma orderly_done {A} (a : A) : orderly (Done a).
Proof. intros s0 Q HQ. apply HQ. reflexivity. Qed.
Lemma orderly_fails {A} e : orderly (fails e : program A).
Proof. by intros s0 Q HQ s _ _. Qed.
Lemma orderly_bind {A B} (p : program A) (k : A → program B) : orderly p → (∀ a, orderly (k a)) → orderly (prog_bind p k).
Proof.
  intros Hp Hk s0 Q HQ. apply good_bind. apply Hp. intros a s Hs. apply Hk. intros b s' Hs'. apply HQ. by transitivity s.
Qed.
Lemma orderly_access {A} (f : InviteStore → result (A * InviteStore) St3Error) :
  (∀ s a s', f s = Ok (a, s') → invites_later s s') → orderly (access f).
Proof.
  intros Hf s0 Q HQ. apply good_access. intros s Hs _. destruct (f s) as [[a s']|e] eqn:E; [|done]. apply Hf in E. split_and!; [done..|]. apply HQ. by transitivity s.
Qed.
Lemma orderly_reads {A} (f : InviteStore → A) : orderly (reads f).
Proof. apply orderly_access. intros s a s' [= _ <-]. reflexivity. Qed.
Lemma orderly_writes f : (∀ s, invites_later s (f s)) → orderly (writes f).
Proof. intros Hf. apply orderly_access. by intros s a s' [= _ <-]. Qed.
Lemma orderly_append input : orderly (append_claim_of input).
Proof. apply orderly_access. intros s a s' (x & _ & [= _ <-])%result_bind_Ok. by apply invites_later_same. Qed.
Lemma orderly_snapshot : orderly replication_snapshot.
Proof. apply orderly_access. intros s a s' (x & _ & [= _ <-])%result_bind_Ok. by apply invites_later_same. Qed.
Lemma orderly_sweep : orderly sweep_fleet_invites.
Proof. apply orderly_writes, sweep_later. Qed.

#[local] Hint Resolve orderly_done orderly_fails orderly_append orderly_snapshot orderly_sweep orderly_reads : orderly.
Ltac orderly := repeat first [solve [auto with orderly] | apply orderly_bind; [|intros ?] | case_match].

Lemma orderly_membership : orderly fleet_membership.
Proof. unfold fleet_membership, fold_membership. orderly; apply orderly_writes; intros ?; by apply invites_later_same. Qed.
Lemma orderly_revoke invite reason person : orderly (revoke_fleet_invite invite reason person).
Proof. unfold revoke_fleet_invite. orderly. Qed.
Lemma orderly_floor name wrote migrate : orderly (fleet_name_floor name wrote migrate).
Proof. unfold fleet_name_floor. apply orderly_bind; [apply orderly_membership|intros m]. orderly. Qed.
Lemma orderly_admission r migrate floor created_by : orderly (append_fleet_admission r migrate floor created_by).
Proof. unfold append_fleet_admission. orderly. apply orderly_writes. intros ?. apply update_later. by intros row _. Qed.
Lemma orderly_create invite token name lifetime transports person migrate : orderly (create_fleet_invite invite token name lifetime transports person migrate).
Proof.
  unfold create_fleet_invite. destruct (is_some_and _ _); [orderly|]. destruct (negb (_ && _)%Z); [orderly|]. apply orderly_bind; [apply orderly_membership|intros m].
  destruct (state m origin); try solve [orderly]. destruct (negb _); [orderly|]. apply orderly_bind; [orderly|intros now]. destruct (_ <? _)%Z; [orderly|].
  apply orderly_bind; [orderly|intros id]. apply orderly_bind; [|intros ?; orderly]. apply orderly_access. intros s a s'. destruct (is_invites s !! _) eqn:Hn; [done|]. intros [= _ <-].
  apply invites_later_rows. intros invite' row Hr. exists row. rewrite lookup_insert_ne by congruence. split; [done|reflexivity].
Qed.
Lemma orderly_each {A} (f : A → program unit) l : (∀ a, orderly (f a)) → orderly (for_each f l).
Proof. intros Hf. induction l as [|a l IH]; cbn [for_each]; [orderly|]. apply orderly_bind; [done|intros _; exact IH]. Qed.
#[local] Hint Resolve orderly_membership orderly_revoke orderly_floor orderly_admission orderly_create : orderly.
Lemma orderly_remove name reason person : orderly (remove_fleet_member name reason person).
Proof.
  unfold remove_fleet_member, fleet_invites. destruct (String.eqb name origin); [orderly|]. destruct member_public_key; [|orderly]. apply orderly_bind; [orderly|intros m].
  destruct (negb _); [orderly|]. destruct (match state m name with Current _ => _ | Conflicted _ => _ | Ended _ => _ | LegacyRemoved _ => _ | NotMember => _ end); [|orderly].
  apply orderly_bind; [orderly|intros hw]. destruct (_ && _); [orderly|]. apply orderly_bind; [apply orderly_each; intros key; orderly|intros _].
  apply orderly_bind; [orderly|intros views]. apply orderly_bind; [apply orderly_each; intros v; orderly|intros _]. orderly.
Qed.
Lemma orderly_leave person : orderly (leave_fleet person).
Proof. unfold leave_fleet. orderly. Qed.

(** ** An invite admits one joiner *)

(** The invite is bound to this request's key and name, under terms that the request meets,
    and it held a token that the request proved. *)
Definition redeemed_by (s : InviteStore) (r : JoinRequest) (token : list ascii) (floor : option Z) : Prop :=
  (∃ row, is_invites s !! jr_invite r = Some row ∧ fi_bound_key row = Some (jr_member_key r) ∧ fi_bound_name row = Some (jr_name r) ∧
    fi_writer_floor row = floor ∧ fi_migrate row = jr_migrate r ∧ (∀ pinned, fi_name row = Some pinned → jr_name r = pinned)) ∧
  valid_fleet_node_name (jr_name r) = true ∧ verify_request r token = Ok tt ∧
  ∃ s1 row1 text, invites_later s1 s ∧ is_invites s1 !! jr_invite r = Some row1 ∧ fi_token row1 = Some text ∧ token_bytes text = Some token.

Definition redemption_ok (r : JoinRequest) (a : FleetRedemption) (s : InviteStore) : Prop :=
  match a with JoinAdmitted token floor _ _ => redeemed_by s r token floor | _ => True end.

Lemma redeemed_later s s' r token floor : invites_later s s' → redeemed_by s r token floor → redeemed_by s' r token floor.
Proof.
  intros Hl ((row & Hr & Hk & Hn & Hf & Hm & Hp) & Hv & Hq & s1 & row1 & text & Hs1 & Ht). split_and!; [|done..|].
  - destruct (Hl _ _ Hr) as (row' & Hr' & [T _ B]). exists row'. injection T as _ T2 T3 _. injection (B _ Hk) as B1 B2 B3. rewrite B1, B2, B3, T2, T3. split_and!; done.
  - exists s1, row1, text. split; [by transitivity s|done].
Qed.

Lemma admit_joiner_good r token text row s0 :
  is_invites s0 !! jr_invite r = Some row → fi_token row = Some text → token_bytes text = Some token → verify_request r token = Ok tt →
  good (admit_joiner r token row) s0 (redemption_ok r).
Proof.
  intros Hr Ht Hb Hv. unfold admit_joiner. destruct (negb (Bool.eqb _ _)) eqn:Hm; [done|]. apply negb_false_iff, Bool.eqb_prop in Hm.
  destruct (_ || _ || _) eqn:Hn; [done|]. apply orb_false_iff in Hn as [[Hp Hn]%orb_false_iff _]. apply negb_false_iff in Hn.
  assert (∀ pinned, fi_name row = Some pinned → jr_name r = pinned) as Hpin.
  { intros pinned E. rewrite E in Hp. cbn in Hp. by apply negb_false_iff, String.eqb_eq in Hp. }
  assert (∀ s row', invites_later s0 s → is_invites s !! jr_invite r = Some row' → row_later row row' →
    fi_bound_key row' = Some (jr_member_key r) → fi_bound_name row' = Some (jr_name r) → redeemed_by s r token (fi_writer_floor row')) as Hdone.
  { intros s row' Hs Hr' [T _ _] Hk Hbn. injection T as _ T2 T3 _. split_and!; [|done..|].
    - exists row'. rewrite T2, T3. by split_and!.
    - by exists s0, row, text. }
  destruct (fi_bound_key row) as [bound|] eqn:Hbk.
  - destruct (_ || _) eqn:Hsame; [done|]. apply orb_false_iff in Hsame as [Hk%negb_false_iff%String.eqb_eq Hbn%negb_false_iff%bool_decide_eq_true]. subst bound.
    assert (∀ s, invites_later s0 s → redeemed_by s r token (fi_writer_floor row)) as Hend.
    { intros s Hs. destruct (Hs _ _ Hr) as (row' & Hr' & Hl). pose proof (rl_bound _ _ Hl _ Hbk) as E. injection E as E1 E2 E3. rewrite <-E3. apply Hdone; [done|done|done|congruence|congruence]. }
    destruct (fi_admitted_claim row); [by apply Hend|]. apply good_bind, orderly_admission. intros claim s Hs. by apply Hend.
  - apply good_bind, orderly_floor. intros [floor|reason] s Hs; [|done]. apply good_bind, good_access. intros s1 Hs1 _.
    destruct (is_some_and _ floor); [done|]. unfold update_invite. destruct (is_invites s1 !! jr_invite r) as [row1|] eqn:Hr1; [|split_and!; [done|reflexivity|done]].
    destruct (_ && _) eqn:Hg; [|split_and!; [done|reflexivity|done]]. apply andb_true_iff in Hg as [Hfree%bool_decide_eq_true _].
    assert (row_later row1 (set_bound (jr_member_key r) (jr_name r) floor row1)) as Hset by (split; [done|done|]; intros key; by rewrite Hfree).
    set (s2 := set_invites _ s1). assert (invites_later s1 s2) as Hs2.
    { pose proof (update_later (jr_invite r) (λ row, bool_decide (fi_bound_key row = None)) (set_bound (jr_member_key r) (jr_name r) floor) s1) as Hu.
      unfold update_invite in Hu. rewrite Hr1, bool_decide_true in Hu by done. apply Hu. intros row2 E%bool_decide_eq_true. split; [done|done|]. intros key. by rewrite E. }
    split_and!; [done|done|]. cbn [Nat.eqb]. apply good_bind, orderly_admission. intros claim s3 Hs3. change (redeemed_by s3 r token floor).
    assert (invites_later s0 s1) as H01 by (by transitivity s). assert (invites_later s0 s2) as H02 by (by transitivity s1).
    apply (redeemed_later s2); [done|]. destruct (H01 _ _ Hr) as (row1' & Hr1' & Hl1). assert (row1' = row1) as -> by congruence.
    apply (Hdone s2 (set_bound (jr_member_key r) (jr_name r) floor row1)); [done|by apply lookup_insert_eq|by transitivity row1|done|done].
Qed.

Lemma redeem_good r s0 : good (redeem_fleet_invite r) s0 (redemption_ok r).
Proof.
  unfold redeem_fleet_invite, has_open_fleet_invites. apply good_bind, good_bind, orderly_sweep. intros _ s1 _. apply good_reads; [apply _|]. intros s2 _ _.
  destruct (negb _); [done|]. apply good_bind, good_reads; [apply _|]. intros s3 _ _. destruct (is_invites s3 !! jr_invite r) as [row|] eqn:Hr; cbn [mbind option_bind]; [|done].
  destruct (fi_token row) as [text|] eqn:Ht; cbn [mbind option_bind]; [|done]. destruct (token_bytes text) as [token|] eqn:Hb; [|apply good_fails].
  destruct (verify_request r token) as [[]|[| |]] eqn:Hv; try done; [by eapply admit_joiner_good|].
  apply good_bind, good_access. intros s4 _ _. destruct (_ <? _)%Z; [done|]. split_and!; [done|apply update_later; by intros row4 _|]. apply good_bind.
  destruct (_ <=? _)%Z; [by apply orderly_revoke|done].
Qed.

(** The methods as threads: what was asked and what was answered. *)
Inductive InviteOp :=
| OpRedeem (r : JoinRequest)
| OpCreate (invite token : list ascii) (name : option string) (lifetime_ms : Z) (transports : list string) (person : string) (migrate : bool)
| OpRevoke (invite reason : string) (person : option string)
| OpRemove (name reason person : string)
| OpLeave (person : string)
| OpSweep.
Inductive InviteAnswer := Redemption (r : JoinRequest) (a : FleetRedemption) | Finished.

Definition thread_of (op : InviteOp) : program InviteAnswer :=
  match op with
  | OpRedeem r => let* a := redeem_fleet_invite r in Done (Redemption r a)
  | OpCreate invite token name lifetime transports person migrate => let* _ := create_fleet_invite invite token name lifetime transports person migrate in Done Finished
  | OpRevoke invite reason person => let* _ := revoke_fleet_invite invite reason person in Done Finished
  | OpRemove name reason person => let* _ := remove_fleet_member name reason person in Done Finished
  | OpLeave person => let* _ := leave_fleet person in Done Finished
  | OpSweep => let* _ := has_open_fleet_invites in Done Finished
  end.
Definition is_thread (p : program InviteAnswer) : Prop := ∃ op, p = thread_of op.
(** Everything else that the store does leaves the table of invites alone. *)
Definition leaves_invites (s s' : InviteStore) : Prop := is_invites s' = is_invites s.
Definition invite_step : InviteStore * list (program InviteAnswer) → PoolEvent InviteAnswer → InviteStore * list (program InviteAnswer) → Prop :=
  pool_step is_thread leaves_invites.

Definition answer_ok (a : InviteAnswer) (s : InviteStore) : Prop := match a with Redemption r a => redemption_ok r a s | Finished => True end.

Lemma threads_good p : is_thread p → ∀ s, good p s answer_ok.
Proof.
  intros [op ->] s. assert (∀ A (p : program A), orderly p → good (let* _ := p in Done Finished) s answer_ok) as Hrest by (intros A p Hp; by apply good_bind, Hp).
  destruct op; cbn [thread_of]; [|apply Hrest..].
  - apply good_bind. eapply good_mono; [|apply redeem_good]. by intros a s'.
  - apply orderly_create.
  - apply orderly_revoke.
  - apply orderly_remove.
  - apply orderly_leave.
  - apply orderly_bind; [apply orderly_sweep|intros _; apply orderly_reads].
Qed.

Lemma redemptions_ok s0 tr s ps : run invite_step (s0, []) tr (s, ps) →
  ∀ r token floor claim first, Redemption r (JoinAdmitted token floor claim first) ∈ answers tr → redeemed_by s r token floor.
Proof.
  intros Hrun r token floor claim first Ha.
  refine (proj2 (proj2 (pool_good is_thread leaves_invites invites_later (λ _, True) answer_ok s0 tr s ps _ threads_good _ I Hrun)) _ Ha).
  - intros [r' [| |token' floor' claim' first']|] s1 s2 Hs; try done. by apply redeemed_later.
  - intros s1 s2 _ Hs. split; [done|by apply invites_later_same].
Qed.

(** C7: whatever requests are made, however their accesses interleave with each other, with
    removals, revocations and new invites, and whatever else the store does, an invite admits
    one joiner: each admission it answers was for a request that proved a token the invite
    held, meets its terms, and has the key and the name the invite is bound to.  So two
    admissions through one invite are of the same key and name, with the same floor. *)
Theorem invite_admits_one s0 tr s ps r token floor claim first r' token' floor' claim' first' :
  run invite_step (s0, []) tr (s, ps) →
  Redemption r (JoinAdmitted token floor claim first) ∈ answers tr → Redemption r' (JoinAdmitted token' floor' claim' first') ∈ answers tr →
  redeemed_by s r token floor ∧
  (jr_invite r' = jr_invite r → (jr_member_key r', jr_name r', floor') = (jr_member_key r, jr_name r, floor)).
Proof.
  intros Hrun Ha Ha'. pose proof (redemptions_ok _ _ _ _ Hrun _ _ _ _ _ Ha) as Hr. split; [done|]. intros Hi.
  pose proof (redemptions_ok _ _ _ _ Hrun _ _ _ _ _ Ha') as ((row' & Hrow' & Hk' & Hn' & Hf' & _) & _). destruct Hr as ((row & Hrow & Hk & Hn & Hf & _) & _).
  rewrite Hi, Hrow in Hrow'. injection Hrow' as <-. congruence.
Qed.

(** ** Bad proofs burn an invite *)

(** An invite that can be redeemed now. *)
Record live (s : InviteStore) (invite : string) (row : InviteRow) : Prop := {
  live_row : is_invites s !! invite = Some row;
  live_token : is_Some (fi_token row);
  live_time : expired (is_now s) row = false;
  live_claims : revoked_claim (is_fleet s) invite = false
}.
(** The requests, one after the other. *)
Fixpoint redeem_each (rs : list JoinRequest) (s : InviteStore) : list (result FleetRedemption St3Error) * InviteStore :=
  match rs with
  | [] => ([], s)
  | r :: rs => let x := exec (redeem_fleet_invite r) s in let y := redeem_each rs x.2 in (x.1 :: y.1, y.2)
  end.

Lemma sweep_lookup s invite row : is_invites s !! invite = Some row → is_invites (sweep s) !! invite = Some (sweep_row s invite row).
Proof. intros Hr. cbn. by rewrite map_lookup_imap, Hr. Qed.
Lemma live_sweep s invite row : live s invite row → is_invites (sweep s) !! invite = Some row.
Proof. intros [Hr _ Ht Hc]. rewrite (sweep_lookup _ _ _ Hr). unfold sweep_row. rewrite Ht, Hc. by rewrite andb_false_r. Qed.
Lemma any_token_row s invite row : is_invites s !! invite = Some row → is_Some (fi_token row) → any_token s = true.
Proof. intros Hr Ht. apply bool_decide_eq_true_2. by exists invite, row. Qed.

(** Up to the decision, for an invite that is live. *)
Lemma exec_redeem_live r s row text token :
  live s (jr_invite r) row → fi_token row = Some text → token_bytes text = Some token →
  exec (redeem_fleet_invite r) s =
  exec (match verify_request r token with
        | Ok _ => admit_joiner r token row
        | Err FaultProof =>
            let failures := (fi_failures row + 1)%Z in
            let* _ := access (λ s, if (i64_max <? failures)%Z then Err (internal "out of range integral type conversion attempted")
                                   else Ok (tt, (update_invite (jr_invite r) (λ _, true) (set_failures failures) s).2)) in
            let* _ := if (FLEET_INVITE_FAILURE_LIMIT <=? failures)%Z then revoke_fleet_invite (jr_invite r) "too-many-failures" None else Done tt in
            Done (Refused "proof")
        | Err _ => Done (Refused "request")
        end) (sweep s).
Proof.
  intros Hl Ht Hb. pose proof (live_sweep _ _ _ Hl) as Hr. unfold redeem_fleet_invite, has_open_fleet_invites. rewrite !exec_bind. unfold sweep_fleet_invites, writes, reads.
  rewrite exec_access, exec_access, (any_token_row _ _ _ Hr (live_token _ _ _ Hl)). cbn [negb]. rewrite exec_bind, exec_access, Hr. cbn [mbind option_bind]. rewrite Ht. cbn [mbind option_bind]. by rewrite Hb.
Qed.

(** An invite without its token admits nobody any more. *)
Definition burned (s : InviteStore) (invite : string) : Prop := ∃ row, is_invites s !! invite = Some row ∧ fi_token row = None.
Lemma burned_later s s' invite : invites_later s s' → burned s invite → burned s' invite.
Proof.
  intros Hl (row & Hr & Ht). destruct (Hl _ _ Hr) as (row' & Hr' & Hrl). exists row'. split; [done|]. destruct (fi_token row') eqn:E; [|done].
  apply (rl_token _ _ Hrl) in E. congruence.
Qed.
Lemma exec_redeem_burned r s : burned s (jr_invite r) → (exec (redeem_fleet_invite r) s).1 ∈ [Ok Closed; Ok (Refused "unknown-invite")].
Proof.
  intros Hb. pose proof (burned_later _ _ _ (sweep_later s) Hb) as (row & Hr & Ht). unfold redeem_fleet_invite, has_open_fleet_invites. rewrite !exec_bind.
  unfold sweep_fleet_invites, writes, reads. rewrite exec_access, exec_access. destruct (any_token (sweep s)); cbn [negb]; [|by left].
  rewrite exec_bind, exec_access, Hr. cbn [mbind option_bind]. rewrite Ht. cbn. set_solver.
Qed.

Section burning.
Context `{!ClaimsGraphLaws}.
Variable invite : string.
(** Claims can be written and sealed. *)
Hypothesis append_works : ∀ t, ∃ id t', graph_append (revoked_input invite "too-many-failures" None) t = Ok (id, t').
Hypothesis snapshot_works : ∀ t, ∃ t', graph_snapshot t = Ok t'.

Lemma exec_revoke_burns s row : is_invites s !! invite = Some row → ∃ s', exec (revoke_fleet_invite invite "too-many-failures" None) s = (Ok tt, s') ∧ burned s' invite.
Proof.
  intros Hr. destruct (append_works (is_fleet s)) as (id & t & Ha). destruct (append_stores _ _ _ _ Ha) as (c & Hc & Hs & Hk & _).
  destruct (snapshot_works t) as [t' Hsnap]. unfold revoke_fleet_invite. rewrite !exec_bind. unfold append_claim_of. rewrite exec_access, Ha. cbn [result_bind fst snd].
  rewrite exec_bind. unfold sweep_fleet_invites, writes, replication_snapshot. rewrite exec_access, exec_access. cbn [is_fleet set_fleet sweep set_invites]. rewrite Hsnap. cbn [result_bind].
  eexists. split; [reflexivity|]. exists (sweep_row (set_fleet t s) invite row). cbn. split; [by rewrite map_lookup_imap, Hr|]. unfold sweep_row.
  assert (revoked_claim (is_fleet (set_fleet t s)) invite = true) as -> by (apply bool_decide_eq_true_2; by exists id, c).
  destruct (fi_token row) eqn:E; [|done]. rewrite bool_decide_true by done. by rewrite orb_true_r.
Qed.

(** One bad proof. *)
Lemma exec_bad_proof r s row text token :
  jr_invite r = invite → live s invite row → fi_token row = Some text → token_bytes text = Some token → verify_request r token = Err FaultProof →
  (0 <= fi_failures row < FLEET_INVITE_FAILURE_LIMIT)%Z →
  let failures := (fi_failures row + 1)%Z in
  ∃ s', exec (redeem_fleet_invite r) s = (Ok (Refused "proof"), s') ∧
    if (FLEET_INVITE_FAILURE_LIMIT <=? failures)%Z then burned s' invite else live s' invite (set_failures failures row).
Proof.
  intros Hi Hl Ht Hb Hv Hf failures. rewrite (exec_redeem_live r s row text token), Hv, Hi by (by rewrite ?Hi). cbv zeta. fold failures.
  pose proof (live_sweep _ _ _ Hl) as Hr. rewrite exec_bind, exec_access.
  assert ((i64_max <? failures)%Z = false) as -> by (unfold failures, FLEET_INVITE_FAILURE_LIMIT in *; apply Z.ltb_ge; assert (5 <= i64_max)%Z by done; lia).
  unfold update_invite. rewrite Hr. cbn [snd]. set (s1 := set_invites _ (sweep s)). assert (is_invites s1 !! invite = Some (set_failures failures row)) as Hr1 by apply lookup_insert_eq.
  rewrite exec_bind. destruct (_ <=? _)%Z.
  - destruct (exec_revoke_burns s1 _ Hr1) as (s2 & -> & Hburn). by exists s2.
  - cbn [exec]. exists s1. split; [done|]. destruct Hl as [_ Htok Htime Hcl]. by split.
Qed.

(** C26: with no other thread between them, bad proofs are counted: each is refused as such,
    with fewer than five the invite stays as it was, and the fifth burns it.  The token is
    gone and, whatever happens later, no request for the invite is admitted. *)
Theorem bad_proofs_burn_invite s row text token rs :
  live s invite row → fi_token row = Some text → token_bytes text = Some token → (0 <= fi_failures row < FLEET_INVITE_FAILURE_LIMIT)%Z →
  Forall (λ r, jr_invite r = invite ∧ verify_request r token = Err FaultProof) rs →
  (fi_failures row + Z.of_nat (length rs) <= FLEET_INVITE_FAILURE_LIMIT)%Z →
  let (answers, s') := redeem_each rs s in
  answers = replicate (length rs) (Ok (Refused "proof")) ∧
  if (fi_failures row + Z.of_nat (length rs) <? FLEET_INVITE_FAILURE_LIMIT)%Z
  then live s' invite (set_failures (fi_failures row + Z.of_nat (length rs)) row)
  else ∀ s'' r, invites_later s' s'' → jr_invite r = invite → (exec (redeem_fleet_invite r) s'').1 ∈ [Ok Closed; Ok (Refused "unknown-invite")].
Proof.
  revert s row. induction rs as [|r rs IH]; intros s row Hl Ht Hb Hf Hrs Hn.
  { cbn. rewrite Z.add_0_r. split; [done|]. rewrite (proj2 (Z.ltb_lt _ _)) by lia. by destruct row. }
  apply Forall_cons in Hrs as [[Hi Hv] Hrs]. destruct (exec_bad_proof r s row text token Hi Hl Ht Hb Hv Hf) as (s1 & E & Hs1). cbn [redeem_each length]. rewrite E. cbn [fst snd].
  cbn [length] in Hn. rewrite Nat2Z.inj_succ in Hn. destruct (_ <=? _)%Z eqn:Hle in Hs1.
  - apply Z.leb_le in Hle. destruct rs; [|exfalso; cbn [length] in Hn; lia]. cbn [redeem_each fst snd length replicate]. split; [done|].
    rewrite (proj2 (Z.ltb_ge _ _)) by lia. intros s'' r'' Hs'' Hi''. apply exec_redeem_burned. rewrite Hi''. by eapply burned_later.
  - apply Z.leb_gt in Hle. specialize (IH s1 (set_failures (fi_failures row + 1) row) Hs1 Ht Hb). cbn [set_failures fi_failures] in IH.
    specialize (IH ltac:(lia) Hrs ltac:(lia)). destruct (redeem_each rs s1) as [answers s2]. cbn [fst snd]. destruct IH as [-> IH]. split; [done|].
    replace (fi_failures row + Z.of_nat (Datatypes.S (length rs)))%Z with (fi_failures row + 1 + Z.of_nat (length rs))%Z by lia. exact IH.
Qed.
End burning.

(** ** A name that is joined again starts above its history *)

Lemma list_max_Some l m : list_max l = Some m → ∀ z, z ∈ l → (z <= m)%Z.
Proof.
  unfold list_max. destruct (list_min (Z.opp <$> l)) as [n|] eqn:E; [|done]. intros [= <-] z Hz. apply list_min_Some in E as [_ Hmin].
  specialize (Hmin (- z)%Z ltac:(apply list_elem_of_fmap; by exists z)). lia.
Qed.
Lemma list_max_None l : list_max l = None → l = [].
Proof. unfold list_max. destruct (list_min (Z.opp <$> l)) eqn:E; [done|]. intros _. apply list_min_None in E. by apply fmap_nil_inv in E. Qed.

(** The membership in memory is the tables', when the generation did not move
    (FleetStore.v). *)
Definition cache_ok (s : InviteStore) : Prop :=
  ∀ folded_at m, is_cache s = Some (folded_at, m) → folded_at = ft_generation (is_fleet s) → m = fleet_membership_tx (is_fleet s).

Lemma exec_membership s m s' : cache_ok s → exec fleet_membership s = (Ok m, s') → m = fleet_membership_tx (is_fleet s').
Proof.
  intros Hc. assert (exec fold_membership s = (Ok m, s') → m = fleet_membership_tx (is_fleet s')) as Hfold.
  { unfold fold_membership, replication_snapshot, reads, writes. rewrite exec_bind, exec_access. destruct (graph_snapshot (is_fleet s)) as [t|e]; [|done]. cbn [result_bind].
    by intros [= <- <-]. }
  unfold fleet_membership, reads. rewrite exec_bind, exec_access, exec_bind, exec_access. destruct (is_cache s) as [[g m']|] eqn:Ec; [|done].
  destruct (_ =? _)%Z eqn:Eg; [|done]. apply Z.eqb_eq in Eg. intros [= <- <-]. by eapply Hc.
Qed.

Lemma claim_ids_NoDup t : NoDup (fc_id <$> fleet_claims_with_signers t None).
Proof.
  induction (fleet_claims_sorted t None) as [|f l Hl IH Hf]; cbn; constructor; [|done]. rewrite list_elem_of_fmap. intros (g & E & Hg). rewrite Forall_forall in Hf.
  apply Hf in Hg. unfold key_lt in Hg. rewrite E in Hg. by apply lt_ord_irrefl in Hg.
Qed.
Lemma membership_claimed t name i : i ∈ incarnations_of (fleet_membership_tx t) name → name_claimed t name = true.
Proof.
  unfold fleet_membership_tx, fleet_membership_tx_with_local_signer. destruct (ft_anchor t) as [anchor|]; [|by intros Hi%not_elem_of_nil].
  set (claims := fleet_claims_with_signers t None). pose proof (claim_ids_NoDup t : NoDup (fc_id <$> claims)) as Hd.
  destruct (fold_build anchor claims Hd) as (valid & -> & _). intros (all & Hg & Hi)%elem_of_incarnations_of.
  assert (all_inc (λ name _, ∃ c, c ∈ claims ∧ fc_name c = Some name) (mb_incarnations (build anchor (fleet_claims claims) valid))) as Hall.
  { apply build_incarnations; [done| |].
    - intros inc c Hc%fleet_claims_elem _ _. apply admit_all_inc. intros n key Hn _. by exists c.
    - intros inc n key f Hf. apply all_inc_update; [|done]. intros n2 i2 j2 _ _ _ Hex. exact Hex. }
  destruct (Hall _ _ _ Hg Hi) as (c & Hc & Hn). apply elem_of_fleet_claims in Hc. unfold fleet_claim in Hc.
  destruct (ft_claims t !! fc_id c) as [r|] eqn:Er; [|done]. cbn [mbind option_bind] in Hc. destruct (fleet_kind (cm_kind r)) eqn:Ek; [|done].
  destruct (batch_of t (cm_batch_id r)); [|done]. cbn [mbind option_bind] in Hc. apply (f_equal (fmap fc_subject)) in Hc. injection Hc as Hs.
  unfold fc_name in Hn. apply strip_prefix_Some in Hn. rewrite <-Hs in Hn.
  apply bool_decide_eq_true_2. exists (fc_id c), r. done.
Qed.

(** A fleet claim as it is folded, with what a request asked for. *)
Definition carries (c : FleetClaim) (input : ClaimInput) : Prop :=
  fc_kind c = in_kind input ∧ fc_subject c = in_subject input ∧ ∀ k, bmap_get k (fc_fields c) = in_fields input !! k.

Lemma admitted_start c fleet_id r migrate floor created_by name key :
  carries c (admitted_input origin fleet_id r migrate floor created_by) → is_none_or (λ f, f <=? i64_max)%Z floor = true →
  inc_start (admitted_incarnation c name key) = (default 0 floor + 1)%Z.
Proof.
  intros (_ & _ & Hc) Hf. cbn [admitted_incarnation inc_start]. unfold fc_number. rewrite Hc.
  assert ((in_fields (admitted_input origin fleet_id r migrate floor created_by) !! "writer_floor") ≫= as_u64 = floor) as -> by (by destruct floor, created_by).
  apply sadd64_exact. assert (i64_max + 1 <= u64_max)%Z by done. destruct floor as [f|]; [|done]. cbn in *. apply Z.leb_le in Hf. lia.
Qed.

Lemma fold_tx_wf t : Forall claim_numbers_wf (fleet_claims_with_signers t None) → membership_wf (fleet_membership_tx t).
Proof.
  intros Hn. unfold fleet_membership_tx, fleet_membership_tx_with_local_signer. destruct (ft_anchor t); [apply fold_wf; [apply claim_ids_NoDup|done]|].
  split_and!; [done|done|constructor].
Qed.

Lemma state_free m name : name_in_use m name = false → ∀ i, i ∈ incarnations_of m name → is_Some (inc_end i) ∧ ∃ last, state m name = Ended last.
Proof.
  unfold name_in_use. intros Hu i Hi. assert (List.filter (λ i, bool_decide (inc_end i = None)) (incarnations_of m name) = []) as Hnone.
  { destruct (state m name) eqn:E in Hu; unfold state in E; repeat case_match; done. }
  split.
  - destruct (inc_end i) eqn:E; [done|]. assert (i ∈ List.filter (λ i, bool_decide (inc_end i = None)) (incarnations_of m name)) as Hin.
    { apply filter_elem_of. split; [done|]. by rewrite E. }
    rewrite Hnone in Hin. by apply not_elem_of_nil in Hin.
  - unfold state. rewrite Hnone. destruct (latest (incarnations_of m name)) as [last|] eqn:El; [by exists last|].
    destruct (incarnations_of m name) as [|j l]; [by apply not_elem_of_nil in Hi|]. cbn in El. destruct (latest l); [|done]. by destruct (_ <? _)%Z.
Qed.

(** Every window of the name that ended, ended by [ended_end]. *)
Lemma ended_end_above m name e i : membership_wf m → name_in_use m name = false → ended_end m name = Some e → i ∈ incarnations_of m name →
  ∀ last, inc_end i = Some last → (last <= e)%Z.
Proof.
  intros Hwf Hu He Hi last Hl. destruct (state_free _ _ Hu i Hi) as [_ [latest Hst]]. unfold ended_end in He. rewrite Hst in He.
  apply (list_max_Some _ _ He). apply list_elem_of_omap. exists i. split; [|done]. apply filter_elem_of.
  assert (inc_name i = name) as Hn.
  { apply elem_of_incarnations_of in Hi as (all & Hg & Hi). by destruct Hwf as [Ha _], (Ha _ _ _ Hg Hi). }
  rewrite incarnations_of_elem, Hn by done. split; [done|]. by rewrite String.eqb_refl.
Qed.

(** What is known of a name when it is given a floor. *)
Lemma exec_floor name wrote s floor s' :
  cache_ok s → exec (fleet_name_floor name wrote false) s = (Ok (Ok floor), s') →
  let m := fleet_membership_tx (is_fleet s') in
  name_in_use m name = false ∧
  match floor with
  | None => held_sequences (is_fleet s') name = [] ∧ name_claimed (is_fleet s') name = false
  | Some floor => ∃ e, ended_end m name = Some e ∧ (e <= floor)%Z ∧ ∀ seq, seq ∈ held_sequences (is_fleet s') name → (seq <= floor)%Z
  end.
Proof.
  intros Hc. unfold fleet_name_floor. rewrite exec_bind. destruct (exec fleet_membership s) as [[m|e] s1] eqn:Em; [|done]. apply exec_membership in Em; [|done].
  destruct (name_in_use m name) eqn:Hu; [by intros [= ]|]. unfold reads. rewrite exec_bind, exec_access, exec_bind, exec_access. cbn [exec].
  set (held := writer_high_water (is_fleet s1) name). set (claimed := name_claimed (is_fleet s1) name). intros [= Hfl <-]. rewrite <-Em. split; [done|].
  destruct (bool_decide (held = None) && negb claimed) eqn:Hnone.
  - injection Hfl as <-. apply andb_true_iff in Hnone as [Hh%bool_decide_eq_true Hcl%negb_true_iff]. split; [by apply list_max_None|done].
  - destruct (ended_end m name) as [e|] eqn:Ee; [|done]. destruct wrote; [done|]. injection Hfl as <-. exists e. split_and!; [done|lia|].
    intros seq Hseq. unfold held, writer_high_water. destruct (list_max _) as [top|] eqn:Et; [|apply list_max_None in Et; rewrite Et in Hseq; by apply not_elem_of_nil in Hseq].
    pose proof (list_max_Some _ _ Et seq Hseq). cbn. lia.
Qed.

(** C19: a name that is given a floor for a join is free, and the window that the joiner's
    admission opens lies above everything known of the name: no sequence that is held, was
    trimmed, was retired or heads the writer is in it, and no sequence of an ended window is.
    Above the floor the window has every sequence. *)
Theorem rejoin_window_fresh s wrote r floor s' fleet_id created_by c :
  cache_ok s → exec (fleet_name_floor (jr_name r) wrote false) s = (Ok (Ok floor), s') →
  Forall claim_numbers_wf (fleet_claims_with_signers (is_fleet s') None) → is_none_or (λ f, f <=? i64_max)%Z floor = true →
  carries c (admitted_input origin fleet_id r false floor created_by) →
  let new := admitted_incarnation c (jr_name r) (jr_member_key r) in
  (∀ seq, seq ∈ held_sequences (is_fleet s') (jr_name r) → holds new seq = false) ∧
  (∀ i, i ∈ incarnations_of (fleet_membership_tx (is_fleet s')) (jr_name r) → is_Some (inc_end i) ∧ ∀ seq, holds i seq = true → holds new seq = false) ∧
  ∀ seq, (default 0 floor < seq)%Z → holds new seq = true.
Proof.
  intros Hc Hex Hn Hf Hcar new. destruct (exec_floor _ _ _ _ _ Hc Hex) as [Hu Hknown]. pose proof (admitted_start _ _ _ _ _ _ (jr_name r) (jr_member_key r) Hcar Hf) as Hstart. fold new in Hstart.
  assert (∀ seq, (seq <= default 0 floor)%Z → holds new seq = false) as Hbelow by (intros seq Hs; unfold holds; rewrite Hstart; apply andb_false_intro1, Z.leb_gt; lia).
  assert (∀ i, i ∈ incarnations_of (fleet_membership_tx (is_fleet s')) (jr_name r) → ∃ f, floor = Some f) as Hsome.
  { intros i Hi. destruct floor as [f|]; [by exists f|]. destruct Hknown as [_ Hno]. apply membership_claimed in Hi. congruence. }
  split_and!.
  - intros seq Hs. destruct floor as [f|]; [|destruct Hknown as [E _]; rewrite E in Hs; by apply not_elem_of_nil in Hs]. destruct Hknown as (e & _ & _ & Hk). by apply Hbelow, Hk.
  - intros i Hi. destruct (state_free _ _ Hu i Hi) as [[last Hl] _]. split; [by rewrite Hl|]. intros seq. unfold holds at 1. rewrite Hl. intros [_ Hs%Z.leb_le]%andb_true_iff.
    destruct (Hsome i Hi) as [f ->]. destruct Hknown as (e & He & Hef & _). pose proof (ended_end_above _ _ _ _ (fold_tx_wf _ Hn) Hu He Hi _ Hl). apply Hbelow. cbn. lia.
  - intros seq Hs. unfold holds. rewrite Hstart. cbn [new admitted_incarnation inc_end is_none_or]. rewrite andb_true_r. apply Z.leb_le. lia.
Qed.
End invites.
