(* ===== verification/JoinRoute.v ===== *)
(** * The join route (crates/smallclaims/src/sync/worker.rs: [receive_join];
    sync/backend.rs: [redemption_answer], [redeem])

    A sponsor answers a join request with what its store decides, sealed for the joiner.  The
    theorem puts the store, the route and the handshake together: a joiner that holds the
    code of an open invite is answered, opens the answer and holds what it needs to be a
    member; and when the answer is lost, it can ask again. *)

From stdpp Require Import gmap.
From S2P Require Import Prelude BTree Json Membership FleetView Principal Keyring JoinCode Digests Retired WriterHeads FleetStore Admission Idempotency Inventory PeerAuth Handshake Threads Invites.

Local Open Scope string_scope.
Local Open Scope claims_scope.

(** What the route sends back. *)
Inductive RouteAnswer :=
| NotFound
| Forbidden (code : string)
| Unavailable
| Answer (response : JoinResponse).

Section route.
Context `{Crypto} `{AuthCrypto} `{JoinCrypto} `{Hex} `{ClaimsGraph}.
(** [serde_json::from_slice] of a request. *)
Variable request_from_slice : list ascii → option JoinRequest.
Variable node : string.
Variable auth : FleetAuth.

Definition text_value (text : option string) : Value := match text with Some text => VString text | None => Null end.

(** [redemption_answer] *)
Definition redemption_answer (redemption : FleetRedemption) : program Value :=
  match redemption with
  | Closed => Done (Object [("status", VString "closed")])
  | Refused reason => Done (Object [("status", VString "refused"); ("reason", VString reason)])
  | JoinAdmitted token writer_floor admitted_claim _ =>
      let* anchor_key := reads (λ s, ft_anchor (is_fleet s)) in
      let* fleet_id := reads is_fleet_id in
      Done (Object [("status", VString "admitted"); ("token", VString (hex_encode token));
                    ("writer_floor", match writer_floor with Some floor => value_u64 floor | None => Null end);
                    ("admitted_claim", text_value admitted_claim); ("anchor_key", text_value anchor_key); ("fleet_id", text_value fleet_id);
                    ("fabric_protocol", Null)])
  end.
Definition redeem (r : JoinRequest) : program Value :=
  let* redemption := redeem_fleet_invite node r in
  redemption_answer redemption.

(** What is sealed, from the answer of the store. *)
Definition answer_text (answer : Value) (field : string) : option string := value_get field answer ≫= as_str.
Definition sealed_payload (r : JoinRequest) (answer : Value) : SealedJoin :=
  {| sj_fleet_id := default (fa_fleet_id auth) (answer_text answer "fleet_id");
     sj_secret := if jr_migrate r then None else Some (hex_encode (fa_secret auth));
     sj_anchor_key := default "" (answer_text answer "anchor_key"); sj_sponsor := node;
     sj_writer_floor := value_get "writer_floor" answer ≫= as_u64; sj_fabric_protocol := answer_text answer "fabric_protocol";
     sj_admitted_claim := answer_text answer "admitted_claim" |}.

(** [receive_join], with the ephemeral key and the nonce that sealing draws. *)
Definition receive_join (ephemeral nonce body : list ascii) : program RouteAnswer :=
  match request_from_slice body with
  | None => Done (Forbidden "invite-invalid")
  | Some request =>
      match fa_member auth with
      | None => Done NotFound
      | Some member =>
          let* answer := catch (redeem request) in
          match answer with
          | Err _ => Done Unavailable
          | Ok answer =>
              let status := answer_text answer "status" in
              if bool_decide (status = Some "admitted") then
                match answer_text answer "token" ≫= hex_decode with
                | None => Done Unavailable
                | Some token =>
                    match seal_response ephemeral nonce request token node member (sealed_payload request answer) with
                    | Ok response => Done (Answer response)
                    | Err _ => Done Unavailable
                    end
                end
              else if bool_decide (status = Some "closed") then Done NotFound
              else Done (Forbidden "invite-invalid")
          end
      end
  end.

(** ** Reading changes no invite *)

Definition same_invites (s s' : InviteStore) : Prop := is_invites s' = is_invites s ∧ is_fleet_id s' = is_fleet_id s.
Lemma exec_membership_same s a s' : exec fleet_membership s = (a, s') → same_invites s s'.
Proof.
  assert (∀ a s', exec fold_membership s = (a, s') → same_invites s s') as Hfold.
  { intros b s1. unfold fold_membership, replication_snapshot, reads, writes. rewrite exec_bind, exec_access. destruct (graph_snapshot (is_fleet s)); cbn [result_bind]; by intros [= _ <-]. }
  unfold fleet_membership, reads. rewrite exec_bind, exec_access, exec_bind, exec_access. destruct (is_cache s) as [[g m]|]; [|apply Hfold].
  destruct (_ =? _)%Z; [|apply Hfold]. by intros [= _ <-].
Qed.
Lemma exec_floor_same name wrote migrate s a s' : exec (fleet_name_floor name wrote migrate) s = (a, s') → same_invites s s'.
Proof.
  unfold fleet_name_floor. rewrite exec_bind. destruct (exec fleet_membership s) as [[m|e] s1] eqn:Em; apply exec_membership_same in Em; [|by intros [= _ <-]].
  destruct (name_in_use m name); [by intros [= _ <-]|]. destruct migrate; [by intros [= _ <-]|]. unfold reads. rewrite exec_bind, exec_access, exec_bind, exec_access. by intros [= _ <-].
Qed.

(** ** Joining *)

Section joining.
Context `{!ClaimsGraphLaws}.
(** Claims can be written and sealed. *)
Hypothesis append_works : ∀ input t, ∃ id t', graph_append input t = Ok (id, t').
Hypothesis snapshot_works : ∀ t, ∃ t', graph_snapshot t = Ok t'.

Lemma exec_append input s : ∃ id t, exec (append_claim_of input) s = (Ok id, set_fleet t s) ∧ graph_append input (is_fleet s) = Ok (id, t).
Proof. destruct (append_works input (is_fleet s)) as (id & t & Ha). exists id, t. unfold append_claim_of. by rewrite exec_access, Ha. Qed.
Lemma exec_snapshot s : ∃ t, exec replication_snapshot s = (Ok tt, set_fleet t s) ∧ graph_snapshot (is_fleet s) = Ok t.
Proof. destruct (snapshot_works (is_fleet s)) as [t Ht]. exists t. unfold replication_snapshot. by rewrite exec_access, Ht. Qed.

(** The store holds the claim that was asked for. *)
Definition stored (s : InviteStore) (id : string) (input : ClaimInput) : Prop :=
  ∃ c, ft_claims (is_fleet s) !! id = Some c ∧ cm_subject c = in_subject input ∧ cm_kind c = in_kind input ∧ ∀ k, bmap_get k (fields_of (cm_body c)) = in_fields input !! k.

Lemma exec_admission r migrate floor created_by s fleet_id row :
  is_fleet_id s = Some fleet_id → is_invites s !! jr_invite r = Some row →
  ∃ claim s', exec (append_fleet_admission node r migrate floor created_by) s = (Ok claim, s') ∧
    is_invites s' !! jr_invite r = Some (set_admitted claim row) ∧ is_fleet_id s' = Some fleet_id ∧ is_now s' = is_now s ∧
    stored s' claim (admitted_input node fleet_id r migrate floor created_by).
Proof.
  intros Hid Hr. unfold append_fleet_admission, reads, writes. rewrite exec_bind, exec_access, Hid, exec_bind.
  destruct (exec_append (redeemed_input r) s) as (id1 & t1 & -> & _). rewrite exec_bind.
  destruct (exec_append (admitted_input node fleet_id r migrate floor created_by) (set_fleet t1 s)) as (id2 & t2 & -> & Ha2). rewrite exec_bind, exec_access. unfold update_invite.
  cbn [is_invites set_fleet]. rewrite Hr. cbn [snd]. rewrite exec_bind. destruct (exec_snapshot (set_invites (<[jr_invite r:=set_admitted id2 row]> (is_invites s)) (set_fleet t2 (set_fleet t1 s)))) as (t3 & -> & Hsnap).
  cbn [exec]. exists id2. eexists. split; [reflexivity|]. cbn [is_invites set_fleet set_invites is_fleet_id is_now is_fleet]. rewrite lookup_insert_eq. split_and!; [done..|].
  destruct (append_stores _ _ _ _ Ha2) as (c & Hc & Hrest). exists c. split; [|done]. cbn. eapply lookup_weaken; [exact Hc|]. by apply (snapshot_keeps t2 t3).
Qed.

(** The request meets the terms of the invite. *)
Record meets (r : JoinRequest) (row : InviteRow) : Prop := {
  meets_kind : jr_migrate r = fi_migrate row;
  meets_pin : is_none_or (λ pinned, String.eqb pinned (jr_name r)) (fi_name row) = true;
  meets_name : valid_fleet_node_name (jr_name r) = true;
  meets_mode : String.eqb (jr_mode r) "listening" || String.eqb (jr_mode r) "dial-out" = true
}.
Lemma admit_meets r token row : meets r row → admit_joiner node r token row =
  match fi_bound_key row with
  | Some bound =>
      if negb (String.eqb bound (jr_member_key r)) || negb (bool_decide (fi_bound_name row = Some (jr_name r))) then Done (Refused "bound-to-another-key")
      else match fi_admitted_claim row with
           | Some claim => Done (JoinAdmitted token (fi_writer_floor row) (Some claim) false)
           | None => let* claim := append_fleet_admission node r (fi_migrate row) (fi_writer_floor row) (fi_created_by row) in
                     Done (JoinAdmitted token (fi_writer_floor row) (Some claim) false)
           end
  | None =>
      let* floor := fleet_name_floor (jr_name r) (bool_decide (is_Some (jr_writer_head r))) (fi_migrate row) in
      match floor with
      | Err reason => Done (Refused reason)
      | Ok floor =>
          let* bound := access (λ s, if is_some_and (λ floor, i64_max <? floor)%Z floor then Err (internal "out of range integral type conversion attempted")
                          else Ok (update_invite (jr_invite r)
                            (λ row, bool_decide (fi_bound_key row = None) && bool_decide (is_Some (fi_token row)))
                            (set_bound (jr_member_key r) (jr_name r) floor) s)) in
          if Nat.eqb bound 0 then Done (Refused "bound-to-another-key")
          else let* claim := append_fleet_admission node r (fi_migrate row) floor (fi_created_by row) in Done (JoinAdmitted token floor (Some claim) true)
      end
  end.
Proof.
  intros [Hk Hp Hn Hm]. unfold admit_joiner. rewrite Hk, Bool.eqb_reflx, Hn, Hm. cbn [negb]. rewrite !orb_false_r.
  assert (is_some_and (λ pinned, negb (String.eqb pinned (jr_name r))) (fi_name row) = false) as -> by (destruct (fi_name row); cbn in *; [by rewrite Hp|done]). done.
Qed.

(** A first request, alone. *)
Lemma exec_redeem_first r s row text token floor s1 fleet_id :
  live s (jr_invite r) row → fi_token row = Some text → token_bytes text = Some token → verify_request r token = Ok tt → meets r row → fi_bound_key row = None →
  exec (fleet_name_floor (jr_name r) (bool_decide (is_Some (jr_writer_head r))) (fi_migrate row)) (sweep s) = (Ok (Ok floor), s1) →
  is_none_or (λ f, f <=? i64_max)%Z floor = true → is_fleet_id s = Some fleet_id →
  ∃ claim s', exec (redeem_fleet_invite node r) s = (Ok (JoinAdmitted token floor (Some claim) true), s') ∧
    is_invites s' !! jr_invite r = Some (set_admitted claim (set_bound (jr_member_key r) (jr_name r) floor row)) ∧ is_fleet_id s' = Some fleet_id ∧
    stored s' claim (admitted_input node fleet_id r (fi_migrate row) floor (fi_created_by row)).
Proof.
  intros Hl Ht Hb Hv Hm Hfree Hfloor Hrange Hid. rewrite (exec_redeem_live _ r s row text token Hl Ht Hb), Hv, (admit_meets _ _ _ Hm), Hfree, exec_bind, Hfloor.
  destruct (exec_floor_same _ _ _ _ _ _ Hfloor) as [Hinv Hid1]. pose proof (live_sweep _ _ _ Hl) as Hr. rewrite <-Hinv in Hr. rewrite exec_bind, exec_access.
  assert (is_some_and (λ f, i64_max <? f)%Z floor = false) as -> by (destruct floor; cbn in *; [by rewrite Z.ltb_antisym, Hrange|done]).
  unfold update_invite. rewrite Hr, Hfree, Ht. rewrite !bool_decide_true by done. cbn [andb Nat.eqb]. set (s2 := set_invites _ s1). rewrite exec_bind.
  destruct (exec_admission r (fi_migrate row) floor (fi_created_by row) s2 fleet_id (set_bound (jr_member_key r) (jr_name r) floor row)) as (claim & s3 & -> & Hr3 & Hid3 & _ & Hst).
  - change (is_fleet_id s1 = Some fleet_id). by rewrite Hid1.
  - apply lookup_insert_eq.
  - exists claim, s3. by split_and!.
Qed.

(** A request of the joiner that is bound already. *)
Lemma exec_redeem_again r s row text token claim :
  live s (jr_invite r) row → fi_token row = Some text → token_bytes text = Some token → verify_request r token = Ok tt → meets r row →
  fi_bound_key row = Some (jr_member_key r) → fi_bound_name row = Some (jr_name r) → fi_admitted_claim row = Some claim →
  exec (redeem_fleet_invite node r) s = (Ok (JoinAdmitted token (fi_writer_floor row) (Some claim) false), sweep s).
Proof.
  intros Hl Ht Hb Hv Hm Hk Hn Hc. rewrite (exec_redeem_live _ r s row text token Hl Ht Hb), Hv, (admit_meets _ _ _ Hm), Hk, String.eqb_refl, Hn, Hc.
  by rewrite bool_decide_true.
Qed.

(** ** The answer opens *)

Context `{!JoinLaws}.
Hypothesis hex_undone : ∀ bytes, hex_decode (hex_encode bytes) = Some bytes.

(** What a joiner holds in the end. *)
Definition joined (s : InviteStore) (code : JoinCode) (floor : option Z) (claim : string) : SealedJoin :=
  {| sj_fleet_id := default (fa_fleet_id auth) (is_fleet_id s); sj_secret := if jc_migrate code then None else Some (hex_encode (fa_secret auth));
     sj_anchor_key := default "" (ft_anchor (is_fleet s)); sj_sponsor := node; sj_writer_floor := floor; sj_fabric_protocol := None;
     sj_admitted_claim := Some claim |}.

Lemma route_answers member sponsor_key code invite name mode head build ephemeral ephemeral' nonce body s floor claim first s' shared :
  let j := start ephemeral code invite member name mode head build in
  request_from_slice body = Some (jn_request j) → fa_member auth = Some sponsor_key →
  (∀ key m, key ∈ [member; sponsor_key] → verify_signature (mk_public key) m (member_sign key m) = true) →
  fingerprint (mk_public sponsor_key) = jc_fingerprint code → length nonce = 12%nat → x25519_agree ephemeral (x25519_public ephemeral') = Some shared →
  exec (redeem_fleet_invite node (jn_request j)) s = (Ok (JoinAdmitted (jc_token code) floor (Some claim) first), s') →
  ∃ response, exec (receive_join ephemeral' nonce body) s = (Ok (Answer response), s') ∧
    open j response = Ok (joined s' code floor claim).
Proof.
  intros j Hbody Hmem Hsig Hfp Hnonce Hsh Hred. set (payload := joined s' code floor claim).
  destruct (join_round_trip ephemeral code invite member name mode head build ephemeral' nonce node sponsor_key payload shared Hsig Hfp Hnonce Hsh) as (_ & response & Hseal & Hopen).
  exists response. split; [|exact Hopen]. unfold receive_join. rewrite Hbody, Hmem, exec_bind, exec_catch. unfold redeem. rewrite exec_bind, Hred. cbn [redemption_answer].
  unfold reads. rewrite exec_bind, exec_access, exec_bind, exec_access. cbn [exec fst snd]. set (answer := Object _).
  assert (answer_text answer "status" = Some "admitted") as -> by done. rewrite bool_decide_true by done.
  assert (answer_text answer "token" ≫= hex_decode = Some (jc_token code)) as -> by (cbn; apply hex_undone).
  assert (sealed_payload (jn_request j) answer = payload) as ->.
  { unfold sealed_payload, payload, joined, answer, answer_text. by destruct (is_fleet_id s'), (ft_anchor (is_fleet s')), floor. }
  fold j in Hseal. by rewrite Hseal.
Qed.

(** C8: a joiner that holds the code of an open invite, meets its terms and may have its name
    is answered, opens the answer with the code's token and fingerprint, and holds the fleet's
    id, secret, anchor and its floor; its admission is a claim of the sponsor's store.  When
    the answer is lost and the invite is still open, the same request is answered again, with
    the same payload and nothing written but erased tokens. *)
Theorem join_completes code invite member sponsor_key name mode head build ephemeral ephemeral' nonce shared body s row floor s1 fleet_id :
  let j := start ephemeral code invite member name mode head build in
  request_from_slice body = Some (jn_request j) → fa_member auth = Some sponsor_key →
  (∀ key m, key ∈ [member; sponsor_key] → verify_signature (mk_public key) m (member_sign key m) = true) →
  fingerprint (mk_public sponsor_key) = jc_fingerprint code → length (jc_token code) = 16%nat →
  live s invite row → fi_token row = Some (hex_encode (jc_token code)) → meets (jn_request j) row → fi_bound_key row = None →
  exec (fleet_name_floor name (bool_decide (is_Some head)) (fi_migrate row)) (sweep s) = (Ok (Ok floor), s1) →
  is_none_or (λ f, f <=? i64_max)%Z floor = true → is_fleet_id s = Some fleet_id →
  length nonce = 12%nat → x25519_agree ephemeral (x25519_public ephemeral') = Some shared →
  ∃ response claim s',
    exec (receive_join ephemeral' nonce body) s = (Ok (Answer response), s') ∧ open j response = Ok (joined s' code floor claim) ∧
    stored s' claim (admitted_input node fleet_id (jn_request j) (fi_migrate row) floor (fi_created_by row)) ∧
    ∀ ephemeral2 nonce2 shared2 row2, length nonce2 = 12%nat → x25519_agree ephemeral (x25519_public ephemeral2) = Some shared2 → live s' invite row2 →
      ∃ response2, exec (receive_join ephemeral2 nonce2 body) s' = (Ok (Answer response2), sweep s') ∧ open j response2 = Ok (joined s' code floor claim).
Proof.
  intros j Hbody Hmem Hsig Hfp Htok Hl Ht Hm Hfree Hfloor Hrange Hid Hnonce Hsh.
  assert (token_bytes (hex_encode (jc_token code)) = Some (jc_token code)) as Hb by (unfold token_bytes; by rewrite hex_undone, Htok).
  assert (verify_request (jn_request j) (jc_token code) = Ok tt) as Hv by (apply start_verifies; intros m; apply Hsig; by left).
  destruct (exec_redeem_first (jn_request j) s row _ _ floor s1 fleet_id Hl Ht Hb Hv Hm Hfree Hfloor Hrange Hid) as (claim & s' & Hred & Hrow & Hid' & Hst).
  destruct (route_answers member sponsor_key code invite name mode head build ephemeral ephemeral' nonce body s floor claim true s' shared Hbody Hmem Hsig Hfp Hnonce Hsh Hred) as (response & Hex & Hopen).
  exists response, claim, s'. split_and!; [done..|]. intros ephemeral2 nonce2 shared2 row2 Hn2 Hsh2 Hl2.
  pose proof (live_row _ _ _ Hl2) as Hr2. change (is_invites s' !! jr_invite (jn_request j) = Some row2) in Hr2. rewrite Hrow in Hr2. injection Hr2 as <-.
  destruct Hm as [M1 M2 M3 M4].
  assert (exec (redeem_fleet_invite node (jn_request j)) s' = (Ok (JoinAdmitted (jc_token code) floor (Some claim) false), sweep s')) as Hred2.
  { by apply (exec_redeem_again (jn_request j) s' (set_admitted claim (set_bound (jr_member_key (jn_request j)) (jr_name (jn_request j)) floor row)) (hex_encode (jc_token code)) (jc_token code) claim). }
  apply (route_answers member sponsor_key code invite name mode head build ephemeral ephemeral2 nonce2 body s' floor claim false (sweep s') shared2 Hbody Hmem Hsig Hfp Hn2 Hsh2 Hred2).
Qed.
End joining.
End route.
