(* ===== verification/InviteExample.v ===== *)
(** * Invites, worked out

    A small claims graph that keeps its laws, and invites of a store that uses it: a joiner
    that asks twice, five bad proofs, a name that is joined again, a whole join, and two
    things that do not hold. *)

From stdpp Require Import gmap pretty.
From S2P Require Import Prelude BTree Json Membership FleetView Principal Keyring JoinCode Digests Retired WriterHeads FleetStore Admission Idempotency Inventory PeerAuth Handshake Threads Invites JoinRoute JoinExample.

Local Open Scope string_scope.
Local Open Scope claims_scope.

(** ** A claims graph *)

Definition toy_body (input : ClaimInput) : Value := Object [("fields", Object (map_to_list (in_fields input)))].
Definition toy_claim (input : ClaimInput) (id : string) : ClaimRecord :=
  {| cm_id := id; cm_batch_id := ""; cm_subject := in_subject input; cm_kind := in_kind input; cm_origin := ""; cm_actor := in_actor input;
     cm_body := toy_body input; cm_predecessors := []; cm_accepted_at_unix_ms := 0 |}.
Definition toy_id (t : FleetTables) : string := fresh (dom (ft_claims t) : gset string).
Definition toy_graph : ClaimsGraph :=
  {| graph_append input t := let id := toy_id t in Ok (id, set_claims (<[id := toy_claim input id]> (ft_claims t)) t);
     graph_snapshot t := Ok t;
     graph_claims t := (map_to_list (ft_claims t)).*2 |}.

Lemma fields_insert l : NoDup l.*1 → ∀ (m : BTreeMap string Value) k,
  bmap_get k (foldl (λ m f, bmap_insert f.1 f.2 m) m l) = match (list_to_map l : gmap string Value) !! k with Some v => Some v | None => bmap_get k m end.
Proof.
  induction l as [|[x v] l IH]; intros Hd m k; [done|]. cbn in Hd. apply NoDup_cons in Hd as [Hx Hd]. cbn [foldl list_to_map foldr fst snd]. rewrite IH by done.
  destruct (decide (x = k)) as [->|Hne].
  - cbn. rewrite lookup_insert_eq, not_elem_of_list_to_map_1 by done. apply bmap_get_insert.
  - cbn. rewrite lookup_insert_ne by done. destruct (list_to_map l !! k); [done|]. by apply bmap_get_insert_ne.
Qed.
Lemma toy_fields input k : bmap_get k (fields_of (toy_body input)) = in_fields input !! k.
Proof.
  unfold fields_of, toy_body. cbn [value_get assoc]. rewrite String.eqb_refl, fields_insert by apply NoDup_fst_map_to_list. rewrite list_to_map_to_list.
  by destruct (in_fields input !! k).
Qed.
Lemma toy_id_fresh t : ft_claims t !! toy_id t = None.
Proof. apply (not_elem_of_dom (D := gset string)). exact (is_fresh (dom (ft_claims t) : gset string)). Qed.

#[local] Existing Instances toy_graph toy_auth toy_join demo_hex.
Lemma toy_graph_laws : ClaimsGraphLaws.
Proof.
  split.
  - intros input t id t' [= <- <-]. exists (toy_claim input (toy_id t)). cbn. rewrite lookup_insert_eq. split_and!; [done..|]. apply toy_fields.
  - intros input t id t' [= <- <-]. cbn. apply insert_subseteq, toy_id_fresh.
  - by intros t t' [= <-].
Qed.
#[local] Existing Instance toy_graph_laws.

(** ** An open invite *)

(** Every signature verifies; what matters here is the proof of the token. *)
#[local] Instance trusting : Crypto := toy_crypto (λ _, true).
#[local] Instance trusting_laws : JoinLaws := toy_join_laws (λ _, true).

Definition open_row : InviteRow :=
  {| fi_token := Some (hex_encode (jc_token toy_code)); fi_expires_at_unix_ms := 1000; fi_name := Some "laptop"; fi_migrate := false; fi_bound_key := None;
     fi_bound_name := None; fi_failures := 0; fi_admitted_claim := None; fi_writer_floor := None; fi_created_by := Some "person/ada" |}.
Definition store_of (t : FleetTables) : InviteStore :=
  {| is_fleet := t; is_invites := {["invite" := open_row]}; is_fleet_id := Some "fleet"; is_leaving := false; is_cache := None; is_now := 10 |}.
Definition studio : InviteStore := store_of demo_admitted.
Definition ask (build : string) : Joiner := start (bytes_of "laptop's") toy_code "invite" (toy_key "m"%char) "laptop" "dial-out" None build.
Definition bad_request : JoinRequest := with_proof "" (jn_request (ask "1")).

Lemma studio_live : live studio "invite" open_row.
Proof. by split. Qed.

(** ** Five bad proofs *)

Lemma bad_proofs_burn_invite_witness :
  (redeem_each "studio" (replicate 5 bad_request) studio).1 = replicate 5 (Ok (Refused "proof")) ∧
  (exec (redeem_fleet_invite "studio" (jn_request (ask "1"))) (redeem_each "studio" (replicate 5 bad_request) studio).2).1 ∈ [Ok Closed; Ok (Refused "unknown-invite")].
Proof.
  pose proof (bad_proofs_burn_invite "studio" "invite") as Hall. specialize (Hall ltac:(intros t; by eexists _, _) ltac:(intros t; by eexists) studio open_row
    (hex_encode (jc_token toy_code)) (jc_token toy_code) (replicate 5 bad_request) studio_live eq_refl).
  specialize (Hall ltac:(vm_compute; reflexivity) ltac:(unfold FLEET_INVITE_FAILURE_LIMIT; cbn; lia)).
  specialize (Hall ltac:(apply Forall_replicate; split; vm_compute; reflexivity) ltac:(unfold FLEET_INVITE_FAILURE_LIMIT; cbn; lia)).
  destruct (redeem_each "studio" (replicate 5 bad_request) studio) as [answers s']. destruct Hall as [-> Hburned]. split; [reflexivity|].
  apply (Hburned s'); [|reflexivity]. intros invite row Hr. exists row. by split.
Defined.

(** The count is read and written in two accesses: five requests at once count as one. *)
Definition bad_thread : Prog InviteStore St3Error InviteAnswer := thread_of "studio" None (OpRedeem bad_request).
Definition all_at_once : list nat := (concat (replicate 3 [0; 1; 2; 3; 4]) ++ [0; 1; 2; 3; 4] ++ [0; 0; 0; 0; 0])%nat%list.
Definition bad_pool := schedule all_at_once (studio, replicate 5 bad_thread).

(** Five bad proofs that are checked at the same time leave the invite open, with a count of
    one. *)
Lemma concurrent_bad_proofs_undercounted : ∃ tr s ps,
  run (invite_step "studio" None) (studio, []) tr (s, ps) ∧ answers tr = replicate 5 (Redemption bad_request (Refused "proof")) ∧
  live s "invite" (set_failures 1 open_row).
Proof.
  destruct (schedule all_at_once (studio, replicate 5 bad_thread)) as [[tr [s ps]]|] eqn:E.
  - exists ((Started <$> replicate 5 bad_thread) ++ tr)%list, s, ps. split_and!.
    + refine (scheduled_run _ _ all_at_once studio (replicate 5 bad_thread) tr (s, ps) _ E). intros p [-> _]%elem_of_replicate. by exists (OpRedeem bad_request).
    + assert (answers tr = match bad_pool with Some (tr, _) => answers tr | None => [] end) as Ha by (unfold bad_pool; by rewrite E).
      unfold answers in *. rewrite omap_app, Ha. vm_compute. reflexivity.
    + assert (s = match bad_pool with Some (_, (s, _)) => s | None => s end) as -> by (unfold bad_pool; by rewrite E). split; vm_compute; [reflexivity|by eexists|reflexivity|reflexivity].
  - exfalso. revert E. vm_compute. discriminate.
Qed.

(** ** A joiner that asks twice *)

Definition both : list (Prog InviteStore St3Error InviteAnswer) := (λ b, thread_of "studio" None (OpRedeem (jn_request (ask b)))) <$> ["1"; "2"].
(** The second looks for open invites, the first runs to its end, and the second goes on. *)
Definition turns : list nat := ([1; 1] ++ replicate 18 0 ++ replicate 2 0)%nat%list.
Definition both_pool := schedule turns (studio, both).

Lemma invite_admits_one_witness : ∃ s,
  redeemed_by s (jn_request (ask "1")) (jc_token toy_code) None ∧
  (jr_member_key (jn_request (ask "2")), jr_name (jn_request (ask "2")), @None Z) = (jr_member_key (jn_request (ask "1")), jr_name (jn_request (ask "1")), None).
Proof.
  destruct (schedule turns (studio, both)) as [[tr [s ps]]|] eqn:E; [|exfalso; revert E; vm_compute; discriminate].
  assert (answers tr = [Redemption (jn_request (ask "1")) (JoinAdmitted (jc_token toy_code) None (Some "1") true);
                        Redemption (jn_request (ask "2")) (JoinAdmitted (jc_token toy_code) None (Some "1") false)]) as Ha.
  { transitivity (match both_pool with Some (tr, _) => answers tr | None => [] end); [unfold both_pool; by rewrite E|]. vm_compute. reflexivity. }
  exists s. destruct (invite_admits_one "studio" None studio ((Started <$> both) ++ tr)%list s ps (jn_request (ask "1")) (jc_token toy_code) None (Some "1") true
    (jn_request (ask "2")) (jc_token toy_code) None (Some "1") false) as [Hr Hsame].
  - refine (scheduled_run _ _ turns studio both tr (s, ps) _ E). intros p Hp. apply list_elem_of_fmap in Hp as (b & -> & _). by exists (OpRedeem (jn_request (ask b))).
  - unfold answers. rewrite omap_app. apply elem_of_app. right. fold (answers tr). rewrite Ha. by left.
  - unfold answers. rewrite omap_app. apply elem_of_app. right. fold (answers tr). rewrite Ha. by right; left.
  - split; [exact Hr|]. by apply Hsame.
Defined.

(** ** A whole join *)

Definition studio_auth : FleetAuth := {| fa_fleet_id := "fleet"; fa_secret := bytes_of "secret"; fa_member := Some (toy_key "s"%char) |}.
Definition floor_run := exec (fleet_name_floor "laptop" false false) (sweep studio).
Definition read_request (_ : list ascii) : option JoinRequest := Some (jn_request (ask "1")).

Lemma floor_run_ok : floor_run.1 = Ok (Ok None).
Proof. vm_compute. reflexivity. Qed.
Lemma studio_meets : meets (jn_request (ask "1")) open_row.
Proof. by split. Qed.

Lemma join_completes_witness : ∃ response claim s',
  exec (receive_join read_request "studio" studio_auth (bytes_of "studio's") (replicate 12 "n"%char) []) studio = (Ok (Answer response), s') ∧
  open (ask "1") response = Ok (joined "studio" studio_auth s' toy_code None claim).
Proof.
  pose proof (eq_trans (surjective_pairing floor_run) (f_equal (λ a, (a, floor_run.2)) floor_run_ok)) as Hfloor.
  destruct (join_completes read_request "studio" studio_auth ltac:(intros input t; by eexists _, _) ltac:(intros t; by eexists) toy_round_trip
    toy_code "invite" (toy_key "m"%char) (toy_key "s"%char) "laptop" "dial-out" None "1" (bytes_of "laptop's") (bytes_of "studio's") (replicate 12 "n"%char)
    (toy_agree (bytes_of "laptop's") (bytes_of "studio's")) [] studio open_row None floor_run.2 "fleet") as (response & claim & s' & Hex & Hopen & _).
  - reflexivity.
  - reflexivity.
  - intros key m Hk. rewrite !elem_of_cons, elem_of_nil in Hk. destruct Hk as [-> |[-> |[]]]; vm_compute; reflexivity.
  - vm_compute. reflexivity.
  - reflexivity.
  - exact studio_live.
  - reflexivity.
  - exact studio_meets.
  - reflexivity.
  - exact Hfloor.
  - reflexivity.
  - reflexivity.
  - reflexivity.
  - reflexivity.
  - exists response, claim, s'. split; [exact Hex|exact Hopen].
Defined.

(** ** A name that is joined again *)

Definition fleet_batch (n : Z) : Batch :=
  {| ba_id := "batch/a/" +:+ pretty n; ba_origin := "a"; ba_replica_sequence := n; ba_previous_hash := None; ba_hash := ""; ba_accepted_at_unix_ms := 10; ba_rowid := n |}.
Definition fleet_record (n : Z) (input : ClaimInput) : ClaimRecord :=
  {| cm_id := "c" +:+ pretty n; cm_batch_id := "batch/a/" +:+ pretty n; cm_subject := in_subject input; cm_kind := in_kind input; cm_origin := "a"; cm_actor := None;
     cm_body := toy_body input; cm_predecessors := []; cm_accepted_at_unix_ms := 10 |}.
(** The anchor writes a claim, in an envelope that it signs. *)
Definition anchor_writes (n : Z) (input : ClaimInput) (t : FleetTables) : FleetTables :=
  insert_signature_row ("a", n, "e") "KA" "s"
    (insert_envelope_row ("a", n, "e") (demo_row (Some ("batch/a/" +:+ pretty n))) (insert_claim_row (fleet_record n input) (insert_batch_row (fleet_batch n) t))).
(** The laptop was a member and was removed at 7; one more envelope of it arrived. *)
Definition removed_tables : FleetTables :=
  insert_envelope_row ("laptop", 9%Z, "f") (demo_row None)
    (anchor_writes 3 (removed_input "laptop" "lost" "person/ada" 7 (Some "KL"))
      (anchor_writes 2 (claim_input (host_subject "laptop") MEMBER_ADMITTED None [("member_key", VString "KL"); ("via", VString "invite")] None) demo_admitted)).
Definition again : JoinRequest := jn_request (ask "1").
Local Notation rejoin_run := (exec (fleet_name_floor (jr_name again) false false) (store_of removed_tables)).
Definition rejoin_claim : FleetClaim :=
  let input := admitted_input "studio" "fleet" again false (Some 9%Z) None in
  {| fc_id := "c4"; fc_kind := in_kind input; fc_subject := in_subject input; fc_fields := fields_of (toy_body input); fc_writer := "a"; fc_sequence := 4;
     fc_signers := ["KA"] |}.
Lemma rejoin_ok : rejoin_run.1 = Ok (Ok (Some 9%Z)).
Proof. vm_compute. reflexivity. Qed.
Lemma pair_first {A B} (x : A * B) a : x.1 = a → x = (a, x.2).
Proof. by destruct x; intros <-. Qed.

(** The numbers of a claim are in range. *)
Definition numbers_ok (c : FleetClaim) : bool :=
  forallb (λ f : string * Value, match f.2 with VNumber (PosInt n) => (0 <=? n)%Z && (n <=? u64_max)%Z | _ => true end) (fc_fields c).
Lemma numbers_ok_wf l : forallb numbers_ok l = true → Forall claim_numbers_wf l.
Proof.
  intros Hl. apply Forall_forall. intros c Hc k n. rewrite forallb_elem_of in Hl. specialize (Hl c Hc). unfold numbers_ok in Hl. rewrite forallb_elem_of in Hl. unfold fc_number.
  destruct (bmap_get k (fc_fields c)) as [v|] eqn:E; [|done]. cbn. destruct v as [| |[z| |]| | |]; try done. intros [= ->].
  apply bmap_get_elem_of in E. apply Hl in E. cbn in E. apply andb_true_iff in E as [?%Z.leb_le ?%Z.leb_le]. by split.
Qed.

Lemma rejoin_window_fresh_witness :
  let new := admitted_incarnation rejoin_claim (jr_name again) (jr_member_key again) in
  holds new 9 = false ∧ holds new 7 = false ∧ holds new 10 = true.
Proof.
  destruct (rejoin_window_fresh "studio" (store_of removed_tables) false again (Some 9%Z) rejoin_run.2 "fleet" None rejoin_claim) as (Hheld & Hended & Habove).
  - intros folded_at m Hcache. change (@None (Z * Membership) = Some (folded_at, m)) in Hcache. discriminate Hcache.
  - exact (pair_first rejoin_run _ rejoin_ok).
  - apply numbers_ok_wf. vm_compute. reflexivity.
  - reflexivity.
  - split_and!; [reflexivity..|]. apply toy_fields.
  - split_and!.
    + apply Hheld. apply (bool_decide_unpack _). vm_compute. exact I.
    + assert (existsb (λ i, holds i 7) (incarnations_of (fleet_membership_tx (is_fleet rejoin_run.2)) (jr_name again)) = true) as Hex by (vm_compute; reflexivity).
      apply existsb_elem_of in Hex as (i & Hi & H7). destruct (Hended i Hi) as [_ Hnew]. by apply Hnew.
    + apply Habove. vm_compute. reflexivity.
Defined.

(** ** A store that forgets that it wrote *)

(** All of the writer's batches were trimmed. *)
Definition all_trimmed : FleetTables := set_writers (delete_batch demo_first.1 (delete_batch demo_second.1 demo_second.2)) demo_fleet_tables.

(** A store that wrote as a name and trimmed those batches says that it never did, while the
    head of the writer is still known to be 2. *)
Lemma writer_head_forgets_trimmed : writer_head all_trimmed "cedar" = None ∧ writer_high_water all_trimmed "cedar" = Some 2%Z.
Proof. vm_compute. done. Qed.
